(* ===== verification/_CoqProject ===== *)
-Q . S2P
Prelude.v
CircularQueue.v
CircularQueueOps.v
ByteFifo.v
CppString.v
Tokens.v
TokensSpec.v
CppFloat.v
CppNumber.v
Macros.v
Registers.v
MemRequest.v
Bitfield.v
BitfieldSpec.v
AddrRange.v
AddrRangeSpec.v
AddrRangeLaws.v
AddrRangeMap.v
Instructions.v
Compute.v
ComputeSpec.v
FunctionalUnits.v
Parser.v
Scheduler.v
SchedulerInv.v
SchedulerSpec.v
SchedulerLoop.v
SchedulerCycles.v
IRFile.v
ParserTypes.v
ParserRoundTrip.v
ParserExamples.v
ParserSpec.v
CommInterface.v
CommInv.v
CommSpec.v
CommLive.v
EngineRequests.v
Accelerator.v
AcceleratorInv.v
AcceleratorExamples.v
AcceleratorSpec.v
StreamBuffer.v
DmaEvents.v
DmaReadFifo.v
DmaWriteFifo.v
Checkpoint.v
CheckpointSpec.v
StreamDma.v
StreamDmaSpec.v
DmaProgress.v
NoncoherentDma.v
NoncoherentDmaSpec.v
Packets.v
Scratchpad.v
ScratchpadSpec.v
IoAcc.v
IoAccSpec.v
EventQueue.v
EventQueueSpec.v
EventQueueRefine.v
EventQueueTime.v
IntMath.v
BitReverse.v
DmaPort.v
DmaPortSpec.v
DmaSystem.v
DmaChannel.v
DmaDevice.v
DmaSystemInv.v
DmaSystemSpec.v
PacketQueue.v
PacketQueueSpec.v
PioPort.v
XBar.v
XBarSpec.v
Wiring.v
