(* ===== verification/Prelude.v ===== *)
(** * A verification of gem5-SALAM's accelerator model

    gem5-SALAM simulates hardware accelerators from LLVM IR inside gem5.  Its
    own code is [src/src/hwacc/]; the rest of the repository is the gem5
    simulator.  Of the simulator the parts this code runs on are modelled (the
    event queue, the crossbar, the DMA port, address ranges and their map, memory
    commands, rings, checkpoint files); the rest is the environment of the model.

    ** The program and the files that model it

    An accelerator is a compute unit and a communication interface.  The host
    programs memory-mapped registers of the interface ([CommInterface::write]);
    a set run bit starts the unit ([checkMMR], [LLVMInterface::initialize]).
    Each cycle [LLVMInterface::tick] commits finished instructions and launches
    ready ones from its reservation table; a load or store becomes a
    [MemoryRequest] queued at the interface ([enqueueRead], [enqueueWrite]),
    which cuts it into packets ([tryRead], [tryWrite]), sends them through a
    port of the right address range, collects the responses ([recvPacket]) and
    calls back [readCommit] or [writeCommit].  When the [ret] runs the unit
    calls [finish], which sets the done bit and raises the interrupt.  Streams
    are byte FIFOs between accelerators ([StreamBuffer]) or between memory and
    an accelerator ([StreamDma], through [DmaReadFifo] and [DmaWriteFifo]).
    [initialize] first reads the IR listing ([constructBBList]): each line
    becomes an instruction object of a basic block ([BasicBlock::parse]).

    - [Prelude] (this file): outcomes of C++ code ([Ok], or [Err] with the way
      the process stops: panic, assertion, exception, undefined behaviour) and
      their monad, machine integers as [Z] with explicit wrap-around, congruence
      modulo a power of two with its [Proper] instances, little-endian byte
      images, memory blocks, the tactics and hint databases.
    - [CircularQueue]: [base/circular_queue.hh] and [base/circlebuf.hh], the ring
      with its head, tail, empty flag and 32-bit round counter.  [CircularQueueOps]:
      the operations of the ring that its FIFO does not use (both ends, iterators
      that move back), against a list.  [ByteFifo]: the class of bounded byte
      queues, its laws, and the instance for the ring.
    - [CppString], [CppFloat]: [std::string] and [stoi]; [float] and [double] as
      bit patterns with the arithmetic of the Standard Library's [SpecFloat].
    - [Macros], [Registers], [MemRequest], [Instructions]: [macros.hh],
      [registers.{hh,cc}] with [llvm_types], [mem_request.{hh,cc}],
      [base_instruction.{hh,cc}] and the classes of [instructions.hh].
    - [Compute]: [compute()] of every instruction class of [instructions.cc], on
      the host's 64-bit arithmetic.  [ComputeSpec]: LLVM's meaning of the
      integer operations and the refinement theorems.
    - [FunctionalUnits]: the unit limits and cycle statistics of
      [llvm_interface.cc], with [utilization.cc] and [functional_units.cc].
    - [Scheduler]: [LLVMInterface], its queues and the heap of instruction
      objects with their dependency links; [tick], [scheduleBB], [findParent],
      [commit], [readCommit], [writeCommit], [initialize], [finalize].
      [SchedulerInv]: the step relation and the invariant; [SchedulerSpec]: the
      theorems and an example run; [SchedulerLoop]: the loop of a tick ends;
      [SchedulerCycles]: what the cycle statistics count.
    - [CppNumber]: [strtol], [stol], [to_string], [stod] and the words of a
      string stream.  [Tokens]: the opcode and the parameters of a line of IR;
      [TokensSpec]: a reference lexer.  [Parser]: [BasicBlock::parse], one
      definition per case of its switch, with [basic_block.hh] and
      [cycle_count.hh].  [IRFile]: [constructBBList] on the text of the file, and
      [initialize] from it.  [ParserTypes]: the typing of instruction objects;
      [ParserRoundTrip]: printed operations; [ParserSpec]: the theorems;
      [ParserExamples]: a program from its text to its end, and lines the parser
      gets wrong.
    - [CommInterface]: [comm_interface.{hh,cc}]; the compute unit is a class
      ([ComputeUnit]: its calls into the interface in reaction to each callback).
      [CommInv]: the invariant, kept by every operation; [CommSpec]: the step
      relation, the theorems and an example run.  [CommLive]: the work left for
      the open requests, runs under a fair environment, and completion.
    - [EngineRequests]: the invariant of the engine's memory requests.
      [Accelerator]: the engine as the compute unit of the interface;
      [AcceleratorInv]: the step relation of both and its invariant;
      [AcceleratorExamples]: a program from its text to the interrupt;
      [AcceleratorSpec]: the theorem.
    - [StreamBuffer]: [stream_port.hh], over any device of the class
      [StreamDevice], and [stream_buffer.{hh,cc}], on any [ByteFifo].
    - [DmaEvents], [DmaReadFifo], [DmaWriteFifo]: [DmaReadFifo] of
      [dev/dma_device.cc] and [dma_write_fifo.{hh,cc}], on any [ByteFifo], with
      the request objects both have.
    - [Checkpoint]: [base/str.{hh,cc}], [base/inifile.{hh,cc}] and
      [sim/serialize.{hh,cc}], with [serialize] and [unserialize] of the FIFOs,
      the two DMA FIFOs and the stream buffer; [CheckpointSpec]: what a text
      written this way contains, and the round trip.
    - [StreamDma]: [stream_dma.{hh,cc}] over the two FIFOs, a [StreamDevice];
      [StreamDmaSpec]: its sessions.
    - [DmaProgress]: how far a block of a DMA FIFO has come.  [NoncoherentDma]:
      [noncoherent_dma.{hh,cc}], which copies memory to memory through the two
      FIFOs; [NoncoherentDmaSpec]: its transfers.
    - [Bitfield], [BitfieldSpec]: [base/bitfield.hh] on 64-bit values, and its bit
      tricks against reference definitions.  [AddrRange]: [base/addr_range.hh];
      [AddrRangeSpec]: offsets and merging; [AddrRangeLaws]: subsets,
      intersections, the constructor by bit positions, the way back from a flat
      address.  [AddrRangeMap]: [base/addr_range_map.hh], an ordered map with a
      cache, against a list of entries.  [Packets]: the table of the memory commands of
      [mem/packet.{hh,cc}].
    - [Scratchpad]: [scratchpad_memory.{hh,cc}] with what it inherits from
      [mem/abstract_mem.cc]: ready bits, LL/SC, ports with a bandwidth, the queue
      of responses; [ScratchpadSpec]: its theorems and example runs.
    - [PacketQueue]: [mem/packet_queue.{hh,cc}], [mem/tport.cc] and the class
      [PioPort] of [dev/io_device.hh], over any device of the class [PioDevice];
      [PacketQueueSpec]: the order of the packets and the runs of a queue;
      [PioPort]: the runs of the port, and [CommInterface] as its device.
    - [IoAcc]: [io_acc.{hh,cc}], the accelerator with a fixed function, its MMR
      and its transfers; [IoAccSpec]: a run of it, from the host's write to the
      interrupt.
    - [EventQueue]: [sim/eventq.{hh,cc}] with [base/flags.hh]: the bins of events
      linked by pointers on a heap of event objects; [EventQueueSpec]: the shape
      of the bins and what insertion and removal do to it; [EventQueueRefine]:
      the sorted list the queue stands for; [EventQueueTime]: the order of
      service and the clock.
    - [IntMath]: [base/intmath.hh] and [base/chunk_generator.hh].  [BitReverse]:
      the rest of [base/bitfield.{hh,cc}] and [base/intmath.hh].  [DmaPort]: the
      class [DmaPort] of [dev/dma_device.{hh,cc}], which cuts an action into
      packets and counts their responses; [DmaPortSpec]: its steps and theorem.
    - [DmaSystem]: the device of [NoncoherentDma] on two [DmaPort]s, with the
      blocks the packets point into and memory; [DmaChannel]: what the events of a
      port do to the bytes in flight; [DmaDevice]: what those of the device do to
      its requests; [DmaSystemInv]: the invariant, which relates the whole to
      [NoncoherentDmaSpec], where an action is one step; [DmaSystemSpec]: every
      event keeps it, and the theorem.
    - [XBar]: [mem/xbar.{hh,cc}] and [mem/noncoherent_xbar.{hh,cc}], the bus of a
      cluster, with the clock of [sim/clocked_object.hh]: one layer per port with
      its state, its queue of waiting ports and its event, the routing table and
      the address map.  A retry hands control to a peer, which may send packets
      before it returns: those calls are an argument of the step.  [XBarSpec]: the
      invariant, the configuration by range reports, the runs and the theorem.
    - [Wiring]: [getPort] of the devices, the binding of stream ports, the cluster
      object and the destructors of the DMA FIFOs.

    ** What the theorems show

    - Scheduling (C1 to C4, C20).  In every state reachable by ticks and memory
      completions in any order, for any program whose basic blocks are well
      formed: an instruction that may launch waits for no one in flight; the
      counter of active parents is exact; with nothing outside the reservation
      table its head can always proceed, so the engine does not deadlock; a
      commit delivers its value to every operand that waits for it; the loop of
      a tick ends after a number of turns that is stated.
    - Memory (C5 to C9; C7 is the liveness).  In every state reachable by ticks, accepted or
      refused packets, retries, responses in any order and any calls of the
      compute unit: each request is in one list once, packets in flight belong
      to one request and one port slot each, stay within a cache line and carry
      the right bytes, the last response commits exactly the bytes its packets
      were shown (each request sees its own memory, so memory may change),
      a queued request always has a tick pending (a lemma), and the only failure of the
      dispatch loop is the panic for an address in no range.  When packets are
      answered, refused ports are retried, scheduled ticks run and the ports
      become ready for the requests that wait, every request completes: each event that serves a request lowers a measure of the work
      left, and while a request is open one of them is due.
    - Arithmetic (C10 to C12).  [compute()] agrees with LLVM on i32 (but for [lshr], and for
      [udiv] and [urem] by a negative immediate), on the ten
      integer comparisons and for array [getelementptr], and at the other types
      modulo the width (a lemma); the preconditions say where the host's 64-bit signed
      arithmetic would overflow.
    - Resources (C22): over any run each counter of the occupancy statistics
      is the number of cycles of its kind; the limits of functional units are
      lemmas of [FunctionalUnits].
    - Streams (C13 to C19).  The ring is a bounded queue, also when
      it is used from both ends (C14); a stream buffer hands
      out exactly what it accepted, until a read of a size it has no case for; the stream DMA turns the programmed frames
      of memory into the stream, and the stream into the programmed frames,
      whatever the interleaving of ticks, transfers and DMA completions; the DMA
      FIFOs read and write blocks contiguously, in order and completely, and a
      block never gets stuck.  The retry protocol of the ports is a lemma.  A
      checkpoint of drained FIFOs and stream buffers restores them
      (C18): the text that is written is read back section by section.
    - Copies.  The DMA device copies the programmed block, changes
      nothing else and raises one interrupt, under any order of ticks and
      completions; it finishes after a stated number of rounds ([NoncoherentDmaSpec]).  The same holds of
      the device on its ports, packet by packet (C23): the answers to the
      packets of both ports may come in any order, and at most [9 * len + 2] events
      bring the transfer forward.
    - Scratchpad (C24 to C26).  In every mode the private ports see full and
      empty cells; requests on all ports are served as by a sequential memory in
      the order taken, up to a retry of a response that is no longer remembered;
      no port and no response is left waiting.
    - Reader of the IR (C27 to C30).  Whatever the text, the objects built are
      well typed, the pointers the code never sets excepted, and an engine started on them keeps the promises of the scheduler;
      a printed integer operation is read back; the tokenizer agrees with a
      lexer that counts the depth of groups.
    - Engine and interface together (C31).  From power-on, under any order of the
      two ticks, responses, retries and register writes, the loads and stores
      the engine waits for are exactly the requests alive in the interface; none
      waits for nothing, and done is reported only when none is left.
    - Registers (C21): whatever happens in between, reads return what was last
      written, and the flags; that the end of a
      run sets the done bit and raises the interrupt is a lemma of [CommSpec].
    - Event queue (C37, C38).  Under any sequence of schedule,
      deschedule, reschedule and service of the head, the linked bins stand for
      a list sorted by time and priority, in which an event goes in front of its
      equals; the queue fails exactly when its assertions do; events are served
      in that order and the clock never runs backwards.
    - DMA port (C39).  Under any interleaving of actions, refusals, retries
      and responses in any order, the packets of an action are the chunks of its
      range, sent once each and in order, and its completion event is scheduled
      once, when the bytes answered are all of them; the one assertion that can fail
      is that of [schedule], for an event that two actions share.
    - Register port (C35, C36).  The packets of a port leave in an order that
      depends on their arrivals alone, when they are due, and none gets stuck (a
      queue of more than 100 packets is a panic unless the check is disabled);
      the port answers each request of the host once, with what the device
      answered when the request came.
    - Address ranges (C32, C33).  The offsets in an interleaved range are a
      bijection onto the numbers below its size; the map of ranges answers like a
      list searched from end to end, but for the first address of hashed stripes.  Lemmas: merged ranges partition the
      addresses of the result, a range that passes the subset test is a
      subset, ranges said to be disjoint are, the ranges given by bit positions
      compare the fields of the address, and up to two masks the removed bits can
      be put back ([AddrRangeLaws]); the bit tricks agree with logarithm, lowest
      bit and count of bits ([BitfieldSpec]).
    - Crossbar (C34).  Under any order of requests, refusals, retries and
      responses, nested retries included, no assertion fails, no port is left
      waiting without a wake-up, requests go to the port whose range holds them,
      responses to the port that waits for them, and the ranges passed on are
      those of the ports.
    - Fixed function (C40).  A run of [IOAcc] reads the four bytes at its address,
      writes four computed ones there, ends after at most 101 changes, raises
      the interrupt once and sets the done bit.

    ** Bounds and fuel

    Loops of the source that walk a list are structural recursions.  The loop
    over the compute queue erases an entry or passes it, so the length of the
    queue bounds it.  The loop over the reservation table ([reservationLoop])
    takes fuel, since a program can keep it busy for ever; C20 says how much is
    enough, and the invariants hold for any fuel.  The loops of the reader take
    the length of the text they read as fuel: a turn that ends consumes a
    character or a line, so [Err OutOfFuel] is the endless loop the code enters
    on a group or a switch that is never closed.
    The walks of the event queue take the number of events as fuel, one turn per
    event passed; a generator of chunks takes the number of bytes; both are shown
    to be enough.
    Capacities are below [2^31] and fewer than [2^32 - 2] writes are made to a
    ring, since its round counter is an [uint32_t] whose wrap-around breaks the
    order of its iterators; DMA blocks do not wrap around the address space, and
    the memory a stream DMA reads does not change while it does.  The counters of
    a DMA port are [uint32_t], so fewer than [2^32] of its packets are in flight.
    Ranges have at most eight interleaving masks, since the match value is a byte.
    The splitting of strings and the reading of a checkpoint take the length of the
    text as fuel, a character per turn; both are shown to be enough.  Times in the
    crossbar are below [2^63], so that no sum of delays wraps around.

    ** What is not modelled

    Printed reports, statistics and power figures, the marks of checkpoint
    entries that were read, the locks and the table of the event queues of several
    threads, and the rest of gem5 (processors, caches, the coherent crossbar): packets that are accepted or refused, responses and retries are inputs of
    the steps, interrupts, callbacks and DMA actions are their outputs.

    ** Order of the work left

    The coherent crossbar; the accelerator on the crossbar and the scratchpad;
    sizes of registers at run time; a second start that finds instructions of the first
    run in the reservation table; the devices' ticks as events of [EventQueue];
    the stream DMA on its port. *)
From stdpp Require Export prelude list.
From Stdlib Require Export ZArith Lia.

#[global] Open Scope Z_scope.

(** ** Outcomes of C++ code

    A call either returns, or the process stops: [panic]/[fatal]/[assert] end
    the simulation, [.at()] out of range throws [std::out_of_range], and an
    access the language leaves undefined is [Undefined]. *)

Inductive error :=
  | Panic
  | AssertFail
  | OutOfRange
  | InvalidArgument
  | Undefined
  | OutOfFuel.

#[export] Instance error_eq_dec : EqDecision error.
Proof. solve_decision. Defined.

Inductive outcome (A : Type) :=
  | Ok (a : A)
  | Err (e : error).
Arguments Ok {A} a.
Arguments Err {A} e.

#[export] Instance outcome_ret : MRet outcome := fun A a => Ok a.
#[export] Instance outcome_bind : MBind outcome := fun A B k m =>
  match m with Ok a => k a | Err e => Err e end.
#[export] Instance outcome_fmap : FMap outcome := fun A B f m =>
  match m with Ok a => Ok (f a) | Err e => Err e end.

Declare Scope salam_scope.
Delimit Scope salam_scope with salam.
Notation "'let*' x ':=' m 'in' k" := (mbind (fun x => k) m)
  (at level 10, x pattern, m at level 100, k at level 200,
   format "'[v' 'let*'  x  ':='  m  'in' '/' k ']'") : salam_scope.
#[global] Open Scope salam_scope.

(** [std::vector::at]: checked access. *)
Definition vec_at {A} (l : list A) (i : nat) : outcome A :=
  match l !! i with Some x => Ok x | None => Err OutOfRange end.

(** [operator[]] and raw pointers: unchecked access, undefined out of range. *)
Definition vec_get {A} (l : list A) (i : nat) : outcome A :=
  match l !! i with Some x => Ok x | None => Err Undefined end.

(** Assignment through [.at(i)]. *)
Definition vec_set_at {A} (l : list A) (i : nat) (x : A) : outcome (list A) :=
  match l !! i with Some _ => Ok (<[i:=x]> l) | None => Err OutOfRange end.

Definition assert_ (b : bool) : outcome unit :=
  if b then Ok tt else Err AssertFail.

Definition panic_if (b : bool) : outcome unit :=
  if b then Err Panic else Ok tt.

Fixpoint foldM {A B} (f : A → B → outcome A) (l : list B) (a : A) : outcome A :=
  match l with
  | [] => Ok a
  | x :: l => let* a' := f a x in foldM f l a'
  end.

(** ** Machine integers

    A w-bit value is a [Z]; [wrapU w] and [wrapS w] are the conversions to the
    unsigned and the signed w-bit type. *)

Definition wrapU (w z : Z) : Z := z mod 2 ^ w.
Definition wrapS (w z : Z) : Z := (z + 2 ^ (w - 1)) mod 2 ^ w - 2 ^ (w - 1).

Abbreviation u8 := (wrapU 8).
Abbreviation u16 := (wrapU 16).
Abbreviation u32 := (wrapU 32).
Abbreviation u64 := (wrapU 64).
Abbreviation s8 := (wrapS 8).
Abbreviation s16 := (wrapS 16).
Abbreviation s32 := (wrapS 32).
Abbreviation s64 := (wrapS 64).

Definition inU (w z : Z) : Prop := 0 ≤ z < 2 ^ w.
Definition inS (w z : Z) : Prop := - 2 ^ (w - 1) ≤ z < 2 ^ (w - 1).

(** [memcpy(&dst, &src, n)] on two little-endian integers of at least [n]
    bytes: the low [n] bytes of [dst] are replaced. *)
Definition memcpy_int (n dst src : Z) : Z :=
  dst - dst mod 2 ^ (8 * n) + src mod 2 ^ (8 * n).

(** Little-endian byte images. *)
Fixpoint le_bytes (n : nat) (z : Z) : list Z :=
  match n with
  | O => []
  | S n => z mod 2 ^ 8 :: le_bytes n (z / 2 ^ 8)
  end.

Fixpoint le_val (bs : list Z) : Z :=
  match bs with
  | [] => 0
  | b :: bs => b mod 2 ^ 8 + 2 ^ 8 * le_val bs
  end.

(** A block of memory is a list of bytes; an access outside it is undefined. *)
Definition in_block (m : list Z) (off n : Z) : bool :=
  (0 <=? off) && (0 <=? n) && (off + n <=? Z.of_nat (length m)).

Definition mem_read (m : list Z) (off n : Z) : outcome (list Z) :=
  if in_block m off n then Ok (take (Z.to_nat n) (drop (Z.to_nat off) m)) else Err Undefined.

Definition mem_write (m : list Z) (off : Z) (bs : list Z) : outcome (list Z) :=
  if in_block m off (Z.of_nat (length bs))
  then Ok (take (Z.to_nat off) m ++ bs ++ drop (Z.to_nat off + length bs) m)
  else Err Undefined.

(** [*(uintN_t * )(m + off)] on the little-endian host. *)
Definition load_uint (m : list Z) (off n : Z) : outcome Z :=
  let* bs := mem_read m off n in Ok (le_val bs).

(** ** Tactics *)

(** Split a successful monadic run into its steps. *)
Lemma bind_ok {A B} (m : outcome A) (k : A → outcome B) b :
  (let* x := m in k x) = Ok b ↔ ∃ a, m = Ok a ∧ k a = Ok b.
Proof. destruct m; simpl; split; [eauto|by intros (?&[= ->]&?)|done|by intros (?&?&?)]. Qed.

Lemma assert_ok b u : assert_ b = Ok u ↔ b = true.
Proof. destruct b, u; naive_solver. Qed.

Lemma panic_if_ok b u : panic_if b = Ok u ↔ b = false.
Proof. destruct b, u; naive_solver. Qed.

Lemma vec_at_ok {A} (l : list A) i x : vec_at l i = Ok x ↔ l !! i = Some x.
Proof. unfold vec_at. destruct (l !! i); naive_solver. Qed.

Lemma vec_get_ok {A} (l : list A) i x : vec_get l i = Ok x ↔ l !! i = Some x.
Proof. unfold vec_get. destruct (l !! i); naive_solver. Qed.

Lemma vec_set_at_ok {A} (l l' : list A) i x :
  vec_set_at l i x = Ok l' ↔ (i < length l)%nat ∧ l' = <[i:=x]> l.
Proof.
  unfold vec_set_at. destruct (l !! i) eqn:E.
  - apply lookup_lt_Some in E. split; [by intros [= <-]|by intros [_ ->]].
  - apply lookup_ge_None in E. split; [done|]. intros [? _]. lia.
Qed.

(** [mon] destructs every hypothesis that says a monadic run returned. *)
Ltac mon_step :=
  match goal with
  | H : Ok _ = Ok _ |- _ => injection H as H; subst
  | H : Err _ = Ok _ |- _ => discriminate H
  | H : Ok _ = Err _ |- _ => discriminate H
  | H : mbind _ _ = Ok _ |- _ =>
      apply bind_ok in H; destruct H as (? & ? & H)
  | H : assert_ _ = Ok _ |- _ => apply assert_ok in H
  | H : panic_if _ = Ok _ |- _ => apply panic_if_ok in H
  | H : vec_at _ _ = Ok _ |- _ => apply vec_at_ok in H
  | H : vec_get _ _ = Ok _ |- _ => apply vec_get_ok in H
  | H : vec_set_at _ _ _ = Ok _ |- _ => apply vec_set_at_ok in H; destruct H as [? ?]
  end.
Ltac mon := repeat mon_step.
(** The same, with the pairs the steps return taken apart. *)
Ltac monp := repeat (mon_step || match goal with x : (_ * _)%type |- _ => destruct x end || simplify_eq).

(** Turn boolean comparisons of hypotheses and goal into propositions. *)
Ltac zbool :=
  repeat match goal with
  | H : (_ =? _) = true |- _ => apply Z.eqb_eq in H
  | H : (_ =? _) = false |- _ => apply Z.eqb_neq in H
  | H : (_ <? _) = true |- _ => apply Z.ltb_lt in H
  | H : (_ <? _) = false |- _ => apply Z.ltb_ge in H
  | H : (_ <=? _) = true |- _ => apply Z.leb_le in H
  | H : (_ <=? _) = false |- _ => apply Z.leb_gt in H
  | H : negb _ = true |- _ => apply negb_true_iff in H
  | H : negb _ = false |- _ => apply negb_false_iff in H
  | H : (_ && _)%bool = true |- _ => apply andb_true_iff in H; destruct H as [? ?]
  | H : (_ || _)%bool = false |- _ => apply orb_false_iff in H; destruct H as [? ?]
  end.

Ltac case_zbool :=
  match goal with
  | |- context [?a =? ?b] => destruct (Z.eqb_spec a b)
  | |- context [?a <? ?b] => destruct (Z.ltb_spec a b)
  | |- context [?a <=? ?b] => destruct (Z.leb_spec a b)
  end.

(** ** Integer lemmas *)

Lemma pow2_pos w : 0 ≤ w → 0 < 2 ^ w.
Proof. intros. apply Z.pow_pos_nonneg; lia. Qed.

Lemma pow2_half w : 0 < w → 2 ^ w = 2 * 2 ^ (w - 1).
Proof. intros. rewrite <-(Z.pow_succ_r 2) by lia. f_equal. lia. Qed.

Lemma wrapU_range w z : 0 ≤ w → inU w (wrapU w z).
Proof. intros. apply Z.mod_pos_bound, pow2_pos; lia. Qed.

Lemma wrapU_id w z : inU w z → wrapU w z = z.
Proof. intros. by apply Z.mod_small. Qed.

Lemma wrapS_range w z : 0 < w → inS w (wrapS w z).
Proof.
  intros. unfold inS, wrapS.
  pose proof (Z.mod_pos_bound (z + 2 ^ (w - 1)) (2 ^ w) ltac:(apply pow2_pos; lia)).
  pose proof (pow2_half w). lia.
Qed.

Lemma wrapS_id w z : 0 < w → inS w z → wrapS w z = z.
Proof.
  intros Hw [??]. unfold wrapS. pose proof (pow2_half w Hw).
  rewrite Z.mod_small; lia.
Qed.

Lemma mod_pow2_le w v z : 0 ≤ v ≤ w → (z mod 2 ^ w) mod 2 ^ v = z mod 2 ^ v.
Proof.
  intros. apply Z.mod_mod_divide.
  exists (2 ^ (w - v)). rewrite <-Z.pow_add_r by lia. f_equal. lia.
Qed.

(** Both conversions agree with their argument modulo any smaller width. *)
Lemma wrapU_mod w v z : 0 ≤ v ≤ w → wrapU w z mod 2 ^ v = z mod 2 ^ v.
Proof. apply mod_pow2_le. Qed.

Lemma wrapS_mod w v z : 0 ≤ v ≤ w → 0 < w → wrapS w z mod 2 ^ v = z mod 2 ^ v.
Proof.
  intros. unfold wrapS.
  rewrite Zminus_mod, mod_pow2_le, <-Zminus_mod by lia.
  f_equal. lia.
Qed.

(** Congruence modulo a power of two, the equivalence of machine values. *)
Definition eqm (v a b : Z) : Prop := a mod 2 ^ v = b mod 2 ^ v.

#[export] Instance eqm_equiv v : Equivalence (eqm v).
Proof. split; unfold eqm; repeat intro; congruence. Qed.

#[export] Instance eqm_add v : Proper (eqm v ==> eqm v ==> eqm v) Z.add.
Proof. intros a a' H b b' H'. unfold eqm in *. by rewrite Zplus_mod, H, H', <-Zplus_mod. Qed.

#[export] Instance eqm_sub v : Proper (eqm v ==> eqm v ==> eqm v) Z.sub.
Proof. intros a a' H b b' H'. unfold eqm in *. by rewrite Zminus_mod, H, H', <-Zminus_mod. Qed.

#[export] Instance eqm_mul v : Proper (eqm v ==> eqm v ==> eqm v) Z.mul.
Proof. intros a a' H b b' H'. unfold eqm in *. by rewrite Zmult_mod, H, H', <-Zmult_mod. Qed.

Lemma eqm_bits v a b :
  0 ≤ v → eqm v a b ↔ (∀ i, 0 ≤ i < v → Z.testbit a i = Z.testbit b i).
Proof.
  intros Hv. unfold eqm. rewrite <-!Z.land_ones by lia. split.
  - intros H i Hi. apply (f_equal (fun z => Z.testbit z i)) in H.
    rewrite !Z.land_spec, Z.ones_spec_low in H by lia. by rewrite !andb_true_r in H.
  - intros H. apply Z.bits_inj'. intros i Hi. rewrite !Z.land_spec.
    destruct (decide (i < v)).
    + by rewrite H by lia.
    + by rewrite Z.ones_spec_high, !andb_false_r by lia.
Qed.

(** Bitwise operations act on each bit alone, hence respect [eqm]. *)
Lemma eqm_bitwise (f : Z → Z → Z) (g : bool → bool → bool) v :
  (∀ a b i, 0 ≤ i → Z.testbit (f a b) i = g (Z.testbit a i) (Z.testbit b i)) →
  Proper (eqm v ==> eqm v ==> eqm v) f.
Proof.
  intros Hf a a' H b b' H'. destruct (decide (0 ≤ v)).
  - rewrite eqm_bits in * by lia. intros. rewrite !Hf by lia. by rewrite H, H'.
  - unfold eqm in *. rewrite !Z.pow_neg_r, !Z.mod_0_r in * by lia. congruence.
Qed.

#[export] Instance eqm_land v : Proper (eqm v ==> eqm v ==> eqm v) Z.land.
Proof. apply (eqm_bitwise _ andb). intros. apply Z.land_spec. Qed.
#[export] Instance eqm_lor v : Proper (eqm v ==> eqm v ==> eqm v) Z.lor.
Proof. apply (eqm_bitwise _ orb). intros. apply Z.lor_spec. Qed.
#[export] Instance eqm_lxor v : Proper (eqm v ==> eqm v ==> eqm v) Z.lxor.
Proof. apply (eqm_bitwise _ xorb). intros. apply Z.lxor_spec. Qed.

Lemma eqm_wrapU w v z : 0 ≤ v ≤ w → eqm v (wrapU w z) z.
Proof. apply wrapU_mod. Qed.
Lemma eqm_wrapS w v z : 0 < w → 0 ≤ v ≤ w → eqm v (wrapS w z) z.
Proof. intros. by apply wrapS_mod. Qed.
Lemma eqm_mod w v z : 0 ≤ v ≤ w → eqm v (z mod 2 ^ w) z.
Proof. apply mod_pow2_le. Qed.
Lemma eqm_le w v a b : 0 ≤ v ≤ w → eqm w a b → eqm v a b.
Proof. intros ? H. unfold eqm in *. by rewrite <-(mod_pow2_le w v a), H, mod_pow2_le. Qed.
Lemma eqm_inU w a b : eqm w a b → inU w a → inU w b → a = b.
Proof. unfold eqm, inU. intros H ??. rewrite !Z.mod_small in H; done. Qed.
Lemma eqm_inS w a b : 0 < w → eqm w a b → inS w a → inS w b → a = b.
Proof.
  intros Hw H Ha Hb. rewrite <-(wrapS_id w a), <-(wrapS_id w b) by done. unfold wrapS.
  f_equal. change (eqm w (a + 2 ^ (w - 1)) (b + 2 ^ (w - 1))). by f_equiv.
Qed.

(** [memcpy_int] replaces the low bytes and keeps the others. *)
Lemma memcpy_int_low n v dst src :
  0 ≤ v ≤ 8 * n → eqm v (memcpy_int n dst src) src.
Proof.
  intros. apply (eqm_le (8 * n)); [lia|]. unfold eqm, memcpy_int.
  rewrite Zplus_mod, Zminus_mod, !Zmod_mod, Z.sub_diag, Zmod_0_l. apply Zmod_mod.
Qed.

Lemma memcpy_int_high n dst src :
  0 ≤ n → memcpy_int n dst src / 2 ^ (8 * n) = dst / 2 ^ (8 * n).
Proof.
  intros. unfold memcpy_int. pose proof (pow2_pos (8 * n) ltac:(lia)) as Hp.
  rewrite (Z.div_mod dst (2 ^ (8 * n))) at 1 by lia.
  pose proof (Z.mod_pos_bound src _ Hp).
  replace (_ + _ - _ + _) with (src mod 2 ^ (8 * n) + dst / 2 ^ (8 * n) * 2 ^ (8 * n)) by lia.
  rewrite Z.div_add by lia. rewrite Z.div_small by lia. lia.
Qed.

Lemma memcpy_int_eq n dst src :
  0 ≤ n → memcpy_int n dst src = src mod 2 ^ (8 * n) + dst / 2 ^ (8 * n) * 2 ^ (8 * n).
Proof.
  intros. unfold memcpy_int. pose proof (pow2_pos (8 * n) ltac:(lia)).
  rewrite (Z.div_mod dst (2 ^ (8 * n))) at 1 by lia. lia.
Qed.

Lemma memcpy_int_range n dst src :
  0 ≤ n ≤ 8 → inU 64 dst → inU 64 (memcpy_int n dst src).
Proof.
  intros Hn [Hd0 Hd]. rewrite memcpy_int_eq by lia. unfold inU.
  pose proof (pow2_pos (8 * n) ltac:(lia)) as Hp.
  pose proof (Z.mod_pos_bound src _ Hp).
  assert (2 ^ 64 = 2 ^ (64 - 8 * n) * 2 ^ (8 * n)) as E
    by (rewrite <-Z.pow_add_r by lia; f_equal; lia).
  assert (0 ≤ dst / 2 ^ (8 * n)) by (apply Z.div_pos; lia).
  assert (dst / 2 ^ (8 * n) < 2 ^ (64 - 8 * n)) by (apply Z.div_lt_upper_bound; lia).
  nia.
Qed.

Lemma memcpy_int_0 dst src : memcpy_int 0 dst src = dst.
Proof. unfold memcpy_int. rewrite !Z.mod_1_r. lia. Qed.

(** ** Byte images *)

Lemma length_le_bytes n z : length (le_bytes n z) = n.
Proof. revert z. induction n as [|n IH]; intros z; simpl; [done|by rewrite IH]. Qed.

Lemma le_bytes_range n z : Forall (inU 8) (le_bytes n z).
Proof.
  revert z. induction n as [|n IH]; intros z; simpl; constructor; [|done].
  by apply (wrapU_range 8 z).
Qed.

Lemma le_val_range bs : 0 ≤ le_val bs < 2 ^ (8 * Z.of_nat (length bs)).
Proof.
  induction bs as [|b bs IH]; [done|]. cbn [le_val length].
  rewrite Nat2Z.inj_succ. replace (8 * Z.succ _) with (8 + 8 * Z.of_nat (length bs)) by lia.
  rewrite Z.pow_add_r by lia. pose proof (Z.mod_pos_bound b (2 ^ 8) ltac:(lia)). nia.
Qed.

(** Encode then decode: the value modulo its width. *)
Lemma le_val_bytes n z : le_val (le_bytes n z) = z mod 2 ^ (8 * Z.of_nat n).
Proof.
  revert z. induction n as [|n IH]; intros z; [by rewrite Z.mod_1_r|].
  cbn [le_val le_bytes]. rewrite IH, Zmod_mod.
  replace (8 * Z.of_nat (S n)) with (8 + 8 * Z.of_nat n) by lia.
  rewrite Z.pow_add_r by lia. symmetry. apply Z.rem_mul_r; [done|]. by apply pow2_pos; lia.
Qed.

(** Decode then encode: the bytes themselves. *)
Lemma le_bytes_val bs : Forall (inU 8) bs → le_bytes (length bs) (le_val bs) = bs.
Proof.
  induction 1 as [|b bs Hb _ IH]; [done|]. cbn [le_val le_bytes length].
  rewrite (Z.mod_small b) by done.
  rewrite (Z.mul_comm (2 ^ 8)), Z.mod_add, Z.div_add by done.
  rewrite (Z.mod_small b), (Z.div_small b) by done. f_equal. exact IH.
Qed.

Lemma le_val_app a b : le_val (a ++ b) = le_val a + 2 ^ (8 * Z.of_nat (length a)) * le_val b.
Proof.
  induction a as [|x a IH]; [simpl; lia|]. cbn [le_val app length]. rewrite IH.
  replace (8 * Z.of_nat (S (length a))) with (8 + 8 * Z.of_nat (length a)) by lia.
  rewrite Z.pow_add_r by lia. ring.
Qed.

(** The first bytes of a longer little-endian value. *)
Lemma le_bytes_app_val bs z :
  Forall (inU 8) bs → le_bytes (length bs) (le_val bs + 2 ^ (8 * Z.of_nat (length bs)) * z) = bs.
Proof.
  intros Hbs. revert z. induction Hbs as [|b bs Hb _ IH]; intros z; [done|].
  cbn [le_val le_bytes length]. rewrite (Z.mod_small b) by done.
  replace (8 * Z.of_nat (S (length bs))) with (8 + 8 * Z.of_nat (length bs)) by lia.
  rewrite Z.pow_add_r by lia.
  replace (b + 2 ^ 8 * le_val bs + 2 ^ 8 * 2 ^ (8 * Z.of_nat (length bs)) * z)
    with (b + (le_val bs + 2 ^ (8 * Z.of_nat (length bs)) * z) * 2 ^ 8) by ring.
  rewrite Z.mod_add, Z.div_add by done.
  rewrite (Z.mod_small b), (Z.div_small b), Z.add_0_l by done. by rewrite IH.
Qed.

(** ** Memory blocks *)

Lemma in_block_spec m off n :
  in_block m off n = true ↔ 0 ≤ off ∧ 0 ≤ n ∧ off + n ≤ Z.of_nat (length m).
Proof. unfold in_block. rewrite !andb_true_iff, !Z.leb_le. tauto. Qed.

Lemma mem_read_ok m off n :
  0 ≤ off → 0 ≤ n → off + n ≤ Z.of_nat (length m) →
  mem_read m off n = Ok (take (Z.to_nat n) (drop (Z.to_nat off) m)).
Proof. intros. unfold mem_read. by rewrite (proj2 (in_block_spec _ _ _)) by lia. Qed.

Lemma mem_read_length m off n bs : mem_read m off n = Ok bs → length bs = Z.to_nat n.
Proof.
  unfold mem_read. destruct (in_block m off n) eqn:E; [|done]. intros [= <-].
  apply in_block_spec in E. rewrite length_take, length_drop. lia.
Qed.

Lemma mem_write_ok m off bs :
  0 ≤ off → off + Z.of_nat (length bs) ≤ Z.of_nat (length m) →
  ∃ m', mem_write m off bs = Ok m' ∧ length m' = length m.
Proof.
  intros. unfold mem_write. rewrite (proj2 (in_block_spec _ _ _)) by lia.
  eexists; split; [done|]. rewrite !length_app, length_take, length_drop. lia.
Qed.

(** What was written is read back, and bytes outside are untouched. *)
Lemma mem_write_read m m' off bs :
  mem_write m off bs = Ok m' → mem_read m' off (Z.of_nat (length bs)) = Ok bs.
Proof.
  unfold mem_write. destruct (in_block _ _ _) eqn:E; [|done]. intros [= <-].
  apply in_block_spec in E. rewrite mem_read_ok; try lia.
  - rewrite drop_app_length' by (rewrite length_take; lia).
    by rewrite Nat2Z.id, take_app_length.
  - rewrite !length_app, length_take, length_drop. lia.
Qed.

Lemma mem_write_lookup m m' off bs i :
  mem_write m off bs = Ok m' →
  (Z.of_nat i < off ∨ off + Z.of_nat (length bs) ≤ Z.of_nat i) → m' !! i = m !! i.
Proof.
  unfold mem_write. destruct (in_block _ _ _) eqn:E; [|done]. intros [= <-] Hi.
  apply in_block_spec in E. destruct Hi.
  - rewrite lookup_app_l by (rewrite length_take; lia). apply lookup_take_lt. lia.
  - rewrite lookup_app_r by (rewrite length_take; lia). rewrite length_take.
    rewrite lookup_app_r by lia. rewrite lookup_drop. f_equal. lia.
Qed.

(** ** Contents of a memory *)

(** The bytes of memory [μ] from address [a] on. *)
Definition bytes (μ : Z → Z) (a n : Z) : list Z := μ <$> seqZ a n.

Lemma bytes_app μ a n k : 0 ≤ n → 0 ≤ k → bytes μ a (n + k) = bytes μ a n ++ bytes μ (a + n) k.
Proof. intros. unfold bytes. by rewrite seqZ_app, fmap_app by lia. Qed.
Lemma length_bytes μ a n : length (bytes μ a n) = Z.to_nat n.
Proof. unfold bytes. by rewrite length_fmap, length_seqZ. Qed.

(** Filling the next bytes of a buffer. *)
Lemma mem_write_prefix (buf bs : list Z) n :
  0 ≤ n → n + Z.of_nat (length bs) ≤ Z.of_nat (length buf) →
  ∃ buf', mem_write buf n bs = Ok buf' ∧ length buf' = length buf ∧
    take (Z.to_nat (n + Z.of_nat (length bs))) buf' = take (Z.to_nat n) buf ++ bs.
Proof.
  intros. destruct (mem_write_ok buf n bs) as (buf' & Hw & Hl); [lia..|].
  exists buf'. split_and!; [done..|]. unfold mem_write in Hw.
  destruct (in_block _ _ _); [|done]. injection Hw as <-.
  rewrite app_assoc, take_app_length'; [done|]. rewrite length_app, length_take. lia.
Qed.

(** ** Hint databases *)

Create HintDb salam.
#[export] Hint Resolve wrapU_range wrapS_range pow2_pos eqm_wrapU eqm_wrapS eqm_mod : salam.
#[export] Hint Extern 1 (_ ≤ _) => lia : salam.
#[export] Hint Extern 1 (_ < _) => lia : salam.
#[export] Hint Extern 1 (_ ≤ _ ≤ _) => lia : salam.
Create Rewrite HintDb salam_simpl.
#[export] Hint Rewrite @length_app @length_insert @length_take @length_drop @length_fmap
  @length_replicate length_le_bytes : salam_simpl.
