(* ===== verification/CircularQueue.v ===== *)
(** Model of [base/circular_queue.hh] and [base/circlebuf.hh]: the circular
    queue on a vector with its wrap-around round counter, its iterators, the
    [CircleBuf] copies in and out of it and the [Fifo] wrapper the DMA and
    stream devices use, with the proof that they implement a bounded
    first-in first-out list. *)
From S2P Require Import Prelude.

(** ** CircularQueue *)

Record CircularQueue := mkCQ {
  _capacity : Z;
  _head : Z;
  _tail : Z;
  _empty : bool;
  _round : Z;
  _store : list Z;
}.

(** The constructor: [resize(size)] value-initialises the vector. *)
Definition CircularQueue_new (size : Z) : CircularQueue :=
  {| _capacity := size; _head := 1; _tail := 0; _empty := true; _round := 0;
     _store := replicate (Z.to_nat size) 0 |}.

Definition flush (q : CircularQueue) : CircularQueue :=
  {| _capacity := _capacity q; _head := 1; _tail := 0; _empty := true; _round := 0;
     _store := _store q |}.

Definition moduloAdd (op1 op2 size : Z) : outcome Z :=
  if size =? 0 then Err Undefined else Ok (u32 (op1 + op2) mod size).

Definition sub (op1 op2 size : Z) : outcome Z :=
  if size =? 0 then Err Undefined
  else if op2 <? op1 then Ok (s32 (u32 (op1 - op2) mod size))
  else Ok (s32 (u32 (- (u32 (op2 - op1) mod size)))).

Definition increase (q : CircularQueue) (v delta : Z) : outcome Z :=
  moduloAdd v (u32 delta) (_capacity q).

Definition size (q : CircularQueue) : Z :=
  if _empty q then 0
  else if _head q <=? _tail q then u32 (_tail q - _head q + 1)
  else u32 (_capacity q - _head q + _tail q + 1).

(** Iterators: an index into the vector and the round it belongs to. *)
Record iterator := mkIt { _idx : Z; it_round : Z }.

Definition it_incr (q : CircularQueue) (it : iterator) : outcome iterator :=
  let* i := increase q (_idx it) 1 in
  Ok (mkIt i (if i =? 0 then u32 (it_round it + 1) else it_round it)).

Definition it_plus (q : CircularQueue) (it : iterator) (t : Z) : outcome iterator :=
  if _capacity q =? 0 then Err Undefined else
  let* i := moduloAdd (_idx it) (u32 t) (_capacity q) in
  Ok (mkIt i (u32 (it_round it + u64 (t + _idx it) / _capacity q))).

(** [operator-]: the signed distance, an [int32_t] in the code. *)
Definition it_minus (q : CircularQueue) (a b : iterator) : outcome Z :=
  let* r := sub (_idx a) (_idx b) (_capacity q) in
  Ok (if it_round a =? it_round b then r
      else s32 (r + u64 (u32 (it_round a - it_round b) * _capacity q))).

Definition it_lt (a b : iterator) : bool :=
  (it_round a <? it_round b) || ((it_round a =? it_round b) && (_idx a <? _idx b)).
Definition it_le (a b : iterator) : bool := negb (it_lt b a).
Definition it_eq (a b : iterator) : bool :=
  (_idx a =? _idx b) && (it_round a =? it_round b).

Definition end_ (q : CircularQueue) : outcome iterator :=
  let* poi := moduloAdd (_tail q) 1 (_capacity q) in
  Ok (mkIt poi (if poi =? 0 then u32 (_round q + 1) else _round q)).

Definition begin_ (q : CircularQueue) : outcome iterator :=
  if _empty q then end_ q
  else if _tail q <? _head q then Ok (mkIt (_head q) (u32 (_round q - 1)))
  else Ok (mkIt (_head q) (_round q)).

Definition pop_front (q : CircularQueue) (num_elem : Z) : outcome CircularQueue :=
  if num_elem =? 0 then Ok q else
  let* b := begin_ q in
  let* hIt := it_plus q b num_elem in
  let* e := end_ q in
  let* _ := assert_ (it_le hIt e) in
  Ok {| _capacity := _capacity q; _head := _idx hIt; _tail := _tail q;
        _empty := it_eq hIt e; _round := _round q; _store := _store q |}.

Definition advance_tail1 (q : CircularQueue) : outcome CircularQueue :=
  let* t := increase q (_tail q) 1 in
  let r := if t =? 0 then u32 (_round q + 1) else _round q in
  let* h := (if (t =? _head q) && negb (_empty q) then increase q (_head q) 1
             else Ok (_head q)) in
  Ok {| _capacity := _capacity q; _head := h; _tail := t; _empty := false;
        _round := r; _store := _store q |}.

Fixpoint advance_tail (q : CircularQueue) (len : nat) : outcome CircularQueue :=
  match len with
  | O => Ok q
  | S n => let* q' := advance_tail1 q in advance_tail q' n
  end.

(** ** CircleBuf *)

(** [std::copy] out of the queue: [last - first] elements from [first]. *)
Fixpoint copy_out (q : CircularQueue) (it : iterator) (n : nat) : outcome (list Z) :=
  match n with
  | O => Ok []
  | S n =>
      let* x := vec_get (_store q) (Z.to_nat (_idx it)) in
      let* it' := it_incr q it in
      let* xs := copy_out q it' n in
      Ok (x :: xs)
  end.

Definition set_store (q : CircularQueue) (st : list Z) : CircularQueue :=
  {| _capacity := _capacity q; _head := _head q; _tail := _tail q;
     _empty := _empty q; _round := _round q; _store := st |}.

(** [std::copy] into the queue through an iterator. *)
Fixpoint copy_in (q : CircularQueue) (it : iterator) (xs : list Z) : outcome CircularQueue :=
  match xs with
  | [] => Ok q
  | x :: xs =>
      let* _ := vec_get (_store q) (Z.to_nat (_idx it)) in
      let q' := set_store q (<[Z.to_nat (_idx it) := x]> (_store q)) in
      let* it' := it_incr q' it in
      copy_in q' it' xs
  end.

Definition peek (q : CircularQueue) (offset len : Z) : outcome (list Z) :=
  let* _ := panic_if (size q <? offset + len) in
  let* b := begin_ q in
  let* first := it_plus q b offset in
  let* l0 := it_plus q b offset in
  let* last := it_plus q l0 len in
  let* n := it_minus q last first in
  copy_out q first (Z.to_nat n).

Definition CircleBuf_read (q : CircularQueue) (len : Z) : outcome (list Z * CircularQueue) :=
  let* xs := peek q 0 len in
  let* q' := pop_front q len in
  Ok (xs, q').

(** [write(in, len)] with [in] pointing at the elements of [xs]. *)
Definition CircleBuf_write (q : CircularQueue) (xs : list Z) : outcome CircularQueue :=
  let len := Z.of_nat (length xs) in
  let xs := if _capacity q <? len then drop (Z.to_nat (len - _capacity q)) xs else xs in
  let* e := end_ q in
  let* q' := copy_in q e xs in
  advance_tail q' (length xs).

(** ** Fifo *)

Definition Fifo_write (q : CircularQueue) (xs : list Z) : outcome CircularQueue :=
  let* _ := panic_if (_capacity q <? size q + Z.of_nat (length xs)) in
  CircleBuf_write q xs.

Definition Fifo_read (q : CircularQueue) (len : Z) : outcome (list Z * CircularQueue) :=
  CircleBuf_read q len.

Example fifo_wraps :
  (let* q := Fifo_write (CircularQueue_new 4) [1; 2; 3] in
   let* (a, q) := Fifo_read q 2 in
   let* q := Fifo_write q [4; 5; 6] in
   let* (b, q) := Fifo_read q 4 in
   Ok (a, b, size q)) = Ok ([1; 2], [3; 4; 5; 6], 0).
Proof. reflexivity. Qed.

(** ** The bounded FIFO it implements

    [endpos] is the absolute position of the past-the-end iterator: its round
    times the capacity plus its index.  The queue holds the list [l] when [l]
    sits in the cells of the [length l] absolute positions before [endpos]. *)

Definition endpos (q : CircularQueue) : Z := _round q * _capacity q + _tail q + 1.
Definition startpos (q : CircularQueue) (l : list Z) : Z := endpos q - Z.of_nat (length l).
Definition cell (q : CircularQueue) (p : Z) : nat := Z.to_nat (p mod _capacity q).

Record repr (q : CircularQueue) (l : list Z) : Prop := {
  repr_cap : 2 ≤ _capacity q < 2 ^ 31;
  repr_store : Z.of_nat (length (_store q)) = _capacity q;
  repr_tail : 0 ≤ _tail q < _capacity q;
  repr_round : 0 ≤ _round q < 2 ^ 32 - 1;
  repr_fits : Z.of_nat (length l) ≤ _capacity q;
  repr_start : 0 ≤ startpos q l;
  repr_empty : _empty q = bool_decide (l = []);
  repr_head : _head q = startpos q l mod _capacity q;
  repr_cells : ∀ i, (i < length l)%nat →
    _store q !! cell q (startpos q l + Z.of_nat i) = l !! i;
}.

(** An iterator stands at absolute position [p]. *)
Definition at_pos (q : CircularQueue) (it : iterator) (p : Z) : Prop :=
  _idx it = p mod _capacity q ∧ it_round it = p / _capacity q.

(** Side conditions under which positions do not leave the 32-bit rounds. *)
Definition pos_ok (q : CircularQueue) (p : Z) : Prop := 0 ≤ p < 2 ^ 32 * _capacity q.

Section positions.
Context (q : CircularQueue).
Hypothesis Hcap : 2 ≤ _capacity q < 2 ^ 31.

Lemma moduloAdd_ok a b :
  0 ≤ a < _capacity q → 0 ≤ b ≤ _capacity q →
  moduloAdd a b (_capacity q) = Ok ((a + b) mod _capacity q).
Proof.
  intros. unfold moduloAdd. rewrite (proj2 (Z.eqb_neq _ _)) by lia.
  by rewrite wrapU_id by (unfold inU; lia).
Qed.

Lemma pos_add p t :
  0 ≤ p → 0 ≤ t → (p mod _capacity q + t) mod _capacity q = (p + t) mod _capacity q.
Proof. intros. by rewrite Zplus_mod_idemp_l. Qed.

Lemma pos_div p t :
  (t + p mod _capacity q) / _capacity q + p / _capacity q = (p + t) / _capacity q.
Proof.
  rewrite (Z.div_mod p (_capacity q)) at 3 by lia.
  replace (_capacity q * _ + _ + t) with (t + p mod _capacity q + p / _capacity q * _capacity q) by lia.
  rewrite Z.div_add by lia. lia.
Qed.

Lemma round_bound p : pos_ok q p → inU 32 (p / _capacity q).
Proof.
  intros [??]. split; [apply Z.div_pos; lia|]. apply Z.div_lt_upper_bound; lia.
Qed.

Lemma it_plus_pos it p t :
  at_pos q it p → 0 ≤ t ≤ _capacity q → pos_ok q p → pos_ok q (p + t) →
  ∃ it', it_plus q it t = Ok it' ∧ at_pos q it' (p + t).
Proof.
  intros [Hi Hr] Ht Hp Hpt. unfold it_plus.
  pose proof (Z.mod_pos_bound p (_capacity q) ltac:(lia)).
  rewrite (proj2 (Z.eqb_neq _ _)) by lia.
  rewrite (wrapU_id 32 t) by (unfold inU; lia).
  rewrite moduloAdd_ok by lia. simpl. eexists; split; [done|].
  rewrite Hi, Hr. split; simpl; [apply pos_add; destruct Hp; lia|].
  rewrite (wrapU_id 64) by (unfold inU; lia).
  rewrite Z.add_comm, pos_div. apply wrapU_id, round_bound, Hpt.
Qed.

Lemma div_succ p :
  0 ≤ p → (p + 1) / _capacity q =
    if (p + 1) mod _capacity q =? 0 then p / _capacity q + 1 else p / _capacity q.
Proof.
  intros. pose proof (Z.div_mod p (_capacity q) ltac:(lia)).
  pose proof (Z.div_mod (p + 1) (_capacity q) ltac:(lia)).
  pose proof (Z.mod_pos_bound p (_capacity q) ltac:(lia)).
  pose proof (Z.mod_pos_bound (p + 1) (_capacity q) ltac:(lia)).
  case_zbool; nia.
Qed.

Lemma it_incr_pos it p :
  at_pos q it p → pos_ok q p → pos_ok q (p + 1) →
  ∃ it', it_incr q it = Ok it' ∧ at_pos q it' (p + 1).
Proof.
  intros [Hi Hr] Hp Hp1. unfold it_incr, increase.
  pose proof (Z.mod_pos_bound p (_capacity q) ltac:(lia)).
  rewrite (wrapU_id 32 1) by (unfold inU; lia).
  rewrite moduloAdd_ok by lia. simpl. eexists; split; [done|].
  rewrite Hi, Hr, pos_add by (destruct Hp; lia). split; simpl; [done|].
  pose proof (round_bound _ Hp1) as Hb. rewrite div_succ in Hb |- * by (destruct Hp; lia).
  destruct (_ =? 0); [by apply wrapU_id|done].
Qed.

Lemma it_minus_pos a b p t :
  at_pos q a (p + t) → at_pos q b p → 0 ≤ t ≤ _capacity q → 0 ≤ p →
  it_minus q a b = Ok t.
Proof.
  intros [Hai Har] [Hbi Hbr] Ht Hp. unfold it_minus, sub.
  rewrite (proj2 (Z.eqb_neq (_capacity q) 0)) by lia. rewrite Hai, Har, Hbi, Hbr.
  pose proof (Z.div_mod p (_capacity q) ltac:(lia)) as E1.
  pose proof (Z.div_mod (p + t) (_capacity q) ltac:(lia)) as E2.
  pose proof (Z.mod_pos_bound p (_capacity q) ltac:(lia)) as B1.
  pose proof (Z.mod_pos_bound (p + t) (_capacity q) ltac:(lia)) as B2.
  set (c := _capacity q) in *.
  set (ra := (p + t) / c) in *. set (rb := p / c) in *.
  set (ia := (p + t) mod c) in *. set (ib := p mod c) in *.
  assert (ra = rb ∨ ra = rb + 1) as [Er|Er] by nia.
  - assert (ia = ib + t) as Ei by nia.
    rewrite (proj2 (Z.eqb_eq ra rb)) by done. case_zbool; simpl; f_equal.
    + rewrite (wrapU_id 32) by (unfold inU; lia). rewrite Z.mod_small by lia.
      rewrite wrapS_id by (unfold inS; lia). lia.
    + replace (ib - ia) with 0 by lia. rewrite (wrapU_id 32 0) by (unfold inU; lia).
      rewrite Z.mod_0_l by lia. change (- 0) with 0.
      rewrite (wrapU_id 32 0) by (unfold inU; lia). rewrite wrapS_id by (unfold inS; lia). lia.
  - assert (ia = ib + t - c) as Ei by nia.
    rewrite (proj2 (Z.eqb_neq ra rb)) by lia. case_zbool; [lia|]; simpl; f_equal.
    rewrite (wrapU_id 32 (ib - ia)) by (unfold inU; lia). rewrite (Z.mod_small (ib - ia)) by lia.
    replace (ra - rb) with 1 by lia. rewrite (wrapU_id 32 1) by (unfold inU; lia).
    rewrite (wrapU_id 64) by (unfold inU; lia).
    apply (eqm_inS 32); [lia| |apply wrapS_range; lia|unfold inS; lia].
    rewrite !eqm_wrapS, eqm_wrapU by lia. by replace (- (ib - ia) + 1 * c) with t by lia.
Qed.

Lemma copy_out_pos it p (xs : list Z) :
  at_pos q it p → 0 ≤ p → p + Z.of_nat (length xs) < 2 ^ 32 * _capacity q →
  (∀ i, (i < length xs)%nat → _store q !! cell q (p + Z.of_nat i) = xs !! i) →
  copy_out q it (length xs) = Ok xs.
Proof.
  revert it p. induction xs as [|x xs IH]; intros it p Hit Hp Hb Hx; [done|].
  cbn [copy_out length] in *.
  pose proof (Hx O ltac:(lia)) as H0. rewrite Z.add_0_r in H0. simpl in H0.
  destruct (it_incr_pos it p Hit) as (it' & E & Hit'); [split; lia..|].
  destruct Hit as [Hi _]. unfold vec_get, cell in *. rewrite Hi, H0. simpl.
  rewrite E. simpl. rewrite (IH it' (p + 1)); [done|done|lia|lia|].
  intros i Hi'. specialize (Hx (S i) ltac:(lia)).
  by replace (p + 1 + Z.of_nat i) with (p + Z.of_nat (S i)) by lia.
Qed.
End positions.

Section repr_facts.
Context (q : CircularQueue) (l : list Z).
Hypothesis R : repr q l.

Lemma repr_end : ∃ e, end_ q = Ok e ∧ at_pos q e (endpos q).
Proof.
  destruct R. unfold end_. rewrite moduloAdd_ok by lia. simpl.
  eexists; split; [done|]. unfold at_pos, endpos; simpl.
  replace (_round q * _capacity q + _tail q + 1)
    with (_tail q + 1 + _round q * _capacity q) by lia.
  rewrite Z.mod_add, Z.div_add by lia. split; [done|].
  destruct (decide (_tail q + 1 = _capacity q)) as [E|E].
  - rewrite E, Z.mod_same, Z.div_same by lia. simpl. rewrite wrapU_id by (unfold inU; lia). lia.
  - rewrite Z.mod_small, Z.div_small by lia. rewrite (proj2 (Z.eqb_neq _ _)) by lia. lia.
Qed.

Lemma startpos_cases :
  l ≠ [] →
  (_tail q < _head q ∧ startpos q l / _capacity q = _round q - 1) ∨
  (_head q ≤ _tail q ∧ startpos q l / _capacity q = _round q).
Proof.
  destruct R as [????? Hs ? Hh _]. intros Hl.
  assert (1 ≤ Z.of_nat (length l)) by (destruct l; [done|simpl; lia]).
  rewrite Hh. pose proof (Z.div_mod (startpos q l) (_capacity q) ltac:(lia)).
  pose proof (Z.mod_pos_bound (startpos q l) (_capacity q) ltac:(lia)).
  unfold startpos, endpos in *. nia.
Qed.

Lemma repr_begin : ∃ b, begin_ q = Ok b ∧ at_pos q b (startpos q l).
Proof.
  unfold begin_. rewrite (repr_empty _ _ R). case_bool_decide as E.
  - unfold startpos. rewrite E. simpl. rewrite Z.sub_0_r. apply repr_end.
  - unfold at_pos. rewrite <-(repr_head _ _ R). destruct R as [???? _ Hs _ _ _].
    destruct (startpos_cases E) as [[Ht Hd]|[Ht Hd]].
    + rewrite (proj2 (Z.ltb_lt _ _)) by done. eexists; split; [done|]. simpl. split; [done|].
      assert (0 ≤ _round q - 1) by (rewrite <-Hd; apply Z.div_pos; lia).
      rewrite wrapU_id by (unfold inU; lia). done.
    + rewrite (proj2 (Z.ltb_ge _ _)) by done. by eexists.
Qed.

Lemma repr_size : size q = Z.of_nat (length l).
Proof.
  unfold size. rewrite (repr_empty _ _ R). case_bool_decide as E; [by rewrite E|].
  pose proof (startpos_cases E) as Hc. pose proof (repr_head _ _ R) as Hh.
  destruct R as [???? Hf Hs _ _ _].
  assert (1 ≤ Z.of_nat (length l)) by (destruct l; [done|simpl; lia]).
  pose proof (Z.div_mod (startpos q l) (_capacity q) ltac:(lia)).
  pose proof (Z.mod_pos_bound (startpos q l) (_capacity q) ltac:(lia)).
  unfold startpos, endpos in *.
  destruct Hc as [[Ht Hd]|[Ht Hd]]; case_zbool; try lia;
    rewrite wrapU_id; unfold inU; nia.
Qed.

Lemma repr_pos_ok p : 0 ≤ p ≤ endpos q → pos_ok q p.
Proof. destruct R. unfold pos_ok, endpos. nia. Qed.
End repr_facts.

Lemma pos_order q a b p1 p2 :
  2 ≤ _capacity q < 2 ^ 31 → at_pos q a p1 → at_pos q b p2 → p1 ≤ p2 →
  it_le a b = true ∧ it_eq a b = bool_decide (p1 = p2).
Proof.
  intros Hc [Hai Har] [Hbi Hbr] Hle. unfold it_le, it_lt, it_eq. rewrite Hai, Har, Hbi, Hbr.
  pose proof (Z.div_mod p1 (_capacity q) ltac:(lia)).
  pose proof (Z.div_mod p2 (_capacity q) ltac:(lia)).
  pose proof (Z.mod_pos_bound p1 (_capacity q) ltac:(lia)).
  pose proof (Z.mod_pos_bound p2 (_capacity q) ltac:(lia)).
  split.
  - apply negb_true_iff, orb_false_iff. split; [apply Z.ltb_ge; nia|].
    apply andb_false_iff. rewrite Z.eqb_neq, Z.ltb_ge. nia.
  - case_bool_decide as E; [subst; by rewrite !Z.eqb_refl|].
    apply andb_false_iff. rewrite !Z.eqb_neq. nia.
Qed.

Lemma pop_front_repr q l n :
  repr q l → 0 ≤ n ≤ Z.of_nat (length l) →
  ∃ q', pop_front q n = Ok q' ∧ repr q' (drop (Z.to_nat n) l) ∧
    _round q' = _round q ∧ _capacity q' = _capacity q.
Proof.
  intros R Hn. unfold pop_front. case_zbool; [subst; eauto|].
  destruct (repr_begin q l R) as (b & -> & Hb), (repr_end q l R) as (e & -> & He). simpl.
  pose proof (repr_cap _ _ R) as Hcap. pose proof (repr_start _ _ R) as Hst.
  assert (startpos q l + n ≤ endpos q) as Hle by (unfold startpos; lia).
  destruct (it_plus_pos q Hcap b (startpos q l) n Hb) as (h & -> & Hh).
  { pose proof (repr_fits _ _ R). lia. }
  { apply (repr_pos_ok q l R); lia. }
  { apply (repr_pos_ok q l R); lia. }
  destruct (pos_order q h e _ _ Hcap Hh He Hle) as [Hle' Heq]. simpl. rewrite Hle'. simpl.
  eexists; split; [done|]. split; [|done].
  assert (startpos {| _capacity := _capacity q; _head := _idx h; _tail := _tail q;
    _empty := it_eq h e; _round := _round q; _store := _store q |} (drop (Z.to_nat n) l)
    = startpos q l + n) as Es.
  { unfold startpos, endpos. simpl. rewrite length_drop. lia. }
  destruct R as [? Hl ?? Hf ?? ? Hc]. split; try (simpl; done); try rewrite Es.
  - simpl. rewrite length_drop. lia.
  - lia.
  - simpl. rewrite Heq. apply bool_decide_ext. rewrite <-length_zero_iff_nil, length_drop.
    unfold startpos. lia.
  - apply Hh.
  - intros i. rewrite length_drop. intros Hi. unfold cell. simpl.
    rewrite lookup_drop, <-Hc by lia. unfold cell. do 3 f_equal. lia.
Qed.

(** Reading: the oldest elements come out in order, or the code panics. *)
Lemma Fifo_read_repr q l n :
  repr q l → 0 ≤ n ≤ Z.of_nat (length l) →
  ∃ q', Fifo_read q n = Ok (take (Z.to_nat n) l, q') ∧ repr q' (drop (Z.to_nat n) l) ∧
    _round q' = _round q ∧ _capacity q' = _capacity q.
Proof.
  intros R Hn. destruct (pop_front_repr q l n R Hn) as (q' & Hpop & HR).
  exists q'. split; [|done]. unfold Fifo_read, CircleBuf_read, peek.
  rewrite (repr_size _ _ R), (proj2 (Z.ltb_ge _ _)) by lia. simpl.
  destruct (repr_begin q l R) as (b & -> & Hb). simpl.
  pose proof (repr_cap _ _ R) as Hcap. pose proof (repr_start _ _ R) as Hst.
  assert (startpos q l + n ≤ endpos q) as Hle by (unfold startpos; lia).
  destruct (it_plus_pos q Hcap b (startpos q l) 0 Hb) as (f & -> & Hf); [lia|..].
  1,2: apply (repr_pos_ok q l R); lia. simpl.
  destruct (it_plus_pos q Hcap f (startpos q l + 0) n Hf) as (la & -> & Hla).
  { pose proof (repr_fits _ _ R). lia. }
  1,2: apply (repr_pos_ok q l R); lia. simpl.
  rewrite (it_minus_pos q Hcap la f _ n Hla Hf) by (pose proof (repr_fits _ _ R); lia). simpl.
  replace (Z.to_nat n) with (length (take (Z.to_nat n) l)) at 1 by (rewrite length_take; lia).
  rewrite (copy_out_pos q Hcap f (startpos q l + 0)); [|done|lia| |].
  - simpl. by rewrite Hpop.
  - rewrite length_take. destruct (repr_pos_ok q l R (startpos q l + n)); lia.
  - intros i. rewrite length_take. intros Hi. rewrite Z.add_0_r.
    rewrite lookup_take_lt by lia. apply (repr_cells _ _ R). lia.
Qed.

Lemma Fifo_read_underrun q l n :
  repr q l → Z.of_nat (length l) < n → Fifo_read q n = Err Panic.
Proof.
  intros R Hn. unfold Fifo_read, CircleBuf_read, peek.
  by rewrite (repr_size _ _ R), (proj2 (Z.ltb_lt _ _)) by lia.
Qed.

Lemma cell_inj q p i j :
  2 ≤ _capacity q < 2 ^ 31 → 0 ≤ i < _capacity q → 0 ≤ j < _capacity q →
  cell q (p + i) = cell q (p + j) → i = j.
Proof.
  unfold cell. intros Hc Hi Hj E.
  pose proof (Z.div_mod (p + i) (_capacity q) ltac:(lia)).
  pose proof (Z.div_mod (p + j) (_capacity q) ltac:(lia)).
  pose proof (Z.mod_pos_bound (p + i) (_capacity q) ltac:(lia)).
  pose proof (Z.mod_pos_bound (p + j) (_capacity q) ltac:(lia)).
  apply Z2Nat.inj in E; [|lia..]. rewrite E in *.
  set (a := (p + i) / _capacity q) in *. set (b := (p + j) / _capacity q) in *.
  assert (_capacity q * (a - b) = i - j) by lia.
  assert (a - b = 0) by nia. nia.
Qed.

(** [std::copy] into consecutive cells starting at position [p]. *)
Lemma copy_in_pos xs : ∀ q it p,
  2 ≤ _capacity q < 2 ^ 31 → Z.of_nat (length (_store q)) = _capacity q →
  at_pos q it p → 0 ≤ p → p + Z.of_nat (length xs) < 2 ^ 32 * _capacity q →
  Z.of_nat (length xs) ≤ _capacity q →
  ∃ st, copy_in q it xs = Ok (set_store q st) ∧ length st = length (_store q) ∧
    (∀ j, (j < length xs)%nat → st !! cell q (p + Z.of_nat j) = xs !! j) ∧
    (∀ c, (∀ j, (j < length xs)%nat → c ≠ cell q (p + Z.of_nat j)) → st !! c = _store q !! c).
Proof.
  induction xs as [|x xs IH]; intros q it p Hc Hl Hit Hp Hb Hx.
  { exists (_store q). split; [by destruct q|]. split; [done|]. split; [simpl; lia|done]. }
  cbn [copy_in length] in *.
  assert (Z.to_nat (_idx it) = cell q p) as Ei by (unfold cell; by rewrite (proj1 Hit)).
  assert (cell q p < length (_store q))%nat as Hlt.
  { unfold cell. pose proof (Z.mod_pos_bound p (_capacity q) ltac:(lia)). lia. }
  rewrite Ei. destruct (lookup_lt_is_Some_2 _ _ Hlt) as [y Hy].
  unfold vec_get at 1. rewrite Hy. simpl.
  set (q' := set_store q (<[cell q p:=x]> (_store q))).
  destruct (it_incr_pos q Hc it p Hit) as (it' & E & Hit'); [split; lia..|].
  change (it_incr q' it) with (it_incr q it). rewrite E. simpl.
  destruct (IH q' it' (p + 1)) as (st & Hst & Hlen & Hnew & Hold);
    [done|simpl; by rewrite length_insert|done|lia|simpl; lia|simpl; lia|].
  exists st. simpl in Hlen. rewrite length_insert in Hlen.
  split; [done|]. split; [done|]. change (cell q') with (cell q) in *. split.
  - intros [|j] Hj.
    + rewrite Z.add_0_r, Hold.
      * simpl. by rewrite list_lookup_insert_eq.
      * intros j Hj' E'. replace (p + 1 + Z.of_nat j) with (p + Z.of_nat (S j)) in E' by lia.
        rewrite <-(Z.add_0_r p) in E' at 1. apply cell_inj in E'; lia.
    + replace (p + Z.of_nat (S j)) with (p + 1 + Z.of_nat j) by lia. apply Hnew. lia.
  - intros c Hcs. rewrite Hold.
    + simpl. apply list_lookup_insert_ne. intros <-. apply (Hcs O); [lia|]. by rewrite Z.add_0_r.
    + intros j Hj. replace (p + 1 + Z.of_nat j) with (p + Z.of_nat (S j)) by lia. apply Hcs. lia.
Qed.

(** One step of the tail, when the queue is not full. *)
Lemma advance_tail1_pos q s :
  2 ≤ _capacity q < 2 ^ 31 → 0 ≤ _tail q < _capacity q → 0 ≤ _round q →
  endpos q < (2 ^ 32 - 1) * _capacity q →
  0 ≤ s < _capacity q → _empty q = (s =? 0) → _head q = (endpos q - s) mod _capacity q →
  ∃ q', advance_tail1 q = Ok q' ∧ _capacity q' = _capacity q ∧ _store q' = _store q ∧
    _head q' = _head q ∧ endpos q' = endpos q + 1 ∧ 0 ≤ _tail q' < _capacity q ∧
    _empty q' = false ∧ 0 ≤ _round q'.
Proof.
  intros Hc Ht Hr He Hs Hemp Hh. unfold advance_tail1, increase.
  rewrite (wrapU_id 32 1) by (unfold inU; lia).
  rewrite (moduloAdd_ok q Hc (_tail q) 1) by lia. simpl.
  assert (((_tail q + 1) mod _capacity q =? _head q) && negb (_empty q) = false) as ->.
  { rewrite Hemp. case_zbool; [simpl|by destruct (s =? 0)].
    apply negb_false_iff, Z.eqb_eq.
    replace (_tail q + 1) with (endpos q + (- _round q) * _capacity q) in e by (unfold endpos; lia).
    rewrite Z.mod_add in e by lia.
    pose proof (Z.div_mod (endpos q) (_capacity q) ltac:(lia)).
    pose proof (Z.div_mod (endpos q - s) (_capacity q) ltac:(lia)). rewrite <-Hh, e in *.
    set (a := endpos q / _capacity q) in *. set (b := (endpos q - s) / _capacity q) in *.
    assert (_capacity q * (a - b) = s) by lia. assert (a - b = 0) by nia. nia. }
  simpl. eexists; split; [done|]. unfold endpos in *. simpl.
  destruct (decide (_tail q + 1 = _capacity q)) as [E|E].
  - rewrite E, Z.mod_same by lia. simpl. rewrite wrapU_id by (unfold inU; nia). repeat split; lia.
  - rewrite Z.mod_small by lia. rewrite (proj2 (Z.eqb_neq _ _)) by lia. repeat split; lia.
Qed.

Lemma advance_tail_pos n : ∀ q s,
  2 ≤ _capacity q < 2 ^ 31 → 0 ≤ _tail q < _capacity q → 0 ≤ _round q →
  endpos q + Z.of_nat n ≤ (2 ^ 32 - 1) * _capacity q →
  0 ≤ s → s + Z.of_nat n ≤ _capacity q → _empty q = (s =? 0) →
  _head q = (endpos q - s) mod _capacity q →
  ∃ q', advance_tail q n = Ok q' ∧ _capacity q' = _capacity q ∧ _store q' = _store q ∧
    _head q' = _head q ∧ endpos q' = endpos q + Z.of_nat n ∧ 0 ≤ _tail q' < _capacity q ∧
    _empty q' = (s + Z.of_nat n =? 0) ∧ 0 ≤ _round q'.
Proof.
  induction n as [|n IH]; intros q s Hc Ht Hr He Hs Hsn Hemp Hh.
  { exists q. rewrite !Z.add_0_r. done. }
  cbn [advance_tail].
  destruct (advance_tail1_pos q s) as (q1 & -> & Hc1 & Hst1 & Hh1 & He1 & Ht1 & Hem1 & Hr1);
    [done|done|done|lia|lia|done|done|]. simpl.
  destruct (IH q1 (s + 1)) as (q' & -> & Hc' & Hst' & Hh' & He' & Ht' & Hem' & Hr').
  { by rewrite Hc1. } { by rewrite Hc1. } { done. } { rewrite Hc1. lia. } { lia. }
  { rewrite Hc1. lia. } { rewrite Hem1. symmetry. apply Z.eqb_neq. lia. }
  { rewrite Hh1, Hc1, Hh. f_equal. lia. }
  exists q'. rewrite Hc1 in *. repeat split; try congruence; try lia.
  rewrite Hem'. f_equal. lia.
Qed.

(** Writing: the elements are appended, or the code panics. *)
Lemma Fifo_write_repr q l xs :
  repr q l → Z.of_nat (length l + length xs) ≤ _capacity q → _round q < 2 ^ 32 - 3 →
  ∃ q', Fifo_write q xs = Ok q' ∧ repr q' (l ++ xs) ∧
    _round q' ≤ _round q + 1 ∧ _capacity q' = _capacity q.
Proof.
  intros R Hfit Hround. unfold Fifo_write, CircleBuf_write.
  rewrite (repr_size _ _ R), (proj2 (Z.ltb_ge _ _)) by lia. simpl.
  rewrite (proj2 (Z.ltb_ge _ _)) by lia.
  destruct (repr_end q l R) as (e & -> & He). simpl.
  destruct R as [Hc Hl Ht Hr Hf Hst Hem Hh Hcells].
  assert (0 ≤ endpos q) by (unfold endpos; nia).
  destruct (copy_in_pos xs q e (endpos q)) as (st & -> & Hlen & Hnew & Hold);
    [done|done|done|done|unfold endpos; nia|lia|]. simpl.
  destruct (advance_tail_pos (length xs) (set_store q st) (Z.of_nat (length l)))
    as (q' & -> & Hc' & Hst' & Hh' & He' & Ht' & Hem' & Hr'); simpl; try done; try lia.
  { unfold endpos. simpl. nia. }
  { rewrite Hem. symmetry. case_bool_decide as E; [by rewrite E|].
    apply Z.eqb_neq. destruct l; [done|simpl; lia]. }
  exists q'. split; [done|]. simpl in *.
  change (endpos (set_store q st)) with (endpos q) in He'.
  assert (startpos q' (l ++ xs) = startpos q l) as Es.
  { unfold startpos. rewrite He', length_app. lia. }
  assert (_round q' ≤ _round q + 1) by (unfold endpos in He'; rewrite Hc' in He'; nia).
  split; [|done].
  split; rewrite ?Hc', ?Hst', ?Es, ?Hh', ?length_app; try done; try lia.
  - clear Hem. rewrite Hem'. case_bool_decide as E.
    + apply app_eq_nil in E as [-> ->]. done.
    + apply Z.eqb_neq. destruct l, xs; simpl; try done; lia.
  - intros i Hi. unfold cell. rewrite Hc'. fold (cell q (startpos q l + Z.of_nat i)).
    destruct (decide (i < length l)%nat).
    + rewrite lookup_app_l by lia. rewrite Hold; [by apply Hcells|].
      intros j Hj E. unfold startpos in E.
      replace (endpos q + Z.of_nat j)
        with (endpos q - Z.of_nat (length l) + (Z.of_nat (length l) + Z.of_nat j)) in E by lia.
      apply cell_inj in E; lia.
    + rewrite lookup_app_r by lia. rewrite <-Hnew by lia. unfold startpos. do 2 f_equal. lia.
Qed.

Lemma Fifo_write_overrun q l xs :
  repr q l → _capacity q < Z.of_nat (length l + length xs) → Fifo_write q xs = Err Panic.
Proof.
  intros R Hn. unfold Fifo_write.
  by rewrite (repr_size _ _ R), (proj2 (Z.ltb_lt _ _)) by lia.
Qed.

Lemma flush_repr q l : repr q l → repr (flush q) [].
Proof.
  intros [Hc Hl ??????]. split; unfold startpos, endpos; simpl; try done; try lia.
  rewrite Z.mod_small; lia.
Qed.

Lemma CircularQueue_new_repr c : 2 ≤ c < 2 ^ 31 → repr (CircularQueue_new c) [].
Proof.
  intros. split; unfold startpos, endpos; simpl; try done; try lia.
  - rewrite length_replicate. lia.
  - rewrite Z.mod_small; lia.
Qed.
