(* ===== verification/CircularQueueOps.v ===== *)
(** The rest of [base/circular_queue.hh]: the operations at the back of the
    queue, the index tests, the backward and random moves of the iterators and
    [getIterator], with what they do to the list the queue represents. *)
From S2P Require Import Prelude CircularQueue.

(** ** Operations *)

Definition moduloSub (op1 op2 size : Z) : outcome Z :=
  let* ret := sub op1 op2 size in
  Ok (if 0 <=? ret then ret else u32 (ret + size)).

Definition decrease (q : CircularQueue) (v : Z) : Z :=
  u32 ((if v =? 0 then _capacity q else v) - 1).

Definition set_tail (q : CircularQueue) (tail round : Z) (empty : bool) : CircularQueue :=
  {| _capacity := _capacity q; _head := _head q; _tail := tail; _empty := empty;
     _round := round; _store := _store q |}.

Definition pop_back (q : CircularQueue) : outcome CircularQueue :=
  let* _ := assert_ (negb (_empty q)) in
  let empty := _head q =? _tail q in
  let round := if _tail q =? 0 then u32 (_round q - 1) else _round q in
  Ok (set_tail q (decrease q (_tail q)) round empty).

(** The assignment through the index operator. *)
Definition store_at (q : CircularQueue) (i val : Z) : outcome CircularQueue :=
  let* _ := vec_get (_store q) (Z.to_nat i) in
  Ok (set_store q (<[Z.to_nat i := val]> (_store q))).

Definition push_back (q : CircularQueue) (val : Z) : outcome CircularQueue :=
  let* q := advance_tail1 q in
  store_at q (_tail q) val.

Definition front (q : CircularQueue) : outcome Z := vec_get (_store q) (Z.to_nat (_head q)).
Definition back (q : CircularQueue) : outcome Z := vec_get (_store q) (Z.to_nat (_tail q)).

Definition full (q : CircularQueue) : bool :=
  negb (_empty q) &&
  ((u32 (_tail q + 1) =? _head q) || ((u32 (_tail q + 1) =? _capacity q) && (_head q =? 0))).

(** [isValidIdx(idx)] and [isValidIdx(idx, round)]. *)
Definition isValidIdx (q : CircularQueue) (idx : Z) : bool :=
  negb (_empty q ||
        ((_head q <? _tail q) &&
         (((_head q <? idx) && (_tail q <? idx)) || ((idx <? _head q) && (idx <? _tail q)))) ||
        ((_tail q <? idx) && (idx <? _head q))).
Definition isValidIdx_round (q : CircularQueue) (idx round : Z) : bool :=
  negb (_empty q) &&
  (((round =? _round q) && (idx <=? _tail q) &&
    ((_head q <=? idx) || (_tail q <? _head q))) ||
   ((u32 (round + 1) =? _round q) && (_tail q <? idx) && (_head q <=? idx) &&
    (_tail q <? _head q))).

(** *** Iterators; [None] for one on no queue is left out *)

Definition dereferenceable (q : CircularQueue) (it : iterator) : bool :=
  isValidIdx_round q (_idx it) (it_round it).
Definition it_deref (q : CircularQueue) (it : iterator) : outcome Z :=
  vec_get (_store q) (Z.to_nat (_idx it)).

Definition decrementable (q : CircularQueue) (it : iterator) : bool :=
  negb ((_idx it =? _head q) &&
        (_empty q ||
         ((_idx it =? 0) && negb (it_round it =? u32 (_round q + 1))) ||
         (negb (_idx it =? 0) && negb (it_round it =? _round q)))).

Definition it_decr (q : CircularQueue) (it : iterator) : outcome iterator :=
  let* _ := assert_ (decrementable q it) in
  let round := if _idx it =? 0 then u32 (it_round it - 1) else it_round it in
  Ok (mkIt (decrease q (_idx it)) round).

(** [operator-=]: [-t + _idx] is signed and is converted for the division by
    the [size_t] capacity. *)
Definition it_minus_eq (q : CircularQueue) (it : iterator) (t : Z) : outcome iterator :=
  if 0 <=? t then
    if _capacity q =? 0 then Err Undefined else
    let round := u32 (it_round it + u64 (- t + _idx it) / _capacity q) in
    let* i := moduloSub (_idx it) (u32 t) (_capacity q) in
    Ok (mkIt i round)
  else if t =? - 2 ^ 63 then Err Undefined
  else it_plus q it (- t).

Definition it_gt (a b : iterator) : bool := negb (it_le a b).
Definition it_ge (a b : iterator) : bool := negb (it_lt a b).

Definition getIterator (q : CircularQueue) (idx : Z) : outcome iterator :=
  let* poi := moduloAdd (_tail q) 1 (_capacity q) in
  let* _ := assert_ (isValidIdx q idx || (poi =? idx)) in
  if _empty q then end_ q else
  let round :=
    if _tail q <? idx then
      if (_head q <=? idx) && (_tail q <? _head q) then u32 (_round q - 1) else _round q
    else if (idx <? _head q) && (u32 (_tail q + 1) =? _capacity q) then u32 (_round q + 1)
    else _round q in
  Ok (mkIt idx round).

(** [begin()[n]]. *)
Definition it_at (q : CircularQueue) (it : iterator) (index : Z) : outcome Z :=
  let* it := it_plus q it index in it_deref q it.

Example deque_ex :
  (let* q := push_back (CircularQueue_new 3) 1 in
   let* q := push_back q 2 in
   let* q := push_back q 3 in
   let* q := push_back q 4 in
   let* f := front q in
   let* b := back q in
   let* q' := pop_back q in
   let* b' := back q' in
   Ok (f, b, full q, b', full q', size q')) = Ok (2, 4, true, 3, false, 2).
Proof. reflexivity. Qed.

(** ** What they do to the list *)

(** Arithmetic of positions. *)
Lemma div_mod_unique c p r i : 0 < c → 0 ≤ i < c → p = r * c + i → p mod c = i ∧ p / c = r.
Proof.
  intros Hc Hi ->. split.
  - rewrite Z.add_comm, Z.mod_add by lia. by apply Z.mod_small.
  - rewrite Z.add_comm, Z.div_add by lia. rewrite Z.div_small; lia.
Qed.

Section Deque.
Context (q : CircularQueue) (l : list Z).
Hypothesis R : repr q l.

Let c := _capacity q.

Lemma dq_cap : 2 ≤ c < 2 ^ 31.
Proof. apply (repr_cap _ _ R). Qed.

Lemma dq_head : 0 ≤ _head q < c.
Proof. rewrite (repr_head _ _ R). pose proof dq_cap. apply Z.mod_pos_bound. subst c. lia. Qed.

(** The last cell and the one behind it. *)
Lemma dq_last : (endpos q - 1) mod c = _tail q ∧ (endpos q - 1) / c = _round q.
Proof.
  pose proof (repr_tail _ _ R). pose proof dq_cap.
  apply div_mod_unique; [lia|done|unfold endpos, c; lia].
Qed.

Lemma dq_empty : _empty q = (Z.of_nat (length l) =? 0).
Proof.
  rewrite (repr_empty _ _ R). by destruct l.
Qed.

(** Where the list starts, as an index and a round. *)
Lemma dq_start : l ≠ [] →
  startpos q l = _head q + c * (if _tail q <? _head q then _round q - 1 else _round q).
Proof.
  intros Hl. pose proof (Z.div_mod (startpos q l) c) as Hdm. pose proof dq_cap.
  pose proof (repr_head _ _ R) as Hh. fold c in Hh. rewrite <-Hh in Hdm.
  destruct (startpos_cases q l R Hl) as [[Ht E]|[Ht E]]; fold c in E; rewrite E in Hdm; case_zbool; lia.
Qed.

(** [full()]: as many elements as cells. *)
Lemma full_spec : full q = bool_decide (Z.of_nat (length l) = c).
Proof.
  pose proof dq_cap. pose proof dq_head. pose proof (repr_tail _ _ R) as Ht. fold c in Ht.
  unfold full. fold c. rewrite wrapU_id by (split; lia). rewrite dq_empty.
  destruct (decide (l = [])) as [E|E].
  { rewrite E. simpl. symmetry. apply bool_decide_eq_false. lia. }
  assert (0 < Z.of_nat (length l)) as Hlen by (destruct l; [done|simpl; lia]).
  rewrite (proj2 (Z.eqb_neq _ 0)) by lia. simpl.
  pose proof (dq_start E) as Hs. unfold startpos, endpos in Hs. fold c in Hs.
  apply eq_true_iff_eq. rewrite orb_true_iff, andb_true_iff, !Z.eqb_eq, bool_decide_eq_true.
  destruct (Z.ltb_spec (_tail q) (_head q)); lia.
Qed.

(** [isValidIdx(idx, round)] is exact: the iterator stands on an element. *)
Lemma isValidIdx_round_spec idx r :
  0 ≤ idx < c → 0 ≤ r < 2 ^ 32 - 1 →
  isValidIdx_round q idx r = bool_decide (startpos q l ≤ r * c + idx < endpos q).
Proof.
  intros Hi Hr. pose proof dq_cap. pose proof dq_head. pose proof (repr_tail _ _ R) as Ht. fold c in Ht.
  unfold isValidIdx_round. rewrite wrapU_id by (split; lia). rewrite dq_empty.
  destruct (decide (l = [])) as [E|E].
  { rewrite E. simpl. symmetry. apply bool_decide_eq_false. unfold startpos. simpl. lia. }
  assert (0 < Z.of_nat (length l)) as Hlen by (destruct l; [done|simpl; lia]).
  rewrite (proj2 (Z.eqb_neq _ 0)) by lia. simpl. rewrite (dq_start E). unfold endpos. fold c.
  apply eq_true_iff_eq. rewrite !orb_true_iff, !andb_true_iff, orb_true_iff, !Z.eqb_eq, !Z.leb_le,
    !Z.ltb_lt, bool_decide_eq_true.
  destruct (Z.ltb_spec (_tail q) (_head q)); split; intros ?; destruct_and?; destruct_or?; destruct_and?; try nia.
  all: destruct (decide (r = _round q)); [left|right]; try nia.
Qed.

(** [isValidIdx(idx)] is exact for an index of the vector when the queue does
    not have exactly one element. *)
Lemma isValidIdx_spec idx :
  0 ≤ idx < c → length l ≠ 1%nat →
  isValidIdx q idx = true ↔ ∃ p, startpos q l ≤ p < endpos q ∧ p mod c = idx.
Proof.
  intros Hi H1. pose proof dq_cap. pose proof dq_head. pose proof (repr_tail _ _ R) as Ht. fold c in Ht.
  unfold isValidIdx. rewrite dq_empty.
  destruct (decide (l = [])) as [E|E].
  { rewrite E. simpl. split; [done|]. unfold startpos. simpl. intros (p & ? & _). lia. }
  assert (1 < Z.of_nat (length l)) as Hlen by (destruct l as [|? [|]]; simpl in *; [done|done|lia]).
  rewrite (proj2 (Z.eqb_neq _ 0)) by lia. simpl.
  pose proof (dq_start E) as Hs. unfold startpos in Hs |- *. unfold endpos in Hs |- *. fold c in Hs |- *.
  rewrite negb_true_iff, !orb_false_iff, !andb_false_iff, !orb_false_iff, !andb_false_iff, !Z.ltb_ge.
  split.
  - intros Hv. destruct (Z.ltb_spec (_tail q) (_head q)) as [Hth|Hth].
    + destruct (decide (idx ≤ _tail q)).
      * exists (_round q * c + idx). split; [lia|]. by apply (div_mod_unique c _ (_round q) idx); lia.
      * exists ((_round q - 1) * c + idx). split; [lia|]. by apply (div_mod_unique c _ (_round q - 1) idx); lia.
    + exists (_round q * c + idx). split; [lia|]. by apply (div_mod_unique c _ (_round q) idx); lia.
  - intros (p & Hp & Hm). pose proof (Z.div_mod p c ltac:(lia)) as Hd. rewrite Hm in Hd.
    destruct (Z.ltb_spec (_tail q) (_head q)) as [Hth|Hth].
    + assert (p / c = _round q ∨ p / c = _round q - 1) as [Hr|Hr] by nia; rewrite Hr in Hd; lia.
    + assert (p / c = _round q) as Hr by nia. rewrite Hr in Hd. lia.
Qed.

(** *** Both ends *)

Lemma dq_cell i : (i < length l)%nat →
  vec_get (_store q) (Z.to_nat ((startpos q l + Z.of_nat i) mod c)) = vec_get l i.
Proof.
  intros Hi. pose proof (repr_cells _ _ R i Hi) as Hc. unfold cell in Hc. fold c in Hc.
  unfold vec_get. by rewrite Hc.
Qed.

Lemma front_spec : l ≠ [] → front q = vec_get l 0.
Proof.
  intros Hl. unfold front. rewrite (repr_head _ _ R). fold c.
  rewrite <-(Z.add_0_r (startpos q l)). apply (dq_cell 0). destruct l; [done|simpl; lia].
Qed.

Lemma back_spec : l ≠ [] → back q = vec_get l (length l - 1).
Proof.
  intros Hl. assert (0 < length l)%nat by (destruct l; [done|simpl; lia]).
  rewrite <-dq_cell by lia. unfold back. rewrite <-(proj1 dq_last). do 3 f_equal. unfold startpos. lia.
Qed.

(** The state with another past-the-end position. *)
Lemma decrease_pos p :
  0 < p → decrease q (p mod c) = (p - 1) mod c ∧
  (if p mod c =? 0 then p / c - 1 else p / c) = (p - 1) / c.
Proof.
  intros Hp. pose proof dq_cap as Hc. pose proof (Z.mod_pos_bound p c ltac:(lia)) as Hm.
  pose proof (Z.div_mod p c ltac:(lia)) as Hd. unfold decrease. fold c.
  destruct (Z.eqb_spec (p mod c) 0) as [E|E].
  - destruct (div_mod_unique c (p - 1) (p / c - 1) (c - 1)) as [-> ->]; [lia..|].
    rewrite wrapU_id by (split; lia). done.
  - destruct (div_mod_unique c (p - 1) (p / c) (p mod c - 1)) as [-> ->]; [lia..|].
    rewrite wrapU_id by (split; lia). done.
Qed.

Lemma pop_back_empty : l = [] → pop_back q = Err AssertFail.
Proof. intros E. unfold pop_back. rewrite dq_empty, E. done. Qed.

(** [pop_back] drops the newest element.  A queue that was never flushed before
    its first element starts at position one or later. *)
Lemma pop_back_repr x l0 :
  l = l0 ++ [x] → 1 ≤ startpos q l →
  ∃ q', pop_back q = Ok q' ∧ repr q' l0 ∧ startpos q' l0 = startpos q l ∧ endpos q' = endpos q - 1 ∧
    _capacity q' = c.
Proof.
  intros El Hpos. pose proof dq_cap as Hc. pose proof (repr_tail _ _ R) as Ht. fold c in Ht.
  assert (Z.of_nat (length l) = Z.of_nat (length l0) + 1) as Hlen by (rewrite El, length_app; simpl; lia).
  unfold pop_back. rewrite dq_empty, (proj2 (Z.eqb_neq (Z.of_nat (length l)) 0)) by lia. simpl.
  assert (2 ≤ endpos q) as He by (unfold startpos in Hpos; lia).
  destruct (decrease_pos (endpos q - 1)) as [Ed Er]; [lia|]. rewrite (proj1 dq_last) in *.
  assert (1 ≤ _round q ∨ _tail q ≠ 0) as Hr.
  { pose proof (repr_round _ _ R). unfold endpos in He. destruct (decide (_round q = 0)) as [E|]; [right|left; lia].
    rewrite E in He. lia. }
  set (round := if _tail q =? 0 then u32 (_round q - 1) else _round q).
  assert (round = (endpos q - 2) / c) as Eround.
  { subst round. rewrite (proj2 dq_last) in Er. replace (endpos q - 2) with (endpos q - 1 - 1) by lia.
    rewrite <-Er. case_zbool; [|done]. apply wrapU_id. pose proof (repr_round _ _ R). split; lia. }
  assert (decrease q (_tail q) = (endpos q - 2) mod c) as Etail by (rewrite Ed; f_equal; lia).
  eexists. split; [done|].
  assert (endpos (set_tail q (decrease q (_tail q)) round (_head q =? _tail q)) = endpos q - 1) as Ee.
  { unfold endpos at 1. simpl. rewrite Eround, Etail. fold c.
    pose proof (Z.div_mod (endpos q - 2) c ltac:(lia)). lia. }
  assert (startpos (set_tail q (decrease q (_tail q)) round (_head q =? _tail q)) l0 = startpos q l) as Es
    by (unfold startpos; rewrite Ee; lia).
  split; [|done].
  pose proof (Z.mod_pos_bound (endpos q - 2) c ltac:(lia)).
  assert (l ≠ []) as Hne by (rewrite El; by destruct l0).
  split; rewrite ?Es; simpl; try apply R.
  - rewrite Etail. fold c. lia.
  - rewrite Eround. pose proof (repr_round _ _ R).
    split; [apply Z.div_pos; lia|]. apply Z.div_lt_upper_bound; [lia|]. unfold endpos. fold c. nia.
  - pose proof (repr_fits _ _ R). lia.
  - apply eq_true_iff_eq. rewrite Z.eqb_eq, bool_decide_eq_true, <-length_zero_iff_nil.
    pose proof (dq_start Hne) as Hs. unfold startpos, endpos in Hs. fold c in Hs.
    pose proof dq_head. pose proof (repr_fits _ _ R) as Hf. fold c in Hf. destruct (Z.ltb_spec (_tail q) (_head q)); split; intros; try lia; nia.
  - intros i Hi. transitivity (l !! i); [|by rewrite El, lookup_app_l].
    apply (repr_cells _ _ R). rewrite El, length_app. lia.
Qed.

(** The cell behind the last one. *)
Lemma dq_next : (endpos q) mod c = (_tail q + 1) mod c ∧
  (endpos q) / c = (if (_tail q + 1) mod c =? 0 then _round q + 1 else _round q).
Proof.
  pose proof dq_cap as Hc. pose proof (repr_tail _ _ R) as Ht. fold c in Ht. unfold endpos. fold c.
  destruct (decide (_tail q + 1 = c)) as [E|E].
  - rewrite E, Z.mod_same by lia. simpl. apply div_mod_unique; lia.
  - rewrite (Z.mod_small (_tail q + 1)), (proj2 (Z.eqb_neq _ 0)) by lia. apply div_mod_unique; lia.
Qed.

(** The next cell is the head's exactly when the queue is full or empty. *)
Lemma dq_meets : ((_tail q + 1) mod c =? _head q) && negb (_empty q) = bool_decide (Z.of_nat (length l) = c).
Proof.
  rewrite <-full_spec. unfold full. fold c. pose proof dq_cap. pose proof dq_head.
  pose proof (repr_tail _ _ R) as Ht. fold c in Ht. rewrite wrapU_id by (split; lia). rewrite andb_comm. f_equal.
  apply eq_true_iff_eq. rewrite orb_true_iff, andb_true_iff, !Z.eqb_eq.
  destruct (decide (_tail q + 1 = c)) as [E|E].
  - rewrite E, Z.mod_same by lia. lia.
  - rewrite Z.mod_small by lia. lia.
Qed.

Lemma advance_tail1_spec :
  _round q < 2 ^ 32 - 3 →
  ∃ q', advance_tail1 q = Ok q' ∧ _capacity q' = c ∧ _store q' = _store q ∧ _empty q' = false ∧
    _tail q' = endpos q mod c ∧ _round q' = endpos q / c ∧
    _head q' = (startpos q l + (if decide (Z.of_nat (length l) = c) then 1 else 0)) mod c.
Proof.
  intros Hr. pose proof dq_cap as Hc. pose proof (repr_tail _ _ R) as Ht. fold c in Ht.
  pose proof dq_head. unfold advance_tail1, increase. fold c.
  change (u32 1) with 1. 
  assert (moduloAdd (_tail q) 1 c = Ok ((_tail q + 1) mod c)) as -> by (apply (moduloAdd_ok q Hc); fold c; lia).
  cbn [mbind outcome_bind].
  destruct dq_next as [En Ed]. rewrite dq_meets.
  assert ((if bool_decide (Z.of_nat (length l) = c) then moduloAdd (_head q) 1 c else Ok (_head q)) =
    Ok ((startpos q l + (if decide (Z.of_nat (length l) = c) then 1 else 0)) mod c)) as ->.
  { rewrite (repr_head _ _ R). fold c. case_bool_decide; case_decide; try done; [|by rewrite Z.add_0_r].
    pose proof (Z.mod_pos_bound (startpos q l) c ltac:(lia)).
    assert (moduloAdd (startpos q l mod c) 1 c = Ok ((startpos q l mod c + 1) mod c)) as ->
      by (apply (moduloAdd_ok q Hc); fold c; lia).
    by rewrite Zplus_mod_idemp_l. }
  simpl. eexists. split; [done|]. simpl. split_and!; try done. rewrite Ed.
  case_zbool; [|done]. apply wrapU_id. pose proof (repr_round _ _ R). split; lia.
Qed.

(** [push_back] appends; on a full queue it overwrites the oldest element. *)
Lemma push_back_repr x :
  _round q < 2 ^ 32 - 3 →
  let l1 := if decide (Z.of_nat (length l) = c) then drop 1 l else l in
  ∃ q', push_back q x = Ok q' ∧ repr q' (l1 ++ [x]) ∧ endpos q' = endpos q + 1 ∧
    startpos q l ≤ startpos q' (l1 ++ [x]) ∧ _capacity q' = c.
Proof.
  intros Hr l1. pose proof dq_cap as Hc. pose proof (repr_fits _ _ R) as Hf. fold c in Hf.
  destruct (advance_tail1_spec Hr) as (q1 & Hadv & Ec & Est & Eem & Etl & Erd & Ehd).
  assert (Z.of_nat (length l1) < c ∧ startpos q l + (if decide (Z.of_nat (length l) = c) then 1 else 0)
    = endpos q - Z.of_nat (length l1) ∧ ∀ i, (i < length l1)%nat →
    l1 !! i = _store q !! cell q (endpos q - Z.of_nat (length l1) + Z.of_nat i)) as (Hl1 & Hs1 & Hcells).
  { subst l1. unfold startpos. case_decide as E; [rewrite length_drop|]; (split; [lia|]); (split; [lia|]); intros i Hi.
    - rewrite lookup_drop, <-(repr_cells _ _ R) by lia. f_equal. unfold startpos. f_equal. lia.
    - rewrite <-(repr_cells _ _ R) by lia. f_equal. }
  rewrite Hs1 in Ehd. pose proof (Z.mod_pos_bound (endpos q) c ltac:(lia)) as Hm.
  assert (Z.to_nat (endpos q mod c) < length (_store q))%nat as Hlt by (pose proof (repr_store _ _ R) as Hsto; fold c in Hsto; lia).
  unfold push_back. rewrite Hadv. simpl. unfold store_at. rewrite Est, Etl.
  destruct (lookup_lt_is_Some_2 _ _ Hlt) as [y Hy]. unfold vec_get. rewrite Hy. simpl.
  eexists. split; [done|]. set (q' := set_store q1 _).
  assert (endpos q' = endpos q + 1) as Ee.
  { unfold endpos at 1. simpl. rewrite Erd, Ec, Etl. pose proof (Z.div_mod (endpos q) c ltac:(lia)). lia. }
  assert (startpos q' (l1 ++ [x]) = endpos q - Z.of_nat (length l1)) as Es
    by (unfold startpos; rewrite Ee, length_app; simpl; lia).
  pose proof (repr_start _ _ R) as Hst. split; [|rewrite Es; split_and!; try done; case_decide; lia].
  split; rewrite ?Es; simpl; rewrite ?Ec, ?Est, ?length_insert, ?length_app; simpl; try done.
  - apply (repr_store _ _ R).
  - rewrite Etl. lia.
  - rewrite Erd. unfold endpos. fold c. pose proof (repr_round _ _ R). pose proof (repr_tail _ _ R) as Ht. fold c in Ht.
    split; [apply Z.div_pos; nia|]. apply Z.div_lt_upper_bound; nia.
  - lia.
  - case_decide; lia.
  - rewrite Eem. symmetry. apply bool_decide_eq_false. by destruct l1.
  - intros i Hi. unfold cell. simpl. rewrite Ec. unfold c. fold (cell q (endpos q - Z.of_nat (length l1) + Z.of_nat i)).
    fold (cell q (endpos q)). destruct (decide (i < length l1)%nat).
    + rewrite list_lookup_insert_ne; [rewrite <-Hcells by done; by rewrite lookup_app_l|]. intros E.
      rewrite <-(Z.add_0_r (endpos q)) in E at 1.
      replace (endpos q + 0) with (endpos q - Z.of_nat (length l1) + Z.of_nat (length l1)) in E by lia.
      apply cell_inj in E; fold c; lia.
    + replace i with (length l1) by lia. replace (endpos q - _ + _) with (endpos q) by lia.
      rewrite list_lookup_insert_eq by done. by rewrite lookup_app_r, Nat.sub_diag.
Qed.
End Deque.

(** *** Moving iterators *)

Section Iterators.
Context (q : CircularQueue) (l : list Z).
Hypothesis R : repr q l.

Let c := _capacity q.

(** [operator--] steps back from any position behind the first element. *)
Lemma it_decr_pos it p :
  at_pos q it p → startpos q l < p ≤ endpos q →
  ∃ it', it_decr q it = Ok it' ∧ at_pos q it' (p - 1).
Proof.
  intros [Hi Hr] Hp. fold c in Hi, Hr. pose proof (dq_cap q l R) as Hc. fold c in Hc.
  pose proof (repr_start _ _ R) as Hst. pose proof (dq_next q l R) as [En Ed]. fold c in En, Ed.
  destruct (decrease_pos q l R p) as [Hdec Hround]; [lia|]. fold c in Hdec, Hround.
  assert (l ≠ []) as Hne by (intros E; unfold startpos in Hp; rewrite E in Hp; simpl in Hp; lia).
  pose proof (repr_round _ _ R) as Hrd. pose proof (repr_tail _ _ R) as Ht. fold c in Ht.
  pose proof (repr_fits _ _ R) as Hf. fold c in Hf.
  unfold it_decr. assert (decrementable q it = true) as ->.
  { unfold decrementable. rewrite (dq_empty q l R), (proj2 (Z.eqb_neq (Z.of_nat (length l)) 0))
      by (destruct l; simpl; [done|lia]). apply negb_true_iff, andb_false_iff.
    destruct (Z.eqb_spec (_idx it) (_head q)) as [E|]; [right|by left]. simpl.
    assert (p = endpos q) as ->.
    { rewrite Hi, (repr_head _ _ R) in E. fold c in E.
      pose proof (Z.div_mod p c ltac:(lia)). pose proof (Z.div_mod (startpos q l) c ltac:(lia)).
      rewrite E in *. set (k := p / c - startpos q l / c).
      assert (p - startpos q l = c * k) as Hk by (subst k; lia).
      assert (startpos q l + Z.of_nat (length l) = endpos q) by (unfold startpos; lia).
      clearbody k. assert (0 < k) by nia. assert (k < 2) by nia. assert (k = 1) as -> by lia. lia. }
    rewrite Hi, Hr, Ed, En. rewrite wrapU_id by (split; lia).
    destruct (Z.eqb_spec ((_tail q + 1) mod c) 0); simpl; by rewrite Z.eqb_refl. }
  simpl. eexists. split; [done|]. unfold at_pos. simpl. fold c. rewrite Hi, Hr. split; [done|].
  rewrite <-Hround. case_zbool; [|done]. apply wrapU_id.
  pose proof (Z.div_mod p c ltac:(lia)). assert (1 ≤ p / c) by nia.
  assert (p / c ≤ _round q + 1) by (unfold endpos in Hp; fold c in Hp; nia). split; lia.
Qed.

(** [operator-=] is right while the move stays in the round of the iterator. *)
Lemma moduloSub_ok a t : 0 ≤ a < c → 0 ≤ t ≤ c → moduloSub a t c = Ok ((a - t) mod c).
Proof.
  intros Ha Ht. pose proof (dq_cap q l R) as Hc. fold c in Hc. unfold moduloSub, sub.
  rewrite (proj2 (Z.eqb_neq c 0)) by lia. case_zbool; simpl; f_equal.
  - rewrite (wrapU_id 32), Z.mod_small, wrapS_id by (unfold inU, inS; lia).
    by rewrite (proj2 (Z.leb_le _ _)) by lia.
  - rewrite (wrapU_id 32 (t - a)) by (unfold inU; lia).
    destruct (decide (t - a = c)) as [E|E].
    + rewrite E, Z.mod_same by lia. change (- 0) with 0. simpl.
      replace (a - t) with (0 + (-1) * c) by lia. by rewrite Z.mod_add, Z.mod_0_l by lia.
    + rewrite (Z.mod_small (t - a)) by lia. destruct (decide (t = a)) as [E'|E'].
      * replace (t - a) with 0 by lia. change (- 0) with 0. simpl. replace (a - t) with 0 by lia.
        by rewrite Z.mod_0_l by lia.
      * assert (s32 (u32 (- (t - a))) = a - t) as ->.
        { apply (eqm_inS 32); [lia| |apply wrapS_range; lia|unfold inS; lia].
          rewrite eqm_wrapS, eqm_wrapU by lia. by replace (- (t - a)) with (a - t) by lia. }
        rewrite (proj2 (Z.leb_gt _ _)), wrapU_id by (unfold inU; lia).
        replace (a - t) with (a - t + c + (-1) * c) at 2 by lia.
        rewrite Z.mod_add by lia. symmetry. apply Z.mod_small. lia.
Qed.

Lemma it_minus_eq_pos it p t :
  at_pos q it p → 0 ≤ t ≤ p mod c → 0 ≤ p → pos_ok q p →
  ∃ it', it_minus_eq q it t = Ok it' ∧ at_pos q it' (p - t).
Proof.
  intros [Hi Hr] Ht Hp Hok. fold c in Hi, Hr. pose proof (dq_cap q l R) as Hc. fold c in Hc.
  pose proof (Z.mod_pos_bound p c ltac:(lia)) as Hm. pose proof (Z.div_mod p c ltac:(lia)) as Hd.
  pose proof (round_bound q (repr_cap _ _ R) p Hok) as Hb. fold c in Hb.
  unfold it_minus_eq. fold c. rewrite (proj2 (Z.leb_le 0 t)), (proj2 (Z.eqb_neq c 0)) by lia.
  rewrite Hi, Hr, (wrapU_id 32 t), moduloSub_ok by (unfold inU; lia). cbn [mbind outcome_bind].
  eexists. split; [done|]. unfold at_pos. simpl. fold c.
  destruct (div_mod_unique c (p - t) (p / c) (p mod c - t)) as [-> ->]; [lia..|].
  rewrite (Z.mod_small (p mod c - t)), (wrapU_id 64), (Z.div_small (- t + p mod c)), Z.add_0_r by (unfold inU; lia).
  split; [done|]. by apply wrapU_id.
Qed.

(** [getIterator] finds the position an index stands for: of an element, or the
    one past the end while there is room. *)
Lemma getIterator_pos p :
  startpos q l ≤ p < endpos q → length l ≠ 1%nat →
  ∃ it, getIterator q (p mod c) = Ok it ∧ at_pos q it p.
Proof.
  intros Hp H1. pose proof (dq_cap q l R) as Hc. fold c in Hc. pose proof (Z.mod_pos_bound p c ltac:(lia)) as Hm.
  pose proof (repr_tail _ _ R) as Ht. fold c in Ht. pose proof (repr_start _ _ R).
  assert (l ≠ []) as Hne by (intros E; unfold startpos in Hp; rewrite E in Hp; simpl in Hp; lia).
  pose proof (repr_round _ _ R) as Hrd. pose proof (dq_start q l R Hne) as Hs. fold c in Hs.
  pose proof (dq_head q l R) as Hh. fold c in Hh.
  unfold getIterator. fold c.
  assert (moduloAdd (_tail q) 1 c = Ok ((_tail q + 1) mod c)) as -> by (apply (moduloAdd_ok q Hc); fold c; lia).
  cbn [mbind outcome_bind].
  rewrite (proj2 (isValidIdx_spec q l R (p mod c) Hm H1)) by eauto. simpl.
  rewrite (dq_empty q l R), (proj2 (Z.eqb_neq (Z.of_nat (length l)) 0)) by (destruct l; simpl; [done|lia]).
  eexists. split; [done|]. unfold at_pos. simpl. fold c. split; [done|].
  rewrite (wrapU_id 32 (_tail q + 1)) by (split; lia).
  pose proof (Z.div_mod p c ltac:(lia)) as Hd. unfold endpos in Hp. fold c in Hp.
  assert (0 ≤ p / c) by (apply Z.div_pos; lia).
  destruct (Z.ltb_spec (_tail q) (p mod c)) as [Hgt|Hle].
  - destruct (Z.ltb_spec (_tail q) (_head q)) as [Hth|Hth].
    + assert (p / c = _round q - 1) as Hq by nia.
      rewrite (proj2 (Z.leb_le _ _)) by nia. simpl. rewrite wrapU_id by (split; lia). done.
    + rewrite andb_false_r. exfalso. assert (p / c = _round q) by nia. nia.
  - assert (p / c = _round q) as Hq by (destruct (Z.ltb_spec (_tail q) (_head q)); nia).
    assert ((p mod c <? _head q) && (_tail q + 1 =? c) = false) as ->; [|done].
    apply andb_false_iff. rewrite Z.ltb_ge, Z.eqb_neq. destruct (Z.ltb_spec (_tail q) (_head q)); nia.
Qed.

Lemma getIterator_end :
  Z.of_nat (length l) < c → ∃ it, getIterator q ((_tail q + 1) mod c) = Ok it ∧ at_pos q it (endpos q).
Proof.
  intros Hroom. pose proof (dq_cap q l R) as Hc. fold c in Hc.
  pose proof (repr_tail _ _ R) as Ht. fold c in Ht. destruct (dq_next q l R) as [En Ed]. fold c in En, Ed.
  pose proof (repr_round _ _ R) as Hrd. pose proof (dq_head q l R) as Hh. fold c in Hh.
  unfold getIterator. fold c.
  assert (moduloAdd (_tail q) 1 c = Ok ((_tail q + 1) mod c)) as -> by (apply (moduloAdd_ok q Hc); fold c; lia).
  cbn [mbind outcome_bind]. rewrite Z.eqb_refl, orb_true_r. simpl.
  destruct (_empty q) eqn:Eem; [apply (repr_end q l R)|].
  assert (l ≠ []) as Hne by (intros E; by rewrite (repr_empty _ _ R), E in Eem).
  pose proof (dq_start q l R Hne) as Hs. fold c in Hs. unfold startpos, endpos in Hs. fold c in Hs.
  eexists. split; [done|]. unfold at_pos. simpl. fold c. rewrite En, Ed. split; [done|].
  rewrite (wrapU_id 32 (_tail q + 1)) by (split; lia).
  destruct (decide (_tail q + 1 = c)) as [E|E].
  - rewrite E, Z.mod_same, Z.eqb_refl by lia. rewrite (proj2 (Z.ltb_ge (_tail q) 0)) by lia. simpl.
    rewrite andb_true_r. destruct (Z.ltb_spec (_tail q) (_head q)); [lia|].
    rewrite (proj2 (Z.ltb_lt 0 (_head q))), wrapU_id by (unfold inU; nia). done.
  - rewrite Z.mod_small, (proj2 (Z.ltb_lt (_tail q) _)), (proj2 (Z.eqb_neq (_tail q + 1) 0)) by lia.
    destruct (Z.ltb_spec (_tail q) (_head q)); [|by rewrite andb_false_r].
    rewrite (proj2 (Z.leb_gt (_head q) _)) by nia. done.
Qed.
End Iterators.

(** ** The queue as a bounded deque *)

Inductive dq_op :=
  | DPushBack (x : Z)
  | DPopBack
  | DPopFront (n : nat)
  | DFront
  | DBack
  | DFull
  | DFlush.

(** On a list: a push on a full deque drops the oldest element, a pop of more
    than there is stops the program. *)
Definition dq_spec (c : Z) (l : list Z) (o : dq_op) : outcome (list Z * list Z) :=
  match o with
  | DPushBack x => Ok ([], (if decide (Z.of_nat (length l) = c) then drop 1 l else l) ++ [x])
  | DPopBack => if decide (l = []) then Err AssertFail else Ok ([], take (length l - 1) l)
  | DPopFront n => if decide (n ≤ length l)%nat then Ok ([], drop n l) else Err AssertFail
  | DFront => let* x := vec_get l 0 in Ok ([x], l)
  | DBack => let* x := vec_get l (length l - 1) in Ok ([x], l)
  | DFull => Ok ([Z.b2z (bool_decide (Z.of_nat (length l) = c))], l)
  | DFlush => Ok ([], [])
  end.

Definition dq_impl (q : CircularQueue) (o : dq_op) : outcome (list Z * CircularQueue) :=
  match o with
  | DPushBack x => let* q := push_back q x in Ok ([], q)
  | DPopBack => let* q := pop_back q in Ok ([], q)
  | DPopFront n => let* q := pop_front q (Z.of_nat n) in Ok ([], q)
  | DFront => let* x := front q in Ok ([x], q)
  | DBack => let* x := back q in Ok ([x], q)
  | DFull => Ok ([Z.b2z (full q)], q)
  | DFlush => Ok ([], flush q)
  end.

Fixpoint dq_run {S} (op : S → dq_op → outcome (list Z * S)) (s : S) (os : list dq_op)
    : outcome (list Z * S) :=
  match os with
  | [] => Ok ([], s)
  | o :: os =>
      let* (x, s) := op s o in
      let* (xs, s) := dq_run op s os in
      Ok (x ++ xs, s)
  end.

(** A pop takes at most the capacity. *)
Definition dq_op_ok (c : Z) (o : dq_op) : bool :=
  match o with DPopFront n => Z.of_nat n <=? c | _ => true end.

(** The queue represents the list, [n] pushes after it was empty at the start. *)
Record dq_rep (c : Z) (n : nat) (q : CircularQueue) (l : list Z) : Prop := {
  dr_repr : repr q l;
  dr_cap : _capacity q = c;
  dr_start : 1 ≤ startpos q l;
  dr_end : endpos q ≤ 1 + Z.of_nat n;
}.

Lemma dq_rep_round c n q l : dq_rep c n q l → 2 * _round q ≤ Z.of_nat n.
Proof.
  intros [Hr Hc _ He]. destruct Hr as [Hcap _ Ht Hrd _ _ _ _ _]. unfold endpos in He. nia.
Qed.

Lemma pop_front_over q l n :
  repr q l → _round q < 2 ^ 32 - 3 → Z.of_nat (length l) < n ≤ _capacity q → pop_front q n = Err AssertFail.
Proof.
  intros R Hr Hn. pose proof (repr_cap _ _ R) as Hc. pose proof (repr_start _ _ R) as Hst.
  unfold pop_front. rewrite (proj2 (Z.eqb_neq n 0)) by lia.
  destruct (repr_begin q l R) as (b & -> & Hb), (repr_end q l R) as (e & -> & He). cbn [mbind outcome_bind].
  pose proof (repr_tail _ _ R). pose proof (repr_round _ _ R).
  destruct (it_plus_pos q Hc b (startpos q l) n Hb) as (h & -> & Hh); [lia| | |].
  { apply (repr_pos_ok q l R). unfold startpos in *. lia. }
  { assert (endpos q ≤ (_round q + 1) * _capacity q) by (unfold endpos; lia).
    pose proof (Z.mul_le_mono_nonneg_r (_round q + 1) (2 ^ 32 - 3) (_capacity q) ltac:(lia) ltac:(lia)).
    assert (startpos q l ≤ endpos q) by (unfold startpos; lia). split; [lia|].
    replace (2 ^ 32) with (2 ^ 32 - 3 + 3) by lia. rewrite Z.mul_add_distr_r. lia. }
  cbn [mbind outcome_bind]. assert (it_le h e = false) as ->; [|done].
  assert (endpos q < startpos q l + n) as Hlt by (unfold startpos; lia).
  destruct Hh as [Hi1 Hr1], He as [Hi2 Hr2]. unfold it_le, it_lt. rewrite Hi1, Hr1, Hi2, Hr2.
  apply negb_false_iff, orb_true_iff. rewrite andb_true_iff, !Z.ltb_lt, Z.eqb_eq.
  pose proof (Z.div_mod (startpos q l + n) (_capacity q) ltac:(lia)).
  pose proof (Z.div_mod (endpos q) (_capacity q) ltac:(lia)).
  pose proof (Z.mod_pos_bound (startpos q l + n) (_capacity q) ltac:(lia)).
  pose proof (Z.mod_pos_bound (endpos q) (_capacity q) ltac:(lia)). nia.
Qed.

Lemma pop_front_frame q n q' : pop_front q n = Ok q' → endpos q' = endpos q.
Proof.
  unfold pop_front. destruct (n =? 0); [by intros [= <-]|]. intros H.
  apply bind_ok in H as (? & _ & H). apply bind_ok in H as (? & _ & H). apply bind_ok in H as (? & _ & H).
  by apply bind_ok in H as (? & _ & [= <-]).
Qed.

Lemma dq_op_refines c n q l o :
  dq_rep c n q l → Z.of_nat n < 2 ^ 32 → dq_op_ok c o = true →
  match dq_spec c l o with
  | Ok (x, l') => ∃ q', dq_impl q o = Ok (x, q') ∧ dq_rep c (S n) q' l'
  | Err AssertFail => dq_impl q o = Err AssertFail
  | Err _ => True
  end.
Proof.
  intros D Hn Hok. pose proof (dq_rep_round c n q l D) as Hrd. destruct D as [R Hc Hst He]. subst c.
  assert (∀ n', (n ≤ n')%nat → dq_rep (_capacity q) n' q l) as Hsame by (split; try done; lia).
  destruct o as [x| |k| | | |]; cbn [dq_spec dq_impl].
  - destruct (push_back_repr q l R x) as (q' & -> & R' & He' & Hs' & Hc'); [lia|].
    eexists. split; [done|]. split; [done|done|lia|lia].
  - case_decide as E; [by rewrite (pop_back_empty q l R)|].
    destruct (exists_last E) as (l0 & x & ->). rewrite length_app, take_app_le by (simpl; lia).
    simpl. rewrite take_ge by lia.
    destruct (pop_back_repr q _ R x l0 eq_refl Hst) as (q' & -> & R' & Hs' & He' & Hc').
    eexists. split; [done|]. split; [done|done|lia|lia].
  - simpl in Hok. zbool. case_decide as E.
    + destruct (pop_front_repr q l (Z.of_nat k) R) as (q' & Hpop & R' & Hr' & Hc'); [lia|].
      rewrite Hpop. simpl. rewrite Nat2Z.id in R'. eexists. split; [done|].
      pose proof (pop_front_frame q _ q' Hpop) as Ee. split; [done|done| |lia].
      unfold startpos in *. rewrite Ee, length_drop. lia.
    + by rewrite (pop_front_over q l (Z.of_nat k) R) by lia.
  - destruct l as [|y l0]; [done|]. simpl. rewrite (front_spec q _ R) by done. simpl. eauto.
  - destruct l as [|y l0] eqn:El; [done|]. rewrite <-El in *. rewrite (back_spec q l R) by (by rewrite El).
    destruct (vec_get l (length l - 1)) as [y'|e] eqn:Ev; simpl; [eauto|].
    unfold vec_get in Ev. destruct (l !! _) eqn:Elk; [done|]. by injection Ev as <-.
  - rewrite (full_spec q l R). eauto.
  - eexists. split; [done|]. split; [by eapply flush_repr|done|done|]. unfold endpos. simpl. lia.
Qed.

Lemma dq_run_refines c os : ∀ n q l,
  dq_rep c n q l → Z.of_nat (n + length os) < 2 ^ 32 → forallb (dq_op_ok c) os = true →
  match dq_run (dq_spec c) l os with
  | Ok (xs, l') => ∃ q', dq_run dq_impl q os = Ok (xs, q') ∧ repr q' l'
  | Err AssertFail => dq_run dq_impl q os = Err AssertFail
  | Err _ => True
  end.
Proof.
  induction os as [|o os IH]; intros n q l D Hn Hok; cbn [dq_run].
  { exists q. split; [done|]. apply D. }
  cbn [forallb length] in *. apply andb_true_iff in Hok as [Hok Hoks].
  pose proof (dq_op_refines c n q l o D ltac:(lia) Hok) as Ho.
  destruct (dq_spec c l o) as [[x l1]|e]; cbn [mbind outcome_bind].
  - destruct Ho as (q1 & -> & D1). cbn [mbind outcome_bind].
    specialize (IH (S n) q1 l1 D1 ltac:(lia) Hoks).
    destruct (dq_run (dq_spec c) l1 os) as [[xs l']|e]; cbn [mbind outcome_bind].
    + destruct IH as (q' & -> & ?). by exists q'.
    + destruct e; try done. by rewrite IH.
  - destruct e; try done. by rewrite Ho.
Qed.

(** C14: the circular queue is a bounded deque.  Any sequence of pushes and pops
    at the back, pops at the front, looks at both ends, tests for fullness and
    flushes gives on the circular queue what it gives on a list that keeps the
    newest [c] elements, whatever the wrap-arounds, and stops at an assertion
    exactly when the list runs out. *)
Theorem circular_deque c os
    (Hcap : 2 ≤ c < 2 ^ 31) (Hok : forallb (dq_op_ok c) os = true)
    (Hlen : Z.of_nat (length os) < 2 ^ 32) :
  match dq_run (dq_spec c) [] os with
  | Ok (xs, l) => ∃ q, dq_run dq_impl (CircularQueue_new c) os = Ok (xs, q) ∧ repr q l
  | Err AssertFail => dq_run dq_impl (CircularQueue_new c) os = Err AssertFail
  | Err _ => True
  end.
Proof.
  apply (dq_run_refines c os 0); [|done|done]. split; [by apply CircularQueue_new_repr|done|done|done].
Qed.

Definition dq_ops_ex : list dq_op :=
  [DPushBack 1; DPushBack 2; DPushBack 3; DFull; DPushBack 4; DFront; DBack; DPopBack; DPopFront 1;
   DPushBack 5; DBack; DFront].
Lemma circular_deque_witness :
  ∃ q, dq_run dq_impl (CircularQueue_new 3) dq_ops_ex = Ok ([1; 2; 4; 5; 3], q) ∧ repr q [3; 5].
Proof. apply (circular_deque 3 dq_ops_ex); [lia|reflexivity|reflexivity]. Defined.

(** ** Where the code does not do what its comments say *)

(** With one element every index passes [isValidIdx(idx)]. *)
Lemma isValidIdx_one q x idx : repr q [x] → isValidIdx q idx = true.
Proof.
  intros R. pose proof (dq_start q [x] R ltac:(done)) as Hs. pose proof (dq_head q [x] R).
  pose proof (repr_tail _ _ R). unfold startpos, endpos in Hs. simpl in Hs.
  unfold isValidIdx. rewrite (dq_empty q [x] R). simpl.
  assert (_head q = _tail q) as -> by (destruct (Z.ltb_spec (_tail q) (_head q)); nia).
  rewrite Z.ltb_irrefl. simpl. destruct (Z.ltb_spec (_tail q) idx); [|done].
  rewrite (proj2 (Z.ltb_ge idx _)) by lia. done.
Qed.

Definition one_element : outcome CircularQueue := push_back (CircularQueue_new 6) 7.
Example isValidIdx_one_ex :
  (let* q := one_element in Ok (size q, isValidIdx q 5, isValidIdx_round q 5 0)) = Ok (1, true, false).
Proof. reflexivity. Qed.

(** The iterator to the first element can be decremented when the head is not at
    index zero and the elements have not wrapped. *)
Example begin_decrementable :
  (let* q := one_element in let* b := begin_ q in
   let* it := it_decr q b in Ok (dereferenceable q b, dereferenceable q it)) = Ok (true, false).
Proof. reflexivity. Qed.

(** [operator-=] over a round boundary gives the wrong round unless the capacity
    divides [2^64]: one step back from the first cell of round one. *)
Example minus_eq_round :
  it_minus_eq (CircularQueue_new 6) (mkIt 0 1) 1 = Ok (mkIt 5 2863311531) ∧
  it_minus_eq (CircularQueue_new 8) (mkIt 0 1) 1 = Ok (mkIt 7 0).
Proof. split; reflexivity. Qed.
