(* ===== verification/ByteFifo.v ===== *)
(** The contract between the FIFO of [base/circlebuf.hh] and the devices built
    on it: a bounded byte queue, as a class, and its implementation by the
    circular queue.  Clients are proved against the class. *)
From S2P Require Import Prelude CircularQueue.

(** [bf_rep n q l]: the queue [q] holds the bytes [l], oldest first, and
    [n] more writes are possible before the 32-bit round counter of the
    implementation is exhausted. *)
Class ByteFifo (Q : Type) := {
  bf_write : Q → list Z → outcome Q;
  bf_read : Q → Z → outcome (list Z * Q);
  bf_size : Q → Z;
  bf_capacity : Q → Z;
  bf_flush : Q → Q;
  bf_rep : nat → Q → list Z → Prop;
}.

Class ByteFifoLaws Q `{ByteFifo Q} := {
  bf_size_ok n q l : bf_rep n q l → bf_size q = Z.of_nat (length l);
  bf_bounded n q l : bf_rep n q l → Z.of_nat (length l) ≤ bf_capacity q;
  bf_write_ok n q l xs :
    bf_rep (S n) q l → Z.of_nat (length l + length xs) ≤ bf_capacity q →
    ∃ q', bf_write q xs = Ok q' ∧ bf_rep n q' (l ++ xs) ∧ bf_capacity q' = bf_capacity q;
  bf_write_full n q l xs :
    bf_rep n q l → bf_capacity q < Z.of_nat (length l + length xs) →
    bf_write q xs = Err Panic;
  bf_read_ok n q l k :
    bf_rep n q l → 0 ≤ k ≤ Z.of_nat (length l) →
    ∃ q', bf_read q k = Ok (take (Z.to_nat k) l, q') ∧ bf_rep n q' (drop (Z.to_nat k) l) ∧
      bf_capacity q' = bf_capacity q;
  bf_read_short n q l k :
    bf_rep n q l → Z.of_nat (length l) < k → bf_read q k = Err Panic;
  bf_weaken n q l : bf_rep (S n) q l → bf_rep n q l;
  bf_flush_ok n q l : bf_rep n q l → bf_rep n (bf_flush q) [];
}.

#[export] Instance cq_fifo : ByteFifo CircularQueue := {
  bf_write := Fifo_write;
  bf_read := Fifo_read;
  bf_size := size;
  bf_capacity := _capacity;
  bf_flush := flush;
  bf_rep n q l := repr q l ∧ _round q + Z.of_nat n < 2 ^ 32 - 2;
}.

#[export] Instance cq_fifo_laws : ByteFifoLaws CircularQueue.
Proof.
  split; cbn [bf_write bf_read bf_size bf_capacity bf_flush bf_rep cq_fifo].
  - intros n q l [R _]. by apply repr_size.
  - intros n q l [R _]. apply (repr_fits _ _ R).
  - intros n q l xs [R Hn] Hfit.
    destruct (Fifo_write_repr q l xs R Hfit) as (q' & ? & ? & ? & ?); [lia|].
    exists q'. split_and!; [done|done|lia|done].
  - intros n q l xs [R _]. by apply Fifo_write_overrun.
  - intros n q l k [R Hn] Hk.
    destruct (Fifo_read_repr q l k R Hk) as (q' & ? & ? & Hr & ?).
    exists q'. rewrite Hr. done.
  - intros n q l k [R _]. by apply Fifo_read_underrun.
  - intros n q l [R Hn]. split; [done|lia].
  - intros n q l [R Hn]. split; [by eapply flush_repr|].
    destruct (repr_round _ _ R). simpl. lia.
Qed.

(** A fresh FIFO is empty and good for [2^32 - 3] writes. *)
Lemma cq_fifo_new n c :
  2 ≤ c < 2 ^ 31 → Z.of_nat n < 2 ^ 32 - 2 → bf_rep n (CircularQueue_new c) [].
Proof. intros ??. split; [by apply CircularQueue_new_repr|done]. Qed.

(** One step of a client: write a block of bytes, or read some. *)
Inductive fifo_op := FWrite (xs : list Z) | FRead (k : Z).

(** The abstract bounded queue of capacity [c]. *)
Definition spec_op (c : Z) (l : list Z) (o : fifo_op) : outcome (list Z * list Z) :=
  match o with
  | FWrite xs =>
      if c <? Z.of_nat (length l + length xs) then Err Panic else Ok ([], l ++ xs)
  | FRead k =>
      if Z.of_nat (length l) <? k then Err Panic
      else Ok (take (Z.to_nat k) l, drop (Z.to_nat k) l)
  end.

Definition impl_op {Q} `{ByteFifo Q} (q : Q) (o : fifo_op) : outcome (list Z * Q) :=
  match o with
  | FWrite xs => let* q' := bf_write q xs in Ok ([], q')
  | FRead k => bf_read q k
  end.

(** Run a sequence of operations, collecting what is read. *)
Fixpoint run {S} (op : S → fifo_op → outcome (list Z * S)) (s : S) (os : list fifo_op)
    : outcome (list Z * S) :=
  match os with
  | [] => Ok ([], s)
  | o :: os =>
      let* r := op s o in
      let* r' := run op r.2 os in
      Ok (r.1 ++ r'.1, r'.2)
  end.

Definition op_ok (o : fifo_op) : bool :=
  match o with FWrite _ => true | FRead k => 0 <=? k end.

Section run.
Context {Q} `{ByteFifoLaws Q}.

Lemma impl_op_refines o n q l :
  op_ok o = true → bf_rep (S n) q l →
  match spec_op (bf_capacity q) l o with
  | Ok (out, l') => ∃ q', impl_op q o = Ok (out, q') ∧ bf_rep n q' l' ∧
      bf_capacity q' = bf_capacity q
  | Err e => impl_op q o = Err e
  end.
Proof.
  intros Ho R. destruct o as [xs|k]; simpl in *; case_zbool.
  - by rewrite (bf_write_full _ _ _ _ R).
  - destruct (bf_write_ok _ _ _ xs R) as (q' & -> & ? & ?); [lia|]. by exists q'.
  - by rewrite (bf_read_short _ _ _ _ R).
  - zbool. destruct (bf_read_ok _ _ _ k R) as (q' & -> & R' & ?); [lia|].
    exists q'. auto using bf_weaken.
Qed.

Lemma run_refines os : ∀ n q l,
  forallb op_ok os = true → bf_rep (length os + n) q l →
  match run (spec_op (bf_capacity q)) l os with
  | Ok (out, l') => ∃ q', run impl_op q os = Ok (out, q') ∧ bf_rep n q' l' ∧
      bf_capacity q' = bf_capacity q
  | Err e => run impl_op q os = Err e
  end.
Proof.
  induction os as [|o os IH]; intros n q l Hok R; cbn [run].
  { exists q. done. }
  simpl in Hok. zbool.
  pose proof (impl_op_refines o (length os + n) q l ltac:(done) R) as Ho.
  destruct (spec_op _ l o) as [[out l']|e]; simpl; [|by rewrite Ho].
  destruct Ho as (q' & -> & R' & Hc). simpl.
  specialize (IH n q' l' ltac:(done) R'). rewrite Hc in IH.
  destruct (run _ l' os) as [[outs l'']|e]; simpl; [|by rewrite IH].
  destruct IH as (q'' & -> & ? & ?). exists q''. done.
Qed.
End run.

(** C13: the FIFO is a bounded byte queue: from a fresh one, any sequence of
    [write] and [read] calls on the circular buffer returns the bytes a list
    would, in the order they were written, across any number of wrap-arounds,
    and stops with a panic exactly when the list would overflow or run short
    (for fewer calls than the 32-bit round counter has values). *)
Theorem fifo_refines_queue c os
    (Hc : 2 ≤ c < 2 ^ 31) (Hos : forallb op_ok os = true)
    (Hn : Z.of_nat (length os) < 2 ^ 32 - 2) :
  let step q o := match o with
                  | FWrite xs => let* q' := Fifo_write q xs in Ok ([], q')
                  | FRead k => Fifo_read q k
                  end in
  match run (spec_op c) [] os with
  | Ok (out, l) => ∃ q, run step (CircularQueue_new c) os = Ok (out, q) ∧ repr q l ∧
      size q = Z.of_nat (length l)
  | Err e => run step (CircularQueue_new c) os = Err e
  end.
Proof.
  intros step. change step with (impl_op (Q := CircularQueue)).
  pose proof (run_refines os 0 (CircularQueue_new c) [] Hos) as R.
  rewrite Nat.add_0_r in R. specialize (R (cq_fifo_new _ _ Hc Hn)).
  change (bf_capacity (CircularQueue_new c)) with c in R.
  destruct (run (spec_op c) [] os) as [[out l]|e]; [|exact R].
  destruct R as (q & Hq & [Hrep Hround] & _). exists q. split; [done|]. split; [done|].
  by apply repr_size.
Qed.

Lemma fifo_refines_queue_witness :
  let step q o := match o with
                  | FWrite xs => let* q' := Fifo_write q xs in Ok ([], q')
                  | FRead k => Fifo_read q k
                  end in
  let os := [FWrite [1; 2; 3]; FRead 2; FWrite [4; 5; 6]; FRead 3] in
  match run (spec_op 4) [] os with
  | Ok (out, l) => ∃ q, run step (CircularQueue_new 4) os = Ok (out, q) ∧ repr q l ∧
      size q = Z.of_nat (length l)
  | Err e => run step (CircularQueue_new 4) os = Err e
  end.
Proof.
  apply (fifo_refines_queue 4 [FWrite [1; 2; 3]; FRead 2; FWrite [4; 5; 6]; FRead 3]);
    [lia|reflexivity|reflexivity].
Defined.
