(* ===== verification/CppString.v ===== *)
(** The part of [std::string] and of the C conversion functions the sources
    use: [find], [substr], [front], [back], [operator[]], [stoi], [atol]. *)
From stdpp Require Import strings.
From S2P Require Import Prelude.
From Stdlib Require Import Ascii String.

#[global] Open Scope Z_scope.

(** Positions are [size_t]; [npos] is its largest value. *)
Definition npos : Z := 2 ^ 64 - 1.
Definition strlen (s : string) : Z := Z.of_nat (String.length s).

(** [s.find(t, pos)]. *)
Definition str_find_from (s t : string) (pos : Z) : Z :=
  if strlen s <? pos then npos else
  match String.index (Z.to_nat pos) t s with
  | Some n => Z.of_nat n
  | None => npos
  end.
Definition str_find (s t : string) : Z := str_find_from s t 0.

(** [s.substr(pos, n)]: throws when [pos] is past the end, clips [n]. *)
Definition str_substr (s : string) (pos n : Z) : outcome string :=
  let pos := u64 pos in
  if strlen s <? pos then Err OutOfRange else
  let n := Z.min (u64 n) (strlen s - pos) in
  Ok (String.substring (Z.to_nat pos) (Z.to_nat n) s).
Definition str_substr_from (s : string) (pos : Z) : outcome string := str_substr s pos npos.

(** [s[i]]: the terminating null for [i = size()], undefined beyond. *)
Definition str_index (s : string) (i : Z) : outcome ascii :=
  if (0 <=? i) && (i <? strlen s) then
    match String.get (Z.to_nat i) s with Some c => Ok c | None => Err Undefined end
  else if i =? strlen s then Ok zero else Err Undefined.

(** [front()] and [back()]: undefined on the empty string. *)
Definition str_front (s : string) : outcome ascii :=
  if strlen s =? 0 then Err Undefined else str_index s 0.
Definition str_back (s : string) : outcome ascii :=
  if strlen s =? 0 then Err Undefined else str_index s (strlen s - 1).

(** [strtol] in base 10: white space, a sign, then digits. *)
Definition digit_of (c : ascii) : option Z :=
  let n := Z.of_nat (nat_of_ascii c) in
  if (48 <=? n) && (n <=? 57) then Some (n - 48) else None.

Definition is_space (c : ascii) : bool :=
  let n := Z.of_nat (nat_of_ascii c) in (n =? 32) || ((9 <=? n) && (n <=? 13)).

Fixpoint skip_space (s : string) : string :=
  match s with
  | String c s' => if is_space c then skip_space s' else s
  | EmptyString => s
  end.

Fixpoint digits (acc : Z) (seen : bool) (s : string) : Z * bool :=
  match s with
  | String c s' =>
      match digit_of c with
      | Some d => digits (10 * acc + d) true s'
      | None => (acc, seen)
      end
  | EmptyString => (acc, seen)
  end.

(** The unbounded value and whether any digit was read. *)
Definition strtol10 (s : string) : Z * bool :=
  match skip_space s with
  | String c s' =>
      if Ascii.eqb c "-"%char then let (n, b) := digits 0 false s' in (- n, b)
      else if Ascii.eqb c "+"%char then digits 0 false s'
      else digits 0 false (String c s')
  | EmptyString => (0, false)
  end.

(** [std::stoi]: throws on no digits and on a value outside [int]. *)
Definition stoi (s : string) : outcome Z :=
  let (n, b) := strtol10 s in
  if negb b then Err InvalidArgument
  else if (- 2 ^ 31 <=? n) && (n <? 2 ^ 31) then Ok n else Err OutOfRange.

(** [atol]: zero without digits, saturating at the bounds of [long]. *)
Definition atol (s : string) : Z :=
  let (n, b) := strtol10 s in
  if negb b then 0 else Z.max (- 2 ^ 63) (Z.min (2 ^ 63 - 1) n).

Example stoi_ex : stoi "32" = Ok 32 ∧ stoi "x" = Err InvalidArgument ∧ atol " -7," = -7.
Proof. split_and!; reflexivity. Qed.
