(* ===== verification/Tokens.v ===== *)
(** Model of the first half of [BasicBlock::parse] in
    [hwacc/LLVMRead/src/basic_block.cc]: the return register and the opcode are
    cut off a line of the IR, then the rest is split into its parameters.  A
    bracketed group is one parameter; other parameters end at a space or a
    comma.  Positions are [int]s computed from the [size_t] results of [find]. *)
From stdpp Require Import strings.
From S2P Require Import Prelude CppString.
From Stdlib Require Import Ascii String.

#[local] Open Scope Z_scope.

(** ** Groups *)

(** [line.substr(pos).find(c)]. *)
Definition find_after (line : string) (pos : Z) (c : string) : outcome Z :=
  let* rest := str_substr_from line pos in Ok (str_find rest c).

(** The [while] that moves the right delimiter past the nested groups. *)
Fixpoint group_loop (fuel : nat) (line l r : string) (leftDelimeter rightDelimeter lastInLine : Z)
    : outcome Z :=
  if (leftDelimeter <? rightDelimeter) && (0 <=? lastInLine) then
    match fuel with
    | O => Err OutOfFuel
    | S n =>
        let* lf := find_after line (leftDelimeter + 1) l in
        let* rg := find_after line (rightDelimeter + 1) r in
        group_loop n line l r (s32 (leftDelimeter + 1 + lf)) (s32 (rightDelimeter + 1 + rg)) (s32 lf)
    end
  else Ok rightDelimeter.

(** The position of the delimiter that ends the group starting at [i]. *)
Definition group_end (line l r : string) (i : Z) : outcome Z :=
  let* lf := find_after line (i + 1) l in
  let* rg := find_after line i r in
  let rightDelimeter := s32 (i + rg) in
  group_loop (S (String.length line)) line l r (s32 (i + 1 + lf)) rightDelimeter rightDelimeter.

(** ** One turn of the loop over the line

    The new value of [i] (before the [i++] of the loop) and of the parameters. *)

Definition group_token (line l r : string) (i : Z) (parameters : list string) : outcome (Z * list string) :=
  let* rightDelimeter := group_end line l r i in
  let* t := str_substr line i (rightDelimeter - (i - 1)) in
  Ok (rightDelimeter, parameters ++ [t]).

Definition plain_token (line : string) (i : Z) (parameters : list string) : outcome (Z * list string) :=
  let* sp := find_after line (i + 1) " " in
  let* co := find_after line (i + 1) "," in
  if co <? sp then
    let rightDelimeter := s32 (1 + co) in
    let* t := str_substr line i rightDelimeter in
    Ok (i + rightDelimeter, parameters ++ [t])
  else if sp <? co then
    let rightDelimeter := s32 (1 + sp) in
    let* t := str_substr line i rightDelimeter in
    Ok (i + rightDelimeter, parameters ++ [t])
  else
    let* t := str_substr_from line i in
    Ok (strlen line - 1, parameters ++ [t]).

(** [parameters[parameters.size() - 1] += '*']. *)
Definition append_star (parameters : list string) : outcome (list string) :=
  match last parameters with
  | Some t => Ok (removelast parameters ++ [String.append t "*"])
  | None => Err Undefined
  end.

Definition token_step (line : string) (i : Z) (parameters : list string) : outcome (Z * list string) :=
  let* c := str_index line i in
  if Ascii.eqb c " " then Ok (i, parameters)
  else if Ascii.eqb c "(" then group_token line "(" ")" i parameters
  else if Ascii.eqb c "[" then group_token line "[" "]" i parameters
  else if Ascii.eqb c "{" then group_token line "{" "}" i parameters
  else if Ascii.eqb c "<" then group_token line "<" ">" i parameters
  else if Ascii.eqb c "=" then Ok (i, parameters)
  else if Ascii.eqb c "*" then let* ps := append_star parameters in Ok (i, ps)
  else if Ascii.eqb c "," then Ok (i, parameters)
  else plain_token line i parameters.

Fixpoint token_loop (fuel : nat) (line : string) (i : Z) (parameters : list string) : outcome (list string) :=
  if u64 i <? strlen line then
    match fuel with
    | O => Err OutOfFuel
    | S n =>
        let* (i, parameters) := token_step line i parameters in
        token_loop n line (i + 1) parameters
    end
  else Ok parameters.

(** The parameters of a line.  A loop that ends does so within a turn per
    character. *)
Definition tokenize (line : string) : outcome (list string) :=
  token_loop (S (String.length line)) line 0 [].

(** ** The opcode *)

(** The loop to the first character that is not a space. *)
Fixpoint first_nonspace (s : string) (i : Z) : option Z :=
  match s with
  | EmptyString => None
  | String c s => if Ascii.eqb c " " then first_nonspace s (i + 1) else Some i
  end.

(** The name of the return register, if the line has one, the opcode and the
    rest of the line. *)
Definition split_opcode (line : string) : outcome (option string * string * string) :=
  let returnChk := s32 (str_find line " = ") in
  if 0 <? returnChk then
    let* ret_name := str_substr line (str_find line "%" + 1) (returnChk - 3) in
    let* line := str_substr_from line (returnChk + 3) in
    let* opCode := str_substr line 0 (str_find line " ") in
    let* line := str_substr_from line (str_find line " ") in
    Ok (Some ret_name, opCode, line)
  else
    match first_nonspace line 0 with
    | Some i =>
        let* opCode := str_substr line i (str_find_from line " " i - 2) in
        let* line := str_substr_from line (str_find line " " + 1) in
        Ok (None, opCode, line)
    | None => Ok (None, ""%string, line)
    end.

(** ** Examples *)

Example tokens_ex :
  split_opcode "  %5 = getelementptr inbounds [4 x i32], [4 x i32]* %a, i64 0, i64 %i"
  = Ok (Some "5", "getelementptr", " inbounds [4 x i32], [4 x i32]* %a, i64 0, i64 %i")%string ∧
  tokenize " inbounds [4 x i32], [4 x i32]* %a, i64 0, i64 %i"
  = Ok ["inbounds"; "[4 x i32]"; "[4 x i32]*"; "%a"; "i64"; "0"; "i64"; "%i"]%string ∧
  split_opcode "  br i1 %c, label %t, label %f" = Ok (None, "br", " br i1 %c, label %t, label %f")%string ∧
  tokenize " i32 [ %a, %b ], [ 0, %c ]" = Ok ["i32"; "[ %a, %b ]"; "[ 0, %c ]"]%string ∧
  tokenize " {i32, {i8, {i1}}, {i2}} {i3}" = Ok ["{i32, {i8, {i1}}, {i2}}"; "{i3}"]%string.
Proof. by vm_compute. Qed.

(** A group that is not closed keeps the loop at its first character for
    ever. *)
Example unclosed_group : tokenize " i32 (i8" = Err OutOfFuel.
Proof. by vm_compute. Qed.
