(* ===== verification/TokensSpec.v ===== *)
(** The splitting of a line into parameters against a reference: a lexer that
    walks over the line once and finds the end of a group by counting its
    nesting depth. *)
From stdpp Require Import strings.
From S2P Require Import Prelude CppString Tokens.
From Stdlib Require Import Ascii String.

#[local] Open Scope string_scope.
#[local] Open Scope list_scope.
#[local] Open Scope Z_scope.

(** ** Strings *)

Fixpoint str_drop (n : nat) (s : string) : string :=
  match n, s with
  | O, _ => s
  | S n, String _ s => str_drop n s
  | S _, EmptyString => EmptyString
  end.
Fixpoint str_take (n : nat) (s : string) : string :=
  match n, s with
  | O, _ => EmptyString
  | S n, String c s => String c (str_take n s)
  | S _, EmptyString => EmptyString
  end.

(** The first position of a character. *)
Fixpoint chr_index (c : ascii) (s : string) : option nat :=
  match s with
  | EmptyString => None
  | String d s => if Ascii.eqb d c then Some O else S <$> chr_index c s
  end.

Lemma index_chr c s : String.index 0 (String c "") s = chr_index c s.
Proof.
  induction s as [|d s IH]; [done|]. cbn [String.index chr_index]. cbn [String.prefix].
  destruct (ascii_dec c d) as [->|N].
  - by rewrite Ascii.eqb_refl; destruct s.
  - destruct (Ascii.eqb_spec d c); [congruence|]. rewrite IH. by destruct (chr_index c s).
Qed.

Lemma str_drop_length n s : String.length (str_drop n s) = (String.length s - n)%nat.
Proof. revert s. induction n as [|n IH]; intros [|c s]; cbn; auto. Qed.
Lemma substring_drop n s : String.substring n (String.length s - n) s = str_drop n s.
Proof.
  revert s. induction n as [|n IH]; intros s; cbn.
  - rewrite Nat.sub_0_r. induction s as [|c s IHs]; [done|]. cbn. by rewrite IHs.
  - destruct s as [|c s]; [done|]. cbn. apply IH.
Qed.
Lemma substring_take p n s : String.substring p n s = str_take n (str_drop p s).
Proof.
  revert p n. induction s as [|c s IH]; intros p n.
  - by destruct p, n.
  - destruct p as [|p]; [|apply IH]. destruct n as [|n]; [done|]. cbn. f_equal. apply (IH 0%nat).
Qed.
Lemma str_drop_drop a b s : str_drop a (str_drop b s) = str_drop (b + a) s.
Proof. revert s. induction b as [|b IH]; intros s; [done|]. destruct s as [|c s]; [by destruct a|apply IH]. Qed.
Lemma str_drop_app a b : str_drop (String.length a) (String.append a b) = b.
Proof. induction a; cbn; auto. Qed.
Lemma str_take_app a b : str_take (String.length a) (String.append a b) = a.
Proof. induction a; cbn; [done|]. by f_equal. Qed.
Lemma str_take_drop n s : String.append (str_take n s) (str_drop n s) = s.
Proof. revert s. induction n as [|n IH]; intros [|c s]; cbn; try done. exact (f_equal (String c) (IH s)). Qed.
Lemma str_take_all n s : (String.length s ≤ n)%nat → str_take n s = s.
Proof. revert s. induction n as [|n IH]; intros [|c s] H; cbn in *; try done; [lia|]. by rewrite IH by lia. Qed.
Lemma str_length_app a b : String.length (String.append a b) = (String.length a + String.length b)%nat.
Proof. induction a as [|x a IH]; [done|]. exact (f_equal S IH). Qed.
Lemma str_app_assoc a b c : String.append (String.append a b) c = String.append a (String.append b c).
Proof. induction a as [|x a IH]; [done|]. exact (f_equal (String x) IH). Qed.
Lemma str_app_nil a : String.append a "" = a.
Proof. induction a as [|x a IH]; [done|]. exact (f_equal (String x) IH). Qed.
Lemma get_drop n s : String.get n s = String.get 0 (str_drop n s).
Proof. revert s. induction n as [|n IH]; intros [|c s]; cbn; auto. Qed.

(** ** The searches of the code *)

(** A line the code can handle with [int] positions. *)
Definition short (s : string) : Prop := strlen s < 2 ^ 31.

Definition pos_or_npos (o : option nat) : Z := match o with Some n => Z.of_nat n | None => npos end.

Lemma str_find_chr s c : str_find s (String c "") = pos_or_npos (chr_index c s).
Proof.
  unfold str_find, str_find_from, strlen. destruct (Z.ltb_spec (Z.of_nat (String.length s)) 0); [lia|].
  change (Z.to_nat 0) with 0%nat. by rewrite index_chr.
Qed.
Lemma chr_index_lt c s n : chr_index c s = Some n → (n < String.length s)%nat.
Proof.
  revert n. induction s as [|d s IH]; intros n; cbn; [done|]. destruct (Ascii.eqb d c); [intros [= <-]; lia|].
  intros H. apply fmap_Some in H as (m & H%IH & ->). lia.
Qed.
Lemma substr_from_ok s n : short s → (n ≤ String.length s)%nat → str_substr_from s (Z.of_nat n) = Ok (str_drop n s).
Proof.
  unfold short, strlen. intros Hs H. unfold str_substr_from, str_substr, strlen.
  rewrite (wrapU_id 64) by (split; lia). destruct (Z.ltb_spec (Z.of_nat (String.length s)) (Z.of_nat n)); [lia|].
  rewrite (wrapU_id 64 npos) by (unfold npos; split; lia). rewrite Z.min_r by (unfold npos; lia).
  rewrite Nat2Z.id. replace (Z.to_nat _) with (String.length s - n)%nat by lia. by rewrite substring_drop.
Qed.
Lemma substr_ok s p n : short s → (p ≤ String.length s)%nat → (Z.of_nat n < 2 ^ 31) →
  str_substr s (Z.of_nat p) (Z.of_nat n) = Ok (str_take n (str_drop p s)).
Proof.
  unfold short, strlen. intros Hs Hp Hn. unfold str_substr, strlen. rewrite !(wrapU_id 64) by (split; lia).
  destruct (Z.ltb_spec (Z.of_nat (String.length s)) (Z.of_nat p)); [lia|].
  rewrite Nat2Z.id, substring_take. f_equal.
  destruct (Nat.le_gt_cases n (String.length s - p)).
  - by replace (Z.to_nat _) with n by lia.
  - replace (Z.to_nat _) with (String.length s - p)%nat by lia.
    rewrite !str_take_all; [done|rewrite str_drop_length; lia|rewrite str_drop_length; lia].
Qed.
Lemma find_after_ok s n c : short s → (n ≤ String.length s)%nat →
  find_after s (Z.of_nat n) (String c "") = Ok (pos_or_npos (chr_index c (str_drop n s))).
Proof. intros Hs H. unfold find_after. rewrite substr_from_ok by done. cbn [mbind outcome_bind]. by rewrite str_find_chr. Qed.

(** ** Counting *)

(** How often [c] occurs in the first [n] characters. *)
Fixpoint cnt (c : ascii) (n : nat) (s : string) : Z :=
  match n, s with
  | S n, String d s => (if Ascii.eqb d c then 1 else 0) + cnt c n s
  | _, _ => 0
  end.

Lemma cnt_S c n s : cnt c (S n) s = cnt c n s + (if decide (String.get n s = Some c) then 1 else 0).
Proof.
  revert s. induction n as [|n IH]; intros [|d s]; try done.
  - cbn. destruct (Ascii.eqb_spec d c) as [->|]; case_decide; (congruence || done).
  - change (cnt c (S (S n)) (String d s)) with ((if Ascii.eqb d c then 1 else 0) + cnt c (S n) s).
    rewrite IH. cbn. lia.
Qed.
Lemma cnt_mono c n m s : (n ≤ m)%nat → cnt c n s ≤ cnt c m s.
Proof. induction 1 as [|m H IH]; [lia|]. rewrite cnt_S. case_decide; lia. Qed.
Lemma cnt_drop c i n s : cnt c n (str_drop i s) = cnt c (i + n) s - cnt c i s.
Proof.
  revert s. induction i as [|i IH]; intros [|d s]; cbn; try lia; [by destruct n|]. rewrite IH. lia.
Qed.
Lemma next_some c p s k : chr_index c (str_drop p s) = Some k →
  String.get (p + k) s = Some c ∧ cnt c (p + k) s = cnt c p s.
Proof.
  intros H. assert (∀ t k, chr_index c t = Some k → String.get k t = Some c ∧ cnt c k t = 0) as A.
  { clear. induction t as [|d t IH]; intros k; cbn; [done|]. destruct (Ascii.eqb_spec d c) as [->|N].
    - by intros [= <-].
    - intros H. apply fmap_Some in H as (m & H%IH & ->). cbn. destruct (Ascii.eqb_spec d c); [done|]. split; [apply H|lia]. }
  apply A in H as [H1 H2]. rewrite cnt_drop in H2.
  rewrite get_drop, <-str_drop_drop, <-get_drop. split; [done|lia].
Qed.
Lemma next_none c p s m : chr_index c (str_drop p s) = None → (p ≤ m)%nat → cnt c m s = cnt c p s.
Proof.
  intros H Hm. assert (∀ t n, chr_index c t = None → cnt c n t = 0) as A.
  { clear. induction t as [|d t IH]; intros n; cbn; [by destruct n|]. destruct (Ascii.eqb_spec d c) as [->|N]; [done|].
    intros H%fmap_None. destruct n; [done|]. cbn. destruct (Ascii.eqb_spec d c); [done|]. by rewrite IH. }
  specialize (A _ (m - p)%nat H). rewrite cnt_drop in A. replace (p + (m - p))%nat with m in A by lia. lia.
Qed.
Lemma get_lt n s c : String.get n s = Some c → (n < String.length s)%nat.
Proof. revert s. induction n as [|n IH]; intros [|d s]; cbn; try done; [lia|]. intros H%IH. lia. Qed.

Lemma s32_small z : 0 ≤ z < 2 ^ 31 → s32 z = z.
Proof. intros. apply wrapS_id; [lia|]. split; lia. Qed.
Lemma s32_npos z : 0 ≤ z < 2 ^ 31 → s32 (z + 1 + npos) = z.
Proof.
  intros. unfold npos. replace (z + 1 + (2 ^ 64 - 1)) with (z + 2 ^ 32 * 2 ^ 32) by lia.
  unfold wrapS. replace (z + 2 ^ 32 * 2 ^ 32 + 2 ^ (32 - 1)) with (z + 2 ^ (32 - 1) + 2 ^ 32 * 2 ^ 32) by lia.
  rewrite Z.mod_add by lia. fold (s32 z). by apply s32_small.
Qed.
Lemma s32_npos0 : s32 npos = -1.
Proof. by vm_compute. Qed.

(** ** The end of a group *)

(** The matching delimiter, by the depth; [depth] groups are open. *)
Fixpoint close_pos (l r : ascii) (depth : nat) (s : string) : option nat :=
  match s with
  | EmptyString => None
  | String c s =>
      if Ascii.eqb c l then S <$> close_pos l r (S depth) s
      else if Ascii.eqb c r then
        match depth with
        | O => None
        | S O => Some O
        | S d => S <$> close_pos l r d s
        end
      else S <$> close_pos l r depth s
  end.

(** Every delimiter has its partner. *)
Fixpoint balanced (l r : ascii) (depth : nat) (s : string) : bool :=
  match s with
  | EmptyString => Nat.eqb depth 0
  | String c s =>
      if Ascii.eqb c l then balanced l r (S depth) s
      else if Ascii.eqb c r then match depth with O => false | S d => balanced l r d s end
      else balanced l r depth s
  end.

Section Group.
Context (l r : ascii) (Hlr : l ≠ r).

Lemma balanced_total d s : balanced l r d s = true →
  Z.of_nat d + cnt l (String.length s) s - cnt r (String.length s) s = 0.
Proof.
  revert d. induction s as [|c s IH]; intros d; cbn; [destruct d; (done || lia)|].
  destruct (Ascii.eqb_spec c l); destruct (Ascii.eqb_spec c r); [congruence|..].
  - intros H%IH. lia.
  - destruct d as [|d]; [done|]. intros H%IH. lia.
  - intros H%IH. lia.
Qed.

Lemma close_pos_intro m : ∀ d s, (0 < d)%nat → String.get m s = Some r →
  Z.of_nat d + cnt l m s - cnt r m s = 1 →
  (∀ p, (p ≤ m)%nat → 0 < Z.of_nat d + cnt l p s - cnt r p s) → close_pos l r d s = Some m.
Proof.
  induction m as [|m IH]; intros d [|c s] Hd Hg Hm Hp; try done; cbn.
  - cbn in Hg, Hm. injection Hg as ->. destruct (Ascii.eqb_spec r l); [congruence|]. rewrite Ascii.eqb_refl.
    by replace d with 1%nat by lia.
  - assert (∀ d', (0 < d')%nat → Z.of_nat d' = Z.of_nat d + (if Ascii.eqb c l then 1 else 0) - (if Ascii.eqb c r then 1 else 0) →
      close_pos l r d' s = Some m) as A.
    { intros d' H1 H2. cbn in Hm, Hg. apply IH; [done|done|lia|]. intros p Hpm. specialize (Hp (S p) ltac:(lia)). cbn in Hp. lia. }
    specialize (Hp 1%nat ltac:(lia)). cbn in Hp. replace (match s with "" | _ => 0 end) with 0 in Hp by (by destruct s).
    destruct (Ascii.eqb_spec c l); destruct (Ascii.eqb_spec c r); [congruence|..].
    + rewrite (A (S d)) by lia. done.
    + destruct d as [|[|d]]; [lia|lia|]. by rewrite (A (S d)) by lia.
    + by rewrite (A d) by lia.
Qed.

(** The groups open before position [p] since [i]. *)
Context (line : string) (i : nat) (Hshort : short line).
Definition open_at (p : nat) : Z := (cnt l p line - cnt l i line) - (cnt r p line - cnt r i line).

(** [m] ends the group that starts at [i]. *)
Record ends_group (m : nat) : Prop := {
  eg_get : String.get m line = Some r;
  eg_pos : (i < m)%nat;
  eg_open : ∀ p, (i < p ≤ m)%nat → 0 < open_at p;
  eg_closed : open_at (S m) = 0;
}.

Lemma open_at_r m : String.get m line = Some r → open_at (S m) = open_at m - 1.
Proof. intros H. unfold open_at. rewrite !cnt_S. rewrite !(decide_True (P := String.get m line = Some r)) by done.
  rewrite decide_False by congruence. lia. Qed.

(** Between two occurrences of [r] the depth does not fall. *)
Lemma open_between p q : (p ≤ q)%nat → cnt r q line = cnt r p line → open_at p ≤ open_at q.
Proof. intros H E. unfold open_at. pose proof (cnt_mono l p q line H). lia. Qed.

Lemma get_short n c : String.get n line = Some c → Z.of_nat n + 1 < 2 ^ 31 ∧ (S n ≤ String.length line)%nat.
Proof. intros H%get_lt. unfold short, strlen in Hshort. lia. Qed.

(** One turn of the loop, on either search. *)
Lemma search_after c n d : String.get n line = Some d →
  find_after line (Z.of_nat n + 1) (String c "") = Ok (pos_or_npos (chr_index c (str_drop (S n) line))).
Proof.
  intros [? ?]%get_short. replace (Z.of_nat n + 1) with (Z.of_nat (S n)) by lia. by apply find_after_ok.
Qed.
Lemma moved_to c n d : String.get n line = Some d →
  s32 (Z.of_nat n + 1 + pos_or_npos (chr_index c (str_drop (S n) line)))
  = Z.of_nat (match chr_index c (str_drop (S n) line) with Some k => S n + k | None => n end).
Proof.
  intros [? ?]%get_short. destruct (chr_index _ _) as [k|] eqn:E; cbn [pos_or_npos].
  - pose proof (chr_index_lt _ _ _ E) as H1. rewrite str_drop_length in H1. unfold short, strlen in Hshort.
    rewrite s32_small by lia. lia.
  - rewrite s32_npos by lia. done.
Qed.

Lemma group_loop_ok fuel : ∀ lf rg la,
  open_at (String.length line) = 0 →
  String.get lf line = Some l → (i < lf)%nat → String.get rg line = Some r → (i < rg)%nat →
  (∀ p, (i < p ≤ rg)%nat → 0 < open_at p) →
  cnt l lf line - cnt l i line = cnt r rg line - cnt r i line + 1 → 0 ≤ la → (String.length line < fuel + lf)%nat →
  ∃ m, group_loop fuel line (String l "") (String r "") (Z.of_nat lf) (Z.of_nat rg) la = Ok (Z.of_nat m) ∧ ends_group m.
Proof.
  induction fuel as [|fuel IH]; intros lf rg la Htot Hl Hil Hr Hir Hop Hk Hla Hf;
    [pose proof (get_lt _ _ _ Hl); lia|].
  cbn [group_loop]. rewrite (proj2 (Z.leb_le 0 la)), andb_true_r by done.
  destruct (Z.ltb_spec (Z.of_nat lf) (Z.of_nat rg)) as [Hlt|Hge].
  2: { exists rg. split; [done|]. split; try done. rewrite (open_at_r rg Hr).
       specialize (Hop rg ltac:(lia)). assert (lf ≠ rg) by congruence.
       pose proof (cnt_mono l rg lf line ltac:(lia)). unfold open_at in *. lia. }
  rewrite (search_after l _ _ Hl), (search_after r _ _ Hr). cbn [mbind outcome_bind].
  rewrite (moved_to l _ _ Hl), (moved_to r _ _ Hr).
  assert (0 < open_at (S rg)) as Hopen.
  { rewrite (open_at_r rg Hr). unfold open_at. pose proof (cnt_mono l (S lf) rg line ltac:(lia)) as Hm.
    rewrite cnt_S, decide_True in Hm by done. lia. }
  destruct (chr_index r (str_drop (S rg) line)) as [kr|] eqn:Er.
  2: { pose proof (next_none _ _ _ (String.length line) Er ltac:(by apply (get_lt rg line r))) as N.
       pose proof (open_between (S rg) (String.length line) ltac:(by apply (get_lt rg line r)) N). lia. }
  apply next_some in Er as [Hr' Cr]. set (rg' := (S rg + kr)%nat) in *.
  assert (∀ p, (i < p ≤ rg')%nat → 0 < open_at p) as Hop'.
  { intros p Hp. destruct (decide (p ≤ rg)%nat); [apply Hop; lia|].
    assert (cnt r p line = cnt r (S rg) line) as E.
    { pose proof (cnt_mono r (S rg) p line ltac:(lia)). pose proof (cnt_mono r p rg' line ltac:(lia)). lia. }
    pose proof (open_between (S rg) p ltac:(lia) E). lia. }
  assert (cnt r rg' line = cnt r rg line + 1) as Cr' by (rewrite Cr, cnt_S, decide_True by done; lia).
  destruct (chr_index l (str_drop (S lf) line)) as [kl|] eqn:El.
  - pose proof (chr_index_lt _ _ _ El) as Hkl. rewrite str_drop_length in Hkl.
    apply next_some in El as [Hl' Cl]. set (lf' := (S lf + kl)%nat) in *.
    assert (cnt l lf' line = cnt l lf line + 1) as Cl' by (rewrite Cl, cnt_S, decide_True by done; lia).
    apply IH; try done; try lia. cbn [pos_or_npos]. unfold short, strlen in Hshort. rewrite s32_small by lia. lia.
  - cbn [pos_or_npos]. rewrite s32_npos0. exists rg'. split.
    + by destruct fuel; cbn [group_loop]; rewrite andb_false_r.
    + split; try done; [lia|]. rewrite (open_at_r rg' Hr').
      pose proof (next_none _ _ _ rg' El ltac:(lia)) as N. rewrite cnt_S, decide_True in N by done.
      unfold open_at in *. lia.
Qed.

Lemma group_end_ok :
  String.get i line = Some l → open_at (String.length line) = 0 →
  ∃ m, group_end line (String l "") (String r "") (Z.of_nat i) = Ok (Z.of_nat m) ∧ ends_group m.
Proof.
  intros Hi Htot. pose proof (get_short _ _ Hi) as [Hi1 Hi2]. unfold group_end.
  rewrite (search_after l _ _ Hi), (find_after_ok line i r Hshort ltac:(lia)). cbn [mbind outcome_bind].
  rewrite (moved_to l _ _ Hi).
  assert (cnt l (S i) line = cnt l i line + 1) as Ci by (rewrite cnt_S, decide_True by done; lia).
  assert (cnt r (S i) line = cnt r i line) as Cri by (rewrite cnt_S, decide_False by congruence; lia).
  pose proof (cnt_mono l (S i) (String.length line) line Hi2) as Hml.
  destruct (chr_index r (str_drop i line)) as [k|] eqn:Er; cbn [pos_or_npos].
  2: { pose proof (next_none _ _ _ (String.length line) Er ltac:(lia)). unfold open_at in Htot. lia. }
  pose proof (chr_index_lt _ _ _ Er) as Hk. rewrite str_drop_length in Hk. apply next_some in Er as [Hr Cr].
  assert (0 < k)%nat as Hk0. { destruct k; [|lia]. rewrite Nat.add_0_r in Hr. congruence. }
  set (rg := (i + k)%nat) in *. unfold short, strlen in Hshort.
  replace (s32 (Z.of_nat i + Z.of_nat k)) with (Z.of_nat rg) by (rewrite s32_small by lia; lia).
  assert (∀ p, (i < p ≤ rg)%nat → 0 < open_at p) as Hop.
  { intros p Hp. pose proof (cnt_mono l (S i) p line ltac:(lia)). pose proof (cnt_mono r p rg line ltac:(lia)).
    unfold open_at. lia. }
  destruct (chr_index l (str_drop (S i) line)) as [kl|] eqn:El.
  - apply next_some in El as [Hl Cl]. apply group_loop_ok; try done; lia.
  - pose proof (next_none _ _ _ (String.length line) El Hi2) as N.
    assert (chr_index r (str_drop (S rg) line) = None) as Er'.
    { destruct (chr_index r (str_drop (S rg) line)) as [k'|] eqn:E'; [|done].
      apply next_some in E' as [Hr' Cr']. pose proof (get_lt _ _ _ Hr').
      pose proof (cnt_mono r (S (S rg + k')) (String.length line) line ltac:(lia)) as M.
      rewrite cnt_S, decide_True in M by done. rewrite Cr', cnt_S, decide_True in M by done. unfold open_at in Htot. lia. }
    exists rg. split.
    + cbn [group_loop]. rewrite (proj2 (Z.ltb_lt _ _)), (proj2 (Z.leb_le 0 _)) by lia. cbn [andb].
      rewrite (search_after l _ _ Hi), (search_after r _ _ Hr), El, Er'. cbn [mbind outcome_bind pos_or_npos].
      rewrite s32_npos0, s32_npos by lia. destruct (String.length line); cbn [group_loop]; by rewrite andb_false_r, s32_npos by lia.
    + split; try done; [lia|]. rewrite (open_at_r rg Hr). pose proof (next_none _ _ _ rg El ltac:(lia)). unfold open_at in *. lia.
Qed.

Lemma ends_group_close m :
  String.get i line = Some l → ends_group m → close_pos l r 1 (str_drop (S i) line) = Some (m - S i)%nat.
Proof.
  intros Hi [Hg Hp Ho Hc]. rewrite (open_at_r m Hg) in Hc.
  assert (cnt l (S i) line = cnt l i line + 1) as Ci by (rewrite cnt_S, decide_True by done; lia).
  assert (cnt r (S i) line = cnt r i line) as Cri by (rewrite cnt_S, decide_False by congruence; lia).
  apply close_pos_intro; [lia| | |].
  - rewrite get_drop, str_drop_drop, <-get_drop. by replace (S i + (m - S i))%nat with m by lia.
  - rewrite !cnt_drop. replace (S i + (m - S i))%nat with m by lia. unfold open_at in Hc. lia.
  - intros p Hpm. rewrite !cnt_drop. specialize (Ho (S i + p)%nat ltac:(lia)). unfold open_at in Ho. lia.
Qed.

Lemma balanced_open : String.get i line = Some l → balanced l r 1 (str_drop (S i) line) = true →
  open_at (String.length line) = 0.
Proof.
  intros Hi B%balanced_total. pose proof (get_short _ _ Hi) as [_ Hi2].
  rewrite !cnt_drop, str_drop_length in B. replace (S i + (String.length line - S i))%nat with (String.length line) in B by lia.
  rewrite (cnt_S l i), (cnt_S r i), decide_True, decide_False in B by congruence. unfold open_at. lia.
Qed.
End Group.

(** ** The reference lexer *)

Definition closing (c : ascii) : option ascii :=
  if Ascii.eqb c "(" then Some ")"%char
  else if Ascii.eqb c "[" then Some "]"%char
  else if Ascii.eqb c "{" then Some "}"%char
  else if Ascii.eqb c "<" then Some ">"%char
  else None.

Definition separator (c : ascii) : bool := Ascii.eqb c " " || Ascii.eqb c ",".

(** The text up to the next space or comma. *)
Fixpoint till (s : string) : string :=
  match s with
  | EmptyString => EmptyString
  | String c s => if separator c then EmptyString else String c (till s)
  end.

(** A group is taken whole, if the rest of the line is balanced; a star goes to
    the parameter before it; spaces, commas and equal signs are skipped. *)
Fixpoint lex (fuel : nat) (s : string) (ps : list string) : option (list string) :=
  match s, fuel with
  | EmptyString, _ => Some ps
  | _, O => None
  | String c s', S n =>
      match closing c with
      | Some r =>
          if balanced c r 1 s' then
            m ← close_pos c r 1 s';
            lex n (str_drop (S m) s') (ps ++ [String c (str_take (S m) s')])
          else None
      | None =>
          if separator c || Ascii.eqb c "=" then lex n s' ps
          else if Ascii.eqb c "*" then
            match append_star ps with Ok ps => lex n s' ps | Err _ => None end
          else lex n (str_drop (S (String.length (till s'))) s') (ps ++ [String c (till s')])
      end
  end.
Definition lexer (line : string) : option (list string) := lex (String.length line) line [].

(** ** The two agree *)

Lemma till_take s :
  till s = str_take (match chr_index " " s, chr_index "," s with
                     | Some a, Some b => Nat.min a b
                     | Some a, None => a
                     | None, Some b => b
                     | None, None => String.length s
                     end) s.
Proof.
  induction s as [|c s IH]; [done|]. cbn [till chr_index]. unfold separator.
  destruct (Ascii.eqb c " "); [by destruct (Ascii.eqb c ","), (chr_index "," s)|].
  destruct (Ascii.eqb c ","); [by destruct (chr_index " " s)|]. cbn [orb]. rewrite IH.
  by destruct (chr_index " " s), (chr_index "," s).
Qed.

Section Agree.
Context (line : string) (Hshort : short line).

Lemma drop_cons i c s : str_drop i line = String c s →
  String.get i line = Some c ∧ str_drop (S i) line = s ∧ (i < String.length line)%nat.
Proof.
  intros E. assert (String.get i line = Some c) as G by (by rewrite get_drop, E).
  split; [done|]. split; [|by apply get_lt in G].
  replace (S i) with (i + 1)%nat by lia. by rewrite <-str_drop_drop, E.
Qed.
Lemma str_index_get i c : String.get i line = Some c → str_index line (Z.of_nat i) = Ok c.
Proof.
  intros G. pose proof (get_lt _ _ _ G). unfold str_index, strlen.
  rewrite (proj2 (Z.leb_le _ _)), (proj2 (Z.ltb_lt _ _)) by lia. cbn. by rewrite Nat2Z.id, G.
Qed.

Lemma group_token_ok l r i s ps m :
  l ≠ r → str_drop i line = String l s → balanced l r 1 s = true → close_pos l r 1 s = Some m →
  group_token line (String l "") (String r "") (Z.of_nat i) ps
  = Ok (Z.of_nat (S i + m), ps ++ [String l (str_take (S m) s)]).
Proof.
  intros Hlr E B C. apply drop_cons in E as (G & D & Hi). subst s.
  destruct (group_end_ok l r Hlr line i Hshort G (balanced_open l r Hlr line i Hshort G B)) as (m' & Hm & EG).
  pose proof (ends_group_close l r Hlr line i m' G EG) as C'. rewrite C in C'. injection C' as ->.
  pose proof (eg_pos _ _ _ _ _ EG). pose proof (get_lt _ _ _ (eg_get _ _ _ _ _ EG)).
  unfold group_token. rewrite Hm. cbn [mbind outcome_bind]. unfold short, strlen in Hshort.
  replace (Z.of_nat m' - (Z.of_nat i - 1)) with (Z.of_nat (S (m' - i))) by lia.
  rewrite substr_ok by (done || lia). cbn [mbind outcome_bind].
  replace (S i + (m' - S i))%nat with m' by lia. do 4 f_equal.
  assert (str_drop i line = String l (str_drop (S i) line)) as ->.
  { destruct (str_drop i line) as [|c t] eqn:E; [by rewrite get_drop, E in G|].
    apply drop_cons in E as (G' & -> & _). congruence. }
  by replace (S (m' - S i)) with (m' - i)%nat by lia.
Qed.

Lemma plain_token_ok i c s ps : str_drop i line = String c s →
  ∃ j, plain_token line (Z.of_nat i) ps = Ok (Z.of_nat j, ps ++ [String c (till s)]) ∧ (i ≤ j < String.length line)%nat ∧
    str_drop (S j) line = str_drop (S (String.length (till s))) s.
Proof.
  intros E0. pose proof E0 as E. apply drop_cons in E as (G & D & Hi). subst s. unfold short, strlen in Hshort.
  unfold plain_token. rewrite !(search_after line Hshort _ _ _ G). cbn [mbind outcome_bind].
  rewrite till_take.
  assert (∀ ch k, chr_index ch (str_drop (S i) line) = Some k → (k < String.length line - S i)%nat) as Hlt.
  { intros ch k Hk. apply chr_index_lt in Hk. by rewrite str_drop_length in Hk. }
  assert (∀ k, (k < String.length line - S i)%nat → ∃ j,
    (let* t := str_substr line (Z.of_nat i) (s32 (1 + Z.of_nat k)) in
     Ok (Z.of_nat i + s32 (1 + Z.of_nat k), ps ++ [t])) = Ok (Z.of_nat j, ps ++ [String c (str_take k (str_drop (S i) line))]) ∧
    (i ≤ j < String.length line)%nat ∧
    str_drop (S j) line = str_drop (S (String.length (str_take k (str_drop (S i) line)))) (str_drop (S i) line)) as A.
  { intros k Hk. exists (S i + k)%nat. rewrite s32_small by lia.
    replace (1 + Z.of_nat k) with (Z.of_nat (S k)) by lia. rewrite substr_ok by (done || lia).
    cbn [mbind outcome_bind]. rewrite E0. cbn [str_take]. split; [do 2 f_equal; lia|]. split; [lia|].
    rewrite str_drop_drop. f_equal. 
    assert (∀ n t, (n ≤ String.length t)%nat → String.length (str_take n t) = n) as L.
    { clear. induction n as [|n IH]; intros [|c t] H; cbn in *; try done; [lia|]. by rewrite IH by lia. }
    rewrite L by (rewrite str_drop_length; lia). lia. }
  destruct (chr_index " " (str_drop (S i) line)) as [a|] eqn:Ea; destruct (chr_index "," (str_drop (S i) line)) as [b|] eqn:Eb;
    cbn [pos_or_npos].
  - pose proof (Hlt _ _ Ea). pose proof (Hlt _ _ Eb).
    destruct (Z.ltb_spec (Z.of_nat b) (Z.of_nat a)); [rewrite Nat.min_r by lia; by apply A|].
    destruct (Z.ltb_spec (Z.of_nat a) (Z.of_nat b)); [rewrite Nat.min_l by lia; by apply A|].
    replace b with a in * by lia. exfalso. apply next_some in Ea as [Ea _]. apply next_some in Eb as [Eb _]. congruence.
  - pose proof (Hlt _ _ Ea). rewrite (proj2 (Z.ltb_ge _ _)), (proj2 (Z.ltb_lt _ _)) by (unfold npos; lia). by apply A.
  - pose proof (Hlt _ _ Eb). rewrite (proj2 (Z.ltb_lt _ _)) by (unfold npos; lia). by apply A.
  - rewrite Z.ltb_irrefl. rewrite substr_from_ok by (done || lia). cbn [mbind outcome_bind].
    rewrite E0, str_take_all by lia. exists (String.length line - 1)%nat.
    split; [do 2 f_equal; unfold strlen; lia|]. split; [lia|].
    rewrite str_drop_drop, str_drop_length. replace (S (String.length line - 1)) with (String.length line) by lia.
    assert (∀ n t, (String.length t ≤ n)%nat → str_drop n t = "") as Dn.
    { clear. induction n as [|n IH]; intros [|c t] H; cbn in *; try done; [lia|]. apply IH. lia. }
    rewrite !Dn by lia. done.
Qed.

(** The step of the code at a character, by the reference's classification. *)
Lemma token_step_group i c r s ps m :
  closing c = Some r → str_drop i line = String c s → balanced c r 1 s = true → close_pos c r 1 s = Some m →
  token_step line (Z.of_nat i) ps = Ok (Z.of_nat (S i + m), ps ++ [String c (str_take (S m) s)]).
Proof.
  intros Hc E B C. pose proof (drop_cons _ _ _ E) as (G & _ & _).
  unfold token_step. rewrite (str_index_get _ _ G). cbn [mbind outcome_bind]. unfold closing in Hc.
  destruct (Ascii.eqb_spec c " ") as [->|]; [done|].
  destruct (Ascii.eqb_spec c "(") as [->|]; [injection Hc as <-; by apply group_token_ok|].
  destruct (Ascii.eqb_spec c "[") as [->|]; [injection Hc as <-; by apply group_token_ok|].
  destruct (Ascii.eqb_spec c "{") as [->|]; [injection Hc as <-; by apply group_token_ok|].
  destruct (Ascii.eqb_spec c "<") as [->|]; [injection Hc as <-; by apply group_token_ok|done].
Qed.
Lemma token_step_other i c s ps :
  closing c = None → str_drop i line = String c s →
  token_step line (Z.of_nat i) ps =
  if separator c || Ascii.eqb c "=" then Ok (Z.of_nat i, ps)
  else if Ascii.eqb c "*" then let* ps := append_star ps in Ok (Z.of_nat i, ps)
  else plain_token line (Z.of_nat i) ps.
Proof.
  intros Hc E. pose proof (drop_cons _ _ _ E) as (G & _ & _).
  unfold token_step, separator. rewrite (str_index_get _ _ G). cbn [mbind outcome_bind]. unfold closing in Hc.
  destruct (Ascii.eqb_spec c " ") as [->|]; [done|].
  destruct (Ascii.eqb c "("); [done|]. destruct (Ascii.eqb c "["); [done|]. destruct (Ascii.eqb c "{"); [done|].
  destruct (Ascii.eqb c "<"); [done|]. cbn [orb].
  destruct (Ascii.eqb_spec c "=") as [->|]; [done|]. destruct (Ascii.eqb_spec c "*") as [->|]; [done|].
  by destruct (Ascii.eqb_spec c ",") as [->|].
Qed.

Lemma token_loop_lex n : ∀ fuel i ps qs,
  (i ≤ String.length line)%nat → (String.length line - i < fuel)%nat →
  lex n (str_drop i line) ps = Some qs → token_loop fuel line (Z.of_nat i) ps = Ok qs.
Proof.
  induction n as [|n IH]; intros fuel i ps qs Hi Hf; destruct (str_drop i line) as [|c s] eqn:E; intros H; cbn [lex] in H; try done.
  1, 2: injection H as <-; assert (String.length line - i = 0)%nat by (by rewrite <-str_drop_length, E);
    unfold short in Hshort; destruct fuel; [lia|]; cbn [token_loop];
    rewrite (proj2 (Z.ltb_ge _ _)); [done|]; rewrite wrapU_id by (unfold strlen in *; split; lia); unfold strlen; lia.
  pose proof (drop_cons _ _ _ E) as (G & D & Hlt). destruct fuel as [|fuel]; [lia|]. cbn [token_loop].
  pose proof Hshort as Hs. unfold short, strlen in Hs.
  rewrite (proj2 (Z.ltb_lt _ _)) by (rewrite wrapU_id by (split; lia); unfold strlen; lia).
  assert (∀ j ps', (i ≤ j < String.length line)%nat → lex n (str_drop (S j) line) ps' = Some qs →
    token_loop fuel line (Z.of_nat j + 1) ps' = Ok qs) as A.
  { intros j ps' Hj Hl. replace (Z.of_nat j + 1) with (Z.of_nat (S j)) by lia. apply IH; [lia|lia|done]. }
  destruct (closing c) as [r|] eqn:Hc.
  - destruct (balanced c r 1 s) eqn:B; [|done]. destruct (close_pos c r 1 s) as [m|] eqn:C; [|done]. cbn [mbind option_bind] in H.
    rewrite (token_step_group _ _ _ _ _ _ Hc E B C). cbn [mbind outcome_bind].
    assert (m < String.length s)%nat.
    { clear -C. revert C. generalize 1%nat. revert m. induction s as [|d s IH]; intros m k; cbn; [done|].
      destruct (Ascii.eqb d c); [intros (x & ?%IH & ->)%fmap_Some; lia|].
      destruct (Ascii.eqb d r); [|intros (x & ?%IH & ->)%fmap_Some; lia].
      destruct k as [|[|k]]; [done|intros [= <-]; lia|intros (x & ?%IH & ->)%fmap_Some; lia]. }
    subst s. rewrite str_drop_length in *. apply A; [lia|]. rewrite str_drop_drop in H.
    by replace (S (S i + m)) with (S i + S m)%nat by lia.
  - rewrite (token_step_other _ _ _ _ Hc E). subst s. destruct (separator c || Ascii.eqb c "="); [by apply A|].
    destruct (Ascii.eqb c "*").
    + destruct (append_star ps); [|done]. cbn [mbind outcome_bind]. by apply A.
    + destruct (plain_token_ok _ _ _ ps E) as (j & -> & Hj & Dj). cbn [mbind outcome_bind]. apply A; [done|]. by rewrite Dj.
Qed.
End Agree.

Lemma tokenize_ok line ps : short line → lexer line = Some ps → tokenize line = Ok ps.
Proof. intros Hs H. apply (token_loop_lex line Hs (String.length line) _ 0); [lia|lia|done]. Qed.

(** C30: the code splits a line into parameters as the reference lexer does,
    whenever the groups of the line are closed and its positions fit an [int]:
    its two running delimiters find the same end of a group as counting the
    nesting depth, and its loop ends. *)
Theorem tokenize_agrees line ps (Hshort : short line) (Hlex : lexer line = Some ps) : tokenize line = Ok ps.
Proof. by apply tokenize_ok. Qed.

Lemma tokenize_agrees_witness :
  short " {i8, {i1, {i2}}, {i4}}* %a, [2 x [3 x i32]] %b" ∧
  tokenize " {i8, {i1, {i2}}, {i4}}* %a, [2 x [3 x i32]] %b"
  = Ok ["{i8, {i1, {i2}}, {i4}}*"; "%a"; "[2 x [3 x i32]]"; "%b"].
Proof. split; [by vm_compute|]. apply tokenize_agrees; by vm_compute. Defined.

(** Where the rest of the line is not balanced the two differ: the code takes a
    delimiter too far. *)
Example unbalanced_rest : tokenize " (i8 x) %a) %b" = Ok ["(i8 x) %a)"; "%b"] ∧ lexer " (i8 x) %a) %b" = None.
Proof. by vm_compute. Qed.
