(* ===== verification/CppFloat.v ===== *)
(** The C++ types [float] and [double] as the sources use them: bit patterns
    read through a pointer cast, the four operations, the conversions between
    the two types and with the integers, and the comparisons.  The arithmetic
    is IEEE 754 round to nearest even, taken from the Standard Library's
    [SpecFloat].  A result that is not a number is encoded as the canonical
    quiet NaN: the standard leaves its payload open. *)
From S2P Require Import Prelude.
From Stdlib Require Import Floats.SpecFloat.

#[global] Open Scope Z_scope.

(** A format: the width of the fraction and of the exponent field. *)
Record fp_format := mkFormat { fbits : Z; ebits : Z }.
Definition float_ : fp_format := mkFormat 23 8.
Definition double_ : fp_format := mkFormat 52 11.

Definition fprec (f : fp_format) : Z := fbits f + 1.
Definition femax (f : fp_format) : Z := 2 ^ (ebits f - 1).
Definition femin (f : fp_format) : Z := emin (fprec f) (femax f).

(** The value a bit pattern stands for. *)
Definition fp_decode (f : fp_format) (b : Z) : spec_float :=
  let s := Z.testbit b (fbits f + ebits f) in
  let m := b mod 2 ^ fbits f in
  let e := (b / 2 ^ fbits f) mod 2 ^ ebits f in
  if e =? 0 then
    match m with Zpos p => S754_finite s p (femin f) | _ => S754_zero s end
  else if e =? 2 ^ ebits f - 1 then
    (if m =? 0 then S754_infinity s else S754_nan)
  else
    match m + 2 ^ fbits f with
    | Zpos p => S754_finite s p (e - 1 + femin f)
    | _ => S754_nan
    end.

Definition sign_bit (f : fp_format) (s : bool) : Z :=
  if s then 2 ^ (fbits f + ebits f) else 0.

(** The bit pattern of a value. *)
Definition fp_encode (f : fp_format) (x : spec_float) : Z :=
  match x with
  | S754_zero s => sign_bit f s
  | S754_infinity s => sign_bit f s + (2 ^ ebits f - 1) * 2 ^ fbits f
  | S754_nan => (2 ^ ebits f - 1) * 2 ^ fbits f + 2 ^ (fbits f - 1)
  | S754_finite s m e =>
      if Zpos m <? 2 ^ fbits f then sign_bit f s + Zpos m
      else sign_bit f s + (e - femin f + 1) * 2 ^ fbits f + (Zpos m - 2 ^ fbits f)
  end.

(** Rounding a value to a format: [(float) d], [(double) f]. *)
Definition fp_round (f : fp_format) (x : spec_float) : spec_float :=
  match x with
  | S754_finite s m e =>
      binary_normalize (fprec f) (femax f) (cond_Zopp s (Zpos m)) e s
  | _ => x
  end.

(** [(float) i] and [(double) i]. *)
Definition fp_of_int (f : fp_format) (i : Z) : spec_float :=
  binary_normalize (fprec f) (femax f) i 0 false.

Definition fp_trunc (x : spec_float) : option Z :=
  match x with
  | S754_zero _ => Some 0
  | S754_finite s m e =>
      Some (cond_Zopp s (if 0 <=? e then Zpos m * 2 ^ e else Zpos m / 2 ^ (- e)))
  | _ => None
  end.

(** [(uint64_t) x]: truncation, undefined when the value does not fit. *)
Definition fp_to_u64 (x : spec_float) : outcome Z :=
  match fp_trunc x with
  | Some z => if (0 <=? z) && (z <? 2 ^ 64) then Ok z else Err Undefined
  | None => Err Undefined
  end.

Inductive fp_op := FpAdd | FpSub | FpMul | FpDiv.

Definition fp_apply (f : fp_format) (o : fp_op) (x y : spec_float) : spec_float :=
  match o with
  | FpAdd => SFadd (fprec f) (femax f) x y
  | FpSub => SFsub (fprec f) (femax f) x y
  | FpMul => SFmul (fprec f) (femax f) x y
  | FpDiv => SFdiv (fprec f) (femax f) x y
  end.

(** Truth value of a floating point number: false for the two zeros only. *)
Definition fp_nonzero (x : spec_float) : bool :=
  match x with S754_zero _ => false | _ => true end.
Definition fp_eq (x y : spec_float) : bool := SFeqb x y.
Definition fp_lt (x y : spec_float) : bool := SFltb x y.
Definition fp_le (x y : spec_float) : bool := SFleb x y.

(** ** The two directions agree *)

Lemma fp_fields f b :
  0 < fbits f → 0 < ebits f → inU (fbits f + ebits f + 1) b →
  b = sign_bit f (Z.testbit b (fbits f + ebits f))
      + (b / 2 ^ fbits f) mod 2 ^ ebits f * 2 ^ fbits f + b mod 2 ^ fbits f.
Proof.
  intros Hf He [Hb0 Hb]. set (F := fbits f) in *. set (E := ebits f) in *.
  pose proof (pow2_pos F ltac:(lia)). pose proof (pow2_pos E ltac:(lia)).
  assert (2 ^ (F + E + 1) = 2 * (2 ^ E * 2 ^ F)) as W
    by (rewrite !Z.pow_add_r by lia; lia).
  assert (2 ^ (F + E) = 2 ^ E * 2 ^ F) as W' by (rewrite Z.pow_add_r by lia; lia).
  pose proof (Z.div_mod b (2 ^ F) ltac:(lia)) as D1.
  pose proof (Z.div_mod (b / 2 ^ F) (2 ^ E) ltac:(lia)) as D2.
  assert (b / 2 ^ F / 2 ^ E = b / 2 ^ (F + E)) as Q
    by (rewrite Z.div_div by lia; f_equal; lia).
  assert (sign_bit f (Z.testbit b (F + E)) = b / 2 ^ (F + E) * 2 ^ (F + E)) as S.
  { unfold sign_bit. fold F E.
    assert (0 ≤ b / 2 ^ (F + E) < 2) by
      (split; [apply Z.div_pos; nia|apply Z.div_lt_upper_bound; nia]).
    pose proof (Z.testbit_spec' b (F + E) ltac:(lia)) as T.
    rewrite (Z.mod_small (b / 2 ^ (F + E))) in T by lia.
    destruct (Z.testbit b (F + E)); simpl in T; lia. }
  rewrite S. nia.
Qed.

Lemma fp_encode_decode f b :
  0 < fbits f → 0 < ebits f → inU (fbits f + ebits f + 1) b →
  fp_decode f b ≠ S754_nan → fp_encode f (fp_decode f b) = b.
Proof.
  intros Hf He Hb Hn. pose proof (fp_fields f b Hf He Hb) as Hd.
  pose proof (pow2_pos (fbits f) ltac:(lia)) as HF.
  pose proof (Z.mod_pos_bound b _ HF) as Hm.
  revert Hn. unfold fp_decode.
  destruct (Z.eqb_spec ((b / 2 ^ fbits f) mod 2 ^ ebits f) 0) as [E0|E0].
  - destruct (b mod 2 ^ fbits f) eqn:Em; [|..|lia]; simpl; [lia|].
    intros _. rewrite (proj2 (Z.ltb_lt _ _)) by lia. lia.
  - destruct (Z.eqb_spec ((b / 2 ^ fbits f) mod 2 ^ ebits f) (2 ^ ebits f - 1)) as [E1|E1].
    + destruct (Z.eqb_spec (b mod 2 ^ fbits f) 0); simpl; [lia|done].
    + destruct (b mod 2 ^ fbits f + 2 ^ fbits f) eqn:Em; [lia| |lia]. intros _.
      unfold fp_encode. rewrite (proj2 (Z.ltb_ge _ _)) by lia.
      replace (_ - 1 + femin f - femin f + 1) with ((b / 2 ^ fbits f) mod 2 ^ ebits f) by lia.
      lia.
Qed.

Example fp_ex :
  fp_encode float_ (fp_apply float_ FpAdd (fp_decode float_ 1065353216) (fp_decode float_ 1073741824))
  = 1077936128 ∧
  fp_encode double_ (fp_of_int double_ 3) = 4613937818241073152 ∧
  fp_to_u64 (fp_decode double_ 4613937818241073152) = Ok 3.
Proof. split_and!; vm_compute; reflexivity. Qed.
