(* ===== verification/CppNumber.v ===== *)
(** The conversions between text and numbers of the C and C++ libraries that
    the parser of the IR uses: [strtol] in any base, [stol], [std::to_string]
    of an [int] and of a [double], [std::stod], and the splitting of a line into
    words by [std::istream_iterator<std::string>]. *)
From stdpp Require Import strings.
From S2P Require Import Prelude CppString CppFloat.
From Stdlib Require Import Ascii String Floats.SpecFloat.

#[local] Open Scope Z_scope.

(** ** Integers *)

(** The value of a digit in a base up to 16. *)
Definition digit_in (base : Z) (c : ascii) : option Z :=
  let n := Z.of_nat (nat_of_ascii c) in
  let d := if (48 <=? n) && (n <=? 57) then n - 48
           else if (97 <=? n) && (n <=? 102) then n - 87
           else if (65 <=? n) && (n <=? 70) then n - 55
           else 99 in
  if d <? base then Some d else None.

(** A run of digits: its value, its length and what follows it. *)
Fixpoint digits_in (base acc : Z) (len : nat) (s : string) : Z * nat * string :=
  match s with
  | String c s' =>
      match digit_in base c with
      | Some d => digits_in base (base * acc + d) (S len) s'
      | None => (acc, len, s)
      end
  | EmptyString => (acc, len, s)
  end.

(** An optional sign; [true] for minus. *)
Definition take_sign (s : string) : bool * string :=
  match s with
  | String c s' =>
      if Ascii.eqb c "-" then (true, s') else if Ascii.eqb c "+" then (false, s') else (false, s)
  | EmptyString => (false, s)
  end.

(** [0x] or [0X] before a hexadecimal digit. *)
Definition hex_prefix (s : string) : option string :=
  match s with
  | String z (String x (String c s')) =>
      if Ascii.eqb z "0" && (Ascii.eqb x "x" || Ascii.eqb x "X")
      then match digit_in 16 c with Some _ => Some (String c s') | None => None end
      else None
  | _ => None
  end.

Definition clamp64 (n : Z) : Z := Z.max (- 2 ^ 63) (Z.min (2 ^ 63 - 1) n).

(** [strtol(s, &end, base)] for base 16 and for base 0, which takes the base
    from the prefix. *)
Definition strtol (s : string) (base : Z) : Z :=
  let (neg, s) := take_sign (skip_space s) in
  let (b, s) :=
    match hex_prefix s with
    | Some s' => if (base =? 16) || (base =? 0) then (16, s') else (base, s)
    | None =>
        if base =? 0 then
          match s with
          | String c _ => if Ascii.eqb c "0" then (8, s) else (10, s)
          | EmptyString => (10, s)
          end
        else (base, s)
    end in
  let '(n, _, _) := digits_in b 0 0 s in
  clamp64 (if neg then - n else n).

(** [std::stol]: throws when there is no digit and when [long] is too small. *)
Definition stol (s : string) : outcome Z :=
  let (n, b) := strtol10 s in
  if negb b then Err InvalidArgument
  else if (- 2 ^ 63 <=? n) && (n <? 2 ^ 63) then Ok n else Err OutOfRange.

(** ** Printing *)

Definition digit_char (d : Z) : ascii := ascii_of_nat (Z.to_nat (48 + d)).

(** The decimal digits of [n >= 0], most significant first, before [acc]; the
    number of binary digits bounds their number. *)
Fixpoint dec_loop (fuel : nat) (n : Z) (acc : string) : string :=
  match fuel with
  | O => acc
  | S fuel =>
      let acc := String (digit_char (n mod 10)) acc in
      if n <? 10 then acc else dec_loop fuel (n / 10) acc
  end.
Definition dec (n : Z) : string := dec_loop (S (Z.to_nat (Z.log2 n))) n "".

(** [std::to_string(int)]. *)
Definition to_string_int (n : Z) : string := if n <? 0 then String.append "-" (dec (- n)) else dec n.

(** Six digits, with leading zeros. *)
Fixpoint dec_pad (k : nat) (n : Z) (acc : string) : string :=
  match k with
  | O => acc
  | S k => dec_pad k (n / 10) (String (digit_char (n mod 10)) acc)
  end.

(** [n / d] to the nearest integer, ties to even. *)
Definition div_nearest (n d : Z) : Z :=
  let q := n / d in
  let r := n mod d in
  if 2 * r <? d then q else if d <? 2 * r then q + 1 else if Z.even q then q else q + 1.

(** [std::to_string(double)], which prints with [%f]: six digits after the
    point. *)
Definition to_string_double (x : spec_float) : string :=
  let body m := String.append (dec (m / 1000000)) (String "." (dec_pad 6 (m mod 1000000) "")) in
  let signed (s : bool) t := if s then String "-" t else t in
  match x with
  | S754_zero s => signed s "0.000000"
  | S754_infinity s => signed s "inf"
  | S754_nan => "nan"
  | S754_finite s m e =>
      signed s (body (if 0 <=? e then Zpos m * 2 ^ e * 1000000
                      else div_nearest (Zpos m * 1000000) (2 ^ (- e))))
  end.

(** ** [std::stod] *)

(** The exponent after [e] or [p], if there is one with a digit. *)
Definition take_exponent (marks : ascii → bool) (s : string) : Z :=
  match s with
  | String c s' =>
      if marks c then
        let (neg, t) := take_sign s' in
        let '(n, k, _) := digits_in 10 0 0 t in
        if (0 <? k)%nat then (if neg then - n else n) else 0
      else 0
  | EmptyString => 0
  end.

(** Digits with an optional point: the digits as an integer, how many follow
    the point, how many there are, and the rest. *)
Definition take_decimal (base : Z) (s : string) : Z * Z * nat * string :=
  let '(n, k, s1) := digits_in base 0 0 s in
  match s1 with
  | String c s2 =>
      if Ascii.eqb c "." then
        let '(n', k', s3) := digits_in base n k s2 in (n', Z.of_nat k' - Z.of_nat k, k', s3)
      else (n, 0, k, s1)
  | EmptyString => (n, 0, k, s1)
  end.

Definition lower (c : ascii) : ascii :=
  let n := Z.of_nat (nat_of_ascii c) in
  if (65 <=? n) && (n <=? 90) then ascii_of_nat (Z.to_nat (n + 32)) else c.
Fixpoint str_lower (s : string) : string :=
  match s with EmptyString => EmptyString | String c s => String (lower c) (str_lower s) end.

(** The number a text starts with: a rational [m * 2^e2 * 10^e10] with its
    sign, or one of the special values. *)
Inductive number :=
  | NumFinite (neg : bool) (m e2 e10 : Z)
  | NumInf (neg : bool)
  | NumNan.

Definition read_number (s : string) : option number :=
  let (neg, s) := take_sign (skip_space s) in
  match hex_prefix s with
  | Some h =>
      let '(m, f, _, rest) := take_decimal 16 h in
      Some (NumFinite neg m (take_exponent (fun c => Ascii.eqb (lower c) "p") rest - 4 * f) 0)
  | None =>
      let '(m, f, k, rest) := take_decimal 10 s in
      if (0 <? k)%nat then
        Some (NumFinite neg m 0 (take_exponent (fun c => Ascii.eqb (lower c) "e") rest - f))
      else if String.prefix "inf" (str_lower s) then Some (NumInf neg)
      else if String.prefix "nan" (str_lower s) then Some NumNan
      else None
  end.

(** The nearest [double] to [n / d], for positive [n] and [d]. *)
Definition round_ratio (s : bool) (n d : positive) : spec_float :=
  let '(q, e, l) := SFdiv_core_binary (fprec double_) (femax double_) (Zpos n) 0 (Zpos d) 0 in
  binary_round_aux (fprec double_) (femax double_) s q e l.

(** A result the standard reports as a range error: infinite, or below the
    smallest normal number and not exact. *)
Definition range_error (x : spec_float) (n d : positive) : bool :=
  match x with
  | S754_infinity _ => true
  | S754_zero _ => true
  | S754_finite _ m e =>
      (Zpos m <? 2 ^ fbits double_) &&
      negb (if 0 <=? e then Zpos m * 2 ^ e * Zpos d =? Zpos n else Zpos m * Zpos d =? Zpos n * 2 ^ (- e))
  | S754_nan => false
  end.

(** [std::stod], as the bit pattern of its result. *)
Definition stod (s : string) : outcome Z :=
  match read_number s with
  | None => Err InvalidArgument
  | Some (NumInf neg) => Ok (fp_encode double_ (S754_infinity neg))
  | Some NumNan => Ok (fp_encode double_ S754_nan)
  | Some (NumFinite neg m e2 e10) =>
      let n := m * 2 ^ Z.max e2 0 * 10 ^ Z.max e10 0 in
      let d := 2 ^ Z.max (- e2) 0 * 10 ^ Z.max (- e10) 0 in
      match n, d with
      | Zpos n, Zpos d =>
          let x := round_ratio neg n d in
          if range_error x n d then Err OutOfRange else Ok (fp_encode double_ x)
      | _, _ => Ok (fp_encode double_ (S754_zero neg))
      end
  end.

(** ** Words *)

(** The words of a text, separated by white space. *)
Fixpoint words_loop (s word : string) : list string :=
  match s with
  | EmptyString => if String.eqb word "" then [] else [word]
  | String c s =>
      if is_space c then (if String.eqb word "" then words_loop s "" else word :: words_loop s "")
      else words_loop s (String.append word (String c ""))
  end.
Definition words (s : string) : list string := words_loop s "".

(** ** Examples *)

Example number_ex :
  strtol "0x1F" 0 = 31 ∧ strtol "017" 0 = 15 ∧ strtol "-2a" 16 = -42 ∧ strtol "0xFFFFFFFFFFFFFFFFF" 16 = 2 ^ 63 - 1 ∧
  to_string_int (-120) = "-120"%string ∧
  stod "1.5" = Ok 4609434218613702656 ∧ stod "-0x1.8p1" = Ok (2 ^ 63 + 4613937818241073152) ∧
  stod "1e999" = Err OutOfRange ∧ stod "x" = Err InvalidArgument ∧ stod ".1" = Ok 4591870180066957722 ∧
  to_string_double (fp_decode double_ 4591870180066957722) = "0.100000"%string ∧
  to_string_double (fp_decode double_ 4609434218613702656) = "1.500000"%string ∧
  words " (i64 123 to i32*) " = ["(i64"; "123"; "to"; "i32*)"]%string.
Proof. by vm_compute. Qed.
