(* ===== verification/Macros.v ===== *)
(** The constants of [hwacc/LLVMRead/src/macros.hh]: the functional unit
    numbers and the bits of the attribute and instruction flag words. *)
From S2P Require Import Prelude.

#[global] Open Scope Z_scope.

(** ** Hardware units *)

Definition COUNTER : Z := 0.
Definition INTADDER : Z := 1.
Definition INTMULTI : Z := 2.
Definition INTSHIFTER : Z := 3.
Definition INTBITWISE : Z := 4.
Definition FPSPADDER : Z := 5.
Definition FPDPADDER : Z := 6.
Definition FPSPMULTI : Z := 7.
Definition FPSPDIVID : Z := 8.
Definition FPDPMULTI : Z := 9.
Definition FPDPDIVID : Z := 10.
Definition COMPARE : Z := 11.
Definition GETELEMENTPTR : Z := 12.
Definition CONVERSION : Z := 13.
Definition REGISTER : Z := 14.
Definition OTHER : Z := 15.

(** ** Attribute flags *)

Definition ZEROEXT : Z := 0x1.
Definition SIGNEXT : Z := 0x2.
Definition INREG : Z := 0x4.
Definition BYVAL : Z := 0x8.
Definition SRET : Z := 0x10.
Definition NOALIAS : Z := 0x20.
Definition NOCAPTURE : Z := 0x40.
Definition NEST : Z := 0x80.
Definition RETURNED : Z := 0x100.
Definition ALIGNSTACK : Z := 0x200.
Definition ALWAYSINLINE : Z := 0x400.
Definition BUILTIN : Z := 0x800.
Definition COLD : Z := 0x1000.
Definition INLINEINT : Z := 0x2000.
Definition MINSIZE : Z := 0x4000.
Definition NAKED : Z := 0x8000.
Definition NOBUILTIN : Z := 0x10000.
Definition NODUPLICATE : Z := 0x20000.
Definition NOIMPLICITFLOAT : Z := 0x40000.
Definition NOINLINE : Z := 0x80000.
Definition NONLAZYBIND : Z := 0x100000.
Definition NOREDZONE : Z := 0x200000.
Definition NORETURN : Z := 0x400000.
Definition NOUNWIND : Z := 0x800000.
Definition OPTNONE : Z := 0x1000000.
Definition OPTSIZE : Z := 0x2000000.
Definition READNONE : Z := 0x4000000.
Definition READONLY : Z := 0x8000000.
Definition RETURNS_TWICE : Z := 0x10000000.
Definition SANITIZE_MEMORY : Z := 0x20000000.
Definition SANITIZE_ADDRESS : Z := 0x40000000.
Definition SANITIZE_THREAD : Z := 0x80000000.
Definition SSP : Z := 0x100000000.
Definition SSPREQ : Z := 0x200000000.
Definition SSPSTRONG : Z := 0x400000000.
Definition UWTABLE : Z := 0x800000000.
Definition CCC : Z := 0x1000000000.
Definition FASTCC : Z := 0x2000000000.
Definition COLDCC : Z := 0x4000000000.
Definition CC10 : Z := 0x8000000000.
Definition CC11 : Z := 0x10000000000.
Definition VOLATILE : Z := 0x20000000000.
Definition INBOUNDS : Z := 0x40000000000.

(** ** Instruction flags *)

Definition NNAN : Z := 0x1.
Definition NINF : Z := 0x2.
Definition NSZ : Z := 0x4.
Definition ARCP : Z := 0x8.
Definition CONTRACT : Z := 0x10.
Definition AFN : Z := 0x20.
Definition REASSOC : Z := 0x40.
Definition FAST : Z := 0x80.
Definition NSW : Z := 0x100.
Definition NUW : Z := 0x200.
Definition EXACT : Z := 0x400.
Definition EQ : Z := 0x800.
Definition NE : Z := 0x1000.
Definition UGT : Z := 0x2000.
Definition UGE : Z := 0x4000.
Definition ULT : Z := 0x8000.
Definition ULE : Z := 0x10000.
Definition SGT : Z := 0x20000.
Definition SGE : Z := 0x40000.
Definition SLT : Z := 0x80000.
Definition SLE : Z := 0x100000.
Definition CONDFALSE : Z := 0x200000.
Definition CONDTRUE : Z := 0x400000.
Definition OEQ : Z := 0x800000.
Definition OGT : Z := 0x1000000.
Definition OGE : Z := 0x2000000.
Definition OLT : Z := 0x4000000.
Definition OLE : Z := 0x8000000.
Definition ONE : Z := 0x10000000.
Definition ORD : Z := 0x20000000.
Definition UEQ : Z := 0x40000000.
Definition UNE : Z := 0x80000000.
Definition UNO : Z := 0x100000000.

(** [Flags & F], as a condition. *)
Definition has_flag (flags f : Z) : bool := negb (Z.land flags f =? 0).

(** The comparison predicates of [icmp] and [fcmp]; each is one bit, and no
    two share it. *)
Definition compare_flags : list Z :=
  [EQ; NE; UGT; UGE; ULT; ULE; SGT; SGE; SLT; SLE; CONDFALSE; CONDTRUE;
   OEQ; OGT; OGE; OLT; OLE; ONE; ORD; UEQ; UNE; UNO].

Lemma compare_flags_disjoint i j f g :
  compare_flags !! i = Some f → compare_flags !! j = Some g → i ≠ j → Z.land f g = 0.
Proof.
  assert (∀ i j, (i < 22)%nat → (j < 22)%nat → i ≠ j →
    Z.land (nth i compare_flags 0) (nth j compare_flags 0) = 0) as A.
  { intros i' j' Hi Hj. 
    do 22 (destruct i' as [|i']; [do 22 (destruct j' as [|j']; [done || reflexivity|]); lia|]). lia. }
  intros Hi Hj Hij.
  pose proof (lookup_lt_Some _ _ _ Hi) as Li. pose proof (lookup_lt_Some _ _ _ Hj) as Lj.
  rewrite <-(nth_lookup_Some _ _ 0 _ Hi), <-(nth_lookup_Some _ _ 0 _ Hj).
  by apply A.
Qed.
