(* ===== verification/Registers.v ===== *)
(** Model of [hwacc/LLVMRead/src/registers.{hh,cc}] and of [llvm_types.{hh,cc}]:
    the virtual registers of the simulated accelerator, the register list that
    owns them and the table of user-defined types.  A [Register*] is an index
    into the list, which only ever grows. *)
From stdpp Require Import strings.
From S2P Require Import Prelude CppString.
From Stdlib Require Import Ascii String.

#[global] Open Scope Z_scope.

(** ** macros.hh: sizes in bytes *)

Definition SYSTEMSIZE : Z := 64.
Definition BYTE : Z := 8.
Definition VOIDSIZE : Z := 0.
Definition BYTESIZE (x : Z) : Z := Z.quot (x - 1) 8 + 1.
Definition DEFAULTSIZE : Z := SYSTEMSIZE / BYTE.
Definition POINTERSIZE : Z := SYSTEMSIZE / BYTE.
Definition LABELSIZE : Z := SYSTEMSIZE / BYTE.
Definition DOUBLESIZE : Z := SYSTEMSIZE / BYTE.
Definition FLOATSIZE : Z := SYSTEMSIZE / (2 * BYTE).

(** ** Register *)

Record Register := mkRegister {
  _Name : string;
  _Data_Type : string;
  _Value : Z;
  _Size : Z;
  _Hot : bool;
  reg_Global : bool;
  updated_this_cycle : bool;
  reads : Z;
  writes : Z;
}.

Definition Register_new (name : string) (value : Z) : Register :=
  {| _Name := name; _Data_Type := "NA"; _Value := value; _Size := 8; _Hot := false;
     reg_Global := false; updated_this_cycle := false; reads := 0; writes := 0 |}.

Definition reg_commit (r : Register) : Register :=
  mkRegister (_Name r) (_Data_Type r) (_Value r) (_Size r) false (reg_Global r)
    (updated_this_cycle r) (reads r) (writes r).
Definition reg_reset (r : Register) : Register :=
  mkRegister (_Name r) (_Data_Type r) (_Value r) (_Size r) true (reg_Global r)
    (updated_this_cycle r) (reads r) (writes r).
Definition reg_update (r : Register) : Register :=
  mkRegister (_Name r) (_Data_Type r) (_Value r) (_Size r) (_Hot r) (reg_Global r)
    (negb (updated_this_cycle r)) (reads r) (writes r).
Definition reg_setGlobal (r : Register) : Register :=
  mkRegister (_Name r) (_Data_Type r) (_Value r) (_Size r) (_Hot r) true
    (updated_this_cycle r) (reads r) (writes r).
Definition reg_write (r : Register) : Register :=
  mkRegister (_Name r) (_Data_Type r) (_Value r) (_Size r) (_Hot r) (reg_Global r)
    (updated_this_cycle r) (reads r) (u64 (writes r + 1)).
Definition reg_read (r : Register) : Register :=
  mkRegister (_Name r) (_Data_Type r) (_Value r) (_Size r) (_Hot r) (reg_Global r)
    (updated_this_cycle r) (u64 (reads r + 1)) (writes r).

(** The size a type name stands for. *)
Definition type_size (t : string) : outcome Z :=
  if String.eqb t "pointer" then Ok POINTERSIZE else
  let* b := str_back t in
  if Ascii.eqb b "*" then Ok POINTERSIZE else
  let* f := str_front t in
  if Ascii.eqb f "i" then
    let* d := str_substr_from t 1 in
    let* n := stoi d in
    Ok (u64 (BYTESIZE n))
  else if String.eqb t "float" then Ok FLOATSIZE
  else if String.eqb t "double" then Ok DOUBLESIZE
  else if String.eqb t "void" then Ok VOIDSIZE
  else if String.eqb t "label" then Ok LABELSIZE
  else Ok DEFAULTSIZE.

Definition setSize (r : Register) (t : string) : outcome Register :=
  let* n := type_size t in
  Ok (mkRegister (_Name r) t (_Value r) n (_Hot r) (reg_Global r)
        (updated_this_cycle r) (reads r) (writes r)).

(** [memcpy(&_Value, Data, _Size)] from a 64-bit object holding [v]. *)
Definition setValue (r : Register) (v : Z) : outcome Register :=
  if 8 <? _Size r then Err Undefined
  else Ok (mkRegister (_Name r) (_Data_Type r) (memcpy_int (_Size r) (_Value r) v) (_Size r)
             (_Hot r) (reg_Global r) (updated_this_cycle r) (reads r) (writes r)).

(** ** RegisterList *)

Record RegisterList := mkRegisterList {
  _RegList : list Register;
  maxCount : Z;
  averageUsage : Z;
  averageSize : Z;
}.

Definition RegisterList_new : RegisterList := mkRegisterList [] 0 0 0.

(** [_RegList->push_back(Reg)]; the new register's pointer is its index. *)
Definition addRegister (rl : RegisterList) (r : Register) : RegisterList :=
  mkRegisterList (_RegList rl ++ [r]) (maxCount rl) (averageUsage rl) (averageSize rl).

Fixpoint findRegister_from (i : nat) (l : list Register) (name : string) : option nat :=
  match l with
  | [] => None
  | r :: l => if String.eqb (_Name r) name then Some i else findRegister_from (S i) l name
  end.
Definition findRegister (rl : RegisterList) (name : string) : option nat :=
  findRegister_from 0 (_RegList rl) name.

Definition clear_access (r : Register) : Register :=
  mkRegister (_Name r) (_Data_Type r) (_Value r) (_Size r) (_Hot r) (reg_Global r)
    false (reads r) (writes r).

(** The number of registers accessed this cycle and their bytes. *)
Fixpoint access_totals (l : list Register) (count size : Z) : Z * Z :=
  match l with
  | [] => (count, size)
  | r :: l =>
      if updated_this_cycle r then access_totals l (s32 (count + 1)) (s32 (size + _Size r))
      else access_totals l count size
  end.

(** [averageSize] is a [double] in the source; it only accumulates integers,
    exactly below 2^53, and is kept as an integer here. *)
Definition resetAccess (rl : RegisterList) : RegisterList :=
  let (count, sz) := access_totals (_RegList rl) 0 0 in
  mkRegisterList (clear_access <$> _RegList rl)
    (if maxCount rl <? count then count else maxCount rl)
    (s32 (averageUsage rl + count)) (averageSize rl + sz).

Fixpoint totalAccess (l : list Register) (usage : Z * Z) : Z * Z :=
  match l with
  | [] => usage
  | r :: l => totalAccess l (u64 (usage.1 + reads r), u64 (usage.2 + writes r))
  end.

(** Dereferencing a [Register*]. *)
Definition reg_at (rl : RegisterList) (p : nat) : outcome Register := vec_get (_RegList rl) p.
Definition reg_set (rl : RegisterList) (p : nat) (r : Register) : RegisterList :=
  mkRegisterList (<[p := r]> (_RegList rl)) (maxCount rl) (averageUsage rl) (averageSize rl).

(** ** User-defined types *)

Record LLVMType := mkLLVMType { type_elems : Z; type_name : string }.

Definition TypeList := list LLVMType.
Definition addType (tl : TypeList) (t : LLVMType) : TypeList := tl ++ [t].
Fixpoint findType (tl : TypeList) (name : string) : option LLVMType :=
  match tl with
  | [] => None
  | t :: tl => if String.eqb (type_name t) name then Some t else findType tl name
  end.

Example sizes :
  type_size "i1" = Ok 1 ∧ type_size "i32" = Ok 4 ∧ type_size "i64" = Ok 8 ∧
  type_size "float" = Ok 4 ∧ type_size "i8*" = Ok 8 ∧ type_size "void" = Ok 0.
Proof. split_and!; reflexivity. Qed.
