(* ===== verification/MemRequest.v ===== *)
(** Model of [hwacc/LLVMRead/src/mem_request.{hh,cc}]: the record that follows
    one load or store of the accelerator through the communication interface. *)
From S2P Require Import Prelude.

(** The master ports a request can travel through: a port vector of the
    interface and the index in it. *)
Inductive PortKind := PLocal | PGlobal | PStream | PSPM.
#[export] Instance PortKind_eq_dec : EqDecision PortKind.
Proof. solve_decision. Defined.
Definition PortId : Type := PortKind * nat.

Record MemoryRequest := mkMemoryRequest {
  address : Z;
  mr_length : Z;
  needToRead : bool;
  needToWrite : bool;
  currentReadAddr : Z;
  currentWriteAddr : Z;
  beginAddr : Z;
  writeLeft : Z;
  writeDone : Z;
  readLeft : Z;
  readDone : Z;
  totalLength : Z;
  buffer : list Z;
  readsDone : list bool;
  mr_pkt : option nat;
  mr_port : option PortId;
}.

(** [MemoryRequest(Addr add, size_t len)].  [old] is what the allocated memory
    held: the members the constructor does not set keep it.  The code also
    calls [memset(buffer, 0, sizeof(length))]; on the buffer itself the loop
    that follows subsumes it. *)
Definition MemoryRequest_read (old : MemoryRequest) (add len : Z) : MemoryRequest :=
  {| address := add;
     mr_length := len;
     needToRead := true;
     needToWrite := needToWrite old;
     currentReadAddr := add;
     currentWriteAddr := currentWriteAddr old;
     beginAddr := add;
     writeLeft := 0;
     writeDone := writeDone old;
     readLeft := len;
     readDone := 0;
     totalLength := len;
     buffer := replicate (Z.to_nat len) 0;
     readsDone := replicate (Z.to_nat len) false;
     mr_pkt := None;
     mr_port := mr_port old |}.

(** [MemoryRequest(Addr add, uint8_t *data, size_t len)], with [data] the
    bytes the pointer addresses; the loop reads [len] of them. *)
Definition MemoryRequest_write (old : MemoryRequest) (add : Z) (data : list Z) (len : Z)
    : outcome MemoryRequest :=
  let* bytes := mem_read data 0 len in
  Ok {| address := add;
        mr_length := len;
        needToRead := needToRead old;
        needToWrite := true;
        currentReadAddr := currentReadAddr old;
        currentWriteAddr := add;
        beginAddr := beginAddr old;
        writeLeft := len;
        writeDone := 0;
        readLeft := 0;
        readDone := len;
        totalLength := len;
        buffer := bytes;
        readsDone := replicate (Z.to_nat len) true;
        mr_pkt := None;
        mr_port := mr_port old |}.
