(* ===== verification/Bitfield.v ===== *)
(** Model of the functions of [base/bitfield.hh] on 64-bit values: fields of
    bits, the positions of the lowest and the highest set bit, counting bits,
    powers of two. *)
From S2P Require Import Prelude.

#[local] Open Scope Z_scope.

(** [ULL(1) << n], undefined when [n] is not a bit position. *)
Definition ULL_shl (n : Z) : outcome Z :=
  if (0 <=? n) && (n <? 64) then Ok (Z.shiftl 1 n) else Err Undefined.

(** [mask(nbits)]. *)
Definition mask (nbits : Z) : outcome Z :=
  if nbits =? 64 then Ok (u64 (-1)) else let* m := ULL_shl nbits in Ok (u64 (m - 1)).

(** [bits(val, first, last)] of a value of [w] bits, which is shifted as an [int]
    when it is shorter than one, and of one bit. *)
Definition bits (w val first last : Z) : outcome Z :=
  let* _ := (if (0 <=? last) && (last <? Z.max 32 w) then Ok tt else Err Undefined) in
  let* m := mask (first - last + 1) in
  Ok (wrapU w (Z.land (Z.shiftr val last) m)).
Definition bit (w val b : Z) : outcome Z := bits w val b b.

(** [mbits(val, first, last)]. *)
Definition mbits (val first last : Z) : outcome Z :=
  let* m1 := mask (first + 1) in
  let* m2 := mask last in
  Ok (Z.land val (Z.land m1 (u64 (Z.lnot m2)))).

(** [sext<N>(val)]. *)
Definition sext (N val : Z) : outcome Z :=
  let* sign_bit := bits 64 val (N - 1) (N - 1) in
  let* m := mask N in
  Ok (if sign_bit =? 0 then val else Z.lor val (u64 (Z.lnot m))).

(** [insertBits(val, first, last, bit_val)], and for one bit. *)
Definition insertBits (val first last bit_val : Z) : outcome Z :=
  let t_bit_val := u64 bit_val in
  let* m := mask (first - last + 1) in
  let* _ := ULL_shl last in
  let bmask := u64 (Z.shiftl m last) in
  Ok (Z.lor (Z.land (u64 (Z.shiftl t_bit_val last)) bmask) (Z.land val (u64 (Z.lnot bmask)))).
Definition insertBit (val b bit_val : Z) : outcome Z := insertBits val b b bit_val.

(** [if (bits(val, first, last)) { n += k; val >>= k; }], and with the test
    negated. *)
Definition msb_step (first last k : Z) (s : Z * Z) : outcome (Z * Z) :=
  let '(val, n) := s in
  let* b := bits 64 val first last in
  Ok (if b =? 0 then (val, n) else (Z.shiftr val k, n + k)).
Definition lsb_step (first k : Z) (s : Z * Z) : outcome (Z * Z) :=
  let '(val, n) := s in
  let* b := bits 64 val first 0 in
  Ok (if b =? 0 then (Z.shiftr val k, n + k) else (val, n)).

Definition findMsbSet (val : Z) : outcome Z :=
  if val =? 0 then Ok 0 else
  let* s := msb_step 63 32 32 (val, 0) in
  let* s := msb_step 31 16 16 s in
  let* s := msb_step 15 8 8 s in
  let* s := msb_step 7 4 4 s in
  let* s := msb_step 3 2 2 s in
  let '(val, msb) := s in
  let* b := bits 64 val 1 1 in
  Ok (if b =? 0 then msb else msb + 1).

Definition findLsbSet (val : Z) : outcome Z :=
  if val =? 0 then Ok 64 else
  let* s := lsb_step 31 32 (val, 0) in
  let* s := lsb_step 15 16 s in
  let* s := lsb_step 7 8 s in
  let* s := lsb_step 3 4 s in
  let* s := lsb_step 1 2 s in
  let '(val, lsb) := s in
  let* b := bits 64 val 0 0 in
  Ok (if b =? 0 then lsb + 1 else lsb).

(** [isPow2(v)] of a [uint64_t]. *)
Definition isPow2 (v : Z) : bool := Z.land v (u64 (v - 1)) =? 0.

(** [popCount(val)]: the builtin counts the set bits; [popCount_portable] is the
    algorithm used without it. *)
Definition popCount (val : Z) : Z :=
  foldr (fun i s => Z.b2z (Z.testbit val i) + s) 0 (seqZ 0 64).
Definition popCount_portable (val : Z) : Z :=
  let m1 := 0x5555555555555555 in
  let m2 := 0x3333333333333333 in
  let m4 := 0x0f0f0f0f0f0f0f0f in
  let sum := 0x0101010101010101 in
  let val := u64 (val - Z.land (Z.shiftr val 1) m1) in
  let val := u64 (Z.land val m2 + Z.land (Z.shiftr val 2) m2) in
  let val := Z.land (u64 (val + Z.shiftr val 4)) m4 in
  Z.shiftr (u64 (val * sum)) 56.

Definition alignToPowerOfTwo (val : Z) : Z :=
  let val := u64 (val - 1) in
  let val := Z.lor val (Z.shiftr val 1) in
  let val := Z.lor val (Z.shiftr val 2) in
  let val := Z.lor val (Z.shiftr val 4) in
  let val := Z.lor val (Z.shiftr val 8) in
  let val := Z.lor val (Z.shiftr val 16) in
  let val := Z.lor val (Z.shiftr val 32) in
  u64 (val + 1).

(** [__builtin_ctzll(value)], the position of the lowest set bit, or the width. *)
Definition ctz (w value : Z) : Z :=
  default w (head (filter (fun i => Z.testbit value i = true) (seqZ 0 w))).
Definition ctz32 (value : Z) : Z := ctz 32 value.
Definition ctz64 (value : Z) : Z := ctz 64 value.

(** ** Bits of the results *)

Lemma inU_testbit_high w z n : inU w z → w ≤ n → Z.testbit z n = false.
Proof.
  intros [] ?. destruct (decide (z = 0)) as [->|]; [apply Z.bits_0|].
  apply Z.bits_above_log2; [lia|]. apply Z.log2_lt_pow2; [lia|]. pose proof (Z.pow_le_mono_r 2 w n); lia.
Qed.

Lemma testbit_wrapU w z n : 0 ≤ w → 0 ≤ n → Z.testbit (wrapU w z) n = (n <? w) && Z.testbit z n.
Proof.
  intros. unfold wrapU. case_zbool; [by rewrite Z.mod_pow2_bits_low by lia|by rewrite Z.mod_pow2_bits_high by lia].
Qed.

Lemma inU_bits w z : 0 ≤ w → 0 ≤ z → (∀ n, w ≤ n → Z.testbit z n = false) → inU w z.
Proof.
  intros ? ? H. split; [done|]. destruct (decide (z = 0)) as [->|]; [apply pow2_pos; lia|].
  apply Z.log2_lt_pow2; [lia|]. destruct (decide (Z.log2 z < w)) as [|]; [done|].
  specialize (H (Z.log2 z)). rewrite Z.bit_log2 in H by lia. naive_solver lia.
Qed.

Lemma mask_is_ones n : 0 ≤ n ≤ 64 → mask n = Ok (Z.ones n).
Proof.
  intros ?. unfold mask. case_zbool; [by subst|]. unfold ULL_shl.
  replace (0 <=? n) with true by lia. replace (n <? 64) with true by lia. cbn.
  rewrite Z.ones_equiv, Z.shiftl_1_l. f_equal. rewrite wrapU_id; [lia|].
  pose proof (pow2_pos n). pose proof (Z.pow_lt_mono_r 2 n 64). split; lia.
Qed.

(** [insertBits] takes the field from [bit_val] and the rest from [val]. *)
Lemma insertBits_spec val first last bv :
  inU 64 val → 0 ≤ last < 64 → last - 1 ≤ first < 64 →
  ∃ x, insertBits val first last bv = Ok x ∧ inU 64 x ∧
    ∀ n, 0 ≤ n → Z.testbit x n = if (last <=? n) && (n <=? first) then Z.testbit bv (n - last) else Z.testbit val n.
Proof.
  intros Hv ? ?. unfold insertBits. rewrite mask_is_ones by lia. unfold ULL_shl.
  replace (0 <=? last) with true by lia. replace (last <? 64) with true by lia. cbn [andb].
  eexists. split; [reflexivity|].
  set (x := Z.lor _ _). assert (Hb : ∀ n, 0 ≤ n →
    Z.testbit x n = if (last <=? n) && (n <=? first) then Z.testbit bv (n - last) else Z.testbit val n).
  { intros n ?. subst x. rewrite Z.lor_spec, !Z.land_spec, !testbit_wrapU, Z.lnot_spec by lia.
    rewrite !testbit_wrapU, !Z.shiftl_spec, Z.testbit_ones by lia. rewrite ?testbit_wrapU by lia.
    destruct (n <? 64) eqn:?; zbool;
      [|rewrite (inU_testbit_high 64 val n) by (done || lia); replace (n <=? first) with false by lia; by rewrite !andb_false_r].
    destruct (last <=? n) eqn:?; zbool.
    - rewrite (testbit_wrapU 64 bv) by lia. replace (0 <=? n - last) with true by lia.
      replace (n - last <? 64) with true by lia. destruct (n <=? first) eqn:?; zbool.
      + replace (n - last <? first - last + 1) with true by lia. cbn. rewrite !andb_false_r, andb_true_r. by rewrite orb_false_r.
      + replace (n - last <? first - last + 1) with false by lia. cbn. by rewrite andb_false_r, andb_true_r.
    - replace (0 <=? n - last) with false by lia. cbn. by rewrite andb_false_r, andb_true_r. }
  split; [|done]. apply inU_bits; [lia| |].
  - subst x. apply Z.lor_nonneg. split; apply Z.land_nonneg; destruct Hv; auto.
    left. apply wrapU_range. lia.
  - intros n ?. rewrite Hb by lia. replace (n <=? first) with false by lia. rewrite andb_false_r. by apply (inU_testbit_high 64).
Qed.

(** ** The lowest set bit *)

Lemma ctz64_spec z :
  inU 64 z → z ≠ 0 →
  0 ≤ ctz64 z < 64 ∧ Z.testbit z (ctz64 z) = true ∧ ∀ j, j < ctz64 z → Z.testbit z j = false.
Proof.
  intros Hz Hn. unfold ctz64, ctz.
  assert (G : ∀ n i, (∀ j, j < i → Z.testbit z j = false) → (∃ j, i ≤ j < i + Z.of_nat n ∧ Z.testbit z j = true) → 0 ≤ i →
    let c := default 64 (head (filter (fun i => Z.testbit z i = true) (seqZ i (Z.of_nat n)))) in
    i ≤ c < i + Z.of_nat n ∧ Z.testbit z c = true ∧ ∀ j, j < c → Z.testbit z j = false).
  { induction n as [|n IH]; intros i Hlow (j & ? & Hj) ?; [lia|].
    rewrite seqZ_cons by lia. replace (Z.pred (Z.of_nat (S n))) with (Z.of_nat n) by lia.
    rewrite filter_cons. destruct (decide (Z.testbit z i = true)) as [E|E]; [cbn; split_and!; auto; lia|].
    assert (j ≠ i) by congruence. destruct (IH (Z.succ i)) as (? & ? & ?).
    - intros j' ?. destruct (decide (j' = i)) as [->|]; [by apply not_true_is_false|apply Hlow; lia].
    - exists j. split; [lia|done].
    - lia.
    - split_and!; auto; lia. }
  apply (G 64%nat 0); [intros; apply Z.testbit_neg_r; lia| |lia].
  destruct Hz. exists (Z.log2 z). split; [|apply Z.bit_log2; lia]. split; [apply Z.log2_nonneg|].
  apply Z.log2_lt_pow2; lia.
Qed.

(** ** Parity *)

Definition parity (z : Z) : bool := foldr (fun i s => xorb (Z.testbit z i) s) false (seqZ 0 64).

Lemma popCount_parity z : popCount z mod 2 = Z.b2z (parity z).
Proof.
  unfold popCount, parity. induction (seqZ 0 64) as [|i l IH]; [done|]. cbn [foldr].
  rewrite <- Zplus_mod_idemp_r, IH. destruct (Z.testbit z i), (foldr (fun i s => xorb (Z.testbit z i) s) false l); reflexivity.
Qed.

Lemma parity_ext a b : (∀ i, 0 ≤ i < 64 → Z.testbit a i = Z.testbit b i) → parity a = parity b.
Proof.
  intros H. unfold parity. assert (F : Forall (fun i => Z.testbit a i = Z.testbit b i) (seqZ 0 64)).
  { apply Forall_forall. intros i Hi. apply elem_of_seqZ in Hi. apply H. lia. }
  induction F as [|i l E _ IH]; cbn; [done|]. by rewrite E, IH.
Qed.

(** Changing one bit changes the parity. *)
Lemma parity_flip a b h :
  0 ≤ h < 64 → Z.testbit a h ≠ Z.testbit b h →
  (∀ i, 0 ≤ i < 64 → i ≠ h → Z.testbit a i = Z.testbit b i) → parity a = negb (parity b).
Proof.
  intros Hh Hd He. unfold parity.
  assert (Hin : h ∈ seqZ 0 64) by (apply elem_of_seqZ; lia).
  assert (Hs : ∀ i, i ∈ seqZ 0 64 → i ≠ h → Z.testbit a i = Z.testbit b i).
  { intros i Hi. apply elem_of_seqZ in Hi. apply He. lia. }
  pose proof (NoDup_seqZ 0 64) as Hnd. induction (seqZ 0 64) as [|i l IH]; [set_solver|].
  apply NoDup_cons in Hnd as [Hni Hnd]. cbn. destruct (decide (i = h)) as [->|].
  - assert (E : foldr (fun i s => xorb (Z.testbit a i) s) false l = foldr (fun i s => xorb (Z.testbit b i) s) false l).
    { assert (F : Forall (fun i => Z.testbit a i = Z.testbit b i) l).
      { apply Forall_forall. intros i Hi. apply Hs; [by right|congruence]. }
      clear -F. induction F as [|? ? E _ IH]; cbn; [done|]. by rewrite E, IH. }
    rewrite E. generalize (foldr (fun i s => xorb (Z.testbit b i) s) false l). revert Hd.
    destruct (Z.testbit a h), (Z.testbit b h); intros ? []; done.
  - rewrite (Hs i) by (done || by left). rewrite IH; [|set_solver..|done].
    generalize (foldr (fun i s => xorb (Z.testbit b i) s) false l). by destruct (Z.testbit b i); intros [].
Qed.
