(* ===== verification/BitfieldSpec.v ===== *)
(** The bit tricks of [base/bitfield.hh] against their reference definitions:
    the searches for the highest and the lowest set bit, the test and the
    alignment for powers of two, and the count of set bits without a builtin. *)
From S2P Require Import Prelude Bitfield.

#[local] Open Scope Z_scope.

(** ** The highest set bit *)

Lemma bits_field val first last :
  inU 64 val → 0 ≤ last ≤ first → first < 64 → bits 64 val first last = Ok (Z.shiftr val last mod 2 ^ (first - last + 1)).
Proof.
  intros [] ? ?. unfold bits. replace (0 <=? last) with true by lia. replace (last <? Z.max 32 64) with true by lia.
  rewrite mask_is_ones by lia. cbn. rewrite Z.land_ones by lia. f_equal. apply wrapU_id.
  pose proof (Z.mod_pos_bound (Z.shiftr val last) (2 ^ (first - last + 1)) (pow2_pos (first - last + 1) ltac:(lia))).
  pose proof (Z.pow_le_mono_r 2 (first - last + 1) 64). split; lia.
Qed.

Lemma msb_step_log2 k v n :
  0 < k ≤ 32 → 0 < v < 2 ^ (2 * k) →
  ∃ v' n', msb_step (2 * k - 1) k k (v, n) = Ok (v', n') ∧ 0 < v' < 2 ^ k ∧ n' + Z.log2 v' = n + Z.log2 v.
Proof.
  intros ? [? Hv]. unfold msb_step. pose proof (Z.pow_le_mono_r 2 (2 * k) 64). pose proof (pow2_pos k).
  assert (E : 2 ^ (2 * k) = 2 ^ k * 2 ^ k) by (rewrite <- Z.pow_add_r by lia; f_equal; lia).
  rewrite bits_field by (lia || split; lia). replace (2 * k - 1 - k + 1) with k by lia. rewrite Z.shiftr_div_pow2 by lia.
  assert (0 ≤ v / 2 ^ k < 2 ^ k) by (split; [apply Z.div_pos; lia|apply Z.div_lt_upper_bound; lia]).
  rewrite Z.mod_small by lia. cbn [mbind outcome_bind]. destruct (v / 2 ^ k =? 0) eqn:E0; zbool.
  - exists v, n. split_and!; [done|done| |done]. apply Z.div_small_iff in E0; lia.
  - exists (v / 2 ^ k), (n + k). split_and!; [done|lia|lia|].
    rewrite <- Z.shiftr_div_pow2, Z.log2_shiftr by lia. assert (2 ^ k ≤ v).
    { destruct (decide (2 ^ k ≤ v)); [done|]. by rewrite Z.div_small in E0 by lia. }
    pose proof (Z.log2_le_mono (2 ^ k) v). rewrite Z.log2_pow2 in * by lia. lia.
Qed.

Lemma findMsbSet_log2 val : inU 64 val → findMsbSet val = Ok (Z.log2 val).
Proof.
  intros []. unfold findMsbSet. destruct (val =? 0) eqn:E; zbool; [by subst|].
  destruct (msb_step_log2 32 val 0) as (v1 & n1 & E1 & ? & ?); [lia|lia|].
  destruct (msb_step_log2 16 v1 n1) as (v2 & n2 & E2 & ? & ?); [lia|lia|].
  destruct (msb_step_log2 8 v2 n2) as (v3 & n3 & E3 & ? & ?); [lia|lia|].
  destruct (msb_step_log2 4 v3 n3) as (v4 & n4 & E4 & ? & ?); [lia|lia|].
  destruct (msb_step_log2 2 v4 n4) as (v5 & n5 & E5 & ? & ?); [lia|lia|].
  change (msb_step 63 32 32 (val, 0) = Ok (v1, n1)) in E1. change (msb_step 31 16 16 (v1, n1) = Ok (v2, n2)) in E2.
  change (msb_step 15 8 8 (v2, n2) = Ok (v3, n3)) in E3. change (msb_step 7 4 4 (v3, n3) = Ok (v4, n4)) in E4.
  change (msb_step 3 2 2 (v4, n4) = Ok (v5, n5)) in E5.
  rewrite E1. cbn [mbind outcome_bind]. rewrite E2. cbn [mbind outcome_bind]. rewrite E3. cbn [mbind outcome_bind].
  rewrite E4. cbn [mbind outcome_bind]. rewrite E5. cbn [mbind outcome_bind].
  rewrite bits_field by (lia || split; lia). cbn [mbind outcome_bind]. f_equal.
  assert (v5 = 1 ∨ v5 = 2 ∨ v5 = 3) as [->|[->| ->]] by lia.
  - change (Z.log2 1) with 0 in *. change (_ =? 0) with true. cbv iota. lia.
  - change (Z.log2 2) with 1 in *. change (_ =? 0) with false. cbv iota. lia.
  - change (Z.log2 3) with 1 in *. change (_ =? 0) with false. cbv iota. lia.
Qed.

(** ** The lowest set bit *)

Definition is_lsb (z l : Z) : Prop := 0 ≤ l ∧ Z.testbit z l = true ∧ ∀ j, j < l → Z.testbit z j = false.

Lemma is_lsb_unique z l l' : is_lsb z l → is_lsb z l' → l = l'.
Proof.
  intros (? & H1 & H2) (? & H3 & H4). destruct (decide (l < l')); [by rewrite H4 in H1|].
  destruct (decide (l' < l)); [by rewrite H2 in H3|]. lia.
Qed.

Lemma lsb_step_finds k v n l :
  0 < k ≤ 32 → inU 64 v → is_lsb v l → l < 2 * k →
  ∃ v' n' l', lsb_step (k - 1) k (v, n) = Ok (v', n') ∧ inU 64 v' ∧ is_lsb v' l' ∧ l' < k ∧ n' + l' = n + l.
Proof.
  intros ? Hv (? & Hb & Hlow) ?. unfold lsb_step. rewrite bits_field by (done || lia).
  rewrite Z.shiftr_0_r. replace (k - 1 - 0 + 1) with k by lia. cbn [mbind outcome_bind].
  destruct (v mod 2 ^ k =? 0) eqn:E; zbool.
  - exists (Z.shiftr v k), (n + k), (l - k). assert (k ≤ l).
    { destruct (decide (k ≤ l)); [done|]. rewrite <- (Z.mod_pow2_bits_low v k l), E, Z.bits_0 in Hb by lia. done. }
    split_and!; [done| | |lia..].
    + destruct Hv. apply inU_bits; [lia|by apply Z.shiftr_nonneg|]. intros j ?. rewrite Z.shiftr_spec by lia.
      apply (inU_testbit_high 64); [done|lia].
    + split_and!; [lia|rewrite Z.shiftr_spec by lia; rewrite <- Hb; f_equal; lia|]. intros j ?.
      destruct (decide (j < 0)); [by apply Z.testbit_neg_r|]. rewrite Z.shiftr_spec by lia. apply Hlow. lia.
  - exists v, n, l. split_and!; [done..| |done]. destruct (decide (l < k)); [done|]. destruct E.
    apply Z.bits_inj'. intros j ?. rewrite Z.bits_0. destruct (decide (j < k)).
    + rewrite Z.mod_pow2_bits_low by lia. apply Hlow. lia.
    + apply Z.mod_pow2_bits_high. lia.
Qed.

Lemma findLsbSet_ctz val : inU 64 val → findLsbSet val = Ok (ctz64 val).
Proof.
  intros Hv. unfold findLsbSet. destruct (val =? 0) eqn:E; zbool; [by subst|].
  destruct (ctz64_spec val Hv E) as (? & H0).
  destruct (lsb_step_finds 32 val 0 (ctz64 val)) as (v1 & n1 & l1 & E1 & ? & ? & ? & ?); [lia|done|split; [lia|done]|lia|].
  destruct (lsb_step_finds 16 v1 n1 l1) as (v2 & n2 & l2 & E2 & ? & ? & ? & ?); [lia|done|done|lia|].
  destruct (lsb_step_finds 8 v2 n2 l2) as (v3 & n3 & l3 & E3 & ? & ? & ? & ?); [lia|done|done|lia|].
  destruct (lsb_step_finds 4 v3 n3 l3) as (v4 & n4 & l4 & E4 & ? & ? & ? & ?); [lia|done|done|lia|].
  destruct (lsb_step_finds 2 v4 n4 l4) as (v5 & n5 & l5 & E5 & Hv5 & (? & Hb & Hlow) & ? & ?); [lia|done|done|lia|].
  change (lsb_step 31 32 (val, 0) = Ok (v1, n1)) in E1. change (lsb_step 15 16 (v1, n1) = Ok (v2, n2)) in E2.
  change (lsb_step 7 8 (v2, n2) = Ok (v3, n3)) in E3. change (lsb_step 3 4 (v3, n3) = Ok (v4, n4)) in E4.
  change (lsb_step 1 2 (v4, n4) = Ok (v5, n5)) in E5.
  rewrite E1. cbn [mbind outcome_bind]. rewrite E2. cbn [mbind outcome_bind]. rewrite E3. cbn [mbind outcome_bind].
  rewrite E4. cbn [mbind outcome_bind]. rewrite E5. cbn [mbind outcome_bind].
  rewrite bits_field by (done || lia). rewrite Z.shiftr_0_r. change (2 ^ (0 - 0 + 1)) with 2. cbn [mbind outcome_bind]. f_equal.
  rewrite <- Z.bit0_mod. assert (l5 = 0 ∨ l5 = 1) as [->| ->] by lia; [rewrite Hb|rewrite (Hlow 0) by lia]; cbn; lia.
Qed.

(** ** Powers of two *)

Lemma isPow2_iff v : inU 64 v → isPow2 v = true ↔ v = 0 ∨ v = 2 ^ Z.log2 v.
Proof.
  intros []. unfold isPow2. rewrite Z.eqb_eq. destruct (decide (v = 0)) as [->|Hn]; [split; [by left|done]|].
  rewrite wrapU_id by (split; lia). pose proof (Z.log2_spec v ltac:(lia)) as [Hlo Hhi]. pose proof (Z.log2_nonneg v).
  set (h := Z.log2 v) in *. split.
  - intros E. right. destruct (decide (v = 2 ^ h)); [done|exfalso].
    assert (Z.testbit (Z.land v (v - 1)) h = true); [|by rewrite E, Z.bits_0 in *].
    rewrite Z.land_spec, Z.bit_log2 by lia. cbn.
    replace h with (Z.log2 (v - 1)) at 1; [apply Z.bit_log2; pose proof (pow2_pos h); lia|].
    apply Z.log2_unique; [done|lia].
  - intros [->|E]; [done|]. apply Z.bits_inj'. intros n ?. rewrite Z.bits_0, E.
    replace (2 ^ h - 1) with (Z.ones h) by (rewrite Z.ones_equiv; lia).
    rewrite Z.land_ones, Z_mod_same_full by lia. apply Z.bits_0.
Qed.

(** The [s] bits of [z] from bit [h] down are set, and none above. *)
Definition smeared (h s z : Z) : Prop :=
  0 ≤ z ∧ (∀ n, h < n → Z.testbit z n = false) ∧ (∀ n, 0 ≤ n → h - s < n ≤ h → Z.testbit z n = true).

Lemma smear h s z : 0 ≤ s → smeared h s z → smeared h (2 * s) (Z.lor z (Z.shiftr z s)).
Proof.
  intros Hs (Hz & Hup & Hset). split_and!.
  - apply Z.lor_nonneg. split; [done|by apply Z.shiftr_nonneg].
  - intros n ?. destruct (decide (0 ≤ n)); [|apply Z.testbit_neg_r; lia].
    rewrite Z.lor_spec, Z.shiftr_spec by done. rewrite !Hup by lia. done.
  - intros n ? ?. rewrite Z.lor_spec, Z.shiftr_spec by done. destruct (decide (h - s < n)).
    + by rewrite Hset by lia.
    + rewrite (Hset (n + s)) by lia. apply orb_true_r.
Qed.

Lemma smeared_all h z : 0 ≤ h < 64 → smeared h 64 z → z = Z.ones (h + 1).
Proof.
  intros ? (_ & Hup & Hset). apply Z.bits_inj'. intros n ?. rewrite Z.testbit_ones by lia.
  destruct (decide (n ≤ h)); [rewrite Hset by lia|rewrite Hup by lia]; lia.
Qed.

Lemma alignToPowerOfTwo_spec v :
  inU 64 v → alignToPowerOfTwo v = if v =? 0 then 0 else u64 (2 ^ Z.log2_up v).
Proof.
  intros []. unfold alignToPowerOfTwo. destruct (decide (v = 0)) as [->|H0v]; [reflexivity|].
  destruct (decide (v = 1)) as [->|H1v]; [reflexivity|]. replace (v =? 0) with false by lia.
  cbv zeta. rewrite (wrapU_id 64 (v - 1)) by (split; lia). assert (Hl : Z.log2_up v = Z.log2 (v - 1) + 1).
  { rewrite Z.log2_up_eqn by lia. rewrite Z.sub_1_r. lia. }
  set (h := Z.log2 (v - 1)) in *.
  assert (0 ≤ h < 64) by (split; [apply Z.log2_nonneg|apply Z.log2_lt_pow2; lia]).
  assert (smeared h 1 (v - 1)) as S0.
  { split_and!; [lia|intros n ?; apply Z.bits_above_log2; fold h; lia|].
    intros n ? ?. assert (n = h) as -> by lia. apply Z.bit_log2. lia. }
  pose proof (smear h 1 _ ltac:(lia) S0) as S1. pose proof (smear h 2 _ ltac:(lia) S1) as S2.
  pose proof (smear h 4 _ ltac:(lia) S2) as S3. pose proof (smear h 8 _ ltac:(lia) S3) as S4.
  pose proof (smear h 16 _ ltac:(lia) S4) as S5. pose proof (smear h 32 _ ltac:(lia) S5) as S6.
  match goal with |- u64 (?A + 1) = _ => assert (A = Z.ones (h + 1)) as -> by (apply smeared_all; [done|exact S6]) end.
  rewrite Hl, Z.ones_equiv. f_equal. lia.
Qed.

(** ** Counting bits byte by byte *)

Lemma byte_testbit d q n :
  inU 8 d → 0 ≤ n → Z.testbit (d + 2 ^ 8 * q) n = if n <? 8 then Z.testbit d n else Z.testbit q (n - 8).
Proof.
  intros Hd ?. pose proof Hd as []. case_zbool.
  - rewrite <- (Z.mod_pow2_bits_low (d + 2 ^ 8 * q) 8) by lia. rewrite Z.mul_comm, Z_mod_plus_full, Z.mod_small by lia. done.
  - replace n with (n - 8 + 8) at 1 by lia. rewrite <- Z.div_pow2_bits by lia. f_equal.
    rewrite Z.mul_comm, Z.div_add, Z.div_small by lia. lia.
Qed.

Lemma land_range w d e : 0 ≤ w → inU w d → inU w (Z.land d e).
Proof.
  intros ? Hd. pose proof Hd as []. apply inU_bits; [lia|apply Z.land_nonneg; by left|]. intros n ?.
  rewrite Z.land_spec, (inU_testbit_high w) by done. done.
Qed.

Lemma land_bytes d q e m :
  inU 8 d → inU 8 e → Z.land (d + 2 ^ 8 * q) (e + 2 ^ 8 * m) = Z.land d e + 2 ^ 8 * Z.land q m.
Proof.
  intros Hd He. pose proof (land_range 8 d e ltac:(lia) Hd). apply Z.bits_inj'. intros n ?.
  rewrite Z.land_spec, !byte_testbit by done. destruct (n <? 8); by rewrite Z.land_spec.
Qed.

Lemma shiftr_land_bytes k d q e m :
  0 ≤ k ≤ 8 → inU 8 d → inU (8 - k) e →
  Z.land (Z.shiftr (d + 2 ^ 8 * q) k) (e + 2 ^ 8 * m) = Z.land (Z.shiftr d k) e + 2 ^ 8 * Z.land (Z.shiftr q k) m.
Proof.
  intros Hk Hd He. pose proof (Z.pow_le_mono_r 2 (8 - k) 8). assert (He8 : inU 8 e) by (destruct He; split; lia).
  assert (inU 8 (Z.land (Z.shiftr d k) e)) by (rewrite Z.land_comm; by apply land_range).
  apply Z.bits_inj'. intros n ?. rewrite Z.land_spec, Z.shiftr_spec, !byte_testbit by (done || lia). destruct (n <? 8) eqn:E; zbool.
  - rewrite Z.land_spec, Z.shiftr_spec by done. destruct (decide (n < 8 - k)).
    + by replace (n + k <? 8) with true by lia.
    + by rewrite (inU_testbit_high (8 - k) e), !andb_false_r by (done || lia).
  - replace (n + k <? 8) with false by lia. rewrite Z.land_spec, Z.shiftr_spec by lia. do 2 f_equal. lia.
Qed.

(** The three rounds on one byte and on a word of bytes. *)
Definition round1 (m v : Z) : Z := v - Z.land (Z.shiftr v 1) m.
Definition round2 (m v : Z) : Z := Z.land v m + Z.land (Z.shiftr v 2) m.
Definition round3 (m v : Z) : Z := Z.land (v + Z.shiftr v 4) m.
Definition repeat_byte (bs : list Z) (b : Z) : Z := le_val (replicate (length bs) b).

Definition nibbles_small (b : Z) : bool := (b mod 16 <=? 4) && (b / 16 <=? 4) && (0 <=? b).
Lemma rounds_on_bytes b :
  inU 8 b → inU 8 (round1 0x55 b) ∧ nibbles_small (round2 0x33 (round1 0x55 b)) = true ∧
  round3 0x0f (round2 0x33 (round1 0x55 b)) = foldr (fun i s => Z.b2z (Z.testbit b i) + s) 0 (seqZ 0 8).
Proof.
  intros Hb. set (f := fun b => (0 <=? round1 0x55 b) && (round1 0x55 b <? 256) && nibbles_small (round2 0x33 (round1 0x55 b)) &&
    (round3 0x0f (round2 0x33 (round1 0x55 b)) =? foldr (fun i s => Z.b2z (Z.testbit b i) + s) 0 (seqZ 0 8))).
  assert (H : forallb f (seqZ 0 256) = true) by (vm_compute; reflexivity).
  rewrite forallb_forall in H. specialize (H b). unfold f in H.
  assert (In b (seqZ 0 256)) as Hin by (apply list_elem_of_In, elem_of_seqZ; destruct Hb; lia).
  specialize (H Hin). zbool. split_and!; [split; lia|done|done].
Qed.

Lemma round1_bytes bs :
  Forall (inU 8) bs → round1 (repeat_byte bs 0x55) (le_val bs) = le_val (round1 0x55 <$> bs).
Proof.
  unfold repeat_byte. induction 1 as [|b bs Hb Hbs IH]; [done|]. cbn [le_val length replicate fmap list_fmap] in *.
  destruct (rounds_on_bytes b Hb) as (H1 & _). change (0x55 mod 2 ^ 8) with 0x55.
  rewrite (Z.mod_small b), (Z.mod_small (round1 _ _)) by done. rewrite <- IH. unfold round1.
  rewrite shiftr_land_bytes by (done || lia). lia.
Qed.

Lemma round2_range c : inU 8 (round2 0x33 c).
Proof.
  unfold round2. rewrite !(Z.land_comm _ 0x33).
  destruct (land_range 6 0x33 c), (land_range 6 0x33 (Z.shiftr c 2)); try done. split; lia.
Qed.

Lemma round2_bytes cs :
  Forall (inU 8) cs → round2 (repeat_byte cs 0x33) (le_val cs) = le_val (round2 0x33 <$> cs).
Proof.
  unfold repeat_byte. induction 1 as [|c cs Hc Hcs IH]; [done|]. cbn [le_val length replicate fmap list_fmap] in *.
  pose proof (round2_range c). change (0x33 mod 2 ^ 8) with 0x33.
  rewrite (Z.mod_small c), (Z.mod_small (round2 _ _)) by done. rewrite <- IH. unfold round2.
  rewrite land_bytes, shiftr_land_bytes by (done || lia). lia.
Qed.

Lemma round3_range c : inU 4 (round3 0x0f c).
Proof. unfold round3. rewrite Z.land_comm. by apply land_range. Qed.

Lemma low_nibble cs : Forall (fun c => nibbles_small c = true) cs → le_val cs mod 16 ≤ 4.
Proof.
  destruct 1 as [|c cs Hc _]; [done|]. cbn [le_val]. unfold nibbles_small in Hc. zbool.
  replace (c mod 2 ^ 8 + 2 ^ 8 * le_val cs) with (c + (16 * (le_val cs - c / 2 ^ 8)) * 16); [by rewrite Z_mod_plus_full|].
  pose proof (Z.div_mod c (2 ^ 8)). lia.
Qed.

Lemma round3_bytes cs :
  Forall (fun c => nibbles_small c = true) cs → round3 (repeat_byte cs 0x0f) (le_val cs) = le_val (round3 0x0f <$> cs).
Proof.
  unfold repeat_byte. induction 1 as [|c cs Hc Hcs IH]; [done|]. pose proof (low_nibble _ Hcs) as Hq.
  unfold nibbles_small in Hc. zbool. cbn [le_val length replicate fmap list_fmap] in *. destruct (round3_range c). pose proof (Z.div_mod c 16).
  change (0x0f mod 2 ^ 8) with 0x0f. rewrite (Z.mod_small c), (Z.mod_small (round3 _ _)) by lia. rewrite <- IH. unfold round3 at 1 3.
  set (q := le_val cs) in *. set (m := le_val (replicate _ _)).
  rewrite !Z.shiftr_div_pow2 by lia. change (2 ^ 4) with 16.
  pose proof (Z.mod_pos_bound q 16 ltac:(lia)).
  replace (c + 2 ^ 8 * q + (c + 2 ^ 8 * q) / 16) with (c + c / 16 + 16 * (q mod 16) + 2 ^ 8 * (q + q / 16)).
  - rewrite land_bytes by (done || split; lia). f_equal. unfold round3. rewrite Z.shiftr_div_pow2 by lia. change 15 with (Z.ones 4).
    rewrite !Z.land_ones by lia. change (2 ^ 4) with 16. rewrite Z.mul_comm. apply Z_mod_plus_full.
  - replace (c + 2 ^ 8 * q) with (c + 16 * q * 16) at 2 by lia. rewrite Z.div_add by lia. pose proof (Z.div_mod q 16). lia.
Qed.

Definition count (n z : Z) : Z := foldr (fun i s => Z.b2z (Z.testbit z i) + s) 0 (seqZ 0 n).

Lemma foldr_count z l s : foldr (fun i s => Z.b2z (Z.testbit z i) + s) s l = foldr (fun i s => Z.b2z (Z.testbit z i) + s) 0 l + s.
Proof. induction l; cbn; lia. Qed.

Lemma count_split d q n : inU 8 d → 0 ≤ n → count (8 + n) (d + 2 ^ 8 * q) = count 8 d + count n q.
Proof.
  intros Hd ?. unfold count. rewrite seqZ_app, foldr_app, foldr_count by lia. f_equal.
  - assert (Forall (fun i => 0 ≤ i < 8) (seqZ 0 8)) as F by (apply Forall_forall; intros i Hi%elem_of_seqZ; lia).
    induction F as [|i l Hi _ IH]; [done|]. cbn [foldr]. rewrite IH, byte_testbit by (done || lia).
    by replace (i <? 8) with true by lia.
  - replace (0 + 8) with (8 + 0) by lia. rewrite <- fmap_add_seqZ.
    assert (Forall (fun i => 0 ≤ i) (seqZ 0 n)) as F by (apply Forall_forall; intros i Hi%elem_of_seqZ; lia).
    induction F as [|i l Hi _ IH]; [done|]. cbn [foldr fmap list_fmap] in *. rewrite IH, byte_testbit by (done || lia).
    replace (8 + i <? 8) with false by lia. do 3 f_equal. lia.
Qed.

Lemma count_bytes bs :
  Forall (inU 8) bs → count (8 * Z.of_nat (length bs)) (le_val bs) = foldr (fun b s => count 8 b + s) 0 bs.
Proof.
  induction 1 as [|b bs Hb _ IH]; [done|]. cbn [le_val foldr length]. rewrite Z.mod_small, <- IH by done.
  rewrite <- count_split by (done || lia). f_equal. lia.
Qed.

(** The multiplication adds the bytes up in the highest one. *)
Lemma sum_bytes ds :
  length ds = 8%nat → Forall (fun d => 0 ≤ d < 16) ds →
  Z.shiftr (u64 (le_val ds * 0x0101010101010101)) 56 = foldr Z.add 0 ds.
Proof.
  intros Hl Hd. do 8 (destruct ds as [|? ds]; [done|]; cbn in Hl; apply Forall_cons in Hd as [? Hd]).
  destruct ds; [|done]. cbn [le_val foldr]. rewrite !Z.mod_small by lia.
  rewrite Z.shiftr_div_pow2 by lia. unfold wrapU.
  rewrite <- (Z.mod_unique _ (2 ^ 64) (z0 + z1 + z2 + z3 + z4 + z5 + z6 + 2 ^ 8 * (z1 + z2 + z3 + z4 + z5 + z6)
      + 2 ^ 16 * (z2 + z3 + z4 + z5 + z6) + 2 ^ 24 * (z3 + z4 + z5 + z6) + 2 ^ 32 * (z4 + z5 + z6) + 2 ^ 40 * (z5 + z6) + 2 ^ 48 * z6)
    (z + 2 ^ 8 * (z + z0) + 2 ^ 16 * (z + z0 + z1) + 2 ^ 24 * (z + z0 + z1 + z2) + 2 ^ 32 * (z + z0 + z1 + z2 + z3)
      + 2 ^ 40 * (z + z0 + z1 + z2 + z3 + z4) + 2 ^ 48 * (z + z0 + z1 + z2 + z3 + z4 + z5) + 2 ^ 56 * (z + z0 + z1 + z2 + z3 + z4 + z5 + z6)))
    by (try left; lia).
  symmetry. apply (Z.div_unique_pos _ _ _ (z + 2 ^ 8 * (z + z0) + 2 ^ 16 * (z + z0 + z1) + 2 ^ 24 * (z + z0 + z1 + z2) + 2 ^ 32 * (z + z0 + z1 + z2 + z3)
      + 2 ^ 40 * (z + z0 + z1 + z2 + z3 + z4) + 2 ^ 48 * (z + z0 + z1 + z2 + z3 + z4 + z5))); lia.
Qed.

Lemma word_bytes ds : length ds = 8%nat → u64 (le_val ds) = le_val ds.
Proof. intros E. apply wrapU_id. pose proof (le_val_range ds) as H. rewrite E in H. split; lia. Qed.

Lemma land_wrap x m : inU 64 m → Z.land (u64 x) m = Z.land x m.
Proof.
  intros Hm. apply Z.bits_inj'. intros n ?. rewrite !Z.land_spec, testbit_wrapU by lia.
  destruct (n <? 64) eqn:E; zbool; [done|]. by rewrite (inU_testbit_high 64 m), !andb_false_r by done.
Qed.

Lemma popCount_portable_counts v : inU 64 v → popCount_portable v = popCount v.
Proof.
  intros Hv. set (bs := le_bytes 8 v). assert (El : length bs = 8%nat) by apply length_le_bytes.
  pose proof (le_bytes_range 8 v) as Hb. fold bs in Hb.
  assert (E : le_val bs = v) by (unfold bs; rewrite le_val_bytes; by apply Z.mod_small).
  set (cs := round1 0x55 <$> bs). set (ds := round2 0x33 <$> cs). set (es := round3 0x0f <$> ds).
  assert (El1 : length cs = 8%nat) by (unfold cs; by rewrite length_fmap).
  assert (El2 : length ds = 8%nat) by (unfold ds; by rewrite length_fmap).
  assert (El3 : length es = 8%nat) by (unfold es; by rewrite length_fmap).
  assert (E1 : round1 0x5555555555555555 v = le_val cs).
  { unfold cs. rewrite <- round1_bytes by done. unfold repeat_byte. by rewrite El, E. }
  assert (E2 : round2 0x3333333333333333 (le_val cs) = le_val ds).
  { unfold ds. rewrite <- round2_bytes; [unfold repeat_byte; by rewrite El1|].
    apply Forall_fmap, (Forall_impl _ _ _ Hb). intros b. apply rounds_on_bytes. }
  assert (E3 : round3 0x0f0f0f0f0f0f0f0f (le_val ds) = le_val es).
  { unfold es. rewrite <- round3_bytes; [unfold repeat_byte; by rewrite El2|].
    apply Forall_fmap, Forall_fmap, (Forall_impl _ _ _ Hb). intros b. apply rounds_on_bytes. }
  unfold popCount_portable. cbv zeta. fold (round1 0x5555555555555555 v). rewrite E1, word_bytes by done.
  fold (round2 0x3333333333333333 (le_val cs)). rewrite E2, word_bytes, land_wrap by done.
  fold (round3 0x0f0f0f0f0f0f0f0f (le_val ds)). rewrite E3, sum_bytes; [|done|].
  - change (popCount v) with (count 64 v). rewrite <- E. change 64 with (8 * 8) at 1. change 8 with (Z.of_nat 8) at 2.
    rewrite <- El, count_bytes by done. unfold es, ds, cs. clear -Hb. induction Hb as [|b bs Hb _ IH]; [done|].
    cbn [fmap list_fmap foldr] in *. rewrite IH. f_equal. by apply rounds_on_bytes.
  - apply Forall_fmap, Forall_true. intros d. apply (round3_range d).
Qed.

(** The searches for the highest and the lowest set bit by halving, the count
    of set bits by additions within the word, the test for a power of two and
    the alignment to one agree with the logarithm, the position of the lowest
    set bit, the number of set bits and the powers of two. *)
Theorem bit_tricks_agree v :
  inU 64 v →
  findMsbSet v = Ok (Z.log2 v) ∧ findLsbSet v = Ok (ctz64 v) ∧ popCount_portable v = popCount v ∧
  (isPow2 v = true ↔ v = 0 ∨ v = 2 ^ Z.log2 v) ∧
  alignToPowerOfTwo v = if v =? 0 then 0 else u64 (2 ^ Z.log2_up v).
Proof.
  intros Hv. split_and!; [by apply findMsbSet_log2|by apply findLsbSet_ctz|by apply popCount_portable_counts
    |by apply isPow2_iff|by apply alignToPowerOfTwo_spec].
Qed.

Lemma bit_tricks_agree_witness :
  popCount_portable 0xfedcba9876543210 = 32 ∧ findMsbSet 0xfedcba9876543210 = Ok (Z.log2 0xfedcba9876543210).
Proof.
  split; [reflexivity|]. apply (bit_tricks_agree 0xfedcba9876543210). split; reflexivity || discriminate.
Defined.
