(* ===== verification/AddrRange.v ===== *)
(** Model of [AddrRange] of [base/addr_range.hh]: ranges of addresses, possibly
    interleaved, which the devices use to decide which port holds an address
    and whether an access fits. *)
From stdpp Require Import sorting.
From S2P Require Import Prelude Bitfield.

#[local] Open Scope Z_scope.

Record AddrRange := mkAddrRange {
  ar_start : Z;
  ar_end : Z;
  ar_masks : list Z;
  ar_intlvMatch : Z;
}.

#[export] Instance AddrRange_eq_dec : EqDecision AddrRange.
Proof. solve_decision. Defined.

(** ** Queries *)

Definition interleaved (r : AddrRange) : bool := negb (bool_decide (ar_masks r = [])).
Definition ar_size (r : AddrRange) : Z :=
  Z.shiftr (u64 (ar_end r - ar_start r)) (Z.of_nat (length (ar_masks r))).
Definition stripes (r : AddrRange) : outcome Z :=
  let* s := ULL_shl (Z.of_nat (length (ar_masks r))) in Ok (u32 s).
Definition ar_valid (r : AddrRange) : bool := ar_start r <=? ar_end r.

(** [auto combined_mask = 0] is an [int]: every [|=] converts to 32 bits, and
    the call of [ctz64] converts back with the sign. *)
Definition granularity (r : AddrRange) : outcome Z :=
  if interleaved r then
    let combined_mask := foldl (fun c m => s32 (Z.lor (u64 c) m)) 0 (ar_masks r) in
    let lowest_bit := u8 (ctz64 (u64 combined_mask)) in
    ULL_shl lowest_bit
  else Ok (ar_size r).

(** [sel |= (popCount(a & masks[i]) % 2) << i], from the [i]-th mask on.  The
    shift is meant for fewer than 32 masks. *)
Fixpoint intlv_sel (a i sel : Z) (masks : list Z) : Z :=
  match masks with
  | [] => sel
  | m :: masks =>
      intlv_sel a (i + 1) (Z.lor sel (s32 (Z.shiftl (popCount (Z.land a m) mod 2) i))) masks
  end.

Definition in_range (r : AddrRange) (a : Z) : bool := (ar_start r <=? a) && (a <? ar_end r).
Definition ar_contains (r : AddrRange) (a : Z) : bool :=
  if in_range r a then intlv_sel a 0 0 (ar_masks r) =? ar_intlvMatch r else false.

(** [this->mergesWith(r)]. *)
Definition mergesWith (this r : AddrRange) : bool :=
  (ar_start r =? ar_start this) && (ar_end r =? ar_end this) && bool_decide (ar_masks r = ar_masks this).

(** [this->intersects(r)]. *)
Definition intersects (this r : AddrRange) : outcome bool :=
  if (ar_end r <=? ar_start this) || (ar_end this <=? ar_start r) then Ok false
  else if negb (interleaved this) && negb (interleaved r) then Ok true
  else if ar_size r =? 1 then Ok (ar_contains this (ar_start r))
  else if mergesWith this r then Ok (ar_intlvMatch this =? ar_intlvMatch r)
  else Err Panic.

(** [this->isSubset(r)]; [&&] evaluates the granularity last. *)
Definition isSubset (this r : AddrRange) : outcome bool :=
  let* _ := panic_if (interleaved this) in
  if interleaved r then
    if ar_contains r (ar_start this) && ar_contains r (u64 (ar_end this - 1)) then
      let* g := granularity r in Ok (ar_size this <=? g)
    else Ok false
  else Ok ((ar_start r <=? ar_start this) && (ar_end this <=? ar_end r)).

(** [operator<] and [operator==]. *)
Definition ar_lt (this r : AddrRange) : bool :=
  if negb (ar_start this =? ar_start r) then ar_start this <? ar_start r
  else ar_intlvMatch this <? ar_intlvMatch r.
Definition ar_eq (this r : AddrRange) : bool :=
  if negb (ar_start this =? ar_start r) then false
  else if negb (ar_end this =? ar_end r) then false
  else if negb (bool_decide (ar_masks this = ar_masks r)) then false
  else if negb (ar_intlvMatch this =? ar_intlvMatch r) then false
  else true.

(** ** Constructors *)

Definition AddrRange_default : AddrRange := mkAddrRange 1 0 [] 0.
(** [AddrRange(start, end)]. *)
Definition plain (a b : Z) : AddrRange := mkAddrRange a b [] 0.
Definition RangeEx (start end_ : Z) : AddrRange := plain start end_.
Definition RangeIn (start end_ : Z) : AddrRange := plain start (u64 (end_ + 1)).
Definition RangeSize (start size : Z) : AddrRange := plain start (u64 (start + size)).

(** [AddrRange(start, end, masks, intlv_match)]. *)
Definition AddrRange_masks (start end_ : Z) (masks : list Z) (intlv_match : Z) : outcome AddrRange :=
  let* bad := (if bool_decide (masks = []) then Ok false
               else let* s := ULL_shl (Z.of_nat (length masks)) in Ok (s <=? intlv_match)) in
  let* _ := panic_if bad in
  Ok (mkAddrRange start end_ masks intlv_match).

(** The loop over [i] of the legacy constructor, with [n] rounds left. *)
Fixpoint legacy_loop (intlv_high_bit xor_high_bit intlv_bits i : Z) (n : nat) (masks : list Z) : outcome (list Z) :=
  match n with
  | O => Ok masks
  | S n =>
      let* m := ULL_shl (u8 (intlv_high_bit - i)) in
      let* m := (if xor_high_bit =? 0 then Ok m
                 else let* m2 := ULL_shl (u8 (xor_high_bit - i)) in Ok (Z.lor m m2)) in
      legacy_loop intlv_high_bit xor_high_bit intlv_bits (i + 1) n (<[Z.to_nat (intlv_bits - i - 1) := m]> masks)
  end.

(** [AddrRange(start, end, intlv_high_bit, xor_high_bit, intlv_bits, intlv_match)]. *)
Definition AddrRange_legacy (start end_ intlv_high_bit xor_high_bit intlv_bits intlv_match : Z) : outcome AddrRange :=
  let* bad := (if intlv_bits =? 0 then Ok false
               else let* s := ULL_shl intlv_bits in Ok (s <=? intlv_match)) in
  let* _ := panic_if bad in
  let* _ := panic_if
    (negb (intlv_bits =? 0) && negb (xor_high_bit =? 0) &&
     (if xor_high_bit =? intlv_high_bit then true
      else if intlv_high_bit <? xor_high_bit then xor_high_bit - intlv_high_bit <? intlv_bits
      else intlv_high_bit - xor_high_bit <? intlv_bits)) in
  let* masks := legacy_loop intlv_high_bit xor_high_bit intlv_bits 0 (Z.to_nat intlv_bits)
                            (replicate (Z.to_nat intlv_bits) 0) in
  Ok (mkAddrRange start end_ masks intlv_match).

(** [for (const auto& r : ranges)] of the merging constructor. *)
Fixpoint merge_loop (this : AddrRange) (match_ : Z) (ranges : list AddrRange) : outcome unit :=
  match ranges with
  | [] => Ok tt
  | r :: ranges =>
      let* _ := panic_if (negb (mergesWith this r)) in
      let* _ := panic_if (negb (ar_intlvMatch r =? match_)) in
      merge_loop this (u8 (match_ + 1)) ranges
  end.

(** [AddrRange(ranges)]. *)
Definition AddrRange_merge (ranges : list AddrRange) : outcome AddrRange :=
  let this := default AddrRange_default (head ranges) in
  if (1 <? length ranges)%nat then
    let* s := ULL_shl (Z.of_nat (length (ar_masks this))) in
    let* _ := panic_if (negb (Z.of_nat (length ranges) =? s)) in
    let* _ := merge_loop this 0 ranges in
    Ok (plain (ar_start this) (ar_end this))
  else Ok this.

(** ** Offsets within a range *)

Definition MaxAddr : Z := u64 (-1).

(** [masks_lsb], sorted. *)
Definition masks_lsb (r : AddrRange) : list Z := merge_sort Z.le (ctz64 <$> ar_masks r).

(** Round [i] of the loop of [removeIntlvBits] and those that follow. *)
Fixpoint remove_loop (i : Z) (lsbs : list Z) (a : Z) : outcome Z :=
  match lsbs with
  | [] => Ok a
  | intlv_bit :: lsbs =>
      let* a := (if 0 <? intlv_bit then insertBits (Z.shiftr a 1) (intlv_bit - i - 1) 0 a
                 else Ok (Z.shiftr a 1)) in
      remove_loop (i + 1) lsbs a
  end.
Definition removeIntlvBits (r : AddrRange) (a : Z) : outcome Z := remove_loop 0 (masks_lsb r) a.

(** The two loops of [addIntlvBits]. *)
Fixpoint add_loop (i : Z) (lsbs : list Z) (a : Z) : outcome Z :=
  match lsbs with
  | [] => Ok a
  | intlv_bit :: lsbs =>
      let* a := (if 0 <? intlv_bit then insertBits (u64 (Z.shiftl a 1)) (intlv_bit + i - 1) 0 a
                 else Ok (u64 (Z.shiftl a 1))) in
      add_loop (i + 1) lsbs a
  end.
(** [~(1 << lsb)] is computed on an [int] and converted. *)
Definition not_lsb (lsb : Z) : outcome Z :=
  if (0 <=? lsb) && (lsb <? 32) then Ok (u64 (Z.lnot (s32 (Z.shiftl 1 lsb)))) else Err Undefined.
Fixpoint set_loop (intlvMatch i : Z) (masks : list Z) (a : Z) : outcome Z :=
  match masks with
  | [] => Ok a
  | m :: masks =>
      let lsb := ctz64 m in
      let* intlv_bit := bit 8 intlvMatch i in
      let* n := not_lsb lsb in
      let masked := Z.land (Z.land a m) n in
      let* a := insertBit a lsb (Z.lxor intlv_bit (popCount masked)) in
      set_loop intlvMatch (i + 1) masks a
  end.
Definition addIntlvBits (r : AddrRange) (a : Z) : outcome Z :=
  let* a := add_loop 0 (masks_lsb r) a in set_loop (ar_intlvMatch r) 0 (ar_masks r) a.

Definition getOffset (r : AddrRange) (a : Z) : outcome Z :=
  if negb (in_range r a) then Ok MaxAddr
  else if interleaved r then
    let* x := removeIntlvBits r a in
    let* y := removeIntlvBits r (ar_start r) in
    Ok (u64 (x - y))
  else Ok (u64 (a - ar_start r)).

(** ** Ranges of one segment *)

Lemma isSubset_plain a b c d : isSubset (plain a b) (plain c d) = Ok ((c <=? a) && (b <=? d)).
Proof. done. Qed.
