(* ===== verification/AddrRangeSpec.v ===== *)
(** What address ranges promise: membership as one equation per interleaving
    mask, offsets as a bijection onto a contiguous block, merged ranges as a
    partition, and the inverse of the removal of the interleaving bits. *)
From stdpp Require Import sorting.
From S2P Require Import Prelude Bitfield AddrRange.

#[local] Open Scope Z_scope.

(** ** Membership *)

Lemma shifted_bit i b : 0 ≤ i < 31 → s32 (Z.shiftl (Z.b2z b) i) = Z.b2z b * 2 ^ i.
Proof.
  intros ?. rewrite Z.shiftl_mul_pow2 by lia. apply wrapS_id; [lia|].
  pose proof (pow2_pos i). pose proof (Z.pow_lt_mono_r 2 i 31). unfold inS. destruct b; cbn [Z.b2z]; lia.
Qed.

Lemma add_bit i sel b n :
  0 ≤ i → inU i sel → 0 ≤ n →
  Z.testbit (Z.lor sel (Z.b2z b * 2 ^ i)) n = if n =? i then b else Z.testbit sel n.
Proof.
  intros ? ? ?. rewrite Z.lor_spec, <- Z.shiftl_mul_pow2, Z.shiftl_spec by lia. case_zbool.
  - subst. rewrite Z.sub_diag, Z.b2z_bit0. by rewrite (inU_testbit_high i) by (done || lia).
  - destruct (decide (n < i)); [rewrite (Z.testbit_neg_r (Z.b2z b)) by lia; apply orb_false_r|].
    rewrite (inU_testbit_high 1 (Z.b2z b)) by (lia || by destruct b). apply orb_false_r.
Qed.

(** The bits of [sel] are the parities of the masked address. *)
Lemma intlv_sel_bits a masks i sel :
  0 ≤ i → i + Z.of_nat (length masks) ≤ 31 → inU i sel →
  inU (i + Z.of_nat (length masks)) (intlv_sel a i sel masks) ∧
  (∀ n, 0 ≤ n < i → Z.testbit (intlv_sel a i sel masks) n = Z.testbit sel n) ∧
  (∀ j m, masks !! j = Some m → Z.testbit (intlv_sel a i sel masks) (i + Z.of_nat j) = parity (Z.land a m)).
Proof.
  revert i sel. induction masks as [|m masks IH]; intros i sel ? Hlen Hsel; cbn [intlv_sel length] in *.
  - rewrite Z.add_0_r. split_and!; [done|done|]. by intros j m.
  - rewrite popCount_parity, shifted_bit by lia.
    destruct (IH (i + 1) (Z.lor sel (Z.b2z (parity (Z.land a m)) * 2 ^ i))) as (H1 & H2 & H3); [lia..| |].
    + pose proof (pow2_pos i). destruct Hsel. apply inU_bits; [lia|apply Z.lor_nonneg; destruct (parity _); cbn [Z.b2z]; lia|].
      intros n ?. rewrite add_bit by (done || lia). replace (n =? i) with false by lia.
      apply (inU_testbit_high i); [done|lia].
    + split_and!.
      * by replace (i + Z.of_nat (S (length masks))) with (i + 1 + Z.of_nat (length masks)) by lia.
      * intros n ?. rewrite H2, add_bit by (done || lia). by replace (n =? i) with false by lia.
      * intros [|j] m' Hm; cbn in Hm; simplify_eq.
        -- rewrite Z.add_0_r, H2, add_bit by (done || lia). by rewrite Z.eqb_refl.
        -- replace (i + Z.of_nat (S j)) with (i + 1 + Z.of_nat j) by lia. by apply H3.
Qed.

Definition few_masks (r : AddrRange) : Prop :=
  (length (ar_masks r) ≤ 8)%nat ∧ inU (Z.of_nat (length (ar_masks r))) (ar_intlvMatch r).

Lemma contains_iff r a :
  few_masks r →
  ar_contains r a = true ↔
  in_range r a = true ∧
  ∀ j m, ar_masks r !! j = Some m → parity (Z.land a m) = Z.testbit (ar_intlvMatch r) (Z.of_nat j).
Proof.
  intros [Hf Hm]. unfold ar_contains. destruct (in_range r a); [|naive_solver].
  destruct (intlv_sel_bits a (ar_masks r) 0 0) as (H1 & _ & H3); [lia..|done|].
  rewrite Z.add_0_l in H1. rewrite Z.eqb_eq. change (∀ j m, ar_masks r !! j = Some m →
    Z.testbit (intlv_sel a 0 0 (ar_masks r)) (Z.of_nat j) = parity (Z.land a m)) in H3. split.
  - intros <-. split; [done|]. intros j m Hj. by rewrite (H3 j m Hj).
  - intros [_ H]. apply Z.bits_inj'. intros n ?.
    destruct (ar_masks r !! Z.to_nat n) as [m|] eqn:E.
    + specialize (H3 _ _ E). specialize (H _ _ E). rewrite Z2Nat.id in H3, H by lia. congruence.
    + apply lookup_ge_None in E.
      rewrite !(inU_testbit_high (Z.of_nat (length (ar_masks r)))) by (done || lia). done.
Qed.

(** ** The removal of bits *)

(** The position, before bits [ls] are removed, of bit [n] of the result; the
    first [i] removals have happened. *)
Fixpoint kept (i : Z) (ls : list Z) (n : Z) : Z :=
  match ls with
  | [] => n
  | l :: ls => let n' := kept (i + 1) ls n in if n' <? l - i then n' else n' + 1
  end.

(** Strictly increasing bit positions of a word from [i] on. *)
Definition positions (i : Z) (ls : list Z) : Prop :=
  StronglySorted Z.lt ls ∧ Forall (fun l => i ≤ l < 64) ls.

Lemma positions_cons i l ls :
  positions i (l :: ls) → i ≤ l < 64 ∧ positions (i + 1) ls ∧ Forall (fun l' => l < l') ls.
Proof.
  intros [Hs Hf]. apply StronglySorted_inv in Hs as [Hs Hl]. apply Forall_cons in Hf as [? Hf].
  split_and!; [lia|lia| |done]. split; [done|]. clear Hs. rewrite Forall_forall in *.
  intros x Hx. specialize (Hl x Hx). specialize (Hf x Hx). cbn in *. lia.
Qed.

Lemma kept_nonneg i ls n : 0 ≤ n → 0 ≤ kept i ls n.
Proof. revert i. induction ls as [|l ls IH]; intros i ?; cbn; [done|]. specialize (IH (i + 1)). case_zbool; lia. Qed.

(** No removed bit is kept, and every other bit is. *)
Lemma kept_avoids i ls n l : positions i ls → l ∈ ls → kept i ls n ≠ l - i.
Proof.
  revert i. induction ls as [|l' ls IH]; intros i Hp Hin; [set_solver|].
  apply positions_cons in Hp as (? & Hp & Hl). rewrite Forall_forall in Hl. cbn.
  apply elem_of_cons in Hin as [->|Hin]; [case_zbool; lia|].
  specialize (IH (i + 1) Hp Hin). specialize (Hl l Hin). case_zbool; lia.
Qed.

Lemma kept_covers i ls p : positions i ls → 0 ≤ p → (∀ l, l ∈ ls → p ≠ l - i) → ∃ n, 0 ≤ n ∧ kept i ls n = p.
Proof.
  revert i p. induction ls as [|l ls IH]; intros i p Hp ? Hn; cbn; [by exists p|].
  apply positions_cons in Hp as (? & Hp & Hl). rewrite Forall_forall in Hl.
  assert (p ≠ l - i) by (apply Hn; by left).
  destruct (decide (p < l - i)) as [Hlt|Hge].
  - destruct (IH (i + 1) p) as (n & ? & E); [done|lia| |].
    { intros l' Hin. specialize (Hl l' Hin). lia. }
    exists n. split; [done|]. rewrite E. by replace (p <? l - i) with true by lia.
  - destruct (IH (i + 1) (p - 1)) as (n & ? & E); [done|lia| |].
    { intros l' Hin. specialize (Hn l' ltac:(by right)). lia. }
    exists n. split; [done|]. rewrite E. replace (p - 1 <? l - i) with false by lia. lia.
Qed.

(** Above the removed bits the kept ones move as one block. *)
Lemma kept_high i ls k n :
  positions i ls → Forall (fun l => l < k) ls → k - i - Z.of_nat (length ls) ≤ n →
  kept i ls n = n + Z.of_nat (length ls).
Proof.
  revert i. induction ls as [|l ls IH]; intros i Hp Hk ?; cbn [kept length] in *; [lia|].
  apply positions_cons in Hp as (? & Hp & _). apply Forall_cons in Hk as [? Hk].
  rewrite IH by (done || lia). case_zbool; lia.
Qed.

Lemma kept_low i ls k n :
  positions i ls → Forall (fun l => l < k) ls → n < k - i - Z.of_nat (length ls) → kept i ls n < k - i.
Proof.
  revert i. induction ls as [|l ls IH]; intros i Hp Hk ?; cbn [kept length] in *; [lia|].
  apply positions_cons in Hp as (? & Hp & _). apply Forall_cons in Hk as [? Hk].
  specialize (IH (i + 1) Hp Hk). case_zbool; lia.
Qed.

Lemma positions_short i ls k :
  positions i ls → Forall (fun l => l < k) ls → i ≤ k → i + Z.of_nat (length ls) ≤ k.
Proof.
  revert i. induction ls as [|l ls IH]; intros i Hp Hk ?; cbn [length]; [lia|].
  apply positions_cons in Hp as (? & Hp & _). apply Forall_cons in Hk as [? Hk].
  specialize (IH (i + 1) Hp Hk). lia.
Qed.

Lemma remove_loop_bits i ls a :
  0 ≤ i → positions i ls → inU 64 a →
  ∃ x, remove_loop i ls a = Ok x ∧ inU 64 x ∧ ∀ n, 0 ≤ n → Z.testbit x n = Z.testbit a (kept i ls n).
Proof.
  revert i a. induction ls as [|l ls IH]; intros i a ? Hp Ha; cbn [remove_loop]; [by exists a|].
  apply positions_cons in Hp as (? & Hp & Hl).
  assert (Ha' : inU 64 (Z.shiftr a 1)).
  { destruct Ha. apply inU_bits; [lia|by apply Z.shiftr_nonneg|]. intros n ?.
    rewrite Z.shiftr_spec by lia. apply (inU_testbit_high 64); [done|lia]. }
  assert (∃ x, (if 0 <? l then insertBits (Z.shiftr a 1) (l - i - 1) 0 a else Ok (Z.shiftr a 1)) = Ok x ∧ inU 64 x ∧
    ∀ n, 0 ≤ n → Z.testbit x n = Z.testbit a (if n <? l - i then n else n + 1)) as (x & -> & Hx & Hb).
  { destruct (0 <? l) eqn:?; zbool.
    - destruct (insertBits_spec (Z.shiftr a 1) (l - i - 1) 0 a) as (x & -> & Hx & Hb); [done|lia..|].
      exists x. split_and!; [done..|]. intros n ?. rewrite Hb, Z.shiftr_spec, Z.sub_0_r by lia.
      replace (0 <=? n) with true by lia. cbn [andb]. do 2 case_zbool; (done || lia).
    - exists (Z.shiftr a 1). split_and!; [done..|]. intros n ?. rewrite Z.shiftr_spec by lia.
      by replace (n <? l - i) with false by lia. }
  cbn [mbind outcome_bind]. destruct (IH (i + 1) x) as (y & E & Hy & Hyb); [lia|done..|].
  exists y. split_and!; [done..|]. intros n ?. rewrite Hyb, Hb by (done || by apply kept_nonneg). done.
Qed.

(** Every word short enough is what is left of some address. *)
Lemma kept_onto i ls w y :
  0 ≤ w → positions i ls → 0 ≤ i → inU w y →
  ∃ a, inU (w + Z.of_nat (length ls)) a ∧ ∀ n, 0 ≤ n → Z.testbit a (kept i ls n) = Z.testbit y n.
Proof.
  intros ?. revert i. induction ls as [|l ls IH]; intros i Hp ? Hy; cbn [kept length].
  { exists y. by rewrite Z.add_0_r. }
  apply positions_cons in Hp as (? & Hp & _). destruct (IH (i + 1)) as (a & Ha & Hb); [done|lia|done|].
  set (p := l - i). assert (0 ≤ p) by lia.
  set (x := Z.lor (Z.shiftl (Z.shiftr a p) (p + 1)) (a mod 2 ^ p)).
  assert (Hx : ∀ k, 0 ≤ k → Z.testbit x k = if k <? p then Z.testbit a k else if k =? p then false else Z.testbit a (k - 1)).
  { intros k ?. subst x. rewrite Z.lor_spec, Z.shiftl_spec by lia. destruct (Z.ltb_spec k p).
    - by rewrite (Z.testbit_neg_r _ (k - (p + 1))), Z.mod_pow2_bits_low by lia.
    - rewrite Z.mod_pow2_bits_high, orb_false_r by lia. case_zbool; [apply Z.testbit_neg_r; lia|].
      rewrite Z.shiftr_spec by lia. f_equal. lia. }
  exists x. destruct Ha as [Ha0 Ha1]. pose proof (pow2_pos p). split.
  - apply inU_bits; [lia| |].
    + subst x. apply Z.lor_nonneg. split; [|apply Z.mod_pos_bound; lia]. by apply Z.shiftl_nonneg, Z.shiftr_nonneg.
    + intros k ?. rewrite Hx by lia.
      assert (∀ k, w + Z.of_nat (length ls) ≤ k → Z.testbit a k = false) as Hz by (intros; by apply (inU_testbit_high (w + Z.of_nat (length ls)))).
      repeat case_zbool; try apply Hz; (done || lia).
  - intros n Hn. rewrite <- Hb by done. fold p. pose proof (kept_nonneg (i + 1) ls n Hn).
    destruct (kept (i + 1) ls n <? p) eqn:E; rewrite Hx by lia; [by rewrite E|]. zbool.
    replace (kept (i + 1) ls n + 1 <? p) with false by lia. replace (kept (i + 1) ls n + 1 =? p) with false by lia.
    f_equal. lia.
Qed.

(** ** The parities of the masks *)

Lemma land_agree a b m : (∀ i, 0 ≤ i < 64 → Z.testbit m i = true → Z.testbit a i = Z.testbit b i) →
  parity (Z.land a m) = parity (Z.land b m).
Proof.
  intros H. apply parity_ext. intros i Hi. rewrite !Z.land_spec. specialize (H i Hi).
  destruct (Z.testbit m i); [by rewrite H|by rewrite !andb_false_r].
Qed.

Lemma land_differ a b m h :
  0 ≤ h < 64 → Z.testbit m h = true → Z.testbit a h ≠ Z.testbit b h →
  (∀ i, 0 ≤ i < 64 → i ≠ h → Z.testbit m i = true → Z.testbit a i = Z.testbit b i) →
  parity (Z.land a m) = negb (parity (Z.land b m)).
Proof.
  intros Hh Hm Hd He. apply (parity_flip _ _ h); [done| |].
  - by rewrite !Z.land_spec, Hm, !andb_true_r.
  - intros i Hi Hn. rewrite !Z.land_spec. specialize (He i Hi Hn).
    destruct (Z.testbit m i); [by rewrite He|by rewrite !andb_false_r].
Qed.

(** A mask, its lowest bit and the parity wanted. *)
Definition Equation : Type := Z * (Z * bool).
Definition eq_ok (t : Equation) : Prop :=
  0 ≤ t.1 < 64 ∧ Z.testbit t.2.1 t.1 = true ∧ ∀ j, j < t.1 → Z.testbit t.2.1 j = false.

(** The lowest bits of the masks can be chosen so that all parities come out. *)
Lemma solve_parities (ts : list Equation) a :
  inU 64 a → StronglySorted (fun t u => t.1 < u.1) ts → Forall eq_ok ts →
  ∃ a', inU 64 a' ∧ (∀ n, n ∉ ts.*1 → Z.testbit a' n = Z.testbit a n) ∧
    Forall (fun t => parity (Z.land a' t.2.1) = t.2.2) ts.
Proof.
  intros Ha. induction ts as [|[l [m b]] ts IH]; intros Hs Hok; [by exists a|].
  apply StronglySorted_inv in Hs as [Hs Hl]. apply Forall_cons in Hok as [(Hl64 & Hbit & Hlow) Hok]. cbn in Hl64, Hbit, Hlow.
  destruct (IH Hs Hok) as (a' & Ha' & Hsame & Hpar).
  destruct (decide (parity (Z.land a' m) = b)) as [E|E].
  { exists a'. split_and!; [done| |by constructor]. intros n Hn. apply not_elem_of_cons in Hn as [_ Hn]. by apply Hsame. }
  set (x := Z.lxor a' (2 ^ l)).
  assert (Hx : ∀ n, 0 ≤ n → Z.testbit x n = if n =? l then negb (Z.testbit a' n) else Z.testbit a' n).
  { intros n ?. subst x. rewrite Z.lxor_spec, Z.pow2_bits_eqb, Z.eqb_sym by lia. case_zbool; [apply xorb_true_r|apply xorb_false_r]. }
  exists x. pose proof (pow2_pos l). split_and!.
  - apply inU_bits; [lia|apply Z.lxor_nonneg; destruct Ha'; lia|]. intros n ?. rewrite Hx by lia.
    replace (n =? l) with false by lia. apply (inU_testbit_high 64); [done|lia].
  - intros n Hn. apply not_elem_of_cons in Hn as [Hnl Hn]. cbn in Hnl.
    destruct (decide (n < 0)); [by rewrite !Z.testbit_neg_r by lia|]. rewrite Hx by lia.
    replace (n =? l) with false by lia. by apply Hsame.
  - constructor; cbn.
    + rewrite (land_differ x a' m l); [revert E; by destruct (parity _), b|done..| |].
      * rewrite Hx, Z.eqb_refl by lia. by destruct (Z.testbit a' l).
      * intros i ? ? _. rewrite Hx by lia. by replace (i =? l) with false by lia.
    + rewrite Forall_forall in *. intros [l' [m' b']] Hin. rewrite <- (Hpar _ Hin). cbn.
      specialize (Hl _ Hin). destruct (Hok _ Hin) as (_ & _ & Hlow'). cbn in *. apply land_agree. intros i ? Hi.
      rewrite Hx by lia. case_zbool; [|done]. subst. rewrite Hlow' in Hi by done. done.
Qed.

(** Two addresses with the same parities and the same other bits are equal. *)
Lemma parities_determine (ts : list Equation) a b :
  inU 64 a → inU 64 b → Forall eq_ok ts →
  (∀ n, 0 ≤ n → n ∉ ts.*1 → Z.testbit a n = Z.testbit b n) →
  Forall (fun t => parity (Z.land a t.2.1) = parity (Z.land b t.2.1)) ts → a = b.
Proof.
  intros [] [] Hok Hsame Hpar. apply Z.lxor_eq. destruct (decide (Z.lxor a b = 0)) as [|Hne]; [done|exfalso].
  assert (0 ≤ Z.lxor a b) by (apply Z.lxor_nonneg; lia). set (h := Z.log2 (Z.lxor a b)).
  assert (0 ≤ h) by apply Z.log2_nonneg.
  assert (Hh : Z.testbit a h ≠ Z.testbit b h).
  { pose proof (Z.bit_log2 (Z.lxor a b) ltac:(lia)) as E. fold h in E. rewrite Z.lxor_spec in E.
    by destruct (Z.testbit a h), (Z.testbit b h). }
  assert (Hup : ∀ i, h < i → Z.testbit a i = Z.testbit b i).
  { intros i ?. apply xorb_eq. rewrite <- Z.lxor_spec. apply Z.bits_above_log2; [done|fold h; lia]. }
  destruct (decide (h ∈ ts.*1)) as [Hin|Hin]; [|by apply Hh, Hsame].
  apply list_elem_of_fmap in Hin as ([l [m p]] & El & Hin). cbn in El. subst l.
  rewrite Forall_forall in Hok, Hpar. destruct (Hok _ Hin) as (? & Hbit & Hlow). specialize (Hpar _ Hin). cbn in *.
  rewrite (land_differ a b m h) in Hpar; [by destruct (parity (Z.land b m))|done..|].
  intros i ? ? Hi. destruct (decide (i < h)) as [Hlt|]; [by rewrite Hlow in Hi|apply Hup; lia].
Qed.

(** ** Sorting *)

Lemma sorted_strict {A} (f : A → Z) l :
  StronglySorted (fun x y => f x ≤ f y) l → NoDup (f <$> l) → StronglySorted (fun x y => f x < f y) l.
Proof.
  induction 1 as [|x l _ IH Hx]; intros Hnd; [constructor|]. apply NoDup_cons in Hnd as [Hni Hnd].
  constructor; [by apply IH|]. rewrite Forall_forall in *. intros y Hy. specialize (Hx y Hy).
  assert (f x ≠ f y) by (intros E; apply Hni; rewrite E; by apply list_elem_of_fmap_2). lia.
Qed.

Lemma merge_sort_strict {A} (f : A → Z) `{!RelDecision (fun x y => f x ≤ f y)} l :
  NoDup (f <$> l) → StronglySorted (fun x y => f x < f y) (merge_sort (fun x y => f x ≤ f y) l).
Proof.
  intros Hnd. apply sorted_strict.
  - apply StronglySorted_merge_sort; [intros x y z; lia|intros x y; lia].
  - by rewrite merge_sort_Permutation.
Qed.

(** ** Offsets *)

Lemma masks_lsb_positions r :
  Forall (fun m => inU 64 m ∧ m ≠ 0) (ar_masks r) → NoDup (ctz64 <$> ar_masks r) → positions 0 (masks_lsb r).
Proof.
  intros Hm Hn. split; [apply (merge_sort_strict id); by rewrite list_fmap_id|].
  unfold masks_lsb. rewrite merge_sort_Permutation. apply Forall_fmap, (Forall_impl _ _ _ Hm).
  intros m []. by apply ctz64_spec.
Qed.

Lemma elem_of_masks_lsb r l : l ∈ masks_lsb r ↔ l ∈ ctz64 <$> ar_masks r.
Proof. unfold masks_lsb. by rewrite merge_sort_Permutation. Qed.

Lemma masks_lsb_length r : length (masks_lsb r) = length (ar_masks r).
Proof. unfold masks_lsb. by rewrite merge_sort_Permutation, length_fmap. Qed.

(** A range whose masks have different lowest bits, below bit [k], and whose
    bounds are multiples of [2 ^ k]. *)
Record aligned_range (r : AddrRange) (k : Z) : Prop := {
  al_few : few_masks r;
  al_masks : Forall (fun m => inU 64 m ∧ m ≠ 0) (ar_masks r);
  al_lsbs : NoDup (ctz64 <$> ar_masks r);
  al_below : Forall (fun m => ctz64 m < k) (ar_masks r);
  al_k : 0 ≤ k;
  al_bounds : 0 ≤ ar_start r ≤ ar_end r ∧ ar_end r < 2 ^ 64;
  al_start : ar_start r mod 2 ^ k = 0;
  al_end : ar_end r mod 2 ^ k = 0;
}.

Section Offsets.
Context (r : AddrRange) (k : Z) (Hr : aligned_range r k).
Abbreviation len := (Z.of_nat (length (ar_masks r))).

#[local] Instance lsb_le_dec : RelDecision (fun t u : Equation => t.1 ≤ u.1).
Proof. intros t u. apply _. Defined.

Definition equations : list Equation :=
  merge_sort (fun t u => t.1 ≤ u.1)
    (imap (fun j m => (ctz64 m, (m, Z.testbit (ar_intlvMatch r) (Z.of_nat j)))) (ar_masks r)).

Lemma imap_lsbs (f : nat → Z → Z * bool) l : (imap (fun j m => (ctz64 m, f j m)) l).*1 = ctz64 <$> l.
Proof. rewrite fmap_imap. apply imap_const. Qed.

Lemma elem_of_equations t :
  t ∈ equations ↔ ∃ j m, ar_masks r !! j = Some m ∧ t = (ctz64 m, (m, Z.testbit (ar_intlvMatch r) (Z.of_nat j))).
Proof.
  unfold equations. rewrite merge_sort_Permutation, list_elem_of_lookup. setoid_rewrite list_lookup_imap_Some.
  naive_solver.
Qed.

Lemma equations_lsbs n : n ∈ equations.*1 ↔ n ∈ masks_lsb r.
Proof. unfold equations, masks_lsb. by rewrite !merge_sort_Permutation, (imap_lsbs (fun j m => (m, Z.testbit (ar_intlvMatch r) (Z.of_nat j)))). Qed.

Lemma equations_sorted : StronglySorted (fun t u => t.1 < u.1) equations.
Proof.
  apply merge_sort_strict. rewrite (imap_lsbs (fun j m => (m, Z.testbit (ar_intlvMatch r) (Z.of_nat j)))). apply Hr.
Qed.

Lemma equations_ok : Forall eq_ok equations.
Proof.
  apply Forall_forall. intros t (j & m & Hj & ->)%elem_of_equations.
  destruct (proj1 (Forall_lookup _ _) (al_masks _ _ Hr) _ _ Hj). by apply ctz64_spec.
Qed.

Lemma lsbs_positions : positions 0 (masks_lsb r) ∧ Forall (fun l => l < k) (masks_lsb r).
Proof.
  split; [apply masks_lsb_positions; apply Hr|]. apply Forall_forall. intros l (m & -> & Hm)%elem_of_masks_lsb%list_elem_of_fmap.
  by apply (proj1 (Forall_forall _ _) (al_below _ _ Hr)).
Qed.

(** An address belongs to the range when it satisfies the equations. *)
Lemma contains_equations a :
  ar_contains r a = true ↔ in_range r a = true ∧ Forall (fun t => parity (Z.land a t.2.1) = t.2.2) equations.
Proof.
  rewrite contains_iff by apply Hr. rewrite Forall_forall. setoid_rewrite elem_of_equations. naive_solver.
Qed.

Lemma in_range_word a : in_range r a = true → inU 64 a.
Proof. unfold in_range. intros ?. zbool. destruct (al_bounds _ _ Hr). split; lia. Qed.

Lemma few_below : 0 ≤ len ≤ k.
Proof.
  destruct lsbs_positions as [Hp Hk]. rewrite <- masks_lsb_length.
  pose proof (positions_short 0 _ _ Hp Hk ltac:(apply Hr)). lia.
Qed.

(** What is left of an address: the part above bit [k] moves down as a block. *)
Lemma removeIntlvBits_split a :
  inU 64 a →
  ∃ x, removeIntlvBits r a = Ok x ∧ inU 64 x ∧ (∀ n, 0 ≤ n → Z.testbit x n = Z.testbit a (kept 0 (masks_lsb r) n)) ∧
    x / 2 ^ (k - len) = a / 2 ^ k ∧ (a mod 2 ^ k = 0 → x mod 2 ^ (k - len) = 0).
Proof.
  intros Ha. destruct lsbs_positions as [Hp Hk].
  destruct (remove_loop_bits 0 (masks_lsb r) a) as (x & E & Hx & Hb); [lia|done..|].
  pose proof few_below. pose proof (al_k _ _ Hr). pose proof (masks_lsb_length r) as El.
  exists x. split_and!; [done..| |].
  - apply Z.bits_inj'. intros n ?. rewrite <- !Z.shiftr_div_pow2, !Z.shiftr_spec, Hb by lia.
    rewrite (kept_high 0 (masks_lsb r) k) by (done || lia). f_equal. lia.
  - intros E0. apply Z.bits_inj'. intros n ?. rewrite Z.bits_0. destruct (decide (n < k - len)).
    + rewrite Z.mod_pow2_bits_low, Hb by lia. pose proof (kept_low 0 (masks_lsb r) k n Hp Hk ltac:(lia)).
      rewrite <- (Z.mod_pow2_bits_low a k) by lia. rewrite E0. apply Z.bits_0.
    + by rewrite Z.mod_pow2_bits_high by lia.
Qed.

(** The offset of the start of the range after the removal. *)
Definition base : Z := ar_start r / 2 ^ k * 2 ^ (k - len).

Lemma remove_start : removeIntlvBits r (ar_start r) = Ok base.
Proof.
  destruct (removeIntlvBits_split (ar_start r)) as (x & -> & _ & _ & E & E0).
  { destruct (al_bounds _ _ Hr). split; lia. }
  f_equal. specialize (E0 (al_start _ _ Hr)). unfold base. rewrite <- E.
  pose proof few_below. pose proof (pow2_pos (k - len)). pose proof (Z.div_mod x (2 ^ (k - len))). lia.
Qed.

Lemma size_blocks : ar_size r = (ar_end r / 2 ^ k - ar_start r / 2 ^ k) * 2 ^ (k - len).
Proof.
  pose proof few_below. destruct (al_bounds _ _ Hr). unfold ar_size.
  rewrite wrapU_id by (split; lia). rewrite Z.shiftr_div_pow2 by lia.
  pose proof (al_start _ _ Hr) as Es. pose proof (al_end _ _ Hr) as Ee. pose proof (pow2_pos k). pose proof (pow2_pos len).
  assert (E : 2 ^ k = 2 ^ (k - len) * 2 ^ len) by (rewrite <- Z.pow_add_r by lia; f_equal; lia).
  apply Z.mod_divide in Es as [s Es]; [|lia]. apply Z.mod_divide in Ee as [e Ee]; [|lia].
  rewrite Es, Ee, !Z.div_mul, E by lia. rewrite <- Z.mul_sub_distr_r, Z.mul_assoc. apply Z.div_mul. lia.
Qed.

Lemma in_range_blocks a :
  in_range r a = true ↔ ar_start r / 2 ^ k ≤ a / 2 ^ k < ar_end r / 2 ^ k.
Proof.
  pose proof (al_start _ _ Hr) as Es. pose proof (al_end _ _ Hr) as Ee. pose proof (pow2_pos k (al_k _ _ Hr)).
  apply Z.mod_divide in Es as [s Es]; [|lia]. apply Z.mod_divide in Ee as [e Ee]; [|lia].
  unfold in_range. rewrite Es, Ee, !Z.div_mul, andb_true_iff, Z.leb_le, Z.ltb_lt by lia.
  pose proof (Z.div_mod a (2 ^ k)). pose proof (Z.mod_pos_bound a (2 ^ k)). split; intros; nia.
Qed.

Lemma block_offset x q s e p : 0 < p → s ≤ q < e → x / p = q → 0 ≤ x - s * p < (e - s) * p.
Proof. intros ? ? Hx. pose proof (Z.div_mod x p). pose proof (Z.mod_pos_bound x p). nia. Qed.

Lemma getOffset_in a :
  in_range r a = true →
  ∃ x, removeIntlvBits r a = Ok x ∧ getOffset r a = Ok (x - base) ∧ 0 ≤ x - base < ar_size r.
Proof.
  intros Hin. pose proof (in_range_word a Hin) as Ha. destruct (removeIntlvBits_split a Ha) as (x & E & Hx & _ & Eq & _).
  pose proof few_below. exists x. split; [done|].
  assert (Hb : 0 ≤ x - base < ar_size r).
  { rewrite size_blocks. apply (block_offset _ (a / 2 ^ k)); [apply pow2_pos; lia|by apply in_range_blocks|done]. }
  assert (0 ≤ base) by (apply Z.mul_nonneg_nonneg; [apply Z.div_pos; [apply Hr|apply pow2_pos, Hr]|apply Z.pow_nonneg; lia]).
  split; [|done]. unfold getOffset. rewrite Hin. destruct Hx. cbn [negb]. destruct (interleaved r) eqn:Ei.
  - rewrite E, remove_start. cbn. rewrite wrapU_id by (split; lia). done.
  - apply negb_false_iff, bool_decide_eq_true in Ei. unfold removeIntlvBits, masks_lsb in E.
    pose proof remove_start as Es. unfold removeIntlvBits, masks_lsb in Es. rewrite Ei in E, Es. injection E as <-. injection Es as Es.
    rewrite Es. by rewrite wrapU_id by (split; lia).
Qed.

Lemma short_offset o :
  0 ≤ o < (ar_end r / 2 ^ k - ar_start r / 2 ^ k) * 2 ^ (k - len) →
  inU (64 - len) (o + base) ∧ ar_start r / 2 ^ k ≤ (o + base) / 2 ^ (k - len) < ar_end r / 2 ^ k.
Proof.
  intros Ho. pose proof few_below. destruct (al_few _ _ Hr) as [Hf _]. pose proof (al_k _ _ Hr).
  pose proof (pow2_pos (k - len)). pose proof (pow2_pos k). pose proof (pow2_pos len). destruct (al_bounds _ _ Hr).
  assert (0 ≤ ar_start r / 2 ^ k) by (apply Z.div_pos; lia).
  assert (E : 2 ^ k = 2 ^ (k - len) * 2 ^ len) by (rewrite <- Z.pow_add_r by lia; f_equal; lia).
  assert (E64 : 2 ^ 64 = 2 ^ (64 - len) * 2 ^ len) by (rewrite <- Z.pow_add_r by lia; f_equal; lia).
  pose proof (Z.mul_div_le (ar_end r) (2 ^ k)). unfold base. split; [split; nia|].
  rewrite Z.div_add by lia. pose proof (Z.div_pos o (2 ^ (k - len))). split; [lia|].
  assert (o / 2 ^ (k - len) < ar_end r / 2 ^ k - ar_start r / 2 ^ k) by (apply Z.div_lt_upper_bound; lia). lia.
Qed.

(** Every offset is that of an address of the range. *)
Lemma offset_reached o : 0 ≤ o < ar_size r → ∃ a, ar_contains r a = true ∧ getOffset r a = Ok o.
Proof.
  intros Ho. rewrite size_blocks in Ho. destruct lsbs_positions as [Hp _]. pose proof few_below as Hl.
  destruct (al_few _ _ Hr) as [Hf _]. destruct (short_offset o Ho) as [Hy Hq].
  destruct (kept_onto 0 (masks_lsb r) (64 - len) (o + base)) as (a0 & Ha0 & Hb0); [lia|done|lia|done|].
  rewrite masks_lsb_length in Ha0. replace (64 - len + len) with 64 in Ha0 by lia.
  destruct (solve_parities equations a0 Ha0 equations_sorted equations_ok) as (a & Ha & Hsame & Hpar).
  destruct (removeIntlvBits_split a Ha) as (x & E & Hx & Hb & Eq & _).
  assert (x = o + base) as ->.
  { apply Z.bits_inj'. intros n Hn. rewrite Hb, <- Hb0 by done. apply Hsame. rewrite equations_lsbs.
    intros Hin. apply (kept_avoids 0 _ n _ Hp) in Hin. lia. }
  rewrite Eq in Hq. apply in_range_blocks in Hq. exists a. split; [by apply contains_equations|].
  destruct (getOffset_in a Hq) as (x & E' & -> & _). rewrite E in E'. injection E' as <-. f_equal. lia.
Qed.

Lemma getOffset_inj a b o :
  ar_contains r a = true → ar_contains r b = true → getOffset r a = Ok o → getOffset r b = Ok o → a = b.
Proof.
  intros [Ha Pa]%contains_equations [Hb Pb]%contains_equations Ea Eb.
  destruct (getOffset_in a Ha) as (x & Ex & Ea' & _). destruct (getOffset_in b Hb) as (y & Ey & Eb' & _).
  assert (y = x) as -> by (rewrite Ea' in Ea; rewrite Eb' in Eb; simplify_eq; lia).
  destruct (removeIntlvBits_split a (in_range_word a Ha)) as (xa & E1 & _ & Ba & _).
  destruct (removeIntlvBits_split b (in_range_word b Hb)) as (xb & E2 & _ & Bb & _).
  rewrite Ex in E1. rewrite Ey in E2. injection E1 as <-. injection E2 as <-.
  apply (parities_determine equations); [by apply in_range_word..|apply equations_ok| |].
  - intros n ? Hn. rewrite equations_lsbs in Hn. destruct lsbs_positions as [Hp _].
    destruct (kept_covers 0 (masks_lsb r) n) as (m & ? & <-); [done..| |].
    + intros l Hin ->. rewrite Z.sub_0_r in Hn. done.
    + by rewrite <- Ba, <- Bb by done.
  - rewrite Forall_forall in *. intros t Ht. by rewrite Pa, Pb.
Qed.
End Offsets.

(** C32: the offsets of the addresses of an aligned range, interleaved or not, are
    exactly the numbers below its size: every address of the range has an
    offset below the size, and every such offset belongs to one address only. *)
Theorem getOffset_bijective r k :
  aligned_range r k →
  (∀ a, ar_contains r a = true → ∃ o, getOffset r a = Ok o ∧ 0 ≤ o < ar_size r) ∧
  (∀ o, 0 ≤ o < ar_size r → ∃ a, ar_contains r a = true ∧ getOffset r a = Ok o ∧
     ∀ b, ar_contains r b = true → getOffset r b = Ok o → b = a).
Proof.
  intros Hr. split.
  - intros a [Hin _]%(contains_equations r k Hr). destruct (getOffset_in r k Hr a Hin) as (x & _ & ? & ?). eauto.
  - intros o Ho. destruct (offset_reached r k Hr o Ho) as (a & Ha & Eo). exists a. split_and!; [done..|].
    intros b Hb Eb. by apply (getOffset_inj r k Hr b a o).
Qed.

(** Four ranges in steps of 64 bytes, the third one, with hashed address bits. *)
Definition quarter : AddrRange := mkAddrRange 0x1000 0x9000 [0x1040; 0x2080] 2.
Lemma quarter_aligned : aligned_range quarter 8.
Proof.
  split; cbn; try done.
  - split; [cbn; lia|done].
  - repeat constructor; done.
  - vm_compute. by apply (bool_decide_unpack (NoDup [6; 7])).
  - repeat constructor; vm_compute; done.
Qed.

Lemma getOffset_bijective_witness :
  aligned_range quarter 8 ∧ ar_size quarter = 0x2000 ∧
  ∃ a, ar_contains quarter a = true ∧ getOffset quarter a = Ok 0x1234 ∧
     ∀ b, ar_contains quarter b = true → getOffset quarter b = Ok 0x1234 → b = a.
Proof.
  split; [exact quarter_aligned|]. split; [reflexivity|].
  apply (proj2 (getOffset_bijective quarter 8 quarter_aligned)). vm_compute. split; [discriminate|reflexivity].
Defined.

(** ** Merging *)

Lemma mergesWith_iff this r :
  mergesWith this r = true ↔ ar_start r = ar_start this ∧ ar_end r = ar_end this ∧ ar_masks r = ar_masks this.
Proof. unfold mergesWith. rewrite !andb_true_iff, !Z.eqb_eq, bool_decide_eq_true. naive_solver. Qed.

Lemma merge_loop_inv this n rs i r :
  merge_loop this n rs = Ok tt → 0 ≤ n → rs !! i = Some r →
  mergesWith this r = true ∧ (n + Z.of_nat i < 256 → ar_intlvMatch r = n + Z.of_nat i).
Proof.
  revert n i. induction rs as [|r' rs IH]; intros n i H ? Hi; [done|]. cbn [merge_loop] in H.
  destruct (mergesWith this r') eqn:Em; [|done]. destruct (ar_intlvMatch r' =? n) eqn:En; [|done]. zbool. cbn in H.
  destruct i as [|i]; cbn in Hi; [simplify_eq; split; [done|lia]|].
  destruct (IH (u8 (n + 1)) i H) as [? Hm]; [by apply wrapU_range|done|]. split; [done|]. intros ?.
  rewrite wrapU_id in Hm by (split; lia). lia.
Qed.

Lemma ULL_shl_Ok n s : ULL_shl n = Ok s → 0 ≤ n < 64 ∧ s = 2 ^ n.
Proof.
  unfold ULL_shl. destruct (_ && _) eqn:E; [|done]. zbool. intros [= <-]. by rewrite Z.shiftl_1_l.
Qed.

(** The ranges that pass the loop are told apart by the value of [sel]. *)
Lemma merged_contains this rs a i r :
  merge_loop this 0 rs = Ok tt → (length rs ≤ 256)%nat → rs !! i = Some r →
  ar_contains r a = in_range this a && (intlv_sel a 0 0 (ar_masks this) =? Z.of_nat i).
Proof.
  intros H ? Hi. pose proof (lookup_lt_Some _ _ _ Hi). destruct (merge_loop_inv _ _ _ _ _ H (Z.le_refl 0) Hi) as [Hm En].
  apply mergesWith_iff in Hm as (Es & Ee & Em). unfold ar_contains, in_range. rewrite Es, Ee, Em, En by lia.
  by destruct (_ && _).
Qed.

(** When ranges of at most eight masks are merged, the merged range holds exactly
    the addresses that one of them holds, and no address is held by two of
    them. *)
Theorem merge_partitions rs m :
  AddrRange_merge rs = Ok m → Forall (fun r => (length (ar_masks r) ≤ 8)%nat) rs →
  ∀ a, (ar_contains m a = true ↔ ∃ i r, rs !! i = Some r ∧ ar_contains r a = true) ∧
       ∀ i j r r', rs !! i = Some r → rs !! j = Some r' →
         ar_contains r a = true → ar_contains r' a = true → i = j.
Proof.
  intros Hm Hf a. unfold AddrRange_merge in Hm. destruct (1 <? length rs)%nat eqn:El.
  - apply Nat.ltb_lt in El. destruct rs as [|r1 rs']; [cbn in El; lia|].
    change (default AddrRange_default (head (r1 :: rs'))) with r1 in Hm. set (rs := r1 :: rs') in *.
    apply bind_ok in Hm as (s & [? ->]%ULL_shl_Ok & Hm). apply bind_ok in Hm as (u & Hn%panic_if_ok & Hm).
    apply bind_ok in Hm as ([] & Hl & Hm). injection Hm as <-. zbool.
    apply Forall_cons in Hf as [Hf _]. set (n := Z.of_nat (length (ar_masks r1))) in *.
    pose proof (Z.pow_le_mono_r 2 n 8 ltac:(lia) ltac:(lia)) as H8. change (2 ^ 8) with 256 in H8.
    assert (Hc : ∀ i r, rs !! i = Some r → ar_contains r a = in_range r1 a && (intlv_sel a 0 0 (ar_masks r1) =? Z.of_nat i))
      by (intros; apply (merged_contains r1 rs); (done || lia)).
    destruct (intlv_sel_bits a (ar_masks r1) 0 0) as ([Hs1 Hs2] & _); [lia..|done|]. fold n in Hs2. rewrite Z.add_0_l in Hs2.
    split.
    + replace (ar_contains (plain (ar_start r1) (ar_end r1)) a) with (in_range r1 a)
        by (unfold ar_contains, in_range; cbn; by destruct (_ && _)). split.
      * intros Hin. destruct (lookup_lt_is_Some_2 rs (Z.to_nat (intlv_sel a 0 0 (ar_masks r1)))) as [r Hi]; [lia|].
        exists (Z.to_nat (intlv_sel a 0 0 (ar_masks r1))), r. split; [done|]. rewrite (Hc _ _ Hi), Hin. rewrite Z2Nat.id, Z.eqb_refl by done. done.
      * intros (i & r & Hi & Ha). rewrite (Hc _ _ Hi) in Ha. by apply andb_true_iff in Ha as [? _].
    + intros i j r r' Hi Hj Ha Hb. rewrite (Hc _ _ Hi) in Ha. rewrite (Hc _ _ Hj) in Hb. zbool. lia.
  - apply Nat.ltb_ge in El. injection Hm as <-. destruct rs as [|r [|]]; [| |cbn in El; lia]; cbn [head default].
    + split; [|by intros i j r r' ?]. split; [|by intros (i & r & ? & _)].
      unfold ar_contains, in_range. cbn. intros H. destruct (_ && _) eqn:E in H; [zbool; lia|done].
    + split; [|intros [|i] [|j] ? ? ? ?; done]. split; [by exists 0%nat, r|].
      intros ([|i] & r' & Hi & Ha); [|done]. by injection Hi as <-.
Qed.

Definition quarters : list AddrRange := (fun i => mkAddrRange 0x1000 0x9000 [0x1040; 0x2080] i) <$> [0; 1; 2; 3].
Lemma merge_partitions_witness :
  AddrRange_merge quarters = Ok (plain 0x1000 0x9000) ∧
  ∃ i r, quarters !! i = Some r ∧ ar_contains r 0x2345 = true.
Proof.
  split; [reflexivity|].
  apply (merge_partitions quarters (plain 0x1000 0x9000)); [reflexivity| |reflexivity].
  repeat constructor.
Defined.

(** With nine masks the match value, a byte, cannot tell the ranges apart: the
    constructor accepts ranges of which none holds some address of the result. *)
Definition many_masks : list Z := (fun i => 2 ^ i) <$> seqZ 6 9.
Definition many_ranges : list AddrRange := (fun i => mkAddrRange 0 0x8000 many_masks (i mod 256)) <$> seqZ 0 512.
Example merge_loses_addresses :
  AddrRange_merge many_ranges = Ok (plain 0 0x8000) ∧
  existsb (fun r => ar_contains r 0x4000) many_ranges = false.
Proof. vm_compute. done. Qed.
