(* ===== verification/AddrRangeLaws.v ===== *)
(** More of what address ranges promise: the tests for subsets and
    intersections, ranges given by the positions of their interleaving bits,
    and the way back from a flat address. *)
From S2P Require Import Prelude Bitfield AddrRange AddrRangeSpec.

#[local] Open Scope Z_scope.

(** ** Subsets and intersections *)

Lemma combined_bits masks c j :
  0 ≤ j < 32 →
  Z.testbit (foldl (fun c m => s32 (Z.lor (u64 c) m)) c masks) j = Z.testbit c j || existsb (fun m => Z.testbit m j) masks.
Proof.
  intros Hj. revert c. induction masks as [|m masks IH]; intros c; cbn [foldl existsb]; [by rewrite orb_false_r|].
  rewrite IH, orb_assoc. f_equal.
  rewrite (proj1 (eqm_bits 32 _ _ ltac:(lia)) (eqm_wrapS 32 32 _ ltac:(lia) ltac:(lia))) by lia.
  rewrite Z.lor_spec, testbit_wrapU by lia. by replace (j <? 64) with true by lia.
Qed.

Lemma combined_range masks c : inS 32 c → inS 32 (foldl (fun c m => s32 (Z.lor (u64 c) m)) c masks).
Proof. revert c. induction masks; intros c ?; cbn [foldl]; [done|]. auto with salam. Qed.

(** No mask has a bit below the granularity. *)
Lemma granularity_low r G :
  interleaved r = true → granularity r = Ok G →
  ∃ g, 0 ≤ g < 32 ∧ G = 2 ^ g ∧ ∀ m j, m ∈ ar_masks r → j < g → Z.testbit m j = false.
Proof.
  intros Hi Hg. unfold granularity in Hg. rewrite Hi in Hg.
  set (c := foldl _ 0 (ar_masks r)) in Hg. assert (H0 : inS 32 0) by done. assert (Hc : inS 32 c) by by apply combined_range.
  destruct (decide (c = 0)) as [E|Hn]; [by rewrite E in Hg|].
  assert (Hu : u64 c ≠ 0).
  { intros E. apply Hn. apply (eqm_inS 32); [lia| |done..].
    apply (eqm_le 64); [lia|]. etrans; [symmetry; apply (eqm_wrapU 64 64); lia|]. by rewrite E. }
  destruct (ctz64_spec (u64 c) ltac:(apply wrapU_range; lia) Hu) as (Hr & Hb & Hlow).
  set (g := ctz64 (u64 c)) in *. rewrite wrapU_id in Hg by (split; lia). apply ULL_shl_Ok in Hg as [_ ->].
  assert (Hcu : ∀ j, 0 ≤ j < 64 → Z.testbit (u64 c) j = Z.testbit c j).
  { intros j ?. rewrite testbit_wrapU by lia. by replace (j <? 64) with true by lia. }
  assert (g < 32).
  { destruct (decide (g < 32)) as [|]; [done|]. exfalso. apply Hn, (eqm_inS 32); [lia| |done..].
    apply eqm_bits; [lia|]. intros j ?. rewrite Z.bits_0, <- Hcu by lia. apply Hlow. lia. }
  exists g. split_and!; [lia..|done|]. intros m j Hm ?. destruct (decide (0 ≤ j)); [|apply Z.testbit_neg_r; lia].
  specialize (Hlow j ltac:(lia)). rewrite Hcu in Hlow by lia. unfold c in Hlow. rewrite combined_bits, Z.bits_0 in Hlow by lia.
  destruct (Z.testbit m j) eqn:E; [|done]. rewrite <- Hlow. symmetry. apply existsb_exists. exists m.
  split; [by apply list_elem_of_In|done].
Qed.

(** Addresses with the same bits from [g] on are selected alike. *)
Lemma same_granule a b g masks i sel :
  (∀ m j, m ∈ masks → j < g → Z.testbit m j = false) → 0 ≤ g → a / 2 ^ g = b / 2 ^ g →
  intlv_sel a i sel masks = intlv_sel b i sel masks.
Proof.
  intros Hm ? E. revert i sel. induction masks as [|m masks IH]; intros i sel; cbn [intlv_sel]; [done|].
  rewrite !popCount_parity, (land_agree a b m), IH; [done|intros m' j ?; apply Hm; by right|].
  intros j ? Hj. destruct (decide (j < g)) as [Hlt|]; [by rewrite (Hm m j) in Hj by (done || by left)|].
  replace j with (j - g + g) by lia. rewrite <- !Z.div_pow2_bits by lia. by rewrite E.
Qed.

(** Of two ends at most [p] apart, one is in the block of any number between. *)
Lemma between_blocks s l a p : 0 < p → s ≤ a ≤ l → l < s + p → a / p = s / p ∨ a / p = l / p.
Proof.
  intros ? ? ?. pose proof (Z.div_le_mono s a p). pose proof (Z.div_le_mono a l p).
  assert (l / p ≤ s / p + 1); [|lia]. rewrite <- (Z.div_add s 1 p) by lia. apply Z.div_le_mono; lia.
Qed.

Definition word_bounds (r : AddrRange) : Prop := inU 64 (ar_start r) ∧ inU 64 (ar_end r).

Lemma isSubset_sound this r a :
  word_bounds this → isSubset this r = Ok true → in_range this a = true → ar_intlvMatch r = 0 ∨ interleaved r = true →
  ar_contains r a = true.
Proof.
  intros Hw H Hin Hz. destruct Hw as [[] []]. unfold isSubset in H. destruct (interleaved this) eqn:Et; [done|]. cbn in H.
  pose proof Hin as Hin'. unfold in_range in Hin'. zbool. destruct (interleaved r) eqn:Ei.
  - destruct (ar_contains r (ar_start this)) eqn:E1; [|done].
    destruct (ar_contains r (u64 (ar_end this - 1))) eqn:E2; [|done]. cbn in H.
    apply bind_ok in H as (G & HG & [= Hs]). zbool. rewrite wrapU_id in E2 by (split; lia).
    destruct (granularity_low r G Ei HG) as (g & ? & -> & Hlow). unfold ar_size in Hs.
    rewrite wrapU_id in Hs by (split; lia). apply negb_false_iff, bool_decide_eq_true in Et. rewrite Et in Hs.
    cbn [length Z.of_nat] in Hs. rewrite Z.shiftr_0_r in Hs.
    unfold ar_contains in *. destruct (in_range r (ar_start this)) eqn:R1, (in_range r (ar_end this - 1)) eqn:R2; try done.
    assert (in_range r a = true) as -> by (unfold in_range in *; zbool; apply andb_true_iff; lia).
    destruct (between_blocks (ar_start this) (ar_end this - 1) a (2 ^ g)) as [E|E]; [apply pow2_pos; lia|lia..| |];
      by rewrite (same_granule a _ g) by (done || lia).
  - injection H as H. zbool. destruct Hz as [Hz|]; [|done]. apply negb_false_iff, bool_decide_eq_true in Ei.
    unfold ar_contains, in_range. replace (ar_start r <=? a) with true by lia. replace (a <? ar_end r) with true by lia.
    cbn. by rewrite Ei, Hz.
Qed.

Lemma contains_in_range r a : ar_contains r a = true → in_range r a = true.
Proof. unfold ar_contains. by destruct (in_range r a). Qed.

Lemma intersects_sound this r a :
  word_bounds r → intersects this r = Ok false → interleaved r = false ∨ ar_size r ≠ 1 →
  ar_contains this a = true → ar_contains r a = true → False.
Proof.
  intros Hw H Hi Ha Hb. destruct Hw as [[] []]. pose proof (contains_in_range _ _ Ha) as Ra. pose proof (contains_in_range _ _ Hb) as Rb.
  unfold intersects in H. unfold in_range in Ra, Rb. zbool.
  replace (ar_end r <=? ar_start this) with false in H by lia. replace (ar_end this <=? ar_start r) with false in H by lia. cbn in H.
  destruct (negb (interleaved this) && negb (interleaved r)); [done|]. destruct (ar_size r =? 1) eqn:Es; zbool.
  - destruct Hi as [Hi|]; [|done]. apply negb_false_iff, bool_decide_eq_true in Hi.
    unfold ar_size in Es. rewrite Hi, wrapU_id in Es by (split; lia). cbn [length Z.of_nat] in Es. rewrite Z.shiftr_0_r in Es.
    replace a with (ar_start r) in Ha by lia. congruence.
  - destruct (mergesWith this r) eqn:Em; [|done]. apply mergesWith_iff in Em as (_ & _ & Em). injection H as H. zbool.
    unfold ar_contains in Ha, Hb. rewrite Em in Hb. destruct (in_range this a), (in_range r a); try done. zbool. lia.
Qed.

(** A range that passes the test is a subset: every address of it is in the
    other range, interleaved or not. Ranges for which the intersection is
    denied share no address, except that an interleaved range of size 1 is
    taken to hold its start address. *)
Theorem range_tests_sound this r :
  word_bounds this → word_bounds r → few_masks r →
  (isSubset this r = Ok true → ∀ a, ar_contains this a = true → ar_contains r a = true) ∧
  (intersects this r = Ok false → interleaved r = false ∨ ar_size r ≠ 1 →
   ∀ a, ar_contains this a = true → ar_contains r a = true → False).
Proof.
  intros Hw Hr [_ Hm]. split; intros H.
  - intros a Ha%contains_in_range. apply (isSubset_sound this); [done..|]. destruct (interleaved r) eqn:Ei; [by right|left].
    apply negb_false_iff, bool_decide_eq_true in Ei. rewrite Ei in Hm. destruct Hm. cbn in *. lia.
  - intros Hi a. by apply intersects_sound.
Qed.

Lemma range_tests_sound_witness :
  isSubset (plain 0x2240 0x2280) (mkAddrRange 0x1000 0x9000 [0x1040; 0x2080] 3) = Ok true ∧
  ∀ a, ar_contains (plain 0x2240 0x2280) a = true → ar_contains (mkAddrRange 0x1000 0x9000 [0x1040; 0x2080] 3) a = true.
Proof.
  split; [vm_compute; reflexivity|].
  apply (range_tests_sound (plain 0x2240 0x2280) (mkAddrRange 0x1000 0x9000 [0x1040; 0x2080] 3));
    [repeat split; vm_compute; first [reflexivity | discriminate | lia]..|vm_compute; reflexivity].
Defined.

(** The exception: address 1 is in both ranges. *)
Example intersects_denied :
  intersects (plain 1 2) (mkAddrRange 0 2 [1] 1) = Ok false ∧
  ar_contains (plain 1 2) 1 = true ∧ ar_contains (mkAddrRange 0 2 [1] 1) 1 = true.
Proof. vm_compute. done. Qed.

(** ** Ranges given by bit positions *)

Lemma parity_bit a b : 0 ≤ b < 64 → parity (Z.land a (2 ^ b)) = Z.testbit a b.
Proof.
  intros ?. destruct (Z.testbit a b) eqn:E.
  - rewrite (land_differ a 0 (2 ^ b) b); [done|done|by apply Z.pow2_bits_true; lia|by rewrite E, Z.bits_0|].
    intros i ? ? Hi. by rewrite Z.pow2_bits_false in Hi by lia.
  - rewrite (land_agree a 0); [done|]. intros i ? Hi. rewrite Z.pow2_bits_eqb in Hi by lia. zbool. subst. by rewrite E, Z.bits_0.
Qed.

Lemma parity_bits a b c :
  0 ≤ b < 64 → 0 ≤ c < 64 → b ≠ c → parity (Z.land a (Z.lor (2 ^ b) (2 ^ c))) = xorb (Z.testbit a b) (Z.testbit a c).
Proof.
  intros ? ? ?. set (a' := Z.clearbit a c).
  assert (Ha : ∀ i, 0 ≤ i → Z.testbit a' i = Z.testbit a i && negb (c =? i)) by (intros; by apply Z.clearbit_eqb).
  assert (E : parity (Z.land a' (Z.lor (2 ^ b) (2 ^ c))) = Z.testbit a b).
  { rewrite <- (parity_bit a b) by done. apply parity_ext. intros i ?.
    rewrite !Z.land_spec, Z.lor_spec, !Z.pow2_bits_eqb, Ha by lia.
    destruct (c =? i) eqn:?; zbool; [|by rewrite orb_false_r, andb_true_r].
    subst. replace (b =? i) with false by lia. by rewrite !andb_false_r. }
  destruct (Z.testbit a c) eqn:Ec; [rewrite (land_differ a a' _ c), E; [by rewrite xorb_true_r|done|..]|rewrite (land_agree a a'), E; [by rewrite xorb_false_r|]].
  - rewrite Z.lor_spec, (Z.pow2_bits_true c) by lia. apply orb_true_r.
  - by rewrite Ha, Z.eqb_refl, Ec by lia.
  - intros i ? ? _. rewrite Ha by lia. replace (c =? i) with false by lia. by rewrite andb_true_r.
  - intros i ? _. rewrite Ha by lia. case_zbool; [subst; by rewrite Ec|by rewrite andb_true_r].
Qed.

(** The mask made in round [i] of the loop. *)
Definition legacy_mask (h x i : Z) : Z := if x =? 0 then 2 ^ (h - i) else Z.lor (2 ^ (h - i)) (2 ^ (x - i)).
Definition bits_fit (h x i : Z) : Prop := i ≤ h < 64 + i ∧ (x ≠ 0 → i ≤ x < 64 + i).

Lemma byte_bit h i b : inU 8 h → 0 ≤ i < 64 → ULL_shl (u8 (h - i)) = Ok b → i ≤ h < 64 + i ∧ b = 2 ^ (h - i).
Proof.
  intros Hh ? H. destruct Hh. apply ULL_shl_Ok in H as [Hr ->]. destruct (decide (i ≤ h)).
  - rewrite wrapU_id in Hr |- * by (split; lia). split; [lia|done].
  - unfold wrapU in Hr. change (2 ^ 8) with 256 in *.
    replace (h - i) with (h - i + 256 + (-1) * 256) in Hr by lia. rewrite Z_mod_plus_full, Z.mod_small in Hr by lia. lia.
Qed.

(** The loop fills the masks from the highest one down. *)
Lemma legacy_loop_masks h x n i k ms ms' :
  inU 8 h → inU 8 x → 0 ≤ i → n ≤ 64 → i + Z.of_nat k = n → length ms = Z.to_nat n →
  legacy_loop h x n i k ms = Ok ms' →
  length ms' = length ms ∧
  (∀ j, 0 ≤ j < n - i → ms' !! Z.to_nat j = Some (legacy_mask h x (n - 1 - j)) ∧ bits_fit h x (n - 1 - j)) ∧
  (∀ j, n - i ≤ j → ms' !! Z.to_nat j = ms !! Z.to_nat j).
Proof.
  intros Hh Hx. revert i ms. induction k as [|k IH]; intros i ms ? ? Hk Hl H.
  { injection H as <-. split_and!; [done| |done]. intros j ?. lia. }
  cbn [legacy_loop] in H. apply bind_ok in H as (m1 & [Hb1 ->]%byte_bit & H); [|done|lia].
  apply bind_ok in H as (m & Hm & H).
  assert (m = legacy_mask h x i ∧ bits_fit h x i) as [-> Hf].
  { unfold legacy_mask, bits_fit. destruct (x =? 0) eqn:?; zbool; [injection Hm as <-; split; [done|naive_solver]|].
    apply bind_ok in Hm as (m2 & [Hb2 ->]%byte_bit & [= <-]); [done..|lia]. }
  apply IH in H as (El & Hnew & Hold); [|lia..|by rewrite length_insert]. rewrite length_insert in El.
  split_and!; [done| |].
  - intros j ?. destruct (decide (j = n - 1 - i)) as [->|]; [|apply Hnew; lia].
    rewrite Hold by lia. replace (n - 1 - (n - 1 - i)) with i by lia. replace (n - i - 1) with (n - 1 - i) by lia.
    rewrite list_lookup_insert_eq by lia. done.
  - intros j ?. rewrite Hold by lia. apply list_lookup_insert_ne. lia.
Qed.

(** [a[high - n + 1 : high]]. *)
Definition field (a high n : Z) : Z := Z.shiftr a (high - n + 1) mod 2 ^ n.

Lemma field_bit a high n j : 0 ≤ j < n → n - 1 ≤ high → Z.testbit (field a high n) j = Z.testbit a (high - (n - 1 - j)).
Proof. intros. unfold field. rewrite Z.mod_pow2_bits_low, Z.shiftr_spec by lia. f_equal. lia. Qed.

Lemma field_range a high n : 0 ≤ n → inU n (field a high n).
Proof. intros. apply Z.mod_pos_bound, pow2_pos. done. Qed.

Lemma lxor_fields a high xor n :
  0 ≤ n → inU n (Z.lxor (field a high n) (if xor =? 0 then 0 else field a xor n)).
Proof.
  intros ?. assert (H0 : inU n (if xor =? 0 then 0 else field a xor n)).
  { destruct (xor =? 0); [split; [lia|by apply pow2_pos]|by apply field_range]. }
  pose proof (field_range a high n) as H1. apply inU_bits; [done|apply Z.lxor_nonneg; unfold inU in *; lia|].
  intros j ?. rewrite Z.lxor_spec, !(inU_testbit_high n) by auto. done.
Qed.

(** A range given by the positions of its interleaving and hashing bits holds
    an address when the two fields of the address, combined by exclusive or,
    are the match value. *)
Theorem legacy_contains start end_ high xor n match_ r a :
  inU 8 high → inU 8 xor → 0 ≤ n ≤ 8 → 0 ≤ match_ → (n = 0 → match_ = 0) →
  AddrRange_legacy start end_ high xor n match_ = Ok r →
  ar_contains r a = true ↔
  start ≤ a < end_ ∧ Z.lxor (field a high n) (if xor =? 0 then 0 else field a xor n) = match_.
Proof.
  intros Hh Hx Hn Hm0 Hz H. unfold AddrRange_legacy in H.
  apply bind_ok in H as (bad & Hbad & H). apply bind_ok in H as (u & Hb%panic_if_ok & H). subst bad.
  apply bind_ok in H as (u' & Hf%panic_if_ok & H). apply bind_ok in H as (ms & Hl & [= <-]).
  assert (match_ < 2 ^ n).
  { destruct (n =? 0) eqn:?; zbool; [subst; naive_solver lia|]. apply bind_ok in Hbad as (s & [Hs ->]%ULL_shl_Ok & [= Hlt]). zbool. done. }
  apply legacy_loop_masks in Hl as (El & Hms & _); [|done|done|lia..|apply length_replicate]. rewrite length_replicate in El.
  rewrite contains_iff by (split; cbn; rewrite El, ?Z2Nat.id by lia; [lia|done]).
  unfold in_range. cbn. rewrite andb_true_iff, Z.leb_le, Z.ltb_lt.
  assert (Hpar : ∀ j, 0 ≤ j < n → parity (Z.land a (legacy_mask high xor (n - 1 - j))) =
    Z.testbit (Z.lxor (field a high n) (if xor =? 0 then 0 else field a xor n)) j).
  { intros j Hj. destruct (Hms j ltac:(lia)) as [_ [? Hxb]]. destruct (Hms 0 ltac:(lia)) as [_ [? Hx0]].
    unfold legacy_mask. rewrite Z.lxor_spec, field_bit by lia. destruct (xor =? 0) eqn:Ex; zbool.
    - rewrite Z.bits_0, xorb_false_r. apply parity_bit. lia.
    - rewrite field_bit by lia. replace (n =? 0) with false in Hf by lia. cbn in Hf.
      destruct (xor =? high) eqn:?; zbool; [done|]. apply parity_bits; lia. }
  split; intros [? Hall]; (split; [done|]).
  - apply Z.bits_inj'. intros j ?. destruct (decide (j < n)).
    + rewrite <- Hpar by lia. destruct (Hms j ltac:(lia)) as [Ej _]. rewrite (Hall _ _ Ej). f_equal. lia.
    + rewrite !(inU_testbit_high n) by (done || lia || apply lxor_fields; lia). done.
  - intros j m Ej. subst match_. pose proof (lookup_lt_Some _ _ _ Ej). rewrite El in *.
    destruct (Hms (Z.of_nat j) ltac:(lia)) as [Ej' _]. rewrite Nat2Z.id in Ej'. simplify_eq. apply Hpar. lia.
Qed.

Lemma legacy_contains_witness :
  AddrRange_legacy 0x1000 0x9000 7 13 2 3 = Ok (mkAddrRange 0x1000 0x9000 [0x1040; 0x2080] 3) ∧
  (ar_contains (mkAddrRange 0x1000 0x9000 [0x1040; 0x2080] 3) 0x2240 = true ↔
   0x1000 ≤ 0x2240 < 0x9000 ∧ Z.lxor (field 0x2240 7 2) (field 0x2240 13 2) = 3).
Proof.
  split; [reflexivity|].
  apply (legacy_contains 0x1000 0x9000 7 13 2 3); [split; reflexivity || discriminate..|lia|lia|lia|reflexivity].
Defined.

(** ** Back from a flat address *)

(** One round of [add_loop] makes room above bit [p]. *)
Lemma add_step x p :
  inU 64 x → 0 ≤ p ≤ 64 →
  ∃ y, insertBits (u64 (Z.shiftl x 1)) (p - 1) 0 x = Ok y ∧ inU 64 y ∧
    ∀ n, 0 ≤ n < 64 → Z.testbit y n = Z.testbit x (if n <? p then n else n - 1).
Proof.
  intros Hx ?. destruct (insertBits_spec (u64 (Z.shiftl x 1)) (p - 1) 0 x) as (y & E & Hy & Hb);
    [apply wrapU_range; lia|lia..|].
  exists y. split_and!; [done..|]. intros n ?. rewrite Hb, testbit_wrapU, Z.shiftl_spec, Z.sub_0_r by lia.
  replace (0 <=? n) with true by lia. replace (n <? 64) with true by lia.
  destruct (n <? p) eqn:?; zbool; [by replace (n <=? p - 1) with true by lia|by replace (n <=? p - 1) with false by lia].
Qed.

(** The first round, with its special case for bit 0. *)
Lemma add_first x l :
  inU 64 x → 0 ≤ l < 64 →
  ∃ y, (if 0 <? l then insertBits (u64 (Z.shiftl x 1)) (l + 0 - 1) 0 x else Ok (u64 (Z.shiftl x 1))) = Ok y ∧ inU 64 y ∧
    ∀ n, 0 ≤ n < 64 → Z.testbit y n = Z.testbit x (if n <? l then n else n - 1).
Proof.
  intros Hx ?. rewrite Z.add_0_r. destruct (0 <? l) eqn:?; zbool; [apply add_step; (done || lia)|].
  exists (u64 (Z.shiftl x 1)). split_and!; [done|apply wrapU_range; lia|]. intros n ?.
  rewrite testbit_wrapU, Z.shiftl_spec by lia. replace (n <? 64) with true by lia. by replace (n <? l) with false by lia.
Qed.

(** With one or two masks the first loop puts every other bit back. *)
Lemma add_loop_restores ls x a :
  (length ls ≤ 2)%nat → positions 0 ls → inU 64 x → (∀ n, 0 ≤ n → Z.testbit x n = Z.testbit a (kept 0 ls n)) →
  ∃ y, add_loop 0 ls x = Ok y ∧ inU 64 y ∧ ∀ n, 0 ≤ n < 64 → n ∉ ls → Z.testbit y n = Z.testbit a n.
Proof.
  intros Hlen Hp Hx Hb. destruct ls as [|l0 ls]; [exists x; split_and!; [done..|intros; apply Hb; lia]|].
  apply positions_cons in Hp as (H0 & Hp & Hl). cbn [add_loop].
  destruct (add_first x l0 Hx ltac:(lia)) as (y & -> & Hy & Hyb). cbn [mbind outcome_bind].
  destruct ls as [|l1 ls]; [exists y; split_and!; [done..|]|].
  - intros n ? Hn%not_elem_of_cons. destruct Hn. rewrite Hyb by lia. destruct (n <? l0) eqn:E; zbool; rewrite Hb by lia; cbn.
    + by replace (n <? l0 - 0) with true by lia.
    + replace (n - 1 <? l0 - 0) with false by lia. f_equal. lia.
  - destruct ls; [|cbn in Hlen; lia]. apply positions_cons in Hp as (H1 & _ & _). apply Forall_cons in Hl as [? _]. cbn [add_loop].
    replace (0 <? l1) with true by lia. replace (l1 + (0 + 1) - 1) with (l1 + 1 - 1) by lia.
    destruct (add_step y (l1 + 1) Hy ltac:(lia)) as (z & -> & Hz & Hzb). exists z. split_and!; [done..|].
    intros n ? Hn. apply not_elem_of_cons in Hn as [? [? _]%not_elem_of_cons]. rewrite Hzb by lia.
    destruct (n <? l1 + 1) eqn:E; zbool; rewrite Hyb by lia; clear Hyb Hzb;
      match goal with |- context [if ?b then _ else _] => destruct b eqn:E' end; zbool; rewrite Hb by lia; cbn;
      do 2 (match goal with |- context [?p <? ?q] => destruct (Z.ltb_spec p q) end); f_equal; lia.
Qed.

Lemma not_lsb_bits l : 0 ≤ l < 31 → ∃ z, not_lsb l = Ok z ∧ ∀ n, 0 ≤ n < 64 → Z.testbit z n = negb (n =? l).
Proof.
  intros ?. unfold not_lsb. replace (0 <=? l) with true by lia. replace (l <? 32) with true by lia.
  eexists. split; [reflexivity|]. intros n ?. pose proof (shifted_bit l true ltac:(lia)) as E. cbn [Z.b2z] in E. rewrite E.
  rewrite testbit_wrapU, Z.lnot_spec, Z.mul_1_l, Z.pow2_bits_eqb by lia. rewrite Z.eqb_sym.
  by replace (n <? 64) with true by lia.
Qed.

Lemma match_bit mt i : 0 ≤ i < 32 → ∃ b, bit 8 mt i = Ok b ∧ Z.testbit b 0 = Z.testbit mt i.
Proof.
  intros ?. unfold bit, bits. replace (0 <=? i) with true by lia. replace (i <? Z.max 32 8) with true by lia.
  rewrite mask_is_ones by lia. eexists. split; [reflexivity|]. rewrite testbit_wrapU, Z.land_spec, Z.shiftr_spec by lia.
  rewrite Z.ones_spec_low by lia. by rewrite andb_true_r.
Qed.

Lemma popCount_bit0 z : Z.testbit (popCount z) 0 = parity z.
Proof.
  rewrite <- (Z.mod_pow2_bits_low _ 1) by lia. change (2 ^ 1) with 2. rewrite popCount_parity. apply Z.b2z_bit0.
Qed.

(** The lowest bit of a mask, from the parity wanted and the other bits. *)
Lemma lsb_from_parity a m l :
  0 ≤ l < 64 → Z.testbit m l = true → ∀ x z, (∀ n, 0 ≤ n < 64 → Z.testbit z n = negb (n =? l)) →
  (∀ n, 0 ≤ n < 64 → n ≠ l → Z.testbit m n = true → Z.testbit x n = Z.testbit a n) →
  xorb (parity (Z.land a m)) (parity (Z.land (Z.land x m) z)) = Z.testbit a l.
Proof.
  intros ? Hm x z Hz Hx. set (a0 := Z.clearbit a l).
  assert (Ha : ∀ i, 0 ≤ i → Z.testbit a0 i = Z.testbit a i && negb (l =? i)) by (intros; by apply Z.clearbit_eqb).
  assert (parity (Z.land (Z.land x m) z) = parity (Z.land a0 m)) as ->.
  { apply parity_ext. intros i ?. rewrite !Z.land_spec, Hz, Ha, Z.eqb_sym by lia. destruct (l =? i) eqn:?; zbool; cbn.
    - by rewrite !andb_false_r.
    - rewrite !andb_true_r. destruct (Z.testbit m i) eqn:?; [rewrite Hx by (done || lia); done|by rewrite !andb_false_r]. }
  destruct (Z.testbit a l) eqn:E.
  - rewrite (land_differ a a0 m l); [by destruct (parity _)|done|done| |].
    + by rewrite Ha, Z.eqb_refl, E by lia.
    + intros i ? ? _. rewrite Ha by lia. replace (l =? i) with false by lia. by rewrite andb_true_r.
  - rewrite (land_agree a a0); [by destruct (parity _)|]. intros i ? _. rewrite Ha by lia.
    case_zbool; [subst; by rewrite E|by rewrite andb_true_r].
Qed.

(** Masks of which none holds the lowest bit of another. *)
Definition separate (masks : list Z) : Prop :=
  ∀ j j' m m', masks !! j = Some m → masks !! j' = Some m' → j ≠ j' → Z.testbit m (ctz64 m') = false.

(** The second loop sets the lowest bits. *)
Lemma set_loop_restores mt i masks x a :
  0 ≤ i → i + Z.of_nat (length masks) ≤ 32 → inU 64 x → inU 64 a →
  Forall (fun m => (inU 64 m ∧ m ≠ 0) ∧ ctz64 m < 31) masks → separate masks →
  (∀ j m, masks !! j = Some m → parity (Z.land a m) = Z.testbit mt (i + Z.of_nat j)) →
  (∀ n, 0 ≤ n < 64 → n ∉ ctz64 <$> masks → Z.testbit x n = Z.testbit a n) →
  set_loop mt i masks x = Ok a.
Proof.
  intros Hi Hlen Hx Ha. revert i x Hi Hlen Hx. induction masks as [|m masks IH]; intros i x Hi Hlen Hx Hok Hsep Hpar Hsame.
  { cbn. f_equal. apply Z.bits_inj'. intros n ?. destruct (decide (n < 64)); [apply Hsame; [lia|apply not_elem_of_nil]|].
    by rewrite !(inU_testbit_high 64) by (done || lia). }
  apply Forall_cons in Hok as [[[Hm Hm0] Hl] Hok]. destruct (ctz64_spec m Hm Hm0) as (Hr & Hb & _). cbn [set_loop length] in *.
  destruct (match_bit mt i ltac:(lia)) as (b & -> & Eb). destruct (not_lsb_bits (ctz64 m) ltac:(lia)) as (z & -> & Hz).
  cbn [mbind outcome_bind].
  destruct (insertBits_spec x (ctz64 m) (ctz64 m) (Z.lxor b (popCount (Z.land (Z.land x m) z)))) as (y & Ey & Hy & Hyb); [done|lia..|].
  unfold insertBit. rewrite Ey. cbn [mbind outcome_bind]. apply IH; [lia..|done|done| | |].
  - intros j j' m1 m2 H1 H2 ?. apply (Hsep (S j) (S j') m1 m2 H1 H2). lia.
  - intros j m1 Hj. rewrite (Hpar (S j) m1 Hj). f_equal. lia.
  - intros n ? Hn. rewrite Hyb by lia. destruct (decide (n = ctz64 m)) as [->|Hne].
    + replace (ctz64 m <=? ctz64 m) with true by lia. cbn [andb]. rewrite Z.sub_diag, Z.lxor_spec, Eb, popCount_bit0.
      specialize (Hpar 0%nat m eq_refl). rewrite Z.add_0_r in Hpar. rewrite <- Hpar.
      apply (lsb_from_parity a m (ctz64 m)); [lia|done|done|]. intros n' ? ? Hn'. apply Hsame; [lia|].
      rewrite fmap_cons. apply not_elem_of_cons. split; [done|]. intros (m' & -> & [j Hj]%list_elem_of_lookup)%list_elem_of_fmap.
      by rewrite (Hsep 0%nat (S j) m m' eq_refl Hj) in Hn'.
    + destruct (_ && _) eqn:E; [zbool; lia|]. apply Hsame; [lia|]. rewrite fmap_cons. by apply not_elem_of_cons.
Qed.

(** With at most two masks, with lowest bits below bit 31 that are in no other
    mask, adding the interleaving bits to what is left of an address of the
    range gives the address back. *)
Theorem addIntlvBits_restores r a :
  few_masks r → (length (ar_masks r) ≤ 2)%nat →
  Forall (fun m => (inU 64 m ∧ m ≠ 0) ∧ ctz64 m < 31) (ar_masks r) → NoDup (ctz64 <$> ar_masks r) → separate (ar_masks r) →
  inU 64 a → ar_contains r a = true →
  ∃ x, removeIntlvBits r a = Ok x ∧ addIntlvBits r x = Ok a.
Proof.
  intros Hf H2 Hok Hnd Hsep Ha Hc. apply contains_iff in Hc as [_ Hc]; [|done].
  assert (Hp : positions 0 (masks_lsb r)) by (apply masks_lsb_positions; [by apply (Forall_impl _ _ _ Hok); intros ? []|done]).
  destruct (remove_loop_bits 0 (masks_lsb r) a) as (x & E & Hx & Hb); [lia|done..|]. exists x. split; [done|].
  destruct (add_loop_restores (masks_lsb r) x a) as (y & Ey & Hy & Hyb); [by rewrite masks_lsb_length|done..|].
  unfold addIntlvBits. rewrite Ey. cbn [mbind outcome_bind]. apply set_loop_restores; try done; [lia|].
  intros n ? Hn. apply Hyb; [done|]. by rewrite elem_of_masks_lsb.
Qed.

Lemma addIntlvBits_restores_witness :
  ar_contains quarter 0x2100 = true ∧ removeIntlvBits quarter 0x2100 = Ok 0x840 ∧
  ∃ x, removeIntlvBits quarter 0x2100 = Ok x ∧ addIntlvBits quarter x = Ok 0x2100.
Proof.
  split; [reflexivity|]. split; [reflexivity|].
  apply (addIntlvBits_restores quarter 0x2100); cbn; try reflexivity.
  - split; [cbn; lia|split; reflexivity || discriminate].
  - repeat constructor; reflexivity || discriminate.
  - by apply (bool_decide_unpack (NoDup [6; 7])).
  - intros [|[|j]] [|[|j']] m m' [= <-] [= <-] ?; reflexivity || done.
  - split; reflexivity || discriminate.
Defined.

(** With three masks a bit of the flat address is lost. *)
Definition eighth : AddrRange := mkAddrRange 0 0x10000 [0x100; 0x200; 0x400] 0.
Example addIntlvBits_three :
  ar_contains eighth 0x800 = true ∧ removeIntlvBits eighth 0x800 = Ok 0x100 ∧ addIntlvBits eighth 0x100 = Ok 0.
Proof. vm_compute. done. Qed.
