(* ===== verification/AddrRangeMap.v ===== *)
(** Model of [base/addr_range_map.hh]: a map from address ranges to values that
    is searched for the entry around an address range, with a small cache of
    the entries used last.  Lookups are shown to agree with a search through
    all entries. *)
From stdpp Require Import sorting.
From S2P Require Import Prelude Bitfield AddrRange AddrRangeSpec AddrRangeLaws.

#[local] Open Scope Z_scope.

Section Map.
Context {V : Type} (max_cache_size : nat).
#[local] Abbreviation Entry := (AddrRange * V)%type.

(** [tree] lists the entries of the [std::map] in its order.  An iterator is the
    entry it points to. *)
Record AddrRangeMap := mkMap { tree : list Entry; cache : list Entry }.

Definition Map_new : AddrRangeMap := mkMap [] [].
Definition set_cache (m : AddrRangeMap) (c : list Entry) : AddrRangeMap := mkMap (tree m) c.

(** An iterator is valid while its entry is in the map. *)
Definition valid_it (m : AddrRangeMap) (e : Entry) : bool := existsb (fun x => bool_decide (x.1 = e.1)) (tree m).

(** [addNewEntryToCache(it)]. *)
Definition addNewEntryToCache (m : AddrRangeMap) (it : Entry) : AddrRangeMap :=
  if Nat.eqb max_cache_size 0 then m else
  if Nat.leb max_cache_size (length (cache m)) then set_cache m (it :: take (length (cache m) - 1) (cache m))
  else set_cache m (it :: cache m).

(** The position of the first entry of the cache that satisfies the condition. *)
Fixpoint cache_search (m : AddrRangeMap) (cond : AddrRange → outcome bool) (c : list Entry) : outcome (option nat) :=
  match c with
  | [] => Ok None
  | e :: c =>
      if valid_it m e then
        let* b := cond e.1 in
        if b : bool then Ok (Some 0%nat) else
        let* o := cache_search m cond c in Ok (option_map S o)
      else Err Undefined
  end.

(** [tree.upper_bound(r)], as a position. *)
Fixpoint upper_bound (t : list Entry) (r : AddrRange) : nat :=
  match t with
  | [] => 0
  | e :: t => if ar_lt r e.1 then 0%nat else S (upper_bound t r)
  end.

(** The [do] loop, over the entries from [next] back to the first one. *)
Fixpoint walk (cond : AddrRange → outcome bool) (i : Entry) (before : list Entry) : outcome (option Entry) :=
  let* b := cond i.1 in
  if b : bool then Ok (Some i) else
  match before with
  | [] => Ok None
  | next :: before => if mergesWith next.1 i.1 then walk cond next before else Ok None
  end.

(** [find(r, cond)]; [None] is [end()]. *)
Definition find (m : AddrRangeMap) (r : AddrRange) (cond : AddrRange → outcome bool)
    : outcome (option Entry * AddrRangeMap) :=
  let* c := cache_search m cond (cache m) in
  match c with
  | Some i =>
      match cache m !! i with
      | Some it => Ok (Some it, set_cache m (it :: delete i (cache m)))
      | None => Err Undefined
      end
  | None =>
      let k := upper_bound (tree m) r in
      let next := tree m !! k in
      let* b := match next with Some e => cond e.1 | None => Ok false end in
      match next, b with
      | Some e, true => Ok (Some e, addNewEntryToCache m e)
      | _, _ =>
          match reverse (take k (tree m)) with
          | [] => Ok (None, m)
          | i :: before =>
              let* o := walk cond i before in
              Ok (o, match o with Some e => addNewEntryToCache m e | None => m end)
          end
      end
  end.

Definition contains (m : AddrRangeMap) (r : AddrRange) : outcome (option Entry * AddrRangeMap) :=
  find m r (fun r1 => isSubset r r1).
Definition contains_addr (m : AddrRangeMap) (a : Z) : outcome (option Entry * AddrRangeMap) :=
  contains m (RangeSize a 1).
Definition map_intersects (m : AddrRangeMap) (r : AddrRange) : outcome (option Entry * AddrRangeMap) :=
  find m r (fun r1 => intersects r r1).

(** [tree.insert]: the entry at the key, and the tree. *)
Fixpoint tree_insert (r : AddrRange) (d : V) (t : list Entry) : Entry * list Entry :=
  match t with
  | [] => ((r, d), [(r, d)])
  | e :: t =>
      if ar_lt r e.1 then ((r, d), (r, d) :: e :: t)
      else if ar_lt e.1 r then let (it, t) := tree_insert r d t in (it, e :: t)
      else (e, e :: t)
  end.
Definition insert (m : AddrRangeMap) (r : AddrRange) (d : V) : outcome (option Entry * AddrRangeMap) :=
  let* (o, m) := map_intersects m r in
  match o with
  | Some _ => Ok (None, m)
  | None => let (it, t) := tree_insert r d (tree m) in Ok (Some it, mkMap t (cache m))
  end.

Definition remove_key (r : AddrRange) : list Entry → list Entry := filter (fun x => x.1 ≠ r).
(** [erase(p)]. *)
Definition erase (m : AddrRangeMap) (p : AddrRange) : AddrRangeMap :=
  mkMap (remove_key p (tree m)) (remove_key p (cache m)).
(** [erase(p, q)] for the entries from position [i] up to [j]: the loop takes [p]
    out of the cache each time. *)
Definition erase_range (m : AddrRangeMap) (i j : nat) : AddrRangeMap :=
  match tree m !! i with
  | Some p =>
      mkMap (take i (tree m) ++ drop j (tree m)) (if Nat.ltb i j then remove_key p.1 (cache m) else cache m)
  | None => m
  end.
Definition clear (m : AddrRangeMap) : AddrRangeMap := Map_new.
Definition map_size (m : AddrRangeMap) : Z := Z.of_nat (length (tree m)).
Definition map_empty (m : AddrRangeMap) : bool := bool_decide (length (tree m) = 0%nat).

(** ** The order of the keys *)

Lemma ar_lt_iff a b :
  ar_lt a b = true ↔ ar_start a < ar_start b ∨ ar_start a = ar_start b ∧ ar_intlvMatch a < ar_intlvMatch b.
Proof. unfold ar_lt. destruct (ar_start a =? ar_start b) eqn:E; cbn [negb]; zbool; rewrite Z.ltb_lt; lia. Qed.
Lemma ar_ge_iff a b :
  ar_lt a b = false ↔ ar_start b < ar_start a ∨ ar_start a = ar_start b ∧ ar_intlvMatch b ≤ ar_intlvMatch a.
Proof. pose proof (ar_lt_iff a b). destruct (ar_lt a b); split; intros; try done; [|lia]; intuition lia. Qed.

Definition lt_entry (e e' : Entry) : Prop := ar_lt e.1 e'.1 = true.

(** Two entries of a map that differ are apart, or they are stripes of the same
    interleaved range. *)
Definition apart (a b : AddrRange) : Prop := ar_end a ≤ ar_start b ∨ ar_end b ≤ ar_start a.
Definition mates (a b : AddrRange) : Prop :=
  ar_start a = ar_start b ∧ ar_end a = ar_end b ∧ ar_masks a = ar_masks b ∧ ar_masks a ≠ [] ∧
  ar_intlvMatch a ≠ ar_intlvMatch b.
Definition compatible (a b : AddrRange) : Prop := apart a b ∨ mates a b.

(** A range a map may hold: not empty, of more than one byte, since the test of
    intersection takes a range of size 1 for an address, and with a granularity
    the code can compute. *)
Record range_ok (r : AddrRange) : Prop := {
  ro_bounds : word_bounds r;
  ro_nonempty : ar_start r < ar_end r;
  ro_size : ar_size r ≠ 1;
  ro_masks : ar_masks r = [] → ar_intlvMatch r = 0;
  ro_gran : ∃ g, granularity r = Ok g;
}.

Record map_ok (m : AddrRangeMap) : Prop := {
  mo_sorted : StronglySorted lt_entry (tree m);
  mo_ranges : Forall (fun e => range_ok e.1) (tree m);
  mo_compat : ∀ e e', e ∈ tree m → e' ∈ tree m → e ≠ e' → compatible e.1 e'.1;
  mo_cache : cache m ⊆ tree m;
  mo_small : (length (cache m) ≤ max_cache_size)%nat;
}.

Lemma elem_take_lookup {A} (l : list A) k x : x ∈ take k l ↔ ∃ j, (j < k)%nat ∧ l !! j = Some x.
Proof.
  rewrite list_elem_of_lookup. split.
  - intros [j Hj]. apply lookup_take_Some in Hj as []. by exists j.
  - intros (j & ? & Hj). exists j. by rewrite lookup_take_lt.
Qed.

Lemma sorted_lookup {A} (R : relation A) l i j x y :
  StronglySorted R l → l !! i = Some x → l !! j = Some y → (i < j)%nat → R x y.
Proof.
  intros H. revert i j. induction H as [|a l Hl IH Hall]; intros i j Hi Hj ?; [done|].
  destruct j as [|j]; [lia|]. cbn in Hj. destruct i as [|i]; cbn in Hi; [|by apply (IH i j); [..|lia]].
  simplify_eq. rewrite Forall_forall in Hall. by apply Hall, list_elem_of_lookup_2 with j.
Qed.

Lemma upper_bound_spec t r : StronglySorted lt_entry t →
  (∀ j e, t !! j = Some e → (j < upper_bound t r)%nat ↔ ar_lt r e.1 = false).
Proof.
  induction 1 as [|e t Ht IH Hall]; intros j x Hj; [done|]. cbn [upper_bound].
  destruct (ar_lt r e.1) eqn:E.
  - split; [lia|]. intros Hx. exfalso. destruct j as [|j]; cbn in Hj; simplify_eq; [congruence|].
    apply list_elem_of_lookup_2 in Hj. rewrite Forall_forall in Hall. specialize (Hall x Hj).
    unfold lt_entry in Hall. apply ar_lt_iff in E, Hall. apply ar_ge_iff in Hx. lia.
  - destruct j as [|j]; cbn in Hj; simplify_eq; [split; [done|lia]|]. rewrite <- (IH j x Hj). lia.
Qed.

(** ** What a search finds *)

Lemma walk_found cond i before e : walk cond i before = Ok (Some e) → e ∈ i :: before ∧ cond e.1 = Ok true.
Proof.
  revert i. induction before as [|n before IH]; intros i H; cbn [walk] in H; apply bind_ok in H as ([] & Hc & H);
    simplify_eq; [set_solver..|]. destruct (mergesWith _ _); [|done]. apply IH in H as []. set_solver.
Qed.

(** The walk goes on through the stripes of a range. *)
Lemma walk_none cond i before : walk cond i before = Ok None →
  ∀ j e, (i :: before) !! j = Some e →
    (∀ j' a b, (j' < j)%nat → (i :: before) !! j' = Some a → (i :: before) !! S j' = Some b → mergesWith b.1 a.1 = true) →
    cond e.1 = Ok false.
Proof.
  revert i. induction before as [|n before IH]; intros i H j e Hj Hm; cbn [walk] in H;
    apply bind_ok in H as ([] & Hc & H); simplify_eq.
  - destruct j as [|j]; cbn in Hj; simplify_eq; done.
  - destruct j as [|j]; [cbn in Hj; by simplify_eq|].
    rewrite (Hm 0%nat i n) in H by (done || lia). apply (IH n H j e); [done|].
    intros j' a b ? Ha Hb. apply (Hm (S j') a b); [lia|done|done].
Qed.

Lemma lookup_rev_take {A} (t : list A) k j : (k ≤ length t)%nat → (j < k)%nat → reverse (take k t) !! j = t !! (k - 1 - j)%nat.
Proof.
  intros ? ?. rewrite reverse_lookup by (rewrite length_take; lia). rewrite length_take, lookup_take_lt by lia.
  f_equal. lia.
Qed.

Lemma upper_bound_le t r : (upper_bound t r ≤ length t)%nat.
Proof. induction t as [|e t IH]; [done|]. cbn [upper_bound length]. destruct (ar_lt r e.1); lia. Qed.

Lemma cache_search_hit m cond c i : cache_search m cond c = Ok (Some i) → ∃ e, c !! i = Some e ∧ cond e.1 = Ok true.
Proof.
  revert i. induction c as [|e c IH]; intros i H; [done|]. cbn [cache_search] in H. destruct (valid_it m e); [|done].
  apply bind_ok in H as ([] & Hc & H); simplify_eq; [by exists e|]. apply bind_ok in H as ([j|] & Hj & [= <-]).
  by apply IH in Hj.
Qed.
Lemma cache_search_total m cond c :
  c ⊆ tree m → (∀ e, e ∈ tree m → ∃ b, cond e.1 = Ok b) → ∃ o, cache_search m cond c = Ok o.
Proof.
  intros Hc Hcond. induction c as [|e c IH]; [by eexists|]. cbn [cache_search].
  assert (e ∈ tree m) as He by set_solver.
  assert (valid_it m e = true) as ->.
  { unfold valid_it. apply existsb_exists. exists e. rewrite <- list_elem_of_In. by rewrite bool_decide_eq_true. }
  destruct (Hcond e He) as [b ->]. cbn [mbind outcome_bind]. destruct b; [by eexists|].
  destruct IH as [o ->]; [set_solver|]. by eexists.
Qed.

Lemma set_cache_ok m c : map_ok m → c ⊆ tree m → (length c ≤ max_cache_size)%nat → map_ok (set_cache m c).
Proof. intros [] ? ?. by split. Qed.
Lemma addNewEntryToCache_ok m e : map_ok m → e ∈ tree m →
  map_ok (addNewEntryToCache m e) ∧ tree (addNewEntryToCache m e) = tree m.
Proof.
  intros Hm He. pose proof (mo_cache m Hm). unfold addNewEntryToCache. destruct (Nat.eqb_spec max_cache_size 0); [done|].
  destruct (Nat.leb_spec max_cache_size (length (cache m))); (split; [|done]); apply set_cache_ok; try done.
  - intros x Hx. apply elem_of_cons in Hx as [->|Hx%elem_take_lookup]; [done|]. destruct Hx as (j & _ & Hj%list_elem_of_lookup_2). auto.
  - cbn [length]. rewrite length_take. pose proof (mo_small m Hm). lia.
  - set_solver.
Qed.

Lemma find_found m r cond e m' : map_ok m → find m r cond = Ok (Some e, m') →
  e ∈ tree m ∧ cond e.1 = Ok true ∧ tree m' = tree m ∧ map_ok m'.
Proof.
  intros Hm H. unfold find in H. apply bind_ok in H as ([i|] & Hc & H).
  - apply cache_search_hit in Hc as (x & Hx & Hcond). rewrite Hx in H. injection H as -> <-.
    pose proof (list_elem_of_lookup_2 _ _ _ Hx). pose proof (mo_cache m Hm) as Hsub. pose proof (mo_small m Hm).
    pose proof (lookup_lt_Some _ _ _ Hx). split; [auto|]. split; [done|]. split; [done|]. apply set_cache_ok; [done| |].
    + intros y Hy. apply elem_of_cons in Hy as [->|Hy]; [auto|]. by apply Hsub, (list_elem_of_delete_inv _ i).
    + cbn [length]. rewrite length_delete by (by eexists). lia.
  - apply bind_ok in H as (b & Hb & H). set (k := upper_bound (tree m) r) in *.
    destruct (tree m !! k) as [n|] eqn:En; [destruct b|].
    { injection H as -> <-. pose proof (list_elem_of_lookup_2 _ _ _ En). destruct (addNewEntryToCache_ok m e Hm) as [? ->]; [done|].
      split; [done|]. split; [|split]; done. }
    all: destruct (reverse (take k (tree m))) as [|x before] eqn:Er; [done|];
      apply bind_ok in H as (o & Ho & [= -> <-]); apply walk_found in Ho as [Hin Hcond];
      rewrite <- Er, elem_of_reverse in Hin; apply elem_take_lookup in Hin as (j & _ & Hin%list_elem_of_lookup_2);
      destruct (addNewEntryToCache_ok m e Hm Hin) as [? ->]; done.
Qed.

Lemma between_mates m r i j e x : map_ok m →
  tree m !! i = Some e → tree m !! j = Some x → (i < j)%nat → ar_lt r x.1 = false → ar_start r < ar_end e.1 → mates e.1 x.1.
Proof.
  intros Hm He Hx Hij Hr Hend. pose proof (list_elem_of_lookup_2 _ _ _ He). pose proof (list_elem_of_lookup_2 _ _ _ Hx) as Hxin.
  pose proof (sorted_lookup _ _ _ _ _ _ (mo_sorted m Hm) He Hx Hij) as Hlt. unfold lt_entry in Hlt.
  assert (e ≠ x) by (intros ->; apply ar_lt_iff in Hlt; lia).
  destruct (mo_compat m Hm e x) as [Ha|]; [done..| |done]. exfalso.
  pose proof (mo_ranges m Hm) as Hall. rewrite Forall_forall in Hall. pose proof (ro_nonempty _ (Hall x Hxin)).
  apply ar_lt_iff in Hlt. apply ar_ge_iff in Hr. unfold apart in Ha. lia.
Qed.

(** A search that finds nothing has looked at the first entry after the range, and
    at every entry that starts before it and reaches into it. *)
Lemma find_none m r cond m' : map_ok m → find m r cond = Ok (None, m') →
  m' = m ∧ (∀ e, tree m !! upper_bound (tree m) r = Some e → cond e.1 = Ok false) ∧
  ∀ e, e ∈ tree m → ar_lt r e.1 = false → ar_start r < ar_end e.1 → cond e.1 = Ok false.
Proof.
  intros Hm H. unfold find in H. apply bind_ok in H as ([i|] & Hc & H).
  { destruct (cache m !! i); simplify_eq. }
  set (k := upper_bound (tree m) r) in *. pose proof (upper_bound_le (tree m) r) as Hk. fold k in Hk.
  apply bind_ok in H as (b & Hb & H).
  assert (Hnext : ∀ e, tree m !! k = Some e → cond e.1 = Ok false).
  { intros e He. rewrite He in H, Hb. destruct b; [done|]. done. }
  assert (Hw : ∀ i before, reverse (take k (tree m)) = i :: before → walk cond i before = Ok None ∧ m' = m).
  { intros i before Er. rewrite Er in H. destruct (tree m !! k); [destruct b; [done|]|];
      by apply bind_ok in H as (o & Ho & [= -> <-]). }
  split; [|split; [done|]].
  { destruct (reverse (take k (tree m))) eqn:Er; [|by edestruct Hw].
    destruct (tree m !! k); [destruct b; [done|]|]; by injection H. }
  intros e He Hr Hend. apply list_elem_of_lookup in He as [j Hj].
  pose proof Hr as Hjk. rewrite <- (upper_bound_spec _ _ (mo_sorted m Hm) j e Hj) in Hjk. fold k in Hjk.
  destruct (reverse (take k (tree m))) as [|i before] eqn:Er.
  { apply (f_equal length) in Er. rewrite length_reverse, length_take in Er. cbn in Er. lia. }
  destruct (Hw i before eq_refl) as [Hn _].
  assert (Hl : ∀ q, (q < k)%nat → (i :: before) !! q = tree m !! (k - 1 - q)%nat).
  { intros q ?. rewrite <- Er. by apply lookup_rev_take. }
  apply (walk_none cond i before Hn (k - 1 - j)).
  { rewrite Hl by lia. rewrite <- Hj. f_equal. lia. }
  intros q a x Hq Ha Hx. rewrite Hl in Ha, Hx by lia.
  assert (Hm2 : ∀ q y, (j ≤ q < k)%nat → tree m !! q = Some y →
    ar_start y.1 = ar_start e.1 ∧ ar_end y.1 = ar_end e.1 ∧ ar_masks y.1 = ar_masks e.1).
  { intros q' y Hq' Hy. destruct (decide (q' = j)) as [->|]; [by simplify_eq|].
    destruct (between_mates m r j q' e y Hm Hj Hy) as (? & ? & ? & _); [lia| |done|done].
    rewrite <- (upper_bound_spec _ _ (mo_sorted m Hm) q' y Hy). fold k. lia. }
  apply mergesWith_iff. destruct (Hm2 (k - 1 - q)%nat a) as (-> & -> & ->); [lia|done|].
  destruct (Hm2 (k - 1 - S q)%nat x) as (-> & -> & ->); [lia|done|]. done.
Qed.

Lemma walk_total cond i before :
  (∀ e, e ∈ i :: before → ∃ b, cond e.1 = Ok b) → ∃ o, walk cond i before = Ok o.
Proof.
  revert i. induction before as [|n before IH]; intros i H; cbn [walk]; destruct (H i) as [[] ->]; try set_solver;
    cbn [mbind outcome_bind]; [by eexists..|]. destruct (mergesWith _ _); [|by eexists]. apply IH. set_solver.
Qed.
Lemma find_total m r cond : map_ok m → (∀ e, e ∈ tree m → ∃ b, cond e.1 = Ok b) → ∃ o, find m r cond = Ok o.
Proof.
  intros Hm Hc. unfold find. destruct (cache_search_total m cond (cache m)) as [o Ho]; [apply (mo_cache m Hm)|done|].
  rewrite Ho. cbn [mbind outcome_bind]. destruct o as [i|].
  { apply cache_search_hit in Ho as (e & -> & _). by eexists. }
  set (k := upper_bound (tree m) r).
  assert (∃ b, match tree m !! k with Some e => cond e.1 | None => Ok false end = Ok b) as [b ->].
  { destruct (tree m !! k) eqn:E; [|by eexists]. by apply Hc, list_elem_of_lookup_2 with k. }
  cbn [mbind outcome_bind].
  assert (∃ o, match reverse (take k (tree m)) with
     | [] => Ok (None, m)
     | i :: before => let* o := walk cond i before in Ok (o, match o with Some e => addNewEntryToCache m e | None => m end)
     end = Ok o) as [o Hw].
  { destruct (reverse (take k (tree m))) as [|i before] eqn:Er; [by eexists|].
    destruct (walk_total cond i before) as [o ->]; [|by eexists]. intros e He. apply Hc.
    rewrite <- Er, elem_of_reverse in He. apply elem_take_lookup in He as (j & _ & He%list_elem_of_lookup_2). done. }
  destruct (tree m !! k); [destruct b|]; [by eexists|rewrite Hw; by eexists..].
Qed.

(** ** Lookup *)

(** What a packet asks for: the plain range of its addresses. *)
Record query_ok (r : AddrRange) : Prop := {
  qo_bounds : word_bounds r;
  qo_nonempty : ar_start r < ar_end r;
  qo_plain : ar_masks r = [];
}.

Lemma interleaved_iff r : interleaved r = true ↔ ar_masks r ≠ [].
Proof. unfold interleaved. rewrite negb_true_iff, bool_decide_eq_false. done. Qed.
Lemma interleaved_not r : interleaved r = false ↔ ar_masks r = [].
Proof. unfold interleaved. rewrite negb_false_iff, bool_decide_eq_true. done. Qed.

Lemma isSubset_total r e : query_ok r → range_ok e → ∃ b, isSubset r e = Ok b.
Proof.
  intros Hr He. unfold isSubset. rewrite (proj2 (interleaved_not r)) by apply Hr. cbn [mbind outcome_bind panic_if].
  destruct (interleaved e); [|by eexists]. destruct (_ && _); [|by eexists].
  destruct (ro_gran e He) as [g ->]. by eexists.
Qed.
Lemma isSubset_start r e : query_ok r → range_ok e → isSubset r e = Ok true → ar_contains e (ar_start r) = true.
Proof.
  intros Hr He H. apply (isSubset_sound r); [apply Hr|done| |].
  - unfold in_range. pose proof (qo_nonempty r Hr). apply andb_true_iff. lia.
  - destruct (interleaved e) eqn:E; [by right|left]. apply (ro_masks e He). by apply interleaved_not.
Qed.

(** An address is in one range of a map at most. *)
Lemma compatible_disjoint a b x : compatible a b → ar_contains a x = true → ar_contains b x = true → False.
Proof.
  intros [H|(_ & _ & Em & _ & Hm)] Ha Hb.
  - apply contains_in_range in Ha, Hb. unfold in_range, apart in *. zbool. lia.
  - unfold ar_contains in *. rewrite Em in Ha. destruct (in_range a x), (in_range b x); try done. zbool. lia.
Qed.

Lemma entry_ok m e : map_ok m → e ∈ tree m → range_ok e.1.
Proof. intros Hm He. pose proof (mo_ranges m Hm) as H. rewrite Forall_forall in H. by apply H. Qed.

Lemma entry_unique m e e' x : map_ok m → e ∈ tree m → e' ∈ tree m →
  ar_contains e.1 x = true → ar_contains e'.1 x = true → e = e'.
Proof.
  intros Hm He He' Ha Hb. destruct (decide (e.1 = e'.1)) as [E|Hne].
  - apply list_elem_of_lookup in He as [i Hi]. apply list_elem_of_lookup in He' as [j Hj].
    destruct (Nat.lt_trichotomy i j) as [Hij|[->|Hij]]; [|by simplify_eq|];
      [pose proof (sorted_lookup _ _ _ _ _ _ (mo_sorted m Hm) Hi Hj Hij) as H|
       pose proof (sorted_lookup _ _ _ _ _ _ (mo_sorted m Hm) Hj Hi Hij) as H];
      unfold lt_entry in H; rewrite E in H; apply ar_lt_iff in H; lia.
  - exfalso. apply (compatible_disjoint e.1 e'.1 x); [|done..]. apply (mo_compat m Hm); [done..|congruence].
Qed.

(** The entry that holds a range is found, unless it is a stripe other than the
    first that starts where the range starts. *)
Lemma contains_spec m r : map_ok m → query_ok r →
  ∃ o m', contains m r = Ok (o, m') ∧ tree m' = tree m ∧ map_ok m' ∧
    match o with
    | Some e => e ∈ tree m ∧ isSubset r e.1 = Ok true ∧ ∀ e', e' ∈ tree m → isSubset r e'.1 = Ok true → e' = e
    | None => ∀ e, e ∈ tree m → isSubset r e.1 = Ok true → ar_lt r e.1 = true
    end.
Proof.
  intros Hm Hr. unfold contains. destruct (find_total m r (fun r1 => isSubset r r1) Hm) as [[o m'] Ho].
  { intros e He. apply isSubset_total; [done|]. by apply (entry_ok m). }
  exists o, m'. split; [done|]. destruct o as [e|].
  - apply find_found in Ho as (He & Hs & Ht & Hm'); [|done]. split_and!; try done.
    intros e' He' Hs'. apply (entry_unique m e' e (ar_start r)); try done;
      (apply isSubset_start; [done| |done]); by apply (entry_ok m).
  - apply find_none in Ho as (-> & _ & Hn); [|done]. split_and!; try done. intros e He Hs.
    destruct (ar_lt r e.1) eqn:E; [done|]. rewrite Hn in Hs; [done..|].
    pose proof (isSubset_start _ _ Hr (entry_ok m e Hm He) Hs) as Hc%contains_in_range. unfold in_range in Hc. zbool. lia.
Qed.

(** ** Insertion *)

(** Ranges whose overlap the code can decide, and whether they do overlap. *)
Definition comparable (r e : AddrRange) : Prop :=
  apart r e ∨ (ar_masks r = [] ∧ ar_masks e = []) ∨ mergesWith r e = true.
Definition clash (r e : AddrRange) : bool :=
  negb ((ar_end e <=? ar_start r) || (ar_end r <=? ar_start e)) &&
  (negb (interleaved r) && negb (interleaved e) || (ar_intlvMatch r =? ar_intlvMatch e)).

Lemma intersects_clash r e : comparable r e → range_ok e → intersects r e = Ok (clash r e).
Proof.
  intros Hc He. unfold intersects, clash. destruct (_ || _) eqn:E; cbn [negb andb]; [done|].
  destruct (negb (interleaved r) && negb (interleaved e)) eqn:Ei; cbn [orb]; [done|].
  rewrite (proj2 (Z.eqb_neq _ _)) by apply He. destruct (mergesWith r e) eqn:Em; [done|]. exfalso.
  apply orb_false_iff in E as []. destruct Hc as [[]|[[Hr Hm]|?]]; [zbool; lia..| |congruence].
  apply interleaved_not in Hr, Hm. by rewrite Hr, Hm in Ei.
Qed.

Lemma no_clash_compatible r e : comparable r e → clash r e = false → compatible r e.
Proof.
  unfold clash. intros Hc H. apply andb_false_iff in H as [H|H].
  - left. apply negb_false_iff, orb_true_iff in H as []; zbool; [by right|by left].
  - apply orb_false_iff in H as [Hi Hm]. zbool. destruct Hc as [|[[Hr He]|Hg]]; [by left| |].
    { apply interleaved_not in Hr, He. by rewrite Hr, He in Hi. }
    right. apply mergesWith_iff in Hg as (? & ? & Em). split_and!; [congruence..| |done].
    intros E. rewrite E in Em. apply interleaved_not in E, Em. by rewrite E, Em in Hi.
Qed.
Lemma clash_overlaps r e : clash r e = true → ar_start r < ar_end e ∧ ar_start e < ar_end r.
Proof. unfold clash. intros H. apply andb_true_iff in H as [H _]. apply negb_true_iff, orb_false_iff in H as []. zbool. lia. Qed.
Lemma compatible_sym a b : compatible a b → compatible b a.
Proof. intros [[]|(? & ? & ? & ? & ?)]; [left; by right|left; by left|]. right. split_and!; congruence. Qed.
Lemma compatible_overlap a b : compatible a b → ar_start a < ar_end b → ar_start b < ar_end a → mates a b.
Proof. intros [[]|]; [lia..|done]. Qed.

Lemma compatible_no_clash r e : compatible r e → clash r e = false.
Proof.
  unfold clash. intros [[H|H]|(? & ? & ? & Hi%interleaved_iff & Hne)].
  - rewrite (proj2 (Z.leb_le _ _) H), orb_true_r. done.
  - by rewrite (proj2 (Z.leb_le _ _) H).
  - rewrite Hi, (proj2 (Z.eqb_neq _ _) Hne). apply andb_false_r.
Qed.
Lemma intersects_false r e : range_ok e → intersects r e = Ok false → compatible r e.
Proof.
  unfold intersects. intros He H. destruct (_ || _) eqn:E in H.
  { left. apply orb_true_iff in E as []; zbool; [by right|by left]. }
  destruct (negb (interleaved r) && negb (interleaved e)) eqn:Ei; [done|].
  rewrite (proj2 (Z.eqb_neq _ _)) in H by apply He. destruct (mergesWith r e) eqn:Em; [|done]. injection H as H. zbool.
  apply mergesWith_iff in Em as (? & ? & Em). right. split_and!; [congruence..| |done].
  intros Er. rewrite Er in Em. apply interleaved_not in Er, Em. by rewrite Er, Em in Ei.
Qed.

(** A search for an intersection that finds none has seen enough. *)
Lemma intersects_none m r m' : map_ok m → range_ok r → map_intersects m r = Ok (None, m') →
  m' = m ∧ ∀ e, e ∈ tree m → compatible r e.1.
Proof.
  intros Hm Hr H. apply find_none in H as (-> & Hnext & Hbefore); [|done]. split; [done|].
  intros e He. pose proof (entry_ok m e Hm He) as Heo. pose proof (ro_nonempty _ Hr). pose proof (ro_nonempty _ Heo).
  destruct (decide (ar_end e.1 ≤ ar_start r)) as [|Hd1]; [by left; right|].
  destruct (decide (ar_end r ≤ ar_start e.1)) as [|Hd2]; [by left; left|].
  destruct (ar_lt r e.1) eqn:E; [|apply intersects_false; [done|by apply Hbefore; [..|lia]]].
  apply list_elem_of_lookup in He as [j Hj]. set (k := upper_bound (tree m) r) in *.
  assert (k ≤ j)%nat as Hkj.
  { apply Nat.nlt_ge. intros Hlt. apply (upper_bound_spec _ _ (mo_sorted m Hm) j e Hj) in Hlt. congruence. }
  destruct (lookup_lt_is_Some_2 (tree m) k) as [n Hn]; [apply lookup_lt_Some in Hj; lia|].
  pose proof (list_elem_of_lookup_2 _ _ _ Hn) as Hnin. pose proof (entry_ok m n Hm Hnin) as Hno.
  pose proof (intersects_false r n.1 Hno (Hnext n Hn)) as Hco. destruct (decide (k = j)) as [->|]; [by simplify_eq|].
  assert (ar_lt r n.1 = true) as Hrn%ar_lt_iff.
  { destruct (ar_lt r n.1) eqn:E'; [done|]. apply (upper_bound_spec _ _ (mo_sorted m Hm) k n Hn) in E'. unfold k in E'. lia. }
  pose proof (sorted_lookup _ _ _ _ _ _ (mo_sorted m Hm) Hn Hj ltac:(lia)) as Hlt. unfold lt_entry in Hlt.
  pose proof (ro_nonempty _ Hno). apply ar_lt_iff in Hlt as Hlt'.
  destruct (compatible_overlap r n.1 Hco ltac:(lia) ltac:(lia)) as (S1 & S2 & S3 & S4 & S5).
  assert (mates n.1 e.1) as (S6 & S7 & S8 & _).
  { apply compatible_overlap; [|lia..]. apply (mo_compat m Hm); [done|by eapply list_elem_of_lookup_2|].
    intros ->. lia. }
  right. split_and!; [congruence..|lia].
Qed.

Lemma intersects_found m r e m' : map_ok m → (∀ e, e ∈ tree m → comparable r e.1) →
  map_intersects m r = Ok (Some e, m') → e ∈ tree m ∧ clash r e.1 = true ∧ tree m' = tree m ∧ map_ok m'.
Proof.
  intros Hm Hc H. apply find_found in H as (He & Hi & ? & ?); [|done]. split_and!; try done.
  rewrite intersects_clash in Hi; [by injection Hi|by apply Hc|by apply (entry_ok m)].
Qed.

Lemma tree_insert_spec r d t : StronglySorted lt_entry t → (∀ e, e ∈ t → ar_lt r e.1 = true ∨ ar_lt e.1 r = true) →
  ∃ t', tree_insert r d t = ((r, d), t') ∧ t' ≡ₚ (r, d) :: t ∧ StronglySorted lt_entry t'.
Proof.
  induction 1 as [|e t Ht IH Hall]; intros Hk; cbn [tree_insert]; [by eexists; split; [|split; [|repeat constructor]]|].
  destruct (ar_lt r e.1) eqn:E1.
  { eexists. split; [done|]. split; [done|]. constructor; [by constructor|]. constructor; [done|].
    eapply Forall_impl; [done|]. intros x Hx. unfold lt_entry in *. cbn [fst]. apply ar_lt_iff. apply ar_lt_iff in E1, Hx. lia. }
  destruct (Hk e) as [|E2]; [set_solver|congruence|]. rewrite E2.
  destruct IH as (t' & -> & Hp & Hs); [set_solver|]. eexists. split; [done|]. split.
  { rewrite Hp. constructor. }
  constructor; [done|]. apply Forall_forall. intros x Hx. rewrite Hp in Hx. rewrite Forall_forall in Hall.
  apply elem_of_cons in Hx as [->|Hx]; [done|by apply Hall].
Qed.

Lemma insert_new m r d m' o : map_ok m → range_ok r → map_intersects m r = Ok (None, m) →
  (let (it, t) := tree_insert r d (tree m) in Ok (Some it, mkMap t (cache m))) = Ok (o, m') →
  o = Some (r, d) ∧ map_ok m' ∧ tree m' ≡ₚ (r, d) :: tree m.
Proof.
  intros Hm Hr Ho H. apply intersects_none in Ho as [_ Hco]; [|done..].
  destruct (tree_insert_spec r d (tree m) (mo_sorted m Hm)) as (t' & Et & Hp & Hs).
  { intros e He. pose proof (ro_nonempty _ Hr). pose proof (ro_nonempty _ (entry_ok m e Hm He)).
    rewrite !ar_lt_iff. destruct (Hco e He) as [[]|(? & ? & ? & ? & ?)]; lia. }
  rewrite Et in H. injection H as <- <-. split; [done|]. split; [|done].
  destruct Hm as [? Hrs Hcm Hca ?]. split; cbn [tree cache].
  - done.
  - rewrite Hp. by constructor.
  - intros x y Hx Hy Hne. rewrite Hp in Hx, Hy. apply elem_of_cons in Hx as [->|Hx], Hy as [->|Hy]; cbn [fst];
      [done|by apply Hco|by apply compatible_sym, Hco|by apply Hcm].
  - intros x Hx. rewrite Hp. right. by apply Hca.
  - done.
Qed.

(** An insertion that succeeds keeps the map in order, whatever ranges it met. *)
Lemma insert_ok m r d o m' : map_ok m → range_ok r → insert m r d = Ok (o, m') →
  map_ok m' ∧ match o with Some e => e = (r, d) ∧ tree m' ≡ₚ (r, d) :: tree m | None => tree m' = tree m end.
Proof.
  intros Hm Hr H. unfold insert in H. apply bind_ok in H as ([[e|] m1] & Ho & H).
  - injection H as <- <-. apply find_found in Ho as (_ & _ & Ht & Hm1); done.
  - pose proof (intersects_none m r m1 Hm Hr Ho) as [-> _]. by apply insert_new in H as (-> & ? & ?).
Qed.

Lemma map_insert_spec m r d : map_ok m → range_ok r → (∀ e, e ∈ tree m → comparable r e.1) →
  let hit := existsb (fun e => clash r e.1) (tree m) in
  ∃ m', insert m r d = Ok (if hit then None else Some (r, d), m') ∧ map_ok m' ∧
    tree m' ≡ₚ if hit then tree m else (r, d) :: tree m.
Proof.
  intros Hm Hr Hc hit. unfold insert.
  destruct (find_total m r (fun r1 => intersects r r1) Hm) as [[o m'] Ho].
  { intros e He. eexists. apply intersects_clash; [by apply Hc|by apply (entry_ok m)]. }
  fold (map_intersects m r) in Ho. rewrite Ho. cbn [mbind outcome_bind]. destruct o as [e|].
  - apply intersects_found in Ho as (He & Hcl & Ht & Hm'); [|done..].
    assert (hit = true) as ->. { apply existsb_exists. exists e. by rewrite <- list_elem_of_In. }
    exists m'. by rewrite Ht.
  - pose proof (intersects_none m r m' Hm Hr Ho) as [-> Hno].
    assert (hit = false) as ->.
    { apply not_true_is_false. intros Hx. apply existsb_exists in Hx as (e & He%list_elem_of_In & Hx).
      by rewrite compatible_no_clash in Hx by auto. }
    destruct (tree_insert r d (tree m)) as [it t] eqn:Et. eexists.
    destruct (insert_new m r d (mkMap t (cache m)) (Some it) Hm Hr Ho) as ([= ->] & ? & ?); [by rewrite Et|]. done.
Qed.

Lemma StronglySorted_filter_entry (P : Entry → Prop) `{!∀ e, Decision (P e)} t :
  StronglySorted lt_entry t → StronglySorted lt_entry (filter P t).
Proof.
  induction 1 as [|e t Ht IH Hall]; [constructor|]. rewrite filter_cons. case_decide; [|done]. constructor; [done|].
  apply Forall_forall. intros x [_ Hx]%list_elem_of_filter. rewrite Forall_forall in Hall. by apply Hall.
Qed.
Lemma erase_ok m p : map_ok m → map_ok (erase m p).
Proof.
  intros [Hs Hr Hc Hca Hsm]. unfold erase, remove_key. split; cbn [tree cache].
  - by apply StronglySorted_filter_entry.
  - apply Forall_forall. intros x [_ Hx]%list_elem_of_filter. rewrite Forall_forall in Hr. by apply Hr.
  - intros x y [_ Hx]%list_elem_of_filter [_ Hy]%list_elem_of_filter. by apply Hc.
  - intros x [? Hx]%list_elem_of_filter. apply list_elem_of_filter. split; [done|by apply Hca].
  - etrans; [apply length_filter|done].
Qed.
Lemma Map_new_ok : map_ok Map_new.
Proof. split; cbn; [constructor|constructor|set_solver|done|lia]. Qed.

(** ** The map as a list of entries *)

Inductive map_op :=
  | OInsert (r : AddrRange) (d : V)
  | OErase (r : AddrRange)
  | OLookup (r : AddrRange)
  | OClear.

Definition within (r e : AddrRange) : bool := match isSubset r e with Ok b => b | Err _ => false end.
Definition map_spec (l : list Entry) (o : map_op) : option Entry * list Entry :=
  match o with
  | OInsert r d => if existsb (fun e => clash r e.1) l then (None, l) else (Some (r, d), (r, d) :: l)
  | OErase r => (None, remove_key r l)
  | OLookup r => (List.find (fun e => within r e.1) l, l)
  | OClear => (None, [])
  end.
Definition map_impl (m : AddrRangeMap) (o : map_op) : outcome (option Entry * AddrRangeMap) :=
  match o with
  | OInsert r d => insert m r d
  | OErase r => Ok (None, erase m r)
  | OLookup r => contains m r
  | OClear => Ok (None, clear m)
  end.
Fixpoint spec_run (l : list Entry) (os : list map_op) : list (option Entry) * list Entry :=
  match os with
  | [] => ([], l)
  | o :: os => let (x, l) := map_spec l o in let (xs, l) := spec_run l os in (x :: xs, l)
  end.
Fixpoint impl_run (m : AddrRangeMap) (os : list map_op) : outcome (list (option Entry) * AddrRangeMap) :=
  match os with
  | [] => Ok ([], m)
  | o :: os => let* (x, m) := map_impl m o in let* (xs, m) := impl_run m os in Ok (x :: xs, m)
  end.

(** Ranges go in that the code can compare with the ones there, and lookups are of
    plain ranges. *)
Definition op_ok (l : list Entry) (o : map_op) : Prop :=
  match o with
  | OInsert r _ => range_ok r ∧ ∀ e, e ∈ l → comparable r e.1
  | OLookup r => query_ok r
  | OErase _ | OClear => True
  end.
Fixpoint run_ok (l : list Entry) (os : list map_op) : Prop :=
  match os with
  | [] => True
  | o :: os => op_ok l o ∧ run_ok (map_spec l o).2 os
  end.

(** A lookup that starts at the start of an interleaved range, in a stripe that the
    order puts behind it. *)
Definition missable (l : list Entry) (o : map_op) : bool :=
  match o with OLookup r => existsb (fun e => within r e.1 && ar_lt r e.1) l | _ => false end.
(** The answers are those of the list, but such a lookup may find nothing. *)
Fixpoint answers_ok (l : list Entry) (os : list map_op) (xs : list (option Entry)) : Prop :=
  match os, xs with
  | [], [] => True
  | o :: os, x :: xs =>
      (x = (map_spec l o).1 ∨ missable l o = true ∧ x = None) ∧ answers_ok (map_spec l o).2 os xs
  | _, _ => False
  end.
Fixpoint exact_run (l : list Entry) (os : list map_op) : bool :=
  match os with [] => true | o :: os => negb (missable l o) && exact_run (map_spec l o).2 os end.

Lemma within_iff r e : within r e = true ↔ isSubset r e = Ok true.
Proof. unfold within. destruct (isSubset r e); naive_solver. Qed.

Lemma existsb_perm {A} (f : A → bool) l l' : l ≡ₚ l' → existsb f l = existsb f l'.
Proof.
  intros Hp. apply eq_bool_prop_intro. rewrite !Is_true_true, !existsb_exists.
  split; intros (x & Hx & ?); exists x; (split; [|done]); rewrite <- list_elem_of_In in *; by rewrite Hp in *.
Qed.

Lemma map_step m l o : map_ok m → tree m ≡ₚ l → op_ok l o →
  ∃ x m', map_impl m o = Ok (x, m') ∧ (x = (map_spec l o).1 ∨ missable l o = true ∧ x = None) ∧ map_ok m' ∧
    tree m' ≡ₚ (map_spec l o).2.
Proof.
  intros Hm Hp Ho. destruct o as [r d|r|r|]; cbn [map_impl map_spec op_ok] in *.
  - destruct Ho as [Hr Hc]. destruct (map_insert_spec m r d Hm Hr) as (m' & -> & Hm' & Ht).
    { intros e. rewrite Hp. apply Hc. }
    rewrite (existsb_perm _ _ _ Hp) in Ht |- *. eexists _, m'. split_and!; [done|left; by destruct (existsb _ _)|done|].
    rewrite Ht. by destruct (existsb _ _); rewrite Hp.
  - eexists _, _. split_and!; [done|by left|by apply erase_ok|]. cbn. unfold remove_key. by rewrite Hp.
  - destruct (contains_spec m r Hm Ho) as (o & m' & -> & Ht & Hm' & Hres). cbn [fst snd].
    exists o, m'. split_and!; [done| |done|by rewrite Ht].
    assert (Hw : ∀ e, e ∈ l → within r e.1 = true → isSubset r e.1 = Ok true ∧ e ∈ tree m).
    { intros e He Hx. rewrite Hp. split; [by apply within_iff|done]. }
    destruct (List.find _ l) as [e|] eqn:Ef.
    + apply List.find_some in Ef as [He%list_elem_of_In Hwi]. destruct (Hw e He Hwi) as [Hs Hin]. destruct o as [e'|].
      * left. destruct Hres as (_ & _ & Hu). f_equal. symmetry. by apply Hu.
      * right. split; [|done]. apply existsb_exists. exists e. rewrite <- list_elem_of_In. split; [done|].
        by rewrite Hwi, (Hres e Hin Hs).
    + left. destruct o as [e'|]; [|done]. destruct Hres as (He' & Hs & _). rewrite Hp in He'.
      pose proof (List.find_none _ _ Ef e') as Hn. rewrite <- list_elem_of_In in Hn. apply within_iff in Hs.
      rewrite Hn in Hs; done.
  - eexists _, _. split_and!; [done|by left|apply Map_new_ok|done].
Qed.

Lemma map_run os m l : map_ok m → tree m ≡ₚ l → run_ok l os →
  ∃ xs m', impl_run m os = Ok (xs, m') ∧ answers_ok l os xs ∧ tree m' ≡ₚ (spec_run l os).2 ∧ map_ok m'.
Proof.
  revert m l. induction os as [|o os IH]; intros m l Hm Hp Hok; cbn [impl_run spec_run]; [by eexists _, m|].
  destruct Hok as [Ho Hok]. destruct (map_step m l o Hm Hp Ho) as (x & m1 & -> & Hx & Hm1 & Hp1). cbn [mbind outcome_bind answers_ok].
  destruct (map_spec l o) as [y l1]. cbn [fst snd] in *. destruct (IH m1 l1 Hm1 Hp1 Hok) as (xs & m2 & -> & Hxs & Hp2 & Hm2).
  cbn [mbind outcome_bind]. destruct (spec_run l1 os) as [ys l2]. by exists (x :: xs), m2.
Qed.

Lemma exact_answers os l xs : exact_run l os = true → answers_ok l os xs → xs = (spec_run l os).1.
Proof.
  revert l xs. induction os as [|o os IH]; intros l [|x xs] He Ha; try done. cbn [exact_run answers_ok spec_run] in *.
  apply andb_true_iff in He as [Hm%negb_true_iff He]. destruct Ha as [[->|[? _]] Ha]; [|congruence].
  apply IH in Ha; [|done]. destruct (map_spec l o) as [y l1]. cbn [fst snd] in *. destruct (spec_run l1 os). cbn in *. congruence.
Qed.

(** C33: any sequence of insertions (of ranges the code can compare with those in
    the map), removals and lookups on a map gives the answers of a plain list of
    entries, which an insertion compares with every entry and a lookup searches from
    end to end: the order of the tree, the walk over stripes and the cache do not
    show, with one exception: a lookup that starts at the first address of an
    interleaved range and lies in one of its later stripes, as hashed stripes can
    make it, gives the list's answer or finds nothing. *)
Theorem range_map_refines os (Hok : run_ok [] os) :
  ∃ xs m, impl_run Map_new os = Ok (xs, m) ∧ answers_ok [] os xs ∧ (exact_run [] os = true → xs = (spec_run [] os).1) ∧
    tree m ≡ₚ (spec_run [] os).2 ∧ (length (cache m) ≤ max_cache_size)%nat.
Proof.
  destruct (map_run os Map_new [] Map_new_ok) as (xs & m & ? & ? & ? & Hm); [done..|]. exists xs, m.
  split_and!; [done..|by intros; apply exact_answers|done|apply Hm].
Qed.
End Map.

(** ** Examples *)

Definition stripe (i : Z) : AddrRange := mkAddrRange 0x4000 0x8000 [0x1040; 0x2080] i.
Definition map_ops_ex : list (map_op (V := Z)) :=
  [OInsert (plain 0x1000 0x2000) 1; OInsert (stripe 2) 12; OInsert (stripe 0) 10; OInsert (stripe 1) 11;
   OInsert (plain 0x1800 0x3000) 2; OInsert (stripe 3) 13; OLookup (plain 0x50c0 0x50c8); OLookup (plain 0x1ff8 0x2000);
   OLookup (plain 0x1ff8 0x2001); OErase (plain 0x1000 0x2000); OLookup (plain 0x1ff8 0x2000)].

Lemma range_map_refines_witness :
  ∃ m, impl_run 3 Map_new map_ops_ex = Ok ((spec_run [] map_ops_ex).1, m) ∧ tree m ≡ₚ (spec_run [] map_ops_ex).2 ∧
    (length (cache m) ≤ 3)%nat.
Proof.
  destruct (range_map_refines 3 map_ops_ex) as (xs & m & E & _ & Hx & Ht & Hl);
    [|exists m; rewrite Hx in E by (vm_compute; reflexivity); by split_and!].
  assert (Hr : ∀ r, r ∈ [plain 0x1000 0x2000; plain 0x1800 0x3000; stripe 0; stripe 1; stripe 2; stripe 3] → range_ok r).
  { intros r Hr. repeat (apply elem_of_cons in Hr as [->|Hr]); [..|by apply elem_of_nil in Hr];
      (split; [by split; split|done|by vm_compute|done|by eexists; vm_compute]). }
  assert (Hc : ∀ r e : AddrRange, (if decide (apart r e) then true else
    bool_decide (ar_masks r = [] ∧ ar_masks e = []) || mergesWith r e) = true → comparable r e).
  { intros r e H. case_decide; [by left|]. apply orb_true_iff in H as [H|H]; [right; left; by apply bool_decide_eq_true in H|by right; right]. }
  assert (Hq : ∀ a b, 0 ≤ a < b → b < 2 ^ 64 → query_ok (plain a b)).
  { intros a b ? ?. split; [split; split; cbn; lia|cbn; lia|done]. }
  repeat (cbn [run_ok map_ops_ex op_ok map_spec snd]; match goal with
  | |- context [if existsb ?f ?l then _ else _] => let b := eval vm_compute in (existsb f l) in change (existsb f l) with b; cbn [snd fst]
  | |- (_ ∧ _) ∧ _ => split; [split; [apply Hr; set_solver|]|]
  | |- query_ok _ ∧ _ => split; [apply Hq; lia|]
  | |- True ∧ _ => split; [done|]
  | |- ∀ e, e ∈ _ → comparable _ _ =>
      let e := fresh in let H := fresh in intros e H; apply Hc; repeat (apply elem_of_cons in H as [->|H]; [by vm_compute|]); by apply elem_of_nil in H
  | |- True => exact I
  end).
Defined.
Example map_answers_ex :
  (spec_run [] map_ops_ex).1 =
  [Some (plain 0x1000 0x2000, 1); Some (stripe 2, 12); Some (stripe 0, 10); Some (stripe 1, 11); None;
   Some (stripe 3, 13); Some (stripe 2, 12); Some (plain 0x1000 0x2000, 1); None; None; None].
Proof. vm_compute. reflexivity. Qed.

(** With hashed stripes the first address of the range can belong to a later
    stripe; the lookup of that address fails although a stripe holds it. *)
Definition hashed (i : Z) : AddrRange := mkAddrRange 0x2000 0x8000 [0x1040; 0x2080] i.
Example stripe_missed :
  (let* (_, m) := impl_run 3 Map_new ((fun i => OInsert (hashed i) i) <$> [0; 1; 2; 3]) in
   let* (a, _) := contains_addr 3 m 0x2000 in
   let* (b, _) := contains_addr 3 m 0x2001 in Ok (a, b)) = Ok (None, Some (hashed 2, 2)) ∧
  ar_contains (hashed 2) 0x2000 = true.
Proof. split; vm_compute; reflexivity. Qed.

(** Erasing several entries at once leaves the iterators of all but the first in
    the cache, and the next lookup follows one. *)
Example erase_range_dangles :
  (let* (_, m) := impl_run 3 Map_new [OInsert (plain 0 8) 1; OInsert (plain 8 16) 2; OLookup (plain 8 9)] in
   contains_addr 3 (erase_range m 0 2) 8) = Err Undefined.
Proof. vm_compute. reflexivity. Qed.
