(* ===== verification/Instructions.v ===== *)
(** Model of [hwacc/LLVMRead/src/base_instruction.{hh,cc}] and of the class
    hierarchy of [instructions.hh]: the data every instruction carries, the
    data of each class and the constructors.  A [shared_ptr<InstructionBase>]
    is an index into the heap of live instructions (file Scheduler). *)
From stdpp Require Import strings.
From S2P Require Import Prelude CppString CppFloat Registers.
From Stdlib Require String.

#[global] Open Scope Z_scope.

(** ** Class data *)

(** [Terminator]: [_Condition], [_Destination], [_Branches]. *)
Record Terminator := mkTerminator {
  _Condition : option nat;
  _Destination : string;
  _Branches : list string;
}.

(** [Binary] and [Bitwise]; [_Result] is [int64_t] in the former and
    [uint64_t] in the latter. *)
Record Binary := mkBinary {
  _Operands : list nat;
  b_Result : Z;
  b_Flags : Z;
  _ImmFirst : bool;
}.
Record Bitwise := mkBitwise {
  w_Operands : list nat;
  w_Result : Z;
  w_Flags : Z;
  w_ImmFirst : bool;
}.

Record Conversion := mkConversion {
  _OriginalType : string;
  _COperand : option nat;
  c_Result : Z;
}.

Record LoadData := mkLoad { l_Align : Z; l_Pointer : nat }.

Record StoreData := mkStore {
  s_Align : Z;
  s_Imm : Z;
  s_Pointer : nat;
  s_Value : option nat;
  _ImmVal : bool;
}.

Record GepData := mkGep {
  _Pty : string;
  _LLVMType : option LLVMType;
  _Idx : list (option nat);
  _Type : list string;
  _ImmIdx : list Z;
  _PtrVal : nat;
  _ActivePtr : Z;
  _Index : Z;
  g_Global : bool;
}.

Record PhiData := mkPhi {
  _PhiVal : list string;
  _PhiReg : list (option nat);
  _PhiLabel : list string;
  p_Result : Z;
}.

Record SelectData := mkSelect {
  sel_Condition : option nat;
  _RegValues : list (option nat);
  _ImmValues : list Z;
  _Imm : list bool;
  sel_Result : Z;
}.

Record Compare := mkCompare {
  cmp_Operands : list nat;
  cmp_Flags : Z;
  cmp_Result : Z;
}.

(** The concrete classes.  The integer immediates are the [Integer],
    [Unsigned] and [Signed] base classes; the floating point ones are the bit
    patterns of [FloatingPointSP] and [FloatingPointDP]. *)
Inductive InstrClass :=
  | BadInstruction
  | Br (t : Terminator) (_Unconditional : bool)
  | Ret (t : Terminator)
  | LLVMSwitch (t : Terminator) (_CaseValues : list Z)
  | Add (b : Binary) (_Operand : Z)
  | Sub (b : Binary) (_Operand : Z)
  | Mul (b : Binary) (_Operand : Z)
  | UDiv (b : Binary) (_Operand _UOperand : Z)
  | SDiv (b : Binary) (_Operand _SOperand : Z)
  | URem (b : Binary) (_Operand _UOperand : Z)
  | SRem (b : Binary) (_Operand _SOperand : Z)
  | FAdd (b : Binary) (_OperandSP _OperandDP : Z)
  | FSub (b : Binary) (_OperandSP _OperandDP : Z)
  | FMul (b : Binary) (_OperandSP _OperandDP : Z)
  | FDiv (b : Binary) (_OperandSP _OperandDP : Z)
  | FRem (b : Binary) (_OperandSP _OperandDP : Z)
  | Shl (w : Bitwise) (_Operand : Z)
  | LShr (w : Bitwise) (_Operand : Z)
  | AShr (w : Bitwise) (_Operand : Z)
  | And (w : Bitwise) (_Operand : Z)
  | Or (w : Bitwise) (_Operand : Z)
  | Xor (w : Bitwise) (_Operand : Z)
  | Trunc (c : Conversion)
  | ZExt (c : Conversion)
  | SExt (c : Conversion)
  | FPToUI (c : Conversion)
  | FPToSI (c : Conversion)
  | UIToFP (c : Conversion)
  | SIToFP (c : Conversion)
  | FPTrunc (c : Conversion)
  | FPExt (c : Conversion)
  | PtrToInt (c : Conversion)
  | IntToPtr (c : Conversion)
  | BitCast (c : Conversion)
  | AddrSpaceCast (c : Conversion)
  | Load (l : LoadData)
  | Store (s : StoreData)
  | GetElementPtr (g : GepData)
  | Phi (p : PhiData)
  | Select (s : SelectData)
  | ICmp (c : Compare) (_Operand _UOperand _SOperand : Z)
  | FCmp (c : Compare) (_OperandSP _OperandDP : Z).

(** ** InstructionBase *)

(** The members no operation changes after construction. *)
Record InstrStatic := mkStatic {
  _LLVMLine : string;
  _OpCode : string;
  _ReturnType : string;
  _InstructionType : string;
  _ReturnRegister : option nat;
  _MaxCycle : Z;
  _Dependencies : list (option nat);
  _Terminator : bool;
  _FunctionalUnit : Z;
  _RawCheck : option nat;
}.

Record Instruction := mkInstr {
  st : InstrStatic;
  _Req : option nat;
  _Parents : list nat;
  _Children : list nat;
  _ActiveParents : Z;
  _CurrCycle : Z;
  _StageCycle : Z;
  _PrevBB : string;
  _Dest : string;
  _FinalResult : Z;
  _Ops : list Z;
  _Global : bool;
  cls : InstrClass;
}.

Definition set_Req (i : Instruction) (v : option nat) : Instruction :=
  mkInstr (st i) v (_Parents i) (_Children i) (_ActiveParents i) (_CurrCycle i) (_StageCycle i)
    (_PrevBB i) (_Dest i) (_FinalResult i) (_Ops i) (_Global i) (cls i).
Definition set_links (i : Instruction) (ps cs : list nat) (ap : Z) : Instruction :=
  mkInstr (st i) (_Req i) ps cs ap (_CurrCycle i) (_StageCycle i)
    (_PrevBB i) (_Dest i) (_FinalResult i) (_Ops i) (_Global i) (cls i).
Definition set_CurrCycle (i : Instruction) (v : Z) : Instruction :=
  mkInstr (st i) (_Req i) (_Parents i) (_Children i) (_ActiveParents i) v (_StageCycle i)
    (_PrevBB i) (_Dest i) (_FinalResult i) (_Ops i) (_Global i) (cls i).
Definition set_StageCycle (i : Instruction) (v : Z) : Instruction :=
  mkInstr (st i) (_Req i) (_Parents i) (_Children i) (_ActiveParents i) (_CurrCycle i) v
    (_PrevBB i) (_Dest i) (_FinalResult i) (_Ops i) (_Global i) (cls i).
Definition set_PrevBB (i : Instruction) (v : string) : Instruction :=
  mkInstr (st i) (_Req i) (_Parents i) (_Children i) (_ActiveParents i) (_CurrCycle i)
    (_StageCycle i) v (_Dest i) (_FinalResult i) (_Ops i) (_Global i) (cls i).
Definition set_Dest (i : Instruction) (v : string) : Instruction :=
  mkInstr (st i) (_Req i) (_Parents i) (_Children i) (_ActiveParents i) (_CurrCycle i)
    (_StageCycle i) (_PrevBB i) v (_FinalResult i) (_Ops i) (_Global i) (cls i).
Definition set_FinalResult (i : Instruction) (v : Z) : Instruction :=
  mkInstr (st i) (_Req i) (_Parents i) (_Children i) (_ActiveParents i) (_CurrCycle i)
    (_StageCycle i) (_PrevBB i) (_Dest i) v (_Ops i) (_Global i) (cls i).
Definition set_Ops (i : Instruction) (v : list Z) : Instruction :=
  mkInstr (st i) (_Req i) (_Parents i) (_Children i) (_ActiveParents i) (_CurrCycle i)
    (_StageCycle i) (_PrevBB i) (_Dest i) (_FinalResult i) v (_Global i) (cls i).
Definition setGlobal (i : Instruction) (v : bool) : Instruction :=
  mkInstr (st i) (_Req i) (_Parents i) (_Children i) (_ActiveParents i) (_CurrCycle i)
    (_StageCycle i) (_PrevBB i) (_Dest i) (_FinalResult i) (_Ops i) v (cls i).
Definition set_cls (i : Instruction) (v : InstrClass) : Instruction :=
  mkInstr (st i) (_Req i) (_Parents i) (_Children i) (_ActiveParents i) (_CurrCycle i)
    (_StageCycle i) (_PrevBB i) (_Dest i) (_FinalResult i) (_Ops i) (_Global i) v.

(** ** Operations of [base_instruction.cc] on one instruction *)

(** [setResult(&v)]: the low bytes of [_FinalResult], as many as the return
    register has. *)
Definition setResult (rl : RegisterList) (i : Instruction) (v : Z) : outcome Instruction :=
  match _ReturnRegister (st i) with
  | None => Err Undefined
  | Some p =>
      let* r := reg_at rl p in
      if 8 <? _Size r then Err Undefined
      else Ok (set_FinalResult i (memcpy_int (_Size r) (_FinalResult i) v))
  end.

Definition removeParents (i : Instruction) : Instruction :=
  set_links i [] [] (_ActiveParents i).
Definition registerChild (i : Instruction) (child : nat) : Instruction :=
  set_links i (_Parents i) (_Children i ++ [child]) (_ActiveParents i).
(** [_ActiveParents] is an [int]: its overflow is undefined. *)
Definition chk32 (z : Z) : outcome Z :=
  if (- 2 ^ 31 <=? z) && (z <? 2 ^ 31) then Ok z else Err Undefined.
Definition registerParent (i : Instruction) (parent : nat) : outcome Instruction :=
  let* n := chk32 (_ActiveParents i + 1) in
  Ok (set_links i (_Parents i ++ [parent]) (_Children i) n).
Definition decrParents (i : Instruction) : outcome Instruction :=
  let* n := chk32 (_ActiveParents i - 1) in
  Ok (set_links i (_Parents i) (_Children i) n).

(** The loop of [fetchDependency(Register* )] over [_Dependencies]. *)
Fixpoint fetch_loop (deps : list (option nat)) (k : nat) (reg : nat) (rl : RegisterList)
    (ops : list Z) : outcome (RegisterList * list Z) :=
  match deps with
  | [] => Ok (rl, ops)
  | d :: deps =>
      if bool_decide (d = Some reg) then
        let* r := reg_at rl reg in
        let* ops' := vec_set_at ops k (s64 (_Value r)) in
        let rl' := if updated_this_cycle r then rl
                   else reg_set rl reg (reg_update (reg_read r)) in
        fetch_loop deps (S k) reg rl' ops'
      else fetch_loop deps (S k) reg rl ops
  end.

(** [fetchDependency(Register* )]: called by a parent that has committed. *)
Definition fetchDependency (rl : RegisterList) (i : Instruction) (reg : nat)
    : outcome (RegisterList * Instruction) :=
  let* _ := assert_ (Nat.eqb (length (_Ops i)) (length (_Dependencies (st i)))) in
  let* r := (if bool_decide (Some reg = _ReturnRegister (st i)) then Ok (rl, _Ops i)
             else fetch_loop (_Dependencies (st i)) 0 reg rl (_Ops i)) in
  let* i' := decrParents (set_Ops i r.2) in
  Ok (r.1, i').

(** [fetchDependency(int)]: the register value, when no parent is in flight. *)
Definition fetchDependencyIdx (rl : RegisterList) (i : Instruction) (k : nat)
    : outcome Instruction :=
  let* d := vec_at (_Dependencies (st i)) k in
  match d with
  | None => Err Undefined
  | Some p =>
      let* r := reg_at rl p in
      let* ops := vec_set_at (_Ops i) k (s64 (_Value r)) in
      Ok (set_Ops i ops)
  end.

(** [pipelined()]: the cycles of one stage of a three-stage unit.  The
    remainder divides by the quotient, which is 0 for [_MaxCycle < 3]. *)
Definition pipelined (i : Instruction) : outcome Instruction :=
  let q := _MaxCycle (st i) / 3 in
  if q =? 0 then Err Undefined
  else Ok (set_StageCycle i (if _MaxCycle (st i) mod q =? 0 then q else q + 1)).

(** ** Constructors

    The eight arguments every constructor passes on to [InstructionBase]
    (the communication interface, the same object throughout, is left out). *)
Record BaseArgs := mkArgs {
  Line : string;
  OpCode : string;
  ReturnType : string;
  InstructionType : string;
  ReturnRegister : option nat;
  MaxCycle : Z;
  Dependencies : list (option nat);
}.

Section Constructors.
(** The content of the members no constructor sets ([_Result],
    [_FinalResult], [_ActivePtr]). *)
Context (junk : Z).

(** Both constructors of [InstructionBase]; the first passes -1 as the
    functional unit.  [term] and [raw] are [_Terminator] and [_RawCheck], which
    some derived constructors assign. *)
Definition InstructionBase_new (a : BaseArgs) (FunctionalUnit : Z) (term : bool)
    (raw : option nat) (c : InstrClass) : Instruction :=
  {| st := {| _LLVMLine := Line a; _OpCode := OpCode a; _ReturnType := ReturnType a;
              _InstructionType := InstructionType a; _ReturnRegister := ReturnRegister a;
              _MaxCycle := MaxCycle a; _Dependencies := Dependencies a;
              _Terminator := term; _FunctionalUnit := s8 FunctionalUnit; _RawCheck := raw |};
     _Req := None; _Parents := []; _Children := []; _ActiveParents := 0;
     _CurrCycle := 0; _StageCycle := 0; _PrevBB := EmptyString; _Dest := EmptyString;
     _FinalResult := u64 junk; _Ops := replicate (length (Dependencies a)) 0;
     _Global := false; cls := c |}.

(** [Terminator]: its three constructors, unconditional branch, conditional
    branch and return.  [_Condition] is set by the second only. *)
Definition Terminator_dest (Destination : string) : Terminator :=
  mkTerminator None Destination [].
Definition Terminator_cond (Condition : option nat) (Branches : list string) : Terminator :=
  mkTerminator Condition EmptyString Branches.
Definition Terminator_ret : Terminator := mkTerminator None EmptyString [].

Definition BadInstruction_new (a : BaseArgs) : Instruction :=
  InstructionBase_new a (-1) false None BadInstruction.
Definition Br_new (a : BaseArgs) (Destination : string) (Unconditional : bool) : Instruction :=
  InstructionBase_new a (-1) true None (Br (Terminator_dest Destination) Unconditional).
Definition Br_cond_new (a : BaseArgs) (Condition : option nat) (Branches : list string)
    (Unconditional : bool) (FunctionalUnit : Z) : Instruction :=
  InstructionBase_new a FunctionalUnit true None
    (Br (Terminator_cond Condition Branches) Unconditional).
(** [Ret] starts with one active parent, which no instruction stands for. *)
Definition Ret_new (a : BaseArgs) : Instruction :=
  let i := InstructionBase_new a (-1) true None (Ret Terminator_ret) in
  set_links i (_Parents i) (_Children i) (s32 (_ActiveParents i + 1)).
Definition LLVMSwitch_new (a : BaseArgs) (Condition : option nat) (Branches : list string)
    (CaseValues : list Z) (FunctionalUnit : Z) : Instruction :=
  InstructionBase_new a FunctionalUnit true None
    (LLVMSwitch (Terminator_cond Condition Branches) CaseValues).

Definition Binary_new (Operands : list nat) (Flags : Z) (ImmFirst : bool) : Binary :=
  mkBinary Operands (s64 junk) Flags ImmFirst.
Definition Bitwise_new (Operands : list nat) (Flags : Z) (ImmFirst : bool) : Bitwise :=
  mkBitwise Operands (u64 junk) Flags ImmFirst.

Definition Add_new (a : BaseArgs) (RegOps : list nat) (Flags ImmOp : Z) (ImmFirst : bool)
    (FunctionalUnit : Z) : Instruction :=
  InstructionBase_new a FunctionalUnit false None
    (Add (Binary_new RegOps Flags ImmFirst) ImmOp).
Definition Sub_new (a : BaseArgs) (RegOps : list nat) (Flags ImmOp : Z) (ImmFirst : bool)
    (FunctionalUnit : Z) : Instruction :=
  InstructionBase_new a FunctionalUnit false None
    (Sub (Binary_new RegOps Flags ImmFirst) ImmOp).
Definition Mul_new (a : BaseArgs) (RegOps : list nat) (Flags ImmOp : Z) (ImmFirst : bool)
    (FunctionalUnit : Z) : Instruction :=
  InstructionBase_new a FunctionalUnit false None
    (Mul (Binary_new RegOps Flags ImmFirst) ImmOp).
Definition UDiv_new (a : BaseArgs) (RegOps : list nat) (Flags ImmOp : Z) (ImmFirst : bool)
    (FunctionalUnit : Z) : Instruction :=
  InstructionBase_new a FunctionalUnit false None
    (UDiv (Binary_new RegOps Flags ImmFirst) ImmOp (u64 ImmOp)).
Definition SDiv_new (a : BaseArgs) (RegOps : list nat) (Flags ImmOp : Z) (ImmFirst : bool)
    (FunctionalUnit : Z) : Instruction :=
  InstructionBase_new a FunctionalUnit false None
    (SDiv (Binary_new RegOps Flags ImmFirst) ImmOp ImmOp).
Definition URem_new (a : BaseArgs) (RegOps : list nat) (Flags ImmOp : Z) (ImmFirst : bool)
    (FunctionalUnit : Z) : Instruction :=
  InstructionBase_new a FunctionalUnit false None
    (URem (Binary_new RegOps Flags ImmFirst) ImmOp (u64 ImmOp)).
Definition SRem_new (a : BaseArgs) (RegOps : list nat) (Flags ImmOp : Z) (ImmFirst : bool)
    (FunctionalUnit : Z) : Instruction :=
  InstructionBase_new a FunctionalUnit false None
    (SRem (Binary_new RegOps Flags ImmFirst) ImmOp ImmOp).

(** The floating point immediate is a [double]; [FloatingPointSP] keeps it
    rounded to [float].  Both are bit patterns here. *)
Definition FloatingPointSP (ImmOp : Z) : Z :=
  fp_encode float_ (fp_round float_ (fp_decode double_ ImmOp)).

Definition FAdd_new (a : BaseArgs) (RegOps : list nat) (Flags ImmOp : Z) (ImmFirst : bool)
    (FunctionalUnit : Z) : Instruction :=
  InstructionBase_new a FunctionalUnit false None
    (FAdd (Binary_new RegOps Flags ImmFirst) (FloatingPointSP ImmOp) ImmOp).
Definition FSub_new (a : BaseArgs) (RegOps : list nat) (Flags ImmOp : Z) (ImmFirst : bool)
    (FunctionalUnit : Z) : Instruction :=
  InstructionBase_new a FunctionalUnit false None
    (FSub (Binary_new RegOps Flags ImmFirst) (FloatingPointSP ImmOp) ImmOp).
Definition FMul_new (a : BaseArgs) (RegOps : list nat) (Flags ImmOp : Z) (ImmFirst : bool)
    (FunctionalUnit : Z) : Instruction :=
  InstructionBase_new a FunctionalUnit false None
    (FMul (Binary_new RegOps Flags ImmFirst) (FloatingPointSP ImmOp) ImmOp).
Definition FDiv_new (a : BaseArgs) (RegOps : list nat) (Flags ImmOp : Z) (ImmFirst : bool)
    (FunctionalUnit : Z) : Instruction :=
  InstructionBase_new a FunctionalUnit false None
    (FDiv (Binary_new RegOps Flags ImmFirst) (FloatingPointSP ImmOp) ImmOp).
Definition FRem_new (a : BaseArgs) (RegOps : list nat) (Flags ImmOp : Z) (ImmFirst : bool)
    (FunctionalUnit : Z) : Instruction :=
  InstructionBase_new a FunctionalUnit false None
    (FRem (Binary_new RegOps Flags ImmFirst) (FloatingPointSP ImmOp) ImmOp).

Definition Shl_new (a : BaseArgs) (RegOps : list nat) (Flags ImmOp : Z) (ImmFirst : bool)
    (FunctionalUnit : Z) : Instruction :=
  InstructionBase_new a FunctionalUnit false None
    (Shl (Bitwise_new RegOps Flags ImmFirst) ImmOp).
Definition LShr_new (a : BaseArgs) (RegOps : list nat) (Flags ImmOp : Z) (ImmFirst : bool)
    (FunctionalUnit : Z) : Instruction :=
  InstructionBase_new a FunctionalUnit false None
    (LShr (Bitwise_new RegOps Flags ImmFirst) ImmOp).
Definition AShr_new (a : BaseArgs) (RegOps : list nat) (Flags ImmOp : Z) (ImmFirst : bool)
    (FunctionalUnit : Z) : Instruction :=
  InstructionBase_new a FunctionalUnit false None
    (AShr (Bitwise_new RegOps Flags ImmFirst) ImmOp).
Definition And_new (a : BaseArgs) (RegOps : list nat) (Flags ImmOp : Z) (ImmFirst : bool)
    (FunctionalUnit : Z) : Instruction :=
  InstructionBase_new a FunctionalUnit false None
    (And (Bitwise_new RegOps Flags ImmFirst) ImmOp).
Definition Or_new (a : BaseArgs) (RegOps : list nat) (Flags ImmOp : Z) (ImmFirst : bool)
    (FunctionalUnit : Z) : Instruction :=
  InstructionBase_new a FunctionalUnit false None
    (Or (Bitwise_new RegOps Flags ImmFirst) ImmOp).
Definition Xor_new (a : BaseArgs) (RegOps : list nat) (Flags ImmOp : Z) (ImmFirst : bool)
    (FunctionalUnit : Z) : Instruction :=
  InstructionBase_new a FunctionalUnit false None
    (Xor (Bitwise_new RegOps Flags ImmFirst) ImmOp).

Definition Conversion_new (OriginalType : string) (Operand : option nat) : Conversion :=
  mkConversion OriginalType Operand (u64 junk).

Definition Trunc_new (a : BaseArgs) (OriginalType : string) (Operand : option nat)
    (FunctionalUnit : Z) : Instruction :=
  InstructionBase_new a FunctionalUnit false None (Trunc (Conversion_new OriginalType Operand)).
Definition ZExt_new (a : BaseArgs) (OriginalType : string) (Operand : option nat)
    (FunctionalUnit : Z) : Instruction :=
  InstructionBase_new a FunctionalUnit false None (ZExt (Conversion_new OriginalType Operand)).
Definition SExt_new (a : BaseArgs) (OriginalType : string) (Operand : option nat)
    (FunctionalUnit : Z) : Instruction :=
  InstructionBase_new a FunctionalUnit false None (SExt (Conversion_new OriginalType Operand)).
Definition FPToUI_new (a : BaseArgs) (OriginalType : string) (Operand : option nat)
    (FunctionalUnit : Z) : Instruction :=
  InstructionBase_new a FunctionalUnit false None (FPToUI (Conversion_new OriginalType Operand)).
Definition FPToSI_new (a : BaseArgs) (OriginalType : string) (Operand : option nat)
    (FunctionalUnit : Z) : Instruction :=
  InstructionBase_new a FunctionalUnit false None (FPToSI (Conversion_new OriginalType Operand)).
Definition UIToFP_new (a : BaseArgs) (OriginalType : string) (Operand : option nat)
    (FunctionalUnit : Z) : Instruction :=
  InstructionBase_new a FunctionalUnit false None (UIToFP (Conversion_new OriginalType Operand)).
Definition SIToFP_new (a : BaseArgs) (OriginalType : string) (Operand : option nat)
    (FunctionalUnit : Z) : Instruction :=
  InstructionBase_new a FunctionalUnit false None (SIToFP (Conversion_new OriginalType Operand)).
Definition FPTrunc_new (a : BaseArgs) (OriginalType : string) (Operand : option nat)
    (FunctionalUnit : Z) : Instruction :=
  InstructionBase_new a FunctionalUnit false None (FPTrunc (Conversion_new OriginalType Operand)).
Definition FPExt_new (a : BaseArgs) (OriginalType : string) (Operand : option nat)
    (FunctionalUnit : Z) : Instruction :=
  InstructionBase_new a FunctionalUnit false None (FPExt (Conversion_new OriginalType Operand)).
Definition PtrToInt_new (a : BaseArgs) (OriginalType : string) (Operand : option nat)
    (FunctionalUnit : Z) : Instruction :=
  InstructionBase_new a FunctionalUnit false None (PtrToInt (Conversion_new OriginalType Operand)).
Definition IntToPtr_new (a : BaseArgs) (OriginalType : string) (Operand : option nat)
    (FunctionalUnit : Z) : Instruction :=
  InstructionBase_new a FunctionalUnit false None (IntToPtr (Conversion_new OriginalType Operand)).
Definition BitCast_new (a : BaseArgs) (OriginalType : string) (Operand : option nat)
    (FunctionalUnit : Z) : Instruction :=
  InstructionBase_new a FunctionalUnit false None (BitCast (Conversion_new OriginalType Operand)).
Definition AddrSpaceCast_new (a : BaseArgs) (OriginalType : string) (Operand : option nat)
    (FunctionalUnit : Z) : Instruction :=
  InstructionBase_new a FunctionalUnit false None (AddrSpaceCast (Conversion_new OriginalType Operand)).

Definition Load_new (a : BaseArgs) (Align : Z) (Pointer : nat) : Instruction :=
  InstructionBase_new a (-1) false (Some Pointer) (Load (mkLoad Align Pointer)).
Definition Store_new (a : BaseArgs) (Align Imm : Z) (Pointer : nat) (Value : option nat)
    (ImmVal : bool) : Instruction :=
  InstructionBase_new a (-1) false (Some Pointer) (Store (mkStore Align Imm Pointer Value ImmVal)).
Definition GetElementPtr_new (a : BaseArgs) (Pty : string) (LLVMType : option LLVMType)
    (Idx : list (option nat)) (Type_ : list string) (ImmIdx : list Z) (PtrVal : nat) (Index : Z)
    (FunctionalUnit : Z) (Global : bool) : Instruction :=
  InstructionBase_new a FunctionalUnit false None
    (GetElementPtr (mkGep Pty LLVMType Idx Type_ ImmIdx PtrVal (u64 junk) Index Global)).

Definition Phi_new (a : BaseArgs) (PhiVal : list string) (PhiReg : list (option nat))
    (PhiLabel : list string) (FunctionalUnit : Z) : Instruction :=
  InstructionBase_new a FunctionalUnit false None (Phi (mkPhi PhiVal PhiReg PhiLabel (s64 junk))).
(** [_ImmValues] is filled by the loop of the constructor's body. *)
Definition Select_new (a : BaseArgs) (Condition : option nat) (RegValues : list (option nat))
    (ImmValues : list Z) (Imm : list bool) (FunctionalUnit : Z) : Instruction :=
  InstructionBase_new a FunctionalUnit false None
    (Select (mkSelect Condition RegValues (foldl (fun v i => v ++ [i]) [] ImmValues) Imm (s64 junk))).
Definition Compare_new (Operands : list nat) (Flags : Z) : Compare :=
  mkCompare Operands Flags (s64 junk).
Definition ICmp_new (a : BaseArgs) (RegOps : list nat) (Flags ImmOp : Z) (FunctionalUnit : Z)
    : Instruction :=
  InstructionBase_new a FunctionalUnit false None
    (ICmp (Compare_new RegOps Flags) ImmOp (u64 ImmOp) ImmOp).
Definition FCmp_new (a : BaseArgs) (RegOps : list nat) (Flags ImmOp : Z) (FunctionalUnit : Z)
    : Instruction :=
  InstructionBase_new a FunctionalUnit false None
    (FCmp (Compare_new RegOps Flags) (FloatingPointSP ImmOp) ImmOp).
End Constructors.
