(* ===== verification/Compute.v ===== *)
(** Model of [hwacc/LLVMRead/src/instructions.cc]: the [compute()] of every
    instruction class, on the 64-bit operand slots [_Ops] the runtime fills. *)
From stdpp Require Import strings.
From S2P Require Import Prelude CppString CppFloat Macros Registers MemRequest Instructions.
From Stdlib Require Import Ascii Floats.SpecFloat.
From Stdlib Require String.

#[global] Open Scope Z_scope.

(** ** 64-bit arithmetic of the host

    [int64_t] overflow is undefined (the build does not pass -fwrapv), as are
    division by zero and a shift count outside [0, 63].  A left shift of a
    negative value keeps the low 64 bits and a right shift is arithmetic, as
    the supported compilers define them. *)
Definition chk64 (z : Z) : outcome Z :=
  if (- 2 ^ 63 <=? z) && (z <? 2 ^ 63) then Ok z else Err Undefined.

Definition add64 (a b : Z) : outcome Z := chk64 (a + b).
Definition sub64 (a b : Z) : outcome Z := chk64 (a - b).
Definition mul64 (a b : Z) : outcome Z := chk64 (a * b).
Definition sdiv64 (a b : Z) : outcome Z :=
  if b =? 0 then Err Undefined else chk64 (Z.quot a b).
Definition srem64 (a b : Z) : outcome Z :=
  if b =? 0 then Err Undefined
  else let* _ := chk64 (Z.quot a b) in Ok (Z.rem a b).
(** Mixed [uint64_t] and [int64_t] operands divide as unsigned; the quotient
    is stored in an [int64_t]. *)
Definition udiv64 (a b : Z) : outcome Z :=
  if u64 b =? 0 then Err Undefined else Ok (s64 (u64 a / u64 b)).
Definition shl64 (a n : Z) : outcome Z :=
  if (0 <=? n) && (n <? 64) then Ok (s64 (Z.shiftl a n)) else Err Undefined.
Definition shr64 (a n : Z) : outcome Z :=
  if (0 <=? n) && (n <? 64) then Ok (Z.shiftr a n) else Err Undefined.
Definition and64 (a b : Z) : outcome Z := Ok (Z.land a b).
Definition or64 (a b : Z) : outcome Z := Ok (Z.lor a b).
Definition xor64 (a b : Z) : outcome Z := Ok (Z.lxor a b).

(** ** Integer binary and bitwise classes *)

(** [_Ops.at(k) = (T) _Ops.at(k)]. *)
Definition cast_op (cast : Z → Z) (ops : list Z) (k : nat) : outcome (list Z) :=
  let* o := vec_at ops k in vec_set_at ops k (cast o).

(** The block every integer [compute()] starts with: for [i32] the operands
    are cast in place. *)
Definition cast_ops (cast : Z → Z) (rt : string) (nregs : nat) (ops : list Z)
    : outcome (list Z) :=
  if String.eqb rt "i32" then
    let* ops := cast_op cast ops 0 in
    if Nat.eqb nregs 1 then Ok ops else cast_op cast ops 1
  else Ok ops.

(** The three ways the operands are combined: immediate first, immediate
    second, two registers. *)
Definition combine (fi fr ff : Z → Z → outcome Z) (nregs : nat) (immfirst : bool)
    (immi immr : Z) (ops : list Z) : outcome Z :=
  let* o0 := vec_at ops 0 in
  if Nat.eqb nregs 1 then
    (if immfirst then fi immi o0 else fr o0 immr)
  else let* o1 := vec_at ops 1 in ff o0 o1.

Definition set_bResult (b : Binary) (v : Z) : Binary :=
  mkBinary (_Operands b) v (b_Flags b) (_ImmFirst b).
Definition set_wResult (w : Bitwise) (v : Z) : Bitwise :=
  mkBitwise (w_Operands w) v (w_Flags w) (w_ImmFirst w).

(** Cast, combine, [setResult(&_Result)]. *)
Definition binary_compute (cast : Z → Z) (fi fr ff : Z → Z → outcome Z) (mk : Binary → InstrClass)
    (rl : RegisterList) (i : Instruction) (b : Binary) (immi immr : Z) : outcome Instruction :=
  let n := length (_Operands b) in
  let* ops := cast_ops cast (_ReturnType (st i)) n (_Ops i) in
  let* r := combine fi fr ff n (_ImmFirst b) immi immr ops in
  setResult rl (set_cls (set_Ops i ops) (mk (set_bResult b r))) r.

Definition bitwise_compute (f : Z → Z → outcome Z) (mk : Bitwise → InstrClass)
    (rl : RegisterList) (i : Instruction) (w : Bitwise) (imm : Z) : outcome Instruction :=
  let n := length (w_Operands w) in
  let* ops := cast_ops s32 (_ReturnType (st i)) n (_Ops i) in
  let* r := combine f f f n (w_ImmFirst w) imm imm ops in
  setResult rl (set_cls (set_Ops i ops) (mk (set_wResult w (u64 r)))) (u64 r).

Definition Add_compute rl i b imm :=
  binary_compute s32 add64 add64 add64 (fun b => Add b imm) rl i b imm imm.
Definition Sub_compute rl i b imm :=
  binary_compute s32 sub64 sub64 sub64 (fun b => Sub b imm) rl i b imm imm.
Definition Mul_compute rl i b imm :=
  binary_compute s32 mul64 mul64 mul64 (fun b => Mul b imm) rl i b imm imm.
(** [_UOperand] makes the immediate forms unsigned; two registers divide as
    [int64_t]. *)
Definition UDiv_compute rl i b imm uimm :=
  binary_compute u32 udiv64 udiv64 sdiv64 (fun b => UDiv b imm uimm) rl i b uimm uimm.
Definition SDiv_compute rl i b imm simm :=
  binary_compute s32 sdiv64 sdiv64 sdiv64 (fun b => SDiv b imm simm) rl i b imm imm.
(** [URem] uses the signed [_Operand], not [_UOperand]. *)
Definition URem_compute rl i b imm uimm :=
  binary_compute u32 srem64 srem64 srem64 (fun b => URem b imm uimm) rl i b imm imm.
Definition SRem_compute rl i b imm simm :=
  binary_compute s32 srem64 srem64 srem64 (fun b => SRem b imm simm) rl i b imm imm.

Definition Shl_compute rl i w imm := bitwise_compute shl64 (fun w => Shl w imm) rl i w imm.
Definition LShr_compute rl i w imm := bitwise_compute shr64 (fun w => LShr w imm) rl i w imm.
Definition AShr_compute rl i w imm := bitwise_compute shr64 (fun w => AShr w imm) rl i w imm.
Definition And_compute rl i w imm := bitwise_compute and64 (fun w => And w imm) rl i w imm.
Definition Or_compute rl i w imm := bitwise_compute or64 (fun w => Or w imm) rl i w imm.
Definition Xor_compute rl i w imm := bitwise_compute xor64 (fun w => Xor w imm) rl i w imm.

(** ** Floating point binary classes *)

(** [find(t) == 0]. *)
Definition starts_with (s t : string) : bool := str_find s t =? 0.

(** The operands are read as bit patterns ([double], or the low half as
    [float]) and widened to [double]; the single precision result is rounded
    back. *)
Definition fp_operand (dbl : bool) (o : Z) : spec_float :=
  if dbl then fp_decode double_ (u64 o)
  else fp_round double_ (fp_decode float_ (u32 o)).
Definition fp_result (dbl : bool) (x : spec_float) : Z :=
  if dbl then fp_encode double_ x else fp_encode float_ (fp_round float_ x).

(** [setResult(&result)] copies from an 8-byte [double], or from a 4-byte
    [float]: a wider return register would read past it. *)
Definition setResultF (dbl : bool) (rl : RegisterList) (i : Instruction) (v : Z)
    : outcome Instruction :=
  match _ReturnRegister (st i) with
  | None => Err Undefined
  | Some p =>
      let* r := reg_at rl p in
      if (if dbl then 8 else 4) <? _Size r then Err Undefined else setResult rl i v
  end.

Definition float_compute (o : fp_op) (rl : RegisterList) (i : Instruction) (b : Binary)
    (immSP immDP : Z) : outcome Instruction :=
  let dbl := starts_with (_ReturnType (st i)) "double" in
  let imm := fp_operand dbl (if dbl then immDP else immSP) in
  let* o0 := vec_at (_Ops i) 0 in
  let op1 := fp_operand dbl o0 in
  let* r :=
    (if Nat.eqb (length (_Operands b)) 1 then
       Ok (if _ImmFirst b then fp_apply double_ o imm op1 else fp_apply double_ o op1 imm)
     else
       let* o1 := vec_at (_Ops i) 1 in
       Ok (fp_apply double_ o op1 (fp_operand dbl o1))) in
  setResultF dbl rl i (fp_result dbl r).

Definition FAdd_compute rl i b immSP immDP := float_compute FpAdd rl i b immSP immDP.
Definition FSub_compute rl i b immSP immDP := float_compute FpSub rl i b immSP immDP.
Definition FMul_compute rl i b immSP immDP := float_compute FpMul rl i b immSP immDP.
Definition FDiv_compute rl i b immSP immDP := float_compute FpDiv rl i b immSP immDP.

(** ** Conversions *)

Definition set_cResult (c : Conversion) (v : Z) : Conversion :=
  mkConversion (_OriginalType c) (_COperand c) v.

Definition bool_int (b : bool) : Z := if b then 1 else 0.

(** [0xffffffff & op], [0xffff & op], ...: the mask of the type named by
    [_OriginalType]; any other name leaves [_Result] as it was. *)
Definition trunc_value (t : string) (o old : Z) : Z :=
  if String.eqb t "i32" then u64 (Z.land 0xffffffff o)
  else if String.eqb t "i16" then u64 (Z.land 0xffff o)
  else if String.eqb t "i8" then u64 (Z.land 0xff o)
  else if String.eqb t "i1" then bool_int (negb (o =? 0))
  else old.
(** The chain of unsigned casts of [ZExt] and [FPToUI]. *)
Definition zext_value (t : string) (o old : Z) : Z :=
  if String.eqb t "i64" then u64 o
  else if String.eqb t "i32" then u32 o
  else if String.eqb t "i16" then u16 o
  else if String.eqb t "i8" then u8 o
  else if String.eqb t "i1" then bool_int (negb (o =? 0))
  else old.
(** The chain of signed casts of [SExt] and [FPToSI], stored in a
    [uint64_t]. *)
Definition sext_value (t : string) (o old : Z) : Z :=
  if String.eqb t "i64" then u64 (s64 o)
  else if String.eqb t "i32" then u64 (s32 o)
  else if String.eqb t "i16" then u64 (s16 o)
  else if String.eqb t "i8" then u64 (s8 o)
  else if String.eqb t "i1" then bool_int (negb (o =? 0))
  else old.

(** The operand slot is read by the branch taken, when one is. *)
Definition conv_types : list string := ["i64"; "i32"; "i16"; "i8"; "i1"].
Definition int_conv (f : string → Z → Z → Z) (types : list string) (mk : Conversion → InstrClass)
    (rl : RegisterList) (i : Instruction) (c : Conversion) : outcome Instruction :=
  let* v := (if bool_decide (_OriginalType c ∈ types)
             then let* o := vec_at (_Ops i) 0 in Ok (f (_OriginalType c) o (c_Result c))
             else Ok (c_Result c)) in
  setResult rl (set_cls i (mk (set_cResult c v))) v.

Definition Trunc_compute rl i c := int_conv trunc_value ["i32"; "i16"; "i8"; "i1"] Trunc rl i c.
Definition ZExt_compute rl i c := int_conv zext_value conv_types ZExt rl i c.
Definition SExt_compute rl i c := int_conv sext_value conv_types SExt rl i c.
(** The operand is an integer slot: no floating point conversion happens. *)
Definition FPToUI_compute rl i c := int_conv zext_value conv_types FPToUI rl i c.
Definition FPToSI_compute rl i c := int_conv sext_value conv_types FPToSI rl i c.

(** [_Result = (double) _Ops.at(0)] with [_Result] a [uint64_t]: the value goes
    to floating point and is truncated back. *)
Definition fp_conv (dbl flt : bool) (mk : Conversion → InstrClass)
    (rl : RegisterList) (i : Instruction) (c : Conversion) : outcome Instruction :=
  let* v :=
    (if dbl && String.eqb (_OriginalType c) "double" then
       let* o := vec_at (_Ops i) 0 in fp_to_u64 (fp_of_int double_ o)
     else if flt && String.eqb (_OriginalType c) "float" then
       let* o := vec_at (_Ops i) 0 in fp_to_u64 (fp_of_int float_ o)
     else Ok (c_Result c)) in
  setResult rl (set_cls i (mk (set_cResult c v))) v.
Definition UIToFP_compute rl i c := fp_conv true true UIToFP rl i c.
Definition SIToFP_compute rl i c := fp_conv true true SIToFP rl i c.
Definition FPTrunc_compute rl i c := fp_conv false true FPTrunc rl i c.
Definition FPExt_compute rl i c := fp_conv true false FPExt rl i c.

(** ** Comparisons *)

Definition set_cmpResult (c : Compare) (v : Z) : Compare :=
  mkCompare (cmp_Operands c) (cmp_Flags c) v.

(** The predicates whose test reads the operand slots. *)
Definition icmp_flags : list Z := [EQ; NE; UGT; UGE; ULT; ULE; SGT; SGE; SLT; SLE].
Definition fcmp_flags : list Z :=
  [OEQ; OGT; OGE; OLT; OLE; ONE; ORD; UEQ; UGT; UGE; ULT; ULE; UNE; UNO].

(** The chains of [ICmp::compute]: [so] is the second operand of the signed
    tests and of the equalities, [uo] of the unsigned ones. *)
Definition icmp_chain (flags o eo uo so old : Z) : Z :=
  if has_flag flags EQ then bool_int (o =? eo)
  else if has_flag flags NE then bool_int (negb (o =? eo))
  else if has_flag flags UGT then bool_int (uo <? u64 o)
  else if has_flag flags UGE then bool_int (uo <=? u64 o)
  else if has_flag flags ULT then bool_int (u64 o <? uo)
  else if has_flag flags ULE then bool_int (u64 o <=? uo)
  else if has_flag flags SGT then bool_int (so <? o)
  else if has_flag flags SGE then bool_int (so <=? o)
  else if has_flag flags SLT then bool_int (o <? so)
  else if has_flag flags SLE then bool_int (o <=? so)
  else old.

Definition ICmp_compute (rl : RegisterList) (i : Instruction) (c : Compare) (imm uimm simm : Z)
    : outcome Instruction :=
  let* ops := cast_ops s32 (_ReturnType (st i)) (length (cmp_Operands c)) (_Ops i) in
  let* r :=
    (if negb (existsb (has_flag (cmp_Flags c)) icmp_flags) then Ok (cmp_Result c) else
     let* o0 := vec_at ops 0 in
     if Nat.eqb (length ops) 1 then Ok (icmp_chain (cmp_Flags c) o0 imm uimm simm (cmp_Result c))
     else let* o1 := vec_at ops 1 in
          Ok (icmp_chain (cmp_Flags c) o0 o1 (u64 o1) o1 (cmp_Result c))) in
  setResult rl (set_cls (set_Ops i ops) (ICmp (set_cmpResult c r) imm uimm simm)) r.

(** The chain of [FCmp::compute], over whatever comparison its operand types
    select. *)
Definition fcmp_chain (flags : Z) (eq lt le gt ge both : bool) (old : Z) : Z :=
  if has_flag flags CONDFALSE then 0
  else if has_flag flags OEQ then bool_int eq
  else if has_flag flags OGT then bool_int gt
  else if has_flag flags OGE then bool_int ge
  else if has_flag flags OLT then bool_int lt
  else if has_flag flags OLE then bool_int le
  else if has_flag flags ONE then bool_int (negb eq)
  else if has_flag flags ORD then bool_int both
  else if has_flag flags UEQ then bool_int eq
  else if has_flag flags UGT then bool_int gt
  else if has_flag flags UGE then bool_int ge
  else if has_flag flags ULT then bool_int lt
  else if has_flag flags ULE then bool_int le
  else if has_flag flags UNE then bool_int (negb eq)
  else if has_flag flags UNO then bool_int both
  else if has_flag flags CONDTRUE then 1
  else old.

(** An immediate: the integer slot is converted to [double] and compared with
    [_OperandDP].  Two registers: the integer slots are compared. *)
Definition FCmp_compute (rl : RegisterList) (i : Instruction) (c : Compare) (immSP immDP : Z)
    : outcome Instruction :=
  let* r :=
    (if has_flag (cmp_Flags c) CONDFALSE || negb (existsb (has_flag (cmp_Flags c)) fcmp_flags)
     then Ok (fcmp_chain (cmp_Flags c) false false false false false false (cmp_Result c)) else
     let* o0 := vec_at (_Ops i) 0 in
     if Nat.eqb (length (_Ops i)) 1 then
       let a := fp_of_int double_ o0 in
       let b := fp_decode double_ immDP in
       Ok (fcmp_chain (cmp_Flags c) (fp_eq a b) (fp_lt a b) (fp_le a b) (fp_lt b a) (fp_le b a)
             (negb (o0 =? 0) && fp_nonzero b) (cmp_Result c))
     else
       let* o1 := vec_at (_Ops i) 1 in
       Ok (fcmp_chain (cmp_Flags c) (o0 =? o1) (o0 <? o1) (o0 <=? o1) (o1 <? o0) (o1 <=? o0)
             (negb (o0 =? 0) && negb (o1 =? 0)) (cmp_Result c))) in
  setResult rl (set_cls i (FCmp (set_cmpResult c r) immSP immDP)) r.

(** ** Terminators *)

Definition set_Destination (t : Terminator) (d : string) : Terminator :=
  mkTerminator (_Condition t) d (_Branches t).

Definition Br_compute (rl : RegisterList) (i : Instruction) (t : Terminator) (uncond : bool)
    : outcome Instruction :=
  let* d :=
    (if uncond then Ok (_Destination t) else
     match _Condition t with
     | None => Err Undefined
     | Some p =>
         let* r := reg_at rl p in
         if negb (_Value r =? 0) then vec_at (_Branches t) 0 else vec_at (_Branches t) 1
     end) in
  Ok (set_Dest (set_cls i (Br (set_Destination t d) uncond)) d).

(** [for (int i = 1; i < _Branches.size(); i++)]: the first case value that
    equals the operand, compared as [uint64_t]. *)
Fixpoint switch_loop (bs : list string) (k : nat) (cases : list Z) (mainValue : Z)
    : outcome (option string) :=
  match bs with
  | [] => Ok None
  | b :: bs =>
      let* c := vec_at cases k in
      if mainValue =? u64 c then Ok (Some b) else switch_loop bs (S k) cases mainValue
  end.

Definition LLVMSwitch_compute (i : Instruction) (t : Terminator) (cases : list Z)
    : outcome Instruction :=
  let* o := vec_at (_Ops i) 0 in
  let* r := switch_loop (tail (_Branches t)) 1 cases (u64 o) in
  match r with
  | Some d => Ok (set_Dest i d)
  | None => let* d := vec_at (_Branches t) 0 in Ok (set_Dest i d)
  end.

(** ** Phi and Select *)

Fixpoint phi_loop (rl : RegisterList) (rt : string) (prev : string) (vals : list string) (k : nat)
    (p : PhiData) (old : Z) : outcome Z :=
  match vals with
  | [] => Ok old
  | v :: vals =>
      let* l := vec_at (_PhiLabel p) k in
      if String.eqb l prev then
        if String.eqb v "reg" then
          let* r := vec_at (_PhiReg p) k in
          match r with
          | None => Err Undefined
          | Some q => let* reg := reg_at rl q in Ok (s64 (_Value reg))
          end
        else
          let* c := str_index rt 0 in
          if Ascii.eqb c "i" then stoi v else phi_loop rl rt prev vals (S k) p old
      else phi_loop rl rt prev vals (S k) p old
  end.

Definition set_pResult (p : PhiData) (v : Z) : PhiData :=
  mkPhi (_PhiVal p) (_PhiReg p) (_PhiLabel p) v.

Definition Phi_compute (rl : RegisterList) (i : Instruction) (p : PhiData) : outcome Instruction :=
  let* r := phi_loop rl (_ReturnType (st i)) (_PrevBB i) (_PhiVal p) 0 p (p_Result p) in
  setResult rl (set_cls i (Phi (set_pResult p r))) r.

Fixpoint phi_deps (prev : string) (vals : list string) (k : nat) (p : PhiData)
    : outcome (list (option nat)) :=
  match vals with
  | [] => Ok []
  | v :: vals =>
      let* l := vec_at (_PhiLabel p) k in
      if String.eqb l prev && String.eqb v "reg" then
        let* r := vec_at (_PhiReg p) k in
        let* ds := phi_deps prev vals (S k) p in Ok (r :: ds)
      else phi_deps prev vals (S k) p
  end.

(** [runtimeDependencies]: virtual, redefined by [Phi] only. *)
Definition runtimeDependencies (i : Instruction) (PrevBB : string)
    : outcome (Instruction * list (option nat)) :=
  match cls i with
  | Phi p => let* ds := phi_deps PrevBB (_PhiVal p) 0 p in Ok (set_PrevBB i PrevBB, ds)
  | _ => Ok (i, _Dependencies (st i))
  end.

Definition set_selResult (s : SelectData) (v : Z) : SelectData :=
  mkSelect (sel_Condition s) (_RegValues s) (_ImmValues s) (_Imm s) v.

Definition Select_compute (rl : RegisterList) (i : Instruction) (s : SelectData)
    : outcome Instruction :=
  let* c := str_index (_ReturnType (st i)) 0 in
  let* r :=
    (if Ascii.eqb c "i" then
       let* o := vec_at (_Ops i) 0 in
       let* i0 := vec_at (_Imm s) 0 in
       if negb (o =? 0) then
         if (i0 : bool) then vec_at (_ImmValues s) 0 else vec_at (_Ops i) 1
       else
         let* i1 := vec_at (_Imm s) 1 in
         if (i1 : bool) then vec_get (_ImmValues s) 1
         else if i0 then vec_at (_Ops i) 1 else vec_at (_Ops i) 2
     else Ok (sel_Result s)) in
  setResult rl (set_cls i (Select (set_selResult s r))) r.

(** ** GetElementPtr *)

(** Assignment to an element of a local array. *)
Definition arr_set (l : list Z) (k : nat) (v : Z) : outcome (list Z) :=
  match l !! k with Some _ => Ok (<[k:=v]> l) | None => Err Undefined end.

(** The k-th index: the immediate where the dependency is null, else the
    operand slot. *)
Definition gep_index (i : Instruction) (g : GepData) (k : nat) : outcome Z :=
  let* d := vec_at (_Dependencies (st i)) k in
  match d with
  | None => vec_at (_ImmIdx g) k
  | Some _ => vec_at (_Ops i) k
  end.

(** [for (int i = 0; i <= j; i++)] of the custom type branch; [n] iterations
    are left. *)
Fixpoint gep_custom_loop (i : Instruction) (g : GepData) (dataSize : Z) (n k : nat) (j : nat)
    (finalCount : Z) : outcome Z :=
  match n with
  | O => Ok finalCount
  | S n =>
      let* x := gep_index i g k in
      let total := if Nat.eqb k j then u64 x else u64 (dataSize * x) in
      gep_custom_loop i g dataSize n (S k) j (u64 (finalCount + total))
  end.

Definition gep_custom (i : Instruction) (g : GepData) : outcome Z :=
  let '(dataSize, j) :=
    match _LLVMType g with Some t => (u64 (type_elems t), 1%nat) | None => (0, 0%nat) end in
  let* fc := gep_custom_loop i g dataSize (S j) 0 j 0 in
  let fc := match _LLVMType g with Some _ => u64 (fc * 8) | None => u64 (fc * 4) end in
  Ok (u64 (_ActivePtr g + fc)).

(** State of the scan of an array type: [j], [previousIndex], [elements],
    [dataSize]. *)
Definition gep_scan_state : Type := nat * Z * list Z * Z.

(** The size of the element type named between the last [x] and the [\]]. *)
Definition gep_elem_size (pty : string) (prev pos : Z) (old : Z) : outcome Z :=
  let subIndex := s32 (str_find_from pty "x" prev + 2) in
  let* dataType := str_substr pty subIndex (pos - subIndex) in
  let* f := str_front dataType in
  if Ascii.eqb f "i" then
    let* d := str_substr_from dataType 1 in
    let* n := stoi d in Ok (u64 (BYTESIZE n))
  else if String.eqb dataType "float" then Ok FLOATSIZE
  else if String.eqb dataType "double" then Ok DOUBLESIZE
  else Ok old.

(** [for (int i = 0; i < _Pty.size(); i++)], up to the first [\]]. *)
Fixpoint gep_scan (g : GepData) (n : nat) (pos : Z) (s : gep_scan_state) : outcome gep_scan_state :=
  match n with
  | O => Ok s
  | S n =>
      let '(j, prev, elements, dataSize) := s in
      let* c := str_index (_Pty g) pos in
      if Ascii.eqb c "[" then
        let* d := str_substr (_Pty g) (pos + 1) (str_find_from (_Pty g) " " pos - pos - 1) in
        let* e := stoi d in
        let* elements := arr_set elements j (u64 e) in
        gep_scan g n (pos + 1) (S j, pos, elements, dataSize)
      else if Ascii.eqb c "]" then
        match _LLVMType g with
        | Some t => Ok (S j, prev, elements, u64 (s32 (type_elems t * 8)))
        | None =>
            let* ds := gep_elem_size (_Pty g) prev pos dataSize in
            Ok (j, prev, elements, ds)
        end
      else gep_scan g n (pos + 1) s
  end.

(** [for (int k = 0; k <= j; k++) totalElements *= elements[k]]. *)
Fixpoint gep_product (elements : list Z) (n k : nat) (acc : Z) : outcome Z :=
  match n with
  | O => Ok acc
  | S n => let* e := vec_get elements k in gep_product elements n (S k) (u64 (acc * e))
  end.

Fixpoint gep_array_loop (i : Instruction) (g : GepData) (n k : nat) (j : nat)
    (elements : list Z) (finalCount : Z) : outcome Z :=
  match n with
  | O => Ok finalCount
  | S n =>
      let* total := gep_product elements (S j) 0 1 in
      let* x := gep_index i g k in
      let* elements := arr_set elements k 1 in
      gep_array_loop i g n (S k) j elements (u64 (finalCount + u64 (total * x)))
  end.

Definition gep_array (i : Instruction) (g : GepData) : outcome Z :=
  let ones := replicate (length (_Dependencies (st i))) 1 in
  let* s := gep_scan g (String.length (_Pty g)) 0 (0%nat, 0, ones, 0) in
  let '(j, prev, elements, dataSize) := s in
  let* fc := gep_array_loop i g (S j) 0 j elements 0 in
  Ok (u64 (_ActivePtr g + u64 (fc * dataSize))).

(** The element size of the third branch; computed once per dependency. *)
Definition gep_scalar_size (g : GepData) : outcome Z :=
  let* c := str_index (_Pty g) 0 in
  if Ascii.eqb c "i" then
    let* d := str_substr_from (_Pty g) 1 in
    let* n := stoi d in Ok (u64 (Z.quot n 8))
  else if starts_with (_Pty g) "double" then Ok 8
  else if starts_with (_Pty g) "float" then Ok 4
  else Ok 1.

(** [newAddress + currentValue[i] * size[i]] for [i < _Index]. *)
Fixpoint gep_scalar_loop (i : Instruction) (g : GepData) (n k : nat) (size acc : Z) : outcome Z :=
  match n with
  | O => Ok acc
  | S n =>
      let* x := gep_index i g k in
      gep_scalar_loop i g n (S k) size (u64 (acc + u64 (u64 x * size)))
  end.

Definition gep_scalar (i : Instruction) (g : GepData) : outcome Z :=
  let* size := (match _Dependencies (st i) with [] => Ok 1 | _ => gep_scalar_size g end) in
  let* a := gep_scalar_loop i g (Z.to_nat (_Index g)) 0 size 0 in
  Ok (u64 (a + _ActivePtr g)).

Definition gep_address (i : Instruction) (g : GepData) : outcome Z :=
  let* c := str_index (_Pty g) 0 in
  if Ascii.eqb c "%" then gep_custom i g
  else if Ascii.eqb c "[" then gep_array i g
  else gep_scalar i g.

Definition GetElementPtr_compute (rl : RegisterList) (i : Instruction) (g : GepData)
    : outcome Instruction :=
  let* a := gep_address i g in setResult rl i a.

(** ** Memory instructions and the virtual call *)

(** The call a [compute()] makes on the communication interface. *)
Inductive CommCall :=
  | NoCall
  | EnqueueRead (req : MemoryRequest)
  | EnqueueWrite (req : MemoryRequest).

Section Compute.
(** [new MemoryRequest]: the pointer the allocator returns and the content of
    the memory behind it. *)
Context (newReq : nat) (old : MemoryRequest).

Definition Load_compute (rl : RegisterList) (i : Instruction) (l : LoadData)
    : outcome (RegisterList * Instruction * CommCall) :=
  let* ptr := reg_at rl (l_Pointer l) in
  let i := setGlobal i (reg_Global ptr) in
  let* o := vec_at (_Ops i) 0 in
  match _ReturnRegister (st i) with
  | None => Err Undefined
  | Some p =>
      let* r := reg_at rl p in
      let* r := setSize r (_ReturnType (st i)) in
      Ok (reg_set rl p r, set_Req i (Some newReq),
          EnqueueRead (MemoryRequest_read old (u64 o) (_Size r)))
  end.

Definition Store_compute (rl : RegisterList) (i : Instruction) (s : StoreData)
    : outcome (RegisterList * Instruction * CommCall) :=
  let* dst := vec_at (_Ops i) 0 in
  let* ptr := reg_at rl (s_Pointer s) in
  let i := setGlobal i (reg_Global ptr) in
  let* dl :=
    (if _ImmVal s then
       let* t := str_substr_from (_ReturnType (st i)) 1 in
       let* n := stoi t in
       Ok (u64 (s_Imm s), u64 (Z.quot (n - 1) 8 + 1))
     else
       let* o := vec_at (_Ops i) 1 in
       match s_Value s with
       | None => Err Undefined
       | Some p => let* r := reg_at rl p in Ok (u64 o, _Size r)
       end) in
  let* req := MemoryRequest_write old (u64 dst) (le_bytes 8 dl.1) dl.2 in
  Ok (rl, set_Req i (Some newReq), EnqueueWrite req).

Definition pure_compute (rl : RegisterList) (m : outcome Instruction)
    : outcome (RegisterList * Instruction * CommCall) :=
  let* i := m in Ok (rl, i, NoCall).

(** The virtual [compute()]. *)
Definition compute (rl : RegisterList) (i : Instruction)
    : outcome (RegisterList * Instruction * CommCall) :=
  match cls i with
  | BadInstruction | Ret _ => Ok (rl, i, NoCall)
  | Br t u => pure_compute rl (Br_compute rl i t u)
  | LLVMSwitch t cs => pure_compute rl (LLVMSwitch_compute i t cs)
  | Add b m => pure_compute rl (Add_compute rl i b m)
  | Sub b m => pure_compute rl (Sub_compute rl i b m)
  | Mul b m => pure_compute rl (Mul_compute rl i b m)
  | UDiv b m um => pure_compute rl (UDiv_compute rl i b m um)
  | SDiv b m sm => pure_compute rl (SDiv_compute rl i b m sm)
  | URem b m um => pure_compute rl (URem_compute rl i b m um)
  | SRem b m sm => pure_compute rl (SRem_compute rl i b m sm)
  | FAdd b f d => pure_compute rl (FAdd_compute rl i b f d)
  | FSub b f d => pure_compute rl (FSub_compute rl i b f d)
  | FMul b f d => pure_compute rl (FMul_compute rl i b f d)
  | FDiv b f d => pure_compute rl (FDiv_compute rl i b f d)
  | FRem _ _ _ => Ok (rl, i, NoCall)
  | Shl w m => pure_compute rl (Shl_compute rl i w m)
  | LShr w m => pure_compute rl (LShr_compute rl i w m)
  | AShr w m => pure_compute rl (AShr_compute rl i w m)
  | And w m => pure_compute rl (And_compute rl i w m)
  | Or w m => pure_compute rl (Or_compute rl i w m)
  | Xor w m => pure_compute rl (Xor_compute rl i w m)
  | Trunc c => pure_compute rl (Trunc_compute rl i c)
  | ZExt c => pure_compute rl (ZExt_compute rl i c)
  | SExt c => pure_compute rl (SExt_compute rl i c)
  | FPToUI c => pure_compute rl (FPToUI_compute rl i c)
  | FPToSI c => pure_compute rl (FPToSI_compute rl i c)
  | UIToFP c => pure_compute rl (UIToFP_compute rl i c)
  | SIToFP c => pure_compute rl (SIToFP_compute rl i c)
  | FPTrunc c => pure_compute rl (FPTrunc_compute rl i c)
  | FPExt c => pure_compute rl (FPExt_compute rl i c)
  | PtrToInt _ | IntToPtr _ | BitCast _ | AddrSpaceCast _ => Ok (rl, i, NoCall)
  | Load l => Load_compute rl i l
  | Store s => Store_compute rl i s
  | GetElementPtr g => pure_compute rl (GetElementPtr_compute rl i g)
  | Phi p => pure_compute rl (Phi_compute rl i p)
  | Select s => pure_compute rl (Select_compute rl i s)
  | ICmp c m um sm => pure_compute rl (ICmp_compute rl i c m um sm)
  | FCmp c f d => pure_compute rl (FCmp_compute rl i c f d)
  end.
End Compute.
