(* ===== verification/ComputeSpec.v ===== *)
(** What [compute()] promises: the integer operations of LLVM IR as modular
    arithmetic on w-bit values, and the theorems that the models of file
    Compute implement them. *)
From stdpp Require Import strings.
From S2P Require Import Prelude CppString CppFloat Macros Registers MemRequest Instructions Compute.
From Stdlib Require String.

#[global] Open Scope Z_scope.

(** ** The reference semantics

    Arguments and results are unsigned w-bit values; [None] is an undefined or
    poison result. *)
Inductive BinOp :=
  | OAdd | OSub | OMul | OUDiv | OSDiv | OURem | OSRem
  | OShl | OLShr | OAShr | OAnd | OOr | OXor.

Definition llvm_binop (op : BinOp) (w a b : Z) : option Z :=
  let sa := wrapS w a in
  let sb := wrapS w b in
  match op with
  | OAdd => Some (wrapU w (a + b))
  | OSub => Some (wrapU w (a - b))
  | OMul => Some (wrapU w (a * b))
  | OUDiv => if b =? 0 then None else Some (a / b)
  | OURem => if b =? 0 then None else Some (a mod b)
  | OSDiv => if (b =? 0) || (Z.quot sa sb =? 2 ^ (w - 1)) then None
             else Some (wrapU w (Z.quot sa sb))
  | OSRem => if (b =? 0) || (Z.quot sa sb =? 2 ^ (w - 1)) then None
             else Some (wrapU w (Z.rem sa sb))
  | OShl => if b <? w then Some (wrapU w (a * 2 ^ b)) else None
  | OLShr => if b <? w then Some (a / 2 ^ b) else None
  | OAShr => if b <? w then Some (wrapU w (sa / 2 ^ b)) else None
  | OAnd => Some (Z.land a b)
  | OOr => Some (Z.lor a b)
  | OXor => Some (Z.lxor a b)
  end.

Inductive Pred := PEq | PNe | PUgt | PUge | PUlt | PUle | PSgt | PSge | PSlt | PSle.

Definition llvm_icmp (p : Pred) (w a b : Z) : bool :=
  let sa := wrapS w a in
  let sb := wrapS w b in
  match p with
  | PEq => a =? b
  | PNe => negb (a =? b)
  | PUgt => b <? a
  | PUge => b <=? a
  | PUlt => a <? b
  | PUle => a <=? b
  | PSgt => sb <? sa
  | PSge => sb <=? sa
  | PSlt => sa <? sb
  | PSle => sa <=? sb
  end.

(** The instruction class of an operation, as the constructors build it. *)
Definition binop_class (op : BinOp) (regs : list nat) (flags res imm : Z) (immfirst : bool)
    : InstrClass :=
  let b := mkBinary regs res flags immfirst in
  let w := mkBitwise regs res flags immfirst in
  match op with
  | OAdd => Add b imm
  | OSub => Sub b imm
  | OMul => Mul b imm
  | OUDiv => UDiv b imm (u64 imm)
  | OSDiv => SDiv b imm imm
  | OURem => URem b imm (u64 imm)
  | OSRem => SRem b imm imm
  | OShl => Shl w imm
  | OLShr => LShr w imm
  | OAShr => AShr w imm
  | OAnd => And w imm
  | OOr => Or w imm
  | OXor => Xor w imm
  end.

Definition pred_flag (p : Pred) : Z :=
  match p with
  | PEq => EQ | PNe => NE | PUgt => UGT | PUge => UGE | PUlt => ULT | PUle => ULE
  | PSgt => SGT | PSge => SGE | PSlt => SLT | PSle => SLE
  end.

Definition unsigned_op (op : BinOp) : bool :=
  match op with OUDiv | OURem => true | _ => false end.

(** The two operands an instruction combines: a slot and the immediate, in
    the order of the source text, or two slots. *)
Definition operands (regs : list nat) (immfirst : bool) (imm : Z) (ops : list Z)
    : option (Z * Z) :=
  match regs, ops with
  | [_], [o] => Some (if immfirst then (imm, o) else (o, imm))
  | [_; _], [o; o'] => Some (o, o')
  | _, _ => None
  end.

(** ** The 64-bit operations on operands in range *)

Lemma wrapS_wrapU w x : 0 < w → wrapS w (wrapU w x) = wrapS w x.
Proof.
  intros. apply (eqm_inS w); [lia|..]; try (apply wrapS_range; lia).
  rewrite !eqm_wrapS by lia. apply eqm_wrapU. lia.
Qed.

Lemma wrapU_wrapS w x : 0 < w → wrapU w (wrapS w x) = wrapU w x.
Proof. intros. apply wrapS_mod; lia. Qed.

Lemma chk64_ok z : inS 64 z → chk64 z = Ok z.
Proof. intros [??]. unfold chk64. by rewrite (proj2 (Z.leb_le _ _)), (proj2 (Z.ltb_lt _ _)). Qed.

Lemma wrapU_eqm w a b : eqm w a b → wrapU w a = wrapU w b.
Proof. done. Qed.

Lemma u32_small y n : inS 32 y → u32 y < n → n ≤ 2 ^ 31 → u32 y = y ∧ 0 ≤ y.
Proof.
  intros [Hy1 Hy2] H Hn. destruct (decide (0 ≤ y)).
  - split; [|done]. apply Z.mod_small. lia.
  - exfalso. unfold wrapU in H. rewrite <-(Z_mod_plus_full y 1 (2 ^ 32)), Z.mod_small in H; lia.
Qed.

Lemma bitwise_range (f : Z → Z → Z) (g : bool → bool → bool) w a b :
  (∀ a b i, 0 ≤ i → Z.testbit (f a b) i = g (Z.testbit a i) (Z.testbit b i)) →
  g false false = false → 0 ≤ w → inU w a → inU w b → wrapU w (f a b) = f a b.
Proof.
  intros Hf Hg Hw Ha Hb. unfold wrapU. rewrite <-Z.land_ones by done.
  apply Z.bits_inj'. intros n Hn. rewrite Z.land_spec, Z.testbit_ones_nonneg by lia.
  destruct (Z.ltb_spec n w); [by rewrite andb_true_r|]. rewrite andb_false_r, Hf by done.
  assert (∀ c, inU w c → Z.testbit c n = false) as B.
  { intros c Hc. rewrite <-(wrapU_id w c) by done. apply Z.mod_pow2_bits_high. lia. }
  by rewrite !B, Hg.
Qed.

(** The function a class applies, for the register and the immediate form. *)
Definition op_fn (op : BinOp) (two : bool) : Z → Z → outcome Z :=
  match op with
  | OAdd => add64 | OSub => sub64 | OMul => mul64
  | OUDiv => if two then sdiv64 else udiv64
  | OSDiv => sdiv64 | OURem => srem64 | OSRem => srem64
  | OShl => shl64 | OLShr => shr64 | OAShr => shr64
  | OAnd => and64 | OOr => or64 | OXor => xor64
  end.

Lemma sdiv64_ok x y :
  - 2 ^ 63 < x < 2 ^ 63 → y ≠ 0 →
  sdiv64 x y = Ok (Z.quot x y) ∧ srem64 x y = Ok (Z.rem x y).
Proof.
  intros Hx Hy. unfold sdiv64, srem64.
  rewrite (proj2 (Z.eqb_neq _ _)) by done.
  assert (inS 64 (Z.quot x y)) as Hq.
  { pose proof (Z.quot_abs x y Hy) as E.
    assert (Z.abs x ÷ Z.abs y ≤ Z.abs x) by (apply Z.quot_le_upper_bound; nia).
    pose proof (Z.abs_spec (x ÷ y)). pose proof (Z.abs_spec x).
    split; simpl in *; lia. }
  by rewrite chk64_ok.
Qed.

(** Operands as the cast leaves them: [uint32_t] for the unsigned divisions,
    [int32_t] for the rest. *)
Definition op_range (op : BinOp) (x : Z) : Prop :=
  if unsigned_op op then inU 32 x else inS 32 x.

Lemma u32_nonzero x : inS 32 x → u32 x ≠ 0 → x ≠ 0.
Proof. intros _ H ->. by apply H. Qed.

Definition ring_op (op : BinOp) : bool :=
  match op with OAdd | OSub | OMul | OAnd | OOr | OXor => true | _ => false end.

(** The operations that compute low bits from low bits. *)
Lemma llvm_ring_eqm op w x y r two :
  0 ≤ w ≤ 64 → ring_op op = true → op_fn op two x y = Ok r →
  llvm_binop op w (wrapU w x) (wrapU w y) = Some (wrapU w r).
Proof.
  intros Hw Hop. assert (eqm w (wrapU w x) x ∧ eqm w (wrapU w y) y) as [Ex Ey]
    by (split; apply eqm_wrapU; lia).
  pose proof (wrapU_range w x ltac:(lia)). pose proof (wrapU_range w y ltac:(lia)).
  destruct op; try discriminate Hop; cbn [op_fn llvm_binop];
    unfold add64, sub64, mul64, chk64, and64, or64, xor64; intros Hr; f_equal.
  1-3: destruct (_ && _); mon; apply wrapU_eqm; by rewrite Ex, Ey.
  - injection Hr as <-. rewrite <-(bitwise_range Z.land andb w) by (done || lia || (intros; apply Z.land_spec)).
    apply wrapU_eqm. by rewrite Ex, Ey.
  - injection Hr as <-. rewrite <-(bitwise_range Z.lor orb w) by (done || lia || (intros; apply Z.lor_spec)).
    apply wrapU_eqm. by rewrite Ex, Ey.
  - injection Hr as <-.
    rewrite <-(bitwise_range Z.lxor xorb w) by (done || lia || (intros; apply Z.lxor_spec)).
    apply wrapU_eqm. by rewrite Ex, Ey.
Qed.

Lemma op_fn_ring op two x y :
  ring_op op = true → inS 32 x → inS 32 y → ∃ r, op_fn op two x y = Ok r.
Proof.
  intros Hop [Hx1 Hx2] [Hy1 Hy2]. cbn in Hx1, Hx2, Hy1, Hy2.
  destruct op; try discriminate Hop; cbn [op_fn];
    unfold add64, sub64, mul64, and64, or64, xor64;
    rewrite ?chk64_ok by (split; cbn; nia); eauto.
Qed.

Definition div_op (op : BinOp) : bool :=
  match op with OUDiv | OURem | OSDiv | OSRem => true | _ => false end.
Definition shift_op (op : BinOp) : bool :=
  match op with OShl | OAShr => true | _ => false end.

Lemma op_fn_div op two x y v :
  div_op op = true → op_range op x → op_range op y →
  llvm_binop op 32 (u32 x) (u32 y) = Some v → ∃ r, op_fn op two x y = Ok r ∧ u32 r = v.
Proof.
  intros Hop Hx Hy. assert (y = 0 → u32 y = 0) as Hz by (by intros ->).
  destruct op; try discriminate Hop;
    unfold op_range, unsigned_op in *; cbn [op_fn llvm_binop];
    destruct (Z.eqb_spec (u32 y) 0) as [|Hy0]; try done; cbn [orb].
  - rewrite (wrapU_id 32 x), (wrapU_id 32 y) by done. intros [= <-].
    rewrite (wrapU_id 32 y) in Hy0 by done. destruct Hx, Hy.
    assert (0 ≤ x / y < 2 ^ 32) by
      (split; [apply Z.div_pos; lia|apply Z.div_lt_upper_bound; nia]).
    destruct two.
    + destruct (sdiv64_ok x y) as [-> _]; [lia|lia|]. rewrite Z.quot_div_nonneg by lia.
      eexists; split; [done|]. by apply wrapU_id.
    + unfold udiv64. rewrite !(wrapU_id 64) by (split; lia).
      rewrite (proj2 (Z.eqb_neq _ _)) by lia. eexists; split; [done|].
      rewrite wrapS_id by (unfold inS; lia). by apply wrapU_id.
  - destruct (_ =? 2 ^ _); [done|]. rewrite !wrapS_wrapU, !wrapS_id by (done || lia).
    intros [= <-]. destruct (sdiv64_ok x y) as [-> _]; [destruct Hx; lia|tauto|]. eauto.
  - rewrite (wrapU_id 32 x), (wrapU_id 32 y) by done. intros [= <-].
    rewrite (wrapU_id 32 y) in Hy0 by done. destruct Hx, Hy.
    destruct (sdiv64_ok x y) as [_ ->]; [lia|lia|]. rewrite Z.rem_mod_nonneg by lia.
    pose proof (Z.mod_pos_bound x y ltac:(lia)).
    eexists; split; [done|]. apply wrapU_id. split; lia.
  - destruct (_ =? 2 ^ _); [done|]. rewrite !wrapS_wrapU, !wrapS_id by (done || lia).
    intros [= <-]. destruct (sdiv64_ok x y) as [_ ->]; [destruct Hx; lia|tauto|]. eauto.
Qed.

Lemma op_fn_shift op two x y v :
  shift_op op = true → inS 32 x → inS 32 y →
  llvm_binop op 32 (u32 x) (u32 y) = Some v → ∃ r, op_fn op two x y = Ok r ∧ u32 r = v.
Proof.
  intros Hop Hx Hy.
  destruct op; try discriminate Hop;
    cbn [op_fn llvm_binop]; destruct (Z.ltb_spec (u32 y) 32) as [Hlt|]; try done;
    destruct (u32_small y 32 Hy Hlt ltac:(lia)) as [Ey Hy0]; rewrite Ey in *;
    intros [= <-]; unfold shl64, shr64;
    rewrite (proj2 (Z.leb_le _ _)), (proj2 (Z.ltb_lt y 64)) by lia; cbn [andb];
    eexists; (split; [done|]).
  - apply wrapU_eqm. rewrite eqm_wrapS, Z.shiftl_mul_pow2 by lia.
    by rewrite eqm_wrapU by lia.
  - rewrite Z.shiftr_div_pow2 by lia. rewrite wrapS_wrapU, wrapS_id by (done || lia). done.
Qed.

(** ** From the operations to the instructions *)

Lemma combine_operands f1 f2 regs immfirst imm ops x y :
  operands regs immfirst imm ops = Some (x, y) →
  combine f1 f1 f2 (length regs) immfirst imm imm ops
  = (if Nat.eqb (length regs) 1 then f1 else f2) x y.
Proof.
  destruct regs as [|? [|? [|]]], ops as [|? [|? [|]]]; try done; simpl; intros H.
  - destruct immfirst; by injection H as <- <-.
  - by injection H as <- <-.
Qed.

Lemma memcpy_int_eqm n d a b : eqm (8 * n) a b → memcpy_int n d a = memcpy_int n d b.
Proof. unfold memcpy_int. by intros ->. Qed.

Lemma setResult_ok rl i p reg v :
  _ReturnRegister (st i) = Some p → reg_at rl p = Ok reg → _Size reg ≤ 8 →
  setResult rl i v = Ok (set_FinalResult i (memcpy_int (_Size reg) (_FinalResult i) v)).
Proof.
  intros Hp Hr Hs. unfold setResult. rewrite Hp, Hr. simpl.
  by rewrite (proj2 (Z.ltb_ge _ _)).
Qed.

Definition op_cast (op : BinOp) : Z → Z := if unsigned_op op then u32 else s32.

Section IntegerInstructions.
Context (newReq : nat) (old : MemoryRequest) (rl : RegisterList) (i : Instruction).
Context (op : BinOp) (regs : list nat) (flags res imm : Z) (immfirst : bool).
Context (p : nat) (reg : Register).
Hypothesis Hcls : cls i = binop_class op regs flags res imm immfirst.
Hypothesis Hret : _ReturnRegister (st i) = Some p.
Hypothesis Hreg : reg_at rl p = Ok reg.
Hypothesis Hsize : 0 ≤ _Size reg ≤ 8.
(** The immediate of an unsigned division is not negative. *)
Hypothesis Himm : unsigned_op op = true → 0 ≤ imm.
Hypothesis Himm64 : inS 64 imm.

Lemma compute_binop ops x y r :
  cast_ops (op_cast op) (_ReturnType (st i)) (length regs) (_Ops i) = Ok ops →
  operands regs immfirst imm ops = Some (x, y) →
  op_fn op (negb (Nat.eqb (length regs) 1)) x y = Ok r →
  ∃ i', compute newReq old rl i = Ok (rl, i', NoCall) ∧
        _FinalResult i' = memcpy_int (_Size reg) (_FinalResult i) r.
Proof.
  intros Hcast Hops Hfn. unfold compute. rewrite Hcls.
  assert (unsigned_op op = true → u64 imm = imm) as Hu
    by (intros H; apply wrapU_id; specialize (Himm H); destruct Himm64; split; lia).
  assert (eqm (8 * _Size reg) (u64 r) r) as Hr by (apply eqm_wrapU; lia).
  destruct op; cbn [binop_class]; rewrite ?Hu by done;
    unfold Add_compute, Sub_compute, Mul_compute, UDiv_compute, SDiv_compute, URem_compute,
      SRem_compute, Shl_compute, LShr_compute, AShr_compute, And_compute, Or_compute, Xor_compute,
      binary_compute, bitwise_compute;
    cbn [_Operands w_Operands _ImmFirst w_ImmFirst op_fn op_cast unsigned_op] in *;
    rewrite Hcast; simpl; rewrite (combine_operands _ _ _ _ _ _ _ _ Hops);
    destruct (Nat.eqb (length regs) 1); cbn [negb] in Hfn; rewrite Hfn; simpl;
    erewrite setResult_ok by (done || lia); simpl; eexists; (split; [done|]);
    simpl; try done; by apply memcpy_int_eqm.
Qed.

(** The cast and the operands it leaves, for [i32]. *)
Lemma cast_i32 x y :
  _ReturnType (st i) = "i32"%string → operands regs immfirst imm (_Ops i) = Some (x, y) →
  inS 32 imm →
  ∃ ops x' y', cast_ops (op_cast op) (_ReturnType (st i)) (length regs) (_Ops i) = Ok ops ∧
    operands regs immfirst imm ops = Some (x', y') ∧
    op_range op x' ∧ op_range op y' ∧ u32 x' = u32 x ∧ u32 y' = u32 y.
Proof.
  intros -> Hops Hi. assert (op_range op imm) as Hir.
  { unfold op_range. destruct (unsigned_op op); [|done]. specialize (Himm eq_refl).
    destruct Hi. split; lia. }
  assert (∀ z, op_range op (op_cast op z) ∧ u32 (op_cast op z) = u32 z) as Hc.
  { intros z. unfold op_range, op_cast. destruct (unsigned_op op).
    - split; [by apply wrapU_range|]. by apply wrapU_mod.
    - split; [by apply wrapS_range|]. by apply wrapU_wrapS. }
  unfold cast_ops. cbn [String.eqb Ascii.eqb Bool.eqb].
  destruct regs as [|? [|? [|]]], (_Ops i) as [|o [|o' [|]]]; try done; simpl in Hops; simpl.
  - eexists; destruct immfirst; injection Hops as <- <-; do 2 eexists;
      (split; [done|]); simpl; (split; [done|]); destruct (Hc o); auto.
  - injection Hops as <- <-. do 3 eexists. split; [done|]. split; [done|].
    destruct (Hc o), (Hc o'). auto.
Qed.
End IntegerInstructions.

(** C10: on [i32], every integer operation except the logical right shift, and
    except [udiv] and [urem] with a negative immediate, computes what LLVM
    defines: whenever the reference result is defined, [compute()] returns, the
    low 32 bits of [_FinalResult] are that result and the other bits of
    [_FinalResult] are kept, for two registers as for an immediate on either
    side.  The exceptions are real: the Examples [lshr_i32_arithmetic],
    [udiv_i32_negative_immediate] and [urem_i32_negative_immediate] below. *)
Theorem i32_binop_refines newReq old rl i op regs flags res imm immfirst p reg x y v
    (Hcls : cls i = binop_class op regs flags res imm immfirst)
    (Hty : _ReturnType (st i) = "i32"%string)
    (Hret : _ReturnRegister (st i) = Some p) (Hreg : reg_at rl p = Ok reg)
    (Hsize : _Size reg = 4)
    (Hop : op ≠ OLShr) (Himm : unsigned_op op = true → 0 ≤ imm) (Himm32 : inS 32 imm)
    (Hops : operands regs immfirst imm (_Ops i) = Some (x, y))
    (Hv : llvm_binop op 32 (u32 x) (u32 y) = Some v) :
  ∃ i', compute newReq old rl i = Ok (rl, i', NoCall) ∧
        u32 (_FinalResult i') = v ∧ _FinalResult i' / 2 ^ 32 = _FinalResult i / 2 ^ 32.
Proof.
  assert (inS 64 imm) by (destruct Himm32; split; lia).
  destruct (cast_i32 i op regs flags res imm immfirst Hcls Himm x y Hty Hops Himm32)
    as (ops & x' & y' & Hcast & Hops' & Hx & Hy & Ex & Ey).
  rewrite <-Ex, <-Ey in Hv.
  assert (∃ r, op_fn op (negb (Nat.eqb (length regs) 1)) x' y' = Ok r ∧ u32 r = v)
    as (r & Hr & Hrv).
  { destruct (ring_op op) eqn:Er.
    - assert (inS 32 x' ∧ inS 32 y') as [Sx Sy] by (unfold op_range in *; by destruct op).
      destruct (op_fn_ring op (negb (Nat.eqb (length regs) 1)) x' y' Er Sx Sy) as [r Hr].
      exists r. split; [done|].
      rewrite (llvm_ring_eqm op 32 x' y' r _ ltac:(lia) Er Hr) in Hv. by injection Hv.
    - destruct (div_op op) eqn:Ed; [by apply op_fn_div|].
      apply op_fn_shift; try done; unfold op_range in *; by destruct op. }
  destruct (compute_binop newReq old rl i op regs flags res imm immfirst p reg Hcls Hret Hreg
    ltac:(lia) Himm ltac:(done) ops x' y' r Hcast Hops' Hr) as (i' & Hi & Hf).
  exists i'. split; [done|]. rewrite Hf, Hsize. split.
  - rewrite <-Hrv. by apply memcpy_int_low.
  - by apply (memcpy_int_high 4).
Qed.

(** At every other integer type, and at every width up to the return
    register's, addition, subtraction, multiplication and the bitwise operations
    compute LLVM's result from operand slots that agree with the operands on
    the low [w] bits, whenever the 64-bit host operation does not overflow. *)
Theorem ring_binop_refines newReq old rl i op regs flags res imm immfirst p reg x y w r
    (Hcls : cls i = binop_class op regs flags res imm immfirst)
    (Hty : _ReturnType (st i) ≠ "i32"%string)
    (Hret : _ReturnRegister (st i) = Some p) (Hreg : reg_at rl p = Ok reg)
    (Hsize : _Size reg ≤ 8) (Hw : 0 < w ≤ 8 * _Size reg)
    (Hop : ring_op op = true) (Himm : inS 64 imm)
    (Hops : operands regs immfirst imm (_Ops i) = Some (x, y))
    (Hr : op_fn op (negb (Nat.eqb (length regs) 1)) x y = Ok r) :
  ∃ i', compute newReq old rl i = Ok (rl, i', NoCall) ∧
        Some (wrapU w (_FinalResult i')) = llvm_binop op w (wrapU w x) (wrapU w y).
Proof.
  assert (unsigned_op op = true → 0 ≤ imm) as Hu by (by destruct op).
  assert (cast_ops (op_cast op) (_ReturnType (st i)) (length regs) (_Ops i) = Ok (_Ops i)) as Hc.
  { unfold cast_ops. by rewrite (proj2 (String.eqb_neq _ _) Hty). }
  destruct (compute_binop newReq old rl i op regs flags res imm immfirst p reg Hcls Hret Hreg
    ltac:(lia) Hu Himm (_Ops i) x y r Hc Hops Hr) as (i' & Hi & Hf).
  exists i'. split; [done|]. rewrite (llvm_ring_eqm op w x y r _ ltac:(lia) Hop Hr), Hf.
  f_equal. apply memcpy_int_low. lia.
Qed.

(** ** Comparisons *)

Lemma wrapU_inS w z : 0 < w → inS w z → wrapU w z = if z <? 0 then z + 2 ^ w else z.
Proof.
  intros Hw [H1 H2]. pose proof (pow2_half w Hw) as E. pose proof (pow2_pos (w - 1) ltac:(lia)).
  unfold wrapU. destruct (Z.ltb_spec z 0).
  - rewrite <-(Z_mod_plus_full z 1), Z.mod_small; lia.
  - apply Z.mod_small. lia.
Qed.

Lemma bool_eq_iff (a b : bool) : (a = true ↔ b = true) → a = b.
Proof. destruct a, b; intuition congruence. Qed.

(** Both orders survive the embedding of a signed w-bit value in 64 bits. *)
Lemma icmp_chain_ok p w o o2 prev :
  0 < w ≤ 64 → inS w o → inS w o2 →
  icmp_chain (pred_flag p) o o2 (u64 o2) o2 prev
  = bool_int (llvm_icmp p w (wrapU w o) (wrapU w o2)).
Proof.
  intros Hw Ho Ho2.
  assert (2 ^ (w - 1) ≤ 2 ^ 63) by (apply Z.pow_le_mono_r; lia).
  assert (inS 64 o ∧ inS 64 o2) as [Ho' Ho2'] by (destruct Ho, Ho2; split; split; lia).
  assert (icmp_chain (pred_flag p) o o2 (u64 o2) o2 prev = bool_int
    match p with
    | PEq => o =? o2 | PNe => negb (o =? o2)
    | PUgt => u64 o2 <? u64 o | PUge => u64 o2 <=? u64 o
    | PUlt => u64 o <? u64 o2 | PUle => u64 o <=? u64 o2
    | PSgt => o2 <? o | PSge => o2 <=? o | PSlt => o <? o2 | PSle => o <=? o2
    end) as -> by (by destruct p).
  f_equal. unfold llvm_icmp. rewrite !wrapS_wrapU, !wrapS_id by (done || lia).
  rewrite !(wrapU_inS w), !(wrapU_inS 64) by (done || lia).
  destruct Ho, Ho2. pose proof (pow2_half w ltac:(lia)).
  destruct p; try done; destruct (Z.ltb_spec o 0), (Z.ltb_spec o2 0);
    try apply (f_equal negb); apply bool_eq_iff;
    rewrite ?Z.eqb_eq, ?Z.ltb_lt, ?Z.leb_le; lia.
Qed.

Lemma pred_flag_reads p : existsb (has_flag (pred_flag p)) icmp_flags = true.
Proof. by destruct p. Qed.

(** C11: [icmp] on [i32] and on [i64] sets the return register's bytes of
    [_FinalResult] to LLVM's answer for each of the ten predicates, for two
    registers as for a register and an immediate. *)
Theorem icmp_refines newReq old rl i pr w regs res imm p reg x y
    (Hcls : cls i = ICmp (mkCompare regs (pred_flag pr) res) imm (u64 imm) imm)
    (Hty : _ReturnType (st i) = "i32"%string ∧ w = 32 ∨ _ReturnType (st i) = "i64"%string ∧ w = 64)
    (Hret : _ReturnRegister (st i) = Some p) (Hreg : reg_at rl p = Ok reg)
    (Hsize : 0 ≤ _Size reg ≤ 8) (Himm : inS w imm) (Hin : Forall (inS 64) (_Ops i))
    (Hops : operands regs false imm (_Ops i) = Some (x, y)) :
  ∃ i', compute newReq old rl i = Ok (rl, i', NoCall) ∧
        wrapU (8 * _Size reg) (_FinalResult i')
        = wrapU (8 * _Size reg) (bool_int (llvm_icmp pr w (wrapU w x) (wrapU w y))).
Proof.
  assert (0 < w ≤ 64) as Hw by (destruct Hty as [[_ ->]|[_ ->]]; lia).
  assert (∃ ops x' y', cast_ops s32 (_ReturnType (st i)) (length regs) (_Ops i) = Ok ops ∧
    operands regs false imm ops = Some (x', y') ∧ inS w x' ∧ inS w y' ∧
    wrapU w x' = wrapU w x ∧ wrapU w y' = wrapU w y)
    as (ops & x' & y' & Hc & Ho & Hx & Hy & Ex & Ey).
  { unfold cast_ops. destruct Hty as [[-> ->]|[-> ->]]; cbn [String.eqb Ascii.eqb Bool.eqb];
      destruct regs as [|? [|? [|]]], (_Ops i) as [|o [|o' [|]]]; try done;
      injection Hops as <- <-; rewrite ?Forall_cons in Hin; destruct_and?; do 3 eexists;
      (split; [done|]); (split; [done|]); split_and!; try done;
      first [apply wrapS_range; lia|apply wrapU_wrapS; lia]. }
  rewrite <-Ex, <-Ey, <-(icmp_chain_ok pr w x' y' res) by done.
  unfold compute. rewrite Hcls. unfold ICmp_compute. cbn [cmp_Operands cmp_Flags cmp_Result].
  rewrite Hc. cbn [mbind outcome_bind]. rewrite pred_flag_reads. cbn [negb].
  destruct regs as [|? [|? [|]]], ops as [|o [|o' [|]]]; try done;
    injection Ho as <- <-; simpl; erewrite setResult_ok by (done || lia);
    eexists; (split; [done|]); simpl; apply memcpy_int_low; lia.
Qed.

(** ** Address arithmetic *)

Definition zprod (l : list Z) : Z := foldr Z.mul 1 l.

(** The row-major offset, in elements, of the indices [xs] into nested arrays
    of the dimensions [dims]. *)
Fixpoint row_major (xs dims : list Z) : Z :=
  match xs, dims with
  | x :: xs', d :: dims' => x * zprod dims + row_major xs' dims'
  | _, _ => 0
  end.

Lemma gep_product_ok elements : ∀ n k acc l,
  take n (drop k elements) = l → length l = n → inU 64 acc →
  gep_product elements n k acc = Ok (u64 (acc * zprod l)).
Proof.
  induction n as [|n IH]; intros k acc l Hl Hn Ha; simpl.
  - destruct l; [|done]. simpl. by rewrite Z.mul_1_r, wrapU_id.
  - destruct l as [|e l]; [done|]. injection Hn as Hn.
    assert (elements !! k = Some e) as He.
    { rewrite <-(Nat.add_0_r k), <-lookup_drop.
      rewrite <-(lookup_take_lt _ (S n)) by lia. by rewrite Hl. }
    unfold vec_get. rewrite He. cbn [mbind outcome_bind]. rewrite (IH (S k) _ l); [|..]; try done.
    + f_equal. apply wrapU_eqm. rewrite eqm_wrapU by lia. unfold eqm. f_equal.
      unfold zprod. cbn [foldr]. ring.
    + rewrite (drop_S _ _ _ He) in Hl. by injection Hl.
    + by apply wrapU_range.
Qed.

Lemma zprod_ones k l : zprod (replicate k 1 ++ l) = zprod l.
Proof. induction k as [|k IH]; [done|]. simpl. rewrite IH. lia. Qed.

Lemma gep_array_loop_ok i g j rest : ∀ dims xs k fc,
  length xs = length dims → (k + length dims = S j)%nat →
  (∀ m x, xs !! m = Some x → gep_index i g (k + m) = Ok x) → inU 64 fc →
  gep_array_loop i g (length dims) k j (replicate k 1 ++ dims ++ rest) fc
  = Ok (u64 (fc + row_major xs dims)).
Proof.
  induction dims as [|d dims IH]; intros xs k fc Hxs Hk Hidx Hfc.
  - destruct xs; [|done]. simpl. by rewrite Z.add_0_r, wrapU_id.
  - destruct xs as [|x xs]; [done|]. injection Hxs as Hxs. cbn [length gep_array_loop] in *.
    rewrite (gep_product_ok _ _ _ _ (replicate k 1 ++ d :: dims)); [|..]; try done.
    2: { rewrite drop_0, app_assoc. apply take_app_length'. rewrite length_app, length_replicate.
         simpl. lia. }
    2: { rewrite length_app, length_replicate. simpl. lia. }
    cbn [mbind outcome_bind]. pose proof (Hidx 0%nat x eq_refl) as H0.
    rewrite Nat.add_0_r in H0. rewrite H0. cbn [mbind outcome_bind].
    unfold arr_set. cbn [app]. rewrite (list_lookup_middle _ _ d k) by (by rewrite length_replicate).
    cbn [mbind outcome_bind]. replace (<[k:=1]> _) with (replicate (S k) 1 ++ dims ++ rest).
    2: { rewrite replicate_S_end, <-app_assoc.
         rewrite insert_app_r_alt by (rewrite length_replicate; lia).
         by rewrite length_replicate, Nat.sub_diag. }
    rewrite (IH xs); [|done|lia|..].
    + f_equal. apply wrapU_eqm. cbn [row_major]. rewrite !eqm_wrapU by lia.
      rewrite zprod_ones. unfold eqm. f_equal. ring.
    + intros m y Hm. rewrite <-(Hidx (S m) y Hm). f_equal. lia.
    + by apply wrapU_range.
Qed.

(** C12: an array [getelementptr] computes the row-major address: when the scan
    of the type gives the dimensions [dims] (one per index, the trailing one
    for the element) and the element size [size], the address is the base plus
    [size] times the row-major offset of the indices, modulo 2^64. *)
Theorem gep_array_row_major i g j prev dims rest size xs
    (Hscan : gep_scan g (String.length (_Pty g)) 0
               (0%nat, 0, replicate (length (_Dependencies (st i))) 1, 0)
             = Ok (j, prev, dims ++ rest, size))
    (Hdims : length dims = S j) (Hxs : length xs = S j)
    (Hidx : ∀ k x, xs !! k = Some x → gep_index i g k = Ok x) :
  gep_array i g = Ok (u64 (_ActivePtr g + size * row_major xs dims)).
Proof.
  unfold gep_array. rewrite Hscan. cbn [mbind outcome_bind]. rewrite <-Hdims.
  change (dims ++ rest) with (replicate 0 1 ++ dims ++ rest).
  rewrite (gep_array_loop_ok i g j rest dims xs 0 0); [|lia|lia|done|done].
  cbn [mbind outcome_bind]. f_equal. apply wrapU_eqm. rewrite !eqm_wrapU by lia.
  unfold eqm. f_equal. ring.
Qed.

(** ** Concrete instructions *)

Definition ex_req : MemoryRequest :=
  mkMemoryRequest 0 0 false false 0 0 0 0 0 0 0 0 [] [] None None.
Definition ex_reg (name ty : string) (size value : Z) : Register :=
  mkRegister name ty value size false false false 0 0.
Definition ex_rl : RegisterList :=
  mkRegisterList [ex_reg "r" "i32" 4 0; ex_reg "a" "i32" 4 0; ex_reg "b" "i32" 4 0;
                  ex_reg "p" "i8*" 8 4096; ex_reg "c" "i1" 1 0; ex_reg "w" "i64" 8 0] 0 0 0.
Definition ex_args (rt : string) (ret : nat) (deps : list (option nat)) : BaseArgs :=
  mkArgs "line" "op" rt "Binary" (Some ret) 1 deps.

Definition ex_sdiv : Instruction :=
  set_Ops (SDiv_new 0 (ex_args "i32" 0 [Some 1; Some 2]%nat) [1; 2]%nat 0 0 false 1)
    [2 ^ 32 - 7; 2].
Definition ex_mul : Instruction :=
  set_Ops (Mul_new 0 (ex_args "i16" 0 [Some 1]%nat) [1]%nat 0 3 true 1) [40000].
Definition ex_icmp : Instruction :=
  set_Ops (ICmp_new 0 (ex_args "i32" 4 [Some 1]%nat) [1]%nat SLT (-1) 11) [2 ^ 32 - 5].

(** -7 / 2 = -3 on [i32], the slots holding the unsigned register images. *)
Lemma i32_binop_refines_witness :
  ∃ i', compute 0 ex_req ex_rl ex_sdiv = Ok (ex_rl, i', NoCall) ∧
        u32 (_FinalResult i') = 2 ^ 32 - 3 ∧ _FinalResult i' / 2 ^ 32 = _FinalResult ex_sdiv / 2 ^ 32.
Proof.
  apply (i32_binop_refines 0 ex_req ex_rl ex_sdiv OSDiv [1; 2]%nat 0 0 0 false 0%nat
           (ex_reg "r" "i32" 4 0) (2 ^ 32 - 7) 2); try reflexivity; done.
Defined.

Lemma ring_binop_refines_witness :
  ∃ i', compute 0 ex_req ex_rl ex_mul = Ok (ex_rl, i', NoCall) ∧
        Some (wrapU 16 (_FinalResult i')) = llvm_binop OMul 16 (wrapU 16 3) (wrapU 16 40000).
Proof.
  apply (ring_binop_refines 0 ex_req ex_rl ex_mul OMul [1]%nat 0 0 3 true 0%nat
           (ex_reg "r" "i32" 4 0) 3 40000 16 120000); try reflexivity; done.
Defined.

Lemma icmp_refines_witness :
  ∃ i', compute 0 ex_req ex_rl ex_icmp = Ok (ex_rl, i', NoCall) ∧
        wrapU (8 * 1) (_FinalResult i')
        = wrapU (8 * 1) (bool_int (llvm_icmp PSlt 32 (wrapU 32 (2 ^ 32 - 5)) (wrapU 32 (-1)))).
Proof.
  apply (icmp_refines 0 ex_req ex_rl ex_icmp PSlt 32 [1]%nat 0 (-1) 4%nat (ex_reg "c" "i1" 1 0)
           (2 ^ 32 - 5) (-1)); try reflexivity; try done.
  - left. split; reflexivity.
  - repeat constructor; vm_compute; congruence.
Defined.

(** [getelementptr \[4 x \[8 x i32\]\], ... 0, 2, 3]: 4 * (2 * 8 + 3) bytes. *)
Definition ex_gep : GepData :=
  mkGep "[4 x [8 x i32]]" None [] [] [0; 0; 3] 3 4096 3 false.
Definition ex_gep_instr : Instruction :=
  set_Ops (InstructionBase_new 0 (ex_args "i32*" 5 [None; Some 1; None]%nat) 12 false None
             (GetElementPtr ex_gep)) [0; 2; 0].

Lemma gep_array_row_major_witness : gep_array ex_gep_instr ex_gep = Ok (4096 + 76).
Proof.
  apply (gep_array_row_major ex_gep_instr ex_gep 2 5 [4; 8; 1] [] 4 [0; 2; 3]); try reflexivity.
  intros [|[|[|]]] x; simpl; intros H; try done; injection H as <-; reflexivity.
Defined.

(** ** Where the code and LLVM part *)

(** A logical right shift of a negative [i32] shifts in ones. *)
Example lshr_i32_arithmetic :
  ∃ i', compute 0 ex_req ex_rl
          (set_Ops (LShr_new 0 (ex_args "i32" 0 [Some 1]%nat) [1]%nat 0 4 false 3) [2 ^ 32 - 16])
        = Ok (ex_rl, i', NoCall) ∧ u32 (_FinalResult i') = 2 ^ 32 - 1 ∧
        llvm_binop OLShr 32 (2 ^ 32 - 16) 4 = Some (2 ^ 28 - 1).
Proof. eexists. split_and!; reflexivity. Qed.

(** [udiv i32 %x, -16] for x = 2^32 - 1: the register is cut to 32 bits and the
    immediate is not, so the divisor is 2^64 - 16. *)
Example udiv_i32_negative_immediate :
  ∃ i', compute 0 ex_req ex_rl
          (set_Ops (UDiv_new 0 (ex_args "i32" 0 [Some 1]%nat) [1]%nat 0 (-16) false 3) [2 ^ 32 - 1])
        = Ok (ex_rl, i', NoCall) ∧ u32 (_FinalResult i') = 0 ∧
        llvm_binop OUDiv 32 (u32 (2 ^ 32 - 1)) (u32 (-16)) = Some 1.
Proof. eexists. split_and!; reflexivity. Qed.

(** [urem i32 %x, -16] for x = 20: the signed immediate makes it a remainder by
    16. *)
Example urem_i32_negative_immediate :
  ∃ i', compute 0 ex_req ex_rl
          (set_Ops (URem_new 0 (ex_args "i32" 0 [Some 1]%nat) [1]%nat 0 (-16) false 3) [20])
        = Ok (ex_rl, i', NoCall) ∧ u32 (_FinalResult i') = 4 ∧
        llvm_binop OURem 32 (u32 20) (u32 (-16)) = Some 20.
Proof. eexists. split_and!; reflexivity. Qed.

(** [sext i32 -1 to i64] leaves the upper half zero: the destination type is
    the one tested, and the slot is copied. *)
Example sext_i64_no_extension :
  ∃ i', compute 0 ex_req ex_rl
          (set_Ops (SExt_new 0 (ex_args "i64" 5 [Some 1]%nat) "i64" (Some 1%nat) 13) [2 ^ 32 - 1])
        = Ok (ex_rl, i', NoCall) ∧ _FinalResult i' = 2 ^ 32 - 1.
Proof. eexists. split; reflexivity. Qed.

(** [fcmp olt double -2.0, -1.0]: the bit patterns are compared as integers. *)
Example fcmp_bit_patterns :
  ∃ i', compute 0 ex_req ex_rl
          (set_Ops (FCmp_new 0 (ex_args "double" 4 [Some 1; Some 2]%nat) [1; 2]%nat OLT 0 11)
             [s64 0xC000000000000000; s64 0xBFF0000000000000])
        = Ok (ex_rl, i', NoCall) ∧ _FinalResult i' = 0 ∧
        fp_lt (fp_decode double_ 0xC000000000000000) (fp_decode double_ 0xBFF0000000000000) = true.
Proof. eexists. split_and!; vm_compute; reflexivity. Qed.

(** [uitofp i32 3 to double] stores the integer 3, not the double 3.0. *)
Example uitofp_integer :
  ∃ i', compute 0 ex_req ex_rl
          (set_Ops (UIToFP_new 0 (ex_args "double" 5 [Some 1]%nat) "double" (Some 1%nat) 13) [3])
        = Ok (ex_rl, i', NoCall) ∧ _FinalResult i' = 3 ∧
        fp_encode double_ (fp_of_int double_ 3) = 0x4008000000000000.
Proof. eexists. split_and!; vm_compute; reflexivity. Qed.
