(* ===== verification/FunctionalUnits.v ===== *)
(** Model of the functional unit accounting: the structures of
    [hwacc/LLVMRead/src/utilization.hh], the counters and limits of
    [LLVMInterface] ([initFU], [clearFU], [Occupancy], [AverageOccupancy],
    [updateFU], [updateParsedFU], [maxFU], [limitedFU], [unlimitedMode],
    [occupancy]) and the classes [FunctionalUnit] and [Hardware]. *)
From S2P Require Import Prelude CppFloat Macros.
From Stdlib Require Import Floats.SpecFloat.

#[global] Open Scope Z_scope.

(** ** struct FunctionalUnits and struct FunctionalUnitOccupancy

    The same members, [int32_t] in the former and [double] in the latter. *)
Record UnitsOf (A : Type) := mkUnits {
  counter_units : A;
  int_adder_units : A;
  int_multiply_units : A;
  int_shifter_units : A;
  int_bit_units : A;
  fp_sp_adder : A;
  fp_dp_adder : A;
  fp_sp_multiply : A;
  fp_dp_multiply : A;
  compare : A;
  gep : A;
  conversion : A;
  other : A;
  fpDivision : A;
}.
Arguments counter_units {A} _.
Arguments int_adder_units {A} _.
Arguments int_multiply_units {A} _.
Arguments int_shifter_units {A} _.
Arguments int_bit_units {A} _.
Arguments fp_sp_adder {A} _.
Arguments fp_dp_adder {A} _.
Arguments fp_sp_multiply {A} _.
Arguments fp_dp_multiply {A} _.
Arguments compare {A} _.
Arguments gep {A} _.
Arguments conversion {A} _.
Arguments other {A} _.
Arguments fpDivision {A} _.
Arguments mkUnits {A}.

Abbreviation FunctionalUnits := (UnitsOf Z).
Abbreviation FunctionalUnitOccupancy := (UnitsOf spec_float).

Inductive FuField :=
  | F_counter_units | F_int_adder_units | F_int_multiply_units | F_int_shifter_units | F_int_bit_units | F_fp_sp_adder | F_fp_dp_adder
  | F_fp_sp_multiply | F_fp_dp_multiply | F_compare | F_gep | F_conversion | F_other | F_fpDivision.

#[export] Instance FuField_eq_dec : EqDecision FuField.
Proof. solve_decision. Defined.

Definition fu_get {A} (k : FuField) (u : UnitsOf A) : A :=
  match k with
  | F_counter_units => counter_units u
  | F_int_adder_units => int_adder_units u
  | F_int_multiply_units => int_multiply_units u
  | F_int_shifter_units => int_shifter_units u
  | F_int_bit_units => int_bit_units u
  | F_fp_sp_adder => fp_sp_adder u
  | F_fp_dp_adder => fp_dp_adder u
  | F_fp_sp_multiply => fp_sp_multiply u
  | F_fp_dp_multiply => fp_dp_multiply u
  | F_compare => compare u
  | F_gep => gep u
  | F_conversion => conversion u
  | F_other => other u
  | F_fpDivision => fpDivision u
  end.

Definition fu_build {A} (h : FuField → A) : UnitsOf A :=
  {| counter_units := h F_counter_units;
     int_adder_units := h F_int_adder_units;
     int_multiply_units := h F_int_multiply_units;
     int_shifter_units := h F_int_shifter_units;
     int_bit_units := h F_int_bit_units;
     fp_sp_adder := h F_fp_sp_adder;
     fp_dp_adder := h F_fp_dp_adder;
     fp_sp_multiply := h F_fp_sp_multiply;
     fp_dp_multiply := h F_fp_dp_multiply;
     compare := h F_compare;
     gep := h F_gep;
     conversion := h F_conversion;
     other := h F_other;
     fpDivision := h F_fpDivision |}.

(** Assignment to one member. *)
Definition fu_upd {A} (k : FuField) (x : A) (u : UnitsOf A) : UnitsOf A :=
  fu_build (fun k' => if decide (k = k') then x else fu_get k' u).

Lemma fu_get_build {A} (h : FuField → A) k : fu_get k (fu_build h) = h k.
Proof. by destruct k. Qed.
Lemma fu_get_upd {A} k (x : A) u k' :
  fu_get k' (fu_upd k x u) = if decide (k = k') then x else fu_get k' u.
Proof. apply fu_get_build. Qed.
#[export] Hint Rewrite @fu_get_build @fu_get_upd : salam_simpl.

(** The member a [switch(FU)] on the unit number selects; [default] is
    [other].  The two floating point dividers have no case. *)
Definition fu_field (FU : Z) : FuField :=
  if FU =? COUNTER then F_counter_units
  else if FU =? INTADDER then F_int_adder_units
  else if FU =? INTMULTI then F_int_multiply_units
  else if FU =? INTSHIFTER then F_int_shifter_units
  else if FU =? INTBITWISE then F_int_bit_units
  else if FU =? FPSPADDER then F_fp_sp_adder
  else if FU =? FPDPADDER then F_fp_dp_adder
  else if FU =? FPSPMULTI then F_fp_sp_multiply
  else if FU =? FPDPMULTI then F_fp_dp_multiply
  else if FU =? COMPARE then F_compare
  else if FU =? GETELEMENTPTR then F_gep
  else if FU =? CONVERSION then F_conversion
  else F_other.

(** The limits: the [int32_t] parameters of [LLVMInterface], -1 for none. *)
Record FuLimits := mkLimits {
  lim : UnitsOf Z;
  fp_sp_division : Z;
  fp_dp_division : Z;
}.

(** ** The accounting state of LLVMInterface *)

Record FuState := mkFuState {
  _FunctionalUnits : FunctionalUnits;
  _MaxFU : FunctionalUnits;
  _MaxParsed : FunctionalUnits;
  _AverageOccupancy : FunctionalUnitOccupancy;
  _CycleOccupancy : FunctionalUnits;
  _RunningAverageOccupancy : FunctionalUnitOccupancy;
  _CycleOccList : list FunctionalUnits;
}.

Definition set_units (s : FuState) (u : FunctionalUnits) : FuState :=
  mkFuState u (_MaxFU s) (_MaxParsed s) (_AverageOccupancy s) (_CycleOccupancy s)
    (_RunningAverageOccupancy s) (_CycleOccList s).
Definition set_MaxFU (s : FuState) (u : FunctionalUnits) : FuState :=
  mkFuState (_FunctionalUnits s) u (_MaxParsed s) (_AverageOccupancy s) (_CycleOccupancy s)
    (_RunningAverageOccupancy s) (_CycleOccList s).

(** [fpDivision] is not among the members [maxFU], [initFU] and [Occupancy]
    treat. *)
Definition maxFU (s : FuState) (FU : FunctionalUnits) : FuState :=
  set_MaxFU s (fu_build (fun k =>
    match k with
    | F_fpDivision => fpDivision (_MaxFU s)
    | _ => if fu_get k (_MaxFU s) <? fu_get k FU then fu_get k FU else fu_get k (_MaxFU s)
    end)).

Definition zero_units (u : FunctionalUnits) : FunctionalUnits :=
  fu_build (fun k => match k with F_fpDivision => fpDivision u | _ => 0 end).
Definition zero_occ (u : FunctionalUnitOccupancy) : FunctionalUnitOccupancy :=
  fu_build (fun k => match k with F_fpDivision => fpDivision u | _ => S754_zero false end).

(** [initFU]: the maximum taken first is overwritten. *)
Definition initFU (s : FuState) : FuState :=
  let s := maxFU s (_FunctionalUnits s) in
  mkFuState (zero_units (_FunctionalUnits s)) (zero_units (_MaxFU s)) (zero_units (_MaxParsed s))
    (zero_occ (_AverageOccupancy s)) (_CycleOccupancy s) (zero_occ (_RunningAverageOccupancy s))
    (_CycleOccList s).

Definition Occupancy (occupancy_tracking : bool) (s : FuState) (FU : FunctionalUnits) : FuState :=
  let cyc := fu_build (fun k =>
    match k with F_fpDivision => fpDivision (_CycleOccupancy s) | _ => fu_get k FU end) in
  mkFuState (_FunctionalUnits s) (_MaxFU s) (_MaxParsed s)
    (fu_build (fun k =>
      match k with
      | F_fpDivision => fpDivision (_AverageOccupancy s)
      | _ => fp_apply double_ FpAdd (fu_get k (_AverageOccupancy s)) (fp_of_int double_ (fu_get k FU))
      end))
    cyc (_RunningAverageOccupancy s)
    (if occupancy_tracking then _CycleOccList s ++ [cyc] else _CycleOccList s).

Definition clearFU (occupancy_tracking : bool) (s : FuState) : FuState :=
  let s := maxFU s (_FunctionalUnits s) in
  let s := Occupancy occupancy_tracking s (_FunctionalUnits s) in
  set_units s (fu_build (fun _ => 0)).

(** [(average / max) / cycle] where the average is not zero. *)
Definition AverageOccupancy (s : FuState) (cycle : Z) : FuState :=
  mkFuState (_FunctionalUnits s) (_MaxFU s) (_MaxParsed s) (_AverageOccupancy s)
    (_CycleOccupancy s)
    (fu_build (fun k =>
      match k with
      | F_fpDivision => fpDivision (_RunningAverageOccupancy s)
      | _ =>
          if fp_nonzero (fu_get k (_AverageOccupancy s)) then
            fp_apply double_ FpDiv
              (fp_apply double_ FpDiv (fu_get k (_AverageOccupancy s))
                 (fp_of_int double_ (fu_get k (_MaxFU s))))
              (fp_of_int double_ cycle)
          else fu_get k (_RunningAverageOccupancy s)
      end))
    (_CycleOccList s).

Definition incr_unit (k : FuField) (u : FunctionalUnits) : FunctionalUnits :=
  fu_upd k (s32 (fu_get k u + 1)) u.

Definition updateFU (s : FuState) (FU : Z) : FuState :=
  set_units s (incr_unit (fu_field FU) (_FunctionalUnits s)).

Definition updateParsedFU (s : FuState) (FU : Z) : FuState :=
  mkFuState (_FunctionalUnits s) (_MaxFU s) (incr_unit (fu_field FU) (_MaxParsed s))
    (_AverageOccupancy s) (_CycleOccupancy s) (_RunningAverageOccupancy s) (_CycleOccList s).

(** [limitedFU]: whether a unit is granted this cycle, and the counter of the
    granted one.  The default case grants without counting. *)
Definition limitedFU (l : FuLimits) (s : FuState) (FU : Z) : FuState * bool :=
  let k := fu_field FU in
  match k with
  | F_other => (s, true)
  | _ =>
      if fu_get k (lim l) =? -1 then (updateFU s FU, true)
      else if fu_get k (_FunctionalUnits s) <? fu_get k (lim l) then (updateFU s FU, true)
      else (s, false)
  end.

(** All limits but that of [conversion] are tested. *)
Definition unlimitedMode (l : FuLimits) : bool :=
  (counter_units (lim l) =? -1) && (int_adder_units (lim l) =? -1) &&
  (int_multiply_units (lim l) =? -1) && (int_shifter_units (lim l) =? -1) &&
  (int_bit_units (lim l) =? -1) && (fp_sp_adder (lim l) =? -1) && (fp_dp_adder (lim l) =? -1) &&
  (fp_sp_multiply (lim l) =? -1) && (fp_sp_division l =? -1) && (fp_dp_multiply (lim l) =? -1) &&
  (fp_dp_division l =? -1) && (compare (lim l) =? -1) && (gep (lim l) =? -1).

(** ** Cycle classification: LLVMInterface::occupancy *)

Record OccCounters := mkOcc {
  loadStoreComp : Z; loadStore : Z; loadComp : Z; loadOnly : Z;
  storeComp : Z; storeOnly : Z; compOnly : Z; stalls : Z;
  loadStoreCompStall : Z; loadStoreStall : Z; loadCompStall : Z; loadOnlyStall : Z;
  storeCompStall : Z; storeOnlyStall : Z; compOnlyStall : Z;
}.
Definition OccCounters_zero : OccCounters := mkOcc 0 0 0 0 0 0 0 0 0 0 0 0 0 0 0.

Inductive OccField :=
  | O_loadStoreComp | O_loadStore | O_loadComp | O_loadOnly | O_storeComp | O_storeOnly | O_compOnly
  | O_stalls | O_loadStoreCompStall | O_loadStoreStall | O_loadCompStall | O_loadOnlyStall
  | O_storeCompStall | O_storeOnlyStall | O_compOnlyStall.
#[export] Instance OccField_eq_dec : EqDecision OccField.
Proof. solve_decision. Defined.

Definition occ_get (k : OccField) (c : OccCounters) : Z :=
  match k with
  | O_loadStoreComp => loadStoreComp c
  | O_loadStore => loadStore c
  | O_loadComp => loadComp c
  | O_loadOnly => loadOnly c
  | O_storeComp => storeComp c
  | O_storeOnly => storeOnly c
  | O_compOnly => compOnly c
  | O_stalls => stalls c
  | O_loadStoreCompStall => loadStoreCompStall c
  | O_loadStoreStall => loadStoreStall c
  | O_loadCompStall => loadCompStall c
  | O_loadOnlyStall => loadOnlyStall c
  | O_storeCompStall => storeCompStall c
  | O_storeOnlyStall => storeOnlyStall c
  | O_compOnlyStall => compOnlyStall c
  end.

(** [counter++] on an [int]. *)
Definition occ_incr (k : OccField) (c : OccCounters) : OccCounters :=
  let v j := if decide (j = k) then s32 (occ_get j c + 1) else occ_get j c in
  mkOcc (v O_loadStoreComp) (v O_loadStore) (v O_loadComp) (v O_loadOnly)
    (v O_storeComp) (v O_storeOnly) (v O_compOnly) (v O_stalls)
    (v O_loadStoreCompStall) (v O_loadStoreStall) (v O_loadCompStall)
    (v O_loadOnlyStall) (v O_storeCompStall) (v O_storeOnlyStall) (v O_compOnlyStall).

(** The flags [loadOpScheduled], [storeOpScheduled], [compOpScheduled] of the
    cycle and the queue sizes at its start. *)
Definition occupancy (loadOpScheduled storeOpScheduled compOpScheduled : bool)
    (loadInFlight storeInFlight compInFlight : Z) (c : OccCounters) : OccCounters :=
  if loadOpScheduled then
    if storeOpScheduled then
      if compOpScheduled then occ_incr O_loadStoreComp c
      else occ_incr O_loadStore c
    else if compOpScheduled then occ_incr O_loadComp c
    else occ_incr O_loadOnly c
  else if storeOpScheduled then
    if compOpScheduled then occ_incr O_storeComp c
    else occ_incr O_storeOnly c
  else if compOpScheduled then occ_incr O_compOnly c
  else
    let c := occ_incr O_stalls c in
    if negb (loadInFlight =? 0) then
      if negb (storeInFlight =? 0) then
        if negb (compInFlight =? 0) then occ_incr O_loadStoreCompStall c
        else occ_incr O_loadStoreStall c
      else if negb (compInFlight =? 0) then occ_incr O_loadCompStall c
      else occ_incr O_loadOnlyStall c
    else if negb (storeInFlight =? 0) then
      if negb (compInFlight =? 0) then occ_incr O_storeCompStall c
      else occ_incr O_storeOnlyStall c
    else if negb (compInFlight =? 0) then occ_incr O_compOnlyStall c
    else c.

(** ** FunctionalUnit and Hardware

    The power and area figures of a unit are left out: they are looked up once
    and only printed. *)
Record FunctionalUnit := mkFunctionalUnit {
  hardwareUnit : Z;
  cycle_count : Z;
  parse_count : Z;
  dynamic_count : Z;
  dynamic_max : Z;
  static_limit : Z;
  multistage : bool;
}.
Definition FunctionalUnit_new (HardwareUnit : Z) : FunctionalUnit :=
  mkFunctionalUnit (u8 HardwareUnit) 0 0 0 0 0 false.
Definition updateDynamic (u : FunctionalUnit) : FunctionalUnit :=
  mkFunctionalUnit (hardwareUnit u) (cycle_count u) (parse_count u) (s32 (dynamic_count u + 1))
    (dynamic_max u) (static_limit u) (multistage u).
Definition maxDynamic (u : FunctionalUnit) : FunctionalUnit :=
  mkFunctionalUnit (hardwareUnit u) (cycle_count u) (parse_count u) (dynamic_count u)
    (if dynamic_max u <? dynamic_count u then dynamic_count u else dynamic_max u)
    (static_limit u) (multistage u).
Definition setStatic (u : FunctionalUnit) (Static : Z) : FunctionalUnit :=
  mkFunctionalUnit (hardwareUnit u) (cycle_count u) (parse_count u) (dynamic_count u)
    (dynamic_max u) (if Static =? 0 then parse_count u else Static) (multistage u).
Definition updateParse (u : FunctionalUnit) : FunctionalUnit :=
  mkFunctionalUnit (hardwareUnit u) (cycle_count u) (s32 (parse_count u + 1)) (dynamic_count u)
    (dynamic_max u) (static_limit u) (multistage u).
Definition fu_reset (u : FunctionalUnit) : FunctionalUnit :=
  mkFunctionalUnit (hardwareUnit u) (cycle_count u) (parse_count u) 0
    (dynamic_max u) (static_limit u) (multistage u).
Definition multistaged (u : FunctionalUnit) : FunctionalUnit :=
  mkFunctionalUnit (hardwareUnit u) (cycle_count u) (parse_count u) (dynamic_count u)
    (dynamic_max u) (static_limit u) true.
Definition fu_available (u : FunctionalUnit) : FunctionalUnit * bool :=
  if (dynamic_count u <? static_limit u) || (static_limit u <? 0)
  then (updateDynamic u, true) else (u, false).

(** [Hardware]: the units in the order of the class: one per unit number, the
    last one for every other number. *)
Record Hardware := mkHardware {
  hw_units : list FunctionalUnit;
  registers : FunctionalUnit;
  hw_other : FunctionalUnit;
  hw_loads : Z;
  hw_stores : Z;
  control_flow : Z;
}.

(** [fp_sp_division] is built with the number of the double precision unit. *)
Definition hw_numbers : list Z :=
  [COUNTER; INTADDER; INTMULTI; INTSHIFTER; INTBITWISE; FPSPADDER; FPDPADDER; FPSPMULTI;
   FPDPDIVID; FPDPMULTI; FPDPDIVID; COMPARE; GETELEMENTPTR; CONVERSION].
Definition Hardware_new : Hardware :=
  mkHardware (FunctionalUnit_new <$> hw_numbers) (FunctionalUnit_new REGISTER)
    (FunctionalUnit_new OTHER) 0 0 0.

(** The position of the unit a [switch(HardwareUnit)] selects. *)
Definition hw_slot (HardwareUnit : Z) : option nat :=
  let h := u8 HardwareUnit in
  if h <? 14 then Some (Z.to_nat h) else None.

Definition set_hw_units (h : Hardware) (l : list FunctionalUnit) : Hardware :=
  mkHardware l (registers h) (hw_other h) (hw_loads h) (hw_stores h) (control_flow h).
Definition set_hw_other (h : Hardware) (u : FunctionalUnit) : Hardware :=
  mkHardware (hw_units h) (registers h) u (hw_loads h) (hw_stores h) (control_flow h).

Definition hw_updateParsed (h : Hardware) (HardwareUnit : Z) : Hardware :=
  match hw_slot HardwareUnit with
  | Some k => set_hw_units h (alter updateParse k (hw_units h))
  | None => set_hw_other h (updateParse (hw_other h))
  end.
Definition hw_updateDynamic (h : Hardware) (HardwareUnit : Z) : Hardware :=
  match hw_slot HardwareUnit with
  | Some k => set_hw_units h (alter updateDynamic k (hw_units h))
  | None => set_hw_other h (updateDynamic (hw_other h))
  end.
Definition hw_available (h : Hardware) (HardwareUnit : Z) : Hardware * bool :=
  match hw_slot HardwareUnit with
  | Some k =>
      match hw_units h !! k with
      | Some u => let (u', b) := fu_available u in
                  (set_hw_units h (<[k := u']> (hw_units h)), b)
      | None => (h, true)
      end
  | None => (h, true)
  end.
Definition hw_updateMax (h : Hardware) : Hardware := set_hw_units h (maxDynamic <$> hw_units h).
Definition hw_reset (h : Hardware) : Hardware := set_hw_units h (fu_reset <$> hw_units h).
Definition hw_update (h : Hardware) : Hardware := hw_reset (hw_updateMax h).
(** [updateLimit], the fourteen arguments as a list. *)
Definition hw_updateLimit (h : Hardware) (limits : list Z) : Hardware :=
  set_hw_units h (zip_with setStatic (hw_units h) limits).
Definition hw_pipelined (h : Hardware) : Hardware :=
  set_hw_units h (imap (fun k u => if (5 <=? k)%nat && (k <=? 10)%nat then multistaged u else u)
                    (hw_units h)).

(** ** Properties *)

(** The requests of one cycle, in order, and the answers. *)
Fixpoint grant_all (l : FuLimits) (s : FuState) (reqs : list Z) : FuState * list bool :=
  match reqs with
  | [] => (s, [])
  | FU :: reqs =>
      let (s', b) := limitedFU l s FU in
      let (s'', bs) := grant_all l s' reqs in (s'', b :: bs)
  end.

Definition requests_of (k : FuField) (reqs : list Z) : Z :=
  Z.of_nat (length (filter (fun FU => fu_field FU = k) reqs)).
Definition grants_of (k : FuField) (reqs : list Z) (bs : list bool) : Z :=
  Z.of_nat (length (filter (fun p => fu_field p.1 = k ∧ p.2 = true) (zip reqs bs))).

Lemma s32_incr z : 0 ≤ z < 2 ^ 31 - 1 → s32 (z + 1) = z + 1.
Proof. intros. apply wrapS_id; unfold inS; lia. Qed.

Lemma updateFU_get s FU k :
  fu_get k (_FunctionalUnits (updateFU s FU))
  = if decide (fu_field FU = k) then s32 (fu_get k (_FunctionalUnits s) + 1)
    else fu_get k (_FunctionalUnits s).
Proof.
  unfold updateFU, incr_unit. simpl. rewrite fu_get_upd.
  destruct (decide _) as [->|]; done.
Qed.

(** One request: granted exactly while the counter is below the limit. *)
Lemma limitedFU_step l s FU k :
  k ≠ F_other → 0 ≤ fu_get k (lim l) < 2 ^ 31 - 1 →
  0 ≤ fu_get k (_FunctionalUnits s) ≤ fu_get k (lim l) →
  let r := limitedFU l s FU in
  let granted := bool_decide (fu_field FU = k) && r.2 in
  fu_get k (_FunctionalUnits r.1) = fu_get k (_FunctionalUnits s) + Z.b2z granted ∧
  (fu_field FU = k → r.2 = bool_decide (fu_get k (_FunctionalUnits s) < fu_get k (lim l))).
Proof.
  intros Hk Hl Hs. destruct (decide (fu_field FU = k)) as [E|E].
  - assert (limitedFU l s FU =
      if fu_get k (_FunctionalUnits s) <? fu_get k (lim l) then (updateFU s FU, true)
      else (s, false)) as ->.
    { unfold limitedFU. rewrite E. destruct k; try done;
        cbv zeta; rewrite (proj2 (Z.eqb_neq _ (-1))) by lia; done. }
    rewrite bool_decide_true by done. case_zbool; cbn [fst snd andb Z.b2z]; (split; [|intros _]).
    + rewrite updateFU_get, decide_True by done. apply s32_incr. lia.
    + by rewrite bool_decide_true.
    + lia.
    + by rewrite bool_decide_false by lia.
  - rewrite bool_decide_false by done. simpl. split; [|done]. rewrite Z.add_0_r.
    unfold limitedFU. destruct (fu_field FU) eqn:EF; try done;
      repeat case_zbool; cbn [fst snd]; rewrite ?updateFU_get, ?EF, ?decide_False by done; done.
Qed.

Lemma grant_all_counts l k : ∀ reqs s,
  k ≠ F_other → 0 ≤ fu_get k (lim l) < 2 ^ 31 - 1 →
  0 ≤ fu_get k (_FunctionalUnits s) ≤ fu_get k (lim l) →
  let r := grant_all l s reqs in
  fu_get k (_FunctionalUnits r.1) = fu_get k (_FunctionalUnits s) + grants_of k reqs r.2 ∧
  grants_of k reqs r.2
  = Z.min (requests_of k reqs) (fu_get k (lim l) - fu_get k (_FunctionalUnits s)).
Proof.
  induction reqs as [|FU reqs IH]; intros s Hk Hl Hs; simpl.
  - unfold grants_of, requests_of. simpl. lia.
  - destruct (limitedFU_step l s FU k Hk Hl Hs) as [Hc Hg].
    destruct (limitedFU l s FU) as [s' b] eqn:E. simpl in Hc, Hg.
    assert (fu_get k (_FunctionalUnits s') ≤ fu_get k (lim l)).
    { destruct (decide (fu_field FU = k)) as [D|D];
        [rewrite bool_decide_true in Hc by done|rewrite bool_decide_false in Hc by done];
        simpl in Hc; [|lia]. rewrite (Hg D) in Hc.
      destruct (decide (fu_get k (_FunctionalUnits s) < fu_get k (lim l))).
      - rewrite bool_decide_true in Hc by done. simpl in Hc. lia.
      - rewrite bool_decide_false in Hc by done. simpl in Hc. lia. }
    assert (0 ≤ Z.b2z (bool_decide (fu_field FU = k) && b)) by (destruct (_ && _); simpl; lia).
    specialize (IH s' Hk Hl ltac:(lia)). cbv zeta in IH.
    destruct (grant_all l s' reqs) as [s'' bs]. simpl in IH |- *.
    destruct IH as [IH1 IH2]. unfold grants_of, requests_of in *. cbn [zip zip_with].
    rewrite !filter_cons. simpl.
    destruct (decide (fu_field FU = k)) as [D|D].
    + rewrite bool_decide_true in Hc by done. specialize (Hg D). simpl in Hc.
      destruct b; simpl in Hc.
      * rewrite decide_True by done. symmetry in Hg. apply bool_decide_eq_true in Hg.
        cbn [length]. lia.
      * rewrite decide_False by (by intros [??]). symmetry in Hg. apply bool_decide_eq_false in Hg.
        cbn [length]. lia.
    + rewrite bool_decide_false in Hc by done. simpl in Hc.
      rewrite decide_False by (by intros [??]). lia.
Qed.

(** Functional unit limits: within a cycle, which [clearFU] starts with
    all counters at zero, exactly the first [L] requests for a unit of limit
    [L >= 0] are granted, and the cycle's counter of the unit ends at that
    number. *)
Theorem limitedFU_grants l s tracking reqs k
    (Hk : k ≠ F_other) (Hl : 0 ≤ fu_get k (lim l) < 2 ^ 31 - 1) :
  let r := grant_all l (clearFU tracking s) reqs in
  grants_of k reqs r.2 = Z.min (requests_of k reqs) (fu_get k (lim l)) ∧
  fu_get k (_FunctionalUnits r.1) = grants_of k reqs r.2.
Proof.
  assert (fu_get k (_FunctionalUnits (clearFU tracking s)) = 0) as H0 by (by destruct k).
  destruct (grant_all_counts l k reqs (clearFU tracking s) Hk Hl ltac:(lia)) as [H1 H2].
  cbv zeta in *. rewrite H0 in *. split; [rewrite H2; f_equal; lia|lia].
Qed.

Lemma limitedFU_grants_witness :
  let l := mkLimits (fu_build (fun k => match k with F_int_adder_units => 2 | _ => -1 end)) (-1) (-1) in
  let s := mkFuState (fu_build (fun _ => 7)) (fu_build (fun _ => 0)) (fu_build (fun _ => 0))
    (fu_build (fun _ => S754_zero false)) (fu_build (fun _ => 0))
    (fu_build (fun _ => S754_zero false)) [] in
  let r := grant_all l (clearFU false s) [1; 2; 1; 1] in
  grants_of F_int_adder_units [1; 2; 1; 1] r.2 = Z.min 3 2 ∧
  fu_get F_int_adder_units (_FunctionalUnits r.1) = grants_of F_int_adder_units [1; 2; 1; 1] r.2.
Proof. cbv zeta. apply limitedFU_grants; [discriminate|vm_compute; split; congruence]. Defined.
