(* ===== verification/Parser.v ===== *)
(** Model of [hwacc/LLVMRead/src/basic_block.{hh,cc}]: a line of the IR becomes an
    instruction object of a basic block, its registers are entered in the
    register list.  Then the reader of the IR file,
    [LLVMInterface::constructBBList] of [hwacc/llvm_interface.cc].  The latencies
    are those of [cycle_count.hh].

    A local variable the code may pass on without having set it holds [junk]: any
    integer, any pointer to a register; passing an unset pointer to a constructor
    that keeps it as the address of an access is undefined. *)
From stdpp Require Import strings.
From S2P Require Import Prelude CppString CppFloat CppNumber Macros Registers Instructions FunctionalUnits Tokens.
From Stdlib Require Import Ascii String Floats.SpecFloat.

#[local] Open Scope string_scope.
#[local] Open Scope list_scope.
#[local] Open Scope Z_scope.

(** What a variable that was not set holds. *)
Record Junk := mkJunk { junk_int : Z; junk_reg : option nat }.

(** ** Latencies *)

Record CycleCounts := mkCycleCounts {
  counter_inst : Z; gep_inst : Z; phi_inst : Z; select_inst : Z; ret_inst : Z; br_inst : Z;
  switch_inst : Z; indirectbr_inst : Z; invoke_inst : Z; resume_inst : Z; unreachable_inst : Z;
  icmp_inst : Z; fcmp_inst : Z; trunc_inst : Z; zext_inst : Z; sext_inst : Z; fptrunc_inst : Z;
  fpext_inst : Z; fptoui_inst : Z; fptosi_inst : Z; uitofp_inst : Z; ptrtoint_inst : Z;
  inttoptr_inst : Z; bitcast_inst : Z; addrspacecast_inst : Z; call_inst : Z; vaarg_inst : Z;
  landingpad_inst : Z; catchpad_inst : Z; alloca_inst : Z; load_inst : Z; store_inst : Z;
  fence_inst : Z; cmpxchg_inst : Z; atomicrmw_inst : Z; extractvalue_inst : Z;
  insertvalue_inst : Z; extractelement_inst : Z; insertelement_inst : Z; shufflevector_inst : Z;
  shl_inst : Z; lshr_inst : Z; ashr_inst : Z; and_inst : Z; or_inst : Z; xor_inst : Z;
  add_inst : Z; sub_inst : Z; mul_inst : Z; udiv_inst : Z; sdiv_inst : Z; urem_inst : Z;
  srem_inst : Z; fadd_inst : Z; fsub_inst : Z; fmul_inst : Z; fdiv_inst : Z; frem_inst : Z;
}.

(** ** Opcodes *)

Inductive opValue :=
  | evNotDefined | IR_Move | IR_Ret | IR_Br | IR_Switch | IR_IndirectBr | IR_Invoke | IR_Resume
  | IR_Unreachable | IR_Add | IR_FAdd | IR_Sub | IR_FSub | IR_Mul | IR_FMul | IR_UDiv | IR_SDiv
  | IR_FDiv | IR_URem | IR_SRem | IR_FRem | IR_Shl | IR_LShr | IR_AShr | IR_And | IR_Or | IR_Xor
  | IR_Alloca | IR_Load | IR_Store | IR_GetElementPtr | IR_Fence | IR_AtomicCmpXchg | IR_AtomicRMW
  | IR_Trunc | IR_ZExt | IR_SExt | IR_FPToUI | IR_FPToSI | IR_UIToFP | IR_SIToFP | IR_FPTrunc | IR_FPExt
  | IR_PtrToInt | IR_IntToPtr | IR_BitCast | IR_AddrSpaceCast | IR_ICmp | IR_FCmp | IR_PHI | IR_Call
  | IR_Select | IR_VAArg | IR_ExtractElement | IR_InsertElement | IR_ShuffleVector | IR_ExtractValue
  | IR_InsertValue | IR_LandingPad | IR_DMAFence | IR_DMAStore | IR_DMALoad | IR_IndexAdd
  | IR_SilentStore | IR_Sine | IR_Cosine.
#[export] Instance opValue_eq_dec : EqDecision opValue.
Proof. solve_decision. Defined.

(** [switch_opMap]; [operator[]] of a missing key gives 0, [evNotDefined]. *)
Definition switch_opMap : list (string * opValue) :=
  [("move", IR_Move); ("ret", IR_Ret); ("br", IR_Br); ("switch", IR_Switch);
   ("indirectbr", IR_IndirectBr); ("invoke", IR_Invoke); ("resume", IR_Resume);
   ("unreachable", IR_Unreachable); ("add", IR_Add); ("fadd", IR_FAdd); ("sub", IR_Sub);
   ("fsub", IR_FSub); ("mul", IR_Mul); ("fmul", IR_FMul); ("udiv", IR_UDiv); ("sdiv", IR_SDiv);
   ("fdiv", IR_FDiv); ("urem", IR_URem); ("srem", IR_SRem); ("frem", IR_FRem); ("shl", IR_Shl);
   ("lshr", IR_LShr); ("ashr", IR_AShr); ("and", IR_And); ("or", IR_Or); ("xor", IR_Xor);
   ("alloca", IR_Alloca); ("load", IR_Load); ("store", IR_Store); ("getelementptr", IR_GetElementPtr);
   ("fence", IR_Fence); ("cmpxchg", IR_AtomicCmpXchg); ("atomicrmw", IR_AtomicRMW); ("trunc", IR_Trunc);
   ("zext", IR_ZExt); ("sext", IR_SExt); ("fptoui", IR_FPToUI); ("fptosi", IR_FPToSI);
   ("uitofp", IR_UIToFP); ("sitofp", IR_SIToFP); ("fptrunc", IR_FPTrunc); ("fpext", IR_FPExt);
   ("ptrtoint", IR_PtrToInt); ("inttoptr", IR_IntToPtr); ("bitcast", IR_BitCast);
   ("addrspacecast", IR_AddrSpaceCast); ("icmp", IR_ICmp); ("fcmp", IR_FCmp); ("phi", IR_PHI);
   ("call", IR_Call); ("select", IR_Select); ("va_arg", IR_VAArg);
   ("extractelement", IR_ExtractElement); ("insertelement", IR_InsertElement);
   ("shufflevector", IR_ShuffleVector); ("extractvalue", IR_ExtractValue);
   ("insertvalue", IR_InsertValue); ("landingpad", IR_LandingPad); ("dmafence", IR_DMAFence);
   ("dmastore", IR_DMAStore); ("dmaload", IR_DMALoad); ("indexadd", IR_IndexAdd);
   ("silentstore", IR_SilentStore); ("sine", IR_Sine); ("cosine", IR_Cosine)].
Definition op_lookup (opCode : string) : opValue :=
  match find (fun p => String.eqb p.1 opCode) switch_opMap with
  | Some p => p.2
  | None => evNotDefined
  end.

(** ** Immediates *)

Fixpoint str_put (n : nat) (c : ascii) (s : string) : string :=
  match s, n with
  | EmptyString, _ => EmptyString
  | String _ s, O => String c s
  | String d s, S n => String d (str_put n c s)
  end.
(** [s[i] = c]. *)
Definition str_set (s : string) (i : Z) (c : ascii) : outcome string :=
  if (0 <=? i) && (i <? strlen s) then Ok (str_put (Z.to_nat i) c s) else Err Undefined.

(** The last [.] and the last [e] before the final character. *)
Fixpoint sci_scan (s : string) (i decimalLocation magnitudeLoc : Z) : Z * Z :=
  match s with
  | String c (String _ _ as s') =>
      sci_scan s' (i + 1) (if Ascii.eqb c "." then i else decimalLocation)
        (if Ascii.eqb c "e" then i else magnitudeLoc)
  | _ => (decimalLocation, magnitudeLoc)
  end.

(** [immediateValue[i] = immediateValue[i + 1]], [n] times from [i] on. *)
Fixpoint sci_shift (n : nat) (s : string) (i : Z) : outcome string :=
  match n with
  | O => Ok s
  | S n =>
      let* c := str_index s (i + 1) in
      let* s := str_set s i c in
      sci_shift n s (i + 1)
  end.

(** For the empty string the bound [length() - 1] of the loop wraps around. *)
Definition sciToDecimal (immediateValue : string) : outcome string :=
  if strlen immediateValue =? 0 then Err Undefined else
  let (decimalLocation, magnitudeLoc) := sci_scan immediateValue 0 0 0 in
  let* exponent := str_substr_from immediateValue (magnitudeLoc + 2) in
  let magnitude := s32 (atol exponent) in
  let* v := sci_shift (Z.to_nat magnitude) immediateValue decimalLocation in
  let* v := str_set v (decimalLocation + magnitude) "." in
  str_substr v 0 magnitudeLoc.

Definition convertImmediate (dataType immediateValue : string) : outcome string :=
  let* c := str_index immediateValue 1 in
  let hex := Ascii.eqb c "x" in
  if String.eqb dataType "double" then
    if hex then
      let doub := fp_of_int double_ (strtol immediateValue 16) in
      let* convert := fp_to_u64 doub in
      Ok (to_string_double (fp_decode double_ convert))
    else sciToDecimal immediateValue
  else if String.eqb dataType "float" then
    if hex then
      let flt := fp_of_int float_ (strtol immediateValue 16) in
      let* _ := fp_to_u64 flt in
      Ok (to_string_double flt)
    else sciToDecimal immediateValue
  else if hex then Ok (to_string_int (s32 (strtol immediateValue 0)))
  else sciToDecimal immediateValue.

(** ** The state of [parse] *)

(** What a line is after the parameters have been found. *)
Record Line := mkLine {
  lineCpy : string;
  opCode : string;
  ret_reg : option nat;
  parameters : list string;
}.
(** The register list and [dependencies]. *)
Record PS := mkPS { ps_list : RegisterList; dependencies : list (option nat) }.
(** [functionalUnit], the register list and the node, if one is added. *)
Definition Parsed : Type := Z * RegisterList * option Instruction.

(** [parameters[k]]. *)
Definition param (ps : list string) (k : Z) : outcome string :=
  if 0 <=? k then vec_get ps (Z.to_nat k) else Err Undefined.
Definition last_ (ps : list string) : Z := Z.of_nat (List.length ps) - 1.

Definition isRegister (data : string) : bool :=
  match data with String c _ => Ascii.eqb c "%" | EmptyString => false end.

(** [new Register(name)] and [addRegister]: the pointer and the new list. *)
Definition newRegister (rl : RegisterList) (name : string) : nat * RegisterList :=
  (List.length (_RegList rl), addRegister rl (Register_new name 0)).

Definition setRegister (data : string) (s : PS) : outcome (nat * PS) :=
  let* name := str_substr_from data 1 in
  let (r, rl) := match findRegister (ps_list s) name with
                 | None => newRegister (ps_list s) name
                 | Some r => (r, ps_list s)
                 end in
  Ok (r, mkPS rl (dependencies s ++ [Some r])).

(** [reg->setSize(type)] and [reg->setValue(&address)]. *)
Definition set_size_at (s : PS) (r : nat) (type : string) : outcome PS :=
  let* g := reg_at (ps_list s) r in
  let* g := setSize g type in
  Ok (mkPS (reg_set (ps_list s) r g) (dependencies s)).
Definition set_value_at (s : PS) (r : nat) (v : Z) : outcome PS :=
  let* g := reg_at (ps_list s) r in
  let* g := setValue g v in
  Ok (mkPS (reg_set (ps_list s) r g) (dependencies s)).
(** The same through [ret_reg], which may be [NULL]. *)
Definition ret_setSize (l : Line) (s : PS) (type : string) : outcome PS :=
  match ret_reg l with Some r => set_size_at s r type | None => Err Undefined end.

Definition setFlags (_ : list string) : Z := 0.

Definition is_arith (instructionType : string) : bool :=
  String.eqb instructionType "Binary" || String.eqb instructionType "Bitwise".

Definition initializeReturnRegister (l : Line) (s : PS) (instructionType : string) : outcome (string * PS) :=
  if is_arith instructionType then
    let* returnType := param (parameters l) (last_ (parameters l) - 2) in
    let* s := ret_setSize l s returnType in
    Ok (returnType, s)
  else Ok ("", s).

(** One operand, appended if it is a register. *)
Definition reg_operand (data : string) (operands : list nat) (s : PS) : outcome (list nat * PS) :=
  if isRegister data then let* (op, s) := setRegister data s in Ok ((operands ++ [op]), s)
  else Ok (operands, s).

Definition setRegOperands (l : Line) (s : PS) (instructionType : string) : outcome (list nat * PS) :=
  if is_arith instructionType then
    let* p1 := param (parameters l) (last_ (parameters l) - 1) in
    let* (operands, s) := reg_operand p1 [] s in
    let* p2 := param (parameters l) (last_ (parameters l)) in
    reg_operand p2 operands s
  else Ok ([], s).

Definition imm_operand (data : string) (operands : list string) : list string :=
  if isRegister data then operands else (operands ++ [data]).

Definition setImmOperands (l : Line) (instructionType : string) : outcome (list string) :=
  if is_arith instructionType then
    let* p1 := param (parameters l) (last_ (parameters l) - 1) in
    let* p2 := param (parameters l) (last_ (parameters l)) in
    Ok (imm_operand p2 (imm_operand p1 []))
  else Ok [].

Definition immPosition (ps : list string) : outcome bool :=
  let* p := param ps (last_ ps - 1) in
  let* c := str_index p 0 in
  Ok (negb (Ascii.eqb c "%")).

(** The arguments of the constructors. *)
Definition base_args (l : Line) (s : PS) (returnType instructionType : string) (maxCycles : Z) : BaseArgs :=
  mkArgs (lineCpy l) (opCode l) returnType instructionType (ret_reg l) maxCycles (dependencies s).

(** [addNode]. *)
Definition add_node (s : PS) (functionalUnit : Z) (i : Instruction) : outcome Parsed :=
  Ok (functionalUnit, ps_list s, Some i).
Definition no_node (s : PS) : outcome Parsed := Ok (-1, ps_list s, None).

(** [immOp], 0 without an immediate operand. *)
Definition int_imm (immOps : list string) : Z := match immOps with [] => 0 | t :: _ => atol t end.
Definition fp_imm (returnType : string) (immOps : list string) : outcome Z :=
  match immOps with
  | [] => Ok 0
  | t :: _ => let* d := convertImmediate returnType t in stod d
  end.

Section Parse.
Context (junk : Junk) (cycles : CycleCounts) (typeList : TypeList) (is_pipelined : bool).

(** [if (pipelined) node->pipelined()]. *)
Definition staged (i : Instruction) : outcome Instruction :=
  if is_pipelined then pipelined i else Ok i.

(** ** The cases of the [switch] *)

(** *** Terminators *)

Definition parse_Ret (l : Line) (s : PS) : outcome Parsed :=
  let* p := param (parameters l) (last_ (parameters l)) in
  let returnType := if str_find p "void" =? 0 then "" else "void" in
  add_node s (-1) (Ret_new (junk_int junk) (base_args l s returnType "Terminator" (ret_inst cycles))).

Definition parse_Br (l : Line) (s : PS) : outcome Parsed :=
  if (List.length (parameters l) =? 3)%nat then
    let* p := param (parameters l) 2 in
    let* dest := str_substr_from p 1 in
    add_node s (-1) (Br_new (junk_int junk) (base_args l s "void" "Terminator" (br_inst cycles)) dest true)
  else
    let* returnType := param (parameters l) 1 in
    let* p4 := param (parameters l) 4 in
    let* iftrue := str_substr_from p4 1 in
    let* p6 := param (parameters l) 6 in
    let* iffalse := str_substr_from p6 1 in
    let* p2 := param (parameters l) 2 in
    let* (condition, s) := setRegister p2 s in
    let* s := set_size_at s condition returnType in
    add_node s COMPARE (Br_cond_new (junk_int junk) (base_args l s returnType "Terminator" (br_inst cycles))
      (Some condition) [iftrue; iffalse] false COMPARE).

Fixpoint count_percent (s : string) : nat :=
  match s with
  | EmptyString => 0
  | String c s => if Ascii.eqb c "%" then S (count_percent s) else count_percent s
  end.

(** The [while] over the cases; [location] is an [int]. *)
Fixpoint switch_loop (n : nat) (p : string) (location : Z) (branches : list string) (caseValues : list Z)
    : outcome (list string * list Z) :=
  match n with
  | O => Ok (branches, caseValues)
  | S n =>
      let location := s32 (str_find_from p "i" (u64 location)) in
      let location := s32 (str_find_from p " " (u64 location) + 1) in
      let len := s32 (str_find_from p "," (u64 location) - location) in
      let* v := str_substr p location len in
      let location := s32 (str_find_from p "%" (u64 location) + 1) in
      let len := s32 (str_find_from p " " (u64 location) - location) in
      let* b := str_substr p location len in
      switch_loop n p location (branches ++ [b]) (caseValues ++ [s32 (atol v)])
  end.

Definition parse_Switch (l : Line) (s : PS) : outcome Parsed :=
  let* returnType := param (parameters l) 1 in
  let* p4 := param (parameters l) 4 in
  let* dflt := str_substr_from p4 1 in
  let* p2 := param (parameters l) 2 in
  let* (condition, s) := setRegister p2 s in
  let* p5 := param (parameters l) 5 in
  let* (branches, caseValues) := switch_loop (count_percent p5) p5 0 [dflt] [0] in
  add_node s COMPARE (LLVMSwitch_new (junk_int junk) (base_args l s returnType "Terminator" (switch_inst cycles))
    (Some condition) branches caseValues COMPARE).

(** [invoke] falls through to [resume], which adds no node. *)
Definition parse_Resume (l : Line) (s : PS) : outcome Parsed :=
  let* _ := param (parameters l) 0 in
  let* p := param (parameters l) 1 in
  let* (_, s) := setRegister p s in
  no_node s.
Definition parse_Invoke (l : Line) (s : PS) : outcome Parsed := parse_Resume l s.

(** *** Binary and bitwise operations

    [add] with an immediate operand is a counter. *)

Definition parse_Add (l : Line) (s : PS) : outcome Parsed :=
  let computeFlags := setFlags (parameters l) in
  let* (returnType, s) := initializeReturnRegister l s "Binary" in
  let* (regOps, s) := setRegOperands l s "Binary" in
  let* immOps := setImmOperands l "Binary" in
  let* immFirst := immPosition (parameters l) in
  let counter := negb (bool_decide (immOps = [])) in
  let maxCycles := if counter then counter_inst cycles else add_inst cycles in
  let instructionType := if counter then "Counter" else "Binary" in
  let functionalUnit := if counter then COUNTER else INTADDER in
  let a := base_args l s returnType instructionType maxCycles in
  add_node s functionalUnit (Add_new (junk_int junk) a regOps computeFlags (int_imm immOps) immFirst functionalUnit).

Definition parse_Sub (l : Line) (s : PS) : outcome Parsed :=
  let computeFlags := setFlags (parameters l) in
  let* (returnType, s) := initializeReturnRegister l s "Binary" in
  let* (regOps, s) := setRegOperands l s "Binary" in
  let* immOps := setImmOperands l "Binary" in
  let* immFirst := immPosition (parameters l) in
  let a := base_args l s returnType "Binary" (sub_inst cycles) in
  add_node s INTADDER (Sub_new (junk_int junk) a regOps computeFlags (int_imm immOps) immFirst INTADDER).

Definition parse_Mul (l : Line) (s : PS) : outcome Parsed :=
  let computeFlags := setFlags (parameters l) in
  let* (returnType, s) := initializeReturnRegister l s "Binary" in
  let* (regOps, s) := setRegOperands l s "Binary" in
  let* immOps := setImmOperands l "Binary" in
  let* immFirst := immPosition (parameters l) in
  let a := base_args l s returnType "Binary" (mul_inst cycles) in
  add_node s INTMULTI (Mul_new (junk_int junk) a regOps computeFlags (int_imm immOps) immFirst INTMULTI).

Definition parse_UDiv (l : Line) (s : PS) : outcome Parsed :=
  let computeFlags := setFlags (parameters l) in
  let* (returnType, s) := initializeReturnRegister l s "Binary" in
  let* (regOps, s) := setRegOperands l s "Binary" in
  let* immOps := setImmOperands l "Binary" in
  let* immFirst := immPosition (parameters l) in
  let a := base_args l s returnType "Binary" (udiv_inst cycles) in
  add_node s INTMULTI (UDiv_new (junk_int junk) a regOps computeFlags (int_imm immOps) immFirst INTMULTI).

Definition parse_SDiv (l : Line) (s : PS) : outcome Parsed :=
  let computeFlags := setFlags (parameters l) in
  let* (returnType, s) := initializeReturnRegister l s "Binary" in
  let* (regOps, s) := setRegOperands l s "Binary" in
  let* immOps := setImmOperands l "Binary" in
  let* immFirst := immPosition (parameters l) in
  let a := base_args l s returnType "Binary" (sdiv_inst cycles) in
  add_node s INTMULTI (SDiv_new (junk_int junk) a regOps computeFlags (int_imm immOps) immFirst INTMULTI).

Definition parse_URem (l : Line) (s : PS) : outcome Parsed :=
  let computeFlags := setFlags (parameters l) in
  let* (returnType, s) := initializeReturnRegister l s "Binary" in
  let* (regOps, s) := setRegOperands l s "Binary" in
  let* immOps := setImmOperands l "Binary" in
  let* immFirst := immPosition (parameters l) in
  let a := base_args l s returnType "Binary" (urem_inst cycles) in
  add_node s INTMULTI (URem_new (junk_int junk) a regOps computeFlags (int_imm immOps) immFirst INTMULTI).

Definition parse_SRem (l : Line) (s : PS) : outcome Parsed :=
  let computeFlags := setFlags (parameters l) in
  let* (returnType, s) := initializeReturnRegister l s "Binary" in
  let* (regOps, s) := setRegOperands l s "Binary" in
  let* immOps := setImmOperands l "Binary" in
  let* immFirst := immPosition (parameters l) in
  let a := base_args l s returnType "Binary" (srem_inst cycles) in
  add_node s INTMULTI (SRem_new (junk_int junk) a regOps computeFlags (int_imm immOps) immFirst INTMULTI).

Definition parse_Shl (l : Line) (s : PS) : outcome Parsed :=
  let computeFlags := setFlags (parameters l) in
  let* (returnType, s) := initializeReturnRegister l s "Bitwise" in
  let* (regOps, s) := setRegOperands l s "Bitwise" in
  let* immOps := setImmOperands l "Bitwise" in
  let* immFirst := immPosition (parameters l) in
  let a := base_args l s returnType "Bitwise" (shl_inst cycles) in
  add_node s INTSHIFTER (Shl_new (junk_int junk) a regOps computeFlags (int_imm immOps) immFirst INTSHIFTER).

Definition parse_LShr (l : Line) (s : PS) : outcome Parsed :=
  let computeFlags := setFlags (parameters l) in
  let* (returnType, s) := initializeReturnRegister l s "Bitwise" in
  let* (regOps, s) := setRegOperands l s "Bitwise" in
  let* immOps := setImmOperands l "Bitwise" in
  let* immFirst := immPosition (parameters l) in
  let a := base_args l s returnType "Bitwise" (lshr_inst cycles) in
  add_node s INTSHIFTER (LShr_new (junk_int junk) a regOps computeFlags (int_imm immOps) immFirst INTSHIFTER).

Definition parse_AShr (l : Line) (s : PS) : outcome Parsed :=
  let computeFlags := setFlags (parameters l) in
  let* (returnType, s) := initializeReturnRegister l s "Bitwise" in
  let* (regOps, s) := setRegOperands l s "Bitwise" in
  let* immOps := setImmOperands l "Bitwise" in
  let* immFirst := immPosition (parameters l) in
  let a := base_args l s returnType "Bitwise" (ashr_inst cycles) in
  add_node s INTSHIFTER (AShr_new (junk_int junk) a regOps computeFlags (int_imm immOps) immFirst INTSHIFTER).

Definition parse_And (l : Line) (s : PS) : outcome Parsed :=
  let computeFlags := setFlags (parameters l) in
  let* (returnType, s) := initializeReturnRegister l s "Bitwise" in
  let* (regOps, s) := setRegOperands l s "Bitwise" in
  let* immOps := setImmOperands l "Bitwise" in
  let* immFirst := immPosition (parameters l) in
  let a := base_args l s returnType "Bitwise" (and_inst cycles) in
  add_node s INTBITWISE (And_new (junk_int junk) a regOps computeFlags (int_imm immOps) immFirst INTBITWISE).

Definition parse_Or (l : Line) (s : PS) : outcome Parsed :=
  let computeFlags := setFlags (parameters l) in
  let* (returnType, s) := initializeReturnRegister l s "Bitwise" in
  let* (regOps, s) := setRegOperands l s "Bitwise" in
  let* immOps := setImmOperands l "Bitwise" in
  let* immFirst := immPosition (parameters l) in
  let a := base_args l s returnType "Bitwise" (or_inst cycles) in
  add_node s INTBITWISE (Or_new (junk_int junk) a regOps computeFlags (int_imm immOps) immFirst INTBITWISE).

Definition parse_Xor (l : Line) (s : PS) : outcome Parsed :=
  let computeFlags := setFlags (parameters l) in
  let* (returnType, s) := initializeReturnRegister l s "Bitwise" in
  let* (regOps, s) := setRegOperands l s "Bitwise" in
  let* immOps := setImmOperands l "Bitwise" in
  let* immFirst := immPosition (parameters l) in
  let a := base_args l s returnType "Bitwise" (xor_inst cycles) in
  add_node s INTBITWISE (Xor_new (junk_int junk) a regOps computeFlags (int_imm immOps) immFirst INTBITWISE).

Definition parse_FAdd (l : Line) (s : PS) : outcome Parsed :=
  let computeFlags := setFlags (parameters l) in
  let* (returnType, s) := initializeReturnRegister l s "Binary" in
  let* (regOps, s) := setRegOperands l s "Binary" in
  let* immOps := setImmOperands l "Binary" in
  let* immFirst := immPosition (parameters l) in
  let functionalUnit := if String.eqb returnType "double" then FPDPADDER else FPSPADDER in
  let* immOp := fp_imm returnType immOps in
  let a := base_args l s returnType "Binary" (fadd_inst cycles) in
  let* i := staged (FAdd_new (junk_int junk) a regOps computeFlags immOp immFirst functionalUnit) in
  add_node s functionalUnit i.

Definition parse_FSub (l : Line) (s : PS) : outcome Parsed :=
  let computeFlags := setFlags (parameters l) in
  let* (returnType, s) := initializeReturnRegister l s "Binary" in
  let* (regOps, s) := setRegOperands l s "Binary" in
  let* immOps := setImmOperands l "Binary" in
  let* immFirst := immPosition (parameters l) in
  let functionalUnit := if String.eqb returnType "double" then FPDPADDER else FPSPADDER in
  let* immOp := fp_imm returnType immOps in
  let a := base_args l s returnType "Binary" (fsub_inst cycles) in
  let* i := staged (FSub_new (junk_int junk) a regOps computeFlags immOp immFirst functionalUnit) in
  add_node s functionalUnit i.

Definition parse_FMul (l : Line) (s : PS) : outcome Parsed :=
  let computeFlags := setFlags (parameters l) in
  let* (returnType, s) := initializeReturnRegister l s "Binary" in
  let* (regOps, s) := setRegOperands l s "Binary" in
  let* immOps := setImmOperands l "Binary" in
  let* immFirst := immPosition (parameters l) in
  let functionalUnit := if String.eqb returnType "double" then FPDPMULTI else FPSPMULTI in
  let* immOp := fp_imm returnType immOps in
  let a := base_args l s returnType "Binary" (fmul_inst cycles) in
  let* i := staged (FMul_new (junk_int junk) a regOps computeFlags immOp immFirst functionalUnit) in
  add_node s functionalUnit i.

Definition parse_FDiv (l : Line) (s : PS) : outcome Parsed :=
  let computeFlags := setFlags (parameters l) in
  let* (returnType, s) := initializeReturnRegister l s "Binary" in
  let* (regOps, s) := setRegOperands l s "Binary" in
  let* immOps := setImmOperands l "Binary" in
  let* immFirst := immPosition (parameters l) in
  let functionalUnit := if String.eqb returnType "double" then FPDPDIVID else FPSPDIVID in
  let* immOp := fp_imm returnType immOps in
  let a := base_args l s returnType "Binary" (fdiv_inst cycles) in
  let* i := staged (FDiv_new (junk_int junk) a regOps computeFlags immOp immFirst functionalUnit) in
  add_node s functionalUnit i.

Definition parse_FRem (l : Line) (s : PS) : outcome Parsed :=
  let computeFlags := setFlags (parameters l) in
  let* (returnType, s) := initializeReturnRegister l s "Binary" in
  let* (regOps, s) := setRegOperands l s "Binary" in
  let* immOps := setImmOperands l "Binary" in
  let* immFirst := immPosition (parameters l) in
  let functionalUnit := if String.eqb returnType "double" then FPDPDIVID else FPSPDIVID in
  let* immOp := fp_imm returnType immOps in
  let a := base_args l s returnType "Binary" (frem_inst cycles) in
  let* i := staged (FRem_new (junk_int junk) a regOps computeFlags immOp immFirst functionalUnit) in
  add_node s functionalUnit i.

(** *** Memory operations *)

(** [while (parameters[align].compare("align") != 0) align++]. *)
Fixpoint find_align (ps : list string) (k : Z) : outcome Z :=
  match ps with
  | [] => Err Undefined
  | p :: ps => if String.eqb p "align" then Ok k else find_align ps (k + 1)
  end.

(** The second word of an [inttoptr] group, [(i64 address to type)]. *)
Definition inttoptr_word (group : string) : outcome string := vec_get (words group) 1.

(** The register that stands for a constant address. *)
Definition global_register (group : string) (s : PS) : outcome (nat * PS) :=
  let* w := inttoptr_word group in
  let* (pointer, s) := setRegister (String.append "%global_" w) s in
  let* s := set_value_at s pointer (u64 (atol w)) in
  Ok (pointer, s).

Definition contains_str (s t : string) : bool := negb (str_find s t =? npos).

Definition parse_Load (l : Line) (s : PS) : outcome Parsed :=
  let* p0 := param (parameters l) 0 in
  let index := if String.eqb p0 "volatile" then 1 else 0 in
  let* returnType := param (parameters l) index in
  let* s := ret_setSize l s returnType in
  let* align := find_align (parameters l) 0 in
  let* p := param (parameters l) (align - 2) in
  let* q := param (parameters l) (align - 1) in
  let* (pointer, s) :=
    if contains_str p "inttoptr" then global_register q s
    else if isRegister q then setRegister q s
    else Err Undefined in
  let* a := param (parameters l) (align + 1) in
  add_node s (-1) (Load_new (junk_int junk) (base_args l s returnType "Memory" (load_inst cycles)) (s32 (atol a)) pointer).

Definition parse_Store (l : Line) (s : PS) : outcome Parsed :=
  let* p1 := param (parameters l) 1 in
  let index := if String.eqb p1 "volatile" then 2 else 1 in
  let* returnType := param (parameters l) index in
  let* p3 := param (parameters l) (index + 3) in
  let* (pointer, align, s) :=
    if contains_str p3 "inttoptr" then
      let* g := param (parameters l) (index + 4) in
      let* w := inttoptr_word g in
      let* (pointer, s) := setRegister (String.append "%global_" w) s in
      let* a := param (parameters l) (index + 6) in
      let* s := set_value_at s pointer (u64 (atol w)) in
      Ok (pointer, s32 (atol a), s)
    else if isRegister p3 then
      let* (pointer, s) := setRegister p3 s in
      let* a := param (parameters l) (index + 5) in
      Ok (pointer, s32 (atol a), s)
    else Err Undefined in
  let* v := param (parameters l) (index + 1) in
  let* (value, imm, immVal, s) :=
    if isRegister v then
      let* (value, s) := setRegister v s in
      let* s := set_size_at s value returnType in
      Ok (Some value, junk_int junk, false, s)
    else
      let* c := str_index returnType 0 in
      if Ascii.eqb c "i" then Ok (junk_reg junk, atol v, true, s)
      else Ok (junk_reg junk, junk_int junk, false, s) in
  add_node s (-1) (Store_new (junk_int junk) (base_args l s returnType "Memory" (store_inst cycles)) align imm pointer value
    immVal).

(** The user-defined type named in the pointer type, between [%] and [stop]. *)
Definition custom_type (pty stop : string) : outcome (option LLVMType) :=
  let perc := str_find pty "%" in
  let stringLength := s32 (str_find pty stop - perc - 1) in
  let* customDataType := str_substr pty (perc + 1) stringLength in
  Ok (findType typeList customDataType).

(** The base register: a constant address, a new register or a known one.
    [k] is the position of its parameter, [fresh] that of the name a new
    register gets. *)
Definition gep_base (l : Line) (s : PS) (k fresh : Z) : outcome (nat * bool * PS) :=
  let* p := param (parameters l) k in
  if contains_str p "inttoptr" then
    let* g := param (parameters l) (k + 1) in
    let* w := inttoptr_word g in
    let (r, rl) := newRegister (ps_list s) (String.append "%global_" w) in
    let* s := set_value_at (mkPS rl (dependencies s)) r (u64 (atol w)) in
    Ok (r, true, s)
  else
    let* name := str_substr_from p 1 in
    match findRegister (ps_list s) name with
    | None =>
        let* f := param (parameters l) fresh in
        let (r, rl) := newRegister (ps_list s) f in
        Ok (r, false, mkPS rl (dependencies s))
    | Some r => Ok (r, false, s)
    end.

(** The loop over the offsets from parameter [k] on. *)
Fixpoint gep_loop (fuel : nat) (ps : list string) (k : Z) (ty : list string) (idx : list (option nat))
    (immdx : list Z) (s : PS) : outcome (list string * list (option nat) * list Z * PS) :=
  if k <=? last_ ps then
    match fuel with
    | O => Err OutOfFuel
    | S n =>
        let* t := param ps k in
        let* v := param ps (k + 1) in
        if isRegister v then
          let* (r, s) := setRegister v s in
          gep_loop n ps (k + 2) (ty ++ [t]) (idx ++ [Some r]) (immdx ++ [0]) s
        else
          gep_loop n ps (k + 2) (ty ++ [t]) (idx ++ [None]) (immdx ++ [atol v])
            (mkPS (ps_list s) (dependencies s ++ [None]))
    end
  else Ok (ty, idx, immdx, s).

(** The pointer type, the return type, the base and the position of the last
    parameter before the offsets. *)
Definition gep_header (l : Line) (s : PS) : outcome (string * string * nat * Z * PS) :=
  let* p0 := param (parameters l) 0 in
  if String.eqb p0 "inbounds" then
    let* p1 := param (parameters l) 1 in
    let* (ptrval, inttoptr, s) := gep_base l s 3 3 in
    let* c := str_back p1 in
    let index := if Ascii.eqb c "*" then 2 else 3 in
    Ok (p1, p1, ptrval, if inttoptr : bool then index + 1 else index, s)
  else
    let* (ptrval, _, s) := gep_base l s 2 3 in
    let* c := str_back p0 in
    Ok (p0, "", ptrval, if Ascii.eqb c "*" then 1 else 2, s).

(** [if (ptrval->isGlobal()) ret_reg->setGlobal()], with the value of
    [global]. *)
Definition gep_global (l : Line) (s : PS) (ptrval : nat) : outcome (bool * PS) :=
  let* base := reg_at (ps_list s) ptrval in
  if reg_Global base then
    match ret_reg l with
    | Some r =>
        let* g := reg_at (ps_list s) r in
        Ok (true, mkPS (reg_set (ps_list s) r (reg_setGlobal g)) (dependencies s))
    | None => Err Undefined
    end
  else Ok (false, s).

Definition gep_type (pty : string) : outcome (option LLVMType) :=
  let* c := str_index pty 0 in
  if Ascii.eqb c "[" then custom_type pty "]"
  else if Ascii.eqb c "%" then custom_type pty " "
  else Ok None.

Definition parse_GetElementPtr (l : Line) (s : PS) : outcome Parsed :=
  let* s := ret_setSize l s "pointer" in
  let* (pty, returnType, ptrval, index, s) := gep_header l s in
  let* (global, s) := gep_global l s ptrval in
  let* llvmtype := gep_type pty in
  let* (ty, idx, immdx, s) := gep_loop (S (List.length (parameters l))) (parameters l) (index + 1) [] [] [] s in
  add_node s GETELEMENTPTR
    (GetElementPtr_new (junk_int junk) (base_args l s returnType "Memory" (gep_inst cycles)) pty llvmtype idx ty immdx ptrval
       (Z.of_nat (List.length ty)) GETELEMENTPTR global).

(** *** Conversions *)

(** The operand, [NULL] if it is not a register. *)
Definition conv_operand (l : Line) (s : PS) : outcome (option nat * PS) :=
  let* p1 := param (parameters l) 1 in
  if isRegister p1 then let* (r, s) := setRegister p1 s in Ok (Some r, s) else Ok (None, s).

Definition parse_Trunc (l : Line) (s : PS) : outcome Parsed :=
  let* returnType := param (parameters l) 0 in
  let* originalType := param (parameters l) 3 in
  let* (operand, s) := conv_operand l s in
  let a := base_args l s returnType "Conversion" (trunc_inst cycles) in
  add_node s CONVERSION (Trunc_new (junk_int junk) a originalType operand CONVERSION).

Definition parse_ZExt (l : Line) (s : PS) : outcome Parsed :=
  let* returnType := param (parameters l) 0 in
  let* originalType := param (parameters l) 3 in
  let* (operand, s) := conv_operand l s in
  let a := base_args l s returnType "Conversion" (zext_inst cycles) in
  add_node s CONVERSION (ZExt_new (junk_int junk) a originalType operand CONVERSION).

Definition parse_SExt (l : Line) (s : PS) : outcome Parsed :=
  let* returnType := param (parameters l) 0 in
  let* originalType := param (parameters l) 3 in
  let* (operand, s) := conv_operand l s in
  let a := base_args l s returnType "Conversion" (sext_inst cycles) in
  add_node s CONVERSION (SExt_new (junk_int junk) a originalType operand CONVERSION).

Definition parse_FPToUI (l : Line) (s : PS) : outcome Parsed :=
  let* returnType := param (parameters l) 0 in
  let* originalType := param (parameters l) 3 in
  let* (operand, s) := conv_operand l s in
  let a := base_args l s returnType "Conversion" (fptoui_inst cycles) in
  add_node s CONVERSION (FPToUI_new (junk_int junk) a originalType operand CONVERSION).

Definition parse_FPToSI (l : Line) (s : PS) : outcome Parsed :=
  let* returnType := param (parameters l) 0 in
  let* originalType := param (parameters l) 3 in
  let* (operand, s) := conv_operand l s in
  let a := base_args l s returnType "Conversion" (fptosi_inst cycles) in
  add_node s CONVERSION (FPToSI_new (junk_int junk) a originalType operand CONVERSION).

Definition parse_UIToFP (l : Line) (s : PS) : outcome Parsed :=
  let* returnType := param (parameters l) 0 in
  let* originalType := param (parameters l) 3 in
  let* (operand, s) := conv_operand l s in
  let a := base_args l s returnType "Conversion" (uitofp_inst cycles) in
  add_node s CONVERSION (UIToFP_new (junk_int junk) a originalType operand CONVERSION).

Definition parse_SIToFP (l : Line) (s : PS) : outcome Parsed :=
  let* returnType := param (parameters l) 0 in
  let* originalType := param (parameters l) 3 in
  let* (operand, s) := conv_operand l s in
  let a := base_args l s returnType "Conversion" (uitofp_inst cycles) in
  add_node s CONVERSION (SIToFP_new (junk_int junk) a originalType operand CONVERSION).

Definition parse_FPTrunc (l : Line) (s : PS) : outcome Parsed :=
  let* returnType := param (parameters l) 0 in
  let* originalType := param (parameters l) 3 in
  let* (operand, s) := conv_operand l s in
  let a := base_args l s returnType "Conversion" (fptrunc_inst cycles) in
  add_node s CONVERSION (FPTrunc_new (junk_int junk) a originalType operand CONVERSION).

Definition parse_FPExt (l : Line) (s : PS) : outcome Parsed :=
  let* returnType := param (parameters l) 0 in
  let* originalType := param (parameters l) 3 in
  let* (operand, s) := conv_operand l s in
  let a := base_args l s returnType "Conversion" (fpext_inst cycles) in
  add_node s CONVERSION (FPExt_new (junk_int junk) a originalType operand CONVERSION).

Definition parse_PtrToInt (l : Line) (s : PS) : outcome Parsed :=
  let* returnType := param (parameters l) 0 in
  let* originalType := param (parameters l) 3 in
  let* (operand, s) := conv_operand l s in
  let a := base_args l s returnType "Conversion" (ptrtoint_inst cycles) in
  add_node s CONVERSION (PtrToInt_new (junk_int junk) a originalType operand CONVERSION).

Definition parse_IntToPtr (l : Line) (s : PS) : outcome Parsed :=
  let* returnType := param (parameters l) 0 in
  let* originalType := param (parameters l) 3 in
  let* (operand, s) := conv_operand l s in
  let a := base_args l s returnType "Conversion" (inttoptr_inst cycles) in
  add_node s CONVERSION (IntToPtr_new (junk_int junk) a originalType operand CONVERSION).

Definition parse_BitCast (l : Line) (s : PS) : outcome Parsed :=
  let* returnType := param (parameters l) 0 in
  let* originalType := param (parameters l) 3 in
  let* (operand, s) := conv_operand l s in
  let a := base_args l s returnType "Conversion" (bitcast_inst cycles) in
  add_node s CONVERSION (BitCast_new (junk_int junk) a originalType operand CONVERSION).

Definition parse_AddrSpaceCast (l : Line) (s : PS) : outcome Parsed :=
  let* returnType := param (parameters l) 0 in
  let* originalType := param (parameters l) 3 in
  let* (operand, s) := conv_operand l s in
  let a := base_args l s returnType "Conversion" (addrspacecast_inst cycles) in
  add_node s CONVERSION (AddrSpaceCast_new (junk_int junk) a originalType operand CONVERSION).

(** *** Comparisons *)

Definition icmp_flags (condition : string) : Z :=
  if String.eqb condition "eq" then EQ
  else if String.eqb condition "ne" then NE
  else if String.eqb condition "ugt" then UGT
  else if String.eqb condition "uge" then UGE
  else if String.eqb condition "ult" then ULT
  else if String.eqb condition "ule" then ULE
  else if String.eqb condition "sgt" then SGT
  else if String.eqb condition "sge" then SGE
  else if String.eqb condition "slt" then SLT
  else if String.eqb condition "sle" then SLE
  else 0.

Definition parse_ICmp (l : Line) (s : PS) : outcome Parsed :=
  let* condition := param (parameters l) 0 in
  let* returnType := param (parameters l) 1 in
  let* p1 := param (parameters l) (last_ (parameters l) - 1) in
  let* (regOps, s) := reg_operand p1 [] s in
  let immOp := if isRegister p1 then 0 else atol p1 in
  let* p2 := param (parameters l) (last_ (parameters l)) in
  let* (regOps, s) := reg_operand p2 regOps s in
  let immOp := if isRegister p2 then immOp else atol p2 in
  add_node s COMPARE (ICmp_new (junk_int junk) (base_args l s returnType "Compare" (icmp_inst cycles)) regOps
    (icmp_flags condition) immOp COMPARE).

Definition fcmp_flags (condition : string) : Z :=
  if String.eqb condition "false" then CONDFALSE
  else if String.eqb condition "oeq" then OEQ
  else if String.eqb condition "ogt" then OGT
  else if String.eqb condition "oge" then OGE
  else if String.eqb condition "olt" then OLT
  else if String.eqb condition "ole" then OLE
  else if String.eqb condition "one" then ONE
  else if String.eqb condition "ord" then ORD
  else if String.eqb condition "ueq" then UEQ
  else if String.eqb condition "ugt" then UGT
  else if String.eqb condition "uge" then UGE
  else if String.eqb condition "ult" then ULT
  else if String.eqb condition "ule" then ULE
  else if String.eqb condition "une" then UNE
  else if String.eqb condition "uno" then UNO
  else if String.eqb condition "true" then CONDTRUE
  else 0.

Definition parse_FCmp (l : Line) (s : PS) : outcome Parsed :=
  let* condition := param (parameters l) 0 in
  let* returnType := param (parameters l) 1 in
  let* p1 := param (parameters l) (last_ (parameters l) - 1) in
  let* (regOps, s) := reg_operand p1 [] s in
  let* p2 := param (parameters l) (last_ (parameters l)) in
  let* (regOps, s) := reg_operand p2 regOps s in
  let* immOp := if isRegister p2 then Ok 0 else (let* d := convertImmediate returnType p2 in stod d) in
  add_node s COMPARE (FCmp_new (junk_int junk) (base_args l s returnType "Compare" (fcmp_inst cycles)) regOps
    (fcmp_flags condition) immOp COMPARE).

(** *** Phi and select *)

(** The value and the label of one [[ value, %label ]]. *)
Definition phi_pair (p : string) : outcome (string * string) :=
  let comma := str_find p "," in
  let* val := str_substr p 2 (comma - 2) in
  let labelLength := s32 (str_find p "]" - s32 comma) in
  let* label := str_substr p (comma + 3) (labelLength - 4) in
  Ok (val, label).

Fixpoint phi_loop (ps : list string) (phiVal : list string) (phiReg : list (option nat)) (phiLabel : list string)
    (s : PS) : outcome (list string * list (option nat) * list string * PS) :=
  match ps with
  | [] => Ok (phiVal, phiReg, phiLabel, s)
  | p :: ps =>
      let* (val, label) := phi_pair p in
      if isRegister val then
        let* (r, s) := setRegister val s in
        phi_loop ps (phiVal ++ ["reg"]) (phiReg ++ [Some r]) (phiLabel ++ [label]) s
      else
        let v := if String.eqb val "true" then "1" else if String.eqb val "false" then "0" else val in
        phi_loop ps (phiVal ++ [v]) (phiReg ++ [None]) (phiLabel ++ [label]) s
  end.

Definition parse_PHI (l : Line) (s : PS) : outcome Parsed :=
  let* returnType := param (parameters l) 0 in
  let* s := ret_setSize l s returnType in
  let* (phiVal, phiReg, phiLabel, s) := phi_loop (tail (parameters l)) [] [] [] s in
  add_node s COMPARE (Phi_new (junk_int junk) (base_args l s returnType "Other" (phi_inst cycles)) phiVal phiReg phiLabel COMPARE).

(** When the condition is a register the unset [tempReg] is pushed on
    [regvalues]. *)
Definition parse_Select (l : Line) (s : PS) : outcome Parsed :=
  let* returnType := param (parameters l) 2 in
  let* s := ret_setSize l s returnType in
  let* p1 := param (parameters l) 1 in
  let* (condition, regvalues, s) :=
    if isRegister p1 then let* (r, s) := setRegister p1 s in Ok (Some r, [junk_reg junk], s)
    else
      Ok (findRegister (ps_list s) (if String.eqb p1 "true" then "alwaysTrue" else "alwaysFalse"), [], s) in
  let* p3 := param (parameters l) 3 in
  let* (regvalues, v3, s) :=
    if isRegister p3 then let* (r, s) := setRegister p3 s in Ok ((regvalues ++ [Some r]), 0, s)
    else Ok (regvalues, atol p3, s) in
  let* p5 := param (parameters l) 5 in
  let* (regvalues, v5, s) :=
    if isRegister p5 then let* (r, s) := setRegister p5 s in Ok ((regvalues ++ [Some r]), 0, s)
    else let* num := stol p5 in Ok (regvalues, num, s) in
  add_node s COMPARE (Select_new (junk_int junk) (base_args l s returnType "Other" (select_inst cycles)) condition regvalues
    [v3; v5] [negb (isRegister p3); negb (isRegister p5)] COMPARE).

(** The opcodes without a case of their own add no node. *)
Definition parse_case (l : Line) (s : PS) : outcome Parsed :=
  match op_lookup (opCode l) with
  | IR_Ret => parse_Ret l s
  | IR_Br => parse_Br l s
  | IR_Switch => parse_Switch l s
  | IR_Invoke => parse_Invoke l s
  | IR_Resume => parse_Resume l s
  | IR_Add => parse_Add l s
  | IR_Sub => parse_Sub l s
  | IR_Mul => parse_Mul l s
  | IR_UDiv => parse_UDiv l s
  | IR_SDiv => parse_SDiv l s
  | IR_URem => parse_URem l s
  | IR_SRem => parse_SRem l s
  | IR_Shl => parse_Shl l s
  | IR_LShr => parse_LShr l s
  | IR_AShr => parse_AShr l s
  | IR_And => parse_And l s
  | IR_Or => parse_Or l s
  | IR_Xor => parse_Xor l s
  | IR_FAdd => parse_FAdd l s
  | IR_FSub => parse_FSub l s
  | IR_FMul => parse_FMul l s
  | IR_FDiv => parse_FDiv l s
  | IR_FRem => parse_FRem l s
  | IR_Load => parse_Load l s
  | IR_Store => parse_Store l s
  | IR_GetElementPtr => parse_GetElementPtr l s
  | IR_Trunc => parse_Trunc l s
  | IR_ZExt => parse_ZExt l s
  | IR_SExt => parse_SExt l s
  | IR_FPToUI => parse_FPToUI l s
  | IR_FPToSI => parse_FPToSI l s
  | IR_UIToFP => parse_UIToFP l s
  | IR_SIToFP => parse_SIToFP l s
  | IR_FPTrunc => parse_FPTrunc l s
  | IR_FPExt => parse_FPExt l s
  | IR_PtrToInt => parse_PtrToInt l s
  | IR_IntToPtr => parse_IntToPtr l s
  | IR_BitCast => parse_BitCast l s
  | IR_AddrSpaceCast => parse_AddrSpaceCast l s
  | IR_ICmp => parse_ICmp l s
  | IR_FCmp => parse_FCmp l s
  | IR_PHI => parse_PHI l s
  | IR_Select => parse_Select l s
  | _ => no_node s
  end.

(** [BasicBlock::parse]. *)
Definition parse (line : string) (list_ : RegisterList) : outcome Parsed :=
  let* (ret_name, op, rest) := split_opcode line in
  let (r, rl) :=
    match ret_name with
    | Some name =>
        match findRegister list_ name with
        | None => let (r, rl) := newRegister list_ name in (Some r, rl)
        | Some r => (Some r, list_)
        end
    | None => (None, list_)
    end in
  let* ps := tokenize rest in
  parse_case (mkLine line op r ps) (mkPS rl []).
End Parse.
