(* ===== verification/Scheduler.v ===== *)
(** Model of the runtime engine [hwacc/llvm_interface.{hh,cc}] with the graph
    operations of [base_instruction.cc]: the reservation table, the in-flight
    queues, dependency links, [tick], [scheduleBB], [readCommit] and
    [writeCommit].  Live instruction clones are kept in a heap; the queues
    hold heap indices, as the source's queues hold shared pointers. *)
From stdpp Require Import strings.
From S2P Require Import Prelude CppString Registers MemRequest Macros Instructions Compute FunctionalUnits.
From Stdlib Require String.

#[global] Open Scope Z_scope.

(** [BasicBlock]: its name and its instructions, the templates of the clones. *)
Record BasicBlock := mkBB { bb_Name : string; _Nodes : list Instruction }.
Definition isEmpty (b : BasicBlock) : bool := match _Nodes b with [] => true | _ => false end.

(** The graph part of the state. *)
Record Core := mkCore {
  heap : list Instruction;
  regList : RegisterList;
  reservation : list nat;
  computeQueue : list nat;
  readQueue : list nat;
  writeQueue : list nat;
}.

Definition node (c : Core) (p : nat) : outcome Instruction := vec_get (heap c) p.
Definition set_heap (c : Core) (h : list Instruction) : Core :=
  mkCore h (regList c) (reservation c) (computeQueue c) (readQueue c) (writeQueue c).
Definition set_node (c : Core) (p : nat) (i : Instruction) : Core := set_heap c (<[p := i]> (heap c)).
Definition set_regs (c : Core) (rl : RegisterList) : Core :=
  mkCore (heap c) rl (reservation c) (computeQueue c) (readQueue c) (writeQueue c).
Definition set_reservation (c : Core) (q : list nat) : Core :=
  mkCore (heap c) (regList c) q (computeQueue c) (readQueue c) (writeQueue c).
Definition set_computeQueue (c : Core) (q : list nat) : Core :=
  mkCore (heap c) (regList c) (reservation c) q (readQueue c) (writeQueue c).
Definition set_readQueue (c : Core) (q : list nat) : Core :=
  mkCore (heap c) (regList c) (reservation c) (computeQueue c) q (writeQueue c).
Definition set_writeQueue (c : Core) (q : list nat) : Core :=
  mkCore (heap c) (regList c) (reservation c) (computeQueue c) (readQueue c) q.

(** ** Instruction graph: signalChildren, commit *)

(** What a committing parent does to one child. *)
Definition signalChild (reg : option nat) (c : Core) (ch : nat) : outcome Core :=
  let* x := node c ch in
  match reg with
  | Some r =>
      let* (rl, x') := fetchDependency (regList c) x r in
      Ok (set_node (set_regs c rl) ch x')
  | None =>
      let* x' := decrParents x in
      Ok (set_node c ch x')
  end.

Definition signalChildren (c : Core) (p : nat) : outcome Core :=
  let* i := node c p in
  foldM (signalChild (_ReturnRegister (st i))) (_Children i) c.

Definition commit (c : Core) (p : nat) : outcome (Core * bool) :=
  let* i := node c p in
  match _ReturnRegister (st i) with
  | Some r =>
      if _MaxCycle (st i) <=? _CurrCycle i then
        let* reg := reg_at (regList c) r in
        let* reg := setValue reg (_FinalResult i) in
        let c := set_regs c (reg_set (regList c) r (reg_write (reg_commit reg))) in
        let* c := signalChildren c p in
        Ok (c, true)
      else Ok (set_node c p (set_CurrCycle i (u64 (_CurrCycle i + 1))), false)
  | None =>
      let* c := signalChildren c p in
      Ok (c, false)
  end.

Definition removeLinks (c : Core) (p : nat) : outcome Core :=
  let* i := node c p in Ok (set_node c p (removeParents i)).

(** ** Searching for a parent *)

Fixpoint find_node (c : Core) (P : Instruction → bool) (l : list nat) : outcome (option nat) :=
  match l with
  | [] => Ok None
  | p :: l => let* i := node c p in if P i then Ok (Some p) else find_node c P l
  end.

(** The first queue with a match, each searched from its end; the last entry
    of the reservation table, the instruction being scheduled, is skipped. *)
Fixpoint find_queues (c : Core) (P : Instruction → bool) (qs : list (list nat))
    : outcome (option nat) :=
  match qs with
  | [] => Ok None
  | q :: qs =>
      let* r := find_node c P q in
      match r with Some p => Ok (Some p) | None => find_queues c P qs end
  end.

Definition findParent (c : Core) (P : Instruction → bool) : outcome (option nat) :=
  find_queues c P [tail (rev (reservation c)); rev (computeQueue c); rev (readQueue c)].
Definition findParent_reg (c : Core) (reg : option nat) : outcome (option nat) :=
  findParent c (fun i => bool_decide (_ReturnRegister (st i) = reg)).
Definition findParent_line (c : Core) (line : string) : outcome (option nat) :=
  findParent c (fun i => String.eqb (_LLVMLine (st i)) line).

Definition detectRAW (c : Core) (reg : option nat) : outcome (option nat) :=
  let* r := find_node c (fun i => String.eqb (_OpCode (st i)) "store" &&
                                  bool_decide (_RawCheck (st i) = reg))
              (tail (rev (reservation c))) in
  match r with
  | Some p => Ok (Some p)
  | None => find_node c (fun i => bool_decide (_RawCheck (st i) = reg)) (rev (writeQueue c))
  end.

(** [child->registerParent(parent); parent->registerChild(child)]. *)
Definition link (c : Core) (child parent : nat) : outcome Core :=
  let* x := node c child in
  let* x := registerParent x parent in
  let c := set_node c child x in
  let* y := node c parent in
  Ok (set_node c parent (registerChild y child)).
Definition link_opt (c : Core) (child : nat) (parent : option nat) : outcome Core :=
  match parent with Some p => link c child p | None => Ok c end.

(** ** scheduleBB *)

Definition set_ActivePtr (g : GepData) (v : Z) : GepData :=
  mkGep (_Pty g) (_LLVMType g) (_Idx g) (_Type g) (_ImmIdx g) (_PtrVal g) v (_Index g) (g_Global g).

(** The base pointer of a [getelementptr]. *)
Definition gepBase (c : Core) (id : nat) : outcome Core :=
  let* i := node c id in
  match cls i with
  | GetElementPtr g =>
      let* p := findParent_reg c (Some (_PtrVal g)) in
      match p with
      | Some p => link c id p
      | None =>
          let* r := reg_at (regList c) (_PtrVal g) in
          Ok (set_node c id (set_cls i (GetElementPtr (set_ActivePtr g (_Value r)))))
      end
  | _ => Err Undefined
  end.

(** The loop over [depList]: link to the producer in flight, or read the
    register now. *)
Fixpoint depLoop (c : Core) (id : nat) (deps : list (option nat)) (j : nat) : outcome Core :=
  match deps with
  | [] => Ok c
  | None :: deps => depLoop c id deps (S j)
  | Some r :: deps =>
      let* p := findParent_reg c (Some r) in
      let* c :=
        (match p with
         | Some p => link c id p
         | None =>
             let* i := node c id in
             let* i := fetchDependencyIdx (regList c) i j in
             Ok (set_node c id i)
         end) in
      depLoop c id deps (S j)
  end.

(** [reservation.push_back(createClone(node))]. *)
Definition push_clone (c : Core) (tmpl : Instruction) : Core :=
  mkCore (heap c ++ [tmpl]) (regList c) (reservation c ++ [length (heap c)])
    (computeQueue c) (readQueue c) (writeQueue c).

(** One iteration of the loop of [scheduleBB]. *)
Definition scheduleNode (prevName : string) (c : Core) (tmpl : Instruction) : outcome Core :=
  let id := length (heap c) in
  let c := push_clone c tmpl in
  let* c :=
    (match _ReturnRegister (st tmpl) with
     | Some _ => let* p := findParent_line c (_LLVMLine (st tmpl)) in link_opt c id p
     | None => Ok c
     end) in
  let* c :=
    (if String.eqb (_OpCode (st tmpl)) "load" then
       let* p := detectRAW c (_RawCheck (st tmpl)) in link_opt c id p
     else Ok c) in
  let* c := (if String.eqb (_OpCode (st tmpl)) "getelementptr" then gepBase c id else Ok c) in
  let* i := node c id in
  let* (i, deps) := runtimeDependencies i prevName in
  depLoop (set_node c id i) id deps 0.

Definition scheduleNodes (prevName : string) (c : Core) (nodes : list Instruction) : outcome Core :=
  foldM (scheduleNode prevName) nodes c.

(** ** LLVMInterface *)

(** The parameters of the engine; [pipelined] selects between two copies of
    the same code and is left out. *)
Record Config := mkConfig {
  lockstep : bool;
  scheduling_threshold : Z;
  limits : FuLimits;
  occupancy_tracking : bool;
}.

(** Calls on the communication interface, in order.  None of them calls back
    into the engine. *)
Inductive CommEvent :=
  | RefreshMemPorts
  | Enqueue (id : nat) (call : CommCall)
  | Finish.

Record Stats := mkStats {
  fus : FuState;
  hardware : Hardware;
  occ : OccCounters;
  loadOpScheduled : bool;
  storeOpScheduled : bool;
  compOpScheduled : bool;
  memory_loads : Z;
  memory_stores : Z;
  dma_loads : Z;
  dma_stores : Z;
  cycle : Z;
  execnodes : Z;
}.

Record LLVMInterface := mkLI {
  core : Core;
  stats : Stats;
  bbList : list BasicBlock;
  currBB : option nat;
  prevBB : option nat;
  running : bool;
  nreqs : nat;
  comm : list CommEvent;
}.

Definition set_core (s : LLVMInterface) (c : Core) : LLVMInterface :=
  mkLI c (stats s) (bbList s) (currBB s) (prevBB s) (running s) (nreqs s) (comm s).
Definition set_stats (s : LLVMInterface) (x : Stats) : LLVMInterface :=
  mkLI (core s) x (bbList s) (currBB s) (prevBB s) (running s) (nreqs s) (comm s).
Definition set_BBs (s : LLVMInterface) (cur prev : option nat) : LLVMInterface :=
  mkLI (core s) (stats s) (bbList s) cur prev (running s) (nreqs s) (comm s).
Definition set_running (s : LLVMInterface) (b : bool) : LLVMInterface :=
  mkLI (core s) (stats s) (bbList s) (currBB s) (prevBB s) b (nreqs s) (comm s).
Definition log (s : LLVMInterface) (e : CommEvent) : LLVMInterface :=
  mkLI (core s) (stats s) (bbList s) (currBB s) (prevBB s) (running s) (nreqs s) (comm s ++ [e]).
Definition alloc_req (s : LLVMInterface) : LLVMInterface :=
  mkLI (core s) (stats s) (bbList s) (currBB s) (prevBB s) (running s) (S (nreqs s)) (comm s).

Definition set_fus (x : Stats) (f : FuState) : Stats :=
  mkStats f (hardware x) (occ x) (loadOpScheduled x) (storeOpScheduled x) (compOpScheduled x)
    (memory_loads x) (memory_stores x) (dma_loads x) (dma_stores x) (cycle x) (execnodes x).
Definition set_flags (x : Stats) (l s c : bool) : Stats :=
  mkStats (fus x) (hardware x) (occ x) l s c
    (memory_loads x) (memory_stores x) (dma_loads x) (dma_stores x) (cycle x) (execnodes x).
Definition set_occ (x : Stats) (o : OccCounters) : Stats :=
  mkStats (fus x) (hardware x) o (loadOpScheduled x) (storeOpScheduled x) (compOpScheduled x)
    (memory_loads x) (memory_stores x) (dma_loads x) (dma_stores x) (cycle x) (execnodes x).
(** [if (_Global) dma_loads++; else memory_loads++;] and the same for
    stores. *)
Definition count_mem (x : Stats) (isload glob : bool) : Stats :=
  mkStats (fus x) (hardware x) (occ x) (loadOpScheduled x) (storeOpScheduled x) (compOpScheduled x)
    (if isload && negb glob then s32 (memory_loads x + 1) else memory_loads x)
    (if negb isload && negb glob then s32 (memory_stores x + 1) else memory_stores x)
    (if isload && glob then s32 (dma_loads x + 1) else dma_loads x)
    (if negb isload && glob then s32 (dma_stores x + 1) else dma_stores x)
    (cycle x) (execnodes x).

Fixpoint findBB_from (l : list BasicBlock) (k : nat) (bbname : string) : option nat :=
  match l with
  | [] => None
  | b :: l => if String.eqb (bb_Name b) bbname then Some k else findBB_from l (S k) bbname
  end.
Definition findBB (s : LLVMInterface) (bbname : string) : option nat :=
  findBB_from (bbList s) 0 bbname.

Fixpoint findEntryBB_from (l : list BasicBlock) (k : nat) : outcome nat :=
  match l with
  | [] => Err Panic
  | b :: l => if isEmpty b then findEntryBB_from l (S k) else Ok k
  end.
Definition findEntryBB (s : LLVMInterface) : outcome nat := findEntryBB_from (bbList s) 0.

(** Dereferencing a [BasicBlock*]. *)
Definition bb_at (s : LLVMInterface) (b : option nat) : outcome BasicBlock :=
  match b with Some k => vec_get (bbList s) k | None => Err Undefined end.

Definition scheduleBB (s : LLVMInterface) (b : option nat) : outcome LLVMInterface :=
  let* bb := bb_at s b in
  match _Nodes bb with
  | [] => Ok s
  | nodes =>
      let* pb := bb_at s (prevBB s) in
      let* c := scheduleNodes (bb_Name pb) (core s) nodes in
      Ok (set_core s c)
  end.

Section Tick.
Context (cfg : Config) (unlimitedFU : bool) (old : MemoryRequest).

(** [reservation.at(i)->compute()], with its call on the interface. *)
Definition computeNode (s : LLVMInterface) (p : nat) : outcome LLVMInterface :=
  let c := core s in
  let* i := node c p in
  let* (ri, call) := compute (nreqs s) old (regList c) i in
  let s := set_core s (set_node (set_regs c ri.1) p ri.2) in
  match call with
  | NoCall => Ok s
  | _ => Ok (alloc_req (log s (Enqueue (nreqs s) call)))
  end.

Definition commitNode (s : LLVMInterface) (p : nat) : outcome (LLVMInterface * bool) :=
  let* (c, b) := commit (core s) p in Ok (set_core s c, b).
Definition removeNode (s : LLVMInterface) (p : nat) : outcome LLVMInterface :=
  let* c := removeLinks (core s) p in Ok (set_core s c).

(** [if (unlimitedFU) updateFU(FU)]. *)
Definition countFU (s : LLVMInterface) (FU : Z) : LLVMInterface :=
  if unlimitedFU then set_stats s (set_fus (stats s) (updateFU (fus (stats s)) FU)) else s.
Definition limitFU (s : LLVMInterface) (FU : Z) : LLVMInterface * bool :=
  let (f, b) := limitedFU (limits cfg) (fus (stats s)) FU in
  (set_stats s (set_fus (stats s) f), b).

Definition erase_at (q : list nat) (i : nat) : list nat := take i q ++ drop (S i) q.
Definition erase_reservation (s : LLVMInterface) (i : nat) : LLVMInterface :=
  set_core s (set_reservation (core s) (erase_at (reservation (core s)) i)).

(** *** The in-flight compute queue

    [for (auto i = 0; i < computeQueue.size();)]: each iteration erases the
    entry or advances, so the initial size bounds their number.  The unit that
    is counted is the one of [reservation.at(i)]. *)
Fixpoint computeLoop (n : nat) (s : LLVMInterface) (i : nat) : outcome LLVMInterface :=
  match n with
  | O => Ok s
  | S n =>
      let c := core s in
      match computeQueue c !! i with
      | None => Ok s
      | Some p =>
          let* rp := vec_at (reservation c) i in
          let* r := node c rp in
          let '(s, ok) :=
            if unlimitedFU then (countFU s (_FunctionalUnit (st r)), true)
            else limitFU s (_FunctionalUnit (st r)) in
          if ok then
            let* (s, done) := commitNode s p in
            if (done : bool) then
              let* s := removeNode s p in
              computeLoop n
                (set_core s (set_computeQueue (core s) (erase_at (computeQueue (core s)) i))) i
            else computeLoop n s (S i)
          else computeLoop n s (S i)
      end
  end.

(** *** The reservation table *)

Definition is_op (i : Instruction) (name : string) : bool := String.eqb (_OpCode (st i)) name.

(** A load or a store leaves for its memory queue. *)
Definition launchMem (isload : bool) (s : LLVMInterface) (i p : nat) (fu : Z)
    : outcome LLVMInterface :=
  let x := stats s in
  let s := set_stats s (set_flags x (isload || loadOpScheduled x)
                          (negb isload || storeOpScheduled x) (compOpScheduled x)) in
  let c := core s in
  let s := set_core s (if isload then set_readQueue c (readQueue c ++ [p])
                       else set_writeQueue c (writeQueue c ++ [p])) in
  let* s := computeNode s p in
  let* x := node (core s) p in
  let s := set_stats s (count_mem (stats s) isload (_Global x)) in
  Ok (erase_reservation (countFU s fu) i).

Definition mark_comp (s : LLVMInterface) : LLVMInterface :=
  let x := stats s in
  set_stats s (set_flags x (loadOpScheduled x) (storeOpScheduled x) true).

(** [_MaxCycle == 0]: computed and committed in this cycle. *)
Definition launchZero (s : LLVMInterface) (i p : nat) (fu : Z) : outcome LLVMInterface :=
  let* s := computeNode s p in
  let* (s, _) := commitNode s p in
  let s := mark_comp (countFU s fu) in
  let* s := removeNode s p in
  Ok (erase_reservation s i).

(** A computation that takes cycles enters the compute queue. *)
Definition launchCompute (s : LLVMInterface) (i p : nat) (fu : Z) : outcome LLVMInterface :=
  let c := core s in
  let s := set_core s (set_computeQueue c (computeQueue c ++ [p])) in
  let* s := computeNode s p in
  let* (s, _) := commitNode s p in
  Ok (erase_reservation (mark_comp (countFU s fu)) i).

Definition count_fdiv (s : LLVMInterface) : LLVMInterface :=
  let f := fus (stats s) in
  set_stats s (set_fus (stats s) (set_units f (incr_unit F_fpDivision (_FunctionalUnits f)))).

(** A branch or switch: the next block is scheduled at once. *)
Definition launchBranch (s : LLVMInterface) (i p : nat) (fu : Z) : outcome LLVMInterface :=
  let s := countFU s fu in
  let s := set_BBs s (currBB s) (currBB s) in
  let* s := computeNode s p in
  let* x := node (core s) p in
  let s := set_BBs s (findBB s (_Dest x)) (prevBB s) in
  let s := erase_reservation s i in
  scheduleBB s (currBB s).

(** [finalize()], less the printed report: the averages and the number of
    active cycles. *)
Definition finalize (s : LLVMInterface) : LLVMInterface :=
  let x := stats s in
  set_running (set_stats s
    (mkStats (AverageOccupancy (fus x) (cycle x)) (hardware x) (occ x) (loadOpScheduled x)
       (storeOpScheduled x) (compOpScheduled x) (memory_loads x) (memory_stores x) (dma_loads x)
       (dma_stores x) (cycle x) (s32 (cycle x - stalls (occ x) - 1)))) false.

(** One iteration of the loop over the reservation table; the new index. *)
Definition reservationStep (s : LLVMInterface) (i p : nat) : outcome (LLVMInterface * nat) :=
  let c := core s in
  let* x := node c p in
  let fu := _FunctionalUnit (st x) in
  if _ActiveParents x =? 0 then
    if negb (_Terminator (st x)) then
      if is_op x "load" then let* s := launchMem true s i p fu in Ok (s, i)
      else if is_op x "store" then let* s := launchMem false s i p fu in Ok (s, i)
      else if _MaxCycle (st x) =? 0 then let* s := launchZero s i p fu in Ok (s, i)
      else if unlimitedFU then let* s := launchCompute s i p fu in Ok (s, i)
      else
        let '(s, ok) := limitFU s fu in
        if (ok : bool) then
          let s := if is_op x "fdiv" then count_fdiv s else s in
          let* s := launchCompute s i p fu in Ok (s, i)
        else Ok (s, S i)
    else if negb (is_op x "ret") then
      if Z.of_nat (length (reservation c)) <? scheduling_threshold cfg then
        let* s := launchBranch s i p fu in Ok (s, i)
      else Ok (s, S i)
    else Ok (s, i)
  else if is_op x "ret" && Nat.eqb i 0 then
    match computeQueue c, readQueue c, writeQueue c with
    | [], [], [] => Ok (log (finalize (set_running (erase_reservation s i) false)) Finish, S i)
    | _, _, _ => Ok (s, S i)
    end
  else Ok (s, S i).

(** [for (auto i = 0; i < reservation.size();)].  A [ret] with no active
    parent, or a cycle of blocks that only branch, never leaves the loop: the
    model then runs out of [fuel]. *)
Fixpoint reservationLoop (fuel : nat) (s : LLVMInterface) (i : nat) : outcome LLVMInterface :=
  match reservation (core s) !! i with
  | None => Ok s
  | Some p =>
      match fuel with
      | O => Err OutOfFuel
      | S fuel =>
          let* (s, i) := reservationStep s i p in
          reservationLoop fuel s i
      end
  end.

(** *** tick *)

(** The bookkeeping at the head of [tick].  The power model's running totals
    are not part of the state. *)
Definition tickHead (s : LLVMInterface) : LLVMInterface :=
  let x := stats s in
  let x := mkStats (clearFU (occupancy_tracking cfg) (fus x)) (hw_update (hardware x)) (occ x)
             false false false (memory_loads x) (memory_stores x) (dma_loads x) (dma_stores x)
             (s32 (cycle x + 1)) (execnodes x) in
  let c := core s in
  log (set_core (set_stats s x) (set_regs c (resetAccess (regList c)))) RefreshMemPorts.

(** The event is rescheduled when [running] is still set. *)
Definition tick (fuel : nat) (s : LLVMInterface) : outcome (LLVMInterface * bool) :=
  let s := tickHead s in
  let q (f : Core → list nat) := Z.of_nat (length (f (core s))) in
  let '(li, si, ci) := (q readQueue, q writeQueue, q computeQueue) in
  let* s := computeLoop (length (computeQueue (core s))) s 0 in
  let* s := (match reservation (core s) with [] => scheduleBB s (currBB s) | _ => Ok s end) in
  let busy := match computeQueue (core s), readQueue (core s), writeQueue (core s) with
              | [], [], [] => false | _, _, _ => true end in
  let* s := (if lockstep cfg && busy then Ok s else reservationLoop fuel s 0) in
  let x := stats s in
  let s := set_stats s (set_occ x (occupancy (loadOpScheduled x) (storeOpScheduled x)
                                     (compOpScheduled x) li si ci (occ x))) in
  Ok (s, running s).
End Tick.

(** ** Completed memory requests *)

(** [setResult(req->buffer)]: as many bytes as the return register has. *)
Definition setResultBuf (rl : RegisterList) (i : Instruction) (buf : list Z) : outcome Instruction :=
  match _ReturnRegister (st i) with
  | None => Err Undefined
  | Some p =>
      let* r := reg_at rl p in
      let* bs := mem_read buf 0 (_Size r) in
      setResult rl i (le_val bs)
  end.

(** [for (auto i = 0; i < readQueue.size(); i++)]: after an erase the next
    entry is skipped. *)
Fixpoint readCommitLoop (n : nat) (c : Core) (i : nat) (req : nat) (buf : list Z) : outcome Core :=
  match n with
  | O => Ok c
  | S n =>
      match readQueue c !! i with
      | None => Ok c
      | Some p =>
          let* x := node c p in
          if bool_decide (_Req x = Some req) then
            let* x := setResultBuf (regList c) x buf in
            let c := set_node c p x in
            let* (c, _) := commit c p in
            let* c := removeLinks c p in
            readCommitLoop n (set_readQueue c (erase_at (readQueue c) i)) (S i) req buf
          else readCommitLoop n c (S i) req buf
      end
  end.
Definition readCommit (s : LLVMInterface) (req : nat) (buf : list Z) : outcome LLVMInterface :=
  let* c := readCommitLoop (length (readQueue (core s))) (core s) 0 req buf in Ok (set_core s c).

Fixpoint writeCommitLoop (n : nat) (c : Core) (i : nat) (req : nat) : outcome Core :=
  match n with
  | O => Ok c
  | S n =>
      match writeQueue c !! i with
      | None => Ok c
      | Some p =>
          let* x := node c p in
          if bool_decide (_Req x = Some req) then
            let* (c, _) := commit c p in
            let* c := removeLinks c p in
            writeCommitLoop n (set_writeQueue c (erase_at (writeQueue c) i)) (S i) req
          else writeCommitLoop n c (S i) req
      end
  end.
Definition writeCommit (s : LLVMInterface) (req : nat) : outcome LLVMInterface :=
  let* c := writeCommitLoop (length (writeQueue (core s))) (core s) 0 req in Ok (set_core s c).

(** ** initialize

    [constructBBList] is the parser's part: [bbs] and [rl] are the block list
    and the register list it builds. *)
Definition initialize (cfg : Config) (old : MemoryRequest) (bbs : list BasicBlock)
    (rl : RegisterList) (x : Stats) (fuel : nat) : outcome (LLVMInterface * bool) :=
  let l := lim (limits cfg) in
  let hw := hw_updateLimit (hardware x)
    [counter_units l; int_adder_units l; int_multiply_units l; int_shifter_units l; int_bit_units l;
     fp_sp_adder l; fp_dp_adder l; fp_sp_multiply l; fp_sp_division (limits cfg); fp_dp_multiply l;
     fp_dp_division (limits cfg); compare l; gep l; conversion l] in
  let x := mkStats (initFU (fus x)) hw OccCounters_zero (loadOpScheduled x) (storeOpScheduled x)
             (compOpScheduled x) (memory_loads x) (memory_stores x) (dma_loads x) (dma_stores x) 0 0 in
  let s := mkLI (mkCore [] rl [] [] [] []) x bbs None None true 0 [] in
  let* e := findEntryBB s in
  let s := set_BBs s (Some e) (Some e) in
  tick cfg (unlimitedMode (limits cfg)) old fuel s.
