(* ===== verification/SchedulerInv.v ===== *)
(** The dependency graph of the runtime engine: the invariant that ties
    [_ActiveParents] to the instructions in flight, its preservation by every
    operation of file Scheduler, and what it gives: an instruction launches
    only when every producer it was linked to has committed. *)
From stdpp Require Import strings sorting.
From S2P Require Import Prelude CppString Registers MemRequest Macros Instructions Compute FunctionalUnits Scheduler.
From Stdlib Require String.

#[global] Open Scope Z_scope.

(** ** What an operation leaves alone *)

(** The members the graph depends on. *)
Definition same (x x' : Instruction) : Prop :=
  st x' = st x ∧ _Children x' = _Children x ∧ _ActiveParents x' = _ActiveParents x ∧
  _CurrCycle x' = _CurrCycle x.

#[export] Instance same_preorder : PreOrder same.
Proof. split; [by intros ?|]. unfold same. intros ??? (?&?&?&?) (?&?&?&?). by split_and!; etrans. Qed.

Lemma setResult_same rl i v i' : setResult rl i v = Ok i' → same i i'.
Proof.
  unfold setResult. destruct (_ReturnRegister (st i)); [|done]. intros H. mon.
  destruct (_ <? _); mon. done.
Qed.

Create HintDb same_db.
#[export] Hint Resolve setResult_same : same_db.
#[export] Hint Extern 1 (same _ _) => (by unfold same) : same_db.

(** Split a successful run, conditionals included. *)
Ltac run H :=
  repeat (mon; match type of H with
  | (if ?b then _ else _) = Ok _ => destruct b eqn:?
  | match ?x with _ => _ end = Ok _ => destruct x eqn:?
  end); mon.

Lemma setResult_same_upd rl i j v i' :
  setResult rl j v = Ok i' → same i j → same i i'.
Proof. intros H ?. etrans; [done|]. by eapply setResult_same. Qed.

Lemma compute_same nr old rl i rl' i' call :
  compute nr old rl i = Ok (rl', i', call) → same i i'.
Proof.
  unfold compute. intros H.
  destruct (cls i) eqn:E;
    try (injection H as <- <- <-; reflexivity);
    unfold pure_compute in H; try (apply bind_ok in H; destruct H as (j & H & [= <- <- <-]));
    unfold Add_compute, Sub_compute, Mul_compute, UDiv_compute, SDiv_compute, URem_compute,
      SRem_compute, Shl_compute, LShr_compute, AShr_compute, And_compute, Or_compute, Xor_compute,
      binary_compute, bitwise_compute, FAdd_compute, FSub_compute, FMul_compute, FDiv_compute,
      float_compute, setResultF, Trunc_compute, ZExt_compute, SExt_compute, FPToUI_compute,
      FPToSI_compute, int_conv, UIToFP_compute, SIToFP_compute, FPTrunc_compute, FPExt_compute,
      fp_conv, ICmp_compute, FCmp_compute, Br_compute, LLVMSwitch_compute, Phi_compute,
      Select_compute, GetElementPtr_compute, Load_compute, Store_compute in H;
    run H; try (by eapply setResult_same_upd; [done|]); try done.
Qed.

(** ** The graph *)

Definition inflight (c : Core) : list nat :=
  reservation c ++ computeQueue c ++ readQueue c ++ writeQueue c.

Definition kids (c : Core) (p : nat) : list nat :=
  match heap c !! p with Some x => _Children x | None => [] end.

(** One entry per link whose parent is still in flight. *)
Definition edges (c : Core) : list nat := inflight c ≫= kids c.

Definition occurs (q : nat) (l : list nat) : nat := length (filter (fun x => x = q) l).

(** The active parent [Ret] is constructed with. *)
Definition bonus (s : InstrStatic) : Z := if String.eqb (_OpCode s) "ret" then 1 else 0.

Lemma occurs_app q l l' : occurs q (l ++ l') = (occurs q l + occurs q l')%nat.
Proof. unfold occurs. by rewrite filter_app, length_app. Qed.
Lemma occurs_cons q x l : occurs q (x :: l) = ((if decide (x = q) then 1 else 0) + occurs q l)%nat.
Proof. unfold occurs. rewrite filter_cons. by destruct (decide (x = q)). Qed.
Lemma occurs_0 q l : occurs q l = 0%nat ↔ q ∉ l.
Proof.
  induction l as [|x l IH]; [split; [intros _; apply not_elem_of_nil|done]|].
  rewrite occurs_cons, not_elem_of_cons. destruct (decide (x = q)); [|rewrite IH; simpl; intuition congruence].
  split; [lia|]. intros [? _]. congruence.
Qed.
Lemma occurs_perm q l l' : l ≡ₚ l' → occurs q l = occurs q l'.
Proof. intros H. unfold occurs. by rewrite H. Qed.
Lemma edges_elem c q : q ∈ edges c ↔ ∃ p, p ∈ inflight c ∧ q ∈ kids c p.
Proof. unfold edges. rewrite list_elem_of_bind. by setoid_rewrite (and_comm (_ ∈ kids _ _)). Qed.

Section Graph.
(** Whether a source line defines a register. *)
Context (defines : string → bool).

(** What the parser guarantees of an instruction. *)
Record static_ok (s : InstrStatic) : Prop := {
  so_line : bool_decide (is_Some (_ReturnRegister s)) = defines (_LLVMLine s);
  so_term : _Terminator s = true → _ReturnRegister s = None ∧ _OpCode s ≠ "store"%string;
  so_store : _OpCode s = "store"%string → _ReturnRegister s = None;
  so_load : _OpCode s = "load"%string → _MaxCycle s = 0;
  so_cycle : 0 ≤ _MaxCycle s;
  so_ret : _OpCode s = "ret"%string → _Terminator s = true;
}.

Definition may_parent (s : InstrStatic) : Prop :=
  is_Some (_ReturnRegister s) ∨ _OpCode s = "store"%string.

(** A template: well formed, without links, not started. *)
Record tmpl_ok (x : Instruction) : Prop := {
  to_static : static_ok (st x);
  to_children : _Children x = [];
  to_active : _ActiveParents x = bonus (st x);
  to_cycle : _CurrCycle x = 0;
}.

Record Inv (c : Core) : Prop := {
  inv_nodup : NoDup (inflight c);
  inv_alive : ∀ p, p ∈ inflight c → ∃ x, heap c !! p = Some x ∧ static_ok (st x);
  inv_sorted : StronglySorted lt (reservation c);
  inv_edge : ∀ p ch, p ∈ inflight c → ch ∈ kids c p → (p < ch)%nat ∧ ch ∈ reservation c;
  inv_kids : ∀ p x, p ∈ inflight c → heap c !! p = Some x → _Children x ≠ [] → may_parent (st x);
  inv_act : ∀ q x, q ∈ inflight c → heap c !! q = Some x →
    _ActiveParents x = bonus (st x) + Z.of_nat (occurs q (edges c));
  inv_cur : ∀ p x, p ∈ reservation c → heap c !! p = Some x → _CurrCycle x = 0;
  inv_cyc : ∀ p x, p ∈ inflight c → heap c !! p = Some x → 0 ≤ _CurrCycle x;
  inv_comp : ∀ p x, p ∈ computeQueue c → heap c !! p = Some x → _OpCode (st x) ≠ "store"%string;
  inv_read : ∀ p x, p ∈ readQueue c → heap c !! p = Some x → _OpCode (st x) = "load"%string;
  inv_write : ∀ p x, p ∈ writeQueue c → heap c !! p = Some x → _OpCode (st x) = "store"%string;
}.

Lemma node_ok c p x : node c p = Ok x ↔ heap c !! p = Some x.
Proof. apply vec_get_ok. Qed.

Ltac nodes :=
  repeat match goal with N : node _ _ = Ok _ |- _ => apply node_ok in N end.

Lemma in_reservation c p : p ∈ reservation c → p ∈ inflight c.
Proof. intros. unfold inflight. rewrite !elem_of_app. auto. Qed.

Lemma inflight_lt c p : Inv c → p ∈ inflight c → (p < length (heap c))%nat.
Proof. intros I Hp. destruct (inv_alive c I p Hp) as (x & Hx & _). by eapply lookup_lt_Some. Qed.

(** *** Updates that keep the graph *)

(** [c'] has the heap of [c] up to members the graph does not depend on. *)
Definition heap_same (h h' : list Instruction) : Prop :=
  ∀ q, match h !! q with
       | Some x => ∃ x', h' !! q = Some x' ∧ same x x'
       | None => h' !! q = None
       end.

Lemma heap_same_inv h h' q x' :
  heap_same h h' → h' !! q = Some x' → ∃ x, h !! q = Some x ∧ same x x'.
Proof.
  intros Hs Hx. specialize (Hs q). destruct (h !! q) as [x|]; [|congruence].
  destruct Hs as (y & Hy & ?). exists x. split; [done|]. congruence.
Qed.

Lemma heap_same_insert h p x x' : h !! p = Some x → same x x' → heap_same h (<[p := x']> h).
Proof.
  intros Hp Hs q. destruct (decide (p = q)) as [<-|].
  - rewrite Hp. exists x'. split; [|done]. apply list_lookup_insert_eq. by eapply lookup_lt_Some.
  - rewrite list_lookup_insert_ne by done. destruct (h !! q); [|done]. by eexists; split.
Qed.

Lemma heap_same_kids c c' p : heap_same (heap c) (heap c') → kids c' p = kids c p.
Proof.
  intros Hs. unfold kids. specialize (Hs p). destruct (heap c !! p).
  - destruct Hs as (x' & -> & _ & -> & _). done.
  - by rewrite Hs.
Qed.

Lemma heap_same_edges c c' :
  heap_same (heap c) (heap c') → inflight c' = inflight c → edges c' = edges c.
Proof.
  intros Hs Hi. unfold edges. rewrite Hi. apply list_bind_ext; [|done].
  intros. by apply heap_same_kids.
Qed.

Lemma inv_same c c' :
  Inv c → heap_same (heap c) (heap c') →
  reservation c' = reservation c → computeQueue c' = computeQueue c →
  readQueue c' = readQueue c → writeQueue c' = writeQueue c → Inv c'.
Proof.
  intros I Hs Hr Hc Hrd Hw.
  assert (inflight c' = inflight c) as Hi by (unfold inflight; congruence).
  assert (∀ q x', heap c' !! q = Some x' → ∃ x, heap c !! q = Some x ∧ same x x') as Hb
    by (intros; by eapply heap_same_inv).
  split; rewrite ?Hi, ?Hr, ?Hc, ?Hrd, ?Hw; try apply I.
  - intros p Hp. destruct (inv_alive c I p Hp) as (x & Hx & ?). specialize (Hs p).
    rewrite Hx in Hs. destruct Hs as (x' & ? & E & _). exists x'. by rewrite E.
  - intros p ch. rewrite (heap_same_kids c c') by done. apply I.
  - intros p x' Hp Hx. destruct (Hb p x' Hx) as (x & ? & -> & -> & _). by eapply inv_kids.
  - intros q x' Hq Hx. destruct (Hb q x' Hx) as (x & ? & -> & _ & -> & _).
    rewrite (heap_same_edges c c') by done. by apply I.
  - intros p x' Hp Hx. destruct (Hb p x' Hx) as (x & ? & _ & _ & _ & ->). by eapply inv_cur.
  - intros p x' Hp Hx. destruct (Hb p x' Hx) as (x & ? & _ & _ & _ & ->). by eapply inv_cyc.
  - intros p x' Hp Hx. destruct (Hb p x' Hx) as (x & ? & -> & _). by eapply inv_comp.
  - intros p x' Hp Hx. destruct (Hb p x' Hx) as (x & ? & -> & _). by eapply inv_read.
  - intros p x' Hp Hx. destruct (Hb p x' Hx) as (x & ? & -> & _). by eapply inv_write.
Qed.

Lemma inv_set_node c p x x' : Inv c → heap c !! p = Some x → same x x' → Inv (set_node c p x').
Proof. intros I Hx Hs. eapply inv_same; try done. by apply heap_same_insert with x. Qed.

Lemma inv_set_regs c rl : Inv c → Inv (set_regs c rl).
Proof.
  intros I. eapply inv_same; try done. intros q. simpl.
  destruct (heap c !! q); [|done]. by eexists; split.
Qed.

(** *** Signalling *)

(** What signalling the children [l] does to the heap. *)
Definition signalled (l : list nat) (h h' : list Instruction) : Prop :=
  length h' = length h ∧
  ∀ q x, h !! q = Some x → ∃ x', h' !! q = Some x' ∧ st x' = st x ∧ _Children x' = _Children x ∧
    _CurrCycle x' = _CurrCycle x ∧ _ActiveParents x' = _ActiveParents x - Z.of_nat (occurs q l).

Definition same_queues (c c' : Core) : Prop :=
  reservation c' = reservation c ∧ computeQueue c' = computeQueue c ∧
  readQueue c' = readQueue c ∧ writeQueue c' = writeQueue c.

Lemma same_queues_inflight c c' : same_queues c c' → inflight c' = inflight c.
Proof. intros (?&?&?&?). unfold inflight. congruence. Qed.

Lemma signalled_nil h : signalled [] h h.
Proof. split; [done|]. intros q x Hx. exists x. split_and!; try done. unfold occurs. simpl. lia. Qed.

Lemma decrParents_ok x x' :
  decrParents x = Ok x' → st x' = st x ∧ _Children x' = _Children x ∧ _CurrCycle x' = _CurrCycle x ∧
  _ActiveParents x' = _ActiveParents x - 1.
Proof.
  unfold decrParents, chk32. intros H. mon. destruct (_ && _); mon. done.
Qed.

Lemma fetchDependency_ok rl x r rl' x' :
  fetchDependency rl x r = Ok (rl', x') →
  st x' = st x ∧ _Children x' = _Children x ∧ _CurrCycle x' = _CurrCycle x ∧
  _ActiveParents x' = _ActiveParents x - 1.
Proof.
  unfold fetchDependency. intros H. mon.
  match goal with D : decrParents _ = Ok _ |- _ => by apply decrParents_ok in D end.
Qed.

Lemma signalChild_ok reg c ch c' :
  signalChild reg c ch = Ok c' → same_queues c c' ∧ signalled [ch] (heap c) (heap c').
Proof.
  unfold signalChild. intros H. mon. apply node_ok in H0.
  assert (∃ y, heap c' = <[ch := y]> (heap c) ∧ same_queues c c' ∧
    st y = st x ∧ _Children y = _Children x ∧ _CurrCycle y = _CurrCycle x ∧
    _ActiveParents y = _ActiveParents x - 1) as (y & Hh & Hq & Hy).
  { destruct reg as [r|]; mon.
    - destruct x0 as [rl y]. mon. apply fetchDependency_ok in H1. by exists y.
    - apply decrParents_ok in H1. by eexists. }
  split; [done|]. rewrite Hh. split; [apply length_insert|]. intros q z Hz.
  destruct (decide (ch = q)) as [<-|Hne].
  - rewrite list_lookup_insert_eq by (by eapply lookup_lt_Some). assert (z = x) as -> by congruence.
    exists y. destruct_and!. split_and!; try done. rewrite occurs_cons, decide_True by done. unfold occurs; simpl; lia.
  - rewrite list_lookup_insert_ne by done. exists z. split_and!; try done.
    rewrite occurs_cons, decide_False by done. unfold occurs; simpl; lia.
Qed.

Lemma signal_fold reg l : ∀ c c',
  foldM (signalChild reg) l c = Ok c' → same_queues c c' ∧ signalled l (heap c) (heap c').
Proof.
  induction l as [|ch l IH]; intros c c' H; simpl in H; mon.
  - split; [done|]. apply signalled_nil.
  - apply signalChild_ok in H0 as (Q1 & L1 & S1). apply IH in H as (Q2 & L2 & S2).
    destruct Q1 as (?&?&?&?), Q2 as (?&?&?&?).
    split; [split_and!; congruence|]. split; [congruence|].
    intros q z Hz. destruct (S1 q z Hz) as (z1 & Hz1 & E1 & E2 & E3 & E4).
    destruct (S2 q z1 Hz1) as (z2 & Hz2 & F1 & F2 & F3 & F4).
    exists z2. split_and!; try congruence. rewrite F4, E4.
    change (ch :: l) with ([ch] ++ l). rewrite occurs_app. lia.
Qed.

Lemma signalChildren_ok c p c' :
  signalChildren c p = Ok c' → same_queues c c' ∧ signalled (kids c p) (heap c) (heap c').
Proof.
  unfold signalChildren. intros H. mon. apply node_ok in H0. unfold kids. rewrite H0.
  by apply signal_fold in H.
Qed.

(** [commit]: it signals the children and reports whether the register was
    written, or it counts a cycle. *)
Lemma commit_ok c p c' b x :
  commit c p = Ok (c', b) → heap c !! p = Some x →
  same_queues c c' ∧
  if decide (_ReturnRegister (st x) = None ∨ _MaxCycle (st x) ≤ _CurrCycle x)
  then signalled (kids c p) (heap c) (heap c') ∧ b = bool_decide (is_Some (_ReturnRegister (st x)))
  else b = false ∧ heap c' = <[p := set_CurrCycle x (u64 (_CurrCycle x + 1))]> (heap c).
Proof.
  unfold commit. intros H Hx. mon. apply node_ok in H0. assert (x0 = x) as -> by congruence.
  destruct (_ReturnRegister (st x)) as [r|] eqn:Er.
  - destruct (Z.leb_spec (_MaxCycle (st x)) (_CurrCycle x)).
    + mon. apply signalChildren_ok in H4 as [Q S]. split; [done|].
      rewrite decide_True by auto. split; [done|]. by rewrite bool_decide_true.
    + mon. split; [done|]. rewrite decide_False; [done|]. intros [?|?]; [done|lia].
  - mon. apply signalChildren_ok in H1 as [Q S]. split; [done|].
    rewrite decide_True by auto. split; [done|]. by rewrite bool_decide_false by (by intros []).
Qed.

(** *** Leaving the queues *)

(** [p] leaves the queues, its children signalled. *)
Lemma inv_remove c c' p :
  Inv c → inflight c ≡ₚ p :: inflight c' → p ∉ edges c →
  StronglySorted lt (reservation c') → (∀ q, q ∈ reservation c → q = p ∨ q ∈ reservation c') →
  reservation c' ⊆ reservation c → computeQueue c' ⊆ computeQueue c →
  readQueue c' ⊆ readQueue c → writeQueue c' ⊆ writeQueue c →
  (∀ q x, q ≠ p → heap c !! q = Some x → ∃ x', heap c' !! q = Some x' ∧ st x' = st x ∧
     _Children x' = _Children x ∧ _CurrCycle x' = _CurrCycle x ∧
     _ActiveParents x' = _ActiveParents x - Z.of_nat (occurs q (kids c p))) →
  Inv c'.
Proof.
  intros I Hi Hp Hsort Hkeep Hr Hc Hrd Hw Hh.
  pose proof (inv_nodup c I) as Hnd. rewrite Hi in Hnd. apply NoDup_cons in Hnd as [Hnp Hnd].
  assert (∀ q, q ∈ inflight c' → q ∈ inflight c ∧ q ≠ p) as Hin.
  { intros q Hq. split; [rewrite Hi; by right|]. by intros ->. }
  assert (∀ q x', q ∈ inflight c' → heap c' !! q = Some x' → ∃ x, heap c !! q = Some x ∧
    st x' = st x ∧ _Children x' = _Children x ∧ _CurrCycle x' = _CurrCycle x ∧
    _ActiveParents x' = _ActiveParents x - Z.of_nat (occurs q (kids c p))) as Hb.
  { intros q x' Hq Hx'. destruct (Hin q Hq) as [Hq' Hne].
    destruct (inv_alive c I q Hq') as (x & Hx & _). exists x. split; [done|].
    destruct (Hh q x Hne Hx) as (y & Hy & ?). assert (y = x') as -> by congruence. done. }
  assert (∀ q, q ∈ inflight c' → kids c' q = kids c q) as Hk.
  { intros q Hq. destruct (Hin q Hq) as [Hq' Hne]. destruct (inv_alive c I q Hq') as (x & Hx & _).
    destruct (Hh q x Hne Hx) as (x' & Hx' & _ & E & _). unfold kids. by rewrite Hx, Hx'. }
  assert (edges c ≡ₚ kids c p ++ edges c') as He.
  { unfold edges. rewrite Hi. cbn [mbind list_bind]. f_equiv.
    enough (inflight c' ≫= kids c = inflight c' ≫= kids c') as -> by done.
    clear -Hk. revert Hk. generalize (inflight c') as l. induction l as [|q l IH]; [done|].
    intros Hk. cbn [mbind list_bind]. rewrite (Hk q) by (by left). f_equal.
    apply IH. intros. apply Hk. by right. }
  assert (∀ q, q ∈ edges c' → q ≠ p) as Hep.
  { intros q Hq ->. apply Hp. rewrite He. apply elem_of_app. by right. }
  split.
  - done.
  - intros q Hq. destruct (Hin q Hq) as [Hq' Hne]. destruct (inv_alive c I q Hq') as (x & Hx & ?).
    destruct (Hh q x Hne Hx) as (x' & ? & E & _). exists x'. by rewrite E.
  - done.
  - intros q ch Hq Hch. destruct (Hin q Hq) as [Hq' Hne].
    assert (ch ≠ p) by (apply Hep, edges_elem; eauto). rewrite Hk in Hch by done.
    destruct (inv_edge c I q ch Hq' Hch) as [? Hc']. split; [done|].
    destruct (Hkeep ch Hc'); done.
  - intros q x' Hq Hx'. destruct (Hb q x' Hq Hx') as (x & Hx & -> & -> & _).
    eapply inv_kids; [done| |done]. by apply Hin.
  - intros q x' Hq Hx'. destruct (Hb q x' Hq Hx') as (x & Hx & -> & _ & _ & ->).
    rewrite (inv_act c I q x) by (done || by apply Hin).
    rewrite (occurs_perm q _ _ He), occurs_app. lia.
  - intros q x' Hq Hx'. destruct (Hb q x' (in_reservation _ _ Hq) Hx') as (x & Hx & _ & _ & -> & _).
    eapply inv_cur; [done| |done]. by apply Hr.
  - intros q x' Hq Hx'. destruct (Hb q x' Hq Hx') as (x & Hx & _ & _ & -> & _).
    eapply inv_cyc; [done| |done]. by apply Hin.
  - intros q x' Hq Hx'. assert (q ∈ inflight c') as Hq' by (unfold inflight; rewrite !elem_of_app; auto).
    destruct (Hb q x' Hq' Hx') as (x & Hx & -> & _). eapply inv_comp; [done| |done]. by apply Hc.
  - intros q x' Hq Hx'. assert (q ∈ inflight c') as Hq' by (unfold inflight; rewrite !elem_of_app; auto).
    destruct (Hb q x' Hq' Hx') as (x & Hx & -> & _). eapply inv_read; [done| |done]. by apply Hrd.
  - intros q x' Hq Hx'. assert (q ∈ inflight c') as Hq' by (unfold inflight; rewrite !elem_of_app; auto).
    destruct (Hb q x' Hq' Hx') as (x & Hx & -> & _). eapply inv_write; [done| |done]. by apply Hw.
Qed.

(** An instruction outside the reservation table is nobody's child. *)
Lemma not_child c p : Inv c → p ∉ reservation c → p ∉ edges c.
Proof.
  intros I Hp (q & Hq & Hk)%edges_elem. destruct (inv_edge c I q p Hq Hk). done.
Qed.

Lemma not_child_active c p x :
  Inv c → p ∈ inflight c → heap c !! p = Some x → _ActiveParents x = 0 →
  (p ∉ edges c) ∧ bonus (st x) = 0.
Proof.
  intros I Hp Hx Ha. pose proof (inv_act c I p x Hp Hx) as E. rewrite Ha in E.
  assert (0 ≤ bonus (st x)) by (unfold bonus; destruct (String.eqb _ _); lia).
  split; [apply occurs_0|]; lia.
Qed.

Lemma erase_at_perm q i p : q !! i = Some p → q ≡ₚ p :: erase_at q i.
Proof.
  intros Hp. unfold erase_at. rewrite <-(take_drop_middle q i p Hp) at 1.
  by rewrite Permutation_middle.
Qed.
Lemma erase_at_sub q i : erase_at q i ⊆ q.
Proof.
  intros x. unfold erase_at. rewrite elem_of_app. intros [H|H].
  - by apply subseteq_take in H.
  - rewrite <-(take_drop (S i) q). apply elem_of_app. by right.
Qed.
Lemma erase_at_keep q i p x : q !! i = Some p → x ∈ q → x = p ∨ x ∈ erase_at q i.
Proof. intros Hp Hx. rewrite (erase_at_perm q i p Hp) in Hx. by apply elem_of_cons in Hx. Qed.
Lemma erase_at_sorted q i : StronglySorted lt q → StronglySorted lt (erase_at q i).
Proof.
  unfold erase_at. revert i. induction q as [|x q IH]; intros i Hs; [by destruct i|].
  inversion Hs as [|?? Hs' Hf]; subst. destruct i as [|i]; simpl; [by rewrite drop_0|].
  constructor; [by apply IH|]. rewrite Forall_forall in *. intros y Hy. apply Hf.
  by apply (erase_at_sub q i).
Qed.

(** *** Moving to an in-flight queue *)

Lemma inv_move c c' p :
  Inv c → p ∉ edges c → inflight c' ≡ₚ inflight c →
  StronglySorted lt (reservation c') → (∀ q, q ∈ reservation c → q = p ∨ q ∈ reservation c') →
  reservation c' ⊆ reservation c → p ∉ reservation c' →
  (∀ q x, q ∈ computeQueue c' → heap c !! q = Some x →
     q ∈ computeQueue c ∨ _OpCode (st x) ≠ "store"%string) →
  (∀ q x, q ∈ readQueue c' → heap c !! q = Some x →
     q ∈ readQueue c ∨ _OpCode (st x) = "load"%string) →
  (∀ q x, q ∈ writeQueue c' → heap c !! q = Some x →
     q ∈ writeQueue c ∨ _OpCode (st x) = "store"%string) →
  length (heap c') = length (heap c) →
  (∀ q x, heap c !! q = Some x → ∃ x', heap c' !! q = Some x' ∧ st x' = st x ∧
     _Children x' = _Children x ∧ _ActiveParents x' = _ActiveParents x ∧
     (q ≠ p → _CurrCycle x' = _CurrCycle x) ∧ (0 ≤ _CurrCycle x → 0 ≤ _CurrCycle x')) →
  Inv c'.
Proof.
  intros I Hp Hi Hsort Hkeep Hr Hpr Hc Hrd Hw Hlen Hh.
  assert (∀ q x', heap c' !! q = Some x' → ∃ x, heap c !! q = Some x ∧ st x' = st x ∧
     _Children x' = _Children x ∧ _ActiveParents x' = _ActiveParents x ∧
     (q ≠ p → _CurrCycle x' = _CurrCycle x) ∧ (0 ≤ _CurrCycle x → 0 ≤ _CurrCycle x')) as Hb.
  { intros q x' Hx'. destruct (heap c !! q) as [x|] eqn:Hx.
    - destruct (Hh q x Hx) as (y & Hy & ?). exists x. split; [done|].
      assert (y = x') as -> by congruence. done.
    - apply lookup_ge_None in Hx. apply lookup_lt_Some in Hx'. lia. }
  assert (∀ q, kids c' q = kids c q) as Hk.
  { intros q. unfold kids. destruct (heap c !! q) as [x|] eqn:Hx.
    - by destruct (Hh q x Hx) as (x' & -> & _ & -> & _).
    - apply lookup_ge_None in Hx. by rewrite (lookup_ge_None_2 (heap c') q) by lia. }
  assert (edges c' ≡ₚ edges c) as He.
  { unfold edges. rewrite Hi. apply reflexive_eq. apply list_bind_ext; [|done]. intros. apply Hk. }
  assert (∀ q, q ∈ inflight c' ↔ q ∈ inflight c) as Hin by (intros q; by rewrite Hi).
  split.
  - rewrite Hi. apply I.
  - intros q Hq%Hin. destruct (inv_alive c I q Hq) as (x & Hx & ?).
    destruct (Hh q x Hx) as (x' & ? & E & _). exists x'. by rewrite E.
  - done.
  - intros q ch Hq%Hin Hch. rewrite Hk in Hch. destruct (inv_edge c I q ch Hq Hch) as [? Hc'].
    split; [done|]. destruct (Hkeep ch Hc') as [->|]; [|done].
    destruct Hp. apply edges_elem. eauto.
  - intros q x' Hq%Hin Hx'. destruct (Hb q x' Hx') as (x & Hx & -> & -> & _). by eapply inv_kids.
  - intros q x' Hq%Hin Hx'. destruct (Hb q x' Hx') as (x & Hx & -> & _ & -> & _).
    rewrite (occurs_perm q _ _ He). by apply I.
  - intros q x' Hq Hx'. destruct (Hb q x' Hx') as (x & Hx & _ & _ & _ & Hcur & _).
    rewrite Hcur by (by intros ->). eapply inv_cur; [done| |done]. by apply Hr.
  - intros q x' Hq%Hin Hx'. destruct (Hb q x' Hx') as (x & Hx & _ & _ & _ & _ & Hcyc).
    by eapply Hcyc, inv_cyc.
  - intros q x' Hq Hx'. destruct (Hb q x' Hx') as (x & Hx & -> & _).
    destruct (Hc q x Hq Hx); [by eapply inv_comp|done].
  - intros q x' Hq Hx'. destruct (Hb q x' Hx') as (x & Hx & -> & _).
    destruct (Hrd q x Hq Hx); [by eapply inv_read|done].
  - intros q x' Hq Hx'. destruct (Hb q x' Hx') as (x & Hx & -> & _).
    destruct (Hw q x Hq Hx); [by eapply inv_write|done].
Qed.

(** *** Scheduling *)

Lemma sorted_snoc l n : StronglySorted lt l → (∀ x, x ∈ l → (x < n)%nat) → StronglySorted lt (l ++ [n]).
Proof.
  induction 1 as [|x l Hs IH Hf]; intros Hn; simpl; [repeat constructor|].
  constructor; [apply IH; intros; apply Hn; by right|].
  apply Forall_app; split; [done|]. constructor; [|done]. apply Hn. by left.
Qed.

Lemma inv_push c tmpl : Inv c → tmpl_ok tmpl → Inv (push_clone c tmpl).
Proof.
  intros I T. set (id := length (heap c)). set (c' := push_clone c tmpl).
  assert (∀ q, q ∈ inflight c → (q < id)%nat) as Hlt by (intros; by apply inflight_lt).
  assert (inflight c' ≡ₚ id :: inflight c) as Hi.
  { unfold inflight, c'. cbn [push_clone reservation computeQueue readQueue writeQueue].
    rewrite <-app_assoc. symmetry. apply Permutation_middle. }
  assert (heap c' !! id = Some tmpl) as Hid by (by apply list_lookup_middle).
  assert (∀ q, (q < id)%nat → heap c' !! q = heap c !! q) as Hold
    by (intros; by apply lookup_app_l).
  assert (∀ q, (q < id)%nat → kids c' q = kids c q) as Hk
    by (intros; unfold kids; by rewrite Hold).
  assert (kids c' id = []) as Hkid by (unfold kids; rewrite Hid; apply T).
  assert (edges c' ≡ₚ edges c) as He.
  { unfold edges. rewrite Hi. cbn [mbind list_bind]. rewrite Hkid. simpl.
    apply reflexive_eq. clear -Hk Hlt. revert Hlt. generalize (inflight c) as l.
    induction l as [|q l IH]; [done|]. intros Hl. cbn [mbind list_bind].
    rewrite Hk by (apply Hl; by left). f_equal. apply IH. intros. apply Hl. by right. }
  assert (∀ q, q ∈ inflight c' → q = id ∨ q ∈ inflight c ∧ (q < id)%nat) as Hin.
  { intros q Hq. rewrite Hi in Hq. apply elem_of_cons in Hq as [->|Hq]; auto. }
  assert (∀ q, q ∈ reservation c → (q < id)%nat) as Hrlt
    by (intros; by apply Hlt, in_reservation).
  split.
  - rewrite Hi. apply NoDup_cons. split; [|apply I]. intros Hq%Hlt. lia.
  - intros q [->|[Hq Hl]]%Hin; [exists tmpl; split; [done|apply T]|].
    rewrite Hold by done. by apply I.
  - apply sorted_snoc; [apply I|done].
  - intros q ch [->|[Hq Hl]]%Hin; [rewrite Hkid; by intros ?%elem_of_nil|].
    rewrite Hk by done. intros Hch. destruct (inv_edge c I q ch Hq Hch). split; [done|].
    apply elem_of_app. by left.
  - intros q x [->|[Hq Hl]]%Hin; [rewrite Hid; intros [= <-]; by rewrite (to_children _ T)|].
    rewrite Hold by done. by apply I.
  - intros q x [->|[Hq Hl]]%Hin.
    + rewrite Hid. intros [= <-]. rewrite (to_active _ T), (occurs_perm id _ _ He).
      rewrite (proj2 (occurs_0 id (edges c))); [lia|]. intros (r & Hr & Hkr)%edges_elem.
      destruct (inv_edge c I r id Hr Hkr) as [_ ?%Hrlt]. lia.
    + rewrite Hold by done. intros Hx. rewrite (occurs_perm q _ _ He). by apply I.
  - intros q x [Hq|Hq]%elem_of_app.
    + rewrite Hold by (by apply Hrlt). by apply I.
    + apply list_elem_of_singleton in Hq as ->. change (length (heap c)) with id.
      rewrite Hid. intros [= <-]. apply T.
  - intros q x [->|[Hq Hl]]%Hin; [rewrite Hid; intros [= <-]; by rewrite (to_cycle _ T)|].
    rewrite Hold by done. by apply I.
  - intros q x Hq. rewrite Hold; [by apply I|]. apply Hlt. unfold inflight. rewrite !elem_of_app. auto.
  - intros q x Hq. rewrite Hold; [by apply I|]. apply Hlt. unfold inflight. rewrite !elem_of_app. auto.
  - intros q x Hq. rewrite Hold; [by apply I|]. apply Hlt. unfold inflight. rewrite !elem_of_app. auto.
Qed.

Lemma bind_ext_in {A B} (f g : A → list B) l : (∀ x, x ∈ l → f x = g x) → l ≫= f = l ≫= g.
Proof.
  induction l as [|x l IH]; [done|]. intros H. cbn [mbind list_bind].
  rewrite H by (by left). f_equal. apply IH. intros. apply H. by right.
Qed.

Lemma link_ok c id p c' x y :
  link c id p = Ok c' → heap c !! id = Some x → heap c !! p = Some y → p ≠ id →
  same_queues c c' ∧ length (heap c') = length (heap c) ∧
  (∀ q, q ≠ id → q ≠ p → heap c' !! q = heap c !! q) ∧
  (∃ x', heap c' !! id = Some x' ∧ st x' = st x ∧ _Children x' = _Children x ∧
     _CurrCycle x' = _CurrCycle x ∧ _ActiveParents x' = _ActiveParents x + 1 ∧ cls x' = cls x) ∧
  (∃ y', heap c' !! p = Some y' ∧ st y' = st y ∧ _Children y' = _Children y ++ [id] ∧
     _CurrCycle y' = _CurrCycle y ∧ _ActiveParents y' = _ActiveParents y).
Proof.
  unfold link, registerParent, chk32. intros H Hx Hy Hne. mon.
  repeat match goal with N : node _ _ = Ok _ |- _ => apply node_ok in N end.
  destruct (_ && _); mon. simpl in *.
  pose proof (lookup_lt_Some _ _ _ Hx). pose proof (lookup_lt_Some _ _ _ Hy).
  match goal with N : <[id := _]> _ !! p = Some _ |- _ =>
    rewrite list_lookup_insert_ne in N by done end.
  simplify_eq.
  split; [done|]. rewrite !length_insert. split; [done|]. split_and!.
  - intros q ??. by rewrite !list_lookup_insert_ne by done.
  - rewrite list_lookup_insert_ne, list_lookup_insert_eq by done. by eexists.
  - rewrite list_lookup_insert_eq by (by rewrite length_insert). by eexists.
Qed.

Lemma inv_link c id p c' y :
  Inv c → link c id p = Ok c' → id ∈ reservation c → p ∈ inflight c → (p < id)%nat →
  heap c !! p = Some y → may_parent (st y) → Inv c'.
Proof.
  intros I Hl Hid Hp Hlt Hy Hmay. pose proof (in_reservation c id Hid) as Hidf.
  destruct (inv_alive c I id Hidf) as (x & Hx & Hso).
  destruct (link_ok c id p c' x y Hl Hx Hy ltac:(lia))
    as (Hq & Hlen & Hrest & (x' & Hx' & X1 & X2 & X3 & X4 & _) & (y' & Hy' & Y1 & Y2 & Y3 & Y4)).
  pose proof (same_queues_inflight _ _ Hq) as Hi. destruct Hq as (Q1 & Q2 & Q3 & Q4).
  assert (∀ q z', heap c' !! q = Some z' → ∃ z, heap c !! q = Some z ∧ st z' = st z ∧
    _CurrCycle z' = _CurrCycle z ∧ (q ≠ p → _Children z' = _Children z) ∧
    _ActiveParents z' = _ActiveParents z + (if decide (q = id) then 1 else 0)) as Hb.
  { intros q z' Hz'. destruct (decide (q = id)) as [->|].
    - assert (z' = x') as -> by congruence. exists x. split_and!; try done; lia.
    - destruct (decide (q = p)) as [->|].
      + assert (z' = y') as -> by congruence. exists y. split_and!; try done; lia.
      + rewrite Hrest in Hz' by done. exists z'. split_and!; try done; lia. }
  assert (kids c' p = kids c p ++ [id]) as Hkp by (unfold kids; by rewrite Hy', Hy, Y2).
  assert (∀ q, q ≠ p → kids c' q = kids c q) as Hk.
  { intros q Hne. unfold kids. destruct (decide (q = id)) as [->|]; [|by rewrite Hrest].
    by rewrite Hx', Hx, X2. }
  assert (edges c' ≡ₚ id :: edges c) as He.
  { apply elem_of_Permutation in Hp as [l Hpl].
    pose proof (inv_nodup c I) as Hnd. rewrite Hpl in Hnd. apply NoDup_cons in Hnd as [Hnp _].
    unfold edges. rewrite Hi, Hpl. cbn [mbind list_bind]. rewrite Hkp, <-app_assoc.
    rewrite (bind_ext_in (kids c') (kids c) l) by (intros q ?; apply Hk; by intros ->).
    simpl. by rewrite Permutation_middle. }
  split; rewrite ?Hi, ?Q1, ?Q2, ?Q3, ?Q4; try apply I.
  - intros q Hqf. destruct (inv_alive c I q Hqf) as (z & Hz & Hzo).
    assert (is_Some (heap c' !! q)) as [z' Hz'].
    { apply lookup_lt_is_Some. rewrite Hlen. by eapply lookup_lt_Some. }
    exists z'. split; [done|]. destruct (Hb q z' Hz') as (w & Hw & -> & _). congruence.
  - intros q ch Hqf Hch. destruct (decide (q = p)) as [->|].
    + rewrite Hkp in Hch. apply elem_of_app in Hch as [Hch|Hch]; [by apply I|].
      apply list_elem_of_singleton in Hch as ->. done.
    + rewrite Hk in Hch by done. by apply I.
  - intros q z' Hqf Hz' Hne. destruct (Hb q z' Hz') as (z & Hz & -> & _ & Hc & _).
    destruct (decide (q = p)) as [->|]; [congruence|]. rewrite Hc in Hne by done. by eapply inv_kids.
  - intros q z' Hqf Hz'. destruct (Hb q z' Hz') as (z & Hz & -> & _ & _ & ->).
    rewrite (inv_act c I q z) by done. rewrite (occurs_perm q _ _ He), occurs_cons.
    destruct (decide (id = q)), (decide (q = id)); try congruence; lia.
  - intros q z' Hqf Hz'. destruct (Hb q z' Hz') as (z & Hz & _ & -> & _). by eapply inv_cur.
  - intros q z' Hqf Hz'. destruct (Hb q z' Hz') as (z & Hz & _ & -> & _). by eapply inv_cyc.
  - intros q z' Hqf Hz'. destruct (Hb q z' Hz') as (z & Hz & -> & _). by eapply inv_comp.
  - intros q z' Hqf Hz'. destruct (Hb q z' Hz') as (z & Hz & -> & _). by eapply inv_read.
  - intros q z' Hqf Hz'. destruct (Hb q z' Hz') as (z & Hz & -> & _). by eapply inv_write.
Qed.

Lemma elem_of_rev (x : nat) l : x ∈ rev l ↔ x ∈ l.
Proof. rewrite !list_elem_of_In. symmetry. apply in_rev. Qed.

Lemma find_node_ok c P l p :
  find_node c P l = Ok (Some p) → p ∈ l ∧ ∃ x, heap c !! p = Some x ∧ P x = true.
Proof.
  induction l as [|q l IH]; simpl; intros H; mon; [done|].
  apply node_ok in H0. destruct (P x) eqn:EP; mon.
  - simplify_eq. split; [by left|eauto].
  - apply IH in H as [? ?]. split; [by right|done].
Qed.

Lemma find_queues_ok c P qs p :
  find_queues c P qs = Ok (Some p) → ∃ q, q ∈ qs ∧ p ∈ q ∧ ∃ x, heap c !! p = Some x ∧ P x = true.
Proof.
  induction qs as [|q qs IH]; simpl; intros H; mon; [done|]. destruct x as [r|]; mon.
  - simplify_eq. apply find_node_ok in H0 as [? ?]. exists q. split; [by left|done].
  - apply IH in H as (q' & ? & ?). exists q'. split; [by right|done].
Qed.

(** The instruction [id], of static part [s], is being scheduled. *)
Record Scheduling (id : nat) (s : InstrStatic) (c : Core) : Prop := {
  sch_inv : Inv c;
  sch_last : ∃ r, reservation c = r ++ [id];
  sch_new : length (heap c) = S id;
  sch_st : ∃ x, heap c !! id = Some x ∧ st x = s;
}.

Lemma sch_in id s c : Scheduling id s c → id ∈ reservation c.
Proof. intros [_ [r ->] _ _]. apply elem_of_app. right. by left. Qed.

Lemma sch_older id s c p :
  Scheduling id s c →
  (p ∈ tail (rev (reservation c)) ∨ p ∈ computeQueue c ∨ p ∈ readQueue c ∨ p ∈ writeQueue c) →
  p ∈ inflight c ∧ (p < id)%nat.
Proof.
  intros S Hp. pose proof (sch_inv _ _ _ S) as I. destruct (sch_last _ _ _ S) as [r Hr].
  pose proof (inv_nodup c I) as Hnd. unfold inflight in Hnd.
  rewrite Hr, rev_app_distr in Hp. simpl in Hp. rewrite Hr, <-app_assoc in Hnd. apply NoDup_app in Hnd as (_ & Hd & Hnd).
  assert (p ∈ inflight c ∧ p ≠ id) as [Hpi Hne].
  { unfold inflight. rewrite Hr, !elem_of_app. simpl in Hnd. apply NoDup_cons in Hnd as [Hn _].
    rewrite !elem_of_app in Hn. destruct Hp as [Hp|Hp].
    - rewrite elem_of_rev in Hp. split; [tauto|]. intros ->. apply (Hd id Hp). by left.
    - split; [tauto|]. intros ->. tauto. }
  split; [done|]. pose proof (inflight_lt c p I Hpi). pose proof (sch_new _ _ _ S). lia.
Qed.

Lemma sch_set_node id s c x x' :
  Scheduling id s c → heap c !! id = Some x → same x x' → Scheduling id s (set_node c id x').
Proof.
  intros S Hx Hs. split.
  - by apply (inv_set_node c id x x' (sch_inv _ _ _ S)).
  - apply S.
  - simpl. rewrite length_insert. apply S.
  - simpl. rewrite list_lookup_insert_eq by (by eapply lookup_lt_Some). exists x'.
    split; [done|]. destruct (sch_st _ _ _ S) as (y & Hy & <-). destruct Hs as [-> _]. congruence.
Qed.

Lemma sch_link id s c p c' y :
  Scheduling id s c → link c id p = Ok c' → p ∈ inflight c → (p < id)%nat →
  heap c !! p = Some y → may_parent (st y) → Scheduling id s c'.
Proof.
  intros S Hl Hp Hlt Hy Hm. destruct (sch_st _ _ _ S) as (x & Hx & Hst).
  pose proof (inv_link c id p c' y (sch_inv _ _ _ S) Hl (sch_in _ _ _ S) Hp Hlt Hy Hm) as I'.
  destruct (link_ok c id p c' x y Hl Hx Hy ltac:(lia)) as (Hq & Hlen & _ & (x' & Hx' & E & _) & _).
  split; [done| | |].
  - destruct Hq as [-> _]. apply S.
  - rewrite Hlen. apply S.
  - exists x'. by rewrite E.
Qed.

Lemma findParent_ok id s c P p :
  Scheduling id s c → findParent c P = Ok (Some p) →
  p ∈ inflight c ∧ (p < id)%nat ∧ ∃ x, heap c !! p = Some x ∧ P x = true.
Proof.
  intros S (q & Hq & Hpq & Hx)%find_queues_ok. rewrite !elem_of_cons, elem_of_nil in Hq.
  destruct (sch_older id s c p S) as [? ?]; [|by split_and!].
  destruct Hq as [->|[->|[->|[]]]]; rewrite ?elem_of_rev in Hpq; auto.
Qed.

Lemma sch_findParent_reg id s c r p c' :
  Scheduling id s c → findParent_reg c (Some r) = Ok (Some p) → link c id p = Ok c' →
  Scheduling id s c'.
Proof.
  intros S (Hp & Hlt & y & Hy & E)%(findParent_ok id s c _ p S) Hl.
  apply bool_decide_eq_true in E. eapply sch_link; try done. left. by rewrite E.
Qed.

Lemma depLoop_ok id s deps : ∀ c j c',
  Scheduling id s c → depLoop c id deps j = Ok c' → Scheduling id s c'.
Proof.
  induction deps as [|[r|] deps IH]; intros c j c' S H; simpl in H; mon; [done| |by eapply IH].
  eapply IH; [|done]. destruct x as [p|]; mon.
  - by eapply sch_findParent_reg.
  - unfold fetchDependencyIdx in *. mon. nodes.
    match goal with F : match ?d with _ => _ end = Ok _ |- _ => destruct d; [|done] end. mon.
    eapply sch_set_node; done.
Qed.

Lemma runtimeDependencies_same i prev i' ds :
  runtimeDependencies i prev = Ok (i', ds) → same i i'.
Proof. unfold runtimeDependencies. intros H. destruct (cls i); mon; simplify_eq; done. Qed.

Lemma gepBase_ok id s c c' : Scheduling id s c → gepBase c id = Ok c' → Scheduling id s c'.
Proof.
  intros S H. unfold gepBase in H. mon. nodes.
  match goal with F : match cls ?x with _ => _ end = Ok _ |- _ => destruct (cls x); try done end. mon.
  match goal with F : match ?d with _ => _ end = Ok _ |- _ => destruct d; mon end.
  - by eapply sch_findParent_reg.
  - eapply sch_set_node; done.
Qed.

(** One iteration of [scheduleBB] keeps the graph invariant. *)
Lemma scheduleNode_inv prev c tmpl c' :
  Inv c → tmpl_ok tmpl → scheduleNode prev c tmpl = Ok c' → Inv c'.
Proof.
  intros I T H. unfold scheduleNode in H. set (id := length (heap c)) in *.
  assert (Scheduling id (st tmpl) (push_clone c tmpl)) as S0.
  { split; [by apply inv_push|by eexists| |].
    - simpl. rewrite length_app. simpl. unfold id. lia.
    - exists tmpl. split; [|done]. by apply list_lookup_middle. }
  apply bind_ok in H as (c1 & H1 & H). apply bind_ok in H as (c2 & H2 & H).
  apply bind_ok in H as (c3 & H3 & H).
  assert (Scheduling id (st tmpl) c1) as S1.
  { destruct (_ReturnRegister (st tmpl)) eqn:Er; [|by mon].
    apply bind_ok in H1 as ([p|] & F & H1); simpl in H1; [|by mon].
    apply (findParent_ok id (st tmpl) _ _ p S0) in F as (Hp & Hlt & y & Hy & E).
    eapply sch_link; try done. left. apply String.eqb_eq in E.
    destruct (inv_alive _ (sch_inv _ _ _ S0) p Hp) as (z & Hz & Hzo).
    assert (z = y) as -> by congruence. pose proof (so_line _ Hzo) as L.
    rewrite E, <-(so_line _ (to_static _ T)), Er in L. by apply bool_decide_eq_true in L. }
  assert (Scheduling id (st tmpl) c2) as S2.
  { destruct (String.eqb _ "load"); [|by mon].
    apply bind_ok in H2 as ([p|] & F & H2); simpl in H2; [|by mon].
    assert (p ∈ inflight c1 ∧ (p < id)%nat ∧ ∃ y, heap c1 !! p = Some y ∧ _OpCode (st y) = "store"%string)
      as (Hp & Hlt & y & Hy & E).
    { unfold detectRAW in F. apply bind_ok in F as ([q|] & F & G).
      - injection G as ->. apply find_node_ok in F as (Hq & y & Hy & E).
        destruct (sch_older _ _ _ p S1 ltac:(auto)). apply andb_true_iff in E as [E _].
        apply String.eqb_eq in E. eauto 6.
      - apply find_node_ok in G as (Hq & y & Hy & E). rewrite elem_of_rev in Hq.
        destruct (sch_older _ _ _ p S1 ltac:(auto)).
        pose proof (inv_write _ (sch_inv _ _ _ S1) p y Hq Hy). eauto 6. }
    eapply sch_link; try done. by right. }
  assert (Scheduling id (st tmpl) c3) as S3.
  { destruct (String.eqb _ "getelementptr"); [|by mon]. by eapply gepBase_ok. }
  apply bind_ok in H as (i & Hi & H). apply bind_ok in H as ([i' ds] & Hd & H). nodes.
  apply runtimeDependencies_same in Hd.
  eapply sch_inv, depLoop_ok; [|done]. by eapply sch_set_node.
Qed.

(** ** Launching *)

(** [p], ready, leaves the reservation table for one of the queues. *)
Lemma inv_launch c c' i p x kc kr kw :
  Inv c → reservation c !! i = Some p → heap c !! p = Some x → _ActiveParents x = 0 →
  kc ++ kr ++ kw = [p] →
  reservation c' = erase_at (reservation c) i → computeQueue c' = computeQueue c ++ kc →
  readQueue c' = readQueue c ++ kr → writeQueue c' = writeQueue c ++ kw →
  (p ∈ kc → _OpCode (st x) ≠ "store"%string) → (p ∈ kr → _OpCode (st x) = "load"%string) →
  (p ∈ kw → _OpCode (st x) = "store"%string) →
  length (heap c') = length (heap c) →
  (∀ q y, heap c !! q = Some y → ∃ y', heap c' !! q = Some y' ∧ st y' = st y ∧
     _Children y' = _Children y ∧ _ActiveParents y' = _ActiveParents y ∧
     (q ≠ p → _CurrCycle y' = _CurrCycle y) ∧ (0 ≤ _CurrCycle y → 0 ≤ _CurrCycle y')) →
  Inv c'.
Proof.
  intros I Hi Hx Ha Hk Er Ec Erd Ew Oc Ord Ow Hlen Hh.
  pose proof (list_elem_of_lookup_2 _ _ _ Hi) as Hp.
  destruct (not_child_active c p x I (in_reservation _ _ Hp) Hx Ha) as [Hnc _].
  pose proof (erase_at_perm _ _ _ Hi) as Hperm.
  assert (∀ q l l' k, q ∈ l → l = l' ++ k → (∀ z, z ∈ k → z = p) → q ∈ l' ∨ q = p ∧ p ∈ k) as Hq.
  { intros q l l' k Hq -> Hz. apply elem_of_app in Hq as [?|Hk']; [auto|]. right.
    pose proof (Hz q Hk') as ->. done. }
  assert (∀ z, z ∈ kc ++ kr ++ kw → z = p) as Hz by (rewrite Hk; intros z; by rewrite list_elem_of_singleton).
  setoid_rewrite elem_of_app in Hz. setoid_rewrite elem_of_app in Hz.
  apply (inv_move c c' p); rewrite ?Er; try done.
  - unfold inflight. rewrite Er, Ec, Erd, Ew. clear Er. revert Hperm.
    generalize (erase_at (reservation c) i) as e. intros e Hperm.
    transitivity (e ++ (computeQueue c ++ readQueue c ++ writeQueue c) ++ (kc ++ kr ++ kw)).
    + f_equiv. rewrite !(assoc_L (++)). solve_Permutation.
    + rewrite Hk, Hperm. simpl. rewrite (assoc_L (++)). by rewrite <-Permutation_cons_append.
  - apply erase_at_sorted, I.
  - intros q Hq'. by apply (erase_at_keep _ i).
  - apply erase_at_sub.
  - pose proof (inv_nodup c I) as Hnd. unfold inflight in Hnd. apply NoDup_app in Hnd as [Hnd _].
    rewrite Hperm in Hnd. by apply NoDup_cons in Hnd as [? _].
  - intros q y Hqc Hy. destruct (Hq q _ _ _ Hqc Ec ltac:(auto)) as [?|[-> ?]]; [auto|].
    assert (y = x) as -> by congruence. auto.
  - intros q y Hqc Hy. destruct (Hq q _ _ _ Hqc Erd ltac:(auto)) as [?|[-> ?]]; [auto|].
    assert (y = x) as -> by congruence. auto.
  - intros q y Hqc Hy. destruct (Hq q _ _ _ Hqc Ew ltac:(auto)) as [?|[-> ?]]; [auto|].
    assert (y = x) as -> by congruence. auto.
Qed.

(** ** The engine *)

Definition LInv (s : LLVMInterface) : Prop :=
  Inv (core s) ∧ Forall (fun b => Forall tmpl_ok (_Nodes b)) (bbList s).

Lemma scheduleNodes_inv prev nodes : ∀ c c',
  Inv c → Forall tmpl_ok nodes → scheduleNodes prev c nodes = Ok c' → Inv c'.
Proof.
  unfold scheduleNodes. induction nodes as [|x nodes IH]; intros c c' I F H; simpl in H; mon; [done|].
  inversion F; subst. eapply IH; [|done|done]. by eapply scheduleNode_inv.
Qed.

Lemma scheduleBB_inv s b s' : LInv s → scheduleBB s b = Ok s' → LInv s'.
Proof.
  intros [I F] H. unfold scheduleBB in H. apply bind_ok in H as (bb & Hb & H).
  destruct (_Nodes bb) as [|n ns] eqn:E; mon; [done|]. split; [|done]. simpl.
  eapply scheduleNodes_inv; [done| |done]. rewrite <-E.
  unfold bb_at in Hb. destruct b as [k|]; mon. rewrite Forall_forall in F. eapply F.
  by eapply list_elem_of_lookup_2.
Qed.

Section Engine.
Context (cfg : Config) (unlimitedFU : bool) (old : MemoryRequest).

Lemma computeNode_ok s p s' :
  computeNode old s p = Ok s' →
  heap_same (heap (core s)) (heap (core s')) ∧ same_queues (core s) (core s') ∧
  length (heap (core s')) = length (heap (core s)) ∧ bbList s' = bbList s.
Proof.
  unfold computeNode. intros H. apply bind_ok in H as (i & Hi & H). nodes.
  apply bind_ok in H as ([[rl i'] call] & Hc & H). apply compute_same in Hc.
  assert (heap_same (heap (core s)) (<[p := i']> (heap (core s)))) by (by eapply heap_same_insert).
  destruct call; mon; simpl; rewrite length_insert; done.
Qed.

Lemma countFU_core s fu : core (countFU unlimitedFU s fu) = core s ∧
  bbList (countFU unlimitedFU s fu) = bbList s.
Proof. unfold countFU. by destruct unlimitedFU. Qed.
Lemma limitFU_core s fu : core (limitFU cfg s fu).1 = core s ∧ bbList (limitFU cfg s fu).1 = bbList s.
Proof. unfold limitFU. by destruct (limitedFU _ _ _). Qed.

Lemma heap_same_weak p h h' :
  heap_same h h' →
  ∀ q y, h !! q = Some y → ∃ y', h' !! q = Some y' ∧ st y' = st y ∧
     _Children y' = _Children y ∧ _ActiveParents y' = _ActiveParents y ∧
     (q ≠ p → _CurrCycle y' = _CurrCycle y) ∧ (0 ≤ _CurrCycle y → 0 ≤ _CurrCycle y').
Proof.
  intros Hs q y Hy. specialize (Hs q). rewrite Hy in Hs.
  destruct Hs as (y' & ? & ? & ? & ? & E). exists y'. by rewrite E.
Qed.

Lemma launchMem_inv isload s i p x fu s' :
  LInv s → reservation (core s) !! i = Some p → heap (core s) !! p = Some x →
  _ActiveParents x = 0 → is_op x (if (isload : bool) then "load" else "store")%string = true →
  launchMem unlimitedFU old isload s i p fu = Ok s' → LInv s'.
Proof.
  intros [I F] Hi Hx Ha Hop H. unfold launchMem in H.
  apply bind_ok in H as (s1 & Hc & H). apply bind_ok in H as (x1 & _ & H). mon.
  apply computeNode_ok in Hc as (Hs & (Q1 & Q2 & Q3 & Q4) & Hl & Hb).
  apply String.eqb_eq in Hop.
  assert (core (erase_reservation (countFU unlimitedFU (set_stats s1
    (count_mem (stats s1) isload (_Global x1))) fu) i)
    = set_reservation (core s1) (erase_at (reservation (core s1)) i)) as E.
  { unfold erase_reservation. simpl. by rewrite (proj1 (countFU_core _ _)). }
  split; [|unfold erase_reservation; simpl; rewrite (proj2 (countFU_core _ _)); simpl;
           rewrite Hb; by destruct isload].
  rewrite E. destruct isload; simpl in *.
  - apply (inv_launch (core s) _ i p x [] [p] []); simpl; rewrite ?app_nil_r; try done.
    + by rewrite Q1.
    + by intros ?%elem_of_nil.
    + by intros ?%elem_of_nil.
    + by apply heap_same_weak.
  - apply (inv_launch (core s) _ i p x [] [] [p]); simpl; rewrite ?app_nil_r; try done.
    + by rewrite Q1.
    + by intros ?%elem_of_nil.
    + by intros ?%elem_of_nil.
    + by apply heap_same_weak.
Qed.

Lemma removeLinks_ok c p c' :
  removeLinks c p = Ok c' →
  same_queues c c' ∧ length (heap c') = length (heap c) ∧ ∀ q, q ≠ p → heap c' !! q = heap c !! q.
Proof.
  unfold removeLinks. intros H. mon. split; [done|]. simpl. rewrite length_insert.
  split; [done|]. intros. by rewrite list_lookup_insert_ne.
Qed.

(** A terminator has no children, and neither has a computation without a
    return register. *)
Lemma no_kids c p x :
  Inv c → p ∈ inflight c → heap c !! p = Some x →
  (_ReturnRegister (st x) = None ∧ _OpCode (st x) ≠ "store"%string) → kids c p = [].
Proof.
  intros I Hp Hx [Hr Ho]. unfold kids. rewrite Hx. destruct (_Children x) eqn:E; [done|].
  destruct (inv_kids c I p x Hp Hx) as [[? ?]|?]; congruence.
Qed.

Lemma term_no_kids c p x :
  Inv c → p ∈ inflight c → heap c !! p = Some x → _Terminator (st x) = true → kids c p = [].
Proof.
  intros I Hp Hx Ht. eapply no_kids; try done. destruct (inv_alive c I p Hp) as (y & Hy & So).
  assert (y = x) as -> by congruence. by apply (so_term _ So).
Qed.

(** [p] commits, is unlinked and leaves the reservation table or a queue. *)
Lemma inv_retire c c1 c2 p x b kr kc krd kw :
  Inv c → heap c !! p = Some x → p ∉ edges c → commit c p = Ok (c1, b) →
  (_ReturnRegister (st x) = None ∨ _MaxCycle (st x) ≤ _CurrCycle x) → removeLinks c1 p = Ok c2 →
  inflight c ≡ₚ p :: kr ++ kc ++ krd ++ kw →
  StronglySorted lt kr → (∀ q, q ∈ reservation c → q = p ∨ q ∈ kr) →
  kr ⊆ reservation c → kc ⊆ computeQueue c → krd ⊆ readQueue c → kw ⊆ writeQueue c →
  Inv (mkCore (heap c2) (regList c2) kr kc krd kw).
Proof.
  intros I Hx Hnc Hcm Hdone Hrm Hi Hs Hkeep H1 H2 H3 H4.
  destruct (commit_ok c p c1 b x Hcm Hx) as [_ Hc]. rewrite decide_True in Hc by done.
  destruct Hc as [[_ Hsig] _]. apply removeLinks_ok in Hrm as (_ & _ & Hrm).
  apply (inv_remove c _ p); try done. simpl. intros q y Hne Hy. rewrite Hrm by done.
  destruct (Hsig q y Hy) as (y' & ? & ? & ? & ? & ?). by exists y'.
Qed.

Lemma reservation_erase_perm c i p :
  reservation c !! i = Some p →
  inflight c ≡ₚ p :: erase_at (reservation c) i ++ computeQueue c ++ readQueue c ++ writeQueue c.
Proof. intros Hi. unfold inflight. by rewrite (erase_at_perm _ _ _ Hi) at 1. Qed.

Lemma launchZero_inv s i p x fu s' :
  LInv s → reservation (core s) !! i = Some p → heap (core s) !! p = Some x →
  _ActiveParents x = 0 → _MaxCycle (st x) = 0 →
  launchZero unlimitedFU old s i p fu = Ok s' → LInv s'.
Proof.
  intros [I F] Hi Hx Ha Hm H. unfold launchZero, commitNode, removeNode in H.
  apply bind_ok in H as (s1 & Hc & H). apply computeNode_ok in Hc as (Hs & Q & Hl & Hb).
  pose proof Q as (Q1 & Q2 & Q3 & Q4).
  assert (Inv (core s1)) as I1 by (by eapply inv_same).
  apply bind_ok in H as ([s2 b] & Hcm & H). apply bind_ok in Hcm as ([c2 b'] & Hcm & [= <- <-]).
  apply bind_ok in H as (s3 & Hrm & H). apply bind_ok in Hrm as (c3 & Hrm & [= <-]). injection H as <-.
  assert (removeLinks c2 p = Ok c3) as Hrm'.
  { rewrite <-Hrm. f_equal. simpl. by rewrite (proj1 (countFU_core _ _)). }
  destruct (heap_same_weak p _ _ Hs p x Hx) as (x1 & Hx1 & E1 & _ & E2 & _).
  assert (reservation (core s1) !! i = Some p) as Hi1 by (by rewrite Q1).
  pose proof (list_elem_of_lookup_2 _ _ _ Hi1) as Hpr.
  destruct (not_child_active _ p x1 I1 (in_reservation _ _ Hpr) Hx1 ltac:(congruence)) as [Hnc _].
  pose proof (inv_cur _ I1 p x1 Hpr Hx1) as Hcur.
  destruct (commit_ok _ _ _ _ _ Hcm Hx1) as [(R1 & R2 & R3 & R4) _].
  destruct (removeLinks_ok _ _ _ Hrm') as [(T1 & T2 & T3 & T4) _].
  split; [|simpl; by rewrite (proj2 (countFU_core _ _)); simpl; rewrite Hb].
  unfold erase_reservation, set_reservation. simpl. rewrite T1, T2, T3, T4, R1, R2, R3, R4.
  eapply (inv_retire (core s1) c2 c3 p x1); try done.
  - right. rewrite E1, Hm. lia.
  - by apply reservation_erase_perm.
  - apply erase_at_sorted, I1.
  - intros q. by apply erase_at_keep.
  - apply erase_at_sub.
Qed.

Lemma launchCompute_inv s i p x fu s' :
  LInv s → reservation (core s) !! i = Some p → heap (core s) !! p = Some x →
  _ActiveParents x = 0 → _MaxCycle (st x) ≠ 0 → _OpCode (st x) ≠ "store"%string →
  launchCompute unlimitedFU old s i p fu = Ok s' → LInv s'.
Proof.
  intros [I F] Hi Hx Ha Hm Hop H. unfold launchCompute, commitNode in H.
  apply bind_ok in H as (s1 & Hc & H). apply computeNode_ok in Hc as (Hs & Q & Hl & Hb).
  destruct Q as (Q1 & Q2 & Q3 & Q4). simpl in *.
  apply bind_ok in H as ([s2 b] & Hcm & H). apply bind_ok in Hcm as ([c2 b'] & Hcm & [= <- <-]).
  injection H as <-. pose proof (list_elem_of_lookup_2 _ _ _ Hi) as Hpr.
  destruct (heap_same_weak p _ _ Hs p x Hx) as (x1 & Hx1 & E1 & E2 & E3 & _).
  assert (_CurrCycle x1 = 0) as Hcur.
  { specialize (Hs p). rewrite Hx in Hs. destruct Hs as (z & Hz & _ & _ & _ & E).
    assert (z = x1) as -> by congruence. rewrite E. by eapply inv_cur. }
  destruct (inv_alive _ I p (in_reservation _ _ Hpr)) as (y & Hy & So).
  assert (y = x) as -> by congruence. pose proof (so_cycle _ So) as Hcyc.
  assert (length (heap c2) = length (heap (core s)) ∧
    ∀ q y, heap (core s) !! q = Some y → ∃ y', heap c2 !! q = Some y' ∧ st y' = st y ∧
     _Children y' = _Children y ∧ _ActiveParents y' = _ActiveParents y ∧
     (q ≠ p → _CurrCycle y' = _CurrCycle y) ∧ (0 ≤ _CurrCycle y → 0 ≤ _CurrCycle y')) as [Hlen Hheap].
  { destruct (commit_ok _ _ _ _ _ Hcm Hx1) as [_ Hc].
    destruct (decide _) as [[Hn|Hle]|]; [|rewrite E1, Hcur in Hle; lia|].
    - assert (kids (core s1) p = []) as Hk.
      { unfold kids. rewrite Hx1, E2. rewrite E1 in Hn.
        pose proof (no_kids _ p x I (in_reservation _ _ Hpr) Hx (conj Hn Hop)) as K.
        unfold kids in K. by rewrite Hx in K. }
      rewrite Hk in Hc. destruct Hc as [[HL Hsig] _]. split; [congruence|]. intros q z Hz.
      destruct (heap_same_weak p _ _ Hs q z Hz) as (z1 & Hz1 & ? & ? & ? & ? & ?).
      destruct (Hsig q z1 Hz1) as (z2 & ? & ? & ? & Ec & Ez). exists z2.
      unfold occurs in Ez. simpl in Ez. rewrite Ec. split_and!; try congruence; try lia; done.
    - destruct Hc as [_ Hc]. rewrite Hc, length_insert. split; [done|]. intros q z Hz.
      destruct (heap_same_weak p _ _ Hs q z Hz) as (z1 & Hz1 & ? & ? & ? & ?).
      destruct (decide (q = p)) as [->|].
      + rewrite list_lookup_insert_eq by (by eapply lookup_lt_Some). eexists. split; [done|].
        assert (z1 = x1) as -> by congruence. split_and!; try done. intros _. by apply wrapU_range.
      + rewrite list_lookup_insert_ne by done. by exists z1. }
  destruct (commit_ok _ _ _ _ _ Hcm Hx1) as [(R1 & R2 & R3 & R4) _].
  split; [|simpl; by rewrite (proj2 (countFU_core _ _)); simpl; rewrite Hb].
  unfold erase_reservation. simpl. rewrite (proj1 (countFU_core _ _)). simpl.
  apply (inv_launch (core s) _ i p x [p] [] []); simpl; rewrite ?app_nil_r; try done; try congruence.
  - by intros ?%elem_of_nil.
  - by intros ?%elem_of_nil.
Qed.

(** A terminator leaves the reservation table. *)
Lemma inv_drop c i p x :
  Inv c → reservation c !! i = Some p → heap c !! p = Some x → _Terminator (st x) = true →
  p ∉ edges c → Inv (set_reservation c (erase_at (reservation c) i)).
Proof.
  intros I Hi Hx Ht Hnc. pose proof (list_elem_of_lookup_2 _ _ _ Hi) as Hpr.
  pose proof (term_no_kids _ p x I (in_reservation _ _ Hpr) Hx Ht) as Hk.
  apply (inv_remove c _ p I); [by apply (reservation_erase_perm c)|done|..]; simpl; try done.
  - apply erase_at_sorted, I.
  - intros q. by apply erase_at_keep.
  - apply erase_at_sub.
  - intros q y _ Hy. exists y. rewrite Hk. unfold occurs. simpl. split_and!; try done. lia.
Qed.

Lemma launchBranch_inv s i p x fu s' :
  LInv s → reservation (core s) !! i = Some p → heap (core s) !! p = Some x →
  _ActiveParents x = 0 → _Terminator (st x) = true →
  launchBranch unlimitedFU old s i p fu = Ok s' → LInv s'.
Proof.
  intros [I F] Hi Hx Ha Ht H. unfold launchBranch in H.
  apply bind_ok in H as (s1 & Hc & H). apply bind_ok in H as (x1 & _ & H).
  apply computeNode_ok in Hc as (Hs & Q & Hl & Hb). pose proof Q as (Q1 & Q2 & Q3 & Q4).
  cbn [set_BBs core bbList] in *. destruct (countFU_core s fu) as [C1 C2].
  rewrite C1 in *. rewrite C2 in *.
  assert (Inv (core s1)) as I1 by (by eapply inv_same).
  eapply scheduleBB_inv; [|done]. split; [|simpl; by rewrite Hb]. simpl.
  destruct (heap_same_weak p _ _ Hs p x Hx) as (y & Hy & E1 & _ & E2 & _).
  rewrite <-Q1 in Hi. eapply inv_drop; try done; [congruence|].
  eapply not_child_active; try done; [|congruence].
  apply in_reservation. by eapply list_elem_of_lookup_2.
Qed.

Lemma reservationStep_inv s i p s' i' :
  LInv s → reservation (core s) !! i = Some p →
  reservationStep cfg unlimitedFU old s i p = Ok (s', i') → LInv s'.
Proof.
  intros L Hi H. unfold reservationStep in H. apply bind_ok in H as (x & Hx & H). nodes.
  destruct (Z.eqb_spec (_ActiveParents x) 0) as [Ha|Ha].
  - destruct (_Terminator (st x)) eqn:Ht; cbn [negb] in H.
    + destruct (is_op x "ret"); cbn [negb] in H; [by mon; simplify_eq|].
      destruct (_ <? _); mon; simplify_eq; [|done]. by eapply launchBranch_inv.
    + destruct (is_op x "load") eqn:E1; [mon; simplify_eq; by eapply (launchMem_inv true)|].
      destruct (is_op x "store") eqn:E2; [mon; simplify_eq; by eapply (launchMem_inv false)|].
      assert (_OpCode (st x) ≠ "store"%string) as Hst by (by apply String.eqb_neq).
      destruct (Z.eqb_spec (_MaxCycle (st x)) 0); [mon; simplify_eq; by eapply launchZero_inv|].
      destruct unlimitedFU eqn:Eu.
      * apply bind_ok in H as (s2 & Hl & [= <- <-]). rewrite <-Eu in Hl. by eapply launchCompute_inv.
      * destruct (limitFU_core s (_FunctionalUnit (st x))) as [C1 C2].
        destruct (limitFU cfg s (_FunctionalUnit (st x))) as [s1 ok]. simpl in C1, C2.
        assert (LInv s1) as L1 by (unfold LInv; by rewrite C1, C2).
        destruct ok; [|by injection H as <- <-].
        destruct (is_op x "fdiv"); apply bind_ok in H as (s2 & Hl & [= <- <-]);
          rewrite <-Eu in Hl; [eapply (launchCompute_inv (count_fdiv s1) i p x)
          |eapply (launchCompute_inv s1 i p x)]; try done; simpl; by rewrite C1.
  - destruct (is_op x "ret" && Nat.eqb i 0) eqn:E; [|by mon; simplify_eq].
    apply andb_true_iff in E as [E1 E2]. apply Nat.eqb_eq in E2 as ->.
    destruct (computeQueue (core s)) eqn:Ec; [|by mon; simplify_eq].
    destruct (readQueue (core s)) eqn:Er; [|by mon; simplify_eq].
    destruct (writeQueue (core s)) eqn:Ew; [|by mon; simplify_eq].
    mon. simplify_eq. destruct L as [I F]. split; [|done]. simpl.
    assert (p ∈ reservation (core s)) as Hp by (by eapply list_elem_of_lookup_2).
    destruct (inv_alive _ I p (in_reservation _ _ Hp)) as (y & Hy & So).
    assert (y = x) as -> by congruence. apply String.eqb_eq in E1.
    eapply inv_drop; try done; [by apply (so_ret _ So)|].
    intros (q & Hq & Hk)%edges_elem. destruct (inv_edge _ I q p Hq Hk) as [Hlt _].
    unfold inflight in Hq. rewrite Ec, Er, Ew, !app_nil_r in Hq.
    pose proof (inv_sorted _ I) as Hs. destruct (reservation (core s)) as [|z r]; [done|].
    injection Hi as ->. inversion Hs as [|?? _ Hf]; subst. rewrite Forall_forall in Hf.
    apply elem_of_cons in Hq as [->|Hq]; [lia|]. specialize (Hf q Hq). lia.
Qed.

Lemma reservationLoop_inv fuel : ∀ s i s',
  LInv s → reservationLoop cfg unlimitedFU old fuel s i = Ok s' → LInv s'.
Proof.
  induction fuel as [|fuel IH]; intros s i s' L H; simpl in H;
    destruct (reservation (core s) !! i) as [p|] eqn:E; mon; try done.
  destruct x as [s1 i1]. eapply IH; [|done]. by eapply reservationStep_inv.
Qed.

Lemma in_compute c p : p ∈ computeQueue c → p ∈ inflight c.
Proof. intros. unfold inflight. rewrite !elem_of_app. auto. Qed.
Lemma in_read c p : p ∈ readQueue c → p ∈ inflight c.
Proof. intros. unfold inflight. rewrite !elem_of_app. auto. Qed.
Lemma in_write c p : p ∈ writeQueue c → p ∈ inflight c.
Proof. intros. unfold inflight. rewrite !elem_of_app. auto. Qed.

(** The in-flight queues and the reservation table are disjoint. *)
Lemma not_reserved c p :
  Inv c → (p ∈ computeQueue c ∨ p ∈ readQueue c ∨ p ∈ writeQueue c) → p ∉ reservation c.
Proof.
  intros I Hp Hr. pose proof (inv_nodup c I) as Hnd. unfold inflight in Hnd.
  apply NoDup_app in Hnd as (_ & Hd & _). apply (Hd p Hr). rewrite !elem_of_app. tauto.
Qed.

(** A commit that does not retire its instruction. *)
Lemma commit_wait_inv c p x c' b :
  Inv c → p ∈ computeQueue c → heap c !! p = Some x → commit c p = Ok (c', b) → b = false → Inv c'.
Proof.
  intros I Hp Hx Hc ->. destruct (commit_ok _ _ _ _ _ Hc Hx) as [(Q1 & Q2 & Q3 & Q4) Hcase].
  pose proof (not_reserved c p I ltac:(auto)) as Hnr.
  pose proof (not_child c p I Hnr) as Hnc.
  apply (inv_move c c' p I Hnc); rewrite ?Q1, ?Q2, ?Q3, ?Q4; try done; try (by auto).
  - unfold inflight. by rewrite Q1, Q2, Q3, Q4.
  - apply I.
  - destruct (decide _); [destruct Hcase as [[L _] _]; done|].
    destruct Hcase as [_ ->]. apply length_insert.
  - intros q y Hy. destruct (decide _) as [Hd|Hd].
    + destruct Hcase as [[_ Hs] Hb]. symmetry in Hb. apply bool_decide_eq_false in Hb.
      assert (kids c p = []) as Hk.
      { eapply no_kids; [done|by apply in_compute|done|]. split; [|by eapply inv_comp].
        by apply eq_None_not_Some. }
      rewrite Hk in Hs. destruct (Hs q y Hy) as (y' & ? & ? & ? & ? & E). exists y'.
      unfold occurs in E. simpl in E. split_and!; try done; lia.
    + destruct Hcase as [_ ->]. destruct (decide (q = p)) as [->|].
      * rewrite list_lookup_insert_eq by (by eapply lookup_lt_Some).
        assert (y = x) as -> by congruence. eexists. split_and!; try done. intros _.
        by apply wrapU_range.
      * rewrite list_lookup_insert_ne by done. by exists y.
Qed.

(** A commit that retires an instruction of the compute queue. *)
Lemma commit_retire_inv c i p x c1 c2 :
  Inv c → computeQueue c !! i = Some p → heap c !! p = Some x → commit c p = Ok (c1, true) →
  removeLinks c1 p = Ok c2 → Inv (set_computeQueue c2 (erase_at (computeQueue c2) i)).
Proof.
  intros I Hi Hx Hc Hr. destruct (commit_ok _ _ _ _ _ Hc Hx) as [(Q1 & Q2 & Q3 & Q4) Hcase].
  destruct (removeLinks_ok _ _ _ Hr) as ((R1 & R2 & R3 & R4) & _).
  destruct (decide _) as [Hd|Hd]; [|by destruct Hcase].
  pose proof (list_elem_of_lookup_2 _ _ _ Hi) as Hp.
  pose proof (not_reserved c p I ltac:(auto)) as Hnr. unfold set_computeQueue.
  rewrite R1, R2, R3, R4, Q1, Q2, Q3, Q4.
  eapply (inv_retire c c1 c2 p x true); try done.
  - by apply not_child.
  - unfold inflight. rewrite (erase_at_perm _ _ _ Hi) at 1. simpl. symmetry. apply Permutation_middle.
  - apply I.
  - intros; by right.
  - apply erase_at_sub.
Qed.

Lemma computeLoop_inv n : ∀ s i s',
  LInv s → computeLoop cfg unlimitedFU n s i = Ok s' → LInv s'.
Proof.
  induction n as [|n IH]; intros s i s' L H; simpl in H; [by mon|].
  destruct (computeQueue (core s) !! i) as [p|] eqn:Hi; [|by mon].
  apply bind_ok in H as (rp & _ & H). apply bind_ok in H as (r & _ & H).
  set (q := if unlimitedFU then _ else _) in H.
  assert (core q.1 = core s ∧ bbList q.1 = bbList s) as [Cq Bq].
  { unfold q. destruct unlimitedFU eqn:E; [by rewrite <-E; apply countFU_core|apply limitFU_core]. }
  destruct q as [s1 ok]. simpl in Cq, Bq.
  assert (LInv s1) as L1 by (unfold LInv; by rewrite Cq, Bq).
  destruct ok; [|by eapply IH].
  apply bind_ok in H as ([s2 d] & Hc & H). unfold commitNode in Hc.
  apply bind_ok in Hc as ([c2 d'] & Hc & [= <- <-]).
  rewrite <-Cq in Hi. destruct L1 as [I1 F1].
  pose proof (list_elem_of_lookup_2 _ _ _ Hi) as Hp.
  destruct (inv_alive _ I1 p (in_compute _ _ Hp)) as (x & Hx & _).
  destruct d'.
  - apply bind_ok in H as (s3 & Hr & H). unfold removeNode in Hr.
    apply bind_ok in Hr as (c3 & Hr & [= <-]). eapply IH; [|done]. split; [|done]. simpl.
    by eapply commit_retire_inv.
  - eapply IH; [|done]. split; [|done]. simpl. by eapply commit_wait_inv.
Qed.

Lemma tick_inv fuel s s' b : LInv s → tick cfg unlimitedFU old fuel s = Ok (s', b) → LInv s'.
Proof.
  intros L H. unfold tick in H. apply bind_ok in H as (s1 & H1 & H).
  apply bind_ok in H as (s2 & H2 & H). apply bind_ok in H as (s3 & H3 & [= <- <-]).
  assert (LInv (tickHead cfg s)) as L0 by (destruct L; split; [by apply inv_set_regs|done]).
  apply computeLoop_inv in H1; [|done].
  assert (LInv s2) as L2.
  { revert H2. destruct (reservation (core s1)); [by apply scheduleBB_inv|by intros [= <-]]. }
  revert H3. destruct (_ && _); [by intros [= <-]|]. by apply reservationLoop_inv.
Qed.

(** ** Memory completions *)

Lemma setResultBuf_same rl x buf x' : setResultBuf rl x buf = Ok x' → same x x'.
Proof.
  unfold setResultBuf. intros H. destruct (_ReturnRegister (st x)); [|done]. mon.
  by eapply setResult_same.
Qed.

(** A load of the read queue commits: its latency is zero. *)
Lemma read_retire_inv c i p x buf c1 b c2 :
  Inv c → readQueue c !! i = Some p → heap c !! p = Some x → setResultBuf (regList c) x buf = Ok b →
  ∀ d, commit (set_node c p b) p = Ok (c1, d) → removeLinks c1 p = Ok c2 →
  Inv (set_readQueue c2 (erase_at (readQueue c2) i)).
Proof.
  intros I Hi Hx Hb d Hc Hr. apply setResultBuf_same in Hb.
  pose proof (list_elem_of_lookup_2 _ _ _ Hi) as Hp.
  pose proof (inv_set_node c p x b I Hx Hb) as I1.
  assert (heap (set_node c p b) !! p = Some b) as Hx1
    by (simpl; apply list_lookup_insert_eq; by eapply lookup_lt_Some).
  destruct (commit_ok _ _ _ _ _ Hc Hx1) as [(Q1 & Q2 & Q3 & Q4) _].
  destruct (removeLinks_ok _ _ _ Hr) as ((R1 & R2 & R3 & R4) & _).
  destruct (inv_alive _ I1 p (in_read (set_node c p b) p Hp)) as (y & Hy & So).
  assert (y = b) as -> by congruence.
  pose proof (inv_read _ I1 p b Hp Hx1) as Hop. pose proof (so_load _ So Hop) as Hm.
  pose proof (inv_cyc _ I1 p b (in_read (set_node c p b) p Hp) Hx1) as Hcy.
  unfold set_readQueue. rewrite R1, R2, R3, R4, Q1, Q2, Q3, Q4.
  eapply (inv_retire (set_node c p b) c1 c2 p b d); try done.
  - apply not_child; [done|]. apply (not_reserved (set_node c p b)); [done|]. simpl. auto.
  - right. lia.
  - unfold inflight. simpl. rewrite (erase_at_perm _ _ _ Hi) at 1.
    simpl. solve_Permutation.
  - apply I1.
  - intros; by right.
  - apply erase_at_sub.
Qed.

Lemma write_retire_inv c i p x c1 c2 :
  Inv c → writeQueue c !! i = Some p → heap c !! p = Some x →
  ∀ d, commit c p = Ok (c1, d) → removeLinks c1 p = Ok c2 →
  Inv (set_writeQueue c2 (erase_at (writeQueue c2) i)).
Proof.
  intros I Hi Hx d Hc Hr. pose proof (list_elem_of_lookup_2 _ _ _ Hi) as Hp.
  destruct (commit_ok _ _ _ _ _ Hc Hx) as [(Q1 & Q2 & Q3 & Q4) _].
  destruct (removeLinks_ok _ _ _ Hr) as ((R1 & R2 & R3 & R4) & _).
  destruct (inv_alive _ I p (in_write c p Hp)) as (y & Hy & So).
  assert (y = x) as -> by congruence.
  pose proof (so_store _ So (inv_write _ I p x Hp Hx)) as Hm.
  unfold set_writeQueue. rewrite R1, R2, R3, R4, Q1, Q2, Q3, Q4.
  eapply (inv_retire c c1 c2 p x d); try done.
  - apply not_child; [done|]. apply not_reserved; auto.
  - by left.
  - unfold inflight. rewrite (erase_at_perm _ _ _ Hi) at 1.
    solve_Permutation.
  - apply I.
  - intros; by right.
  - apply erase_at_sub.
Qed.

Lemma readCommitLoop_inv req buf n : ∀ c i c',
  Inv c → readCommitLoop n c i req buf = Ok c' → Inv c'.
Proof.
  induction n as [|n IH]; intros c i c' I H; simpl in H; [by mon|].
  destruct (readQueue c !! i) as [p|] eqn:Hi; [|by mon].
  apply bind_ok in H as (x & Hx & H). nodes. destruct (bool_decide _); [|by eapply IH].
  apply bind_ok in H as (x' & Hb & H). apply bind_ok in H as ([c1 d] & Hc & H).
  apply bind_ok in H as (c2 & Hr & H). eapply IH; [|done]. by eapply read_retire_inv.
Qed.

Lemma writeCommitLoop_inv req n : ∀ c i c',
  Inv c → writeCommitLoop n c i req = Ok c' → Inv c'.
Proof.
  induction n as [|n IH]; intros c i c' I H; simpl in H; [by mon|].
  destruct (writeQueue c !! i) as [p|] eqn:Hi; [|by mon].
  apply bind_ok in H as (x & Hx & H). nodes. destruct (bool_decide _); [|by eapply IH].
  apply bind_ok in H as ([c1 d] & Hc & H). apply bind_ok in H as (c2 & Hr & H).
  eapply IH; [|done]. by eapply write_retire_inv.
Qed.

(** ** Runs of the engine *)

(** What the event queue and the communication interface do to the engine. *)
Inductive step : LLVMInterface → LLVMInterface → Prop :=
  | step_tick fuel s s' b : tick cfg unlimitedFU old fuel s = Ok (s', b) → step s s'
  | step_read s req buf s' : readCommit s req buf = Ok s' → step s s'
  | step_write s req s' : writeCommit s req = Ok s' → step s s'.

(** The state before the first [tick], as [initialize] leaves it. *)
Definition initial (s : LLVMInterface) : Prop :=
  heap (core s) = [] ∧ inflight (core s) = [] ∧
  Forall (fun b => Forall tmpl_ok (_Nodes b)) (bbList s).

Lemma initial_inv s : initial s → LInv s.
Proof.
  intros (Hh & Hi & F). split; [|done]. pose proof Hi as Hi'. unfold inflight in Hi'.
  apply app_nil in Hi' as [Hr Hi']. apply app_nil in Hi' as [Hc Hi']. apply app_nil in Hi' as [Hrd Hw].
  split; rewrite ?Hi, ?Hr, ?Hc, ?Hrd, ?Hw; [constructor| |constructor|..]; intros;
    match goal with H : _ ∈ [] |- _ => by apply elem_of_nil in H end.
Qed.

Lemma step_inv s s' : LInv s → step s s' → LInv s'.
Proof.
  intros L H. destruct H as [fuel s s' b H|s req buf s' H|s req s' H].
  - by eapply tick_inv.
  - unfold readCommit in H. apply bind_ok in H as (c & H & [= <-]). destruct L. split; [|done].
    by eapply readCommitLoop_inv.
  - unfold writeCommit in H. apply bind_ok in H as (c & H & [= <-]). destruct L. split; [|done].
    by eapply writeCommitLoop_inv.
Qed.

Lemma reach_inv s s' : LInv s → rtc step s s' → LInv s'.
Proof. intros L H. induction H; [done|]. by eauto using step_inv. Qed.
End Engine.
End Graph.
