(* ===== verification/SchedulerSpec.v ===== *)
(** What the graph invariant of file SchedulerInv means for runs of the
    engine, and a small program run through [initialize] and [tick]. *)
From stdpp Require Import strings.
From S2P Require Import Prelude CppString Registers MemRequest Macros Instructions Compute FunctionalUnits Scheduler SchedulerInv.
From Stdlib Require Import Floats.SpecFloat.
From Stdlib Require String.

#[global] Open Scope Z_scope.

(** ** A program

    [%1 = add i32 %a, 5], [%2 = mul i32 %1, %1], [ret]; registers 0 to 3 are
    [alwaysTrue], [%a], [%1] and [%2]. *)
Definition ex_args (line op ty : string) (ret : option nat) (cyc : Z) (deps : list (option nat)) :=
  mkArgs line op ty "Binary" ret cyc deps.
Definition ex_add : Instruction :=
  Add_new 0 (ex_args "%1 = add i32 %a, 5" "add" "i32" (Some 2%nat) 1 [Some 1%nat]) [1%nat] 0 5 false 1.
Definition ex_mul : Instruction :=
  Mul_new 0 (ex_args "%2 = mul i32 %1, %1" "mul" "i32" (Some 3%nat) 2 [Some 2%nat; Some 2%nat])
    [2%nat; 2%nat] 0 0 false 2.
Definition ex_ret : Instruction := Ret_new 0 (ex_args "ret void" "ret" "void" None 1 []).
Definition ex_bb : BasicBlock := mkBB "0" [ex_add; ex_mul; ex_ret].
Definition ex_reg (name : string) (v : Z) : Register := mkRegister name "i32" v 4 false false false 0 0.
Definition ex_regs : RegisterList :=
  mkRegisterList [ex_reg "alwaysTrue" 1; ex_reg "a" 7; ex_reg "1" 0; ex_reg "2" 0] 0 0 0.
Definition ex_old : MemoryRequest :=
  mkMemoryRequest 0 0 false false 0 0 0 0 0 0 0 0 [] [] None None.
Definition ex_units : FunctionalUnits := fu_build (fun _ => 0).
Definition ex_docc : FunctionalUnitOccupancy := fu_build (fun _ => S754_zero false).
Definition ex_stats : Stats :=
  mkStats (mkFuState ex_units ex_units ex_units ex_docc ex_units ex_docc []) Hardware_new
    OccCounters_zero false false false 0 0 0 0 0 0.
Definition ex_cfg : Config := mkConfig false 100 (mkLimits (fu_build (fun _ => -1)) (-1) (-1)) false.
Definition ex_init : LLVMInterface :=
  mkLI (mkCore [] ex_regs [] [] [] []) ex_stats [ex_bb] (Some 0%nat) (Some 0%nat) true 0 [].

(** Run [n] ticks. *)
Fixpoint ticks (n : nat) (s : LLVMInterface) : outcome LLVMInterface :=
  match n with
  | O => Ok s
  | S n => let* (s, _) := tick ex_cfg true ex_old 50 s in ticks n s
  end.

Example ex_run1 : ∃ s, ticks 1 ex_init = Ok s ∧ computeQueue (core s) = [0%nat] ∧ reservation (core s) = [1;2]%nat.
Proof. eexists. split_and!; vm_compute; reflexivity. Qed.
Example ex_run5 : ∃ s, ticks 4 ex_init = Ok s ∧ running s = false.
Proof. eexists. split_and!; vm_compute; reflexivity. Qed.

(** ** Dataflow: what a commit hands to the children *)

Definition values (rl : RegisterList) : list Z := _Value <$> _RegList rl.

Lemma values_reg_set rl p r r' :
  reg_at rl p = Ok r → _Value r' = _Value r → values (reg_set rl p r') = values rl.
Proof.
  unfold reg_at, values. intros Hr Hv. mon. simpl. rewrite list_fmap_insert, Hv.
  apply list_insert_id. by rewrite list_lookup_fmap, Hr.
Qed.

Lemma values_at rl rl' p r :
  values rl' = values rl → reg_at rl p = Ok r → ∃ r', reg_at rl' p = Ok r' ∧ _Value r' = _Value r.
Proof.
  unfold reg_at, values. intros Hv Hr. mon.
  assert ((_Value <$> _RegList rl') !! p = Some (_Value r)) as H
    by (by rewrite Hv, list_lookup_fmap, Hr).
  rewrite list_lookup_fmap in H. apply fmap_Some in H as (r' & H' & ->). exists r'.
  split; [|done]. by apply vec_get_ok.
Qed.

Lemma fetch_loop_ok reg : ∀ deps k rl ops rl' ops' r,
  fetch_loop deps k reg rl ops = Ok (rl', ops') → reg_at rl reg = Ok r →
  values rl' = values rl ∧ length ops' = length ops ∧ (∀ j, (j < k)%nat → ops' !! j = ops !! j) ∧
  (∀ j, deps !! j = Some (Some reg) → ops' !! (k + j)%nat = Some (s64 (_Value r))).
Proof.
  induction deps as [|d deps IH]; intros k rl ops rl' ops' r H Hr; cbn [fetch_loop] in H.
  - injection H as <- <-. by split_and!.
  - destruct (bool_decide (d = Some reg)) eqn:Ed.
    + rewrite Hr in H. cbn [mbind outcome_bind] in H. apply bind_ok in H as (ops1 & Ho & H).
      apply vec_set_at_ok in Ho as [Hk ->].
      set (rl1 := if updated_this_cycle r then rl else _) in H.
      assert (values rl1 = values rl) as Hv.
      { unfold rl1. destruct (updated_this_cycle r); [done|]. by eapply values_reg_set. }
      destruct (values_at rl rl1 reg r Hv Hr) as (r1 & Hr1 & Ev).
      destruct (IH _ _ _ _ _ _ H Hr1) as (V & L & B & D).
      rewrite length_insert in L. split_and!; [congruence|done| |].
      * intros j Hj. rewrite B by lia. by rewrite list_lookup_insert_ne by lia.
      * intros [|j] Hj.
        -- rewrite Nat.add_0_r, B by lia. by rewrite list_lookup_insert_eq.
        -- replace (k + S j)%nat with (S k + j)%nat by lia. rewrite <-Ev. by apply D.
    + destruct (IH _ _ _ _ _ _ H Hr) as (V & L & B & D). split_and!; [done|done| |].
      * intros j Hj. apply B. lia.
      * intros [|j] Hj.
        -- simpl in Hj. apply bool_decide_eq_false in Ed. congruence.
        -- replace (k + S j)%nat with (S k + j)%nat by lia. by apply D.
Qed.

(** Every operand slot of [y] that depends on register [r] holds [v]. *)
Definition delivered (r : nat) (v : Z) (y : Instruction) : Prop :=
  _ReturnRegister (st y) ≠ Some r →
  ∀ j, _Dependencies (st y) !! j = Some (Some r) → _Ops y !! j = Some (s64 v).

Lemma signalChild_delivers r v c ch c' reg :
  signalChild (Some r) c ch = Ok c' → reg_at (regList c) r = Ok reg → _Value reg = v →
  values (regList c') = values (regList c) ∧
  (∀ q, q ≠ ch → heap c' !! q = heap c !! q) ∧
  (∃ y', heap c' !! ch = Some y' ∧ delivered r v y').
Proof.
  unfold signalChild. intros H Hr Hv. apply bind_ok in H as (y & Hy & H).
  apply node_ok in Hy. apply bind_ok in H as ([rl y'] & Hf & [= <-]).
  pose proof (lookup_lt_Some _ _ _ Hy) as Hlt.
  pose proof (fetchDependency_ok _ _ _ _ _ Hf) as (Est & _).
  unfold fetchDependency in Hf. apply bind_ok in Hf as (_ & _ & Hf).
  apply bind_ok in Hf as ([rl1 ops] & Hf & H). apply bind_ok in H as (y1 & Hd & [= <- <-]).
  assert (_Ops y1 = ops) as Eops.
  { unfold decrParents in Hd. apply bind_ok in Hd as (? & _ & [= <-]). done. }
  simpl. split_and!.
  - destruct (bool_decide _); [by injection Hf as <- <-|].
    by destruct (fetch_loop_ok _ _ _ _ _ _ _ _ Hf Hr) as (V & _).
  - intros q Hq. by rewrite list_lookup_insert_ne.
  - rewrite list_lookup_insert_eq by done. exists y1. split; [done|]. intros Hne j Hj.
    rewrite Est in Hne, Hj. rewrite bool_decide_false in Hf by congruence.
    destruct (fetch_loop_ok _ _ _ _ _ _ _ _ Hf Hr) as (_ & _ & _ & D). rewrite Eops.
    rewrite <-Hv. apply (D j). done.
Qed.

Lemma signal_fold_delivers r v l : ∀ c c' reg,
  foldM (signalChild (Some r)) l c = Ok c' → reg_at (regList c) r = Ok reg → _Value reg = v →
  values (regList c') = values (regList c) ∧
  (∀ q y, heap c !! q = Some y → delivered r v y ∨ q ∈ l → ∃ y', heap c' !! q = Some y' ∧ delivered r v y').
Proof.
  induction l as [|ch l IH]; intros c c' reg H Hr Hv; cbn [foldM] in H.
  - injection H as <-. split; [done|]. intros q y Hy [D|Hq]; [eauto|]. by apply elem_of_nil in Hq.
  - apply bind_ok in H as (c1 & Hs & H).
    destruct (signalChild_delivers _ _ _ _ _ _ Hs Hr Hv) as (V1 & B1 & y1 & Hy1 & D1).
    destruct (values_at _ _ r reg V1 Hr) as (reg1 & Hr1 & Ev).
    destruct (IH _ _ _ H Hr1 ltac:(congruence)) as (V2 & D2). split; [congruence|].
    intros q y Hy Hq. destruct (decide (q = ch)) as [->|Hne].
    + apply (D2 ch y1 Hy1). by left.
    + rewrite <-B1 in Hy by done. apply (D2 q y Hy). destruct Hq as [?|Hq]; [by left|].
      apply elem_of_cons in Hq as [->|Hq]; [done|by right].
Qed.

(** C4: a committing instruction writes the low bytes of its result to its
    return register and hands exactly that register value to every operand
    slot that reads the register, in every child it was linked to (a child
    that overwrites the same register apart). *)
Theorem commit_delivers c p x r reg c'
    (Hx : heap c !! p = Some x) (Hret : _ReturnRegister (st x) = Some r)
    (Hreg : reg_at (regList c) r = Ok reg) (Hcommit : commit c p = Ok (c', true)) :
  let v := memcpy_int (_Size reg) (_Value reg) (_FinalResult x) in
  (∃ reg', reg_at (regList c') r = Ok reg' ∧ _Value reg' = v) ∧
  ∀ ch y, ch ∈ _Children x → heap c !! ch = Some y →
    ∃ y', heap c' !! ch = Some y' ∧ delivered r v y'.
Proof.
  unfold commit in Hcommit. apply bind_ok in Hcommit as (x0 & Hx0 & H). apply node_ok in Hx0.
  assert (x0 = x) as -> by congruence. rewrite Hret in H.
  destruct (_ <=? _); [|done]. rewrite Hreg in H. cbn [mbind outcome_bind] in H.
  apply bind_ok in H as (reg1 & Hset & H). apply bind_ok in H as (c1 & Hs & [= <-]).
  unfold setValue in Hset. destruct (8 <? _Size reg); [done|]. injection Hset as <-.
  set (reg1 := reg_write _) in Hs. set (v := memcpy_int _ _ _).
  unfold signalChildren in Hs. apply bind_ok in Hs as (x1 & Hx1 & Hs). apply node_ok in Hx1.
  simpl in Hx1. assert (x1 = x) as -> by congruence. rewrite Hret in Hs.
  assert (reg_at (reg_set (regList c) r reg1) r = Ok reg1) as Hr1.
  { unfold reg_at in *. mon. apply vec_get_ok. simpl. apply list_lookup_insert_eq.
    by eapply lookup_lt_Some. }
  destruct (signal_fold_delivers r v _ _ _ reg1 Hs Hr1 eq_refl) as (V & D). split.
  - destruct (values_at _ _ r reg1 V Hr1) as (reg' & ? & ?). by exists reg'.
  - intros ch y Hch Hy. by apply (D ch y Hy); right.
Qed.

(** ** Runs *)

(** C2: in every state a run reaches, [_ActiveParents] of an instruction in
    flight is the number of links from instructions still in flight to it,
    counted with multiplicity (plus the constructor's one for [ret]). *)
Theorem active_parents_exact defines cfg unlimited old s s' q x
    (Hinit : initial defines s) (Hrun : rtc (step cfg unlimited old) s s')
    (Hq : q ∈ inflight (core s')) (Hx : heap (core s') !! q = Some x) :
  _ActiveParents x = bonus (st x) + Z.of_nat (occurs q (edges (core s'))).
Proof.
  destruct (reach_inv defines cfg unlimited old s s' (initial_inv defines s Hinit) Hrun) as [I _].
  by apply I.
Qed.

(** C1: launch safety: an instruction the engine finds ready (no active
    parent) in a reachable state is the child of no instruction in flight, so
    every producer it was linked to has committed; and a producer is always
    older than its consumers, so the links have no cycle. *)
Theorem ready_producers_committed defines cfg unlimited old s s' p x q
    (Hinit : initial defines s) (Hrun : rtc (step cfg unlimited old) s s')
    (Hp : p ∈ inflight (core s')) (Hx : heap (core s') !! p = Some x)
    (Hready : _ActiveParents x = 0) (Hq : q ∈ inflight (core s')) :
  (p ∉ kids (core s') q) ∧ ∀ ch, ch ∈ kids (core s') q → (q < ch)%nat.
Proof.
  destruct (reach_inv defines cfg unlimited old s s' (initial_inv defines s Hinit) Hrun) as [I _].
  destruct (not_child_active defines _ p x I Hp Hx Hready) as [Hn _]. split.
  - intros Hk. apply Hn, edges_elem. eauto.
  - intros ch Hch. by apply (inv_edge _ _ I q ch Hq).
Qed.

Lemma head_not_child defines c p r :
  Inv defines c → inflight c = p :: r → reservation c = p :: r → p ∉ edges c.
Proof.
  intros I Hi Hr (q & Hq & Hk)%edges_elem. destruct (inv_edge _ c I q p Hq Hk) as [Hlt _].
  pose proof (inv_sorted _ c I) as Hs. rewrite Hr in Hs. inversion Hs as [|?? _ Hf]; subst.
  rewrite Forall_forall in Hf. rewrite Hi in Hq. apply elem_of_cons in Hq as [->|Hq]; [lia|].
  specialize (Hf q Hq). lia.
Qed.

(** The oldest entry of the table when nothing else is in flight. *)
Lemma head_progress defines cfg unlimited old s p r x :
  LInv defines s → reservation (core s) = p :: r → heap (core s) !! p = Some x →
  computeQueue (core s) = [] ∧ readQueue (core s) = [] ∧ writeQueue (core s) = [] →
  (_OpCode (st x) ≠ "ret"%string ∧ _ActiveParents x = 0) ∨
  (_OpCode (st x) = "ret"%string ∧
   ∃ s', reservationStep cfg unlimited old s 0 p = Ok (s', 1%nat) ∧
         reservation (core s') = r ∧ running s' = false ∧ comm s' = comm s ++ [Finish]).
Proof.
  intros [I _] Hres Hx (Hc & Hrd & Hw).
  assert (inflight (core s) = p :: r) as Hi
    by (unfold inflight; by rewrite Hres, Hc, Hrd, Hw, !app_nil_r).
  pose proof (head_not_child defines _ p r I Hi Hres) as Hn.
  pose proof (inv_act _ _ I p x ltac:(rewrite Hi; by left) Hx) as Ha.
  rewrite (proj2 (occurs_0 p _) Hn), Z.add_0_r in Ha. unfold bonus in Ha.
  destruct (String.eqb_spec (_OpCode (st x)) "ret") as [E|E]; [right|by left].
  split; [done|]. unfold reservationStep, node, vec_get, is_op. rewrite Hx.
  cbn [mbind outcome_bind]. rewrite Ha. rewrite (proj2 (String.eqb_eq _ _) E), Hc, Hrd, Hw. simpl.
  eexists. split; [done|]. simpl. by rewrite Hres.
Qed.

(** C3: no deadlock: when a reachable state has nothing in flight outside the
    reservation table, the oldest entry of the table is either ready to launch
    or is the [ret], and then the next look at it ends the run: it leaves the
    table, [running] is cleared and the interface is told to finish. *)
Theorem head_makes_progress defines cfg unlimited old s s' p r x
    (Hinit : initial defines s) (Hrun : rtc (step cfg unlimited old) s s')
    (Hres : reservation (core s') = p :: r) (Hx : heap (core s') !! p = Some x)
    (Hidle : computeQueue (core s') = [] ∧ readQueue (core s') = [] ∧ writeQueue (core s') = []) :
  (_OpCode (st x) ≠ "ret"%string ∧ _ActiveParents x = 0) ∨
  (_OpCode (st x) = "ret"%string ∧
   ∃ s'', reservationStep cfg unlimited old s' 0 p = Ok (s'', 1%nat) ∧
          reservation (core s'') = r ∧ running s'' = false ∧ comm s'' = comm s' ++ [Finish]).
Proof.
  pose proof (reach_inv defines cfg unlimited old s s' (initial_inv defines s Hinit) Hrun) as L.
  by apply (head_progress defines).
Qed.

(** ** The program runs as these theorems describe *)

Definition ex_defines (l : string) : bool := String.prefix "%" l.

Lemma ex_tmpl_ok : Forall (tmpl_ok ex_defines) (_Nodes ex_bb).
Proof. repeat constructor; simpl; try done; intros; try lia; discriminate. Qed.

Lemma ex_initial : initial ex_defines ex_init.
Proof. split_and!; [done|done|]. constructor; [apply ex_tmpl_ok|constructor]. Qed.

Definition ex_after (n : nat) : LLVMInterface :=
  match ticks n ex_init with Ok s => s | Err _ => ex_init end.

(** Two links from [%1 = add] to [%2 = mul], one per operand. *)
Lemma ex_reach1 : rtc (step ex_cfg true ex_old) ex_init (ex_after 1).
Proof. eapply rtc_l; [|apply rtc_refl]. eapply (step_tick _ _ _ 50 _ _ true). vm_compute. reflexivity. Qed.

Lemma commit_delivers_witness :
  (∃ reg', reg_at (regList (core (ex_after 2))) 2 = Ok reg' ∧ _Value reg' = 12) ∧
  ∃ c', commit (core (ex_after 1)) 0 = Ok (c', true) ∧
  ∃ y', heap c' !! 1%nat = Some y' ∧ delivered 2 12 y'.
Proof.
  split; [eexists; split; vm_compute; reflexivity|].
  destruct (commit (core (ex_after 1)) 0) as [[c' b]|] eqn:E; [|vm_compute in E; discriminate].
  assert (b = true) as -> by (revert E; vm_compute; intros [= <- <-]; reflexivity).
  exists c'. split; [reflexivity|].
  destruct (heap (core (ex_after 1)) !! 0%nat) as [x|] eqn:Hx; [|vm_compute in Hx; discriminate].
  destruct (heap (core (ex_after 1)) !! 1%nat) as [y|] eqn:Hy; [|vm_compute in Hy; discriminate].
  assert (_FinalResult x = 12 ∧ _ReturnRegister (st x) = Some 2%nat ∧ _Children x = [1; 1]%nat)
    as (F & R & C) by (revert Hx; vm_compute; intros [= <-]; auto).
  destruct (commit_delivers (core (ex_after 1)) 0 x 2 (ex_reg "1" 0) c' Hx R
              ltac:(vm_compute; reflexivity) E) as [_ D].
  rewrite F in D. apply (D 1%nat y); [rewrite C; by left|done].
Defined.

Lemma active_parents_exact_witness :
  match heap (core (ex_after 1)) !! 1%nat with
  | Some x => _ActiveParents x = bonus (st x) + Z.of_nat (occurs 1 (edges (core (ex_after 1)))) ∧
              _ActiveParents x = 2
  | None => False
  end.
Proof.
  destruct (heap (core (ex_after 1)) !! 1%nat) as [x|] eqn:Hx; [|vm_compute in Hx; discriminate].
  split.
  - apply (active_parents_exact ex_defines ex_cfg true ex_old ex_init (ex_after 1) 1 x
      ex_initial ex_reach1); [|done]. vm_compute. left.
  - revert Hx. vm_compute. intros [= <-]. reflexivity.
Defined.

Lemma ready_producers_committed_witness :
  match heap (core (ex_after 1)) !! 0%nat with
  | Some x => (0%nat ∉ kids (core (ex_after 1)) 1) ∧
              ∀ ch, ch ∈ kids (core (ex_after 1)) 1 → (1 < ch)%nat
  | None => False
  end.
Proof.
  destruct (heap (core (ex_after 1)) !! 0%nat) as [x|] eqn:Hx; [|vm_compute in Hx; discriminate].
  apply (ready_producers_committed ex_defines ex_cfg true ex_old ex_init (ex_after 1) 0 x 1
    ex_initial ex_reach1); [| |revert Hx; vm_compute; intros [= <-]; reflexivity|].
  - vm_compute. right. right. left.
  - done.
  - vm_compute. left.
Defined.

(** A program that stores and returns: once the store completes, the [ret] is
    alone in the reservation table. *)
Definition ex_store : Instruction :=
  Store_new 0 (ex_args "store i32 5, i32* %a" "store" "i32" None 0 [Some 1%nat]) 4 5 1 None true.
Definition ex_init2 : LLVMInterface :=
  mkLI (mkCore [] ex_regs [] [] [] []) ex_stats [mkBB "0" [ex_store; ex_ret]] (Some 0%nat)
    (Some 0%nat) true 0 [].
Definition ex_stored : LLVMInterface :=
  match ticks 1 ex_init2 with Ok s => s | Err _ => ex_init2 end.
Definition ex_idle : LLVMInterface :=
  match writeCommit ex_stored 0 with Ok s => s | Err _ => ex_init2 end.

Lemma ex_initial2 : initial ex_defines ex_init2.
Proof.
  split_and!; [done|done|]. repeat constructor; simpl; try done; intros; try lia; discriminate.
Qed.

Lemma ex_reach2 : rtc (step ex_cfg true ex_old) ex_init2 ex_idle.
Proof.
  eapply rtc_l; [|eapply rtc_l; [|apply rtc_refl]].
  - eapply (step_tick _ _ _ 50 _ ex_stored true). vm_compute. reflexivity.
  - apply (step_write _ _ _ _ 0). vm_compute. reflexivity.
Qed.

Lemma head_makes_progress_witness :
  match heap (core ex_idle) !! 1%nat with
  | Some x =>
      (_OpCode (st x) ≠ "ret"%string ∧ _ActiveParents x = 0) ∨
      (_OpCode (st x) = "ret"%string ∧
       ∃ s'', reservationStep ex_cfg true ex_old ex_idle 0 1 = Ok (s'', 1%nat) ∧
              reservation (core s'') = [] ∧ running s'' = false ∧
              comm s'' = comm ex_idle ++ [Finish])
  | None => False
  end.
Proof.
  destruct (heap (core ex_idle) !! 1%nat) as [x|] eqn:Hx; [|vm_compute in Hx; discriminate].
  apply (head_makes_progress ex_defines ex_cfg true ex_old ex_init2 ex_idle 1 [] x
    ex_initial2 ex_reach2); [vm_compute; reflexivity|done|].
  split_and!; vm_compute; reflexivity.
Defined.

(** ** The unit counted for an in-flight computation

    The compute queue loop looks up [reservation.at(i)]: with two
    multi-cycle additions in flight and only the [ret] reserved, the second
    iteration is out of range and the exception ends the simulation. *)
Definition ex_long (n : nat) (line : string) : Instruction :=
  Add_new 0 (ex_args line "add" "i32" (Some n) 3 [Some 1%nat]) [1%nat] 0 5 false 1.
Definition ex_init3 : LLVMInterface :=
  mkLI (mkCore [] ex_regs [] [] [] []) ex_stats
    [mkBB "0" [ex_long 2 "%1 = add"; ex_long 3 "%2 = add"; ex_ret]] (Some 0%nat) (Some 0%nat) true 0 [].
Example compute_queue_index :
  (∃ s, ticks 1 ex_init3 = Ok s ∧ computeQueue (core s) = [0; 1]%nat ∧
        reservation (core s) = [2]%nat) ∧
  ticks 2 ex_init3 = Err OutOfRange.
Proof. split; [eexists; split_and!|]; vm_compute; reflexivity. Qed.
