(* ===== verification/SchedulerLoop.v ===== *)
(** Termination of the loop over the reservation table.  The loop has no bound
    of its own in the source: an entry is erased, or the index advances, or a
    branch appends a whole block.  In the states a run reaches each turn looks
    at an entry for the first time, so a tick takes at most one turn for every
    instruction that is in the table or is scheduled while the loop runs. *)
From stdpp Require Import strings.
From S2P Require Import Prelude CppString Registers MemRequest Macros Instructions Compute FunctionalUnits Scheduler SchedulerInv SchedulerSpec.

#[global] Open Scope Z_scope.

(** ** What the operations do to the sizes *)

(** The table and the number of instructions ever scheduled are unchanged. *)
Definition same_size (c c' : Core) : Prop :=
  reservation c' = reservation c ∧ length (heap c') = length (heap c).

#[export] Instance same_size_preorder : PreOrder same_size.
Proof. split; [by intros ?|]. unfold same_size. intros ??? [? ?] [? ?]. by split; etrans. Qed.

Lemma set_node_size c p x : same_size c (set_node c p x).
Proof. split; [done|]. apply length_insert. Qed.
Lemma set_regs_size c rl : same_size c (set_regs c rl).
Proof. done. Qed.

Lemma link_size c id p c' : link c id p = Ok c' → same_size c c'.
Proof.
  unfold link. intros H. apply bind_ok in H as (x & _ & H). apply bind_ok in H as (x' & _ & H).
  apply bind_ok in H as (y & _ & [= <-]). etrans; apply set_node_size.
Qed.

Lemma link_opt_size c id p c' : link_opt c id p = Ok c' → same_size c c'.
Proof. destruct p; simpl; [apply link_size|by intros [= <-]]. Qed.

Lemma gepBase_size c id c' : gepBase c id = Ok c' → same_size c c'.
Proof.
  unfold gepBase. intros H. apply bind_ok in H as (i & _ & H). destruct (cls i); try done.
  apply bind_ok in H as (p & _ & H). destruct p as [p|]; [by eapply link_size|].
  apply bind_ok in H as (r & _ & [= <-]). apply set_node_size.
Qed.

Lemma depLoop_size id deps : ∀ c j c', depLoop c id deps j = Ok c' → same_size c c'.
Proof.
  induction deps as [|[r|] deps IH]; intros c j c' H; simpl in H; [by injection H as <-| |by eapply IH].
  apply bind_ok in H as (p & _ & H). apply bind_ok in H as (c1 & H1 & H).
  transitivity c1; [|by eapply IH]. destruct p as [p|]; [by eapply link_size|].
  apply bind_ok in H1 as (i & _ & H1). apply bind_ok in H1 as (i' & _ & [= <-]). apply set_node_size.
Qed.

(** Scheduling an instruction adds one entry and one object. *)
Lemma scheduleNode_size prev c tmpl c' :
  scheduleNode prev c tmpl = Ok c' →
  length (reservation c') = S (length (reservation c)) ∧ length (heap c') = S (length (heap c)).
Proof.
  unfold scheduleNode. intros H. apply bind_ok in H as (c1 & H1 & H).
  apply bind_ok in H as (c2 & H2 & H). apply bind_ok in H as (c3 & H3 & H).
  apply bind_ok in H as (i & _ & H). apply bind_ok in H as ([i' ds] & _ & H).
  assert (same_size (push_clone c tmpl) c') as [-> ->].
  { transitivity c1; [|transitivity c2; [|transitivity c3]].
    - destruct (_ReturnRegister _); [|by injection H1 as <-].
      apply bind_ok in H1 as (p & _ & H1). by eapply link_opt_size.
    - destruct (String.eqb _ "load"); [|by injection H2 as <-].
      apply bind_ok in H2 as (p & _ & H2). by eapply link_opt_size.
    - destruct (String.eqb _ "getelementptr"); [by eapply gepBase_size|by injection H3 as <-].
    - etrans; [apply set_node_size|by eapply depLoop_size]. }
  simpl. rewrite !length_app. simpl. lia.
Qed.

(** A block adds as many entries as objects. *)
Lemma scheduleBB_size s b s' :
  scheduleBB s b = Ok s' →
  (length (reservation (core s')) + length (heap (core s))
     = length (reservation (core s)) + length (heap (core s')))%nat ∧
  (length (heap (core s)) ≤ length (heap (core s')))%nat.
Proof.
  unfold scheduleBB. intros H. apply bind_ok in H as (bb & _ & H).
  destruct (_Nodes bb) as [|n ns]; [injection H as <-; lia|].
  apply bind_ok in H as (pb & _ & H). apply bind_ok in H as (c & H & [= <-]). simpl.
  generalize dependent (n :: ns). clear n ns. intros nodes. generalize (core s). unfold scheduleNodes.
  induction nodes as [|x nodes IH]; intros c0 H; simpl in H; [injection H as <-; lia|].
  apply bind_ok in H as (c1 & H1 & H). apply scheduleNode_size in H1. apply IH in H. lia.
Qed.

Lemma commit_size c p c' b : commit c p = Ok (c', b) → same_size c c'.
Proof.
  intros H. assert (∃ x, heap c !! p = Some x) as [x Hx].
  { unfold commit in H. apply bind_ok in H as (x & Hx & _). exists x. by apply node_ok. }
  destruct (commit_ok c p c' b x H Hx) as [(Q & _) Hc]. split; [done|].
  destruct (decide _); [by destruct Hc as [[? _] _]|]. destruct Hc as [_ ->]. apply length_insert.
Qed.

Lemma erase_at_length (q : list nat) i p : q !! i = Some p → length q = S (length (erase_at q i)).
Proof. intros H. by rewrite (erase_at_perm _ _ _ H) at 1. Qed.

Section Loop.
Context (cfg : Config) (unlimitedFU : bool) (old : MemoryRequest).

(** [s'] is [s] with the entry at [i] gone and nothing scheduled. *)
Definition erased (s s' : LLVMInterface) : Prop :=
  length (reservation (core s)) = S (length (reservation (core s'))) ∧
  length (heap (core s')) = length (heap (core s)).

Lemma computeNode_size s p s' : computeNode old s p = Ok s' → same_size (core s) (core s').
Proof. intros (_ & (? & _) & ? & _)%computeNode_ok. done. Qed.

Lemma erased_size s s1 i p fu :
  same_size (core s) (core s1) → reservation (core s) !! i = Some p →
  erased s (erase_reservation (countFU unlimitedFU s1 fu) i).
Proof.
  intros [Hr Hh] Hi. unfold erased, erase_reservation. simpl.
  rewrite (proj1 (countFU_core unlimitedFU s1 fu)), Hr, Hh. split; [|done].
  by eapply erase_at_length.
Qed.

Lemma launchMem_size isload s i p fu s' :
  reservation (core s) !! i = Some p → launchMem unlimitedFU old isload s i p fu = Ok s' → erased s s'.
Proof.
  intros Hi H. unfold launchMem in H. apply bind_ok in H as (s1 & Hc & H).
  apply bind_ok in H as (x & _ & [= <-]). eapply erased_size; [|done].
  apply computeNode_size in Hc. by destruct isload.
Qed.

Lemma launchZero_size s i p fu s' :
  reservation (core s) !! i = Some p → launchZero unlimitedFU old s i p fu = Ok s' → erased s s'.
Proof.
  intros Hi H. unfold launchZero, commitNode, removeNode in H. apply bind_ok in H as (s1 & Hc & H).
  apply bind_ok in H as ([s2 b] & Hm & H). apply bind_ok in Hm as ([c2 b'] & Hm & [= <- <-]).
  apply bind_ok in H as (s3 & Hr & [= <-]). apply bind_ok in Hr as (c3 & Hr & [= <-]).
  apply computeNode_size in Hc. apply commit_size in Hm.
  apply removeLinks_ok in Hr as ((Hr & _) & Hl & _). simpl in Hr, Hl.
  rewrite (proj1 (countFU_core unlimitedFU _ fu)) in Hr, Hl. simpl in Hr, Hl.
  destruct Hc as [Hc1 Hc2], Hm as [Hm1 Hm2]. unfold erased, erase_reservation. simpl.
  rewrite Hr, Hl, Hm1, Hm2, Hc1, Hc2. split; [|done]. by eapply erase_at_length.
Qed.

Lemma launchCompute_size s i p fu s' :
  reservation (core s) !! i = Some p → launchCompute unlimitedFU old s i p fu = Ok s' → erased s s'.
Proof.
  intros Hi H. unfold launchCompute, commitNode in H. apply bind_ok in H as (s1 & Hc & H).
  apply bind_ok in H as ([s2 b] & Hm & [= <-]). apply bind_ok in Hm as ([c2 b'] & Hm & [= <- <-]).
  apply computeNode_size in Hc. apply commit_size in Hm.
  unfold erased, erase_reservation, mark_comp. simpl.
  rewrite (proj1 (countFU_core unlimitedFU _ fu)). simpl.
  destruct Hc as [Hc1 Hc2], Hm as [Hm1 Hm2]. simpl in *. rewrite Hm1, Hm2, Hc1, Hc2. split; [|done].
  by eapply erase_at_length.
Qed.

Lemma launchBranch_size s i p fu s' :
  reservation (core s) !! i = Some p → launchBranch unlimitedFU old s i p fu = Ok s' →
  (S (length (reservation (core s')) + length (heap (core s)))
     = length (reservation (core s)) + length (heap (core s')))%nat ∧
  (length (heap (core s)) ≤ length (heap (core s')))%nat.
Proof.
  intros Hi H. unfold launchBranch in H. apply bind_ok in H as (s1 & Hc & H).
  apply bind_ok in H as (x & _ & H). apply computeNode_size in Hc as [Hr Hh]. simpl in Hr, Hh.
  rewrite (proj1 (countFU_core unlimitedFU s fu)) in Hr, Hh.
  apply scheduleBB_size in H. simpl in H. rewrite Hr, Hh in H.
  pose proof (erase_at_length _ _ _ Hi). lia.
Qed.

(** ** One turn *)

(** A turn passes one entry of the table for good: what is left to look at
    shrinks by one, up to the instructions the turn schedules.  A [ret] is
    never found without active parents: its constructor gives it one. *)
Lemma reservationStep_size defines s i p s' i' :
  LInv defines s → reservation (core s) !! i = Some p →
  reservationStep cfg unlimitedFU old s i p = Ok (s', i') →
  (length (reservation (core s')) + S i + length (heap (core s))
     ≤ length (reservation (core s)) + i' + length (heap (core s')))%nat ∧
  (length (heap (core s)) ≤ length (heap (core s')))%nat.
Proof.
  intros [I F] Hi H. unfold reservationStep in H. apply bind_ok in H as (x & Hx & H).
  apply node_ok in Hx. pose proof (list_elem_of_lookup_2 _ _ _ Hi) as Hp.
  destruct (Z.eqb_spec (_ActiveParents x) 0) as [Ha|Ha].
  - destruct (_Terminator (st x)); cbn [negb] in H.
    + destruct (is_op x "ret") eqn:Er; cbn [negb] in H.
      { pose proof (inv_act _ _ I p x (in_reservation _ _ Hp) Hx) as E. unfold bonus in E.
        unfold is_op in Er. rewrite Er in E. lia. }
      destruct (_ <? _); [|injection H as <- <-; lia].
      apply bind_ok in H as (s1 & Hl & [= <- <-]).
      pose proof (launchBranch_size _ _ _ _ _ Hi Hl). lia.
    + assert (∀ s0 s1, core s0 = core s → erased s0 s1 → s1 = s' → i = i' →
        (length (reservation (core s')) + S i + length (heap (core s))
           ≤ length (reservation (core s)) + i' + length (heap (core s')))%nat ∧
        (length (heap (core s)) ≤ length (heap (core s')))%nat) as K.
      { intros s0 s1 E [E1 E2] -> ->. rewrite E in E1, E2. lia. }
      destruct (is_op x "load"); [|destruct (is_op x "store"); [|destruct (_ =? 0)]].
      1-3: apply bind_ok in H as (s1 & Hl & [= <- <-]);
        eauto using launchMem_size, launchZero_size.
      destruct unlimitedFU eqn:Eu.
      { apply bind_ok in H as (s1 & Hl & [= <- <-]). rewrite <-Eu in Hl.
        eauto using launchCompute_size. }
      pose proof (proj1 (limitFU_core cfg s (_FunctionalUnit (st x)))) as C.
      destruct (limitFU cfg s (_FunctionalUnit (st x))) as [s1 ok]. simpl in C.
      destruct ok; [|injection H as <- <-; rewrite C; lia].
      apply bind_ok in H as (s2 & Hl & [= <- <-]). rewrite <-C in Hi.
      set (s0 := if is_op x "fdiv" then count_fdiv s1 else s1) in Hl.
      assert (core s0 = core s1) as C0 by (by subst s0; destruct (is_op x "fdiv")).
      apply (K s0 s2); [congruence| |done|done]. rewrite <-Eu in Hl.
      eapply launchCompute_size; [by rewrite C0|exact Hl].
  - destruct (_ && _); [|injection H as <- <-; lia].
    destruct (computeQueue _); [|injection H as <- <-; lia].
    destruct (readQueue _); [|injection H as <- <-; lia].
    destruct (writeQueue _); [|injection H as <- <-; lia].
    injection H as <- <-. simpl. pose proof (erase_at_length _ _ _ Hi). lia.
Qed.

(** ** Turns of the loop *)

(** [turns n s i t j]: [n] turns lead from [s] at index [i] to [t] at [j]. *)
Inductive turns : nat → LLVMInterface → nat → LLVMInterface → nat → Prop :=
  | turns_O s i : turns 0 s i s i
  | turns_S n s i p s1 i1 t j :
      reservation (core s) !! i = Some p →
      reservationStep cfg unlimitedFU old s i p = Ok (s1, i1) →
      turns n s1 i1 t j → turns (S n) s i t j.

Lemma turns_size defines n s i t j :
  LInv defines s → turns n s i t j →
  (length (reservation (core t)) + n + i + length (heap (core s))
     ≤ length (reservation (core s)) + j + length (heap (core t)))%nat ∧
  (length (heap (core s)) ≤ length (heap (core t)))%nat.
Proof.
  intros L T. induction T as [s i|n s i p s1 i1 t j Hi Hs T IH]; [lia|].
  pose proof (reservationStep_size _ _ _ _ _ _ L Hi Hs).
  pose proof (IH (reservationStep_inv _ _ _ _ _ _ _ _ _ L Hi Hs)). lia.
Qed.

(** How a run of the loop ends: at the end of the table, or with the error of
    a turn. *)
Definition loop_ends (fuel : nat) (s : LLVMInterface) (i n : nat) : Prop :=
  ∃ t j, turns n s i t j ∧
    match reservation (core t) !! j with
    | None => reservationLoop cfg unlimitedFU old fuel s i = Ok t
    | Some p => ∃ e, reservationStep cfg unlimitedFU old t j p = Err e ∧
        reservationLoop cfg unlimitedFU old fuel s i = Err e
    end.

Lemma loop_ends_or_turns fuel : ∀ s i,
  (∃ n, (n < fuel)%nat ∧ loop_ends fuel s i n) ∨
  (∃ t j, turns fuel s i t j).
Proof.
  induction fuel as [|fuel IH]; intros s i; [right; eexists _, _; constructor|].
  destruct (reservation (core s) !! i) as [p|] eqn:Ei.
  - destruct (reservationStep cfg unlimitedFU old s i p) as [[s1 i1]|e] eqn:Es.
    + destruct (IH s1 i1) as [(n & Hn & t & j & T & E)|(t & j & T)].
      * left. exists (S n). split; [lia|]. exists t, j. split; [by econstructor|].
        cbn [reservationLoop]. by rewrite Ei, Es.
      * right. exists t, j. by econstructor.
    + left. exists 0%nat. split; [lia|]. exists s, i. split; [constructor|].
      cbn [reservationLoop]. rewrite Ei, Es. eauto.
  - left. exists 0%nat. split; [lia|]. exists s, i. split; [constructor|].
    cbn [reservationLoop]. by rewrite Ei.
Qed.

Lemma turns_last n s i t j :
  turns (S n) s i t j → ∃ t' j' p, turns n s i t' j' ∧ reservation (core t') !! j' = Some p.
Proof.
  revert s i. induction n as [|n IH]; intros s i T; inversion T; subst.
  - eexists _, _, _. split; [constructor|done].
  - edestruct IH as (t' & j' & p' & T' & Hj); [done|]. exists t', j', p'. split; [by econstructor|done].
Qed.

(** The number of turns, when [K] bounds what is scheduled meanwhile. *)
Lemma turns_bound defines s K n t j :
  LInv defines s →
  (∀ n t j, turns n s 0 t j → (length (heap (core t)) ≤ length (heap (core s)) + K)%nat) →
  turns n s 0 t j → (n ≤ length (reservation (core s)) + K)%nat.
Proof.
  intros L HK T. destruct n as [|n]; [lia|]. apply turns_last in T as (t' & j' & p & T & Hj).
  apply lookup_lt_Some in Hj. pose proof (turns_size _ _ _ _ _ _ L T). specialize (HK _ _ _ T). lia.
Qed.

(** A run that returns has seen the largest heap of its turns. *)
Lemma loop_heap_le defines fuel : ∀ s i s2,
  LInv defines s → reservationLoop cfg unlimitedFU old fuel s i = Ok s2 →
  (length (heap (core s)) ≤ length (heap (core s2)))%nat.
Proof.
  induction fuel as [|fuel IH]; intros s i s2 L H; cbn [reservationLoop] in H;
    destruct (reservation (core s) !! i) as [p|] eqn:Ei; try (injection H as <-; lia); [done|].
  apply bind_ok in H as ([s1 i1] & Hs & H).
  pose proof (reservationStep_size _ _ _ _ _ _ L Ei Hs).
  pose proof (IH _ _ _ (reservationStep_inv _ _ _ _ _ _ _ _ _ L Ei Hs) H). lia.
Qed.

Lemma turns_heap_le defines n s i t j fuel s2 :
  LInv defines s → turns n s i t j → reservationLoop cfg unlimitedFU old fuel s i = Ok s2 →
  (length (heap (core t)) ≤ length (heap (core s2)))%nat.
Proof.
  intros L T. revert fuel s2. induction T as [s i|n s i p s1 i1 t j Hi Hs T IH]; intros fuel s2 H.
  { by eapply loop_heap_le. }
  destruct fuel as [|fuel]; cbn [reservationLoop] in H; rewrite Hi in H; [done|].
  rewrite Hs in H. eapply IH; [|exact H]. by eapply reservationStep_inv.
Qed.
End Loop.

(** ** The loop of a tick *)

(** [tick] up to the loop over the reservation table. *)
Definition loop_start (cfg : Config) (unlimitedFU : bool) (s : LLVMInterface) : outcome LLVMInterface :=
  let s := tickHead cfg s in
  let* s := computeLoop cfg unlimitedFU (length (computeQueue (core s))) s 0 in
  match reservation (core s) with [] => scheduleBB s (currBB s) | _ => Ok s end.

Lemma tick_loop_start cfg unlimited old fuel s s1 :
  loop_start cfg unlimited s = Ok s1 →
  ∃ account, tick cfg unlimited old fuel s =
    let busy := match computeQueue (core s1), readQueue (core s1), writeQueue (core s1) with
                | [], [], [] => false | _, _, _ => true end in
    let* s2 := if lockstep cfg && busy then Ok s1
               else reservationLoop cfg unlimited old fuel s1 0 in
    Ok (account s2, running s2).
Proof.
  unfold loop_start, tick. intros H. apply bind_ok in H as (s0 & -> & H). cbn [mbind outcome_bind].
  rewrite H. cbn [mbind outcome_bind]. by eexists (fun s2 => set_stats s2 _).
Qed.

Lemma loop_start_inv defines cfg unlimited s s1 :
  LInv defines s → loop_start cfg unlimited s = Ok s1 → LInv defines s1.
Proof.
  intros L H. unfold loop_start in H. apply bind_ok in H as (s0 & H0 & H).
  assert (LInv defines (tickHead cfg s)) as L0 by (destruct L; split; [by apply inv_set_regs|done]).
  apply computeLoop_inv with (defines := defines) in H0; [|done].
  revert H. destruct (reservation (core s0)); [by apply scheduleBB_inv|by intros [= <-]].
Qed.

(** C20: the loop over the reservation table terminates.  In a tick from any
    reachable state in which the turns of the loop schedule at most [K]
    instructions (a program whose blocks branch to each other for ever within
    one cycle has no such [K]), the loop makes at most one turn per entry of
    the table plus [K], and ends at the end of the table or with the error of
    a turn, never for lack of fuel. *)
Theorem tick_loop_terminates defines cfg unlimited old s s' s1 K fuel
    (Hinit : initial defines s) (Hrun : rtc (step cfg unlimited old) s s')
    (Hstart : loop_start cfg unlimited s' = Ok s1)
    (HK : ∀ n t j, turns cfg unlimited old n s1 0 t j →
      (length (heap (core t)) ≤ length (heap (core s1)) + K)%nat)
    (Hfuel : (length (reservation (core s1)) + K < fuel)%nat) :
  ∃ n, (n ≤ length (reservation (core s1)) + K)%nat ∧ loop_ends cfg unlimited old fuel s1 0 n.
Proof.
  pose proof (reach_inv defines cfg unlimited old s s' (initial_inv defines s Hinit) Hrun) as L.
  pose proof (loop_start_inv _ _ _ _ _ L Hstart) as L1.
  destruct (loop_ends_or_turns cfg unlimited old fuel s1 0) as [(n & Hn & t & j & T & E)|(t & j & T)].
  - exists n. split; [by eapply turns_bound|]. by exists t, j.
  - pose proof (turns_bound _ _ _ _ _ _ _ _ _ L1 HK T). lia.
Qed.

(** The second tick of the example program. *)
Definition ex_start : LLVMInterface :=
  match loop_start ex_cfg true (ex_after 1) with Ok s => s | Err _ => ex_init end.

Lemma tick_loop_terminates_witness :
  loop_start ex_cfg true (ex_after 1) = Ok ex_start ∧
  reservation (core ex_start) = [1%nat; 2%nat] ∧
  ∃ n, (n ≤ length (reservation (core ex_start)) + 0)%nat ∧
    loop_ends ex_cfg true ex_old 3 ex_start 0 n.
Proof.
  assert (loop_start ex_cfg true (ex_after 1) = Ok ex_start) as Hstart by (vm_compute; reflexivity).
  split; [exact Hstart|]. split; [vm_compute; reflexivity|].
  apply (tick_loop_terminates ex_defines ex_cfg true ex_old ex_init (ex_after 1) ex_start 0 3);
    [apply ex_initial|apply ex_reach1|exact Hstart| |vm_compute; lia].
  intros n t j T.
  pose proof (reach_inv ex_defines _ _ _ _ _ (initial_inv _ _ ex_initial) ex_reach1) as L.
  pose proof (loop_start_inv _ _ _ _ _ L Hstart) as L1.
  destruct (reservationLoop ex_cfg true ex_old 3 ex_start 0) as [s2|e] eqn:E;
    [|vm_compute in E; discriminate E].
  pose proof (turns_heap_le _ _ _ _ _ _ _ _ _ _ _ L1 T E) as H.
  assert (length (heap (core s2)) = length (heap (core ex_start))) as Hs
    by (revert E; vm_compute; intros [= <-]; reflexivity).
  lia.
Defined.
