(* ===== verification/SchedulerCycles.v ===== *)
(** The cycle statistics of the engine over whole runs: the counters that
    [LLVMInterface::occupancy] keeps are the numbers of the cycles of each kind,
    the kind of a cycle being told by what it did to the queues. *)
From stdpp Require Import strings.
From S2P Require Import Prelude Registers MemRequest Macros Instructions Compute FunctionalUnits Scheduler SchedulerInv SchedulerSpec.

#[global] Open Scope Z_scope.


(** ** What a cycle did *)

(** Whether a load, a store, a computation was launched in the cycle, and
    whether loads, stores, computations were in flight when it began. *)
Record Cycle := mkCycle {
  cy_load : bool;
  cy_store : bool;
  cy_comp : bool;
  cy_reading : bool;
  cy_writing : bool;
  cy_computing : bool;
}.

(** Nothing but [tick] fills the memory queues, and [tick] only fills them: a
    load was launched if the read queue is longer after the cycle.  A
    computation of no latency enters no queue; the flag tells of it. *)
Definition longer (q q' : list nat) : bool := (length q <? length q')%nat.
Definition nonempty (q : list nat) : bool := (0 <? length q)%nat.
Definition cycle_of (c : Core) (s' : LLVMInterface) : Cycle :=
  mkCycle (longer (readQueue c) (readQueue (core s'))) (longer (writeQueue c) (writeQueue (core s')))
    (compOpScheduled (stats s')) (nonempty (readQueue c)) (nonempty (writeQueue c))
    (nonempty (computeQueue c)).

Definition launches (y : Cycle) : bool := cy_load y || cy_store y || cy_comp y.

(** The cycles a counter stands for. *)
Definition in_class (k : OccField) (y : Cycle) : bool :=
  let launched l s c := Bool.eqb (cy_load y) l && Bool.eqb (cy_store y) s && Bool.eqb (cy_comp y) c in
  let stall r w c := negb (launches y) &&
    (Bool.eqb (cy_reading y) r && Bool.eqb (cy_writing y) w && Bool.eqb (cy_computing y) c) in
  match k with
  | O_loadStoreComp => launched true true true
  | O_loadStore => launched true true false
  | O_loadComp => launched true false true
  | O_loadOnly => launched true false false
  | O_storeComp => launched false true true
  | O_storeOnly => launched false true false
  | O_compOnly => launched false false true
  | O_stalls => negb (launches y)
  | O_loadStoreCompStall => stall true true true
  | O_loadStoreStall => stall true true false
  | O_loadCompStall => stall true false true
  | O_loadOnlyStall => stall true false false
  | O_storeCompStall => stall false true true
  | O_storeOnlyStall => stall false true false
  | O_compOnlyStall => stall false false true
  end.

Definition count (P : Cycle → bool) (τ : list Cycle) : Z :=
  Z.of_nat (length (List.filter P τ)).

Lemma count_snoc P τ y : count P (τ ++ [y]) = count P τ + Z.b2z (P y).
Proof. unfold count. rewrite List.filter_app, length_app. simpl. destruct (P y); simpl; lia. Qed.
Lemma count_range P τ : 0 ≤ count P τ ≤ Z.of_nat (length τ).
Proof. unfold count. pose proof (List.filter_length_le P τ). lia. Qed.

Lemma occ_get_incr k j c :
  occ_get k (occ_incr j c) = if decide (k = j) then s32 (occ_get k c + 1) else occ_get k c.
Proof. by destruct k. Qed.

(** One call of [occupancy] counts the cycle in its classes and no others. *)
Lemma occupancy_keeps_stats k y li si ci c :
  0 ≤ occ_get k c < 2 ^ 31 - 1 → cy_reading y = negb (li =? 0) → cy_writing y = negb (si =? 0) →
  cy_computing y = negb (ci =? 0) →
  occ_get k (occupancy (cy_load y) (cy_store y) (cy_comp y) li si ci c)
  = occ_get k c + Z.b2z (in_class k y).
Proof.
  intros Hk Er Ew Ec. pose proof (s32_incr _ Hk) as Hs. destruct y as [l s p r w m].
  unfold occupancy, in_class, launches. cbn [cy_load cy_store cy_comp cy_reading cy_writing cy_computing] in *.
  rewrite <-Er, <-Ew, <-Ec. clear Er Ew Ec.
  destruct l, s, p; [..|destruct r, w, m]; rewrite !occ_get_incr; destruct k;
    repeat first [rewrite decide_True by done | rewrite decide_False by done];
    cbn [Bool.eqb andb orb negb Z.b2z]; rewrite ?Hs; lia.
Qed.

(** ** What the parts of a tick leave alone *)

(** The counters, the memory queues and the memory flags are as they were. *)
Record quiet (s s' : LLVMInterface) : Prop := {
  qt_occ : occ (stats s') = occ (stats s);
  qt_cycle : cycle (stats s') = cycle (stats s);
  qt_exec : execnodes (stats s') = execnodes (stats s);
  qt_load : loadOpScheduled (stats s') = loadOpScheduled (stats s);
  qt_store : storeOpScheduled (stats s') = storeOpScheduled (stats s);
  qt_running : running s' = running s;
  qt_read : readQueue (core s') = readQueue (core s);
  qt_write : writeQueue (core s') = writeQueue (core s);
}.
#[export] Instance quiet_preorder : PreOrder quiet.
Proof. split; [by split|]. intros a b c [] []. split; congruence. Qed.

Lemma quiet_core s c :
  readQueue c = readQueue (core s) → writeQueue c = writeQueue (core s) → quiet s (set_core s c).
Proof. by split. Qed.


Lemma commit_queues c p c' b : commit c p = Ok (c', b) → same_queues c c'.
Proof.
  intros H. pose proof H as H'. unfold commit in H'. apply bind_ok in H' as (x & Hx & _).
  apply node_ok in Hx. by apply (commit_ok c p c' b x).
Qed.
Lemma link_queues c id p c' : link c id p = Ok c' → same_queues c c'.
Proof. unfold link. intros H. mon. done. Qed.
#[local] Instance same_queues_preorder : PreOrder same_queues.
Proof. split; [done|]. intros a b c (?&?&?&?) (?&?&?&?). split_and!; congruence. Qed.

(** The queues [scheduleBB] does not touch. *)
Definition same_flight (c c' : Core) : Prop :=
  computeQueue c' = computeQueue c ∧ readQueue c' = readQueue c ∧ writeQueue c' = writeQueue c.
#[local] Instance same_flight_preorder : PreOrder same_flight.
Proof. split; [done|]. intros a b c (?&?&?) (?&?&?). split_and!; congruence. Qed.
Lemma same_queues_flight c c' : same_queues c c' → same_flight c c'.
Proof. by intros (?&?&?&?). Qed.

Lemma link_opt_flight c id p c' : link_opt c id p = Ok c' → same_flight c c'.
Proof.
  destruct p; simpl; [|by intros [= <-]]. intros H. by apply same_queues_flight, (link_queues c id n).
Qed.

Lemma depLoop_flight id deps : ∀ c j c', depLoop c id deps j = Ok c' → same_flight c c'.
Proof.
  induction deps as [|[r|] deps IH]; intros c j c' H; cbn [depLoop] in H; [by injection H as <-| |by eapply IH].
  apply bind_ok in H as (p & _ & H). apply bind_ok in H as (c1 & H1 & H). apply IH in H. etrans; [|exact H].
  destruct p; [by eapply same_queues_flight, link_queues|]. mon. done.
Qed.

Lemma gepBase_flight c id c' : gepBase c id = Ok c' → same_flight c c'.
Proof.
  unfold gepBase. intros H. apply bind_ok in H as (i & _ & H). destruct (cls i); try done.
  apply bind_ok in H as (p & _ & H). destruct p; [by eapply same_queues_flight, link_queues|]. mon. done.
Qed.

Lemma scheduleNode_flight prev c x c' : scheduleNode prev c x = Ok c' → same_flight c c'.
Proof.
  unfold scheduleNode. intros H. apply bind_ok in H as (c1 & H1 & H). apply bind_ok in H as (c2 & H2 & H).
  apply bind_ok in H as (c3 & H3 & H). apply bind_ok in H as (i & _ & H). apply bind_ok in H as ([i' ds] & _ & H).
  apply depLoop_flight in H. transitivity c1; [|transitivity c2; [|transitivity c3]]; [..|done].
  - destruct (_ReturnRegister _); [|by injection H1 as <-]. apply bind_ok in H1 as (p & _ & H1).
    by apply link_opt_flight in H1.
  - destruct (String.eqb _ "load"%string); [|by injection H2 as <-]. apply bind_ok in H2 as (p & _ & H2).
    by apply link_opt_flight in H2.
  - destruct (String.eqb _ "getelementptr"%string); [|by injection H3 as <-]. by apply gepBase_flight in H3.
Qed.

Lemma scheduleNodes_flight prev nodes : ∀ c c', scheduleNodes prev c nodes = Ok c' → same_flight c c'.
Proof.
  unfold scheduleNodes. induction nodes as [|x nodes IH]; intros c c' H; cbn [foldM] in H; [by injection H as <-|].
  apply bind_ok in H as (c1 & H1 & H). etrans; [by eapply scheduleNode_flight|by eapply IH].
Qed.

Lemma scheduleBB_keeps_stats s b s' : scheduleBB s b = Ok s' → quiet s s'.
Proof.
  unfold scheduleBB. intros H. apply bind_ok in H as (bb & _ & H). destruct (_Nodes bb); [by injection H as <-|].
  apply bind_ok in H as (pb & _ & H). apply bind_ok in H as (c & (_ & ? & ?)%scheduleNodes_flight & [= <-]).
  by apply quiet_core.
Qed.

Section Engine.
Context (cfg : Config) (unlimitedFU : bool) (old : MemoryRequest).

Lemma computeNode_keeps_stats s p s' : computeNode old s p = Ok s' → quiet s s'.
Proof.
  unfold computeNode. intros H. apply bind_ok in H as (i & _ & H). apply bind_ok in H as ([[rl i'] call] & _ & H).
  destruct call; injection H as <-; by split.
Qed.
Lemma commitNode_keeps_stats s p s' b : commitNode s p = Ok (s', b) → quiet s s'.
Proof.
  unfold commitNode. intros H. apply bind_ok in H as ([c d] & (_ & _ & ? & ?)%commit_queues & [= <- <-]).
  by apply quiet_core.
Qed.
Lemma removeNode_keeps_stats s p s' : removeNode s p = Ok s' → quiet s s'.
Proof.
  unfold removeNode. intros H. apply bind_ok in H as (c & ((_ & _ & ? & ?) & _)%removeLinks_ok & [= <-]).
  by apply quiet_core.
Qed.
Lemma countFU_quiet u s fu : quiet s (countFU u s fu).
Proof. unfold countFU. by destruct u. Qed.
Lemma limitFU_quiet s fu s' ok : limitFU cfg s fu = (s', ok) → quiet s s'.
Proof. unfold limitFU. destruct (limitedFU _ _ _). by intros [= <- <-]. Qed.
Lemma erase_reservation_quiet s i : quiet s (erase_reservation s i).
Proof. by split. Qed.
Lemma mark_comp_quiet s : quiet s (mark_comp s).
Proof. by split. Qed.
Lemma count_fdiv_quiet s : quiet s (count_fdiv s).
Proof. by split. Qed.

Lemma computeLoop_keeps_stats n : ∀ s i s', computeLoop cfg unlimitedFU n s i = Ok s' → quiet s s'.
Proof.
  induction n as [|n IH]; intros s i s' H; cbn [computeLoop] in H; [by injection H as <-|].
  destruct (computeQueue (core s) !! i) as [p|]; [|by injection H as <-].
  apply bind_ok in H as (rp & _ & H). apply bind_ok in H as (r & _ & H).
  destruct (if unlimitedFU then _ else _) as [s1 ok] eqn:E.
  assert (quiet s s1) as Q1.
  { clear H. destruct unlimitedFU; [|by apply limitFU_quiet in E]. injection E as <- _. by split. }
  destruct ok; [|etrans; [exact Q1|by eapply IH]].
  apply bind_ok in H as ([s2 d] & Q2%commitNode_keeps_stats & H).
  destruct d; [|etrans; [exact Q1|etrans; [exact Q2|by eapply IH]]].
  apply bind_ok in H as (s3 & Q3%removeNode_keeps_stats & H). apply IH in H.
  etrans; [exact Q1|]. etrans; [exact Q2|]. etrans; [exact Q3|]. etrans; [|exact H]. by split.
Qed.

Lemma launchZero_keeps_stats s i p fu s' : launchZero unlimitedFU old s i p fu = Ok s' → quiet s s'.
Proof.
  unfold launchZero. intros H. apply bind_ok in H as (s1 & Q1%computeNode_keeps_stats & H).
  apply bind_ok in H as ([s2 d] & Q2%commitNode_keeps_stats & H). apply bind_ok in H as (s3 & Q3%removeNode_keeps_stats & [= <-]).
  etrans; [exact Q1|]. etrans; [exact Q2|]. etrans; [apply (countFU_quiet unlimitedFU s2 fu)|]. etrans; [apply mark_comp_quiet|].
  etrans; [exact Q3|]. apply erase_reservation_quiet.
Qed.
Lemma launchCompute_keeps_stats u s i p fu s' : launchCompute u old s i p fu = Ok s' → quiet s s'.
Proof.
  unfold launchCompute. intros H. apply bind_ok in H as (s1 & Q1%computeNode_keeps_stats & H).
  apply bind_ok in H as ([s2 d] & Q2%commitNode_keeps_stats & [= <-]).
  transitivity s1; [by destruct Q1; split|]. etrans; [exact Q2|]. etrans; [apply (countFU_quiet u s2 fu)|].
  etrans; [apply mark_comp_quiet|]. apply erase_reservation_quiet.
Qed.
Lemma launchBranch_keeps_stats s i p fu s' : launchBranch unlimitedFU old s i p fu = Ok s' → quiet s s'.
Proof.
  unfold launchBranch. intros H. apply bind_ok in H as (s1 & Q1%computeNode_keeps_stats & H).
  apply bind_ok in H as (x & _ & Q2%scheduleBB_keeps_stats).
  etrans; [apply (countFU_quiet unlimitedFU s fu)|]. transitivity s1; [by destruct Q1; split|]. by destruct Q2; split.
Qed.

(** ** The loop over the reservation table *)

(** Since the state [s0] at its beginning: a flag is set if and only if the
    queue has grown, and once the engine has stopped [execnodes] is final. *)
Record Since (s0 s : LLVMInterface) : Prop := {
  sc_occ : occ (stats s) = occ (stats s0);
  sc_cycle : cycle (stats s) = cycle (stats s0);
  sc_load : loadOpScheduled (stats s) = longer (readQueue (core s0)) (readQueue (core s));
  sc_store : storeOpScheduled (stats s) = longer (writeQueue (core s0)) (writeQueue (core s));
  sc_read : (length (readQueue (core s0)) ≤ length (readQueue (core s)))%nat;
  sc_write : (length (writeQueue (core s0)) ≤ length (writeQueue (core s)))%nat;
  sc_exec : running s = true ∨
    execnodes (stats s) = s32 (cycle (stats s0) - stalls (occ (stats s0)) - 1);
}.

Lemma since_quiet s0 s s' : Since s0 s → quiet s s' → Since s0 s'.
Proof.
  intros [] []. split; congruence.
Qed.

Lemma since_launchMem s0 s isload i p fu s' :
  Since s0 s → launchMem unlimitedFU old isload s i p fu = Ok s' → Since s0 s'.
Proof.
  intros HS H. unfold launchMem in H.
  apply bind_ok in H as (s1 & Q1%computeNode_keeps_stats & H). apply bind_ok in H as (x & _ & [= <-]).
  apply (since_quiet s0 s1).
  - eapply since_quiet; [|exact Q1]. destruct HS, isload; split; cbn in *; try done;
      rewrite ?length_app; unfold longer in *; rewrite ?length_app; simpl; try lia; symmetry; apply Nat.ltb_lt; lia.
  - etrans; [|apply erase_reservation_quiet]. etrans; [|apply (countFU_quiet unlimitedFU _ fu)]. by split.
Qed.

Lemma since_step s0 s i p s' i' :
  Since s0 s → reservationStep cfg unlimitedFU old s i p = Ok (s', i') → Since s0 s'.
Proof.
  intros HS H. unfold reservationStep in H. apply bind_ok in H as (x & _ & H).
  destruct (_ActiveParents x =? 0).
  - destruct (negb (_Terminator (st x))).
    + destruct (is_op x "load"%string); [apply bind_ok in H as (s1 & H & [= <- <-]); by eapply since_launchMem|].
      destruct (is_op x "store"%string); [apply bind_ok in H as (s1 & H & [= <- <-]); by eapply since_launchMem|].
      destruct (_MaxCycle (st x) =? 0);
        [apply bind_ok in H as (s1 & H%launchZero_keeps_stats & [= <- <-]); by eapply since_quiet|].
      destruct unlimitedFU.
      { apply bind_ok in H as (s1 & H%launchCompute_keeps_stats & [= <- <-]). by eapply since_quiet. }
      destruct (limitFU cfg s _) as [s1 ok] eqn:El. apply limitFU_quiet in El.
      destruct ok; [|injection H as <- <-; by eapply since_quiet].
      apply bind_ok in H as (s2 & H%launchCompute_keeps_stats & [= <- <-]).
      eapply since_quiet; [exact HS|]. etrans; [exact El|]. etrans; [|exact H].
      destruct (is_op x "fdiv"%string); [apply count_fdiv_quiet|done].
    + destruct (negb (is_op x "ret"%string)); [|by injection H as <- <-].
      destruct (_ <? _); [|by injection H as <- <-].
      apply bind_ok in H as (s1 & H%launchBranch_keeps_stats & [= <- <-]). by eapply since_quiet.
  - destruct (is_op x "ret"%string && Nat.eqb i 0); [|by injection H as <- <-].
    destruct (computeQueue (core s)), (readQueue (core s)) eqn:Er, (writeQueue (core s)) eqn:Ew;
      injection H as <- <-; try done.
    destruct HS. split; cbn; try done. right. congruence.
Qed.

Lemma since_loop s0 fuel : ∀ s i s',
  Since s0 s → reservationLoop cfg unlimitedFU old fuel s i = Ok s' → Since s0 s'.
Proof.
  induction fuel as [|fuel IH]; intros s i s' HS H; cbn [reservationLoop] in H;
    destruct (reservation (core s) !! i) as [p|]; try done; try by injection H as <-.
  apply bind_ok in H as ([s1 i1] & H1 & H). eapply IH; [|exact H]. by eapply since_step.
Qed.

(** ** A tick *)

Lemma tick_cycle fuel s s' b y :
  tick cfg unlimitedFU old fuel s = Ok (s', b) → running s = true → cycle_of (core s) s' = y →
  cycle (stats s') = s32 (cycle (stats s) + 1) ∧
  occ (stats s') = occupancy (cy_load y) (cy_store y) (cy_comp y)
    (Z.of_nat (length (readQueue (core s)))) (Z.of_nat (length (writeQueue (core s))))
    (Z.of_nat (length (computeQueue (core s)))) (occ (stats s)) ∧
  (running s' = true ∨ execnodes (stats s') = s32 (cycle (stats s') - stalls (occ (stats s)) - 1)).
Proof.
  intros H Hr Hy. unfold tick in H. set (s0 := tickHead cfg s) in H. cbv zeta in H.
  apply bind_ok in H as (s1 & Q1%computeLoop_keeps_stats & H). apply bind_ok in H as (s2 & H2 & H).
  apply bind_ok in H as (s3 & H3 & [= <- <-]).
  assert (Since s0 s0) as HS.
  { split; unfold s0, longer;
      cbn [tickHead stats core readQueue writeQueue running log set_core set_stats set_regs loadOpScheduled storeOpScheduled];
      rewrite ?Nat.ltb_irrefl; try done; by left. }
  assert (Since s0 s3) as HS3.
  { assert (quiet s1 s2) as Q2.
    { destruct (reservation (core s1)); [by apply scheduleBB_keeps_stats in H2|by injection H2 as <-]. }
    assert (Since s0 s2) by (eapply since_quiet; [by eapply since_quiet|exact Q2]).
    destruct (lockstep cfg && _); [by injection H3 as <-|by eapply since_loop]. }
  destruct HS3 as [Eo Ec El Es _ _ Ex]. cbn. subst y. cbn. rewrite Eo, El, Es. change (core s0) with (set_regs (core s) (resetAccess (regList (core s)))) in *.
  cbn in *. split_and!; [done|done|]. by rewrite Ec in *.
Qed.

(** ** Runs *)

(** A run and its cycles: [tick] happens while the engine is running, between
    ticks the communication interface completes loads and stores. *)
Inductive engine_run (s : LLVMInterface) : list Cycle → LLVMInterface → Prop :=
  | er_start : engine_run s [] s
  | er_tick τ fuel s1 s2 b :
      engine_run s τ s1 → running s1 = true → tick cfg unlimitedFU old fuel s1 = Ok (s2, b) →
      engine_run s (τ ++ [cycle_of (core s1) s2]) s2
  | er_read τ s1 req buf s2 :
      engine_run s τ s1 → readCommit s1 req buf = Ok s2 → engine_run s τ s2
  | er_write τ s1 req s2 :
      engine_run s τ s1 → writeCommit s1 req = Ok s2 → engine_run s τ s2.

(** The counters after the cycles [τ]. *)
Record Counted (τ : list Cycle) (s : LLVMInterface) : Prop := {
  ct_cycle : cycle (stats s) = Z.of_nat (length τ);
  ct_occ : ∀ k, occ_get k (occ (stats s)) = count (in_class k) τ;
  ct_exec : running s = true ∨ execnodes (stats s) = count launches (removelast τ);
}.

Lemma count_launches τ : Z.of_nat (length τ) - count (in_class O_stalls) τ = count launches τ.
Proof.
  induction τ as [|y τ IH] using rev_ind; [done|]. rewrite !count_snoc, length_app. simpl in *.
  destruct (launches y); simpl; lia.
Qed.

Lemma nonempty_length q : nonempty q = negb (Z.of_nat (length q) =? 0).
Proof. by destruct q. Qed.

Lemma counted_tick fuel τ s s' b :
  Counted τ s → running s = true → Z.of_nat (length τ) < 2 ^ 31 - 1 →
  tick cfg unlimitedFU old fuel s = Ok (s', b) → Counted (τ ++ [cycle_of (core s) s']) s'.
Proof.
  intros [Hc Ho _] Hr Hlen Ht. destruct (tick_cycle fuel s s' b _ Ht Hr eq_refl) as (Ec & Eo & Ex).
  rewrite Hc, s32_incr in Ec by lia. split.
  - rewrite Ec, length_app. simpl. lia.
  - intros k. rewrite Eo, occupancy_keeps_stats, Ho, count_snoc; [done| |apply nonempty_length..].
    rewrite Ho. pose proof (count_range (in_class k) τ). lia.
  - destruct Ex as [?|Ex]; [by left|right]. rewrite Ex, Ec, removelast_last.
    change (stalls (occ (stats s))) with (occ_get O_stalls (occ (stats s))). rewrite Ho.
    rewrite <-count_launches. pose proof (count_range (in_class O_stalls) τ).
    rewrite wrapS_id by (unfold inS; lia). lia.
Qed.

Lemma counted_run s τ0 τ s' :
  engine_run s τ s' → Counted τ0 s → Z.of_nat (length (τ0 ++ τ)) < 2 ^ 31 → Counted (τ0 ++ τ) s'.
Proof.
  intros Hrun HC. induction Hrun as [|τ fuel s1 s2 b _ IH Hr Ht|τ s1 req buf s2 _ IH H|τ s1 req s2 _ IH H]; intros Hlen.
  - by rewrite app_nil_r.
  - rewrite app_assoc in *. rewrite length_app in Hlen. simpl in Hlen. apply (counted_tick fuel _ s1 _ b); try done; [|lia].
    apply IH. lia.
  - specialize (IH Hlen). unfold readCommit in H. apply bind_ok in H as (c & _ & [= <-]). by destruct IH.
  - specialize (IH Hlen). unfold writeCommit in H. apply bind_ok in H as (c & _ & [= <-]). by destruct IH.
Qed.
End Engine.


(** The program of [SchedulerSpec]: the addition is launched in the first
    cycle, the multiplication waits for it. *)
Definition ex_boot : LLVMInterface * bool := Eval vm_compute in
  match initialize ex_cfg ex_old [ex_bb] ex_regs ex_stats 50 with Ok r => r | Err _ => (ex_init, false) end.
Definition ex_tick2 : LLVMInterface * bool := Eval vm_compute in
  match tick ex_cfg true ex_old 50 ex_boot.1 with Ok r => r | Err _ => (ex_init, false) end.

