(* ===== verification/IRFile.v ===== *)
(** Model of [LLVMInterface::constructBBList] in [hwacc/llvm_interface.cc]: the
    IR file is read line by line, the first function's parameters become
    registers with the values of the memory-mapped registers, and its lines
    become the basic blocks.  The file is an [std::ifstream]: the text that is
    left and the two state bits; the text itself, and the value of a global
    variable of the interface, are arguments. *)
From stdpp Require Import strings.
From S2P Require Import Prelude CppString Registers MemRequest Instructions FunctionalUnits Tokens Parser Scheduler.
From Stdlib Require Import Ascii String.

#[local] Open Scope string_scope.
#[local] Open Scope list_scope.
#[local] Open Scope Z_scope.

(** ** [std::ifstream] *)

Record ifstream := mkStream { rest : string; eofbit : bool; failbit : bool }.

Definition newline : ascii := "010"%char.

(** The text up to the next newline, what follows it, and whether there is
    one. *)
Fixpoint take_line (s : string) : string * string * bool :=
  match s with
  | EmptyString => ("", "", false)
  | String c s =>
      if Ascii.eqb c newline then ("", s, true)
      else let '(l, r, b) := take_line s in (String c l, r, b)
  end.

(** [getline(f, line)]: whether it succeeded, [line], and the stream.  On a
    stream that is not good the line is left as it is. *)
Definition getline (f : ifstream) (line : string) : bool * string * ifstream :=
  if eofbit f || failbit f then (false, line, mkStream (rest f) (eofbit f) true)
  else
    let '(l, r, nl) := take_line (rest f) in
    if nl then (true, l, mkStream r false false)
    else if String.eqb l "" then (false, "", mkStream r true true)
    else (true, l, mkStream r true false).

(** [tellg]: the position is the text after it, [None] for -1. *)
Definition tellg (f : ifstream) : option string * ifstream :=
  if eofbit f || failbit f then (None, mkStream (rest f) (eofbit f) true) else (Some (rest f), f).
Definition seekg (f : ifstream) (pos : option string) : ifstream :=
  if failbit f then mkStream (rest f) false true
  else match pos with
       | Some r => mkStream r false false
       | None => mkStream (rest f) false true
       end.

(** ** What is being built *)

Record IR := mkIR {
  ir_blocks : list BasicBlock;
  ir_regs : RegisterList;
  ir_types : TypeList;
  ir_hardware : Hardware;
}.

(** A new block at the end of the list; it is [currBB]. *)
Definition new_block (x : IR) (name : string) : IR :=
  mkIR (ir_blocks x ++ [mkBB name []]) (ir_regs x) (ir_types x) (ir_hardware x).

(** [currBB->addNode]. *)
Definition add_to_last (bs : list BasicBlock) (i : option Instruction) : list BasicBlock :=
  match i with
  | Some i => alter (fun b => mkBB (bb_Name b) (_Nodes b ++ [i])) (pred (List.length bs)) bs
  | None => bs
  end.

Section Reader.
Context (junk : Junk) (cycles : CycleCounts) (is_pipelined : bool) (getGlobalVar : Z → Z → outcome Z).

(** ** Before the function *)

Fixpoint count_commas (s : string) : Z :=
  match s with
  | EmptyString => 0
  | String c s => (if Ascii.eqb c "," then 1 else 0) + count_commas s
  end.

(** A line that starts with [%struct]. *)
Definition read_type (line : string) (x : IR) : outcome IR :=
  let pos := s32 (str_find line "=") in
  let* name := str_substr line 1 (pos - 2) in
  let* tail := if 0 <=? pos then str_substr_from line pos else Ok "" in
  let size := s32 (1 + count_commas tail) in
  Ok (mkIR (ir_blocks x) (ir_regs x) (addType (ir_types x) (mkLLVMType size name)) (ir_hardware x)).

(** The loop over the parameters in the header of the function. *)
Fixpoint params_loop (fuel : nat) (line : string) (percPos linePos paramOffset : Z) (rl : RegisterList)
    : outcome RegisterList :=
  if -1 <? percPos then
    match fuel with
    | O => Err OutOfFuel
    | S n =>
        let* (percPos, paramOffset, rl) :=
          if str_find_from line "%struct" linePos =? percPos then Ok (percPos, paramOffset, rl)
          else
            let percPos := percPos + 1 in
            let commaPos := s32 (str_find_from line "," percPos) in
            let commaPos := if commaPos <? 0 then s32 (str_find line ")") else commaPos in
            let* regName := str_substr line percPos (commaPos - percPos) in
            let* v := getGlobalVar paramOffset 8 in
            Ok (percPos, u32 (paramOffset + 8), addRegister rl (Register_new regName v)) in
        let linePos := u32 (percPos + 1) in
        params_loop n line (s32 (str_find_from line "%" linePos)) linePos paramOffset rl
    end
  else Ok rl.

(** A line that starts with [define]: the parameters, then the first block,
    whose label may be the next line. *)
Definition read_define (f : ifstream) (line : string) (x : IR) : outcome (ifstream * IR) :=
  let* rl := params_loop (S (String.length line)) line (s32 (str_find line "%")) 0 0 (ir_regs x) in
  let x := mkIR (ir_blocks x) rl (ir_types x) (ir_hardware x) in
  let (oldpos, f) := tellg f in
  let '(_, line, f) := getline f line in
  if str_find line ":" =? npos then Ok (seekg f oldpos, new_block x "0")
  else
    let* first_bb := str_substr line 0 (str_find line ":") in
    Ok (f, new_block x first_bb).

(** ** In the function *)

(** The lines of a [switch] up to the one with its closing bracket. *)
Fixpoint switch_lines (fuel : nat) (f : ifstream) (line concatLine : string) : outcome (ifstream * string) :=
  if str_find line " ]" =? npos then
    match fuel with
    | O => Err OutOfFuel
    | S n =>
        let '(_, line', f) := getline f line in
        switch_lines n f line' (String.append concatLine line)
    end
  else Ok (f, concatLine).

(** An instruction. *)
Definition read_instruction (f : ifstream) (line : string) (x : IR) : outcome (ifstream * IR) :=
  let* (f, line) :=
    if str_find line "switch" =? npos then Ok (f, line)
    else
      let* (f, concatLine) := switch_lines (S (S (String.length (rest f)))) f line "" in
      Ok (f, String.append concatLine " ]") in
  let* (fu, rl, i) := parse junk cycles (ir_types x) is_pipelined line (ir_regs x) in
  Ok (f, mkIR (add_to_last (ir_blocks x) i) rl (ir_types x) (hw_updateParsed (ir_hardware x) fu)).

(** A line of the function; [false] at its closing brace. *)
Definition read_body (f : ifstream) (line : string) (x : IR) : outcome (bool * ifstream * IR) :=
  if negb (0 <? str_find line (String newline "")) then Ok (true, f, x)
  else if str_find line "; <label>:" =? 0 then
    let labelEnd := s32 (str_find_from line " " 10) in
    let* versionCheck := str_substr line 10 (labelEnd - 10) in
    let* c := str_back versionCheck in
    let* name := if Ascii.eqb c ":" then str_substr line 10 (labelEnd - 11) else Ok versionCheck in
    Ok (true, f, new_block x name)
  else if negb (str_find line "; preds" =? npos) then
    let labelEnd := s32 (str_find line " ") in
    let* name := str_substr line 0 (labelEnd - 1) in
    Ok (true, f, new_block x name)
  else if str_find line "}" =? 0 then Ok (false, f, x)
  else
    match first_nonspace line 0 with
    | None => Ok (true, f, x)
    | Some _ => let* (f, x) := read_instruction f line x in Ok (true, f, x)
    end.

(** The [while (getline(...))]; each turn takes a character of the file. *)
Fixpoint read_loop (fuel : nat) (f : ifstream) (line : string) (inFunction : bool) (x : IR) : outcome IR :=
  match fuel with
  | O => Err OutOfFuel
  | S n =>
      let '(ok, line, f) := getline f line in
      if negb ok then Ok x
      else if negb inFunction then
        if str_find line "%struct" =? 0 then let* x := read_type line x in read_loop n f line false x
        else if str_find line "define" =? 0 then let* (f, x) := read_define f line x in read_loop n f line true x
        else read_loop n f line false x
      else
        let* (go, f, x) := read_body f line x in
        if go : bool then read_loop n f line true x else Ok x
  end.

(** The registers every program has. *)
Definition first_registers : RegisterList :=
  addRegister (addRegister RegisterList_new (Register_new "alwaysTrue" 1)) (Register_new "alwaysFalse" 0).

(** [constructBBList], with the text of the file if it can be opened.  The
    entry block it looks up at the end is the second result. *)
Definition constructBBList (file : option string) : outcome (IR * nat) :=
  match file with
  | None => Err Panic
  | Some text =>
      let* x := read_loop (S (S (String.length text))) (mkStream text false false) "" false
                  (mkIR [] first_registers [] Hardware_new) in
      let* e := findEntryBB_from (ir_blocks x) 0 in
      Ok (x, e)
  end.

(** ** Starting the engine *)

Definition set_hardware (x : Stats) (h : Hardware) : Stats :=
  mkStats (fus x) h (occ x) (loadOpScheduled x) (storeOpScheduled x) (compOpScheduled x)
    (memory_loads x) (memory_stores x) (dma_loads x) (dma_stores x) (cycle x) (execnodes x).

(** [LLVMInterface::initialize] on a file: the reader, then the first [tick]. *)
Definition boot (cfg : Config) (old : MemoryRequest) (x : Stats) (fuel : nat) (file : option string)
    : outcome (IR * (LLVMInterface * bool)) :=
  let* (ir, _) := constructBBList file in
  let* r := initialize cfg old (ir_blocks ir) (ir_regs ir) (set_hardware x (ir_hardware ir)) fuel in
  Ok (ir, r).
End Reader.
