(* ===== verification/ParserTypes.v ===== *)
(** What the parser promises of its instruction objects: every pointer is a
    register of the list, the opcode and the class agree, the dependencies are
    the operands of the class in the order its [compute] reads them, and the
    object is a template no one has linked or started.  This is the type of the
    reservation table's entries, and implies what the scheduler assumes of the
    blocks it is given. *)
From stdpp Require Import strings.
From S2P Require Import Prelude CppString CppNumber Macros Registers Instructions FunctionalUnits Tokens Parser Scheduler SchedulerInv IRFile.
From Stdlib Require Import Ascii String.

#[local] Open Scope string_scope.
#[local] Open Scope list_scope.
#[local] Open Scope Z_scope.

(** ** Typed nodes *)

(** Whether the code takes a line to define a register. *)
Definition assigns (line : string) : bool := 0 <? s32 (str_find line " = ").

Definition ptr_ok (n : nat) (p : option nat) : Prop :=
  match p with Some r => (r < n)%nat | None => True end.

(** The case of the [switch] that makes an object of a class. *)
Definition class_op (c : InstrClass) : opValue :=
  match c with
  | BadInstruction => evNotDefined
  | Br _ _ => IR_Br | Ret _ => IR_Ret | LLVMSwitch _ _ => IR_Switch
  | Add _ _ => IR_Add | Sub _ _ => IR_Sub | Mul _ _ => IR_Mul | UDiv _ _ _ => IR_UDiv | SDiv _ _ _ => IR_SDiv
  | URem _ _ _ => IR_URem | SRem _ _ _ => IR_SRem | FAdd _ _ _ => IR_FAdd | FSub _ _ _ => IR_FSub
  | FMul _ _ _ => IR_FMul | FDiv _ _ _ => IR_FDiv | FRem _ _ _ => IR_FRem
  | Shl _ _ => IR_Shl | LShr _ _ => IR_LShr | AShr _ _ => IR_AShr | And _ _ => IR_And | Or _ _ => IR_Or
  | Xor _ _ => IR_Xor
  | Trunc _ => IR_Trunc | ZExt _ => IR_ZExt | SExt _ => IR_SExt | FPToUI _ => IR_FPToUI | FPToSI _ => IR_FPToSI
  | UIToFP _ => IR_UIToFP | SIToFP _ => IR_SIToFP | FPTrunc _ => IR_FPTrunc | FPExt _ => IR_FPExt
  | PtrToInt _ => IR_PtrToInt | IntToPtr _ => IR_IntToPtr | BitCast _ => IR_BitCast
  | AddrSpaceCast _ => IR_AddrSpaceCast
  | Load _ => IR_Load | Store _ => IR_Store | GetElementPtr _ => IR_GetElementPtr
  | Phi _ => IR_PHI | Select _ => IR_Select | ICmp _ _ _ _ => IR_ICmp | FCmp _ _ _ => IR_FCmp
  end.

(** At most two register operands, which are the dependencies. *)
Definition two_operands (deps : list (option nat)) (ops : list nat) : Prop :=
  deps = Some <$> ops ∧ (List.length ops ≤ 2)%nat.

(** The shape of the data of a class against the dependencies, with [n]
    registers; [w] is the pointer that was not set. *)
Definition class_typed (w : option nat) (n : nat) (deps : list (option nat)) (c : InstrClass) : Prop :=
  match c with
  | BadInstruction => False
  | Br t unconditional =>
      if unconditional then deps = []
      else ∃ r, _Condition t = Some r ∧ deps = [Some r] ∧ List.length (_Branches t) = 2%nat
  | Ret _ => deps = []
  | LLVMSwitch t vals =>
      ∃ r, _Condition t = Some r ∧ deps = [Some r] ∧ List.length (_Branches t) = List.length vals ∧ vals ≠ []
  | Add b _ | Sub b _ | Mul b _ | UDiv b _ _ | SDiv b _ _ | URem b _ _ | SRem b _ _
  | FAdd b _ _ | FSub b _ _ | FMul b _ _ | FDiv b _ _ | FRem b _ _ => two_operands deps (_Operands b)
  | Shl w _ | LShr w _ | AShr w _ | And w _ | Or w _ | Xor w _ => two_operands deps (w_Operands w)
  | Trunc c | ZExt c | SExt c | FPToUI c | FPToSI c | UIToFP c | SIToFP c | FPTrunc c | FPExt c
  | PtrToInt c | IntToPtr c | BitCast c | AddrSpaceCast c =>
      deps = match _COperand c with Some r => [Some r] | None => [] end
  | Load l => deps = [Some (l_Pointer l)]
  | Store s =>
      (∃ v, s_Value s = Some v ∧ deps = [Some (s_Pointer s); Some v] ∧ _ImmVal s = false) ∨
      (s_Value s = w ∧ deps = [Some (s_Pointer s)])
  | GetElementPtr g =>
      deps = _Idx g ∧ List.length (_Type g) = List.length (_Idx g) ∧
      List.length (_ImmIdx g) = List.length (_Idx g) ∧ _Index g = Z.of_nat (List.length (_Idx g)) ∧ (_PtrVal g < n)%nat
  | Phi p =>
      deps = filter (fun r => is_Some r) (_PhiReg p) ∧
      List.length (_PhiVal p) = List.length (_PhiReg p) ∧ List.length (_PhiLabel p) = List.length (_PhiReg p)
  | Select s =>
      (** The condition, if it is a register, and the values that are; the
          list of values starts with an unset pointer in the first case. *)
      List.length (_ImmValues s) = 2%nat ∧ List.length (_Imm s) = 2%nat ∧ ptr_ok n (sel_Condition s) ∧
      ∃ vals, List.length vals = List.length (filter (fun b => b = false) (_Imm s)) ∧
        ((is_Some (sel_Condition s) ∧ deps = sel_Condition s :: (Some <$> vals) ∧ _RegValues s = w :: (Some <$> vals)) ∨
         (deps = Some <$> vals ∧ _RegValues s = Some <$> vals))
  | ICmp c _ _ _ | FCmp c _ _ => two_operands deps (cmp_Operands c)
  end.

(** The configured latency of a class; an [add] may count as a counter. *)
Definition class_cycles (cycles : CycleCounts) (c : InstrClass) : list Z :=
  match c with
  | BadInstruction => []
  | Br _ _ => [br_inst cycles] | Ret _ => [ret_inst cycles] | LLVMSwitch _ _ => [switch_inst cycles]
  | Add _ _ => [counter_inst cycles; add_inst cycles] | Sub _ _ => [sub_inst cycles] | Mul _ _ => [mul_inst cycles]
  | UDiv _ _ _ => [udiv_inst cycles] | SDiv _ _ _ => [sdiv_inst cycles] | URem _ _ _ => [urem_inst cycles]
  | SRem _ _ _ => [srem_inst cycles] | FAdd _ _ _ => [fadd_inst cycles] | FSub _ _ _ => [fsub_inst cycles]
  | FMul _ _ _ => [fmul_inst cycles] | FDiv _ _ _ => [fdiv_inst cycles] | FRem _ _ _ => [frem_inst cycles]
  | Shl _ _ => [shl_inst cycles] | LShr _ _ => [lshr_inst cycles] | AShr _ _ => [ashr_inst cycles]
  | And _ _ => [and_inst cycles] | Or _ _ => [or_inst cycles] | Xor _ _ => [xor_inst cycles]
  | Trunc _ => [trunc_inst cycles] | ZExt _ => [zext_inst cycles] | SExt _ => [sext_inst cycles]
  | FPToUI _ => [fptoui_inst cycles] | FPToSI _ => [fptosi_inst cycles]
  | UIToFP _ => [uitofp_inst cycles] | SIToFP _ => [uitofp_inst cycles] | FPTrunc _ => [fptrunc_inst cycles]
  | FPExt _ => [fpext_inst cycles] | PtrToInt _ => [ptrtoint_inst cycles] | IntToPtr _ => [inttoptr_inst cycles]
  | BitCast _ => [bitcast_inst cycles] | AddrSpaceCast _ => [addrspacecast_inst cycles]
  | Load _ => [load_inst cycles] | Store _ => [store_inst cycles] | GetElementPtr _ => [gep_inst cycles]
  | Phi _ => [phi_inst cycles] | Select _ => [select_inst cycles]
  | ICmp _ _ _ _ => [icmp_inst cycles] | FCmp _ _ _ => [fcmp_inst cycles]
  end.

Record node_typed (w : option nat) (cycles : CycleCounts) (n : nat) (i : Instruction) : Prop := {
  nt_ret : ptr_ok n (_ReturnRegister (st i));
  nt_deps : Forall (ptr_ok n) (_Dependencies (st i));
  nt_line : bool_decide (is_Some (_ReturnRegister (st i))) = assigns (_LLVMLine (st i));
  nt_op : op_lookup (_OpCode (st i)) = class_op (cls i);
  nt_class : class_typed w n (_Dependencies (st i)) (cls i);
  nt_term : _Terminator (st i) = match cls i with Br _ _ | Ret _ | LLVMSwitch _ _ => true | _ => false end;
  nt_ops : List.length (_Ops i) = List.length (_Dependencies (st i));
  nt_fresh : _Req i = None ∧ _Parents i = [] ∧ _Children i = [] ∧ _CurrCycle i = 0;
  nt_active : _ActiveParents i = bonus (st i);
  nt_cycles : _MaxCycle (st i) ∈ class_cycles cycles (cls i);
}.

Lemma ptr_ok_mono n n' p : (n ≤ n')%nat → ptr_ok n p → ptr_ok n' p.
Proof. destruct p; cbn; lia. Qed.
Lemma ptrs_ok_mono n n' ps : (n ≤ n')%nat → Forall (ptr_ok n) ps → Forall (ptr_ok n') ps.
Proof. intros H F. eapply Forall_impl; [exact F|]. intros p. by apply ptr_ok_mono. Qed.

Lemma class_typed_mono w n n' deps c : (n ≤ n')%nat → class_typed w n deps c → class_typed w n' deps c.
Proof.
  intros H. destruct c; cbn; auto.
  - intros (?&?&?&?&?). split_and!; auto; lia.
  - intros (?&?&?&?). split_and!; eauto using ptrs_ok_mono, ptr_ok_mono.
Qed.
Lemma node_typed_mono w cycles n n' i : (n ≤ n')%nat → node_typed w cycles n i → node_typed w cycles n' i.
Proof. intros H []. split; eauto using ptr_ok_mono, ptrs_ok_mono, class_typed_mono. Qed.

(** ** The helpers of the parser *)

Definition nregs (s : PS) : nat := List.length (_RegList (ps_list s)).

(** What a helper does to the state: the register list may grow, [new] is
    appended to the dependencies. *)
Record moved (s s' : PS) (new : list (option nat)) : Prop := {
  mv_regs : (nregs s ≤ nregs s')%nat;
  mv_deps : dependencies s' = dependencies s ++ new;
  mv_new : Forall (ptr_ok (nregs s')) new;
}.

Lemma moved_refl s : moved s s [].
Proof. split; [lia|by rewrite app_nil_r|constructor]. Qed.
Lemma moved_trans s s1 s2 a b : moved s s1 a → moved s1 s2 b → moved s s2 (a ++ b).
Proof.
  intros [H1 H2 H3] [H4 H5 H6]. split; [lia|by rewrite H5, H2, (assoc_L (++))|].
  apply Forall_app. split; [|done]. by eapply ptrs_ok_mono.
Qed.

Lemma nregs_reg_set rl p r deps : nregs (mkPS (reg_set rl p r) deps) = List.length (_RegList rl).
Proof. unfold nregs. cbn. by rewrite length_insert. Qed.

Lemma findRegister_lt rl name r : findRegister rl name = Some r → (r < List.length (_RegList rl))%nat.
Proof.
  unfold findRegister. cut (∀ l k, findRegister_from k l name = Some r → (r < k + List.length l)%nat).
  { intros H E. by apply H in E. }
  induction l as [|x l IH]; intros k; cbn; [done|]. destruct (String.eqb _ _); [intros [= <-]; lia|].
  intros H%IH. lia.
Qed.

Lemma setRegister_moved data s r s' :
  setRegister data s = Ok (r, s') → moved s s' [Some r] ∧ (r < nregs s')%nat.
Proof.
  unfold setRegister. intros H. apply bind_ok in H as (name & _ & H).
  destruct (findRegister (ps_list s) name) as [r'|] eqn:F; cbn in H; injection H as <- <-.
  - apply findRegister_lt in F. assert (r' < nregs s)%nat by done. split; [split; cbn; auto|done].
  - assert (nregs (mkPS (addRegister (ps_list s) (Register_new name 0)) (dependencies s ++ [Some (List.length (_RegList (ps_list s)))]))
      = S (nregs s)) as E by (unfold nregs; cbn; rewrite length_app; cbn; lia).
    split; [split|]; rewrite ?E; [lia|done| |unfold nregs; lia]. constructor; [cbn; unfold nregs; lia|constructor].
Qed.
Lemma set_size_moved s r t s' : set_size_at s r t = Ok s' → moved s s' [].
Proof.
  unfold set_size_at. intros H. mon. split; [by rewrite nregs_reg_set|by rewrite app_nil_r|constructor].
Qed.
Lemma set_value_moved s r v s' : set_value_at s r v = Ok s' → moved s s' [].
Proof.
  unfold set_value_at. intros H. mon. split; [by rewrite nregs_reg_set|by rewrite app_nil_r|constructor].
Qed.
Lemma ret_setSize_moved l s t s' : ret_setSize l s t = Ok s' → moved s s' [].
Proof. unfold ret_setSize. destruct (ret_reg l); [apply set_size_moved|done]. Qed.

Lemma initialize_moved l s t rt s' : initializeReturnRegister l s t = Ok (rt, s') → moved s s' [].
Proof.
  unfold initializeReturnRegister. destruct (is_arith t); intros H; mon; [|apply moved_refl].
  by eapply ret_setSize_moved.
Qed.
Lemma reg_operand_moved data ops s ops' s' :
  reg_operand data ops s = Ok (ops', s') →
  ∃ new, ops' = ops ++ new ∧ (List.length new ≤ 1)%nat ∧ moved s s' (Some <$> new).
Proof.
  unfold reg_operand. destruct (isRegister data); intros H; monp.
  - apply setRegister_moved in H0 as [H _]. by exists [n].
  - exists []. rewrite app_nil_r. split_and!; [done|cbn; lia|apply moved_refl].
Qed.
Lemma operands_moved p1 p2 s ops1 s1 ops s2 :
  reg_operand p1 [] s = Ok (ops1, s1) → reg_operand p2 ops1 s1 = Ok (ops, s2) →
  (List.length ops ≤ 2)%nat ∧ moved s s2 (Some <$> ops).
Proof.
  intros (n1&->&L1&M1)%reg_operand_moved (n2&->&L2&M2)%reg_operand_moved. cbn.
  rewrite length_app, fmap_app. split; [lia|]. by eapply moved_trans.
Qed.
Lemma setRegOperands_moved l s t ops s' :
  setRegOperands l s t = Ok (ops, s') → (List.length ops ≤ 2)%nat ∧ moved s s' (Some <$> ops).
Proof.
  unfold setRegOperands. destruct (is_arith t); intros H; monp; [by eapply operands_moved|].
  split; [cbn; lia|apply moved_refl].
Qed.

Lemma global_register_moved g s r s' :
  global_register g s = Ok (r, s') → moved s s' [Some r] ∧ (r < nregs s')%nat.
Proof.
  unfold global_register. intros H. monp. apply setRegister_moved in H1 as [M L].
  apply set_value_moved in H2 as M'. split; [by apply (moved_trans _ _ _ _ _ M M')|]. destruct M'. lia.
Qed.
Lemma conv_operand_moved l s o s' :
  conv_operand l s = Ok (o, s') → moved s s' (match o with Some r => [Some r] | None => [] end).
Proof.
  unfold conv_operand. intros H. mon. destruct (isRegister _); monp; [|apply moved_refl].
  by apply setRegister_moved in H1 as [? _].
Qed.
Lemma newRegister_moved s name r rl :
  newRegister (ps_list s) name = (r, rl) → moved s (mkPS rl (dependencies s)) [] ∧ (r < List.length (_RegList rl))%nat.
Proof.
  unfold newRegister. intros [= <- <-].
  split; [split; unfold nregs; cbn; rewrite ?length_app, ?app_nil_r; [lia|done|constructor]|].
  cbn. rewrite length_app. cbn. lia.
Qed.
Lemma gep_base_moved l s k f r b s' : gep_base l s k f = Ok (r, b, s') → moved s s' [] ∧ (r < nregs s')%nat.
Proof.
  unfold gep_base. intros H. mon. destruct (contains_str _ _).
  - mon. destruct (newRegister _ _) as [r' rl] eqn:E. apply newRegister_moved in E as [M L]. monp.
    apply set_value_moved in H3 as M'. split; [by apply (moved_trans _ _ _ _ _ M M')|].
    destruct M' as [M' _ _]. unfold nregs in *. cbn in *. lia.
  - mon. destruct (findRegister _ _) eqn:F; monp.
    + apply findRegister_lt in F. split; [apply moved_refl|done].
    + destruct (newRegister _ _) as [r' rl] eqn:E. apply newRegister_moved in E as [M L]. monp. done.
Qed.

Lemma gep_loop_moved fuel ps k ty idx immdx s ty' idx' immdx' s' :
  gep_loop fuel ps k ty idx immdx s = Ok (ty', idx', immdx', s') →
  ∃ t i m, ty' = ty ++ t ∧ idx' = idx ++ i ∧ immdx' = immdx ++ m ∧
    List.length t = List.length i ∧ List.length m = List.length i ∧ moved s s' i.
Proof.
  revert k ty idx immdx s. induction fuel as [|fuel IH]; intros k ty idx immdx s; cbn;
    (destruct (k <=? last_ ps); [|intros H; monp; exists [], [], []; rewrite !app_nil_r; split_and!; try done; apply moved_refl]).
  { done. }
  intros H. mon. destruct (isRegister _).
  - monp. apply setRegister_moved in H2 as [M _].
    apply IH in H as (t&i&m&->&->&->&?&?&M').
    eexists (_ :: t), (_ :: i), (_ :: m). rewrite <-!(assoc_L (++)). split_and!; [done|done|done|cbn; lia|cbn; lia|].
    by apply (moved_trans _ _ _ _ _ M M').
  - apply IH in H as (t&i&m&->&->&->&?&?&M').
    eexists (_ :: t), (_ :: i), (_ :: m). rewrite <-!(assoc_L (++)). split_and!; [done|done|done|cbn; lia|cbn; lia|].
    refine (moved_trans _ _ _ [None] _ _ M'). split; [done|done|]. by repeat constructor.
Qed.

Lemma phi_loop_moved ps pv pr pl s pv' pr' pl' s' :
  phi_loop ps pv pr pl s = Ok (pv', pr', pl', s') →
  ∃ v r lb, pv' = pv ++ v ∧ pr' = pr ++ r ∧ pl' = pl ++ lb ∧ List.length v = List.length r ∧
    List.length lb = List.length r ∧ moved s s' (filter (fun x => is_Some x) r).
Proof.
  revert pv pr pl s. induction ps as [|p ps IH]; intros pv pr pl s; cbn; intros H.
  { monp. exists [], [], []. rewrite !app_nil_r. split_and!; try done. apply moved_refl. }
  monp. destruct (isRegister _).
  - monp. apply setRegister_moved in H1 as [M _].
    apply IH in H as (t&i&m&->&->&->&?&?&M').
    eexists (_ :: t), (_ :: i), (_ :: m). rewrite <-!(assoc_L (++)). split_and!; [done|done|done|cbn; lia|cbn; lia|].
    rewrite filter_cons, decide_True by done. by apply (moved_trans _ _ _ _ _ M M').
  - apply IH in H as (t&i&m&->&->&->&?&?&M').
    eexists (_ :: t), (_ :: i), (_ :: m). rewrite <-!(assoc_L (++)). split_and!; [done|done|done|cbn; lia|cbn; lia|].
    rewrite filter_cons, decide_False; [done|]. by intros [? ?].
Qed.

Lemma switch_loop_length n p loc bs vs bs' vs' :
  switch_loop n p loc bs vs = Ok (bs', vs') → List.length bs = List.length vs → vs ≠ [] →
  List.length bs' = List.length vs' ∧ vs' ≠ [].
Proof.
  revert loc bs vs. induction n as [|n IH]; intros loc bs vs; cbn; intros H; [by monp|].
  mon. intros E Hne. apply IH in H; [done| |by destruct vs]. rewrite !length_app. cbn. lia.
Qed.

(** ** The cases *)

Lemma op_lookup_In s o : op_lookup s = o → o ≠ evNotDefined → In (s, o) switch_opMap.
Proof.
  unfold op_lookup. destruct (find _ _) as [[t o']|] eqn:F; [|by intros <-].
  intros <- _. apply find_some in F as [Hin E%String.eqb_eq]. cbn in E. by subst.
Qed.
(** The opcode that names a case is the only one. *)
Lemma op_lookup_key s o t : op_lookup s = o → o ≠ evNotDefined →
  forallb (fun e => match decide (e.2 = o) with left _ => String.eqb e.1 t | right _ => true end) switch_opMap = true → s = t.
Proof.
  intros E N F. apply op_lookup_In in E; [|done].
  rewrite forallb_forall in F. specialize (F _ E). cbn in F. by destruct (decide (o = o)); [apply String.eqb_eq in F|].
Qed.

Section Typing.
Context (junk : Junk) (cycles : CycleCounts) (typeList : TypeList) (is_pipelined : bool).

(** The line before its case is run. *)
Record line_typed (l : Line) (s : PS) : Prop := {
  lt_ret : ptr_ok (nregs s) (ret_reg l);
  lt_deps : dependencies s = [];
  lt_line : bool_decide (is_Some (ret_reg l)) = assigns (lineCpy l);
}.

Definition result_typed (s : PS) (r : Parsed) : Prop :=
  (nregs s ≤ List.length (_RegList r.1.2))%nat ∧
  match r.2 with Some i => node_typed (junk_reg junk) cycles (List.length (_RegList r.1.2)) i | None => True end.

Definition is_term (c : InstrClass) : bool :=
  match c with Br _ _ | Ret _ | LLVMSwitch _ _ => true | _ => false end.

Lemma not_ret s : op_lookup s ≠ IR_Ret → String.eqb s "ret" = false.
Proof. intros H. destruct (String.eqb_spec s "ret") as [->|]; [by destruct H|done]. Qed.

(** A node of any class but [Ret]. *)
Lemma new_typed l s s' new rt it mc fu term raw c :
  line_typed l s → moved s s' new → op_lookup (opCode l) = class_op c → class_op c ≠ IR_Ret → term = is_term c →
  mc ∈ class_cycles cycles c →
  class_typed (junk_reg junk) (nregs s') new c →
  node_typed (junk_reg junk) cycles (nregs s') (InstructionBase_new (junk_int junk) (base_args l s' rt it mc) fu term raw c).
Proof.
  intros [Hr Hd Hl] [M D N] E NR -> Hmc C. rewrite Hd in D. cbn in D.
  split; cbn; rewrite ?D; try done; [by eapply ptr_ok_mono|by rewrite length_replicate|].
  unfold bonus. cbn. by rewrite not_ret by congruence.
Qed.
Lemma ret_typed l s rt it :
  line_typed l s → op_lookup (opCode l) = IR_Ret → node_typed (junk_reg junk) cycles (nregs s) (Ret_new (junk_int junk) (base_args l s rt it (ret_inst cycles))).
Proof.
  intros [Hr Hd Hl] E. split; cbn; rewrite ?Hd; try done; try constructor.
  unfold bonus. cbn. apply (op_lookup_key _ _ "ret") in E; [|done|by vm_compute]. by rewrite E.
Qed.
Lemma staged_typed n i i' : staged is_pipelined i = Ok i' → node_typed (junk_reg junk) cycles n i → node_typed (junk_reg junk) cycles n i'.
Proof.
  unfold staged, pipelined. destruct is_pipelined; [|by intros [= <-]].
  destruct (_ =? 0); [done|]. intros [= <-] []. by split.
Qed.

Lemma node_result s s' fu i new :
  moved s s' new → node_typed (junk_reg junk) cycles (nregs s') i → ∀ r, add_node s' fu i = Ok r → result_typed s r.
Proof. intros [] H r [= <-]. by split. Qed.
Lemma no_node_result s s' new : moved s s' new → ∀ r, no_node s' = Ok r → result_typed s r.
Proof. intros [] r [= <-]. by split. Qed.

End Typing.

(** Composes the steps of the helpers into one. *)
Ltac helper :=
  match goal with
  | H : setRegister _ _ = Ok _ |- _ => apply setRegister_moved in H; destruct H
  | H : set_size_at _ _ _ = Ok _ |- _ => apply set_size_moved in H
  | H : set_value_at _ _ _ = Ok _ |- _ => apply set_value_moved in H
  | H : ret_setSize _ _ _ = Ok _ |- _ => apply ret_setSize_moved in H
  | H : initializeReturnRegister _ _ _ = Ok _ |- _ => apply initialize_moved in H
  | H : setRegOperands _ _ _ = Ok _ |- _ => apply setRegOperands_moved in H; destruct H
  | H : reg_operand ?p1 [] _ = Ok (_, ?s1), H' : reg_operand ?p2 _ ?s1 = Ok _ |- _ =>
      destruct (operands_moved _ _ _ _ _ _ _ H H'); clear H H'
  | H : global_register _ _ = Ok _ |- _ => apply global_register_moved in H; destruct H
  | H : conv_operand _ _ = Ok _ |- _ => apply conv_operand_moved in H
  | H : gep_base _ _ _ _ = Ok _ |- _ => apply gep_base_moved in H; destruct H
  | H : moved ?s ?s1 ?a, H' : moved ?s1 ?s2 ?b |- _ =>
      let M := fresh "M" in
      pose proof (moved_trans _ _ _ _ _ H H') as M; cbn [app] in M; pose proof (mv_regs _ _ _ H'); clear H H'
  end.
Ltac helpers := repeat helper.

(** Closes a case whose node is not a [Ret], leaving the shape of its data. *)
Ltac finish L E :=
  match goal with
  | M : moved _ ?s' _, H : add_node ?s' _ _ = Ok _ |- _ =>
      eapply node_result; [exact M| |exact H];
      eapply new_typed; [exact L|exact M|exact E|done|done|cbn; repeat case_match; set_solver|cbn]
  end.

Lemma int_case_typed junk cycles l s r :
  line_typed l s →
  match op_lookup (opCode l) with
  | IR_Add => parse_Add junk cycles l s | IR_Sub => parse_Sub junk cycles l s | IR_Mul => parse_Mul junk cycles l s
  | IR_UDiv => parse_UDiv junk cycles l s | IR_SDiv => parse_SDiv junk cycles l s
  | IR_URem => parse_URem junk cycles l s | IR_SRem => parse_SRem junk cycles l s
  | IR_Shl => parse_Shl junk cycles l s | IR_LShr => parse_LShr junk cycles l s | IR_AShr => parse_AShr junk cycles l s
  | IR_And => parse_And junk cycles l s | IR_Or => parse_Or junk cycles l s | IR_Xor => parse_Xor junk cycles l s
  | _ => Err Undefined
  end = Ok r → result_typed junk cycles s r.
Proof.
  intros L H. destruct (op_lookup (opCode l)) eqn:E; try done;
    (cbv beta zeta delta [parse_Add parse_Sub parse_Mul parse_UDiv parse_SDiv parse_URem parse_SRem parse_Shl parse_LShr
       parse_AShr parse_And parse_Or parse_Xor] in H; monp; helpers; finish L E; done).
Qed.

Lemma fp_case_typed junk cycles is_pipelined l s r :
  line_typed l s →
  match op_lookup (opCode l) with
  | IR_FAdd => parse_FAdd junk cycles is_pipelined l s | IR_FSub => parse_FSub junk cycles is_pipelined l s
  | IR_FMul => parse_FMul junk cycles is_pipelined l s | IR_FDiv => parse_FDiv junk cycles is_pipelined l s
  | IR_FRem => parse_FRem junk cycles is_pipelined l s
  | _ => Err Undefined
  end = Ok r → result_typed junk cycles s r.
Proof.
  intros L H. destruct (op_lookup (opCode l)) eqn:E; try done;
    (cbv beta zeta delta [parse_FAdd parse_FSub parse_FMul parse_FDiv parse_FRem] in H; monp; helpers;
     match goal with
     | M : moved _ ?s' _, S : staged _ _ = Ok _, H : add_node ?s' _ _ = Ok _ |- _ =>
         eapply node_result; [exact M| |exact H]; eapply staged_typed; [exact S|];
         eapply new_typed; [exact L|exact M|exact E|done|done|cbn; repeat case_match; set_solver|done]
     end).
Qed.

Lemma conv_case_typed junk cycles l s r :
  line_typed l s →
  match op_lookup (opCode l) with
  | IR_Trunc => parse_Trunc junk cycles l s | IR_ZExt => parse_ZExt junk cycles l s
  | IR_SExt => parse_SExt junk cycles l s | IR_FPToUI => parse_FPToUI junk cycles l s
  | IR_FPToSI => parse_FPToSI junk cycles l s | IR_UIToFP => parse_UIToFP junk cycles l s
  | IR_SIToFP => parse_SIToFP junk cycles l s | IR_FPTrunc => parse_FPTrunc junk cycles l s
  | IR_FPExt => parse_FPExt junk cycles l s | IR_PtrToInt => parse_PtrToInt junk cycles l s
  | IR_IntToPtr => parse_IntToPtr junk cycles l s | IR_BitCast => parse_BitCast junk cycles l s
  | IR_AddrSpaceCast => parse_AddrSpaceCast junk cycles l s
  | _ => Err Undefined
  end = Ok r → result_typed junk cycles s r.
Proof.
  intros L H. destruct (op_lookup (opCode l)) eqn:E; try done;
    (cbv beta zeta delta [parse_Trunc parse_ZExt parse_SExt parse_FPToUI parse_FPToSI parse_UIToFP parse_SIToFP
       parse_FPTrunc parse_FPExt parse_PtrToInt parse_IntToPtr parse_BitCast parse_AddrSpaceCast] in H;
     monp; helpers; finish L E; done).
Qed.

Lemma cmp_case_typed junk cycles l s r :
  line_typed l s →
  match op_lookup (opCode l) with
  | IR_ICmp => parse_ICmp junk cycles l s | IR_FCmp => parse_FCmp junk cycles l s
  | _ => Err Undefined
  end = Ok r → result_typed junk cycles s r.
Proof.
  intros L H. destruct (op_lookup (opCode l)) eqn:E; try done;
    (cbv beta zeta delta [parse_ICmp parse_FCmp] in H; monp; helpers; finish L E; done).
Qed.

Lemma term_case_typed junk cycles l s r :
  line_typed l s →
  match op_lookup (opCode l) with
  | IR_Br => parse_Br junk cycles l s | IR_Switch => parse_Switch junk cycles l s
  | IR_Ret => parse_Ret junk cycles l s
  | _ => Err Undefined
  end = Ok r → result_typed junk cycles s r.
Proof.
  intros L H. destruct (op_lookup (opCode l)) eqn:E; try done.
  - unfold parse_Ret in H. mon. eapply node_result; [exact (moved_refl s)| |exact H]. by apply ret_typed.
  - unfold parse_Br in H. pose proof (moved_refl s) as M0. destruct (_ =? 3)%nat; monp; helpers; finish L E; [done|].
    eauto.
  - unfold parse_Switch in H. monp.
    match goal with S : switch_loop _ _ _ _ _ = Ok _ |- _ =>
      apply switch_loop_length in S as [? ?]; [|done|done] end.
    helpers. finish L E. eauto.
Qed.

Lemma load_typed junk cycles l s r :
  line_typed l s → op_lookup (opCode l) = IR_Load → parse_Load junk cycles l s = Ok r → result_typed junk cycles s r.
Proof.
  intros L E H. unfold parse_Load in H. mon. destruct (contains_str _ _); [|destruct (isRegister _)]; monp; helpers;
    finish L E; done.
Qed.
Lemma store_typed junk cycles l s r :
  line_typed l s → op_lookup (opCode l) = IR_Store → parse_Store junk cycles l s = Ok r → result_typed junk cycles s r.
Proof.
  intros L E H. unfold parse_Store in H. monp.
  destruct (contains_str _ _); [|destruct (isRegister x1)]; monp; destruct (isRegister _); monp;
    try (destruct (Ascii.eqb _ "i"); monp); helpers; finish L E; naive_solver.
Qed.

Lemma gep_header_moved l s pty rt ptr k s' :
  gep_header l s = Ok (pty, rt, ptr, k, s') → moved s s' [] ∧ (ptr < nregs s')%nat.
Proof.
  unfold gep_header. intros H. mon. destruct (String.eqb _ _); monp; by apply gep_base_moved in H1 || apply gep_base_moved in H2.
Qed.
Lemma gep_global_moved l s ptr b s' : gep_global l s ptr = Ok (b, s') → moved s s' [].
Proof.
  unfold gep_global. intros H. mon. destruct (reg_Global _); [destruct (ret_reg l)|]; monp; [|apply moved_refl].
  split; [by rewrite nregs_reg_set|by rewrite app_nil_r|constructor].
Qed.

Lemma gep_typed junk cycles typeList l s r :
  line_typed l s → op_lookup (opCode l) = IR_GetElementPtr →
  parse_GetElementPtr junk cycles typeList l s = Ok r → result_typed junk cycles s r.
Proof.
  intros L E H. unfold parse_GetElementPtr in H. monp.
  apply ret_setSize_moved in H0. apply gep_header_moved in H1 as [M1 Hp]. apply gep_global_moved in H2.
  apply gep_loop_moved in H4 as (t&i&m&->&->&->&?&?&M2).
  pose proof (mv_regs _ _ _ M2). pose proof (mv_regs _ _ _ H2).
  helpers. finish L E. split_and!; try done; lia.
Qed.

Lemma phi_typed junk cycles l s r :
  line_typed l s → op_lookup (opCode l) = IR_PHI → parse_PHI junk cycles l s = Ok r → result_typed junk cycles s r.
Proof.
  intros L E H. unfold parse_PHI in H. monp.
  apply phi_loop_moved in H2 as (v&p&lb&->&->&->&?&?&M). helpers. finish L E. done.
Qed.

(** An optional register operand of a [select]. *)
Lemma select_operand_moved (p : string) (rv : list (option nat)) (imm : outcome Z) s rv' v s' :
  (if isRegister p then let* (r, s) := setRegister p s in Ok (rv ++ [Some r], 0, s)
   else let* n := imm in Ok (rv, n, s)) = Ok (rv', v, s') →
  ∃ new : list nat, rv' = rv ++ (Some <$> new) ∧ moved s s' (Some <$> new) ∧
    List.length new = if isRegister p then 1%nat else 0%nat.
Proof.
  destruct (isRegister p); intros H; monp.
  - apply setRegister_moved in H0 as [M Hr]. by eexists [_].
  - exists []. rewrite app_nil_r. split_and!; [done|apply moved_refl|done].
Qed.

(** The condition of a [select]. *)
Lemma select_condition_moved junk (p : string) s o rv s' :
  (if isRegister p then let* (r, s) := setRegister p s in Ok (Some r, [junk_reg junk], s)
   else Ok (findRegister (ps_list s) (if String.eqb p "true" then "alwaysTrue" else "alwaysFalse"), [], s))
    = Ok (o, rv, s') →
  ∃ conds, moved s s' conds ∧ ptr_ok (nregs s') o ∧
    ((is_Some o ∧ conds = [o] ∧ rv = [junk_reg junk]) ∨ (conds = [] ∧ rv = [])).
Proof.
  destruct (isRegister p); intros H; monp.
  - apply setRegister_moved in H0 as [M Hr]. eexists. split; [exact M|]. split; [done|]. left. by split_and!.
  - exists []. split; [apply moved_refl|]. split; [|by right].
    destruct (findRegister _ _) eqn:F; [|done]. by apply findRegister_lt in F.
Qed.

Lemma select_typed junk cycles l s r :
  line_typed l s → op_lookup (opCode l) = IR_Select → parse_Select junk cycles l s = Ok r → result_typed junk cycles s r.
Proof.
  intros L E H. unfold parse_Select in H. monp. apply ret_setSize_moved in H1.
  match goal with S : context [junk_reg junk] |- _ => apply select_condition_moved in S as (conds & M1 & Ho & Hc) end.
  match goal with S : context [stol _] |- _ => apply select_operand_moved in S as (n3 & -> & M3 & L3) end.
  match goal with S : context [atol _] |- _ => apply (select_operand_moved _ _ (Ok _)) in S as (n2 & -> & M2 & L2) end.
  pose proof (mv_regs _ _ _ M2). pose proof (mv_regs _ _ _ M3).
  helpers. finish L E. cbn. split; [done|]. split; [done|]. split; [eapply ptr_ok_mono; [|exact Ho]; lia|].
  exists (n2 ++ n3). split.
  { rewrite length_app, L2, L3. by destruct (isRegister x2), (isRegister x3). }
  rewrite fmap_app. destruct Hc as [(? & -> & ->)|[-> ->]]; [left|right]; by rewrite <-?app_assoc.
Qed.

Lemma resume_typed junk cycles l s r : parse_Resume l s = Ok r → result_typed junk cycles s r.
Proof.
  unfold parse_Resume. intros H. monp. apply setRegister_moved in H2 as [M _]. by eapply no_node_result.
Qed.

Lemma parse_case_typed junk cycles typeList is_pipelined l s r :
  line_typed l s → parse_case junk cycles typeList is_pipelined l s = Ok r → result_typed junk cycles s r.
Proof.
  intros L H.
  pose proof (int_case_typed junk cycles l s r L). pose proof (fp_case_typed junk cycles is_pipelined l s r L).
  pose proof (conv_case_typed junk cycles l s r L). pose proof (cmp_case_typed junk cycles l s r L).
  pose proof (term_case_typed junk cycles l s r L).
  unfold parse_case in H. destruct (op_lookup (opCode l)) eqn:E; auto;
    solve [ by eapply no_node_result; [apply moved_refl|exact H] | by eapply resume_typed
          | by eapply load_typed | by eapply store_typed | by eapply gep_typed | by eapply phi_typed
          | by eapply select_typed ].
Qed.

(** ** Lines *)

(** The line a node came from, its return register and its type. *)
Lemma parse_typed junk cycles typeList is_pipelined line rl fu rl' i :
  parse junk cycles typeList is_pipelined line rl = Ok (fu, rl', i) →
  (List.length (_RegList rl) ≤ List.length (_RegList rl'))%nat ∧
  match i with Some i => node_typed (junk_reg junk) cycles (List.length (_RegList rl')) i | None => True end.
Proof.
  unfold parse. intros H. monp. destruct o as [name|].
  - assert (assigns line = true) as A.
    { unfold split_opcode in H0. unfold assigns. destruct (0 <? _); [done|]. destruct (first_nonspace _ _); monp. }
    assert (∃ r s ps, moved (mkPS rl []) s [] ∧ (r < nregs s)%nat ∧
      parse_case junk cycles typeList is_pipelined (mkLine line s0 (Some r) ps) s = Ok (fu, rl', i))
      as (r & s' & ps & M & Hr & C).
    { destruct (findRegister rl name) as [r|] eqn:F.
      - mon. apply findRegister_lt in F. eexists r, (mkPS rl []), _. split_and!; [apply moved_refl|exact F|exact H].
      - destruct (newRegister rl name) as [r rl1] eqn:N. mon.
        apply (newRegister_moved (mkPS rl [])) in N as [M L]. by eexists r, (mkPS rl1 []), _. }
    apply parse_case_typed in C as [C1 C2]; [|split; [exact Hr|exact (mv_deps _ _ _ M)|cbn; by rewrite A]].
    destruct M as [M _ _]. unfold nregs in *. cbn in *. split; [lia|done].
  - assert (assigns line = false) as A.
    { unfold split_opcode in H0. unfold assigns. destruct (0 <? _); [|done]. monp. }
    mon. apply parse_case_typed in H as [C1 C2]; [|split; [done|done|cbn; by rewrite A]]. by split.
Qed.

(** ** Files *)

Section Program.
Context (junk : Junk) (cycles : CycleCounts) (is_pipelined : bool) (getGlobalVar : Z → Z → outcome Z).

Definition ir_size (x : IR) : nat := List.length (_RegList (ir_regs x)).

Definition blocks_typed (n : nat) (bs : list BasicBlock) : Prop :=
  Forall (fun b => Forall (node_typed (junk_reg junk) cycles n) (_Nodes b)) bs.

(** A step of the reader: the registers stay, the nodes stay typed. *)
Definition reads_to (x x' : IR) : Prop :=
  (ir_size x ≤ ir_size x')%nat ∧
  (blocks_typed (ir_size x) (ir_blocks x) → blocks_typed (ir_size x') (ir_blocks x')).

#[local] Instance reads_to_preorder : PreOrder reads_to.
Proof. split; [done|]. intros x y z [? ?] [? ?]. split; [lia|auto]. Qed.

Lemma blocks_typed_mono n n' bs : (n ≤ n')%nat → blocks_typed n bs → blocks_typed n' bs.
Proof.
  intros H F. eapply Forall_impl; [exact F|]. intros b Fb. eapply Forall_impl; [exact Fb|].
  intros i. by apply node_typed_mono.
Qed.
Lemma add_to_last_typed n bs i :
  blocks_typed n bs → match i with Some i => node_typed (junk_reg junk) cycles n i | None => True end → blocks_typed n (add_to_last bs i).
Proof.
  intros F T. destruct i as [i|]; [|done]. unfold add_to_last.
  apply Forall_lookup. intros k b Hk. unfold blocks_typed in F. rewrite Forall_lookup in F.
  destruct (decide (pred (List.length bs) = k)) as [<-|N].
  - rewrite list_lookup_alter_eq in Hk. apply fmap_Some in Hk as (b0 & Hb & ->). cbn.
    apply Forall_app. split; [by eapply F|by constructor].
  - rewrite list_lookup_alter_ne in Hk by done. by eapply F.
Qed.
Lemma new_block_reads x name : reads_to x (new_block x name).
Proof. split; [done|]. intros F. apply Forall_app. split; [done|]. by repeat constructor. Qed.

Lemma params_loop_grows fuel line pp lp off rl rl' :
  params_loop getGlobalVar fuel line pp lp off rl = Ok rl' → (List.length (_RegList rl) ≤ List.length (_RegList rl'))%nat.
Proof.
  revert pp lp off rl. induction fuel as [|fuel IH]; intros pp lp off rl; cbn; (destruct (-1 <? pp); [|by intros [= <-]]);
    [done|]. intros H. monp. apply IH in H. destruct (_ =? pp); monp; [done|]. cbn in H. rewrite length_app in H. lia.
Qed.
Lemma read_type_reads line x x' : read_type line x = Ok x' → reads_to x x'.
Proof. unfold read_type. intros H. mon. by split. Qed.
Lemma read_define_reads f line x f' x' : read_define getGlobalVar f line x = Ok (f', x') → reads_to x x'.
Proof.
  unfold read_define. intros H. mon. apply params_loop_grows in H0.
  assert (reads_to x (mkIR (ir_blocks x) x0 (ir_types x) (ir_hardware x))) as R.
  { split; [done|]. intros F. by eapply blocks_typed_mono. }
  destruct (tellg f) as [pos f1]. destruct (getline f1 line) as [[ok l] f2].
  destruct (_ =? npos); monp; (etransitivity; [exact R|apply new_block_reads]).
Qed.
Lemma read_instruction_reads f line x f' x' :
  read_instruction junk cycles is_pipelined f line x = Ok (f', x') → reads_to x x'.
Proof.
  unfold read_instruction. intros H. monp. apply parse_typed in H1 as [H1 H2]. split; [done|]. cbn.
  intros F. apply add_to_last_typed; [by eapply blocks_typed_mono|done].
Qed.
Lemma read_body_reads f line x go f' x' :
  read_body junk cycles is_pipelined f line x = Ok (go, f', x') → reads_to x x'.
Proof.
  unfold read_body. intros H.
  destruct (negb _); [by monp|]. destruct (_ =? 0); [monp; apply new_block_reads|].
  destruct (negb _); [monp; apply new_block_reads|]. destruct (_ =? 0); [by monp|].
  destruct (first_nonspace _ _); [|by monp]. apply bind_ok in H as ([f1 x1] & H & [= _ <- <-]).
  by eapply read_instruction_reads.
Qed.
Lemma read_loop_reads fuel f line inF x x' :
  read_loop junk cycles is_pipelined getGlobalVar fuel f line inF x = Ok x' → reads_to x x'.
Proof.
  revert f line inF x. induction fuel as [|fuel IH]; intros f line inF x; cbn; [done|].
  destruct (getline f line) as [[ok l] f1]. destruct (negb ok); [by intros [= <-]|].
  destruct (negb inF).
  - destruct (_ =? 0); [intros H; mon; etransitivity; [by eapply read_type_reads|by eapply IH]|].
    destruct (_ =? 0); [|by apply IH].
    intros H. apply bind_ok in H as ([f2 x2] & H0 & H). apply read_define_reads in H0. etransitivity; [exact H0|by eapply IH].
  - intros H. monp. apply read_body_reads in H0. destruct b; [etransitivity; [done|by eapply IH]|by mon].
Qed.
Lemma findEntryBB_from_ok bs k e :
  findEntryBB_from bs k = Ok e → ∃ b, bs !! (e - k)%nat = Some b ∧ (k ≤ e)%nat ∧ isEmpty b = false.
Proof.
  revert k. induction bs as [|b bs IH]; intros k; cbn; [done|]. destruct (isEmpty b) eqn:E.
  - intros (b' & ? & ? & ?)%IH. exists b'. replace (e - k)%nat with (S (e - S k)) by lia. split_and!; [done|lia|done].
  - intros [= <-]. exists b. by rewrite Nat.sub_diag.
Qed.

Lemma constructBBList_typed file x e :
  constructBBList junk cycles is_pipelined getGlobalVar file = Ok (x, e) →
  blocks_typed (ir_size x) (ir_blocks x) ∧ ∃ b, ir_blocks x !! e = Some b ∧ isEmpty b = false.
Proof.
  unfold constructBBList. destruct file as [text|]; [|done]. intros H. monp. split.
  - apply read_loop_reads in H0 as [_ H0]. apply H0. constructor.
  - apply findEntryBB_from_ok in H1 as (b & Hb & _ & E). rewrite Nat.sub_0_r in Hb. by exists b.
Qed.
End Program.
