(* ===== verification/ParserRoundTrip.v ===== *)
(** A printer for the lines of integer operations, and what the parser makes of
    its output: the object has the operands, the constant and the types that
    were printed. *)
From stdpp Require Import strings.
From S2P Require Import Prelude CppString CppNumber Macros Registers Instructions FunctionalUnits Tokens Parser Scheduler SchedulerInv IRFile TokensSpec ParserTypes.
From Stdlib Require Import Ascii String.

#[local] Open Scope string_scope.
#[local] Open Scope list_scope.
#[local] Open Scope Z_scope.

(** ** Numbers *)

Lemma digit_of_char d : 0 ≤ d < 10 → digit_of (digit_char d) = Some d.
Proof.
  intros H. assert (d = 0 ∨ d = 1 ∨ d = 2 ∨ d = 3 ∨ d = 4 ∨ d = 5 ∨ d = 6 ∨ d = 7 ∨ d = 8 ∨ d = 9) as Hd by lia.
  destruct_or! Hd; subst; reflexivity.
Qed.

Lemma digits_dec fuel n acc b : 0 ≤ n < 2 ^ Z.of_nat fuel → digits 0 b (dec_loop fuel n acc) = digits n true acc ∨ fuel = O.
Proof.
  revert n acc b. induction fuel as [|fuel IH]; intros n acc b Hn; [by right|left]. cbn [dec_loop].
  pose proof (Z.mod_pos_bound n 10 ltac:(lia)) as Hm. destruct (Z.ltb_spec n 10).
  - cbn [digits]. rewrite digit_of_char, Z.mod_small by lia. f_equal.
  - rewrite Nat2Z.inj_succ, Z.pow_succ_r in Hn by lia.
    assert (0 ≤ n / 10 < 2 ^ Z.of_nat fuel) as Hq by (split; [apply Z.div_pos; lia|apply Z.div_lt_upper_bound; lia]).
    destruct (IH (n / 10) (String (digit_char (n mod 10)) acc) b Hq) as [E | ->].
    + rewrite E. cbn [digits]. rewrite digit_of_char by lia. f_equal. pose proof (Z.div_mod n 10). lia.
    + cbn in Hq. pose proof (Z.div_le_mono 10 n 10 ltac:(lia) ltac:(lia)). change (10 / 10) with 1 in *. lia.
Qed.

(** All characters satisfy [P]. *)
Fixpoint all_chars (P : ascii → bool) (s : string) : bool :=
  match s with EmptyString => true | String c s => P c && all_chars P s end.

Definition is_digit (c : ascii) : bool := bool_decide (is_Some (digit_of c)).

Lemma dec_loop_digits fuel n acc : 0 ≤ n → all_chars is_digit acc = true → all_chars is_digit (dec_loop fuel n acc) = true.
Proof.
  revert n acc. induction fuel as [|fuel IH]; intros n acc Hn Ha; [done|]. cbn [dec_loop].
  pose proof (Z.mod_pos_bound n 10 ltac:(lia)).
  assert (all_chars is_digit (String (digit_char (n mod 10)) acc) = true).
  { cbn. rewrite Ha, andb_true_r. unfold is_digit. rewrite digit_of_char by lia. done. }
  destruct (n <? 10); [done|]. apply IH; [apply Z.div_pos; lia|done].
Qed.
Lemma dec_digits n : 0 ≤ n → all_chars is_digit (dec n) = true.
Proof. intros H. by apply dec_loop_digits. Qed.

Lemma dec_value n b : 0 ≤ n → digits 0 b (dec n) = (n, true).
Proof.
  intros Hn. unfold dec. destruct (digits_dec (S (Z.to_nat (Z.log2 n))) n "" b) as [E|E]; [|done|done].
  rewrite Nat2Z.inj_succ, Z2Nat.id by apply Z.log2_nonneg. destruct (Z.eq_dec n 0) as [->|]; [cbn; lia|].
  pose proof (Z.log2_spec n ltac:(lia)). lia.
Qed.
Lemma dec_loop_nonempty f m d s : dec_loop f m (String d s) ≠ "".
Proof. revert m d s. induction f as [|f IH]; intros m d s; cbn [dec_loop]; [done|]. destruct (m <? 10); [done|]. apply IH. Qed.
Lemma dec_nonempty n : dec n ≠ "".
Proof. unfold dec. cbn [dec_loop]. destruct (n <? 10); [done|]. apply dec_loop_nonempty. Qed.

Lemma digit_plain c : is_digit c = true → is_space c = false ∧ Ascii.eqb c "-" = false ∧ Ascii.eqb c "+" = false.
Proof.
  unfold is_digit, digit_of, is_space. set (n := Z.of_nat (nat_of_ascii c)). intros H.
  destruct ((48 <=? n) && (n <=? 57)) eqn:E; [|by apply bool_decide_eq_true in H as [? ?]]. zbool. split.
  - apply orb_false_iff. split; [by apply Z.eqb_neq; lia|]. apply andb_false_iff. right. apply Z.leb_gt. lia.
  - split; apply Ascii.eqb_neq; intros ->; exact (H0 eq_refl).
Qed.

(** What is printed is read back. *)
Lemma atol_to_string n : inS 64 n → atol (to_string_int n) = n.
Proof.
  intros [Hlo Hhi]. unfold atol. assert (strtol10 (to_string_int n) = (n, true)) as ->.
  { unfold to_string_int, strtol10. destruct (Z.ltb_spec n 0).
    - change (skip_space (String.append "-" (dec (- n)))) with (String.append "-" (dec (- n))).
      change (String.append "-" (dec (- n))) with (String "-" (dec (- n))).
      cbv iota beta. rewrite Ascii.eqb_refl, dec_value by lia. f_equal. lia.
    - pose proof (dec_digits n ltac:(lia)) as D. pose proof (dec_nonempty n) as N. pose proof (dec_value n false ltac:(lia)) as V.
      destruct (dec n) as [|c s]; [done|]. cbn [all_chars] in D. apply andb_true_iff in D as [(S1 & S2 & S3)%digit_plain _].
      cbn [skip_space]. by rewrite S1, S2, S3. }
  cbn [negb]. change (64 - 1) with 63 in *. lia.
Qed.

(** ** Parameters *)

(** A parameter without a group at its start. *)
Definition word (t : string) : bool :=
  match t with
  | EmptyString => false
  | String c s =>
      match closing c with Some _ => false | None => true end &&
      negb (Ascii.eqb c "=") && negb (Ascii.eqb c "*") && all_chars (fun d => negb (separator d)) t
  end.

(** A group followed by stars, as in [[4 x i32]*]. *)
Definition group (t : string) : bool :=
  match t with
  | EmptyString => false
  | String c s =>
      match closing c with
      | Some r =>
          match close_pos c r 1 s with
          | Some m => all_chars (fun d => Ascii.eqb d "*") (str_drop (S m) s)
          | None => false
          end
      | None => false
      end
  end.

(** The delimiters in it are balanced, kind by kind. *)
Definition closed (t : string) : bool :=
  balanced "(" ")" 0 t && balanced "[" "]" 0 t && balanced "{" "}" 0 t && balanced "<" ">" 0 t.

Definition parameter (t : string) : bool := closed t && (word t || group t).

(** Parameters are printed with a space before and a comma after some. *)
Fixpoint print_params (l : list (string * bool)) : string :=
  match l with
  | [] => ""
  | (t, comma) :: l => String " " (String.append t (String.append (if comma then "," else "") (print_params l)))
  end.

Lemma balanced_app l r d k a b : l ≠ r → balanced l r d a = true →
  balanced l r (d + k) (String.append a b) = balanced l r k b.
Proof.
  intros Hlr. revert d. induction a as [|c a IH]; intros d; cbn.
  - intros ->%Nat.eqb_eq. done.
  - change (String.append (String c a) b) with (String c (String.append a b)). cbn.
    destruct (Ascii.eqb c l); [intros H; exact (IH (S d) H)|].
    destruct (Ascii.eqb c r); [destruct d as [|d]; [done|intros H; exact (IH d H)]|by apply IH].
Qed.

Lemma closed_app a b : closed a = true → closed (String.append a b) = closed b.
Proof.
  unfold closed. intros H. zbool.
  by rewrite !(balanced_app _ _ 0 0) by done.
Qed.
Lemma closed_print l : Forall (fun p => parameter p.1 = true) l → closed (print_params l) = true.
Proof.
  induction 1 as [|[t c] l Ht _ IH]; [done|]. cbn in Ht. unfold parameter in Ht. zbool. cbn [print_params].
  change (closed (String.append " " (String.append t (String.append (if c then "," else "") (print_params l)))) = true).
  rewrite !closed_app; [done|by destruct c|done|done].
Qed.
Lemma closed_kind c r t : closing c = Some r → closed t = true → balanced c r 0 t = true ∧ c ≠ r.
Proof.
  unfold closing, closed. intros Hc H. zbool.
  destruct (Ascii.eqb_spec c "(") as [->|]; [by injection Hc as <-|].
  destruct (Ascii.eqb_spec c "[") as [->|]; [by injection Hc as <-|].
  destruct (Ascii.eqb_spec c "{") as [->|]; [by injection Hc as <-|].
  destruct (Ascii.eqb_spec c "<") as [->|]; [by injection Hc as <-|done].
Qed.
Lemma close_pos_app l r d a b m : close_pos l r d a = Some m → close_pos l r d (String.append a b) = Some m.
Proof.
  revert d m. induction a as [|c a IH]; intros d m; [done|].
  change (String.append (String c a) b) with (String c (String.append a b)). cbn.
  destruct (Ascii.eqb c l); [by intros (x & ->%IH & ->)%fmap_Some|].
  destruct (Ascii.eqb c r); [|by intros (x & ->%IH & ->)%fmap_Some].
  destruct d as [|[|d]]; [done|done|by intros (x & ->%IH & ->)%fmap_Some].
Qed.
Lemma close_pos_lt l r d a m : close_pos l r d a = Some m → (m < String.length a)%nat.
Proof.
  revert d m. induction a as [|c a IH]; intros d m; cbn; [done|].
  destruct (Ascii.eqb c l); [intros (x & ?%IH & ->)%fmap_Some; lia|].
  destruct (Ascii.eqb c r); [|intros (x & ?%IH & ->)%fmap_Some; lia].
  destruct d as [|[|d]]; [done|intros [= <-]; lia|intros (x & ?%IH & ->)%fmap_Some; lia].
Qed.
Lemma str_drop_app_le n a b : (n ≤ String.length a)%nat → str_drop n (String.append a b) = String.append (str_drop n a) b.
Proof. revert a. induction n as [|n IH]; intros [|c a] H; cbn in *; try done; [lia|]. apply IH. lia. Qed.
Lemma str_take_app_le n a b : (n ≤ String.length a)%nat → str_take n (String.append a b) = str_take n a.
Proof. revert a. induction n as [|n IH]; intros [|c a] H; cbn in *; try done; [lia|]. f_equal. apply IH. lia. Qed.

Lemma till_word s b : all_chars (fun d => negb (separator d)) s = true →
  match b with EmptyString => True | String c _ => separator c = true end → till (String.append s b) = s.
Proof.
  intros H Hb. induction s as [|c s IH].
  - destruct b as [|c b]; [done|]. change (String.append "" (String c b)) with (String c b). cbn. by rewrite Hb.
  - change (String.append (String c s) b) with (String c (String.append s b)). cbn in H |- *.
    apply andb_true_iff in H as [H1%negb_true_iff H2]. rewrite H1. by rewrite IH.
Qed.

Lemma append_star_snoc ps t : append_star (ps ++ [t]) = Ok (ps ++ [String.append t "*"]).
Proof. unfold append_star. by rewrite last_snoc, removelast_last. Qed.

Lemma lex_stars b : ∀ s fuel ps t qs, all_chars (fun d => Ascii.eqb d "*") s = true →
  (String.length s ≤ fuel)%nat →
  lex (fuel - String.length s) b (ps ++ [String.append t s]) = qs → lex fuel (String.append s b) (ps ++ [t]) = qs.
Proof.
  induction s as [|c s IH]; intros fuel ps t qs H Hf E.
  - rewrite str_app_nil, Nat.sub_0_r in E. done.
  - cbn in H. apply andb_true_iff in H as [->%Ascii.eqb_eq H]. destruct fuel as [|fuel]; [cbn in Hf; lia|].
    change (String.append (String "*" s) b) with (String "*" (String.append s b)). cbn [lex closing Ascii.eqb Bool.eqb separator orb].
    cbn [String.length] in *. rewrite append_star_snoc. apply IH; [done|lia|]. by rewrite str_app_assoc.
Qed.

Lemma lex_print l : ∀ fuel ps, Forall (fun p => parameter p.1 = true) l → (String.length (print_params l) ≤ fuel)%nat →
  lex fuel (print_params l) ps = Some (ps ++ l.*1).
Proof.
  induction l as [|[t comma] l IH]; intros fuel ps F Hf; [by destruct fuel; rewrite app_nil_r|].
  apply Forall_cons in F as [Ht F]. pose proof (closed_print l F) as Cl. cbn in Ht. unfold parameter in Ht.
  apply andb_true_iff in Ht as [Ct Ht]. cbn [print_params fmap list_fmap fst] in *. cbn [String.length] in Hf.
  set (sep := if comma then "," else "") in *. set (rest := print_params l) in *.
  rewrite !str_length_app in Hf. destruct fuel as [|fuel]; [lia|]. cbn [lex closing Ascii.eqb Bool.eqb separator orb].
  assert (∀ f ps', (String.length sep + String.length rest ≤ f)%nat → lex f (String.append sep rest) ps' = Some (ps' ++ l.*1)) as A.
  { intros f ps' Hf'. destruct comma; cbn in sep; subst sep; [|by apply IH].
    destruct f as [|f]; [cbn in Hf'; lia|]. change (String.append "," rest) with (String "," rest).
    cbn [lex closing Ascii.eqb Bool.eqb separator orb]. apply IH; [done|]. cbn in Hf'. lia. }
  rewrite (cons_middle t ps), (assoc_L (++)). apply orb_true_iff in Ht as [W|G].
  - destruct t as [|c s]; [done|]. cbn [word] in W.
    change (String.append (String c s) (String.append sep rest)) with (String c (String.append s (String.append sep rest))).
    cbn [String.length] in Hf. destruct fuel as [|fuel]; [lia|]. cbn [lex].
    destruct (closing c); [done|]. cbn [andb] in W. apply andb_true_iff in W as [W Wa]. apply andb_true_iff in W as [We Ws].
    cbn [all_chars] in Wa. apply andb_true_iff in Wa as [Wc Wa].
    rewrite (proj1 (negb_true_iff _) Wc), (proj1 (negb_true_iff _) We), (proj1 (negb_true_iff _) Ws). cbn [orb].
    assert (till (String.append s (String.append sep rest)) = s) as ->.
    { apply till_word; [done|]. subst sep. destruct comma; [done|]. change (String.append "" rest) with rest.
      subst rest. by destruct l as [|[? ?] ?]. }
    assert (str_drop (S (String.length s)) (String.append s (String.append sep rest)) = str_drop 1 (String.append sep rest)) as ->.
    { replace (S (String.length s)) with (String.length s + 1)%nat by lia. by rewrite <-str_drop_drop, str_drop_app. }
    assert (lex fuel (str_drop 1 (String.append sep rest)) (ps ++ [String c s])
      = lex (S fuel) (String.append sep rest) (ps ++ [String c s])) as ->; [|apply A; lia].
    subst sep. destruct comma; [done|]. change (String.append "" rest) with rest. subst rest.
    destruct l as [|[? ?] ?]; [by destruct fuel|done].
  - destruct t as [|c s]; [done|]. cbn [group] in G. destruct (closing c) as [r|] eqn:Hc; [|done].
    destruct (close_pos c r 1 s) as [m|] eqn:Cm; [|done].
    change (String.append (String c s) (String.append sep rest)) with (String c (String.append s (String.append sep rest))).
    cbn [String.length] in Hf. destruct fuel as [|fuel]; [lia|]. cbn [lex]. rewrite Hc.
    destruct (closed_kind c r _ Hc Ct) as [B Hne]. cbn [balanced] in B. rewrite Ascii.eqb_refl in B.
    assert (closed (String.append sep rest) = true) as Cr by (rewrite closed_app; [done|by subst sep; destruct comma]).
    rewrite (balanced_app c r 1 0) by done. rewrite (proj1 (closed_kind c r _ Hc Cr)).
    rewrite (close_pos_app _ _ _ _ _ _ Cm). cbn [mbind option_bind]. pose proof (close_pos_lt _ _ _ _ _ Cm).
    rewrite str_drop_app_le, str_take_app_le by lia.
    apply lex_stars; [done|rewrite str_drop_length; lia|].
    change (String.append (String c (str_take (S m) s)) (str_drop (S m) s)) with (String c (String.append (str_take (S m) s) (str_drop (S m) s))).
    rewrite str_take_drop, str_drop_length. apply A. lia.
Qed.

(** The reader finds the printed parameters again. *)
Lemma tokenize_print l : Forall (fun p => parameter p.1 = true) l → short (print_params l) →
  tokenize (print_params l) = Ok l.*1.
Proof. intros F S. apply tokenize_ok; [done|]. by apply (lex_print l _ []). Qed.

(** ** The head of a line *)

Definition no_space (s : string) : bool := all_chars (fun c => negb (Ascii.eqb c " ")) s.

Definition print_line (result op : string) (l : list (string * bool)) : string :=
  String.append "  %" (String.append result (String.append " = " (String.append op (print_params l)))).

Lemma index_assign a t : no_space a = true →
  String.index 0 " = " (String.append a (String.append " = " t)) = Some (String.length a).
Proof.
  induction a as [|c a IH]; intros H; [by destruct t|]. unfold no_space in H. cbn in H. apply andb_true_iff in H as [H1 H2].
  change (String.append (String c a) (String.append " = " t)) with (String c (String.append a (String.append " = " t))).
  cbn [String.index]. rewrite (IH H2). cbn [String.prefix].
  destruct (ascii_dec " " c) as [<-|]; [done|]. done.
Qed.
Lemma find_assign a t : no_space a = true →
  str_find (String.append "  %" (String.append a (String.append " = " t))) " = " = Z.of_nat (3 + String.length a).
Proof.
  intros H. unfold str_find, str_find_from. rewrite (proj2 (Z.ltb_ge _ _)) by (unfold strlen; lia).
  change (Z.to_nat 0) with 0%nat. set (u := String.append a (String.append " = " t)).
  change (String.append "  %" u) with (String " " (String " " (String "%" u))).
  assert (String.index 0 " = " u = Some (String.length a)) as E by (by apply index_assign).
  cbn [String.index]. rewrite E. cbn [String.prefix]. reflexivity.
Qed.
Lemma chr_index_space a t : no_space a = true → chr_index " " (String.append a (String " " t)) = Some (String.length a).
Proof.
  induction a as [|c a IH]; intros H; [done|]. unfold no_space in H. cbn in H. apply andb_true_iff in H as [H1 H2].
  change (String.append (String c a) (String " " t)) with (String c (String.append a (String " " t))).
  cbn [chr_index]. rewrite (proj1 (negb_true_iff _) H1), (IH H2). done.
Qed.

Lemma split_print result op l : no_space result = true → no_space op = true → l ≠ [] → short (print_line result op l) →
  split_opcode (print_line result op l) = Ok (Some result, op, print_params l).
Proof.
  intros Hr Ho Hl Hs. unfold split_opcode.
  assert (str_find (print_line result op l) " = " = Z.of_nat (3 + String.length result)) as -> by (by apply find_assign).
  set (rest := String.append op (print_params l)).
  pose proof Hs as Hs'. unfold short, strlen, print_line in Hs'. rewrite !str_length_app in Hs'. fold rest in Hs'.
  cbn [String.length] in Hs'. rewrite s32_small by lia. rewrite (proj2 (Z.ltb_lt _ _)) by lia.
  assert (str_find (print_line result op l) "%" = 2) as -> by (by rewrite str_find_chr). change (2 + 1) with (Z.of_nat 3).
  replace (Z.of_nat (3 + String.length result) - 3) with (Z.of_nat (String.length result)) by lia.
  rewrite substr_ok; [|done|unfold print_line; rewrite str_length_app; cbn; lia|lia]. cbn [mbind outcome_bind].
  change (str_drop 3 (print_line result op l)) with (String.append result (String.append " = " rest)).
  rewrite str_take_app. replace (Z.of_nat (3 + String.length result) + 3) with (Z.of_nat (3 + (String.length result + 3))) by lia.
  rewrite substr_from_ok; [|done|unfold print_line; rewrite !str_length_app; cbn; lia]. cbn [mbind outcome_bind].
  rewrite <-str_drop_drop. change (str_drop 3 (print_line result op l)) with (String.append result (String.append " = " rest)).
  rewrite <-str_drop_drop, str_drop_app. change (str_drop 3 (String.append " = " rest)) with rest.
  assert (short rest) as Hsr by (subst rest; unfold short, strlen; rewrite str_length_app; lia).
  assert (chr_index " " rest = Some (String.length op)) as Ei.
  { subst rest. destruct l as [|[t c] l]; [done|]. cbn [print_params]. by apply chr_index_space. }
  rewrite str_find_chr, Ei. cbn [pos_or_npos].
  assert (String.length op ≤ String.length rest)%nat by (subst rest; rewrite str_length_app; lia).
  rewrite (substr_ok rest 0) by (done || lia). cbn [mbind outcome_bind].
  rewrite substr_from_ok by done. cbn [mbind outcome_bind str_drop]. subst rest. by rewrite str_take_app, str_drop_app.
Qed.

(** ** Registers by name *)

Definition names (rl : RegisterList) : list string := _Name <$> _RegList rl.

Lemma findRegister_name rl x p : findRegister rl x = Some p → names rl !! p = Some x.
Proof.
  unfold findRegister, names. cut (∀ l k, findRegister_from k l x = Some p → (k ≤ p)%nat ∧ (_Name <$> l) !! (p - k)%nat = Some x).
  { intros H E. apply H in E as [_ E]. by rewrite Nat.sub_0_r in E. }
  induction l as [|g l IH]; intros k; cbn; [done|]. destruct (String.eqb_spec (_Name g) x) as [<-|].
  - intros [= <-]. split; [lia|]. by rewrite Nat.sub_diag.
  - intros [H1 H2]%IH. split; [lia|]. replace (p - k)%nat with (S (p - S k)) by lia. done.
Qed.

(** The register of a name: the one there is, or a new one at the end. *)
Definition ensure (rl : RegisterList) (x : string) : nat * RegisterList :=
  match findRegister rl x with
  | None => newRegister rl x
  | Some r => (r, rl)
  end.

Lemma ensure_spec rl x p rl' : ensure rl x = (p, rl') →
  names rl' !! p = Some x ∧ _RegList rl `prefix_of` _RegList rl'.
Proof.
  unfold ensure. destruct (findRegister rl x) eqn:F.
  - intros [= <- <-]. by apply findRegister_name in F.
  - intros [= <- <-]. unfold names. cbn. rewrite fmap_app. split; [|by apply prefix_app_r].
    rewrite lookup_app_r by (by rewrite length_fmap). by rewrite length_fmap, Nat.sub_diag.
Qed.

Lemma setRegister_ensure x s : short (String "%" x) →
  setRegister (String "%" x) s
  = let (p, rl) := ensure (ps_list s) x in Ok (p, mkPS rl (dependencies s ++ [Some p])).
Proof.
  intros Hs. unfold setRegister, ensure.
  change 1 with (Z.of_nat 1). rewrite (substr_from_ok _ 1 Hs) by (cbn; lia). cbn [mbind outcome_bind str_drop].
  by destruct (findRegister (ps_list s) x).
Qed.

(** ** Integer operations *)

Inductive operand := OReg (x : string) | OInt (n : Z).

Record binop := mkBinop {
  bo_result : string;
  bo_op : string;
  bo_flags : list string;
  bo_type : string;
  bo_left : operand;
  bo_right : operand;
}.

Definition print_operand (o : operand) : string :=
  match o with OReg x => String "%" x | OInt n => to_string_int n end.

Definition binop_params (b : binop) : list (string * bool) :=
  ((fun f => (f, false)) <$> bo_flags b) ++
  [(bo_type b, false); (print_operand (bo_left b), true); (print_operand (bo_right b), false)].
Definition print_binop (b : binop) : string := print_line (bo_result b) (bo_op b) (binop_params b).

Definition int_opcodes : list string :=
  ["add"; "sub"; "mul"; "udiv"; "sdiv"; "urem"; "srem"; "shl"; "lshr"; "ashr"; "and"; "or"; "xor"].

Definition operand_ok (o : operand) : bool :=
  match o with
  | OReg x => closed x && all_chars (fun d => negb (separator d)) x
  | OInt n => (- 2 ^ 63 <=? n) && (n <? 2 ^ 63)
  end.

(** A line of LLVM's grammar for these operations. *)
Definition binop_ok (b : binop) : bool :=
  existsb (String.eqb (bo_op b)) int_opcodes && no_space (bo_result b) && forallb parameter (bo_flags b) &&
  parameter (bo_type b) && operand_ok (bo_left b) && operand_ok (bo_right b) && (strlen (print_binop b) <? 2 ^ 31).

(** The register operands, the constant and whether it comes first. *)
Definition arith (c : InstrClass) : option (list nat * Z * bool) :=
  match c with
  | Add b n | Sub b n | Mul b n | UDiv b n _ | SDiv b n _ | URem b n _ | SRem b n _ => Some (_Operands b, n, _ImmFirst b)
  | Shl w n | LShr w n | AShr w n | And w n | Or w n | Xor w n => Some (w_Operands w, n, w_ImmFirst w)
  | _ => None
  end.

Definition is_reg (o : operand) : bool := match o with OReg _ => true | OInt _ => false end.
Definition operand_names (o : operand) : list string := match o with OReg x => [x] | OInt _ => [] end.
(** The first constant, 0 if there is none. *)
Definition constant (l r : operand) : Z :=
  match l, r with OInt n, _ => n | OReg _, OInt n => n | OReg _, OReg _ => 0 end.

Lemma digits_param n : parameter (to_string_int n) = true.
Proof.
  assert (∀ s, all_chars is_digit s = true → closed s = true ∧ all_chars (fun d => negb (separator d)) s = true) as A.
  { assert (∀ c, is_digit c = true → separator c = false ∧ closing c = None ∧
      Ascii.eqb c ")" = false ∧ Ascii.eqb c "]" = false ∧ Ascii.eqb c "}" = false ∧ Ascii.eqb c ">" = false) as D.
    { intros [[] [] [] [] [] [] [] []]; vm_compute; intros; (discriminate || tauto). }
    induction s as [|c s IH]; [done|]. cbn [all_chars]. intros [Hc Hs]%andb_true_iff.
    destruct (D c Hc) as (D1 & D2 & D3 & D4 & D5 & D6). apply IH in Hs as [H1 H2].
    split; [|by rewrite D1, H2]. unfold closed, closing in *. cbn [balanced]. rewrite D3, D4, D5, D6.
    destruct (Ascii.eqb c "("); [done|]. destruct (Ascii.eqb c "["); [done|]. destruct (Ascii.eqb c "{"); [done|].
    destruct (Ascii.eqb c "<"); done. }
  unfold to_string_int, parameter. destruct (Z.ltb_spec n 0).
  - pose proof (dec_digits (- n) ltac:(lia)) as D. apply A in D as [D1 D2].
    change (String.append "-" (dec (- n))) with (String "-" (dec (- n))). unfold closed. cbn [balanced]. 
    change (balanced "(" ")" 0 (dec (- n)) && balanced "[" "]" 0 (dec (- n)) && balanced "{" "}" 0 (dec (- n)) &&
      balanced "<" ">" 0 (dec (- n)) && (word (String "-" (dec (- n))) || group (String "-" (dec (- n)))) = true).
    fold (closed (dec (- n))). rewrite D1. cbn [andb]. unfold word. cbn [all_chars]. rewrite D2. done.
  - pose proof (dec_digits n ltac:(lia)) as D. pose proof (dec_nonempty n) as N. pose proof (A _ D) as [D1 D2]. rewrite D1.
    destruct (dec n) as [|c s]; [done|]. cbn [andb]. unfold word. rewrite D2. cbn [all_chars] in D.
    apply andb_true_iff in D as [Hc _].
    assert (closing c = None ∧ Ascii.eqb c "=" = false ∧ Ascii.eqb c "*" = false) as (-> & -> & ->); [|done].
    revert Hc. destruct c as [[] [] [] [] [] [] [] []]; vm_compute; intros; (discriminate || tauto).
Qed.

Lemma param_last fl (x y z : string) :
  let ps := fl ++ [x; y; z] in
  param ps (last_ ps - 2) = Ok x ∧ param ps (last_ ps - 1) = Ok y ∧ param ps (last_ ps) = Ok z.
Proof.
  cbn zeta. unfold param, last_. rewrite length_app. cbn [List.length].
  assert (∀ k t, [x; y; z] !! k = Some t → vec_get (fl ++ [x; y; z]) (List.length fl + k) = Ok t) as A.
  { intros k t H. apply vec_get_ok. rewrite lookup_app_r by lia. by replace (List.length fl + k - List.length fl)%nat with k by lia. }
  split_and!; rewrite (proj2 (Z.leb_le _ _)) by lia.
  - replace (Z.to_nat _) with (List.length fl + 0)%nat by lia. by apply A.
  - replace (Z.to_nat _) with (List.length fl + 1)%nat by lia. by apply A.
  - replace (Z.to_nat _) with (List.length fl + 2)%nat by lia. by apply A.
Qed.

Lemma print_int_head n : ∃ c s, to_string_int n = String c s ∧ Ascii.eqb c "%" = false.
Proof.
  unfold to_string_int. destruct (Z.ltb_spec n 0).
  - by exists "-"%char, (dec (- n)).
  - pose proof (dec_digits n ltac:(lia)) as D. pose proof (dec_nonempty n). destruct (dec n) as [|c s]; [done|].
    exists c, s. split; [done|]. cbn in D. apply andb_true_iff in D as [D _]. revert D.
    destruct c as [[] [] [] [] [] [] [] []]; vm_compute; (discriminate || done).
Qed.
Lemma isRegister_print o : isRegister (print_operand o) = is_reg o.
Proof. destruct o as [x|n]; [done|]. cbn. destruct (print_int_head n) as (c & s & -> & E). exact E. Qed.
Lemma print_operand_head o : ∃ c, str_index (print_operand o) 0 = Ok c ∧ Ascii.eqb c "%" = is_reg o.
Proof.
  destruct o as [x|n]; cbn [print_operand is_reg]; [by exists "%"%char|].
  destruct (print_int_head n) as (c & s & -> & E). by exists c.
Qed.
Lemma imm_operand_print o imms : imm_operand (print_operand o) imms = imms ++ match o with OReg _ => [] | OInt n => [to_string_int n] end.
Proof. unfold imm_operand. rewrite isRegister_print. destruct o; cbn; by rewrite ?app_nil_r. Qed.

(** An operand that is a register is entered and appended. *)
Lemma reg_operand_print o ops s : short (print_operand o) →
  ∃ new s', reg_operand (print_operand o) ops s = Ok (ops ++ new, s') ∧
    dependencies s' = dependencies s ++ (Some <$> new) ∧ _RegList (ps_list s) `prefix_of` _RegList (ps_list s') ∧
    (fun p => names (ps_list s') !! p) <$> new = Some <$> operand_names o.
Proof.
  intros Hs. unfold reg_operand. rewrite isRegister_print. destruct o as [x|n]; cbn [is_reg].
  - cbn [print_operand] in *. rewrite setRegister_ensure by done. destruct (ensure (ps_list s) x) as [p rl] eqn:E.
    apply ensure_spec in E as [E1 E2]. exists [p], (mkPS rl (dependencies s ++ [Some p])). cbn. by rewrite E1.
  - exists [], s. by rewrite !app_nil_r.
Qed.

Lemma names_prefix rl rl' : _RegList rl `prefix_of` _RegList rl' → names rl `prefix_of` names rl'.
Proof. intros [k E]. exists (_Name <$> k). unfold names. by rewrite E, fmap_app. Qed.
Lemma names_lookups rl rl' (ps : list nat) (xs : list string) : names rl `prefix_of` names rl' →
  (fun p => names rl !! p) <$> ps = Some <$> xs → (fun p => names rl' !! p) <$> ps = Some <$> xs.
Proof.
  intros P. revert xs. induction ps as [|p ps IH]; intros [|x xs]; cbn; try done. intros [= E1 E2].
  f_equal; [by eapply prefix_lookup_Some|by apply IH].
Qed.
Lemma names_reg_set rl r g g' : _RegList rl !! r = Some g → _Name g' = _Name g → names (reg_set rl r g') = names rl.
Proof.
  intros H E. unfold names. cbn. rewrite list_fmap_insert, E. apply list_insert_id. by rewrite list_lookup_fmap, H.
Qed.

(** The register a line of type [ty] and size [n] leaves for its result. *)
Definition result_register (rl : RegisterList) (r : nat) (x ty : string) (n : Z) : Prop :=
  ∃ g, _RegList rl !! r = Some g ∧ _Name g = x ∧ _Data_Type g = ty ∧ _Size g = n.

Lemma arith_steps b l s it r n :
  is_arith it = true → parameters l = (binop_params b).*1 → ret_reg l = Some r →
  names (ps_list s) !! r = Some (bo_result b) → type_size (bo_type b) = Ok n →
  short (print_operand (bo_left b)) → short (print_operand (bo_right b)) →
  operand_ok (bo_left b) = true → operand_ok (bo_right b) = true →
  ∃ s1 s2 ops imms, initializeReturnRegister l s it = Ok (bo_type b, s1) ∧ setRegOperands l s1 it = Ok (ops, s2) ∧
    setImmOperands l it = Ok imms ∧ int_imm imms = constant (bo_left b) (bo_right b) ∧
    immPosition (parameters l) = Ok (negb (is_reg (bo_left b))) ∧ dependencies s2 = dependencies s ++ (Some <$> ops) ∧
    result_register (ps_list s2) r (bo_result b) (bo_type b) n ∧ names (ps_list s) `prefix_of` names (ps_list s2) ∧
    (fun p => names (ps_list s2) !! p) <$> ops = Some <$> (operand_names (bo_left b) ++ operand_names (bo_right b)).
Proof.
  intros Hit Hps Hr Hg Ht Sl Sr Ol Or.
  assert (parameters l = bo_flags b ++ [bo_type b; print_operand (bo_left b); print_operand (bo_right b)]) as Hp.
  { rewrite Hps. unfold binop_params. rewrite fmap_app, <-list_fmap_compose. f_equal. 
    rewrite <-(list_fmap_id (bo_flags b)) at 2. done. }
  pose proof (param_last (bo_flags b) (bo_type b) (print_operand (bo_left b)) (print_operand (bo_right b))) as P.
  rewrite <-Hp in P. destruct P as (P2 & P1 & P0).
  unfold names in Hg. rewrite list_lookup_fmap in Hg. apply fmap_Some in Hg as (g & Hg & Hn).
  set (g' := mkRegister (_Name g) (bo_type b) (_Value g) n (_Hot g) (reg_Global g) (updated_this_cycle g) (reads g) (writes g)).
  set (s1 := mkPS (reg_set (ps_list s) r g') (dependencies s)).
  destruct (reg_operand_print (bo_left b) [] s1 Sl) as (n1 & s2 & E1 & D1 & R1 & N1).
  destruct (reg_operand_print (bo_right b) ([] ++ n1) s2 Sr) as (n2 & s3 & E2 & D2 & R2 & N2).
  assert (names (ps_list s1) = names (ps_list s)) as Ns by (by apply (names_reg_set _ _ g)).
  assert (_RegList (ps_list s1) !! r = Some g') as G1 by (apply list_lookup_insert_eq; by eapply lookup_lt_Some).
  eexists s1, s3, ([] ++ n1 ++ n2), _. split_and!.
  - unfold initializeReturnRegister. rewrite Hit, P2. cbn [mbind outcome_bind]. unfold ret_setSize, set_size_at, reg_at.
    rewrite Hr. rewrite (proj2 (vec_get_ok _ _ _) Hg). cbn [mbind outcome_bind]. unfold setSize. by rewrite Ht.
  - unfold setRegOperands. rewrite Hit, P1. cbn [mbind outcome_bind]. rewrite E1. cbn [mbind outcome_bind].
    rewrite P0. cbn [mbind outcome_bind]. rewrite E2. done.
  - unfold setImmOperands. rewrite Hit, P1, P0. cbn [mbind outcome_bind]. reflexivity.
  - rewrite !imm_operand_print. unfold operand_ok in Ol, Or.
    destruct (bo_left b), (bo_right b); cbn; try done; apply atol_to_string; zbool; split; lia.
  - unfold immPosition. rewrite P1. cbn [mbind outcome_bind]. destruct (print_operand_head (bo_left b)) as (c & -> & <-). done.
  - rewrite D2, D1. cbn. by rewrite fmap_app, (assoc_L (++)).
  - exists g'. split; [|by rewrite Hn]. by do 2 (eapply prefix_lookup_Some; [|done]).
  - rewrite <-Ns. etransitivity; by apply names_prefix.
  - cbn. rewrite !fmap_app. f_equal; [|done]. by eapply names_lookups; [apply names_prefix|].
Qed.

Lemma print_params_length t c l : (t, c) ∈ l → (String.length t ≤ String.length (print_params l))%nat.
Proof.
  induction l as [|[u d] l IH]; [by intros ?%elem_of_nil|]. cbn [print_params String.length]. rewrite !str_length_app.
  intros [[= <- <-]|H%IH]%elem_of_cons; lia.
Qed.

Lemma operand_param o : operand_ok o = true → parameter (print_operand o) = true.
Proof.
  destruct o as [x|n]; [|intros _; apply digits_param]. cbn [operand_ok print_operand]. intros [C A]%andb_true_iff.
  unfold parameter. change (closed (String "%" x)) with (closed x). rewrite C. unfold word. cbn. by rewrite A.
Qed.

Lemma binop_params_ok b : binop_ok b = true → Forall (fun p => parameter p.1 = true) (binop_params b).
Proof.
  unfold binop_ok. intros H. zbool. unfold binop_params. apply Forall_app. split.
  - apply Forall_fmap. rewrite Forall_forall. intros f Hf. rewrite forallb_forall in *. cbn.
    match goal with F : ∀ x, In x (bo_flags b) → _ |- _ => apply F end. by apply list_elem_of_In.
  - repeat constructor; cbn; [done|by apply operand_param|by apply operand_param].
Qed.

(** The parser up to the case of the opcode. *)
Lemma parse_binop_case junk cycles tl pip rl b :
  binop_ok b = true →
  ∃ r rl1, names rl1 !! r = Some (bo_result b) ∧ names rl `prefix_of` names rl1 ∧
    short (print_operand (bo_left b)) ∧ short (print_operand (bo_right b)) ∧
    parse junk cycles tl pip (print_binop b) rl
    = parse_case junk cycles tl pip (mkLine (print_binop b) (bo_op b) (Some r) (binop_params b).*1) (mkPS rl1 []).
Proof.
  intros Hb. pose proof (binop_params_ok b Hb) as Hp. unfold binop_ok in Hb. zbool.
  destruct (ensure rl (bo_result b)) as [r rl1] eqn:E. pose proof (ensure_spec _ _ _ _ E) as [E1 E2].
  assert (String.length (print_params (binop_params b)) ≤ String.length (print_binop b))%nat as Hlen.
  { unfold print_binop, print_line. rewrite !str_length_app. lia. }
  assert (short (print_binop b)) as Hs by done.
  assert (short (print_params (binop_params b))) as Hs' by (unfold short, strlen in *; lia).
  assert (∀ t c, (t, c) ∈ binop_params b → short t) as Hst.
  { intros t c Ht%print_params_length. unfold short, strlen in *. lia. }
  exists r, rl1. split_and!; [done|by apply names_prefix|eapply (Hst _ true); set_solver|eapply (Hst _ false); set_solver|].
  unfold parse, print_binop. rewrite split_print; [|done| |by unfold binop_params; destruct (bo_flags b)|done].
  2: { apply existsb_exists in H as (op & Hop & ->%String.eqb_eq). cbn in Hop. destruct_or! Hop; by subst op || done. }
  cbn [mbind outcome_bind]. unfold ensure in E.
  destruct (findRegister rl (bo_result b)); [injection E as <- <-|rewrite E]; by rewrite tokenize_print.
Qed.

(** A case of the [switch] whose four helpers gave [H1] to [H5]. *)
Ltac read_case H1 H2 H3 H4 H5 r ops :=
  rewrite H1; cbn [mbind outcome_bind]; rewrite H2; cbn [mbind outcome_bind]; rewrite H3; cbn [mbind outcome_bind];
  rewrite H5; cbn [mbind outcome_bind]; rewrite H4; do 3 eexists; exists r, ops; split_and!; try done; by etransitivity.

(** C28: an integer operation printed in LLVM's syntax is read back as printed,
    for all thirteen opcodes, any flags, names and register list: the object is
    of the opcode's class, its result register has the printed name, type and
    the type's size, its operands and dependencies are the registers of the
    printed names in their order, and its constant is the printed one, in its
    place; no register loses its name. *)
Theorem parse_print_binop junk cycles tl pip rl b n
    (Hb : binop_ok b = true) (Ht : type_size (bo_type b) = Ok n) :
  ∃ fu rl' i r ops, parse junk cycles tl pip (print_binop b) rl = Ok (fu, rl', Some i) ∧
    _OpCode (st i) = bo_op b ∧ class_op (cls i) = op_lookup (bo_op b) ∧ _ReturnType (st i) = bo_type b ∧
    _ReturnRegister (st i) = Some r ∧ result_register rl' r (bo_result b) (bo_type b) n ∧
    arith (cls i) = Some (ops, constant (bo_left b) (bo_right b), negb (is_reg (bo_left b))) ∧
    _Dependencies (st i) = Some <$> ops ∧
    (fun p => names rl' !! p) <$> ops = Some <$> (operand_names (bo_left b) ++ operand_names (bo_right b)) ∧
    names rl `prefix_of` names rl'.
Proof.
  destruct (parse_binop_case junk cycles tl pip rl b Hb) as (r & rl1 & Hr & Hn & Sl & Sr & ->).
  unfold binop_ok in Hb. zbool. set (l := mkLine _ _ _ _).
  match goal with H : existsb _ _ = true |- _ => apply existsb_exists in H as (op & Hop & Eop%String.eqb_eq) end.
  destruct (arith_steps b l (mkPS rl1 []) "Binary" r n) as (s1 & s2 & ops & imms & A1 & A2 & A3 & A4 & A5 & A6 & A7 & A8 & A9);
    try done.
  destruct (arith_steps b l (mkPS rl1 []) "Bitwise" r n) as (t1 & t2 & qs & jmms & B1 & B2 & B3 & B4 & B5 & B6 & B7 & B8 & B9);
    try done.
  unfold parse_case. cbn [opCode l]. rewrite Eop. cbn in Hop.
  repeat (destruct Hop as [Hop|Hop]); [..|destruct Hop]; subst op;
    match goal with |- context [match op_lookup ?o with _ => _ end] =>
      let v := eval vm_compute in (op_lookup o) in change (op_lookup o) with v end;
    cbv beta zeta iota delta [parse_Add parse_Sub parse_Mul parse_UDiv parse_SDiv parse_URem parse_SRem parse_Shl parse_LShr
      parse_AShr parse_And parse_Or parse_Xor];
    first [read_case A1 A2 A3 A4 A5 r ops|read_case B1 B2 B3 B4 B5 r qs].
Qed.

Definition binop_ex : binop := mkBinop "sum.1" "add" ["nsw"] "i32" (OReg "a") (OInt (-7)).

Example binop_ex_text : print_binop binop_ex = "  %sum.1 = add nsw i32 %a, -7".
Proof. by vm_compute. Qed.

Lemma parse_print_binop_witness :
  ∃ fu rl' i r ops, parse (mkJunk 0 None) (mkCycleCounts 1 1 1 1 1 1 1 1 1 1 1 1 1 1 1 1 1 1 1 1 1 1 1 1 1 1 1 1 1 1 0 0 1 1 1 1 1 1 1 1
      1 1 1 1 1 1 1 1 1 1 1 1 1 3 3 3 3 3) [] false (print_binop binop_ex) first_registers = Ok (fu, rl', Some i) ∧
    _OpCode (st i) = "add" ∧ class_op (cls i) = IR_Add ∧ _ReturnType (st i) = "i32" ∧
    _ReturnRegister (st i) = Some r ∧ result_register rl' r "sum.1" "i32" 4 ∧
    arith (cls i) = Some (ops, -7, false) ∧ _Dependencies (st i) = Some <$> ops ∧
    (fun p => names rl' !! p) <$> ops = [Some "a"] ∧ names first_registers `prefix_of` names rl'.
Proof. apply (parse_print_binop (mkJunk 0 None) _ [] false first_registers binop_ex 4); by vm_compute. Defined.
