(* ===== verification/ParserExamples.v ===== *)
(** A program from its text to its results: the file is read, the engine runs
    it against a memory, and the array in memory has been updated.  Then lines
    on which the parser does not do what LLVM means. *)
From stdpp Require Import strings.
From S2P Require Import Prelude CppString CppFloat CppNumber Registers MemRequest Instructions Compute FunctionalUnits Tokens Parser Scheduler SchedulerSpec IRFile.
From Stdlib Require Import Ascii String.

#[local] Open Scope string_scope.
#[local] Open Scope list_scope.
#[local] Open Scope Z_scope.

(** ** A program *)

Definition lines (l : list string) : string :=
  foldr (fun a b => String.append a (String newline b)) "" l.

(** Adds 5 to each of the [%n] elements of [%a]. *)
Definition ir_text : string := lines [
  "; ModuleID = 'top.ll'";
  "%struct.pair = type { i32, i32 }";
  "";
  "define void @top(i32* %a, i32 %n) {";
  "entry:";
  "  br label %loop";
  "";
  "loop:                                             ; preds = %loop, %entry";
  "  %i = phi i32 [ 0, %entry ], [ %j, %loop ]";
  "  %p = getelementptr inbounds i32, i32* %a, i32 %i";
  "  %x = load i32, i32* %p, align 4";
  "  %y = add nsw i32 %x, 5";
  "  store i32 %y, i32* %p, align 4";
  "  %j = add i32 %i, 1";
  "  %c = icmp eq i32 %j, %n";
  "  br i1 %c, label %end, label %loop";
  "";
  "end:                                              ; preds = %loop";
  "  switch i32 %j, label %fin [";
  "    i32 1, label %loop";
  "    i32 -7, label %fin";
  "  ]";
  "";
  "fin:                                              ; preds = %end";
  "  ret void";
  "}"].

(** Unset variables hold 7, and point at register 1. *)
Definition ir_junk : Junk := mkJunk 7 (Some 1%nat).
Definition ir_cycles : CycleCounts := Eval vm_compute in
  mkCycleCounts 1 1 0 1 1 1 1 1 1 1 1 1 1 1 1 1 1 1 1 1 1 1 1 1 1 1 1 1 1 1 0 0 1 1 1 1 1 1 1 1 1 1 1 1 1 1 1 1
    1 1 1 1 1 3 3 3 3 3.

(** The memory-mapped registers: the array is at 64 and has three elements. *)
Definition ir_globals (offset size : Z) : outcome Z := Ok (if offset =? 0 then 64 else 3).

Definition ir_boot : outcome (IR * (LLVMInterface * bool)) :=
  boot ir_junk ir_cycles false ir_globals ex_cfg ex_old ex_stats 100 (Some ir_text).

(** A memory that answers the requests of the log from number [n] on. *)
Definition answer (e : CommEvent) (m : list Z) (s : LLVMInterface) : outcome (list Z * LLVMInterface) :=
  match e with
  | Enqueue id (EnqueueRead q) =>
      let* bs := mem_read m (address q) (mr_length q) in
      let* s := readCommit s id bs in Ok (m, s)
  | Enqueue id (EnqueueWrite q) =>
      let* m := mem_write m (address q) (buffer q) in
      let* s := writeCommit s id in Ok (m, s)
  | _ => Ok (m, s)
  end.
Definition answers (n : nat) (m : list Z) (s : LLVMInterface) : outcome (list Z * LLVMInterface) :=
  foldM (fun ms e => answer e ms.1 ms.2) (drop n (comm s)) (m, s).

(** A tick, then the answers to what it asked for, until the engine stops. *)
Fixpoint run (fuel n : nat) (m : list Z) (s : LLVMInterface) : outcome (list Z * LLVMInterface) :=
  let* (m, s') := answers n m s in
  if negb (running s') then Ok (m, s') else
  match fuel with
  | O => Ok (m, s')
  | S fuel => let* (s'', _) := tick ex_cfg true ex_old 100 s' in run fuel (List.length (comm s)) m s''
  end.

Definition ir_memory : list Z := replicate 64 0 ++ List.concat (le_bytes 4 <$> [10; 2 ^ 32 - 3; 255]) ++ replicate 4 0.

Example ir_text_runs :
  (let* (_, (s, _)) := ir_boot in
   let* (m, s) := run 100 0 ir_memory s in
   Ok (drop 64 m, running s, last (comm s)))
  = Ok (List.concat (le_bytes 4 <$> [15; 2; 260]) ++ replicate 4 0, false, Some Finish).
Proof. by vm_compute. Qed.

(** ** Immediates that are read wrongly *)

(** A negative exponent is read as a positive one; an exponent above the number
    of digits printed after the point loses a factor of ten. *)
Example exponent_misread :
  (let* d := convertImmediate "double" "1.000000e-05" in stod d) = stod "100000" ∧
  (let* d := convertImmediate "double" "1.000000e+07" in stod d) = stod "1000000" ∧
  (let* d := convertImmediate "double" "1.500000e+01" in stod d) = stod "15".
Proof. by vm_compute. Qed.

(** A [float] given as the pattern of 0.5 becomes the integer of that pattern;
    a [double] loses all but six decimals. *)
Example pattern_misread :
  convertImmediate "float" "0x3FE0000000000000" = Ok "4602678819172646912.000000" ∧
  convertImmediate "double" "0x3E112E0BE826D695" = Ok "0.000000" ∧
  convertImmediate "double" "0x3FD5555555555555" = Ok "0.333333".
Proof. by vm_compute. Qed.

(** ** Lines that are read wrongly *)

Definition parse_line (line : string) : outcome (option InstrClass) :=
  let* (_, _, i) := parse ir_junk ir_cycles [] false line first_registers in Ok (option_map cls i).

(** A constant as second value of a [select] must be a number. *)
Example select_bool_throws :
  parse_line "  %r = select i1 %c, i1 true, i1 false" = Err InvalidArgument.
Proof. by vm_compute. Qed.

(** The constant of an [fcmp] is lost when it comes first. *)
Example fcmp_constant_first :
  (∃ c, parse_line "  %r = fcmp olt double 1.500000e+00, %x" = Ok (Some (FCmp c 0 0))) ∧
  (∃ c, parse_line "  %r = fcmp olt double %x, 1.500000e+00" = Ok (Some (FCmp c 1069547520 4609434218613702656))).
Proof. split; eexists; by vm_compute. Qed.

(** The value of a store of a floating point constant is a pointer that was
    never set, and it is not marked as a constant; the register values of a
    [select] start with another one. *)
Example unset_pointers :
  (∃ x, parse_line "  store double 1.500000e+00, double* %p, align 8" = Ok (Some (Store x)) ∧
        s_Value x = junk_reg ir_junk ∧ _ImmVal x = false) ∧
  (∃ x, parse_line "  %r = select i1 %c, i32 %a, i32 %b" = Ok (Some (Select x)) ∧
        head (_RegValues x) = Some (junk_reg ir_junk) ∧ List.length (_RegValues x) = 3%nat).
Proof. split; eexists; split_and!; by vm_compute. Qed.

(** Without [inbounds] the offsets of a constant address are taken one
    parameter too early, so that the address group becomes the type of the
    first. *)
Example gep_inttoptr_types :
  (∃ g, parse_line "  %r = getelementptr inbounds i32, i32* inttoptr (i64 64 to i32*), i32 2"
        = Ok (Some (GetElementPtr g)) ∧ _Type g = ["i32"] ∧ _ImmIdx g = [2]) ∧
  parse_line "  %r = getelementptr i32, i32* inttoptr (i64 64 to i32*), i32 2" = Err Undefined.
Proof. split; [eexists; split_and!|]; by vm_compute. Qed.

(** A name with [switch] in it makes the reader swallow the lines up to the
    next closing bracket: here the [add] is lost and so is the [phi]. *)
Example switch_in_a_name :
  (let* (x, _) := constructBBList ir_junk ir_cycles false ir_globals (Some (lines [
     "define void @top(i32 %n) {"; "entry:"; "  %switch.cast = trunc i32 %n to i8"; "  %m = add i32 %n, 1";
     "  %v = phi i32 [ %n, %entry ]"; "  ret void"; "}"])) in
   Ok (List.map (fun b => List.map (fun i => _OpCode (st i)) (_Nodes b)) (ir_blocks x)))
  = Ok [["trunc"; "ret"]].
Proof. by vm_compute. Qed.
