(* ===== verification/ParserSpec.v ===== *)
(** The theorems about the reader of the IR: what it builds is well typed, the
    engine booted from the text of a file keeps its invariant. *)
From stdpp Require Import strings.
From S2P Require Import Prelude CppString CppFloat CppNumber Macros Registers MemRequest Instructions FunctionalUnits Tokens Parser Scheduler SchedulerInv SchedulerSpec IRFile ParserTypes ParserExamples.
From Stdlib Require Import Ascii String.

#[local] Open Scope string_scope.
#[local] Open Scope list_scope.
#[local] Open Scope Z_scope.

(** ** From typed nodes to the templates of the scheduler *)

(** The opcodes that define no register in LLVM. *)
Definition no_result (op : string) : bool :=
  String.eqb op "ret" || String.eqb op "br" || String.eqb op "switch" || String.eqb op "store".

(** The node breaks that rule. *)
Definition assigned_no_result (i : Instruction) : bool :=
  assigns (_LLVMLine (st i)) && no_result (_OpCode (st i)).

(** The latencies are unsigned, and memory sets that of a load. *)
Definition latencies_ok (cycles : CycleCounts) : Prop :=
  (∀ c, Forall (fun z => 0 ≤ z) (class_cycles cycles c)) ∧ load_inst cycles = 0.

Lemma typed_tmpl w cycles n i :
  latencies_ok cycles → node_typed w cycles n i → assigned_no_result i = false → tmpl_ok assigns i.
Proof.
  intros [Hc Hl] [Nr Nd Nl No Ncl Nt Nops Nf Na Nc] Hn.
  assert (no_result (_OpCode (st i)) = true → _ReturnRegister (st i) = None) as NR.
  { intros E. unfold assigned_no_result in Hn. rewrite E, andb_true_r in Hn. rewrite Hn in Nl.
    destruct (_ReturnRegister (st i)); [|done]. apply bool_decide_eq_false in Nl. by destruct Nl. }
  assert (∀ t o, _OpCode (st i) = t → op_lookup t = o → class_op (cls i) = o) as OP by (intros ? ? <- <-; done).
  assert (_Terminator (st i) = true → no_result (_OpCode (st i)) = true ∧ _OpCode (st i) ≠ "store") as T.
  { rewrite Nt. destruct (cls i) eqn:Ec; try done; intros _; cbn in No;
      [apply (op_lookup_key _ _ "br") in No|apply (op_lookup_key _ _ "ret") in No|apply (op_lookup_key _ _ "switch") in No];
      try (by vm_compute); by rewrite No. }
  split; [split|..]; try done; [by intros [? ?]%T; auto|..].
  - intros E. apply NR. by rewrite E.
  - intros E. specialize (OP _ _ E eq_refl). destruct (cls i) eqn:Ec; try done. cbn in Nc. apply list_elem_of_singleton in Nc. congruence.
  - specialize (Hc (cls i)). rewrite Forall_forall in Hc. by apply Hc.
  - intros E. specialize (OP _ _ E eq_refl). rewrite Nt. by destruct (cls i).
  - by destruct Nf as (_ & _ & ? & _).
  - by destruct Nf as (_ & _ & _ & ?).
Qed.

(** ** Types and runs *)


(** The engine's state when the first [tick] of [boot] starts. *)
Lemma booted_start junk cycles is_pipelined gv cfg old x fuel file ir s b :
  boot junk cycles is_pipelined gv cfg old x fuel file = Ok (ir, (s, b)) → latencies_ok cycles →
  Forall (fun b => Forall (fun i => assigned_no_result i = false) (_Nodes b)) (ir_blocks ir) →
  ∃ s0 e, constructBBList junk cycles is_pipelined gv file = Ok (ir, e) ∧ initial assigns s0 ∧
    bbList s0 = ir_blocks ir ∧ comm s0 = [] ∧ tick cfg (unlimitedMode (limits cfg)) old fuel s0 = Ok (s, b).
Proof.
  unfold boot, initialize. intros H Hl Hn. apply bind_ok in H as ([ir' e] & Hc & H).
  apply bind_ok in H as ([s1 b1] & H & [= -> -> ->]). apply bind_ok in H as (e1 & _ & H).
  pose proof Hc as Ht. apply constructBBList_typed in Ht as [Ht _].
  eexists _, e. split; [done|]. refine (conj _ (conj _ (conj _ H))); [|done|done]. split_and!; [done|done|].
  unfold blocks_typed in Ht. cbn. rewrite Forall_forall in *. intros bb Hbb. rewrite Forall_forall. intros i Hi.
  specialize (Ht bb Hbb). specialize (Hn bb Hbb). rewrite Forall_forall in Ht, Hn.
  eapply typed_tmpl; [done|by apply Ht|by apply Hn].
Qed.

Lemma booted_inv junk cycles is_pipelined gv cfg old x fuel file ir s b :
  boot junk cycles is_pipelined gv cfg old x fuel file = Ok (ir, (s, b)) → latencies_ok cycles →
  Forall (fun b => Forall (fun i => assigned_no_result i = false) (_Nodes b)) (ir_blocks ir) → LInv assigns s.
Proof.
  intros H Hl Hn. destruct (booted_start _ _ _ _ _ _ _ _ _ _ _ _ H Hl Hn) as (s0 & e & _ & Hi & _ & _ & Ht).
  eapply (step_inv assigns cfg _ old); [|by eapply step_tick]. by apply initial_inv.
Qed.

(** C27: an engine started on the text of any file whose lines assign no result
    to a terminator or a store keeps the scheduler's promises in every state it
    reaches by ticks and memory completions: the counter of active parents of
    each instruction in flight is exact, parents are older than their children,
    and with nothing outside the reservation table its head can launch, or is
    the [ret] that ends the run. *)
Theorem booted_engine_sound junk cycles is_pipelined gv cfg old x fuel file ir s b s'
    (Hboot : boot junk cycles is_pipelined gv cfg old x fuel file = Ok (ir, (s, b)))
    (Hlat : latencies_ok cycles)
    (Hlines : Forall (fun b => Forall (fun i => assigned_no_result i = false) (_Nodes b)) (ir_blocks ir))
    (Hrun : rtc (step cfg (unlimitedMode (limits cfg)) old) s s') :
  (∀ q i, q ∈ inflight (core s') → heap (core s') !! q = Some i →
     _ActiveParents i = bonus (st i) + Z.of_nat (occurs q (edges (core s')))) ∧
  (∀ p ch, p ∈ inflight (core s') → ch ∈ kids (core s') p → (p < ch)%nat ∧ ch ∈ reservation (core s')) ∧
  (∀ p r i, reservation (core s') = p :: r → heap (core s') !! p = Some i →
     computeQueue (core s') = [] ∧ readQueue (core s') = [] ∧ writeQueue (core s') = [] →
     (_OpCode (st i) ≠ "ret" ∧ _ActiveParents i = 0) ∨
     (_OpCode (st i) = "ret" ∧
      ∃ s'', reservationStep cfg (unlimitedMode (limits cfg)) old s' 0 p = Ok (s'', 1%nat) ∧
             reservation (core s'') = r ∧ running s'' = false ∧ comm s'' = comm s' ++ [Finish])).
Proof.
  pose proof (booted_inv _ _ _ _ _ _ _ _ _ _ _ _ Hboot Hlat Hlines) as L.
  pose proof (reach_inv assigns cfg _ old s s' L Hrun) as L'. destruct L' as [I F].
  split; [apply I|]. split; [apply I|]. intros p r i Hr Hi Hq. by apply (head_progress assigns).
Qed.

(** ** Witnesses *)


Lemma ir_latencies : latencies_ok ir_cycles.
Proof. split; [|done]. intros c. by destruct c; repeat constructor. Qed.

(** The lines of the example assign no result to a terminator or a store. *)
Definition regular (ir : IR) : bool :=
  forallb (fun b => forallb (fun i => negb (assigned_no_result i)) (_Nodes b)) (ir_blocks ir).
Lemma regular_lines ir : regular ir = true →
  Forall (fun b => Forall (fun i => assigned_no_result i = false) (_Nodes b)) (ir_blocks ir).
Proof.
  unfold regular. rewrite forallb_forall. intros H. rewrite Forall_forall. intros b Hb%list_elem_of_In. specialize (H b Hb).
  rewrite forallb_forall in H. rewrite Forall_forall. intros i Hi%list_elem_of_In. by apply negb_true_iff, H.
Qed.

(** The text of the example boots, and is regular. *)
Lemma ir_boots : match ir_boot with Ok (ir, _) => regular ir | Err _ => false end = true.
Proof. by vm_compute. Qed.

Lemma booted_engine_sound_witness :
  match ir_boot with
  | Ok (_, (s, _)) =>
      ∀ q i, q ∈ inflight (core s) → heap (core s) !! q = Some i →
        _ActiveParents i = bonus (st i) + Z.of_nat (occurs q (edges (core s)))
  | Err _ => False
  end.
Proof.
  pose proof ir_boots as R. unfold ir_boot in *.
  destruct (boot ir_junk ir_cycles false ir_globals ex_cfg ex_old ex_stats 100 (Some ir_text)) as [[ir [s b]]|er] eqn:E; [|discriminate R].
  apply regular_lines in R.
  exact (proj1 (booted_engine_sound _ _ _ _ _ _ _ _ _ ir s b s E ir_latencies R (rtc_refl _ s))).
Defined.
