(* ===== verification/CommInterface.v ===== *)
(** Model of [hwacc/comm_interface.{hh,cc}]: the memory-mapped registers, the
    request queues, the master ports with their stalled packets, the splitting
    of requests into cache-line packets and the reassembly of the responses.
    The compute unit of [hwacc/compute_unit.hh] is a class; the memory system
    behind the ports is an [Env]. *)
From stdpp Require Import gmap.
From S2P Require Import Prelude MemRequest AddrRange.

(** ** Packets and ports *)

Inductive PktKind := PRead | PWrite | POther.

Record Packet := mkPacket {
  pk_kind : PktKind;
  pk_paddr : Z;
  pk_size : Z;
  pk_data : list Z;
}.

(** [MemSidePort] and [SPMPort] have the same members. *)
Record Port := mkPort {
  outstandingPkts : list nat;
  readReq : option nat;
  writeReq : option nat;
}.
Definition Port_new : Port := mkPort [] None None.

Definition isStalled (p : Port) : bool :=
  match outstandingPkts p with [] => false | _ => true end.
Definition slot (read : bool) (p : Port) : option nat := if read then readReq p else writeReq p.
Definition set_slot (read : bool) (p : Port) (r : option nat) : Port :=
  if read then mkPort (outstandingPkts p) r (writeReq p)
  else mkPort (outstandingPkts p) (readReq p) r.
Definition set_outstanding (p : Port) (l : list nat) : Port := mkPort l (readReq p) (writeReq p).

(** Calls of the device on its surroundings. *)
Inductive SysEvent :=
  | SendInt (n : Z)
  | ClearInt (n : Z)
  | SetReadyStatus (port : nat) (r : bool).

(** What the compute unit calls on the interface, in order. *)
Inductive CuCall :=
  | CuRefreshMemPorts
  | CuEnqueueRead (id : nat) (req : MemoryRequest)
  | CuEnqueueWrite (id : nat) (req : MemoryRequest)
  | CuFinish.

(** [ComputeUnit], the virtual functions the interface calls. *)
Class ComputeUnit (CU : Type) := {
  cu_initialize : CU → outcome (CU * list CuCall);
  cu_readCommit : CU → nat → list Z → outcome CU;
  cu_writeCommit : CU → nat → outcome CU;
}.

(** The surroundings during one event: the clock and the peers of the ports,
    whose answers may depend on what they have accepted so far. *)
Definition History : Type := list (PortId * nat).
Record Env := mkEnv {
  curTick : Z;
  nextCycle : Z;
  getAddrRanges : PortId → list AddrRange;
  sendTimingReq : History → PortId → nat → bool;
  streamValid : History → PortId → Z → bool → bool;
  canAccess : History → PortId → Z → Z → bool → bool;
}.

Record Params := mkParams {
  io_addr : Z;
  io_size : Z;
  flag_size : Z;
  config_size : Z;
  int_num : Z;
  use_premap_data : bool;
  data_base_ptrs : list Z;
  big_endian : bool;
  cacheLineSize : Z;
  clock_period : Z;
  reset_spm : bool;
}.
Definition processDelay (c : Params) : Z := s32 (1000 * clock_period c).
Definition CONFIG_OFFSET (c : Params) : Z := flag_size c.
Definition VAR_OFFSET (c : Params) : Z := u64 (CONFIG_OFFSET c + config_size c).

(** ** State

    [reqs] and [pkts] are the live [MemoryRequest] and [Packet] objects by
    pointer: an access after [delete] is undefined. *)
Record Mem := mkMem {
  readQueue : list nat;
  writeQueue : list nat;
  accRdQ : list nat;
  accWrQ : list nat;
  ports : PortKind → list Port;
  reqs : gmap nat MemoryRequest;
  pkts : gmap nat Packet;
  nextPkt : nat;
  sent : History;
  tickAt : option Z;
}.

Record Dev := mkDev {
  mmreg : list Z;
  computationNeeded : bool;
  processingDone : bool;
  int_flag : bool;
  out : list SysEvent;
}.

Definition queue (read : bool) (m : Mem) : list nat := if read then readQueue m else writeQueue m.
Definition acc (read : bool) (m : Mem) : list nat := if read then accRdQ m else accWrQ m.

Definition set_queue (read : bool) (m : Mem) (q : list nat) : Mem :=
  mkMem (if read then q else readQueue m) (if read then writeQueue m else q) (accRdQ m) (accWrQ m)
    (ports m) (reqs m) (pkts m) (nextPkt m) (sent m) (tickAt m).
Definition set_acc (read : bool) (m : Mem) (q : list nat) : Mem :=
  mkMem (readQueue m) (writeQueue m) (if read then q else accRdQ m) (if read then accWrQ m else q)
    (ports m) (reqs m) (pkts m) (nextPkt m) (sent m) (tickAt m).
Definition set_ports (m : Mem) (k : PortKind) (l : list Port) : Mem :=
  mkMem (readQueue m) (writeQueue m) (accRdQ m) (accWrQ m)
    (fun k' => if decide (k' = k) then l else ports m k')
    (reqs m) (pkts m) (nextPkt m) (sent m) (tickAt m).
Definition set_reqs (m : Mem) (h : gmap nat MemoryRequest) : Mem :=
  mkMem (readQueue m) (writeQueue m) (accRdQ m) (accWrQ m) (ports m) h (pkts m) (nextPkt m)
    (sent m) (tickAt m).
Definition set_pkts (m : Mem) (h : gmap nat Packet) : Mem :=
  mkMem (readQueue m) (writeQueue m) (accRdQ m) (accWrQ m) (ports m) (reqs m) h (nextPkt m)
    (sent m) (tickAt m).
Definition set_sent (m : Mem) (h : History) : Mem :=
  mkMem (readQueue m) (writeQueue m) (accRdQ m) (accWrQ m) (ports m) (reqs m) (pkts m) (nextPkt m)
    h (tickAt m).
Definition set_tickAt (m : Mem) (t : option Z) : Mem :=
  mkMem (readQueue m) (writeQueue m) (accRdQ m) (accWrQ m) (ports m) (reqs m) (pkts m) (nextPkt m)
    (sent m) t.
(** [new Packet]. *)
Definition new_pkt (m : Mem) (p : Packet) : Mem :=
  mkMem (readQueue m) (writeQueue m) (accRdQ m) (accWrQ m) (ports m) (reqs m)
    (<[nextPkt m := p]> (pkts m)) (S (nextPkt m)) (sent m) (tickAt m).

(** Dereferencing pointers. *)
Definition deref {A} (o : option A) : outcome A :=
  match o with Some x => Ok x | None => Err Undefined end.
Definition req_at (m : Mem) (r : nat) : outcome MemoryRequest := deref (reqs m !! r).
Definition pkt_at (m : Mem) (k : nat) : outcome Packet := deref (pkts m !! k).
Definition port_at (m : Mem) (pid : PortId) : outcome Port := deref (ports m pid.1 !! pid.2).
Definition set_req (m : Mem) (r : nat) (q : MemoryRequest) : Mem := set_reqs m (<[r := q]> (reqs m)).
Definition set_port (m : Mem) (pid : PortId) (p : Port) : Mem :=
  set_ports m pid.1 (<[pid.2 := p]> (ports m pid.1)).

(** Members of a request that the interface writes. *)
Definition set_carrier (q : MemoryRequest) (pid : PortId) : MemoryRequest :=
  mkMemoryRequest (address q) (mr_length q) (needToRead q) (needToWrite q) (currentReadAddr q)
    (currentWriteAddr q) (beginAddr q) (writeLeft q) (writeDone q) (readLeft q) (readDone q)
    (totalLength q) (buffer q) (readsDone q) (mr_pkt q) (Some pid).
Definition advance_read (q : MemoryRequest) (k : nat) (size : Z) : MemoryRequest :=
  let left := u64 (readLeft q - size) in
  mkMemoryRequest (address q) (mr_length q) (if 0 <? left then needToRead q else false)
    (needToWrite q) (u64 (currentReadAddr q + size)) (currentWriteAddr q) (beginAddr q)
    (writeLeft q) (writeDone q) left (readDone q) (totalLength q) (buffer q) (readsDone q)
    (Some k) (mr_port q).
Definition advance_write (q : MemoryRequest) (k : nat) (size : Z) : MemoryRequest :=
  let left := u64 (writeLeft q - size) in
  mkMemoryRequest (address q) (mr_length q) (needToRead q)
    (if 0 <? left then needToWrite q else false) (currentReadAddr q)
    (u64 (currentWriteAddr q + size)) (beginAddr q) left (writeDone q) (readLeft q) (readDone q)
    (totalLength q) (buffer q) (readsDone q) (Some k) (mr_port q).
Definition receive_read (q : MemoryRequest) (buf : list Z) (rd : list bool) (dn : Z)
    : MemoryRequest :=
  mkMemoryRequest (address q) (mr_length q) (needToRead q) (needToWrite q) (currentReadAddr q)
    (currentWriteAddr q) (beginAddr q) (writeLeft q) (writeDone q) (readLeft q) dn
    (totalLength q) buf rd (mr_pkt q) (mr_port q).
Definition receive_write (q : MemoryRequest) (size : Z) : MemoryRequest :=
  mkMemoryRequest (address q) (mr_length q) (needToRead q) (needToWrite q) (currentReadAddr q)
    (currentWriteAddr q) (beginAddr q) (writeLeft q) (u64 (writeDone q + size)) (readLeft q)
    (readDone q) (totalLength q) (buffer q) (readsDone q) (mr_pkt q) (mr_port q).

Section Interface.
Context (cfg : Params) (env : Env).

(** [if (!tickEvent.scheduled()) schedule(tickEvent, when)]. *)
Definition schedule_at (m : Mem) (t : Z) : Mem :=
  match tickAt m with Some _ => m | None => set_tickAt m (Some t) end.
Definition schedule_tick (m : Mem) : Mem := schedule_at m (u64 (curTick env + processDelay cfg)).

(** ** Sending *)

Definition sendPacket (m : Mem) (pid : PortId) (k : nat) : outcome Mem :=
  let* p := port_at m pid in
  if isStalled p || negb (sendTimingReq env (sent m) pid k)
  then Ok (set_port m pid (set_outstanding p (outstandingPkts p ++ [k])))
  else Ok (set_sent m (sent m ++ [(pid, k)])).

(** The [while] of [recvReqRetry]. *)
Fixpoint retryLoop (m : Mem) (pid : PortId) (l : list nat) : list nat * Mem :=
  match l with
  | [] => ([], m)
  | k :: l' =>
      if sendTimingReq env (sent m) pid k
      then retryLoop (schedule_tick (set_sent m (sent m ++ [(pid, k)]))) pid l'
      else (l, m)
  end.

Definition recvReqRetry (m : Mem) (pid : PortId) : outcome Mem :=
  let* p := port_at m pid in
  let* _ := assert_ (isStalled p) in
  let (l, m) := retryLoop m pid (outstandingPkts p) in
  Ok (set_port m pid (set_outstanding p l)).

(** The size of the next packet: up to the end of the cache line, or what is
    left. *)
Definition chunk (addr left : Z) : outcome Z :=
  let cls := cacheLineSize cfg in
  if cls =? 0 then Err Undefined else
  let size := s32 (if addr mod cls =? 0 then cls else u64 (cls - addr mod cls)) in
  if size =? - 2 ^ 31 then Err Undefined else
  Ok (if u64 (size - 1) <? left then size else s32 left).

(** The end of [tryRead] and [tryWrite]: when to tick next. *)
Definition after_send (m : Mem) (pid : PortId) (left : Z) : outcome Mem :=
  if 0 <? left then
    let* p := port_at m pid in
    Ok (if isStalled p then m else schedule_tick m)
  else Ok (schedule_tick m).

Definition tryRead (m : Mem) (pid : PortId) : outcome Mem :=
  let* p := port_at m pid in
  let* r := deref (readReq p) in
  let* q := req_at m r in
  if readLeft q <=? 0 then Ok m else
  let* size := chunk (currentReadAddr q) (readLeft q) in
  let k := nextPkt m in
  let m := new_pkt m (mkPacket PRead (currentReadAddr q) size []) in
  let* m := sendPacket m pid k in
  let q := advance_read q k size in
  after_send (set_req m r q) pid (readLeft q).

Definition tryWrite (m : Mem) (pid : PortId) : outcome Mem :=
  let* p := port_at m pid in
  let* r := deref (writeReq p) in
  let* q := req_at m r in
  if writeLeft q <=? 0 then Ok m else
  let* size := chunk (currentWriteAddr q) (writeLeft q) in
  let* data := mem_read (buffer q) (u64 (totalLength q - writeLeft q)) size in
  let k := nextPkt m in
  let m := new_pkt m (mkPacket PWrite (currentWriteAddr q) size data) in
  let* m := sendPacket m pid k in
  let q := advance_write q k size in
  after_send (set_req m r q) pid (writeLeft q).

(** The overloads on [SPMPort] repeat the same code. *)
Definition tryRead_SPM (m : Mem) (pid : PortId) : outcome Mem := tryRead m pid.
Definition tryWrite_SPM (m : Mem) (pid : PortId) : outcome Mem := tryWrite m pid.

(** ** Choosing a port *)

Definition in_ranges (pid : PortId) (add : Z) : bool :=
  existsb (fun r => ar_contains r add) (getAddrRanges env pid).

(** The indices of a port vector. *)
Definition port_ids (m : Mem) (k : PortKind) : list nat := seq 0 (length (ports m k)).

Definition inRange (m : Mem) (k : PortKind) (add : Z) : bool :=
  existsb (fun i => in_ranges (k, i) add) (port_ids m k).
Definition inStreamRange (m : Mem) (add : Z) : bool := inRange m PStream add.
Definition inSPMRange (m : Mem) (add : Z) : bool := inRange m PSPM add.
Definition inLocalRange (m : Mem) (add : Z) : bool := inRange m PLocal add.
Definition inGlobalRange (m : Mem) (add : Z) : bool := inRange m PGlobal add.

(** A port that has the address, is not stalled and carries no request of the
    same direction. *)
Definition port_free (m : Mem) (pid : PortId) (add : Z) (read : bool) : bool :=
  match ports m pid.1 !! pid.2 with
  | Some p => in_ranges pid add && negb (isStalled p) &&
              match slot read p with None => true | Some _ => false end
  | None => false
  end.

(** The first port of the vector that is free and accepts. *)
Definition getValidPort (m : Mem) (k : PortKind) (add : Z) (read : bool) (ok : PortId → bool)
    : option PortId :=
  (fun i => (k, i)) <$>
    List.find (fun i => port_free m (k, i) add read && ok (k, i)) (port_ids m k).
Definition getValidLocalPort (m : Mem) (add : Z) (read : bool) : option PortId :=
  getValidPort m PLocal add read (fun _ => true).
Definition getValidGlobalPort (m : Mem) (add : Z) (read : bool) : option PortId :=
  getValidPort m PGlobal add read (fun _ => true).
Definition getValidStreamPort (m : Mem) (add len : Z) (read : bool) : option PortId :=
  getValidPort m PStream add read (fun pid => streamValid env (sent m) pid len read).
Definition getValidSPMPort (m : Mem) (add len : Z) (read : bool) : option PortId :=
  getValidPort m PSPM add read (fun pid => canAccess env (sent m) pid add len read).

(** The chain of [processMemoryRequests]: streams first, then the scratchpads,
    the local bus and system memory. *)
Definition selectPort (m : Mem) (add len : Z) (read : bool) : outcome (option PortId) :=
  if inStreamRange m add then Ok (getValidStreamPort m add len read)
  else if inSPMRange m add then Ok (getValidSPMPort m add len read)
  else if inLocalRange m add then Ok (getValidLocalPort m add read)
  else if inGlobalRange m add then Ok (getValidGlobalPort m add read)
  else Err Panic.

Definition all_stalled (l : list Port) : bool := forallb isStalled l.
Definition allPortsStalled (m : Mem) : bool :=
  all_stalled (ports m PLocal) && all_stalled (ports m PGlobal) &&
  all_stalled (ports m PStream) && all_stalled (ports m PSPM).

(** ** processMemoryRequests *)

Definition current (read : bool) (q : MemoryRequest) : Z :=
  if read then currentReadAddr q else currentWriteAddr q.
Definition need (read : bool) (q : MemoryRequest) : bool :=
  if read then needToRead q else needToWrite q.

Definition tryAccess (read : bool) (m : Mem) (pid : PortId) : outcome Mem :=
  match pid.1, read with
  | PSPM, true => tryRead_SPM m pid
  | PSPM, false => tryWrite_SPM m pid
  | _, true => tryRead m pid
  | _, false => tryWrite m pid
  end.

(** A request and the port found for it. *)
Definition launch (read : bool) (m : Mem) (r : nat) (pid : PortId) : outcome Mem :=
  let* p := port_at m pid in
  let* q := req_at m r in
  let m := set_req (set_port m pid (set_slot read p (Some r))) r (set_carrier q pid) in
  if need read q then
    let* m := tryAccess read m pid in
    Ok (set_acc read m (acc read m ++ [r]))
  else Ok m.

(** The loop over [readQueue] ([read = true]) and the one over [writeQueue]:
    [kept] are the entries it has passed, [todo] the ones from the iterator
    on. *)
Fixpoint memLoop (read : bool) (m : Mem) (kept todo : list nat) : outcome Mem :=
  match todo with
  | [] => Ok (set_queue read m kept)
  | r :: todo =>
      let* q := req_at m r in
      let* mport := selectPort m (current read q) (mr_length q) read in
      match mport with
      | Some pid => let* m := launch read m r pid in memLoop read m kept todo
      | None => memLoop read m (kept ++ [r]) todo
      end
  end.

Definition requestsInQueues (m : Mem) : Z :=
  s32 (Z.of_nat (length (readQueue m)) + Z.of_nat (length (writeQueue m))).

Definition processMemoryRequests (m : Mem) : outcome Mem :=
  let* m :=
    (if allPortsStalled m then Ok m
     else
       let* m := memLoop true m [] (readQueue m) in
       memLoop false m [] (writeQueue m)) in
  Ok (if 0 <? requestsInQueues m then schedule_tick m else m).

(** ** Requests of the compute unit *)

Definition enqueueRead (m : Mem) (id : nat) (req : MemoryRequest) : Mem :=
  schedule_tick (set_queue true (set_req m id req) (readQueue m ++ [id])).
Definition enqueueWrite (m : Mem) (id : nat) (req : MemoryRequest) : Mem :=
  schedule_tick (set_queue false (set_req m id req) (writeQueue m ++ [id])).

(** ** Responses *)

Fixpoint find_pkt (m : Mem) (l : list nat) (k : nat) : outcome nat :=
  match l with
  | [] => Err Panic
  | r :: l =>
      let* q := req_at m r in
      if bool_decide (mr_pkt q = Some k) then Ok r else find_pkt m l k
  end.
Definition findMemRequest (m : Mem) (k : nat) (isRead : bool) : outcome nat :=
  find_pkt m (acc isRead m) k.

Fixpoint erase_first (l : list nat) (r : nat) : list nat :=
  match l with
  | [] => []
  | x :: l => if Nat.eqb x r then l else x :: erase_first l r
  end.
Definition clearMemRequest (m : Mem) (r : nat) (isRead : bool) : Mem :=
  set_acc isRead m (erase_first (acc isRead m) r).

(** [readsDone[i] = true] for the bytes of the packet, with an [int] index. *)
Definition mark_done (rd : list bool) (off size : Z) : outcome (list bool) :=
  if (off + size <? 2 ^ 31) && (0 <=? off) && (0 <=? size) &&
     (off + size <=? Z.of_nat (length rd))
  then Ok (take (Z.to_nat off) rd ++ replicate (Z.to_nat size) true ++
           drop (Z.to_nat (off + size)) rd)
  else Err Undefined.

(** [while (readDone < totalLength && readsDone[readDone]) readDone++]; at
    most [totalLength - readDone] iterations. *)
Fixpoint contiguous (n : nat) (rd : list bool) (dn total : Z) : outcome Z :=
  match n with
  | O => Ok dn
  | S n =>
      if dn <? total then
        let* b := vec_get rd (Z.to_nat dn) in
        if (b : bool) then contiguous n rd (dn + 1) total else Ok dn
      else Ok dn
  end.

(** The carrier port of the request is released. *)
Definition release (read : bool) (m : Mem) (q : MemoryRequest) : outcome Mem :=
  let* pid := deref (mr_port q) in
  let* p := port_at m pid in
  Ok (set_port m pid (set_slot read p None)).

Section Receive.
Context {CU : Type} `{ComputeUnit CU}.

Definition recvRead (m : Mem) (cu : CU) (k : nat) (pk : Packet) : outcome (Mem * CU) :=
  let* r := findMemRequest m k true in
  let* q := req_at m r in
  let* m := release true m q in
  let off := u64 (pk_paddr pk - beginAddr q) in
  let* buf := mem_write (buffer q) off (pk_data pk) in
  let* rd := mark_done (readsDone q) off (pk_size pk) in
  let* dn := contiguous (Z.to_nat (totalLength q - readDone q)) rd (readDone q) (totalLength q) in
  let m := set_req m r (receive_read q buf rd dn) in
  if needToRead q then Ok (clearMemRequest (set_queue true m (r :: readQueue m)) r true, cu)
  else
    let* cu := cu_readCommit cu r buf in
    let m := clearMemRequest m r true in
    Ok (set_reqs m (delete r (reqs m)), cu).

Definition recvWrite (m : Mem) (cu : CU) (k : nat) (pk : Packet) : outcome (Mem * CU) :=
  let* r := findMemRequest m k false in
  let* q := req_at m r in
  let* m := release false m q in
  let m := set_req m r (receive_write q (pk_size pk)) in
  if needToWrite q then Ok (clearMemRequest (set_queue false m (r :: writeQueue m)) r false, cu)
  else
    let* cu := cu_writeCommit cu r in
    let m := clearMemRequest m r false in
    Ok (set_reqs m (delete r (reqs m)), cu).

(** [recvTimingResp(pkt)] of a port calls [recvPacket]; [data] is what the
    memory put into the packet, as many bytes as it has. *)
Definition recvPacket (m : Mem) (cu : CU) (k : nat) (data : list Z) : outcome (Mem * CU) :=
  let* pk := pkt_at m k in
  let pk := mkPacket (pk_kind pk) (pk_paddr pk) (pk_size pk) data in
  let* (m, cu) :=
    (match pk_kind pk with
     | PRead => recvRead m cu k pk
     | PWrite => recvWrite m cu k pk
     | POther => Err Panic
     end) in
  let m := schedule_tick m in
  Ok (set_pkts m (delete k (pkts m)), cu).

(** ** The memory-mapped registers *)

Definition set_mmreg (d : Dev) (l : list Z) : Dev :=
  mkDev l (computationNeeded d) (processingDone d) (int_flag d) (out d).
Definition flags_byte (d : Dev) : outcome Z := vec_get (mmreg d) 0.
Definition set_flags_byte (d : Dev) (b : Z) : Dev := set_mmreg d (<[0%nat := u8 b]> (mmreg d)).

Fixpoint reset_ready (i n : nat) : list SysEvent :=
  match n with
  | O => []
  | S n => SetReadyStatus i false :: reset_ready (S i) n
  end.

Definition finish (m : Mem) (d : Dev) : outcome Dev :=
  let* b := flags_byte d in
  let d := set_flags_byte d (Z.lor (Z.land b 0xfc) 0x04) in
  let irq := 0 <? int_num cfg in
  let ev := (if irq then [SendInt (int_num cfg)] else []) ++
            (if reset_spm cfg then reset_ready 0 (length (ports m PSPM)) else []) in
  Ok (mkDev (mmreg d) false (processingDone d) (irq || int_flag d) (out d ++ ev)).

(** The calls a compute unit made, in order. *)
Definition cu_call (md : Mem * Dev) (c : CuCall) : outcome (Mem * Dev) :=
  let (m, d) := md in
  match c with
  | CuRefreshMemPorts => Ok (m, d)
  | CuEnqueueRead id req => Ok (enqueueRead m id req, d)
  | CuEnqueueWrite id req => Ok (enqueueWrite m id req, d)
  | CuFinish => let* d := finish m d in Ok (m, d)
  end.
Definition cu_calls (md : Mem * Dev) (cs : list CuCall) : outcome (Mem * Dev) := foldM cu_call cs md.

Definition checkMMR (m : Mem) (d : Dev) (cu : CU) : outcome (Mem * Dev * CU) :=
  if computationNeeded d then Ok (m, d, cu) else
  let* b := flags_byte d in
  let* (m, d, cu) :=
    (if Z.testbit b 0 then
       let d := set_flags_byte d (Z.lor (Z.land b 0xfe) 0x02) in
       let d := mkDev (mmreg d) true (processingDone d) (int_flag d) (out d) in
       let* (cu, calls) := cu_initialize cu in
       let* md := cu_calls (m, d) calls in
       Ok (md, cu)
     else Ok ((m, d), cu)) in
  match tickAt m with
  | None =>
      if processingDone d then
        Ok (schedule_tick m, mkDev (mmreg d) (computationNeeded d) false (int_flag d) (out d), cu)
      else Ok (m, d, cu)
  | Some _ => Ok (m, d, cu)
  end.

(** The tick event: it is no longer scheduled when it runs. *)
Definition tick (m : Mem) (d : Dev) (cu : CU) : outcome (Mem * Dev * CU) :=
  let* (m, d, cu) := checkMMR (set_tickAt m None) d cu in
  let* m := (if 0 <? requestsInQueues m then processMemoryRequests m else Ok m) in
  Ok (m, d, cu).
End Receive.

(** [data = *(uint64_t * )(mmreg+offset)]; the packet gets its low bytes in
    the guest's byte order. *)
Definition to_endian (bs : list Z) : list Z := if big_endian cfg then rev bs else bs.
Definition read (d : Dev) (paddr size : Z) : outcome (list Z) :=
  let offset := u64 (paddr - io_addr cfg) in
  let* data := load_uint (mmreg d) offset 8 in
  if (size =? 1) || (size =? 2) || (size =? 4) || (size =? 8)
  then Ok (to_endian (le_bytes (Z.to_nat size) data))
  else Err Panic.

Definition write (m : Mem) (d : Dev) (paddr : Z) (data : list Z) : outcome (Mem * Dev) :=
  let* regs := mem_write (mmreg d) (u64 (paddr - io_addr cfg)) data in
  let d := set_mmreg d regs in
  let* b := flags_byte d in
  let d :=
    if negb (Z.testbit b 2) && int_flag d then
      mkDev (mmreg d) (computationNeeded d) (processingDone d) false
        (out d ++ if 0 <? int_num cfg then [ClearInt (int_num cfg)] else [])
    else d in
  Ok (schedule_at m (nextCycle env), d).

(** Every width loads eight bytes. *)
Definition getGlobalVar (d : Dev) (offset size : Z) : outcome Z :=
  if use_premap_data cfg then vec_at (data_base_ptrs cfg) (Z.to_nat (offset / 8))
  else if (size =? 1) || (size =? 2) || (size =? 4) || (size =? 8)
  then load_uint (mmreg d) (u64 (VAR_OFFSET cfg + offset)) 8
  else Err Panic.
End Interface.

(** The constructor: registers zero, no request, a port per connection. *)
Definition CommInterface_new (cfg : Params) (n : PortKind → nat) : Mem * Dev :=
  (mkMem [] [] [] [] (fun k => replicate (n k) Port_new) ∅ ∅ 0 [] None,
   mkDev (replicate (Z.to_nat (io_size cfg)) 0) false false false []).
