(* ===== verification/CommInv.v ===== *)
(** Invariant of the communication interface: every live request is in exactly
    one queue, a request in flight has exactly one packet and occupies exactly
    one port, the bytes received so far are those of memory, and every
    operation of [CommInterface] preserves this. *)
From stdpp Require Import gmap.
From S2P Require Import Prelude MemRequest AddrRange CommInterface.

(** ** Views of a request in one direction *)

Definition left_ (rd : bool) (q : MemoryRequest) : Z := if rd then readLeft q else writeLeft q.
Definition kind_of (rd : bool) : PktKind := if rd then PRead else PWrite.
Definition port_of (m : Mem) (pid : PortId) : option Port := ports m pid.1 !! pid.2.

Record rq_ok (rd : bool) (q : MemoryRequest) : Prop := {
  rq_addr : 0 ≤ address q ∧ address q + totalLength q < 2 ^ 64;
  rq_begin : rd = true → beginAddr q = address q;
  rq_total : totalLength q < 2 ^ 31;
  rq_left : 0 ≤ left_ rd q ≤ totalLength q;
  rq_current : current rd q = address q + (totalLength q - left_ rd q);
  rq_buffer : Z.of_nat (length (buffer q)) = totalLength q;
  rq_need : need rd q = (0 <? left_ rd q);
}.

(** The first [n] bytes of the request are acknowledged. *)
Definition progress (μ : Z → Z) (rd : bool) (q : MemoryRequest) (n : Z) : Prop :=
  if rd then
    take (Z.to_nat n) (buffer q) = bytes μ (address q) n ∧
    readsDone q = replicate (Z.to_nat n) true ++ replicate (Z.to_nat (totalLength q - n)) false ∧
    readDone q = n
  else writeDone q = n.

Record flying (m : Mem) (rd : bool) (r : nat) (q : MemoryRequest) (pk : Packet) : Prop := {
  fl_kind : pk_kind pk = kind_of rd;
  fl_size : 0 < pk_size pk;
  fl_base : address q ≤ pk_paddr pk;
  fl_end : pk_paddr pk + pk_size pk = current rd q;
  fl_data : rd = false →
    mem_read (buffer q) (pk_paddr pk - address q) (pk_size pk) = Ok (pk_data pk);
  fl_pkt : ∃ k, mr_pkt q = Some k ∧ pkts m !! k = Some pk;
  fl_port : ∃ pid p, mr_port q = Some pid ∧ port_of m pid = Some p ∧ slot rd p = Some r;
}.

Definition everything (Q A : bool → list nat) : list nat :=
  Q true ++ A true ++ Q false ++ A false.

(** [μ r] is the memory the request [r] sees: what answers its packets. *)
Record Inv (μ : nat → Z → Z) (Q A : bool → list nat) (m : Mem) : Prop := {
  inv_nodup : NoDup (everything Q A);
  inv_dom : ∀ r, r ∈ everything Q A ↔ is_Some (reqs m !! r);
  inv_queued : ∀ rd r q, r ∈ Q rd → reqs m !! r = Some q →
    rq_ok rd q ∧ 0 < left_ rd q ∧ progress (μ r) rd q (totalLength q - left_ rd q);
  inv_flying : ∀ rd r q, r ∈ A rd → reqs m !! r = Some q →
    rq_ok rd q ∧ ∃ pk, flying m rd r q pk ∧ progress (μ r) rd q (pk_paddr pk - address q);
  inv_slots : ∀ pid p rd r, port_of m pid = Some p → slot rd p = Some r →
    r ∈ A rd ∧ ∃ q, reqs m !! r = Some q ∧ mr_port q = Some pid;
  inv_pkts : ∀ k pk, pkts m !! k = Some pk →
    (k < nextPkt m)%nat ∧ ∃ rd r q, r ∈ A rd ∧ reqs m !! r = Some q ∧ mr_pkt q = Some k;
  inv_pkt_inj : ∀ rd r q rd' r' q' k, r ∈ A rd → r' ∈ A rd' →
    reqs m !! r = Some q → reqs m !! r' = Some q' →
    mr_pkt q = Some k → mr_pkt q' = Some k → r = r';
}.

(** The requests of a direction that are not complete. *)
Definition live (rd : bool) (m : Mem) : list nat := queue rd m ++ acc rd m.

(** ** Basic facts *)

Lemma deref_ok {A} (o : option A) x : deref o = Ok x ↔ o = Some x.
Proof. destruct o; naive_solver. Qed.
Lemma port_at_of m pid p : port_at m pid = Ok p ↔ port_of m pid = Some p.
Proof. apply deref_ok. Qed.
Lemma req_at_ok m r q : req_at m r = Ok q ↔ reqs m !! r = Some q.
Proof. apply deref_ok. Qed.

Lemma port_of_set m pid p0 p pid' :
  port_of m pid = Some p0 →
  port_of (set_port m pid p) pid' = if decide (pid' = pid) then Some p else port_of m pid'.
Proof.
  unfold port_of, set_port, set_ports. destruct pid as [k i], pid' as [k' i']; simpl.
  intros Hi. apply lookup_lt_Some in Hi.
  destruct (decide (k' = k)) as [->|]; [|by rewrite decide_False by congruence].
  destruct (decide (i' = i)) as [->|].
  - rewrite list_lookup_insert_eq by done. by rewrite decide_True.
  - rewrite list_lookup_insert_ne by done. by rewrite decide_False by congruence.
Qed.

Lemma slot_set rd p o rd' : slot rd' (set_slot rd p o) = if Bool.eqb rd' rd then o else slot rd' p.
Proof. by destruct rd, rd'. Qed.
Lemma slot_outstanding rd p l : slot rd (set_outstanding p l) = slot rd p.
Proof. by destruct rd. Qed.

(** ** The packet size *)

Lemma chunk_spec cfg addr left :
  0 < cacheLineSize cfg < 2 ^ 31 → 0 ≤ addr → 0 < left < 2 ^ 31 →
  ∃ size, chunk cfg addr left = Ok size ∧ 0 < size ≤ left ∧
    addr mod cacheLineSize cfg + size ≤ cacheLineSize cfg ∧
    (size < left → (addr + size) mod cacheLineSize cfg = 0).
Proof.
  intros Hc Ha Hl. unfold chunk. set (cls := cacheLineSize cfg) in *.
  pose proof (Z.mod_pos_bound addr cls ltac:(lia)) as Hm.
  rewrite (proj2 (Z.eqb_neq cls 0)) by lia. cbv zeta.
  set (room := if addr mod cls =? 0 then cls else u64 (cls - addr mod cls)).
  assert (0 < room ≤ cls ∧ addr mod cls + room ≤ cls ∧ (addr + room) mod cls = 0) as (Hr & Hroom & Hal).
  { subst room. destruct (Z.eqb_spec (addr mod cls) 0) as [E|E].
    - rewrite E. split_and!; try lia. rewrite Zplus_mod, E, Z_mod_same_full. done.
    - rewrite wrapU_id by (split; lia). split_and!; try lia.
      rewrite <-Zplus_mod_idemp_l. replace (addr mod cls + _) with cls by lia. apply Z_mod_same_full. }
  assert (s32 room = room) as -> by (apply wrapS_id; [lia|split; lia]).
  rewrite (proj2 (Z.eqb_neq room (- 2 ^ 31))) by lia. eexists; split; [done|].
  rewrite wrapU_id by (split; lia). case_zbool; [split_and!; lia|].
  rewrite wrapS_id by (done || split; lia). split_and!; try lia.
Qed.

(** ** Launching a request

    The effect of a launch, whatever the direction and the answer of the
    port. *)
Record launched (rd : bool) (m : Mem) (r : nat) (q : MemoryRequest) (pid : PortId) (p : Port)
    (m' : Mem) (q' : MemoryRequest) (pk : Packet) (p' : Port) : Prop := {
  la_reqs : reqs m' = <[r := q']> (reqs m);
  la_pkts : pkts m' = <[nextPkt m := pk]> (pkts m);
  la_next : nextPkt m' = S (nextPkt m);
  la_ports : ∀ pid', port_of m' pid' = if decide (pid' = pid) then Some p' else port_of m pid';
  la_slot : slot rd p' = Some r;
  la_other : slot (negb rd) p' = slot (negb rd) p;
  la_queue : ∀ d, queue d m' = queue d m;
  la_acc : ∀ d, acc d m' = if Bool.eqb d rd then acc rd m ++ [r] else acc d m;
  la_ok : rq_ok rd q';
  la_pkt : mr_pkt q' = Some (nextPkt m);
  la_port : mr_port q' = Some pid;
  la_kind : pk_kind pk = kind_of rd;
  la_paddr : pk_paddr pk = current rd q;
  la_size : 0 < pk_size pk;
  la_end : pk_paddr pk + pk_size pk = current rd q';
  la_same : address q' = address q ∧ totalLength q' = totalLength q ∧ buffer q' = buffer q ∧
    readsDone q' = readsDone q ∧ readDone q' = readDone q ∧ writeDone q' = writeDone q;
  la_data : rd = false →
    mem_read (buffer q) (pk_paddr pk - address q) (pk_size pk) = Ok (pk_data pk);
}.

Section Operations.
Context (cfg : Params) (env : Env).
Hypothesis Hcls : 0 < cacheLineSize cfg < 2 ^ 31.

(** Scheduling the tick and noting a sent packet leave the rest alone. *)
Definition same_mem (m m' : Mem) : Prop :=
  reqs m' = reqs m ∧ pkts m' = pkts m ∧ nextPkt m' = nextPkt m ∧ ports m' = ports m ∧
  (∀ d, queue d m' = queue d m) ∧ (∀ d, acc d m' = acc d m).

Lemma schedule_tick_same m : same_mem m (schedule_tick cfg env m).
Proof. unfold schedule_tick, schedule_at. by destruct (tickAt m). Qed.

Lemma schedule_at_scheduled m t : tickAt (schedule_at m t) ≠ None.
Proof. unfold schedule_at. destruct (tickAt m) eqn:E; simpl; by rewrite ?E. Qed.

Lemma after_send_same m pid p left :
  port_of m pid = Some p → ∃ m', after_send cfg env m pid left = Ok m' ∧ same_mem m m'.
Proof.
  intros Hp. unfold after_send. case_zbool; [|eauto using schedule_tick_same].
  rewrite (proj2 (port_at_of m pid p) Hp). cbn [mbind outcome_bind].
  destruct (isStalled p); eauto using schedule_tick_same. by exists m.
Qed.

Lemma sendPacket_shape m pid p k :
  port_of m pid = Some p →
  ∃ m' p', sendPacket env m pid k = Ok m' ∧ reqs m' = reqs m ∧ pkts m' = pkts m ∧
    nextPkt m' = nextPkt m ∧ (∀ d, queue d m' = queue d m) ∧ (∀ d, acc d m' = acc d m) ∧
    (∀ pid', port_of m' pid' = if decide (pid' = pid) then Some p' else port_of m pid') ∧
    (∀ d, slot d p' = slot d p).
Proof.
  intros Hp. unfold sendPacket. rewrite (proj2 (port_at_of m pid p) Hp). cbn [mbind outcome_bind].
  destruct (_ || _).
  - eexists _, (set_outstanding p (outstandingPkts p ++ [k])). split; [done|]. split_and!; try done.
    intros pid'. by apply (port_of_set m pid p).
  - eexists _, p. split; [done|]. split_and!; try done. intros pid'.
    case_decide; [by subst|done].
Qed.

(** The common end of [tryRead] and [tryWrite]: the packet [pk] is sent and the
    request becomes [q']. *)
Lemma send_shape rd m r q q' pid p pk left :
  port_of m pid = Some p → slot rd p = Some r → reqs m !! r = Some q →
  ∃ m' p',
    (let* m1 := sendPacket env (new_pkt m pk) pid (nextPkt m) in
     after_send cfg env (set_req m1 r q') pid left) = Ok m' ∧
    reqs m' = <[r := q']> (reqs m) ∧ pkts m' = <[nextPkt m := pk]> (pkts m) ∧
    nextPkt m' = S (nextPkt m) ∧ (∀ d, queue d m' = queue d m) ∧ (∀ d, acc d m' = acc d m) ∧
    (∀ pid', port_of m' pid' = if decide (pid' = pid) then Some p' else port_of m pid') ∧
    (∀ d, slot d p' = slot d p).
Proof.
  intros Hp Hs Hq.
  destruct (sendPacket_shape (new_pkt m pk) pid p (nextPkt m) Hp)
    as (m1 & p' & -> & Er & Ek & En & Eq & Ea & Ep & Es). cbn [mbind outcome_bind].
  destruct (after_send_same (set_req m1 r q') pid p' left) as (m' & -> & Hm').
  { change (port_of m1 pid = Some p'). by rewrite Ep, decide_True. }
  destruct Hm' as (Er' & Ek' & En' & Ep' & Eq' & Ea').
  exists m', p'. rewrite Er', Ek', En'. simpl. rewrite Er, Ek, En. split_and!; try done.
  - intros d. rewrite Eq'. apply (Eq d).
  - intros d. rewrite Ea'. apply (Ea d).
  - intros pid'. unfold port_of. rewrite Ep'. apply Ep.
Qed.

(** A request after its next packet left. *)
Definition advance (rd : bool) (q : MemoryRequest) (k : nat) (size : Z) : MemoryRequest :=
  if rd then advance_read q k size else advance_write q k size.

Lemma advance_ok rd q k size :
  rq_ok rd q → 0 < size ≤ left_ rd q →
  rq_ok rd (advance rd q k size) ∧ current rd (advance rd q k size) = current rd q + size.
Proof.
  intros [[Ha Ha'] Hb Ht Hl Hc Hbuf Hn] Hs.
  destruct rd; simpl in *.
  all: assert (∀ z, 0 ≤ z < 2 ^ 64 → u64 z = z) as W by (intros; by apply wrapU_id).
  all: split; [split; simpl; rewrite ?W by lia; try done; try lia|by rewrite W by lia].
  all: case_zbool; [rewrite Hn; apply Z.ltb_lt; lia|done].
Qed.

(** [tryRead] or [tryWrite] on a port whose slot holds the request. *)
Lemma tryAccess_shape rd m r q pid p :
  port_of m pid = Some p → slot rd p = Some r → reqs m !! r = Some q → rq_ok rd q →
  0 < left_ rd q →
  ∃ m' size data p', tryAccess cfg env rd m pid = Ok m' ∧
    let pk := mkPacket (kind_of rd) (current rd q) size data in
    let q' := advance rd q (nextPkt m) size in
    0 < size ≤ left_ rd q ∧
    (rd = false → mem_read (buffer q) (current rd q - address q) size = Ok data) ∧
    reqs m' = <[r := q']> (reqs m) ∧ pkts m' = <[nextPkt m := pk]> (pkts m) ∧
    nextPkt m' = S (nextPkt m) ∧ (∀ d, queue d m' = queue d m) ∧ (∀ d, acc d m' = acc d m) ∧
    (∀ pid', port_of m' pid' = if decide (pid' = pid) then Some p' else port_of m pid') ∧
    (∀ d, slot d p' = slot d p).
Proof.
  intros Hp Hs Hq [[Ha Ha'] Hb Ht Hl Hc Hbuf Hn] Hpos.
  destruct (chunk_spec cfg (current rd q) (left_ rd q)) as (size & Hch & Hsz & _); [done|lia..|].
  assert (tryAccess cfg env rd m pid = if rd then tryRead cfg env m pid else tryWrite cfg env m pid)
    as -> by (destruct pid as [[] ?], rd; done).
  pose proof (proj2 (port_at_of m pid p) Hp) as Ep. pose proof (proj2 (req_at_ok m r q) Hq) as Eq.
  destruct rd; simpl in *.
  - destruct (send_shape true m r q (advance_read q (nextPkt m) size) pid p
      (mkPacket PRead (currentReadAddr q) size []) (u64 (readLeft q - size)) Hp Hs Hq)
      as (m' & p' & Hm' & ?).
    exists m', size, [], p'. split; [|done].
    unfold tryRead. rewrite Ep. cbn [mbind outcome_bind]. rewrite Hs. cbn [deref mbind outcome_bind].
    rewrite Eq. cbn [mbind outcome_bind]. rewrite (proj2 (Z.leb_gt _ _)) by lia. rewrite Hch. apply Hm'.
  - assert (u64 (totalLength q - writeLeft q) = totalLength q - writeLeft q) as Eu
      by (apply wrapU_id; split; lia).
    pose proof (mem_read_ok (buffer q) (totalLength q - writeLeft q) size) as Hdata.
    specialize (Hdata ltac:(lia) ltac:(lia) ltac:(lia)).
    destruct (send_shape false m r q (advance_write q (nextPkt m) size) pid p
      (mkPacket PWrite (currentWriteAddr q) size
        (take (Z.to_nat size) (drop (Z.to_nat (totalLength q - writeLeft q)) (buffer q))))
      (u64 (writeLeft q - size)) Hp Hs Hq)
      as (m' & p' & Hm' & ?).
    exists m', size. eexists _, p'. split; [|split; [done|split; [|done]]].
    + unfold tryWrite. rewrite Ep. cbn [mbind outcome_bind]. rewrite Hs. cbn [deref mbind outcome_bind].
      rewrite Eq. cbn [mbind outcome_bind]. rewrite (proj2 (Z.leb_gt _ _)) by lia. rewrite Hch. cbn [mbind outcome_bind]. rewrite Eu, Hdata. apply Hm'.
    + intros _. rewrite Hc. by replace (address q + (totalLength q - writeLeft q) - address q)
        with (totalLength q - writeLeft q) by lia.
Qed.

Lemma launch_shape rd m r q pid p :
  port_of m pid = Some p → reqs m !! r = Some q → rq_ok rd q → 0 < left_ rd q →
  ∃ m' q' pk p', launch cfg env rd m r pid = Ok m' ∧ launched rd m r q pid p m' q' pk p'.
Proof.
  intros Hp Hq Hok Hpos. unfold launch.
  rewrite (proj2 (port_at_of m pid p) Hp). cbn [mbind outcome_bind].
  rewrite (proj2 (req_at_ok m r q) Hq). cbn [mbind outcome_bind].
  rewrite (rq_need _ _ Hok), (proj2 (Z.ltb_lt _ _)) by lia.
  set (m1 := set_req _ _ _). set (q1 := set_carrier q pid).
  assert (rq_ok rd q1) as Hok1 by (destruct Hok, rd; split; done).
  assert (∀ pid', port_of m1 pid' =
    if decide (pid' = pid) then Some (set_slot rd p (Some r)) else port_of m pid') as Hp1
    by (intros pid'; by apply (port_of_set m pid p)).
  destruct (tryAccess_shape rd m1 r q1 pid (set_slot rd p (Some r)))
    as (m' & size & data & p' & -> & Hsz & Hdata & Er & Ek & En & Eq & Ea & Ep & Es).
  { by rewrite Hp1, decide_True. } { rewrite slot_set. by destruct rd. }
  { apply lookup_insert_eq. } { done. } { by destruct rd. }
  destruct (advance_ok rd q1 (nextPkt m) size Hok1 Hsz) as [Hok' Hcur].
  cbn [mbind outcome_bind]. eexists _, _, _, p'. split; [done|].
  assert (∀ d, acc d (set_acc rd m' (acc rd m' ++ [r])) =
    if Bool.eqb d rd then acc rd m' ++ [r] else acc d m') as Hacc by (by destruct rd; intros []).
  assert (address q1 = address q ∧ totalLength q1 = totalLength q ∧ current rd q1 = current rd q ∧
    buffer q1 = buffer q) as (Ha1 & Ht1 & Hc1 & Hb1) by (by destruct rd).
  split; simpl.
  - rewrite Er. simpl. by rewrite insert_insert_eq.
  - exact Ek.
  - exact En.
  - intros pid'. change (port_of m' pid' = if decide (pid' = pid) then Some p' else port_of m pid').
    rewrite Ep. case_decide; [done|]. rewrite Hp1. by rewrite decide_False.
  - rewrite Es, slot_set. by destruct rd.
  - rewrite Es, slot_set. by destruct rd.
  - intros d. transitivity (queue d m'); [by destruct rd, d|]. rewrite Eq. by destruct d.
  - intros d. rewrite Hacc, !Ea. by destruct d, rd.
  - exact Hok'.
  - by destruct rd.
  - by destruct rd.
  - done.
  - by destruct rd.
  - apply Hsz.
  - symmetry. exact Hcur.
  - by destruct rd.
  - by rewrite <-Hb1, <-Ha1.
Qed.

(** *** Moving a request between the queues *)

Definition upd {A} (f : bool → A) (rd : bool) (v : A) : bool → A :=
  fun d => if Bool.eqb d rd then v else f d.

Lemma upd_eq {A} (f : bool → A) rd v : upd f rd v rd = v.
Proof. unfold upd. by rewrite Bool.eqb_reflx. Qed.
Lemma upd_ne {A} (f : bool → A) rd v : upd f rd v (negb rd) = f (negb rd).
Proof. by destruct rd. Qed.

Lemma everything_elem (Q A : bool → list nat) r :
  r ∈ everything Q A ↔ ∃ d, r ∈ Q d ∨ r ∈ A d.
Proof.
  unfold everything. rewrite !elem_of_app. split.
  - intros [?|[?|[?|?]]]; eauto.
  - intros [[] [?|?]]; eauto.
Qed.

(** The queues of one direction are moved as a block. *)
Lemma everything_dir (Q A : bool → list nat) rd :
  everything Q A ≡ₚ (Q rd ++ A rd) ++ Q (negb rd) ++ A (negb rd).
Proof.
  unfold everything. destruct rd; simpl; rewrite app_assoc; [done|].
  by rewrite Permutation_app_comm, <-app_assoc, app_assoc.
Qed.

Lemma everything_upd (Q A : bool → list nat) rd q a l :
  q ++ a ≡ₚ l ++ Q rd ++ A rd →
  everything (upd Q rd q) (upd A rd a) ≡ₚ l ++ everything Q A.
Proof.
  intros H. rewrite (everything_dir _ _ rd), (everything_dir Q A rd).
  rewrite !upd_eq, !upd_ne, H. by rewrite <-!app_assoc.
Qed.

Lemma nodup_QA Q A d d' r : NoDup (everything Q A) → r ∈ Q d → r ∈ A d' → False.
Proof.
  intros HN HQ HA. rewrite (everything_dir _ _ d) in HN.
  apply NoDup_app in HN as (H1 & H2 & H3). apply NoDup_app in H1 as (_ & H4 & _).
  destruct (decide (d' = d)) as [->|]; [by apply (H4 r)|].
  assert (d' = negb d) as -> by (by destruct d, d').
  apply (H2 r); [rewrite elem_of_app; by left|rewrite elem_of_app; by right].
Qed.
Lemma nodup_A Q A d d' r : NoDup (everything Q A) → r ∈ A d → r ∈ A d' → d' = d.
Proof.
  intros HN HQ HA. rewrite (everything_dir _ _ d) in HN.
  apply NoDup_app in HN as (H1 & H2 & H3).
  destruct (decide (d' = d)) as [->|]; [done|].
  assert (d' = negb d) as -> by (by destruct d, d').
  destruct (H2 r); [rewrite elem_of_app; by right|rewrite elem_of_app; by right].
Qed.
Lemma nodup_Q Q A d d' r : NoDup (everything Q A) → r ∈ Q d → r ∈ Q d' → d' = d.
Proof.
  intros HN HQ HA. rewrite (everything_dir _ _ d) in HN.
  apply NoDup_app in HN as (H1 & H2 & H3).
  destruct (decide (d' = d)) as [->|]; [done|].
  assert (d' = negb d) as -> by (by destruct d, d').
  destruct (H2 r); [rewrite elem_of_app; by left|rewrite elem_of_app; by left].
Qed.
Lemma nodup_dir Q A d : NoDup (everything Q A) → NoDup (Q d ++ A d).
Proof. intros HN. rewrite (everything_dir _ _ d) in HN. by apply NoDup_app in HN as [? _]. Qed.

(** A packet and a port in use are not touched by what happens to others. *)
Lemma flying_frame m m' rd r q pk :
  flying m rd r q pk →
  (∀ k, mr_pkt q = Some k → pkts m' !! k = pkts m !! k) →
  (∀ pid p, mr_port q = Some pid → port_of m pid = Some p → slot rd p = Some r →
    ∃ p', port_of m' pid = Some p' ∧ slot rd p' = Some r) →
  flying m' rd r q pk.
Proof.
  intros [???? ? (k & Hk & Hpk) (pid & p & Hpid & Hp & Hs)] H1 H2. split; try done.
  - exists k. by rewrite H1.
  - destruct (H2 pid p Hpid Hp Hs) as (p' & ? & ?). by exists pid, p'.
Qed.

Lemma progress_same μ rd q q' n :
  address q' = address q ∧ totalLength q' = totalLength q ∧ buffer q' = buffer q ∧
  readsDone q' = readsDone q ∧ readDone q' = readDone q ∧ writeDone q' = writeDone q →
  progress μ rd q n → progress μ rd q' n.
Proof. unfold progress. intros (-> & -> & -> & -> & -> & ->). done. Qed.

(** A request leaves the queue [kept ++ r :: todo] for the in-flight list. *)
Lemma launch_perm (Q A : bool → list nat) rd r kept todo :
  Q rd = kept ++ r :: todo →
  everything (upd Q rd (kept ++ todo)) (upd A rd (A rd ++ [r])) ≡ₚ everything Q A.
Proof.
  intros HQ. apply (everything_upd Q A rd _ _ []). rewrite HQ. simpl.
  rewrite <-!app_assoc. apply Permutation_app_head. simpl.
  by rewrite app_assoc, Permutation_app_comm.
Qed.

Lemma launch_queued (Q A : bool → list nat) rd r kept todo d r' :
  NoDup (everything Q A) → Q rd = kept ++ r :: todo →
  r' ∈ upd Q rd (kept ++ todo) d → r' ∈ Q d ∧ r' ≠ r.
Proof.
  intros HN HQ. assert (r ∈ Q rd) as Hin by (rewrite HQ; set_solver).
  unfold upd. destruct (Bool.eqb_spec d rd) as [->|Hd]; intros Hr'.
  - split; [rewrite HQ; set_solver|intros ->].
    apply (nodup_dir _ _ rd), NoDup_app in HN as (HN & _). rewrite HQ in HN.
    apply NoDup_app in HN as (_ & H1 & H2). apply NoDup_cons in H2 as [H2 _].
    apply elem_of_app in Hr' as [Hr'|Hr']; [|done]. apply (H1 r Hr'). set_solver.
  - split; [done|intros ->]. by rewrite (nodup_Q Q A rd d r HN Hin Hr') in Hd.
Qed.

Lemma launch_acc (Q A : bool → list nat) rd r d r' :
  NoDup (everything Q A) → r ∈ Q rd → r' ∈ upd A rd (A rd ++ [r]) d →
  r' ∈ A d ∧ r' ≠ r ∨ r' = r ∧ d = rd.
Proof.
  intros HN Hin. assert (r' ∈ A d → r' ≠ r) as Hne
    by (intros ? ->; by apply (nodup_QA Q A rd d r HN)).
  unfold upd. destruct (Bool.eqb_spec d rd) as [->|Hd]; [|auto].
  rewrite elem_of_app, list_elem_of_singleton. intros [?| ->]; auto.
Qed.

Lemma launched_flying rd m r q pid p m' q' pk p' :
  launched rd m r q pid p m' q' pk p' → rq_ok rd q → flying m' rd r q' pk.
Proof.
  intros L Hok. destruct (la_same _ _ _ _ _ _ _ _ _ _ L) as (Ha & _ & Hb & _).
  split; try apply L; rewrite ?Ha, ?Hb.
  - rewrite (la_paddr _ _ _ _ _ _ _ _ _ _ L), (rq_current _ _ Hok).
    pose proof (rq_left _ _ Hok). lia.
  - apply L.
  - exists (nextPkt m). split; [apply L|]. rewrite (la_pkts _ _ _ _ _ _ _ _ _ _ L).
    apply lookup_insert_eq.
  - exists pid, p'. rewrite (la_ports _ _ _ _ _ _ _ _ _ _ L), decide_True by done.
    split_and!; apply L || done.
Qed.

Section Launched.
Context (μ : nat → Z → Z) (rd : bool) (Q A : bool → list nat) (m : Mem) (r : nat) (q : MemoryRequest)
  (pid : PortId) (p : Port) (m' : Mem) (q' : MemoryRequest) (pk : Packet) (p' : Port)
  (kept todo : list nat).
Hypothesis HI : Inv μ Q A m.
Hypothesis HQrd : Q rd = kept ++ r :: todo.
Hypothesis Hq : reqs m !! r = Some q.
Hypothesis Hp : port_of m pid = Some p.
Hypothesis Hfree : slot rd p = None.
Hypothesis L : launched rd m r q pid p m' q' pk p'.

Lemma launched_in : r ∈ Q rd.
Proof. rewrite HQrd. set_solver. Qed.

Lemma launched_A d r' :
  r' ∈ upd A rd (A rd ++ [r]) d → r' ∈ A d ∧ r' ≠ r ∨ r' = r ∧ d = rd.
Proof. apply (launch_acc Q A rd r d r' (inv_nodup _ _ _ _ HI) launched_in). Qed.

(** The new packet belongs to no older request. *)
Lemma launched_new d r' q0 :
  r' ∈ A d → reqs m !! r' = Some q0 → mr_pkt q0 ≠ Some (nextPkt m).
Proof.
  intros Hr' Hq0 Hk.
  destruct (inv_flying _ _ _ _ HI d r' q0 Hr' Hq0) as (_ & pk0 & [? ? ? ? ? (k & Hk' & Hpk) _] & _).
  rewrite Hk in Hk'. simplify_eq. apply (inv_pkts _ _ _ _ HI) in Hpk as [? _]. lia.
Qed.

Lemma launched_port d p0 r0 :
  port_of m pid = Some p0 → slot d p0 = Some r0 → slot d p' = Some r0.
Proof.
  rewrite Hp. intros [= <-] Hs. destruct (decide (d = rd)) as [->|Hd]; [congruence|].
  assert (d = negb rd) as -> by (by destruct d, rd).
  by rewrite (la_other _ _ _ _ _ _ _ _ _ _ L).
Qed.

Lemma launched_fly d r' q0 :
  r' ∈ upd A rd (A rd ++ [r]) d → reqs m' !! r' = Some q0 →
  rq_ok d q0 ∧ ∃ pk, flying m' d r' q0 pk ∧ progress (μ r') d q0 (pk_paddr pk - address q0).
Proof.
  rewrite (la_reqs _ _ _ _ _ _ _ _ _ _ L). intros Hr'.
  apply launched_A in Hr' as [[Hr' Hne]|[-> ->]].
  - rewrite lookup_insert_ne by done. intros Hq0.
    destruct (inv_flying _ _ _ _ HI d r' q0 Hr' Hq0) as (Hok0 & pk0 & Hf & Hpr). split; [done|].
    exists pk0. split; [|done]. apply (flying_frame m); [done|..].
    + intros k Hk. rewrite (la_pkts _ _ _ _ _ _ _ _ _ _ L), lookup_insert_ne; [done|].
      intros <-. by apply (launched_new d r' q0).
    + intros pid0 p0 _ Hp0 Hs0. rewrite (la_ports _ _ _ _ _ _ _ _ _ _ L).
      case_decide as E; [subst pid0|eauto]. exists p'. eauto using launched_port.
  - rewrite lookup_insert_eq. intros [= <-]. split; [apply L|].
    destruct (inv_queued _ _ _ _ HI rd r q launched_in Hq) as (Hok & Hpos & Hprog).
    exists pk. split; [by eapply launched_flying|].
    pose proof (la_same _ _ _ _ _ _ _ _ _ _ L) as Hsame.
    eapply progress_same; [exact Hsame|]. destruct Hsame as (-> & _).
    rewrite (la_paddr _ _ _ _ _ _ _ _ _ _ L), (rq_current _ _ Hok).
    by replace (address q + (totalLength q - left_ rd q) - address q)
      with (totalLength q - left_ rd q) by lia.
Qed.

Lemma launched_still d r' : r' ∈ A d → r' ∈ upd A rd (A rd ++ [r]) d.
Proof. unfold upd. destruct (Bool.eqb_spec d rd) as [->|]; [set_solver|done]. Qed.
Lemma launched_now : r ∈ upd A rd (A rd ++ [r]) rd.
Proof. rewrite upd_eq. set_solver. Qed.
Lemma launched_ne d r' : r' ∈ A d → r' ≠ r.
Proof.
  intros ? ->. by apply (nodup_QA Q A rd d r (inv_nodup _ _ _ _ HI) launched_in).
Qed.

Lemma launched_slots pid0 p0 d r0 :
  port_of m' pid0 = Some p0 → slot d p0 = Some r0 →
  r0 ∈ upd A rd (A rd ++ [r]) d ∧ ∃ q0, reqs m' !! r0 = Some q0 ∧ mr_port q0 = Some pid0.
Proof.
  rewrite (la_ports _ _ _ _ _ _ _ _ _ _ L), (la_reqs _ _ _ _ _ _ _ _ _ _ L).
  assert (∀ pid1 p1, port_of m pid1 = Some p1 → slot d p1 = Some r0 →
    r0 ∈ upd A rd (A rd ++ [r]) d ∧ ∃ q0, <[r:=q']> (reqs m) !! r0 = Some q0 ∧ mr_port q0 = Some pid1)
    as Hold.
  { intros pid1 p1 H1 H2. destruct (inv_slots _ _ _ _ HI pid1 p1 d r0 H1 H2) as [Hr0 (q0 & ? & ?)].
    split; [by apply launched_still|]. exists q0. rewrite lookup_insert_ne; [done|].
    intros <-. by eapply launched_ne. }
  case_decide as E; [subst pid0|by apply Hold]. intros [= <-] Hs.
  destruct (decide (d = rd)) as [->|Hd].
  - rewrite (la_slot _ _ _ _ _ _ _ _ _ _ L) in Hs. injection Hs as <-.
    split; [apply launched_now|]. exists q'. rewrite lookup_insert_eq. split; [done|apply L].
  - assert (d = negb rd) as -> by (by destruct d, rd).
    rewrite (la_other _ _ _ _ _ _ _ _ _ _ L) in Hs. by apply (Hold pid p).
Qed.

Lemma launched_inv : Inv μ (upd Q rd (kept ++ todo)) (upd A rd (A rd ++ [r])) m'.
Proof.
  pose proof (launch_perm Q A rd r kept todo HQrd) as Hev.
  pose proof (la_reqs _ _ _ _ _ _ _ _ _ _ L) as Er. pose proof (inv_nodup _ _ _ _ HI) as HN.
  split.
  - by rewrite Hev.
  - intros r'. rewrite Hev, (inv_dom _ _ _ _ HI), Er, lookup_insert_is_Some.
    destruct (decide (r = r')); naive_solver.
  - intros d r' q0 Hr'. destruct (launch_queued Q A rd r kept todo d r' HN HQrd Hr') as [? ?].
    rewrite Er, lookup_insert_ne by done. by apply HI.
  - apply launched_fly.
  - apply launched_slots.
  - intros k pk0. rewrite (la_pkts _ _ _ _ _ _ _ _ _ _ L), (la_next _ _ _ _ _ _ _ _ _ _ L).
    destruct (decide (k = nextPkt m)) as [->|Hk].
    + intros _. split; [lia|]. exists rd, r, q'. rewrite Er, lookup_insert_eq.
      split_and!; [apply launched_now|done|apply L].
    + rewrite lookup_insert_ne by done. intros Hk0.
      destruct (inv_pkts _ _ _ _ HI k pk0 Hk0) as (? & d & r' & q0 & Hr' & ? & ?).
      split; [lia|]. exists d, r', q0. rewrite Er, lookup_insert_ne
        by (intros <-; by eapply launched_ne). eauto using launched_still.
  - intros d r1 q1 d' r2 q2 k H1 H2. rewrite Er.
    pose proof (la_pkt _ _ _ _ _ _ _ _ _ _ L) as Hk'.
    apply launched_A in H1 as [[H1 N1]|[-> ->]]; apply launched_A in H2 as [[H2 N2]|[-> ->]];
      rewrite ?lookup_insert_eq, ?lookup_insert_ne by done.
    + apply (inv_pkt_inj _ _ _ _ HI d r1 q1 d' r2 q2 k H1 H2).
    + intros Hq1 [= <-] Hk1 ?. destruct (launched_new d r1 q1 H1 Hq1). congruence.
    + intros [= <-] Hq2 ? Hk2. destruct (launched_new d' r2 q2 H2 Hq2). congruence.
    + done.
Qed.
End Launched.

(** ** The loops of processMemoryRequests *)

Lemma Inv_ext μ Q A Q' A' m :
  (∀ d, Q' d = Q d) → (∀ d, A' d = A d) → Inv μ Q A m → Inv μ Q' A' m.
Proof.
  intros HQ HA [H1 H2 H3 H4 H5 H6 H7].
  assert (everything Q' A' = everything Q A) as E by (unfold everything; by rewrite !HQ, !HA).
  split; rewrite ?E; try done.
  - intros d r q. rewrite HQ. apply H3.
  - intros d r q. rewrite HA. apply H4.
  - intros pid p d r. rewrite HA. apply H5.
  - intros k pk Hk. destruct (H6 k pk Hk) as (? & d & r & q & ? & ?). split; [done|].
    exists d, r, q. by rewrite HA.
  - intros d r q d' r' q' k. rewrite !HA. apply H7.
Qed.

Lemma Inv_same μ Q A m m' :
  reqs m' = reqs m → pkts m' = pkts m → nextPkt m' = nextPkt m → ports m' = ports m →
  Inv μ Q A m → Inv μ Q A m'.
Proof.
  intros Er Ek En Ep [H1 H2 H3 H4 H5 H6 H7].
  assert (∀ pid, port_of m' pid = port_of m pid) as Ep' by (intros; unfold port_of; by rewrite Ep).
  split; rewrite ?Er, ?Ek, ?En; try done.
  - intros d r q Hr Hq. destruct (H4 d r q Hr Hq) as (? & pk & Hf & ?). split; [done|].
    exists pk. split; [|done]. apply (flying_frame m); [done|by rewrite Ek|].
    intros pid p _ ??. exists p. by rewrite Ep'.
  - intros pid p d r. rewrite Ep'. apply H5.
Qed.

(** The invariant of the whole state. *)
Definition MInv (μ : nat → Z → Z) (m : Mem) : Prop :=
  Inv μ (fun d => queue d m) (fun d => acc d m) m.

Lemma live_same m m' d : same_mem m m' → live d m' = live d m.
Proof. intros (_ & _ & _ & _ & Eq & Ea). unfold live. by rewrite Eq, Ea. Qed.

Lemma MInv_same μ m m' : same_mem m m' → MInv μ m → MInv μ m'.
Proof.
  intros (Er & Ek & En & Ep & Eq & Ea) HI.
  apply (Inv_same μ _ _ m m'); [done..|]. by eapply Inv_ext; [..|exact HI].
Qed.

(** A found port exists, is idle in this direction and has the address. *)
Lemma getValidPort_free m k add rd ok :
  match getValidPort env m k add rd ok with
  | Some pid => ∃ p, port_of m pid = Some p ∧ slot rd p = None ∧ isStalled p = false ∧
      in_ranges env pid add = true
  | None => True
  end.
Proof.
  unfold getValidPort. destruct (List.find _ _) as [i|] eqn:E; [|done]. simpl.
  apply find_some in E as [_ E]. zbool. unfold port_free in H. unfold port_of. simpl in *.
  destruct (ports m k !! i) as [p|]; [|done]. zbool.
  exists p. by destruct (slot rd p).
Qed.

Definition reachable_addr (m : Mem) (add : Z) : bool :=
  inStreamRange env m add || inSPMRange env m add || inLocalRange env m add ||
  inGlobalRange env m add.

Lemma selectPort_spec m add len rd :
  match selectPort env m add len rd with
  | Ok (Some pid) => ∃ p, port_of m pid = Some p ∧ slot rd p = None ∧ isStalled p = false ∧
      in_ranges env pid add = true
  | Ok None => True
  | Err e => e = Panic ∧ reachable_addr m add = false
  end.
Proof.
  unfold selectPort, reachable_addr.
  destruct (inStreamRange _ _ _); [apply getValidPort_free|].
  destruct (inSPMRange _ _ _); [apply getValidPort_free|].
  destruct (inLocalRange _ _ _); [apply getValidPort_free|].
  destruct (inGlobalRange _ _ _); [apply getValidPort_free|done].
Qed.

(** Which addresses are reachable depends on which ports exist only. *)
Lemma inRange_spec m k add :
  inRange env m k add = true ↔ ∃ i, is_Some (port_of m (k, i)) ∧ in_ranges env (k, i) add = true.
Proof.
  unfold inRange, port_ids, port_of. rewrite existsb_exists. split.
  - intros (i & Hi & ?). exists i. split; [|done]. apply in_seq in Hi. simpl.
    apply lookup_lt_is_Some. lia.
  - intros (i & Hi & ?). exists i. split; [|done]. apply lookup_lt_is_Some in Hi. simpl in Hi.
    apply in_seq. lia.
Qed.

Lemma reachable_addr_ports m m' add :
  (∀ pid, is_Some (port_of m' pid) ↔ is_Some (port_of m pid)) →
  reachable_addr m' add = reachable_addr m add.
Proof.
  intros H. assert (∀ k, inRange env m' k add = inRange env m k add) as E.
  { intros k. apply eq_true_iff_eq. rewrite !inRange_spec. by setoid_rewrite H. }
  unfold reachable_addr, inStreamRange, inSPMRange, inLocalRange, inGlobalRange. by rewrite !E.
Qed.

Lemma launched_ports rd m r q pid p m' q' pk p' pid' :
  port_of m pid = Some p → launched rd m r q pid p m' q' pk p' →
  is_Some (port_of m' pid') ↔ is_Some (port_of m pid').
Proof.
  intros Hp L. rewrite (la_ports _ _ _ _ _ _ _ _ _ _ L).
  case_decide; [subst; rewrite Hp|done]. split; eauto.
Qed.

Lemma memLoop_inv μ rd todo : ∀ m kept,
  Inv μ (upd (fun d => queue d m) rd (kept ++ todo)) (fun d => acc d m) m →
  match memLoop cfg env rd m kept todo with
  | Ok m' => MInv μ m' ∧ (∀ pid, is_Some (port_of m' pid) ↔ is_Some (port_of m pid)) ∧
      queue (negb rd) m' = queue (negb rd) m ∧
      (∀ r, r ∉ todo → reqs m' !! r = reqs m !! r) ∧
      (∀ d, live d m' ≡ₚ upd (fun d => queue d m) rd (kept ++ todo) d ++ acc d m)
  | Err e => e = Panic ∧ ∃ r q, r ∈ todo ∧ reqs m !! r = Some q ∧
      reachable_addr m (current rd q) = false
  end.
Proof.
  induction todo as [|r todo IH]; intros m kept HI; cbn [memLoop].
  { rewrite app_nil_r in HI. split_and!; try done; [|by destruct rd|by intros []; destruct rd; simpl; rewrite ?app_nil_r].
    apply (Inv_same μ _ _ m); try done. eapply Inv_ext; [| |exact HI]; intros []; by destruct rd. }
  assert (r ∈ upd (fun d => queue d m) rd (kept ++ r :: todo) rd) as Hin
    by (rewrite upd_eq; set_solver).
  destruct (proj1 (inv_dom _ _ _ _ HI r)) as [q Hq]; [apply everything_elem; eauto|].
  rewrite (proj2 (req_at_ok m r q) Hq). cbn [mbind outcome_bind].
  pose proof (selectPort_spec m (current rd q) (mr_length q) rd) as Hsel.
  destruct (selectPort _ _ _ _ _) as [[pid|]|e]; cbn [mbind outcome_bind].
  - destruct Hsel as (p & Hp & Hs & _).
    destruct (inv_queued _ _ _ _ HI rd r q Hin Hq) as (Hok & Hpos & _).
    destruct (launch_shape rd m r q pid p Hp Hq Hok Hpos) as (m' & q' & pk & p' & -> & L).
    cbn [mbind outcome_bind].
    pose proof (launched_inv μ rd _ _ m r q pid p m' q' pk p' kept todo HI (upd_eq _ _ _) Hq Hp Hs L) as HI'.
    pose proof (fun pid0 => launched_ports _ _ _ _ _ _ _ _ _ _ pid0 Hp L) as Hports.
    assert (r ∉ todo) as Hr.
    { pose proof (nodup_dir _ _ rd (inv_nodup _ _ _ _ HI)) as HN. rewrite upd_eq in HN.
      apply NoDup_app in HN as (HN & _). apply NoDup_app in HN as (_ & _ & HN).
      by apply NoDup_cons in HN as [? _]. }
    assert (Inv μ (upd (fun d => queue d m') rd (kept ++ todo)) (fun d => acc d m') m') as HI2.
    { eapply Inv_ext; [| |exact HI']; intros d; [|apply L].
      unfold upd. rewrite (la_queue _ _ _ _ _ _ _ _ _ _ L). by destruct (Bool.eqb d rd). }
    specialize (IH m' kept HI2). destruct (memLoop _ _ _ _ _ _) as [m''|e].
    + destruct IH as (? & Hp' & HQ & Hr' & Hlive). split_and!; [done| | | |].
      * intros pid'. by rewrite Hp', Hports.
      * by rewrite HQ, (la_queue _ _ _ _ _ _ _ _ _ _ L).
      * intros r0 Hr0. apply not_elem_of_cons in Hr0 as [? ?].
        rewrite Hr', (la_reqs _ _ _ _ _ _ _ _ _ _ L), lookup_insert_ne by done. done.
      * intros d. rewrite Hlive, (la_acc _ _ _ _ _ _ _ _ _ _ L). unfold upd.
        destruct (Bool.eqb_spec d rd) as [->|]; [|by rewrite (la_queue _ _ _ _ _ _ _ _ _ _ L)].
        solve_Permutation.
    + destruct IH as (-> & r0 & q0 & Hr0 & Hq0 & Hun).
      split; [done|]. exists r0, q0. rewrite <-(reachable_addr_ports m m') by done.
      rewrite (la_reqs _ _ _ _ _ _ _ _ _ _ L), lookup_insert_ne in Hq0 by congruence.
      split_and!; [set_solver|done|done].
  - specialize (IH m (kept ++ [r])). rewrite <-app_assoc in IH. specialize (IH HI).
    destruct (memLoop _ _ _ _ _ _) as [m''|e].
    + destruct IH as (? & ? & ? & Hr & Hlive). split_and!; try done. intros r0 Hr0. apply Hr. set_solver.
    + destruct IH as (? & r0 & q0 & ? & ?). split; [done|]. exists r0, q0. set_solver.
  - destruct Hsel as [-> ?]. split; [done|]. exists r, q. set_solver.
Qed.

Lemma processMemoryRequests_inv μ m :
  MInv μ m →
  match processMemoryRequests cfg env m with
  | Ok m' => MInv μ m' ∧ ∀ d, live d m' ≡ₚ live d m
  | Err e => e = Panic ∧ ∃ rd r q, r ∈ queue rd m ∧ reqs m !! r = Some q ∧
      reachable_addr m (current rd q) = false
  end.
Proof.
  intros HI. unfold processMemoryRequests.
  assert (∀ m', MInv μ m' → (∀ d, live d m' ≡ₚ live d m) →
    MInv μ (if 0 <? requestsInQueues m' then schedule_tick cfg env m' else m') ∧
    ∀ d, live d (if 0 <? requestsInQueues m' then schedule_tick cfg env m' else m') ≡ₚ live d m) as Hend.
  { intros m' ? Hl. case_zbool; [|done]. pose proof (schedule_tick_same m') as Hs.
    split; [by eapply MInv_same|]. intros d. by rewrite (live_same m'). }
  destruct (allPortsStalled m); cbn [mbind outcome_bind]; [by apply Hend|].
  pose proof (memLoop_inv μ true (readQueue m) m []) as H1. destruct (memLoop _ _ true _ _ _) as [m1|e].
  - destruct H1 as (H1 & Hp & Hq & Hr & Hl1); [by eapply Inv_ext; [..|exact HI]; intros []|].
    cbn [mbind outcome_bind].
    pose proof (memLoop_inv μ false (writeQueue m1) m1 []) as H2.
    destruct (memLoop _ _ false _ _ _) as [m2|e]; cbn [mbind outcome_bind].
    + destruct H2 as (H2 & _ & _ & _ & Hl2); [by eapply Inv_ext; [..|exact H1]; intros []|].
      apply Hend; [done|]. intros d. rewrite Hl2. transitivity (live d m1); [by destruct d|].
      rewrite Hl1. by destruct d.
    + destruct H2 as (-> & r & q & Hin & Hq0 & Hun); [by eapply Inv_ext; [..|exact H1]; intros []|].
      split; [done|]. exists false, r, q. simpl in Hq. rewrite Hq in Hin.
      rewrite <-(reachable_addr_ports m m1) by done. rewrite Hr in Hq0; [done|].
      intros Hin'. by pose proof (nodup_Q _ _ true false r (inv_nodup _ _ _ _ HI) Hin' Hin).
  - destruct H1 as (-> & r & q & ?); [by eapply Inv_ext; [..|exact HI]; intros []|].
    split; [done|]. by exists true, r, q.
Qed.

(** ** New requests *)

Record fresh_req (μ : Z → Z) (rd : bool) (q : MemoryRequest) : Prop := {
  fr_ok : rq_ok rd q;
  fr_left : 0 < left_ rd q ∧ left_ rd q = totalLength q;
  fr_progress : progress μ rd q 0;
}.

Lemma MemoryRequest_read_fresh μ old add len :
  0 ≤ add → add + len < 2 ^ 64 → 0 < len < 2 ^ 31 →
  fresh_req μ true (MemoryRequest_read old add len).
Proof.
  intros. split.
  - split; simpl; rewrite ?length_replicate; try done; lia.
  - simpl. lia.
  - split; [done|]. split; [|done]. simpl. by rewrite Z.sub_0_r.
Qed.

Lemma MemoryRequest_write_fresh μ old add data len req :
  0 ≤ add → add + len < 2 ^ 64 → 0 < len < 2 ^ 31 →
  MemoryRequest_write old add data len = Ok req → fresh_req μ false req ∧
  buffer req = take (Z.to_nat len) data.
Proof.
  intros ? ? ? H'. unfold MemoryRequest_write in H'. apply bind_ok in H' as (bs & Hbs & [= <-]).
  unfold mem_read in Hbs. destruct (in_block _ _ _) eqn:E; [|done]. injection Hbs as <-.
  apply in_block_spec in E. split; [|done]. split.
  - split; simpl; rewrite ?length_take; change (drop (Z.to_nat 0) data) with data; try done; lia.
  - simpl. lia.
  - done.
Qed.

Definition enqueue (rd : bool) (m : Mem) (id : nat) (q : MemoryRequest) : Mem :=
  if rd then enqueueRead cfg env m id q else enqueueWrite cfg env m id q.

Lemma enqueue_reqs rd m id q : reqs (enqueue rd m id q) = <[id := q]> (reqs m).
Proof.
  destruct rd; unfold enqueue, enqueueRead, enqueueWrite, schedule_tick, schedule_at;
    simpl; by destruct (tickAt m).
Qed.

(** A new request only adds to the heap. *)
Lemma enqueue_frame μ Q A m m1 id q :
  Inv μ Q A m → reqs m !! id = None → reqs m1 = <[id := q]> (reqs m) → pkts m1 = pkts m →
  nextPkt m1 = nextPkt m → ports m1 = ports m →
  (∀ rd r q0, r ∈ A rd → reqs m1 !! r = Some q0 →
    rq_ok rd q0 ∧ ∃ pk, flying m1 rd r q0 pk ∧ progress (μ r) rd q0 (pk_paddr pk - address q0)) ∧
  (∀ pid p rd r, port_of m1 pid = Some p → slot rd p = Some r →
    r ∈ A rd ∧ ∃ q, reqs m1 !! r = Some q ∧ mr_port q = Some pid) ∧
  (∀ r d, r ∈ A d ∨ r ∈ Q d → reqs m1 !! r = reqs m !! r).
Proof.
  intros [HN HD HQ HA HS HP HJ] Hid Er Ek En Ep.
  assert (∀ r d, r ∈ A d ∨ r ∈ Q d → reqs m1 !! r = reqs m !! r) as Hold.
  { intros r d Hr. assert (is_Some (reqs m !! r)) as [q0 Hq0] by (apply HD, everything_elem; naive_solver).
    rewrite Er, lookup_insert_ne; [done|congruence]. }
  assert (∀ pid, port_of m1 pid = port_of m pid) as Ep' by (intros; unfold port_of; by rewrite Ep).
  split_and!; [..|done].
  - intros rd r q0 Hr. rewrite (Hold r rd) by auto. intros Hq0.
    destruct (HA rd r q0 Hr Hq0) as (? & pk & Hf & ?). split; [done|]. exists pk. split; [|done].
    apply (flying_frame m); [done|by rewrite Ek|]. intros pid p _ ??. exists p. by rewrite Ep'.
  - intros pid p rd r. rewrite Ep'. intros Hp Hs. destruct (HS pid p rd r Hp Hs) as [Hr Hx].
    split; [done|]. by rewrite (Hold r rd) by auto.
Qed.

Lemma enqueue_inv μ rd m id q :
  MInv μ m → reqs m !! id = None → fresh_req (μ id) rd q → MInv μ (enqueue rd m id q).
Proof.
  intros HI Hid [Hok [Hpos Hl] Hpr].
  set (m1 := set_queue rd (set_req m id q) (queue rd m ++ [id])).
  apply (MInv_same μ m1); [by destruct rd; apply schedule_tick_same|].
  destruct (enqueue_frame μ _ _ m m1 id q HI Hid) as (HA & HS & Hold); [done..|].
  eapply (Inv_ext μ (upd (fun d => queue d m) rd (queue rd m ++ [id])) (fun d => acc d m));
    [by destruct rd; intros []..|].
  unfold MInv in HI. set (Q := fun d => queue d m) in *. set (A := fun d => acc d m) in *.
  assert (everything (upd Q rd (queue rd m ++ [id])) A ≡ₚ id :: everything Q A) as Hev.
  { rewrite (everything_dir _ _ rd), (everything_dir Q A rd), upd_eq, upd_ne.
    by rewrite (Permutation_app_comm (queue rd m) [id]). }
  assert (∀ r, reqs m1 !! r = if decide (r = id) then Some q else reqs m !! r) as Er.
  { intros r. change (reqs m1) with (<[id := q]> (reqs m)). case_decide as E.
    - by rewrite E, lookup_insert_eq.
    - by rewrite lookup_insert_ne. }
  destruct HI as [HN HD HQ _ _ HP HJ].
  split; rewrite ?Hev; try done.
  - apply NoDup_cons. split; [|done]. rewrite HD, Hid. by intros [].
  - intros r. rewrite Hev, elem_of_cons, HD, Er. case_decide; naive_solver.
  - intros d r q0. rewrite Er. case_decide as E; unfold upd; [subst r|].
    + intros Hr [= <-]. assert (d = rd) as ->.
      { destruct (Bool.eqb_spec d rd) as [|]; [done|]. exfalso.
        assert (is_Some (reqs m !! id)) as [??] by (apply HD, everything_elem; eauto). congruence. }
      split_and!; [done..|]. by rewrite Hl, Z.sub_diag.
    + intros Hr Hq0. apply (HQ d r q0); [|done]. destruct (Bool.eqb_spec d rd) as [->|]; [|done].
      apply elem_of_app in Hr as [?|?]; [done|set_solver].
  - intros k pk Hk. destruct (HP k pk Hk) as (? & d & r & q0 & ? & ?). split; [done|].
    exists d, r, q0. rewrite (Hold r d) by auto. naive_solver.
  - intros d r q0 d' r' q1 k Hr Hr'. rewrite (Hold r d), (Hold r' d') by auto.
    by apply (HJ d r q0 d' r' q1 k).
Qed.

(** ** Responses *)

Lemma erase_first_perm l r : r ∈ l → l ≡ₚ r :: erase_first l r.
Proof.
  induction l as [|x l IH]; [by intros ?%not_elem_of_nil|]. simpl. intros Hr.
  destruct (Nat.eqb_spec x r) as [->|]; [done|].
  apply elem_of_cons in Hr as [?|Hr]; [congruence|]. rewrite (IH Hr) at 1. apply Permutation_swap.
Qed.

Section Received.
Context (μ : nat → Z → Z) (rd : bool) (Q A : bool → list nat) (m : Mem) (r : nat) (q : MemoryRequest)
  (k : nat) (pid : PortId) (p : Port) (m' : Mem) (o : option MemoryRequest).
Hypothesis HI : Inv μ Q A m.
Hypothesis Hr : r ∈ A rd.
Hypothesis Hq : reqs m !! r = Some q.
Hypothesis Hk : mr_pkt q = Some k.
Hypothesis Hpid : mr_port q = Some pid.
Hypothesis Hp : port_of m pid = Some p.
Hypothesis Hslot : slot rd p = Some r.
Hypothesis Er : reqs m' = partial_alter (fun _ => o) r (reqs m).
Hypothesis Ek : pkts m' = delete k (pkts m).
Hypothesis En : nextPkt m' = nextPkt m.
Hypothesis Ep : ∀ pid', port_of m' pid' =
  if decide (pid' = pid) then Some (set_slot rd p None) else port_of m pid'.
Hypothesis Ho : ∀ q', o = Some q' →
  rq_ok rd q' ∧ 0 < left_ rd q' ∧ progress (μ r) rd q' (totalLength q' - left_ rd q').

Let Q' := upd Q rd (match o with Some _ => r :: Q rd | None => Q rd end).
Let A' := upd A rd (erase_first (A rd) r).

Lemma received_nodup : NoDup (r :: erase_first (A rd) r).
Proof.
  rewrite <-erase_first_perm by done.
  by pose proof (nodup_dir _ _ rd (inv_nodup _ _ _ _ HI)) as (_ & _ & ?)%NoDup_app.
Qed.

Lemma received_A d r' : r' ∈ A' d ↔ r' ∈ A d ∧ r' ≠ r.
Proof.
  unfold A', upd. destruct (Bool.eqb_spec d rd) as [->|Hd].
  - rewrite (erase_first_perm (A rd) r Hr) at 2. rewrite elem_of_cons.
    pose proof received_nodup as [Hn _]%NoDup_cons. split; [|naive_solver].
    intros ?. split; [auto|]. by intros ->.
  - split; [|naive_solver]. intros Hr'. split; [done|intros ->].
    by rewrite (nodup_A _ _ rd d r (inv_nodup _ _ _ _ HI) Hr Hr') in Hd.
Qed.

Lemma received_Q d r' : r' ∈ Q' d → r' ∈ Q d ∧ r' ≠ r ∨ r' = r ∧ d = rd ∧ is_Some o.
Proof.
  assert (r' ∈ Q d → r' ≠ r) as Hne.
  { intros ? ->. by apply (nodup_QA Q A d rd r (inv_nodup _ _ _ _ HI)). }
  unfold Q', upd. destruct (Bool.eqb_spec d rd) as [->|Hd]; [|auto].
  destruct o; [|auto]. rewrite elem_of_cons. naive_solver.
Qed.

Lemma received_perm :
  match o with
  | Some _ => everything Q' A' ≡ₚ everything Q A
  | None => everything Q A ≡ₚ r :: everything Q' A'
  end.
Proof.
  pose proof (erase_first_perm (A rd) r Hr) as HA. unfold Q', A'. destruct o.
  - apply (everything_upd Q A rd _ _ []). simpl. rewrite HA at 2. by rewrite <-Permutation_middle.
  - rewrite (everything_dir Q A rd), (everything_dir _ _ rd), !upd_eq, !upd_ne.
    rewrite HA at 1. by rewrite <-Permutation_middle.
Qed.

Lemma received_reqs r' : r' ≠ r → reqs m' !! r' = reqs m !! r'.
Proof. intros. by rewrite Er, lookup_partial_alter_ne. Qed.
Lemma received_req : reqs m' !! r = o.
Proof. by rewrite Er, lookup_partial_alter_eq. Qed.

Lemma received_fly d r' q0 :
  r' ∈ A' d → reqs m' !! r' = Some q0 →
  rq_ok d q0 ∧ ∃ pk, flying m' d r' q0 pk ∧ progress (μ r') d q0 (pk_paddr pk - address q0).
Proof.
  intros [Hr' Hne]%received_A. rewrite received_reqs by done. intros Hq0.
  destruct (inv_flying _ _ _ _ HI d r' q0 Hr' Hq0) as (? & pk & Hf & ?). split; [done|].
  exists pk. split; [|done]. apply (flying_frame m); [done|..].
  - intros k' Hk'. rewrite Ek, lookup_delete_ne; [done|]. intros <-. apply Hne.
    by apply (inv_pkt_inj _ _ _ _ HI d r' q0 rd r q k).
  - intros pid0 p0 _ Hp0 Hs0. rewrite Ep. case_decide as E; [subst pid0|eauto].
    rewrite Hp in Hp0. injection Hp0 as <-. eexists; split; [done|]. rewrite slot_set.
    destruct (Bool.eqb_spec d rd) as [->|]; [congruence|done].
Qed.

Lemma received_slots pid0 p0 d r0 :
  port_of m' pid0 = Some p0 → slot d p0 = Some r0 →
  r0 ∈ A' d ∧ ∃ q0, reqs m' !! r0 = Some q0 ∧ mr_port q0 = Some pid0.
Proof.
  intros Hp0 Hs0.
  assert (∃ p1, port_of m pid0 = Some p1 ∧ slot d p1 = Some r0 ∧ ¬ (pid0 = pid ∧ d = rd)) as (p1 & H1 & H2 & H3).
  { rewrite Ep in Hp0. case_decide as E; [subst pid0|].
    - injection Hp0 as <-. exists p. rewrite slot_set in Hs0.
      destruct (Bool.eqb_spec d rd); [done|]. naive_solver.
    - exists p0. naive_solver. }
  destruct (inv_slots _ _ _ _ HI pid0 p1 d r0 H1 H2) as [Hr0 (q0 & Hq0 & Hm)].
  assert (r0 ≠ r) as Hne.
  { intros ->. apply H3. split; [congruence|].
    by apply (nodup_A Q A rd d r (inv_nodup _ _ _ _ HI)). }
  split; [by apply received_A|]. exists q0. by rewrite received_reqs.
Qed.

Lemma received_inv : Inv μ Q' A' m'.
Proof.
  pose proof received_perm as Hev. pose proof (inv_nodup _ _ _ _ HI) as HN.
  split.
  - destruct o; [by rewrite Hev|]. rewrite Hev in HN. by apply NoDup_cons in HN as [_ ?].
  - intros r'. pose proof (inv_dom _ _ _ _ HI r') as HD. destruct (decide (r' = r)) as [->|Hne].
    + rewrite received_req. destruct o.
      * rewrite Hev, HD, Hq. split; eauto.
      * rewrite Hev in HN. apply NoDup_cons in HN as [HN _]. split; [done|by intros []].
    + rewrite received_reqs, <-HD by done. destruct o; rewrite Hev; [done|].
      rewrite elem_of_cons. naive_solver.
  - intros d r' q0 [[Hr' Hne]|(-> & -> & _)]%received_Q.
    + rewrite received_reqs by done. by apply HI.
    + rewrite received_req. apply Ho.
  - apply received_fly.
  - apply received_slots.
  - intros k' pk'. rewrite Ek, En. intros [Hkk Hpk]%lookup_delete_Some.
    destruct (inv_pkts _ _ _ _ HI k' pk' Hpk) as (? & d & r' & q0 & Hr' & Hq0 & ?).
    assert (r' ≠ r) by (intros ->; congruence).
    split; [done|]. exists d, r', q0. rewrite received_reqs by done.
    split_and!; [by apply received_A|done|done].
  - intros d r1 q1 d' r2 q2 k' [H1 N1]%received_A [H2 N2]%received_A.
    rewrite !received_reqs by done. by apply (inv_pkt_inj _ _ _ _ HI d r1 q1 d' r2 q2 k').
Qed.
End Received.

Lemma find_pkt_spec m l k r q :
  (∀ r', r' ∈ l → is_Some (reqs m !! r')) →
  (∀ r' q', r' ∈ l → reqs m !! r' = Some q' → mr_pkt q' = Some k → r' = r) →
  r ∈ l → reqs m !! r = Some q → mr_pkt q = Some k → find_pkt m l k = Ok r.
Proof.
  induction l as [|x l IH]; intros Hs Hu Hr Hq Hk; [by apply not_elem_of_nil in Hr|].
  cbn [find_pkt]. destruct (Hs x) as [qx Hqx]; [set_solver|].
  rewrite (proj2 (req_at_ok m x qx) Hqx). cbn [mbind outcome_bind].
  case_bool_decide as Hx; [f_equal; eapply Hu; [|done..]; set_solver|].
  apply IH; try done; try set_solver.
Qed.

Lemma findMemRequest_inv μ m rd r q k :
  MInv μ m → r ∈ acc rd m → reqs m !! r = Some q → mr_pkt q = Some k →
  findMemRequest m k rd = Ok r.
Proof.
  intros HI Hr Hq Hk. apply (find_pkt_spec m _ k r q); try done.
  - intros r' Hr'. apply (inv_dom _ _ _ _ HI), everything_elem. eauto.
  - intros r' q' Hr' Hq' Hk'. by apply (inv_pkt_inj _ _ _ _ HI rd r' q' rd r q k).
Qed.

Lemma mark_done_prefix n size total :
  0 ≤ n → 0 ≤ size → n + size ≤ total → total < 2 ^ 31 →
  mark_done (replicate (Z.to_nat n) true ++ replicate (Z.to_nat (total - n)) false) n size
  = Ok (replicate (Z.to_nat (n + size)) true ++ replicate (Z.to_nat (total - (n + size))) false).
Proof.
  intros. unfold mark_done.
  rewrite length_app, !length_replicate.
  assert ((n + size <? 2 ^ 31) && (0 <=? n) && (0 <=? size) &&
    (n + size <=? Z.of_nat (Z.to_nat n + Z.to_nat (total - n))) = true) as -> by (rewrite !andb_true_iff, !Z.leb_le, Z.ltb_lt; lia).
  f_equal. rewrite take_app_length' by (by rewrite length_replicate).
  rewrite drop_app_ge by (rewrite length_replicate; lia). rewrite length_replicate, drop_replicate.
  rewrite Z2Nat.inj_add, replicate_add, <-app_assoc by lia. do 3 f_equal. lia.
Qed.

Lemma contiguous_prefix n a b dn :
  0 ≤ dn ≤ Z.of_nat a → Z.of_nat (a + b) = dn + Z.of_nat n →
  contiguous n (replicate a true ++ replicate b false) dn (Z.of_nat (a + b)) = Ok (Z.of_nat a).
Proof.
  revert dn. induction n as [|n IH]; intros dn Hdn Hn; cbn [contiguous].
  { f_equal. lia. }
  rewrite (proj2 (Z.ltb_lt _ _)) by lia. unfold vec_get.
  destruct (decide (dn < Z.of_nat a)).
  - rewrite lookup_app_l, lookup_replicate_2 by (rewrite ?length_replicate; lia).
    cbn [mbind outcome_bind]. apply IH; lia.
  - rewrite lookup_app_r by (rewrite length_replicate; lia). rewrite length_replicate.
    rewrite lookup_replicate_2 by lia. cbn [mbind outcome_bind]. f_equal. lia.
Qed.

(** The state after the response to request [r], which becomes [q']: back in
    its queue, or gone. *)
Definition answered (rd : bool) (m : Mem) (r : nat) (pid : PortId) (p : Port) (q' : MemoryRequest)
    : Mem :=
  set_req (set_port m pid (set_slot rd p None)) r q'.
Definition requeued (rd : bool) (m : Mem) (r : nat) (pid : PortId) (p : Port) (q' : MemoryRequest)
    : Mem :=
  let m := answered rd m r pid p q' in
  clearMemRequest (set_queue rd m (r :: queue rd m)) r rd.
Definition completed (rd : bool) (m : Mem) (r : nat) (pid : PortId) (p : Port) (q' : MemoryRequest)
    : Mem :=
  let m := clearMemRequest (answered rd m r pid p q') r rd in set_reqs m (delete r (reqs m)).

Section Commit.
Context {CU : Type} `{ComputeUnit CU}.

(** What the compute unit is told when a request is complete. *)
Definition commit_call (rd : bool) (cu : CU) (r : nat) (q : MemoryRequest) : outcome CU :=
  if rd then cu_readCommit cu r (buffer q) else cu_writeCommit cu r.

Definition recv (rd : bool) (m : Mem) (cu : CU) (k : nat) (pk : Packet) : outcome (Mem * CU) :=
  if rd then recvRead m cu k pk else recvWrite m cu k pk.

Lemma release_ok rd m q pid p :
  mr_port q = Some pid → port_of m pid = Some p →
  release rd m q = Ok (set_port m pid (set_slot rd p None)).
Proof.
  intros Hpid Hp. unfold release. rewrite Hpid. cbn [deref mbind outcome_bind].
  by rewrite (proj2 (port_at_of m pid p) Hp).
Qed.

(** The stores of a read response. *)
Lemma read_stores μ q n size data :
  rq_ok true q → 0 ≤ n → 0 < size → n + size = totalLength q - readLeft q →
  progress μ true q n → data = bytes μ (address q + n) size →
  let dn := n + size in
  let rd := replicate (Z.to_nat dn) true ++ replicate (Z.to_nat (totalLength q - dn)) false in
  ∃ buf, mem_write (buffer q) n data = Ok buf ∧ length buf = length (buffer q) ∧
    take (Z.to_nat dn) buf = bytes μ (address q) dn ∧
    mark_done (readsDone q) n size = Ok rd ∧
    contiguous (Z.to_nat (totalLength q - readDone q)) rd (readDone q) (totalLength q) = Ok dn.
Proof.
  intros [Ha _ Ht Hl _ Hbuf _] Hn Hs Hend (Htake & Hrd & ->) ->. simpl in Hl. cbv zeta.
  destruct (mem_write_prefix (buffer q) (bytes μ (address q + n) size) n) as (buf & Hw & Hbl & Hbt);
    [done|rewrite length_bytes; lia|].
  rewrite length_bytes, Z2Nat.id in Hbt by lia. exists buf. split_and!; [done..| | |].
  - by rewrite Hbt, Htake, bytes_app by lia.
  - rewrite Hrd. apply mark_done_prefix; lia.
  - pose proof (contiguous_prefix (Z.to_nat (totalLength q - n)) (Z.to_nat (n + size))
      (Z.to_nat (totalLength q - (n + size))) n) as Hcon.
    replace (Z.of_nat (Z.to_nat (n + size) + _)) with (totalLength q) in Hcon by lia.
    rewrite (Z2Nat.id (n + size)) in Hcon by lia. apply Hcon; lia.
Qed.

(** The receiver, up to the bytes it stores. *)
Lemma recv_shape μ rd m r q k pk data pid p :
  MInv μ m → r ∈ acc rd m → reqs m !! r = Some q → rq_ok rd q → flying m rd r q pk →
  progress (μ r) rd q (pk_paddr pk - address q) → mr_pkt q = Some k →
  mr_port q = Some pid → port_of m pid = Some p →
  (rd = true → data = bytes (μ r) (pk_paddr pk) (pk_size pk)) →
  ∃ q', rq_ok rd q' ∧ left_ rd q' = left_ rd q ∧ address q' = address q ∧
    totalLength q' = totalLength q ∧ progress (μ r) rd q' (totalLength q - left_ rd q) ∧
    ∀ cu, recv rd m cu k (mkPacket (pk_kind pk) (pk_paddr pk) (pk_size pk) data)
      = if need rd q then Ok (requeued rd m r pid p q', cu)
        else let* cu := commit_call rd cu r q' in Ok (completed rd m r pid p q', cu).
Proof.
  intros HI Hr Hq Hok Hf Hpr Hk Hpid Hp Hdata.
  pose proof (findMemRequest_inv μ m rd r q k HI Hr Hq Hk) as Hfind.
  pose proof (release_ok rd m q pid p Hpid Hp) as Hrel.
  pose proof Hok as [Ha Hb Ht Hl Hc Hbuf Hn]. destruct Hf as [_ Hsz Hbase Hend _ _ _].
  destruct rd; simpl in *.
  - set (n := pk_paddr pk - address q) in *.
    assert (u64 n = n) as En by (apply wrapU_id; split; lia).
    destruct (read_stores (μ r) q n (pk_size pk) data) as (buf & Hw & Hbl & Hbt & Hmark & Hcon);
      [done|lia..|done|rewrite Hdata by done; f_equal; lia|].
    replace (n + pk_size pk) with (totalLength q - readLeft q) in * by lia.
    set (dn := totalLength q - readLeft q) in *.
    exists (receive_read q buf (replicate (Z.to_nat dn) true ++
              replicate (Z.to_nat (totalLength q - dn)) false) dn).
    split; [split; simpl; try done; lia|]. split_and!; try done.
    intros cu. unfold recvRead. rewrite Hfind. cbn [mbind outcome_bind].
    rewrite (proj2 (req_at_ok m r q) Hq). cbn [mbind outcome_bind]. rewrite Hrel.
    cbn [mbind outcome_bind pk_paddr pk_data pk_size]. rewrite (Hb eq_refl). fold n. rewrite En, Hw.
    cbn [mbind outcome_bind]. rewrite Hmark. cbn [mbind outcome_bind]. rewrite Hcon. done.
  - exists (receive_write q (pk_size pk)).
    split_and!; try done.
    + simpl. unfold progress in Hpr. rewrite Hpr, wrapU_id by (split; lia). lia.
    + intros cu. unfold recvWrite. rewrite Hfind. cbn [mbind outcome_bind].
      rewrite (proj2 (req_at_ok m r q) Hq). cbn [mbind outcome_bind]. rewrite Hrel. done.
Qed.

(** The heap after a response, with the packet deleted: [o] is what is left of
    the request. *)
Lemma response_inv μ rd m r q k pid p q' (again : bool) :
  let m1 := if again then requeued rd m r pid p q' else completed rd m r pid p q' in
  let m' := set_pkts (schedule_tick cfg env m1) (delete k (pkts (schedule_tick cfg env m1))) in
  MInv μ m → r ∈ acc rd m → reqs m !! r = Some q → mr_pkt q = Some k → mr_port q = Some pid →
  port_of m pid = Some p → slot rd p = Some r →
  (again = true → rq_ok rd q' ∧ 0 < left_ rd q' ∧
     progress (μ r) rd q' (totalLength q' - left_ rd q')) →
  MInv μ m' ∧ tickAt m' ≠ None.
Proof.
  intros m1 m' HI Hr Hq Hk Hpid Hp Hs Hgo.
  pose proof (schedule_tick_same m1) as (Er & Ek & En & Ep & EQ & EA).
  split; [|apply schedule_at_scheduled].
  pose proof (received_inv μ rd _ _ m r q k pid p m' (if again then Some q' else None) HI Hr Hq Hk
    Hpid Hp Hs) as HR.
  eapply Inv_ext; [| |apply HR]; clear HR.
  - intros d. change (queue d m') with (queue d (schedule_tick cfg env m1)). rewrite EQ.
    subst m1. by destruct again, rd, d.
  - intros d. change (acc d m') with (acc d (schedule_tick cfg env m1)). rewrite EA.
    subst m1. by destruct again, rd, d.
  - change (reqs m') with (reqs (schedule_tick cfg env m1)). rewrite Er. subst m1.
    destruct again; simpl; apply map_eq; intros r'.
    + destruct (decide (r' = r)) as [->|]; destruct rd; simpl;
        by rewrite ?lookup_insert_eq, ?lookup_partial_alter_eq, ?lookup_insert_ne, ?lookup_partial_alter_ne by done.
    + destruct (decide (r' = r)) as [->|]; destruct rd; simpl;
        by rewrite ?lookup_delete_eq, ?lookup_partial_alter_eq, ?lookup_delete_ne, ?lookup_insert_ne, ?lookup_partial_alter_ne by done.
  - change (pkts m') with (delete k (pkts (schedule_tick cfg env m1))). rewrite Ek. subst m1.
    by destruct again, rd.
  - change (nextPkt m') with (nextPkt (schedule_tick cfg env m1)). rewrite En. subst m1.
    by destruct again, rd.
  - intros pid'. change (port_of m' pid') with (port_of (schedule_tick cfg env m1) pid').
    unfold port_of at 1. rewrite Ep. rewrite <-(port_of_set m pid p) by done. subst m1.
    by destruct again, rd.
  - destruct again; [|done]. intros q0 [= <-]. by apply Hgo.
Qed.

(** The response [data] to the packet [k] shows its request the memory it
    sees. *)
Definition shows (μ : nat → Z → Z) (m : Mem) (k : nat) (pk : Packet) (data : list Z) : Prop :=
  pk_kind pk = PRead → ∀ r q, r ∈ accRdQ m → reqs m !! r = Some q → mr_pkt q = Some k →
  data = bytes (μ r) (pk_paddr pk) (pk_size pk).

(** The state a response leaves, with the request that goes on or is gone. *)
Definition responded (rd : bool) (m : Mem) (r k : nat) (pid : PortId) (p : Port) (q' : MemoryRequest)
    (again : bool) : Mem :=
  let m1 := if again then requeued rd m r pid p q' else completed rd m r pid p q' in
  set_pkts (schedule_tick cfg env m1) (delete k (pkts (schedule_tick cfg env m1))).

Lemma recvPacket_state μ m k pk data :
  MInv μ m → pkts m !! k = Some pk → shows μ m k pk data →
  ∃ rd r q q' pid p, r ∈ acc rd m ∧ reqs m !! r = Some q ∧ mr_pkt q = Some k ∧
    mr_port q = Some pid ∧ port_of m pid = Some p ∧ slot rd p = Some r ∧ pk_kind pk = kind_of rd ∧
    rq_ok rd q' ∧ left_ rd q' = left_ rd q ∧ address q' = address q ∧
    totalLength q' = totalLength q ∧ progress (μ r) rd q' (totalLength q - left_ rd q) ∧
    ∀ cu, recvPacket cfg env m cu k data =
      if 0 <? left_ rd q then Ok (responded rd m r k pid p q' true, cu)
      else let* cu := commit_call rd cu r q' in Ok (responded rd m r k pid p q' false, cu).
Proof.
  intros HI Hpk Hdata.
  destruct (inv_pkts _ _ _ _ HI k pk Hpk) as (_ & rd & r & q & Hr & Hq & Hk).
  destruct (inv_flying _ _ _ _ HI rd r q Hr Hq) as (Hok & pk0 & Hf & Hpr).
  assert (pk0 = pk) as ->.
  { destruct (fl_pkt _ _ _ _ _ Hf) as (k' & ? & ?). simplify_eq. congruence. }
  destruct (fl_port _ _ _ _ _ Hf) as (pid & p & Hpid & Hp & Hs).
  pose proof (fl_kind _ _ _ _ _ Hf) as Hkind.
  destruct (recv_shape μ rd m r q k pk data pid p HI Hr Hq Hok Hf Hpr Hk Hpid Hp)
    as (q' & Hok' & Hl' & Ha' & Ht' & Hpr' & Hrecv).
  { intros ->. by apply (Hdata Hkind r q). }
  exists rd, r, q, q', pid, p. split_and!; try done.
  intros cu. unfold recvPacket, pkt_at. rewrite Hpk. cbn [deref mbind outcome_bind pk_kind].
  rewrite Hkind. specialize (Hrecv cu). rewrite (rq_need _ _ Hok), Hkind in Hrecv.
  destruct rd; simpl in *; rewrite Hrecv; destruct (0 <? _); cbn [mbind outcome_bind]; try done.
  - by destruct (cu_readCommit _ _ _).
  - by destruct (cu_writeCommit _ _).
Qed.

Lemma recvPacket_spec μ m k pk data :
  MInv μ m → pkts m !! k = Some pk →
  shows μ m k pk data →
  ∃ rd r q q' m', r ∈ acc rd m ∧ reqs m !! r = Some q ∧ mr_pkt q = Some k ∧
    pk_kind pk = kind_of rd ∧ MInv μ m' ∧ tickAt m' ≠ None ∧
    address q' = address q ∧ totalLength q' = totalLength q ∧
    Z.of_nat (length (buffer q')) = totalLength q ∧
    progress (μ r) rd q' (totalLength q - left_ rd q) ∧
    reqs m' !! r = (if 0 <? left_ rd q then Some q' else None) ∧
    pkts m' = delete k (pkts m) ∧
    queue rd m' = (if 0 <? left_ rd q then r :: queue rd m else queue rd m) ∧
    (∀ d, live d m ≡ₚ (if 0 <? left_ rd q then [] else if Bool.eqb d rd then [r] else []) ++ live d m') ∧
    ∀ cu, recvPacket cfg env m cu k data =
      if 0 <? left_ rd q then Ok (m', cu)
      else let* cu := commit_call rd cu r q' in Ok (m', cu).
Proof.
  intros HI Hpk Hdata.
  destruct (recvPacket_state μ m k pk data HI Hpk Hdata)
    as (rd & r & q & q' & pid & p & Hr & Hq & Hk & Hpid & Hp & Hs & Hkind & Hok' & Hl' & Ha' & Ht' & Hpr' & Hrecv).
  set (again := 0 <? left_ rd q) in *.
  destruct (response_inv μ rd m r q k pid p q' again HI Hr Hq Hk Hpid Hp Hs) as [HI' Ht].
  { intros Hag. unfold again in Hag. zbool. rewrite Hl', Ht'. split_and!; [done|lia|done]. }
  exists rd, r, q, q', (responded rd m r k pid p q' again). split_and!; try done.
  { by rewrite (rq_buffer _ _ Hok'). }
  1-4: unfold responded; set (m1 := if again then _ else _); fold again;
    destruct (schedule_tick_same m1) as (Er & Ek & _ & _ & EQ & EA).
  { change (reqs (schedule_tick cfg env m1) !! r = if again then Some q' else None). rewrite Er.
    subst m1. destruct again, rd; simpl; apply lookup_insert_eq || apply lookup_delete_eq. }
  { change (delete k (pkts (schedule_tick cfg env m1)) = delete k (pkts m)). rewrite Ek.
    subst m1. by destruct again, rd. }
  { change (queue rd (schedule_tick cfg env m1) = if again then r :: queue rd m else queue rd m).
    rewrite EQ. subst m1. by destruct again, rd. }
  { intros d. change (live d m ≡ₚ (if again then [] else if Bool.eqb d rd then [r] else []) ++
      live d (schedule_tick cfg env m1)). unfold live. rewrite EQ, EA. subst m1.
    pose proof (erase_first_perm _ _ Hr) as Hperm.
    destruct again, rd, d; simpl in *; try done; rewrite Hperm at 1; solve_Permutation. }
  intros cu. rewrite Hrecv. fold again. by destruct again.
Qed.
End Commit.

(** ** Retries *)

Lemma Inv_ports μ Q A m m' :
  reqs m' = reqs m → pkts m' = pkts m → nextPkt m' = nextPkt m →
  (∀ pid d, slot d <$> port_of m' pid = slot d <$> port_of m pid) →
  Inv μ Q A m → Inv μ Q A m'.
Proof.
  intros Er Ek En Ep [H1 H2 H3 H4 H5 H6 H7].
  assert (∀ pid p d v, port_of m pid = Some p → slot d p = v →
    ∃ p', port_of m' pid = Some p' ∧ slot d p' = v) as Hfw.
  { intros pid p d v Hp <-. specialize (Ep pid d). rewrite Hp in Ep.
    destruct (port_of m' pid) as [p'|]; [|done]. exists p'. simpl in Ep. by simplify_eq. }
  split; rewrite ?Er, ?Ek, ?En; try done.
  - intros d r q Hr Hq. destruct (H4 d r q Hr Hq) as (? & pk & Hf & ?). split; [done|].
    exists pk. split; [|done]. apply (flying_frame m); [done|by rewrite Ek|]. eauto.
  - intros pid p d r Hp Hs. specialize (Ep pid d). rewrite Hp in Ep.
    destruct (port_of m pid) as [p0|] eqn:Hp0; [|done]. simpl in Ep.
    apply (H5 pid p0); [done|]. congruence.
Qed.

Lemma same_mem_trans m m' m'' : same_mem m m' → same_mem m' m'' → same_mem m m''.
Proof.
  intros (a1 & a2 & a3 & a4 & a5 & a6) (b1 & b2 & b3 & b4 & b5 & b6).
  split_and!; congruence.
Qed.

Lemma retryLoop_same pid l : ∀ m, same_mem m (retryLoop cfg env m pid l).2.
Proof.
  induction l as [|k l IH]; intros m; simpl; [done|].
  destruct (sendTimingReq _ _ _ _); [|done].
  eapply same_mem_trans; [|apply IH]. eapply same_mem_trans; [|apply schedule_tick_same]. done.
Qed.

Lemma recvReqRetry_inv μ m pid p :
  MInv μ m → port_of m pid = Some p → isStalled p = true →
  ∃ m', recvReqRetry cfg env m pid = Ok m' ∧ MInv μ m' ∧ (tickAt m ≠ None → tickAt m' ≠ None) ∧
    (∀ d, queue d m' = queue d m) ∧ ∀ d, live d m' = live d m.
Proof.
  intros HI Hp Hst. unfold recvReqRetry. rewrite (proj2 (port_at_of m pid p) Hp).
  cbn [mbind outcome_bind]. rewrite Hst. cbn [assert_ mbind outcome_bind].
  pose proof (retryLoop_same pid (outstandingPkts p) m) as Hs.
  assert (∀ l m0, tickAt m0 ≠ None → tickAt (retryLoop cfg env m0 pid l).2 ≠ None) as Ht.
  { intros l. induction l as [|k l IH]; intros m0 H0; simpl; [done|].
    destruct (sendTimingReq _ _ _ _); [|done]. apply IH.
    apply schedule_at_scheduled. }
  specialize (Ht (outstandingPkts p) m).
  destruct (retryLoop _ _ _ _ _) as [l m1]. simpl in *. eexists. split; [done|].
  split; [|split_and!; [done|apply Hs|intros d; by apply (live_same m m1)]].
  apply (MInv_same μ m m1 Hs) in HI. destruct Hs as (_ & _ & _ & Ep & _).
  assert (port_of m1 pid = Some p) as Hp1 by (unfold port_of; by rewrite Ep).
  eapply (Inv_ports μ _ _ m1); try done. intros pid' d. rewrite (port_of_set m1 pid p) by done.
  case_decide; [subst|done]. rewrite Hp1. done.
Qed.

(** ** Calls of the compute unit and the tick *)

(** The requests of a sequence of calls are new and well formed. *)
Fixpoint calls_wf (μ : nat → Z → Z) (live : gset nat) (cs : list CuCall) : Prop :=
  match cs with
  | [] => True
  | CuEnqueueRead id q :: cs => id ∉ live ∧ fresh_req (μ id) true q ∧ calls_wf μ ({[id]} ∪ live) cs
  | CuEnqueueWrite id q :: cs => id ∉ live ∧ fresh_req (μ id) false q ∧ calls_wf μ ({[id]} ∪ live) cs
  | _ :: cs => calls_wf μ live cs
  end.

(** A queued request has a tick coming; the length of the queues is an [int]
    in the code. *)
Definition tick_pending (m : Mem) : Prop :=
  Z.of_nat (length (readQueue m)) + Z.of_nat (length (writeQueue m)) < 2 ^ 31 →
  readQueue m ++ writeQueue m ≠ [] → tickAt m ≠ None.

Lemma requestsInQueues_pos m :
  Z.of_nat (length (readQueue m)) + Z.of_nat (length (writeQueue m)) < 2 ^ 31 →
  readQueue m ++ writeQueue m ≠ [] → (0 <? requestsInQueues m) = true.
Proof.
  intros Hl Hne. unfold requestsInQueues. rewrite wrapS_id by (done || split; lia).
  destruct (readQueue m), (writeQueue m); simpl in *; try done; lia.
Qed.

Lemma cu_calls_inv μ cs : ∀ m d m' d',
  MInv μ m → calls_wf μ (dom (reqs m)) cs → cu_calls cfg env (m, d) cs = Ok (m', d') →
  MInv μ m' ∧ (tick_pending m → tick_pending m').
Proof.
  induction cs as [|c cs IH]; intros m d m' d' HI Hwf Hrun; unfold cu_calls in *; cbn [foldM] in Hrun.
  { by injection Hrun as <- <-. }
  apply bind_ok in Hrun as ([m1 d1] & Hc & Hrun).
  assert (∀ rd id q, id ∉ dom (reqs m) → fresh_req (μ id) rd q → m1 = enqueue rd m id q →
    calls_wf μ ({[id]} ∪ dom (reqs m)) cs → MInv μ m' ∧ (tick_pending m → tick_pending m')) as Henq.
  { intros rd id q Hid Hq -> Hwf'. apply not_elem_of_dom in Hid.
    destruct (IH _ d1 m' d' (enqueue_inv μ rd m id q HI Hid Hq)) as [? Ht]; [|done|].
    - by rewrite enqueue_reqs, dom_insert_L.
    - split; [done|]. intros _. apply Ht. intros _ _.
      destruct rd; apply schedule_at_scheduled. }
  destruct c as [|id q|id q|]; simpl in Hwf, Hc.
  - injection Hc as -> ->. by apply (IH m1 d1 m' d').
  - injection Hc as <- ->. destruct Hwf as (? & ? & ?). by apply (Henq true id q).
  - injection Hc as <- ->. destruct Hwf as (? & ? & ?). by apply (Henq false id q).
  - apply bind_ok in Hc as (d2 & _ & [= -> ->]). by apply (IH m1 d1 m' d').
Qed.

Section TickInv.
Context {CU : Type} `{ComputeUnit CU}.

Lemma comm_tick_inv μ m d cu m' d' cu' :
  MInv μ m →
  (computationNeeded d = false → ∀ b, flags_byte d = Ok b → Z.testbit b 0 = true →
   ∀ cu' calls, cu_initialize cu = Ok (cu', calls) → calls_wf μ (dom (reqs m)) calls) →
  tick cfg env m d cu = Ok (m', d', cu') → MInv μ m' ∧ tick_pending m'.
Proof.
  intros HI Hwf Hrun. unfold tick in Hrun. apply bind_ok in Hrun as ([[m1 d1] cu1] & Hmmr & Hrun).
  assert (MInv μ m1) as HI1.
  { assert (MInv μ (set_tickAt m None)) as HI0 by (by apply (MInv_same μ m)).
    unfold checkMMR in Hmmr. destruct (computationNeeded d); [by injection Hmmr as <- <- <-|].
    specialize (Hwf eq_refl).
    apply bind_ok in Hmmr as (b & Hb & Hmmr). apply bind_ok in Hmmr as ([[m2 d2] cu2] & H2 & Hmmr).
    assert (MInv μ m2) as HI2.
    { destruct (Z.testbit b 0) eqn:Ebit; [|by injection H2 as <- <- <-].
      apply bind_ok in H2 as ([cu3 calls] & Hini & H2). apply bind_ok in H2 as ([m3 d3] & Hcs & [= <- <- <-]).
      by apply (cu_calls_inv μ calls _ _ _ _ HI0 (Hwf b Hb Ebit _ _ Hini)) in Hcs as [? _]. }
    destruct (tickAt m2); [by injection Hmmr as <- <- <-|].
    destruct (processingDone d2); injection Hmmr as <- <- <-; [|done].
    by eapply MInv_same; [apply schedule_tick_same|]. }
  destruct (0 <? requestsInQueues m1) eqn:E; cbn [mbind outcome_bind] in Hrun.
  - apply bind_ok in Hrun as (m2 & Hpr & [= <- <- <-]).
    pose proof (processMemoryRequests_inv μ m1 HI1) as Hp. rewrite Hpr in Hp. split; [by apply Hp|].
    unfold processMemoryRequests in Hpr. apply bind_ok in Hpr as (m3 & _ & Hpr).
    injection Hpr as <-. intros Hl Hne.
    destruct (0 <? requestsInQueues m3) eqn:E3; [apply schedule_at_scheduled|].
    by rewrite (requestsInQueues_pos _ Hl Hne) in E3.
  - injection Hrun as <- <- <-. split; [done|]. intros Hl Hne.
    by rewrite (requestsInQueues_pos _ Hl Hne) in E.
Qed.
End TickInv.
End Operations.
