(* ===== verification/CommSpec.v ===== *)
(** Properties of the communication interface over all runs: whatever the
    compute unit, the ports and the memory do, in whatever order. *)
From stdpp Require Import gmap.
From S2P Require Import Prelude MemRequest AddrRange CommInterface CommInv.

Section Runs.
Context (cfg : Params) (μ : nat → Z → Z) {CU : Type} `{ComputeUnit CU}.

(** One event.  The compute unit's calls bring new, well-formed requests; a
    response to a read carries the bytes of the memory its request sees, so the
    memory may change between requests; a retry comes to a
    port that has a stalled packet. *)
Inductive step : Mem * Dev * CU → Mem * Dev * CU → Prop :=
  | step_tick env m d cu m' d' cu' :
      (computationNeeded d = false →
       ∀ cu' calls, cu_initialize cu = Ok (cu', calls) → calls_wf μ (dom (reqs m)) calls) →
      tick cfg env m d cu = Ok (m', d', cu') →
      step (m, d, cu) (m', d', cu')
  | step_call env m d cu call m' d' cu' :
      calls_wf μ (dom (reqs m)) [call] → cu_call cfg env (m, d) call = Ok (m', d') →
      step (m, d, cu) (m', d', cu')
  | step_resp env m d cu k pk data m' cu' :
      pkts m !! k = Some pk → shows μ m k pk data →
      recvPacket cfg env m cu k data = Ok (m', cu') →
      step (m, d, cu) (m', d, cu')
  | step_retry env m d cu pid p m' :
      port_of m pid = Some p → isStalled p = true → recvReqRetry cfg env m pid = Ok m' →
      step (m, d, cu) (m', d, cu)
  | step_write env m d cu paddr data m' d' :
      write cfg env m d paddr data = Ok (m', d') →
      step (m, d, cu) (m', d', cu).

Definition initial (s : Mem * Dev * CU) : Prop := ∃ n, s.1 = CommInterface_new cfg n.

Lemma comm_initial_inv s : initial s → MInv μ s.1.1 ∧ tick_pending s.1.1.
Proof.
  intros [n Hs]. rewrite Hs. split; [|intros _ []; done].
  assert (∀ d r, r ∉ queue d (CommInterface_new cfg n).1 ∧ r ∉ acc d (CommInterface_new cfg n).1)
    as Hnone by (intros [] r; split; apply not_elem_of_nil).
  split.
  - constructor.
  - intros r. split; [by intros ?%not_elem_of_nil|by intros []].
  - intros d r q Hr. by apply Hnone in Hr.
  - intros d r q Hr. by apply Hnone in Hr.
  - intros pid p d r Hp. apply lookup_replicate in Hp as [-> _]. by destruct d.
  - intros k pk Hk. done.
  - intros d r q d' r' q' k Hr. by apply Hnone in Hr.
Qed.

Hypothesis Hcls : 0 < cacheLineSize cfg < 2 ^ 31.

Lemma comm_step_inv s s' :
  step s s' → MInv μ s.1.1 → tick_pending s.1.1 → MInv μ s'.1.1 ∧ tick_pending s'.1.1.
Proof.
  intros Hst HI Ht. destruct Hst as [env m d cu m' d' cu' Hwf Hrun|env m d cu c m' d' cu' Hwf Hrun
    |env m d cu k pk data m' cu' Hpk Hdata Hrun|env m d cu pid p m' Hp Hs Hrun|env m d cu a data m' d' Hrun];
    cbn [fst snd] in *.
  - apply (comm_tick_inv cfg env Hcls μ m d cu m' d' cu'); [done| |done]. intros Hc b _ _. by apply Hwf.
  - destruct (cu_calls_inv cfg env Hcls μ [c] m d m' d' HI Hwf) as [? ?]; [|auto].
    unfold cu_calls. cbn [foldM]. by rewrite Hrun.
  - destruct (recvPacket_spec cfg env Hcls μ m k pk data HI Hpk Hdata)
      as (rd & r & q & q' & m1 & _ & _ & _ & _ & HI1 & Ht1 & _ & _ & _ & _ & _ & _ & _ & _ & Heq).
    rewrite Heq in Hrun. assert (m' = m1) as ->; [|split; [done|by intros _ _]].
    destruct (0 <? left_ rd q); [congruence|]. apply bind_ok in Hrun as (? & _ & ?). congruence.
  - destruct (recvReqRetry_inv cfg env μ m pid p HI Hp Hs) as (m1 & E & HI1 & Ht1 & Hq & _).
    rewrite E in Hrun. injection Hrun as <-. split; [done|].
    intros Hl Hne. apply Ht1, Ht; pose proof (Hq true); pose proof (Hq false); simpl in *; congruence.
  - unfold write in Hrun. apply bind_ok in Hrun as (? & _ & Hrun).
    apply bind_ok in Hrun as (? & _ & Hrun). injection Hrun as <- _.
    split; [|intros _ _; apply schedule_at_scheduled].
    eapply MInv_same; [|done]. unfold schedule_at. by destruct (tickAt m).
Qed.

Lemma comm_reach_inv s s' : initial s → rtc step s s' → MInv μ s'.1.1 ∧ tick_pending s'.1.1.
Proof.
  intros Hi Hrun. apply comm_initial_inv in Hi. induction Hrun as [s|s s1 s' Hs _ IH]; [done|].
  apply IH. destruct Hi. by apply (comm_step_inv s s1).
Qed.
End Runs.

(** ** Claims *)

(** C8: a packet never crosses a cache line: the size chosen for the next
    packet of a request is positive, at most what is left, stays inside the
    line the address lies in, and the packet that follows it starts a line. *)
Theorem packet_in_line cfg addr left
    (Hcls : 0 < cacheLineSize cfg < 2 ^ 31) (Haddr : 0 ≤ addr) (Hleft : 0 < left < 2 ^ 31) :
  ∃ size, chunk cfg addr left = Ok size ∧ 0 < size ≤ left ∧
    addr / cacheLineSize cfg = (addr + size - 1) / cacheLineSize cfg ∧
    (size < left → (addr + size) mod cacheLineSize cfg = 0).
Proof.
  destruct (chunk_spec cfg addr left Hcls Haddr Hleft) as (size & -> & Hs & Hline & Hal).
  exists size. split_and!; try done; try lia.
  pose proof (Z.div_mod addr (cacheLineSize cfg) ltac:(lia)) as Hd.
  pose proof (Z.mod_pos_bound addr (cacheLineSize cfg) ltac:(lia)).
  apply Z.div_unique with (addr mod cacheLineSize cfg + size - 1); [|lia]. left. lia.
Qed.

(** C5: responses: in every reachable state, the answer to any packet in
    flight is handled (no panic, no access out of bounds).  While bytes are
    left the request goes back to its queue and the compute unit sees nothing;
    the answer to the last packet removes the request and commits it, a load
    with exactly the bytes its packets were shown, in place, a store when all
    its bytes are acknowledged. *)
Theorem response_commits cfg μ {CU} `{ComputeUnit CU} env (s : Mem * Dev * CU) m d cu k pk data
    (Hcls : 0 < cacheLineSize cfg < 2 ^ 31)
    (Hinit : initial cfg s) (Hrun : rtc (step cfg μ) s (m, d, cu)) (Hpk : pkts m !! k = Some pk)
    (Hdata : shows μ m k pk data) :
  ∃ rd r q m', pk_kind pk = kind_of rd ∧ r ∈ acc rd m ∧ reqs m !! r = Some q ∧
    mr_pkt q = Some k ∧ pkts m' !! k = None ∧
    if 0 <? left_ rd q then
      recvPacket cfg env m cu k data = Ok (m', cu) ∧ r ∈ queue rd m'
    else
      reqs m' !! r = None ∧
      recvPacket cfg env m cu k data =
        let* cu' := (if rd then cu_readCommit cu r (bytes (μ r) (address q) (totalLength q))
                     else cu_writeCommit cu r) in
        Ok (m', cu').
Proof.
  destruct (comm_reach_inv cfg μ Hcls s _ Hinit Hrun) as [HI _]. cbn [fst snd] in HI.
  destruct (recvPacket_spec cfg env Hcls μ m k pk data HI Hpk Hdata)
    as (rd & r & q & q' & m' & Hr & Hq & Hk & Hkind & _ & _ & Ha & Ht & Hb & Hpr & Hreq & Epk & EQ & _ & Hrecv).
  exists rd, r, q, m'. rewrite Epk. split_and!; try done; [apply lookup_delete_eq|].
  rewrite Hrecv. destruct (0 <? left_ rd q) eqn:E.
  - split; [done|]. rewrite EQ. set_solver.
  - split; [done|]. destruct rd; [|done]. simpl.
    destruct (inv_flying _ _ _ _ HI true r q Hr Hq) as (Hok & _). zbool.
    pose proof (rq_left _ _ Hok) as Hl. destruct Hpr as (Htk & _).
    replace (totalLength q - left_ true q) with (totalLength q) in Htk by lia.
    rewrite take_ge in Htk by lia. by rewrite Htk, Ha.
Qed.

(** C6: no request is lost or duplicated: in every reachable state each live
    request is in exactly one of the four lists, exactly once; one in flight
    has its own packet on the wire, and holds its port's slot alone. *)
Theorem requests_in_one_place cfg μ {CU} `{ComputeUnit CU} (s : Mem * Dev * CU) m d cu
    (Hcls : 0 < cacheLineSize cfg < 2 ^ 31)
    (Hinit : initial cfg s) (Hrun : rtc (step cfg μ) s (m, d, cu)) :
  let all := readQueue m ++ accRdQ m ++ writeQueue m ++ accWrQ m in
  NoDup all ∧ (∀ r, r ∈ all ↔ is_Some (reqs m !! r)) ∧
  ∀ rd r, r ∈ acc rd m → ∃ q k pk pid p,
    reqs m !! r = Some q ∧ mr_pkt q = Some k ∧ pkts m !! k = Some pk ∧ pk_kind pk = kind_of rd ∧
    mr_port q = Some pid ∧ port_of m pid = Some p ∧ slot rd p = Some r ∧
    ∀ rd' r' q', r' ∈ acc rd' m → reqs m !! r' = Some q' → mr_pkt q' = Some k → r' = r.
Proof.
  destruct (comm_reach_inv cfg μ Hcls s _ Hinit Hrun) as [HI _]. cbn [fst snd] in HI.
  split; [apply HI|]. split; [apply HI|]. intros rd r Hr.
  destruct (proj1 (inv_dom _ _ _ _ HI r)) as [q Hq]; [apply everything_elem; eauto|].
  destruct (inv_flying _ _ _ _ HI rd r q Hr Hq) as (_ & pk & Hf & _).
  destruct (fl_pkt _ _ _ _ _ Hf) as (k & Hk & Hpk).
  destruct (fl_port _ _ _ _ _ Hf) as (pid & p & ? & ? & ?).
  exists q, k, pk, pid, p. split_and!; try done; [apply Hf|].
  intros rd' r' q' ???. by apply (inv_pkt_inj _ _ _ _ HI rd' r' q' rd r q k).
Qed.

(** A store's packet carries its data: in every reachable state a write
    packet in flight holds the bytes of the request's buffer that belong at
    its address, and lies inside the request. *)
Theorem write_packet_data cfg μ {CU} `{ComputeUnit CU} (s : Mem * Dev * CU) m d cu k pk
    (Hcls : 0 < cacheLineSize cfg < 2 ^ 31)
    (Hinit : initial cfg s) (Hrun : rtc (step cfg μ) s (m, d, cu)) (Hpk : pkts m !! k = Some pk)
    (Hw : pk_kind pk = PWrite) :
  ∃ r q, r ∈ accWrQ m ∧ reqs m !! r = Some q ∧ mr_pkt q = Some k ∧
    address q ≤ pk_paddr pk ∧ pk_paddr pk + pk_size pk ≤ address q + totalLength q ∧
    pk_data pk = take (Z.to_nat (pk_size pk)) (drop (Z.to_nat (pk_paddr pk - address q)) (buffer q)).
Proof.
  destruct (comm_reach_inv cfg μ Hcls s _ Hinit Hrun) as [HI _]. cbn [fst snd] in HI.
  destruct (inv_pkts _ _ _ _ HI k pk Hpk) as (_ & rd & r & q & Hr & Hq & Hk).
  destruct (inv_flying _ _ _ _ HI rd r q Hr Hq) as (Hok & pk' & Hf & _).
  destruct (fl_pkt _ _ _ _ _ Hf) as (k' & ? & ?). assert (pk' = pk) as -> by congruence.
  assert (rd = false) as -> by (pose proof (fl_kind _ _ _ _ _ Hf); destruct rd; simpl in *; congruence).
  pose proof (fl_data _ _ _ _ _ Hf eq_refl) as Hd. unfold mem_read in Hd.
  pose proof (fl_base _ _ _ _ _ Hf). pose proof (fl_end _ _ _ _ _ Hf) as He.
  pose proof (rq_left _ _ Hok). rewrite (rq_current _ _ Hok) in He.
  destruct (in_block _ _ _); [|done]. injection Hd as <-. exists r, q. split_and!; try done. lia.
Qed.

(** No request waits for ever: in every reachable state with a queued
    request the interface has a tick scheduled, which is what looks at the
    queues again. *)
Theorem queued_tick_pending cfg μ {CU} `{ComputeUnit CU} (s : Mem * Dev * CU) m d cu
    (Hcls : 0 < cacheLineSize cfg < 2 ^ 31)
    (Hinit : initial cfg s) (Hrun : rtc (step cfg μ) s (m, d, cu))
    (Hfew : Z.of_nat (length (readQueue m)) + Z.of_nat (length (writeQueue m)) < 2 ^ 31)
    (Hqueued : readQueue m ++ writeQueue m ≠ []) :
  ∃ t, tickAt m = Some t.
Proof.
  destruct (comm_reach_inv cfg μ Hcls s _ Hinit Hrun) as [_ Ht]. specialize (Ht Hfew Hqueued).
  cbn [fst snd] in Ht. destruct (tickAt m) as [t|]; [by exists t|done].
Qed.

(** C9: [processMemoryRequests] fails in one way only: in every reachable
    state it returns, or it panics because the next address of a queued
    request lies in the range of no port. *)
Theorem processMemoryRequests_panic cfg μ {CU} `{ComputeUnit CU} env (s : Mem * Dev * CU) m d cu e
    (Hcls : 0 < cacheLineSize cfg < 2 ^ 31)
    (Hinit : initial cfg s) (Hrun : rtc (step cfg μ) s (m, d, cu))
    (Herr : processMemoryRequests cfg env m = Err e) :
  e = Panic ∧ ∃ rd r q, r ∈ queue rd m ∧ reqs m !! r = Some q ∧
    reachable_addr env m (current rd q) = false.
Proof.
  destruct (comm_reach_inv cfg μ Hcls s _ Hinit Hrun) as [HI _]. cbn [fst snd] in HI.
  pose proof (processMemoryRequests_inv cfg env Hcls μ m HI) as Hp. by rewrite Herr in Hp.
Qed.

(** *** The memory-mapped registers *)

(** A bit of the flags byte after masking and setting, the way the code
    updates it. *)
Lemma flags_update b mask set i :
  0 ≤ i < 8 →
  Z.testbit (u8 (Z.lor (Z.land b mask) set)) i = (Z.testbit b i && Z.testbit mask i) || Z.testbit set i.
Proof.
  intros Hi. unfold wrapU. rewrite Z.mod_pow2_bits_low by lia.
  by rewrite Z.lor_spec, Z.land_spec.
Qed.

Lemma flags_byte_set d b b' : flags_byte d = Ok b → flags_byte (set_flags_byte d b') = Ok (u8 b').
Proof.
  unfold flags_byte, set_flags_byte. intros Hb. mon. unfold vec_get. simpl.
  by rewrite list_lookup_insert_eq by (by apply lookup_lt_Some in Hb).
Qed.

(** Calls other than [finish] leave the registers alone. *)
Lemma cu_calls_dev cfg env cs : ∀ m d,
  Forall (fun c => c ≠ CuFinish) cs → ∃ m', cu_calls cfg env (m, d) cs = Ok (m', d).
Proof.
  induction cs as [|c cs IH]; intros m d Hcs; [by exists m|].
  apply Forall_cons in Hcs as [Hc Hcs]. unfold cu_calls. cbn [foldM].
  destruct c; try done; cbn [cu_call mbind outcome_bind]; apply IH; done.
Qed.

(** The run bit starts the accelerator once: with no computation under way
    and bit 0 of the flags set, checking the registers initialises the compute
    unit, clears bit 0, sets bit 1 and keeps the other bits; from then on, until
    [finish], checking the registers does nothing. *)
Theorem run_bit_starts cfg {CU} `{ComputeUnit CU} env m d (cu cu' : CU) b calls
    (Hidle : computationNeeded d = false) (Hb : flags_byte d = Ok b) (Hrun : Z.testbit b 0 = true)
    (Hini : cu_initialize cu = Ok (cu', calls)) (Hcalls : Forall (fun c => c ≠ CuFinish) calls) :
  ∃ m' d' b', checkMMR cfg env m d cu = Ok (m', d', cu') ∧ computationNeeded d' = true ∧
    flags_byte d' = Ok b' ∧ Z.testbit b' 0 = false ∧ Z.testbit b' 1 = true ∧
    (∀ i, 2 ≤ i < 8 → Z.testbit b' i = Z.testbit b i) ∧
    ∀ env' m'' (cu'' : CU), checkMMR cfg env' m'' d' cu'' = Ok (m'', d', cu'').
Proof.
  unfold checkMMR at 1. rewrite Hidle, Hb. cbn [mbind outcome_bind]. rewrite Hrun, Hini.
  cbn [mbind outcome_bind]. set (d1 := mkDev _ _ _ _ _).
  destruct (cu_calls_dev cfg env calls m d1 Hcalls) as [m1 ->]. cbn [mbind outcome_bind].
  assert (∃ m' d', (match tickAt m1 with
    | None => if processingDone d1 then
        Ok (schedule_tick cfg env m1, mkDev (mmreg d1) (computationNeeded d1) false (int_flag d1) (out d1), cu')
      else Ok (m1, d1, cu')
    | Some _ => Ok (m1, d1, cu') end) = Ok (m', d', cu') ∧ mmreg d' = mmreg d1 ∧
    computationNeeded d' = true) as (m' & d' & -> & Hreg & Hcomp).
  { destruct (tickAt m1), (processingDone d1); eauto. }
  exists m', d'. unfold flags_byte at 1. rewrite Hreg.
  pose proof (flags_byte_set d b (Z.lor (Z.land b 254) 2) Hb) as Hset. unfold flags_byte in Hset.
  change (mmreg d1) with (mmreg (set_flags_byte d (Z.lor (Z.land b 254) 2))). rewrite Hset.
  eexists. split_and!; try done.
  - by rewrite flags_update, andb_false_r by lia.
  - by rewrite flags_update, orb_true_r by lia.
  - intros i Hi. rewrite flags_update by lia.
    assert (Z.testbit 254 i = true ∧ Z.testbit 2 i = false) as [-> ->].
    { assert (i = 2 ∨ i = 3 ∨ i = 4 ∨ i = 5 ∨ i = 6 ∨ i = 7) as Hi' by lia.
      by destruct_or! Hi'; subst. }
    by rewrite andb_true_r, orb_false_r.
  - intros env' m'' cu''. unfold checkMMR. by rewrite Hcomp.
Qed.

(** [finish] reports completion: it clears bits 0 and 1 of the flags and
    sets bit 2, ends the computation, raises the interrupt when one is
    configured and, when asked to, marks every scratchpad port not ready. *)
Theorem finish_reports cfg m d d'
    (Hfin : finish cfg m d = Ok d') :
  (∃ b b', flags_byte d = Ok b ∧ flags_byte d' = Ok b' ∧
     Z.testbit b' 0 = false ∧ Z.testbit b' 1 = false ∧ Z.testbit b' 2 = true ∧
     ∀ i, 3 ≤ i < 8 → Z.testbit b' i = Z.testbit b i) ∧
  tail (mmreg d') = tail (mmreg d) ∧ computationNeeded d' = false ∧
  int_flag d' = (0 <? int_num cfg) || int_flag d ∧
  ∀ i, SetReadyStatus i false ∈ drop (length (out d)) (out d') ↔
       reset_spm cfg = true ∧ (i < length (ports m PSPM))%nat.
Proof.
  unfold finish in Hfin. apply bind_ok in Hfin as (b & Hb & [= <-]). split_and!; try done.
  - exists b. eexists. split; [done|]. split; [apply (flags_byte_set d b _ Hb)|].
    split_and!; try (by rewrite flags_update, andb_false_r by lia);
      [by rewrite flags_update, orb_true_r by lia|].
    intros i Hi. rewrite flags_update by lia.
    assert (Z.testbit 252 i = true ∧ Z.testbit 4 i = false) as [-> ->].
    { assert (i = 3 ∨ i = 4 ∨ i = 5 ∨ i = 6 ∨ i = 7) as Hi' by lia. by destruct_or! Hi'; subst. }
    by rewrite andb_true_r, orb_false_r.
  - simpl. by destruct (mmreg d).
  - intros i. simpl. rewrite drop_app_length.
    assert (∀ n k, SetReadyStatus i false ∈ reset_ready k n ↔ (k ≤ i < k + n)%nat) as Hready.
    { induction n as [|n IH]; intros k; simpl; [rewrite elem_of_nil; lia|].
      rewrite elem_of_cons, IH. split; [intros [[= ->]|?]; lia|].
      intros ?. destruct (decide (i = k)) as [->|]; [by left|right; lia]. }
    destruct (0 <? int_num cfg), (reset_spm cfg); simpl;
      rewrite ?elem_of_cons, ?elem_of_nil, ?Hready; naive_solver lia.
Qed.

(** The host acknowledges the interrupt: a register write clears it, once,
    exactly when it leaves bit 2 of the flags clear. *)
Theorem write_clears_interrupt cfg env m d paddr data m' d' b
    (Hw : write cfg env m d paddr data = Ok (m', d')) (Hb : flags_byte d' = Ok b)
    (Hirq : 0 < int_num cfg) :
  int_flag d' = int_flag d && Z.testbit b 2 ∧
  out d' = out d ++ (if int_flag d && negb (Z.testbit b 2) then [ClearInt (int_num cfg)] else []) ∧
  tickAt m' ≠ None.
Proof.
  unfold write in Hw. apply bind_ok in Hw as (regs & _ & Hw). apply bind_ok in Hw as (b' & Hb' & Hw).
  remember (Z.testbit b' 2) as t eqn:Et. injection Hw as <- <-.
  rewrite (proj2 (Z.ltb_lt _ _)) in * by lia.
  assert (b' = b) as ->.
  { revert Hb. unfold flags_byte in *. destruct (negb t && _); simpl in *; congruence. }
  rewrite <-Et. split_and!; [..|apply schedule_at_scheduled];
    destruct t, (int_flag d) eqn:Ei; simpl; by rewrite ?Ei, ?app_nil_r.
Qed.

(** ** The memory-mapped registers *)

(** A byte of the registers after the writes [ws], oldest first: the byte of
    the last write that covers it, zero without one. *)
Definition last_written (ws : list (Z * list Z)) (i : Z) : Z :=
  foldl (fun v w => if (w.1 <=? i) && (i <? w.1 + Z.of_nat (length w.2))
                    then nth (Z.to_nat (i - w.1)) w.2 0 else v) 0 ws.
(** The first byte is the flags, which the device changes itself. *)
Definition reg_image (flags : Z) (ws : list (Z * list Z)) (i : Z) : Z :=
  if i =? 0 then flags else last_written ws i.

(** What [read] answers when the registers hold [img]. *)
Definition read_spec (cfg : Params) (img : Z → Z) (off size : Z) : outcome (list Z) :=
  if off + 8 <=? io_size cfg then
    if (size =? 1) || (size =? 2) || (size =? 4) || (size =? 8)
    then Ok (to_endian cfg (bytes img off size)) else Err Panic
  else Err Undefined.

Section Registers.
Context (cfg : Params) {CU : Type} `{ComputeUnit CU}.

(** What can happen to the device besides a host write: a tick, a call of the
    compute unit, a response, a retry. *)
Inductive device_step : Mem * Dev * CU → Mem * Dev * CU → Prop :=
  | ds_tick env m d cu s' : tick cfg env m d cu = Ok s' → device_step (m, d, cu) s'
  | ds_call env m d cu c m' d' :
      cu_call cfg env (m, d) c = Ok (m', d') → device_step (m, d, cu) (m', d', cu)
  | ds_resp env m d cu k data m' cu' :
      recvPacket cfg env m cu k data = Ok (m', cu') → device_step (m, d, cu) (m', d, cu')
  | ds_retry env m d cu pid m' :
      recvReqRetry cfg env m pid = Ok m' → device_step (m, d, cu) (m', d, cu).

(** A run and its host writes, as offset and bytes. *)
Inductive host_run (s : Mem * Dev * CU) : list (Z * list Z) → Mem * Dev * CU → Prop :=
  | hr_start : host_run s [] s
  | hr_device ws s1 s2 : host_run s ws s1 → device_step s1 s2 → host_run s ws s2
  | hr_write ws env m d cu paddr data m' d' :
      host_run s ws (m, d, cu) → Forall (inU 8) data → write cfg env m d paddr data = Ok (m', d') →
      host_run s (ws ++ [(u64 (paddr - io_addr cfg), data)]) (m', d', cu).

(** The registers but for the flags byte. *)
Definition same_regs (mm mm' : list Z) : Prop :=
  tail mm' = tail mm ∧ length mm' = length mm ∧ (Forall (inU 8) mm → Forall (inU 8) mm').
#[local] Instance same_regs_preorder : PreOrder same_regs.
Proof.
  split; [done|]. intros a b c (E1 & L1 & ?) (E2 & L2 & ?). split; [congruence|]. split; [congruence|auto].
Qed.
Lemma set_flags_same d b : same_regs (mmreg d) (mmreg (set_flags_byte d b)).
Proof.
  cbn. split_and!; [by destruct (mmreg d)|apply length_insert|]. intros Hb.
  by apply Forall_insert, (wrapU_range 8).
Qed.

Lemma cu_calls_tail env cs : ∀ m d m' d',
  cu_calls cfg env (m, d) cs = Ok (m', d') → same_regs (mmreg d) (mmreg d').
Proof.
  induction cs as [|c cs IH]; intros m d m' d'; unfold cu_calls; cbn [foldM]; [by intros [= <- <-]|].
  intros ([m1 d1] & Hc & Hr)%bind_ok. apply IH in Hr. etrans; [|exact Hr].
  destruct c; cbn [cu_call] in Hc; try (by injection Hc as <- <-).
  apply bind_ok in Hc as (d2 & Hf & [= <- <-]). unfold finish in Hf. apply bind_ok in Hf as (b & _ & [= <-]).
  apply (set_flags_same d).
Qed.

Lemma device_step_tail s s' : device_step s s' → same_regs (mmreg s.1.2) (mmreg s'.1.2).
Proof.
  destruct 1 as [env m d cu s' Ht|env m d cu c m' d' Hc| |]; [|cbn|done..].
  2:{ apply (cu_calls_tail env [c] m d m' d'). unfold cu_calls. cbn [foldM]. by rewrite Hc. }
  unfold tick in Ht. apply bind_ok in Ht as ([[m1 d1] cu1] & Hc & Ht).
  apply bind_ok in Ht as (m2 & _ & [= <-]). cbn. unfold checkMMR in Hc.
  destruct (computationNeeded d); [by injection Hc as _ <- _|].
  apply bind_ok in Hc as (b & _ & Hc). apply bind_ok in Hc as ([[m3 d3] cu3] & Hi & Hc).
  assert (same_regs (mmreg d) (mmreg d3)) as Hd3.
  { destruct (Z.testbit b 0); [|by injection Hi as _ <- _].
    apply bind_ok in Hi as ([cu4 calls] & _ & Hi). apply bind_ok in Hi as ([m5 d5] & Hcs & [= _ <- _]).
    apply cu_calls_tail in Hcs. etrans; [|exact Hcs]. apply (set_flags_same d). }
  assert (mmreg d1 = mmreg d3) as ->; [|done].
  destruct (tickAt m3); [by injection Hc as _ <- _|].
  destruct (processingDone d3); by injection Hc as _ <- _.
Qed.

Lemma write_mmreg env m d paddr data m' d' :
  write cfg env m d paddr data = Ok (m', d') →
  mem_write (mmreg d) (u64 (paddr - io_addr cfg)) data = Ok (mmreg d').
Proof.
  unfold write. intros (regs & Hr & Hw)%bind_ok. apply bind_ok in Hw as (b & _ & Hw). injection Hw as _ <-.
  rewrite Hr. by destruct (negb _ && _).
Qed.

(** A byte after a write. *)
Lemma mem_write_nth mm off bs mm' i :
  mem_write mm off bs = Ok mm' → (i < length mm)%nat →
  mm' !! i = if (off <=? Z.of_nat i) && (Z.of_nat i <? off + Z.of_nat (length bs))
             then Some (nth (Z.to_nat (Z.of_nat i - off)) bs 0) else mm !! i.
Proof.
  unfold mem_write. destruct (in_block _ _ _) eqn:E; [|done]. apply in_block_spec in E. intros [= <-] Hi.
  destruct (Z.leb_spec off (Z.of_nat i)); cbn [andb].
  - rewrite lookup_app_r by (rewrite length_take; lia). rewrite length_take.
    destruct (Z.ltb_spec (Z.of_nat i) (off + Z.of_nat (length bs))).
    + rewrite lookup_app_l by lia. replace (i - Z.to_nat off `min` length mm)%nat with (Z.to_nat (Z.of_nat i - off)) by lia.
      destruct (lookup_lt_is_Some_2 bs (Z.to_nat (Z.of_nat i - off))) as [x Hx]; [lia|].
      by rewrite Hx, (nth_lookup_Some _ _ _ _ Hx).
    + rewrite lookup_app_r, lookup_drop by lia. f_equal. lia.
  - rewrite lookup_app_l by (rewrite length_take; lia). by rewrite lookup_take_lt by lia.
Qed.

(** The registers are bytes, and all but the flags hold what was last written. *)
Definition regs_hold (ws : list (Z * list Z)) (mm : list Z) : Prop :=
  Z.of_nat (length mm) = io_size cfg ∧ Forall (inU 8) mm ∧
  ∀ i, (0 < i < length mm)%nat → mm !! i = Some (last_written ws (Z.of_nat i)).

Lemma mem_write_bytes mm off bs mm' :
  mem_write mm off bs = Ok mm' → length mm' = length mm ∧ (Forall (inU 8) mm → Forall (inU 8) bs → Forall (inU 8) mm').
Proof.
  unfold mem_write. destruct (in_block _ _ _) eqn:E; [|done]. apply in_block_spec in E. intros [= <-]. split.
  - rewrite !length_app, length_take, length_drop. lia.
  - intros Hm Hb. rewrite !Forall_app. auto using Forall_take, Forall_drop.
Qed.

Lemma host_run_regs n cu ws s :
  0 < io_size cfg → host_run (CommInterface_new cfg n, cu) ws s → regs_hold ws (mmreg s.1.2).
Proof.
  intros Hio. induction 1 as [|ws s1 s2 _ (Hl & Hb & IH) (Ht & El & Hb')%device_step_tail
    |ws env m d cu1 paddr data m' d' _ (Hl & Hb & IH) Hdata Hwr%write_mmreg]; cbn [fst snd] in *.
  - split_and!; [simpl; rewrite length_replicate; lia|by apply Forall_replicate|]. cbn. intros i Hi.
    rewrite length_replicate in Hi. by rewrite lookup_replicate_2 by lia.
  - split_and!; [by rewrite El|auto|]. rewrite El. intros i Hi. rewrite <-IH by done.
    destruct i as [|i]; [lia|]. by rewrite <-!lookup_tail, Ht.
  - destruct (mem_write_bytes _ _ _ _ Hwr) as [El Hb'].
    split_and!; [by rewrite El|auto|]. rewrite El. intros i Hi.
    rewrite (mem_write_nth _ _ _ _ i Hwr) by lia. unfold last_written. rewrite foldl_app. cbn [foldl fst snd].
    destruct (_ && _); [done|]. by rewrite IH.
Qed.

(** What [read] finds in a block of bytes. *)
Lemma read_image d img paddr size :
  Z.of_nat (length (mmreg d)) = io_size cfg →
  (∀ i, (i < length (mmreg d))%nat → mmreg d !! i = Some (img (Z.of_nat i))) → Forall (inU 8) (mmreg d) →
  read cfg d paddr size = read_spec cfg img (u64 (paddr - io_addr cfg)) size.
Proof.
  intros Hl Himg Hb. unfold read, read_spec. set (off := u64 (paddr - io_addr cfg)).
  assert (0 ≤ off) by (apply wrapU_range; lia).
  destruct (Z.leb_spec (off + 8) (io_size cfg)).
  2:{ unfold load_uint, mem_read. destruct (in_block _ _ _) eqn:E; [|done]. apply in_block_spec in E. lia. }
  unfold load_uint. rewrite mem_read_ok by lia. cbn [mbind outcome_bind].
  assert (take (Z.to_nat 8) (drop (Z.to_nat off) (mmreg d)) = bytes img off 8) as Hbs.
  { apply list_eq_same_length with 8%nat; [by rewrite length_bytes|rewrite length_take, length_drop; lia|].
    intros i x y Hi. rewrite lookup_take_lt, lookup_drop, Himg by lia. unfold bytes.
    rewrite list_lookup_fmap, lookup_seqZ_lt by lia. cbn. intros [= <-] [= <-]. f_equal. lia. }
  destruct ((size =? 1) || (size =? 2) || (size =? 4) || (size =? 8)) eqn:E; [|done]. f_equal. f_equal.
  assert (0 ≤ size ≤ 8) as Hs by (rewrite !orb_true_iff, !Z.eqb_eq in E; lia).
  assert (bytes img off 8 = bytes img off size ++ bytes img (off + size) (8 - size)) as E8.
  { rewrite <-bytes_app by lia. f_equal. lia. }
  assert (Forall (inU 8) (bytes img off 8)) as Hby by (rewrite <-Hbs; by apply Forall_take, Forall_drop).
  rewrite E8 in Hby. apply Forall_app in Hby as [Hby _].
  rewrite Hbs, E8, le_val_app, <-(length_bytes img off size) at 1. by apply le_bytes_app_val.
Qed.
End Registers.


(** ** An example run

    A compute unit that asks for 100 bytes at [0x1010] and stores four, and
    notes what is committed; one local port that accepts everything; cache
    lines of 64 bytes. *)
Section Example.

Definition Note : Type := nat * list Z.
#[local] Instance note_unit : ComputeUnit (list Note) := {
  cu_initialize l :=
    let* w := MemoryRequest_write (MemoryRequest_read (mkMemoryRequest 0 0 false false 0 0 0 0 0 0 0 0
                [] [] None None) 0 0) 0x203e [7; 8; 9; 10] 4 in
    Ok (l, [CuRefreshMemPorts;
            CuEnqueueRead 0 (MemoryRequest_read w 0x1010 100); CuEnqueueWrite 1 w]);
  cu_readCommit l r buf := Ok (l ++ [(r, buf)]);
  cu_writeCommit l r := Ok (l ++ [(r, [])]);
}.

Definition ex_cfg : Params := mkParams 0x10020000 64 1 7 68 false [] false 64 10 true.
Definition ex_env : Env :=
  mkEnv 1000 1010 (fun _ => [plain 0 0x100000000]) (fun _ _ _ => true) (fun _ _ _ _ => true)
    (fun _ _ _ _ _ => true).
Definition ex_mem (_ : nat) (a : Z) : Z := a mod 256.
Definition ex_state : Type := Mem * Dev * list Note.

Definition ex_0 : ex_state :=
  (CommInterface_new ex_cfg (fun k => if decide (k = PLocal) then 1%nat else 0%nat), []).
Definition get (o : outcome ex_state) : ex_state := match o with Ok s => s | Err _ => ex_0 end.
Definition ex_write (s : ex_state) : outcome ex_state :=
  let* (m, d) := write ex_cfg ex_env s.1.1 s.1.2 0x10020000 [1] in Ok (m, d, s.2).
Definition ex_tick (s : ex_state) : outcome ex_state := tick ex_cfg ex_env s.1.1 s.1.2 s.2.
Definition ex_resp (k : nat) (s : ex_state) : outcome ex_state :=
  let* pk := pkt_at s.1.1 k in
  let* (m, cu) := recvPacket ex_cfg ex_env s.1.1 s.2 k (bytes (ex_mem 0) (pk_paddr pk) (pk_size pk)) in
  Ok (m, s.1.2, cu).

(** The register write, the tick that starts the unit and sends the first
    packets, the answer to the first read packet and the next tick. *)
Definition ex_1 := Eval vm_compute in get (ex_write ex_0).
Definition ex_2 := Eval vm_compute in get (ex_tick ex_1).
Definition ex_3 := Eval vm_compute in get (ex_resp 0 ex_2).
Definition ex_4 := Eval vm_compute in get (ex_tick ex_3).

Example ex_notes :
  (let* s := ex_resp 1 ex_4 in let* s := ex_resp 2 s in let* s := ex_tick s in
   let* s := ex_resp 3 s in Ok (s.2))
  = Ok [(0%nat, bytes (ex_mem 0) 0x1010 100); (1%nat, [])].
Proof. vm_compute. reflexivity. Qed.

(** The run is one of the step relation's. *)
Lemma ex_calls_wf l cu' calls :
  cu_initialize l = Ok (cu', calls) → calls_wf ex_mem ∅ calls.
Proof.
  intros Hini. unfold cu_initialize, note_unit in Hini.
  apply bind_ok in Hini as (w & Hw & [= <- <-]). split; [set_solver|].
  split; [by apply MemoryRequest_read_fresh; lia|]. split; [set_solver|]. split; [|done].
  by apply (MemoryRequest_write_fresh (ex_mem 1)) in Hw as [? _]; [|lia..].
Qed.

Lemma ex_write_step s s' : ex_write s = Ok s' → step ex_cfg ex_mem s s'.
Proof.
  destruct s as [[m d] cu]. intros Hs. apply bind_ok in Hs as ([m' d'] & Hw & [= <-]).
  by apply (step_write _ _ ex_env m d cu 0x10020000 [1]).
Qed.
Lemma ex_tick_step s s' :
  (computationNeeded s.1.2 = false → dom (reqs s.1.1) = ∅) →
  ex_tick s = Ok s' → step ex_cfg ex_mem s s'.
Proof.
  destruct s as [[m d] cu], s' as [[m' d'] cu']. cbn [fst snd]. intros Hd Hs.
  apply (step_tick _ _ ex_env); [|done]. intros Hc cu0 calls Hini.
  rewrite (Hd Hc). by apply (ex_calls_wf cu cu0).
Qed.
Lemma ex_resp_step k s s' : ex_resp k s = Ok s' → step ex_cfg ex_mem s s'.
Proof.
  destruct s as [[m d] cu]. intros Hs. apply bind_ok in Hs as (pk & Hpk & Hs).
  apply bind_ok in Hs as ([m' cu'] & Hr & [= <-]). apply deref_ok in Hpk.
  by apply (step_resp _ _ ex_env m d cu k pk (bytes (ex_mem 0) (pk_paddr pk) (pk_size pk))).
Qed.

Lemma ex_runs3 : rtc (step ex_cfg ex_mem) ex_0 ex_3.
Proof.
  apply (rtc_l _ _ ex_1); [apply ex_write_step; vm_compute; reflexivity|].
  apply (rtc_l _ _ ex_2).
  { apply ex_tick_step; [|vm_compute; reflexivity]. intros _. vm_compute. reflexivity. }
  apply (rtc_l _ _ ex_3); [apply (ex_resp_step 0); vm_compute; reflexivity|apply rtc_refl].
Qed.

Lemma ex_runs : rtc (step ex_cfg ex_mem) ex_0 ex_4.
Proof.
  eapply rtc_r; [exact ex_runs3|]. apply ex_tick_step; [|vm_compute; reflexivity]. intros Hc. vm_compute in Hc. discriminate.
Qed.

Definition ex_m : Mem := ex_4.1.1.
Definition ex_pkt (k : nat) : Packet := default (mkPacket POther 0 0 []) (pkts ex_m !! k).

Lemma ex_cls : 0 < cacheLineSize ex_cfg < 2 ^ 31.
Proof. vm_compute. done. Qed.
Lemma comm_ex_initial : initial ex_cfg ex_0.
Proof. by eexists. Qed.

Lemma packet_in_line_witness :
  ∃ size, chunk ex_cfg 0x1010 100 = Ok size ∧ 0 < size ≤ 100 ∧
    0x1010 / 64 = (0x1010 + size - 1) / 64 ∧ (size < 100 → (0x1010 + size) mod 64 = 0).
Proof. apply (packet_in_line ex_cfg 0x1010 100); [exact ex_cls|lia|lia]. Defined.

(** The second packet of the load is its last one. *)
Lemma response_commits_witness :
  ∃ rd r q m', pk_kind (ex_pkt 2) = kind_of rd ∧ r ∈ acc rd ex_m ∧ reqs ex_m !! r = Some q ∧
    mr_pkt q = Some 2%nat ∧ pkts m' !! 2%nat = None ∧
    if 0 <? left_ rd q then
      recvPacket ex_cfg ex_env ex_m ex_4.2 2 (bytes (ex_mem 0) 0x1040 52) = Ok (m', ex_4.2) ∧ r ∈ queue rd m'
    else
      reqs m' !! r = None ∧
      recvPacket ex_cfg ex_env ex_m ex_4.2 2 (bytes (ex_mem 0) 0x1040 52) =
        let* cu' := (if rd then cu_readCommit ex_4.2 r (bytes (ex_mem r) (address q) (totalLength q))
                     else cu_writeCommit ex_4.2 r) in
        Ok (m', cu').
Proof.
  apply (response_commits ex_cfg ex_mem ex_env ex_0 ex_m ex_4.1.2 ex_4.2 2 (ex_pkt 2)
    (bytes (ex_mem 0) 0x1040 52)).
  - exact ex_cls.
  - exact comm_ex_initial.
  - exact ex_runs.
  - vm_compute. reflexivity.
  - intros _. vm_compute. reflexivity.
Defined.

Lemma requests_in_one_place_witness :
  let all := readQueue ex_m ++ accRdQ ex_m ++ writeQueue ex_m ++ accWrQ ex_m in
  NoDup all ∧ (∀ r, r ∈ all ↔ is_Some (reqs ex_m !! r)) ∧
  ∀ rd r, r ∈ acc rd ex_m → ∃ q k pk pid p,
    reqs ex_m !! r = Some q ∧ mr_pkt q = Some k ∧ pkts ex_m !! k = Some pk ∧ pk_kind pk = kind_of rd ∧
    mr_port q = Some pid ∧ port_of ex_m pid = Some p ∧ slot rd p = Some r ∧
    ∀ rd' r' q', r' ∈ acc rd' ex_m → reqs ex_m !! r' = Some q' → mr_pkt q' = Some k → r' = r.
Proof.
  apply (requests_in_one_place ex_cfg ex_mem ex_0 ex_m ex_4.1.2 ex_4.2).
  - exact ex_cls.
  - exact comm_ex_initial.
  - exact ex_runs.
Defined.

(** Packet 1 carries the first two bytes of the store, up to the line's end. *)
Lemma write_packet_data_witness :
  ∃ r q, r ∈ accWrQ ex_m ∧ reqs ex_m !! r = Some q ∧ mr_pkt q = Some 1%nat ∧
    address q ≤ 0x203e ∧ 0x203e + 2 ≤ address q + totalLength q ∧
    [7; 8] = take (Z.to_nat 2) (drop (Z.to_nat (0x203e - address q)) (buffer q)).
Proof.
  apply (write_packet_data ex_cfg ex_mem ex_0 ex_m ex_4.1.2 ex_4.2 1 (mkPacket PWrite 0x203e 2 [7; 8])).
  - exact ex_cls.
  - exact comm_ex_initial.
  - exact ex_runs.
  - vm_compute. reflexivity.
  - reflexivity.
Defined.

(** After the first answer the load is queued again. *)
Lemma queued_tick_pending_witness : ∃ t, tickAt ex_3.1.1 = Some t.
Proof.
  apply (queued_tick_pending ex_cfg ex_mem ex_0 ex_3.1.1 ex_3.1.2 ex_3.2).
  - exact ex_cls.
  - exact comm_ex_initial.
  - exact ex_runs3.
  - vm_compute. reflexivity.
  - vm_compute. discriminate.
Defined.

(** Nothing is connected to the port. *)
Definition ex_env_none : Env :=
  mkEnv 1000 1010 (fun _ => []) (fun _ _ _ => true) (fun _ _ _ _ => true) (fun _ _ _ _ _ => true).

Lemma processMemoryRequests_panic_witness :
  Panic = Panic ∧ ∃ rd r q, r ∈ queue rd ex_3.1.1 ∧ reqs ex_3.1.1 !! r = Some q ∧
    reachable_addr ex_env_none ex_3.1.1 (current rd q) = false.
Proof.
  apply (processMemoryRequests_panic ex_cfg ex_mem ex_env_none ex_0 ex_3.1.1 ex_3.1.2 ex_3.2).
  - exact ex_cls.
  - exact comm_ex_initial.
  - exact ex_runs3.
  - vm_compute. reflexivity.
Defined.

Lemma run_bit_starts_witness :
  ∃ m' d' b', checkMMR ex_cfg ex_env ex_1.1.1 ex_1.1.2 ex_1.2 = Ok (m', d', []) ∧
    computationNeeded d' = true ∧
    flags_byte d' = Ok b' ∧ Z.testbit b' 0 = false ∧ Z.testbit b' 1 = true ∧
    (∀ i, 2 ≤ i < 8 → Z.testbit b' i = Z.testbit 1 i) ∧
    ∀ env' m'' (cu'' : list Note), checkMMR ex_cfg env' m'' d' cu'' = Ok (m'', d', cu'').
Proof.
  eapply (run_bit_starts ex_cfg ex_env ex_1.1.1 ex_1.1.2 ex_1.2 [] 1).
  - reflexivity.
  - reflexivity.
  - reflexivity.
  - vm_compute. reflexivity.
  - repeat constructor; discriminate.
Defined.

Definition ex_done : Dev := match finish ex_cfg ex_m ex_4.1.2 with Ok d => d | Err _ => ex_0.1.2 end.

Lemma finish_reports_witness :
  (∃ b b', flags_byte ex_4.1.2 = Ok b ∧ flags_byte ex_done = Ok b' ∧
     Z.testbit b' 0 = false ∧ Z.testbit b' 1 = false ∧ Z.testbit b' 2 = true ∧
     ∀ i, 3 ≤ i < 8 → Z.testbit b' i = Z.testbit b i) ∧
  tail (mmreg ex_done) = tail (mmreg ex_4.1.2) ∧ computationNeeded ex_done = false ∧
  int_flag ex_done = (0 <? int_num ex_cfg) || int_flag ex_4.1.2 ∧
  ∀ i, SetReadyStatus i false ∈ drop (length (out ex_4.1.2)) (out ex_done) ↔
       reset_spm ex_cfg = true ∧ (i < length (ports ex_m PSPM))%nat.
Proof. apply (finish_reports ex_cfg ex_m ex_4.1.2 ex_done). vm_compute. reflexivity. Defined.

(** The host writes zero to the flags after the interrupt. *)
Definition ex_ack : Mem * Dev :=
  match write ex_cfg ex_env ex_m ex_done 0x10020000 [0] with Ok x => x | Err _ => (ex_m, ex_done) end.

Lemma write_clears_interrupt_witness :
  int_flag ex_ack.2 = int_flag ex_done && Z.testbit 0 2 ∧
  out ex_ack.2 = out ex_done ++ (if int_flag ex_done && negb (Z.testbit 0 2)
                                 then [ClearInt (int_num ex_cfg)] else []) ∧
  tickAt ex_ack.1 ≠ None.
Proof.
  apply (write_clears_interrupt ex_cfg ex_env ex_m ex_done 0x10020000 [0] ex_ack.1 ex_ack.2 0).
  - vm_compute. reflexivity.
  - vm_compute. reflexivity.
  - reflexivity.
Defined.

(** Two writes that overlap and a tick that starts the unit: the second write
    wins where they do, and the flags have changed. *)
Definition ex_host1 : ex_state := Eval vm_compute in
  get (let* md := write ex_cfg ex_env ex_0.1.1 ex_0.1.2 0x10020000 [1; 0; 0; 0; 5; 6; 7; 8] in Ok (md, ex_0.2)).
Definition ex_host2 : ex_state := Eval vm_compute in get (tick ex_cfg ex_env ex_host1.1.1 ex_host1.1.2 ex_host1.2).
Definition ex_host : ex_state := Eval vm_compute in
  get (let* md := write ex_cfg ex_env ex_host2.1.1 ex_host2.1.2 0x10020006 [9; 10] in Ok (md, ex_host2.2)).
Definition ex_writes : list (Z * list Z) := [(0, [1; 0; 0; 0; 5; 6; 7; 8]); (6, [9; 10])].

Lemma ex_host_run : host_run ex_cfg ex_0 ex_writes (ex_host.1.1, ex_host.1.2, ex_host.2).
Proof.
  change (host_run ex_cfg ex_0 ([(0, [1; 0; 0; 0; 5; 6; 7; 8])] ++ [(u64 (0x10020006 - io_addr ex_cfg), [9; 10])])
            (ex_host.1.1, ex_host.1.2, ex_host2.2)).
  apply (hr_write ex_cfg ex_0 _ ex_env ex_host2.1.1 ex_host2.1.2);
    [|by repeat constructor|vm_compute; reflexivity].
  apply (hr_device ex_cfg ex_0 _ (ex_host1.1.1, ex_host1.1.2, ex_host1.2)).
  2:{ apply (ds_tick ex_cfg ex_env). vm_compute. reflexivity. }
  change (host_run ex_cfg ex_0 ([] ++ [(u64 (0x10020000 - io_addr ex_cfg), [1; 0; 0; 0; 5; 6; 7; 8])])
            (ex_host1.1.1, ex_host1.1.2, ex_0.2)).
  apply (hr_write ex_cfg ex_0 _ ex_env ex_0.1.1 ex_0.1.2); [constructor|by repeat constructor|vm_compute; reflexivity].
Qed.

End Example.
