(* ===== verification/CommLive.v ===== *)
(** Liveness of the communication interface: when the peers of the ports
    answer, retry and accept, every request of the compute unit is committed.
    The proof adds to the invariant of [CommInv] where each packet is (waiting
    at its port or on the wire) and a measure of the work that is left, which
    every useful event decreases. *)
From stdpp Require Import gmap.
From S2P Require Import Prelude MemRequest AddrRange CommInterface CommInv CommSpec.

(** ** Sums over the queues *)

Lemma sum_le {A} (f g : A → nat) l :
  (∀ x, x ∈ l → (g x ≤ f x)%nat) → (sum_list_with g l ≤ sum_list_with f l)%nat.
Proof.
  induction l as [|x l IH]; intros Hl; simpl; [done|].
  pose proof (Hl x ltac:(set_solver)). enough (sum_list_with g l ≤ sum_list_with f l)%nat by lia.
  apply IH. set_solver.
Qed.

Lemma sum_lt {A} (f g : A → nat) l y :
  (∀ x, x ∈ l → (g x ≤ f x)%nat) → y ∈ l → (g y < f y)%nat →
  (sum_list_with g l < sum_list_with f l)%nat.
Proof.
  intros Hl Hy Hlt. apply list_elem_of_split in Hy as (l1 & l2 & ->).
  rewrite !sum_list_with_app. simpl.
  assert (sum_list_with g l1 ≤ sum_list_with f l1)%nat by (apply sum_le; set_solver).
  assert (sum_list_with g l2 ≤ sum_list_with f l2)%nat by (apply sum_le; set_solver). lia.
Qed.

Lemma sum_eq {A} (f g : A → nat) l :
  (∀ x, x ∈ l → g x = f x) → sum_list_with g l = sum_list_with f l.
Proof.
  intros Hl. apply Nat.le_antisymm; apply sum_le; intros x Hx; by rewrite Hl.
Qed.

Lemma sum_perm {A} (f : A → nat) l l' : l ≡ₚ l' → sum_list_with f l = sum_list_with f l'.
Proof. induction 1; simpl; lia. Qed.

(** ** The work that is left *)

(** The packet of a request has been accepted by the peer of its port. *)
Definition on_wire (m : Mem) (q : MemoryRequest) : bool :=
  match mr_port q, mr_pkt q with
  | Some pid, Some k => bool_decide ((pid, k) ∈ sent m)
  | _, _ => false
  end.

(** A queued request counts three for each byte that has no packet yet; one in
    flight also two while its packet waits at the port and one on the wire. *)
Definition weight_q (m : Mem) (rd : bool) (r : nat) : nat :=
  match reqs m !! r with Some q => 3 * Z.to_nat (left_ rd q) | None => 0 end.
Definition weight_a (m : Mem) (rd : bool) (r : nat) : nat :=
  match reqs m !! r with
  | Some q => 3 * Z.to_nat (left_ rd q) + if on_wire m q then 1 else 2
  | None => 0
  end.
Definition work1 (Q A : bool → list nat) (m : Mem) (rd : bool) : nat :=
  sum_list_with (weight_q m rd) (Q rd) + sum_list_with (weight_a m rd) (A rd).
Definition work_of (Q A : bool → list nat) (m : Mem) : nat := work1 Q A m true + work1 Q A m false.
Definition work (m : Mem) : nat := work_of (fun d => queue d m) (fun d => acc d m) m.

Lemma work_of_dir Q A m rd : work_of Q A m = (work1 Q A m rd + work1 Q A m (negb rd))%nat.
Proof. unfold work_of. destruct rd; simpl; lia. Qed.

Lemma work_of_ext Q A Q' A' m :
  (∀ d, Q' d = Q d) → (∀ d, A' d = A d) → work_of Q' A' m = work_of Q A m.
Proof. intros HQ HA. unfold work_of, work1. by rewrite !HQ, !HA. Qed.

(** ** Where the packets are *)

Record Wire (A : bool → list nat) (m : Mem) : Prop := {
  wi_out : ∀ pid p k, port_of m pid = Some p → k ∈ outstandingPkts p →
    ∃ rd r q, r ∈ A rd ∧ reqs m !! r = Some q ∧ mr_pkt q = Some k ∧ mr_port q = Some pid;
  wi_wait : ∀ pid p k pid', port_of m pid = Some p → k ∈ outstandingPkts p → (pid', k) ∉ sent m;
  wi_fly : ∀ rd r q pid k, r ∈ A rd → reqs m !! r = Some q → mr_port q = Some pid →
    mr_pkt q = Some k →
    (pid, k) ∈ sent m ∨ ∃ p, port_of m pid = Some p ∧ k ∈ outstandingPkts p;
  wi_nodup : ∀ pid p, port_of m pid = Some p → NoDup (outstandingPkts p);
  wi_sent : ∀ pid k, (pid, k) ∈ sent m → (k < nextPkt m)%nat;
}.

Definition MWire (m : Mem) : Prop := Wire (fun d => acc d m) m.

Lemma Wire_ext A A' m : (∀ d, A' d = A d) → Wire A m → Wire A' m.
Proof.
  intros HA [H1 H2 H3 H4 H5]. split; [|done| |done..].
  - intros pid p k Hp Hk. destruct (H1 pid p k Hp Hk) as (rd & r & q & ?). exists rd, r, q. by rewrite HA.
  - intros rd r q pid k. rewrite HA. apply H3.
Qed.

(** Nothing but the tick changes. *)
Definition quiet (m m' : Mem) : Prop := same_mem m m' ∧ sent m' = sent m.

Lemma quiet_refl m : quiet m m.
Proof. by repeat split. Qed.
Lemma quiet_trans m m' m'' : quiet m m' → quiet m' m'' → quiet m m''.
Proof. intros [? ?] [? ?]. split; [by eapply same_mem_trans|congruence]. Qed.
Lemma schedule_at_quiet m t : quiet m (schedule_at m t).
Proof. unfold schedule_at. destruct (tickAt m); by repeat split. Qed.
Lemma schedule_tick_quiet cfg env m : quiet m (schedule_tick cfg env m).
Proof. apply schedule_at_quiet. Qed.

Lemma Wire_same A m m' :
  reqs m' = reqs m → nextPkt m' = nextPkt m → ports m' = ports m → sent m' = sent m →
  Wire A m → Wire A m'.
Proof.
  intros Er En Ep Es [H1 H2 H3 H4 H5].
  assert (∀ pid, port_of m' pid = port_of m pid) as Ep' by (intros; unfold port_of; by rewrite Ep).
  split; intros *; rewrite ?Ep', ?Er, ?Es, ?En; [apply H1|apply H2|apply H3|apply H4|apply H5].
Qed.
Lemma quiet_wire A m m' : quiet m m' → Wire A m → Wire A m'.
Proof. intros [(Er & _ & En & Ep & _) Es]. by apply Wire_same. Qed.
Lemma quiet_mwire m m' : quiet m m' → MWire m → MWire m'.
Proof.
  intros Hq HW. apply (quiet_wire _ m m' Hq). eapply Wire_ext; [|exact HW]. apply Hq.
Qed.
Lemma quiet_weights m m' : quiet m m' →
  (∀ d r, weight_q m' d r = weight_q m d r) ∧ (∀ d r, weight_a m' d r = weight_a m d r).
Proof.
  intros [(Er & _) Es]. unfold weight_q, weight_a, on_wire. by rewrite Er, Es.
Qed.
Lemma quiet_work_of Q A m m' : quiet m m' → work_of Q A m' = work_of Q A m.
Proof.
  intros Hq. destruct (quiet_weights m m' Hq) as [E1 E2]. unfold work_of, work1.
  by repeat (f_equal; try (apply sum_eq; intros; by rewrite ?E1, ?E2)).
Qed.
Lemma quiet_work m m' : quiet m m' → work m' = work m.
Proof.
  intros Hq. unfold work. rewrite (quiet_work_of _ _ m m' Hq). apply work_of_ext; apply Hq.
Qed.

(** ** Sending a packet *)

(** The packet [k] leaves by [pid]: it is on the wire, or waits at the port. *)
Definition posted (m : Mem) (pid : PortId) (k : nat) (m' : Mem) : Prop :=
  (sent m' = sent m ++ [(pid, k)] ∧
    ∀ pid', outstandingPkts <$> port_of m' pid' = outstandingPkts <$> port_of m pid') ∨
  (sent m' = sent m ∧ ∀ pid', outstandingPkts <$> port_of m' pid' =
     if decide (pid' = pid) then (fun l => l ++ [k]) <$> (outstandingPkts <$> port_of m pid)
     else outstandingPkts <$> port_of m pid').

(** The members a posting depends on. *)
Definition same_post (m m' : Mem) : Prop :=
  sent m' = sent m ∧ ∀ pid, outstandingPkts <$> port_of m' pid = outstandingPkts <$> port_of m pid.

Lemma posted_l m0 m pid k m' : same_post m0 m → posted m pid k m' → posted m0 pid k m'.
Proof.
  intros [Es Eo] [[H1 H2]|[H1 H2]]; [left|right]; (split; [congruence|]); intros pid'; rewrite H2.
  - apply Eo.
  - case_decide; by rewrite Eo.
Qed.
Lemma posted_r m pid k m' m'' : same_post m' m'' → posted m pid k m' → posted m pid k m''.
Proof.
  intros [Es Eo] [[H1 H2]|[H1 H2]]; [left|right]; (split; [congruence|]); intros pid'; by rewrite Eo, H2.
Qed.
Lemma same_post_set_slot m pid p rd o :
  port_of m pid = Some p → same_post m (set_port m pid (set_slot rd p o)).
Proof.
  intros Hp. split; [done|]. intros pid'. rewrite (port_of_set m pid p _ pid' Hp).
  case_decide; [subst pid'; rewrite Hp; by destruct rd|done].
Qed.
Lemma quiet_post m m' : quiet m m' → same_post m m'.
Proof. intros [(_ & _ & _ & Ep & _) Es]. split; [done|]. intros pid. unfold port_of. by rewrite Ep. Qed.

Lemma sendPacket_posted env m pid k m' :
  sendPacket env m pid k = Ok m' → posted m pid k m'.
Proof.
  unfold sendPacket. intros H. apply bind_ok in H as (p & Hp & H). apply port_at_of in Hp.
  destruct (_ || _); injection H as <-; [right|by left].
  split; [done|]. intros pid'. rewrite (port_of_set m pid p _ pid' Hp).
  case_decide; [|done]. by rewrite Hp.
Qed.

Section Sending.
Context (cfg : Params) (env : Env).

Lemma after_send_quiet m pid left m' : after_send cfg env m pid left = Ok m' → quiet m m'.
Proof.
  unfold after_send. destruct (0 <? left).
  - intros H. apply bind_ok in H as (p & _ & [= <-]).
    destruct (isStalled p); [apply quiet_refl|apply schedule_tick_quiet].
  - intros [= <-]. apply schedule_tick_quiet.
Qed.

Lemma tryAccess_posted rd m r q pid p m' :
  port_of m pid = Some p → slot rd p = Some r → reqs m !! r = Some q → 0 < left_ rd q →
  tryAccess cfg env rd m pid = Ok m' → posted m pid (nextPkt m) m'.
Proof.
  intros Hp Hs Hq Hl.
  assert (tryAccess cfg env rd m pid = if rd then tryRead cfg env m pid else tryWrite cfg env m pid)
    as -> by (destruct pid as [[] ?], rd; done).
  intros Ht. assert (∃ pk m1 q' left, sendPacket env (new_pkt m pk) pid (nextPkt m) = Ok m1 ∧
    after_send cfg env (set_req m1 r q') pid left = Ok m') as (pk & m1 & q' & left & H1 & H2).
  { destruct rd; simpl in *; unfold tryRead, tryWrite in Ht;
      rewrite (proj2 (port_at_of m pid p) Hp) in Ht; cbn [mbind outcome_bind] in Ht;
      rewrite Hs in Ht; cbn [deref mbind outcome_bind] in Ht;
      rewrite (proj2 (req_at_ok m r q) Hq) in Ht; cbn [mbind outcome_bind] in Ht;
      rewrite (proj2 (Z.leb_gt _ _)) in Ht by lia; apply bind_ok in Ht as (size & _ & Ht).
    - apply bind_ok in Ht as (m1 & H1 & H2). by eexists _, m1, _, _.
    - apply bind_ok in Ht as (data & _ & Ht).
      apply bind_ok in Ht as (m1 & H1 & H2). by eexists _, m1, _, _. }
  apply sendPacket_posted in H1. apply after_send_quiet, quiet_post in H2.
  apply (posted_r _ _ _ m1); [exact H2|]. by apply (posted_l m (new_pkt m pk)).
Qed.

Lemma launch_posted rd m r q pid p m' :
  port_of m pid = Some p → reqs m !! r = Some q → need rd q = true → 0 < left_ rd q →
  launch cfg env rd m r pid = Ok m' → posted m pid (nextPkt m) m'.
Proof.
  intros Hp Hq Hn Hl Hr. unfold launch in Hr.
  rewrite (proj2 (port_at_of m pid p) Hp) in Hr. cbn [mbind outcome_bind] in Hr.
  rewrite (proj2 (req_at_ok m r q) Hq) in Hr. cbn [mbind outcome_bind] in Hr. rewrite Hn in Hr.
  apply bind_ok in Hr as (m2 & Hr & [= <-]).
  apply (posted_r _ _ _ m2); [by destruct rd|].
  eapply posted_l; [apply (same_post_set_slot m pid p rd (Some r) Hp)|].
  eapply posted_l; [|refine (tryAccess_posted rd _ r (set_carrier q pid) pid (set_slot rd p (Some r)) m2 _ _ _ _ Hr)].
  - done.
  - change (port_of (set_port m pid (set_slot rd p (Some r))) pid = Some (set_slot rd p (Some r))).
    by rewrite (port_of_set m pid p), decide_True.
  - rewrite slot_set. by destruct rd.
  - apply lookup_insert_eq.
  - by destruct rd.
Qed.

(** *** A launch keeps the packets accounted for and reduces the work *)

Lemma flying_pkt_lt μ Q A m rd r q k :
  Inv μ Q A m → r ∈ A rd → reqs m !! r = Some q → mr_pkt q = Some k → (k < nextPkt m)%nat.
Proof.
  intros HI Hr Hq Hk. destruct (inv_flying _ _ _ _ HI rd r q Hr Hq) as (_ & pk & Hf & _).
  destruct (fl_pkt _ _ _ _ _ Hf) as (k' & Hk' & Hpk). simplify_eq.
  by apply (inv_pkts _ _ _ _ HI) in Hpk as [? _].
Qed.

Lemma fmap_out_some m pid l :
  outstandingPkts <$> port_of m pid = Some l → ∃ p, port_of m pid = Some p ∧ outstandingPkts p = l.
Proof. destruct (port_of m pid) as [p|]; [|done]. intros [= <-]. by exists p. Qed.

(** The posted view of a port's waiting packets and of the wire. *)
Lemma posted_out m pid k m' pid' p' k' :
  posted m pid k m' → port_of m' pid' = Some p' → k' ∈ outstandingPkts p' →
  (∃ p, port_of m pid' = Some p ∧ k' ∈ outstandingPkts p) ∨
  (pid' = pid ∧ k' = k ∧ sent m' = sent m).
Proof.
  intros HP Hp' Hk'. destruct HP as [[Es Eo]|[Es Eo]]; specialize (Eo pid'); rewrite Hp' in Eo; simpl in Eo.
  - left. symmetry in Eo. apply fmap_out_some in Eo as (p & ? & E). exists p. by rewrite E.
  - case_decide as Epid.
    + destruct (port_of m pid) as [p|] eqn:Hp; [|done]. simpl in Eo. injection Eo as Eo.
      rewrite Eo in Hk'. apply elem_of_app in Hk' as [?|Hk'].
      * left. exists p. by subst pid'.
      * right. apply list_elem_of_singleton in Hk'. done.
    + left. symmetry in Eo. apply fmap_out_some in Eo as (p & ? & E). exists p. by rewrite E.
Qed.
Lemma posted_sent m pid k m' x :
  posted m pid k m' → x ∈ sent m' → x ∈ sent m ∨ x = (pid, k) ∧ sent m' = sent m ++ [(pid, k)].
Proof.
  intros [[Es _]|[Es _]]; rewrite Es; [|auto]. rewrite elem_of_app, list_elem_of_singleton. naive_solver.
Qed.
Lemma posted_mono m pid k m' x : posted m pid k m' → x ∈ sent m → x ∈ sent m'.
Proof. intros [[-> _]|[-> _]]; set_solver. Qed.

Section LaunchedWire.
Context (μ : nat → Z → Z) (rd : bool) (Q A : bool → list nat) (m : Mem) (r : nat) (q : MemoryRequest)
  (pid : PortId) (p : Port) (m' : Mem) (q' : MemoryRequest) (pk : Packet) (p' : Port)
  (kept todo : list nat).
Hypothesis Hcls : 0 < cacheLineSize cfg < 2 ^ 31.
Hypothesis HI : Inv μ Q A m.
Hypothesis HW : Wire A m.
Hypothesis HQrd : Q rd = kept ++ r :: todo.
Hypothesis Hq : reqs m !! r = Some q.
Hypothesis Hp : port_of m pid = Some p.
Hypothesis Hfree : slot rd p = None.
Hypothesis L : launched rd m r q pid p m' q' pk p'.
Hypothesis HP : posted m pid (nextPkt m) m'.

Let A' := upd A rd (A rd ++ [r]).

Lemma launched_reqs r' : reqs m' !! r' = if decide (r' = r) then Some q' else reqs m !! r'.
Proof.
  rewrite (la_reqs _ _ _ _ _ _ _ _ _ _ L). case_decide as E.
  - by rewrite E, lookup_insert_eq.
  - by rewrite lookup_insert_ne.
Qed.

Lemma launched_old d r' q0 : r' ∈ A d → reqs m !! r' = Some q0 →
  r' ∈ A' d ∧ reqs m' !! r' = Some q0.
Proof.
  intros Hr' Hq0. split; [by eapply (launched_still cfg Hcls μ rd Q A m)|].
  rewrite launched_reqs, decide_False; [done|]. by eapply (launched_ne cfg Hcls μ rd Q A m).
Qed.

Lemma launched_wire : Wire A' m'.
Proof.
  assert (∀ d r0 q0 k, r0 ∈ A d → reqs m !! r0 = Some q0 → mr_pkt q0 = Some k → (k < nextPkt m)%nat) as Hlt
    by (intros *; apply (flying_pkt_lt μ Q A m d r0 q0 k HI)).
  assert (∀ pid0 p0 k, port_of m pid0 = Some p0 → k ∈ outstandingPkts p0 → (k < nextPkt m)%nat) as Hlt'.
  { intros pid0 p0 k H0 Hk. destruct (wi_out _ _ HW pid0 p0 k H0 Hk) as (d & r0 & q0 & ? & ? & ? & ?).
    by eapply Hlt. }
  split.
  - intros pid0 p0 k H0 Hk. destruct (posted_out m pid _ m' pid0 p0 k HP H0 Hk) as [(p1 & H1 & Hk1)|(-> & -> & _)].
    + destruct (wi_out _ _ HW pid0 p1 k H1 Hk1) as (d & r0 & q0 & Hr0 & Hq0 & ? & ?).
      destruct (launched_old d r0 q0 Hr0 Hq0). by exists d, r0, q0.
    + exists rd, r, q'. split; [by eapply (launched_now cfg Hcls μ rd Q A m)|].
      rewrite launched_reqs, decide_True by done. split_and!; [done|apply L..].
  - intros pid0 p0 k pid' H0 Hk Hs.
    destruct (posted_out m pid _ m' pid0 p0 k HP H0 Hk) as [(p1 & H1 & Hk1)|(-> & -> & Es)].
    + destruct (posted_sent m pid _ m' _ HP Hs) as [Hs'|([= -> ->] & _)].
      * by apply (wi_wait _ _ HW pid0 p1 k pid' H1 Hk1).
      * pose proof (Hlt' _ _ _ H1 Hk1). lia.
    + rewrite Es in Hs. apply (wi_sent _ _ HW) in Hs. lia.
  - intros d r0 q0 pid0 k Hr0 Hq0 Hpid0 Hk0.
    destruct (launched_A cfg Hcls μ rd Q A m r q pid p m' q' pk p' kept todo HI HQrd Hq Hp Hfree L d r0 Hr0)
      as [[Hin Hne]|[-> ->]]; rewrite launched_reqs in Hq0.
    + rewrite decide_False in Hq0 by done.
      destruct (wi_fly _ _ HW d r0 q0 pid0 k Hin Hq0 Hpid0 Hk0) as [?|(p1 & H1 & Hk1)].
      * left. by apply (posted_mono m pid (nextPkt m)).
      * right. destruct HP as [[_ Eo]|[_ Eo]]; specialize (Eo pid0); rewrite ?H1 in Eo.
        -- apply fmap_out_some in Eo as (p2 & ? & E). exists p2. by rewrite E.
        -- case_decide; [subst pid0; rewrite H1 in Eo|]; apply fmap_out_some in Eo as (p2 & ? & E);
             exists p2; rewrite E; set_solver.
    + rewrite decide_True in Hq0 by done. injection Hq0 as <-.
      rewrite (la_port _ _ _ _ _ _ _ _ _ _ L) in Hpid0. rewrite (la_pkt _ _ _ _ _ _ _ _ _ _ L) in Hk0.
      injection Hpid0 as <-. injection Hk0 as <-. destruct HP as [[Es _]|[_ Eo]].
      * left. rewrite Es. set_solver.
      * right. specialize (Eo pid). rewrite decide_True, Hp in Eo by done.
        apply fmap_out_some in Eo as (p2 & ? & E). exists p2. rewrite E. set_solver.
  - intros pid0 p0 H0. destruct HP as [[_ Eo]|[_ Eo]]; specialize (Eo pid0); rewrite H0 in Eo; simpl in Eo.
    + symmetry in Eo. apply fmap_out_some in Eo as (p1 & H1 & <-). by apply (wi_nodup _ _ HW pid0).
    + case_decide as Epid.
      * rewrite Hp in Eo. injection Eo as ->. apply NoDup_app. split_and!.
        -- by apply (wi_nodup _ _ HW pid).
        -- intros k Hk Hk'%list_elem_of_singleton. pose proof (Hlt' pid p k Hp Hk). lia.
        -- apply NoDup_singleton.
      * symmetry in Eo. apply fmap_out_some in Eo as (p1 & H1 & <-). by apply (wi_nodup _ _ HW pid0).
  - intros pid0 k Hk. rewrite (la_next _ _ _ _ _ _ _ _ _ _ L).
    destruct (posted_sent m pid _ m' _ HP Hk) as [Hs|([= -> ->] & _)]; [|lia].
    apply (wi_sent _ _ HW) in Hs. lia.
Qed.

Lemma launched_left : 0 ≤ left_ rd q' < left_ rd q.
Proof.
  assert (r ∈ Q rd) as Hin by (rewrite HQrd; set_solver).
  destruct (inv_queued _ _ _ _ HI rd r q Hin Hq) as (Hok & _ & _).
  pose proof (la_ok _ _ _ _ _ _ _ _ _ _ L) as Hok'. pose proof (la_end _ _ _ _ _ _ _ _ _ _ L) as He.
  destruct (la_same _ _ _ _ _ _ _ _ _ _ L) as (Ea & Et & _).
  rewrite (la_paddr _ _ _ _ _ _ _ _ _ _ L), (rq_current _ _ Hok), (rq_current _ _ Hok'), Ea, Et in He.
  pose proof (la_size _ _ _ _ _ _ _ _ _ _ L). pose proof (rq_left _ _ Hok'). lia.
Qed.

Lemma launched_on_wire d r0 q0 : r0 ∈ A d → reqs m !! r0 = Some q0 → on_wire m' q0 = on_wire m q0.
Proof.
  intros Hr0 Hq0. unfold on_wire. destruct (mr_port q0) as [pid0|]; [|done].
  destruct (mr_pkt q0) as [k0|] eqn:Hk0; [|done]. apply bool_decide_ext. split; intros Hs.
  - destruct (posted_sent m pid _ m' _ HP Hs) as [?|([= -> ->] & _)]; [done|].
    pose proof (flying_pkt_lt μ Q A m d r0 q0 _ HI Hr0 Hq0 Hk0). lia.
  - by apply (posted_mono m pid (nextPkt m)).
Qed.

Lemma launched_work : (work_of (upd Q rd (kept ++ todo)) A' m' < work_of Q A m)%nat.
Proof.
  assert (r ∈ Q rd) as Hin by (rewrite HQrd; set_solver).
  assert (∀ d r0, r0 ∈ A d → weight_a m' d r0 = weight_a m d r0) as Ea.
  { intros d r0 Hr0. assert (r0 ≠ r) as Hne by (by eapply (launched_ne cfg Hcls μ rd Q A m)).
    unfold weight_a. rewrite launched_reqs, decide_False by done.
    destruct (reqs m !! r0) as [q0|] eqn:Hq0; [|done]. by rewrite (launched_on_wire d r0 q0). }
  assert (∀ d r0, r0 ≠ r → weight_q m' d r0 = weight_q m d r0) as Eq.
  { intros d r0 Hne. unfold weight_q. by rewrite launched_reqs, decide_False by done. }
  assert (weight_a m' rd r < weight_q m rd r)%nat as Hw.
  { unfold weight_a, weight_q. rewrite launched_reqs, decide_True, Hq by done.
    pose proof launched_left. destruct (on_wire m' q'); lia. }
  assert (∀ r0, r0 ∈ kept ++ todo → r0 ≠ r) as Hkt.
  { intros r0 Hr0. eapply (launch_queued cfg Hcls Q A rd r kept todo rd r0 (inv_nodup _ _ _ _ HI) HQrd).
    by rewrite upd_eq. }
  rewrite !(work_of_dir _ _ _ rd). unfold work1, A'. rewrite !upd_eq, !upd_ne, HQrd.
  rewrite !sum_list_with_app in *. simpl.
  rewrite (sum_eq (weight_q m rd) (weight_q m' rd) kept) by (intros; apply Eq, Hkt; set_solver).
  rewrite (sum_eq (weight_q m rd) (weight_q m' rd) todo) by (intros; apply Eq, Hkt; set_solver).
  rewrite (sum_eq (weight_a m rd) (weight_a m' rd) (A rd)) by (intros; by apply Ea).
  rewrite (sum_eq (weight_a m (negb rd)) (weight_a m' (negb rd))) by (intros; by apply Ea).
  rewrite (sum_eq (weight_q m (negb rd)) (weight_q m' (negb rd))); [lia|].
  intros r0 Hr0. apply Eq. intros ->.
  pose proof (nodup_Q Q A rd (negb rd) r (inv_nodup _ _ _ _ HI) Hin Hr0). by destruct rd.
Qed.
End LaunchedWire.
End Sending.

(** ** The loops of processMemoryRequests *)

(** A request keeps the bytes it asks for. *)
Definition keeps (m m' : Mem) : Prop :=
  ∀ r q q', reqs m !! r = Some q → reqs m' !! r = Some q' →
    address q' = address q ∧ totalLength q' = totalLength q.

Lemma keeps_same m m' : reqs m' = reqs m → keeps m m'.
Proof. intros E r q q' Hq Hq'. rewrite E in Hq'. by simplify_eq. Qed.

(** The request has a port in the present state. *)
Definition has_port (env : Env) (rd : bool) (m : Mem) (r : nat) : Prop :=
  ∃ q pid, reqs m !! r = Some q ∧ selectPort env m (current rd q) (mr_length q) rd = Ok (Some pid).

Lemma live_elem μ m r : MInv μ m → is_Some (reqs m !! r) ↔ ∃ d, r ∈ live d m.
Proof.
  intros HI. rewrite <-(inv_dom _ _ _ _ HI), everything_elem. unfold live. by setoid_rewrite elem_of_app.
Qed.

Section Ticking.
Context (cfg : Params) (env : Env).
Hypothesis Hcls : 0 < cacheLineSize cfg < 2 ^ 31.

Lemma set_queue_work rd m l :
  work (set_queue rd m l) = work_of (upd (fun d => queue d m) rd l) (fun d => acc d m) m.
Proof. unfold work, work_of, work1. by destruct rd. Qed.

Lemma memLoop_live μ rd todo : ∀ m kept m',
  Inv μ (upd (fun d => queue d m) rd (kept ++ todo)) (fun d => acc d m) m → MWire m →
  memLoop cfg env rd m kept todo = Ok m' →
  MWire m' ∧ keeps m m' ∧
  (m' = set_queue rd m (kept ++ todo) ∧ (∀ r, r ∈ todo → ¬ has_port env rd m r) ∨
   (work m' < work_of (upd (fun d => queue d m) rd (kept ++ todo)) (fun d => acc d m) m)%nat).
Proof.
  induction todo as [|r todo IH]; intros m kept m' HI HW Hrun; cbn [memLoop] in Hrun.
  { injection Hrun as <-. rewrite app_nil_r. split.
    { eapply Wire_ext; [|by apply (Wire_same _ m (set_queue rd m kept)); [..|exact HW]]. by destruct rd. }
    split; [apply keeps_same; by destruct rd|].
    left. split; [done|]. by intros r ?%not_elem_of_nil. }
  apply bind_ok in Hrun as (q & Hq & Hrun). apply req_at_ok in Hq.
  apply bind_ok in Hrun as (o & Ho & Hrun).
  assert (r ∈ upd (fun d => queue d m) rd (kept ++ r :: todo) rd) as Hin
    by (rewrite upd_eq; set_solver).
  destruct (inv_queued _ _ _ _ HI rd r q Hin Hq) as (Hok & Hpos & _).
  destruct o as [pid|].
  - pose proof (selectPort_spec env m (current rd q) (mr_length q) rd) as Hsel. rewrite Ho in Hsel.
    destruct Hsel as (p & Hp & Hs & _).
    destruct (launch_shape cfg env Hcls rd m r q pid p Hp Hq Hok Hpos) as (m1 & q1 & pk & p1 & HL & L).
    rewrite HL in Hrun. cbn [mbind outcome_bind] in Hrun.
    assert (posted m pid (nextPkt m) m1) as HP.
    { apply (launch_posted cfg env rd m r q pid p); try done. rewrite (rq_need _ _ Hok). by apply Z.ltb_lt. }
    pose proof (launched_inv cfg Hcls μ rd _ _ m r q pid p m1 q1 pk p1 kept todo HI (upd_eq _ _ _) Hq Hp Hs L) as HI1.
    pose proof (launched_wire cfg μ rd _ _ m r q pid p m1 q1 pk p1 kept todo Hcls HI HW (upd_eq _ _ _) Hq Hp Hs L HP) as HW1.
    pose proof (launched_work cfg μ rd _ _ m r q pid p m1 q1 pk p1 kept todo Hcls HI HW (upd_eq _ _ _) Hq Hp Hs L HP) as Hw1.
    assert (∀ d, upd (fun d => queue d m1) rd (kept ++ todo) d =
      upd (upd (fun d => queue d m) rd (kept ++ r :: todo)) rd (kept ++ todo) d) as EQ.
    { intros d. unfold upd. rewrite (la_queue _ _ _ _ _ _ _ _ _ _ L). by destruct (Bool.eqb d rd). }
    pose proof (la_acc _ _ _ _ _ _ _ _ _ _ L) as EA.
    destruct (IH m1 kept m') as (HW' & Hkeep & Hw); [|by eapply Wire_ext; [|exact HW1]|done|].
    { by eapply Inv_ext; [exact EQ|exact EA|exact HI1]. }
    split; [done|]. split.
    + destruct (la_same _ _ _ _ _ _ _ _ _ _ L) as (Ea & Et & _). intros r0 q0 q' H0 H'.
      destruct (decide (r0 = r)) as [->|Hne].
      * assert (q0 = q) as -> by congruence. destruct (Hkeep r q1 q') as [-> ->]; [|done|by rewrite Ea, Et].
        by rewrite (la_reqs _ _ _ _ _ _ _ _ _ _ L), lookup_insert_eq.
      * apply (Hkeep r0); [|done]. by rewrite (la_reqs _ _ _ _ _ _ _ _ _ _ L), lookup_insert_ne.
    + right. eapply Nat.le_lt_trans; [|exact Hw1].
      transitivity (work_of (upd (fun d => queue d m1) rd (kept ++ todo)) (fun d => acc d m1) m1);
        [|by rewrite (work_of_ext _ _ _ _ m1 EQ EA)]. destruct Hw as [[-> _]|Hw]; [|lia].
      by rewrite set_queue_work.
  - destruct (IH m (kept ++ [r]) m') as (? & ? & Hw); rewrite <-?app_assoc in *; try done.
    split; [done|]. split; [done|]. destruct Hw as [[? Hno]|?]; [|by right]. left. split; [done|].
    intros r0 [->|?]%elem_of_cons; [|by apply Hno].
    intros (q0 & pid & Hq0 & Hpid). congruence.
Qed.

Lemma set_queue_id rd m : set_queue rd m (queue rd m) = m.
Proof. by destruct m, rd. Qed.

Lemma memLoop_whole μ rd m m' :
  MInv μ m → MWire m → memLoop cfg env rd m [] (queue rd m) = Ok m' →
  MInv μ m' ∧ MWire m' ∧ keeps m m' ∧ (∀ d, live d m' ≡ₚ live d m) ∧
  (m' = m ∧ (∀ r, r ∈ queue rd m → ¬ has_port env rd m r) ∨ (work m' < work m)%nat).
Proof.
  intros HI HW Hrun.
  assert (∀ d, upd (fun d => queue d m) rd (queue rd m) d = queue d m) as E
    by (intros d; unfold upd; by destruct d, rd).
  assert (Inv μ (upd (fun d => queue d m) rd ([] ++ queue rd m)) (fun d => acc d m) m) as HI'
    by (by eapply Inv_ext; [exact E|done|exact HI]).
  pose proof (memLoop_inv cfg env Hcls μ rd (queue rd m) m [] HI') as H1. rewrite Hrun in H1.
  destruct H1 as (? & _ & _ & _ & Hl).
  destruct (memLoop_live μ rd (queue rd m) m [] m' HI' HW Hrun) as (? & ? & Hw).
  split_and!; try done.
  - intros d. rewrite Hl. simpl. by rewrite E.
  - simpl in Hw. rewrite (work_of_ext _ (fun d => acc d m) _ (fun d => acc d m) m E) in Hw by done.
    by rewrite set_queue_id in Hw.
Qed.

(** A state with the same requests, queues and ports. *)
Lemma has_port_quiet rd m m' r : quiet m m' → has_port env rd m r → has_port env rd m' r.
Proof.
  intros [(Er & _ & _ & Ep & _) Es] (q & pid & Hq & Hsel). exists q, pid. rewrite Er. split; [done|].
  rewrite <-Hsel. unfold selectPort, inStreamRange, inSPMRange, inLocalRange, inGlobalRange, inRange,
    getValidStreamPort, getValidSPMPort, getValidLocalPort, getValidGlobalPort, getValidPort, port_free,
    port_ids. by rewrite Ep, Es.
Qed.

Lemma has_port_unstalled rd m r : has_port env rd m r → allPortsStalled m = false.
Proof.
  intros (q & pid & _ & Hsel).
  pose proof (selectPort_spec env m (current rd q) (mr_length q) rd) as Hs. rewrite Hsel in Hs.
  destruct Hs as (p & Hp & _ & Hst & _). destruct pid as [k i]. unfold port_of in Hp. simpl in Hp.
  apply not_true_is_false. intros Hall. unfold allPortsStalled, all_stalled in Hall. zbool.
  assert (forallb isStalled (ports m k) = true) as Hk by (by destruct k).
  rewrite forallb_forall in Hk. apply list_elem_of_lookup_2, list_elem_of_In, Hk in Hp. congruence.
Qed.

Lemma processMemoryRequests_live μ m m' :
  MInv μ m → MWire m → processMemoryRequests cfg env m = Ok m' →
  MWire m' ∧ keeps m m' ∧ (∀ d, live d m' ≡ₚ live d m) ∧
  (quiet m m' ∧ (∀ rd r, r ∈ queue rd m → ¬ has_port env rd m r) ∨ (work m' < work m)%nat).
Proof.
  intros HI HW Hrun. unfold processMemoryRequests in Hrun. apply bind_ok in Hrun as (m2 & H2 & Hrun).
  assert (quiet m2 m') as Hq.
  { injection Hrun as <-. destruct (0 <? requestsInQueues m2); [apply schedule_tick_quiet|apply quiet_refl]. }
  enough (MWire m2 ∧ keeps m m2 ∧ (∀ d, live d m2 ≡ₚ live d m) ∧
    (m2 = m ∧ (∀ rd r, r ∈ queue rd m → ¬ has_port env rd m r) ∨ (work m2 < work m)%nat))
    as (HW2 & Hk2 & Hl2 & Hw2).
  { split; [by apply (quiet_mwire m2)|]. split.
    - intros r q q' ? Hq'. apply (Hk2 r); [done|]. destruct Hq as [(Er & _) _]. by rewrite <-Er.
    - split; [intros d; rewrite (live_same m2 m') by apply Hq; apply Hl2|].
      destruct Hw2 as [[-> ?]|?]; [by left|right]. by rewrite (quiet_work m2 m'). }
  destruct (allPortsStalled m) eqn:Hall.
  { injection H2 as <-. split_and!; try done; [by apply keeps_same|]. left. split; [done|].
    intros rd r _ Hp. apply has_port_unstalled in Hp. congruence. }
  apply bind_ok in H2 as (m1 & H1 & H2).
  destruct (memLoop_whole μ true m m1 HI HW H1) as (HI1 & HW1 & Hk1 & Hl1 & Hw1).
  destruct (memLoop_whole μ false m1 m2 HI1 HW1 H2) as (_ & HW2 & Hk2 & Hl2 & Hw2).
  split_and!; [done| |intros d; by rewrite Hl2|].
  - intros r q q' Hq0 Hq'. assert (is_Some (reqs m1 !! r)) as [q1 Hq1].
    { apply (live_elem μ m1 r HI1). destruct (proj1 (live_elem μ m r HI)) as [d ?]; [by eexists|].
      exists d. by rewrite Hl1. }
    destruct (Hk2 r q1 q' Hq1 Hq') as [-> ->]. by apply (Hk1 r).
  - destruct Hw1 as [[-> Hno1]|?], Hw2 as [[-> Hno2]|?]; [|right; lia..].
    left. split; [done|]. by intros [].
Qed.

(** The tick of a run in progress, which starts nothing new. *)
Lemma tick_live μ m d {CU} `{ComputeUnit CU} (cu cu' : CU) m' d' :
  MInv μ m → MWire m → computationNeeded d = true → tick cfg env m d cu = Ok (m', d', cu') →
  d' = d ∧ cu' = cu ∧ MWire m' ∧ keeps m m' ∧ (∀ d, live d m' ≡ₚ live d m) ∧
  (quiet m m' ∧ (Z.of_nat (length (readQueue m)) + Z.of_nat (length (writeQueue m)) < 2 ^ 31 →
                 ∀ rd r, r ∈ queue rd m → ¬ has_port env rd m r) ∨ (work m' < work m)%nat).
Proof.
  intros HI HW Hc Hrun. unfold tick, checkMMR in Hrun. rewrite Hc in Hrun. cbn [mbind outcome_bind] in Hrun.
  apply bind_ok in Hrun as (m1 & Hrun & [= -> -> ->]). split; [done|]. split; [done|].
  set (m0 := set_tickAt m None) in *. assert (quiet m m0) as Hq by (by repeat split).
  pose proof (quiet_mwire m m0 Hq HW) as HW0.
  assert (MInv μ m0) as HI0 by (apply (MInv_same μ m); [apply Hq|done]).
  destruct (0 <? requestsInQueues m0) eqn:E.
  - destruct (processMemoryRequests_live μ m0 m' HI0 HW0 Hrun) as (? & ? & Hl & Hw).
    split_and!; [done..|]. destruct Hw as [[Hq' Hno]|Hw]; [left|right; by rewrite <-(quiet_work m m0)].
    split; [by apply (quiet_trans _ m0)|]. intros _ rd r Hr Hp. apply (Hno rd r Hr).
    by apply (has_port_quiet rd m).
  - injection Hrun as <-. split_and!; [done|by apply keeps_same|done|]. left. split; [done|].
    intros Hlen rd r Hr _. enough ((0 <? requestsInQueues m) = true) by (change (requestsInQueues m) with (requestsInQueues m0) in *; congruence).
    apply requestsInQueues_pos; [done|]. intros [??]%app_eq_nil.
    assert (queue rd m = []) as Hnil by (by destruct rd). rewrite Hnil in Hr. by apply not_elem_of_nil in Hr.
Qed.
End Ticking.

(** ** Retries *)

Section Retrying.
Context (cfg : Params) (env : Env).

Lemma retryLoop_sent pid l : ∀ m, ∃ l1, l = l1 ++ (retryLoop cfg env m pid l).1 ∧
  sent (retryLoop cfg env m pid l).2 = sent m ++ map (pair pid) l1 ∧
  ((∀ h k, sendTimingReq env h pid k = true) → (retryLoop cfg env m pid l).1 = []).
Proof.
  induction l as [|k l IH]; intros m; simpl; [exists []; simpl; by rewrite app_nil_r|].
  destruct (sendTimingReq _ _ _ _) eqn:E; [|exists []; split_and!; [done|simpl; by rewrite app_nil_r|intros Ht; by rewrite Ht in E]].
  destruct (IH (schedule_tick cfg env (set_sent m (sent m ++ [(pid, k)])))) as (l1 & El & Es & Ha).
  exists (k :: l1). split_and!; [simpl; by rewrite <-El| |done].
  rewrite Es. destruct (schedule_tick_quiet cfg env (set_sent m (sent m ++ [(pid, k)]))) as [_ ->].
  simpl. by rewrite <-app_assoc.
Qed.

(** The packets [l1] at the head of the port's list went out. *)
Lemma resent_wire μ m m' pid p l1 l2 :
  MInv μ m → MWire m → port_of m pid = Some p → outstandingPkts p = l1 ++ l2 →
  reqs m' = reqs m → nextPkt m' = nextPkt m → (∀ d, acc d m' = acc d m) →
  sent m' = sent m ++ map (pair pid) l1 →
  (∀ pid', port_of m' pid' = if decide (pid' = pid) then Some (set_outstanding p l2) else port_of m pid') →
  MWire m'.
Proof.
  intros HI HW Hp Hout Er En EA Es Ep.
  assert (∀ pid' p' k, port_of m' pid' = Some p' → k ∈ outstandingPkts p' →
    ∃ p0, port_of m pid' = Some p0 ∧ k ∈ outstandingPkts p0 ∧ (pid' = pid → k ∉ l1)) as Hback.
  { intros pid' p' k. rewrite Ep. case_decide as E; [|by exists p'].
    intros [= <-] Hk. simpl in Hk. exists p. subst pid'. rewrite Hout. split_and!; [done|set_solver|].
    intros _ Hk'. pose proof (wi_nodup _ _ HW pid p Hp) as HN. rewrite Hout in HN.
    apply NoDup_app in HN as (_ & HN & _). by apply (HN k). }
  assert (∀ pid' k, (pid', k) ∈ sent m' → (pid', k) ∈ sent m ∨ pid' = pid ∧ k ∈ l1) as Hsent.
  { intros pid' k. rewrite Es. intros [?|Hm]%elem_of_app; [by left|right].
    apply list_elem_of_In, in_map_iff in Hm as (? & [= <- <-] & ?). by rewrite list_elem_of_In. }
  assert (∀ k, k ∈ l1 → ∃ rd r q, r ∈ acc rd m ∧ reqs m !! r = Some q ∧ mr_pkt q = Some k ∧ mr_port q = Some pid)
    as Hl1 by (intros k Hk; apply (wi_out _ _ HW pid p k Hp); rewrite Hout; set_solver).
  split.
  - intros pid' p' k Hp' Hk. destruct (Hback pid' p' k Hp' Hk) as (p0 & H0 & Hk0 & _).
    destruct (wi_out _ _ HW pid' p0 k H0 Hk0) as (rd & r & q & ?). exists rd, r, q. by rewrite Er, EA.
  - intros pid' p' k pid0 Hp' Hk Hs. destruct (Hback pid' p' k Hp' Hk) as (p0 & H0 & Hk0 & Hne).
    apply Hsent in Hs as [Hs|[-> Hk1]]; [by apply (wi_wait _ _ HW pid' p0 k pid0 H0 Hk0)|].
    destruct (Hl1 k Hk1) as (rd & r & q & Hr & Hq & Hqk & Hqp).
    destruct (wi_out _ _ HW pid' p0 k H0 Hk0) as (rd' & r' & q' & Hr' & Hq' & Hqk' & Hqp').
    assert (r = r') as <- by (by apply (inv_pkt_inj _ _ _ _ HI rd r q rd' r' q' k)).
    simplify_eq. by apply Hne.
  - intros rd r q pid0 k. rewrite Er, EA, Es. intros Hr Hq Hpid Hk.
    destruct (wi_fly _ _ HW rd r q pid0 k Hr Hq Hpid Hk) as [?|(p0 & H0 & Hk0)]; [left; set_solver|].
    rewrite Ep. case_decide as E; [|by right; exists p0]. subst pid0.
    assert (p0 = p) as -> by congruence. rewrite Hout in Hk0. apply elem_of_app in Hk0 as [Hk0|Hk0].
    + left. apply elem_of_app. right. by apply list_elem_of_In, in_map, list_elem_of_In.
    + right. by exists (set_outstanding p l2).
  - intros pid' p'. rewrite Ep. case_decide; [|apply HW]. intros [= <-]. simpl.
    pose proof (wi_nodup _ _ HW pid p Hp) as HN. rewrite Hout in HN. by apply NoDup_app in HN as (_ & _ & ?).
  - intros pid' k [Hs|[_ Hk1]]%Hsent; rewrite En; [by apply (wi_sent _ _ HW pid')|].
    destruct (Hl1 k Hk1) as (rd & r & q & Hr & Hq & Hqk & _). by apply (flying_pkt_lt μ _ _ m rd r q k HI).
Qed.

(** More packets on the wire is less work. *)
Lemma on_wire_mono m m' q : (∀ x, x ∈ sent m → x ∈ sent m') → on_wire m q = true → on_wire m' q = true.
Proof.
  intros Hs. unfold on_wire. destruct (mr_port q), (mr_pkt q); try done.
  intros H%bool_decide_eq_true. apply bool_decide_eq_true. auto.
Qed.

Lemma sent_work m m' :
  reqs m' = reqs m → (∀ d, acc d m' = acc d m) → (∀ d, queue d m' = queue d m) →
  (∀ x, x ∈ sent m → x ∈ sent m') →
  (work m' ≤ work m)%nat ∧
  ∀ rd r q, r ∈ acc rd m → reqs m !! r = Some q → on_wire m q = false → on_wire m' q = true →
    (work m' < work m)%nat.
Proof.
  intros Er EA EQ Hs.
  assert (∀ d r, weight_q m' d r = weight_q m d r) as Wq by (intros; unfold weight_q; by rewrite Er).
  assert (∀ d r, (weight_a m' d r ≤ weight_a m d r)%nat) as Wa.
  { intros d r. unfold weight_a. rewrite Er. destruct (reqs m !! r) as [q|]; [|done].
    pose proof (on_wire_mono m m' q Hs). destruct (on_wire m q), (on_wire m' q); try lia. }
  unfold work. rewrite (work_of_ext _ _ _ _ m' EQ EA). unfold work_of, work1.
  rewrite (sum_eq (weight_q m true) (weight_q m' true)), (sum_eq (weight_q m false) (weight_q m' false)) by auto.
  pose proof (sum_le _ _ (acc true m) (fun r _ => Wa true r)).
  pose proof (sum_le _ _ (acc false m) (fun r _ => Wa false r)).
  split; [lia|]. intros rd r q Hr Hq Hw0 Hw1.
  assert (weight_a m' rd r < weight_a m rd r)%nat as Hlt by (unfold weight_a; rewrite Er, Hq, Hw0, Hw1; lia).
  pose proof (sum_lt _ _ (acc rd m) r (fun r _ => Wa rd r) Hr Hlt). destruct rd; simpl in *; lia.
Qed.

Lemma recvReqRetry_live μ m pid m' :
  MInv μ m → MWire m → recvReqRetry cfg env m pid = Ok m' →
  MWire m' ∧ reqs m' = reqs m ∧ (∀ d, acc d m' = acc d m) ∧ (∀ d, queue d m' = queue d m) ∧
  (work m' ≤ work m)%nat ∧
  ((∀ h k, sendTimingReq env h pid k = true) → (work m' < work m)%nat).
Proof.
  intros HI HW Hrun. unfold recvReqRetry in Hrun. apply bind_ok in Hrun as (p & Hp & Hrun).
  apply port_at_of in Hp. apply bind_ok in Hrun as (u & Hst & Hrun).
  pose proof (retryLoop_same cfg env pid (outstandingPkts p) m) as (Er & _ & En & Ep & EQ & EA).
  destruct (retryLoop_sent pid (outstandingPkts p) m) as (l1 & El & Es & Hall).
  destruct (retryLoop cfg env m pid (outstandingPkts p)) as [l2 m1]. cbn [fst snd] in *.
  injection Hrun as <-.
  assert (port_of m1 pid = Some p) as Hp1 by (unfold port_of; by rewrite Ep).
  destruct (sent_work m (set_port m1 pid (set_outstanding p l2)) Er EA EQ) as [Hle Hlt].
  { intros x Hx. simpl. rewrite Es. set_solver. }
  split_and!; try done.
  - apply (resent_wire μ m _ pid p l1 l2); try done. intros pid'.
    rewrite (port_of_set m1 pid p) by done. unfold port_of. by rewrite Ep.
  - intros Hacc. rewrite (Hall Hacc), app_nil_r in El. unfold isStalled in Hst.
    destruct (outstandingPkts p) as [|k l] eqn:Ek; [done|].
    destruct (wi_out _ _ HW pid p k Hp) as (rd & r & q & Hr & Hq & Hqk & Hqp); [rewrite Ek; set_solver|].
    apply (Hlt rd r q Hr Hq); unfold on_wire; rewrite Hqk, Hqp.
    + apply bool_decide_eq_false. apply (wi_wait _ _ HW pid p k pid Hp). rewrite Ek. set_solver.
    + apply bool_decide_eq_true. simpl. rewrite Es, <-El. simpl. set_solver.
Qed.
End Retrying.

(** ** Responses *)

Section Responding.
Context (cfg : Params) (env : Env) (μ : nat → Z → Z) (rd : bool) (m : Mem) (r k : nat) (pid : PortId)
  (p : Port) (q q' : MemoryRequest) (again : bool).
Hypothesis HI : MInv μ m.
Hypothesis HW : MWire m.
Hypothesis Hr : r ∈ acc rd m.
Hypothesis Hq : reqs m !! r = Some q.
Hypothesis Hk : mr_pkt q = Some k.
Hypothesis Hp : port_of m pid = Some p.
Hypothesis Hleft : left_ rd q' = left_ rd q.
Hypothesis Hsent : ∃ pid0, (pid0, k) ∈ sent m.

Let m' := responded cfg env rd m r k pid p q' again.

Lemma responded_fields :
  sent m' = sent m ∧ nextPkt m' = nextPkt m ∧
  (∀ d, acc d m' = if Bool.eqb d rd then erase_first (acc rd m) r else acc d m) ∧
  (∀ d, queue d m' = if Bool.eqb d rd && again then r :: queue rd m else queue d m) ∧
  (∀ r0, r0 ≠ r → reqs m' !! r0 = reqs m !! r0) ∧
  reqs m' !! r = (if again then Some q' else None) ∧
  (∀ pid0, outstandingPkts <$> port_of m' pid0 = outstandingPkts <$> port_of m pid0).
Proof.
  unfold m', responded. set (m1 := if again then _ else _).
  destruct (schedule_tick_quiet cfg env m1) as [(Er & _ & En & Ep & EQ & EA) Es].
  cbn [set_pkts sent nextPkt reqs]. rewrite Es, En, Er. split_and!.
  - subst m1. by destruct again, rd.
  - subst m1. by destruct again, rd.
  - intros d. change (acc d (schedule_tick cfg env m1) = if Bool.eqb d rd then erase_first (acc rd m) r else acc d m).
    rewrite EA. subst m1. by destruct again, rd, d.
  - intros d. change (queue d (schedule_tick cfg env m1) = if Bool.eqb d rd && again then r :: queue rd m else queue d m).
    rewrite EQ. subst m1. by destruct again, rd, d.
  - intros r0 Hr0. subst m1. destruct again, rd; simpl; by rewrite ?lookup_delete_ne, ?lookup_insert_ne by done.
  - subst m1. destruct again, rd; simpl; apply lookup_insert_eq || apply lookup_delete_eq.
  - intros pid0. transitivity (outstandingPkts <$> port_of (set_port m pid (set_slot rd p None)) pid0).
    + f_equal. change (ports (schedule_tick cfg env m1) pid0.1 !! pid0.2 =
        ports (set_port m pid (set_slot rd p None)) pid0.1 !! pid0.2). rewrite Ep. subst m1. by destruct again, rd.
    + by apply (same_post_set_slot m pid p rd None Hp).
Qed.

Lemma responded_acc d r0 : r0 ∈ acc d m' ↔ r0 ∈ acc d m ∧ r0 ≠ r.
Proof.
  destruct responded_fields as (_ & _ & EA & _). rewrite EA.
  pose proof (inv_nodup _ _ _ _ HI) as HN. destruct (Bool.eqb_spec d rd) as [->|Hd].
  - pose proof (erase_first_perm _ _ Hr) as Hperm.
    apply (nodup_dir _ _ rd), NoDup_app in HN as (_ & _ & HN). rewrite Hperm in HN.
    apply NoDup_cons in HN as [HN _].
    assert (r0 ∈ acc rd m ↔ r0 = r ∨ r0 ∈ erase_first (acc rd m) r) as ->
      by (by rewrite Hperm at 1; rewrite elem_of_cons).
    split; [intros H0; split; [by right|congruence]|by intros [[] ?]].
  - split; [|by intros []]. intros H0. split; [done|]. intros ->.
    by pose proof (nodup_A _ _ rd d r HN Hr H0).
Qed.

Lemma responded_wire : MWire m'.
Proof.
  destruct responded_fields as (Es & En & _ & _ & Er & _ & Eo).
  assert (∀ pid0 p0, port_of m' pid0 = Some p0 →
    ∃ p1, port_of m pid0 = Some p1 ∧ outstandingPkts p1 = outstandingPkts p0) as Hback.
  { intros pid0 p0 H0. specialize (Eo pid0). rewrite H0 in Eo. symmetry in Eo. by apply fmap_out_some in Eo. }
  split.
  - intros pid0 p0 k0 H0 Hk0. destruct (Hback pid0 p0 H0) as (p1 & H1 & E1). rewrite <-E1 in Hk0.
    destruct (wi_out _ _ HW pid0 p1 k0 H1 Hk0) as (d & r0 & q0 & Hr0 & Hq0 & Hqk & Hqp).
    assert (r0 ≠ r) as Hne.
    { intros ->. destruct Hsent as [pid1 Hs]. assert (k0 = k) as -> by congruence.
      by apply (wi_wait _ _ HW pid0 p1 k pid1 H1 Hk0). }
    exists d, r0, q0. rewrite responded_acc, Er by done. done.
  - intros pid0 p0 k0 pid1 H0 Hk0. destruct (Hback pid0 p0 H0) as (p1 & H1 & E1). rewrite <-E1 in Hk0.
    rewrite Es. by apply (wi_wait _ _ HW pid0 p1).
  - intros d r0 q0 pid0 k0 [Hr0 Hne]%responded_acc. rewrite Er, Es by done. intros Hq0 Hpid0 Hk0.
    destruct (wi_fly _ _ HW d r0 q0 pid0 k0 Hr0 Hq0 Hpid0 Hk0) as [?|(p1 & H1 & ?)]; [by left|right].
    specialize (Eo pid0). rewrite H1 in Eo. apply fmap_out_some in Eo as (p0 & ? & E).
    exists p0. by rewrite E.
  - intros pid0 p0 H0. destruct (Hback pid0 p0 H0) as (p1 & H1 & <-). by apply (wi_nodup _ _ HW pid0).
  - intros pid0 k0. rewrite Es, En. apply HW.
Qed.

Lemma responded_work : (work m' < work m)%nat.
Proof.
  destruct responded_fields as (Es & _ & EA & EQ & Er & Er' & _).
  pose proof (inv_nodup _ _ _ _ HI) as HN.
  assert (∀ d r0, r0 ≠ r → weight_q m' d r0 = weight_q m d r0) as Wq
    by (intros; unfold weight_q; by rewrite Er).
  assert (∀ d r0, r0 ≠ r → weight_a m' d r0 = weight_a m d r0) as Wa
    by (intros; unfold weight_a, on_wire; by rewrite Er, Es).
  assert (∀ d r0, r0 ∈ queue d m → r0 ≠ r) as Hnq by (intros d r0 H0 ->; by apply (nodup_QA _ _ d rd r HN)).
  unfold work. rewrite !(work_of_dir _ _ _ rd). unfold work1.
  rewrite (sum_perm _ (acc rd m) (r :: erase_first (acc rd m) r)) by (by apply erase_first_perm).
  assert (∀ l, l = erase_first (acc rd m) r → ∀ r0, r0 ∈ l → r0 ≠ r) as Hne.
  { intros l -> r0 H0. apply (responded_acc rd r0). by rewrite EA, eqb_reflx. }
  rewrite !EA, !EQ, eqb_reflx. assert (Bool.eqb (negb rd) rd = false) as -> by (by destruct rd). simpl.
  rewrite (sum_eq (weight_q m (negb rd)) (weight_q m' (negb rd))) by (intros; by eapply Wq, Hnq).
  rewrite (sum_eq (weight_a m (negb rd)) (weight_a m' (negb rd)) (acc (negb rd) m)).
  2: { intros r0 H0. apply Wa. intros ->. pose proof (nodup_A _ _ rd (negb rd) r HN Hr H0). by destruct rd. }
  rewrite (sum_eq (weight_a m rd) (weight_a m' rd)) by (intros; by eapply Wa, Hne).
  assert (sum_list_with (weight_q m' rd) (if again then r :: queue rd m else queue rd m) + 1 ≤
    weight_a m rd r + sum_list_with (weight_q m rd) (queue rd m))%nat; [|lia].
  assert (weight_a m rd r ≥ 3 * Z.to_nat (left_ rd q) + 1)%nat as Hge
    by (unfold weight_a; rewrite Hq; destruct (on_wire m q); lia).
  destruct again; simpl; rewrite (sum_eq (weight_q m rd) (weight_q m' rd)) by (intros; by eapply Wq, Hnq); [|lia].
  unfold weight_q at 1. rewrite Er', Hleft. lia.
Qed.
End Responding.

(** ** Runs *)

(** New requests wait in the queues. *)
Lemma enqueue_wire cfg env μ rd m id q :
  MInv μ m → MWire m → reqs m !! id = None → MWire (enqueue cfg env rd m id q).
Proof.
  intros HI HW Hid. set (m1 := set_queue rd (set_req m id q) (queue rd m ++ [id])).
  apply (quiet_mwire m1); [by destruct rd; apply schedule_tick_quiet|].
  assert (∀ d, acc d m1 = acc d m) as EA by (by destruct rd; intros []).
  assert (∀ d r, r ∈ acc d m → reqs m1 !! r = reqs m !! r) as Er.
  { intros d r Hr. assert (is_Some (reqs m !! r)) as [? ?]
      by (apply (live_elem μ m r HI); exists d; unfold live; set_solver).
    subst m1. destruct rd; simpl; rewrite lookup_insert_ne; congruence. }
  destruct HW as [H1 H2 H3 H4 H5]. split.
  - intros pid p k Hp Hk. destruct (H1 pid p k Hp Hk) as (d & r & q0 & Hr & ?).
    exists d, r, q0. by rewrite EA, (Er d).
  - exact H2.
  - intros d r q0 pid k. rewrite EA. intros Hr. rewrite (Er d r Hr). by apply (H3 d r q0 pid k).
  - exact H4.
  - exact H5.
Qed.

Lemma cu_calls_wire cfg env μ cs : 0 < cacheLineSize cfg < 2 ^ 31 → ∀ m d m' d',
  MInv μ m → MWire m → calls_wf μ (dom (reqs m)) cs → cu_calls cfg env (m, d) cs = Ok (m', d') →
  MWire m'.
Proof.
  intros Hcls. induction cs as [|c cs IH]; intros m d m' d' HI HW Hwf Hrun; unfold cu_calls in *; cbn [foldM] in Hrun.
  { by injection Hrun as <- <-. }
  apply bind_ok in Hrun as ([m1 d1] & Hc & Hrun).
  assert (∀ rd id q, id ∉ dom (reqs m) → fresh_req (μ id) rd q → m1 = enqueue cfg env rd m id q →
    calls_wf μ ({[id]} ∪ dom (reqs m)) cs → MWire m') as Henq.
  { intros rd id q Hid Hq -> Hwf'. apply not_elem_of_dom in Hid.
    apply (IH _ d1 m' d' (enqueue_inv cfg env Hcls μ rd m id q HI Hid Hq)); [by apply (enqueue_wire _ _ μ)| |done].
    by rewrite enqueue_reqs, dom_insert_L. }
  destruct c as [|id q|id q|]; simpl in Hwf, Hc.
  - injection Hc as -> ->. by apply (IH m1 d1 m' d').
  - injection Hc as <- ->. destruct Hwf as (? & ? & ?). by apply (Henq true id q).
  - injection Hc as <- ->. destruct Hwf as (? & ? & ?). by apply (Henq false id q).
  - apply bind_ok in Hc as (d2 & _ & [= -> ->]). by apply (IH m1 d1 m' d').
Qed.

(** An event with the surroundings it happens in. *)
Inductive Event :=
  | EvTick (env : Env)
  | EvCall (env : Env) (c : CuCall)
  | EvResp (env : Env) (k : nat) (data : list Z)
  | EvRetry (env : Env) (pid : PortId)
  | EvWrite (env : Env) (paddr : Z) (data : list Z).

Section Serving.
Context (cfg : Params) (μ : nat → Z → Z) {CU : Type} `{ComputeUnit CU}.

(** The events of [CommSpec.step], with the two things the ports' peers and the
    event queue guarantee: only a packet that was accepted is answered, and
    the tick runs when it is scheduled. *)
Inductive serve : Event → Mem * Dev * CU → Mem * Dev * CU → Prop :=
  | serve_tick env m d cu m' d' cu' :
      tickAt m ≠ None →
      (computationNeeded d = false →
       ∀ cu' calls, cu_initialize cu = Ok (cu', calls) → calls_wf μ (dom (reqs m)) calls) →
      tick cfg env m d cu = Ok (m', d', cu') →
      serve (EvTick env) (m, d, cu) (m', d', cu')
  | serve_call env m d cu call m' d' cu' :
      calls_wf μ (dom (reqs m)) [call] → cu_call cfg env (m, d) call = Ok (m', d') →
      serve (EvCall env call) (m, d, cu) (m', d', cu')
  | serve_resp env m d cu k pk data m' cu' :
      pkts m !! k = Some pk → (∃ pid, (pid, k) ∈ sent m) → shows μ m k pk data →
      recvPacket cfg env m cu k data = Ok (m', cu') →
      serve (EvResp env k data) (m, d, cu) (m', d, cu')
  | serve_retry env m d cu pid p m' :
      port_of m pid = Some p → isStalled p = true → recvReqRetry cfg env m pid = Ok m' →
      serve (EvRetry env pid) (m, d, cu) (m', d, cu)
  | serve_write env m d cu paddr data m' d' :
      write cfg env m d paddr data = Ok (m', d') →
      serve (EvWrite env paddr data) (m, d, cu) (m', d', cu).

Lemma serve_step e s s' : serve e s s' → step cfg μ s s'.
Proof.
  destruct 1; [by eapply step_tick|by eapply step_call|by eapply step_resp|by eapply step_retry|by eapply step_write].
Qed.

Definition served (s s' : Mem * Dev * CU) : Prop := ∃ e, serve e s s'.

Hypothesis Hcls : 0 < cacheLineSize cfg < 2 ^ 31.

Lemma write_quiet env m d a data m' d' :
  write cfg env m d a data = Ok (m', d') → quiet m m' ∧ computationNeeded d' = computationNeeded d.
Proof.
  unfold write. intros Hw. apply bind_ok in Hw as (regs & _ & Hw). apply bind_ok in Hw as (b & _ & [= <- <-]).
  split; [apply schedule_at_quiet|by destruct (_ && _)].
Qed.

Lemma tick_wire env m d cu m' d' cu' :
  MInv μ m → MWire m →
  (computationNeeded d = false →
   ∀ cu' calls, cu_initialize cu = Ok (cu', calls) → calls_wf μ (dom (reqs m)) calls) →
  tick cfg env m d cu = Ok (m', d', cu') → MWire m'.
Proof.
  intros HI HW Hwf Hrun. destruct (computationNeeded d) eqn:Hc.
  { by apply (tick_live cfg env Hcls μ m d cu cu' m' d' HI HW Hc) in Hrun as (_ & _ & ? & _). }
  specialize (Hwf eq_refl). unfold tick, checkMMR in Hrun. rewrite Hc in Hrun.
  set (m0 := set_tickAt m None) in *.
  assert (MInv μ m0) as HI0 by (by apply (MInv_same μ m)).
  assert (MWire m0) as HW0 by (apply (quiet_mwire m); [by repeat split|done]).
  apply bind_ok in Hrun as ([[m1 d1] cu1] & H1 & Hrun). apply bind_ok in H1 as (b & _ & H1).
  apply bind_ok in H1 as ([[m2 d2] cu2] & H2 & H1).
  assert (MInv μ m2 ∧ MWire m2) as [HI2 HW2].
  { destruct (Z.testbit b 0); [|by injection H2 as <- <- <-].
    apply bind_ok in H2 as ([cu3 calls] & Hini & H2). apply bind_ok in H2 as ([m3 d3] & Hcs & [= <- <- <-]).
    pose proof (Hwf _ _ Hini) as Hw. split; [|by eapply (cu_calls_wire cfg env μ calls Hcls)].
    by apply (cu_calls_inv cfg env Hcls μ calls _ _ _ _ HI0 Hw) in Hcs as [? _]. }
  assert (quiet m2 m1) as Hq.
  { destruct (tickAt m2); [injection H1 as <- <- <-; apply quiet_refl|].
    destruct (processingDone d2); injection H1 as <- <- <-; [apply schedule_tick_quiet|apply quiet_refl]. }
  apply bind_ok in Hrun as (m3 & H3 & [= <- <- <-]).
  apply (quiet_mwire m2 m1 Hq) in HW2. apply (MInv_same μ m2 m1) in HI2; [|apply Hq].
  destruct (0 <? requestsInQueues m1); [|by injection H3 as <-].
  by apply (processMemoryRequests_live cfg env Hcls μ m1 m3 HI2 HW2) in H3 as [? _].
Qed.

Lemma resp_live env m cu k pk data m' cu' :
  MInv μ m → MWire m → pkts m !! k = Some pk → (∃ pid, (pid, k) ∈ sent m) → shows μ m k pk data →
  recvPacket cfg env m cu k data = Ok (m', cu') →
  MWire m' ∧ (work m' < work m)%nat ∧ keeps m m' ∧
  ∀ rd r q, r ∈ live rd m → reqs m !! r = Some q → r ∈ live rd m' ∨
    (if rd then cu_readCommit cu r (bytes (μ r) (address q) (totalLength q)) else cu_writeCommit cu r)
    = Ok cu'.
Proof.
  intros HI HW Hpk Hs Hd Hrun.
  destruct (recvPacket_state cfg env Hcls μ m k pk data HI Hpk Hd)
    as (rd & r & q & q' & pid & p & Hr & Hq & Hk & Hpid & Hp & _ & _ & Hok' & Hl & Ha & Ht & Hpr & Hrecv).
  rewrite Hrecv in Hrun. clear Hrecv. set (again := 0 <? left_ rd q) in *.
  assert (again = false → left_ rd q ≤ 0) as Hlast by apply Z.ltb_ge. clearbody again.
  assert (m' = responded cfg env rd m r k pid p q' again ∧
    (again = false → commit_call rd cu r q' = Ok cu')) as [-> Hcom].
  { destruct again; [by injection Hrun as <- <-|]. by apply bind_ok in Hrun as (? & ? & [= <- <-]). }
  pose proof (responded_fields cfg env rd m r k pid p q q' again Hr Hp Hl)
    as (_ & _ & EA & EQ & Er & Er' & _).
  split; [by apply (responded_wire cfg env μ rd m r k pid p q q' again)|].
  split; [by apply (responded_work cfg env μ rd m r k pid p q q' again)|]. split.
  - intros r0 q0 q1 H0 H1. destruct (decide (r0 = r)) as [->|Hne].
    + rewrite Er' in H1. destruct again; [|done]. injection H1 as <-. by simplify_eq.
    + rewrite Er in H1 by done. by simplify_eq.
  - intros rd0 r0 q0 Hr0 Hq0.
    assert (∀ r1, r1 ∈ acc rd m → r1 ≠ r → r1 ∈ erase_first (acc rd m) r) as Herase.
    { intros r1 H1 Hne. rewrite (erase_first_perm _ _ Hr) in H1. set_solver. }
    unfold live in *. rewrite EA, EQ. apply elem_of_app in Hr0. destruct (Bool.eqb_spec rd0 rd) as [->|]; [|set_solver].
    destruct (decide (r0 = r)) as [->|Hne].
    2: { left. simpl. destruct again; set_solver. }
    destruct again; [left; set_solver|right]. rewrite <-(Hcom eq_refl). specialize (Hlast eq_refl).
    destruct rd; [|done]. simpl. f_equal. assert (q0 = q) as -> by congruence.
    pose proof (rq_left _ _ Hok') as Hlr.
    destruct Hpr as (Htk & _). replace (totalLength q - left_ true q) with (totalLength q) in Htk by lia.
    rewrite take_ge in Htk by (rewrite Nat2Z.inj_le, (rq_buffer _ _ Hok'); lia). by rewrite Htk, Ha.
Qed.

Lemma serve_wire e s s' : serve e s s' → MInv μ s.1.1 → MWire s.1.1 → MWire s'.1.1.
Proof.
  intros Hst HI HW. destruct Hst as [env m d cu m' d' cu' _ Hwf Hrun|env m d cu c m' d' cu' Hwf Hrun
    |env m d cu k pk data m' cu' Hpk Hs Hdata Hrun|env m d cu pid p m' Hp Hs Hrun|env m d cu a data m' d' Hrun];
    cbn [fst snd] in *.
  - by apply (tick_wire env m d cu m' d' cu').
  - apply (cu_calls_wire cfg env μ [c] Hcls m d m' d' HI HW Hwf). unfold cu_calls. cbn [foldM]. by rewrite Hrun.
  - by apply (resp_live env m cu k pk data m' cu').
  - by apply (recvReqRetry_live cfg env μ m pid m').
  - apply write_quiet in Hrun as [Hq _]. by apply (quiet_mwire m).
Qed.

Lemma served_inv s s' : initial cfg s → rtc served s s' →
  MInv μ s'.1.1 ∧ tick_pending s'.1.1 ∧ MWire s'.1.1.
Proof.
  intros Hi Hrun.
  assert (MWire s.1.1) as HW.
  { destruct Hi as [n ->]. split; [..|by intros pid k ?%not_elem_of_nil].
    - intros pid p k [-> _]%lookup_replicate. by intros ?%not_elem_of_nil.
    - intros pid p k pid' [-> _]%lookup_replicate. by intros ?%not_elem_of_nil.
    - intros [] r q pid k ?%not_elem_of_nil; done.
    - intros pid p [-> _]%lookup_replicate. constructor. }
  apply (comm_initial_inv cfg μ) in Hi as [HI Ht].
  induction Hrun as [s|s s1 s' [e Hs] _ IH]; [done|].
  destruct (comm_step_inv cfg μ Hcls s s1 (serve_step e s s1 Hs) HI Ht). apply IH; [done..|].
  by apply (serve_wire e s).
Qed.

(** *** A run in which the compute unit asks for nothing new *)

(** No packet is in flight. *)
Definition idle (m : Mem) : Prop := ∀ d, acc d m = [].

(** The peers take a queued request: its address is in the range of a port, and
    a stream or a scratchpad there is ready for it. *)
Definition willing (env : Env) (m : Mem) : Prop :=
  ∃ rd r q, r ∈ queue rd m ∧ reqs m !! r = Some q ∧ reachable_addr env m (current rd q) = true ∧
    (∀ h pid, streamValid env h pid (mr_length q) rd = true) ∧
    (∀ h pid, canAccess env h pid (current rd q) (mr_length q) rd = true).

Lemma idle_port m pid p :
  MInv μ m → MWire m → idle m → port_of m pid = Some p →
  isStalled p = false ∧ ∀ rd, slot rd p = None.
Proof.
  intros HI HW Hid Hp. split.
  - unfold isStalled. destruct (outstandingPkts p) as [|k l] eqn:E; [done|].
    destruct (wi_out _ _ HW pid p k Hp) as (rd & r & q & Hr & _); [rewrite E; set_solver|].
    rewrite Hid in Hr. by apply not_elem_of_nil in Hr.
  - intros rd. destruct (slot rd p) as [r|] eqn:E; [|done].
    destruct (inv_slots _ _ _ _ HI pid p rd r Hp E) as [Hr _]. cbn beta in Hr. rewrite Hid in Hr.
    by apply not_elem_of_nil in Hr.
Qed.

Lemma idle_getValidPort env m k add rd ok :
  MInv μ m → MWire m → idle m → inRange env m k add = true → (∀ pid, ok pid = true) →
  is_Some (getValidPort env m k add rd ok).
Proof.
  intros HI HW Hid Hin Hok. apply inRange_spec in Hin as (i & [p Hp] & Hi).
  destruct (idle_port m (k, i) p HI HW Hid Hp) as [Hst Hsl].
  unfold getValidPort. destruct (List.find _ _) as [j|] eqn:E; [by eexists|]. exfalso.
  assert (In i (port_ids m k)) as Hids.
  { apply in_seq. unfold port_of in Hp. simpl in Hp. apply lookup_lt_Some in Hp. lia. }
  pose proof (find_none _ _ E i Hids) as Hn. unfold port_free in Hn. unfold port_of in Hp.
  simpl in *. by rewrite Hp, Hi, Hst, Hsl, Hok in Hn.
Qed.

Lemma willing_has_port env m :
  MInv μ m → MWire m → idle m → willing env m → ∃ rd r, r ∈ queue rd m ∧ has_port env rd m r.
Proof.
  intros HI HW Hid (rd & r & q & Hr & Hq & Hreach & Hsv & Hca). exists rd, r. split; [done|].
  enough (∃ pid, selectPort env m (current rd q) (mr_length q) rd = Ok (Some pid)) as [pid ?]
    by (by exists q, pid).
  unfold selectPort, reachable_addr, inStreamRange, inSPMRange, inLocalRange, inGlobalRange in *.
  assert (∀ k ok, inRange env m k (current rd q) = true → (∀ pid, ok pid = true) →
    ∃ pid, Ok (getValidPort env m k (current rd q) rd ok) = Ok (Some pid)) as Hget.
  { intros k ok Hin Hok. destruct (idle_getValidPort env m k (current rd q) rd ok) as [pid ->]; eauto. }
  destruct (inRange env m PStream _) eqn:E1; [by apply Hget; auto|].
  destruct (inRange env m PSPM _) eqn:E2; [by apply Hget; auto|].
  destruct (inRange env m PLocal _) eqn:E3; [by apply Hget; auto|].
  destruct (inRange env m PGlobal _) eqn:E4; [by apply Hget; auto|done].
Qed.

Lemma live_nil m : (∀ d, live d m = []) → idle m ∧ readQueue m ++ writeQueue m = [].
Proof.
  intros Hl. pose proof (Hl true) as H1. pose proof (Hl false) as H2. unfold live in *.
  apply app_eq_nil in H1 as [H1 H1'], H2 as [H2 H2']. simpl in *. rewrite H1, H2. split; [|done].
  by intros [].
Qed.

Lemma work_zero m : MInv μ m → work m = 0%nat → ∀ d, live d m = [].
Proof.
  intros HI Hw d. destruct (live d m) as [|r l] eqn:E; [done|]. exfalso.
  assert (r ∈ live d m) as Hr by (rewrite E; set_solver). clear E.
  assert (is_Some (reqs m !! r)) as [q Hq] by (apply (live_elem μ m r HI); eauto).
  unfold work in Hw. rewrite (work_of_dir _ _ _ d) in Hw. unfold work1 in Hw.
  apply elem_of_app in Hr as [Hr|Hr].
  - destruct (inv_queued _ _ _ _ HI d r q Hr Hq) as (_ & Hpos & _).
    apply list_elem_of_split in Hr as (l1 & l2 & Hr). rewrite Hr, sum_list_with_app in Hw. simpl in Hw.
    unfold weight_q in Hw at 2. rewrite Hq in Hw. lia.
  - apply list_elem_of_split in Hr as (l1 & l2 & Hr). rewrite Hr, sum_list_with_app in Hw. simpl in Hw.
    unfold weight_a in Hw at 2. rewrite Hq in Hw. destruct (on_wire m q); lia.
Qed.

(** The work never grows, a useful event reduces it, and an event that does not
    leaves the requests where they are. *)
Lemma serve_work e m d cu m' d' cu' :
  serve e (m, d, cu) (m', d', cu') → MInv μ m → MWire m → computationNeeded d = true →
  (∀ env c, e ≠ EvCall env c) →
  computationNeeded d' = true ∧ keeps m m' ∧
  ((∀ d0, acc d0 m' = acc d0 m) ∧ (∀ d0, live d0 m' ≡ₚ live d0 m) ∧ (work m' ≤ work m)%nat ∨ (work m' < work m)%nat) ∧
  (∀ env k data, e = EvResp env k data → (work m' < work m)%nat) ∧
  (∀ env pid, e = EvRetry env pid → (∀ h k, sendTimingReq env h pid k = true) → (work m' < work m)%nat) ∧
  (∀ env, e = EvTick env → idle m → willing env m →
    Z.of_nat (length (readQueue m)) + Z.of_nat (length (writeQueue m)) < 2 ^ 31 → (work m' < work m)%nat) ∧
  ∀ rd r q, r ∈ live rd m → reqs m !! r = Some q → r ∈ live rd m' ∨
    (if rd then cu_readCommit cu r (bytes (μ r) (address q) (totalLength q)) else cu_writeCommit cu r)
    = Ok cu'.
Proof.
  intros Hst HI HW Hc Hno. inversion Hst; subst.
  - destruct (tick_live cfg env Hcls μ m d cu cu' m' d') as (-> & -> & _ & Hk & Hl & Hw); [done..|].
    split_and!; try done.
    + destruct Hw as [[Hq _]|?]; [left|by right]. split_and!; [apply Hq|done|by rewrite (quiet_work m m')].
    + intros env' [= <-] Hid Hwl Hlen. destruct Hw as [[_ Hw]|?]; [|done].
      destruct (willing_has_port env m HI HW Hid Hwl) as (rd & r & Hr & Hp). by destruct (Hw Hlen rd r Hr).
    + intros rd r q Hr _. left. by rewrite Hl.
  - by destruct (Hno env call).
  - destruct (resp_live env m cu k pk data m' cu') as (_ & ? & ? & ?); [done..|].
    split_and!; try done. by right.
  - destruct (recvReqRetry_live cfg env μ m pid m') as (_ & Er & EA & EQ & Hle & Hlt); [done..|].
    split_and!; try done.
    + by apply keeps_same.
    + left. split_and!; [done| |done]. intros d0. unfold live. by rewrite EA, EQ.
    + by intros env' pid' [= <- <-].
    + intros rd r q Hr _. left. unfold live in *. by rewrite EA, EQ.
  - match goal with Hw : write _ _ _ _ _ _ = _ |- _ => apply write_quiet in Hw as [Hq Hcn] end. split_and!; try done.
    + by rewrite Hcn.
    + apply keeps_same, Hq.
    + left. split_and!; [apply Hq| |by rewrite (quiet_work m m')].
      intros d0. by rewrite (live_same m m') by apply Hq.
    + intros rd r q Hr _. left. by rewrite (live_same m m') by apply Hq.
Qed.

(** *** Fair runs

    Time passes without an event ([None]) or with one. *)
Definition run (f : nat → Mem * Dev * CU) (ev : nat → option Event) : Prop :=
  ∀ i, match ev i with Some e => serve e (f i) (f (S i)) | None => f (S i) = f i end.

(** What the surroundings owe the interface: an accepted packet is answered; a
    peer that refused a packet asks for it again and then accepts; a scheduled
    tick happens, and if nothing is in flight then while requests wait, it
    happens at a time when the peers are [willing]: one of the waiting requests
    has its address in the range of a port, and the streams and scratchpads are
    ready for it.  Without the last part a request can wait for ever, at a
    stream that never becomes valid or a cell that is never filled. *)
Record fair (f : nat → Mem * Dev * CU) (ev : nat → option Event) : Prop := {
  fair_resp : ∀ i pid k, (pid, k) ∈ sent (f i).1.1 → is_Some (pkts (f i).1.1 !! k) →
    ∃ j env data, (i ≤ j)%nat ∧ ev j = Some (EvResp env k data);
  fair_retry : ∀ i pid p, port_of (f i).1.1 pid = Some p → isStalled p = true →
    ∃ j env, (i ≤ j)%nat ∧ ev j = Some (EvRetry env pid) ∧ ∀ h k, sendTimingReq env h pid k = true;
  fair_tick : ∀ i, tickAt (f i).1.1 ≠ None →
    ∃ j env, (i ≤ j)%nat ∧ ev j = Some (EvTick env) ∧
      (idle (f j).1.1 → readQueue (f j).1.1 ++ writeQueue (f j).1.1 ≠ [] → willing env (f j).1.1);
}.

Section Fair.
Context (f : nat → Mem * Dev * CU) (ev : nat → option Event).
Hypothesis Hrun : run f ev.
Hypothesis Hfair : fair f ev.
Hypothesis Hcalls : ∀ i env c, ev i ≠ Some (EvCall env c).
Hypothesis HI0 : MInv μ (f 0%nat).1.1.
Hypothesis HT0 : tick_pending (f 0%nat).1.1.
Hypothesis HW0 : MWire (f 0%nat).1.1.
Hypothesis Hc0 : computationNeeded (f 0%nat).1.2 = true.
Hypothesis Hfew : Z.of_nat (length (live true (f 0%nat).1.1)) +
  Z.of_nat (length (live false (f 0%nat).1.1)) < 2 ^ 31.

(** What holds at every time of the run. *)
Lemma run_inv i :
  MInv μ (f i).1.1 ∧ tick_pending (f i).1.1 ∧ MWire (f i).1.1 ∧ computationNeeded (f i).1.2 = true.
Proof.
  induction i as [|i (HI & HT & HW & Hc)]; [done|]. specialize (Hrun i).
  destruct (ev i) as [e|] eqn:E; [|by rewrite Hrun].
  destruct (comm_step_inv cfg μ Hcls _ _ (serve_step _ _ _ Hrun) HI HT).
  pose proof (serve_wire _ _ _ Hrun HI HW). split_and!; [done..|].
  destruct (f i) as [[m d] cu], (f (S i)) as [[m' d'] cu'].
  apply (serve_work e m d cu m' d' cu'); [done..|]. intros env c ->. by apply (Hcalls i env c).
Qed.

Lemma run_work i : (work (f (S i)).1.1 ≤ work (f i).1.1)%nat.
Proof.
  destruct (run_inv i) as (HI & HT & HW & Hc). specialize (Hrun i).
  destruct (ev i) as [e|] eqn:E; [|by rewrite Hrun].
  destruct (f i) as [[m d] cu], (f (S i)) as [[m' d'] cu'].
  destruct (serve_work e m d cu m' d' cu' Hrun HI HW Hc) as (_ & _ & Hw & _).
  { intros env c ->. by apply (Hcalls i env c). }
  simpl. destruct Hw as [(_ & _ & ?)|?]; lia.
Qed.
Lemma run_work_mono i j : (i ≤ j)%nat → (work (f j).1.1 ≤ work (f i).1.1)%nat.
Proof. induction 1 as [|j _ IH]; [done|]. pose proof (run_work j). lia. Qed.

(** Without progress an idle interface stays idle. *)
Lemma run_idle i j :
  (i ≤ j)%nat → work (f j).1.1 = work (f i).1.1 → idle (f i).1.1 → idle (f j).1.1.
Proof.
  intros Hij Hw Hid. induction Hij as [|j Hij IH]; [done|].
  pose proof (run_work j). pose proof (run_work_mono i j Hij).
  specialize (IH ltac:(lia)). destruct (run_inv j) as (HI & HT & HW & Hc). specialize (Hrun j).
  destruct (ev j) as [e|] eqn:E; [|by rewrite Hrun].
  destruct (f j) as [[m d] cu], (f (S j)) as [[m' d'] cu'].
  destruct (serve_work e m d cu m' d' cu' Hrun HI HW Hc) as (_ & _ & Hw' & _).
  { intros env c ->. by apply (Hcalls j env c). }
  simpl in *. destruct Hw' as [(EA & _)|?]; [|lia]. intros d0. by rewrite EA.
Qed.

Lemma run_live_le i d : (length (live d (f i).1.1) ≤ length (live d (f 0%nat).1.1))%nat.
Proof.
  revert d. induction i as [|i IH]; intros d; [done|]. etransitivity; [|apply IH].
  destruct (run_inv i) as (HI & HT & HW & Hc). specialize (Hrun i).
  destruct (ev i) as [e|] eqn:E; [|by rewrite Hrun].
  destruct (f i) as [[m d1] cu], (f (S i)) as [[m' d'] cu']. simpl in *.
  inversion Hrun; subst.
  - destruct (tick_live cfg env Hcls μ m d1 cu cu' m' d') as (_ & _ & _ & _ & Hl & _); [done..|]. by rewrite Hl.
  - by destruct (Hcalls i env call).
  - destruct (recvPacket_spec cfg env Hcls μ m k pk data) as
      (rd & r & q & q' & m1 & _ & _ & _ & _ & _ & _ & _ & _ & _ & _ & _ & _ & _ & Hl & Heq); [done..|].
    rewrite (Hl d), length_app. assert (m' = m1) as ->; [|lia].
    match goal with Hr : recvPacket _ _ _ _ _ _ = _ |- _ => rewrite Heq in Hr;
      destruct (0 <? left_ rd q); [congruence|apply bind_ok in Hr as (? & _ & ?); congruence] end.
  - destruct (recvReqRetry_live cfg env μ m pid m') as (_ & _ & EA & EQ & _); [done..|]. unfold live. by rewrite EA, EQ.
  - match goal with Hw : write _ _ _ _ _ _ = _ |- _ => apply write_quiet in Hw as [Hq _] end.
    by rewrite (live_same m m') by apply Hq.
Qed.

(** An event of the run, with what is known of it. *)
Lemma run_event j e (P : Prop) :
  ev j = Some e →
  (∀ m d cu m' d' cu', f j = (m, d, cu) → f (S j) = (m', d', cu') → serve e (m, d, cu) (m', d', cu') →
     MInv μ m → MWire m → computationNeeded d = true → (∀ env c, e ≠ EvCall env c) → P) → P.
Proof.
  intros He HP. destruct (run_inv j) as (HI & _ & HW & Hc). specialize (Hrun j). rewrite He in Hrun.
  destruct (f j) as [[m d] cu], (f (S j)) as [[m' d'] cu'].
  apply (HP m d cu m' d' cu'); try done. intros env c ->. by apply (Hcalls j env c).
Qed.

(** The three ways on: an answer, an accepted retry and a tick when nothing is
    in flight. *)
Lemma run_answered j env k data :
  ev j = Some (EvResp env k data) → (work (f (S j)).1.1 < work (f j).1.1)%nat.
Proof.
  intros He. apply (run_event j _ _ He). intros m d cu m' d' cu' -> -> Hs HI HW Hc Hno.
  destruct (serve_work _ m d cu m' d' cu' Hs HI HW Hc Hno) as (_ & _ & _ & Ht & _). by eapply Ht.
Qed.
Lemma run_retried j env pid :
  ev j = Some (EvRetry env pid) → (∀ h k, sendTimingReq env h pid k = true) →
  (work (f (S j)).1.1 < work (f j).1.1)%nat.
Proof.
  intros He Ha. apply (run_event j _ _ He). intros m d cu m' d' cu' -> -> Hs HI HW Hc Hno.
  destruct (serve_work _ m d cu m' d' cu' Hs HI HW Hc Hno) as (_ & _ & _ & _ & Ht & _). by eapply Ht.
Qed.
Lemma run_ticked j env :
  ev j = Some (EvTick env) → idle (f j).1.1 → willing env (f j).1.1 →
  (work (f (S j)).1.1 < work (f j).1.1)%nat.
Proof.
  intros He Hid Hwl. pose proof (run_live_le j true) as Hl1. pose proof (run_live_le j false) as Hl2.
  unfold live in Hl1, Hl2, Hfew. rewrite !length_app in *. simpl in *.
  apply (run_event j _ _ He). intros m d cu m' d' cu' E1 E2 Hs HI HW Hc Hno. rewrite E1, E2 in *. simpl in *.
  destruct (serve_work _ m d cu m' d' cu' Hs HI HW Hc Hno) as (_ & _ & _ & _ & _ & Ht & _).
  apply (Ht env); try done. lia.
Qed.

Lemma idle_queued m : idle m → (0 < work m)%nat → readQueue m ++ writeQueue m ≠ [].
Proof.
  intros Hm Hw [Hn1 Hn2]%app_eq_nil. unfold work, work_of, work1 in Hw.
  rewrite !Hm in Hw. simpl in Hw. rewrite Hn1, Hn2 in Hw. simpl in Hw. lia.
Qed.

Lemma run_progress_idle i :
  idle (f i).1.1 → (0 < work (f i).1.1)%nat →
  ∃ j, (i ≤ j)%nat ∧ (work (f j).1.1 < work (f i).1.1)%nat.
Proof.
  intros Hid Hpos. destruct (run_inv i) as (HI & HT & HW & _).
  destruct (fair_tick _ _ Hfair i) as (j & env & Hij & He & Hwl).
  { apply HT; [|by apply idle_queued]. pose proof (run_live_le i true). pose proof (run_live_le i false).
    unfold live in * |-. rewrite !length_app in *. simpl in *. lia. }
  pose proof (run_work_mono i j Hij) as Hm.
  destruct (decide (work (f j).1.1 < work (f i).1.1)%nat) as [?|Heq]; [by exists j|].
  assert (idle (f j).1.1) as Hidj by (apply (run_idle i j); [done|lia|done]).
  exists (S j). split; [lia|]. pose proof (run_ticked j env He Hidj) as Hlt.
  enough (work (f (S j)).1.1 < work (f j).1.1)%nat by lia.
  apply Hlt, Hwl; [done|]. apply idle_queued; [done|lia].
Qed.

Lemma run_progress_flying i rd r :
  r ∈ acc rd (f i).1.1 → ∃ j, (i ≤ j)%nat ∧ (work (f j).1.1 < work (f i).1.1)%nat.
Proof.
  intros Hr. destruct (run_inv i) as (HI & _ & HW & _).
  destruct (proj1 (inv_dom _ _ _ _ HI r)) as [q Hq]; [apply everything_elem; eauto|].
  destruct (inv_flying _ _ _ _ HI rd r q Hr Hq) as (_ & pk & Hf & _).
  destruct (fl_pkt _ _ _ _ _ Hf) as (k & Hk & Hpk).
  destruct (fl_port _ _ _ _ _ Hf) as (pid & p0 & Hpid & _ & _).
  destruct (wi_fly _ _ HW rd r q pid k Hr Hq Hpid Hk) as [Hs|(p & Hp & Hout)].
  - destruct (fair_resp _ _ Hfair i pid k Hs) as (j & env & data & Hij & He); [by eexists|].
    exists (S j). split; [lia|]. eapply Nat.lt_le_trans; [by apply (run_answered j env k data)|by apply run_work_mono].
  - destruct (fair_retry _ _ Hfair i pid p Hp) as (j & env & Hij & He & Hacc).
    { unfold isStalled. by destruct (outstandingPkts p); [apply not_elem_of_nil in Hout|]. }
    exists (S j). split; [lia|]. eapply Nat.lt_le_trans; [by apply (run_retried j env pid)|by apply run_work_mono].
Qed.

(** While a request is left, the work shrinks in time. *)
Lemma run_progress i :
  (0 < work (f i).1.1)%nat → ∃ j, (i ≤ j)%nat ∧ (work (f j).1.1 < work (f i).1.1)%nat.
Proof.
  intros Hpos. destruct (acc true (f i).1.1) as [|r l] eqn:E1.
  - destruct (acc false (f i).1.1) as [|r l] eqn:E2.
    + apply run_progress_idle; [by intros []|done].
    + apply (run_progress_flying i false r). rewrite E2. set_solver.
  - apply (run_progress_flying i true r). rewrite E1. set_solver.
Qed.

Lemma run_drains : ∃ n, ∀ j, (n ≤ j)%nat → ∀ d, live d (f j).1.1 = [].
Proof.
  enough (∃ n, work (f n).1.1 = 0%nat) as [n Hn].
  { exists n. intros j Hj. apply work_zero; [apply run_inv|]. pose proof (run_work_mono n j Hj). lia. }
  assert (∀ w i, (work (f i).1.1 ≤ w)%nat → ∃ n, work (f n).1.1 = 0%nat) as Hall; [|by apply (Hall (work (f 0%nat).1.1) 0%nat)].
  induction w as [|w IH]; intros i Hw; [exists i; lia|].
  destruct (decide (work (f i).1.1 = 0%nat)) as [?|?]; [by exists i|].
  destruct (run_progress i) as (j & _ & ?); [lia|]. apply (IH j). lia.
Qed.

(** A request that is live at one time and gone later was committed between. *)
Lemma run_commits n i rd r q :
  r ∈ live rd (f i).1.1 → reqs (f i).1.1 !! r = Some q → r ∉ live rd (f (i + n)%nat).1.1 →
  ∃ j, (if rd then cu_readCommit (f j).2 r (bytes (μ r) (address q) (totalLength q))
        else cu_writeCommit (f j).2 r) = Ok (f (S j)).2.
Proof.
  revert i q. induction n as [|n IH]; intros i q Hr Hq Hn; [by rewrite Nat.add_0_r in Hn|].
  replace (i + S n)%nat with (S i + n)%nat in Hn by lia.
  destruct (run_inv i) as (HI & HT & HW & Hc). pose proof (run_inv (S i)) as (HI' & _). pose proof (Hrun i) as Hs.
  destruct (ev i) as [e|] eqn:E.
  2: { apply (IH (S i)); [by rewrite Hs|by rewrite Hs|done]. }
  destruct (f i) as [[m d] cu] eqn:E1. destruct (f (S i)) as [[m' d'] cu'] eqn:E2. simpl in *.
  destruct (serve_work e m d cu m' d' cu' Hs HI HW Hc) as (_ & Hk & _ & _ & _ & _ & Hcom).
  { intros env c ->. by apply (Hcalls i env c). }
  destruct (Hcom rd r q Hr Hq) as [Hr'|Hcm].
  - destruct (proj2 (live_elem μ m' r HI')) as [q' Hq']; [by exists rd|].
    destruct (Hk r q q' Hq Hq') as [<- <-]. apply (IH (S i)); rewrite ?E2; done.
  - exists i. by rewrite E1, E2.
Qed.
End Fair.
End Serving.

(** ** Claims *)

(** C7: every request is served.  From any reachable state of a computation
    with fewer than 2^31 requests open, once the compute unit issues no new
    request, take any run that is [fair]: accepted packets are answered, refused
    ones are asked for again and taken, scheduled ticks happen, and when nothing
    is in flight and requests wait, a tick comes at which one of them is
    [willing]ly taken, that is, its address is in the range of a port and the
    stream or scratchpad behind it is ready.  Then, whatever the order and the
    waiting in between, a time comes after which no request is left, and every
    request that was live has been committed, a load with the bytes of all its
    packets in place. *)
Theorem requests_complete cfg μ {CU} `{ComputeUnit CU} (s : Mem * Dev * CU) f ev
    (Hcls : 0 < cacheLineSize cfg < 2 ^ 31)
    (Hinit : initial cfg s) (Hreach : rtc (served cfg μ) s (f 0%nat))
    (Hbusy : computationNeeded (f 0%nat).1.2 = true)
    (Hfew : Z.of_nat (length (live true (f 0%nat).1.1)) +
            Z.of_nat (length (live false (f 0%nat).1.1)) < 2 ^ 31)
    (Hrun : run cfg μ f ev) (Hcalls : ∀ i env c, ev i ≠ Some (EvCall env c))
    (Hfair : fair f ev) :
  (∃ n, ∀ j, (n ≤ j)%nat → reqs (f j).1.1 = ∅ ∧ ∀ d, queue d (f j).1.1 = [] ∧ acc d (f j).1.1 = []) ∧
  ∀ rd r q, r ∈ queue rd (f 0%nat).1.1 ∨ r ∈ acc rd (f 0%nat).1.1 → reqs (f 0%nat).1.1 !! r = Some q →
    ∃ i, (if rd then cu_readCommit (f i).2 r (bytes (μ r) (address q) (totalLength q))
          else cu_writeCommit (f i).2 r) = Ok (f (S i)).2.
Proof.
  destruct (served_inv cfg μ Hcls s _ Hinit Hreach) as (HI & HT & HW).
  destruct (run_drains cfg μ Hcls f ev Hrun Hfair Hcalls HI HT HW Hbusy Hfew) as [n Hn].
  split.
  - exists n. intros j Hj. specialize (Hn j Hj). split.
    + apply map_empty. intros r. apply eq_None_not_Some. intros Hr.
      destruct (run_inv cfg μ Hcls f ev Hrun Hcalls HI HT HW Hbusy j) as (HIj & _).
      apply (live_elem μ _ r HIj) in Hr as [d Hr]. rewrite Hn in Hr. by apply not_elem_of_nil in Hr.
    + intros d. by apply app_eq_nil, Hn.
  - intros rd r q Hr Hq.
    apply (run_commits cfg μ Hcls f ev Hrun Hcalls HI HT HW Hbusy n 0); [by apply elem_of_app|done|].
    simpl. rewrite Hn by done. apply not_elem_of_nil.
Qed.

(** ** A run

    The computation of the example of [CommSpec] after its first tick: the
    load's first packet and the store's are on the wire.  The peer refuses the
    load's second packet at first. *)
Section LiveExample.
#[local] Existing Instance note_unit.

Definition ex_busy : Env :=
  mkEnv 1000 1010 (fun _ => [plain 0 0x100000000]) (fun _ _ _ => false) (fun _ _ _ _ => true)
    (fun _ _ _ _ _ => true).
Definition ex_events : list Event :=
  [EvResp ex_env 0 (bytes (ex_mem 0) 0x1010 48); EvTick ex_busy; EvResp ex_env 1 [];
   EvRetry ex_env (PLocal, 0%nat); EvResp ex_env 2 (bytes (ex_mem 0) 0x1040 52); EvTick ex_env;
   EvResp ex_env 3 []; EvTick ex_env].
Definition ex_do (e : Event) (s : ex_state) : ex_state :=
  let '(m, d, cu) := s in
  get (match e with
       | EvTick env => tick ex_cfg env m d cu
       | EvResp env k data => let* (m, cu) := recvPacket ex_cfg env m cu k data in Ok (m, d, cu)
       | EvRetry env pid => let* m := recvReqRetry ex_cfg env m pid in Ok (m, d, cu)
       | _ => Ok s
       end).
Definition ex_states : list ex_state := Eval vm_compute in
  foldl (fun l e => l ++ [ex_do e (List.last l ex_0)]) [ex_2] ex_events.
Definition ex_at (i : nat) : ex_state := List.nth i ex_states (List.last ex_states ex_0).
Definition ex_ev (i : nat) : option Event := ex_events !! i.

Lemma ex_at_end i : (8 ≤ i)%nat → ex_at i = ex_at 8 ∧ ex_ev i = None.
Proof. intros Hi. do 9 (destruct i as [|i]; [lia || done|]). split; [|done]. by destruct i. Qed.

(** A time before the end of the run, or the end. *)
Lemma ex_times (P : nat → Prop) :
  P 0%nat → P 1%nat → P 2%nat → P 3%nat → P 4%nat → P 5%nat → P 6%nat → P 7%nat →
  (∀ i, (8 ≤ i)%nat → P i) → ∀ i, P i.
Proof. intros H0 H1 H2 H3 H4 H5 H6 H7 H8 i. do 8 (destruct i as [|i]; [done|]). apply H8. lia. Qed.

Lemma ex_serve_tick env s s' :
  tickAt s.1.1 ≠ None → (computationNeeded s.1.2 = false → dom (reqs s.1.1) = ∅) →
  tick ex_cfg env s.1.1 s.1.2 s.2 = Ok s' → serve ex_cfg ex_mem (EvTick env) s s'.
Proof.
  destruct s as [[m d] cu], s' as [[m' d'] cu']. cbn [fst snd]. intros Ht Hd Hs.
  apply serve_tick; [done| |done]. intros Hc cu0 calls Hini. rewrite (Hd Hc). by apply (ex_calls_wf cu cu0).
Qed.
Lemma ex_serve_resp env k data pk s s' :
  pkts s.1.1 !! k = Some pk → (PLocal, 0%nat, k) ∈ sent s.1.1 →
  (pk_kind pk = PRead → data = bytes (ex_mem 0) (pk_paddr pk) (pk_size pk)) →
  (let* (m, cu) := recvPacket ex_cfg env s.1.1 s.2 k data in Ok (m, s.1.2, cu)) = Ok s' →
  serve ex_cfg ex_mem (EvResp env k data) s s'.
Proof.
  destruct s as [[m d] cu]. cbn [fst snd]. intros Hpk Hs Hd Hr. apply bind_ok in Hr as ([m' cu'] & Hr & [= <-]).
  apply (serve_resp _ _ env m d cu k pk data); [done|by eexists| |done]. by intros Hk r q _ _ _; apply Hd.
Qed.

Lemma ex_live_run : run ex_cfg ex_mem ex_at ex_ev.
Proof.
  intros i. pattern i. revert i. apply ex_times.
  1, 3, 5, 7: eapply ex_serve_resp; [vm_compute; reflexivity| | |vm_compute; reflexivity];
    [apply (bool_decide_unpack _); vm_compute; exact I|by intros Hk; vm_compute].
  1, 3, 4: apply ex_serve_tick; [vm_compute; discriminate|intros Hc; vm_compute in Hc; discriminate|vm_compute; reflexivity].
  - change (serve ex_cfg ex_mem (EvRetry ex_env (PLocal, 0%nat)) ((ex_at 3).1, (ex_at 3).2) ((ex_at 4).1, (ex_at 4).2)).
    eapply serve_retry; vm_compute; reflexivity.
  - intros i Hi. destruct (ex_at_end i Hi) as [E1 ->]. destruct (ex_at_end (S i)) as [E2 _]; [lia|congruence].
Qed.

(** When each packet is answered. *)
Definition ex_answer (k : nat) : nat := (2 * k)%nat.

Lemma ex_sent_known i pid k : (pid, k) ∈ sent (ex_at i).1.1 → (k < 4)%nat.
Proof.
  pattern i. revert i. apply ex_times.
  9: intros i Hi; rewrite (proj1 (ex_at_end i Hi)).
  all: intros Hs; vm_compute in Hs; repeat (apply elem_of_cons in Hs as [[= -> ->]|Hs]; [lia|]);
    by apply not_elem_of_nil in Hs.
Qed.

Lemma ex_fair_resp i pid k :
  (pid, k) ∈ sent (ex_at i).1.1 → is_Some (pkts (ex_at i).1.1 !! k) → (i ≤ ex_answer k)%nat.
Proof.
  intros Hk%ex_sent_known. destruct k as [|[|[|[|k]]]]; [..|lia].
  all: pattern i; revert i; apply ex_times; [..|intros i Hi; rewrite (proj1 (ex_at_end i Hi))];
    intros [pk Hpk]; vm_compute in Hpk; discriminate || (vm_compute; lia).
Qed.

Lemma ex_no_stall i pid p : port_of (ex_at i).1.1 pid = Some p → isStalled p = true →
  pid = (PLocal, 0%nat) ∧ (i ≤ 3)%nat.
Proof.
  destruct pid as [[] n]; unfold port_of; cbn [fst snd].
  all: pattern i; revert i; apply ex_times; [..|intros i Hi; rewrite (proj1 (ex_at_end i Hi))]; intros Hp Hs.
  all: destruct n as [|[|n]]; vm_compute in Hp; try discriminate; injection Hp as <-; vm_compute in Hs;
    discriminate || (split; [done|lia]).
Qed.

Lemma ex_fair : fair ex_at ex_ev.
Proof.
  split.
  - intros i pid k Hs Hp. pose proof (ex_fair_resp i pid k Hs Hp). apply ex_sent_known in Hs.
    exists (ex_answer k). destruct k as [|[|[|[|k]]]]; [by eexists _, _..|lia].
  - intros i pid p Hp Hs. destruct (ex_no_stall i pid p Hp Hs) as [-> Hi]. by exists 3%nat, ex_env.
  - intros i Ht. destruct (decide (i ≤ 5)%nat) as [Hi|Hi].
    + exists 5%nat, ex_env. split_and!; [done..|]. intros _ _. exists false, 1%nat. eexists.
      split_and!; [apply (bool_decide_unpack _); vm_compute; exact I|vm_compute; reflexivity|done..].
    + destruct (decide (i ≤ 7)%nat) as [Hi'|Hi'].
      * exists 7%nat, ex_env. split_and!; [done..|]. intros _ []. done.
      * rewrite (proj1 (ex_at_end i ltac:(lia))) in Ht. by destruct Ht.
Qed.

Lemma ex_served : rtc (served ex_cfg ex_mem) ex_0 (ex_at 0).
Proof.
  apply (rtc_l _ _ ex_1).
  { exists (EvWrite ex_env 0x10020000 [1]). apply (serve_write _ _ ex_env ex_0.1.1 ex_0.1.2 ex_0.2). vm_compute. reflexivity. }
  apply rtc_once. exists (EvTick ex_env).
  apply ex_serve_tick; [vm_compute; discriminate|intros _; vm_compute; reflexivity|vm_compute; reflexivity].
Qed.

Lemma requests_complete_witness :
  (∃ n, ∀ j, (n ≤ j)%nat → reqs (ex_at j).1.1 = ∅ ∧ ∀ d, queue d (ex_at j).1.1 = [] ∧ acc d (ex_at j).1.1 = []) ∧
  ∀ rd r q, r ∈ queue rd (ex_at 0).1.1 ∨ r ∈ acc rd (ex_at 0).1.1 → reqs (ex_at 0).1.1 !! r = Some q →
    ∃ i, (if rd then cu_readCommit (ex_at i).2 r (bytes (ex_mem r) (address q) (totalLength q))
          else cu_writeCommit (ex_at i).2 r) = Ok (ex_at (S i)).2.
Proof.
  apply (requests_complete ex_cfg ex_mem ex_0 ex_at ex_ev).
  - exact ex_cls.
  - exact comm_ex_initial.
  - exact ex_served.
  - reflexivity.
  - vm_compute. reflexivity.
  - exact ex_live_run.
  - intros i env c. pattern i. revert i. apply ex_times; try (vm_compute; discriminate).
    intros i Hi. rewrite (proj2 (ex_at_end i Hi)). discriminate.
  - exact ex_fair.
Defined.
End LiveExample.
