(* ===== verification/EngineRequests.v ===== *)
(** The memory requests of the engine: every instruction of the read and write
    queues waits for its own request, every request it ever made is waited for
    or has been committed, and the run is reported as finished only when all of
    them have been.  Every operation of [Scheduler] keeps this. *)
From stdpp Require Import gmap strings.
From S2P Require Import Prelude Registers MemRequest Instructions Compute FunctionalUnits Scheduler SchedulerInv.

#[local] Open Scope Z_scope.

(** ** Loads and stores *)

(** Whether an object is a load or a store, by its class and by its opcode. *)
Definition mem_kind (c : InstrClass) : option bool :=
  match c with Load _ => Some true | Store _ => Some false | _ => None end.
Definition op_kind (s : InstrStatic) : option bool :=
  if String.eqb (_OpCode s) "load" then Some true
  else if String.eqb (_OpCode s) "store" then Some false else None.

Record mem_typed (x : Instruction) : Prop := {
  mt_kind : mem_kind (cls x) = op_kind (st x);
  mt_term : _Terminator (st x) = true → op_kind (st x) = None;
}.

(** What all operations but a memory access leave alone. *)
Definition steady (x x' : Instruction) : Prop :=
  st x' = st x ∧ mem_kind (cls x') = mem_kind (cls x) ∧ _Req x' = _Req x.
#[export] Instance steady_preorder : PreOrder steady.
Proof. split; [by intros ?|]. unfold steady. intros ??? (?&?&?) (?&?&?). by split_and!; etrans. Qed.

Lemma steady_typed x x' : steady x x' → mem_typed x → mem_typed x'.
Proof. intros (E1 & E2 & _) [K T]. split; rewrite E1; [by rewrite E2|done]. Qed.

Lemma setResult_steady rl i j v i' : setResult rl j v = Ok i' → steady i j → steady i i'.
Proof.
  unfold setResult. intros H S. etrans; [exact S|]. destruct (_ReturnRegister (st j)); [|done]. mon.
  destruct (_ <? _); mon. done.
Qed.

(** The requests [compute] makes. *)
Definition made (old : MemoryRequest) (rd : bool) (q : MemoryRequest) : Prop :=
  if rd then ∃ a n, 0 ≤ a ∧ q = MemoryRequest_read old a n
  else ∃ a data n, 0 ≤ a ∧ MemoryRequest_write old a data n = Ok q.
Definition enqueue_of (rd : bool) (q : MemoryRequest) : CommCall :=
  if rd then EnqueueRead q else EnqueueWrite q.

Lemma compute_kind nr old rl i rl' i' call :
  compute nr old rl i = Ok (rl', i', call) →
  match mem_kind (cls i) with
  | None => steady i i' ∧ call = NoCall
  | Some rd => st i' = st i ∧ mem_kind (cls i') = Some rd ∧ _Req i' = Some nr ∧
      ∃ q, call = enqueue_of rd q ∧ made old rd q
  end.
Proof.
  unfold compute. intros H.
  destruct (cls i) eqn:E; cbn [mem_kind];
    try (injection H as <- <- <-; by split);
    try (unfold pure_compute in H; apply bind_ok in H; destruct H as (j & H & [= <- <- <-]);
      split; [|done];
      unfold Add_compute, Sub_compute, Mul_compute, UDiv_compute, SDiv_compute, URem_compute,
        SRem_compute, Shl_compute, LShr_compute, AShr_compute, And_compute, Or_compute, Xor_compute,
        binary_compute, bitwise_compute, FAdd_compute, FSub_compute, FMul_compute, FDiv_compute,
        float_compute, setResultF, Trunc_compute, ZExt_compute, SExt_compute, FPToUI_compute,
        FPToSI_compute, int_conv, UIToFP_compute, SIToFP_compute, FPTrunc_compute, FPExt_compute,
        fp_conv, ICmp_compute, FCmp_compute, Br_compute, LLVMSwitch_compute, Phi_compute,
        Select_compute, GetElementPtr_compute in H;
      run H; first [ (eapply setResult_steady; [eassumption|]); split_and!; cbn; by rewrite ?E
                   | split_and!; cbn; by rewrite ?E ]).
  - unfold Load_compute in H. run H. simplify_eq. split_and!; cbn; rewrite ?E; try done.
    eexists. split; [done|]. eexists _, _. split; [|done]. by apply wrapU_range.
  - unfold Store_compute in H. mon. simplify_eq. split_and!; cbn; rewrite ?E; try done.
    eexists. split; [done|]. eexists _, _, _. split; [|done]. by apply wrapU_range.
Qed.

(** ** Operations that leave the requests alone *)

Definition equeue (rd : bool) (c : Core) : list nat := if rd then readQueue c else writeQueue c.

(** The memory queues stay, the objects keep their requests, objects may be
    added. *)
Definition quiet (c c' : Core) : Prop :=
  (∀ rd, equeue rd c' = equeue rd c) ∧
  ∃ new, Forall mem_typed new ∧ Forall2 steady (heap c ++ new) (heap c').

#[export] Instance quiet_preorder : PreOrder quiet.
Proof.
  split.
  - intros c. split; [done|]. exists []. rewrite app_nil_r. split; [constructor|]. by apply Forall_Forall2_diag, Forall_true.
  - intros c1 c2 c3 [Q1 (n1 & T1 & H1)] [Q2 (n2 & T2 & H2)]. split; [intros rd; by rewrite Q2|].
    exists (n1 ++ n2). split; [by apply Forall_app|]. rewrite (assoc_L (++)).
    transitivity (heap c2 ++ n2); [|done]. apply Forall2_app; [done|]. by apply Forall_Forall2_diag, Forall_true.
Qed.

Lemma quiet_same_heap c c' : (∀ rd, equeue rd c' = equeue rd c) → heap c' = heap c → quiet c c'.
Proof.
  intros Q E. split; [done|]. exists []. rewrite app_nil_r, E. split; [constructor|].
  by apply Forall_Forall2_diag, Forall_true.
Qed.

Lemma quiet_set_node c p x x' : node c p = Ok x → steady x x' → quiet c (set_node c p x').
Proof.
  intros Hx Hs. apply node_ok in Hx. split; [by intros []|]. exists []. rewrite app_nil_r. split; [constructor|].
  cbn. rewrite <-(list_insert_id (heap c) p x) at 1 by done.
  apply Forall2_insert; [|done]. by apply Forall_Forall2_diag, Forall_true.
Qed.

Lemma quiet_set_regs c rl : quiet c (set_regs c rl).
Proof. by apply quiet_same_heap; [intros []|]. Qed.

Create HintDb quiet_db.
#[export] Hint Resolve quiet_set_node quiet_set_regs : quiet_db.
#[export] Hint Extern 1 (steady _ _) => (by unfold steady) : quiet_db.

Lemma decrParents_steady x x' : decrParents x = Ok x' → steady x x'.
Proof. unfold decrParents. intros H. by mon. Qed.

Lemma signalChild_quiet reg c ch c' : signalChild reg c ch = Ok c' → quiet c c'.
Proof.
  unfold signalChild. intros H. apply bind_ok in H as (x & Hx & H). destruct reg as [r|].
  - apply bind_ok in H as ([rl x'] & Hf & [= <-]). etrans; [apply (quiet_set_regs c rl)|].
    apply (quiet_set_node _ _ x); [done|]. unfold fetchDependency in Hf. apply bind_ok in Hf as (_ & _ & Hf). apply bind_ok in Hf as (y & _ & Hf).
    apply bind_ok in Hf as (i' & Hd & [= _ <-]). by apply decrParents_steady in Hd.
  - apply bind_ok in H as (x' & Hf & [= <-]). apply decrParents_steady in Hf. eauto with quiet_db.
Qed.

Lemma signal_fold_quiet reg l : ∀ c c', foldM (signalChild reg) l c = Ok c' → quiet c c'.
Proof.
  induction l as [|ch l IH]; intros c c' H; cbn in H; [by mon|].
  apply bind_ok in H as (c1 & H1 & H). etrans; [by eapply signalChild_quiet|by eapply IH].
Qed.

Lemma commit_quiet c p c' b : commit c p = Ok (c', b) → quiet c c'.
Proof.
  unfold commit, signalChildren. intros H. apply bind_ok in H as (i & Hi & H).
  destruct (_ReturnRegister (st i)); [destruct (_ <=? _)|]; mon; simplify_eq.
  - etrans; [apply quiet_set_regs|by eapply signal_fold_quiet].
  - eauto with quiet_db.
  - by eapply signal_fold_quiet.
Qed.

Lemma removeLinks_quiet c p c' : removeLinks c p = Ok c' → quiet c c'.
Proof. unfold removeLinks. intros H. mon. eauto with quiet_db. Qed.

Lemma link_quiet c id p c' : link c id p = Ok c' → quiet c c'.
Proof.
  unfold link, registerParent. intros H. apply bind_ok in H as (x & Hx & H). apply bind_ok in H as (x' & Hp & H).
  apply bind_ok in H as (y & Hy & [= <-]). mon.
  etrans; [|by apply (quiet_set_node _ p y _ Hy)]. by apply (quiet_set_node _ id x).
Qed.

Lemma link_opt_quiet c id p c' : link_opt c id p = Ok c' → quiet c c'.
Proof. destruct p; cbn; [apply link_quiet|by intros [= <-]]. Qed.

Lemma gepBase_quiet c id c' : gepBase c id = Ok c' → quiet c c'.
Proof.
  unfold gepBase. intros H. apply bind_ok in H as (i & Hi & H). destruct (cls i) eqn:E; try done.
  apply bind_ok in H as (p & _ & H). destruct p as [p|]; [by eapply link_quiet|].
  apply bind_ok in H as (r & _ & [= <-]). eapply quiet_set_node; [done|]. split_and!; cbn; by rewrite ?E.
Qed.

Lemma depLoop_quiet id deps : ∀ c j c', depLoop c id deps j = Ok c' → quiet c c'.
Proof.
  induction deps as [|[r|] deps IH]; intros c j c' H; cbn in H; [by injection H as <-| |by eapply IH].
  apply bind_ok in H as (p & _ & H). apply bind_ok in H as (c1 & H1 & H).
  transitivity c1; [|by eapply IH]. destruct p as [p|]; [by eapply link_quiet|].
  apply bind_ok in H1 as (i & Hi & H1). apply bind_ok in H1 as (i' & Hf & [= <-]).
  eapply quiet_set_node; [done|]. unfold fetchDependencyIdx in Hf. apply bind_ok in Hf as (d & _ & Hf).
  destruct d; mon. done.
Qed.

Lemma push_quiet c tmpl : mem_typed tmpl → quiet c (push_clone c tmpl).
Proof.
  intros T. split; [by intros []|]. exists [tmpl]. split; [by constructor|]. cbn.
  by apply Forall_Forall2_diag, Forall_true.
Qed.

Lemma scheduleNode_quiet prev c tmpl c' : mem_typed tmpl → scheduleNode prev c tmpl = Ok c' → quiet c c'.
Proof.
  intros T H. unfold scheduleNode in H. apply bind_ok in H as (c1 & H1 & H).
  apply bind_ok in H as (c2 & H2 & H). apply bind_ok in H as (c3 & H3 & H).
  apply bind_ok in H as (i & Hi & H). apply bind_ok in H as ([i' ds] & Hd & H).
  etrans; [by apply push_quiet|]. transitivity c1; [|transitivity c2; [|transitivity c3]].
  - clear H2 H3 H. destruct (_ReturnRegister _); mon; [by eapply link_opt_quiet|done].
  - clear H1 H3 H. destruct (String.eqb _ "load"); mon; [by eapply link_opt_quiet|done].
  - clear H1 H2 H. destruct (String.eqb _ "getelementptr"); mon; [by eapply gepBase_quiet|done].
  - etrans; [|by eapply depLoop_quiet]. eapply quiet_set_node; [done|].
    unfold runtimeDependencies in Hd. destruct (cls i) eqn:E; mon; simplify_eq; done.
Qed.

(** ** The engine *)

Record quietL (s s' : LLVMInterface) : Prop := {
  ql_core : quiet (core s) (core s');
  ql_comm : comm s' = comm s;
  ql_nreqs : nreqs s' = nreqs s;
  ql_blocks : bbList s' = bbList s;
}.
#[export] Instance quietL_preorder : PreOrder quietL.
Proof.
  split; [by intros s|]. intros s1 s2 s3 [] []. split; [by etrans|congruence..].
Qed.

Definition blocks_mem_typed (s : LLVMInterface) : Prop :=
  Forall (fun b => Forall mem_typed (_Nodes b)) (bbList s).

Lemma quietL_core s c : quiet (core s) c → quietL s (set_core s c).
Proof. by intros. Qed.

Lemma scheduleBB_quiet s b s' : blocks_mem_typed s → scheduleBB s b = Ok s' → quietL s s'.
Proof.
  intros F H. unfold scheduleBB in H. apply bind_ok in H as (bb & Hb & H).
  assert (Forall mem_typed (_Nodes bb)) as Fb.
  { unfold bb_at in Hb. destruct b; mon. eapply Forall_lookup_1 in F; [exact F|done]. }
  destruct (_Nodes bb) as [|n ns]; [by injection H as <-|].
  apply bind_ok in H as (pb & _ & H). apply bind_ok in H as (c & H & [= <-]). apply quietL_core.
  revert H Fb. unfold scheduleNodes. generalize (n :: ns) as l, (core s) as c0. intros l.
  induction l as [|x l IH]; intros c0 H Fb; cbn in H; [by mon|].
  apply bind_ok in H as (c1 & H1 & H). inversion Fb; subst.
  etrans; [by eapply scheduleNode_quiet|by eapply IH].
Qed.

(** ** The invariant *)

(** The requests of a direction in a log of calls. *)
Definition enq_id (rd : bool) (e : CommEvent) : list nat :=
  match e with
  | Enqueue id (EnqueueRead _) => if rd then [id] else []
  | Enqueue id (EnqueueWrite _) => if rd then [] else [id]
  | _ => []
  end.
Definition enq (rd : bool) (es : list CommEvent) : list nat := es ≫= enq_id rd.

Lemma enq_snoc rd es e : enq rd (es ++ [e]) = enq rd es ++ enq_id rd e.
Proof. unfold enq. rewrite bind_app. cbn. by rewrite app_nil_r. Qed.

(** The requests the instructions of a memory queue wait for. *)
Definition req_of (c : Core) (p : nat) : option nat := heap c !! p ≫= _Req.
Definition pending (rd : bool) (c : Core) : list (option nat) := req_of c <$> equeue rd c.

Section Invariant.
Context (old : MemoryRequest).

Definition made_event (e : CommEvent) : Prop :=
  match e with
  | Enqueue _ call => ∃ rd q, call = enqueue_of rd q ∧ made old rd q
  | _ => True
  end.

(** [done] are the requests that have been committed. *)
Record EInv (done : gset nat) (s : LLVMInterface) : Prop := {
  ei_typed : Forall mem_typed (heap (core s));
  ei_blocks : blocks_mem_typed s;
  ei_new : ∀ rd id, id ∈ enq rd (comm s) → (id < nreqs s)%nat;
  ei_done : ∀ id, id ∈ done → ∃ rd, id ∈ enq rd (comm s);
  ei_nodup : NoDup (enq true (comm s) ++ enq false (comm s));
  ei_pend : ∀ rd, pending rd (core s) ≡ₚ Some <$> filter (fun id => id ∉ done) (enq rd (comm s));
  ei_finish : ∀ pre post, comm s = pre ++ Finish :: post → ∀ rd id, id ∈ enq rd pre → id ∈ done;
  ei_made : Forall made_event (comm s);
}.

Lemma ei_waits done s rd p :
  EInv done s → p ∈ equeue rd (core s) →
  ∃ x id, heap (core s) !! p = Some x ∧ _Req x = Some id ∧ id ∈ enq rd (comm s) ∧ id ∉ done.
Proof.
  intros E Hp. assert (req_of (core s) p ∈ pending rd (core s)) as H by (by apply list_elem_of_fmap_2).
  rewrite (ei_pend _ _ E rd) in H. apply list_elem_of_fmap in H as (id & Hid & H).
  apply list_elem_of_filter in H as [? ?]. unfold req_of in Hid. apply bind_Some in Hid as (x & ? & ?).
  by exists x, id.
Qed.

Lemma einv_quiet done s s' : EInv done s → quietL s s' → EInv done s'.
Proof.
  intros E [[Q (new & T & F)] Ec En Eb]. pose proof E as [Ht Hb Hn Hd Hnd Hp Hf Hm].
  split; rewrite ?Ec, ?En; try done.
  - apply Forall_lookup. intros p x' Hx'. destruct (Forall2_lookup_r _ _ _ _ _ F Hx') as (x & Hx & Hs).
    eapply steady_typed; [done|]. assert (Forall mem_typed (heap (core s) ++ new)) as Hall by (by apply Forall_app).
    by eapply Forall_lookup_1.
  - unfold blocks_mem_typed. by rewrite Eb.
  - intros rd. rewrite <-Hp. unfold pending. rewrite Q.
    erewrite list_fmap_ext; [done|]. intros i p Hi. apply list_elem_of_lookup_2 in Hi.
    destruct (ei_waits done s rd p E Hi) as (x & id & Hx & Hid & _).
    assert ((heap (core s) ++ new) !! p = Some x) as Hx1 by (by apply lookup_app_l_Some).
    destruct (Forall2_lookup_l _ _ _ _ _ F Hx1) as (x' & Hx' & (_ & _ & Er)).
    unfold req_of. by rewrite Hx, Hx'.
Qed.

Lemma log_split (es : list CommEvent) e pre post :
  es ++ [e] = pre ++ Finish :: post →
  (e = Finish ∧ pre = es) ∨ ∃ post', es = pre ++ Finish :: post'.
Proof.
  intros H. destruct (exists_last (l := Finish :: post)) as (l & a & E); [done|].
  rewrite E, (assoc_L (++)) in H. apply app_inj_tail in H as [H ->].
  destruct l as [|f l].
  - left. injection E as -> ->. by rewrite app_nil_r in H.
  - right. injection E as <- ->. by exists l.
Qed.

Lemma einv_log done s e :
  EInv done s → (∀ rd, enq_id rd e = []) → made_event e →
  (e = Finish → ∀ rd id, id ∈ enq rd (comm s) → id ∈ done) → EInv done (log s e).
Proof.
  intros [Ht Hb Hn Hd Hnd Hp Hf Hm] He Hme Hfin.
  split; cbn [comm log nreqs core]; try done; intros; rewrite ?enq_snoc, ?He, ?app_nil_r in *; auto.
  - eauto.
  - destruct (Hd id H) as [d ?]. exists d. by rewrite enq_snoc, He, app_nil_r.
  - apply log_split in H as [[-> ->]|[post' E]]; [by eapply Hfin|by eapply Hf].
  - apply Forall_app. split; [done|]. by constructor.
Qed.

(** Nothing is pending when the memory queues are empty. *)
Lemma ei_idle done s rd id : EInv done s → equeue rd (core s) = [] → id ∈ enq rd (comm s) → id ∈ done.
Proof.
  intros E Hq Hid. destruct (decide (id ∈ done)) as [|Hn]; [done|].
  assert (Some id ∈ pending rd (core s)) as H.
  { rewrite (ei_pend _ _ E rd). apply list_elem_of_fmap_2, list_elem_of_filter. done. }
  unfold pending in H. rewrite Hq in H. by apply elem_of_nil in H.
Qed.

(** ** Computing an instruction *)

Lemma quietL_stats s x : quietL s (set_stats s x).
Proof. by split. Qed.
Lemma quietL_countFU unl s fu : quietL s (countFU unl s fu).
Proof. unfold countFU. destruct unl; [apply quietL_stats|done]. Qed.
Lemma quietL_mark s : quietL s (mark_comp s).
Proof. apply quietL_stats. Qed.
Lemma quietL_erase s i : quietL s (erase_reservation s i).
Proof. apply quietL_core. by apply quiet_same_heap; [intros []|]. Qed.
Lemma quietL_BBs s a b : quietL s (set_BBs s a b).
Proof. by split. Qed.
Lemma quietL_limitFU cfg s fu : quietL s (limitFU cfg s fu).1.
Proof. unfold limitFU. destruct (limitedFU _ _ _). apply quietL_stats. Qed.

Lemma computeNode_quiet done s p x s' :
  EInv done s → heap (core s) !! p = Some x → op_kind (st x) = None → computeNode old s p = Ok s' → quietL s s'.
Proof.
  intros E Hx Hk H. unfold computeNode in H. apply bind_ok in H as (i & Hi & H).
  pose proof Hi as Hi'. apply node_ok in Hi'. assert (i = x) as -> by congruence.
  apply bind_ok in H as ([[rl i'] call] & Hc & H). apply compute_kind in Hc.
  assert (mem_typed x) as [K _] by (eapply Forall_lookup_1; [apply E|done]).
  rewrite K, Hk in Hc. destruct Hc as [Hs ->]. mon. apply quietL_core.
  etrans; [apply (quiet_set_regs _ rl)|]. by apply (quiet_set_node (set_regs (core s) rl) p x).
Qed.

Lemma commitNode_quiet s p s' b : commitNode s p = Ok (s', b) → quietL s s'.
Proof.
  unfold commitNode. intros H. apply bind_ok in H as ([c d] & Hc & [= <- _]).
  apply quietL_core. by eapply commit_quiet.
Qed.
Lemma removeNode_quiet s p s' : removeNode s p = Ok s' → quietL s s'.
Proof.
  unfold removeNode. intros H. apply bind_ok in H as (c & Hc & [= <-]). apply quietL_core. by eapply removeLinks_quiet.
Qed.

(** ** Launching *)

Section Launch.
Context (unl : bool).

Lemma launchZero_quiet done s i p x fu s' :
  EInv done s → heap (core s) !! p = Some x → op_kind (st x) = None →
  launchZero unl old s i p fu = Ok s' → quietL s s'.
Proof.
  intros E Hx Hk H. unfold launchZero in H. apply bind_ok in H as (s1 & H1 & H).
  apply bind_ok in H as ([s2 b] & H2 & H). apply bind_ok in H as (s3 & H3 & [= <-]).
  etrans; [by eapply computeNode_quiet|]. etrans; [by eapply commitNode_quiet|].
  etrans; [apply (quietL_countFU unl s2 fu)|]. etrans; [apply quietL_mark|].
  etrans; [by eapply removeNode_quiet|]. apply quietL_erase.
Qed.

Lemma launchCompute_quiet done s i p x fu s' :
  EInv done s → heap (core s) !! p = Some x → op_kind (st x) = None →
  launchCompute unl old s i p fu = Ok s' → quietL s s'.
Proof.
  intros E Hx Hk H. unfold launchCompute in H. apply bind_ok in H as (s1 & H1 & H).
  apply bind_ok in H as ([s2 b] & H2 & [= <-]).
  set (s0 := set_core s _) in H1.
  assert (quietL s s0) as Q0 by (apply quietL_core; by apply quiet_same_heap; [intros []|]).
  etrans; [exact Q0|]. etrans; [eapply (computeNode_quiet done s0 p x); [by eapply einv_quiet|done..]|].
  etrans; [by eapply commitNode_quiet|]. etrans; [apply (quietL_countFU unl s2 fu)|].
  etrans; [apply quietL_mark|]. apply quietL_erase.
Qed.

Lemma launchBranch_quiet done s i p x fu s' :
  EInv done s → heap (core s) !! p = Some x → op_kind (st x) = None →
  launchBranch unl old s i p fu = Ok s' → quietL s s'.
Proof.
  intros E Hx Hk H. unfold launchBranch in H. apply bind_ok in H as (s1 & H1 & H).
  apply bind_ok in H as (y & _ & H). set (s0 := set_BBs _ _ _) in H1.
  assert (quietL s s0) as Q0 by (etrans; [apply (quietL_countFU unl s fu)|apply quietL_BBs]).
  assert (quietL s s1) as Q1.
  { etrans; [exact Q0|]. eapply (computeNode_quiet done s0 p x); [by eapply einv_quiet| |done|done].
    subst s0. unfold countFU. by destruct unl. }
  etrans; [exact Q1|]. set (s2 := erase_reservation _ _) in H.
  assert (quietL s1 s2) as Q2 by (etrans; [apply quietL_BBs|apply quietL_erase]).
  etrans; [exact Q2|]. eapply scheduleBB_quiet; [|done].
  eapply (ei_blocks done), einv_quiet; [by eapply einv_quiet|done].
Qed.
End Launch.

(** ** A memory access *)

Lemma enq_id_enqueue d rd id q : enq_id d (Enqueue id (enqueue_of rd q)) = if Bool.eqb d rd then [id] else [].
Proof. by destruct d, rd. Qed.

Lemma NoDup_enq_snoc rd (l l' : list nat) id :
  NoDup (l ++ l') → id ∉ l → id ∉ l' →
  NoDup ((l ++ (if (rd : bool) then [id] else [])) ++ l' ++ (if rd then [] else [id])).
Proof.
  intros Hnd Hl Hl'.
  assert ((l ++ (if rd then [id] else [])) ++ l' ++ (if rd then [] else [id]) ≡ₚ id :: l ++ l') as ->.
  { destruct rd; rewrite ?app_nil_r; solve_Permutation. }
  apply NoDup_cons. split; [|done]. by rewrite elem_of_app; intros [|].
Qed.

(** The request is made and the instruction waits for it. *)
Lemma access_einv done s s' rd p x i' q rl :
  EInv done s → heap (core s) !! p = Some x → op_kind (st x) = Some rd → (∀ d, p ∉ equeue d (core s)) →
  st i' = st x → mem_kind (cls i') = Some rd → _Req i' = Some (nreqs s) → made old rd q →
  (∀ d, equeue d (core s') = if Bool.eqb d rd then equeue d (core s) ++ [p] else equeue d (core s)) →
  heap (core s') = <[p := i']> (heap (core s)) → regList (core s') = rl →
  bbList s' = bbList s → nreqs s' = S (nreqs s) →
  comm s' = comm s ++ [Enqueue (nreqs s) (enqueue_of rd q)] → EInv done s'.
Proof.
  intros [Ht Hb Hn Hd Hnd Hp Hf Hm] Hx Hk Hnq Est Ek Er Hmd EQ Eh _ Eb En Ec.
  assert (∀ d, nreqs s ∉ enq d (comm s)) as Hfresh by (intros d H; apply Hn in H; lia).
  assert (nreqs s ∉ done) as Hfd by (intros [d H]%Hd; by apply (Hfresh d)).
  assert (∀ d y, y ∈ equeue d (core s) → req_of (core s') y = req_of (core s) y) as Hold.
  { intros d y Hy. unfold req_of. rewrite Eh, list_lookup_insert_ne; [done|]. by intros ->; eapply Hnq. }
  assert (∀ d, req_of (core s') <$> equeue d (core s) = pending d (core s)) as Hmap.
  { intros d. apply list_fmap_ext. intros i y Hy%list_elem_of_lookup_2. by eapply Hold. }
  split; rewrite ?Ec, ?En.
  - rewrite Eh. apply Forall_insert; [done|]. assert (mem_typed x) as [? ?] by (by eapply Forall_lookup_1).
    split; rewrite Est; [congruence|done].
  - unfold blocks_mem_typed. by rewrite Eb.
  - intros d id. rewrite enq_snoc, enq_id_enqueue, elem_of_app. intros [H|H]; [apply Hn in H; lia|].
    destruct (Bool.eqb d rd); [|by apply elem_of_nil in H]. apply list_elem_of_singleton in H. lia.
  - intros id [d H]%Hd. exists d. rewrite enq_snoc. set_solver.
  - rewrite !enq_snoc, !enq_id_enqueue.
    pose proof (NoDup_enq_snoc rd _ _ (nreqs s) Hnd (Hfresh true) (Hfresh false)). by destruct rd.
  - intros d. unfold pending. rewrite EQ, enq_snoc, enq_id_enqueue, filter_app, fmap_app, <-Hp.
    destruct (Bool.eqb_spec d rd) as [->|].
    + rewrite fmap_app, Hmap. f_equiv.
      rewrite (filter_cons_True _ (nreqs s)) by done. cbn. unfold req_of.
      rewrite Eh, list_lookup_insert_eq by (by eapply lookup_lt_Some). cbn. by rewrite Er.
    + cbn. by rewrite app_nil_r, Hmap.
  - intros pre post H. apply log_split in H as [[? _]|[post' E]]; [done|by eapply Hf].
  - apply Forall_app. split; [done|]. repeat constructor. by exists rd, q.
Qed.

Lemma launchMem_einv unl defines done s rd i p x fu s' :
  EInv done s → Inv defines (core s) → reservation (core s) !! i = Some p → heap (core s) !! p = Some x →
  op_kind (st x) = Some rd → launchMem unl old rd s i p fu = Ok s' →
  EInv done s' ∧ comm s `prefix_of` comm s'.
Proof.
  intros E I Hi Hx Hk H. unfold launchMem in H. apply bind_ok in H as (s2 & H2 & H).
  apply bind_ok in H as (y & _ & H). injection H as <-.
  assert (∀ s3, EInv done s3 ∧ comm s `prefix_of` comm s3 → ∀ x,
    EInv done (erase_reservation (countFU unl (set_stats s3 x) fu) i) ∧
    comm s `prefix_of` comm (erase_reservation (countFU unl (set_stats s3 x) fu) i)) as Hend.
  { intros s3 [E3 P3] z.
    assert (quietL s3 (erase_reservation (countFU unl (set_stats s3 z) fu) i)) as Q.
    { etrans; [apply (quietL_stats s3 z)|]. etrans; [apply quietL_countFU|apply quietL_erase]. }
    split; [by eapply einv_quiet|]. by rewrite (ql_comm _ _ Q). }
  apply Hend. clear Hend y. set (s1 := set_core _ _) in H2.
  assert (∀ d, p ∉ equeue d (core s)) as Hnq.
  { intros d Hp. pose proof (not_reserved defines (core s) p I) as Hnr.
    apply Hnr; [destruct d; auto|]. by eapply list_elem_of_lookup_2. }
  assert (heap (core s1) = heap (core s) ∧ nreqs s1 = nreqs s ∧ comm s1 = comm s ∧ bbList s1 = bbList s ∧
    ∀ d, equeue d (core s1) = if Bool.eqb d rd then equeue d (core s) ++ [p] else equeue d (core s))
    as (Eh & En & Ec & Eb & EQ) by (subst s1; destruct rd; split_and!; try done; by intros []).
  clearbody s1. unfold computeNode in H2. apply bind_ok in H2 as (i0 & Hi0 & H2).
  apply node_ok in Hi0. rewrite Eh in Hi0. assert (i0 = x) as -> by congruence.
  apply bind_ok in H2 as ([[rl i'] call] & Hc & H2). apply compute_kind in Hc.
  assert (mem_typed x) as [K _] by (eapply Forall_lookup_1; [apply E|done]).
  rewrite K, Hk in Hc. destruct Hc as (Est & Ek & Er & q & -> & Hmd).
  assert (s2 = alloc_req (log (set_core s1 (set_node (set_regs (core s1) rl) p i')) (Enqueue (nreqs s1) (enqueue_of rd q)))) as ->
    by (destruct rd; by injection H2 as <-).
  split.
  - eapply (access_einv done s _ rd p x i' q rl); try done; cbn; rewrite ?Eh, ?En, ?Ec, ?Eb; try done; [congruence|..].
    all: intros d; specialize (EQ d); by destruct d.
  - cbn. rewrite Ec. by eexists.
Qed.

(** ** The loops of [tick] *)

Section Tick.
Context (defines : string → bool) (cfg : Config) (unl : bool).

Lemma op_kind_load x : is_op x "load" = true → op_kind (st x) = Some true.
Proof. unfold is_op, op_kind. by intros ->. Qed.
Lemma op_kind_store x : is_op x "load" = false → is_op x "store" = true → op_kind (st x) = Some false.
Proof. unfold is_op, op_kind. by intros -> ->. Qed.
Lemma op_kind_none x : is_op x "load" = false → is_op x "store" = false → op_kind (st x) = None.
Proof. unfold is_op, op_kind. by intros -> ->. Qed.

Lemma quiet_both done s s' : EInv done s → quietL s s' → EInv done s' ∧ comm s `prefix_of` comm s'.
Proof. intros E Q. split; [by eapply einv_quiet|]. by rewrite (ql_comm _ _ Q). Qed.

Lemma reservationStep_einv done s i p s' i' :
  EInv done s → Inv defines (core s) → reservation (core s) !! i = Some p →
  reservationStep cfg unl old s i p = Ok (s', i') → EInv done s' ∧ comm s `prefix_of` comm s'.
Proof.
  intros E I Hi H. unfold reservationStep in H. apply bind_ok in H as (x & Hx & H). apply node_ok in Hx.
  assert (mem_typed x) as [_ T] by (eapply Forall_lookup_1; [apply E|done]).
  assert (EInv done s ∧ comm s `prefix_of` comm s) as Hrefl by done.
  destruct (_ActiveParents x =? 0).
  - destruct (_Terminator (st x)) eqn:Ht; cbn [negb] in H.
    + destruct (is_op x "ret"); cbn [negb] in H; [by injection H as <- <-|].
      destruct (_ <? _); [|by injection H as <- <-]. apply bind_ok in H as (s1 & H & [= <- _]).
      apply (quiet_both done s s1 E). eapply launchBranch_quiet; eauto.
    + destruct (is_op x "load") eqn:E1.
      { apply bind_ok in H as (s1 & H & [= <- _]). eapply launchMem_einv; eauto using op_kind_load. }
      destruct (is_op x "store") eqn:E2.
      { apply bind_ok in H as (s1 & H & [= <- _]). eapply launchMem_einv; eauto using op_kind_store. }
      pose proof (op_kind_none x E1 E2) as Hk.
      destruct (_MaxCycle (st x) =? 0).
      { apply bind_ok in H as (s1 & H & [= <- _]). apply (quiet_both done s s1 E). eapply launchZero_quiet; eauto. }
      destruct unl eqn:Eu.
      { apply bind_ok in H as (s1 & H & [= <- _]). apply (quiet_both done s s1 E). eapply launchCompute_quiet; eauto. }
      pose proof (quietL_limitFU cfg s (_FunctionalUnit (st x))) as Q.
      destruct (limitFU_core cfg s (_FunctionalUnit (st x))) as [C1 _].
      destruct (limitFU cfg s (_FunctionalUnit (st x))) as [s1 ok]. cbn [fst] in Q, C1.
      destruct ok; [|injection H as <- <-; by apply quiet_both].
      apply bind_ok in H as (s2 & H & [= <- _]). apply (quiet_both done s s2 E). etrans; [exact Q|].
      set (s1' := if is_op x "fdiv" then count_fdiv s1 else s1) in H.
      assert (quietL s1 s1') as Q1 by (unfold s1'; destruct (is_op x "fdiv"); [apply quietL_stats|done]).
      etrans; [exact Q1|]. eapply (launchCompute_quiet false done s1'); [|rewrite <-Hx, <-C1; unfold s1'; by destruct (is_op x "fdiv")|done|done].
      eapply einv_quiet; [by eapply einv_quiet|done].
  - destruct (is_op x "ret" && Nat.eqb i 0); [|by injection H as <- <-].
    destruct (computeQueue (core s)); [|by injection H as <- <-].
    destruct (readQueue (core s)) eqn:Er; [|by injection H as <- <-].
    destruct (writeQueue (core s)) eqn:Ew; [|by injection H as <- <-].
    injection H as <- <-. set (s1 := finalize _).
    assert (quietL s s1) as Q by (etrans; [apply (quietL_erase s i)|by split]).
    assert (EInv done s1) as E1 by (by eapply einv_quiet).
    split; [|cbn; by eexists]. apply einv_log; [done|done|done|]. intros _ rd id Hid.
    eapply (ei_idle done s1 rd); [done| |done]. rewrite (proj1 (ql_core _ _ Q)). by destruct rd.
Qed.

Lemma reservationLoop_einv done fuel : ∀ s i s',
  EInv done s → LInv defines s → reservationLoop cfg unl old fuel s i = Ok s' →
  EInv done s' ∧ comm s `prefix_of` comm s'.
Proof.
  induction fuel as [|fuel IH]; intros s i s' E L H; cbn in H;
    destruct (reservation (core s) !! i) as [p|] eqn:Hp; try (by injection H as <-); [done|].
  apply bind_ok in H as ([s1 i1] & H1 & H).
  destruct (reservationStep_einv done s i p s1 i1 E (proj1 L) Hp H1) as [E1 P1].
  destruct (IH s1 i1 s' E1) as [E2 P2]; [by eapply reservationStep_inv|done|]. split; [done|by etrans].
Qed.

Lemma computeLoop_quiet n : ∀ s i s', computeLoop cfg unl n s i = Ok s' → quietL s s'.
Proof.
  induction n as [|n IH]; intros s i s' H; cbn in H; [by injection H as <-|].
  destruct (computeQueue (core s) !! i) as [p|]; [|by injection H as <-].
  apply bind_ok in H as (rp & _ & H). apply bind_ok in H as (r & _ & H).
  set (q := if unl then _ else _) in H.
  assert (quietL s q.1) as Q by (unfold q; destruct unl; [apply quietL_countFU|apply quietL_limitFU]).
  destruct q as [s1 ok]. cbn [fst] in Q. etrans; [exact Q|]. destruct ok; [|by eapply IH].
  apply bind_ok in H as ([s2 d] & Hc & H). etrans; [by eapply commitNode_quiet|]. destruct d; [|by eapply IH].
  apply bind_ok in H as (s3 & Hr & H). etrans; [by eapply removeNode_quiet|]. etrans; [|by eapply IH].
  apply quietL_core. by apply quiet_same_heap; [intros []|].
Qed.

Lemma tick_einv done fuel s s' b :
  EInv done s → LInv defines s → Scheduler.tick cfg unl old fuel s = Ok (s', b) →
  EInv done s' ∧ comm s `prefix_of` comm s' ∧ b = running s'.
Proof.
  intros E L H. unfold tick in H. apply bind_ok in H as (s1 & H1 & H).
  apply bind_ok in H as (s2 & H2 & H). apply bind_ok in H as (s3 & H3 & [= <- <-]).
  assert (EInv done (tickHead cfg s)) as E0.
  { apply einv_log; [|done|done|done]. eapply einv_quiet; [exact E|]. split; try done. apply quiet_set_regs. }
  assert (LInv defines (tickHead cfg s)) as L0 by (destruct L; split; [by apply inv_set_regs|done]).
  assert (comm s `prefix_of` comm (tickHead cfg s)) as P0 by (cbn; by eexists).
  pose proof (computeLoop_inv _ _ _ _ _ _ _ L0 H1) as L1. apply computeLoop_quiet in H1 as Q1.
  assert (EInv done s1) as E1 by (by eapply einv_quiet).
  assert (quietL s1 s2 ∧ LInv defines s2) as [Q2 L2].
  { revert H2. destruct (reservation (core s1)); [|by intros [= <-]]. intros H2. split; [|by eapply scheduleBB_inv].
    eapply scheduleBB_quiet; [apply E1|done]. }
  assert (EInv done s2) as E2 by (by eapply einv_quiet).
  assert (EInv done s3 ∧ comm s2 `prefix_of` comm s3) as [E3 P3].
  { revert H3. destruct (_ && _); [by intros [= <-]|]. intros H3. by eapply reservationLoop_einv. }
  split_and!; [by eapply einv_quiet, quietL_stats| |done]. cbn [comm set_stats].
  etrans; [exact P0|]. by rewrite <-(ql_comm _ _ Q1), <-(ql_comm _ _ Q2).
Qed.
End Tick.

(** ** Committed requests *)

(** The entry [j] of a memory queue waits for the request. *)
Definition waits (rd : bool) (c : Core) (req j : nat) : Prop :=
  ∃ p, equeue rd c !! j = Some p ∧ req_of c p = Some req.
Definition set_equeue (rd : bool) (c : Core) (q : list nat) : Core :=
  if rd then set_readQueue c q else set_writeQueue c q.

Lemma quiet_req c c' p : quiet c c' → is_Some (heap c !! p) → req_of c' p = req_of c p.
Proof.
  intros [_ (new & _ & F)] [x Hx]. unfold req_of.
  assert ((heap c ++ new) !! p = Some x) as Hx1 by (by apply lookup_app_l_Some).
  destruct (Forall2_lookup_l _ _ _ _ _ F Hx1) as (x' & Hx' & (_ & _ & Er)). by rewrite Hx, Hx'.
Qed.

Lemma req_of_set_equeue rd c q p : req_of (set_equeue rd c q) p = req_of c p.
Proof. by destruct rd. Qed.
Lemma equeue_set_equeue rd c q d : equeue d (set_equeue rd c q) = if Bool.eqb d rd then q else equeue d c.
Proof. by destruct rd, d. Qed.

Lemma erase_at_later (q : list nat) i j p : (i ≤ j)%nat → erase_at q i !! j = Some p → q !! S j = Some p.
Proof.
  intros Hij. unfold erase_at. destruct (decide (i < length q)%nat).
  - rewrite lookup_app_r, lookup_drop, length_take by (rewrite length_take; lia). intros <-. f_equal. lia.
  - rewrite take_ge, drop_ge, app_nil_r by lia. intros H. apply lookup_lt_Some in H. lia.
Qed.

(** After the only entry that waits for the request has been erased, none of
    the entries the loop has left does. *)
Lemma none_waits rd c c1 req i p :
  quiet c c1 → (∀ q, q ∈ equeue rd c → is_Some (heap c !! q)) → equeue rd c !! i = Some p → req_of c p = Some req →
  (∀ j, (i ≤ j)%nat → waits rd c req j → j = i) →
  ∀ j, (S i ≤ j)%nat → ¬ waits rd (set_equeue rd c1 (erase_at (equeue rd c) i)) req j.
Proof.
  intros Q Hal Hi Hr Hu j Hj (q & Hq & Hqr).
  rewrite equeue_set_equeue, Bool.eqb_reflx in Hq. rewrite req_of_set_equeue in Hqr.
  apply erase_at_later in Hq; [|lia].
  rewrite (quiet_req c) in Hqr; [|done|by eapply Hal, list_elem_of_lookup_2].
  assert (S j = i); [|lia]. apply Hu; [lia|]. by exists q.
Qed.

(** What a commit loop does to the queue. *)
Definition commits (rd : bool) (c c' : Core) (req i : nat) : Prop :=
  (∃ j c1, (i ≤ j)%nat ∧ waits rd c req j ∧ quiet c c1 ∧ c' = set_equeue rd c1 (erase_at (equeue rd c) j)) ∨
  (c' = c ∧ ∀ j, (i ≤ j)%nat → ¬ waits rd c req j).

Section Commit.
Context (rd : bool) (req : nat) (loop : nat → Core → nat → outcome Core) (retire : Core → nat → outcome Core).
Hypothesis loop_0 : ∀ c i, loop 0 c i = Ok c.
Hypothesis loop_S : ∀ n c i, loop (S n) c i =
  match equeue rd c !! i with
  | None => Ok c
  | Some p =>
      let* x := node c p in
      if bool_decide (_Req x = Some req) then
        let* c := retire c p in loop n (set_equeue rd c (erase_at (equeue rd c) i)) (S i)
      else loop n c (S i)
  end.
Hypothesis retire_quiet : ∀ c p c', retire c p = Ok c' → quiet c c'.

Lemma loop_commits n : ∀ c i c',
  loop n c i = Ok c' → (length (equeue rd c) ≤ n + i)%nat →
  (∀ q, q ∈ equeue rd c → is_Some (heap c !! q)) →
  (∀ j j', (i ≤ j)%nat → (i ≤ j')%nat → waits rd c req j → waits rd c req j' → j = j') →
  commits rd c c' req i.
Proof.
  induction n as [|n IH]; intros c i c' H Hn Hal Hu.
  { rewrite loop_0 in H. injection H as <-. right. split; [done|]. intros j Hj (p & Hp%lookup_lt_Some & _). lia. }
  rewrite loop_S in H. destruct (equeue rd c !! i) as [p|] eqn:Hi.
  2:{ injection H as <-. right. split; [done|]. intros j Hj (p & Hp%lookup_lt_Some & _).
      apply lookup_ge_None in Hi. lia. }
  apply bind_ok in H as (x & Hx & H). apply node_ok in Hx.
  assert (req_of c p = _Req x) as Hrx by (unfold req_of; by rewrite Hx).
  case_bool_decide as Hr.
  - apply bind_ok in H as (c1 & Hc & H). apply retire_quiet in Hc as Q. rewrite (proj1 Q rd) in H.
    assert (waits rd c req i) as Hw by (exists p; split; congruence).
    pose proof (none_waits rd c c1 req i p Q Hal Hi ltac:(congruence) (fun j Hj Wj => Hu j i Hj (le_n i) Wj Hw)) as Hnone.
    apply IH in H.
    + destruct H as [(j & c2 & Hj & W & _)|[-> _]]; [by destruct (Hnone j)|]. left. by exists i, c1.
    + rewrite equeue_set_equeue, Bool.eqb_reflx. pose proof (lookup_lt_Some _ _ _ Hi).
      unfold erase_at. rewrite length_app, length_take, length_drop. lia.
    + intros q. rewrite equeue_set_equeue, Bool.eqb_reflx. intros Hq%erase_at_sub%Hal. destruct Hq as [y Hy].
      destruct Q as [_ (new & _ & F)].
      destruct (Forall2_lookup_l _ _ _ q y F) as (y' & Hy' & _); [by apply lookup_app_l_Some|].
      exists y'. by destruct rd.
    + intros j j' Hj _ W. by destruct (Hnone j).
  - apply IH in H; [|lia|done|intros; apply Hu; lia||done].
    assert (¬ waits rd c req i) as Hni by (intros (q & Hq & Hqr); congruence).
    destruct H as [(j & c2 & Hj & ?)|[-> Hno]].
    + left. exists j, c2. split; [lia|done].
    + right. split; [done|]. intros j Hj W. destruct (decide (j = i)) as [->|]; [done|]. apply (Hno j); [lia|done].
Qed.
End Commit.

(** The instruction whose request is committed, up to its erasure. *)
Definition read_retire (buf : list Z) (c : Core) (p : nat) : outcome Core :=
  let* x := node c p in
  let* x := setResultBuf (regList c) x buf in
  let* (c, _) := commit (set_node c p x) p in
  removeLinks c p.
Definition write_retire (c : Core) (p : nat) : outcome Core :=
  let* (c, _) := commit c p in removeLinks c p.

Lemma read_retire_quiet buf c p c' : read_retire buf c p = Ok c' → quiet c c'.
Proof.
  unfold read_retire. intros H. apply bind_ok in H as (x & Hx & H). apply bind_ok in H as (x' & Hr & H).
  apply bind_ok in H as ([c1 b] & Hc & H). etrans; [apply (quiet_set_node c p x x' Hx)|].
  - unfold setResultBuf in Hr. destruct (_ReturnRegister (st x)); [|done]. mon. by eapply setResult_steady.
  - etrans; [by eapply commit_quiet|by eapply removeLinks_quiet].
Qed.
Lemma write_retire_quiet c p c' : write_retire c p = Ok c' → quiet c c'.
Proof.
  unfold write_retire. intros H. apply bind_ok in H as ([c1 b] & Hc & H).
  etrans; [by eapply commit_quiet|by eapply removeLinks_quiet].
Qed.

Lemma readCommitLoop_S req buf n c i : readCommitLoop (S n) c i req buf =
  match equeue true c !! i with
  | None => Ok c
  | Some p =>
      let* x := node c p in
      if bool_decide (_Req x = Some req) then
        let* c := read_retire buf c p in
        readCommitLoop n (set_equeue true c (erase_at (equeue true c) i)) (S i) req buf
      else readCommitLoop n c (S i) req buf
  end.
Proof.
  cbn. destruct (readQueue c !! i) as [p|]; [|done]. unfold read_retire.
  destruct (node c p) as [x|]; [|done]. cbn. destruct (bool_decide _); [|done].
  destruct (setResultBuf _ _ _); [|done]. cbn. by destruct (commit _ _) as [[c1 b]|].
Qed.
Lemma writeCommitLoop_S req n c i : writeCommitLoop (S n) c i req =
  match equeue false c !! i with
  | None => Ok c
  | Some p =>
      let* x := node c p in
      if bool_decide (_Req x = Some req) then
        let* c := write_retire c p in
        writeCommitLoop n (set_equeue false c (erase_at (equeue false c) i)) (S i) req
      else writeCommitLoop n c (S i) req
  end.
Proof.
  cbn. destruct (writeQueue c !! i) as [p|]; [|done]. unfold write_retire.
  destruct (node c p) as [x|]; [|done]. cbn. destruct (bool_decide _); [|done].
  by destruct (commit _ _) as [[c1 b]|].
Qed.

(** The queue of a direction has each request once. *)
Lemma pending_nodup done s rd : EInv done s → NoDup (pending rd (core s)).
Proof.
  intros E. rewrite (ei_pend _ _ E rd). apply NoDup_fmap; [apply _|]. apply NoDup_filter.
  pose proof (ei_nodup _ _ E) as Hnd. apply NoDup_app in Hnd as (? & _ & ?). by destruct rd.
Qed.

Lemma waits_pending rd c req j : waits rd c req j ↔ pending rd c !! j = Some (Some req).
Proof.
  unfold pending, waits. rewrite list_lookup_fmap. destruct (equeue rd c !! j) as [p|]; cbn.
  - split; [intros (? & [= <-] & ->); done|]. intros [= H]. by exists p.
  - split; [by intros (? & ? & _)|done].
Qed.

(** A pending request is committed: the instruction that waits for it leaves. *)
Lemma commits_einv done s rd req c' :
  EInv done s → req ∈ enq rd (comm s) → req ∉ done → commits rd (core s) c' req 0 →
  EInv ({[req]} ∪ done) (set_core s c') ∧ pending rd (core s) ≡ₚ Some req :: pending rd c' ∧
  (∀ d, d ≠ rd → pending d c' = pending d (core s)).
Proof.
  intros E Hin Hnd H.
  assert (Some req ∈ pending rd (core s)) as Hp.
  { rewrite (ei_pend _ _ E rd). by apply list_elem_of_fmap_2, list_elem_of_filter. }
  destruct H as [(j & c1 & _ & W & Q & ->)|[_ Hno]].
  2:{ apply list_elem_of_lookup in Hp as [j Hj]. destruct (Hno j); [lia|by apply waits_pending]. }
  assert (∀ d p, p ∈ equeue d (core s) → req_of c1 p = req_of (core s) p) as Hreq.
  { intros d p Hpq. apply (quiet_req (core s)); [done|].
    destruct (ei_waits done s d p E Hpq) as (x & _ & ? & _). by exists x. }
  assert (∀ d, d ≠ rd → pending d (set_equeue rd c1 (erase_at (equeue rd (core s)) j)) = pending d (core s)) as Hother.
  { intros d Hd. unfold pending. rewrite equeue_set_equeue. destruct (Bool.eqb_spec d rd) as [|_]; [done|].
    rewrite (proj1 Q d). apply list_fmap_ext. intros k p Hk%list_elem_of_lookup_2. rewrite req_of_set_equeue. by eapply Hreq. }
  assert (pending rd (core s) ≡ₚ Some req :: pending rd (set_equeue rd c1 (erase_at (equeue rd (core s)) j))) as Hperm.
  { destruct W as (p & Hj & Hr). unfold pending. rewrite equeue_set_equeue, Bool.eqb_reflx.
    rewrite (erase_at_perm _ _ _ Hj) at 1. cbn. rewrite Hr. f_equiv.
    erewrite list_fmap_ext; [done|]. intros k y Hk%list_elem_of_lookup_2. rewrite req_of_set_equeue.
    apply erase_at_sub in Hk. symmetry. by eapply Hreq. }
  split_and!; [|done|done].
  assert (EInv done (set_core s c1)) as [Ht Hb Hn Hd Hdup _ Hf Hm] by (eapply einv_quiet; [done|by apply quietL_core]).
  split; try done; cbn [set_core core comm nreqs] in *.
  - by destruct rd.
  - intros id Hid. apply elem_of_union in Hid as [->%elem_of_singleton|?]; [by exists rd|by apply Hd].
  - intros d. destruct (decide (d = rd)) as [->|Hne].
    + apply (Permutation_cons_inv (a := Some req)). rewrite <-Hperm, (ei_pend _ _ E rd).
      rewrite <-(fmap_cons Some). f_equiv. apply NoDup_Permutation.
      * apply NoDup_filter. apply NoDup_app in Hdup as (? & _ & ?). by destruct rd.
      * apply NoDup_cons. split; [rewrite list_elem_of_filter; set_solver|].
        apply NoDup_filter. apply NoDup_app in Hdup as (? & _ & ?). by destruct rd.
      * intros id. rewrite elem_of_cons, !list_elem_of_filter.
        destruct (decide (id = req)) as [->|]; set_solver.
    + rewrite Hother, (ei_pend _ _ E d) by done. f_equiv. pose proof Hdup as Hdup'.
      apply NoDup_app in Hdup as (? & Hdis & ?).
      apply NoDup_Permutation; [apply NoDup_filter; by destruct d..|].
      intros id. rewrite !list_elem_of_filter. split; [|set_solver]. intros [? Hid]. split; [|done].
      assert (id ≠ req); [|set_solver]. intros ->. destruct d, rd; try done; by eapply Hdis.
  - intros pre post Heq d id Hid. apply elem_of_union_r. by eapply Hf.
Qed.

Lemma loop_unique done s rd req j j' :
  EInv done s → waits rd (core s) req j → waits rd (core s) req j' → j = j'.
Proof. intros E Hj%waits_pending Hj'%waits_pending. eapply NoDup_lookup; [by eapply pending_nodup|done|done]. Qed.

Lemma ei_alive done s rd q : EInv done s → q ∈ equeue rd (core s) → is_Some (heap (core s) !! q).
Proof. intros E Hq. destruct (ei_waits done s rd q E Hq) as (x & _ & ? & _). by exists x. Qed.

(** What the commit of a request does to the engine. *)
Record committed (done : gset nat) (rd : bool) (req : nat) (s s' : LLVMInterface) : Prop := {
  cm_inv : EInv ({[req]} ∪ done) s';
  cm_left : pending rd (core s) ≡ₚ Some req :: pending rd (core s');
  cm_other : ∀ d, d ≠ rd → pending d (core s') = pending d (core s);
  cm_comm : comm s' = comm s;
  cm_running : running s' = running s;
}.

Lemma readCommit_einv done s req buf s' :
  EInv done s → req ∈ enq true (comm s) → req ∉ done → readCommit s req buf = Ok s' →
  committed done true req s s'.
Proof.
  intros E Hin Hnd H. unfold readCommit in H. apply bind_ok in H as (c & H & [= <-]).
  apply (loop_commits true req (fun n c i => readCommitLoop n c i req buf) (read_retire buf)) in H.
  - destruct (commits_einv done s true req c E Hin Hnd H) as (? & ? & ?). by split.
  - done.
  - intros. apply readCommitLoop_S.
  - apply read_retire_quiet.
  - cbn. lia.
  - intros q. by apply (ei_alive done).
  - intros j j' _ _. by eapply loop_unique.
Qed.

Lemma writeCommit_einv done s req s' :
  EInv done s → req ∈ enq false (comm s) → req ∉ done → writeCommit s req = Ok s' →
  committed done false req s s'.
Proof.
  intros E Hin Hnd H. unfold writeCommit in H. apply bind_ok in H as (c & H & [= <-]).
  apply (loop_commits false req (fun n c i => writeCommitLoop n c i req) write_retire) in H.
  - destruct (commits_einv done s false req c E Hin Hnd H) as (? & ? & ?). by split.
  - done.
  - intros. apply writeCommitLoop_S.
  - apply write_retire_quiet.
  - cbn. lia.
  - intros q. by apply (ei_alive done).
  - intros j j' _ _. by eapply loop_unique.
Qed.

(** The state in which the first [tick] of a run starts. *)
Lemma fresh_einv s :
  heap (core s) = [] → (∀ rd, equeue rd (core s) = []) → comm s = [] → blocks_mem_typed s → EInv ∅ s.
Proof.
  intros Hh Hq Hc Hb. split; rewrite ?Hh, ?Hc; try done; try constructor.
  - intros rd id H. by apply elem_of_nil in H.
  - intros rd. unfold pending. by rewrite Hq.
  - intros pre post H. by destruct pre.
Qed.
End Invariant.
