(* ===== verification/Accelerator.v ===== *)
(** The accelerator as a whole: the engine of [hwacc/llvm_interface.cc] as the
    compute unit of the communication interface of [hwacc/comm_interface.cc].
    The interface starts the engine from its memory-mapped registers and commits
    its memory requests; the engine's calls go to the interface in the order it
    makes them. *)
From stdpp Require Import gmap strings.
From S2P Require Import Prelude Registers MemRequest Instructions Compute FunctionalUnits Parser Scheduler IRFile AddrRange CommInterface.
From Stdlib Require Import String.

#[local] Open Scope Z_scope.

(** The engine: its state and whether its tick event is scheduled. *)
Definition Engine : Type := LLVMInterface * bool.

(** The constructor: nothing is in flight, no block is known. *)
Definition LLVMInterface_new (x : Stats) : LLVMInterface :=
  mkLI (mkCore [] RegisterList_new [] [] [] []) x [] None None false 0 [].

(** The calls of the engine, as the interface receives them. *)
Definition comm_call (e : CommEvent) : list CuCall :=
  match e with
  | RefreshMemPorts => [CuRefreshMemPorts]
  | Enqueue id (EnqueueRead q) => [CuEnqueueRead id q]
  | Enqueue id (EnqueueWrite q) => [CuEnqueueWrite id q]
  | Enqueue _ NoCall => []
  | Finish => [CuFinish]
  end.
Definition comm_calls (es : list CommEvent) : list CuCall := es ≫= comm_call.

(** The registers when [checkMMR] calls [initialize]. *)
Definition started (d : Dev) : Dev :=
  match flags_byte d with
  | Ok b => let d := set_flags_byte d (Z.lor (Z.land b 0xfe) 0x02) in
            mkDev (mmreg d) true (processingDone d) (int_flag d) (out d)
  | Err _ => d
  end.

Section Accelerator.
Context (cfg : Params) (ecfg : Config) (junk : Junk) (cycles : CycleCounts) (is_pipelined : bool)
  (old : MemoryRequest) (file : option string).

(** [LLVMInterface] as a [ComputeUnit].  [gv] reads the global variables; the
    queues are empty when [initialize] is called. *)
Definition engine_unit (gv : Z → Z → outcome Z) (fuel : nat) : ComputeUnit Engine := {|
  cu_initialize e :=
    let* (_, (s, b)) := boot junk cycles is_pipelined gv ecfg old (stats e.1) fuel file in
    Ok ((s, e.2 || b), comm_calls (comm s));
  cu_readCommit e r buf := let* s := readCommit e.1 r buf in Ok (s, e.2);
  cu_writeCommit e r := let* s := writeCommit e.1 r in Ok (s, e.2);
|}.

(** The tick event of the engine, which is rescheduled while it runs. *)
Definition engine_tick (env : Env) (fuel : nat) (m : Mem) (d : Dev) (e : Engine)
    : outcome (Mem * Dev * Engine) :=
  let* (s, b) := Scheduler.tick ecfg (unlimitedMode (limits ecfg)) old fuel e.1 in
  let* md := cu_calls cfg env (m, d) (comm_calls (drop (List.length (comm e.1)) (comm s))) in
  Ok (md, (s, b)).

(** The tick event of the interface, with the engine it may start. *)
Definition interface_tick (env : Env) (fuel : nat) (m : Mem) (d : Dev) (e : Engine)
    : outcome (Mem * Dev * Engine) :=
  @CommInterface.tick cfg env Engine (engine_unit (getGlobalVar cfg (started d)) fuel) m d e.

(** A response of the memory, which may commit a request of the engine. *)
Definition accelerator_response (env : Env) (fuel : nat) (m : Mem) (d : Dev) (e : Engine) (k : nat) (data : list Z)
    : outcome (Mem * Engine) :=
  @recvPacket cfg env Engine (engine_unit (getGlobalVar cfg (started d)) fuel) m e k data.
End Accelerator.
