(* ===== verification/AcceleratorInv.v ===== *)
(** Engine and interface together: over all runs of the accelerator, in any
    order of its two tick events, responses, retries and register writes, the
    loads and stores the engine waits for are exactly the requests alive in the
    interface; so neither waits for nothing, and the accelerator reports that it
    is done only when all of them have been answered. *)
From stdpp Require Import gmap strings.
From S2P Require Import Prelude Registers MemRequest Instructions Compute FunctionalUnits Parser Scheduler SchedulerInv SchedulerSpec IRFile ParserTypes ParserSpec AddrRange CommInterface CommInv CommSpec EngineRequests Accelerator.
From Stdlib Require Import String.

#[local] Open Scope Z_scope.
#[local] Open Scope list_scope.

(** ** Calls and events *)

(** The access is not empty and does not wrap around the address space. *)
Definition request_ok (q : MemoryRequest) : Prop :=
  address q + mr_length q < 2 ^ 64 ∧ 0 < mr_length q < 2 ^ 31.
Definition call_ok (c : CuCall) : Prop :=
  match c with CuEnqueueRead _ q | CuEnqueueWrite _ q => request_ok q | _ => True end.

Lemma made_fresh old ν rd q : made old rd q → request_ok q → fresh_req ν rd q.
Proof.
  intros M [Ha Hl]. destruct rd; cbn in M.
  - destruct M as (a & n & ? & ->). cbn in *. by apply MemoryRequest_read_fresh.
  - destruct M as (a & data & n & ? & Hw). pose proof Hw as Hw'. unfold MemoryRequest_write in Hw'.
    apply bind_ok in Hw' as (bs & _ & [= <-]). cbn in *. by eapply (MemoryRequest_write_fresh ν old a data n).
Qed.

Lemma enq_cons rd e es : enq rd (e :: es) = enq_id rd e ++ enq rd es.
Proof. done. Qed.
Lemma enq_app rd es es' : enq rd (es ++ es') = enq rd es ++ enq rd es'.
Proof. apply bind_app. Qed.

(** New events bring new requests. *)
Lemma enq_disjoint es es' rd rd' id :
  NoDup (enq true (es ++ es') ++ enq false (es ++ es')) → id ∈ enq rd es → id ∈ enq rd' es' → False.
Proof.
  rewrite !enq_app. intros Hnd H H'.
  assert (enq true es ++ enq false es ++ enq true es' ++ enq false es'
    ≡ₚ (enq true es ++ enq true es') ++ enq false es ++ enq false es') as E by solve_Permutation.
  rewrite <-E, (assoc_L (++)) in Hnd. apply NoDup_app in Hnd as (_ & Hd & _).
  apply (Hd id); rewrite elem_of_app; destruct rd, rd'; auto.
Qed.

Lemma calls_wf_events old μ evs : ∀ live,
  Forall (made_event old) evs → Forall call_ok (comm_calls evs) → NoDup (enq true evs ++ enq false evs) →
  (∀ rd id, id ∈ enq rd evs → id ∉ live) → calls_wf μ live (comm_calls evs).
Proof.
  induction evs as [|e evs IH]; intros live Hm Hok Hnd Hl; [done|].
  inversion Hm as [|? ? Hme Hm']; subst. destruct e as [|id call|].
  - inversion Hok; subst. by apply IH.
  - destruct Hme as (rd & q & -> & Hq).
    assert (comm_calls (Enqueue id (enqueue_of rd q) :: evs) = (if rd then CuEnqueueRead id q else CuEnqueueWrite id q) :: comm_calls evs)
      as Ec by (by destruct rd).
    rewrite Ec in Hok |- *. inversion Hok as [|? ? Hc Hok']; subst.
    assert (id ∉ live) as Hid by (apply (Hl rd); rewrite enq_cons, enq_id_enqueue, Bool.eqb_reflx; set_solver).
    assert (enq true (Enqueue id (enqueue_of rd q) :: evs) ++ enq false (Enqueue id (enqueue_of rd q) :: evs)
      ≡ₚ id :: enq true evs ++ enq false evs) as Ep.
    { rewrite !enq_cons, !enq_id_enqueue. destruct rd; cbn; [done|]. symmetry. apply Permutation_middle. }
    rewrite Ep in Hnd. apply NoDup_cons in Hnd as [Hn Hnd].
    assert (calls_wf μ ({[id]} ∪ live) (comm_calls evs)) as Hwf.
    { apply IH; try done. intros rd' id' H'. assert (id' ≠ id) by (intros ->; apply Hn; destruct rd'; set_solver).
      assert (id' ∉ live); [|set_solver]. apply (Hl rd'). rewrite enq_cons. set_solver. }
    destruct rd; (split; [done|]; split; [|done]); eapply made_fresh; done.
  - inversion Hok; subst. by apply IH.
Qed.

Section Calls.
Context (cfg : Params) (env : Env).

Lemma cu_calls_app cs cs' md : cu_calls cfg env md (cs ++ cs') = let* md := cu_calls cfg env md cs in cu_calls cfg env md cs'.
Proof.
  unfold cu_calls. revert md. induction cs as [|c cs IH]; intros md; cbn; [done|].
  destruct (cu_call cfg env md c); cbn; [apply IH|done].
Qed.

(** The calls add their requests to those alive. *)
Lemma cu_calls_live evs : ∀ m d m' d' rd,
  cu_calls cfg env (m, d) (comm_calls evs) = Ok (m', d') → live rd m' ≡ₚ live rd m ++ enq rd evs.
Proof.
  induction evs as [|e evs IH]; intros m d m' d' rd H.
  { injection H as <- <-. by rewrite app_nil_r. }
  change (comm_calls (e :: evs)) with (comm_call e ++ comm_calls evs) in H. rewrite cu_calls_app in H.
  apply bind_ok in H as ([m1 d1] & H1 & H). rewrite (IH _ _ _ _ rd H), enq_cons, (assoc_L (++)). f_equiv.
  assert (∀ r id q, live rd (enqueue cfg env r m id q) ≡ₚ live rd m ++ (if Bool.eqb rd r then [id] else [])) as He.
  { intros r id q. unfold live, enqueue, enqueueRead, enqueueWrite, schedule_tick, schedule_at.
    destruct r, rd; cbn; destruct (tickAt m); cbn; rewrite ?app_nil_r; try done; solve_Permutation. }
  destruct e as [|id [|q|q]|]; cbn in H1.
  - injection H1 as <- <-. by rewrite app_nil_r.
  - injection H1 as <- <-. by rewrite app_nil_r.
  - injection H1 as <- <-. rewrite (He true id q). by destruct rd.
  - injection H1 as <- <-. rewrite (He false id q). by destruct rd.
  - unfold cu_calls in H1. cbn in H1. apply bind_ok in H1 as ([m2 d2] & H1 & [= <- <-]).
    apply bind_ok in H1 as (d3 & _ & [= <- <-]). by rewrite app_nil_r.
Qed.
End Calls.

Lemma filter_all (P : nat → Prop) `{∀ x, Decision (P x)} (l : list nat) : (∀ x, x ∈ l → P x) → filter P l = l.
Proof.
  induction l as [|x l IH]; intros Hl; [done|]. rewrite filter_cons_True by (apply Hl; set_solver).
  f_equal. apply IH. set_solver.
Qed.

(** ** Runs *)

(** The tick of the interface starts the engine. *)
Definition starts (d : Dev) : bool :=
  negb (computationNeeded d) && match flags_byte d with Ok b => Z.testbit b 0 | Err _ => false end.

(** The compute unit after a tick that starts it is the initialized one. *)
Lemma tick_starts cfg env {CU} `{ComputeUnit CU} m d (cu : CU) m' d' cu' :
  CommInterface.tick cfg env m d cu = Ok (m', d', cu') → starts d = true →
  ∃ calls, cu_initialize cu = Ok (cu', calls).
Proof.
  unfold CommInterface.tick, checkMMR, starts. intros Hrun Hs. apply andb_true_iff in Hs as [Hc Hb].
  apply negb_true_iff in Hc. apply bind_ok in Hrun as ([[m1 d1] cu1] & Hmmr & Hrun).
  assert (cu' = cu1) as ->.
  { destruct (0 <? _); [apply bind_ok in Hrun as (? & _ & Hrun)|]; by injection Hrun as _ _ <-. }
  rewrite Hc in Hmmr. apply bind_ok in Hmmr as (b & Eb & Hmmr). rewrite Eb in Hb. rewrite Hb in Hmmr.
  apply bind_ok in Hmmr as ([[m2 d2] cu2] & H2 & Hmmr). apply bind_ok in H2 as ([cu3 calls] & Hini & H2).
  apply bind_ok in H2 as (md & _ & [= _ <-]). exists calls.
  assert (cu1 = cu3) as ->; [|done].
  destruct (tickAt m2); [|destruct (processingDone d2)]; by injection Hmmr as _ _ <-.
Qed.

(** A tick of the interface either leaves the compute unit and the requests
    alone, or starts the unit. *)
Lemma tick_cases cfg env μ {CU} `{ComputeUnit CU} m d (cu : CU) m' d' cu' :
  0 < cacheLineSize cfg < 2 ^ 31 → MInv μ m →
  (starts d = true → ∀ cu' calls, cu_initialize cu = Ok (cu', calls) → calls_wf μ (dom (reqs m)) calls) →
  CommInterface.tick cfg env m d cu = Ok (m', d', cu') →
  MInv μ m' ∧ tick_pending m' ∧
  if starts d then
    ∃ calls m1 d1, cu_initialize cu = Ok (cu', calls) ∧
      cu_calls cfg env (set_tickAt m None, started d) calls = Ok (m1, d1) ∧ ∀ rd, live rd m' ≡ₚ live rd m1
  else cu' = cu ∧ ∀ rd, live rd m' ≡ₚ live rd m.
Proof.
  intros Hcls HI Hwf Hrun.
  assert (∀ b, computationNeeded d = false → flags_byte d = Ok b → starts d = Z.testbit b 0) as Hst
    by (intros b Hc Hb; unfold starts; by rewrite Hc, Hb).
  destruct (comm_tick_inv cfg env Hcls μ m d cu m' d' cu' HI) as [HI' Ht]; [|done|].
  { intros Hc b Hb Hbit. apply Hwf. by rewrite (Hst b). }
  split; [done|]. split; [done|]. unfold CommInterface.tick in Hrun.
  apply bind_ok in Hrun as ([[m1 d1] cu1] & Hmmr & Hrun).
  assert (MInv μ m1 → cu' = cu1 ∧ ∀ rd, live rd m' ≡ₚ live rd m1) as Hproc.
  { intros HI1. destruct (0 <? requestsInQueues m1); [|by injection Hrun as <- <- <-].
    apply bind_ok in Hrun as (m2 & Hpr & [= <- <- <-]).
    pose proof (processMemoryRequests_inv cfg env Hcls μ m1 HI1) as Hp. rewrite Hpr in Hp. by split; [|apply Hp]. }
  assert (MInv μ (set_tickAt m None)) as HI0 by (by apply (MInv_same μ m)).
  unfold checkMMR in Hmmr. destruct (computationNeeded d) eqn:Ec.
  { injection Hmmr as <- <- <-. unfold starts. rewrite Ec. by apply Hproc. }
  apply bind_ok in Hmmr as (b & Hb & Hmmr). apply bind_ok in Hmmr as ([[m2 d2] cu2] & H2 & Hmmr).
  assert (∀ P : Prop, (MInv μ m2 → cu' = cu2 ∧ (∀ rd, live rd m' ≡ₚ live rd m2) → P) → MInv μ m2 → P) as Hend.
  { intros P HP HI2. apply HP; [done|]. revert Hmmr. destruct (tickAt m2); [intros [= <- <- <-]; by apply Hproc|].
    destruct (processingDone d2); intros [= <- <- <-]; [|by apply Hproc].
    pose proof (schedule_tick_same cfg env m2) as Hs. destruct Hproc as [-> Hl]; [by eapply MInv_same|].
    split; [done|]. intros rd. by rewrite Hl, (live_same m2). }
  rewrite (Hst b eq_refl Hb). destruct (Z.testbit b 0) eqn:Ebit.
  - apply bind_ok in H2 as ([cu3 calls] & Hini & H2). apply bind_ok in H2 as ([m3 d3] & Hcs & [= <- <- <-]).
    rewrite (Hst b eq_refl Hb) in Hwf. specialize (Hwf Ebit _ _ Hini).
    destruct (cu_calls_inv cfg env Hcls μ calls _ _ _ _ HI0 Hwf Hcs) as [HI3 _].
    revert HI3. apply Hend. intros _ [-> Hl]. exists calls, m3, d3. split_and!; [done| |done].
    unfold started. by rewrite Hb.
  - injection H2 as <- <- <-. revert HI0. apply Hend. intros _ [-> Hl]. split; [done|]. apply Hl.
Qed.

Section Runs.
Context (cfg : Params) (ecfg : Config) (junk : Junk) (cycles : CycleCounts) (is_pipelined : bool)
  (old : MemoryRequest) (file : option string) (μ : nat → Z → Z).

#[local] Abbreviation engine_tick := (engine_tick cfg ecfg old).
#[local] Abbreviation interface_tick := (interface_tick cfg ecfg junk cycles is_pipelined old file).
#[local] Abbreviation accelerator_response := (accelerator_response cfg ecfg junk cycles is_pipelined old file).

(** No line of the program assigns a result to a terminator or a store. *)
Definition program_ok (gv : Z → Z → outcome Z) : Prop :=
  ∀ x e, constructBBList junk cycles is_pipelined gv file = Ok (x, e) →
    Forall (fun b => Forall (fun i => assigned_no_result i = false) (_Nodes b)) (ir_blocks x).

(** One event: the tick of the engine, the tick of the interface, the response
    to a packet, a retry to a stalled port, a register write of the host.  The
    engine is started on a regular program when the run before has left nothing
    behind, and its accesses do not wrap around. *)
Inductive acc_step : Mem * Dev * Engine → Mem * Dev * Engine → Prop :=
  | acc_engine env fuel m d s m' d' e' :
      engine_tick env fuel m d (s, true) = Ok (m', d', e') →
      Forall call_ok (comm_calls (drop (List.length (comm s)) (comm e'.1))) →
      acc_step (m, d, (s, true)) (m', d', e')
  | acc_interface env fuel t m d e m' d' e' :
      tickAt m = Some t → interface_tick env fuel m d e = Ok (m', d', e') →
      (starts d = true → inflight (core e.1) = [] ∧ program_ok (getGlobalVar cfg (started d)) ∧
       Forall call_ok (comm_calls (comm e'.1))) →
      acc_step (m, d, e) (m', d', e')
  | acc_response env fuel m d e k pk data m' e' :
      pkts m !! k = Some pk → shows μ m k pk data →
      accelerator_response env fuel m d e k data = Ok (m', e') →
      acc_step (m, d, e) (m', d, e')
  | acc_retry env m d e pid p m' :
      port_of m pid = Some p → isStalled p = true → recvReqRetry cfg env m pid = Ok m' →
      acc_step (m, d, e) (m', d, e)
  | acc_write env m d e paddr data m' d' :
      write cfg env m d paddr data = Ok (m', d') → acc_step (m, d, e) (m', d', e).

(** After power-on. *)
Definition power_on (n : PortKind → nat) (x : Stats) : Mem * Dev * Engine :=
  (CommInterface_new cfg n, (LLVMInterface_new x, false)).

Record SysInv (a : Mem * Dev * Engine) : Prop := {
  si_mem : MInv μ a.1.1;
  si_tick : tick_pending a.1.1;
  si_graph : LInv assigns a.2.1;
  si_reqs : ∃ done, EInv old done a.2.1;
  si_live : ∀ rd, pending rd (core a.2.1) ≡ₚ Some <$> live rd a.1.1;
  si_running : running a.2.1 = true → a.2.2 = true;
}.

Lemma node_mem_typed w n i : node_typed w cycles n i → mem_typed i.
Proof.
  intros [_ _ _ No _ Nt _ _ _ _].
  assert (∀ t o, _OpCode (st i) = t → op_lookup t = o → class_op (cls i) = o) as OP by (intros ? ? <- <-; done).
  assert (mem_kind (cls i) = op_kind (st i)) as K.
  { unfold op_kind. destruct (String.eqb_spec (_OpCode (st i)) "load") as [E|E1].
    { specialize (OP _ _ E eq_refl). by destruct (cls i). }
    destruct (String.eqb_spec (_OpCode (st i)) "store") as [E|E2].
    { specialize (OP _ _ E eq_refl). by destruct (cls i). }
    destruct (cls i) eqn:Ec; try done; cbn in No;
      [apply (op_lookup_key _ _ "load") in No|apply (op_lookup_key _ _ "store") in No]; by vm_compute || done. }
  split; [done|]. rewrite Nt, <-K. by destruct (cls i).
Qed.

Hypothesis Hcls : 0 < cacheLineSize cfg < 2 ^ 31.
Hypothesis Hlat : latencies_ok cycles.

Lemma boot_einv gv x fuel ir s b :
  program_ok gv → boot junk cycles is_pipelined gv ecfg old x fuel file = Ok (ir, (s, b)) →
  EInv old ∅ s ∧ LInv assigns s ∧ b = running s.
Proof.
  intros Hn H.
  assert (∃ e, constructBBList junk cycles is_pipelined gv file = Ok (ir, e)) as [e He].
  { unfold boot in H. apply bind_ok in H as ([ir' e] & Hc & H). apply bind_ok in H as (? & _ & [= -> _]). by exists e. }
  specialize (Hn _ _ He).
  destruct (booted_start _ _ _ _ _ _ _ _ _ _ _ _ H Hlat Hn) as (s0 & e0 & _ & Hi & Hbb & Hc & Ht).
  pose proof (initial_inv assigns s0 Hi) as L0. destruct Hi as (Hh & Hin & _).
  assert (blocks_mem_typed s0) as Hb.
  { unfold blocks_mem_typed. rewrite Hbb. apply constructBBList_typed in He as [Hty _]. unfold blocks_typed in Hty.
    eapply Forall_impl; [exact Hty|]. intros bb Hbb'. eapply Forall_impl; [exact Hbb'|]. intros i. apply node_mem_typed. }
  assert (EInv old ∅ s0) as E0.
  { apply fresh_einv; try done. intros rd. unfold inflight in Hin.
    apply app_nil in Hin as [_ Hin]. apply app_nil in Hin as [_ Hin]. apply app_nil in Hin as [? ?]. by destruct rd. }
  destruct (tick_einv old assigns ecfg _ ∅ fuel s0 s b E0 L0 Ht) as (E & _ & Hb').
  split_and!; [done| |done]. eapply (step_inv assigns ecfg _ old); [exact L0|by eapply SchedulerInv.step_tick].
Qed.

Lemma power_on_inv n x : SysInv (power_on n x).
Proof.
  destruct (comm_initial_inv (CU := Engine) cfg μ (power_on n x)) as [HI Ht]; [by exists n|].
  split; try done.
  - by apply initial_inv.
  - exists ∅. apply fresh_einv; [done|by intros []|done|constructor].
  - by intros [].
Qed.

(** A request is alive in the interface exactly if the engine waits for it. *)
Lemma live_pending a rd r : SysInv a → r ∈ live rd a.1.1 ↔ Some r ∈ pending rd (core a.2.1).
Proof.
  intros S. rewrite (si_live _ S rd), list_elem_of_fmap. split; [by exists r|]. by intros (? & [= <-] & ?).
Qed.

Lemma pending_enq done s rd r :
  EInv old done s → Some r ∈ pending rd (core s) → r ∈ enq rd (comm s) ∧ r ∉ done.
Proof.
  intros E. rewrite (ei_pend _ _ _ E rd), list_elem_of_fmap. intros (? & [= <-] & H).
  by apply list_elem_of_filter in H as [? ?].
Qed.

(** The calls a tick of the engine makes are those of its new events, with new
    requests. *)
Lemma engine_calls a done s' evs :
  SysInv a → EInv old done a.2.1 → EInv old done s' → comm s' = comm a.2.1 ++ evs →
  Forall call_ok (comm_calls evs) →
  calls_wf μ (dom (reqs a.1.1)) (comm_calls evs) ∧
  (∀ rd, filter (fun id => id ∉ done) (enq rd (comm s')) = filter (fun id => id ∉ done) (enq rd (comm a.2.1)) ++ enq rd evs).
Proof.
  intros S E E' Hc Hok. pose proof (ei_nodup _ _ _ E') as Hnd. pose proof (ei_made _ _ _ E') as Hm.
  rewrite Hc in Hnd, Hm. apply Forall_app in Hm as [_ Hm]. split.
  - eapply calls_wf_events; [done|done| |].
    + rewrite !enq_app in Hnd.
      assert (enq true (comm a.2.1) ++ enq false (comm a.2.1) ++ enq true evs ++ enq false evs
        ≡ₚ (enq true (comm a.2.1) ++ enq true evs) ++ enq false (comm a.2.1) ++ enq false evs) as Ep by solve_Permutation.
      rewrite <-Ep, (assoc_L (++)) in Hnd. by apply NoDup_app in Hnd as (_ & _ & ?).
    + intros rd id Hid Hd. apply elem_of_dom in Hd.
      apply (inv_dom _ _ _ _ (si_mem _ S)), everything_elem in Hd as [rd' Hd].
      assert (id ∈ live rd' a.1.1) as Hl by (unfold live; rewrite elem_of_app; tauto).
      apply live_pending in Hl; [|done]. apply (pending_enq done) in Hl as [Hl _]; [|done].
      by eapply enq_disjoint.
  - intros rd. rewrite Hc, enq_app, filter_app. f_equal. apply filter_all.
    intros id Hid Hd. destruct (ei_done _ _ _ E id Hd) as [rd' Hd']. by eapply enq_disjoint.
Qed.

(** ** The steps keep the invariant *)

Lemma engine_step_inv env fuel m d s m' d' s' b :
  SysInv (m, d, (s, true)) → engine_tick env fuel m d (s, true) = Ok (m', d', (s', b)) →
  Forall call_ok (comm_calls (drop (List.length (comm s)) (comm s'))) → SysInv (m', d', (s', b)).
Proof.
  intros S H Hok. pose proof S as [HI Ht L [done E] Hl Hr]. cbn [fst snd] in *.
  unfold Accelerator.engine_tick in H. apply bind_ok in H as ([s1 b1] & Htk & H).
  apply bind_ok in H as ([m1 d1] & Hcs & [= -> -> -> ->]). cbn [fst snd] in *.
  destruct (tick_einv old assigns ecfg _ done fuel s s' b E L Htk) as (E' & [evs Hc] & Hb).
  rewrite Hc, drop_app_length in Hcs, Hok.
  destruct (engine_calls (m, d, (s, true)) done s' evs S E E' Hc Hok) as [Hwf Hf]. cbn [fst snd] in *.
  destruct (cu_calls_inv cfg env Hcls μ _ m d m' d' HI Hwf Hcs) as [HI' Ht'].
  split; cbn [fst snd]; try done; [by auto|..].
  - eapply (step_inv assigns ecfg _ old); [exact L|by eapply SchedulerInv.step_tick].
  - by exists done.
  - intros rd. rewrite (cu_calls_live cfg env evs m d m' d' rd Hcs), (ei_pend _ _ _ E' rd), Hf, !fmap_app.
    by rewrite <-(ei_pend _ _ _ E rd), Hl.
  - by rewrite Hb.
Qed.

Lemma interface_step_inv env fuel m d e m' d' e' :
  SysInv (m, d, e) → interface_tick env fuel m d e = Ok (m', d', e') →
  (starts d = true → inflight (core e.1) = [] ∧ program_ok (getGlobalVar cfg (started d)) ∧
   Forall call_ok (comm_calls (comm e'.1))) →
  SysInv (m', d', e').
Proof.
  intros S H Hst. pose proof S as [HI Ht L [done E] Hl Hr]. cbn [fst snd] in *.
  unfold Accelerator.interface_tick in H.
  set (cu := engine_unit _ _ _ _ _ _ _ _) in H.
  assert (starts d = true → ∀ rd, live rd m = []) as Hnone.
  { intros Hs rd. destruct (Hst Hs) as [Hin _]. specialize (Hl rd). unfold inflight in Hin.
    apply app_nil in Hin as [_ Hin]. apply app_nil in Hin as [_ Hin]. apply app_nil in Hin as [? ?].
    assert (pending rd (core e.1) = []) as Hp by (unfold pending; by destruct rd; cbn; rewrite ?H0, ?H1).
    rewrite Hp in Hl. symmetry in Hl. apply Permutation_nil_r in Hl. by apply fmap_nil_inv in Hl. }
  assert (starts d = true → dom (reqs m) = ∅) as Hdom.
  { intros Hs. apply set_eq. intros r. split; [|set_solver]. intros Hd%elem_of_dom.
    apply (inv_dom _ _ _ _ HI), everything_elem in Hd as [rd Hd].
    assert (r ∈ live rd m) as Hr0 by (unfold live; rewrite elem_of_app; tauto).
    rewrite (Hnone Hs) in Hr0. by apply elem_of_nil in Hr0. }
  assert (starts d = true → ∀ e1 calls, cu_initialize (ComputeUnit := cu) e = Ok (e1, calls) →
    e1 = e' ∧ calls = comm_calls (comm e'.1) ∧ EInv old ∅ e'.1 ∧ LInv assigns e'.1 ∧
    (running e'.1 = true → e'.2 = true)) as Hboot.
  { intros Hs e1 calls Hini. destruct (tick_starts cfg env m d e m' d' e' H Hs) as [calls' Hini'].
    assert (e1 = e' ∧ calls = calls') as [-> ->] by (split; congruence). cbn in Hini'.
    apply bind_ok in Hini' as ([ir [s b]] & Hb & [= <- <-]). apply boot_einv in Hb as (? & ? & ->); [|by apply Hst].
    split_and!; try done. cbn. intros ->. apply orb_true_r. }
  destruct (tick_cases cfg env μ m d e m' d' e' Hcls HI) as (HI' & Ht' & Hcase); [|exact H|].
  { intros Hs e1 calls Hini. destruct (Hboot Hs e1 calls Hini) as (-> & -> & E' & _). rewrite (Hdom Hs).
    eapply calls_wf_events; [by apply E'|by apply Hst|by apply E'|set_solver]. }
  destruct (starts d) eqn:Hs.
  - destruct Hcase as (calls & m1 & d1 & Hini & Hcs & Hlive).
    destruct (Hboot eq_refl e' calls Hini) as (_ & -> & E' & L' & Hr').
    split; cbn [fst snd]; try done; [by exists ∅|].
    intros rd. rewrite Hlive, (cu_calls_live cfg env _ _ _ _ _ rd Hcs), (ei_pend _ _ _ E' rd).
    change (live rd (set_tickAt m None)) with (live rd m). rewrite (Hnone eq_refl).
    by rewrite filter_all by set_solver.
  - destruct Hcase as [-> Hlive]. split; cbn [fst snd]; try done; [by exists done|].
    intros rd. by rewrite Hlive.
Qed.

Lemma response_step_inv env fuel m d e k pk data m' e' :
  SysInv (m, d, e) → pkts m !! k = Some pk → shows μ m k pk data →
  accelerator_response env fuel m d e k data = Ok (m', e') → SysInv (m', d, e').
Proof.
  intros S Hpk Hd H. pose proof S as [HI Ht L [done E] Hl Hr]. cbn [fst snd] in *.
  unfold Accelerator.accelerator_response in H. set (cu := engine_unit _ _ _ _ _ _ _ _) in H.
  destruct (recvPacket_spec cfg env Hcls μ m k pk data HI Hpk Hd)
    as (rd & r & q & q' & m1 & Hacc & _ & _ & _ & HI1 & Ht1 & _ & _ & _ & _ & _ & _ & _ & Hlive & Heq).
  rewrite Heq in H. destruct (0 <? left_ rd q).
  - injection H as <- <-. split; cbn [fst snd]; try done; [by intros _ _|by exists done|].
    intros rd'. by rewrite Hl, Hlive.
  - apply bind_ok in H as (e1 & Hcommit & [= <- <-]).
    assert (Some r ∈ pending rd (core e.1)) as Hp.
    { apply (live_pending (m, d, e)); [done|]. cbn. unfold live. set_solver. }
    destruct (pending_enq done e.1 rd r E Hp) as [Hin Hnd].
    assert (committed old done rd r e.1 e1.1 ∧ e1.2 = e.2 ∧ LInv assigns e1.1) as (Hc & E2 & L1).
    { destruct rd; cbn in Hcommit; apply bind_ok in Hcommit as (s1 & Hcm & [= <-]).
      - split_and!; [by eapply readCommit_einv|done|]. eapply (step_inv assigns ecfg true old); [exact L|by eapply SchedulerInv.step_read].
      - split_and!; [by eapply writeCommit_einv|done|]. eapply (step_inv assigns ecfg true old); [exact L|by eapply SchedulerInv.step_write]. }
    destruct Hc as [E1 Hleft Hother Hcomm Hrun].
    split; cbn [fst snd]; try done; [by intros _ _|by exists ({[r]} ∪ done)| |by rewrite Hrun, E2].
    intros rd'. destruct (Bool.eqb_spec rd' rd) as [E0|Hne].
    + rewrite E0. apply (Permutation_cons_inv (a := Some r)). rewrite <-Hleft, Hl, Hlive. by rewrite Bool.eqb_reflx.
    + rewrite Hother, Hl, Hlive by done. by rewrite (proj2 (Bool.eqb_false_iff _ _) Hne).
Qed.

Lemma acc_step_inv a a' : acc_step a a' → SysInv a → SysInv a'.
Proof.
  intros Hst S. destruct Hst as [env fuel m d s m' d' [s' b] H Hok|env fuel t m d e m' d' e' _ H Hs
    |env fuel m d e k pk data m' e' Hpk Hd H|env m d e pid p m' Hp Hst H|env m d e a data m' d' H].
  - by eapply engine_step_inv.
  - by eapply interface_step_inv.
  - by eapply response_step_inv.
  - pose proof S as [HI Ht L E Hl Hr]. cbn [fst snd] in *.
    destruct (recvReqRetry_inv cfg env μ m pid p HI Hp Hst) as (m1 & E1 & HI1 & Ht1 & Hq & Hlive).
    rewrite E1 in H. injection H as <-. split; cbn [fst snd]; try done.
    + intros Hlen Hne. apply Ht1, Ht; pose proof (Hq true); pose proof (Hq false); simpl in *; congruence.
    + intros rd. by rewrite Hlive.
  - pose proof S as [HI Ht L E Hl Hr]. cbn [fst snd] in *.
    unfold write in H. apply bind_ok in H as (? & _ & H). apply bind_ok in H as (? & _ & H). injection H as <- _.
    assert (same_mem m (schedule_at m (nextCycle env))) as Hs by (unfold schedule_at; by destruct (tickAt m)).
    split; cbn [fst snd]; try done.
    + by eapply MInv_same.
    + intros _ _. apply schedule_at_scheduled.
    + intros rd. by rewrite (live_same m).
Qed.

Lemma acc_reach_inv n x a : rtc acc_step (power_on n x) a → SysInv a.
Proof.
  intros H. pose proof (power_on_inv n x) as S. induction H as [|a1 a2 a3 Hst _ IH]; [done|].
  apply IH. by eapply acc_step_inv.
Qed.
End Runs.
