(* ===== verification/AcceleratorExamples.v ===== *)
(** A program from its text to the interrupt: the host writes the arguments and
    the run bit, the interface starts the engine, which fetches and updates an
    array through the interface, packet by packet. *)
From stdpp Require Import gmap strings.
From S2P Require Import Prelude Registers MemRequest Instructions Compute FunctionalUnits Parser Scheduler SchedulerInv SchedulerSpec IRFile ParserTypes ParserExamples ParserSpec AddrRange CommInterface CommInv CommSpec EngineRequests Accelerator AcceleratorInv.
From Stdlib Require Import String.

#[local] Open Scope Z_scope.
#[local] Open Scope list_scope.

Definition acc_cfg : Params := CommSpec.ex_cfg.
Definition acc_env : Env := CommSpec.ex_env.
Definition acc_state : Type := Mem * Dev * Engine.
Definition acc_0 : acc_state := power_on acc_cfg (fun k => if decide (k = PLocal) then 1%nat else 0%nat) ex_stats.

(** The events, as functions of the state. *)
Definition host_write (off : Z) (data : list Z) (a : acc_state) : outcome acc_state :=
  let* md := write acc_cfg acc_env a.1.1 a.1.2 (io_addr acc_cfg + off) data in Ok (md, a.2).
Definition do_engine (a : acc_state) : outcome acc_state :=
  engine_tick acc_cfg SchedulerSpec.ex_cfg ex_old acc_env 100 a.1.1 a.1.2 a.2.
Definition do_interface (a : acc_state) : outcome acc_state :=
  interface_tick acc_cfg SchedulerSpec.ex_cfg ir_junk ir_cycles false ex_old (Some ir_text) acc_env 100 a.1.1 a.1.2 a.2.
Definition do_response (k : nat) (data : list Z) (a : acc_state) : outcome acc_state :=
  let* (m, e) := accelerator_response acc_cfg SchedulerSpec.ex_cfg ir_junk ir_cycles false ex_old (Some ir_text) acc_env 100
                   a.1.1 a.1.2 a.2 k data in
  Ok (m, a.1.2, e).

(** A memory that answers every packet in flight. *)
Definition answer_packet (am : acc_state * list Z) (kp : nat * Packet) : outcome (acc_state * list Z) :=
  let (k, pk) := kp in
  match pk_kind pk with
  | PRead => let* data := mem_read am.2 (pk_paddr pk) (pk_size pk) in
             let* a := do_response k data am.1 in Ok (a, am.2)
  | _ => let* mem := mem_write am.2 (pk_paddr pk) (pk_data pk) in
         let* a := do_response k (pk_data pk) am.1 in Ok (a, mem)
  end.

(** A tick of each, then the answers, until the engine stops. *)
Fixpoint run_accelerator (n : nat) (a : acc_state) (mem : list Z) : outcome (acc_state * list Z) :=
  if a.2.2 then
    match n with
    | O => Err OutOfFuel
    | S n =>
        let* a := do_engine a in
        let* a := match tickAt a.1.1 with Some _ => do_interface a | None => Ok a end in
        let* (a, mem) := foldM (fun kp am => answer_packet kp am) (map_to_list (pkts a.1.1)) (a, mem) in
        run_accelerator n a mem
    end
  else Ok (a, mem).

Definition start_accelerator : outcome acc_state :=
  let* a := host_write 8 (le_bytes 8 64 ++ le_bytes 8 3) acc_0 in
  let* a := host_write 0 [1] a in
  do_interface a.

(** The array is updated, the done bit is set, the interrupt has been raised
    and no request is left. *)
Example accelerator_runs :
  (let* a := start_accelerator in
   let* (a, mem) := run_accelerator 100 a ir_memory in
   Ok (drop 64 mem, take 1 (mmreg a.1.2), out a.1.2, map_to_list (reqs a.1.1), running a.2.1))
  = Ok (List.concat (le_bytes 4 <$> [15; 2; 260]) ++ replicate 4 0, [4], [SendInt 68], [], false).
Proof. by vm_compute. Qed.
