(* ===== verification/AcceleratorSpec.v ===== *)
(** The theorem about the accelerator as a whole, and a run of it. *)
From stdpp Require Import gmap strings.
From S2P Require Import Prelude Registers MemRequest Instructions Compute FunctionalUnits Parser Scheduler SchedulerInv SchedulerSpec IRFile ParserTypes ParserExamples ParserSpec AddrRange CommInterface CommInv CommSpec EngineRequests Accelerator AcceleratorInv AcceleratorExamples.
From Stdlib Require Import String.

#[local] Open Scope Z_scope.
#[local] Open Scope list_scope.

(** ** The accelerator *)

(** A call of [finish] comes from the event that asks for it. *)
Lemma finish_event evs : ∀ pre post,
  comm_calls evs = pre ++ CuFinish :: post → ∃ epre epost, evs = epre ++ Finish :: epost ∧ comm_calls epre = pre.
Proof.
  induction evs as [|e evs IH]; intros pre post H; [by destruct pre|].
  change (comm_calls (e :: evs)) with (comm_call e ++ comm_calls evs) in H.
  assert (∀ pre', comm_calls evs = pre' ++ CuFinish :: post → pre = comm_call e ++ pre' →
    ∃ epre epost, e :: evs = epre ++ Finish :: epost ∧ comm_calls epre = pre) as Hcons.
  { intros pre' H' ->. destruct (IH pre' post H') as (epre & epost & -> & <-). by exists (e :: epre), epost. }
  destruct e as [|id [|q|q]|]; cbn in H; try (by eapply Hcons).
  - destruct pre as [|c pre]; [done|]. injection H as <- H. by eapply Hcons.
  - destruct pre as [|c pre]; [done|]. injection H as <- H. by eapply Hcons.
  - destruct pre as [|c pre]; [done|]. injection H as <- H. by eapply Hcons.
  - destruct pre as [|c pre]; [by exists [], evs|]. injection H as <- H. by eapply Hcons.
Qed.

(** Calls without a request leave the requests alone. *)
Lemma cu_calls_none cfg env evs : ∀ m d m' d',
  (∀ rd, enq rd evs = []) → cu_calls cfg env (m, d) (comm_calls evs) = Ok (m', d') → m' = m.
Proof.
  induction evs as [|e evs IH]; intros m d m' d' Hn H; [by injection H as <- <-|].
  assert (∀ rd, enq_id rd e = [] ∧ enq rd evs = []) as Hn' by (intros rd; by apply app_nil, Hn).
  change (comm_calls (e :: evs)) with (comm_call e ++ comm_calls evs) in H. rewrite cu_calls_app in H.
  apply bind_ok in H as ([m1 d1] & H1 & H). apply IH in H; [|apply Hn']. subst m'.
  destruct e as [|id [|q|q]|].
  - by injection H1 as <- <-.
  - by injection H1 as <- <-.
  - by destruct (Hn' true).
  - by destruct (Hn' false).
  - unfold cu_calls in H1. cbn in H1. apply bind_ok in H1 as ([m2 d2] & H1 & [= <- <-]).
    by apply bind_ok in H1 as (d3 & _ & [= <- <-]).
Qed.

(** C31: the accelerator, engine and interface together.  In every state
    reachable from power-on by ticks of the engine, ticks of the interface,
    responses, retries and register writes, in any order: the requests the
    loads and stores in flight wait for are exactly those alive in the
    interface; an engine that runs has its tick scheduled; each load or store in
    flight has its request queued, with a tick of the interface coming, or its
    packet is on its way; with nothing in flight the head of the reservation
    table can launch, or is the [ret] that ends the run; and whenever a tick of
    the engine reports the end of the run, no request is left in the interface. *)
Theorem accelerator_sound cfg ecfg junk cycles is_pipelined old file μ n x m d s sched
    (Hcls : 0 < cacheLineSize cfg < 2 ^ 31) (Hlat : latencies_ok cycles)
    (Hrun : rtc (acc_step cfg ecfg junk cycles is_pipelined old file μ) (power_on cfg n x) (m, d, (s, sched))) :
  (∀ rd, pending rd (core s) ≡ₚ Some <$> live rd m) ∧
  (running s = true → sched = true) ∧
  (∀ rd p, p ∈ equeue rd (core s) → ∃ i r q,
     heap (core s) !! p = Some i ∧ _Req i = Some r ∧ reqs m !! r = Some q ∧
     ((r ∈ queue rd m ∧
       (Z.of_nat (List.length (queue true m)) + Z.of_nat (List.length (queue false m)) < 2 ^ 31 → tickAt m ≠ None)) ∨
      (r ∈ acc rd m ∧ ∃ k pk, mr_pkt q = Some k ∧ pkts m !! k = Some pk))) ∧
  (∀ p r i, reservation (core s) = p :: r → heap (core s) !! p = Some i →
     computeQueue (core s) = [] ∧ Scheduler.readQueue (core s) = [] ∧ Scheduler.writeQueue (core s) = [] →
     (_OpCode (st i) ≠ "ret"%string ∧ _ActiveParents i = 0) ∨
     (_OpCode (st i) = "ret"%string ∧
      ∃ s', reservationStep ecfg (unlimitedMode (limits ecfg)) old s 0 p = Ok (s', 1%nat) ∧
            reservation (core s') = r ∧ running s' = false ∧ comm s' = comm s ++ [Finish])) ∧
  (∀ env fuel s' b pre post m1 d1,
     Scheduler.tick ecfg (unlimitedMode (limits ecfg)) old fuel s = Ok (s', b) →
     comm_calls (drop (List.length (comm s)) (comm s')) = pre ++ CuFinish :: post →
     cu_calls cfg env (m, d) pre = Ok (m1, d1) → reqs m1 = ∅).
Proof.
  pose proof (acc_reach_inv cfg ecfg junk cycles is_pipelined old file μ Hcls Hlat n x _ Hrun) as S.
  pose proof S as [HI Ht L [done E] Hl Hr]. cbn [fst snd] in *.
  assert (∀ rd r, r ∈ live rd m → is_Some (reqs m !! r)) as Halive.
  { intros rd r Hlr. apply (inv_dom _ _ _ _ HI), everything_elem. exists rd. by apply elem_of_app. }
  split_and!; try done.
  - intros rd p Hp. destruct (ei_waits old done s rd p E Hp) as (i & r & Hi & Hri & _).
    assert (r ∈ live rd m) as Hlr.
    { assert (Some r ∈ pending rd (core s)) as H.
      { apply list_elem_of_fmap. exists p. split; [|done]. unfold req_of. by rewrite Hi. }
      rewrite Hl in H. by apply list_elem_of_fmap in H as (? & [= <-] & ?). }
    destruct (Halive rd r Hlr) as [q Hq]. exists i, r, q. split_and!; [done..|].
    apply elem_of_app in Hlr as [Hlr|Hlr].
    + left. split; [done|]. intros Hlen. apply Ht; [done|]. intros [Hn1 Hn2]%app_nil.
      destruct rd; cbn in Hlr; rewrite ?Hn1, ?Hn2 in Hlr; by apply elem_of_nil in Hlr.
    + right. split; [done|]. destruct (inv_flying _ _ _ _ HI rd r q Hlr Hq) as (_ & pk & Hf & _).
      destruct (fl_pkt _ _ _ _ _ Hf) as (k & ? & ?). by exists k, pk.
  - intros p r i Hres Hi Hq. by apply (head_progress assigns).
  - intros env fuel s' b pre post m1 d1 Htk Hcalls Hcs.
    destruct (tick_einv old assigns ecfg _ done fuel s s' b E L Htk) as (E' & [evs Hc] & _).
    rewrite Hc, drop_app_length in Hcalls. apply finish_event in Hcalls as (epre & epost & -> & <-).
    rewrite (assoc_L (++)) in Hc. pose proof (ei_finish _ _ _ E' _ _ Hc) as Hfin.
    assert (∀ rd, enq rd epre = []) as Hnone.
    { intros rd. apply elem_of_nil_inv. intros id Hid.
      assert (id ∈ done) as Hd by (apply (Hfin rd); rewrite enq_app; set_solver).
      destruct (ei_done _ _ _ E id Hd) as [rd' Hd'].
      pose proof (ei_nodup _ _ _ E') as Hnd. rewrite Hc, <-(assoc_L (++)) in Hnd.
      eapply enq_disjoint; [exact Hnd|exact Hd'|]. rewrite enq_app. by apply elem_of_app; left. }
    rewrite (cu_calls_none cfg env epre m d m1 d1 Hnone Hcs).
    apply map_eq. intros r. rewrite lookup_empty. apply eq_None_not_Some. intros Hs.
    apply (inv_dom _ _ _ _ HI), everything_elem in Hs as [rd Hs].
    assert (Some r ∈ pending rd (core s)) as Hp.
    { rewrite Hl. apply list_elem_of_fmap_2. unfold live. rewrite elem_of_app. tauto. }
    apply (pending_enq old done) in Hp as [Hin Hnd]; [|done]. apply Hnd, (Hfin rd). rewrite enq_app. set_solver.
Qed.

(** ** Witness

    The engine has been started and has asked for the first element. *)

Definition got (o : outcome acc_state) : acc_state := match o with Ok a => a | Err _ => acc_0 end.
Definition acc_1 := Eval vm_compute in got (host_write 8 (le_bytes 8 64 ++ le_bytes 8 3) acc_0).
Definition acc_2 := Eval vm_compute in got (host_write 0 [1] acc_1).
Definition acc_3 := Eval vm_compute in got (do_interface acc_2).
Definition acc_4 := Eval vm_compute in got (do_engine acc_3).

Definition acc_mem (_ : nat) (_ : Z) : Z := 0.
#[local] Abbreviation ex_step := (acc_step acc_cfg SchedulerSpec.ex_cfg ir_junk ir_cycles false ex_old (Some ir_text) acc_mem).

Definition call_okb (c : CuCall) : bool :=
  match c with
  | CuEnqueueRead _ q | CuEnqueueWrite _ q =>
      (address q + mr_length q <? 2 ^ 64) && (0 <? mr_length q) && (mr_length q <? 2 ^ 31)
  | _ => true
  end.
Lemma calls_okb cs : forallb call_okb cs = true → Forall call_ok cs.
Proof.
  rewrite forallb_forall, Forall_forall. intros H c Hc%list_elem_of_In%H. destruct c; try done; cbn in *; zbool; done.
Qed.

Lemma acc_host_step off data a a' : host_write off data a = Ok a' → ex_step a a'.
Proof.
  destruct a as [[m d] e]. intros H. apply bind_ok in H as ([m' d'] & Hw & [= <-]).
  by eapply (acc_write _ _ _ _ _ _ _ _ acc_env).
Qed.

Lemma acc_program_ok :
  program_ok ir_junk ir_cycles false (Some ir_text) (getGlobalVar acc_cfg (started acc_2.1.2)).
Proof.
  intros x e H.
  assert (match constructBBList ir_junk ir_cycles false (getGlobalVar acc_cfg (started acc_2.1.2)) (Some ir_text) with
          | Ok (x, _) => regular x | Err _ => true end = true) as R by (vm_compute; reflexivity).
  rewrite H in R. by apply regular_lines.
Qed.

Lemma acc_start_step : ex_step acc_2 acc_3.
Proof.
  eapply (acc_interface _ _ _ _ _ _ _ _ acc_env 100).
  - vm_compute. reflexivity.
  - vm_compute. reflexivity.
  - intros _. split; [vm_compute; reflexivity|]. split; [exact acc_program_ok|].
    apply calls_okb. vm_compute. reflexivity.
Qed.

Lemma acc_engine_step : ex_step acc_3 acc_4.
Proof.
  eapply (acc_engine _ _ _ _ _ _ _ _ acc_env 100).
  - vm_compute. reflexivity.
  - apply calls_okb. vm_compute. reflexivity.
Qed.

Lemma acc_run : rtc ex_step acc_0 acc_4.
Proof.
  apply (rtc_l _ _ acc_1); [apply (acc_host_step 8 (le_bytes 8 64 ++ le_bytes 8 3)); vm_compute; reflexivity|].
  apply (rtc_l _ _ acc_2); [apply (acc_host_step 0 [1]); vm_compute; reflexivity|].
  apply (rtc_l _ _ acc_3); [exact acc_start_step|]. apply rtc_once, acc_engine_step.
Qed.

Lemma accelerator_sound_witness :
  pending true (core acc_4.2.1) = [Some 0%nat] ∧
  pending true (core acc_4.2.1) ≡ₚ Some <$> live true acc_4.1.1.
Proof.
  split; [vm_compute; reflexivity|].
  exact (proj1 (accelerator_sound acc_cfg SchedulerSpec.ex_cfg ir_junk ir_cycles false ex_old (Some ir_text) acc_mem
    (fun k => if decide (k = PLocal) then 1%nat else 0%nat) ex_stats acc_4.1.1 acc_4.1.2 acc_4.2.1 acc_4.2.2
    ex_cls ir_latencies acc_run) true).
Defined.
