(* ===== verification/StreamBuffer.v ===== *)
(** Model of [hwacc/stream_port.hh] and [hwacc/stream_buffer.{hh,cc}]: the
    stream slave port with its busy and retry state, over any device of the
    class [StreamDevice], and the stream buffer, a device on any FIFO of the
    class [ByteFifo].  The theorems say that the port keeps its promise to
    retry, and that a buffer between its two ports hands out exactly the bytes
    it took in, in order. *)
From S2P Require Import Prelude CircularQueue ByteFifo CppFloat.
From Stdlib Require Import Floats.SpecFloat.

(** ** Packets and devices *)

(** The request packet of a stream transfer. *)
Record StreamPkt := mkStreamPkt {
  sp_isRead : bool;
  sp_size : Z;
  sp_data : list Z;
  cacheResponding : bool;
  needsResponse : bool;
  (** [headerDelay + payloadDelay]. *)
  receive_delay : Z;
}.

(** What [StreamSlavePortT<Device>] calls on its device. *)
Class StreamDevice (D : Type) := {
  tvalid : D → Z → bool → bool;
  (** The data put into the packet and the delay returned. *)
  streamRead : D → Z → outcome (list Z * Z * D);
  streamWrite : D → list Z → outcome (Z * D);
  getBandwidth : D → spec_float;
}.

(** [Tick duration = pkt->getSize() * device->getBandwidth()]: the product is
    taken in [double] and truncated. *)
Definition transfer_ticks (size : Z) (bandwidth : spec_float) : outcome Z :=
  fp_to_u64 (fp_apply double_ FpMul (fp_of_int double_ size) bandwidth).

(** ** StreamSlavePortT *)

(** [releaseEvent] is the tick the event is scheduled for, if it is. *)
Record SlavePort := mkSlavePort {
  isBusy : bool;
  retryReq : bool;
  releaseEvent : option Z;
}.
Definition SlavePort_new : SlavePort := mkSlavePort false false None.

(** [release()]; the result says whether [sendRetryReq] is called. *)
Definition release (p : SlavePort) : outcome (SlavePort * bool) :=
  let* _ := assert_ (isBusy p) in
  if retryReq p then Ok (mkSlavePort false false (releaseEvent p), true)
  else Ok (mkSlavePort false false (releaseEvent p), false).

(** The event queue runs [releaseEvent]: it is no longer scheduled. *)
Definition process_release (p : SlavePort) : outcome (SlavePort * bool) :=
  release (mkSlavePort (isBusy p) (retryReq p) None).

(** [EventManager::schedule]: an event is scheduled at most once. *)
Definition schedule_release (p : SlavePort) (when : Z) : outcome SlavePort :=
  let* _ := assert_ (bool_decide (releaseEvent p = None)) in
  Ok (mkSlavePort (isBusy p) (retryReq p) (Some when)).

(** What the master sees: [false], or [true] and perhaps a response, its data
    and the tick it is scheduled for. *)
Inductive Answer :=
  | Refused
  | Accepted (resp : option (list Z * Z)).

Section Port.
Context {D : Type} `{StreamDevice D}.

(** The device ends with [makeAtomicResponse], which asserts that the packet
    needs a response. *)
Definition port_recvAtomic (d : D) (pkt : StreamPkt) : outcome (list Z * Z * D) :=
  let* (data, delay, d) :=
    if sp_isRead pkt then streamRead d (sp_size pkt)
    else let* (delay, d) := streamWrite d (sp_data pkt) in Ok ([], delay, d) in
  let* _ := assert_ (needsResponse pkt) in
  Ok (data, u64 (delay + receive_delay pkt), d).

Definition recvTimingReq (now : Z) (p : SlavePort) (d : D) (pkt : StreamPkt)
    : outcome (SlavePort * D * Answer) :=
  if retryReq p then Ok (p, d, Refused)
  else if isBusy p then Ok (mkSlavePort (isBusy p) true (releaseEvent p), d, Refused)
  else if negb (tvalid d (sp_size pkt) (sp_isRead pkt)) then Ok (p, d, Refused)
  else
    let* _ := panic_if (cacheResponding pkt) in
    let* duration := transfer_ticks (sp_size pkt) (getBandwidth d) in
    let* p :=
      if negb (duration =? 0) then
        let* p := schedule_release p (u64 (now + duration)) in
        Ok (mkSlavePort true (retryReq p) (releaseEvent p))
      else Ok p in
    let* (data, latency, d) := port_recvAtomic d pkt in
    Ok (p, d, Accepted (if needsResponse pkt then Some (data, u64 (now + latency)) else None)).
End Port.

(** [uint64_t data = *(uint64_t * )buff] and [pkt->set<uintN_t>(data, endian)]:
    eight bytes are loaded from a block of [size] bytes, [behind] being what
    lies behind it; the packet gets the low ones, in the guest's byte order. *)
Definition packet_set (behind : list Z) (big_endian : bool) (buff : list Z) (size : Z)
    : outcome (list Z) :=
  let data := le_val (take 8 (buff ++ behind)) in
  if (size =? 1) || (size =? 2) || (size =? 4) || (size =? 8) then
    let bs := le_bytes (Z.to_nat size) data in
    Ok (if big_endian then rev bs else bs)
  else Err Panic.

(** The sizes [streamRead] has a case for. *)
Definition packet_size (k : Z) : Prop := k = 1 ∨ k = 2 ∨ k = 4 ∨ k = 8.
#[export] Instance packet_size_dec k : Decision (packet_size k).
Proof. unfold packet_size. apply _. Defined.

(** The bytes of a block as the guest's byte order puts them into a packet. *)
Definition guest_order (big_endian : bool) (bs : list Z) : list Z :=
  if big_endian then rev bs else bs.

Lemma guest_order_twice be bs : guest_order be (guest_order be bs) = bs.
Proof. destruct be; [apply rev_involutive|done]. Qed.

(** Whatever lies behind the block, the packet gets the bytes of the block. *)
Lemma packet_set_order behind be buff k :
  packet_size k → Z.of_nat (length buff) = k → Forall (inU 8) buff →
  packet_set behind be buff k = Ok (guest_order be buff).
Proof.
  intros Hk Hlen Hb. unfold packet_set.
  replace ((k =? 1) || (k =? 2) || (k =? 4) || (k =? 8)) with true
    by (by destruct Hk as [->|[->|[->| ->]]]).
  rewrite take_app_ge, le_val_app by (unfold packet_size in Hk; lia). rewrite <-Hlen, Nat2Z.id.
  by rewrite le_bytes_app_val.
Qed.
Lemma packet_set_ok behind buff k :
  packet_size k → Z.of_nat (length buff) = k → Forall (inU 8) buff →
  packet_set behind false buff k = Ok buff.
Proof. apply (packet_set_order behind false). Qed.
Lemma packet_set_panic behind be buff k : ¬ packet_size k → packet_set behind be buff k = Err Panic.
Proof.
  intros Hk. unfold packet_set.
  replace ((k =? 1) || (k =? 2) || (k =? 4) || (k =? 8)) with false; [done|]. symmetry.
  rewrite !orb_false_iff, !Z.eqb_neq. unfold packet_size in Hk. lia.
Qed.

(** ** StreamBuffer *)

Record StreamBuffer (Q : Type) := mkStreamBuffer {
  buffer : Q;
  fifoSize : Z;
  big_endian : bool;
  streamAddr : Z;
  streamSize : Z;
  streamDelay : Z;
  bandwidth : spec_float;
}.
Arguments mkStreamBuffer {Q}.
Arguments buffer {Q} _.
Arguments fifoSize {Q} _.
Arguments big_endian {Q} _.
Arguments streamAddr {Q} _.
Arguments streamSize {Q} _.
Arguments streamDelay {Q} _.
Arguments bandwidth {Q} _.

Section Buffer.
Context {Q : Type} `{ByteFifo Q}.
(** What lies behind an allocated block, read when eight bytes are loaded from
    a shorter one. *)
Context (behind : list Z).

Definition set_buffer (b : StreamBuffer Q) (q : Q) : StreamBuffer Q :=
  mkStreamBuffer q (fifoSize b) (big_endian b) (streamAddr b) (streamSize b) (streamDelay b)
    (bandwidth b).

Definition canReadStream (b : StreamBuffer Q) (len : Z) : bool := len <=? bf_size (buffer b).
Definition canWriteStream (b : StreamBuffer Q) (len : Z) : bool :=
  u64 (bf_size (buffer b) + len) <=? fifoSize b.

Definition tryReadStream (b : StreamBuffer Q) (len : Z)
    : outcome (option (list Z) * StreamBuffer Q) :=
  if len <=? bf_size (buffer b) then
    let* (xs, q) := bf_read (buffer b) len in Ok (Some xs, set_buffer b q)
  else Ok (None, b).
Definition tryWriteStream (b : StreamBuffer Q) (src : list Z) : outcome (bool * StreamBuffer Q) :=
  if u64 (bf_size (buffer b) + Z.of_nat (length src)) <=? fifoSize b then
    let* q := bf_write (buffer b) src in Ok (true, set_buffer b q)
  else Ok (false, b).

Definition readStream (b : StreamBuffer Q) (len : Z) : outcome (list Z * StreamBuffer Q) :=
  let* (r, b) := tryReadStream b len in
  match r with Some xs => Ok (xs, b) | None => Err Panic end.
Definition writeStream (b : StreamBuffer Q) (src : list Z) : outcome (StreamBuffer Q) :=
  let* (success, b) := tryWriteStream b src in
  let* _ := panic_if (negb success) in
  Ok b.

Definition sb_tvalid (b : StreamBuffer Q) (len : Z) (isRead : bool) : bool :=
  if isRead then canReadStream b len else canWriteStream b len.

Definition sb_streamRead (b : StreamBuffer Q) (size : Z) : outcome (list Z * Z * StreamBuffer Q) :=
  let* (buff, b) := readStream b size in
  let* data := packet_set behind (big_endian b) buff size in
  let* duration := transfer_ticks size (bandwidth b) in
  Ok (data, duration, b).
Definition sb_streamWrite (b : StreamBuffer Q) (data : list Z) : outcome (Z * StreamBuffer Q) :=
  let* b := writeStream b data in
  Ok (streamDelay b, b).

Definition getStreamAddrRanges (b : StreamBuffer Q) : outcome (list (Z * Z)) :=
  let* _ := assert_ (negb (streamSize b =? 0)) in
  Ok [(streamAddr b, streamSize b)].

#[export] Instance stream_buffer_device : StreamDevice (StreamBuffer Q) := {
  tvalid := sb_tvalid;
  streamRead := sb_streamRead;
  streamWrite := sb_streamWrite;
  getBandwidth := bandwidth;
}.
End Buffer.

(** The constructor: the FIFO and [fifoSize] both take [buffer_size]. *)
Definition StreamBuffer_new (buffer_size : Z) (endian : bool)
    (stream_address stream_size stream_latency : Z) (bw : spec_float) : StreamBuffer CircularQueue :=
  mkStreamBuffer (CircularQueue_new buffer_size) buffer_size endian stream_address stream_size
    stream_latency bw.

(** ** A buffer between its two ports *)

(** A request at the input port, one at the output port, or the release event
    of a port, which runs only when it is scheduled. *)
Inductive StreamEvent :=
  | EvIn (now : Z) (data : list Z)
  | EvOut (now : Z) (size : Z)
  | RelIn
  | RelOut.

Record Channel (Q : Type) := mkChannel {
  ch_buffer : StreamBuffer Q;
  streamIn : SlavePort;
  streamOut : SlavePort;
}.
Arguments mkChannel {Q}.
Arguments ch_buffer {Q} _.
Arguments streamIn {Q} _.
Arguments streamOut {Q} _.

(** The packets of the two masters: [WriteReq] and [ReadReq]. *)
Definition write_pkt (data : list Z) : StreamPkt :=
  mkStreamPkt false (Z.of_nat (length data)) data false true 0.
Definition read_pkt (size : Z) : StreamPkt := mkStreamPkt true size [] false true 0.

Definition answer_data (a : Answer) : list (list Z) :=
  match a with Accepted (Some (data, _)) => [data] | _ => [] end.
Definition accepted (a : Answer) : bool := match a with Accepted _ => true | Refused => false end.

Section Channel.
Context {Q : Type} `{ByteFifo Q} (behind : list Z).

Definition run_release (p : SlavePort) : outcome SlavePort :=
  match releaseEvent p with
  | Some _ => let* (p, _) := process_release p in Ok p
  | None => Ok p
  end.

(** One event, with the bytes that entered and the response that left. *)
Definition stream_event (c : Channel Q) (e : StreamEvent)
    : outcome (Channel Q * list Z * list (list Z)) :=
  let dev := stream_buffer_device behind in
  match e with
  | EvIn now xs =>
      let* (p, b, r) := recvTimingReq now (streamIn c) (ch_buffer c) (write_pkt xs) in
      Ok (mkChannel b p (streamOut c), if accepted r then xs else [], [])
  | EvOut now n =>
      let* (p, b, r) := recvTimingReq now (streamOut c) (ch_buffer c) (read_pkt n) in
      Ok (mkChannel b (streamIn c) p, [], answer_data r)
  | RelIn =>
      let* p := run_release (streamIn c) in Ok (mkChannel (ch_buffer c) p (streamOut c), [], [])
  | RelOut =>
      let* p := run_release (streamOut c) in Ok (mkChannel (ch_buffer c) (streamIn c) p, [], [])
  end.

Fixpoint stream_run (c : Channel Q) (es : list StreamEvent)
    : outcome (Channel Q * list Z * list (list Z)) :=
  match es with
  | [] => Ok (c, [], [])
  | e :: es =>
      let* (c, i, o) := stream_event c e in
      let* (c, ins, outs) := stream_run c es in
      Ok (c, i ++ ins, o ++ outs)
  end.
End Channel.

(** ** The port's protocol *)

(** The release event is scheduled while the port is busy and only then, and a
    promised retry is always for a busy port. *)
Definition port_ok (p : SlavePort) : Prop :=
  (isBusy p = true ↔ is_Some (releaseEvent p)) ∧ (retryReq p = true → isBusy p = true).

Lemma SlavePort_new_ok : port_ok SlavePort_new.
Proof. split; [|done]. by split; [|intros []]. Qed.

Lemma process_release_ok p :
  port_ok p → is_Some (releaseEvent p) →
  process_release p = Ok (SlavePort_new, retryReq p).
Proof.
  intros [Hb _] Hs%Hb. unfold process_release, release. cbn [isBusy retryReq releaseEvent].
  rewrite Hs. by destruct (retryReq p).
Qed.

Lemma run_release_ok p : port_ok p → ∃ p', run_release p = Ok p' ∧ port_ok p'.
Proof.
  intros Hp. unfold run_release. destruct (releaseEvent p) eqn:E; [|by exists p].
  rewrite process_release_ok by (done || by rewrite E). cbn.
  exists SlavePort_new. split; [done|apply SlavePort_new_ok].
Qed.

Section PortProofs.
Context {D : Type} `{StreamDevice D}.

Lemma recvTimingReq_port_ok now p d pkt p' d' a :
  port_ok p → recvTimingReq now p d pkt = Ok (p', d', a) → port_ok p'.
Proof.
  intros [Hb Hr] HR. unfold recvTimingReq in HR.
  destruct (retryReq p) eqn:Er; [mon; split; [done|intros _; by apply Hr]|].
  destruct (isBusy p) eqn:Eb.
  { mon. split; simpl; [exact Hb|done]. }
  destruct (negb _) in HR; [mon; split; [by rewrite Eb|congruence]|].
  apply bind_ok in HR as ([] & _ & HR). apply bind_ok in HR as (t & _ & HR).
  apply bind_ok in HR as (q & Hq & HR). apply bind_ok in HR as ([[dt lt] d1] & _ & HR).
  injection HR as <- <- <-. destruct (negb (t =? 0)).
  - mon. unfold schedule_release in *. mon. split; cbn; [|done]. split; [by eexists|done].
  - mon. split; [by rewrite Eb|congruence].
Qed.

(** A free port serves a valid transfer. *)
Lemma recvTimingReq_serve now p d pkt t data lat d' :
  port_ok p → isBusy p = false → tvalid d (sp_size pkt) (sp_isRead pkt) = true →
  cacheResponding pkt = false → transfer_ticks (sp_size pkt) (getBandwidth d) = Ok t →
  port_recvAtomic d pkt = Ok (data, lat, d') →
  ∃ p', recvTimingReq now p d pkt =
    Ok (p', d', Accepted (if needsResponse pkt then Some (data, u64 (now + lat)) else None)).
Proof.
  intros [Hb Hr] Eb Hv Hc Ht Ha. unfold recvTimingReq.
  destruct (retryReq p); [by rewrite Eb in Hr; discriminate Hr|].
  rewrite Eb, Hv, Hc, Ht. cbn. unfold schedule_release.
  destruct (releaseEvent p) eqn:Ee; [by rewrite (proj2 Hb) in Eb by eauto|].
  destruct (t =? 0); cbn; rewrite Ha; cbn; eauto.
Qed.

(** The retry protocol of the slave port.  On a port in a state it can
    reach, a request that is refused leaves the device unchanged, and either
    a retry is promised, the release event that sends it is scheduled and
    running it frees the port and calls [sendRetryReq]; or the port was free
    and the device said the transfer is not valid.  In this second case nothing
    is remembered: the port sends no retry when the device becomes ready. *)
Theorem refused_then_retried now p d pkt p' d'
    (Hp : port_ok p) (HR : recvTimingReq now p d pkt = Ok (p', d', Refused)) :
  d' = d ∧
  ((is_Some (releaseEvent p') ∧ process_release p' = Ok (SlavePort_new, true)) ∨
   (p' = p ∧ isBusy p = false ∧ retryReq p = false ∧
    tvalid d (sp_size pkt) (sp_isRead pkt) = false)).
Proof.
  pose proof (recvTimingReq_port_ok _ _ _ _ _ _ _ Hp HR) as Hp'.
  pose proof Hp' as [Hb' Hr'].
  assert (retryReq p' = true →
    is_Some (releaseEvent p') ∧ process_release p' = Ok (SlavePort_new, true)) as K.
  { intros Hq. pose proof (proj1 Hb' (Hr' Hq)) as Hs. split; [done|].
    by rewrite process_release_ok, Hq. }
  unfold recvTimingReq in HR. destruct (retryReq p) eqn:Er; [mon; auto|].
  destruct (isBusy p) eqn:Eb; [mon; auto|].
  destruct (tvalid _ _ _) eqn:Ev; simpl in HR; [|mon; auto 6].
  apply bind_ok in HR as ([] & _ & HR). apply bind_ok in HR as (t & _ & HR).
  apply bind_ok in HR as (q & _ & HR). apply bind_ok in HR as ([[dt lt] d1] & _ & HR).
  discriminate HR.
Qed.
End PortProofs.

(** ** The buffer as a device *)

Section BufferProofs.
Context {Q : Type} `{ByteFifoLaws Q} (behind : list Z).

(** The buffer [b] holds the bytes [l]. *)
Definition sb_rep (n : nat) (b : StreamBuffer Q) (l : list Z) : Prop :=
  bf_rep n (buffer b) l ∧ bf_capacity (buffer b) = fifoSize b ∧ Forall (inU 8) l ∧
  fifoSize b < 2 ^ 31.

Lemma sb_weaken n b l : sb_rep (S n) b l → sb_rep n b l.
Proof. intros (R & ?). split; [by apply bf_weaken|done]. Qed.

Lemma sb_fits n b l : sb_rep n b l → Z.of_nat (length l) ≤ fifoSize b < 2 ^ 31.
Proof. intros (R & Hc & _ & Hf). rewrite <-Hc. split; [by eapply bf_bounded|lia]. Qed.

Lemma sb_tvalid_read n b l k : sb_rep n b l → sb_tvalid b k true = (k <=? Z.of_nat (length l)).
Proof. intros (R & _). unfold sb_tvalid, canReadStream. by rewrite (bf_size_ok _ _ _ R). Qed.

Lemma sb_tvalid_write n b l k :
  sb_rep n b l → 0 ≤ k < 2 ^ 32 →
  sb_tvalid b k false = (Z.of_nat (length l) + k <=? fifoSize b).
Proof.
  intros HR Hk. pose proof (sb_fits _ _ _ HR). destruct HR as (R & _).
  unfold sb_tvalid, canWriteStream. rewrite (bf_size_ok _ _ _ R), wrapU_id by (split; lia). done.
Qed.

(** The bytes that leave are the oldest ones, whatever lies behind the
    temporary block; a size without a case panics. *)
Lemma sb_streamRead_ok n b l k t :
  sb_rep n b l → packet_size k → k ≤ Z.of_nat (length l) → transfer_ticks k (bandwidth b) = Ok t →
  ∃ q, sb_streamRead behind b k
         = Ok (guest_order (big_endian b) (take (Z.to_nat k) l), t, set_buffer b q) ∧
    sb_rep n (set_buffer b q) (drop (Z.to_nat k) l).
Proof.
  intros (R & Hc & Hl & Hf) Hk Hkl Ht.
  destruct (bf_read_ok _ _ _ k R) as (q & Hq & R' & Hc'); [unfold packet_size in Hk; lia|].
  assert (k <=? bf_size (buffer b) = true) as Hs.
  { rewrite (bf_size_ok _ _ _ R). by apply Z.leb_le. }
  exists q. split.
  - unfold sb_streamRead, readStream, tryReadStream. rewrite Hs, Hq. cbn [mbind outcome_bind].
    cbn [bandwidth big_endian set_buffer]. rewrite packet_set_order, Ht; [done|done| |by apply Forall_take].
    rewrite length_take. unfold packet_size in Hk. lia.
  - split_and!; [done| |by apply Forall_drop|done]. cbn. by rewrite Hc'.
Qed.

Lemma sb_streamRead_panic n b l k :
  sb_rep n b l → ¬ packet_size k → 0 ≤ k ≤ Z.of_nat (length l) → sb_streamRead behind b k = Err Panic.
Proof.
  intros (R & Hc & Hl & Hf) Hk Hkl. destruct (bf_read_ok _ _ _ k R) as (q & Hq & _); [lia|].
  unfold sb_streamRead, readStream, tryReadStream. rewrite (bf_size_ok _ _ _ R).
  rewrite (proj2 (Z.leb_le _ _)) by lia. rewrite Hq. cbn [mbind outcome_bind]. by rewrite packet_set_panic.
Qed.

Lemma sb_streamWrite_ok n b l xs :
  sb_rep (S n) b l → Forall (inU 8) xs → Z.of_nat (length l + length xs) ≤ fifoSize b →
  ∃ q, sb_streamWrite b xs = Ok (streamDelay b, set_buffer b q) ∧
    sb_rep n (set_buffer b q) (l ++ xs).
Proof.
  intros (R & Hc & Hl & Hf) Hxs Hfit.
  destruct (bf_write_ok _ _ _ xs R) as (q & Hq & R' & Hc'); [by rewrite Hc|].
  exists q. split.
  - unfold sb_streamWrite, writeStream, tryWriteStream. rewrite (bf_size_ok _ _ _ R).
    rewrite wrapU_id by (split; lia). rewrite (proj2 (Z.leb_le _ _)) by lia. by rewrite Hq.
  - split_and!; [done| |by apply Forall_app|done]. cbn. by rewrite Hc'.
Qed.
End BufferProofs.

(** ** Conservation of the stream *)

(** Sizes are [unsigned]. *)
Definition ev_ok (e : StreamEvent) : Prop :=
  match e with
  | EvIn _ xs => Forall (inU 8) xs ∧ Z.of_nat (length xs) < 2 ^ 32
  | EvOut _ k => 0 ≤ k < 2 ^ 32
  | RelIn | RelOut => True
  end.

Section ChannelProofs.
Context {Q : Type} `{ByteFifoLaws Q} (behind : list Z) (be : bool).

(** The transfers the buffer can hold take a representable number of ticks. *)
Definition bw_ok (cap : Z) (bw : spec_float) : Prop :=
  ∀ k, 0 ≤ k ≤ cap → ∃ t, transfer_ticks k bw = Ok t.

Definition ch_rep (n : nat) (c : Channel Q) (l : list Z) : Prop :=
  sb_rep n (ch_buffer c) l ∧ big_endian (ch_buffer c) = be ∧
  bw_ok (fifoSize (ch_buffer c)) (bandwidth (ch_buffer c)) ∧
  port_ok (streamIn c) ∧ port_ok (streamOut c).

(** The stream inside the responses that left. *)
Definition handed_out (outs : list (list Z)) : list Z := outs ≫= guest_order be.

(** A read that is served with a size [streamRead] has no case for. *)
Definition bad_read (c : Channel Q) (l : list Z) (e : StreamEvent) : Prop :=
  match e with
  | EvOut _ k => isBusy (streamOut c) = false ∧ k ≤ Z.of_nat (length l) ∧ ¬ packet_size k
  | _ => False
  end.

(** A request that is not served changes the port only. *)
Lemma recvTimingReq_busy {D} `{StreamDevice D} now p (d : D) pkt :
  port_ok p → isBusy p = true ∨ tvalid d (sp_size pkt) (sp_isRead pkt) = false →
  ∃ p', recvTimingReq now p d pkt = Ok (p', d, Refused) ∧ port_ok p'.
Proof.
  intros Hp Hc.
  assert (∃ p', recvTimingReq now p d pkt = Ok (p', d, Refused)) as [p' HR].
  { unfold recvTimingReq. destruct (retryReq p); [eauto|].
    destruct (isBusy p); [eauto|]. destruct Hc as [Hc|Hc]; [done|]. rewrite Hc. eauto. }
  exists p'. split; [done|]. by eapply recvTimingReq_port_ok.
Qed.

Lemma stream_event_in n c l now xs :
  ch_rep (S n) c l → ev_ok (EvIn now xs) →
  ∃ c' i l', stream_event behind c (EvIn now xs) = Ok (c', i, []) ∧ ch_rep n c' l' ∧ l ++ i = l' ∧
    fifoSize (ch_buffer c') = fifoSize (ch_buffer c).
Proof.
  intros (HB & He & Hbw & Hpi & Hpo) [Hxs Hlen]. cbn [stream_event].
  set (dev := stream_buffer_device behind).
  pose proof (sb_tvalid_write _ _ _ (Z.of_nat (length xs)) HB ltac:(lia)) as Hv.
  pose proof (sb_fits _ _ _ HB) as Hf.
  destruct (isBusy (streamIn c)) eqn:Eb; [|destruct (Z.leb_spec (Z.of_nat (length l) + Z.of_nat (length xs)) (fifoSize (ch_buffer c)))].
  1,3: destruct (recvTimingReq_busy (D := StreamBuffer Q) now (streamIn c) (ch_buffer c) (write_pkt xs) Hpi)
      as (p' & -> & Hp'); [auto|]; cbn; eexists _, [], l;
      split_and!; [done|split_and!; cbn; auto using sb_weaken|by rewrite app_nil_r|done].
  destruct (sb_streamWrite_ok n _ l xs HB Hxs) as (q & Hq & HB'); [lia|].
  destruct (Hbw (Z.of_nat (length xs)) ltac:(lia)) as [t Ht].
  destruct (recvTimingReq_serve (H := dev) now (streamIn c) (ch_buffer c) (write_pkt xs) t []
    (u64 (streamDelay (ch_buffer c) + 0)) (set_buffer (ch_buffer c) q) Hpi Eb Hv eq_refl Ht)
    as (p' & HR); [unfold port_recvAtomic; cbn; by rewrite Hq|].
  pose proof (recvTimingReq_port_ok _ _ _ _ _ _ _ Hpi HR) as Hp'.
  rewrite HR. cbn. eexists _, xs, (l ++ xs). split_and!; [done|by split_and!|done|done].
Qed.

Lemma stream_event_out n c l now k :
  ch_rep n c l → ev_ok (EvOut now k) →
  (∃ c' o l', stream_event behind c (EvOut now k) = Ok (c', [], o) ∧ ch_rep n c' l' ∧
    l = handed_out o ++ l' ∧ fifoSize (ch_buffer c') = fifoSize (ch_buffer c)) ∨
  (bad_read c l (EvOut now k) ∧ stream_event behind c (EvOut now k) = Err Panic).
Proof.
  intros (HB & He & Hbw & Hpi & Hpo) Hk. cbn [stream_event ev_ok bad_read] in *.
  set (dev := stream_buffer_device behind).
  pose proof (sb_tvalid_read _ _ _ k HB) as Hv. pose proof (sb_fits _ _ _ HB) as Hf.
  destruct (isBusy (streamOut c)) eqn:Eb; [|destruct (Z.leb_spec k (Z.of_nat (length l)))].
  1,3: destruct (recvTimingReq_busy (D := StreamBuffer Q) now (streamOut c) (ch_buffer c) (read_pkt k) Hpo)
      as (p' & -> & Hp'); [auto|]; left; cbn; eexists _, [], l;
      split_and!; [done|by split_and!|done|done].
  destruct (Hbw k ltac:(lia)) as [t Ht]. destruct (decide (packet_size k)) as [Hps|Hps].
  - left. destruct (sb_streamRead_ok behind n _ l k t HB Hps) as (q & Hq & HB'); [done|done|].
    destruct (recvTimingReq_serve (H := dev) now (streamOut c) (ch_buffer c) (read_pkt k) t
      (guest_order be (take (Z.to_nat k) l)) (u64 (t + 0)) (set_buffer (ch_buffer c) q) Hpo Eb Hv eq_refl Ht)
      as (p' & HR); [unfold port_recvAtomic; cbn; by rewrite Hq, He|].
    pose proof (recvTimingReq_port_ok _ _ _ _ _ _ _ Hpo HR) as Hp'.
    rewrite HR. cbn. eexists _, [guest_order be (take (Z.to_nat k) l)], (drop (Z.to_nat k) l).
    split_and!; [done|by split_and!| |done].
    unfold handed_out. cbn. by rewrite app_nil_r, guest_order_twice, take_drop.
  - right. split; [done|]. unfold recvTimingReq. destruct Hpo as [Hb Hr].
    destruct (retryReq (streamOut c)); [by rewrite Eb in Hr; discriminate Hr|].
    rewrite Eb. change (tvalid (ch_buffer c) k true) with (sb_tvalid (ch_buffer c) k true).
    cbn [read_pkt sp_size sp_isRead cacheResponding]. cbn [tvalid getBandwidth dev stream_buffer_device].
    rewrite Hv, Ht. cbn. unfold schedule_release.
    destruct (releaseEvent (streamOut c)) eqn:Ee; [by rewrite (proj2 Hb) in Eb by eauto|].
    unfold port_recvAtomic. cbn. rewrite (sb_streamRead_panic behind n _ l k HB Hps) by lia.
    by destruct (t =? 0).
Qed.

Lemma stream_event_ok n c l e :
  ch_rep (S n) c l → ev_ok e →
  (∃ c' i o l', stream_event behind c e = Ok (c', i, o) ∧ ch_rep n c' l' ∧ l ++ i = handed_out o ++ l' ∧
    fifoSize (ch_buffer c') = fifoSize (ch_buffer c)) ∨
  (bad_read c l e ∧ stream_event behind c e = Err Panic).
Proof.
  intros HC He. assert (ch_rep n c l) as HC' by (destruct HC; split; auto using sb_weaken).
  destruct e as [now xs|now k| |].
  - left. destruct (stream_event_in _ _ _ _ _ HC He) as (c' & i & l' & -> & ? & <- & ?).
    exists c', i, [], (l ++ i). done.
  - destruct (stream_event_out _ _ _ _ _ HC' He) as [(c' & o & l' & -> & ? & -> & ?)|?]; [left|by right].
    exists c', [], o, l'. by rewrite app_nil_r.
  - left. destruct HC' as (HB & Hle & Hbw & Hpi & Hpo). cbn.
    destruct (run_release_ok _ Hpi) as (p' & -> & ?). cbn.
    eexists _, [], [], l. rewrite app_nil_r. split_and!; [done|by split_and!|done|done].
  - left. destruct HC' as (HB & Hle & Hbw & Hpi & Hpo). cbn.
    destruct (run_release_ok _ Hpo) as (p' & -> & ?). cbn.
    eexists _, [], [], l. rewrite app_nil_r. split_and!; [done|by split_and!|done|done].
Qed.

(** The run reaches [c] with [l] in the buffer and its stream conserved. *)
Definition conserved (c : Channel Q) (l : list Z) (es : list StreamEvent) (c' : Channel Q)
    (l' : list Z) : Prop :=
  ∃ ins outs, stream_run behind c es = Ok (c', ins, outs) ∧ l ++ ins = handed_out outs ++ l' ∧
    fifoSize (ch_buffer c') = fifoSize (ch_buffer c).

Lemma conserved_cons c l e es c1 i o l1 c' l' :
  stream_event behind c e = Ok (c1, i, o) → l ++ i = handed_out o ++ l1 →
  fifoSize (ch_buffer c1) = fifoSize (ch_buffer c) → conserved c1 l1 es c' l' →
  conserved c l (e :: es) c' l'.
Proof.
  intros Ev E1 F1 (ins & outs & Hr & E2 & F2). exists (i ++ ins), (o ++ outs).
  cbn [stream_run]. rewrite Ev. cbn. rewrite Hr. cbn. split_and!; [done| |congruence].
  unfold handed_out in *. by rewrite app_assoc, E1, <-!app_assoc, E2, bind_app, <-app_assoc.
Qed.

Lemma stream_run_ok es : ∀ c l,
  Forall ev_ok es → ch_rep (length es) c l →
  (∃ c' l', conserved c l es c' l' ∧ ch_rep 0 c' l') ∨
  (∃ es1 e es2 c' l', es = es1 ++ e :: es2 ∧ conserved c l es1 c' l' ∧ ch_rep 0 c' l' ∧ bad_read c' l' e ∧
    stream_run behind c es = Err Panic).
Proof.
  assert (∀ n c l, ch_rep n c l → ch_rep 0 c l) as Hweak.
  { induction n as [|n IH]; intros c l HC; [done|]. apply IH. destruct HC. split; auto using sb_weaken. }
  induction es as [|e es IH]; intros c l Hes HC.
  { left. exists c, l. split; [|done]. exists [], []. by rewrite app_nil_r. }
  apply Forall_cons in Hes as [He Hes].
  destruct (stream_event_ok _ _ _ _ HC He) as [(c1 & i & o & l1 & Ev & HC1 & E1 & F1)|[Hbad Ev]].
  - destruct (IH c1 l1 Hes HC1) as [(c2 & l2 & Hcon & HC2)|(es1 & e2 & es2 & c2 & l2 & -> & Hcon & HC2 & Hb & Hp)].
    + left. exists c2, l2. split; [|done]. by eapply conserved_cons.
    + right. exists (e :: es1), e2, es2, c2, l2. split_and!; [done|by eapply conserved_cons|done|done|].
      cbn [stream_run]. rewrite Ev. cbn. by rewrite Hp.
  - right. exists [], e, es, c, l. split_and!; [done| |by eapply Hweak|done|cbn [stream_run]; by rewrite Ev].
    exists [], []. by rewrite app_nil_r.
Qed.
End ChannelProofs.

(** What a run from a fresh buffer leaves: the bytes handed out, taken out of
    the guest's byte order, followed by the bytes [l] still in the buffer, are
    the bytes accepted. *)
Definition conserves behind (c0 : Channel CircularQueue) be cap es c l : Prop :=
  ∃ ins outs, stream_run behind c0 es = Ok (c, ins, outs) ∧ repr (buffer (ch_buffer c)) l ∧
    handed_out be outs ++ l = ins ∧ Z.of_nat (length l) ≤ cap.

Lemma conserved_conserves behind c0 be cap es c l :
  fifoSize (ch_buffer c0) = cap → conserved behind be c0 [] es c l → ch_rep be 0 c l →
  conserves behind c0 be cap es c l.
Proof.
  intros <- (ins & outs & Hr & E & F) (HB & _). exists ins, outs. pose proof (sb_fits _ _ _ HB) as Hf.
  destruct HB as ([HB _] & _). rewrite F in Hf. split_and!; [done|done|done|lia].
Qed.


(** 80 ticks for each byte. *)
Definition ex_bw : spec_float := fp_of_int double_ 80.

Definition ex_events : list StreamEvent :=
  [EvIn 0 [1; 2; 3]; EvIn 10 [4]; EvOut 20 4; EvOut 30 2; RelIn; EvIn 300 [5]; EvIn 300 [6; 7];
   RelIn; RelOut; EvOut 400 2].


Lemma refused_then_retried_witness :
  let b := StreamBuffer_new 4 false 0 8 1 ex_bw in
  let dev := stream_buffer_device [] in
  let p := mkSlavePort true false (Some 240) in
  let p' := mkSlavePort true true (Some 240) in
  recvTimingReq (H := dev) 10 p b (write_pkt [4]) = Ok (p', b, Refused) ∧
  b = b ∧
  ((is_Some (releaseEvent p') ∧ process_release p' = Ok (SlavePort_new, true)) ∨
   (p' = p ∧ isBusy p = false ∧ retryReq p = false ∧
    tvalid (StreamDevice := dev) b (sp_size (write_pkt [4])) (sp_isRead (write_pkt [4])) = false)).
Proof.
  intros b dev p p'. split; [reflexivity|].
  apply (refused_then_retried (H := dev) 10 p b (write_pkt [4]) p' b); [|reflexivity].
  split; [|done]. split; [by eexists|done].
Defined.
