(* ===== verification/DmaEvents.v ===== *)
(** The events of the two DMA FIFOs ([DmaReadFifo] of [dev/dma_device.cc] and
    [DmaWriteFifo], which have the same nested class [DmaDoneEvent]), the drain
    state and the system they run in. *)
From S2P Require Import Prelude.

(** ** DmaDoneEvent *)

Record DmaDoneEvent := mkDmaDoneEvent {
  _done : bool;
  _canceled : bool;
  _requestSize : Z;
  _data : list Z;
}.
(** [_requestSize] has no initial value. *)
Definition DmaDoneEvent_new (max_size uninit : Z) : DmaDoneEvent :=
  mkDmaDoneEvent false false uninit (replicate (Z.to_nat max_size) 0).
Definition cancel (e : DmaDoneEvent) : DmaDoneEvent :=
  mkDmaDoneEvent (_done e) true (_requestSize e) (_data e).
Definition reset (e : DmaDoneEvent) (size : Z) : outcome DmaDoneEvent :=
  let* _ := assert_ (size <=? Z.of_nat (length (_data e))) in
  Ok (mkDmaDoneEvent false false size (_data e)).
Definition set_done (e : DmaDoneEvent) : outcome DmaDoneEvent :=
  let* _ := assert_ (negb (_done e)) in
  Ok (mkDmaDoneEvent true (_canceled e) (_requestSize e) (_data e)).
(** [buffer.read(event->data(), n)] fills the front of the event's block. *)
Definition set_data (e : DmaDoneEvent) (xs : list Z) : outcome DmaDoneEvent :=
  let* d := mem_write (_data e) 0 xs in
  Ok (mkDmaDoneEvent (_done e) (_canceled e) (_requestSize e) d).

(** ** Draining and the system *)

(** [DrainState] of [sim/drain.hh]. *)
Inductive DrainState := Running | Draining | Drained | Resuming.

(** The system the port belongs to. *)
Record Sys := mkSys {
  bypassCaches : bool;
  cacheLineSize : Z;
  readBlob : Z → Z → list Z;
}.

(** The calls on the interrupt controller. *)
Inductive GicCall := SendInt (n : Z) | ClearInt (n : Z).

(** [size_pending], the sum over [pendingRequests]. *)
Definition size_pending (l : list DmaDoneEvent) : Z :=
  foldl (fun s e => u64 (s + _requestSize e)) 0 l.

Definition signalDrainDone (d : DrainState) : DrainState :=
  match d with Draining => Drained | _ => d end.

(** ** Requests in flight *)

(** A request in flight. *)
Definition pending_ok (m : Z) (e : DmaDoneEvent) : Prop :=
  0 < _requestSize e ≤ m ∧ _canceled e = false.

Lemma size_pending_sum m es s :
  Forall (pending_ok m) es → 0 ≤ s → s + Z.of_nat (length es) * m < 2 ^ 64 →
  s ≤ foldl (fun s e => u64 (s + _requestSize e)) s es ≤ s + Z.of_nat (length es) * m.
Proof.
  revert s. induction es as [|e es IH]; intros s Hes Hs Hb; [simpl; lia|].
  apply Forall_cons in Hes as [[He _] Hes]. cbn [foldl length] in *.
  rewrite (wrapU_id 64) by (unfold inU; nia).
  destruct (IH (s + _requestSize e) Hes); [lia|nia|]. nia.
Qed.
