(* ===== verification/DmaReadFifo.v ===== *)
(** Model of [DmaReadFifo] ([dev/dma_device.{hh,cc}]), the FIFO the stream DMA
    reads memory through, on any FIFO of the class [ByteFifo].  The DMA port is
    outside: the read actions given to it are returned, and an action may
    complete at any later time, in any order, with the bytes it read. *)
From S2P Require Import Prelude CircularQueue ByteFifo DmaEvents.

(** ** The FIFO *)

Record DmaReadFifo (Q : Type) := mkDmaReadFifo {
  maxReqSize : Z;
  fifoSize : Z;
  buffer : Q;
  nextAddr : Z;
  endAddr : Z;
  pendingRequests : list DmaDoneEvent;
  freeRequests : list DmaDoneEvent;
  drainState : DrainState;
}.
Arguments mkDmaReadFifo {Q}.
Arguments maxReqSize {Q} _.
Arguments fifoSize {Q} _.
Arguments buffer {Q} _.
Arguments nextAddr {Q} _.
Arguments endAddr {Q} _.
Arguments pendingRequests {Q} _.
Arguments freeRequests {Q} _.
Arguments drainState {Q} _.

(** [port.dmaAction(MemCmd::ReadReq, addr, size, event, data, 0, flags)]. *)
Record RdAction := mkRdAction { ra_addr : Z; ra_size : Z }.

Section Fifo.
Context {Q : Type} `{ByteFifo Q} (sys : Sys).
Implicit Types f : DmaReadFifo Q.

Definition set_buffer f (q : Q) : DmaReadFifo Q :=
  mkDmaReadFifo (maxReqSize f) (fifoSize f) q (nextAddr f) (endAddr f)
    (pendingRequests f) (freeRequests f) (drainState f).
Definition set_addrs f (next end_ : Z) : DmaReadFifo Q :=
  mkDmaReadFifo (maxReqSize f) (fifoSize f) (buffer f) next end_
    (pendingRequests f) (freeRequests f) (drainState f).
Definition set_requests f (pending free : list DmaDoneEvent) : DmaReadFifo Q :=
  mkDmaReadFifo (maxReqSize f) (fifoSize f) (buffer f) (nextAddr f) (endAddr f)
    pending free (drainState f).
Definition set_drain f (d : DrainState) : DmaReadFifo Q :=
  mkDmaReadFifo (maxReqSize f) (fifoSize f) (buffer f) (nextAddr f) (endAddr f)
    (pendingRequests f) (freeRequests f) d.

Definition rf_size f : Z := bf_size (buffer f).
Definition rf_flush f : DmaReadFifo Q := set_buffer f (bf_flush (buffer f)).
Definition atEndOfBlock f : bool := nextAddr f =? endAddr f.
Definition isActive f : bool :=
  negb (bool_decide (pendingRequests f = []) && atEndOfBlock f).

Definition resumeFillFunctional f : outcome (DmaReadFifo Q) :=
  let fifo_space := u64 (bf_capacity (buffer f) - bf_size (buffer f)) in
  let kvm_watermark := cacheLineSize sys in
  if (kvm_watermark <=? fifo_space) || (bf_capacity (buffer f) <? kvm_watermark) then
    let block_remaining := u64 (endAddr f - nextAddr f) in
    let xfer_size := Z.min fifo_space block_remaining in
    let* _ := assert_ (bool_decide (pendingRequests f = [])) in
    let* q := bf_write (buffer f) (readBlob sys (nextAddr f) xfer_size) in
    Ok (set_addrs (set_buffer f q) (u64 (nextAddr f + xfer_size)) (endAddr f))
  else Ok f.

(** One turn of the loop of [resumeFillTiming] with [event] moved out of the
    front of [freeRequests], [free] the rest. *)
Definition request f (event : DmaDoneEvent) (free : list DmaDoneEvent) (req_size : Z)
    : outcome (DmaReadFifo Q * RdAction) :=
  let* event := reset event req_size in
  let action := mkRdAction (nextAddr f) req_size in
  let f := set_addrs f (u64 (nextAddr f + req_size)) (endAddr f) in
  Ok (set_requests f (pendingRequests f ++ [event]) free, action).

(** [while (!freeRequests.empty() && !atEndOfBlock())], by recursion on the
    list of free requests, of which each turn takes the first. *)
Fixpoint fill_loop f (size_pending : Z) (free : list DmaDoneEvent)
    : outcome (DmaReadFifo Q * list RdAction) :=
  match free with
  | [] => Ok (f, [])
  | event :: free =>
      if atEndOfBlock f then Ok (f, [])
      else
        let req_size := Z.min (maxReqSize f) (u64 (endAddr f - nextAddr f)) in
        if fifoSize f <? u64 (bf_size (buffer f) + size_pending + req_size) then Ok (f, [])
        else
          let* (f, a) := request f event free req_size in
          let* (f, acts) := fill_loop f (u64 (size_pending + req_size)) free in
          Ok (f, a :: acts)
  end.

Definition resumeFillTiming f : outcome (DmaReadFifo Q * list RdAction) :=
  fill_loop f (size_pending (pendingRequests f)) (freeRequests f).

(** The callbacks [onEndOfBlock] and [onIdle] do nothing in this class. *)
Definition resumeFill f : outcome (DmaReadFifo Q * list RdAction) :=
  match drainState f with
  | Draining => Ok (f, [])
  | _ =>
      if bypassCaches sys then let* f := resumeFillFunctional f in Ok (f, [])
      else resumeFillTiming f
  end.

Definition tryGet f (len : Z) : outcome (option (list Z) * DmaReadFifo Q * list RdAction) :=
  if len <=? bf_size (buffer f) then
    let* (dst, q) := bf_read (buffer f) len in
    let* (f, acts) := resumeFill (set_buffer f q) in
    Ok (Some dst, f, acts)
  else Ok (None, f, []).
Definition get f (len : Z) : outcome (list Z * DmaReadFifo Q * list RdAction) :=
  let* (r, f, acts) := tryGet f len in
  match r with Some dst => Ok (dst, f, acts) | None => Err Panic end.

Definition startFill f (start size : Z) : outcome (DmaReadFifo Q * list RdAction) :=
  let* _ := assert_ (atEndOfBlock f) in
  resumeFill (set_addrs f start (u64 (start + size))).

Definition stopFill f : DmaReadFifo Q :=
  let f := set_addrs f (endAddr f) (endAddr f) in
  set_requests f (cancel <$> pendingRequests f) (freeRequests f).

(** [while (!pendingRequests.empty() && pendingRequests.front()->done())]. *)
Fixpoint pending_loop (q : Q) (pending free : list DmaDoneEvent)
    : outcome (Q * list DmaDoneEvent * list DmaDoneEvent) :=
  match pending with
  | [] => Ok (q, [], free)
  | event :: rest =>
      if _done event then
        let* q :=
          if negb (_canceled event) then
            let* xs := mem_read (_data event) 0 (_requestSize event) in bf_write q xs
          else Ok q in
        pending_loop q rest (free ++ [event])
      else Ok (q, pending, free)
  end.

Definition handlePending f : outcome (DmaReadFifo Q) :=
  let* (q, pending, free) := pending_loop (buffer f) (pendingRequests f) (freeRequests f) in
  let f := set_requests (set_buffer f q) pending free in
  Ok (if bool_decide (pending = []) then set_drain f (signalDrainDone (drainState f)) else f).

Definition dmaDone f : outcome (DmaReadFifo Q * list RdAction) :=
  let* f := handlePending f in
  resumeFill f.

(** [DmaDoneEvent::process] of the [i]-th pending request, whose block the DMA
    port has filled with [data]. *)
Definition process f (i : nat) (data : list Z) : outcome (DmaReadFifo Q * list RdAction) :=
  let* e := vec_get (pendingRequests f) i in
  let* e := set_data e data in
  let* e := set_done e in
  dmaDone (set_requests f (<[i:=e]> (pendingRequests f)) (freeRequests f)).

(** [drain()], with the state the drain manager keeps of it. *)
Definition drain f : DmaReadFifo Q :=
  set_drain f (if bool_decide (pendingRequests f = []) then Drained else Draining).
End Fifo.

Definition DmaReadFifo_new (size max_req_size max_pending uninit : Z) : DmaReadFifo CircularQueue :=
  mkDmaReadFifo max_req_size size (CircularQueue_new size) 0 0 []
    (replicate (Z.to_nat max_pending) (DmaDoneEvent_new max_req_size uninit)) Running.

(** ** Actions and the memory they read *)

(** Compute the members of an updated FIFO. *)
Ltac rmembers :=
  cbn [maxReqSize fifoSize buffer nextAddr endAddr pendingRequests freeRequests drainState
       set_buffer set_addrs set_requests set_drain].

Section Actions.
Context (μ : Z → Z).

(** The actions [acts] read consecutive addresses from [a] up to [b]. *)
Fixpoint reads (a : Z) (acts : list RdAction) (b : Z) : Prop :=
  match acts with
  | [] => a = b
  | x :: acts => ra_addr x = a ∧ 0 < ra_size x ∧ reads (a + ra_size x) acts b
  end.
Definition acts_bytes (acts : list RdAction) : list Z :=
  acts ≫= fun x => bytes μ (ra_addr x) (ra_size x).

Lemma reads_app a b c xs ys : reads a xs b → reads b ys c → reads a (xs ++ ys) c.
Proof.
  revert a. induction xs as [|x xs IH]; intros a; simpl; [by intros ->|].
  intros (? & ? & Hx) Hy. split_and!; [done|done|by apply IH].
Qed.

(** Consecutive reads return the memory between their ends. *)
Lemma reads_bytes a b xs : reads a xs b → a ≤ b ∧ acts_bytes xs = bytes μ a (b - a).
Proof.
  revert a. induction xs as [|x xs IH]; intros a; simpl.
  { intros ->. by rewrite Z.sub_diag. }
  intros (<- & Hp & Hx). destruct (IH _ Hx) as [Hle E]. split; [lia|].
  fold (acts_bytes xs). rewrite E, <-bytes_app by lia. f_equal. lia.
Qed.

Lemma acts_bytes_app xs ys : acts_bytes (xs ++ ys) = acts_bytes xs ++ acts_bytes ys.
Proof. apply bind_app. Qed.

(** ** Invariant *)

(** The request [e] in flight reads at [a]; once done its block holds the
    bytes of memory. *)
Record flight_ok (m : Z) (e : DmaDoneEvent) (a : Z) : Prop := {
  fl_pending : pending_ok m e;
  fl_data : Z.of_nat (length (_data e)) = m;
  fl_done : _done e = true → take (Z.to_nat (_requestSize e)) (_data e) = bytes μ a (_requestSize e);
}.

Definition ndone (es : list DmaDoneEvent) : nat := length (filter (fun e => _done e = true) es).
Definition psum (es : list DmaDoneEvent) : Z := foldr (fun e s => _requestSize e + s) 0 es.
(** What the requests in flight will bring. *)
Definition pbytes (es : list DmaDoneEvent) (addrs : list Z) : list Z :=
  mjoin (zip_with (fun e a => bytes μ a (_requestSize e)) es addrs).

Lemma ndone_cons e es : ndone (e :: es) = ((if _done e then 1 else 0) + ndone es)%nat.
Proof. unfold ndone. rewrite filter_cons. by destruct (_done e). Qed.
Lemma ndone_app xs ys : ndone (xs ++ ys) = (ndone xs + ndone ys)%nat.
Proof. unfold ndone. by rewrite filter_app, length_app. Qed.
Lemma psum_app xs ys : psum (xs ++ ys) = psum xs + psum ys.
Proof. induction xs as [|e xs IH]; simpl; lia. Qed.
Lemma pbytes_app es1 es2 as1 as2 :
  length es1 = length as1 → pbytes (es1 ++ es2) (as1 ++ as2) = pbytes es1 as1 ++ pbytes es2 as2.
Proof. intros. unfold pbytes. by rewrite zip_with_app, join_app. Qed.

Lemma size_pending_psum m es :
  Forall (pending_ok m) es → Z.of_nat (length es) * m < 2 ^ 64 → size_pending es = psum es.
Proof.
  intros Hes Hb. unfold size_pending.
  assert (∀ s, 0 ≤ s → s + Z.of_nat (length es) * m < 2 ^ 64 →
    foldl (fun s e => u64 (s + _requestSize e)) s es = s + psum es) as E; [|by rewrite E by lia].
  clear Hb. induction Hes as [|e es [He _] _ IH]; intros s Hs Hb; cbn [foldl psum foldr length] in *; [lia|].
  fold (psum es). rewrite (wrapU_id 64) by (unfold inU; nia). rewrite IH by nia. lia.
Qed.

Lemma psum_le m es : Forall (pending_ok m) es → 0 ≤ psum es ≤ Z.of_nat (length es) * m.
Proof. induction 1 as [|e es [? _] _ IH]; cbn [psum foldr length]; [lia|fold (psum es); nia]. Qed.

Section Invariant.
Context {Q : Type} `{ByteFifoLaws Q}.
Implicit Types f : DmaReadFifo Q.

(** [f] holds the bytes [l], its requests in flight read at [addrs]; [n] more
    of them may be answered. *)
Record RInv (P n : nat) f (addrs l : list Z) : Prop := {
  ri_rep : bf_rep (ndone (pendingRequests f) + n) (buffer f) l;
  ri_cap : bf_capacity (buffer f) = fifoSize f;
  ri_small : fifoSize f < 2 ^ 31;
  ri_max : 0 < maxReqSize f;
  ri_bound : Z.of_nat P * maxReqSize f < 2 ^ 62;
  ri_count : (length (pendingRequests f) + length (freeRequests f))%nat = P;
  ri_pending : Forall2 (flight_ok (maxReqSize f)) (pendingRequests f) addrs;
  ri_free : Forall (fun e => Z.of_nat (length (_data e)) = maxReqSize f) (freeRequests f);
  ri_space : Z.of_nat (length l) + psum (pendingRequests f) ≤ fifoSize f;
  ri_addr : 0 ≤ nextAddr f ≤ endAddr f;
  ri_end : endAddr f < 2 ^ 64;
  ri_run : drainState f = Running;
}.

(** The stream: what is in the FIFO and what is on its way. *)
Definition stream f (addrs l : list Z) : list Z := l ++ pbytes (pendingRequests f) addrs.

Definition rnext_req f : Z := Z.min (maxReqSize f) (endAddr f - nextAddr f).

(** Nothing is in flight only at the end of the block or when the FIFO has no
    room for the next request. *)
Definition rstarved f (l : list Z) : Prop :=
  pendingRequests f = [] →
  nextAddr f = endAddr f ∨ fifoSize f < Z.of_nat (length l) + rnext_req f.

Definition rfront_waits f : Prop :=
  match pendingRequests f with [] => True | e :: _ => _done e = false end.

Lemma flights_pending m es addrs :
  Forall2 (flight_ok m) es addrs → Forall (pending_ok m) es.
Proof. induction 1 as [|e a es addrs []]; by constructor. Qed.

(** From [f], the actions [acts] asked for the next addresses of the block. *)
Record fetched f f' (acts : list RdAction) : Prop := {
  fe_reads : reads (nextAddr f) acts (nextAddr f');
  fe_end : endAddr f' = endAddr f;
  fe_max : maxReqSize f' = maxReqSize f;
  fe_fifo : fifoSize f' = fifoSize f;
  fe_sizes : Forall (fun a => ra_size a ≤ maxReqSize f) acts;
}.

Lemma fetched_refl f : fetched f f [].
Proof. by split. Qed.

Lemma fetched_app f f1 f' a1 a2 : fetched f f1 a1 → fetched f1 f' a2 → fetched f f' (a1 ++ a2).
Proof.
  intros [R1 E1 M1 F1 S1] [R2 E2 M2 F2 S2]. split; try congruence; [by eapply reads_app|].
  apply Forall_app. split; [done|]. by rewrite <-M1.
Qed.

(** A turn of the loop takes one request object for the next addresses. *)
Lemma request_ok P n f e free addrs l :
  RInv P n f addrs l → freeRequests f = e :: free → nextAddr f ≠ endAddr f →
  Z.of_nat (length l) + psum (pendingRequests f) + rnext_req f ≤ fifoSize f →
  ∃ f' e', request f e free (rnext_req f) = Ok (f', mkRdAction (nextAddr f) (rnext_req f)) ∧
    RInv P n f' (addrs ++ [nextAddr f]) l ∧ freeRequests f' = free ∧
    fetched f f' [mkRdAction (nextAddr f) (rnext_req f)] ∧
    buffer f' = buffer f ∧ pendingRequests f' = pendingRequests f ++ [e'] ∧
    _requestSize e' = rnext_req f ∧ _done e' = false.
Proof.
  intros [R Hcap Hsm Hmax Hbd Hcnt Hpend Hdata Hsp Haddr Hend Hrun] Hfree Hne Hfit.
  assert (0 < rnext_req f ≤ maxReqSize f ∧ rnext_req f ≤ endAddr f - nextAddr f) as [Hr Hre]
    by (unfold rnext_req; lia).
  rewrite Hfree in Hdata, Hcnt. simpl in Hcnt. apply Forall_cons in Hdata as [Hed Hdf].
  unfold request, reset. rewrite (proj2 (Z.leb_le _ _)) by lia. cbn [mbind outcome_bind assert_].
  rewrite wrapU_id by (split; lia).
  eexists _, (mkDmaDoneEvent false false (rnext_req f) (_data e)). split; [done|]. split.
  - split; rmembers; try done; try lia.
    + rewrite ndone_app. by rewrite Nat.add_0_r.
    + rewrite length_app. simpl. lia.
    + apply Forall2_app; [done|]. constructor; [|done]. split; [split; cbn; [lia|done]|done|done].
    + rewrite psum_app. simpl. lia.
  - split_and!; try done. split; cbn; try done; [lia|]. by constructor; [cbn; lia|].
Qed.

(** What the loop leaves: the same bytes in the FIFO, more on their way. *)
Record filled (P n : nat) f (addrs l : list Z) f' (acts : list RdAction) : Prop := {
  fd_inv : RInv P n f' (addrs ++ (ra_addr <$> acts)) l;
  fd_fetched : fetched f f' acts;
  fd_pending : ∃ new, pendingRequests f' = pendingRequests f ++ new ∧
    Forall (fun e => _done e = false) new ∧ length new = length acts ∧
    pbytes new (ra_addr <$> acts) = acts_bytes acts;
}.

Lemma filled_refl P n f addrs l : RInv P n f addrs l → filled P n f addrs l f [].
Proof.
  intros. split; [by rewrite app_nil_r|apply fetched_refl|]. exists []. by rewrite app_nil_r.
Qed.

Lemma filled_cons P n f addrs l f1 a e f' acts :
  fetched f f1 [a] → pendingRequests f1 = pendingRequests f ++ [e] →
  _requestSize e = ra_size a → _done e = false →
  filled P n f1 (addrs ++ [ra_addr a]) l f' acts → filled P n f addrs l f' (a :: acts).
Proof.
  intros Hf Hp Hs Hd [HI Hf' (new & Hp' & Hnew & Hlen & Hb)]. split.
  - cbn [fmap list_fmap]. by rewrite <-app_assoc in HI.
  - by apply (fetched_app f f1 f' [a]).
  - exists (e :: new). rewrite Hp', Hp, <-app_assoc. split_and!; [done|by constructor|by simpl; f_equal|].
    change (bytes μ (ra_addr a) (_requestSize e) ++ pbytes new (ra_addr <$> acts)
      = bytes μ (ra_addr a) (ra_size a) ++ acts_bytes acts). by rewrite Hs, Hb.
Qed.

Lemma fill_loop_ok P n free : ∀ f addrs l,
  RInv P n f addrs l → freeRequests f = free →
  ∃ f' acts, fill_loop f (psum (pendingRequests f)) free = Ok (f', acts) ∧
    filled P n f addrs l f' acts ∧ (free ≠ [] → pendingRequests f = [] → rstarved f' l).
Proof.
  induction free as [|e free IH]; intros f addrs l HI Hfree; cbn [fill_loop].
  { exists f, []. split_and!; [done|by apply filled_refl|done]. }
  destruct (Z.eqb_spec (nextAddr f) (endAddr f)) as [Ea|Ea]; unfold atEndOfBlock.
  { rewrite (proj2 (Z.eqb_eq _ _) Ea). exists f, [].
    split_and!; [done|by apply filled_refl|]. intros _ _ _. by left. }
  rewrite (proj2 (Z.eqb_neq _ _) Ea).
  pose proof HI as [R Hcap Hsm Hmax Hbd Hcnt Hpend _ Hsp Haddr Hend _].
  rewrite (wrapU_id 64 (endAddr f - _)) by (split; lia). fold (rnext_req f).
  apply flights_pending in Hpend. pose proof (psum_le _ _ Hpend) as Hps.
  assert (0 < rnext_req f ≤ maxReqSize f) as Hrm by (unfold rnext_req; lia).
  rewrite Hfree in Hcnt. simpl in Hcnt.
  assert (psum (pendingRequests f) + maxReqSize f ≤ Z.of_nat P * maxReqSize f) as Hspb by nia.
  rewrite (bf_size_ok _ _ _ R).
  rewrite (wrapU_id 64 (Z.of_nat (length l) + _ + _)) by (split; lia).
  destruct (Z.ltb_spec (fifoSize f) (Z.of_nat (length l) + psum (pendingRequests f) + rnext_req f)).
  { exists f, []. split_and!; [done|by apply filled_refl|].
    intros _ Hnil _. right. rewrite Hnil in *. simpl in *. lia. }
  destruct (request_ok P n f e free addrs l HI Hfree Ea) as
    (f1 & e' & -> & HI1 & Hf1 & Hfe & _ & Hp1 & Hs1 & Hd1); [lia|].
  cbn [mbind outcome_bind]. rewrite (wrapU_id 64 (psum _ + _)) by (split; lia).
  destruct (IH f1 _ l HI1 Hf1) as (f' & acts & HR & Hfi & _).
  replace (psum (pendingRequests f1)) with (psum (pendingRequests f) + rnext_req f) in HR
    by (rewrite Hp1, psum_app; simpl; lia).
  rewrite HR. cbn [mbind outcome_bind]. eexists f', _. split; [done|]. split.
  - by eapply filled_cons.
  - intros _ _ Hnil. destruct (fd_pending _ _ _ _ _ _ _ Hfi) as (new & Hp & _).
    rewrite Hp, Hp1 in Hnil. by destruct (pendingRequests f).
Qed.

(** ** The operations *)

Context (sys : Sys).
Hypothesis rtiming : bypassCaches sys = false.

(** The state between two operations. *)
Record RReady (P n : nat) f (addrs l : list Z) : Prop := {
  rr_inv : RInv P n f addrs l;
  rr_starved : rstarved f l;
  rr_front : rfront_waits f;
}.

Lemma filled_stream P n f addrs l f' acts :
  RInv P n f addrs l → filled P n f addrs l f' acts →
  stream f' (addrs ++ (ra_addr <$> acts)) l = stream f addrs l ++ acts_bytes acts.
Proof.
  unfold stream. intros HI [_ _ (new & -> & _ & _ & <-)].
  by rewrite pbytes_app, app_assoc by (by eapply Forall2_length, HI).
Qed.

Lemma resumeFill_ready P n f addrs l :
  RInv P n f addrs l → (0 < P)%nat → rfront_waits f →
  ∃ f' acts, resumeFill sys f = Ok (f', acts) ∧ fetched f f' acts ∧
    RReady P n f' (addrs ++ (ra_addr <$> acts)) l ∧
    length (pendingRequests f') = (length (pendingRequests f) + length acts)%nat ∧
    stream f' (addrs ++ (ra_addr <$> acts)) l = stream f addrs l ++ acts_bytes acts.
Proof.
  intros HI HP Hfr. pose proof HI as [_ _ _ Hmax Hbd Hcnt Hpend _ _ _ _ Hrun].
  unfold resumeFill, resumeFillTiming. rewrite Hrun, rtiming.
  rewrite (size_pending_psum (maxReqSize f)) by (by eapply flights_pending || nia).
  destruct (fill_loop_ok P n (freeRequests f) f addrs l HI eq_refl) as (f' & acts & -> & Hfi & Hst).
  exists f', acts. pose proof (filled_stream _ _ _ _ _ _ _ HI Hfi) as Hs.
  destruct Hfi as [HI' Hfe (new & Hp & Hnew & Hlen & _)].
  split_and!; [done|done| |by rewrite Hp, length_app, Hlen|done]. split; [done| |].
  - intros Hnil. rewrite Hp in Hnil. apply app_eq_nil in Hnil as [Hnil ->].
    apply Hst; [|done|by rewrite Hp, Hnil]. intros Hf. rewrite Hnil, Hf in Hcnt. simpl in Hcnt. lia.
  - unfold rfront_waits in *. rewrite Hp. destruct (pendingRequests f); [|done]. by destruct Hnew.
Qed.

(** Handling the finished requests moves their bytes to the FIFO, in order. *)
Lemma rd_pending_loop_ok m pend : ∀ q n addrs l free,
  Forall2 (flight_ok m) pend addrs → bf_rep (ndone pend + n) q l →
  Z.of_nat (length l) + psum pend ≤ bf_capacity q →
  ∃ moved rest am ar q' l', pending_loop q pend free = Ok (q', rest, free ++ moved) ∧
    pend = moved ++ rest ∧ addrs = am ++ ar ∧ length moved = length am ∧
    l' = l ++ pbytes moved am ∧ bf_rep (ndone rest + n) q' l' ∧ bf_capacity q' = bf_capacity q ∧
    Z.of_nat (length l') + psum rest ≤ bf_capacity q ∧
    match rest with [] => True | e :: _ => _done e = false end.
Proof.
  induction pend as [|e pend IH]; intros q n addrs l free Hp R Hsp; cbn [pending_loop].
  { apply Forall2_nil_inv_l in Hp as ->. exists [], [], [], [], q, l.
    by rewrite !app_nil_r. }
  apply Forall2_cons_inv_l in Hp as (a & addrs' & [[He Hc] Hd Hdone] & Hp & ->).
  rewrite ndone_cons in R. cbn [psum foldr] in Hsp. fold (psum pend) in Hsp.
  destruct (_done e) eqn:Ed; [|exists [], (e :: pend), [], (a :: addrs'), q, l].
  2:{ rewrite !app_nil_r, ndone_cons, Ed. split_and!; try done. }
  rewrite Hc, mem_read_ok by lia. cbn [negb mbind outcome_bind].
  change (drop (Z.to_nat 0) (_data e)) with (_data e). rewrite (Hdone eq_refl).
  pose proof (length_bytes μ a (_requestSize e)) as Hlb.
  pose proof (psum_le _ _ (flights_pending _ _ _ Hp)) as Hps.
  destruct (bf_write_ok _ _ _ (bytes μ a (_requestSize e)) R) as (q1 & -> & R1 & C1); [lia|].
  cbn [mbind outcome_bind].
  destruct (IH q1 n addrs' _ (free ++ [e]) Hp R1)
    as (moved & rest & am & ar & q' & l' & -> & -> & -> & Hl & -> & R' & C' & S' & Hr).
  { rewrite C1, length_app. lia. }
  exists (e :: moved), rest, (a :: am), ar, q', (l ++ pbytes (e :: moved) (a :: am)).
  assert ((l ++ bytes μ a (_requestSize e)) ++ pbytes moved am = l ++ pbytes (e :: moved) (a :: am)) as E
    by (by rewrite <-app_assoc).
  rewrite E in *. rewrite <-app_assoc. split_and!; try done; try congruence.
  by simpl; f_equal.
Qed.

Lemma rd_handlePending_ok P n f addrs l :
  RInv P n f addrs l →
  ∃ f' k l', handlePending f = Ok f' ∧ RInv P n f' (drop k addrs) l' ∧ rfront_waits f' ∧
    fetched f f' [] ∧ length (pendingRequests f) = (k + length (pendingRequests f'))%nat ∧
    stream f' (drop k addrs) l' = stream f addrs l.
Proof.
  intros [R Hcap Hsm Hmax Hbd Hcnt Hpend Hdata Hsp Haddr Hend Hrun]. unfold handlePending.
  destruct (rd_pending_loop_ok _ _ _ _ _ _ (freeRequests f) Hpend R)
    as (moved & rest & am & ar & q' & l' & -> & Ep & Ea & Hl & El & R' & C' & S' & Hr); [by rewrite Hcap|].
  cbn [mbind outcome_bind]. rewrite Ep, Ea in Hpend. apply Forall2_app_inv in Hpend as [Hm Hrest]; [|done].
  assert (signalDrainDone (drainState f) = drainState f) as Hsd by by rewrite Hrun.
  assert (RInv P n (set_requests (set_buffer f q') rest (freeRequests f ++ moved)) ar l') as HI.
  { split; rmembers; try done; try congruence.
    - rewrite Ep in Hcnt. rewrite length_app in *. lia.
    - apply Forall_app. split; [done|]. clear -Hm. induction Hm as [|e a es as_ []]; by constructor. }
  eexists _, (length am), l'. rewrite Ea, drop_app_length. split; [done|].
  assert (length (pendingRequests f) = (length am + length rest)%nat) as Hlen
    by (rewrite Ep, length_app; lia).
  assert (l' ++ pbytes rest ar = stream f (am ++ ar) l) as Hst
    by (unfold stream; by rewrite El, Ep, pbytes_app, app_assoc by done).
  case_bool_decide as Hc; [|by split_and!].
  rmembers. rewrite Hsd. by split_and!.
Qed.

Lemma fetched_from f0 f f' acts : fetched f0 f [] → fetched f f' acts → fetched f0 f' acts.
Proof. apply fetched_app. Qed.

(** Marking a request in flight as done, its block filled with the bytes of
    memory. *)
Lemma rd_answer_inv P n f addrs l i e a d :
  RInv P (S n) f addrs l → pendingRequests f !! i = Some e → addrs !! i = Some a →
  _done e = false → length d = length (_data e) →
  take (Z.to_nat (_requestSize e)) d = bytes μ a (_requestSize e) →
  let e' := mkDmaDoneEvent true (_canceled e) (_requestSize e) d in
  let f1 := set_requests f (<[i:=e']> (pendingRequests f)) (freeRequests f) in
  RInv P n f1 addrs l ∧ stream f1 addrs l = stream f addrs l.
Proof.
  intros [R Hcap Hsm Hmax Hbd Hcnt Hpend Hdata Hsp Haddr Hend Hrun] Hi Ha Hd Hdl Hdt e' f1.
  destruct (Forall2_lookup_lr _ _ _ _ _ _ Hpend Hi Ha) as [[Hes Hec] Hel _].
  pose proof (take_drop_middle _ _ _ Hi) as Em. pose proof (lookup_lt_Some _ _ _ Hi) as Hlt.
  assert (<[i:=e']> (pendingRequests f)
    = take i (pendingRequests f) ++ e' :: drop (S i) (pendingRequests f)) as Ei
    by (by apply insert_take_drop).
  split.
  - split; unfold f1; rmembers; try done.
    + rewrite Ei. rewrite <-Em in R. rewrite !ndone_app, !ndone_cons in *. rewrite Hd in R. simpl in *.
      match type of R with bf_rep ?y _ _ => match goal with |- bf_rep ?x _ _ =>
        by replace x with y by lia end end.
    + by rewrite length_insert.
    + rewrite <-(list_insert_id addrs i a Ha). apply Forall2_insert; [done|].
      split; [done|by cbn; lia|done].
    + rewrite Ei. rewrite <-Em in Hsp. rewrite !psum_app in *. exact Hsp.
  - unfold stream, f1. rmembers. f_equal. unfold pbytes. f_equal.
    rewrite <-(list_insert_id addrs i a Ha) at 1. rewrite <-insert_zip_with. apply list_insert_id.
    rewrite lookup_zip_with, Hi. simpl. by rewrite Ha.
Qed.

(** Answering a request in flight with the bytes of memory. *)
Lemma rd_process_ok P n f addrs l i e a :
  RReady P (S n) f addrs l → (0 < P)%nat → pendingRequests f !! i = Some e → addrs !! i = Some a →
  _done e = false →
  ∃ f' acts k l', process sys f i (bytes μ a (_requestSize e)) = Ok (f', acts) ∧ fetched f f' acts ∧
    RReady P n f' (drop k addrs ++ (ra_addr <$> acts)) l' ∧
    (length (pendingRequests f) + length acts = k + length (pendingRequests f'))%nat ∧
    stream f' (drop k addrs ++ (ra_addr <$> acts)) l' = stream f addrs l ++ acts_bytes acts.
Proof.
  intros [HI _ _] HP Hi Ha Hd.
  destruct (Forall2_lookup_lr _ _ _ _ _ _ (ri_pending _ _ _ _ _ HI) Hi Ha) as [[Hes Hec] Hel _].
  unfold process, vec_get. rewrite Hi. cbn [mbind outcome_bind]. unfold set_data.
  destruct (mem_write_prefix (_data e) (bytes μ a (_requestSize e)) 0) as (d & -> & Hdl & Hdt);
    [lia|rewrite length_bytes; lia|]. cbn [mbind outcome_bind].
  unfold set_done. cbn [_done _canceled _requestSize _data]. rewrite Hd. cbn [negb assert_ mbind outcome_bind].
  rewrite length_bytes, Z.add_0_l, Z2Nat.id in Hdt by lia.
  destruct (rd_answer_inv P n f addrs l i e a d HI Hi Ha Hd Hdl Hdt) as [HI1 Es].
  set (f1 := set_requests _ _ _) in *. unfold dmaDone.
  destruct (rd_handlePending_ok P n f1 addrs l HI1) as (f2 & k & l' & -> & HI2 & Hfr & Hf2 & Hk & Hs2).
  cbn [mbind outcome_bind].
  destruct (resumeFill_ready P n f2 _ l' HI2 HP Hfr) as (f' & acts & -> & Hf' & HR & Hlen & Hs').
  exists f', acts, k, l'. split_and!; [done| |done| |by rewrite Hs', Hs2, Es].
  - apply (fetched_from f f2); [by destruct Hf2; split|done].
  - unfold f1 in Hk. revert Hk. rmembers. rewrite length_insert. lia.
Qed.

Lemma rready_weaken P n f addrs l : RReady P (S n) f addrs l → RReady P n f addrs l.
Proof.
  intros [[] ? ?]. split; [split|..]; try done. apply bf_weaken. by rewrite Nat.add_succ_r in *.
Qed.

Lemma rd_tryGet_ok P n f addrs l k :
  RReady P n f addrs l → (0 < P)%nat → 0 ≤ k ≤ Z.of_nat (length l) →
  ∃ f' acts l', tryGet sys f k = Ok (Some (take (Z.to_nat k) l), f', acts) ∧ fetched f f' acts ∧
    RReady P n f' (addrs ++ (ra_addr <$> acts)) l' ∧
    length (pendingRequests f') = (length (pendingRequests f) + length acts)%nat ∧
    take (Z.to_nat k) l ++ stream f' (addrs ++ (ra_addr <$> acts)) l' = stream f addrs l ++ acts_bytes acts.
Proof.
  intros [HI _ Hfr] HP Hk. pose proof HI as [R Hcap Hsm Hmax Hbd Hcnt Hpend Hdata Hsp Haddr Hend Hrun].
  unfold tryGet. rewrite (bf_size_ok _ _ _ R), (proj2 (Z.leb_le _ _)) by lia.
  destruct (bf_read_ok _ _ _ k R Hk) as (q & -> & R' & C'). cbn [mbind outcome_bind].
  assert (RInv P n (set_buffer f q) addrs (drop (Z.to_nat k) l)) as HI'.
  { split; rmembers; try done; try congruence. rewrite length_drop. lia. }
  destruct (resumeFill_ready P n _ _ _ HI' HP Hfr) as (f' & acts & -> & Hf' & HR & Hlen & Hs').
  exists f', acts, (drop (Z.to_nat k) l). split_and!; [done| |done|done|].
  - by apply (fetched_from f (set_buffer f q)).
  - rewrite Hs', app_assoc. f_equal. unfold stream. rmembers. by rewrite app_assoc, take_drop.
Qed.

Lemma rd_startFill_ok P n f addrs l a s :
  RReady P n f addrs l → (0 < P)%nat → atEndOfBlock f = true → 0 ≤ a → 0 ≤ s → a + s < 2 ^ 64 →
  ∃ f' acts, startFill sys f a s = Ok (f', acts) ∧ fetched (set_addrs f a (a + s)) f' acts ∧
    RReady P n f' (addrs ++ (ra_addr <$> acts)) l ∧
    length (pendingRequests f') = (length (pendingRequests f) + length acts)%nat ∧
    stream f' (addrs ++ (ra_addr <$> acts)) l = stream f addrs l ++ acts_bytes acts.
Proof.
  intros [HI _ Hfr] HP He Ha Hs Hb. unfold startFill. rewrite He. cbn [mbind outcome_bind assert_].
  rewrite wrapU_id by (split; lia).
  assert (RInv P n (set_addrs f a (a + s)) addrs l) as HI'
    by (destruct HI; split; rmembers; try done; lia).
  by apply (resumeFill_ready P n _ addrs l HI' HP).
Qed.
End Invariant.
End Actions.

(** ** Sequences of operations *)

(** What the owner of the FIFO and the DMA port do to it: take bytes, when
    there are enough; start a block, once the previous one has been requested;
    answer a request in flight with the bytes memory holds at its address. *)
Inductive ROp :=
  | RGet (len : Z)
  | RStart (start size : Z)
  | RDone (i : nat).

Definition rop_ok (o : ROp) : Prop :=
  match o with
  | RGet k => 0 ≤ k
  | RStart a s => 0 ≤ a ∧ 0 ≤ s ∧ a + s < 2 ^ 64
  | RDone _ => True
  end.
Definition rnot_start (o : ROp) : Prop := match o with RStart _ _ => False | _ => True end.

Section Runs.
Context {Q : Type} `{ByteFifo Q} (sys : Sys) (μ : Z → Z).

(** The addresses of the requests in flight, kept by the DMA port: the
    requests handled since are dropped from the front, the new ones added. *)
Definition track (f f' : DmaReadFifo Q) (addrs : list Z) (acts : list RdAction) : list Z :=
  drop (length (pendingRequests f) + length acts - length (pendingRequests f')) addrs
    ++ (ra_addr <$> acts).

(** The new state, the bytes taken and the actions. *)
Definition rf_op (fa : DmaReadFifo Q * list Z) (o : ROp)
    : outcome (DmaReadFifo Q * list Z * list Z * list RdAction) :=
  let '(f, addrs) := fa in
  match o with
  | RGet k =>
      let* (r, f', acts) := tryGet sys f k in
      Ok (f', track f f' addrs acts, default [] r, acts)
  | RStart a s =>
      if atEndOfBlock f then
        let* (f', acts) := startFill sys f a s in Ok (f', track f f' addrs acts, [], acts)
      else Ok (f, addrs, [], [])
  | RDone i =>
      match pendingRequests f !! i, addrs !! i with
      | Some e, Some a =>
          if _done e then Ok (f, addrs, [], [])
          else
            let* (f', acts) := process sys f i (bytes μ a (_requestSize e)) in
            Ok (f', track f f' addrs acts, [], acts)
      | _, _ => Ok (f, addrs, [], [])
      end
  end.

Fixpoint rf_run (fa : DmaReadFifo Q * list Z) (os : list ROp)
    : outcome (DmaReadFifo Q * list Z * list Z * list RdAction) :=
  match os with
  | [] => Ok (fa.1, fa.2, [], [])
  | o :: os =>
      let* (fa, out, a) := rf_op fa o in
      let* (fa, outs, acts) := rf_run fa os in
      Ok (fa, out ++ outs, a ++ acts)
  end.
End Runs.

Section RunProofs.
Context {Q : Type} `{ByteFifoLaws Q} (sys : Sys) (μ : Z → Z) (P : nat).
Hypothesis rtiming : bypassCaches sys = false.
Hypothesis Ppos : (0 < P)%nat.
Implicit Types f : DmaReadFifo Q.

(** One step of the stream: bytes leave at the front, reads are added behind. *)
Definition rstep f addrs l out f' addrs' l' acts : Prop :=
  out ++ stream μ f' addrs' l' = stream μ f addrs l ++ acts_bytes μ acts.

Lemma track_drop f f' addrs acts k :
  (length (pendingRequests f) + length acts = k + length (pendingRequests f'))%nat →
  track f f' addrs acts = drop k addrs ++ (ra_addr <$> acts).
Proof. intros E. unfold track. by rewrite E, Nat.add_sub. Qed.

Lemma track_app f f' addrs acts :
  length (pendingRequests f') = (length (pendingRequests f) + length acts)%nat →
  track f f' addrs acts = addrs ++ (ra_addr <$> acts).
Proof. intros E. by rewrite (track_drop f f' addrs acts 0). Qed.

(** An operation that does not start a block goes on with the current one. *)
Lemma rf_op_ok n f addrs l o :
  RReady μ P (S n) f addrs l → rop_ok o → rnot_start o →
  ∃ f' addrs' out acts l', rf_op sys μ (f, addrs) o = Ok (f', addrs', out, acts) ∧
    fetched f f' acts ∧ RReady μ P n f' addrs' l' ∧ rstep f addrs l out f' addrs' l' acts.
Proof.
  intros HR Ho Hs. pose proof (rready_weaken _ _ _ _ _ _ HR) as HR'. unfold rstep.
  assert (∃ f' addrs' out acts l', Ok (f, addrs, [], []) = Ok (f', addrs', out, acts) ∧
    fetched f f' acts ∧ RReady μ P n f' addrs' l' ∧
    out ++ stream μ f' addrs' l' = stream μ f addrs l ++ acts_bytes μ acts) as Kidle.
  { exists f, addrs, [], [], l. rewrite app_nil_r. split_and!; [done|apply fetched_refl|done|done]. }
  destruct o as [k| |i]; [|done|]; cbn [rf_op rop_ok] in *.
  - destruct (Z.leb_spec k (Z.of_nat (length l))) as [Hk|Hk].
    + destruct (rd_tryGet_ok μ sys rtiming P n f addrs l k HR' Ppos ltac:(lia))
        as (f' & acts & l' & -> & Hf & HR1 & Hlen & Hst).
      cbn [mbind outcome_bind default]. rewrite track_app by done. by eexists f', _, _, acts, l'.
    + unfold tryGet. rewrite (bf_size_ok _ _ _ (ri_rep _ _ _ _ _ _ (rr_inv _ _ _ _ _ _ HR))).
      rewrite (proj2 (Z.leb_gt _ _)) by lia. cbn [mbind outcome_bind default].
      rewrite track_app by (simpl; lia). rewrite app_nil_r. exact Kidle.
  - destruct (pendingRequests f !! i) as [e|] eqn:Ei; [|exact Kidle].
    destruct (addrs !! i) as [a|] eqn:Ea; [|exact Kidle].
    destruct (_done e) eqn:Ed; [exact Kidle|].
    destruct (rd_process_ok μ sys rtiming P n f addrs l i e a HR Ppos Ei Ea Ed)
      as (f' & acts & k & l' & -> & Hf & HR1 & Hlen & Hst).
    cbn [mbind outcome_bind]. rewrite (track_drop _ _ _ _ k) by done. by eexists f', _, [], acts, l'.
Qed.

Lemma rstep_app f addrs l out f1 addrs1 l1 acts outs f' addrs' l' acts' :
  rstep f addrs l out f1 addrs1 l1 acts → rstep f1 addrs1 l1 outs f' addrs' l' acts' →
  rstep f addrs l (out ++ outs) f' addrs' l' (acts ++ acts').
Proof.
  unfold rstep. intros E1 E2. by rewrite <-app_assoc, E2, app_assoc, E1, acts_bytes_app, app_assoc.
Qed.

Lemma rf_block_ok n os : ∀ f addrs l,
  RReady μ P (length os + n) f addrs l → Forall rop_ok os → Forall rnot_start os →
  ∃ f' addrs' outs acts l', rf_run sys μ (f, addrs) os = Ok (f', addrs', outs, acts) ∧
    fetched f f' acts ∧ RReady μ P n f' addrs' l' ∧ rstep f addrs l outs f' addrs' l' acts.
Proof.
  induction os as [|o os IH]; intros f addrs l HR Hos Hns; cbn [rf_run].
  { exists f, addrs, [], [], l. unfold rstep. rewrite app_nil_r. split_and!; [done|apply fetched_refl|done|done]. }
  apply Forall_cons in Hos as [Ho Hos]. apply Forall_cons in Hns as [Hn Hns].
  destruct (rf_op_ok _ f addrs l o HR Ho Hn) as (f1 & a1 & out & acts1 & l1 & -> & F1 & HR1 & S1).
  cbn [mbind outcome_bind].
  destruct (IH f1 a1 l1 HR1 Hos Hns) as (f' & a' & outs & acts & l' & -> & F2 & HR2 & S2).
  cbn [mbind outcome_bind]. exists f', a', (out ++ outs), (acts1 ++ acts), l'.
  split_and!; [done|by eapply fetched_app|done|by eapply rstep_app].
Qed.

(** Any sequence of operations runs and keeps the order of the stream. *)
Lemma rf_run_ok n os : ∀ f addrs l,
  RReady μ P (length os + n) f addrs l → Forall rop_ok os →
  ∃ f' addrs' outs acts l', rf_run sys μ (f, addrs) os = Ok (f', addrs', outs, acts) ∧
    RReady μ P n f' addrs' l' ∧ maxReqSize f' = maxReqSize f ∧ fifoSize f' = fifoSize f ∧
    rstep f addrs l outs f' addrs' l' acts.
Proof.
  induction os as [|o os IH]; intros f addrs l HR Hos; cbn [rf_run].
  { exists f, addrs, [], [], l. unfold rstep. by rewrite app_nil_r. }
  apply Forall_cons in Hos as [Ho Hos].
  assert (∃ f1 a1 out acts1 l1, rf_op sys μ (f, addrs) o = Ok (f1, a1, out, acts1) ∧
    RReady μ P (length os + n) f1 a1 l1 ∧ maxReqSize f1 = maxReqSize f ∧ fifoSize f1 = fifoSize f ∧
    rstep f addrs l out f1 a1 l1 acts1)
    as (f1 & a1 & out & acts1 & l1 & -> & HR1 & M1 & F1 & S1).
  { destruct o as [k|st sz|i].
    1,3: destruct (rf_op_ok _ f addrs l _ HR Ho I) as (f1 & a1 & out & acts1 & l1 & -> & [] & ? & ?);
      by exists f1, a1, out, acts1, l1.
    cbn [rf_op]. destruct Ho as (? & ? & ?). pose proof (rready_weaken _ _ _ _ _ _ HR) as HR0.
    destruct (atEndOfBlock f) eqn:Ee.
    - destruct (rd_startFill_ok μ sys rtiming P _ f addrs l st sz HR0 Ppos Ee)
        as (f1 & acts1 & -> & [] & HR1 & Hlen & Hst); [done..|]. cbn [mbind outcome_bind].
      rewrite track_app by done. by eexists f1, _, [], acts1, l.
    - exists f, addrs, [], [], l. unfold rstep. by rewrite app_nil_r. }
  cbn [mbind outcome_bind].
  destruct (IH f1 a1 l1 HR1 Hos) as (f' & a' & outs & acts & l' & -> & HR2 & M2 & F2 & S2).
  cbn [mbind outcome_bind]. exists f', a', (out ++ outs), (acts1 ++ acts), l'.
  split_and!; [done|done|congruence|congruence|by eapply rstep_app].
Qed.
End RunProofs.

Section Fresh.
Context (sys : Sys) (μ : Z → Z) (size max_req_size max_pending uninit : Z).

(** The parameters a read FIFO is built with. *)
Definition rparams_ok : Prop :=
  bypassCaches sys = false ∧ 2 ≤ size < 2 ^ 31 ∧ 0 < max_req_size ∧ 0 < max_pending ∧
  max_pending * max_req_size < 2 ^ 62.

Lemma DmaReadFifo_new_ready n :
  rparams_ok → Z.of_nat n < 2 ^ 32 - 2 →
  RReady μ (Z.to_nat max_pending) n (DmaReadFifo_new size max_req_size max_pending uninit) [] [].
Proof.
  intros (_ & Hs & Hm & Hp & Hb) Hn. split; [split|..]; cbn; try done; try lia.
  - by apply cq_fifo_new.
  - apply length_replicate.
  - apply Forall_replicate. cbn. rewrite length_replicate. lia.
  - intros _. by left.
Qed.

(** Running [pre], then starting a block, then running [os]. *)
Lemma rd_session_ok pre a s os :
  rparams_ok → Forall rop_ok pre → Forall rop_ok os → Forall rnot_start os → rop_ok (RStart a s) →
  Z.of_nat (length pre + length os) < 2 ^ 32 - 2 →
  ∃ f0 addrs0 outs0 acts0,
    rf_run sys μ (DmaReadFifo_new size max_req_size max_pending uninit, []) pre
      = Ok (f0, addrs0, outs0, acts0) ∧
    (atEndOfBlock f0 = true →
     ∃ f1 acts1 f addrs outs acts l,
       startFill sys f0 a s = Ok (f1, acts1) ∧
       rf_run sys μ (f1, track f0 f1 addrs0 acts1) os = Ok (f, addrs, outs, acts) ∧
       RReady μ (Z.to_nat max_pending) 0 f addrs l ∧ endAddr f = a + s ∧ fifoSize f = size ∧
       maxReqSize f = max_req_size ∧ reads a (acts1 ++ acts) (nextAddr f) ∧
       Forall (fun x => ra_size x ≤ max_req_size) (acts1 ++ acts) ∧
       (outs0 ++ outs) ++ stream μ f addrs l = acts_bytes μ (acts0 ++ acts1 ++ acts)).
Proof.
  intros HP Hpre Hos Hns (Ha & Hs & Hb) Hn. pose proof HP as (Ht & _ & _ & Hpp & _).
  assert (0 < Z.to_nat max_pending)%nat as Hpos by lia.
  pose proof (DmaReadFifo_new_ready _ HP Hn) as HR.
  destruct (rf_run_ok sys μ _ Ht Hpos (length os) pre _ [] [] HR Hpre)
    as (f0 & addrs0 & outs0 & acts0 & l0 & HR0 & HW0 & M0 & F0 & S0).
  exists f0, addrs0, outs0, acts0. split; [done|]. intros He.
  destruct (rd_startFill_ok μ sys Ht _ _ f0 addrs0 l0 a s HW0 Hpos He Ha Hs Hb)
    as (f1 & acts1 & HR1 & Fe1 & HW1 & Hlen & S1).
  rewrite <-(Nat.add_0_r (length os)) in HW1.
  destruct (rf_block_ok sys μ _ Ht Hpos 0 os f1 _ l0 HW1 Hos Hns)
    as (f & addrs & outs & acts & l & HR2 & Fe2 & HW2 & S2).
  destruct (fetched_app _ _ _ _ _ Fe1 Fe2) as [R E M F Z].
  rewrite <-(track_app f0 f1 addrs0 acts1) in HR2 by done.
  exists f1, acts1, f, addrs, outs, acts, l. cbn in R, E, M, F, Z, M0, F0. split_and!; try congruence.
  - by rewrite M0 in Z.
  - unfold rstep in S0, S2. cbn in S0.
    by rewrite <-app_assoc, S2, S1, !app_assoc, S0, !acts_bytes_app.
Qed.
End Fresh.

(** Memory reaches the stream in order.  A read FIFO that has run any
    sequence of reads, blocks and DMA completions is given a block of [s] bytes
    at [a] and then runs any sequence of reads and completions, these in any
    order.  No panic or assertion stops it; its DMA reads of the block are
    consecutive from [a], never past [a + s] and of bounded size; and the bytes
    handed out are a prefix of the memory of the earlier blocks followed by the
    memory from [a] on, the next bytes of which are in the FIFO. *)
Theorem block_read sys μ size max_req_size max_pending uninit pre a s os
    (HP : rparams_ok sys size max_req_size max_pending)
    (Hpre : Forall rop_ok pre) (Hos : Forall rop_ok os) (Hns : Forall rnot_start os)
    (Hblock : rop_ok (RStart a s)) (Hn : Z.of_nat (length pre + length os) < 2 ^ 32 - 2) :
  ∃ f0 addrs0 outs0 acts0,
    rf_run sys μ (DmaReadFifo_new size max_req_size max_pending uninit, []) pre
      = Ok (f0, addrs0, outs0, acts0) ∧
    (atEndOfBlock f0 = true →
     ∃ f1 acts1 f addrs outs acts l pend,
       startFill sys f0 a s = Ok (f1, acts1) ∧
       rf_run sys μ (f1, track f0 f1 addrs0 acts1) os = Ok (f, addrs, outs, acts) ∧
       reads a (acts1 ++ acts) (nextAddr f) ∧ nextAddr f ≤ a + s ∧
       Forall (fun x => ra_size x ≤ max_req_size) (acts1 ++ acts) ∧ repr (buffer f) l ∧
       (outs0 ++ outs) ++ l ++ pend = acts_bytes μ acts0 ++ bytes μ a (nextAddr f - a)).
Proof.
  destruct (rd_session_ok sys μ size max_req_size max_pending uninit pre a s os)
    as (f0 & addrs0 & outs0 & acts0 & HR0 & HS); [done..|].
  exists f0, addrs0, outs0, acts0. split; [done|]. intros He.
  destruct (HS He) as (f1 & acts1 & f & addrs & outs & acts & l & HR1 & HR & HW & E & _ & _ & R & Z & S).
  destruct HW as [[[Hrep _] _ _ _ _ _ _ _ _ [_ Hle] _ _] _ _]. rewrite E in Hle.
  exists f1, acts1, f, addrs, outs, acts, l, (pbytes μ (pendingRequests f) addrs).
  split_and!; try done. destruct (reads_bytes μ _ _ _ R) as [_ <-].
  rewrite acts_bytes_app in S. exact S.
Qed.

(** A block being read is never stuck.  In the situation of the previous
    theorem the read FIFO stays active only while the oldest request in flight
    has not been answered, or while the FIFO has no room for the next request
    because its bytes have not been taken; otherwise the whole block is in the
    stream. *)
Theorem read_completes sys μ size max_req_size max_pending uninit pre a s os f0 addrs0 outs0 acts0
    f1 acts1 f addrs outs acts
    (HP : rparams_ok sys size max_req_size max_pending)
    (Hpre : Forall rop_ok pre) (Hos : Forall rop_ok os) (Hns : Forall rnot_start os)
    (Hblock : rop_ok (RStart a s)) (Hn : Z.of_nat (length pre + length os) < 2 ^ 32 - 2)
    (HR0 : rf_run sys μ (DmaReadFifo_new size max_req_size max_pending uninit, []) pre
           = Ok (f0, addrs0, outs0, acts0))
    (He : atEndOfBlock f0 = true) (HR1 : startFill sys f0 a s = Ok (f1, acts1))
    (HR : rf_run sys μ (f1, track f0 f1 addrs0 acts1) os = Ok (f, addrs, outs, acts)) :
  ∃ l, repr (buffer f) l ∧
    ((isActive f = true ∧
      ((∃ e, pendingRequests f !! 0%nat = Some e ∧ _done e = false) ∨
       (pendingRequests f = [] ∧
        size < Z.of_nat (length l) + Z.min max_req_size (a + s - nextAddr f)))) ∨
     (isActive f = false ∧ (outs0 ++ outs) ++ l = acts_bytes μ acts0 ++ bytes μ a s)).
Proof.
  destruct (rd_session_ok sys μ size max_req_size max_pending uninit pre a s os)
    as (f0' & addrs0' & outs0' & acts0' & HR0' & HS); [done..|].
  rewrite HR0 in HR0'. injection HR0' as <- <- <- <-.
  destruct (HS He) as (f1' & acts1' & f' & addrs' & outs' & acts' & l & HR1' & HR' & HW & E & F & M & R & _ & S).
  rewrite HR1 in HR1'. injection HR1' as <- <-. rewrite HR in HR'. injection HR' as <- <- <- <-.
  destruct HW as [HI Hst Hfr]. exists l. split; [by destruct HI as [[? _] _]|].
  unfold isActive, atEndOfBlock, rstarved, rfront_waits, stream, rnext_req in *.
  destruct (pendingRequests f) as [|e es]; [|left; eauto].
  destruct (Z.eqb_spec (nextAddr f) (endAddr f)) as [En|En]; [right|left]; cbn.
  - split; [done|]. cbn in S. rewrite app_nil_r, acts_bytes_app in S. rewrite S.
    destruct (reads_bytes μ _ _ _ R) as [_ ->]. repeat f_equal. lia.
  - split; [done|right]. split; [done|]. destruct Hst as [?|Hlt]; [done|done|].
    by rewrite F, M, E in Hlt.
Qed.

(** Requests of at most four bytes, two in flight, answered in the wrong
    order. *)
Definition rd_ex_sys : Sys := mkSys false 64 (fun _ n => replicate (Z.to_nat n) 0).
Definition rd_ex_mem (a : Z) : Z := a mod 256.
Definition rd_ex_pre : list ROp := [RStart 4096 3; RDone 0; RGet 2].
Definition rd_ex_os : list ROp := [RDone 1; RDone 0; RGet 4; RDone 0; RGet 4].

Definition rd_state (r : outcome (DmaReadFifo CircularQueue * list Z * list Z * list RdAction))
    : DmaReadFifo CircularQueue * list Z :=
  match r with Ok (f, addrs, _, _) => (f, addrs) | Err _ => (DmaReadFifo_new 16 4 2 0, []) end.
Definition rd_ex_f0 : DmaReadFifo CircularQueue * list Z :=
  Eval vm_compute in rd_state (rf_run rd_ex_sys rd_ex_mem (DmaReadFifo_new 16 4 2 0, []) rd_ex_pre).
Definition rd_ex_f1 : DmaReadFifo CircularQueue * list Z :=
  Eval vm_compute in rd_state (rf_op rd_ex_sys rd_ex_mem rd_ex_f0 (RStart 8192 9)).
Definition rd_ex_f : DmaReadFifo CircularQueue * list Z :=
  Eval vm_compute in rd_state (rf_run rd_ex_sys rd_ex_mem rd_ex_f1 rd_ex_os).
Definition rd_ex_acts0 : list RdAction := [mkRdAction 4096 3].
Definition rd_ex_acts1 : list RdAction := [mkRdAction 8192 4; mkRdAction 8196 4].

Lemma rd_ex_ok :
  rparams_ok rd_ex_sys 16 4 2 ∧ Forall rop_ok rd_ex_pre ∧ Forall rop_ok rd_ex_os ∧
  Forall rnot_start rd_ex_os.
Proof. split_and!; [split_and!; cbn; lia || done|..]; repeat constructor; cbn; lia. Qed.

Lemma rd_ex_runs :
  rf_run rd_ex_sys rd_ex_mem (DmaReadFifo_new 16 4 2 0, []) rd_ex_pre
    = Ok (rd_ex_f0, [0; 1], rd_ex_acts0) ∧
  atEndOfBlock rd_ex_f0.1 = true ∧
  startFill rd_ex_sys rd_ex_f0.1 8192 9 = Ok (rd_ex_f1.1, rd_ex_acts1) ∧
  rf_run rd_ex_sys rd_ex_mem (rd_ex_f1.1, track rd_ex_f0.1 rd_ex_f1.1 rd_ex_f0.2 rd_ex_acts1) rd_ex_os
    = Ok (rd_ex_f, [2; 0; 1; 2; 3; 4; 5; 6], [mkRdAction 8200 1]).
Proof. do 3 (split; [vm_compute; reflexivity|]). vm_compute. reflexivity. Qed.

Lemma block_read_witness :
  ∃ f0 addrs0 outs0 acts0,
    rf_run rd_ex_sys rd_ex_mem (DmaReadFifo_new 16 4 2 0, []) rd_ex_pre
      = Ok (f0, addrs0, outs0, acts0) ∧
    (atEndOfBlock f0 = true →
     ∃ f1 acts1 f addrs outs acts l pend,
       startFill rd_ex_sys f0 8192 9 = Ok (f1, acts1) ∧
       rf_run rd_ex_sys rd_ex_mem (f1, track f0 f1 addrs0 acts1) rd_ex_os = Ok (f, addrs, outs, acts) ∧
       reads 8192 (acts1 ++ acts) (nextAddr f) ∧ nextAddr f ≤ 8192 + 9 ∧
       Forall (fun x => ra_size x ≤ 4) (acts1 ++ acts) ∧ repr (buffer f) l ∧
       (outs0 ++ outs) ++ l ++ pend
         = acts_bytes rd_ex_mem acts0 ++ bytes rd_ex_mem 8192 (nextAddr f - 8192)).
Proof.
  destruct rd_ex_ok as (? & ? & ? & ?).
  apply (block_read rd_ex_sys rd_ex_mem 16 4 2 0 rd_ex_pre 8192 9 rd_ex_os); [done..|cbn; lia|reflexivity].
Defined.

Lemma read_completes_witness :
  ∃ l, repr (buffer rd_ex_f.1) l ∧
    ((isActive rd_ex_f.1 = true ∧
      ((∃ e, pendingRequests rd_ex_f.1 !! 0%nat = Some e ∧ _done e = false) ∨
       (pendingRequests rd_ex_f.1 = [] ∧
        16 < Z.of_nat (length l) + Z.min 4 (8192 + 9 - nextAddr rd_ex_f.1)))) ∨
     (isActive rd_ex_f.1 = false ∧
      ([0; 1] ++ [2; 0; 1; 2; 3; 4; 5; 6]) ++ l
        = acts_bytes rd_ex_mem rd_ex_acts0 ++ bytes rd_ex_mem 8192 9)).
Proof.
  destruct rd_ex_ok as (? & ? & ? & ?). destruct rd_ex_runs as (? & ? & ? & ?).
  apply (read_completes rd_ex_sys rd_ex_mem 16 4 2 0 rd_ex_pre 8192 9 rd_ex_os rd_ex_f0.1 rd_ex_f0.2
           [0; 1] rd_ex_acts0 rd_ex_f1.1 rd_ex_acts1 rd_ex_f.1 rd_ex_f.2 [2; 0; 1; 2; 3; 4; 5; 6]
           [mkRdAction 8200 1]); try assumption; [cbn; lia|reflexivity].
Defined.
