(* ===== verification/DmaWriteFifo.v ===== *)
(** Model of [hwacc/dma_write_fifo.{hh,cc}]: the FIFO that empties a stream
    into memory by DMA writes, on any FIFO of the class [ByteFifo].  The DMA
    port is outside: the actions given to it are returned, and the completion
    event of an action may be run at any later time, in any order. *)
From S2P Require Import Prelude CircularQueue ByteFifo DmaEvents.

(** ** The FIFO *)

Record DmaWriteFifo (Q : Type) := mkDmaWriteFifo {
  maxReqSize : Z;
  wf_fifoSize : Z;
  wf_buffer : Q;
  nextAddr : Z;
  endAddr : Z;
  pendingRequests : list DmaDoneEvent;
  freeRequests : list DmaDoneEvent;
  drainState : DrainState;
}.
Arguments mkDmaWriteFifo {Q}.
Arguments maxReqSize {Q} _.
Arguments wf_fifoSize {Q} _.
Arguments wf_buffer {Q} _.
Arguments nextAddr {Q} _.
Arguments endAddr {Q} _.
Arguments pendingRequests {Q} _.
Arguments freeRequests {Q} _.
Arguments drainState {Q} _.

(** [port.dmaAction(MemCmd::WriteReq, addr, size, event, data, 0, flags)]: the
    address and the [size] bytes. *)
Record DmaAction := mkDmaAction { da_addr : Z; da_data : list Z }.

Section Fifo.
Context {Q : Type} `{ByteFifo Q} (sys : Sys).
Implicit Types f : DmaWriteFifo Q.

Definition set_wf_buffer f (q : Q) : DmaWriteFifo Q :=
  mkDmaWriteFifo (maxReqSize f) (wf_fifoSize f) q (nextAddr f) (endAddr f)
    (pendingRequests f) (freeRequests f) (drainState f).
Definition set_addrs f (next end_ : Z) : DmaWriteFifo Q :=
  mkDmaWriteFifo (maxReqSize f) (wf_fifoSize f) (wf_buffer f) next end_
    (pendingRequests f) (freeRequests f) (drainState f).
Definition set_requests f (pending free : list DmaDoneEvent) : DmaWriteFifo Q :=
  mkDmaWriteFifo (maxReqSize f) (wf_fifoSize f) (wf_buffer f) (nextAddr f) (endAddr f)
    pending free (drainState f).
Definition set_drain f (d : DrainState) : DmaWriteFifo Q :=
  mkDmaWriteFifo (maxReqSize f) (wf_fifoSize f) (wf_buffer f) (nextAddr f) (endAddr f)
    (pendingRequests f) (freeRequests f) d.

Definition wf_size f : Z := bf_size (wf_buffer f).
Definition wf_flush f : DmaWriteFifo Q := set_wf_buffer f (bf_flush (wf_buffer f)).
Definition atEndOfBlock f : bool := nextAddr f =? endAddr f.
Definition isActive f : bool :=
  negb (bool_decide (pendingRequests f = []) && atEndOfBlock f).

Definition canFill f (len : Z) : bool :=
  u64 (bf_size (wf_buffer f) + len) <=? wf_fifoSize f.

Definition resumeEmptyFunctional f : outcome (DmaWriteFifo Q) :=
  let fifo_space := u64 (bf_capacity (wf_buffer f) - bf_size (wf_buffer f)) in
  let kvm_watermark := cacheLineSize sys in
  if (kvm_watermark <=? fifo_space) || (bf_capacity (wf_buffer f) <? kvm_watermark) then
    let block_remaining := u64 (endAddr f - nextAddr f) in
    let xfer_size := Z.min fifo_space block_remaining in
    let* _ := assert_ (bool_decide (pendingRequests f = [])) in
    let* q := bf_write (wf_buffer f) (readBlob sys (nextAddr f) xfer_size) in
    Ok (set_addrs (set_wf_buffer f q) (u64 (nextAddr f + xfer_size)) (endAddr f))
  else Ok f.

(** One turn of the loop of [resumeEmptyTiming] with [event] moved out of the
    front of [freeRequests], [free] the rest. *)
Definition issue f (event : DmaDoneEvent) (free : list DmaDoneEvent) (req_size : Z)
    : outcome (DmaWriteFifo Q * DmaAction) :=
  let* event := reset event req_size in
  let* (xs, q) := bf_read (wf_buffer f) req_size in
  let* event := set_data event xs in
  let* data := mem_read (_data event) 0 req_size in
  let action := mkDmaAction (nextAddr f) data in
  let f := set_wf_buffer f q in
  let f := set_addrs f (u64 (nextAddr f + req_size)) (endAddr f) in
  Ok (set_requests f (pendingRequests f ++ [event]) free, action).

(** [while (!freeRequests.empty() && !atEndOfBlock())], by recursion on the
    list of free requests, of which each turn takes the first. *)
Fixpoint empty_loop f (size_pending : Z) (free : list DmaDoneEvent)
    : outcome (DmaWriteFifo Q * list DmaAction) :=
  match free with
  | [] => Ok (f, [])
  | event :: free =>
      if atEndOfBlock f then Ok (f, [])
      else
        let req_size := Z.min (maxReqSize f) (u64 (endAddr f - nextAddr f)) in
        if s64 (bf_size (wf_buffer f) - size_pending - req_size) <? 0 then Ok (f, [])
        else
          let* (f, a) := issue f event free req_size in
          let* (f, acts) := empty_loop f (u64 (size_pending + req_size)) free in
          Ok (f, a :: acts)
  end.

Definition resumeEmptyTiming f : outcome (DmaWriteFifo Q * list DmaAction) :=
  empty_loop f (size_pending (pendingRequests f)) (freeRequests f).

(** The callbacks [onEndOfBlock] and [onIdle] do nothing in this class. *)
Definition resumeEmpty f : outcome (DmaWriteFifo Q * list DmaAction) :=
  match drainState f with
  | Draining => Ok (f, [])
  | _ =>
      if bypassCaches sys then let* f := resumeEmptyFunctional f in Ok (f, [])
      else resumeEmptyTiming f
  end.

Definition tryFill f (src : list Z) : outcome (bool * DmaWriteFifo Q * list DmaAction) :=
  if u64 (bf_size (wf_buffer f) + Z.of_nat (length src)) <=? wf_fifoSize f then
    let* q := bf_write (wf_buffer f) src in
    let* (f, acts) := resumeEmpty (set_wf_buffer f q) in
    Ok (true, f, acts)
  else Ok (false, f, []).
Definition fill f (src : list Z) : outcome (DmaWriteFifo Q * list DmaAction) :=
  let* (success, f, acts) := tryFill f src in
  let* _ := panic_if (negb success) in
  Ok (f, acts).

Definition startEmpty f (start size : Z) : outcome (DmaWriteFifo Q * list DmaAction) :=
  let* _ := assert_ (atEndOfBlock f) in
  resumeEmpty (set_addrs f start (u64 (start + size))).

Definition stopEmpty f : DmaWriteFifo Q :=
  let f := set_addrs f (endAddr f) (endAddr f) in
  set_requests f (cancel <$> pendingRequests f) (freeRequests f).

(** [while (!pendingRequests.empty() && pendingRequests.front()->done())]. *)
Fixpoint pending_loop (q : Q) (pending free : list DmaDoneEvent)
    : outcome (Q * list DmaDoneEvent * list DmaDoneEvent) :=
  match pending with
  | [] => Ok (q, [], free)
  | event :: rest =>
      if _done event then
        let* q :=
          if _canceled event then
            let* xs := mem_read (_data event) 0 (_requestSize event) in bf_write q xs
          else Ok q in
        pending_loop q rest (free ++ [event])
      else Ok (q, pending, free)
  end.

Definition handlePending f : outcome (DmaWriteFifo Q) :=
  let* (q, pending, free) := pending_loop (wf_buffer f) (pendingRequests f) (freeRequests f) in
  let f := set_requests (set_wf_buffer f q) pending free in
  Ok (if bool_decide (pending = []) then set_drain f (signalDrainDone (drainState f)) else f).

Definition dmaDone f : outcome (DmaWriteFifo Q * list DmaAction) :=
  let* f := handlePending f in
  resumeEmpty f.

(** [DmaDoneEvent::process] of the [i]-th pending request. *)
Definition process f (i : nat) : outcome (DmaWriteFifo Q * list DmaAction) :=
  let* e := vec_get (pendingRequests f) i in
  let* e := set_done e in
  dmaDone (set_requests f (<[i:=e]> (pendingRequests f)) (freeRequests f)).

(** [drain()], with the state the drain manager keeps of it. *)
Definition drain f : DmaWriteFifo Q :=
  set_drain f (if bool_decide (pendingRequests f = []) then Drained else Draining).
End Fifo.

Definition DmaWriteFifo_new (size max_req_size max_pending uninit : Z) : DmaWriteFifo CircularQueue :=
  mkDmaWriteFifo max_req_size size (CircularQueue_new size) 0 0 []
    (replicate (Z.to_nat max_pending) (DmaDoneEvent_new max_req_size uninit)) Running.

(** ** Invariant *)

(** The actions [acts] write consecutive addresses from [a] up to [b]. *)
Fixpoint contiguous (a : Z) (acts : list DmaAction) (b : Z) : Prop :=
  match acts with
  | [] => a = b
  | x :: acts => da_addr x = a ∧ contiguous (a + Z.of_nat (length (da_data x))) acts b
  end.
Definition acts_data (acts : list DmaAction) : list Z := acts ≫= da_data.

Lemma contiguous_app a b c xs ys :
  contiguous a xs b → contiguous b ys c → contiguous a (xs ++ ys) c.
Proof.
  revert a. induction xs as [|x xs IH]; intros a; simpl; [by intros ->|].
  intros [? Hx] Hy. split; [done|by apply IH].
Qed.

(** Contiguous actions cover exactly as many addresses as they carry bytes. *)
Lemma contiguous_length a b xs :
  contiguous a xs b → b = a + Z.of_nat (length (acts_data xs)).
Proof.
  revert a. induction xs as [|x xs IH]; intros a; simpl; [lia|].
  intros [? Hx]. rewrite (IH _ Hx), length_app. lia.
Qed.

Lemma acts_data_app xs ys : acts_data (xs ++ ys) = acts_data xs ++ acts_data ys.
Proof. apply bind_app. Qed.

Section Invariant.
Context {Q : Type} `{ByteFifoLaws Q}.
Implicit Types f : DmaWriteFifo Q.

(** [f] holds the bytes [l] and has [max_pending] request objects. *)
Record WInv (max_pending : nat) (n : nat) f (l : list Z) : Prop := {
  wi_rep : bf_rep n (wf_buffer f) l;
  wi_cap : bf_capacity (wf_buffer f) = wf_fifoSize f;
  wi_small : wf_fifoSize f < 2 ^ 31;
  wi_max : 0 < maxReqSize f;
  wi_bound : Z.of_nat max_pending * maxReqSize f < 2 ^ 62;
  wi_count : (length (pendingRequests f) + length (freeRequests f))%nat = max_pending;
  wi_data : Forall (fun e => Z.of_nat (length (_data e)) = maxReqSize f)
              (pendingRequests f ++ freeRequests f);
  wi_pending : Forall (pending_ok (maxReqSize f)) (pendingRequests f);
  wi_addr : 0 ≤ nextAddr f ≤ endAddr f;
  wi_end : endAddr f < 2 ^ 64;
  wi_run : drainState f = Running;
}.

(** The size of the next request of the block. *)
Definition next_req f : Z := Z.min (maxReqSize f) (endAddr f - nextAddr f).

(** Nothing is in flight only when there is nothing to send. *)
Definition starved f (l : list Z) : Prop :=
  pendingRequests f = [] → nextAddr f = endAddr f ∨ Z.of_nat (length l) < next_req f.

(** The oldest request in flight is still to complete. *)
Definition front_waits f : Prop :=
  match pendingRequests f with [] => True | e :: _ => _done e = false end.

Lemma issue_ok n f e free l r :
  bf_rep n (wf_buffer f) l → 0 < r ≤ Z.of_nat (length l) → r ≤ Z.of_nat (length (_data e)) →
  0 ≤ nextAddr f → nextAddr f + r < 2 ^ 64 →
  ∃ q e',
    issue f e free r =
      Ok (set_requests (set_addrs (set_wf_buffer f q) (nextAddr f + r) (endAddr f))
            (pendingRequests f ++ [e']) free, mkDmaAction (nextAddr f) (take (Z.to_nat r) l)) ∧
    bf_rep n q (drop (Z.to_nat r) l) ∧ bf_capacity q = bf_capacity (wf_buffer f) ∧
    length (_data e') = length (_data e) ∧ _requestSize e' = r ∧ _canceled e' = false ∧
    _done e' = false.
Proof.
  intros R Hr Hd Ha0 Hn. unfold issue, reset. rewrite (proj2 (Z.leb_le _ _)) by lia. cbn.
  destruct (bf_read_ok _ _ _ r R ltac:(lia)) as (q & -> & R' & Hc). cbn.
  assert (length (take (Z.to_nat r) l) = Z.to_nat r) as Hl by (rewrite length_take; lia).
  unfold set_data. cbn.
  destruct (mem_write_ok (_data e) 0 (take (Z.to_nat r) l)) as (d & Hw & Hlen); [lia..|].
  rewrite Hw. cbn. pose proof (mem_write_read _ _ _ _ Hw) as Hrd.
  rewrite Hl, Z2Nat.id in Hrd by lia. rewrite Hrd. cbn.
  rewrite wrapU_id by (split; lia). by eexists q, (mkDmaDoneEvent _ _ _ d).
Qed.

(** A turn of the loop keeps the invariant, sends the oldest bytes and takes
    one request object. *)
Lemma issue_inv P n f e free l :
  WInv P n f l → freeRequests f = e :: free → nextAddr f ≠ endAddr f →
  next_req f ≤ Z.of_nat (length l) →
  let r := next_req f in
  ∃ f' e', issue f e free r = Ok (f', mkDmaAction (nextAddr f) (take (Z.to_nat r) l)) ∧
    WInv P n f' (drop (Z.to_nat r) l) ∧ freeRequests f' = free ∧
    nextAddr f' = nextAddr f + r ∧ endAddr f' = endAddr f ∧ maxReqSize f' = maxReqSize f ∧
    wf_fifoSize f' = wf_fifoSize f ∧ pendingRequests f' = pendingRequests f ++ [e'] ∧
    _done e' = false.
Proof.
  intros [R Hcap Hsm Hmax Hbd Hcnt Hdata Hpend Haddr Hend Hrun] Hfree Hne Hl r.
  assert (0 < r ≤ maxReqSize f ∧ r ≤ endAddr f - nextAddr f) as [Hr Hre]
    by (subst r; unfold next_req; lia).
  rewrite Hfree in Hdata, Hcnt. simpl in Hcnt.
  apply Forall_app in Hdata as [Hdp [Hed Hdf]%Forall_cons].
  destruct (issue_ok n f e free l r R) as (q & e' & -> & R' & Hc' & Hd' & Hs' & Hcn' & Hdn'); [lia..|].
  eexists _, e'. split; [done|]. split; [|done].
  split; cbn; try done; try lia; try congruence.
  - rewrite length_app. simpl. lia.
  - rewrite <-app_assoc. apply Forall_app. split; [done|]. constructor; [congruence|done].
  - apply Forall_app. split; [done|]. constructor; [|done]. split; [lia|done].
Qed.

(** From [f] with the bytes [l], the actions [acts] sent the oldest ones to the
    next addresses of the block and [l'] are left. *)
Record sent f (l : list Z) f' (acts : list DmaAction) (l' : list Z) : Prop := {
  se_data : acts_data acts ++ l' = l;
  se_contiguous : contiguous (nextAddr f) acts (nextAddr f');
  se_end : endAddr f' = endAddr f;
  se_max : maxReqSize f' = maxReqSize f;
  se_fifo : wf_fifoSize f' = wf_fifoSize f;
  se_sizes : Forall (fun a => 0 < Z.of_nat (length (da_data a)) ≤ maxReqSize f) acts;
}.

Definition started f f' : Prop :=
  ∃ new, pendingRequests f' = pendingRequests f ++ new ∧ Forall (fun e => _done e = false) new.

Lemma sent_refl f l : sent f l f [] l.
Proof. by split. Qed.
Lemma started_refl f : started f f.
Proof. exists []. by rewrite app_nil_r. Qed.

Lemma sent_cons f l f1 r f' acts l' :
  0 < r ≤ maxReqSize f → r ≤ Z.of_nat (length l) →
  nextAddr f1 = nextAddr f + r → endAddr f1 = endAddr f → maxReqSize f1 = maxReqSize f →
  wf_fifoSize f1 = wf_fifoSize f → sent f1 (drop (Z.to_nat r) l) f' acts l' →
  sent f l f' (mkDmaAction (nextAddr f) (take (Z.to_nat r) l) :: acts) l'.
Proof.
  intros Hr Hl Hn He Hm Hf [Hl' Hct He' Hm' Hf' Hs].
  assert (Z.of_nat (length (take (Z.to_nat r) l)) = r) as Hlen by (rewrite length_take; lia).
  split; try congruence.
  - cbn. fold (acts_data acts). rewrite <-app_assoc, Hl'. apply take_drop.
  - cbn [contiguous da_addr da_data]. rewrite Hlen, <-Hn. done.
  - constructor; [cbn; lia|]. by rewrite <-Hm.
Qed.

Lemma started_cons f f1 e f' :
  pendingRequests f1 = pendingRequests f ++ [e] → _done e = false → started f1 f' → started f f'.
Proof.
  intros Hp Hd (new & Hp' & Hnew). exists (e :: new). rewrite Hp', Hp, <-app_assoc.
  split; [done|by constructor].
Qed.

(** The loop sends the oldest bytes to the next addresses of the block, and
    with nothing else in flight it stops only when it must. *)
Lemma empty_loop_ok P n free : ∀ f l sp,
  WInv P n f l → freeRequests f = free →
  0 ≤ sp ≤ Z.of_nat (length (pendingRequests f)) * maxReqSize f →
  ∃ f' acts l', empty_loop f sp free = Ok (f', acts) ∧ WInv P n f' l' ∧ sent f l f' acts l' ∧
    started f f' ∧ (free ≠ [] → sp = 0 → starved f' l').
Proof.
  induction free as [|e free IH]; intros f l sp HI Hfree Hsp; cbn [empty_loop].
  { exists f, [], l. split_and!; auto using sent_refl, started_refl; done. }
  destruct (Z.eqb_spec (nextAddr f) (endAddr f)) as [Ea|Ea].
  { unfold atEndOfBlock. rewrite (proj2 (Z.eqb_eq _ _) Ea).
    exists f, [], l. split_and!; auto using sent_refl, started_refl. intros _ _ _. by left. }
  unfold atEndOfBlock. rewrite (proj2 (Z.eqb_neq _ _) Ea).
  pose proof HI as [R Hcap Hsm Hmax Hbd Hcnt _ _ Haddr Hend _].
  rewrite (wrapU_id 64 (endAddr f - _)) by (split; lia). fold (next_req f).
  pose proof (bf_size_ok _ _ _ R) as Hsz. pose proof (bf_bounded _ _ _ R) as Hbnd.
  assert (0 < next_req f ≤ maxReqSize f) as Hrm by (unfold next_req; lia).
  rewrite Hfree in Hcnt. simpl in Hcnt.
  assert (sp + maxReqSize f ≤ Z.of_nat P * maxReqSize f) as Hspb by nia.
  rewrite Hsz. rewrite (wrapS_id 64) by (unfold inS; lia).
  destruct (Z.ltb_spec (Z.of_nat (length l) - sp - next_req f) 0) as [Hlt|Hge].
  { exists f, [], l. split_and!; auto using sent_refl, started_refl. intros _ -> _. right. lia. }
  destruct (issue_inv P n f e free l HI Hfree Ea) as
    (f1 & e' & -> & HI1 & Hf1 & Hn1 & He1 & Hm1 & Hs1 & Hp1 & Hd1); [lia|].
  cbn [mbind outcome_bind]. rewrite (wrapU_id 64 (sp + _)) by (split; lia).
  destruct (IH f1 _ (sp + next_req f) HI1 Hf1) as (f' & acts & l' & -> & HI' & Hse & Hst & _).
  { rewrite Hp1, Hm1, length_app. simpl. lia. }
  cbn [mbind outcome_bind]. eexists f', _, l'. split_and!; [done|done| | |].
  - eapply (sent_cons f l f1); try done; lia.
  - by eapply started_cons.
  - intros _ _ Hnil. destruct Hst as (new & Hp & _).
    rewrite Hp, Hp1 in Hnil. by destruct (pendingRequests f).
Qed.
End Invariant.

(** ** The operations *)

Section Operations.
Context {Q : Type} `{ByteFifoLaws Q} (sys : Sys).
Hypothesis timing : bypassCaches sys = false.
Implicit Types f : DmaWriteFifo Q.

Lemma resumeEmpty_ok P n f l :
  WInv P n f l → (0 < P)%nat →
  ∃ f' acts l', resumeEmpty sys f = Ok (f', acts) ∧ WInv P n f' l' ∧ sent f l f' acts l' ∧
    started f f' ∧ (pendingRequests f = [] → starved f' l').
Proof.
  intros HI HP. pose proof HI as [_ _ _ Hmax Hbd Hcnt _ Hpend _ _ Hrun].
  unfold resumeEmpty, resumeEmptyTiming. rewrite Hrun, timing.
  pose proof (size_pending_sum (maxReqSize f) (pendingRequests f) 0 Hpend ltac:(lia) ltac:(nia)) as Hsp.
  fold (size_pending (pendingRequests f)) in Hsp.
  destruct (empty_loop_ok P n (freeRequests f) f l _ HI eq_refl Hsp) as (f' & acts & l' & HR & ? & ? & ? & Hst).
  exists f', acts, l'. split_and!; try done. intros Hnil. apply Hst.
  - intros Hf. rewrite Hnil, Hf in Hcnt. simpl in Hcnt. lia.
  - by rewrite Hnil.
Qed.

(** The state between two operations. *)
Record WReady (P n : nat) f (l : list Z) : Prop := {
  wr_inv : WInv P n f l;
  wr_starved : starved f l;
  wr_front : front_waits f;
}.

(** From a state whose front waits, resuming leads to one that is ready. *)
Lemma resumeEmpty_ready P n f l :
  WInv P n f l → (0 < P)%nat → front_waits f →
  ∃ f' acts l', resumeEmpty sys f = Ok (f', acts) ∧ sent f l f' acts l' ∧ WReady P n f' l'.
Proof.
  intros HI HP Hfr.
  destruct (resumeEmpty_ok P n f l HI HP) as (f' & acts & l' & HR & HI' & Hse & (new & Hp & Hnew) & Hst).
  exists f', acts, l'. split_and!; [done|done|]. split; [done| |].
  - intros Hnil. apply Hst; [|done]. rewrite Hp in Hnil. by apply app_eq_nil in Hnil as [? _].
  - unfold front_waits in *. rewrite Hp. destruct (pendingRequests f); [|done].
    destruct Hnew; done.
Qed.

(** Without cancelled requests, handling the finished ones moves them to the
    free list and leaves the bytes alone. *)
Lemma pending_loop_ok q m pend : ∀ free,
  Forall (pending_ok m) pend →
  ∃ moved rest, pending_loop q pend free = Ok (q, rest, free ++ moved) ∧ pend = moved ++ rest ∧
    match rest with [] => True | e :: _ => _done e = false end.
Proof.
  induction pend as [|e pend IH]; intros free Hp; cbn [pending_loop].
  { exists [], []. by rewrite app_nil_r. }
  apply Forall_cons in Hp as [[_ Hc] Hp]. destruct (_done e) eqn:Ed.
  - rewrite Hc. cbn. destruct (IH (free ++ [e]) Hp) as (moved & rest & -> & -> & Hr).
    exists (e :: moved), rest. by rewrite <-app_assoc.
  - exists [], (e :: pend). by rewrite app_nil_r.
Qed.

Lemma handlePending_ok P n f l :
  WInv P n f l →
  ∃ f', handlePending f = Ok f' ∧ WInv P n f' l ∧ front_waits f' ∧
    nextAddr f' = nextAddr f ∧ endAddr f' = endAddr f ∧ maxReqSize f' = maxReqSize f ∧
    wf_fifoSize f' = wf_fifoSize f.
Proof.
  intros [R Hcap Hsm Hmax Hbd Hcnt Hdata Hpend Haddr Hend Hrun]. unfold handlePending.
  destruct (pending_loop_ok (wf_buffer f) _ _ (freeRequests f) Hpend) as (moved & rest & -> & Ep & Hr).
  cbn [mbind outcome_bind].
  assert (signalDrainDone (drainState f) = drainState f) as Hsd by by rewrite Hrun.
  assert (WInv P n (set_requests (set_wf_buffer f (wf_buffer f)) rest (freeRequests f ++ moved)) l) as HI.
  { split; cbn; try done.
    - rewrite Ep in Hcnt. rewrite length_app in *. lia.
    - revert Hdata. rewrite Ep, !Forall_app. tauto.
    - rewrite Ep in Hpend. by apply Forall_app in Hpend as [_ ?]. }
  eexists. split; [done|]. case_bool_decide; [|done].
  cbn [drainState set_requests set_wf_buffer]. rewrite Hsd.
  split_and!; try done.
Qed.

Lemma sent_from f0 f l f' acts l' :
  nextAddr f = nextAddr f0 → endAddr f = endAddr f0 → maxReqSize f = maxReqSize f0 →
  wf_fifoSize f = wf_fifoSize f0 → sent f l f' acts l' → sent f0 l f' acts l'.
Proof. intros E1 E2 E3 E4 []. split; rewrite <-?E1, <-?E2, <-?E3, <-?E4; done. Qed.

Lemma process_ok P n f l i e :
  WReady P n f l → (0 < P)%nat → pendingRequests f !! i = Some e → _done e = false →
  ∃ f' acts l', process sys f i = Ok (f', acts) ∧ sent f l f' acts l' ∧ WReady P n f' l'.
Proof.
  intros [HI _ _] HP Hi Hd. unfold process, vec_get, set_done, dmaDone. rewrite Hi.
  cbn [mbind outcome_bind]. rewrite Hd. cbn [mbind outcome_bind assert_ negb].
  set (e' := mkDmaDoneEvent _ _ _ _). set (f1 := set_requests _ _ _).
  assert (WInv P n f1 l) as HI1.
  { pose proof (lookup_lt_Some _ _ _ Hi) as Hlt. destruct HI as [? ? ? ? ? Hcnt Hdata Hpend ? ? ?].
    apply Forall_app in Hdata as [Hdp Hdf].
    split; cbn; try done.
    - by rewrite length_insert.
    - apply Forall_app. split; [|done]. apply Forall_insert; [done|].
      exact (Forall_lookup_1 _ _ _ _ Hdp Hi).
    - apply Forall_insert; [done|]. exact (Forall_lookup_1 _ _ _ _ Hpend Hi). }
  destruct (handlePending_ok P n f1 l HI1) as (f2 & -> & HI2 & Hfr & E1 & E2 & E3 & E4). cbn.
  destruct (resumeEmpty_ready P n f2 l HI2 HP Hfr) as (f' & acts & l' & -> & Hse & Hr).
  exists f', acts, l'. split_and!; [done| |done]. by eapply (sent_from f f2).
Qed.

Lemma canFill_ok P n f l k :
  WInv P n f l → 0 ≤ k < 2 ^ 32 → canFill f k = (Z.of_nat (length l) + k <=? wf_fifoSize f).
Proof.
  intros HI Hk. destruct HI as [R Hcap Hsm]. pose proof (bf_bounded _ _ _ R).
  unfold canFill. rewrite (bf_size_ok _ _ _ R), wrapU_id by (split; lia). done.
Qed.

Lemma fill_ok P n f l xs :
  WReady P (S n) f l → (0 < P)%nat → Z.of_nat (length xs) < 2 ^ 32 →
  canFill f (Z.of_nat (length xs)) = true →
  ∃ f' acts l', fill sys f xs = Ok (f', acts) ∧ sent f (l ++ xs) f' acts l' ∧ WReady P n f' l'.
Proof.
  intros [HI _ Hfr] HP Hxs Hcan. pose proof Hcan as Hfit.
  rewrite (canFill_ok _ _ _ _ _ HI) in Hfit by lia. zbool.
  unfold fill, tryFill. unfold canFill in Hcan. rewrite Hcan. pose proof HI as [R Hcap ? ? ? ? ? ? ? ? ?].
  destruct (bf_write_ok _ _ _ xs R) as (q & -> & R' & Hc'); [lia|]. cbn.
  assert (WInv P n (set_wf_buffer f q) (l ++ xs)) as HI' by (split; cbn; try done; congruence).
  destruct (resumeEmpty_ready P n _ _ HI' HP Hfr) as (f' & acts & l' & -> & Hse & Hr). cbn.
  exists f', acts, l'. split_and!; [done| |done]. by eapply (sent_from f (set_wf_buffer f q)).
Qed.

Lemma startEmpty_ok P n f l a s :
  WReady P n f l → (0 < P)%nat → atEndOfBlock f = true → 0 ≤ a → 0 ≤ s → a + s < 2 ^ 64 →
  ∃ f' acts l', startEmpty sys f a s = Ok (f', acts) ∧ sent (set_addrs f a (a + s)) l f' acts l' ∧
    WReady P n f' l'.
Proof.
  intros [HI _ Hfr] HP He Ha Hs Hb. unfold startEmpty. rewrite He.
  cbn [mbind outcome_bind assert_].
  rewrite wrapU_id by (split; lia).
  assert (WInv P n (set_addrs f a (a + s)) l) as HI' by (destruct HI; split; cbn; try done; lia).
  destruct (resumeEmpty_ready P n _ _ HI' HP Hfr) as (f' & acts & l' & HR & Hse & Hr).
  by exists f', acts, l'.
Qed.
End Operations.

(** ** Sequences of operations *)

(** What the owner of the FIFO and the DMA port do to it: offer bytes, which
    are taken when [canFill] says so; start a block, once the previous one has
    been sent; run the completion event of a request in flight. *)
Inductive WOp :=
  | WFill (xs : list Z)
  | WStart (start size : Z)
  | WDone (i : nat).

Definition wop_ok (o : WOp) : Prop :=
  match o with
  | WFill xs => Z.of_nat (length xs) < 2 ^ 32
  | WStart a s => 0 ≤ a ∧ 0 ≤ s ∧ a + s < 2 ^ 64
  | WDone _ => True
  end.
Definition not_start (o : WOp) : Prop := match o with WStart _ _ => False | _ => True end.

Section Runs.
Context {Q : Type} `{ByteFifo Q} (sys : Sys).
Implicit Types f : DmaWriteFifo Q.

(** The new state, the bytes taken and the actions. *)
Definition wf_op f (o : WOp) : outcome (DmaWriteFifo Q * list Z * list DmaAction) :=
  match o with
  | WFill xs =>
      if canFill f (Z.of_nat (length xs)) then
        let* (f, acts) := fill sys f xs in Ok (f, xs, acts)
      else Ok (f, [], [])
  | WStart a s =>
      if atEndOfBlock f then let* (f, acts) := startEmpty sys f a s in Ok (f, [], acts)
      else Ok (f, [], [])
  | WDone i =>
      match pendingRequests f !! i with
      | Some e =>
          if _done e then Ok (f, [], [])
          else let* (f, acts) := process sys f i in Ok (f, [], acts)
      | None => Ok (f, [], [])
      end
  end.

Fixpoint wf_run f (os : list WOp) : outcome (DmaWriteFifo Q * list Z * list DmaAction) :=
  match os with
  | [] => Ok (f, [], [])
  | o :: os =>
      let* (f, i, a) := wf_op f o in
      let* (f, ins, acts) := wf_run f os in
      Ok (f, i ++ ins, a ++ acts)
  end.
End Runs.

Section RunProofs.
Context {Q : Type} `{ByteFifoLaws Q} (sys : Sys) (P : nat).
Hypothesis timing : bypassCaches sys = false.
Hypothesis Ppos : (0 < P)%nat.
Implicit Types f : DmaWriteFifo Q.

Lemma ready_weaken n f l : WReady P (S n) f l → WReady P n f l.
Proof. intros [[] ? ?]. split; [split|..]; try done. by apply bf_weaken. Qed.

Lemma sent_app f l f1 a1 l1 xs f' a2 l' :
  sent f l f1 a1 l1 → sent f1 (l1 ++ xs) f' a2 l' → sent f (l ++ xs) f' (a1 ++ a2) l'.
Proof.
  intros [D1 C1 E1 M1 F1 S1] [D2 C2 E2 M2 F2 S2]. split; try congruence.
  - by rewrite acts_data_app, <-app_assoc, D2, app_assoc, D1.
  - by eapply contiguous_app.
  - apply Forall_app. split; [done|]. by rewrite <-M1.
Qed.

(** An operation that does not start a block goes on with the current one. *)
Lemma wf_op_ok n f l o :
  WReady P (S n) f l → wop_ok o → not_start o →
  ∃ f' i acts l', wf_op sys f o = Ok (f', i, acts) ∧ sent f (l ++ i) f' acts l' ∧ WReady P n f' l'.
Proof.
  intros HW Ho Hs. pose proof (ready_weaken _ _ _ HW) as HW'. destruct o as [xs| |i]; [|done|]; cbn in *.
  - destruct (canFill f _) eqn:Ec.
    + destruct (fill_ok sys timing P n f l xs HW Ppos Ho Ec) as (f' & acts & l' & -> & ? & ?).
      by exists f', xs, acts, l'.
    + exists f, [], [], l. rewrite app_nil_r. auto using sent_refl.
  - destruct (pendingRequests f !! i) as [e|] eqn:Ei; [destruct (_done e) eqn:Ed|].
    1,3: exists f, [], [], l; rewrite app_nil_r; auto using sent_refl.
    destruct (process_ok sys timing P n f l i e HW' Ppos Ei Ed) as (f' & acts & l' & -> & ? & ?).
    exists f', [], acts, l'. by rewrite app_nil_r.
Qed.

Lemma wf_block_ok n os : ∀ f l,
  WReady P (length os + n) f l → Forall wop_ok os → Forall not_start os →
  ∃ f' ins acts l', wf_run sys f os = Ok (f', ins, acts) ∧ sent f (l ++ ins) f' acts l' ∧
    WReady P n f' l'.
Proof.
  induction os as [|o os IH]; intros f l HW Hos Hns; cbn [wf_run].
  { exists f, [], [], l. rewrite app_nil_r. auto using sent_refl. }
  apply Forall_cons in Hos as [Ho Hos]. apply Forall_cons in Hns as [Hn Hns].
  destruct (wf_op_ok _ f l o HW Ho Hn) as (f1 & i & a & l1 & -> & S1 & HW1). cbn.
  destruct (IH f1 l1 HW1 Hos Hns) as (f' & ins & acts & l' & -> & S' & HW'). cbn.
  exists f', (i ++ ins), (a ++ acts), l'. split_and!; [done| |done].
  rewrite app_assoc. by eapply sent_app.
Qed.

(** Any sequence of operations runs, and no byte is lost, repeated or
    reordered on its way to the DMA port. *)
Lemma wf_run_ok n os : ∀ f l,
  WReady P (length os + n) f l → Forall wop_ok os →
  ∃ f' ins acts l', wf_run sys f os = Ok (f', ins, acts) ∧ acts_data acts ++ l' = l ++ ins ∧
    WReady P n f' l' ∧ maxReqSize f' = maxReqSize f.
Proof.
  induction os as [|o os IH]; intros f l HW Hos; cbn [wf_run].
  { exists f, [], [], l. by rewrite app_nil_r. }
  apply Forall_cons in Hos as [Ho Hos].
  assert (∃ f1 i a l1, wf_op sys f o = Ok (f1, i, a) ∧ acts_data a ++ l1 = l ++ i ∧
    WReady P (length os + n) f1 l1 ∧ maxReqSize f1 = maxReqSize f)
    as (f1 & i & a & l1 & -> & D1 & HW1 & M1).
  { destruct o as [xs|st sz|i].
    1,3: destruct (wf_op_ok _ f l _ HW Ho I) as (f1 & i1 & a & l1 & -> & [] & HW1);
      by exists f1, i1, a, l1.
    cbn. destruct Ho as (? & ? & ?). destruct (atEndOfBlock f) eqn:Ee.
    - apply ready_weaken in HW.
      destruct (startEmpty_ok sys timing P _ f l st sz HW Ppos Ee) as (f1 & a & l1 & -> & [] & HW1);
        [done..|]. exists f1, [], a, l1. by rewrite app_nil_r.
    - exists f, [], [], l. rewrite app_nil_r. auto using ready_weaken. }
  cbn. destruct (IH f1 l1 HW1 Hos) as (f' & ins & acts & l' & -> & D2 & HW' & M2). cbn.
  exists f', (i ++ ins), (a ++ acts), l'. split_and!; [done| |done|congruence].
  by rewrite acts_data_app, <-app_assoc, D2, app_assoc, D1, <-app_assoc.
Qed.
End RunProofs.

Section Fresh.
Context (sys : Sys) (size max_req_size max_pending uninit : Z).

(** The parameters a write FIFO is built with. *)
Definition wparams_ok : Prop :=
  bypassCaches sys = false ∧ 2 ≤ size < 2 ^ 31 ∧ 0 < max_req_size ∧ 0 < max_pending ∧
  max_pending * max_req_size < 2 ^ 62.

Lemma DmaWriteFifo_new_ready n :
  wparams_ok → Z.of_nat n < 2 ^ 32 - 2 →
  WReady (Z.to_nat max_pending) n (DmaWriteFifo_new size max_req_size max_pending uninit) [].
Proof.
  intros (_ & Hs & Hm & Hp & Hb) Hn. split; [split|..]; cbn; try done; try lia.
  - by apply cq_fifo_new.
  - apply length_replicate.
  - apply Forall_replicate. cbn. rewrite length_replicate. lia.
  - intros _. by left.
Qed.

(** Running [pre], then starting a block, then running [os]. *)
Lemma session_ok pre a s os :
  wparams_ok → Forall wop_ok pre → Forall wop_ok os → Forall not_start os → wop_ok (WStart a s) →
  Z.of_nat (length pre + length os) < 2 ^ 32 - 2 →
  ∃ f0 in0 acts0,
    wf_run sys (DmaWriteFifo_new size max_req_size max_pending uninit) pre = Ok (f0, in0, acts0) ∧
    (atEndOfBlock f0 = true →
     ∃ f1 acts1 f ins acts l,
       startEmpty sys f0 a s = Ok (f1, acts1) ∧ wf_run sys f1 os = Ok (f, ins, acts) ∧
       WReady (Z.to_nat max_pending) 0 f l ∧ endAddr f = a + s ∧
       contiguous a (acts1 ++ acts) (nextAddr f) ∧
       acts_data (acts0 ++ acts1 ++ acts) ++ l = in0 ++ ins ∧
       Forall (fun x => 0 < Z.of_nat (length (da_data x)) ≤ max_req_size) (acts1 ++ acts)).
Proof.
  intros HP Hpre Hos Hns (Ha & Hs & Hb) Hn. pose proof HP as (Ht & _ & _ & Hpp & _).
  assert (0 < Z.to_nat max_pending)%nat as Hpos by lia.
  pose proof (DmaWriteFifo_new_ready _ HP Hn) as HW.
  destruct (wf_run_ok sys _ Ht Hpos (length os) pre _ [] HW Hpre)
    as (f0 & in0 & acts0 & l0 & HR0 & D0 & HW0 & M0).
  exists f0, in0, acts0. split; [done|]. intros He.
  destruct (startEmpty_ok sys Ht _ _ f0 l0 a s HW0 Hpos He Ha Hs Hb)
    as (f1 & acts1 & l1 & HR1 & S1 & HW1).
  rewrite <-(Nat.add_0_r (length os)) in HW1.
  destruct (wf_block_ok sys _ Ht Hpos 0 os f1 l1 HW1 Hos Hns) as (f & ins & acts & l & HR & S2 & HW2).
  pose proof (sent_app _ _ _ _ _ _ _ _ _ S1 S2) as [D C E M _ Z].
  exists f1, acts1, f, ins, acts, l. split_and!; try done.
  - by rewrite acts_data_app, <-app_assoc, D, app_assoc, D0.
  - cbn in Z. rewrite M0 in Z. exact Z.
Qed.
End Fresh.

(** C19: the bytes of a stream reach memory.  A write FIFO that has run any
    sequence of fills, blocks and DMA completions is given a block of [s] bytes
    at [a] and then runs any sequence of fills and completions, these in any
    order.  No panic or assertion stops it; the DMA writes of the block go to
    consecutive addresses from [a], never past [a + s], each of at most the
    maximal request size; and all the bytes ever sent, in the order of their
    addresses within each block, are a prefix of the bytes taken from the
    stream, the rest being in the FIFO. *)
Theorem block_written sys size max_req_size max_pending uninit pre a s os
    (HP : wparams_ok sys size max_req_size max_pending)
    (Hpre : Forall wop_ok pre) (Hos : Forall wop_ok os) (Hns : Forall not_start os)
    (Hblock : wop_ok (WStart a s)) (Hn : Z.of_nat (length pre + length os) < 2 ^ 32 - 2) :
  ∃ f0 in0 acts0,
    wf_run sys (DmaWriteFifo_new size max_req_size max_pending uninit) pre = Ok (f0, in0, acts0) ∧
    (atEndOfBlock f0 = true →
     ∃ f1 acts1 f ins acts l,
       startEmpty sys f0 a s = Ok (f1, acts1) ∧ wf_run sys f1 os = Ok (f, ins, acts) ∧
       contiguous a (acts1 ++ acts) (nextAddr f) ∧ nextAddr f ≤ a + s ∧
       Forall (fun x => 0 < Z.of_nat (length (da_data x)) ≤ max_req_size) (acts1 ++ acts) ∧
       repr (wf_buffer f) l ∧ acts_data (acts0 ++ acts1 ++ acts) ++ l = in0 ++ ins).
Proof.
  destruct (session_ok sys size max_req_size max_pending uninit pre a s os)
    as (f0 & in0 & acts0 & HR0 & HS); [done..|].
  exists f0, in0, acts0. split; [done|]. intros He.
  destruct (HS He) as (f1 & acts1 & f & ins & acts & l & HR1 & HR & HW & E & C & D & Z).
  destruct HW as [[[R _] _ _ _ _ _ _ _ [_ Ha] _ _] _ _]. rewrite E in Ha.
  by exists f1, acts1, f, ins, acts, l.
Qed.

(** A block is never stuck.  In the situation of the previous theorem, the
    write FIFO stays active only while the oldest request in flight has not
    completed, or while the stream has not delivered the [s] bytes of the
    block; otherwise every address of the block has been written. *)
Theorem block_completes sys size max_req_size max_pending uninit pre a s os f0 in0 acts0 f1 acts1 f ins acts
    (HP : wparams_ok sys size max_req_size max_pending)
    (Hpre : Forall wop_ok pre) (Hos : Forall wop_ok os) (Hns : Forall not_start os)
    (Hblock : wop_ok (WStart a s)) (Hn : Z.of_nat (length pre + length os) < 2 ^ 32 - 2)
    (HR0 : wf_run sys (DmaWriteFifo_new size max_req_size max_pending uninit) pre
           = Ok (f0, in0, acts0))
    (He : atEndOfBlock f0 = true)
    (HR1 : startEmpty sys f0 a s = Ok (f1, acts1)) (HR : wf_run sys f1 os = Ok (f, ins, acts)) :
  (isActive f = true ∧
    ((∃ e, pendingRequests f !! 0%nat = Some e ∧ _done e = false) ∨
     (pendingRequests f = [] ∧
      Z.of_nat (length (in0 ++ ins)) < Z.of_nat (length (acts_data acts0)) + s))) ∨
  (isActive f = false ∧ contiguous a (acts1 ++ acts) (a + s)).
Proof.
  destruct (session_ok sys size max_req_size max_pending uninit pre a s os)
    as (f0' & in0' & acts0' & HR0' & HS); [done..|].
  rewrite HR0 in HR0'. injection HR0' as <- <- <-.
  destruct (HS He) as (f1' & acts1' & f' & ins' & acts' & l & HR1' & HR' & HW & E & C & D & _).
  rewrite HR1 in HR1'. injection HR1' as <- <-. rewrite HR in HR'. injection HR' as <- <- <-.
  destruct HW as [HI Hst Hfr]. pose proof (wi_addr _ _ _ _ HI) as Ha.
  unfold isActive, atEndOfBlock, starved, front_waits in *.
  destruct (pendingRequests f) as [|e es] eqn:Ep; [|left; eauto].
  destruct (Z.eqb_spec (nextAddr f) (endAddr f)) as [En|En]; [right|left]; cbn.
  - split; [done|]. by rewrite <-E, <-En.
  - split; [done|right]. split; [done|]. destruct Hst as [?|Hlt]; [done|done|].
    pose proof (contiguous_length _ _ _ C) as HL. unfold next_req in Hlt.
    rewrite <-D, acts_data_app, !length_app. lia.
Qed.

(** Requests of at most four bytes, two in flight; the completions come in the
    wrong order. *)
Definition ex_sys : Sys := mkSys false 64 (fun _ n => replicate (Z.to_nat n) 0).
Definition ex_pre : list WOp := [WStart 4096 2; WFill [1; 2; 3]; WDone 0].
Definition ex_os : list WOp := [WFill [4; 5; 6; 7; 8; 9; 10; 11]; WDone 1; WDone 0; WDone 0].

Lemma ex_dma_ok :
  wparams_ok ex_sys 16 4 2 ∧ Forall wop_ok ex_pre ∧ Forall wop_ok ex_os ∧ Forall not_start ex_os.
Proof.
  split_and!; [split_and!; cbn; lia || done|..]; repeat constructor; cbn; lia.
Qed.

Definition ex_acts0 : list DmaAction := [mkDmaAction 4096 [1; 2]].
Definition ex_acts : list DmaAction :=
  [mkDmaAction 8192 [3; 4; 5; 6]; mkDmaAction 8196 [7; 8; 9; 10]; mkDmaAction 8200 [11]].
Definition state_of (r : outcome (DmaWriteFifo CircularQueue * list Z * list DmaAction))
    : DmaWriteFifo CircularQueue :=
  match r with Ok (f, _, _) => f | Err _ => DmaWriteFifo_new 16 4 2 0 end.
Definition ex_f0 : DmaWriteFifo CircularQueue :=
  Eval vm_compute in state_of (wf_run ex_sys (DmaWriteFifo_new 16 4 2 0) ex_pre).
Definition ex_f1 : DmaWriteFifo CircularQueue :=
  Eval vm_compute in state_of (wf_op ex_sys ex_f0 (WStart 8192 9)).
Definition ex_f : DmaWriteFifo CircularQueue :=
  Eval vm_compute in state_of (wf_run ex_sys ex_f1 ex_os).

Lemma ex_dma_runs :
  wf_run ex_sys (DmaWriteFifo_new 16 4 2 0) ex_pre = Ok (ex_f0, [1; 2; 3], ex_acts0) ∧
  atEndOfBlock ex_f0 = true ∧ startEmpty ex_sys ex_f0 8192 9 = Ok (ex_f1, []) ∧
  wf_run ex_sys ex_f1 ex_os = Ok (ex_f, [4; 5; 6; 7; 8; 9; 10; 11], ex_acts).
Proof. do 3 (split; [vm_compute; reflexivity|]). vm_compute. reflexivity. Qed.

Lemma block_written_witness :
  ∃ f0 in0 acts0,
    wf_run ex_sys (DmaWriteFifo_new 16 4 2 0) ex_pre = Ok (f0, in0, acts0) ∧
    (atEndOfBlock f0 = true →
     ∃ f1 acts1 f ins acts l,
       startEmpty ex_sys f0 8192 9 = Ok (f1, acts1) ∧ wf_run ex_sys f1 ex_os = Ok (f, ins, acts) ∧
       contiguous 8192 (acts1 ++ acts) (nextAddr f) ∧ nextAddr f ≤ 8192 + 9 ∧
       Forall (fun x => 0 < Z.of_nat (length (da_data x)) ≤ 4) (acts1 ++ acts) ∧
       repr (wf_buffer f) l ∧ acts_data (acts0 ++ acts1 ++ acts) ++ l = in0 ++ ins).
Proof.
  destruct ex_dma_ok as (? & ? & ? & ?).
  apply (block_written ex_sys 16 4 2 0 ex_pre 8192 9 ex_os); [done..|cbn; lia|reflexivity].
Defined.

Lemma block_completes_witness :
  (isActive ex_f = true ∧
    ((∃ e, pendingRequests ex_f !! 0%nat = Some e ∧ _done e = false) ∨
     (pendingRequests ex_f = [] ∧
      Z.of_nat (length ([1; 2; 3] ++ [4; 5; 6; 7; 8; 9; 10; 11]))
        < Z.of_nat (length (acts_data ex_acts0)) + 9))) ∨
  (isActive ex_f = false ∧ contiguous 8192 ([] ++ ex_acts) (8192 + 9)).
Proof.
  destruct ex_dma_ok as (? & ? & ? & ?). destruct ex_dma_runs as (? & ? & ? & ?).
  apply (block_completes ex_sys 16 4 2 0 ex_pre 8192 9 ex_os ex_f0 [1; 2; 3] ex_acts0 ex_f1 [] ex_f
           [4; 5; 6; 7; 8; 9; 10; 11] ex_acts); try assumption; [cbn; lia|reflexivity].
Defined.
