(* ===== verification/Checkpoint.v ===== *)
(** Model of the checkpoint files: the string helpers of [base/str.{hh,cc}], the
    section and entry tables of [base/inifile.{hh,cc}] and the writing and
    reading of parameters of [sim/serialize.{hh,cc}], with the [serialize] and
    [unserialize] of the FIFOs ([base/circlebuf.hh]) and of the devices built on
    them. *)
From stdpp Require Import gmap strings.
From S2P Require Import Prelude CircularQueue ByteFifo CppString TokensSpec CppNumber DmaEvents.
From S2P Require DmaReadFifo DmaWriteFifo StreamBuffer.
From Stdlib Require Import Ascii String.

#[local] Open Scope string_scope.
#[local] Open Scope list_scope.
#[local] Open Scope Z_scope.

(** ** base/str *)

(** [find_first_not_of(c)], [find_last_not_of(c)] and [rfind(c)]. *)
Fixpoint find_first_not_of (c : ascii) (s : string) : option nat :=
  match s with
  | EmptyString => None
  | String d s => if Ascii.eqb d c then S <$> find_first_not_of c s else Some O
  end.
Fixpoint find_last_not_of (c : ascii) (s : string) : option nat :=
  match s with
  | EmptyString => None
  | String d s =>
      match find_last_not_of c s with
      | Some n => Some (S n)
      | None => if Ascii.eqb d c then None else Some O
      end
  end.
Fixpoint rfind (c : ascii) (s : string) : option nat :=
  match s with
  | EmptyString => None
  | String d s =>
      match rfind c s with
      | Some n => Some (S n)
      | None => if Ascii.eqb d c then Some O else None
      end
  end.

Definition eat_lead_white (s : string) : string :=
  match find_first_not_of " " s with Some off => str_drop off s | None => s end.
Definition eat_end_white (s : string) : string :=
  match find_last_not_of " " s with Some off => str_take (S off) s | None => s end.
Definition eat_white (s : string) : string := eat_end_white (eat_lead_white s).

Definition tolower (c : ascii) : ascii :=
  let n := nat_of_ascii c in
  if (65 <=? Z.of_nat n) && (Z.of_nat n <=? 90) then ascii_of_nat (n + 32) else c.
Fixpoint to_lower (s : string) : string :=
  match s with EmptyString => EmptyString | String c s => String (tolower c) (to_lower s) end.

Definition split_at (o : option nat) (s : string) : bool * string * string :=
  match o with
  | None => (false, s, "")
  | Some offset => (true, str_take offset s, str_drop (S offset) s)
  end.
Definition split_first (s : string) (c : ascii) : bool * string * string := split_at (chr_index c s) s.
Definition split_last (s : string) (c : ascii) : bool * string * string := split_at (rfind c s) s.

(** [s.find_first_of(token, pos)] and [s.find_first_not_of(token, pos)]. *)
Definition find_from (c : ascii) (s : string) (pos : nat) : option nat :=
  (fun n => (pos + n)%nat) <$> chr_index c (str_drop pos s).
Definition find_not_from (c : ascii) (s : string) (pos : nat) : option nat :=
  (fun n => (pos + n)%nat) <$> find_first_not_of c (str_drop pos s).

(** [while (last == first) last = s.find_first_of(token, ++first)]. *)
Fixpoint tok_skip (fuel : nat) (token : ascii) (s : string) (first : nat) (last : option nat)
    : nat * option nat :=
  match fuel with
  | O => (first, last)
  | S fuel =>
      if bool_decide (last = Some first) then tok_skip fuel token s (S first) (find_from token s (S first))
      else (first, last)
  end.
Fixpoint tok_loop (fuel : nat) (token : ascii) (ignore : bool) (s : string) (first : nat)
    (last : option nat) (v : list string) : list string :=
  match fuel, last with
  | S fuel, Some l =>
      let v := v ++ [str_take (l - first) (str_drop first s)] in
      if ignore then
        match find_not_from token s (S l) with
        | None => v
        | Some first => tok_loop fuel token ignore s first (find_from token s first) v
        end
      else tok_loop fuel token ignore s (S l) (find_from token s (S l)) v
  | _, _ => v ++ [str_drop first s]
  end.
(** The number of characters bounds both loops. *)
Definition str_tokenize (s : string) (token : ascii) (ignore : bool) : list string :=
  let fuel := S (String.length s) in
  let last := find_from token s 0 in
  if bool_decide (s = "") then []
  else if ignore && bool_decide (last = Some 0%nat) then
    let (first, last) := tok_skip fuel token s 0 last in
    match last with
    | None => if Nat.eqb first (String.length s) then [] else [str_drop first s]
    | Some _ => tok_loop fuel token ignore s first last []
    end
  else tok_loop fuel token ignore s 0 last [].

(** [std::stoull] and [std::stoll] with base 0: the sign and the absolute value,
    or [invalid_argument]. *)
Definition strto0 (s : string) : outcome (bool * Z) :=
  let (neg, s) := take_sign (skip_space s) in
  let (b, s) :=
    match hex_prefix s with
    | Some s' => (16, s')
    | None =>
        match s with
        | String c _ => if Ascii.eqb c "0" then (8, s) else (10, s)
        | EmptyString => (10, s)
        end
    end in
  let '(n, len, _) := digits_in b 0 0 s in
  if Nat.eqb len 0 then Err InvalidArgument else Ok (neg, n).
Definition stoull (s : string) : outcome Z :=
  let* (neg, n) := strto0 s in
  if 2 ^ 64 <=? n then Err OutOfRange else Ok (if neg : bool then u64 (- n) else n).
Definition stoll (s : string) : outcome Z :=
  let* (neg, n) := strto0 s in
  let n := if neg : bool then - n else n in
  if (n <? - 2 ^ 63) || (2 ^ 63 <=? n) then Err OutOfRange else Ok n.

(** [to_number] for an unsigned and for a signed type of [w] bits. *)
Definition to_number_u (w : Z) (s : string) : option Z :=
  match stoull s with
  | Ok r => if 2 ^ w - 1 <? r then None else Some r
  | Err _ => None
  end.
Definition to_number_s (w : Z) (s : string) : option Z :=
  match stoll s with
  | Ok r => if (r <? - 2 ^ (w - 1)) || (2 ^ (w - 1) - 1 <? r) then None else Some r
  | Err _ => None
  end.
Definition to_bool (s : string) : option bool :=
  let s := to_lower s in
  if bool_decide (s = "true") then Some true else if bool_decide (s = "false") then Some false else None.

Example str_ex :
  str_tokenize "  1 22   3 " " " true = ["1"; "22"; "3"] ∧ str_tokenize "a,,b" "," false = ["a"; ""; "b"] ∧
  eat_white "  x y  " = "x y" ∧ to_number_u 8 "255" = Some 255 ∧ to_number_u 8 "256" = None ∧
  to_number_u 16 "0x10" = Some 16 ∧ to_bool "TRUE" = Some true.
Proof. split_and!; reflexivity. Qed.

(** ** base/inifile

    The tables of sections and entries.  The [referenced] marks, which only
    [printUnreferenced] looks at, are left out. *)
Abbreviation Section_ := (gmap string string).
Abbreviation IniFile := (gmap string (gmap string string)).

Definition addEntry (t : Section_) (entryName value : string) (append : bool) : Section_ :=
  match t !! entryName with
  | None => <[entryName := value]> t
  | Some old => if append then <[entryName := old +:+ " " +:+ value]> t else <[entryName := value]> t
  end.

(** [Section::add]: [None] when there is no [=].  An assignment that starts with
    [=] looks at the character before it. *)
Definition section_add (t : Section_) (assignment : string) : outcome (option Section_) :=
  match chr_index "=" assignment with
  | None => Ok None
  | Some O => Err Undefined
  | Some (S before as offset) =>
      let append := bool_decide (String.get before assignment = Some "+"%char) in
      let entryName := str_take (if append then before else offset) assignment in
      let value := str_drop (S offset) assignment in
      Ok (Some (addEntry t (eat_white entryName) (eat_white value) append))
  end.

Definition addSection (db : IniFile) (sectionName : string) : IniFile :=
  match db !! sectionName with Some _ => db | None => <[sectionName := ∅]> db end.

(** The section a pointer to the table's entry gives. *)
Definition the_section (db : IniFile) (sectionName : string) : Section_ :=
  match db !! sectionName with Some t => t | None => ∅ end.
Definition set_section (db : IniFile) (sectionName : string) (o : option Section_) : option IniFile :=
  match o with Some t => Some (<[sectionName := t]> db) | None => None end.

(** [IniFile::add("<section>:<parameter>=<value>")]. *)
Definition ini_add (db : IniFile) (str : string) : outcome (option IniFile) :=
  match chr_index ":" str with
  | None => Ok None
  | Some offset =>
      let sectionName := eat_white (str_take offset str) in
      let rest := str_drop (S offset) str in
      let db := addSection db sectionName in
      let* o := section_add (the_section db sectionName) rest in
      Ok (set_section db sectionName o)
  end.

Definition newline : ascii := "010".
(** [getline]: the line and what follows it. *)
Definition getline (f : string) : string * string :=
  match chr_index newline f with
  | Some n => (str_take n f, str_drop (S n) f)
  | None => (f, "")
  end.

(** One line of [load]: [None] when it cannot be parsed. *)
Definition load_line (line : string) (section : option string) (db : IniFile)
    : outcome (option (option string * IniFile)) :=
  let line := eat_end_white line in
  let last := (String.length line - 1)%nat in
  if bool_decide (String.get 0 line = Some "["%char) && bool_decide (String.get last line = Some "]"%char) then
    let sectionName := eat_white (str_take (last - 1) (str_drop 1 line)) in
    Ok (Some (Some sectionName, addSection db sectionName))
  else
    match section with
    | None => Ok (Some (None, db))
    | Some name =>
        let* o := section_add (the_section db name) line in
        Ok ((fun db => (Some name, db)) <$> set_section db name o)
    end.

(** [load(istream)]; every turn takes a character at least. *)
Fixpoint load_loop (fuel : nat) (f : string) (section : option string) (db : IniFile)
    : outcome (bool * IniFile) :=
  match fuel with
  | O => Err OutOfFuel
  | S fuel =>
      match skip_space f with
      | EmptyString => Ok (true, db)
      | f =>
          let (line, f) := getline f in
          let* o := load_line line section db in
          match o with
          | None => Ok (false, db)
          | Some (section, db) => load_loop fuel f section db
          end
      end
  end.
Definition ini_load (f : string) : outcome (bool * IniFile) := load_loop (S (String.length f)) f None ∅.

Definition ini_find (db : IniFile) (sectionName entryName : string) : option string :=
  t ← db !! sectionName; t !! entryName.
Definition entryExists (db : IniFile) (sectionName entryName : string) : bool :=
  bool_decide (is_Some (ini_find db sectionName entryName)).
Definition sectionExists (db : IniFile) (sectionName : string) : bool :=
  bool_decide (is_Some (db !! sectionName)).

(** ** sim/serialize: writing *)

(** The active path, top first, and the text written so far. *)
Record CheckpointOut := mkCpt { cp_path : list string; cp_text : string }.

Definition emit (cp : CheckpointOut) (t : string) : CheckpointOut := mkCpt (cp_path cp) (cp_text cp +:+ t).

Definition currentSection (path : list string) : outcome string :=
  match path with [] => Err AssertFail | top :: _ => Ok top end.

Definition pushName (path : list string) (obj_name : string) : list string :=
  match path with [] => [obj_name] | top :: _ => (top +:+ "." +:+ obj_name) :: path end.
Definition popName (path : list string) : outcome (list string) :=
  match path with [] => Err AssertFail | _ :: path => Ok path end.

Definition nl : string := String newline "".

(** [serializeSection(cp, name)] around the virtual [serialize]. *)
Definition serializeSection (serialize : CheckpointOut → outcome CheckpointOut) (cp : CheckpointOut)
    (name : string) : outcome CheckpointOut :=
  let path := pushName (cp_path cp) name in
  let* sec := currentSection path in
  let cp := emit (mkCpt path (cp_text cp)) (nl +:+ "[" +:+ sec +:+ "]" +:+ nl) in
  let* cp := serialize cp in
  let* path := popName (cp_path cp) in
  Ok (mkCpt path (cp_text cp)).

(** [showParam] of an unsigned integer, of [unsigned char] and of [bool]. *)
Definition show_u (v : Z) : string := dec v.
Definition show_bool (b : bool) : string := if b then "true" else "false".

Definition paramOut (cp : CheckpointOut) (name value : string) : CheckpointOut :=
  emit (emit (emit cp (name +:+ "=")) value) nl.

(** The elements of a vector, a space before each but the first. *)
Fixpoint show_rest (l : list string) : string :=
  match l with [] => "" | x :: l => " " +:+ x +:+ show_rest l end.
Definition show_vector (l : list string) : string :=
  match l with [] => "" | x :: l => x +:+ show_rest l end.
Definition arrayParamOut (cp : CheckpointOut) (name : string) (l : list string) : CheckpointOut :=
  emit (emit (emit cp (name +:+ "=")) (show_vector l)) nl.
(** The overloads for [std::list] and [std::set] step over the first element
    even when there is none. *)
Definition arrayParamOut_set (cp : CheckpointOut) (name : string) (l : list string) : outcome CheckpointOut :=
  match l with [] => Err Undefined | _ => Ok (arrayParamOut cp name l) end.

(** ** sim/serialize: reading *)

Definition paramIn {A} (parse : string → option A) (path : list string) (cp : IniFile) (name : string)
    : outcome A :=
  let* section := currentSection path in
  match ini_find cp section name ≫= parse with Some v => Ok v | None => Err Panic end.

Fixpoint parse_all {A} (parse : string → option A) (l : list string) : option (list A) :=
  match l with
  | [] => Some []
  | t :: l => x ← parse t; xs ← parse_all parse l; Some (x :: xs)
  end.
Definition arrayParamIn {A} (parse : string → option A) (path : list string) (cp : IniFile) (name : string)
    : outcome (list A) :=
  let* section := currentSection path in
  match ini_find cp section name with
  | None => Err Panic
  | Some str =>
      match parse_all parse (str_tokenize str " " true) with Some l => Ok l | None => Err Panic end
  end.

Definition unserializeSection {A} (unserialize : list string → IniFile → outcome A) (path : list string)
    (cp : IniFile) (name : string) : outcome A :=
  unserialize (pushName path name) cp.

(** ** The FIFOs of base/circlebuf.hh *)

Definition Fifo_peek (q : CircularQueue) (len : Z) : outcome (list Z) := peek q 0 len.

(** [arrayParamOut] of a [CircleBuf<uint8_t>] or a [Fifo<uint8_t>]. *)
Definition fifoParamOut (cp : CheckpointOut) (name : string) (param : CircularQueue) : outcome CheckpointOut :=
  let* temp := Fifo_peek param (size param) in
  Ok (arrayParamOut cp name (show_u <$> temp)).

Definition circleParamIn (path : list string) (cp : IniFile) (name : string) (param : CircularQueue)
    : outcome CircularQueue :=
  let* temp := arrayParamIn (to_number_u 8) path cp name in
  CircleBuf_write (flush param) temp.
Definition fifoParamIn (path : list string) (cp : IniFile) (name : string) (param : CircularQueue)
    : outcome CircularQueue :=
  let* temp := arrayParamIn (to_number_u 8) path cp name in
  let* _ := panic_if (_capacity param <? Z.of_nat (List.length temp)) in
  Fifo_write (flush param) temp.

(** ** The devices *)

Definition addrIn : list string → IniFile → string → outcome Z := paramIn (to_number_u 64).

Definition DmaReadFifo_serialize (f : DmaReadFifo.DmaReadFifo CircularQueue) (cp : CheckpointOut)
    : outcome CheckpointOut :=
  let* _ := assert_ (bool_decide (DmaReadFifo.pendingRequests f = [])) in
  let* cp := fifoParamOut cp "buffer" (DmaReadFifo.buffer f) in
  let cp := paramOut cp "endAddr" (show_u (DmaReadFifo.endAddr f)) in
  Ok (paramOut cp "nextAddr" (show_u (DmaReadFifo.nextAddr f))).
Definition DmaReadFifo_unserialize (f : DmaReadFifo.DmaReadFifo CircularQueue) (path : list string)
    (cp : IniFile) : outcome (DmaReadFifo.DmaReadFifo CircularQueue) :=
  let* q := fifoParamIn path cp "buffer" (DmaReadFifo.buffer f) in
  let* e := addrIn path cp "endAddr" in
  let* n := addrIn path cp "nextAddr" in
  Ok (DmaReadFifo.set_addrs (DmaReadFifo.set_buffer f q) n e).

Definition DmaWriteFifo_serialize (f : DmaWriteFifo.DmaWriteFifo CircularQueue) (cp : CheckpointOut)
    : outcome CheckpointOut :=
  let* _ := assert_ (bool_decide (DmaWriteFifo.pendingRequests f = [])) in
  let* cp := fifoParamOut cp "buffer" (DmaWriteFifo.wf_buffer f) in
  let cp := paramOut cp "endAddr" (show_u (DmaWriteFifo.endAddr f)) in
  Ok (paramOut cp "nextAddr" (show_u (DmaWriteFifo.nextAddr f))).
Definition DmaWriteFifo_unserialize (f : DmaWriteFifo.DmaWriteFifo CircularQueue) (path : list string)
    (cp : IniFile) : outcome (DmaWriteFifo.DmaWriteFifo CircularQueue) :=
  let* q := fifoParamIn path cp "buffer" (DmaWriteFifo.wf_buffer f) in
  let* e := addrIn path cp "endAddr" in
  let* n := addrIn path cp "nextAddr" in
  Ok (DmaWriteFifo.set_addrs (DmaWriteFifo.set_wf_buffer f q) n e).

Definition set_stream_buffer (b : StreamBuffer.StreamBuffer CircularQueue) (q : CircularQueue)
    : StreamBuffer.StreamBuffer CircularQueue :=
  StreamBuffer.mkStreamBuffer q (StreamBuffer.fifoSize b) (StreamBuffer.big_endian b)
    (StreamBuffer.streamAddr b) (StreamBuffer.streamSize b) (StreamBuffer.streamDelay b)
    (StreamBuffer.bandwidth b).
Definition StreamBuffer_serialize (b : StreamBuffer.StreamBuffer CircularQueue) (cp : CheckpointOut)
    : outcome CheckpointOut :=
  fifoParamOut cp "buffer" (StreamBuffer.buffer b).
Definition StreamBuffer_unserialize (b : StreamBuffer.StreamBuffer CircularQueue) (path : list string)
    (cp : IniFile) : outcome (StreamBuffer.StreamBuffer CircularQueue) :=
  let* q := fifoParamIn path cp "buffer" (StreamBuffer.buffer b) in
  Ok (set_stream_buffer b q).

(** ** A whole checkpoint *)

(** [Globals]: the tick and the version tags of the build, a set, in order. *)
Definition Globals_serialize (tick : Z) (version_tags : list string) (cp : CheckpointOut)
    : outcome CheckpointOut :=
  let cp := paramOut cp "curTick" (show_u tick) in
  arrayParamOut_set cp "version_tags" version_tags.
(** The tags of the checkpoint are only compared for a warning; an old file has
    none. *)
Definition Globals_unserialize (path : list string) (cp : IniFile) : outcome (Z * option (list string)) :=
  let* tick := paramIn (to_number_u 64) path cp "curTick" in
  let* section := currentSection path in
  match ini_find cp section "version_tags" with
  | None => Ok (tick, None)
  | Some _ => let* tags := arrayParamIn Some path cp "version_tags" in Ok (tick, Some tags)
  end.

(** The objects with state in a checkpoint and their virtual functions. *)
Inductive Object_ :=
  | ReadFifo (f : DmaReadFifo.DmaReadFifo CircularQueue)
  | WriteFifo (f : DmaWriteFifo.DmaWriteFifo CircularQueue)
  | Buffer (b : StreamBuffer.StreamBuffer CircularQueue).

Definition obj_serialize (o : Object_) : CheckpointOut → outcome CheckpointOut :=
  match o with
  | ReadFifo f => DmaReadFifo_serialize f
  | WriteFifo f => DmaWriteFifo_serialize f
  | Buffer b => StreamBuffer_serialize b
  end.
Definition obj_unserialize (o : Object_) (path : list string) (cp : IniFile) : outcome Object_ :=
  match o with
  | ReadFifo f => let* f := DmaReadFifo_unserialize f path cp in Ok (ReadFifo f)
  | WriteFifo f => let* f := DmaWriteFifo_unserialize f path cp in Ok (WriteFifo f)
  | Buffer b => let* b := StreamBuffer_unserialize b path cp in Ok (Buffer b)
  end.

(** [SimObject::serializeAll], from the last object to the first. *)
Fixpoint serialize_objs (cp : CheckpointOut) (objs : list (string * Object_)) : outcome CheckpointOut :=
  match objs with
  | [] => Ok cp
  | (name, o) :: objs =>
      let* cp := serializeSection (obj_serialize o) cp name in serialize_objs cp objs
  end.

(** [Serializable::serializeAll]; [date] is what [ctime] returns, with its
    newline. *)
Definition serializeAll (date : string) (tick : Z) (version_tags : list string)
    (simObjectList : list (string * Object_)) : outcome string :=
  let cp := mkCpt [] ("## checkpoint generated: " +:+ date) in
  let* cp := serializeSection (Globals_serialize tick version_tags) cp "Globals" in
  let* cp := serialize_objs cp (rev simObjectList) in
  Ok (cp_text cp).
