(* ===== verification/CheckpointSpec.v ===== *)
(** What a checkpoint keeps: the text written for the simulator and its FIFO
    devices, loaded again, restores every device to the bytes and addresses it
    had. *)
From stdpp Require Import gmap strings.
From S2P Require Import Prelude CircularQueue ByteFifo CppString TokensSpec CppNumber DmaEvents ParserRoundTrip Checkpoint.
From S2P Require DmaReadFifo DmaWriteFifo StreamBuffer.
From Stdlib Require Import Ascii String.

#[local] Open Scope string_scope.
#[local] Open Scope list_scope.
#[local] Open Scope Z_scope.

(** ** Numbers *)

Lemma digit_in_of c : digit_in 10 c = digit_of c.
Proof.
  unfold digit_in, digit_of. set (n := Z.of_nat (nat_of_ascii c)).
  destruct ((48 <=? n) && (n <=? 57)) eqn:E; [zbool; by rewrite (proj2 (Z.ltb_lt _ _)) by lia|].
  destruct ((97 <=? n) && (n <=? 102)) eqn:E1; [zbool; by rewrite (proj2 (Z.ltb_ge _ _)) by lia|].
  destruct ((65 <=? n) && (n <=? 70)) eqn:E2; [zbool; by rewrite (proj2 (Z.ltb_ge _ _)) by lia|done].
Qed.

Lemma digits_in_digits s : ∀ acc len b, all_chars is_digit s = true →
  digits_in 10 acc len s = (fst (digits acc b s), (len + String.length s)%nat, "").
Proof.
  induction s as [|c s IH]; intros acc len b Hs; cbn [digits_in digits].
  { by rewrite Nat.add_0_r. }
  cbn in Hs. apply andb_true_iff in Hs as [Hc Hs]. rewrite digit_in_of.
  unfold is_digit in Hc. apply bool_decide_eq_true in Hc as [d ->].
  rewrite (IH _ _ true Hs). do 2 f_equal. cbn. lia.
Qed.

Lemma dec_loop_head fuel n acc : 0 < n < 2 ^ Z.of_nat fuel →
  ∃ c s, dec_loop fuel n acc = String c s ∧ c ≠ "0"%char.
Proof.
  revert n acc. induction fuel as [|fuel IH]; intros n acc Hn; [simpl in Hn; lia|]. cbn [dec_loop].
  destruct (Z.ltb_spec n 10).
  - rewrite Z.mod_small by lia. eexists _, _. split; [done|].
    assert (n = 1 ∨ n = 2 ∨ n = 3 ∨ n = 4 ∨ n = 5 ∨ n = 6 ∨ n = 7 ∨ n = 8 ∨ n = 9) as Hd by lia.
    destruct_or! Hd; subst; done.
  - apply IH. rewrite Nat2Z.inj_succ, Z.pow_succ_r in Hn by lia.
    split; [apply Z.div_str_pos; lia|]. apply Z.div_lt_upper_bound; lia.
Qed.

Lemma dec_head n : 0 < n → ∃ c s, dec n = String c s ∧ c ≠ "0"%char.
Proof.
  intros Hn. apply dec_loop_head. split; [done|].
  rewrite Nat2Z.inj_succ, Z2Nat.id by apply Z.log2_nonneg. pose proof (Z.log2_spec n Hn). lia.
Qed.

Lemma strto0_dec n : 0 ≤ n → strto0 (dec n) = Ok (false, n).
Proof.
  intros Hn. pose proof (dec_digits n Hn) as Hd. pose proof (dec_value n false Hn) as Hv.
  assert (n = 0 ∨ ∃ c s, dec n = String c s ∧ c ≠ "0"%char) as [->|(c & s & E & Hc)]
    by (destruct (decide (n = 0)); [by left|right; apply dec_head; lia]); [done|].
  rewrite E in *. pose proof Hd as Hd'. cbn in Hd'. apply andb_true_iff in Hd' as [Hdc Hds].
  destruct (digit_plain c Hdc) as (Hsp & Hm & Hp). unfold strto0. cbn [skip_space]. rewrite Hsp.
  cbn [take_sign]. rewrite Hm, Hp.
  assert (hex_prefix (String c s) = None) as ->.
  { cbn. destruct s as [|x [|y s]]; try done. destruct (Ascii.eqb_spec c "0"); [done|done]. }
  destruct (Ascii.eqb_spec c "0"); [done|]. rewrite (digits_in_digits _ _ _ false Hd), Hv. done.
Qed.

Lemma to_number_dec w n : 0 ≤ w ≤ 64 → 0 ≤ n < 2 ^ w → to_number_u w (dec n) = Some n.
Proof.
  intros Hw Hn. assert (2 ^ w ≤ 2 ^ 64) by (apply Z.pow_le_mono_r; lia).
  unfold to_number_u, stoull. rewrite strto0_dec by lia. cbn [mbind outcome_bind].
  rewrite (proj2 (Z.leb_gt _ _)) by lia. by rewrite (proj2 (Z.ltb_ge _ _)) by lia.
Qed.

(** ** Words *)

(** A character of a word, and a word: not empty and without white space. *)
Definition solid (c : ascii) : bool := negb (is_space c).
Definition word (s : string) : bool := negb (bool_decide (s = "")) && all_chars solid s.

Lemma solid_space c : solid c = true → Ascii.eqb c " " = false.
Proof. intros Hc. apply Ascii.eqb_neq. by intros ->. Qed.
Lemma solid_newline c : solid c = true → Ascii.eqb c newline = false.
Proof. intros Hc. apply Ascii.eqb_neq. by intros ->. Qed.

Lemma word_cons s : word s = true → ∃ c s', s = String c s' ∧ solid c = true ∧ all_chars solid s' = true.
Proof.
  unfold word. intros [He Ha]%andb_true_iff. destruct s as [|c s']; [done|].
  cbn in Ha. apply andb_true_iff in Ha as [? ?]. by exists c, s'.
Qed.
Lemma word_all s : word s = true → all_chars solid s = true.
Proof. by intros [_ ?]%andb_true_iff. Qed.

Lemma app_cons c a b : String c a +:+ b = String c (a +:+ b).
Proof. done. Qed.
Lemma app_empty b : "" +:+ b = b.
Proof. done. Qed.

Lemma all_chars_app P a b : all_chars P (a +:+ b) = all_chars P a && all_chars P b.
Proof. induction a as [|c a IH]; [done|]. rewrite app_cons. cbn [all_chars]. by rewrite IH, andb_assoc. Qed.
Lemma all_chars_impl (P Q : ascii → bool) s :
  (∀ c, P c = true → Q c = true) → all_chars P s = true → all_chars Q s = true.
Proof.
  intros H. induction s as [|c s IH]; [done|]. cbn. intros [? ?]%andb_true_iff. by rewrite H, IH.
Qed.

(** A character that a prefix does not have is found behind it. *)
Lemma chr_index_app c a d b :
  all_chars (fun x => negb (Ascii.eqb x c)) a = true → Ascii.eqb d c = true →
  chr_index c (a +:+ String d b) = Some (String.length a).
Proof.
  intros Ha Hd. induction a as [|x a IH]; [rewrite app_empty; cbn [chr_index]; by rewrite Hd|].
  cbn in Ha. apply andb_true_iff in Ha as [Hx Ha]. apply negb_true_iff in Hx.
  rewrite app_cons. cbn [chr_index]. rewrite Hx, (IH Ha). done.
Qed.
Lemma chr_index_none c a : all_chars (fun x => negb (Ascii.eqb x c)) a = true → chr_index c a = None.
Proof.
  induction a as [|x a IH]; cbn; [done|]. intros [Hx Ha]%andb_true_iff. apply negb_true_iff in Hx.
  by rewrite Hx, (IH Ha).
Qed.
Lemma solid_no c s : solid c = false → all_chars solid s = true → all_chars (fun x => negb (Ascii.eqb x c)) s = true.
Proof.
  intros Hc. apply all_chars_impl. intros x Hx. apply negb_true_iff, Ascii.eqb_neq. intros ->. congruence.
Qed.

Lemma dec_word n : 0 ≤ n → word (dec n) = true.
Proof.
  intros Hn. unfold word. rewrite bool_decide_eq_false_2 by apply dec_nonempty. cbn.
  eapply all_chars_impl; [|by apply dec_digits]. intros c Hc. unfold solid. by rewrite (proj1 (digit_plain c Hc)).
Qed.

(** *** Splitting what was printed *)

Lemma show_rest_cons y l : show_rest (y :: l) = String " " (y +:+ show_rest l).
Proof. done. Qed.

Lemma str_drop_show_rest x l n s :
  str_drop n s = x +:+ show_rest l →
  ∀ y l', l = y :: l' → str_drop (S (n + String.length x)) s = show_vector l.
Proof.
  intros Hs y l' ->. replace (S (n + String.length x))%nat with (n + S (String.length x))%nat by lia.
  rewrite <-str_drop_drop, Hs. cbn [show_rest show_vector].
  replace (S (String.length x)) with (String.length x + 1)%nat by lia.
  rewrite <-str_drop_drop, str_drop_app. done.
Qed.

Lemma find_not_from_word s n x t : str_drop n s = x +:+ t → word x = true → find_not_from " " s n = Some n.
Proof.
  intros Hs Hx. unfold find_not_from. rewrite Hs. destruct (word_cons x Hx) as (c & x' & -> & Hc & _).
  rewrite app_cons. cbn [find_first_not_of]. rewrite (solid_space c Hc). cbn. by rewrite Nat.add_0_r.
Qed.

Lemma tok_loop_words s l : ∀ fuel x first v,
  str_drop first s = show_vector (x :: l) → forallb word (x :: l) = true →
  (List.length l < fuel)%nat →
  tok_loop fuel " " true s first (find_from " " s first) v = v ++ x :: l.
Proof.
  induction l as [|y l IH]; intros fuel x first v Hs Hw Hf; cbn [show_vector] in Hs;
    destruct fuel as [|fuel]; [simpl in Hf; lia| |simpl in Hf; lia|]; cbn [forallb] in Hw;
    apply andb_true_iff in Hw as [Hx Hw]; pose proof (solid_no " " x eq_refl (word_all x Hx)) as Hno.
  - cbn [show_rest] in Hs. rewrite (str_app_nil x) in Hs.
    unfold find_from. rewrite Hs, chr_index_none by done. cbn. by rewrite Hs.
  - unfold find_from at 1. rewrite Hs, show_rest_cons.
    rewrite (chr_index_app " " x " " (y +:+ show_rest l)) by done. cbn [fmap option_fmap option_map tok_loop].
    replace (first + String.length x - first)%nat with (String.length x) by lia.
    rewrite Hs. rewrite (str_take_app x).
    pose proof (str_drop_show_rest x (y :: l) first s Hs y l eq_refl) as Hs'.
    pose proof Hw as Hw'. cbn [forallb] in Hw'. apply andb_true_iff in Hw' as [Hy _].
    rewrite (find_not_from_word s _ y (show_rest l) Hs' Hy).
    rewrite (IH fuel y _ (v ++ [x]) Hs' Hw) by (simpl in Hf; lia). by rewrite <-app_assoc.
Qed.

Lemma show_vector_length l : forallb word l = true → (List.length l ≤ String.length (show_vector l))%nat.
Proof.
  assert (∀ l, (List.length l ≤ String.length (show_rest l))%nat) as Hrest.
  { clear. induction l as [|x l IH]; [done|]. cbn [show_rest List.length].
    change (S (List.length l) ≤ S (String.length (x +:+ show_rest l)))%nat.
    rewrite (str_length_app x (show_rest l)). lia. }
  destruct l as [|x l]; [done|]. cbn [forallb show_vector List.length]. intros [Hx _]%andb_true_iff.
  rewrite (str_length_app x (show_rest l)). pose proof (Hrest l).
  destruct (word_cons x Hx) as (c & x' & -> & _). cbn. lia.
Qed.

Lemma tokenize_vector l : forallb word l = true → str_tokenize (show_vector l) " " true = l.
Proof.
  intros Hw. pose proof (show_vector_length l Hw) as Hlen. destruct l as [|x l]; [done|].
  unfold str_tokenize. pose proof Hw as Hw'. cbn [forallb] in Hw'. apply andb_true_iff in Hw' as [Hx _].
  destruct (word_cons x Hx) as (c & x' & Ex & Hc & _).
  rewrite bool_decide_eq_false_2 by (rewrite Ex; done).
  assert (bool_decide (find_from " " (show_vector (x :: l)) 0 = Some 0%nat) = false) as ->.
  { apply bool_decide_eq_false. unfold find_from. cbn [str_drop show_vector]. rewrite Ex.
    change (((λ n, 0 + n)%nat <$> (if Ascii.eqb c " " then Some 0%nat else S <$> chr_index " " (x' +:+ show_rest l))) ≠ Some 0%nat).
    rewrite (solid_space c Hc). by destruct (chr_index " " (x' +:+ show_rest l)). }
  cbn [andb]. apply (tok_loop_words _ l _ x 0 []); [done|done|]. cbn [List.length] in Hlen. lia.
Qed.

(** ** Lines *)

Lemma find_last_snoc s c : Ascii.eqb c " " = false →
  find_last_not_of " " (s +:+ String c "") = Some (String.length s).
Proof.
  intros Hc. induction s as [|x s IH].
  - rewrite app_empty. cbn [find_last_not_of]. by rewrite Hc.
  - rewrite app_cons. cbn [find_last_not_of]. by rewrite IH.
Qed.
Lemma eat_end_white_snoc s c : Ascii.eqb c " " = false → eat_end_white (s +:+ String c "") = s +:+ String c "".
Proof.
  intros Hc. unfold eat_end_white. rewrite find_last_snoc by done. apply str_take_all.
  rewrite (str_length_app s (String c "")). cbn. lia.
Qed.
Lemma eat_lead_white_cons c s : Ascii.eqb c " " = false → eat_lead_white (String c s) = String c s.
Proof. intros Hc. unfold eat_lead_white. cbn [find_first_not_of]. by rewrite Hc. Qed.

(** The last character of a printed vector is one of a word. *)
Lemma word_snoc x : word x = true → ∃ s c, x = s +:+ String c "" ∧ solid c = true.
Proof.
  intros Hx. destruct (word_cons x Hx) as (c & x' & -> & Hc & Hx'). clear Hx.
  revert c Hc. induction x' as [|d x' IH]; intros c Hc; [by exists "", c|].
  cbn in Hx'. apply andb_true_iff in Hx' as [Hd Hx']. destruct (IH Hx' d Hd) as (s & e & -> & ?).
  by exists (String c s), e.
Qed.
Lemma show_snoc x l : forallb word (x :: l) = true → ∃ s c, show_vector (x :: l) = s +:+ String c "" ∧ solid c = true.
Proof.
  revert x. induction l as [|y l IH]; intros x Hw; cbn [forallb] in Hw; apply andb_true_iff in Hw as [Hx Hw].
  - destruct (word_snoc x Hx) as (s & c & E & ?). exists s, c. split; [|done].
    cbn [show_vector show_rest]. rewrite <-E. apply str_app_nil.
  - destruct (IH y Hw) as (s & c & E & ?). exists (x +:+ " " +:+ s), c. split; [|done].
    cbn [show_vector] in *. rewrite show_rest_cons, E.
    change (x +:+ (" " +:+ (s +:+ String c "")) = (x +:+ (" " +:+ s)) +:+ String c "").
    by rewrite <-!(str_app_assoc).
Qed.

Lemma eat_white_vector l : forallb word l = true → eat_white (show_vector l) = show_vector l.
Proof.
  intros Hw. destruct l as [|x l]; [done|]. unfold eat_white.
  assert (eat_lead_white (show_vector (x :: l)) = show_vector (x :: l)) as ->.
  { pose proof Hw as Hw'. cbn [forallb] in Hw'. apply andb_true_iff in Hw' as [Hx _].
    destruct (word_cons x Hx) as (c & x' & -> & Hc & _). cbn [show_vector]. rewrite app_cons.
    by apply eat_lead_white_cons, solid_space. }
  destruct (show_snoc x l Hw) as (s & c & -> & Hc). by apply eat_end_white_snoc, solid_space.
Qed.
Lemma eat_white_word x : word x = true → eat_white x = x.
Proof.
  intros Hx. pose proof (eat_white_vector [x]) as H. cbn [show_vector show_rest] in H.
  rewrite (str_app_nil x) in H. apply H. cbn. by rewrite Hx.
Qed.

(** The name of an entry: a word without the characters that have a meaning. *)
Definition key_char (c : ascii) : bool :=
  solid c && negb (Ascii.eqb c "=") && negb (Ascii.eqb c "+") && negb (Ascii.eqb c "[").
Definition key (s : string) : bool := negb (bool_decide (s = "")) && all_chars key_char s.

Lemma key_word s : key s = true → word s = true.
Proof.
  unfold key, word. intros [-> Ha]%andb_true_iff. cbn. eapply all_chars_impl; [|exact Ha].
  intros c Hc. unfold key_char in Hc. by apply andb_true_iff in Hc as [[[? _]%andb_true_iff _]%andb_true_iff _].
Qed.

Definition entry_line (name : string) (ws : list string) : string := name +:+ String "=" (show_vector ws).

Lemma entry_line_end name ws : forallb word ws = true → eat_end_white (entry_line name ws) = entry_line name ws.
Proof.
  intros Hw. unfold entry_line. destruct ws as [|x ws]; [by apply eat_end_white_snoc|].
  destruct (show_snoc x ws Hw) as (s & c & -> & Hc).
  rewrite <-app_cons, <-(str_app_assoc name). by apply eat_end_white_snoc, solid_space.
Qed.

Lemma section_add_entry t name ws : key name = true → forallb word ws = true →
  section_add t (entry_line name ws) = Ok (Some (<[name := show_vector ws]> t)).
Proof.
  intros Hk Hw. pose proof (key_word name Hk) as Hword. unfold section_add, entry_line.
  apply andb_true_iff in Hk as [Hne Ha].
  rewrite chr_index_app; [|by eapply all_chars_impl; [|exact Ha]; intros c;
    unfold key_char; intros [[[_ ?]%andb_true_iff _]%andb_true_iff _]%andb_true_iff|done].
  destruct (String.length name) as [|before] eqn:El; [by destruct name|].
  assert (bool_decide (String.get before (name +:+ String "=" (show_vector ws)) = Some "+"%char) = false) as ->.
  { apply bool_decide_eq_false. intros Hg.
    assert (∃ c, String.get before name = Some c ∧ key_char c = true) as (c & Hc & Hkc).
    { clear -El Ha. revert before El. induction name as [|d s IH]; intros before El; [done|].
      cbn in Ha. apply andb_true_iff in Ha as [Hd Ha]. destruct before as [|b]; [by exists d|].
      cbn in El. injection El as El. cbn. apply (IH Ha b El). }
    assert (String.get before (name +:+ String "=" (show_vector ws)) = String.get before name) as E.
    { clear -El. revert before El. induction name as [|d s IH]; intros before El; [done|].
      rewrite app_cons. destruct before as [|b]; [done|]. cbn in El. injection El as El. cbn [String.get]. by apply IH. }
    rewrite E, Hc in Hg. injection Hg as ->. done. }
  rewrite <-El. rewrite (str_take_app name).
  assert (str_drop (S (String.length name)) (name +:+ String "=" (show_vector ws)) = show_vector ws) as ->.
  { replace (S (String.length name)) with (String.length name + 1)%nat by lia.
    rewrite <-str_drop_drop, (str_drop_app name). done. }
  rewrite (eat_white_word name), eat_white_vector by done. unfold addEntry. by destruct (t !! name).
Qed.

Lemma load_entry name ws sec db : key name = true → forallb word ws = true →
  load_line (entry_line name ws) (Some sec) db =
    Ok (Some (Some sec, <[sec := <[name := show_vector ws]> (the_section db sec)]> db)).
Proof.
  intros Hk Hw. unfold load_line. rewrite entry_line_end by done.
  assert (bool_decide (String.get 0 (entry_line name ws) = Some "["%char) = false) as ->.
  { apply bool_decide_eq_false. unfold entry_line. apply andb_true_iff in Hk as [Hne Ha].
    destruct name as [|c s]; [done|]. rewrite app_cons. cbn. intros [= ->]. done. }
  cbn [andb]. by rewrite section_add_entry.
Qed.

Lemma load_header name sec db : word name = true →
  load_line ("[" +:+ name +:+ "]") sec db = Ok (Some (Some name, addSection db name)).
Proof.
  intros Hn. unfold load_line. pose proof (eat_end_white_snoc ("[" +:+ name) "]" eq_refl) as He.
  rewrite (str_app_assoc "[" name "]") in He. rewrite He.
  assert (String.length ("[" +:+ name +:+ "]") = S (S (String.length name))) as El.
  { change (String.length ("[" +:+ name +:+ "]")) with (S (String.length (name +:+ "]"))).
    rewrite (str_length_app name "]"). cbn. lia. }
  rewrite El. rewrite bool_decide_eq_true_2 by done.
  assert (String.get (S (S (String.length name)) - 1) ("[" +:+ name +:+ "]") = Some "]"%char) as ->.
  { replace (S (S (String.length name)) - 1)%nat with (S (String.length name)) by lia.
    change (String.get (String.length name) (name +:+ "]") = Some "]"%char). rewrite get_drop.
    by rewrite (str_drop_app name). }
  cbn [andb bool_decide]. rewrite bool_decide_eq_true_2 by done.
  change (str_drop 1 ("[" +:+ name +:+ "]")) with (name +:+ "]").
  replace (S (S (String.length name)) - 1 - 1)%nat with (String.length name) by lia.
  by rewrite (str_take_app name), eat_white_word.
Qed.

(** *** The loop *)

(** A line as [load] meets it. *)
Definition line_ok (s : string) : bool :=
  match s with String c _ => solid c | EmptyString => false end &&
  all_chars (fun c => negb (Ascii.eqb c newline)) s.

Lemma load_loop_line fuel line rest sec db :
  line_ok line = true →
  load_loop (S fuel) (line +:+ String newline rest) sec db =
    let* o := load_line line sec db in
    match o with None => Ok (false, db) | Some (sec, db) => load_loop fuel rest sec db end.
Proof.
  intros [Hc Hn]%andb_true_iff. destruct line as [|c s]; [done|].
  rewrite app_cons. cbn [load_loop skip_space]. unfold solid in Hc. apply negb_true_iff in Hc. rewrite Hc.
  unfold getline. rewrite <-app_cons. rewrite chr_index_app by done.
  rewrite (str_take_app (String c s)).
  assert (str_drop (S (String.length (String c s))) (String c s +:+ String newline rest) = rest) as ->; [|done].
  replace (S (String.length (String c s))) with (String.length (String c s) + 1)%nat by lia.
  rewrite <-str_drop_drop, (str_drop_app (String c s)). done.
Qed.
Lemma load_loop_nl fuel s sec db : load_loop fuel (String newline s) sec db = load_loop fuel s sec db.
Proof. by destruct fuel. Qed.

(** ** Sections *)

(** Insertions one after the other. *)
Definition inserts {V} (l : list (string * V)) (m : gmap string V) : gmap string V :=
  foldl (fun m kv => <[kv.1 := kv.2]> m) m l.

Lemma inserts_ne {V} (l : list (string * V)) : ∀ m k, k ∉ l.*1 → inserts l m !! k = m !! k.
Proof.
  induction l as [|[k' v] l IH]; intros m k Hk; [done|]. cbn in Hk. apply not_elem_of_cons in Hk as [? ?].
  change (inserts l (<[k' := v]> m) !! k = m !! k). rewrite IH by done. by rewrite lookup_insert_ne.
Qed.
Lemma inserts_in {V} (l : list (string * V)) : ∀ m k v, NoDup l.*1 → (k, v) ∈ l → inserts l m !! k = Some v.
Proof.
  induction l as [|[k' v'] l IH]; intros m k v HN Hin; [by apply not_elem_of_nil in Hin|].
  cbn in HN. apply NoDup_cons in HN as [Hk HN]. apply elem_of_cons in Hin as [[= <- <-]|Hin]; [|by apply (IH (<[k' := v']> m))].
  change (inserts l (<[k := v]> m) !! k = Some v). rewrite inserts_ne by done. apply lookup_insert_eq.
Qed.

(** A section of a checkpoint: its name and its entries, each a list of words. *)
Definition Block : Type := string * list (string * list string).
Fixpoint print_entries (es : list (string * list string)) : string :=
  match es with [] => "" | (n, ws) :: es => entry_line n ws +:+ String newline (print_entries es) end.
Definition print_block (b : Block) : string :=
  String newline (("[" +:+ b.1 +:+ "]") +:+ String newline (print_entries b.2)).
Fixpoint print_blocks (bs : list Block) : string :=
  match bs with [] => "" | b :: bs => print_block b +:+ print_blocks bs end.

Definition entries_map (es : list (string * list string)) : Section_ :=
  inserts ((fun e => (e.1, show_vector e.2)) <$> es) ∅.
Definition blocks_map (bs : list Block) (db : IniFile) : IniFile :=
  inserts ((fun b => (b.1, entries_map b.2)) <$> bs) db.

Definition entry_ok (e : string * list string) : bool := key e.1 && forallb word e.2.
Definition block_ok (b : Block) : bool := word b.1 && forallb entry_ok b.2.

Lemma entry_line_ok n ws : key n = true → forallb word ws = true → line_ok (entry_line n ws) = true.
Proof.
  intros Hk Hw. pose proof (key_word n Hk) as Hn. destruct (word_cons n Hn) as (c & s & -> & Hc & Hs).
  unfold line_ok, entry_line. rewrite app_cons, Hc. cbn [andb]. rewrite <-app_cons, all_chars_app.
  rewrite (solid_no newline (String c s)) by (done || by apply word_all). cbn.
  assert (∀ l, forallb word l = true → all_chars (fun c => negb (Ascii.eqb c newline)) (show_rest l) = true) as Hrest.
  { clear. induction l as [|x l IH]; [done|]. cbn [forallb]. intros [Hx Hl]%andb_true_iff.
    rewrite show_rest_cons. cbn [all_chars]. rewrite all_chars_app, (IH Hl), (solid_no newline x eq_refl (word_all x Hx)). done. }
  destruct ws as [|x ws]; [done|]. cbn [forallb] in Hw. apply andb_true_iff in Hw as [Hx Hw].
  cbn [show_vector]. by rewrite all_chars_app, (Hrest ws Hw), (solid_no newline x eq_refl (word_all x Hx)).
Qed.

Lemma header_line_ok n : word n = true → line_ok ("[" +:+ n +:+ "]") = true.
Proof.
  intros Hn. unfold line_ok. change ("[" +:+ n +:+ "]") with (String "[" (n +:+ "]")). cbn [andb all_chars].
  by rewrite all_chars_app, (solid_no newline n eq_refl (word_all n Hn)).
Qed.

Lemma load_entries es : ∀ fuel rest sec db t,
  forallb entry_ok es = true → (String.length (print_entries es +:+ rest) < fuel)%nat → db !! sec = Some t →
  ∃ fuel', (String.length rest < fuel')%nat ∧
    load_loop fuel (print_entries es +:+ rest) (Some sec) db =
    load_loop fuel' rest (Some sec) (<[sec := inserts ((fun e => (e.1, show_vector e.2)) <$> es) t]> db).
Proof.
  induction es as [|[n ws] es IH]; intros fuel rest sec db t Hok Hf Hdb.
  { exists fuel. split; [done|]. by rewrite insert_id by done. }
  cbn [forallb] in Hok. apply andb_true_iff in Hok as [[Hk Hw]%andb_true_iff Hok]. cbn [fst snd] in *.
  cbn [print_entries] in *. rewrite (str_app_assoc (entry_line n ws)) in *. rewrite app_cons in *.
  destruct fuel as [|fuel]; [lia|]. rewrite load_loop_line by (by apply entry_line_ok).
  rewrite load_entry by done. cbn [mbind outcome_bind]. unfold the_section. rewrite Hdb.
  rewrite (str_length_app (entry_line n ws)) in Hf. cbn [String.length] in Hf.
  destruct (IH fuel rest sec (<[sec := <[n := show_vector ws]> t]> db) (<[n := show_vector ws]> t)) as (f' & ? & ->);
    [done|lia|apply lookup_insert_eq|].
  exists f'. split; [done|]. rewrite insert_insert_eq. done.
Qed.

Lemma load_block b fuel rest sec db :
  block_ok b = true → (String.length (print_block b +:+ rest) < fuel)%nat → db !! b.1 = None →
  ∃ fuel', (String.length rest < fuel')%nat ∧
    load_loop fuel (print_block b +:+ rest) sec db =
    load_loop fuel' rest (Some b.1) (<[b.1 := entries_map b.2]> db).
Proof.
  intros [Hn He]%andb_true_iff Hf Hdb. unfold print_block in *. rewrite (app_cons newline) in *.
  rewrite load_loop_nl. rewrite (str_app_assoc ("[" +:+ b.1 +:+ "]")) in *. rewrite (app_cons newline) in *.
  destruct fuel as [|fuel]; [cbn in Hf; lia|]. rewrite load_loop_line by (by apply header_line_ok).
  rewrite load_header by done. cbn [mbind outcome_bind]. unfold addSection. rewrite Hdb.
  cbn [String.length] in Hf. rewrite (str_length_app ("[" +:+ b.1 +:+ "]")) in Hf. cbn [String.length] in Hf.
  destruct (load_entries b.2 fuel rest b.1 (<[b.1 := ∅]> db) ∅) as (f' & ? & ->);
    [done|lia|apply lookup_insert_eq|].
  exists f'. split; [done|]. by rewrite insert_insert_eq.
Qed.

Lemma load_blocks bs : ∀ fuel sec db,
  forallb block_ok bs = true → NoDup bs.*1 → (∀ b, b ∈ bs → db !! b.1 = None) →
  (String.length (print_blocks bs) < fuel)%nat →
  load_loop fuel (print_blocks bs) sec db = Ok (true, blocks_map bs db).
Proof.
  induction bs as [|b bs IH]; intros fuel sec db Hok HN Hdb Hf.
  { destruct fuel; [cbn in Hf; lia|done]. }
  cbn [forallb] in Hok. apply andb_true_iff in Hok as [Hb Hok]. cbn in HN. apply NoDup_cons in HN as [Hnew HN].
  cbn [print_blocks] in *.
  destruct (load_block b fuel (print_blocks bs) sec db Hb Hf) as (f' & Hf' & ->); [apply Hdb; set_solver|].
  apply IH; [done|done| |done]. intros b' Hb'. rewrite lookup_insert_ne; [apply Hdb; set_solver|].
  intros E. apply Hnew. rewrite E. by apply list_elem_of_fmap_2.
Qed.

(** What a loaded checkpoint holds. *)
Lemma blocks_find bs b n ws :
  NoDup bs.*1 → b ∈ bs → NoDup b.2.*1 → (n, ws) ∈ b.2 →
  ini_find (blocks_map bs ∅) b.1 n = Some (show_vector ws).
Proof.
  intros HN Hb HNe Hin. unfold ini_find, blocks_map.
  rewrite (inserts_in _ ∅ b.1 (entries_map b.2)).
  - cbn. unfold entries_map. apply (inserts_in _ ∅ n).
    + by rewrite <-list_fmap_compose.
    + apply list_elem_of_fmap. by exists (n, ws).
  - by rewrite <-list_fmap_compose.
  - apply list_elem_of_fmap. by exists b.
Qed.

(** ** Writing is printing *)

Definition obj_queue (o : Object_) : CircularQueue :=
  match o with
  | ReadFifo f => DmaReadFifo.buffer f
  | WriteFifo f => DmaWriteFifo.wf_buffer f
  | Buffer b => StreamBuffer.buffer b
  end.
(** [endAddr] and [nextAddr], in the order they are written. *)
Definition obj_addrs (o : Object_) : list (string * Z) :=
  match o with
  | ReadFifo f => [("endAddr", DmaReadFifo.endAddr f); ("nextAddr", DmaReadFifo.nextAddr f)]
  | WriteFifo f => [("endAddr", DmaWriteFifo.endAddr f); ("nextAddr", DmaWriteFifo.nextAddr f)]
  | Buffer _ => []
  end.
(** No DMA request is under way. *)
Definition obj_drained (o : Object_) : bool :=
  match o with
  | ReadFifo f => bool_decide (DmaReadFifo.pendingRequests f = [])
  | WriteFifo f => bool_decide (DmaWriteFifo.pendingRequests f = [])
  | Buffer _ => true
  end.
Definition same_class (o o' : Object_) : bool :=
  match o, o' with
  | ReadFifo _, ReadFifo _ | WriteFifo _, WriteFifo _ | Buffer _, Buffer _ => true
  | _, _ => false
  end.

Definition obj_entries (o : Object_) (l : list Z) : list (string * list string) :=
  ("buffer", dec <$> l) :: ((fun a => (a.1, [dec a.2])) <$> obj_addrs o).

Lemma peek_all q l : repr q l → Fifo_peek q (size q) = Ok l.
Proof.
  intros R. destruct (Fifo_read_repr q l (size q) R) as (q' & Hr & _).
  { rewrite (repr_size _ _ R). lia. }
  unfold Fifo_read, CircleBuf_read in Hr. apply bind_ok in Hr as (xs & Hp & Hr).
  apply bind_ok in Hr as (? & _ & Hr). injection Hr as -> _. unfold Fifo_peek. rewrite Hp. f_equal.
  apply take_ge. rewrite (repr_size _ _ R). lia.
Qed.

Lemma emit_emit cp a b : emit (emit cp a) b = emit cp (a +:+ b).
Proof. unfold emit. cbn. by rewrite (str_app_assoc (cp_text cp)). Qed.

Lemma arrayParamOut_emit cp n ws : arrayParamOut cp n ws = emit cp (print_entries [(n, ws)]).
Proof.
  unfold arrayParamOut. rewrite !emit_emit. cbn [print_entries]. f_equal. unfold entry_line, nl.
  by rewrite !(str_app_assoc n).
Qed.
Lemma paramOut_emit cp n w : paramOut cp n w = emit cp (print_entries [(n, [w])]).
Proof.
  rewrite <-arrayParamOut_emit. unfold paramOut, arrayParamOut. cbn [show_vector show_rest].
  by rewrite (str_app_nil w).
Qed.
Lemma print_entries_app es es' : print_entries (es ++ es') = print_entries es +:+ print_entries es'.
Proof.
  induction es as [|[n ws] es IH]; [done|]. cbn [print_entries app].
  rewrite IH, (str_app_assoc (entry_line n ws)). done.
Qed.

Lemma obj_serialize_emit o l cp :
  repr (obj_queue o) l → obj_drained o = true →
  obj_serialize o cp = Ok (emit cp (print_entries (obj_entries o l))).
Proof.
  intros R Hd. assert (∀ cp n, fifoParamOut cp n (obj_queue o) = Ok (emit cp (print_entries [(n, dec <$> l)]))) as Hf.
  { intros cp0 n. unfold fifoParamOut. rewrite (peek_all _ _ R). cbn [mbind outcome_bind]. by rewrite <-arrayParamOut_emit. }
  destruct o as [f|f|b]; cbn [obj_serialize obj_queue obj_drained] in *.
  - unfold DmaReadFifo_serialize. rewrite Hd. cbn [assert_ mbind outcome_bind]. rewrite Hf. cbn [mbind outcome_bind].
    rewrite !paramOut_emit, !emit_emit, <-!print_entries_app. done.
  - unfold DmaWriteFifo_serialize. rewrite Hd. cbn [assert_ mbind outcome_bind]. rewrite Hf. cbn [mbind outcome_bind].
    rewrite !paramOut_emit, !emit_emit, <-!print_entries_app. done.
  - unfold StreamBuffer_serialize. by rewrite Hf.
Qed.

Lemma serializeSection_emit ser t name es :
  (∀ cp, ser cp = Ok (emit cp (print_entries es))) →
  serializeSection ser (mkCpt [] t) name = Ok (mkCpt [] (t +:+ print_block (name, es))).
Proof.
  intros Hser. unfold serializeSection. cbn [cp_path pushName currentSection mbind outcome_bind cp_text].
  rewrite Hser, emit_emit. cbn [mbind outcome_bind emit cp_path popName cp_text]. do 2 f_equal.
  unfold print_block, nl. cbn [fst snd]. by rewrite !str_app_assoc.
Qed.

(** The blocks of the objects, with the bytes each holds. *)
Definition obj_block (x : string * Object_ * list Z) : Block := (x.1.1, obj_entries x.1.2 x.2).

Definition obj_ok (x : string * Object_ * list Z) : Prop :=
  repr (obj_queue x.1.2) x.2 ∧ Forall (fun b => 0 ≤ b < 256) x.2 ∧ obj_drained x.1.2 = true ∧
  Forall (fun a => 0 ≤ a.2 < 2 ^ 64) (obj_addrs x.1.2).

Lemma serialize_objs_print xs : ∀ t, Forall obj_ok xs →
  serialize_objs (mkCpt [] t) xs.*1 = Ok (mkCpt [] (t +:+ print_blocks (obj_block <$> xs))).
Proof.
  induction xs as [|[[n o] l] xs IH]; intros t Hok.
  { cbn. by rewrite (str_app_nil t). }
  apply Forall_cons in Hok as [(R & _ & Hd & _) Hok]. cbn [fmap list_fmap serialize_objs fst snd] in *.
  rewrite (serializeSection_emit _ t n (obj_entries o l)) by (intros cp; by apply obj_serialize_emit).
  cbn [mbind outcome_bind]. rewrite (IH _ Hok). cbn [print_blocks]. by rewrite (str_app_assoc t).
Qed.

Definition globals_block (tick : Z) (tags : list string) : Block :=
  ("Globals", [("curTick", [dec tick]); ("version_tags", tags)]).

Lemma globals_print tick tags cp : tags ≠ [] →
  Globals_serialize tick tags cp = Ok (emit cp (print_entries (globals_block tick tags).2)).
Proof.
  intros Ht. unfold Globals_serialize, arrayParamOut_set. destruct tags as [|x tags]; [done|].
  rewrite arrayParamOut_emit, paramOut_emit, emit_emit, <-print_entries_app. done.
Qed.

(** ** Reading *)

Lemma parse_all_dec w l : 0 ≤ w ≤ 64 → Forall (fun b => 0 ≤ b < 2 ^ w) l →
  parse_all (to_number_u w) (dec <$> l) = Some l.
Proof.
  intros Hw. induction 1 as [|x l Hx _ IH]; [done|]. rewrite fmap_cons. cbn [parse_all].
  rewrite to_number_dec by done. cbn [mbind option_bind]. by rewrite IH.
Qed.

Lemma dec_words w l : Forall (fun b => 0 ≤ b < 2 ^ w) l → forallb word (dec <$> l) = true.
Proof.
  induction 1 as [|x l [Hx _] _ IH]; [done|]. rewrite fmap_cons. cbn [forallb]. by rewrite dec_word.
Qed.

Section Restore.
Context (db : IniFile) (name : string) (es : list (string * list string)).
Hypothesis Hfind : ∀ n ws, (n, ws) ∈ es → ini_find db name n = Some (show_vector ws).

Lemma addrIn_ok n a : (n, [dec a]) ∈ es → 0 ≤ a < 2 ^ 64 → addrIn [name] db n = Ok a.
Proof.
  intros Hin Ha. unfold addrIn, paramIn. cbn [currentSection mbind outcome_bind]. rewrite (Hfind n _ Hin).
  cbn [show_vector show_rest]. rewrite (str_app_nil (dec a)). cbn [mbind option_bind]. by rewrite to_number_dec.
Qed.

Lemma fifoParamIn_ok n l q l0 :
  (n, dec <$> l) ∈ es → Forall (fun b => 0 ≤ b < 256) l → repr q l0 →
  if decide (Z.of_nat (List.length l) ≤ _capacity q)
  then ∃ q', fifoParamIn [name] db n q = Ok q' ∧ repr q' l ∧ _capacity q' = _capacity q
  else fifoParamIn [name] db n q = Err Panic.
Proof.
  intros Hin Hl R. unfold fifoParamIn, arrayParamIn. cbn [currentSection mbind outcome_bind].
  rewrite (Hfind n _ Hin), tokenize_vector by (by apply (dec_words 8)).
  rewrite parse_all_dec by (lia || done). cbn [mbind outcome_bind].
  case_decide as Hc.
  - rewrite (proj2 (Z.ltb_ge _ _)) by lia. cbn [panic_if mbind outcome_bind].
    pose proof (flush_repr q l0 R) as R0.
    destruct (Fifo_write_repr (flush q) [] l R0) as (q' & -> & R' & _ & Hcap); [done|done|]. by exists q'.
  - by rewrite (proj2 (Z.ltb_lt _ _)) by lia.
Qed.

Lemma obj_restore o o0 l l0 :
  es = obj_entries o l → repr (obj_queue o) l → Forall (fun b => 0 ≤ b < 256) l →
  Forall (fun a => 0 ≤ a.2 < 2 ^ 64) (obj_addrs o) → same_class o0 o = true → repr (obj_queue o0) l0 →
  if decide (Z.of_nat (List.length l) ≤ _capacity (obj_queue o0))
  then ∃ o1, obj_unserialize o0 [name] db = Ok o1 ∧ repr (obj_queue o1) l ∧ obj_addrs o1 = obj_addrs o ∧
         same_class o1 o = true
  else obj_unserialize o0 [name] db = Err Panic.
Proof.
  intros Ees R Hl Ha Hsame R0.
  assert (("buffer", dec <$> l) ∈ es) as Hbuf by (rewrite Ees; left).
  assert (∀ n a, (n, a) ∈ obj_addrs o → addrIn [name] db n = Ok a) as Haddr.
  { intros n a Hin. apply addrIn_ok.
    - rewrite Ees. right. apply list_elem_of_fmap. by exists (n, a).
    - rewrite Forall_forall in Ha. by apply (Ha (n, a)). }
  pose proof (fifoParamIn_ok "buffer" l _ l0 Hbuf Hl R0) as Hq. clear Ha.
  destruct o as [f|f|b], o0 as [f0|f0|b0]; try done; cbn [obj_queue obj_unserialize obj_addrs] in *;
    [pose proof (Haddr _ _ ltac:(left)) as He; pose proof (Haddr _ _ ltac:(right; left)) as Hn
    |pose proof (Haddr _ _ ltac:(left)) as He; pose proof (Haddr _ _ ltac:(right; left)) as Hn|];
    case_decide.
  - destruct Hq as (q' & Hq & R' & _). unfold DmaReadFifo_unserialize. rewrite Hq. cbn [mbind outcome_bind].
    rewrite He. cbn [mbind outcome_bind]. rewrite Hn. cbn [mbind outcome_bind]. by eexists.
  - unfold DmaReadFifo_unserialize. by rewrite Hq.
  - destruct Hq as (q' & Hq & R' & _). unfold DmaWriteFifo_unserialize. rewrite Hq. cbn [mbind outcome_bind].
    rewrite He. cbn [mbind outcome_bind]. rewrite Hn. cbn [mbind outcome_bind]. by eexists.
  - unfold DmaWriteFifo_unserialize. by rewrite Hq.
  - destruct Hq as (q' & Hq & R' & _). unfold StreamBuffer_unserialize. rewrite Hq. cbn [mbind outcome_bind]. by eexists.
  - unfold StreamBuffer_unserialize. by rewrite Hq.
Qed.
End Restore.

Lemma globals_restore db tick tags :
  (∀ n ws, (n, ws) ∈ (globals_block tick tags).2 → ini_find db "Globals" n = Some (show_vector ws)) →
  0 ≤ tick < 2 ^ 64 → forallb word tags = true →
  Globals_unserialize ["Globals"] db = Ok (tick, Some tags).
Proof.
  intros Hfind Ht Hw. unfold Globals_unserialize.
  pose proof (addrIn_ok db "Globals" _ Hfind "curTick" tick ltac:(left) Ht) as Hc. unfold addrIn in Hc.
  rewrite Hc. cbn [currentSection mbind outcome_bind]. unfold arrayParamIn. cbn [currentSection mbind outcome_bind].
  rewrite (Hfind "version_tags" tags) by (right; left). rewrite tokenize_vector by done.
  assert (parse_all Some tags = Some tags) as ->; [|done]. clear. induction tags as [|x tags IH]; [done|].
  cbn [parse_all]. by rewrite IH.
Qed.

(** ** The file *)

Lemma load_comment s db : load_line (String "#" s) None db = Ok (Some (None, db)).
Proof.
  unfold load_line. assert (String.get 0 (eat_end_white (String "#" s)) = Some "#"%char) as ->; [|done].
  unfold eat_end_white. cbn [find_last_not_of]. by destruct (find_last_not_of " " s).
Qed.

Definition no_newline (s : string) : bool := all_chars (fun c => negb (Ascii.eqb c newline)) s.

Lemma ini_load_file date bs :
  no_newline date = true → forallb block_ok bs = true → NoDup bs.*1 →
  ini_load (("## checkpoint generated: " +:+ (date +:+ nl)) +:+ print_blocks bs) = Ok (true, blocks_map bs ∅).
Proof.
  intros Hd Hok HN. unfold ini_load.
  assert (("## checkpoint generated: " +:+ (date +:+ nl)) +:+ print_blocks bs =
    ("## checkpoint generated: " +:+ date) +:+ String newline (print_blocks bs)) as E
    by (unfold nl; by rewrite !str_app_assoc).
  rewrite E. rewrite load_loop_line.
  2: { unfold line_ok. rewrite all_chars_app. unfold no_newline in Hd. by rewrite Hd. }
  rewrite (load_comment ("# checkpoint generated: " +:+ date)). cbn [mbind outcome_bind].
  apply load_blocks; [done|done|by intros|].
  rewrite (str_length_app ("## checkpoint generated: " +:+ date)). cbn [String.length]. lia.
Qed.

Lemma obj_block_ok x : word x.1.1 = true → obj_ok x → block_ok (obj_block x) = true.
Proof.
  intros Hn (_ & Hl & _ & Ha). unfold block_ok, obj_block. cbn [fst snd]. rewrite Hn. cbn [andb obj_entries forallb].
  unfold entry_ok at 1. cbn [fst snd]. rewrite (dec_words 8) by done. cbn [andb].
  assert (∀ l, Forall (fun a => 0 ≤ a.2 < 2 ^ 64) l → Forall (fun a => key a.1 = true) l →
    forallb entry_ok ((fun a : string * Z => (a.1, [dec a.2])) <$> l) = true) as Hall.
  { clear. induction 1 as [|a l [Ha _] _ IH]; [done|]. intros [Hk Hks]%Forall_cons.
    rewrite fmap_cons. cbn [forallb]. rewrite IH by done. unfold entry_ok. cbn [fst snd forallb]. by rewrite Hk, dec_word. }
  apply Hall; [done|]. destruct x.1.2; repeat constructor.
Qed.

Lemma obj_entries_nodup o l : NoDup (obj_entries o l).*1.
Proof. apply (bool_decide_unpack _). by destruct o. Qed.

(** ** Claims *)

(** C18: a checkpoint restores the devices.  Writing the simulator's tick, its
    version tags and any number of drained FIFO devices with distinct names to a
    checkpoint succeeds; the text loads; the tick and the tags come back; and
    each device, read into one of the same class whose FIFO holds anything, gets
    the bytes, in order, and the addresses it had, or stops the program when the
    FIFO is too small for them. *)
Theorem checkpoint_restores date tick tags (xs : list (string * Object_ * list Z))
    (Hdate : no_newline date = true) (Htick : 0 ≤ tick < 2 ^ 64)
    (Htags : forallb word tags = true) (Hsome : tags ≠ [])
    (Hnames : forallb word xs.*1.*1 = true) (Hdistinct : NoDup ("Globals" :: xs.*1.*1))
    (Hobjs : Forall obj_ok xs) :
  ∃ text db, serializeAll (date +:+ nl) tick tags xs.*1 = Ok text ∧ ini_load text = Ok (true, db) ∧
    unserializeSection Globals_unserialize [] db "Globals" = Ok (tick, Some tags) ∧
    ∀ name o l o0 l0, (name, o, l) ∈ xs → same_class o0 o = true → repr (obj_queue o0) l0 →
      if decide (Z.of_nat (List.length l) ≤ _capacity (obj_queue o0))
      then ∃ o1, unserializeSection (obj_unserialize o0) [] db name = Ok o1 ∧
             repr (obj_queue o1) l ∧ obj_addrs o1 = obj_addrs o ∧ same_class o1 o = true
      else unserializeSection (obj_unserialize o0) [] db name = Err Panic.
Proof.
  set (bs := globals_block tick tags :: (obj_block <$> rev xs)).
  assert (bs.*1 ≡ₚ "Globals" :: xs.*1.*1) as Enames.
  { subst bs. cbn. apply Permutation_skip. rewrite <-!list_fmap_compose.
    by rewrite <-(Permutation_rev xs). }
  assert (NoDup bs.*1) as HN by (by rewrite Enames).
  assert (forallb block_ok bs = true) as Hok.
  { subst bs. cbn [forallb]. apply andb_true_iff. split.
    - unfold block_ok, globals_block. cbn [fst snd forallb]. unfold entry_ok. cbn [fst snd forallb].
      by rewrite dec_word, Htags by lia.
    - apply forallb_forall. intros b (x & -> & Hx)%list_elem_of_In%list_elem_of_fmap.
      rewrite <-(Permutation_rev xs) in Hx.
      apply obj_block_ok; [|rewrite Forall_forall in Hobjs; by apply Hobjs].
      rewrite forallb_forall in Hnames. apply Hnames, list_elem_of_In.
      rewrite <-list_fmap_compose. by apply (list_elem_of_fmap_2 (fst ∘ fst)). }
  eexists _, (blocks_map bs ∅). split_and!.
  - unfold serializeAll. rewrite (serializeSection_emit _ _ _ (globals_block tick tags).2)
      by (intros cp; by apply globals_print).
    cbn [mbind outcome_bind]. rewrite <-map_rev, (serialize_objs_print (rev xs)) by (by rewrite <-(Permutation_rev xs)).
    cbn [mbind outcome_bind cp_text]. done.
  - rewrite str_app_assoc. apply (ini_load_file date bs Hdate Hok HN).
  - apply globals_restore; [|done|done]. intros n ws Hin.
    apply (blocks_find bs (globals_block tick tags)); [done|left| |done]. apply (bool_decide_unpack _). done.
  - intros name o l o0 l0 Hx Hsame R0.
    rewrite Forall_forall in Hobjs. destruct (Hobjs _ Hx) as (R & Hl & _ & Ha). cbn [fst snd] in *.
    apply (obj_restore _ name (obj_entries o l)) with (l0 := l0); try done. intros n ws Hin.
    apply (blocks_find bs (obj_block (name, o, l))); [done| |apply obj_entries_nodup|done].
    right. apply list_elem_of_fmap_2. by rewrite <-(Permutation_rev xs).
Qed.

(** *** A checkpoint *)

Definition ex_read : DmaReadFifo.DmaReadFifo CircularQueue :=
  DmaReadFifo.mkDmaReadFifo 64 8 (mkCQ 8 1 3 false 0 [0; 10; 255; 0; 0; 0; 0; 0]) 0x1003 0x1008 [] [] Running.
Definition ex_stream : StreamBuffer.StreamBuffer CircularQueue :=
  StreamBuffer.mkStreamBuffer (mkCQ 4 1 0 true 0 [0; 0; 0; 0]) 4 false 0x2000 4 1 (SpecFloat.S754_zero false).
Definition ex_objs : list (string * Object_ * list Z) :=
  [("system.dma.fifo", ReadFifo ex_read, [10; 255; 0]); ("system.stream", Buffer ex_stream, [])].

Lemma ex_objs_ok : Forall obj_ok ex_objs.
Proof.
  repeat constructor; cbn; try done; try lia.
  intros [|[|[|i]]] Hi; cbn in *; try done; lia.
Qed.

Example ex_text :
  serializeAll ("Mon Jan 1" +:+ nl) 77 ["arm"; "x86"] ex_objs.*1 =
  Ok ("## checkpoint generated: Mon Jan 1" +:+ nl +:+ nl +:+
      "[Globals]" +:+ nl +:+ "curTick=77" +:+ nl +:+ "version_tags=arm x86" +:+ nl +:+ nl +:+
      "[system.stream]" +:+ nl +:+ "buffer=" +:+ nl +:+ nl +:+
      "[system.dma.fifo]" +:+ nl +:+ "buffer=10 255 0" +:+ nl +:+ "endAddr=4104" +:+ nl +:+ "nextAddr=4099" +:+ nl).
Proof. vm_compute. reflexivity. Qed.

Lemma checkpoint_restores_witness :
  ∃ text db, serializeAll ("Mon Jan 1" +:+ nl) 77 ["arm"; "x86"] ex_objs.*1 = Ok text ∧ ini_load text = Ok (true, db) ∧
    unserializeSection Globals_unserialize [] db "Globals" = Ok (77, Some ["arm"; "x86"]) ∧
    ∀ name o l o0 l0, (name, o, l) ∈ ex_objs → same_class o0 o = true → repr (obj_queue o0) l0 →
      if decide (Z.of_nat (List.length l) ≤ _capacity (obj_queue o0))
      then ∃ o1, unserializeSection (obj_unserialize o0) [] db name = Ok o1 ∧
             repr (obj_queue o1) l ∧ obj_addrs o1 = obj_addrs o ∧ same_class o1 o = true
      else unserializeSection (obj_unserialize o0) [] db name = Err Panic.
Proof.
  apply (checkpoint_restores "Mon Jan 1" 77 ["arm"; "x86"] ex_objs).
  - reflexivity.
  - lia.
  - reflexivity.
  - discriminate.
  - reflexivity.
  - apply (bool_decide_unpack _). vm_compute. exact I.
  - exact ex_objs_ok.
Defined.
