(* ===== verification/StreamDma.v ===== *)
(** Model of [hwacc/stream_dma.{hh,cc}]: a DMA device that reads frames of
    memory into a stream and writes a stream back to memory frame by frame.
    Its two FIFOs are those of [DmaReadFifo] and [DmaWriteFifo]; both stream
    ports see it through the class [StreamDevice]. *)
From S2P Require Import Prelude CircularQueue ByteFifo CppFloat DmaEvents DmaReadFifo DmaWriteFifo StreamBuffer.
From Stdlib Require Import Floats.SpecFloat.

(** ** Registers *)

Definition FLAGS_OFF : Z := 0.
Definition CONFIG_OFF : Z := FLAGS_OFF + 1.
Definition RD_ADDR_OFF : Z := CONFIG_OFF + 3.
Definition WR_ADDR_OFF : Z := RD_ADDR_OFF + 8.
Definition RD_FRAME_SIZE_OFF : Z := WR_ADDR_OFF + 8.
Definition NUM_RD_FRAMES_OFF : Z := RD_FRAME_SIZE_OFF + 4.
Definition RD_FRAME_BUFF_SIZE_OFF : Z := NUM_RD_FRAMES_OFF + 1.
Definition WR_FRAME_SIZE_OFF : Z := RD_FRAME_BUFF_SIZE_OFF + 1.
Definition NUM_WR_FRAMES_OFF : Z := WR_FRAME_SIZE_OFF + 4.
Definition WR_FRAME_BUFF_SIZE_OFF : Z := NUM_WR_FRAMES_OFF + 1.
Definition BUFFER_ACCESS_OFF : Z := WR_FRAME_BUFF_SIZE_OFF + 1.

Definition RD_START_MASK : Z := 1.
Definition WR_START_MASK : Z := 2.
Definition RD_RUNNING_MASK : Z := 4.
Definition WR_RUNNING_MASK : Z := 8.
Definition RD_INT_MASK : Z := 16.
Definition WR_INT_MASK : Z := 32.

(** What differs between the read and the write half of the device. *)
Record Half := mkHalf {
  start_mask : Z;
  running_mask : Z;
  int_mask : Z;
  addr_off : Z;
  frame_size_off : Z;
  num_frames_off : Z;
  buff_size_off : Z;
  (** [*(uint8_t * )CONFIG] for reads, [*CONFIG>>8] for writes. *)
  int_frames : Z → Z;
}.
Definition rd_half : Half :=
  mkHalf RD_START_MASK RD_RUNNING_MASK RD_INT_MASK RD_ADDR_OFF RD_FRAME_SIZE_OFF NUM_RD_FRAMES_OFF
    RD_FRAME_BUFF_SIZE_OFF u8.
Definition wr_half : Half :=
  mkHalf WR_START_MASK WR_RUNNING_MASK WR_INT_MASK WR_ADDR_OFF WR_FRAME_SIZE_OFF NUM_WR_FRAMES_OFF
    WR_FRAME_BUFF_SIZE_OFF (fun config => u8 (Z.shiftr config 8)).

(** The members of one half ([readAddr], [readFrameSize], [framesToRead], ...
    and [writeAddr], ...), widths 64, 32, 8, 8, 64, 8, 64. *)
Record Frames := mkFrames {
  isRunning : bool;
  frameAddr : Z;
  frameSize : Z;
  framesTo : Z;
  frameBuffSize : Z;
  framesDone : Z;
  intFrames : Z;
  framePtr : Z;
}.
Definition set_isRunning (c : Frames) (b : bool) : Frames :=
  mkFrames b (frameAddr c) (frameSize c) (framesTo c) (frameBuffSize c) (framesDone c) (intFrames c)
    (framePtr c).
Definition set_progress (c : Frames) (done ptr : Z) : Frames :=
  mkFrames (isRunning c) (frameAddr c) (frameSize c) (framesTo c) (frameBuffSize c) done (intFrames c) ptr.

Definition get_flags (mm : list Z) : outcome Z := load_uint mm FLAGS_OFF 1.
Definition put_flags (mm : list Z) (v : Z) : outcome (list Z) := mem_write mm FLAGS_OFF [u8 v].
(** [(FLAGS[0] & mask) == mask]. *)
Definition has_flag (mm : list Z) (mask : Z) : outcome bool :=
  let* fl := get_flags mm in Ok (Z.land fl mask =? mask).
(** [*FLAGS &= ~mask] and [*FLAGS |= mask]. *)
Definition clear_flag (mm : list Z) (mask : Z) : outcome (list Z) :=
  let* fl := get_flags mm in put_flags mm (Z.land fl (Z.lnot mask)).
Definition set_flag (mm : list Z) (mask : Z) : outcome (list Z) :=
  let* fl := get_flags mm in put_flags mm (Z.lor fl mask).

(** ** One half of [tick]

    The two halves of the source are the same code on different members; [F]
    is the FIFO, [start] its [startFill] or [startEmpty]. *)
Section Half.
Context {F A : Type} (active : F → bool) (start : F → Z → Z → outcome (F * list A)) (h : Half).

(** [if (!rdRunning && ((FLAGS[0]&RD_START_MASK)==RD_START_MASK))]. *)
Definition half_start (mm : list Z) (c : Frames) (f : F)
    : outcome (list Z * Frames * F * list A) :=
  let* st := has_flag mm (start_mask h) in
  if negb (isRunning c) && st then
    let* mm := clear_flag mm (start_mask h) in
    let* mm := set_flag mm (running_mask h) in
    let* addr := load_uint mm (addr_off h) 8 in
    let* size := load_uint mm (frame_size_off h) 4 in
    let* num := load_uint mm (num_frames_off h) 1 in
    let* buff := load_uint mm (buff_size_off h) 1 in
    let* config := load_uint mm CONFIG_OFF 2 in
    let c := mkFrames true addr size num buff 0 (int_frames h config) addr in
    let* (f, acts) := start f addr size in
    Ok (mm, c, f, acts)
  else Ok (mm, c, f, []).

(** [if ((FLAGS[0]&RD_INT_MASK) != RD_INT_MASK) gic->clearInt(rdInt)]. *)
Definition half_clear (mm : list Z) (irq : Z) : outcome (list GicCall) :=
  let* fl := has_flag mm (int_mask h) in
  Ok (if (fl : bool) then [] else [ClearInt irq]).

(** [if (rdRunning && !readFifo->isActive())]. *)
Definition half_progress (irq : Z) (mm : list Z) (c : Frames) (f : F)
    : outcome (list Z * Frames * F * list A * list GicCall) :=
  if isRunning c && negb (active f) then
    let c := set_progress c (u64 (framesDone c + 1)) (framePtr c) in
    let* (mm, gic) :=
      if negb (intFrames c =? 0) then
        if framesDone c mod intFrames c =? 0 then
          let* mm := set_flag mm (int_mask h) in Ok (mm, [SendInt irq])
        else Ok (mm, [])
      else Ok (mm, []) in
    if negb (framesTo c =? 0) && (framesTo c <=? framesDone c) then
      let* mm := clear_flag mm (running_mask h) in
      Ok (mm, set_isRunning c false, f, [], gic)
    else
      let* _ := assert_ (negb (frameBuffSize c =? 0)) in
      let ptr := u64 (frameAddr c + u64 (framesDone c mod frameBuffSize c * frameSize c)) in
      let c := set_progress c (framesDone c) ptr in
      let* (f, acts) := start f ptr (frameSize c) in
      Ok (mm, c, f, acts, gic)
  else Ok (mm, c, f, [], []).
End Half.

(** ** The device *)

Abbreviation RFifo := (DmaReadFifo.DmaReadFifo CircularQueue).
Abbreviation WFifo := (DmaWriteFifo.DmaWriteFifo CircularQueue).

(** Configuration; [behind] is what lies behind the temporary blocks. *)
Record SDParams := mkSDParams {
  pioAddr : Z;
  pioDelay : Z;
  pioSize : Z;
  rdInt : Z;
  wrInt : Z;
  sd_bandwidth : spec_float;
  sd_big_endian : bool;
  sd_behind : list Z;
  sd_sys : Sys;
}.

(** The calls on the DMA port and on the GIC are collected, oldest first. *)
Record StreamDma := mkStreamDma {
  mmreg : list Z;
  readFifo : RFifo;
  writeFifo : WFifo;
  rd : Frames;
  wr : Frames;
  running : bool;
  tickScheduled : bool;
  rd_log : list RdAction;
  wr_log : list DmaAction;
  gic_log : list GicCall;
}.

(** The constructor zeroes [pioSize] bytes of a block of 32; the members of
    the two halves have no initial value except the running flags. *)
Definition StreamDma_new (p : SDParams) (rdBufferSize wrBufferSize maxReqSize maxPending uninit : Z)
    (block : list Z) (rd0 wr0 : Frames) : outcome StreamDma :=
  let* mm := mem_write block 0 (replicate (Z.to_nat (pioSize p)) 0) in
  Ok (mkStreamDma mm (DmaReadFifo_new rdBufferSize maxReqSize maxPending uninit)
        (DmaWriteFifo_new wrBufferSize maxReqSize maxPending uninit)
        (set_isRunning rd0 false) (set_isRunning wr0 false) false false [] [] []).

Section Device.
Context (p : SDParams).

Definition schedule_tick (d : StreamDma) : StreamDma :=
  mkStreamDma (mmreg d) (readFifo d) (writeFifo d) (rd d) (wr d) (running d) true
    (rd_log d) (wr_log d) (gic_log d).

(** [tick()], run by the event queue: the event is no longer scheduled. *)
Definition sd_tick (d : StreamDma) : outcome StreamDma :=
  let startR := DmaReadFifo.startFill (sd_sys p) in
  let startW := DmaWriteFifo.startEmpty (sd_sys p) in
  let* (mm, r, rf, ra1) := half_start startR rd_half (mmreg d) (rd d) (readFifo d) in
  let* (mm, w, wf, wa1) := half_start startW wr_half mm (wr d) (writeFifo d) in
  let* g1 := half_clear rd_half mm (rdInt p) in
  let* g2 := half_clear wr_half mm (wrInt p) in
  let* (mm, r, rf, ra2, g3) :=
    half_progress (DmaReadFifo.isActive (Q := CircularQueue)) startR rd_half (rdInt p) mm r rf in
  let* (mm, w, wf, wa2, g4) :=
    half_progress (DmaWriteFifo.isActive (Q := CircularQueue)) startW wr_half (wrInt p) mm w wf in
  let run := isRunning r || isRunning w in
  Ok (mkStreamDma mm rf wf r w run run (rd_log d ++ ra1 ++ ra2) (wr_log d ++ wa1 ++ wa2)
        (gic_log d ++ g1 ++ g2 ++ g3 ++ g4)).

Definition set_rfifo (d : StreamDma) (f : RFifo) (acts : list RdAction) : StreamDma :=
  mkStreamDma (mmreg d) f (writeFifo d) (rd d) (wr d) (running d) (tickScheduled d)
    (rd_log d ++ acts) (wr_log d) (gic_log d).
Definition set_wfifo (d : StreamDma) (f : WFifo) (acts : list DmaAction) : StreamDma :=
  mkStreamDma (mmreg d) (readFifo d) f (rd d) (wr d) (running d) (tickScheduled d)
    (rd_log d) (wr_log d ++ acts) (gic_log d).
Definition set_mmreg (d : StreamDma) (mm : list Z) : StreamDma :=
  mkStreamDma mm (readFifo d) (writeFifo d) (rd d) (wr d) (running d) (tickScheduled d)
    (rd_log d) (wr_log d) (gic_log d).

(** [readFifo->get(buff, size)] and the packet set from [buff]. *)
Definition fifo_read (d : StreamDma) (size : Z) : outcome (list Z * StreamDma) :=
  let* (buff, f, acts) := DmaReadFifo.get (sd_sys p) (readFifo d) size in
  let* data := packet_set (sd_behind p) (sd_big_endian p) buff size in
  Ok (data, set_rfifo d f acts).
(** [writeFifo->fill(data, size)]. *)
Definition fifo_write (d : StreamDma) (data : list Z) : outcome StreamDma :=
  let* (f, acts) := DmaWriteFifo.fill (sd_sys p) (writeFifo d) data in
  Ok (set_wfifo d f acts).

Definition sd_streamRead (d : StreamDma) (size : Z) : outcome (list Z * Z * StreamDma) :=
  let* (data, d) := fifo_read d size in
  let* duration := transfer_ticks size (sd_bandwidth p) in
  Ok (data, duration, d).
Definition sd_streamWrite (d : StreamDma) (data : list Z) : outcome (Z * StreamDma) :=
  let* d := fifo_write d data in
  Ok (pioDelay p, d).

Definition sd_tvalid (d : StreamDma) (len : Z) (isRead : bool) : bool :=
  if isRead then len <=? rf_size (readFifo d)
  else canFill (writeFifo d) len.

(** A register access below [BUFFER_ACCESS_OFF], else the FIFOs. *)
Definition sd_read (d : StreamDma) (paddr size : Z) : outcome (list Z * StreamDma) :=
  let offset := u64 (paddr - pioAddr p) in
  let* (data, d) :=
    if offset <? BUFFER_ACCESS_OFF then
      let* data := load_uint (mmreg d) offset 4 in
      if (size =? 1) || (size =? 2) || (size =? 4) then
        let bs := le_bytes (Z.to_nat size) data in
        Ok (if sd_big_endian p then rev bs else bs, d)
      else Err Panic
    else fifo_read d size in
  Ok (data, schedule_tick d).
Definition sd_write (d : StreamDma) (paddr : Z) (data : list Z) : outcome StreamDma :=
  let offset := u64 (paddr - pioAddr p) in
  let* d :=
    if offset <? BUFFER_ACCESS_OFF then
      let* mm := mem_write (mmreg d) offset data in Ok (set_mmreg d mm)
    else fifo_write d data in
  Ok (schedule_tick d).

#[export] Instance stream_dma_device : StreamDevice StreamDma := {
  tvalid := sd_tvalid;
  streamRead := sd_streamRead;
  streamWrite := sd_streamWrite;
  getBandwidth _ := sd_bandwidth p;
}.
End Device.
