(* ===== verification/StreamDmaSpec.v ===== *)
(** The stream DMA over whole sessions: from its registers, through ticks,
    stream requests and DMA completions in any order, the bytes that leave it
    are the frames in memory and the bytes given to it reach their frame
    buffers. *)
From S2P Require Import Prelude CircularQueue ByteFifo CppFloat DmaEvents DmaReadFifo DmaWriteFifo StreamBuffer StreamDma.
From Stdlib Require Import Floats.SpecFloat.

(** ** The registers as a flags byte and the rest *)

(** What a half of the device was programmed with. *)
Record Prog := mkProg {
  pg_base : Z;
  pg_size : Z;
  pg_num : Z;
  pg_buff : Z;
}.
Definition reg_at (rest : list Z) (off n : Z) : Z :=
  le_val (take (Z.to_nat n) (drop (Z.to_nat (off - 1)) rest)).
Definition prog (h : Half) (rest : list Z) : Prog :=
  mkProg (reg_at rest (addr_off h) 8) (reg_at rest (frame_size_off h) 4)
    (reg_at rest (num_frames_off h) 1) (reg_at rest (buff_size_off h) 1).

Lemma reg_at_range rest off n : 0 ≤ n → 0 ≤ reg_at rest off n < 2 ^ (8 * n).
Proof.
  intros. unfold reg_at. pose proof (le_val_range (take (Z.to_nat n) (drop (Z.to_nat (off - 1)) rest))) as Hr.
  rewrite length_take in Hr. split; [lia|]. eapply Z.lt_le_trans; [apply Hr|].
  apply Z.pow_le_mono_r; lia.
Qed.

Lemma load_reg fl rest off n :
  length rest = 31%nat → 1 ≤ off → 0 ≤ n → off + n ≤ 32 →
  load_uint (fl :: rest) off n = Ok (reg_at rest off n).
Proof.
  intros Hl Ho Hn Hb. unfold load_uint. rewrite mem_read_ok by (simpl; lia). cbn [mbind outcome_bind].
  unfold reg_at. replace (Z.to_nat off) with (S (Z.to_nat (off - 1))) by lia. done.
Qed.

Lemma get_flags_ok fl rest : 0 ≤ fl < 256 → get_flags (fl :: rest) = Ok fl.
Proof.
  intros Hf. unfold get_flags, load_uint, FLAGS_OFF. rewrite mem_read_ok by (simpl; lia).
  cbn [mbind outcome_bind].
  change (take (Z.to_nat 1) (drop (Z.to_nat 0) (fl :: rest))) with [fl]. cbn [le_val].
  rewrite Z.mod_small by lia. f_equal. lia.
Qed.
Lemma put_flags_ok fl rest v : put_flags (fl :: rest) v = Ok (u8 v :: rest).
Proof.
  unfold put_flags, mem_write, FLAGS_OFF. rewrite (proj2 (in_block_spec _ _ _)) by (simpl; lia). done.
Qed.

(** A mask of one bit. *)
Definition bit_mask (mask : Z) : Prop := ∃ b, 0 ≤ b < 8 ∧ mask = 2 ^ b.
Definition flag (fl mask : Z) : bool := Z.land fl mask =? mask.

Lemma flag_testbit fl b : 0 ≤ b → flag fl (2 ^ b) = Z.testbit fl b.
Proof.
  intros Hb. unfold flag. destruct (Z.testbit fl b) eqn:E.
  - apply Z.eqb_eq. apply Z.bits_inj'. intros i Hi. rewrite Z.land_spec, Z.pow2_bits_eqb by lia.
    destruct (Z.eqb_spec b i); [subst; by rewrite E|by rewrite andb_false_r].
  - apply Z.eqb_neq. intros H. apply (f_equal (fun z => Z.testbit z b)) in H.
    rewrite Z.land_spec, E, Z.pow2_bits_true in H by lia. done.
Qed.

(** Clearing or setting one flag leaves the flag of another mask. *)
Lemma flag_clear fl m m' :
  bit_mask m → bit_mask m' → flag (u8 (Z.land fl (Z.lnot m))) m' = flag fl m' && negb (m =? m').
Proof.
  intros (b & Hb & ->) (b' & Hb' & ->). rewrite !flag_testbit by lia.
  unfold wrapU. rewrite Z.mod_pow2_bits_low, Z.land_spec, Z.lnot_spec, Z.pow2_bits_eqb by lia.
  f_equal. f_equal. destruct (Z.eqb_spec b b') as [->|Hne]; [by rewrite Z.eqb_refl|].
  symmetry. apply Z.eqb_neq. intros E. apply Hne. by apply Z.pow_inj_r in E; lia.
Qed.
Lemma flag_set fl m m' :
  bit_mask m → bit_mask m' → flag (u8 (Z.lor fl m)) m' = flag fl m' || (m =? m').
Proof.
  intros (b & Hb & ->) (b' & Hb' & ->). rewrite !flag_testbit by lia.
  unfold wrapU. rewrite Z.mod_pow2_bits_low, Z.lor_spec, Z.pow2_bits_eqb by lia.
  f_equal. destruct (Z.eqb_spec b b') as [->|Hne]; [by rewrite Z.eqb_refl|].
  symmetry. apply Z.eqb_neq. intros E. apply Hne. by apply Z.pow_inj_r in E; lia.
Qed.

(** The registers hold the flags [fl] in front of [rest]. *)
Definition mm_ok (mm : list Z) (fl : Z) (rest : list Z) : Prop :=
  mm = fl :: rest ∧ 0 ≤ fl < 256 ∧ length rest = 31%nat.

Lemma u8_range z : 0 ≤ u8 z < 256.
Proof. apply (wrapU_range 8). lia. Qed.

Lemma has_flag_ok mm fl rest m : mm_ok mm fl rest → has_flag mm m = Ok (flag fl m).
Proof. intros (-> & ? & ?). unfold has_flag. by rewrite get_flags_ok. Qed.
Lemma clear_flag_ok mm fl rest m :
  mm_ok mm fl rest →
  ∃ mm', clear_flag mm m = Ok mm' ∧ mm_ok mm' (u8 (Z.land fl (Z.lnot m))) rest.
Proof.
  intros (-> & ? & ?). unfold clear_flag. rewrite get_flags_ok by done. cbn [mbind outcome_bind].
  rewrite put_flags_ok. eexists. split; [done|]. split_and!; try done; apply u8_range.
Qed.
Lemma set_flag_ok mm fl rest m :
  mm_ok mm fl rest → ∃ mm', set_flag mm m = Ok mm' ∧ mm_ok mm' (u8 (Z.lor fl m)) rest.
Proof.
  intros (-> & ? & ?). unfold set_flag. rewrite get_flags_ok by done. cbn [mbind outcome_bind].
  rewrite put_flags_ok. eexists. split; [done|]. split_and!; try done; apply u8_range.
Qed.

(** ** What one half does in a tick *)

(** The address of the [k]-th frame: the frame buffers are used in turn. *)
Definition frame_ptr (g : Prog) (k : Z) : Z := pg_base g + k mod pg_buff g * pg_size g.

(** The frame buffers exist and lie in the address space. *)
Record prog_ok (g : Prog) : Prop := {
  po_base : 0 ≤ pg_base g;
  po_size : 0 ≤ pg_size g;
  po_num : 0 ≤ pg_num g;
  po_buff : 0 < pg_buff g;
  po_fits : pg_base g + pg_buff g * pg_size g < 2 ^ 64;
}.

Lemma frame_ptr_range g k :
  prog_ok g → pg_base g ≤ frame_ptr g k ∧ frame_ptr g k + pg_size g < 2 ^ 64.
Proof.
  intros [? ? ? Hb ?]. unfold frame_ptr. pose proof (Z.mod_pos_bound k _ Hb). nia.
Qed.

Lemma frame_ptr_0 g : prog_ok g → frame_ptr g 0 = pg_base g.
Proof. intros [? ? ? Hb ?]. unfold frame_ptr. rewrite Z.mod_0_l by lia. lia. Qed.

(** The members while the [k]-th frame is transferred. *)
Record running_at (g : Prog) (k : Z) (c : Frames) : Prop := {
  ra_run : isRunning c = true;
  ra_base : frameAddr c = pg_base g;
  ra_fsize : frameSize c = pg_size g;
  ra_num : framesTo c = pg_num g;
  ra_buff : frameBuffSize c = pg_buff g;
  ra_done : framesDone c = k;
}.

(** The masks and offsets of a half. *)
Record half_wf (h : Half) : Prop := {
  hw_start : bit_mask (start_mask h);
  hw_running : bit_mask (running_mask h);
  hw_int : bit_mask (int_mask h);
  hw_sr : running_mask h ≠ start_mask h;
  hw_si : int_mask h ≠ start_mask h;
  hw_addr : 1 ≤ addr_off h ≤ 24;
  hw_fsize : 1 ≤ frame_size_off h ≤ 28;
  hw_num : 1 ≤ num_frames_off h ≤ 31;
  hw_buff : 1 ≤ buff_size_off h ≤ 31;
}.
Definition touches (h : Half) (m : Z) : Prop :=
  m = start_mask h ∨ m = running_mask h ∨ m = int_mask h.

(** From flags [fl] to [fl'], only the half's own flags changed. *)
Definition own_flags (h : Half) (fl fl' : Z) : Prop :=
  ∀ m, bit_mask m → ¬ touches h m → flag fl' m = flag fl m.

Lemma rd_half_wf : half_wf rd_half.
Proof.
  split; first [exists 0; split; [lia|reflexivity] | exists 2; split; [lia|reflexivity]
    | exists 4; split; [lia|reflexivity] | vm_compute; split; discriminate | vm_compute; discriminate].
Qed.
Lemma wr_half_wf : half_wf wr_half.
Proof.
  split; first [exists 1; split; [lia|reflexivity] | exists 3; split; [lia|reflexivity]
    | exists 5; split; [lia|reflexivity] | vm_compute; split; discriminate | vm_compute; discriminate].
Qed.
Lemma halves_disjoint : ¬ touches wr_half (start_mask rd_half) ∧ ¬ touches rd_half (start_mask wr_half).
Proof. unfold touches. vm_compute. split; intros [?|[?|?]]; done. Qed.

Lemma own_flags_clear h fl m : half_wf h → touches h m → own_flags h fl (u8 (Z.land fl (Z.lnot m))).
Proof.
  intros W Ht m' Hm' Hn. rewrite flag_clear; [|by destruct W, Ht as [->|[->| ->]]|done].
  destruct (Z.eqb_spec m m') as [->|]; [done|]. by rewrite andb_true_r.
Qed.
Lemma own_flags_set h fl m : half_wf h → touches h m → own_flags h fl (u8 (Z.lor fl m)).
Proof.
  intros W Ht m' Hm' Hn. rewrite flag_set; [|by destruct W, Ht as [->|[->| ->]]|done].
  destruct (Z.eqb_spec m m') as [->|]; [done|]. by rewrite orb_false_r.
Qed.

#[export] Instance own_flags_preorder h : PreOrder (own_flags h).
Proof. split; [by intros ? ?|]. intros x y z H1 H2 m Hm Hn. by rewrite H2, H1. Qed.

Section HalfProofs.
Context {F A : Type} (active : F → bool) (start : F → Z → Z → outcome (F * list A)) (h : Half).
Context (rest : list Z).
Hypothesis W : half_wf h.
Abbreviation g := (prog h rest).

Lemma half_start_idle mm fl c f :
  mm_ok mm fl rest → isRunning c = true ∨ flag fl (start_mask h) = false →
  half_start start h mm c f = Ok (mm, c, f, []).
Proof.
  intros Hm Hi. unfold half_start. rewrite (has_flag_ok _ _ _ _ Hm). cbn [mbind outcome_bind].
  destruct Hi as [-> | ->]; [done|]. by rewrite andb_false_r.
Qed.

Lemma half_start_go mm fl c f :
  mm_ok mm fl rest → isRunning c = false → flag fl (start_mask h) = true →
  ∃ mm' fl' c', mm_ok mm' fl' rest ∧ flag fl' (start_mask h) = false ∧ own_flags h fl fl' ∧
    running_at g 0 c' ∧
    half_start start h mm c f =
      let* (f, acts) := start f (pg_base g) (pg_size g) in Ok (mm', c', f, acts).
Proof.
  intros Hm Hr Hf. unfold half_start. rewrite (has_flag_ok _ _ _ _ Hm). cbn [mbind outcome_bind].
  rewrite Hr, Hf. cbn [negb andb].
  destruct (clear_flag_ok _ _ _ (start_mask h) Hm) as (m1 & -> & Hm1). cbn [mbind outcome_bind].
  destruct (set_flag_ok _ _ _ (running_mask h) Hm1) as (m2 & -> & Hm2). cbn [mbind outcome_bind].
  pose proof Hm2 as (E2 & _ & Hl). rewrite E2. pose proof W as [W1 W2 W3 W4 W5 ? ? ? ?].
  rewrite !load_reg by (done || unfold CONFIG_OFF, FLAGS_OFF; lia). cbn [mbind outcome_bind].
  rewrite <-E2. eexists m2, _, _. split; [exact Hm2|]. split_and!; [| | |reflexivity].
  - rewrite flag_set, flag_clear, Z.eqb_refl by done. rewrite andb_false_r. by apply Z.eqb_neq.
  - etrans; [apply own_flags_clear|apply own_flags_set]; try done; unfold touches; auto.
  - by split.
Qed.

Lemma half_progress_idle irq mm c f :
  isRunning c = false ∨ active f = true → half_progress active start h irq mm c f = Ok (mm, c, f, [], []).
Proof. unfold half_progress. intros [-> | ->]; [done|]. by rewrite andb_false_r. Qed.

(** A finished frame: the last one stops the half, another one starts the
    next. *)
Lemma half_progress_go irq mm fl c f k :
  mm_ok mm fl rest → prog_ok g → running_at g k c → active f = false → 0 ≤ k < 2 ^ 64 - 1 →
  ∃ mm' fl' c' gic, mm_ok mm' fl' rest ∧ flag fl' (start_mask h) = flag fl (start_mask h) ∧
    own_flags h fl fl' ∧
    if negb (pg_num g =? 0) && (pg_num g <=? k + 1) then
      isRunning c' = false ∧ half_progress active start h irq mm c f = Ok (mm', c', f, [], gic)
    else
      running_at g (k + 1) c' ∧
      half_progress active start h irq mm c f =
        let* (f, acts) := start f (frame_ptr g (k + 1)) (pg_size g) in Ok (mm', c', f, acts, gic).
Proof.
  intros Hm Hg [Rr Rb Rs Rn Rf Rd] Ha Hk. unfold half_progress. rewrite Rr, Ha. cbn [andb negb].
  cbn [set_progress intFrames framesDone framesTo frameBuffSize frameAddr frameSize].
  rewrite Rd, Rn, Rf, Rb, Rs. rewrite (wrapU_id 64 (k + 1)) by (split; lia).
  set (irqs := if negb (intFrames c =? 0) then _ else _).
  assert (∃ mm1 fl1 gic, irqs = Ok (mm1, gic) ∧ mm_ok mm1 fl1 rest ∧
    flag fl1 (start_mask h) = flag fl (start_mask h) ∧ own_flags h fl fl1)
    as (mm1 & fl1 & gic & -> & Hm1 & Hf1 & Ho1).
  { unfold irqs. destruct (negb _); [|by exists mm, fl, []]. destruct (_ =? 0); [|by exists mm, fl, []].
    destruct (set_flag_ok _ _ _ (int_mask h) Hm) as (m1 & -> & Hm1). cbn [mbind outcome_bind].
    eexists m1, _, _. split_and!; [done|exact Hm1| |].
    - rewrite flag_set by apply W. rewrite (proj2 (Z.eqb_neq _ _)) by apply W. by rewrite orb_false_r.
    - apply own_flags_set; [done|]. unfold touches. auto. }
  cbn [mbind outcome_bind]. destruct (negb (pg_num g =? 0) && (pg_num g <=? k + 1)).
  - destruct (clear_flag_ok _ _ _ (running_mask h) Hm1) as (m2 & -> & Hm2). cbn [mbind outcome_bind].
    eexists m2, _, _, gic. split_and!; [exact Hm2| | | |done]; [| |done].
    + rewrite flag_clear by apply W. rewrite (proj2 (Z.eqb_neq _ _)) by apply W. by rewrite andb_true_r.
    + etrans; [exact Ho1|]. apply own_flags_clear; [done|]. unfold touches. auto.
  - pose proof (frame_ptr_range g (k + 1) Hg) as [Hp1 Hp2]. pose proof Hg as [? ? ? ? ?].
    rewrite (proj2 (Z.eqb_neq (pg_buff g) 0)) by lia. cbn [negb assert_ mbind outcome_bind].
    pose proof (Z.mod_pos_bound (k + 1) (pg_buff g) ltac:(lia)).
    rewrite (wrapU_id 64 (_ mod _ * _)) by (split; nia).
    fold (frame_ptr g (k + 1)). rewrite wrapU_id by (split; lia).
    eexists mm1, fl1, _, gic. split_and!; [done|done|done| |reflexivity].
    split; cbn [set_progress isRunning frameAddr frameSize framesTo frameBuffSize framesDone]; done.
Qed.
End HalfProofs.

(** ** Events at the device *)

(** A tick, when one is scheduled; a request at a stream port that the device
    accepts; the completion of a DMA read, with the bytes of the memory [μ], or
    of a DMA write. *)
Inductive SDEvent :=
  | DTick
  | DOut (size : Z)
  | DIn (data : list Z)
  | DRdDone (i : nat)
  | DWrDone (i : nat).

Definition sd_ev_ok (e : SDEvent) : Prop :=
  match e with
  | DOut k => k = 1 ∨ k = 2 ∨ k = 4 ∨ k = 8
  | DIn xs => Z.of_nat (length xs) < 2 ^ 32
  | _ => True
  end.

Section Events.
Context (p : SDParams) (μ : Z → Z).

(** The addresses of the DMA reads in flight, as the DMA port keeps them. *)
Definition sd_track (d d' : StreamDma) (addrs : list Z) : list Z :=
  track (readFifo d) (readFifo d') addrs (drop (length (rd_log d)) (rd_log d')).

(** The new state, the bytes that left and the bytes that entered. *)
Definition sd_event (da : StreamDma * list Z) (e : SDEvent)
    : outcome (StreamDma * list Z * list Z * list Z) :=
  let '(d, addrs) := da in
  match e with
  | DTick =>
      if tickScheduled d then
        let* d' := sd_tick p d in Ok (d', sd_track d d' addrs, [], [])
      else Ok (d, addrs, [], [])
  | DOut k =>
      if sd_tvalid d k true then
        let* (data, _, d') := sd_streamRead p d k in Ok (d', sd_track d d' addrs, data, [])
      else Ok (d, addrs, [], [])
  | DIn xs =>
      if sd_tvalid d (Z.of_nat (length xs)) false then
        let* (_, d') := sd_streamWrite p d xs in Ok (d', addrs, [], xs)
      else Ok (d, addrs, [], [])
  | DRdDone i =>
      match DmaReadFifo.pendingRequests (readFifo d) !! i, addrs !! i with
      | Some ev, Some a =>
          if _done ev then Ok (d, addrs, [], [])
          else
            let* (f, acts) :=
              DmaReadFifo.process (sd_sys p) (readFifo d) i (bytes μ a (_requestSize ev)) in
            let d' := set_rfifo d f acts in
            Ok (d', sd_track d d' addrs, [], [])
      | _, _ => Ok (d, addrs, [], [])
      end
  | DWrDone i =>
      match DmaWriteFifo.pendingRequests (writeFifo d) !! i with
      | Some ev =>
          if _done ev then Ok (d, addrs, [], [])
          else
            let* (f, acts) := DmaWriteFifo.process (sd_sys p) (writeFifo d) i in
            Ok (set_wfifo d f acts, addrs, [], [])
      | None => Ok (d, addrs, [], [])
      end
  end.

Fixpoint sd_run (da : StreamDma * list Z) (es : list SDEvent)
    : outcome (StreamDma * list Z * list Z * list Z) :=
  match es with
  | [] => Ok (da.1, da.2, [], [])
  | e :: es =>
      let* (da, o, i) := sd_event da e in
      let* (da, outs, ins) := sd_run da es in
      Ok (da, o ++ outs, i ++ ins)
  end.
End Events.

(** ** Invariant *)

(** The bytes of the frames before the [k]-th, as memory holds them. *)
Definition frames_upto (μ : Z → Z) (g : Prog) (k : Z) : list Z :=
  seqZ 0 k ≫= fun j => bytes μ (frame_ptr g j) (pg_size g).

Lemma frames_upto_succ μ g k :
  0 ≤ k → frames_upto μ g (k + 1) = frames_upto μ g k ++ bytes μ (frame_ptr g k) (pg_size g).
Proof.
  intros. unfold frames_upto. rewrite seqZ_app, bind_app by lia. f_equal.
  change (seqZ (0 + k) 1) with [Z.of_nat 0 + (0 + k)]. rewrite !Z.add_0_l. apply app_nil_r.
Qed.

(** Where a half stands: [k] frames are complete; while it runs, the current
    one starts at [org], its next address is [next] and it ends at [end_].
    [st] is the start flag, [n] the number of events to come. *)
Record HalfInv (n : nat) (g : Prog) (st : bool) (c : Frames) (k next end_ org : Z) : Prop := {
  hv_k : 0 ≤ k ∧ k + Z.of_nat n < 2 ^ 64 - 1;
  hv_run : isRunning c = true →
    running_at g k c ∧ org = frame_ptr g k ∧ org ≤ next ∧ end_ = org + pg_size g ∧
    (pg_num g ≠ 0 → k < pg_num g) ∧ st = false;
  hv_idle : isRunning c = false →
    org = end_ ∧ next = end_ ∧ (k = 0 ∨ (k = pg_num g ∧ st = false));
}.

Lemma half_weaken n g st c k next end_ org :
  HalfInv (S n) g st c k next end_ org → HalfInv n g st c k next end_ org.
Proof. intros [? ? ?]. split; [lia|done|done]. Qed.

(** The FIFO goes on with the current block. *)
Lemma half_advance n g st c k next end_ org next' :
  HalfInv n g st c k next end_ org → next ≤ next' ≤ end_ → HalfInv n g st c k next' end_ org.
Proof.
  intros [Hk Hr Hi] Hn. split; [done| |].
  - intros (? & ? & ? & ? & ? & ?)%Hr. split_and!; try done; lia.
  - intros (? & ? & ?)%Hi. split_and!; try done. lia.
Qed.

(** The first frame starts. *)
Lemma half_started n g c c' k next end_ org next' :
  prog_ok g → HalfInv n g true c k next end_ org → isRunning c = false → running_at g 0 c' →
  pg_base g ≤ next' →
  k = 0 ∧ HalfInv n g false c' 0 next' (pg_base g + pg_size g) (pg_base g).
Proof.
  intros Hg [Hk _ Hi] Hr Hc Hn. destruct (Hi Hr) as (_ & _ & [->|[_ ?]]); [|done]. split; [done|].
  split; [done| |].
  - intros _. rewrite frame_ptr_0 by done. split_and!; try done. destruct Hg. lia.
  - destruct Hc. congruence.
Qed.

(** The next frame starts. *)
Lemma half_next n g st c c' k next org next' :
  HalfInv (S n) g st c k next (org + pg_size g) org → isRunning c = true →
  negb (pg_num g =? 0) && (pg_num g <=? k + 1) = false → running_at g (k + 1) c' →
  frame_ptr g (k + 1) ≤ next' →
  HalfInv n g st c' (k + 1) next' (frame_ptr g (k + 1) + pg_size g) (frame_ptr g (k + 1)).
Proof.
  intros [Hk Hr _] Hrun Hm Hc Hn. destruct (Hr Hrun) as (_ & _ & _ & _ & Hnum & Hst).
  split; [lia| |destruct Hc; congruence]. intros _. split_and!; try done. intros Hz.
  apply andb_false_iff in Hm as [Hm|Hm]; zbool; lia.
Qed.

(** The last frame is complete. *)
Lemma half_finished n g st c c' k next end_ org :
  HalfInv (S n) g st c k next end_ org → isRunning c = true → isRunning c' = false → next = end_ →
  negb (pg_num g =? 0) && (pg_num g <=? k + 1) = true →
  HalfInv n g st c' (k + 1) next end_ end_.
Proof.
  intros [Hk Hr _] Hrun Hidle Hne Hm. destruct (Hr Hrun) as (_ & _ & _ & _ & Hnum & Hst). zbool.
  split; [lia|congruence|]. intros _. split_and!; try done. right. split; [lia|done].
Qed.

Lemma contiguous_le a acts b : contiguous a acts b → a ≤ b.
Proof. intros H. apply contiguous_length in H. lia. Qed.

Lemma contiguous_nil a acts :
  contiguous a acts a → Forall (fun x => 0 < Z.of_nat (length (da_data x))) acts → acts = [].
Proof.
  destruct acts as [|x acts]; [done|]. intros [_ H] [Hx _]%Forall_cons.
  apply contiguous_le in H. lia.
Qed.

Lemma sent_sizes (f : WFifo) l f' acts l' :
  sent f l f' acts l' → Forall (fun a => 0 < Z.of_nat (length (da_data a))) acts.
Proof. intros S. eapply Forall_impl; [apply S|]. cbn. lia. Qed.

Lemma half_org n g st c k next end_ org : HalfInv n g st c k next end_ org → org ≤ next.
Proof.
  intros [_ Hr Hi]. destruct (isRunning c).
  - by destruct (Hr eq_refl) as (_ & _ & ? & _).
  - destruct (Hi eq_refl) as (-> & -> & _). lia.
Qed.

Section Sides.
Context (sys : Sys) (μ : Z → Z) (P : nat).
(** The start flag of the read half as it was programmed. *)
Context (st0 : bool).
Hypothesis timing : bypassCaches sys = false.
Hypothesis Ppos : (0 < P)%nat.

(** The read half: what has left and what is on its way are the complete
    frames and the part of the current one that has been requested.  While it
    stands, nothing is on its way, and with no frame read its start flag is as
    it was programmed. *)
Record RdSide (n : nat) (g : Prog) (st : bool) (c : Frames) (f : RFifo) (addrs outs l : list Z)
    (k org : Z) : Prop := {
  rs_ready : RReady μ P n f addrs l;
  rs_half : HalfInv n g st c k (DmaReadFifo.nextAddr f) (DmaReadFifo.endAddr f) org;
  rs_stream : outs ++ stream μ f addrs l
    = frames_upto μ g k ++ bytes μ org (DmaReadFifo.nextAddr f - org);
  rs_stands : isRunning c = false →
    DmaReadFifo.pendingRequests f = [] ∧ (k = 0 → st = st0);
}.

(** The write half: complete frames, then the part of the current one. *)
Record WrSide (n : nat) (g : Prog) (st : bool) (c : Frames) (f : WFifo) (log : list DmaAction)
    (ins l : list Z) (k org : Z) : Prop := {
  ws_ready : WReady P n f l;
  ws_half : HalfInv n g st c k (DmaWriteFifo.nextAddr f) (DmaWriteFifo.endAddr f) org;
  ws_data : acts_data log ++ l = ins;
  ws_frames : ∃ frames cur, log = mjoin frames ++ cur ∧ Z.of_nat (length frames) = k ∧
    (∀ j acts, frames !! j = Some acts →
      contiguous (frame_ptr g (Z.of_nat j)) acts (frame_ptr g (Z.of_nat j) + pg_size g)) ∧
    contiguous org cur (DmaWriteFifo.nextAddr f);
  ws_sizes : Forall (fun a => 0 < Z.of_nat (length (da_data a))) log;
}.

(** At the end of a block nothing is asked for. *)
Lemma reads_end a acts : reads a acts a → acts = [].
Proof.
  destruct acts as [|x acts]; [done|]. intros (_ & Hx & Hr). destruct (reads_bytes μ _ _ _ Hr). lia.
Qed.

(** An operation on the read FIFO within the block. *)
Lemma rd_advance n n' g st c f addrs outs l k org f' addrs' out l' acts :
  RdSide n g st c f addrs outs l k org → (n' ≤ n)%nat → fetched f f' acts →
  RReady μ P n' f' addrs' l' →
  (length (DmaReadFifo.pendingRequests f') ≤ length (DmaReadFifo.pendingRequests f) + length acts)%nat →
  out ++ stream μ f' addrs' l' = stream μ f addrs l ++ acts_bytes μ acts →
  RdSide n' g st c f' addrs' (outs ++ out) l' k org.
Proof.
  intros [HR HH HS HQ] Hn [Re E M Fi _] HR' Hlen HS'.
  pose proof (ri_addr _ _ _ _ _ _ (rr_inv _ _ _ _ _ _ HR')) as Ha.
  destruct (reads_bytes μ _ _ _ Re) as [Hle Hb]. split; [done| | |].
  - rewrite E. apply (half_advance n' g st c k (DmaReadFifo.nextAddr f)); [|lia].
    destruct HH as [? ? ?]. split; [lia|done|done].
  - pose proof (half_org _ _ _ _ _ _ _ _ HH) as Ho.
    rewrite <-app_assoc, HS', app_assoc, HS, Hb, <-app_assoc. f_equal.
    replace (DmaReadFifo.nextAddr f' - org) with
      ((DmaReadFifo.nextAddr f - org) + (DmaReadFifo.nextAddr f' - DmaReadFifo.nextAddr f)) by lia.
    rewrite bytes_app by lia. f_equal. f_equal. lia.
  - intros Hc. destruct (HQ Hc) as [Hp Hst]. split; [|done].
    destruct (hv_idle _ _ _ _ _ _ _ _ HH Hc) as (_ & En & _).
    assert (DmaReadFifo.nextAddr f' = DmaReadFifo.nextAddr f) as En' by lia. rewrite En' in Re.
    apply reads_end in Re as ->. rewrite Hp in Hlen. by apply nil_length_inv; simpl in *; lia.
Qed.

(** The read FIFO starts a block. *)
Lemma rd_restart n g f addrs outs l k a s :
  RReady μ P n f addrs l → DmaReadFifo.atEndOfBlock f = true →
  0 ≤ a → 0 ≤ s → a + s < 2 ^ 64 →
  outs ++ stream μ f addrs l = frames_upto μ g k →
  ∃ f' acts, DmaReadFifo.startFill sys f a s = Ok (f', acts) ∧ a ≤ DmaReadFifo.nextAddr f' ∧
    DmaReadFifo.endAddr f' = a + s ∧ RReady μ P n f' (addrs ++ (ra_addr <$> acts)) l ∧
    length (DmaReadFifo.pendingRequests f') = (length (DmaReadFifo.pendingRequests f) + length acts)%nat ∧
    outs ++ stream μ f' (addrs ++ (ra_addr <$> acts)) l
      = frames_upto μ g k ++ bytes μ a (DmaReadFifo.nextAddr f' - a).
Proof.
  intros HR He Ha Hs Hb HS.
  destruct (rd_startFill_ok μ sys timing P n f addrs l a s HR Ppos He Ha Hs Hb)
    as (f' & acts & -> & [Re E _ _ _] & HR' & Hlen & HS'). cbn in Re, E.
  destruct (reads_bytes μ _ _ _ Re) as [Hle Hby].
  exists f', acts. split_and!; try done. by rewrite HS', app_assoc, HS, Hby.
Qed.

(** What one half of a tick makes of the read side. *)
Definition rd_after (n : nat) g (f : RFifo) addrs outs l (r : Frames * RFifo * list RdAction) st : Prop :=
  let '(c', f', acts) := r in
  ∃ k' org', RdSide n g st c' f' (addrs ++ (ra_addr <$> acts)) outs l k' org' ∧
    length (DmaReadFifo.pendingRequests f') = (length (DmaReadFifo.pendingRequests f) + length acts)%nat.

Lemma rd_after_refl n g st c f addrs outs l k org :
  RdSide n g st c f addrs outs l k org → rd_after n g f addrs outs l (c, f, []) st.
Proof. intros HS. exists k, org. rewrite app_nil_r. split; [done|simpl; lia]. Qed.

Lemma rd_start_side n rest mm fl c f addrs outs l k org :
  let g := prog rd_half rest in
  mm_ok mm fl rest → prog_ok g →
  RdSide n g (flag fl (start_mask rd_half)) c f addrs outs l k org →
  ∃ mm' fl' c' f' acts, half_start (DmaReadFifo.startFill sys) rd_half mm c f = Ok (mm', c', f', acts) ∧
    mm_ok mm' fl' rest ∧ own_flags rd_half fl fl' ∧
    rd_after n g f addrs outs l (c', f', acts) (flag fl' (start_mask rd_half)).
Proof.
  intros g Hm Hg HS. destruct (isRunning c) eqn:Er.
  { rewrite (half_start_idle _ _ rest _ fl) by auto. eexists _, fl, _, _, _. split_and!; try done.
    by eapply rd_after_refl. }
  destruct (flag fl (start_mask rd_half)) eqn:Ef.
  2:{ rewrite (half_start_idle _ _ rest _ fl) by auto. eexists _, fl, _, _, _. split_and!; try done.
      rewrite Ef. by eapply rd_after_refl. }
  destruct (half_start_go (DmaReadFifo.startFill sys) rd_half rest rd_half_wf mm fl c f Hm Er Ef)
    as (mm' & fl' & c' & Hm' & Hf' & Ho & Hc' & ->). fold g in Hc' |- *.
  destruct HS as [HR HH HE _].
  destruct (hv_idle _ _ _ _ _ _ _ _ HH Er) as (Eo & En & _).
  destruct Hg as [? ? ? ? Hfit] eqn:EHg. clear EHg.
  destruct (half_started n g c c' k _ _ _ (pg_base g) Hg HH Er Hc') as [-> _]; [lia|].
  destruct (rd_restart n g f addrs outs l 0 (pg_base g) (pg_size g) HR)
    as (f' & acts & -> & Hle & Hend & HR' & Hlen & HS'); [by apply Z.eqb_eq|lia|lia|nia| |].
  { rewrite HE, Eo, En, Z.sub_diag. apply app_nil_r. }
  cbn [mbind outcome_bind]. eexists _, fl', _, _, _. split_and!; try done.
  exists 0, (pg_base g). split; [|done]. rewrite Hf'. split; [done| |done|destruct Hc'; congruence].
  rewrite Hend. by apply (half_started n g c c' 0 _ _ _ _ Hg HH Er Hc' Hle).
Qed.

Lemma rd_progress_side n irq rest mm fl c f addrs outs l k org :
  let g := prog rd_half rest in
  mm_ok mm fl rest → prog_ok g →
  RdSide (S n) g (flag fl (start_mask rd_half)) c f addrs outs l k org →
  ∃ mm' fl' c' f' acts gic,
    half_progress (DmaReadFifo.isActive (Q := CircularQueue)) (DmaReadFifo.startFill sys) rd_half irq mm c f
      = Ok (mm', c', f', acts, gic) ∧
    mm_ok mm' fl' rest ∧ own_flags rd_half fl fl' ∧
    rd_after n g f addrs outs l (c', f', acts) (flag fl' (start_mask rd_half)).
Proof.
  intros g Hm Hg HS.
  assert (RdSide n g (flag fl (start_mask rd_half)) c f addrs outs l k org) as HS0.
  { destruct HS as [HR HH HE HQ]. split; [exact (rready_weaken _ _ _ _ _ _ HR)|by apply half_weaken|done..]. }
  destruct (decide (isRunning c = false ∨ DmaReadFifo.isActive f = true)) as [Hd|Hd].
  { rewrite half_progress_idle by done. eexists _, fl, _, _, _, _. split_and!; try done.
    by eapply rd_after_refl. }
  apply Decidable.not_or in Hd as [Hr Ha]. apply not_false_iff_true in Hr. apply not_true_iff_false in Ha.
  destruct HS as [HR HH HE HQ]. destruct (hv_run _ _ _ _ _ _ _ _ HH Hr) as (Hc & Eo & Hon & Ee & _ & _).
  destruct (half_progress_go (DmaReadFifo.isActive (Q := CircularQueue)) (DmaReadFifo.startFill sys) rd_half
    rest rd_half_wf irq mm fl c f k Hm Hg Hc Ha) as (mm' & fl' & c' & gic & Hm' & Hf' & Ho & HP).
  { destruct (hv_k _ _ _ _ _ _ _ _ HH). lia. }
  fold g in HP. unfold DmaReadFifo.isActive in Ha. apply negb_false_iff, andb_true_iff in Ha as [Hpend Hend].
  pose proof Hend as En. apply Z.eqb_eq in En. pose proof (hv_k _ _ _ _ _ _ _ _ HH) as Hk.
  assert (outs ++ stream μ f addrs l = frames_upto μ g (k + 1)) as HE'.
  { rewrite HE, frames_upto_succ, En, Ee, Eo by lia. f_equal. f_equal. lia. }
  destruct (_ && _) eqn:Efin.
  - destruct HP as [Hc' ->]. eexists _, fl', _, _, _, _. split_and!; try done.
    exists (k + 1), (DmaReadFifo.endAddr f). rewrite app_nil_r. split; [|simpl; lia].
    rewrite Hf'. split; [exact (rready_weaken _ _ _ _ _ _ HR)| |by rewrite HE', En, Z.sub_diag, app_nil_r|].
    { by eapply half_finished. }
    intros _. split; [|lia]. by destruct (DmaReadFifo.pendingRequests f).
  - destruct HP as [Hc' ->]. pose proof (frame_ptr_range g (k + 1) Hg) as [? ?]. pose proof Hg as [? ? _ _ _].
    destruct (rd_restart n g f addrs outs l (k + 1) (frame_ptr g (k + 1)) (pg_size g) (rready_weaken _ _ _ _ _ _ HR) Hend)
      as (f' & acts & -> & Hle & Hend' & HR' & Hlen & HS'); [lia|lia|lia|done|].
    cbn [mbind outcome_bind]. eexists _, fl', _, _, _, _. split_and!; try done.
    exists (k + 1), (frame_ptr g (k + 1)). split; [|done]. rewrite Hf'. split; [done| |done|destruct Hc'; congruence].
    rewrite Hend'. rewrite Ee in HH. by eapply half_next.
Qed.

(** ** The write side *)

(** An operation on the write FIFO within the block. *)
Lemma wr_advance n n' g st c f log ins l k org f' xs l' acts :
  WrSide n g st c f log ins l k org → (n' ≤ n)%nat → sent f (l ++ xs) f' acts l' →
  WReady P n' f' l' → WrSide n' g st c f' (log ++ acts) (ins ++ xs) l' k org.
Proof.
  intros [HW HH HD (frames & cur & -> & Hlen & Hfr & Hcur) Hz] Hn Hse HW'.
  pose proof (sent_sizes _ _ _ _ _ Hse) as Hz'. destruct Hse as [Da Co E M Fi _].
  pose proof (wi_addr _ _ _ _ (wr_inv _ _ _ _ HW')) as Ha. pose proof (contiguous_le _ _ _ Co) as Hle.
  split; [done| | | |by apply Forall_app].
  - rewrite E. apply (half_advance n' g st c k (DmaWriteFifo.nextAddr f)); [|lia].
    destruct HH as [? ? ?]. split; [lia|done|done].
  - by rewrite acts_data_app, <-app_assoc, Da, app_assoc, HD.
  - exists frames, (cur ++ acts). rewrite app_assoc. split_and!; try done. by eapply contiguous_app.
Qed.

(** The frames written when the current block is complete. *)
Lemma wr_complete n g st c f log ins l k org :
  WrSide n g st c f log ins l k org → isRunning c = true →
  DmaWriteFifo.nextAddr f = DmaWriteFifo.endAddr f →
  ∃ frames, log = mjoin frames ∧ Z.of_nat (length frames) = k + 1 ∧
    ∀ j acts, frames !! j = Some acts →
      contiguous (frame_ptr g (Z.of_nat j)) acts (frame_ptr g (Z.of_nat j) + pg_size g).
Proof.
  intros [HW HH HD (frames & cur & -> & Hlen & Hfr & Hcur) _] Hr En.
  destruct (hv_run _ _ _ _ _ _ _ _ HH Hr) as (_ & Eo & _ & Ee & _ & _).
  exists (frames ++ [cur]). rewrite join_app. cbn. rewrite app_nil_r. split; [done|].
  rewrite length_app. split; [simpl; lia|]. intros j acts Hj.
  apply lookup_app_Some in Hj as [Hj|[Hge Hj]]; [by apply Hfr|].
  apply list_lookup_singleton_Some in Hj as [Hj <-].
  assert (Z.of_nat j = k) as -> by lia. by rewrite <-Eo, <-Ee, <-En.
Qed.

Definition wr_after (n : nat) (g : Prog) (log : list DmaAction) (ins : list Z)
    (r : Frames * WFifo * list DmaAction) (st : bool) : Prop :=
  let '(c', f', acts) := r in
  ∃ l' k' org', WrSide n g st c' f' (log ++ acts) ins l' k' org'.

Lemma wr_after_refl n g st c f log ins l k org :
  WrSide n g st c f log ins l k org → wr_after n g log ins (c, f, []) st.
Proof. intros HS. exists l, k, org. by rewrite app_nil_r. Qed.

(** The write FIFO starts a block after the complete [frames]. *)
Lemma wr_restart n g f log ins l frames c st a :
  WReady P n f l → DmaWriteFifo.atEndOfBlock f = true → 0 ≤ a → 0 ≤ pg_size g →
  a + pg_size g < 2 ^ 64 → acts_data log ++ l = ins → log = mjoin frames →
  Forall (fun x => 0 < Z.of_nat (length (da_data x))) log →
  (∀ j acts, frames !! j = Some acts →
    contiguous (frame_ptr g (Z.of_nat j)) acts (frame_ptr g (Z.of_nat j) + pg_size g)) →
  (∀ next, a ≤ next → HalfInv n g st c (Z.of_nat (length frames)) next (a + pg_size g) a) →
  ∃ f' acts, DmaWriteFifo.startEmpty sys f a (pg_size g) = Ok (f', acts) ∧
    wr_after n g log ins (c, f', acts) st.
Proof.
  intros HW He Ha Hs Hb HD El Hz Hfr HH.
  destruct (startEmpty_ok sys timing P n f l a (pg_size g) HW Ppos He Ha Hs Hb)
    as (f' & acts & l' & -> & Hse & HW').
  pose proof (sent_sizes _ _ _ _ _ Hse) as Hz'. destruct Hse as [Da Co E _ _ _]. cbn in Co, E.
  pose proof (contiguous_le _ _ _ Co) as Hle. exists f', acts. split; [done|].
  exists l', (Z.of_nat (length frames)), a. split; [done| | | |by apply Forall_app].
  - rewrite E. by apply HH.
  - by rewrite acts_data_app, <-app_assoc, Da.
  - exists frames, acts. by rewrite El.
Qed.

Lemma wr_start_side n rest mm fl c f log ins l k org :
  let g := prog wr_half rest in
  mm_ok mm fl rest → prog_ok g →
  WrSide n g (flag fl (start_mask wr_half)) c f log ins l k org →
  ∃ mm' fl' c' f' acts, half_start (DmaWriteFifo.startEmpty sys) wr_half mm c f = Ok (mm', c', f', acts) ∧
    mm_ok mm' fl' rest ∧ own_flags wr_half fl fl' ∧
    wr_after n g log ins (c', f', acts) (flag fl' (start_mask wr_half)).
Proof.
  intros g Hm Hg HS. destruct (isRunning c) eqn:Er.
  { rewrite (half_start_idle _ _ rest _ fl) by auto. eexists _, fl, _, _, _. split_and!; try done.
    by eapply wr_after_refl. }
  destruct (flag fl (start_mask wr_half)) eqn:Ef.
  2:{ rewrite (half_start_idle _ _ rest _ fl) by auto. eexists _, fl, _, _, _. split_and!; try done.
      rewrite Ef. by eapply wr_after_refl. }
  destruct (half_start_go (DmaWriteFifo.startEmpty sys) wr_half rest wr_half_wf mm fl c f Hm Er Ef)
    as (mm' & fl' & c' & Hm' & Hf' & Ho & Hc' & ->). fold g in Hc' |- *.
  destruct HS as [HW HH HD (frames & cur & El & Hlen & Hfr & Hcur) Hz].
  destruct (hv_idle _ _ _ _ _ _ _ _ HH Er) as (Eo & En & _). pose proof Hg as [? ? ? ? Hfit].
  destruct (half_started n g c c' k _ _ _ (pg_base g) Hg HH Er Hc') as [-> _]; [lia|].
  destruct frames; [|simpl in Hlen; lia].
  assert (log = []) as -> by (rewrite El in *; rewrite Eo, En in Hcur; by eapply contiguous_nil).
  destruct (wr_restart n g f [] ins l [] c' false (pg_base g) HW)
    as (f' & acts & -> & HA); [by apply Z.eqb_eq|lia|lia|nia|done|done|done|done| |].
  { intros next Hle. by apply (half_started n g c c' 0 _ _ _ _ Hg HH Er Hc' Hle). }
  cbn [mbind outcome_bind]. eexists _, fl', _, _, _. split_and!; try done. by rewrite Hf'.
Qed.

Lemma wr_progress_side n irq rest mm fl c f log ins l k org :
  let g := prog wr_half rest in
  mm_ok mm fl rest → prog_ok g →
  WrSide (S n) g (flag fl (start_mask wr_half)) c f log ins l k org →
  ∃ mm' fl' c' f' acts gic,
    half_progress (DmaWriteFifo.isActive (Q := CircularQueue)) (DmaWriteFifo.startEmpty sys) wr_half irq mm c f
      = Ok (mm', c', f', acts, gic) ∧
    mm_ok mm' fl' rest ∧ own_flags wr_half fl fl' ∧
    wr_after n g log ins (c', f', acts) (flag fl' (start_mask wr_half)).
Proof.
  intros g Hm Hg HS.
  assert (WrSide n g (flag fl (start_mask wr_half)) c f log ins l k org) as HS0.
  { destruct HS as [HW HH HD HF HZ]. split; [exact (ready_weaken _ _ _ _ HW)|by apply half_weaken|done..]. }
  destruct (decide (isRunning c = false ∨ DmaWriteFifo.isActive f = true)) as [Hd|Hd].
  { rewrite half_progress_idle by done. eexists _, fl, _, _, _, _. split_and!; try done.
    by eapply wr_after_refl. }
  apply Decidable.not_or in Hd as [Hr Ha]. apply not_false_iff_true in Hr. apply not_true_iff_false in Ha.
  pose proof HS as [HW HH HD _ Hz]. destruct (hv_run _ _ _ _ _ _ _ _ HH Hr) as (Hc & Eo & Hon & Ee & _ & _).
  pose proof (hv_k _ _ _ _ _ _ _ _ HH) as Hk.
  destruct (half_progress_go (DmaWriteFifo.isActive (Q := CircularQueue)) (DmaWriteFifo.startEmpty sys) wr_half
    rest wr_half_wf irq mm fl c f k Hm Hg Hc Ha) as (mm' & fl' & c' & gic & Hm' & Hf' & Ho & HP); [lia|].
  fold g in HP. unfold DmaWriteFifo.isActive in Ha. apply negb_false_iff, andb_true_iff in Ha as [_ Hend].
  pose proof Hend as En. apply Z.eqb_eq in En.
  destruct (wr_complete _ _ _ _ _ _ _ _ _ _ HS Hr En) as (frames & El & Hlen & Hfr).
  destruct (_ && _) eqn:Efin; destruct HP as [Hc' ->].
  - eexists _, fl', _, _, _, _. split_and!; try done. rewrite Hf'.
    exists l, (k + 1), (DmaWriteFifo.endAddr f). rewrite app_nil_r.
    split; [exact (ready_weaken _ _ _ _ HW)|by eapply half_finished|done| |done].
    exists frames, []. rewrite app_nil_r. by split_and!.
  - pose proof (frame_ptr_range g (k + 1) Hg) as [? ?]. pose proof Hg as [? ? _ _ _]. rewrite Ee in HH.
    destruct (wr_restart n g f log ins l frames c' (flag fl (start_mask wr_half)) (frame_ptr g (k + 1))
      (ready_weaken _ _ _ _ HW) Hend) as (f' & acts & -> & HA); [lia|lia|lia|done|done|done|done| |].
    { intros next Hle. rewrite Hlen. by eapply half_next. }
    cbn [mbind outcome_bind]. eexists _, fl', _, _, _, _. split_and!; try done. by rewrite Hf'.
Qed.
End Sides.

(** ** The device *)

Section DeviceProofs.
Context (p : SDParams) (μ : Z → Z) (P : nat) (st0 : bool) (rest : list Z).
Abbreviation gr := (prog rd_half rest).
Abbreviation gw := (prog wr_half rest).
Hypothesis timing : bypassCaches (sd_sys p) = false.
Hypothesis Ppos : (0 < P)%nat.
Hypothesis Hgr : prog_ok gr.
Hypothesis Hgw : prog_ok gw.
Hypothesis Hμ : ∀ a, inU 8 (μ a).
Hypothesis Hle : sd_big_endian p = false.
Hypothesis Hbw : ∀ k, k = 1 ∨ k = 2 ∨ k = 4 ∨ k = 8 → ∃ t, transfer_ticks k (sd_bandwidth p) = Ok t.

(** Everything the device has read from memory has left it, is in the read
    FIFO or on its way; everything it was given is in the write FIFO or in the
    DMA writes. *)
Definition SDInv (n : nat) (d : StreamDma) (addrs outs ins : list Z) : Prop :=
  ∃ fl l k org l' k' org', mm_ok (mmreg d) fl rest ∧
    RdSide μ P st0 n gr (flag fl (start_mask rd_half)) (rd d) (readFifo d) addrs outs l k org ∧
    WrSide P n gw (flag fl (start_mask wr_half)) (wr d) (writeFifo d) (wr_log d) ins l' k' org'.

Lemma rd_flags fl fl' : own_flags wr_half fl fl' → flag fl' (start_mask rd_half) = flag fl (start_mask rd_half).
Proof. intros H. apply H; [apply rd_half_wf|apply halves_disjoint]. Qed.
Lemma wr_flags fl fl' : own_flags rd_half fl fl' → flag fl' (start_mask wr_half) = flag fl (start_mask wr_half).
Proof. intros H. apply H; [apply wr_half_wf|apply halves_disjoint]. Qed.

Lemma half_clear_ok h mm fl irq : mm_ok mm fl rest → ∃ gic, half_clear h mm irq = Ok gic.
Proof. intros Hm. unfold half_clear. rewrite (has_flag_ok _ _ _ _ Hm). by eexists. Qed.

Lemma sd_tick_ok n d addrs outs ins :
  SDInv (S n) d addrs outs ins →
  ∃ d', sd_tick p d = Ok d' ∧ SDInv n d' (sd_track d d' addrs) outs ins.
Proof.
  intros (fl & l & k & org & l' & k' & org' & Hm & HR & HW). unfold sd_tick.
  destruct (rd_start_side (sd_sys p) μ P st0 timing Ppos _ _ _ _ _ _ _ _ _ _ _ Hm Hgr HR)
    as (mm1 & fl1 & c1 & f1 & ra1 & -> & Hm1 & Ho1 & k1 & org1 & HR1 & Hl1). cbn [mbind outcome_bind].
  rewrite <-(wr_flags _ _ Ho1) in HW.
  destruct (wr_start_side (sd_sys p) P timing Ppos _ _ _ _ _ _ _ _ _ _ _ Hm1 Hgw HW)
    as (mm2 & fl2 & c2 & f2 & wa1 & -> & Hm2 & Ho2 & l2 & k2 & org2 & HW2). cbn [mbind outcome_bind].
  rewrite <-(rd_flags _ _ Ho2) in HR1.
  destruct (half_clear_ok rd_half _ _ (rdInt p) Hm2) as [g1 ->]. cbn [mbind outcome_bind].
  destruct (half_clear_ok wr_half _ _ (wrInt p) Hm2) as [g2 ->]. cbn [mbind outcome_bind].
  destruct (rd_progress_side (sd_sys p) μ P st0 timing Ppos _ (rdInt p) _ _ _ _ _ _ _ _ _ _ Hm2 Hgr HR1)
    as (mm3 & fl3 & c3 & f3 & ra2 & g3 & -> & Hm3 & Ho3 & k3 & org3 & HR3 & Hl3). cbn [mbind outcome_bind].
  rewrite <-(wr_flags _ _ Ho3) in HW2.
  destruct (wr_progress_side (sd_sys p) P timing Ppos _ (wrInt p) _ _ _ _ _ _ _ _ _ _ Hm3 Hgw HW2)
    as (mm4 & fl4 & c4 & f4 & wa2 & g4 & -> & Hm4 & Ho4 & l4 & k4 & org4 & HW4). cbn [mbind outcome_bind].
  rewrite <-(rd_flags _ _ Ho4) in HR3.
  eexists. split; [done|]. exists fl4, l, k3, org3, l4, k4, org4. unfold sd_track. cbn.
  rewrite drop_app_length, track_app by (rewrite Hl3, Hl1, length_app; lia).
  split; [done|]. by rewrite fmap_app, !app_assoc.
Qed.

Lemma sd_weaken n d addrs outs ins : SDInv (S n) d addrs outs ins → SDInv n d addrs outs ins.
Proof.
  intros (fl & l & k & org & l' & k' & org' & Hm & [R1 R2 R3 R4] & [W1 W2 W3 W4 W5]).
  exists fl, l, k, org, l', k', org'. split_and!; [done| |].
  - split; [exact (rready_weaken _ _ _ _ _ _ R1)|by apply half_weaken|done..].
  - split; [exact (ready_weaken _ _ _ _ W1)|by apply half_weaken|done..].
Qed.

(** An operation on the read FIFO. *)
Lemma sd_rd_op n d addrs outs ins fl l k org l' k' org' f acts addrs' out l1 :
  mm_ok (mmreg d) fl rest →
  RdSide μ P st0 (S n) gr (flag fl (start_mask rd_half)) (rd d) (readFifo d) addrs outs l k org →
  WrSide P (S n) gw (flag fl (start_mask wr_half)) (wr d) (writeFifo d) (wr_log d) ins l' k' org' →
  fetched (readFifo d) f acts → RReady μ P n f addrs' l1 →
  sd_track d (set_rfifo d f acts) addrs = addrs' →
  (length (DmaReadFifo.pendingRequests f)
    ≤ length (DmaReadFifo.pendingRequests (readFifo d)) + length acts)%nat →
  out ++ stream μ f addrs' l1 = stream μ (readFifo d) addrs l ++ acts_bytes μ acts →
  SDInv n (set_rfifo d f acts) (sd_track d (set_rfifo d f acts) addrs) (outs ++ out) ins.
Proof.
  intros Hm HR [W1 W2 W3 W4 W5] Hf HR' -> Hlen HS. exists fl, l1, k, org, l', k', org'. split_and!; [done| |].
  - apply (rd_advance μ P st0 Ppos (S n) n gr _ _ (readFifo d) addrs outs l k org f _ out l1 acts HR); [lia|done..].
  - split; [exact (ready_weaken _ _ _ _ W1)|by apply half_weaken|done..].
Qed.

Lemma sd_track_rfifo d f acts addrs :
  sd_track d (set_rfifo d f acts) addrs = track (readFifo d) f addrs acts.
Proof. unfold sd_track. cbn. by rewrite drop_app_length. Qed.

(** The bytes in the read FIFO are bytes of memory. *)
Lemma stream_bytes n g st c f addrs outs l k org :
  RdSide μ P st0 n g st c f addrs outs l k org → Forall (inU 8) l.
Proof.
  intros [_ _ HS _]. assert (Forall (inU 8) (outs ++ stream μ f addrs l)) as H.
  { assert (∀ a m, Forall (inU 8) (bytes μ a m)) as Hb.
    { intros a m. unfold bytes. apply Forall_fmap, Forall_true. intros x. apply Hμ. }
    rewrite HS. apply Forall_app. split; [|done]. unfold frames_upto. apply Forall_bind, Forall_true.
    intros j. apply Hb. }
  apply Forall_app in H as [_ H]. unfold stream in H. by apply Forall_app in H as [H _].
Qed.

Lemma sd_out_ok n d addrs outs ins k :
  SDInv (S n) d addrs outs ins → k = 1 ∨ k = 2 ∨ k = 4 ∨ k = 8 → sd_tvalid d k true = true →
  ∃ d' data t, sd_streamRead p d k = Ok (data, t, d') ∧
    SDInv n d' (sd_track d d' addrs) (outs ++ data) ins.
Proof.
  intros (fl & l & k0 & org & l' & k' & org' & Hm & HR & HW) Hk Hv.
  pose proof (stream_bytes _ _ _ _ _ _ _ _ _ _ HR) as Hb.
  pose proof (rready_weaken _ _ _ _ _ _ (rs_ready _ _ _ _ _ _ _ _ _ _ _ _ _ HR)) as HRr.
  unfold sd_tvalid, rf_size in Hv. zbool.
  rewrite (bf_size_ok _ _ _ (ri_rep _ _ _ _ _ _ (rr_inv _ _ _ _ _ _ HRr))) in Hv.
  destruct (rd_tryGet_ok μ (sd_sys p) timing P n (readFifo d) addrs l k HRr Ppos ltac:(lia))
    as (f & acts & l1 & Hget & Hf & HR' & Hlen & HS).
  unfold sd_streamRead, fifo_read, DmaReadFifo.get. rewrite Hget. cbn [mbind outcome_bind].
  rewrite Hle, packet_set_ok; [|done|rewrite length_take; lia|by apply Forall_take].
  cbn [mbind outcome_bind]. destruct (Hbw k Hk) as [t ->]. cbn [mbind outcome_bind].
  eexists _, _, t. split; [done|]. eapply sd_rd_op; try done; [|lia].
  by rewrite sd_track_rfifo, track_app.
Qed.

Lemma sd_rddone_ok n d addrs outs ins i ev a :
  SDInv (S n) d addrs outs ins → DmaReadFifo.pendingRequests (readFifo d) !! i = Some ev →
  addrs !! i = Some a → _done ev = false →
  ∃ f acts, DmaReadFifo.process (sd_sys p) (readFifo d) i (bytes μ a (_requestSize ev)) = Ok (f, acts) ∧
    SDInv n (set_rfifo d f acts) (sd_track d (set_rfifo d f acts) addrs) outs ins.
Proof.
  intros (fl & l & k0 & org & l' & k' & org' & Hm & HR & HW) Hi Ha Hd.
  destruct (rd_process_ok μ (sd_sys p) timing P n (readFifo d) addrs l i ev a
    (rs_ready _ _ _ _ _ _ _ _ _ _ _ _ _ HR) Ppos Hi Ha Hd) as (f & acts & j & l1 & -> & Hf & HR' & Hlen & HS).
  exists f, acts. split; [done|]. rewrite <-(app_nil_r outs). eapply sd_rd_op; try done; [|lia].
  by rewrite sd_track_rfifo, (track_drop _ _ _ _ j).
Qed.

(** An operation on the write FIFO. *)
Lemma sd_wr_op n d addrs outs ins fl l k org l' k' org' f acts xs l1 :
  mm_ok (mmreg d) fl rest →
  RdSide μ P st0 (S n) gr (flag fl (start_mask rd_half)) (rd d) (readFifo d) addrs outs l k org →
  WrSide P (S n) gw (flag fl (start_mask wr_half)) (wr d) (writeFifo d) (wr_log d) ins l' k' org' →
  sent (writeFifo d) (l' ++ xs) f acts l1 → WReady P n f l1 →
  SDInv n (set_wfifo d f acts) addrs outs (ins ++ xs).
Proof.
  intros Hm [R1 R2 R3 R4] HW Hs HW'. exists fl, l, k, org, l1, k', org'. split_and!; [done| |].
  - split; [exact (rready_weaken _ _ _ _ _ _ R1)|by apply half_weaken|done..].
  - apply (wr_advance P Ppos (S n) n gw _ _ (writeFifo d) (wr_log d) ins l' k' org' f xs l1 acts HW); [lia|done..].
Qed.

Lemma sd_in_ok n d addrs outs ins xs :
  SDInv (S n) d addrs outs ins → Z.of_nat (length xs) < 2 ^ 32 →
  sd_tvalid d (Z.of_nat (length xs)) false = true →
  ∃ d' t, sd_streamWrite p d xs = Ok (t, d') ∧ SDInv n d' addrs outs (ins ++ xs).
Proof.
  intros (fl & l & k0 & org & l' & k' & org' & Hm & HR & HW) Hx Hv.
  destruct (fill_ok (sd_sys p) timing P n (writeFifo d) l' xs (ws_ready _ _ _ _ _ _ _ _ _ _ _ HW) Ppos Hx Hv)
    as (f & acts & l1 & Hfill & Hs & HW').
  unfold sd_streamWrite, fifo_write. rewrite Hfill. cbn [mbind outcome_bind].
  eexists _, _. split; [done|]. by eapply sd_wr_op.
Qed.

Lemma sd_wrdone_ok n d addrs outs ins i ev :
  SDInv (S n) d addrs outs ins → DmaWriteFifo.pendingRequests (writeFifo d) !! i = Some ev →
  _done ev = false →
  ∃ f acts, DmaWriteFifo.process (sd_sys p) (writeFifo d) i = Ok (f, acts) ∧
    SDInv n (set_wfifo d f acts) addrs outs ins.
Proof.
  intros (fl & l & k0 & org & l' & k' & org' & Hm & HR & HW) Hi Hd.
  destruct (process_ok (sd_sys p) timing P n (writeFifo d) l' i ev
    (ready_weaken _ _ _ _ (ws_ready _ _ _ _ _ _ _ _ _ _ _ HW)) Ppos Hi Hd) as (f & acts & l1 & -> & Hs & HW').
  exists f, acts. split; [done|]. rewrite <-(app_nil_r ins). eapply sd_wr_op; try done. by rewrite app_nil_r.
Qed.

Lemma sd_event_ok n d addrs outs ins e :
  SDInv (S n) d addrs outs ins → sd_ev_ok e →
  ∃ d' addrs' o i, sd_event p μ (d, addrs) e = Ok (d', addrs', o, i) ∧
    SDInv n d' addrs' (outs ++ o) (ins ++ i).
Proof.
  intros HI He.
  assert (∃ d' addrs' o i, Ok (d, addrs, [], []) = Ok (d', addrs', o, i) ∧
    SDInv n d' addrs' (outs ++ o) (ins ++ i)) as Kidle.
  { exists d, addrs, [], []. rewrite !app_nil_r. auto using sd_weaken. }
  destruct e as [|k|xs|i|i]; cbn [sd_event].
  - destruct (tickScheduled d); [|exact Kidle].
    destruct (sd_tick_ok _ _ _ _ _ HI) as (d' & -> & HI'). cbn [mbind outcome_bind].
    eexists _, _, [], []. by rewrite !app_nil_r.
  - destruct (sd_tvalid d k true) eqn:Ev; [|exact Kidle].
    destruct (sd_out_ok _ _ _ _ _ k HI He Ev) as (d' & data & t & -> & HI'). cbn [mbind outcome_bind].
    eexists d', _, data, []. by rewrite app_nil_r.
  - destruct (sd_tvalid d _ false) eqn:Ev; [|exact Kidle].
    destruct (sd_in_ok _ _ _ _ _ xs HI He Ev) as (d' & t & -> & HI'). cbn [mbind outcome_bind].
    exists d', addrs, [], xs. by rewrite app_nil_r.
  - destruct (DmaReadFifo.pendingRequests _ !! i) as [ev|] eqn:Ei; [|exact Kidle].
    destruct (addrs !! i) as [a|] eqn:Ea; [|exact Kidle]. destruct (_done ev) eqn:Ed; [exact Kidle|].
    destruct (sd_rddone_ok _ _ _ _ _ i ev a HI Ei Ea Ed) as (f & acts & -> & HI'). cbn [mbind outcome_bind].
    eexists _, _, [], []. by rewrite !app_nil_r.
  - destruct (DmaWriteFifo.pendingRequests _ !! i) as [ev|] eqn:Ei; [|exact Kidle].
    destruct (_done ev) eqn:Ed; [exact Kidle|].
    destruct (sd_wrdone_ok _ _ _ _ _ i ev HI Ei Ed) as (f & acts & -> & HI'). cbn [mbind outcome_bind].
    eexists _, _, [], []. by rewrite !app_nil_r.
Qed.

Lemma sd_run_ok n es : ∀ d addrs outs ins,
  SDInv (length es + n) d addrs outs ins → Forall sd_ev_ok es →
  ∃ d' addrs' o i, sd_run p μ (d, addrs) es = Ok (d', addrs', o, i) ∧
    SDInv n d' addrs' (outs ++ o) (ins ++ i).
Proof.
  induction es as [|e es IH]; intros d addrs outs ins HI Hes; cbn [sd_run].
  { exists d, addrs, [], []. by rewrite !app_nil_r. }
  apply Forall_cons in Hes as [He Hes].
  destruct (sd_event_ok _ _ _ _ _ e HI He) as (d1 & a1 & o1 & i1 & -> & HI1). cbn [mbind outcome_bind].
  destruct (IH _ _ _ _ HI1 Hes) as (d' & a' & o & i & -> & HI'). cbn [mbind outcome_bind].
  exists d', a', (o1 ++ o), (i1 ++ i). by rewrite !app_assoc.
Qed.
End DeviceProofs.

(** ** Sessions *)

(** The device is built and the host writes its 32 register bytes at once. *)
Definition sd_boot (p : SDParams) (rdBuf wrBuf maxReq maxPending uninit : Z) (block : list Z)
    (rd0 wr0 : Frames) (regs : list Z) : outcome StreamDma :=
  let* d := StreamDma_new p rdBuf wrBuf maxReq maxPending uninit block rd0 wr0 in
  sd_write p d (pioAddr p) regs.

(** The configuration, the registers and the memory of a session. *)
Record session (p : SDParams) (μ : Z → Z) (rdBuf wrBuf maxReq maxPending : Z) (block : list Z)
    (fl : Z) (rest : list Z) : Prop := {
  se_rd : rparams_ok (sd_sys p) rdBuf maxReq maxPending;
  se_wr : wparams_ok (sd_sys p) wrBuf maxReq maxPending;
  se_block : length block = 32%nat;
  se_pio : 0 ≤ pioSize p ≤ 32;
  se_little : sd_big_endian p = false;
  se_bandwidth : ∀ k, k = 1 ∨ k = 2 ∨ k = 4 ∨ k = 8 →
    ∃ t, transfer_ticks k (sd_bandwidth p) = Ok t;
  se_flags : 0 ≤ fl < 256;
  se_rest : length rest = 31%nat;
  se_gr : prog_ok (prog rd_half rest);
  se_gw : prog_ok (prog wr_half rest);
  se_mem : ∀ a, inU 8 (μ a);
}.

Lemma boot_inv p μ rdBuf wrBuf maxReq maxPending uninit block rd0 wr0 fl rest n :
  session p μ rdBuf wrBuf maxReq maxPending block fl rest → Z.of_nat n < 2 ^ 32 - 2 →
  ∃ d, sd_boot p rdBuf wrBuf maxReq maxPending uninit block rd0 wr0 (fl :: rest) = Ok d ∧
    SDInv μ (Z.to_nat maxPending) (flag fl (start_mask rd_half)) rest n d [] [] [].
Proof.
  intros [HRp HWp Hblk Hpio _ _ Hfl Hrest Hgr Hgw _] Hn. unfold sd_boot, StreamDma_new.
  destruct (mem_write_ok block 0 (replicate (Z.to_nat (pioSize p)) 0)) as (mm & -> & Hmm);
    [lia|rewrite length_replicate; lia|]. cbn [mbind outcome_bind].
  unfold sd_write. rewrite Z.sub_diag. change (u64 0 <? BUFFER_ACCESS_OFF) with true. cbn iota.
  change (u64 0) with 0. cbn [mmreg].
  assert (mem_write mm 0 (fl :: rest) = Ok (fl :: rest)) as ->.
  { unfold mem_write. rewrite (proj2 (in_block_spec _ _ _)) by (cbn [length]; lia).
    rewrite drop_ge by (cbn [length]; lia). by rewrite app_nil_r. }
  cbn [mbind outcome_bind]. eexists. split; [done|].
  exists fl, [], 0, 0, [], 0, 0. split; [by split|]. split.
  - split; [by apply (DmaReadFifo_new_ready (sd_sys p))| |done|done]. split; [lia|done|]. intros _. auto.
  - split; [by apply (DmaWriteFifo_new_ready (sd_sys p))| |done| |constructor].
    + split; [lia|done|]. intros _. auto.
    + exists [], []. by split_and!.
Qed.

(** C16: memory to stream.  The device is built, its registers are written and
    then any sequence of ticks, stream requests at both ports and DMA
    completions in any order happens, over a memory that does not change, on a
    little-endian guest and with stream reads of 1, 2, 4 or 8 bytes (any other
    size panics).  No panic, assertion or undefined access stops it, and the
    bytes handed out, those in the read FIFO and those of the reads in flight,
    whose addresses are [addrs], are exactly the bytes of the frames, frame
    after frame, the frame buffers being used in turn: [k] whole frames and [m]
    bytes of the next.  While the read half runs, [k] is the number of frames it
    has counted and the next address it asks for is [m] bytes into the frame; no
    more than the programmed number of frames is read.  Once it stops, nothing is
    in flight and all programmed frames have been handed out or are in the FIFO;
    until it has started, nothing has been read and its start flag is the one
    that was programmed. *)
Theorem mm2s_frames p μ rdBuf wrBuf maxReq maxPending uninit block rd0 wr0 fl rest es
    (HS : session p μ rdBuf wrBuf maxReq maxPending block fl rest)
    (Hes : Forall sd_ev_ok es) (Hn : Z.of_nat (length es) < 2 ^ 32 - 2) :
  let g := prog rd_half rest in
  ∃ d0 d addrs outs ins k m l,
    sd_boot p rdBuf wrBuf maxReq maxPending uninit block rd0 wr0 (fl :: rest) = Ok d0 ∧
    sd_run p μ (d0, []) es = Ok (d, addrs, outs, ins) ∧
    repr (DmaReadFifo.buffer (readFifo d)) l ∧
    length addrs = length (DmaReadFifo.pendingRequests (readFifo d)) ∧
    outs ++ l ++ pbytes μ (DmaReadFifo.pendingRequests (readFifo d)) addrs
      = frames_upto μ g k ++ bytes μ (frame_ptr g k) m ∧
    0 ≤ m ≤ pg_size g ∧ 0 ≤ k ∧ (pg_num g ≠ 0 → k ≤ pg_num g) ∧
    if isRunning (rd d) then
      framesDone (rd d) = k ∧ (pg_num g ≠ 0 → k < pg_num g) ∧
      DmaReadFifo.nextAddr (readFifo d) = frame_ptr g k + m
    else
      DmaReadFifo.pendingRequests (readFifo d) = [] ∧ outs ++ l = frames_upto μ g k ∧
      (k = pg_num g ∨
       k = 0 ∧ has_flag (mmreg d) (start_mask rd_half) = Ok (flag fl (start_mask rd_half))).
Proof.
  intros g. destruct (boot_inv p μ rdBuf wrBuf maxReq maxPending uninit block rd0 wr0 fl rest _ HS Hn)
    as (d0 & Hboot & HI). rewrite <-(Nat.add_0_r (length es)) in HI.
  pose proof HS as [(Ht & _ & _ & Hp & _) _ _ _ Hle Hbw _ _ Hgr Hgw Hμ].
  destruct (sd_run_ok p μ (Z.to_nat maxPending) (flag fl (start_mask rd_half)) rest Ht ltac:(lia) Hgr Hgw Hμ Hle Hbw 0 es d0 [] [] [] HI Hes)
    as (d & addrs & outs & ins & HR & fl' & l & k & org & l' & k' & org' & Hmm & [R1 R2 R3 R4] & _).
  pose proof (ri_addr _ _ _ _ _ _ (rr_inv _ _ _ _ _ _ R1)) as Ha.
  pose proof (Forall2_length _ _ _ (ri_pending _ _ _ _ _ _ (rr_inv _ _ _ _ _ _ R1))) as Hlen.
  assert (repr (DmaReadFifo.buffer (readFifo d)) l) as Hrep
    by apply (ri_rep _ _ _ _ _ _ (rr_inv _ _ _ _ _ _ R1)).
  destruct R2 as [Hk Hrun Hidle]. cbn in R3. unfold stream in R3. fold g in R3, Hrun, Hidle.
  pose proof (po_size g Hgr) as Hsz. pose proof (po_num g Hgr).
  destruct (isRunning (rd d)) eqn:Er.
  - destruct (Hrun eq_refl) as ([] & -> & Hon & Ee & Hnum & _).
    eexists d0, d, addrs, outs, ins, k, _, l. rewrite Er.
    do 4 (split; [done|]). split; [exact R3|]. split_and!; try lia; done.
  - destruct (Hidle eq_refl) as (-> & En & Hk'). rewrite En, Z.sub_diag in R3.
    destruct (R4 eq_refl) as [Hpe Hst].
    exists d0, d, addrs, outs, ins, k, 0, l. rewrite Er.
    do 4 (split; [done|]). split; [exact R3|]. rewrite Hpe in *. cbn in R3. rewrite !app_nil_r in R3.
    split_and!; try lia; try done. destruct Hk' as [->|[? _]]; [right|by left].
    split; [done|]. by rewrite (has_flag_ok _ _ _ _ Hmm), Hst.
Qed.

(** C17: stream to memory.  In the same sessions, the bytes taken from the
    stream are the bytes of the DMA writes, in order, followed by what the
    write FIFO holds; the writes are whole frames, each covering exactly its
    frame buffer from its first to its last address, then the consecutive
    writes of the current frame; no more frames than programmed are written,
    and when the device stops all of them have been. *)
Theorem s2mm_frames p μ rdBuf wrBuf maxReq maxPending uninit block rd0 wr0 fl rest es
    (HS : session p μ rdBuf wrBuf maxReq maxPending block fl rest)
    (Hes : Forall sd_ev_ok es) (Hn : Z.of_nat (length es) < 2 ^ 32 - 2) :
  let g := prog wr_half rest in
  ∃ d0 d addrs outs ins l frames cur,
    sd_boot p rdBuf wrBuf maxReq maxPending uninit block rd0 wr0 (fl :: rest) = Ok d0 ∧
    sd_run p μ (d0, []) es = Ok (d, addrs, outs, ins) ∧
    repr (wf_buffer (writeFifo d)) l ∧ acts_data (wr_log d) ++ l = ins ∧
    wr_log d = mjoin frames ++ cur ∧
    (∀ j acts, frames !! j = Some acts →
      contiguous (frame_ptr g (Z.of_nat j)) acts (frame_ptr g (Z.of_nat j) + pg_size g)) ∧
    (pg_num g ≠ 0 → Z.of_nat (length frames) ≤ pg_num g) ∧
    if isRunning (wr d) then
      ∃ b, contiguous (frame_ptr g (Z.of_nat (length frames))) cur b ∧
        b ≤ frame_ptr g (Z.of_nat (length frames)) + pg_size g
    else cur = [] ∧ (frames = [] ∨ Z.of_nat (length frames) = pg_num g).
Proof.
  intros g. destruct (boot_inv p μ rdBuf wrBuf maxReq maxPending uninit block rd0 wr0 fl rest _ HS Hn)
    as (d0 & Hboot & HI). rewrite <-(Nat.add_0_r (length es)) in HI.
  pose proof HS as [(Ht & _ & _ & Hp & _) _ _ _ Hle Hbw _ _ Hgr Hgw Hμ].
  destruct (sd_run_ok p μ (Z.to_nat maxPending) (flag fl (start_mask rd_half)) rest Ht ltac:(lia) Hgr Hgw Hμ Hle Hbw 0 es d0 [] [] [] HI Hes)
    as (d & addrs & outs & ins & HR & fl' & l & k & org & l' & k' & org' & _ & _ & [W1 W2 W3 W4 W5]).
  cbn [app] in W3.
  destruct W4 as (frames & cur & El & Hlen & Hfr & Hcur).
  assert (repr (wf_buffer (writeFifo d)) l') as Hrep by apply (wi_rep _ _ _ _ (wr_inv _ _ _ _ W1)).
  pose proof (wi_addr _ _ _ _ (wr_inv _ _ _ _ W1)) as Ha. destruct W2 as [Hk Hrun Hidle].
  fold g in Hrun, Hidle, Hfr. pose proof (po_num g Hgw) as Hnn.
  exists d0, d, addrs, outs, ins, l', frames, cur. rewrite Hlen. split_and!; try done.
  - intros Hz. destruct (isRunning (wr d)).
    + destruct (Hrun eq_refl) as (_ & _ & _ & _ & Hnum & _). specialize (Hnum Hz). lia.
    + destruct (Hidle eq_refl) as (_ & _ & [->|[-> _]]); lia.
  - destruct (isRunning (wr d)).
    + destruct (Hrun eq_refl) as (_ & <- & _ & Ee & _). eexists. split; [done|]. lia.
    + destruct (Hidle eq_refl) as (Eo & En & Hk'). rewrite Eo, En in Hcur. split.
      * eapply contiguous_nil; [done|]. rewrite El in W5. by apply Forall_app in W5 as [_ ?].
      * destruct Hk' as [->|[-> _]]; [left|by right]. by destruct frames.
Qed.

(** A session: both halves, two frames of four bytes each in two read buffers
    at 4096 and two write buffers at 8192; an interrupt after every frame. *)
Definition sd_ex_params : SDParams :=
  mkSDParams 65536 100 32 210 211 (fp_of_int double_ 80) false [] 
    (mkSys false 64 (fun _ n => replicate (Z.to_nat n) 0)).
Definition sd_ex_mem (a : Z) : Z := a mod 256.
Definition sd_ex_rest : list Z :=
  [1; 1; 0] ++ le_bytes 8 4096 ++ le_bytes 8 8192 ++ le_bytes 4 4 ++ [2; 2] ++ le_bytes 4 4 ++ [2; 2].
Definition sd_ex_idle : Frames := mkFrames false 0 0 0 0 0 0 0.
Definition sd_ex_events : list SDEvent :=
  [DTick; DIn [10; 11; 12]; DRdDone 0; DTick; DOut 2; DIn [13; 14; 15]; DRdDone 0; DWrDone 0; DTick;
   DOut 4; DIn [16; 17]; DWrDone 0; DOut 2; DTick].

Lemma sd_ex_session :
  session sd_ex_params sd_ex_mem 16 16 4 2 (replicate 32 0) 3 sd_ex_rest.
Proof.
  split; [unfold rparams_ok; cbn; lia|unfold wparams_ok; cbn; lia|done|cbn; lia|done| |lia|done| | |].
  - intros k [->|[->|[->| ->]]]; eexists; vm_compute; reflexivity.
  - split; vm_compute; done.
  - split; vm_compute; done.
  - intros a. apply (wrapU_range 8). lia.
Qed.

Lemma sd_ex_events_ok : Forall sd_ev_ok sd_ex_events.
Proof. repeat constructor; cbn; lia. Qed.

Definition sd_ex_result : outcome (list Z * list Z * list DmaAction * list GicCall * bool) :=
  let* d0 := sd_boot sd_ex_params 16 16 4 2 0 (replicate 32 0) sd_ex_idle sd_ex_idle (3 :: sd_ex_rest) in
  let* (d, _, outs, ins) := sd_run sd_ex_params sd_ex_mem (d0, []) sd_ex_events in
  Ok (outs, ins, wr_log d, filter (fun c => match c with SendInt _ => true | _ => false end = true) (gic_log d),
      running d).

(** Both halves transfer their two frames, raise their interrupts and stop. *)
Example sd_ex_runs :
  sd_ex_result =
    Ok ([0; 1; 2; 3; 4; 5; 6; 7], [10; 11; 12; 13; 14; 15; 16; 17],
        [mkDmaAction 8192 [10; 11; 12; 13]; mkDmaAction 8196 [14; 15; 16; 17]],
        [SendInt 210; SendInt 210; SendInt 211; SendInt 211], false).
Proof. vm_compute. reflexivity. Qed.

Lemma mm2s_frames_witness :
  let g := prog rd_half sd_ex_rest in
  pg_base g = 4096 ∧ pg_num g = 2 ∧
  ∃ d0 d addrs outs ins k m l,
    sd_boot sd_ex_params 16 16 4 2 0 (replicate 32 0) sd_ex_idle sd_ex_idle (3 :: sd_ex_rest) = Ok d0 ∧
    sd_run sd_ex_params sd_ex_mem (d0, []) sd_ex_events = Ok (d, addrs, outs, ins) ∧
    repr (DmaReadFifo.buffer (readFifo d)) l ∧
    length addrs = length (DmaReadFifo.pendingRequests (readFifo d)) ∧
    outs ++ l ++ pbytes sd_ex_mem (DmaReadFifo.pendingRequests (readFifo d)) addrs
      = frames_upto sd_ex_mem g k ++ bytes sd_ex_mem (frame_ptr g k) m ∧
    0 ≤ m ≤ pg_size g ∧ 0 ≤ k ∧ (pg_num g ≠ 0 → k ≤ pg_num g) ∧
    if isRunning (rd d) then
      framesDone (rd d) = k ∧ (pg_num g ≠ 0 → k < pg_num g) ∧
      DmaReadFifo.nextAddr (readFifo d) = frame_ptr g k + m
    else
      DmaReadFifo.pendingRequests (readFifo d) = [] ∧ outs ++ l = frames_upto sd_ex_mem g k ∧
      (k = pg_num g ∨
       k = 0 ∧ has_flag (mmreg d) (start_mask rd_half) = Ok (flag 3 (start_mask rd_half))).
Proof.
  split; [vm_compute; reflexivity|]. split; [vm_compute; reflexivity|].
  apply (mm2s_frames sd_ex_params sd_ex_mem 16 16 4 2 0 (replicate 32 0) sd_ex_idle sd_ex_idle 3 sd_ex_rest
           sd_ex_events); [apply sd_ex_session|apply sd_ex_events_ok|reflexivity].
Defined.

Lemma s2mm_frames_witness :
  let g := prog wr_half sd_ex_rest in
  pg_base g = 8192 ∧ pg_num g = 2 ∧
  ∃ d0 d addrs outs ins l frames cur,
    sd_boot sd_ex_params 16 16 4 2 0 (replicate 32 0) sd_ex_idle sd_ex_idle (3 :: sd_ex_rest) = Ok d0 ∧
    sd_run sd_ex_params sd_ex_mem (d0, []) sd_ex_events = Ok (d, addrs, outs, ins) ∧
    repr (wf_buffer (writeFifo d)) l ∧ acts_data (wr_log d) ++ l = ins ∧
    wr_log d = mjoin frames ++ cur ∧
    (∀ j acts, frames !! j = Some acts →
      contiguous (frame_ptr g (Z.of_nat j)) acts (frame_ptr g (Z.of_nat j) + pg_size g)) ∧
    (pg_num g ≠ 0 → Z.of_nat (length frames) ≤ pg_num g) ∧
    if isRunning (wr d) then
      ∃ b, contiguous (frame_ptr g (Z.of_nat (length frames))) cur b ∧
        b ≤ frame_ptr g (Z.of_nat (length frames)) + pg_size g
    else cur = [] ∧ (frames = [] ∨ Z.of_nat (length frames) = pg_num g).
Proof.
  split; [vm_compute; reflexivity|]. split; [vm_compute; reflexivity|].
  apply (s2mm_frames sd_ex_params sd_ex_mem 16 16 4 2 0 (replicate 32 0) sd_ex_idle sd_ex_idle 3 sd_ex_rest
           sd_ex_events); [apply sd_ex_session|apply sd_ex_events_ok|reflexivity].
Defined.
