(* ===== verification/DmaProgress.v ===== *)
(** Counting the requests of the two DMA FIFOs: how an operation changes the
    list of requests in flight, and in which steps the block advances.  These
    facts hold of every run that returns, and complement the contents the
    invariants of [DmaReadFifo] and [DmaWriteFifo] speak of. *)
From S2P Require Import Prelude CircularQueue ByteFifo DmaEvents DmaReadFifo DmaWriteFifo.

(** ** Lists of requests *)

Definition da_len (a : DmaAction) : Z := Z.of_nat (length (da_data a)).

(** The requests not answered yet. *)
Definition undone (es : list DmaDoneEvent) : nat := length (filter (fun e => _done e = false) es).

Lemma undone_cons e es : undone (e :: es) = ((if _done e then 0 else 1) + undone es)%nat.
Proof. unfold undone. rewrite filter_cons. by destruct (_done e). Qed.
Lemma undone_app xs ys : undone (xs ++ ys) = (undone xs + undone ys)%nat.
Proof. unfold undone. by rewrite filter_app, length_app. Qed.
Lemma undone_all es : Forall (fun e => _done e = false) es → undone es = length es.
Proof. induction 1 as [|e es He _ IH]; [done|]. by rewrite undone_cons, He, IH. Qed.
Lemma undone_none es : Forall (fun e => _done e = true) es → undone es = 0%nat.
Proof. induction 1 as [|e es He _ IH]; [done|]. by rewrite undone_cons, He, IH. Qed.

(** [pend'] is [pend] without answered requests at the front, and with new
    ones of the sizes [szs] behind. *)
Definition advance (pend pend' : list DmaDoneEvent) (szs : list Z) : Prop :=
  ∃ moved rest new, pend = moved ++ rest ∧ pend' = rest ++ new ∧
    Forall (fun e => _done e = true) moved ∧ Forall (fun e => _done e = false) new ∧
    _requestSize <$> new = szs.

Lemma advance_refl pend : advance pend pend [].
Proof. exists [], pend, []. by rewrite app_nil_r. Qed.

Lemma advance_snoc pend pend' e szs :
  advance (pend ++ [e]) pend' szs → _done e = false → advance pend pend' (_requestSize e :: szs).
Proof.
  intros (moved & rest & new & E & -> & Hm & Hn & Hk) He.
  destruct rest as [|r rest _] using rev_ind.
  { rewrite app_nil_r in E. subst moved. apply Forall_app in Hm as [_ [Hd _]%Forall_cons]. congruence. }
  rewrite app_assoc in E. apply app_inj_tail in E as [-> <-].
  exists moved, rest, (e :: new). rewrite <-app_assoc.
  split_and!; [done|done|done|by constructor|cbn; by rewrite Hk].
Qed.

Lemma advance_drop pend moved rest pend' szs :
  pend = moved ++ rest → Forall (fun e => _done e = true) moved → advance rest pend' szs →
  advance pend pend' szs.
Proof.
  intros -> Hm (m & r & n & -> & -> & Hm' & Hn & Hk). exists (moved ++ m), r, n.
  rewrite app_assoc. split_and!; [done|done|by apply Forall_app|done|done].
Qed.

Lemma advance_trans p1 p2 p3 s1 s2 : advance p1 p2 s1 → advance p2 p3 s2 → advance p1 p3 (s1 ++ s2).
Proof.
  intros (m & r & n & -> & -> & Hm & Hn & <-) (m' & r' & n' & E & -> & Hm' & Hn' & <-).
  apply app_eq_app in E as (k & [[-> ->]|[-> E]]).
  - exists (m ++ m'), k, (n ++ n'). rewrite fmap_app, !app_assoc. split_and!; try done; by apply Forall_app.
  - destruct k as [|e k].
    + rewrite app_nil_r in Hm'. exists (m ++ r), [], (n ++ n'). cbn in E. subst n.
      rewrite app_nil_r, fmap_app. split_and!; try done; by apply Forall_app.
    + rewrite E in Hn. apply Forall_cons in Hn as [? _]. apply Forall_app in Hm' as [_ [? _]%Forall_cons]. congruence.
Qed.

Lemma advance_undone pend pend' szs : advance pend pend' szs → undone pend' = (undone pend + length szs)%nat.
Proof.
  intros (m & r & n & -> & -> & Hm & Hn & <-).
  rewrite !undone_app, (undone_none m), (undone_all n), length_fmap by done. lia.
Qed.

Lemma undone_insert es i e e' :
  es !! i = Some e → _done e = false → _done e' = true → undone es = S (undone (<[i:=e']> es)).
Proof.
  intros Hi He He'. rewrite <-(take_drop_middle es i e Hi) at 1.
  rewrite insert_take_drop by (by eapply lookup_lt_Some).
  rewrite !undone_app, !undone_cons, He, He'. lia.
Qed.

(** ** Steps of a block *)

(** From [a], whole steps of [m] bytes and a last one up to [e]. *)
Definition stepped (m e a b : Z) : Prop := ∃ k, 0 ≤ k ∧ b = Z.min e (a + k * m).

Lemma stepped_refl m e a : a ≤ e → stepped m e a a.
Proof. intros. exists 0. lia. Qed.
Lemma stepped_trans m e a b c : 0 < m → stepped m e a b → stepped m e b c → stepped m e a c.
Proof. intros Hm (k & Hk & ->) (j & Hj & ->). exists (k + j).
  assert (0 ≤ k * m ∧ 0 ≤ j * m) by nia. rewrite Z.mul_add_distr_r. lia. Qed.
Lemma stepped_one m e a : 0 < m → a ≤ e → stepped m e a (a + Z.min m (e - a)).
Proof. intros. exists 1. lia. Qed.

(** Two positions inside the same block differ by whole steps. *)
Lemma stepped_gap m e a b c :
  0 < m → stepped m e a b → stepped m e a c → b < c → c < e → b + m ≤ c.
Proof.
  intros Hm (k & Hk & Eb) (j & Hj & Ec) Hbc Hc.
  assert (b = a + k * m ∧ c = a + j * m) as [E1 E2] by lia. clear Eb Ec.
  assert (k < j) by (apply (Z.mul_lt_mono_pos_r m); lia).
  assert ((k + 1) * m ≤ j * m) by (apply Z.mul_le_mono_nonneg_r; lia). lia.
Qed.

(** ** The read FIFO *)

Section Read.
Context {Q : Type} `{ByteFifo Q} (sys : Sys).
Hypothesis timing : bypassCaches sys = false.
Implicit Types f : DmaReadFifo.DmaReadFifo Q.

(** What every operation does to the requests in flight, [pend] before it, and
    to the position in the block. *)
Record rmoves f f' (pend : list DmaDoneEvent) (acts : list RdAction) : Prop := {
  rm_pend : advance pend (DmaReadFifo.pendingRequests f') (ra_size <$> acts);
  rm_step : stepped (DmaReadFifo.maxReqSize f) (DmaReadFifo.endAddr f) (DmaReadFifo.nextAddr f)
              (DmaReadFifo.nextAddr f');
}.

Definition raddr_ok f : Prop :=
  0 < DmaReadFifo.maxReqSize f ∧
  0 ≤ DmaReadFifo.nextAddr f ≤ DmaReadFifo.endAddr f ∧ DmaReadFifo.endAddr f < 2 ^ 64.

Lemma rmoves_refl f : raddr_ok f → rmoves f f (DmaReadFifo.pendingRequests f) [].
Proof. intros (? & ? & ?). split; [apply advance_refl|apply stepped_refl; lia]. Qed.

Lemma request_moves f e free f' a r :
  raddr_ok f → 0 ≤ r → DmaReadFifo.nextAddr f + r ≤ DmaReadFifo.endAddr f →
  DmaReadFifo.request f e free r = Ok (f', a) →
  ∃ e', _done e' = false ∧ _requestSize e' = ra_size a ∧ DmaReadFifo.pendingRequests f' = DmaReadFifo.pendingRequests f ++ [e'] ∧
    DmaReadFifo.nextAddr f' = DmaReadFifo.nextAddr f + r ∧ DmaReadFifo.endAddr f' = DmaReadFifo.endAddr f ∧
    DmaReadFifo.maxReqSize f' = DmaReadFifo.maxReqSize f.
Proof.
  intros (? & ? & ?) Hr Hle HR. unfold DmaReadFifo.request, reset in HR. monp.
  cbn. rewrite wrapU_id by (split; lia). eexists (mkDmaDoneEvent false _ _ _). split_and!; reflexivity.
Qed.

Lemma fill_loop_moves free : ∀ f sp f' acts,
  raddr_ok f → DmaReadFifo.fill_loop f sp free = Ok (f', acts) →
  rmoves f f' (DmaReadFifo.pendingRequests f) acts.
Proof.
  induction free as [|e free IH]; intros f sp f' acts Ha HR; cbn [DmaReadFifo.fill_loop] in HR.
  { simplify_eq. by apply rmoves_refl. }
  destruct (DmaReadFifo.atEndOfBlock f) eqn:Ee; [simplify_eq; by apply rmoves_refl|].
  pose proof Ha as (Hm & Hn & He).
  rewrite (wrapU_id 64 (_ - _)) in HR by (split; lia).
  match type of HR with (if ?b then _ else _) = _ => destruct b end; [simplify_eq; by apply rmoves_refl|].
  apply bind_ok in HR as ([f1 a1] & Hr & HR). apply bind_ok in HR as ([f2 as2] & Hl & HR). simplify_eq.
  apply request_moves in Hr as (e' & Hd & Hz & Ep & En & Ed & Em); [|done|lia..].
  apply IH in Hl as [Hp Hs]; [|unfold raddr_ok; rewrite En, Ed, Em; lia].
  rewrite Ep in Hp. rewrite En, Ed, Em in Hs. split; [rewrite fmap_cons, <-Hz; by apply advance_snoc|].
  eapply stepped_trans; [done|apply stepped_one; lia|done].
Qed.

Lemma resumeFill_moves f f' acts :
  raddr_ok f → DmaReadFifo.resumeFill sys f = Ok (f', acts) → rmoves f f' (DmaReadFifo.pendingRequests f) acts.
Proof.
  unfold DmaReadFifo.resumeFill, DmaReadFifo.resumeFillTiming. rewrite timing.
  intros Ha HR. destruct (DmaReadFifo.drainState f); try (by eapply fill_loop_moves).
  simplify_eq. by apply rmoves_refl.
Qed.

Lemma r_pending_loop_moves (q : Q) pend : ∀ q' free rest free',
  DmaReadFifo.pending_loop q pend free = Ok (q', rest, free') →
  ∃ moved, pend = moved ++ rest ∧ Forall (fun e => _done e = true) moved.
Proof.
  revert q. induction pend as [|e pend IH]; intros q q' free rest free' HR; cbn [DmaReadFifo.pending_loop] in HR.
  { simplify_eq. by exists []. }
  destruct (_done e) eqn:Ed; [|simplify_eq; by exists []].
  apply bind_ok in HR as (q1 & _ & HR). apply IH in HR as (moved & -> & Hm).
  exists (e :: moved). split; [done|by constructor].
Qed.

Lemma r_handlePending_moves f f' :
  DmaReadFifo.handlePending f = Ok f' →
  (∃ moved, DmaReadFifo.pendingRequests f = moved ++ DmaReadFifo.pendingRequests f' ∧ Forall (fun e => _done e = true) moved) ∧
  DmaReadFifo.maxReqSize f' = DmaReadFifo.maxReqSize f ∧ DmaReadFifo.nextAddr f' = DmaReadFifo.nextAddr f ∧ DmaReadFifo.endAddr f' = DmaReadFifo.endAddr f.
Proof.
  unfold DmaReadFifo.handlePending. intros HR. apply bind_ok in HR as ([[q rest] free] & HR & E). simplify_eq.
  apply r_pending_loop_moves in HR as (moved & -> & Hm). case_bool_decide; (split; [by exists moved|done]).
Qed.

(** The [i]-th request is answered. *)
Lemma r_process_moves f i data f' acts :
  raddr_ok f → DmaReadFifo.process sys f i data = Ok (f', acts) →
  ∃ e e', DmaReadFifo.pendingRequests f !! i = Some e ∧ _done e = false ∧ _done e' = true ∧
    _requestSize e' = _requestSize e ∧
    rmoves f f' (<[i:=e']> (DmaReadFifo.pendingRequests f)) acts.
Proof.
  intros Ha HR. unfold DmaReadFifo.process, set_data, set_done, DmaReadFifo.dmaDone in HR. monp.
  match goal with He : DmaReadFifo.pendingRequests f !! i = Some ?e, Hd : negb _ = true |- _ =>
    exists e; apply negb_true_iff in Hd end. cbn [_done _canceled _requestSize _data] in *.
  eexists (mkDmaDoneEvent true _ _ _). split_and!; [done|done|done|reflexivity|].
  match goal with Hh : DmaReadFifo.handlePending _ = Ok _ |- _ =>
    apply r_handlePending_moves in Hh as ((moved & Ep & Hm) & E1 & E2 & E3) end.
  match goal with Hh : DmaReadFifo.resumeFill _ _ = Ok _ |- _ => apply resumeFill_moves in Hh as [Hp Hs] end.
  2: { destruct Ha as (? & ? & ?). unfold raddr_ok. rewrite E1, E2, E3. done. }
  cbn in Ep, E1, E2, E3. split; [by eapply advance_drop|]. by rewrite E1, E2, E3 in Hs.
Qed.

Lemma tryGet_moves f k r f' acts :
  raddr_ok f → DmaReadFifo.tryGet sys f k = Ok (r, f', acts) →
  rmoves f f' (DmaReadFifo.pendingRequests f) acts.
Proof.
  intros Ha HR. unfold DmaReadFifo.tryGet in HR.
  destruct (_ <=? _); [|simplify_eq; by apply rmoves_refl]. monp.
  match goal with Hh : DmaReadFifo.resumeFill _ _ = Ok _ |- _ => by apply resumeFill_moves in Hh as [Hp Hs] end.
Qed.

Lemma startFill_moves f a s f' acts :
  raddr_ok f → 0 ≤ a → 0 ≤ s → a + s < 2 ^ 64 → DmaReadFifo.startFill sys f a s = Ok (f', acts) →
  rmoves (DmaReadFifo.set_addrs f a (a + s)) f' (DmaReadFifo.pendingRequests f) acts.
Proof.
  intros (Hm & _ & _) Ha Hs Hb HR. unfold DmaReadFifo.startFill in HR. monp.
  rewrite wrapU_id in * by (split; lia).
  match goal with Hh : DmaReadFifo.resumeFill _ _ = Ok _ |- _ => apply resumeFill_moves in Hh end;
    [done|unfold raddr_ok; cbn; lia].
Qed.

(** The actions read on from where the block is. *)
Lemma fill_loop_reads free : ∀ f sp f' acts,
  raddr_ok f → DmaReadFifo.fill_loop f sp free = Ok (f', acts) →
  reads (DmaReadFifo.nextAddr f) acts (DmaReadFifo.nextAddr f').
Proof.
  induction free as [|e free IH]; intros f sp f' acts Ha HR; cbn [DmaReadFifo.fill_loop] in HR; [by simplify_eq|].
  destruct (DmaReadFifo.atEndOfBlock f) eqn:Ee; [by simplify_eq|]. apply Z.eqb_neq in Ee. pose proof Ha as (Hm & Hn & He).
  rewrite (wrapU_id 64 (_ - _)) in HR by (split; lia).
  match type of HR with (if ?b then _ else _) = _ => destruct b end; [by simplify_eq|].
  apply bind_ok in HR as ([f1 a1] & Hr & HR). apply bind_ok in HR as ([f2 as2] & Hl & HR). simplify_eq.
  pose proof Hr as (e' & _ & _ & _ & En & Ed & Em)%request_moves; [|done|lia..].
  apply IH in Hl; [|unfold raddr_ok; rewrite En, Ed, Em; lia]. unfold DmaReadFifo.request in Hr. monp.
  cbn [reads ra_addr ra_size]. split_and!; [done|lia|]. by rewrite <-En.
Qed.

Lemma resumeFill_reads f f' acts :
  raddr_ok f → DmaReadFifo.resumeFill sys f = Ok (f', acts) → reads (DmaReadFifo.nextAddr f) acts (DmaReadFifo.nextAddr f').
Proof.
  unfold DmaReadFifo.resumeFill, DmaReadFifo.resumeFillTiming. rewrite timing.
  intros Ha HR. destruct (DmaReadFifo.drainState f); try (by eapply fill_loop_reads). by simplify_eq.
Qed.

Lemma r_process_reads f i data f' acts :
  raddr_ok f → DmaReadFifo.process sys f i data = Ok (f', acts) → reads (DmaReadFifo.nextAddr f) acts (DmaReadFifo.nextAddr f').
Proof.
  intros Ha HR. unfold DmaReadFifo.process, DmaReadFifo.dmaDone in HR. monp.
  match goal with Hh : DmaReadFifo.handlePending _ = Ok _ |- _ =>
    apply r_handlePending_moves in Hh as (_ & E1 & E2 & E3) end. cbn in E1, E2, E3.
  match goal with Hh : DmaReadFifo.resumeFill _ _ = Ok _ |- _ => apply resumeFill_reads in Hh; [by rewrite E2 in Hh|] end.
  destruct Ha as (? & ? & ?). unfold raddr_ok. by rewrite E1, E2, E3.
Qed.

Lemma tryGet_reads f k r f' acts :
  raddr_ok f → DmaReadFifo.tryGet sys f k = Ok (r, f', acts) → reads (DmaReadFifo.nextAddr f) acts (DmaReadFifo.nextAddr f').
Proof.
  intros Ha HR. unfold DmaReadFifo.tryGet in HR. destruct (_ <=? _); [|by simplify_eq]. monp.
  match goal with Hh : DmaReadFifo.resumeFill _ _ = Ok _ |- _ => by apply resumeFill_reads in Hh end.
Qed.

Lemma startFill_reads f a s f' acts :
  raddr_ok f → 0 ≤ a → 0 ≤ s → a + s < 2 ^ 64 → DmaReadFifo.startFill sys f a s = Ok (f', acts) →
  reads a acts (DmaReadFifo.nextAddr f').
Proof.
  intros (Hm & _ & _) Ha Hs Hb HR. unfold DmaReadFifo.startFill in HR. monp.
  rewrite wrapU_id in * by (split; lia).
  match goal with Hh : DmaReadFifo.resumeFill _ _ = Ok _ |- _ => apply resumeFill_reads in Hh end;
    [done|unfold raddr_ok; cbn; lia].
Qed.
End Read.

(** ** The write FIFO *)

Section Write.
Context {Q : Type} `{ByteFifo Q} (sys : Sys).
Hypothesis timing : bypassCaches sys = false.
Implicit Types f : DmaWriteFifo.DmaWriteFifo Q.

(** What every operation does to the requests in flight, [pend] before it, and
    to the position in the block. *)
Record wmoves f f' (pend : list DmaDoneEvent) (acts : list DmaAction) : Prop := {
  wm_pend : advance pend (DmaWriteFifo.pendingRequests f') (da_len <$> acts);
  wm_step : stepped (DmaWriteFifo.maxReqSize f) (DmaWriteFifo.endAddr f) (DmaWriteFifo.nextAddr f)
              (DmaWriteFifo.nextAddr f');
}.

Definition waddr_ok f : Prop :=
  0 < DmaWriteFifo.maxReqSize f ∧
  0 ≤ DmaWriteFifo.nextAddr f ≤ DmaWriteFifo.endAddr f ∧ DmaWriteFifo.endAddr f < 2 ^ 64.

Lemma wmoves_refl f : waddr_ok f → wmoves f f (DmaWriteFifo.pendingRequests f) [].
Proof. intros (? & ? & ?). split; [apply advance_refl|apply stepped_refl; lia]. Qed.

Lemma issue_moves f e free f' a r :
  waddr_ok f → 0 ≤ r → DmaWriteFifo.nextAddr f + r ≤ DmaWriteFifo.endAddr f →
  DmaWriteFifo.issue f e free r = Ok (f', a) →
  ∃ e', _done e' = false ∧ _requestSize e' = da_len a ∧ DmaWriteFifo.pendingRequests f' = DmaWriteFifo.pendingRequests f ++ [e'] ∧
    DmaWriteFifo.nextAddr f' = DmaWriteFifo.nextAddr f + r ∧ DmaWriteFifo.endAddr f' = DmaWriteFifo.endAddr f ∧
    DmaWriteFifo.maxReqSize f' = DmaWriteFifo.maxReqSize f.
Proof.
  intros (? & ? & ?) Hr Hle HR. unfold DmaWriteFifo.issue, reset, set_data in HR. monp.
  cbn. rewrite wrapU_id by (split; lia). eexists (mkDmaDoneEvent false _ r _). split_and!; try reflexivity.
  unfold da_len. cbn. match goal with Hr : mem_read _ _ _ = Ok _ |- _ => apply mem_read_length in Hr; rewrite Hr end. lia.
Qed.

Lemma empty_loop_moves free : ∀ f sp f' acts,
  waddr_ok f → DmaWriteFifo.empty_loop f sp free = Ok (f', acts) →
  wmoves f f' (DmaWriteFifo.pendingRequests f) acts.
Proof.
  induction free as [|e free IH]; intros f sp f' acts Ha HR; cbn [DmaWriteFifo.empty_loop] in HR.
  { simplify_eq. by apply wmoves_refl. }
  destruct (DmaWriteFifo.atEndOfBlock f) eqn:Ee; [simplify_eq; by apply wmoves_refl|].
  pose proof Ha as (Hm & Hn & He).
  rewrite (wrapU_id 64 (_ - _)) in HR by (split; lia).
  match type of HR with (if ?b then _ else _) = _ => destruct b end; [simplify_eq; by apply wmoves_refl|].
  apply bind_ok in HR as ([f1 a1] & Hr & HR). apply bind_ok in HR as ([f2 as2] & Hl & HR). simplify_eq.
  apply issue_moves in Hr as (e' & Hd & Hz & Ep & En & Ed & Em); [|done|lia..].
  apply IH in Hl as [Hp Hs]; [|unfold waddr_ok; rewrite En, Ed, Em; lia].
  rewrite Ep in Hp. rewrite En, Ed, Em in Hs. split; [rewrite fmap_cons, <-Hz; by apply advance_snoc|].
  eapply stepped_trans; [done|apply stepped_one; lia|done].
Qed.

Lemma resumeEmpty_moves f f' acts :
  waddr_ok f → DmaWriteFifo.resumeEmpty sys f = Ok (f', acts) → wmoves f f' (DmaWriteFifo.pendingRequests f) acts.
Proof.
  unfold DmaWriteFifo.resumeEmpty, DmaWriteFifo.resumeEmptyTiming. rewrite timing.
  intros Ha HR. destruct (DmaWriteFifo.drainState f); try (by eapply empty_loop_moves).
  simplify_eq. by apply wmoves_refl.
Qed.

Lemma w_pending_loop_moves (q : Q) pend : ∀ q' free rest free',
  DmaWriteFifo.pending_loop q pend free = Ok (q', rest, free') →
  ∃ moved, pend = moved ++ rest ∧ Forall (fun e => _done e = true) moved.
Proof.
  revert q. induction pend as [|e pend IH]; intros q q' free rest free' HR; cbn [DmaWriteFifo.pending_loop] in HR.
  { simplify_eq. by exists []. }
  destruct (_done e) eqn:Ed; [|simplify_eq; by exists []].
  apply bind_ok in HR as (q1 & _ & HR). apply IH in HR as (moved & -> & Hm).
  exists (e :: moved). split; [done|by constructor].
Qed.

Lemma w_handlePending_moves f f' :
  DmaWriteFifo.handlePending f = Ok f' →
  (∃ moved, DmaWriteFifo.pendingRequests f = moved ++ DmaWriteFifo.pendingRequests f' ∧ Forall (fun e => _done e = true) moved) ∧
  DmaWriteFifo.maxReqSize f' = DmaWriteFifo.maxReqSize f ∧ DmaWriteFifo.nextAddr f' = DmaWriteFifo.nextAddr f ∧ DmaWriteFifo.endAddr f' = DmaWriteFifo.endAddr f.
Proof.
  unfold DmaWriteFifo.handlePending. intros HR. apply bind_ok in HR as ([[q rest] free] & HR & E). simplify_eq.
  apply w_pending_loop_moves in HR as (moved & -> & Hm). case_bool_decide; (split; [by exists moved|done]).
Qed.

(** The [i]-th request is answered. *)
Lemma w_process_moves f i f' acts :
  waddr_ok f → DmaWriteFifo.process sys f i = Ok (f', acts) →
  ∃ e e', DmaWriteFifo.pendingRequests f !! i = Some e ∧ _done e = false ∧ _done e' = true ∧
    _requestSize e' = _requestSize e ∧
    wmoves f f' (<[i:=e']> (DmaWriteFifo.pendingRequests f)) acts.
Proof.
  intros Ha HR. unfold DmaWriteFifo.process, set_done, DmaWriteFifo.dmaDone in HR. monp.
  match goal with He : DmaWriteFifo.pendingRequests f !! i = Some ?e, Hd : negb _ = true |- _ =>
    exists e; apply negb_true_iff in Hd end. cbn [_done _canceled _requestSize _data] in *.
  eexists (mkDmaDoneEvent true _ _ _). split_and!; [done|done|done|reflexivity|].
  match goal with Hh : DmaWriteFifo.handlePending _ = Ok _ |- _ =>
    apply w_handlePending_moves in Hh as ((moved & Ep & Hm) & E1 & E2 & E3) end.
  match goal with Hh : DmaWriteFifo.resumeEmpty _ _ = Ok _ |- _ => apply resumeEmpty_moves in Hh as [Hp Hs] end.
  2: { destruct Ha as (? & ? & ?). unfold waddr_ok. rewrite E1, E2, E3. done. }
  cbn in Ep, E1, E2, E3. split; [by eapply advance_drop|]. by rewrite E1, E2, E3 in Hs.
Qed.

Lemma fill_moves f xs f' acts :
  waddr_ok f → DmaWriteFifo.fill sys f xs = Ok (f', acts) →
  wmoves f f' (DmaWriteFifo.pendingRequests f) acts.
Proof.
  intros Ha HR. unfold DmaWriteFifo.fill, DmaWriteFifo.tryFill in HR.
  destruct (_ <=? _); [|by monp]. monp.
  match goal with Hh : DmaWriteFifo.resumeEmpty _ _ = Ok _ |- _ => by apply resumeEmpty_moves in Hh as [Hp Hs] end.
Qed.

Lemma startEmpty_moves f a s f' acts :
  waddr_ok f → 0 ≤ a → 0 ≤ s → a + s < 2 ^ 64 → DmaWriteFifo.startEmpty sys f a s = Ok (f', acts) →
  wmoves (DmaWriteFifo.set_addrs f a (a + s)) f' (DmaWriteFifo.pendingRequests f) acts.
Proof.
  intros (Hm & _ & _) Ha Hs Hb HR. unfold DmaWriteFifo.startEmpty in HR. monp.
  rewrite wrapU_id in * by (split; lia).
  match goal with Hh : DmaWriteFifo.resumeEmpty _ _ = Ok _ |- _ => apply resumeEmpty_moves in Hh end;
    [done|unfold waddr_ok; cbn; lia].
Qed.

(** The actions write on from where the block is. *)
Definition writes (a : Z) (acts : list DmaAction) (b : Z) : Prop :=
  contiguous a acts b ∧ Forall (fun x => 0 < da_len x) acts.

Lemma empty_loop_writes free : ∀ f sp f' acts,
  waddr_ok f → DmaWriteFifo.empty_loop f sp free = Ok (f', acts) →
  writes (DmaWriteFifo.nextAddr f) acts (DmaWriteFifo.nextAddr f').
Proof.
  induction free as [|e free IH]; intros f sp f' acts Ha HR; cbn [DmaWriteFifo.empty_loop] in HR; [by simplify_eq|].
  destruct (DmaWriteFifo.atEndOfBlock f) eqn:Ee; [by simplify_eq|]. apply Z.eqb_neq in Ee. pose proof Ha as (Hm & Hn & He).
  rewrite (wrapU_id 64 (_ - _)) in HR by (split; lia).
  match type of HR with (if ?b then _ else _) = _ => destruct b end; [by simplify_eq|].
  apply bind_ok in HR as ([f1 a1] & Hr & HR). apply bind_ok in HR as ([f2 as2] & Hl & HR). simplify_eq.
  pose proof Hr as (e' & _ & _ & _ & En & Ed & Em)%issue_moves; [|done|lia..].
  apply IH in Hl as [Hc Hp]; [|unfold waddr_ok; rewrite En, Ed, Em; lia]. unfold DmaWriteFifo.issue in Hr. monp.
  match goal with Hx : mem_read _ _ _ = Ok _ |- _ => apply mem_read_length in Hx as Hlen end.
  split; [|constructor; [unfold da_len; cbn; lia|done]]. cbn [contiguous da_addr da_data]. split; [done|].
  by rewrite Hlen, Z2Nat.id, <-En by lia.
Qed.

Lemma resumeEmpty_writes f f' acts :
  waddr_ok f → DmaWriteFifo.resumeEmpty sys f = Ok (f', acts) → writes (DmaWriteFifo.nextAddr f) acts (DmaWriteFifo.nextAddr f').
Proof.
  unfold DmaWriteFifo.resumeEmpty, DmaWriteFifo.resumeEmptyTiming. rewrite timing.
  intros Ha HR. destruct (DmaWriteFifo.drainState f); try (by eapply empty_loop_writes). by simplify_eq.
Qed.

Lemma w_process_writes f i f' acts :
  waddr_ok f → DmaWriteFifo.process sys f i = Ok (f', acts) → writes (DmaWriteFifo.nextAddr f) acts (DmaWriteFifo.nextAddr f').
Proof.
  intros Ha HR. unfold DmaWriteFifo.process, DmaWriteFifo.dmaDone in HR. monp.
  match goal with Hh : DmaWriteFifo.handlePending _ = Ok _ |- _ =>
    apply w_handlePending_moves in Hh as (_ & E1 & E2 & E3) end. cbn in E1, E2, E3.
  match goal with Hh : DmaWriteFifo.resumeEmpty _ _ = Ok _ |- _ => apply resumeEmpty_writes in Hh; [by rewrite E2 in Hh|] end.
  destruct Ha as (? & ? & ?). unfold waddr_ok. by rewrite E1, E2, E3.
Qed.

Lemma fill_writes f xs f' acts :
  waddr_ok f → DmaWriteFifo.fill sys f xs = Ok (f', acts) → writes (DmaWriteFifo.nextAddr f) acts (DmaWriteFifo.nextAddr f').
Proof.
  intros Ha HR. unfold DmaWriteFifo.fill, DmaWriteFifo.tryFill in HR. destruct (_ <=? _); [|by monp]. monp.
  match goal with Hh : DmaWriteFifo.resumeEmpty _ _ = Ok _ |- _ => by apply resumeEmpty_writes in Hh end.
Qed.

Lemma startEmpty_writes f a s f' acts :
  waddr_ok f → 0 ≤ a → 0 ≤ s → a + s < 2 ^ 64 → DmaWriteFifo.startEmpty sys f a s = Ok (f', acts) →
  writes a acts (DmaWriteFifo.nextAddr f').
Proof.
  intros (Hm & _ & _) Ha Hs Hb HR. unfold DmaWriteFifo.startEmpty in HR. monp.
  rewrite wrapU_id in * by (split; lia).
  match goal with Hh : DmaWriteFifo.resumeEmpty _ _ = Ok _ |- _ => apply resumeEmpty_writes in Hh end;
    [done|unfold waddr_ok; cbn; lia].
Qed.
End Write.
