(* ===== verification/NoncoherentDma.v ===== *)
(** Model of [hwacc/noncoherent_dma.{hh,cc}]: a DMA device that copies a block
    of memory.  It owns a read and a write FIFO on each of its two ports, the
    system side and the accelerator side, and uses for a transfer those of the
    ports that hold the source and the destination address. *)
From S2P Require Import Prelude CircularQueue ByteFifo DmaEvents DmaReadFifo DmaWriteFifo AddrRange.

(** ** The device *)

Abbreviation RFifo := (DmaReadFifo.DmaReadFifo CircularQueue).
Abbreviation WFifo := (DmaWriteFifo.DmaWriteFifo CircularQueue).

(** The port a FIFO belongs to. *)
Inductive Side := MemSide | AccSide.
#[export] Instance Side_eq_dec : EqDecision Side.
Proof. solve_decision. Defined.

(** Configuration.  [accRanges] is what [accPort.getAddrRanges()] returns, the
    ranges of the devices behind that port. *)
Record NDParams := mkNDParams {
  nd_pioAddr : Z;
  nd_pioDelay : Z;
  nd_pioSize : Z;
  nd_maxReqSize : Z;
  nd_intNum : Z;
  nd_accRanges : list AddrRange;
  nd_sys : Sys;
}.

(** The members; [readFifo] and [writeFifo] point to one of the two FIFOs of
    their kind, or nowhere.  The calls on the DMA ports and the GIC are
    collected, oldest first. *)
Record NoncoherentDma := mkNoncoherentDma {
  mmreg : list Z;
  memSideReadFifo : RFifo;
  accSideReadFifo : RFifo;
  memSideWriteFifo : WFifo;
  accSideWriteFifo : WFifo;
  readFifo : option Side;
  writeFifo : option Side;
  last_flag : Z;
  activeSrc : Z;
  activeDst : Z;
  writesLeft : Z;
  running : bool;
  tickScheduled : bool;
  rd_log : list (Side * RdAction);
  wr_log : list (Side * DmaAction);
  gic_log : list GicCall;
}.

Definition SRC_OFF : Z := 1.
Definition DST_OFF : Z := 9.
Definition LEN_OFF : Z := 17.

Definition the_readFifo (d : NoncoherentDma) (s : Side) : RFifo :=
  match s with MemSide => memSideReadFifo d | AccSide => accSideReadFifo d end.
Definition the_writeFifo (d : NoncoherentDma) (s : Side) : WFifo :=
  match s with MemSide => memSideWriteFifo d | AccSide => accSideWriteFifo d end.

(** An operation on the read FIFO of a side, which sent [acts]. *)
Definition set_readFifo (d : NoncoherentDma) (s : Side) (f : RFifo) (acts : list RdAction) : NoncoherentDma :=
  mkNoncoherentDma (mmreg d)
    (match s with MemSide => f | AccSide => memSideReadFifo d end)
    (match s with MemSide => accSideReadFifo d | AccSide => f end)
    (memSideWriteFifo d) (accSideWriteFifo d) (readFifo d) (writeFifo d)
    (last_flag d) (activeSrc d) (activeDst d) (writesLeft d) (running d) (tickScheduled d)
    (rd_log d ++ (pair s <$> acts)) (wr_log d) (gic_log d).
Definition set_writeFifo (d : NoncoherentDma) (s : Side) (f : WFifo) (acts : list DmaAction) : NoncoherentDma :=
  mkNoncoherentDma (mmreg d) (memSideReadFifo d) (accSideReadFifo d)
    (match s with MemSide => f | AccSide => memSideWriteFifo d end)
    (match s with MemSide => accSideWriteFifo d | AccSide => f end)
    (readFifo d) (writeFifo d)
    (last_flag d) (activeSrc d) (activeDst d) (writesLeft d) (running d) (tickScheduled d)
    (rd_log d) (wr_log d ++ (pair s <$> acts)) (gic_log d).

Definition set_mmreg (d : NoncoherentDma) (mm : list Z) : NoncoherentDma :=
  mkNoncoherentDma mm (memSideReadFifo d) (accSideReadFifo d) (memSideWriteFifo d) (accSideWriteFifo d)
    (readFifo d) (writeFifo d) (last_flag d) (activeSrc d) (activeDst d) (writesLeft d) (running d)
    (tickScheduled d) (rd_log d) (wr_log d) (gic_log d).
Definition set_active (d : NoncoherentDma) (r w : option Side) (src dst left : Z) (run : bool) : NoncoherentDma :=
  mkNoncoherentDma (mmreg d) (memSideReadFifo d) (accSideReadFifo d) (memSideWriteFifo d)
    (accSideWriteFifo d) r w (last_flag d) src dst left run
    (tickScheduled d) (rd_log d) (wr_log d) (gic_log d).
Definition set_writesLeft (d : NoncoherentDma) (left : Z) : NoncoherentDma :=
  set_active d (readFifo d) (writeFifo d) (activeSrc d) (activeDst d) left (running d).
Definition set_running (d : NoncoherentDma) (run : bool) : NoncoherentDma :=
  set_active d (readFifo d) (writeFifo d) (activeSrc d) (activeDst d) (writesLeft d) run.
Definition add_gic (d : NoncoherentDma) (g : list GicCall) : NoncoherentDma :=
  mkNoncoherentDma (mmreg d) (memSideReadFifo d) (accSideReadFifo d) (memSideWriteFifo d)
    (accSideWriteFifo d) (readFifo d) (writeFifo d) (last_flag d) (activeSrc d) (activeDst d)
    (writesLeft d) (running d) (tickScheduled d) (rd_log d) (wr_log d) (gic_log d ++ g).
(** [last_flag = flag] and whether the tick event is scheduled. *)
Definition set_tick (d : NoncoherentDma) (flag : Z) (sched : bool) : NoncoherentDma :=
  mkNoncoherentDma (mmreg d) (memSideReadFifo d) (accSideReadFifo d) (memSideWriteFifo d)
    (accSideWriteFifo d) (readFifo d) (writeFifo d) flag (activeSrc d) (activeDst d)
    (writesLeft d) (running d) sched (rd_log d) (wr_log d) (gic_log d).

(** The constructor; [flag0], [src0], [dst0] and [left0] stand for the members
    it leaves without a value ([last_flag], [activeSrc], [activeDst],
    [writesLeft]). *)
Definition NoncoherentDma_new (p : NDParams) (bufferSize maxPending uninit : Z)
    (flag0 src0 dst0 left0 : Z) : NoncoherentDma :=
  let rf := DmaReadFifo_new (bufferSize / 2) (nd_maxReqSize p) maxPending uninit in
  let wf := DmaWriteFifo_new (bufferSize / 2) (nd_maxReqSize p) maxPending uninit in
  mkNoncoherentDma (replicate (Z.to_nat (nd_pioSize p)) 0) rf rf wf wf None None flag0 src0 dst0 left0
    false false [] [] [].

Section Device.
Context (p : NDParams).

Definition nd_getAddrRanges : outcome (list AddrRange) :=
  let* _ := assert_ (negb (nd_pioSize p =? 0)) in
  Ok [RangeSize (nd_pioAddr p) (nd_pioSize p)].

Definition side_of (a : Z) : Side :=
  if existsb (fun r => ar_contains r a) (nd_accRanges p) then AccSide else MemSide.
Definition getActiveReadFifo (d : NoncoherentDma) : Side := side_of (activeSrc d).
Definition getActiveWriteFifo (d : NoncoherentDma) : Side := side_of (activeDst d).

Definition nd_flags (d : NoncoherentDma) : outcome Z := load_uint (mmreg d) 0 1.
(** [FLAGS[0] &= a; FLAGS[0] |= b]. *)
Definition nd_flags_update (d : NoncoherentDma) (a b : Z) : outcome NoncoherentDma :=
  let* fl := nd_flags d in
  let* mm := mem_write (mmreg d) 0 [Z.land fl a] in
  let d := set_mmreg d mm in
  let* fl := nd_flags d in
  let* mm := mem_write (mmreg d) 0 [Z.lor fl b] in
  Ok (set_mmreg d mm).

(** [if (!running && (FLAGS[0]&0x01)==0x01)]; the [int] passed as a size is
    converted to [size_t]. *)
Definition nd_start (d : NoncoherentDma) : outcome NoncoherentDma :=
  let* fl := nd_flags d in
  if negb (running d) && (Z.land fl 1 =? 1) then
    let d := set_running d true in
    let* d := nd_flags_update d 254 2 in
    let* src := load_uint (mmreg d) SRC_OFF 8 in
    let* dst := load_uint (mmreg d) DST_OFF 8 in
    let* len := load_uint (mmreg d) LEN_OFF 4 in
    let d := set_active d (readFifo d) (writeFifo d) src dst (s32 len) true in
    let r := getActiveReadFifo d in
    let w := getActiveWriteFifo d in
    let d := set_active d (Some r) (Some w) src dst (s32 len) true in
    let* (f, acts) := DmaReadFifo.startFill (nd_sys p) (the_readFifo d r) src (u64 (writesLeft d)) in
    let d := set_readFifo d r f acts in
    let* (f, acts) := DmaWriteFifo.startEmpty (nd_sys p) (the_writeFifo d w) dst (u64 (writesLeft d)) in
    Ok (set_writeFifo d w f acts)
  else Ok d.

(** [if (((last_flag&0x04)==0x04) && (FLAGS[0]&0x04) != 0x04)]. *)
Definition nd_clear (d : NoncoherentDma) : outcome NoncoherentDma :=
  let* fl := nd_flags d in
  Ok (if (Z.land (last_flag d) 4 =? 4) && negb (Z.land fl 4 =? 4) then add_gic d [ClearInt (nd_intNum p)]
      else d).

(** A null FIFO pointer is dereferenced with undefined behaviour. *)
Definition deref {A} (o : option A) : outcome A :=
  match o with Some a => Ok a | None => Err Undefined end.

(** [MIN(maxReqSize, writesLeft)]: the comparison and the result are unsigned. *)
Definition nd_toWrite (d : NoncoherentDma) : Z :=
  s32 (if nd_maxReqSize p <? u32 (writesLeft d) then nd_maxReqSize p else u32 (writesLeft d)).

(** [if (writesLeft > 0)]: move a chunk from the read to the write FIFO. *)
Definition nd_move (d : NoncoherentDma) : outcome NoncoherentDma :=
  let toWrite := nd_toWrite d in
  let* w := deref (writeFifo d) in
  if canFill (the_writeFifo d w) (u64 toWrite) then
    let* r := deref (readFifo d) in
    let* (data, f, acts) := DmaReadFifo.tryGet (nd_sys p) (the_readFifo d r) (u64 toWrite) in
    let d := set_readFifo d r f acts in
    match data with
    | Some data =>
        let* (f, acts) := DmaWriteFifo.fill (nd_sys p) (the_writeFifo d w) data in
        Ok (set_writesLeft (set_writeFifo d w f acts) (s32 (writesLeft d - toWrite)))
    | None => Ok d
    end
  else Ok d.

(** The other branch: the transfer ends with the last write. *)
Definition nd_finish (d : NoncoherentDma) : outcome NoncoherentDma :=
  let* w := deref (writeFifo d) in
  if negb (DmaWriteFifo.isActive (the_writeFifo d w)) then
    let d := set_running d false in
    let* d := nd_flags_update d 253 4 in
    Ok (add_gic d [SendInt (nd_intNum p)])
  else Ok d.

(** [tick()], run by the event queue: the event is no longer scheduled. *)
Definition nd_tick (d : NoncoherentDma) : outcome NoncoherentDma :=
  let* d := nd_start d in
  let* d := nd_clear d in
  let* d :=
    if running d then
      if 0 <? writesLeft d then nd_move d else nd_finish d
    else Ok d in
  let* fl := nd_flags d in
  Ok (set_tick d fl (running d)).

(** The whole 8 bytes are loaded whatever the size of the packet. *)
Definition nd_read (d : NoncoherentDma) (paddr size : Z) : outcome (list Z * Z) :=
  let offset := u64 (paddr - nd_pioAddr p) in
  let* data := load_uint (mmreg d) offset 8 in
  if (size =? 1) || (size =? 2) || (size =? 4) || (size =? 8) then
    Ok (le_bytes (Z.to_nat size) data, nd_pioDelay p)
  else Err Panic.

Definition nd_write (d : NoncoherentDma) (paddr : Z) (data : list Z) : outcome (NoncoherentDma * Z) :=
  let offset := u64 (paddr - nd_pioAddr p) in
  let* mm := mem_write (mmreg d) offset data in
  let d := set_mmreg d mm in
  Ok (set_tick d (last_flag d) true, nd_pioDelay p).
End Device.
