(* ===== verification/NoncoherentDmaSpec.v ===== *)
(** Correctness of the DMA device of [NoncoherentDma]: whatever the order in
    which its requests complete, a transfer copies its block, touches nothing
    else and ends with one interrupt; and it does end. *)
From S2P Require Import Prelude CircularQueue ByteFifo DmaEvents DmaReadFifo DmaWriteFifo DmaProgress AddrRange NoncoherentDma.

(** ** Memory *)

(** Memory [m] after the write of [xs] at [a]. *)
Definition mem_put (m : Z → Z) (a : Z) (xs : list Z) (x : Z) : Z :=
  if (a <=? x) && (x <? a + Z.of_nat (length xs)) then default 0 (xs !! Z.to_nat (x - a)) else m x.

Lemma mem_put_out m a xs x : ¬ (a ≤ x < a + Z.of_nat (length xs)) → mem_put m a xs x = m x.
Proof. intros. unfold mem_put. destruct (Z.leb_spec a x), (Z.ltb_spec x (a + Z.of_nat (length xs))); simpl; lia || done. Qed.

Lemma bytes_ext m m' a n : (∀ x, a ≤ x < a + n → m x = m' x) → bytes m a n = bytes m' a n.
Proof. intros E. unfold bytes. apply list_fmap_ext. intros i x Hx. apply lookup_seqZ in Hx as [-> Hi]. apply E. lia. Qed.

Lemma bytes_mem_put m a xs : bytes (mem_put m a xs) a (Z.of_nat (length xs)) = xs.
Proof.
  apply list_eq. intros i. unfold bytes. rewrite list_lookup_fmap.
  destruct (decide (i < length xs)%nat) as [Hi|Hi].
  - destruct (xs !! i) as [x|] eqn:E; [|apply lookup_ge_None in E; lia].
    rewrite lookup_seqZ_lt by lia. cbn. f_equal. unfold mem_put.
    rewrite (proj2 (Z.leb_le _ _)), (proj2 (Z.ltb_lt _ _)) by lia. cbn.
    replace (Z.to_nat (a + Z.of_nat i - a)) with i by lia. by rewrite E.
  - rewrite lookup_seqZ_ge by lia. by rewrite lookup_ge_None_2 by lia.
Qed.

Lemma bytes_mem_put_out m a xs b n :
  b + n ≤ a ∨ a + Z.of_nat (length xs) ≤ b → bytes (mem_put m a xs) b n = bytes m b n.
Proof. intros. apply bytes_ext. intros x Hx. apply mem_put_out. lia. Qed.

(** A write that has reached memory. *)
Definition applied (m : Z → Z) (x : DmaAction) : Prop :=
  bytes m (da_addr x) (Z.of_nat (length (da_data x))) = da_data x.

(** Writes at consecutive addresses do not overlap. *)
Lemma contiguous_disjoint a xs y zs b : contiguous a (xs ++ y :: zs) b →
  Forall (fun x => da_addr x + Z.of_nat (length (da_data x)) ≤ da_addr y) xs ∧
  Forall (fun x => da_addr y + Z.of_nat (length (da_data y)) ≤ da_addr x) zs ∧
  a ≤ da_addr y ∧ da_addr y + Z.of_nat (length (da_data y)) ≤ b.
Proof.
  revert a. induction xs as [|x xs IH]; intros a; cbn [app contiguous].
  - intros [<- Hc]. split; [done|]. split; [|apply contiguous_length in Hc; lia].
    revert Hc. generalize (da_addr y + Z.of_nat (length (da_data y))) as s. clear. intros s Hc.
    assert (∀ t, s ≤ t → contiguous t zs b → Forall (fun x => s ≤ da_addr x) zs) as K; [|by eapply K].
    clear Hc. induction zs as [|z zs IH]; intros t Ht; cbn; [done|]. intros [E Hc].
    constructor; [lia|]. eapply IH; [|exact Hc]. lia.
  - intros [<- Hc]. destruct (IH _ Hc) as (H1 & H2 & H3 & H4). split_and!; [|done|lia|lia].
    constructor; [lia|done].
Qed.

Lemma applied_put m y x :
  da_addr x + Z.of_nat (length (da_data x)) ≤ da_addr y ∨ da_addr y + Z.of_nat (length (da_data y)) ≤ da_addr x →
  applied m x → applied (mem_put m (da_addr y) (da_data y)) x.
Proof. intros Hd Hx. unfold applied. by rewrite bytes_mem_put_out by lia. Qed.

(** Once all have been applied, memory holds their bytes. *)
Lemma applied_all m a xs b :
  contiguous a xs b → Forall (applied m) xs → bytes m a (b - a) = acts_data xs.
Proof.
  intros Hc Hx. revert a Hc. induction Hx as [|x xs Hx _ IH]; intros a; cbn [contiguous].
  { intros ->. by rewrite Z.sub_diag. }
  intros [<- Hc]. pose proof (contiguous_length _ _ _ Hc).
  replace (b - da_addr x) with (Z.of_nat (length (da_data x)) + (b - (da_addr x + Z.of_nat (length (da_data x))))) by lia.
  rewrite bytes_app by lia. rewrite (IH _ Hc). cbn. by rewrite Hx.
Qed.

(** ** Events *)

(** The device, the requests in flight as the ports keep them, and memory. *)
Record NDEnv := mkNDEnv {
  dev : NoncoherentDma;
  raddrs : list Z;
  wacts : list DmaAction;
  mem : Z → Z;
}.

(** The tick event, and the completion of the [i]-th read or write in flight. *)
Inductive NDEvent := NTick | NRdDone (i : nat) | NWrDone (i : nat).
#[export] Instance NDEvent_eq_dec : EqDecision NDEvent.
Proof. solve_decision. Defined.

Section Events.
Context (p : NDParams).

(** The actions sent since [d]. *)
Definition rd_new (d d' : NoncoherentDma) : list RdAction := snd <$> drop (length (rd_log d)) (rd_log d').
Definition wr_new (d d' : NoncoherentDma) : list DmaAction := snd <$> drop (length (wr_log d)) (wr_log d').

(** The requests handled are dropped from the front, the new ones added. *)
Definition wtrack (f f' : WFifo) (acts0 acts : list DmaAction) : list DmaAction :=
  drop (length (DmaWriteFifo.pendingRequests f) + length acts - length (DmaWriteFifo.pendingRequests f')) acts0
    ++ acts.

(** A read is answered with what memory holds when it completes, a write
    changes memory when it completes.  Events that cannot happen do nothing. *)
Definition nd_event (v : NDEnv) (e : NDEvent) : outcome NDEnv :=
  let d := dev v in
  match e with
  | NTick =>
      if tickScheduled d then
        let* d' := nd_tick p d in
        Ok (mkNDEnv d' (raddrs v ++ (ra_addr <$> rd_new d d')) (wacts v ++ wr_new d d') (mem v))
      else Ok v
  | NRdDone i =>
      match readFifo d with
      | None => Ok v
      | Some s =>
          let f := the_readFifo d s in
          match DmaReadFifo.pendingRequests f !! i, raddrs v !! i with
          | Some ev, Some a =>
              if _done ev then Ok v
              else
                let* (f', acts) := DmaReadFifo.process (nd_sys p) f i (bytes (mem v) a (_requestSize ev)) in
                Ok (mkNDEnv (set_readFifo d s f' acts) (track f f' (raddrs v) acts) (wacts v) (mem v))
          | _, _ => Ok v
          end
      end
  | NWrDone i =>
      match writeFifo d with
      | None => Ok v
      | Some s =>
          let f := the_writeFifo d s in
          match DmaWriteFifo.pendingRequests f !! i, wacts v !! i with
          | Some ev, Some a =>
              if _done ev then Ok v
              else
                let m := mem_put (mem v) (da_addr a) (da_data a) in
                let* (f', acts) := DmaWriteFifo.process (nd_sys p) f i in
                Ok (mkNDEnv (set_writeFifo d s f' acts) (raddrs v) (wtrack f f' (wacts v) acts) m)
          | _, _ => Ok v
          end
      end
  end.

Fixpoint nd_run (v : NDEnv) (es : list NDEvent) : outcome NDEnv :=
  match es with
  | [] => Ok v
  | e :: es => let* v := nd_event v e in nd_run v es
  end.

Lemma nd_run_app es es' : ∀ v, nd_run v (es ++ es') = (let* v := nd_run v es in nd_run v es').
Proof.
  induction es as [|e es IH]; intros v; cbn [nd_run app]; [done|].
  destruct (nd_event v e); cbn [mbind outcome_bind]; [apply IH|done].
Qed.
End Events.

(** ** Members of the device *)

Lemma the_readFifo_set d s f acts s' :
  the_readFifo (set_readFifo d s f acts) s' = if decide (s' = s) then f else the_readFifo d s'.
Proof. by destruct s, s'. Qed.
Lemma the_writeFifo_set d s f acts s' :
  the_writeFifo (set_writeFifo d s f acts) s' = if decide (s' = s) then f else the_writeFifo d s'.
Proof. by destruct s, s'. Qed.
Lemma the_writeFifo_read d s f acts s' : the_writeFifo (set_readFifo d s f acts) s' = the_writeFifo d s'.
Proof. by destruct s, s'. Qed.
Lemma the_readFifo_write d s f acts s' : the_readFifo (set_writeFifo d s f acts) s' = the_readFifo d s'.
Proof. by destruct s, s'. Qed.

Lemma rd_new_app d d' s acts : rd_log d' = rd_log d ++ (pair s <$> acts) → rd_new d d' = acts.
Proof.
  unfold rd_new. intros ->. rewrite drop_app_length, <-list_fmap_compose. apply list_fmap_id.
Qed.
Lemma wr_new_app d d' s acts : wr_log d' = wr_log d ++ (pair s <$> acts) → wr_new d d' = acts.
Proof.
  unfold wr_new. intros ->. rewrite drop_app_length, <-list_fmap_compose. apply list_fmap_id.
Qed.

Lemma wtrack_app f f' wq acts :
  wmoves f f' (DmaWriteFifo.pendingRequests f) acts → DmaWriteFifo.front_waits f → wtrack f f' wq acts = wq ++ acts.
Proof.
  intros [(moved & rest & new & E & E' & Hm & _ & Hk) _] Hf. unfold wtrack.
  destruct moved as [|e moved].
  - apply (f_equal length) in Hk. rewrite !length_fmap in Hk. rewrite E, E', !length_app, Hk.
    cbn [app length]. by rewrite Nat.sub_diag.
  - unfold DmaWriteFifo.front_waits in Hf. rewrite E in Hf. cbn in Hf.
    apply Forall_cons in Hm as [? _]. congruence.
Qed.

(** *** Registers *)

Lemma nd_flags_ok d fl rest : mmreg d = fl :: rest → 0 ≤ fl < 256 → nd_flags d = Ok fl.
Proof.
  intros E Hf. unfold nd_flags, load_uint. rewrite E, mem_read_ok by (simpl; lia). cbn [mbind outcome_bind].
  change (take (Z.to_nat 1) (drop (Z.to_nat 0) (fl :: rest))) with [fl]. cbn [le_val].
  rewrite Z.mod_small by lia. f_equal. lia.
Qed.

Lemma mem_write_flag fl rest x : mem_write (fl :: rest) 0 [x] = Ok (x :: rest).
Proof. unfold mem_write. by rewrite (proj2 (in_block_spec _ _ _)) by (simpl; lia). Qed.

Lemma byte_land a b : 0 ≤ a < 256 → 0 ≤ b → 0 ≤ Z.land a b < 256.
Proof.
  intros Ha Hb. split; [apply Z.land_nonneg; lia|].
  replace (Z.land a b) with (Z.land a b mod 2 ^ 8); [apply Z.mod_pos_bound; lia|].
  rewrite <-Z.land_ones, <-Z.land_assoc, (Z.land_comm b), Z.land_assoc, Z.land_ones by lia.
  by rewrite Z.mod_small.
Qed.
Lemma byte_lor a b : 0 ≤ a < 256 → 0 ≤ b < 256 → 0 ≤ Z.lor a b < 256.
Proof.
  intros Ha Hb. split; [apply Z.lor_nonneg; lia|].
  replace (Z.lor a b) with (Z.lor a b mod 2 ^ 8); [apply Z.mod_pos_bound; lia|].
  rewrite <-Z.land_ones, Z.land_lor_distr_l, !Z.land_ones by lia. by rewrite !Z.mod_small.
Qed.

Lemma nd_flags_update_ok d fl rest a b :
  mmreg d = fl :: rest → 0 ≤ fl < 256 → 0 ≤ a → 0 ≤ b < 256 →
  nd_flags_update d a b = Ok (set_mmreg d (Z.lor (Z.land fl a) b :: rest)).
Proof.
  intros E Hf Ha Hb. unfold nd_flags_update. rewrite (nd_flags_ok d fl rest) by done. cbn [mbind outcome_bind].
  rewrite E, mem_write_flag. cbn [mbind outcome_bind].
  rewrite (nd_flags_ok _ (Z.land fl a) rest) by (done || by apply byte_land). cbn [mbind outcome_bind].
  cbn [mmreg set_mmreg]. by rewrite mem_write_flag.
Qed.

(** The registers behind the flags. *)
Lemma load_uint_tail fl fl' rest off n :
  1 ≤ off → load_uint (fl :: rest) off n = load_uint (fl' :: rest) off n.
Proof.
  intros Ho. unfold load_uint, mem_read, in_block. cbn [length].
  replace (Z.to_nat off) with (S (Z.to_nat (off - 1))) by lia. done.
Qed.

(** The number of interrupts raised. *)
Definition is_send (c : GicCall) : bool := match c with SendInt _ => true | ClearInt _ => false end.
Definition sends (g : list GicCall) : nat := length (filter (fun c => is_send c = true) g).
Lemma sends_app g h : sends (g ++ h) = (sends g + sends h)%nat.
Proof. unfold sends. by rewrite filter_app, length_app. Qed.

(** ** One transfer *)

Section Transfer.
Context (p : NDParams) (P : nat) (m0 : Z → Z) (src dst len : Z).
Let M := nd_maxReqSize p.
Hypothesis timing : bypassCaches (nd_sys p) = false.
Hypothesis Ppos : (0 < P)%nat.
Hypothesis Mpos : 0 < M.
Hypothesis Hlen : 0 ≤ len < 2 ^ 31.
Hypothesis Hsrc : 0 ≤ src ∧ src + len < 2 ^ 64.
Hypothesis Hdst : 0 ≤ dst ∧ dst + len < 2 ^ 64.
Hypothesis Hdisj : src + len ≤ dst ∨ dst + len ≤ src.

(** A read of bytes of the block. *)
Definition in_src (e : DmaDoneEvent) (a : Z) : Prop := src ≤ a ∧ a + _requestSize e ≤ src + len.

(** The read FIFO after [t] bytes of the block have been taken. *)
Record RBusy (n : nat) (f : RFifo) (addrs l : list Z) (t : Z) : Prop := {
  rb_ready : RReady m0 P n f addrs l;
  rb_end : DmaReadFifo.endAddr f = src + len;
  rb_max : DmaReadFifo.maxReqSize f = M;
  rb_fits : M ≤ DmaReadFifo.fifoSize f;
  rb_step : stepped M (src + len) src (DmaReadFifo.nextAddr f);
  rb_le : src + t ≤ DmaReadFifo.nextAddr f;
  rb_stream : stream m0 f addrs l = bytes m0 (src + t) (DmaReadFifo.nextAddr f - (src + t));
  rb_range : Forall2 in_src (DmaReadFifo.pendingRequests f) addrs;
}.

(** The write FIFO after it was given [t] bytes; the writes [wq] are in flight,
    those before them have reached memory. *)
Record WBusy (n : nat) (f : WFifo) (wq : list DmaAction) (l : list Z) (m : Z → Z) (t : Z) : Prop := {
  wb_ready : WReady P n f l;
  wb_end : DmaWriteFifo.endAddr f = dst + len;
  wb_max : DmaWriteFifo.maxReqSize f = M;
  wb_fits : M ≤ DmaWriteFifo.wf_fifoSize f;
  wb_step : stepped M (dst + len) dst (DmaWriteFifo.nextAddr f);
  wb_sent : ∃ old, contiguous dst (old ++ wq) (DmaWriteFifo.nextAddr f) ∧
    acts_data (old ++ wq) ++ l = bytes m0 src t ∧ Forall (applied m) old;
  wb_flight : Forall2 (fun e a => _done e = true → applied m a) (DmaWriteFifo.pendingRequests f) wq;
  wb_frame : ∀ x, ¬ (dst ≤ x < dst + len) → m x = m0 x;
}.

Lemma rbusy_addr n f addrs l t : RBusy n f addrs l t → raddr_ok f.
Proof. intros [[[] _ _]]. unfold raddr_ok, waddr_ok. lia. Qed.
Lemma wbusy_addr n f wq l m t : WBusy n f wq l m t → waddr_ok f.
Proof. intros [[[] _ _]]. unfold raddr_ok, waddr_ok. lia. Qed.

Lemma reads_range a acts b :
  src ≤ a → b ≤ src + len → reads a acts b →
  Forall (fun x => src ≤ ra_addr x ∧ ra_addr x + ra_size x ≤ src + len) acts.
Proof.
  intros Ha Hb. revert a Ha. induction acts as [|x acts IH]; intros a Ha; cbn; [done|].
  intros (E & Hp & Hr). destruct (reads_bytes m0 _ _ _ Hr) as [? _].
  constructor; [lia|]. eapply IH; [|exact Hr]. lia.
Qed.

Lemma range_advance pend pend' addrs acts :
  Forall2 in_src pend addrs → advance pend pend' (ra_size <$> acts) →
  Forall (fun x => src ≤ ra_addr x ∧ ra_addr x + ra_size x ≤ src + len) acts →
  Forall2 in_src pend' (drop (length pend + length acts - length pend') addrs ++ (ra_addr <$> acts)).
Proof.
  intros HF (moved & rest & new & -> & -> & _ & _ & Hk) Ha.
  apply Forall2_app_inv_l in HF as (gone & addrs' & Hg & Hr & ->).
  pose proof (f_equal length Hk) as Hl. rewrite !length_fmap in Hl.
  rewrite !length_app, Hl. replace (_ - _)%nat with (length moved) by lia.
  rewrite (Forall2_length _ _ _ Hg), drop_app_length. apply Forall2_app; [done|].
  clear -Hk Ha. revert new Hk. induction Ha as [|a acts Ha _ IH]; intros [|e new] Hk; try done.
  rewrite !fmap_cons in Hk. injection Hk as He Hk. cbn. constructor; [unfold in_src; lia|by apply IH].
Qed.

(** An operation takes [out] from the front of the stream. *)
Lemma rbusy_fetch n n' f addrs l t f' l' pend out acts :
  let addrs' := drop (length pend + length acts - length (DmaReadFifo.pendingRequests f')) addrs
                  ++ (ra_addr <$> acts) in
  RBusy n f addrs l t → 0 ≤ t → Forall2 in_src pend addrs →
  fetched f f' acts → RReady m0 P n' f' addrs' l' → rmoves f f' pend acts →
  out ++ stream m0 f' addrs' l' = stream m0 f addrs l ++ acts_bytes m0 acts →
  let t' := t + Z.of_nat (length out) in
  RBusy n' f' addrs' l' t' ∧ out = bytes m0 (src + t) (Z.of_nat (length out)) ∧ t' ≤ len.
Proof.
  intros addrs' [HR He Hm Hf Hs Hl Hst _] Ht Hrg [Hre Hee Hem Hef _] HR' [Hp' Hs'] E t'.
  destruct (reads_bytes m0 _ _ _ Hre) as [Hle Ea]. rewrite Hst, Ea in E.
  replace (DmaReadFifo.nextAddr f) with (src + t + (DmaReadFifo.nextAddr f - (src + t))) in E at 2 by lia.
  rewrite <-bytes_app in E by lia.
  set (N := DmaReadFifo.nextAddr f' - (src + t)).
  assert (out ++ stream m0 f' addrs' l' = bytes m0 (src + t) N) as E' by (rewrite E; f_equal; lia).
  assert (Z.of_nat (length out) ≤ N) as Ho.
  { apply (f_equal length) in E'. rewrite length_app, length_bytes in E'. lia. }
  replace N with (Z.of_nat (length out) + (N - Z.of_nat (length out))) in E' by lia.
  rewrite bytes_app in E' by lia. apply app_inj_1 in E' as [E1 E2]; [|rewrite length_bytes; lia].
  pose proof (ri_addr _ _ _ _ _ _ (rr_inv _ _ _ _ _ _ HR')) as [? ?].
  split_and!; [|done|lia]. split; try done; try congruence.
  - eapply stepped_trans; [done|done|]. by rewrite Hm, He in Hs'.
  - lia.
  - rewrite E2. subst t' N. f_equal; lia.
  - apply range_advance; [done|done|]. apply (reads_range _ _ _) in Hre; [done|lia|lia].
Qed.

Lemma flight_advance m pend pend' wq acts :
  Forall2 (fun e a => _done e = true → applied m a) pend wq → advance pend pend' (da_len <$> acts) →
  ∃ gone wq', wq = gone ++ wq' ∧ Forall (applied m) gone ∧
    drop (length pend + length acts - length pend') wq = wq' ∧
    Forall2 (fun e a => _done e = true → applied m a) pend' (wq' ++ acts).
Proof.
  intros HF (moved & rest & new & -> & -> & Hm & Hn & Hk).
  apply (f_equal length) in Hk. rewrite !length_fmap in Hk.
  apply Forall2_app_inv_l in HF as (gone & wq' & Hg & Hr & ->).
  exists gone, wq'. split_and!; [done| | |].
  - clear -Hg Hm. induction Hg as [|e a es as_ He _ IH]; constructor;
      apply Forall_cons in Hm as [? ?]; auto.
  - rewrite !length_app, Hk. replace (_ - _)%nat with (length moved) by lia.
    by rewrite (Forall2_length _ _ _ Hg), drop_app_length.
  - apply Forall2_app; [done|]. clear -Hn Hk. revert acts Hk.
    induction Hn as [|e es He _ IH]; intros [|a acts] Hk; try done; constructor; [congruence|auto].
Qed.

(** An operation on the write FIFO that gave it [xs], after [pend] and [m]
    were brought up to date. *)
Lemma wbusy_send n n' f wq l m t f' l' pend m' xs acts :
  WBusy n f wq l m t → 0 ≤ t → sent f (l ++ xs) f' acts l' → WReady P n' f' l' → wmoves f f' pend acts →
  length pend = length (DmaWriteFifo.pendingRequests f) →
  Forall2 (fun e a => _done e = true → applied m' a) pend wq →
  (∀ old, contiguous dst (old ++ wq) (DmaWriteFifo.nextAddr f) → Forall (applied m) old → Forall (applied m') old) →
  (∀ x, ¬ (dst ≤ x < dst + len) → m' x = m x) →
  xs = bytes m0 (src + t) (Z.of_nat (length xs)) →
  WBusy n' f' (wtrack f f' wq acts) l' m' (t + Z.of_nat (length xs)).
Proof.
  intros [HR He Hm Hf Hs (old & Hc & Hd & Hap) _ Hfr] Ht [Sd Sc Se Sm Sf _] HR' [Hp Hs'] Hlp HF Hold Hfr' Hxs.
  destruct (flight_advance _ _ _ _ _ HF Hp) as (gone & wq' & Ew & Hg & Edr & HF').
  unfold wtrack. rewrite <-Hlp, Edr. split; try done; try congruence.
  - eapply stepped_trans; [done|done|]. by rewrite Hm, He in Hs'.
  - exists (old ++ gone). split_and!.
    + rewrite <-app_assoc, (app_assoc gone), <-Ew, app_assoc. by eapply contiguous_app.
    + rewrite <-app_assoc, (app_assoc gone), <-Ew, app_assoc, acts_data_app, <-app_assoc, Sd, app_assoc, Hd.
      rewrite Hxs at 1. rewrite bytes_app by lia. done.
    + apply Forall_app. split; [|done]. by apply Hold.
  - intros x Hx. by rewrite Hfr', Hfr.
Qed.
(** *** The device between transfers and during one *)

Record ridle (n : nat) (f : RFifo) : Prop := {
  ridle_ready : ∀ μ, RReady μ P n f [] [];
  ridle_end : DmaReadFifo.nextAddr f = DmaReadFifo.endAddr f;
  ridle_max : DmaReadFifo.maxReqSize f = M;
  ridle_fits : M ≤ DmaReadFifo.fifoSize f;
}.
Record widle (n : nat) (f : WFifo) : Prop := {
  widle_ready : WReady P n f [];
  widle_none : DmaWriteFifo.pendingRequests f = [];
  widle_end : DmaWriteFifo.nextAddr f = DmaWriteFifo.endAddr f;
  widle_max : DmaWriteFifo.maxReqSize f = M;
  widle_fits : M ≤ DmaWriteFifo.wf_fifoSize f;
}.

Definition has_regs (d : NoncoherentDma) (fl : Z) : Prop :=
  ∃ rest, mmreg d = fl :: rest ∧ 0 ≤ fl < 256.

Record nd_idle (n : nat) (d : NoncoherentDma) : Prop := {
  id_run : running d = false;
  id_rd : ∀ s, ridle n (the_readFifo d s);
  id_wr : ∀ s, widle n (the_writeFifo d s);
}.

(** The transfer is running, reading on side [r] and writing on side [w]; [lr]
    and [lw] are the bytes in the two FIFOs. *)
Record Busy (n : nat) (v : NDEnv) (fl : Z) (g0 : list GicCall) (r w : Side) (lr lw : list Z) : Prop := {
  bz_run : running (dev v) = true;
  bz_tick : tickScheduled (dev v) = true;
  bz_left : 0 ≤ writesLeft (dev v) ≤ len;
  bz_step : stepped M len 0 (len - writesLeft (dev v));
  bz_r : readFifo (dev v) = Some r;
  bz_w : writeFifo (dev v) = Some w;
  bz_rd : RBusy n (the_readFifo (dev v) r) (raddrs v) lr (len - writesLeft (dev v));
  bz_wr : WBusy n (the_writeFifo (dev v) w) (wacts v) lw (mem v) (len - writesLeft (dev v));
  bz_rd_idle : ∀ s, s ≠ r → ridle n (the_readFifo (dev v) s);
  bz_wr_idle : ∀ s, s ≠ w → widle n (the_writeFifo (dev v) s);
  bz_regs : has_regs (dev v) fl;
  bz_sends : sends (gic_log (dev v)) = sends g0;
}.

(** The transfer is over. *)
Record Finished (n : nat) (v : NDEnv) (fl : Z) (g0 : list GicCall) : Prop := {
  fi_idle : nd_idle n (dev v);
  fi_tick : tickScheduled (dev v) = false;
  fi_none : raddrs v = [] ∧ wacts v = [];
  fi_copied : bytes (mem v) dst len = bytes m0 src len;
  fi_frame : ∀ x, ¬ (dst ≤ x < dst + len) → mem v x = m0 x;
  fi_regs : has_regs (dev v) (Z.lor (Z.land fl 253) 4);
  fi_sends : sends (gic_log (dev v)) = S (sends g0);
}.

Lemma ridle_weaken n f : ridle (S n) f → ridle n f.
Proof. intros [HR]. split; try done. intros μ. exact (rready_weaken _ _ _ _ _ _ (HR μ)). Qed.
Lemma widle_weaken n f : widle (S n) f → widle n f.
Proof. intros [HR]. split; try done. exact (ready_weaken _ _ _ _ HR). Qed.
Lemma idle_weaken n d : nd_idle (S n) d → nd_idle n d.
Proof. intros []. split; eauto using ridle_weaken, widle_weaken. Qed.
Lemma rbusy_weaken n f addrs l t : RBusy (S n) f addrs l t → RBusy n f addrs l t.
Proof. intros [HR]. split; try done. exact (rready_weaken _ _ _ _ _ _ HR). Qed.
Lemma wbusy_weaken n f wq l m t : WBusy (S n) f wq l m t → WBusy n f wq l m t.
Proof. intros [HR]. split; try done. exact (ready_weaken _ _ _ _ HR). Qed.
Lemma busy_weaken n v fl g0 r w lr lw : Busy (S n) v fl g0 r w lr lw → Busy n v fl g0 r w lr lw.
Proof. intros []. split; eauto using rbusy_weaken, wbusy_weaken, ridle_weaken, widle_weaken. Qed.

(** *** What is left of a transfer *)

Definition rd_left (f : RFifo) : Z :=
  2 * (DmaReadFifo.endAddr f - DmaReadFifo.nextAddr f) + Z.of_nat (undone (DmaReadFifo.pendingRequests f)).
Definition wr_left (f : WFifo) : Z :=
  2 * (DmaWriteFifo.endAddr f - DmaWriteFifo.nextAddr f) + Z.of_nat (undone (DmaWriteFifo.pendingRequests f)).

Lemma reads_length a acts b : reads a acts b → a + Z.of_nat (length acts) ≤ b.
Proof. revert a. induction acts as [|x acts IH]; intros a; cbn; [lia|]. intros (? & ? & Hr). apply IH in Hr. lia. Qed.
Lemma sent_length (f : WFifo) l f' acts l' :
  sent f l f' acts l' → DmaWriteFifo.nextAddr f + Z.of_nat (length acts) ≤ DmaWriteFifo.nextAddr f'.
Proof.
  intros [_ Hc _ _ _ Hs]. revert Hc Hs. generalize (DmaWriteFifo.nextAddr f) as a.
  generalize (DmaWriteFifo.maxReqSize f) as k. intros k a. revert a.
  induction acts as [|x acts IH]; intros a; cbn; [lia|]. intros [_ Hc] [Hx Hs]%Forall_cons.
  apply IH in Hc; [lia|done].
Qed.

(** New requests take at least a byte each, so that an operation never adds to
    what is left. *)
Lemma rd_left_moves f f' pend acts :
  fetched f f' acts → rmoves f f' pend acts →
  rd_left f' ≤ 2 * (DmaReadFifo.endAddr f - DmaReadFifo.nextAddr f) + Z.of_nat (undone pend).
Proof.
  intros [Hr He _ _ _] [Hp _]. apply reads_length in Hr. apply advance_undone in Hp.
  rewrite length_fmap in Hp. unfold rd_left. rewrite He, Hp. lia.
Qed.
Lemma wr_left_moves f l f' l' pend acts :
  sent f l f' acts l' → wmoves f f' pend acts →
  wr_left f' ≤ 2 * (DmaWriteFifo.endAddr f - DmaWriteFifo.nextAddr f) + Z.of_nat (undone pend).
Proof.
  intros Hs [Hp _]. pose proof (sent_length _ _ _ _ _ Hs). destruct Hs as [_ _ He _ _ _].
  apply advance_undone in Hp. rewrite length_fmap in Hp. unfold wr_left. rewrite He, Hp. lia.
Qed.

(** *** The events of a running transfer *)

Definition left_of (v : NDEnv) (r w : Side) : Z :=
  rd_left (the_readFifo (dev v) r) + wr_left (the_writeFifo (dev v) w) + writesLeft (dev v) + 1.

Lemma bytes_src m a n :
  (∀ x, ¬ (dst ≤ x < dst + len) → m x = m0 x) → src ≤ a → a + n ≤ src + len → bytes m a n = bytes m0 a n.
Proof. intros Hf Ha Hn. apply bytes_ext. intros x Hx. apply Hf. lia. Qed.

Lemma busy_rddone n v fl g0 r w lr lw i ev :
  Busy (S n) v fl g0 r w lr lw →
  DmaReadFifo.pendingRequests (the_readFifo (dev v) r) !! i = Some ev → _done ev = false →
  ∃ v' lr', nd_event p v (NRdDone i) = Ok v' ∧ Busy n v' fl g0 r w lr' lw ∧ left_of v' r w < left_of v r w.
Proof.
  intros HB Hi Hd. pose proof HB as [Hrun Htick Hleft Hstep Hr Hw Hrd Hwr Hri Hwi Hregs Hsends].
  pose proof Hrd as [HR He Hm Hf Hs Hl Hst Hrg]. set (f := the_readFifo (dev v) r) in *.
  destruct (Forall2_lookup_l _ _ _ _ _ Hrg Hi) as (a & Ha & Hin).
  destruct (rd_process_ok m0 (nd_sys p) timing P n f _ _ i ev a HR Ppos Hi Ha Hd)
    as (f' & acts & k & l' & HP & Hfe & HR' & Hk & Hst').
  destruct (r_process_moves (nd_sys p) timing f i _ f' acts (rbusy_addr _ _ _ _ _ Hrd) HP)
    as (e & e' & He1 & _ & Hd' & Hsz & Hmv). simplify_eq.
  assert (length (<[i:=e']> (DmaReadFifo.pendingRequests f)) = length (DmaReadFifo.pendingRequests f)) as Hlen'
    by apply length_insert.
  assert (Forall2 in_src (<[i:=e']> (DmaReadFifo.pendingRequests f)) (raddrs v)) as Hrg'.
  { rewrite <-(list_insert_id (raddrs v) i a Ha). apply Forall2_insert; [done|].
    unfold in_src in *. by rewrite Hsz. }
  unfold nd_event. rewrite Hr. fold f. rewrite Hi, Ha, Hd.
  rewrite (bytes_src (mem v) a) by (apply Hwr || apply Hin). rewrite HP. cbn [mbind outcome_bind].
  rewrite <-(track_drop f f' (raddrs v) acts k Hk) in HR', Hst'.
  pose proof (rd_left_moves _ _ _ _ Hfe Hmv) as Hlm.
  pose proof (undone_insert _ _ _ _ Hi Hd Hd') as Hu.
  unfold track in *. rewrite <-Hlen' in *.
  destruct (rbusy_fetch _ n f _ _ _ f' l' _ [] acts Hrd ltac:(lia) Hrg' Hfe HR' Hmv Hst') as (HB' & _ & _).
  rewrite Z.add_0_r in HB'. eexists _, l'. split; [done|]. split.
  - split; cbn; rewrite ?the_readFifo_set, ?the_writeFifo_read, ?decide_True by done; try done.
    + by apply wbusy_weaken.
    + intros s Hsr. rewrite the_readFifo_set, decide_False by done. by apply ridle_weaken, Hri.
    + intros s Hsw. rewrite the_writeFifo_read. by apply widle_weaken, Hwi.
  - unfold left_of. cbn. rewrite the_readFifo_set, the_writeFifo_read, decide_True by done.
    unfold rd_left at 2. fold f. lia.
Qed.

(** Applying one of the writes in flight leaves the others applied. *)
Lemma flight_put m pend wq i a e' old b :
  contiguous dst (old ++ wq) b → wq !! i = Some a → (i < length pend)%nat →
  Forall2 (fun e x => _done e = true → applied m x) pend wq →
  let m' := mem_put m (da_addr a) (da_data a) in
  Forall2 (fun e x => _done e = true → applied m' x) (<[i:=e']> pend) wq ∧
  (Forall (applied m) old → Forall (applied m') old) ∧
  dst ≤ da_addr a ∧ da_addr a + Z.of_nat (length (da_data a)) ≤ b.
Proof.
  intros Hc Ha Hi HF m'. rewrite <-(take_drop_middle wq i a Ha), app_assoc in Hc.
  apply contiguous_disjoint in Hc as ([Hold Hb]%Forall_app & Haf & Hlo & Hhi).
  split_and!; [|  |done|done].
  - apply Forall2_same_length_lookup. split.
    { rewrite length_insert. by eapply Forall2_length. }
    intros j e x He Hx Hd. destruct (decide (j = i)) as [->|Hne].
    { simplify_eq. unfold applied, m'. apply bytes_mem_put. }
    rewrite list_lookup_insert_ne in He by done.
    apply applied_put; [|by eapply Forall2_lookup_lr in HF; [apply HF| |]].
    destruct (decide (j < i)%nat) as [Hj|Hj].
    + left. rewrite Forall_lookup in Hb. apply (Hb j). by rewrite lookup_take_lt.
    + right. rewrite Forall_lookup in Haf. apply (Haf (j - S i)%nat). rewrite lookup_drop.
      by replace (S i + (j - S i))%nat with j by lia.
  - intros Ho. apply Forall_forall. intros x Hx. rewrite Forall_forall in Hold, Ho.
    apply applied_put; [left; by apply Hold|by apply Ho].
Qed.

Lemma busy_wrdone n v fl g0 r w lr lw i ev :
  Busy (S n) v fl g0 r w lr lw →
  DmaWriteFifo.pendingRequests (the_writeFifo (dev v) w) !! i = Some ev → _done ev = false →
  ∃ v' lw', nd_event p v (NWrDone i) = Ok v' ∧ Busy n v' fl g0 r w lr lw' ∧ left_of v' r w < left_of v r w.
Proof.
  intros HB Hi Hd. pose proof HB as [Hrun Htick Hleft Hstep Hr Hw Hrd Hwr Hri Hwi Hregs Hsends].
  pose proof (wbusy_weaken _ _ _ _ _ _ Hwr) as Hwr'.
  pose proof Hwr' as [HW He Hm Hf Hs (old & Hc & Hda & Hap) Hfl Hfr]. set (f := the_writeFifo (dev v) w) in *.
  destruct (Forall2_lookup_l _ _ _ _ _ Hfl Hi) as (a & Ha & _).
  destruct (process_ok (nd_sys p) timing P n f lw i ev HW Ppos Hi Hd) as (f' & acts & l' & HP & Hse & HR').
  destruct (w_process_moves (nd_sys p) timing f i f' acts (wbusy_addr _ _ _ _ _ _ Hwr) HP)
    as (e & e' & He1 & _ & Hd' & _ & Hmv). simplify_eq.
  pose proof (lookup_lt_Some _ _ _ Hi) as Hlt.
  pose proof (flight_put _ _ _ _ _ e' _ _ Hc Ha Hlt Hfl) as (HF' & _ & Hlo & Hhi).
  pose proof (wr_left_moves _ _ _ _ _ _ Hse Hmv) as Hlm.
  pose proof (undone_insert _ _ _ _ Hi Hd Hd') as Hu.
  pose proof (wi_addr _ _ _ _ (wr_inv _ _ _ _ HW)) as Hna. rewrite He in Hna.
  rewrite <-(app_nil_r lw) in Hse.
  assert (WBusy n f' (wtrack f f' (wacts v) acts) l' (mem_put (mem v) (da_addr a) (da_data a))
    (len - writesLeft (dev v) + Z.of_nat (length (@nil Z)))) as HB'.
  { eapply wbusy_send; try done; [lia|by rewrite length_insert| |].
    - intros old' Hc'. by destruct (flight_put _ _ _ _ _ e' _ _ Hc' Ha Hlt Hfl) as (_ & Ho & _).
    - intros x Hx. apply mem_put_out. lia. }
  cbn [length] in HB'. rewrite Z.add_0_r in HB'.
  unfold nd_event. rewrite Hw. fold f. rewrite Hi, Ha, Hd, HP. cbn [mbind outcome_bind].
  eexists _, l'. split; [done|]. split.
  - split; cbn; rewrite ?the_writeFifo_set, ?the_readFifo_write, ?decide_True by done; try done.
    + by apply rbusy_weaken.
    + intros s Hsr. rewrite the_readFifo_write. by apply ridle_weaken, Hri.
    + intros s Hsw. rewrite the_writeFifo_set, decide_False by done. by apply widle_weaken, Hwi.
  - unfold left_of. cbn. rewrite the_writeFifo_set, the_readFifo_write, decide_True by done.
    unfold wr_left at 2. fold f. lia.
Qed.

(** *** The tick *)

(** What the next chunk needs. *)
Definition chunk (d : NoncoherentDma) : Z := Z.min M (writesLeft d).
Definition can_move (d : NoncoherentDma) (r w : Side) : bool :=
  canFill (the_writeFifo d w) (chunk d) && (chunk d <=? rf_size (the_readFifo d r)).

Lemma set_readFifo_id d r : set_readFifo d r (the_readFifo d r) [] = d.
Proof. destruct d, r; unfold set_readFifo; cbn; by rewrite app_nil_r. Qed.
Lemma add_gic_nil d : add_gic d [] = d.
Proof. destruct d; unfold add_gic; cbn; by rewrite app_nil_r. Qed.

Lemma toWrite_chunk d : 0 < writesLeft d ≤ len → nd_toWrite p d = chunk d.
Proof.
  intros Hl. unfold nd_toWrite, chunk. fold M. rewrite (wrapU_id 32) by (split; lia).
  rewrite wrapS_id; [|lia|split]; destruct (Z.ltb_spec M (writesLeft d)); lia.
Qed.

Lemma nd_move_idle d r w :
  readFifo d = Some r → writeFifo d = Some w → 0 < writesLeft d ≤ len → can_move d r w = false →
  nd_move p d = Ok d.
Proof.
  intros Hr Hw Hl Hc. unfold nd_move. rewrite toWrite_chunk, Hw, Hr by done. cbn [mbind outcome_bind deref].
  assert (0 < chunk d < 2 ^ 64) as Hk by (unfold chunk; lia).
  rewrite (wrapU_id 64) by (split; lia). unfold can_move in Hc.
  destruct (canFill _ _); [|done]. rewrite andb_true_l in Hc.
  unfold DmaReadFifo.tryGet. unfold rf_size in Hc. rewrite Hc. cbn [mbind outcome_bind].
  by rewrite set_readFifo_id.
Qed.

Lemma nd_move_ok n d addrs wq m r w lr lw :
  readFifo d = Some r → writeFifo d = Some w → 0 < writesLeft d ≤ len → can_move d r w = true →
  RBusy (S n) (the_readFifo d r) addrs lr (len - writesLeft d) →
  WBusy (S n) (the_writeFifo d w) wq lw m (len - writesLeft d) →
  ∃ f acts lr' f2 acts2 lw',
    nd_move p d = Ok (set_writesLeft (set_writeFifo (set_readFifo d r f acts) w f2 acts2) (writesLeft d - chunk d)) ∧
    RBusy n f (addrs ++ (ra_addr <$> acts)) lr' (len - (writesLeft d - chunk d)) ∧
    WBusy n f2 (wq ++ acts2) lw' m (len - (writesLeft d - chunk d)) ∧
    rd_left f ≤ rd_left (the_readFifo d r) ∧ wr_left f2 ≤ wr_left (the_writeFifo d w).
Proof.
  intros Hr Hw Hl Hc Hrd Hwr. assert (0 < chunk d ≤ writesLeft d) as Hk by (unfold chunk; lia).
  apply andb_true_iff in Hc as [Hcf Hcr]. zbool.
  pose proof Hrd as [HR _ _ _ _ _ _ Hrg]. pose proof Hwr as [HW _ _ _ _ _ Hfl _].
  pose proof (rready_weaken _ _ _ _ _ _ HR) as HR0.
  unfold rf_size in Hcr. rewrite (bf_size_ok _ _ _ (ri_rep _ _ _ _ _ _ (rr_inv _ _ _ _ _ _ HR))) in Hcr.
  destruct (rd_tryGet_ok m0 (nd_sys p) timing P n _ _ _ (chunk d) HR0 Ppos ltac:(lia))
    as (f & acts & l' & HG & Hfe & HR' & Hlp & Hst).
  pose proof (tryGet_moves (nd_sys p) timing _ _ _ _ _ (rbusy_addr _ _ _ _ _ Hrd) HG) as Hmv.
  set (xs := take (Z.to_nat (chunk d)) lr) in *.
  assert (Z.of_nat (length xs) = chunk d) as Hxs by (subst xs; rewrite length_take; lia).
  assert (addrs ++ (ra_addr <$> acts) = drop (length (DmaReadFifo.pendingRequests (the_readFifo d r))
    + length acts - length (DmaReadFifo.pendingRequests f)) addrs ++ (ra_addr <$> acts)) as Edr
    by (by rewrite Hlp, Nat.sub_diag).
  rewrite Edr in HR', Hst.
  destruct (rbusy_fetch _ n _ _ _ _ f l' _ xs acts Hrd ltac:(lia) Hrg Hfe HR' Hmv Hst) as (HB' & Exs & _).
  rewrite <-Edr, Hxs in HB'. rewrite Hxs in Exs.
  destruct (fill_ok (nd_sys p) timing P n (the_writeFifo d w) lw xs HW Ppos) as (f2 & acts2 & lw' & HF & Hse & HW');
    [lia|by rewrite Hxs|].
  pose proof (fill_moves (nd_sys p) timing _ _ _ _ (wbusy_addr _ _ _ _ _ _ Hwr) HF) as Hmv2.
  assert (WBusy n f2 (wtrack (the_writeFifo d w) f2 wq acts2) lw' m
    (len - writesLeft d + Z.of_nat (length xs))) as HB2.
  { eapply wbusy_send; try done; [lia|by rewrite Hxs]. }
  rewrite wtrack_app, Hxs in HB2 by (done || apply HW).
  exists f, acts, l', f2, acts2, lw'.
  replace (len - (writesLeft d - chunk d)) with (len - writesLeft d + chunk d) by lia.
  split_and!; [|done|done|..].
  - unfold nd_move. rewrite toWrite_chunk, Hw, Hr by done. cbn [mbind outcome_bind deref].
    rewrite (wrapU_id 64) by (split; lia). rewrite Hcf, HG. cbn [mbind outcome_bind].
    rewrite the_writeFifo_read, HF. cbn [mbind outcome_bind]. cbn [writesLeft set_readFifo].
    by rewrite wrapS_id by (lia || split; lia).
  - by apply (rd_left_moves _ _ _ _ Hfe Hmv).
  - by apply (wr_left_moves _ _ _ _ _ _ Hse Hmv2).
Qed.

Lemma rbusy_done n f addrs l : RBusy n f addrs l len → addrs = [] ∧ ridle n f.
Proof.
  intros [[HI Hst Hfr] He Hm Hf Hs Hl Hb Hrg].
  pose proof (ri_addr _ _ _ _ _ _ HI) as Ha. rewrite He in Ha.
  replace (DmaReadFifo.nextAddr f - (src + len)) with 0 in Hb by lia.
  unfold stream in Hb. apply app_eq_nil in Hb as [-> Hb].
  pose proof (ri_pending _ _ _ _ _ _ HI) as Hp.
  destruct (DmaReadFifo.pendingRequests f) as [|e pend] eqn:Ep.
  - apply Forall2_nil_inv_l in Hp as ->. split; [done|]. split; [|lia|done|done].
    intros μ. split; [|by intros _; left; lia|done].
    destruct HI. split; rewrite ?Ep in *; try done.
  - apply Forall2_cons_inv_l in Hp as (a & addrs' & [[? _] _ _] & _ & ->).
    apply (f_equal length) in Hb. unfold pbytes in Hb. cbn in Hb.
    rewrite length_app, length_bytes in Hb. lia.
Qed.

Lemma wbusy_done n f wq l m :
  WBusy n f wq l m len → DmaWriteFifo.isActive f = false →
  wq = [] ∧ widle n f ∧ bytes m dst len = bytes m0 src len.
Proof.
  intros [HR He Hm Hf Hs (old & Hc & Hd & Hap) Hfl Hfr] Ha.
  unfold DmaWriteFifo.isActive, DmaWriteFifo.atEndOfBlock in Ha. zbool.
  apply bool_decide_eq_true in H. rewrite H in Hfl. apply Forall2_nil_inv_l in Hfl as ->.
  rewrite app_nil_r in Hc, Hd. rewrite H0, He in Hc.
  pose proof (contiguous_length _ _ _ Hc) as Hcl.
  assert (l = []) as ->.
  { apply (f_equal length) in Hd. rewrite length_app, length_bytes in Hd. apply nil_length_inv. lia. }
  rewrite app_nil_r in Hd. split_and!; [done|by split|].
  pose proof (applied_all _ _ _ _ Hc Hap) as Hb. rewrite <-Hd, <-Hb. f_equal. lia.
Qed.

Lemma rd_new_same d d' : rd_log d' = rd_log d → rd_new d d' = [].
Proof. unfold rd_new. intros ->. by rewrite drop_all. Qed.
Lemma wr_new_same d d' : wr_log d' = wr_log d → wr_new d d' = [].
Proof. unfold wr_new. intros ->. by rewrite drop_all. Qed.

(** What a tick of a running transfer starts with. *)
Lemma nd_tick_running d fl :
  running d = true → has_regs d fl →
  ∃ g, sends g = 0%nat ∧
    nd_tick p d = (let* d := if 0 <? writesLeft d then nd_move p (add_gic d g) else nd_finish p (add_gic d g) in
                   let* fl := nd_flags d in Ok (set_tick d fl (running d))).
Proof.
  intros Hrun (rest & Er & Hf). unfold nd_tick, nd_start.
  rewrite (nd_flags_ok d fl rest) by done. cbn [mbind outcome_bind]. rewrite Hrun. cbn [negb andb mbind outcome_bind].
  unfold nd_clear. rewrite (nd_flags_ok d fl rest) by done. cbn [mbind outcome_bind].
  destruct (_ && _).
  - exists [ClearInt (nd_intNum p)]. split; [done|]. cbn [running add_gic writesLeft]. by rewrite Hrun.
  - exists []. split; [done|]. by rewrite Hrun, add_gic_nil.
Qed.

(** Can the next tick move a chunk or finish? *)
Definition tick_enabled (d : NoncoherentDma) (r w : Side) : bool :=
  if 0 <? writesLeft d then can_move d r w else negb (DmaWriteFifo.isActive (the_writeFifo d w)).

Lemma busy_tick n v fl g0 r w lr lw :
  Busy (S n) v fl g0 r w lr lw →
  ∃ v', nd_event p v NTick = Ok v' ∧
    if tick_enabled (dev v) r w
    then Finished n v' fl g0 ∨ ∃ lr' lw', Busy n v' fl g0 r w lr' lw' ∧ left_of v' r w < left_of v r w
    else Busy n v' fl g0 r w lr lw ∧
         the_readFifo (dev v') r = the_readFifo (dev v) r ∧ the_writeFifo (dev v') w = the_writeFifo (dev v) w ∧
         writesLeft (dev v') = writesLeft (dev v).
Proof.
  intros HB. pose proof (busy_weaken _ _ _ _ _ _ _ _ HB) as HB0.
  pose proof HB as [Hrun Htick Hleft Hstep Hr Hw Hrd Hwr Hri Hwi Hregs Hsends].
  unfold nd_event. rewrite Htick. destruct (nd_tick_running _ _ Hrun Hregs) as (g & Hg & ->).
  destruct Hregs as (rest & Er & Hf). set (d := dev v) in *. set (d1 := add_gic d g).
  assert (sends (gic_log d ++ g) = sends g0) as Hs1 by (rewrite sends_app; lia).
  unfold tick_enabled. destruct (Z.ltb_spec 0 (writesLeft d)) as [Hl|Hl].
  - destruct (can_move d r w) eqn:Hc.
    + destruct (nd_move_ok n d1 _ _ _ r w lr lw Hr Hw ltac:(cbn; lia) Hc Hrd Hwr)
        as (f & acts & lr' & f2 & acts2 & lw' & -> & HB1 & HB2 & L1 & L2).
      cbn [mbind outcome_bind]. rewrite (nd_flags_ok _ fl rest) by done. cbn [mbind outcome_bind].
      eexists. split; [done|]. right. exists lr', lw'.
      assert (0 < chunk d ≤ writesLeft d) as Hk by (unfold chunk; lia).
      change (chunk d1) with (chunk d) in *. change (writesLeft d1) with (writesLeft d) in *.
      erewrite (rd_new_app _ _ r acts), (wr_new_app _ _ w acts2) by reflexivity.
      assert (∀ b s, the_readFifo (set_tick (set_writesLeft (set_writeFifo (set_readFifo d1 r f acts) w f2 acts2)
        (writesLeft d - chunk d)) fl b) s = if decide (s = r) then f else the_readFifo d s) as ER
        by (intros b s; exact (the_readFifo_set d1 r f acts s)).
      assert (∀ b s, the_writeFifo (set_tick (set_writesLeft (set_writeFifo (set_readFifo d1 r f acts) w f2 acts2)
        (writesLeft d - chunk d)) fl b) s = if decide (s = w) then f2 else the_writeFifo d s) as EW
        by (intros b s; exact (the_writeFifo_set d1 w f2 acts2 s)).
      split.
      * split; cbn [dev raddrs wacts mem]; rewrite ?ER, ?EW, ?decide_True by done; try done; cbn [writesLeft set_tick set_writesLeft set_active]; try done; [lia| | | |].
        -- eapply stepped_trans; [done|exact Hstep|]. exists 1. unfold chunk. lia.
        -- intros s Hsr. rewrite ER, decide_False by done. by apply ridle_weaken, Hri.
        -- intros s Hsw. rewrite EW, decide_False by done. by apply widle_weaken, Hwi.
        -- by exists rest.
      * unfold left_of. cbn [dev]. rewrite ER, EW, !decide_True by done. cbn.
        change (the_readFifo d1 r) with (the_readFifo d r) in L1.
        change (the_writeFifo d1 w) with (the_writeFifo d w) in L2. fold d. lia.
    + rewrite (nd_move_idle d1 r w) by (done || cbn; lia). cbn [mbind outcome_bind].
      rewrite (nd_flags_ok _ fl rest) by done. cbn [mbind outcome_bind]. eexists. split; [done|].
      rewrite rd_new_same, wr_new_same, fmap_nil, !app_nil_r by done. split; [|done].
      by destruct HB0; split.
  - assert (writesLeft d = 0) as El by lia. rewrite El, Z.sub_0_r in Hrd, Hwr.
    unfold nd_finish. change (writeFifo d1) with (writeFifo d). rewrite Hw. cbn [mbind outcome_bind deref].
    change (the_writeFifo d1 w) with (the_writeFifo d w).
    destruct (DmaWriteFifo.isActive (the_writeFifo d w)) eqn:Ha; cbn [negb].
    + cbn [mbind outcome_bind]. rewrite (nd_flags_ok _ fl rest) by done. cbn [mbind outcome_bind].
      eexists. split; [done|]. rewrite rd_new_same, wr_new_same, fmap_nil, !app_nil_r by done. split; [|done].
      by destruct HB0; split.
    + rewrite (nd_flags_update_ok _ fl rest) by (done || lia). cbn [mbind outcome_bind].
      rewrite (nd_flags_ok _ (Z.lor (Z.land fl 253) 4) rest) by first [done|apply byte_lor; [by apply byte_land|lia]].
      cbn [mbind outcome_bind]. eexists. split; [done|]. left.
      rewrite rd_new_same, wr_new_same, fmap_nil, !app_nil_r by done.
      destruct (rbusy_done _ _ _ _ Hrd) as [Era Hrid]. destruct (wbusy_done _ _ _ _ _ Hwr Ha) as (Ewa & Hwid & Hcp).
      split; try done.
      * split; [done| |]; intros s; cbn [dev].
        -- change (ridle n (the_readFifo d s)). destruct (decide (s = r)) as [->|]; apply ridle_weaken; auto.
        -- change (widle n (the_writeFifo d s)). destruct (decide (s = w)) as [->|]; apply widle_weaken; auto.
      * apply Hwr.
      * eexists. split; [done|]. apply byte_lor; [by apply byte_land|lia].
      * change (sends ((gic_log d ++ g) ++ [SendInt (nd_intNum p)]) = S (sends g0)).
        rewrite sends_app, Hs1. change (sends [SendInt (nd_intNum p)]) with 1%nat. lia.
Qed.

(** *** The start of a transfer *)

Lemma rd_start n f :
  ridle n f →
  ∃ f' acts, DmaReadFifo.startFill (nd_sys p) f src len = Ok (f', acts) ∧
    RBusy n f' (ra_addr <$> acts) [] 0 ∧ rd_left f' ≤ 2 * len.
Proof.
  intros [HR He Hm Hf]. specialize (HR m0).
  assert (DmaReadFifo.pendingRequests f = []) as Hp.
  { pose proof (ri_pending _ _ _ _ _ _ (rr_inv _ _ _ _ _ _ HR)) as Hp. by apply Forall2_nil_inv_r in Hp. }
  destruct (rd_startFill_ok m0 (nd_sys p) timing P n f [] [] src len HR Ppos)
    as (f' & acts & HS & Hfe & HR' & _ & Hst); [by apply Z.eqb_eq|lia..|].
  assert (raddr_ok f) as Hok by (destruct HR as [[] _ _]; unfold raddr_ok, waddr_ok; lia).
  pose proof (startFill_moves (nd_sys p) timing f src len f' acts Hok ltac:(lia) ltac:(lia) ltac:(lia) HS) as Hmv.
  pose proof (rd_left_moves _ _ _ _ Hfe Hmv) as Hl. rewrite Hp in Hl. cbn in Hl.
  exists f', acts. split; [done|]. split; [|lia].
  destruct Hfe as [Hre Hee Hem Hef _]. cbn in Hre, Hee, Hem, Hef.
  destruct (reads_bytes m0 _ _ _ Hre) as [Hle Ea].
  pose proof (ri_addr _ _ _ _ _ _ (rr_inv _ _ _ _ _ _ HR')) as Ha.
  destruct Hmv as [Hadv Hs]. cbn in Hs. rewrite Hm in Hs. split; try done; try congruence; try lia.
  - etrans; [exact Hst|]. unfold stream. rewrite Hp. cbn. rewrite Ea. f_equal; lia.
  - rewrite Hp in Hadv. pose proof (range_advance [] _ [] acts ltac:(constructor) Hadv) as Hr. rewrite drop_nil in Hr.
    apply Hr. apply (reads_range _ _ _) in Hre; [done|lia|lia].
Qed.

Lemma wr_start n f :
  widle n f →
  ∃ f' acts l, DmaWriteFifo.startEmpty (nd_sys p) f dst len = Ok (f', acts) ∧
    WBusy n f' acts l m0 0 ∧ wr_left f' ≤ 2 * len.
Proof.
  intros [HR Hp He Hm Hf].
  destruct (startEmpty_ok (nd_sys p) timing P n f [] dst len HR Ppos)
    as (f' & acts & l & HS & Hse & HR'); [by apply Z.eqb_eq|lia..|].
  assert (waddr_ok f) as Hok by (destruct HR as [[] _ _]; unfold raddr_ok, waddr_ok; lia).
  pose proof (startEmpty_moves (nd_sys p) timing f dst len f' acts Hok ltac:(lia) ltac:(lia) ltac:(lia) HS) as Hmv.
  pose proof (wr_left_moves _ _ _ _ _ _ Hse Hmv) as Hl. rewrite Hp in Hl. cbn in Hl.
  exists f', acts, l. split; [done|]. split; [|lia].
  destruct Hse as [Hd Hc Hee Hem Hef _]. cbn in Hc, Hee, Hem, Hef.
  destruct Hmv as [Hadv Hs]. cbn in Hs. rewrite Hm in Hs. rewrite Hp in Hadv.
  destruct (flight_advance m0 [] _ [] acts ltac:(constructor) Hadv) as (gone & wq' & E & _ & _ & HF).
  symmetry in E. apply app_eq_nil in E as [-> ->].
  split; try done; try congruence. by exists [].
Qed.

(** The registers of a transfer. *)
Record programmed (d : NoncoherentDma) (fl : Z) : Prop := {
  pr_flags : has_regs d fl;
  pr_src : load_uint (mmreg d) SRC_OFF 8 = Ok src;
  pr_dst : load_uint (mmreg d) DST_OFF 8 = Ok dst;
  pr_len : load_uint (mmreg d) LEN_OFF 4 = Ok len;
  pr_start : Z.land fl 1 = 1;
}.

Definition flags_running (fl : Z) : Z := Z.lor (Z.land fl 254) 2.

Lemma nd_start_ok n d fl :
  nd_idle n d → programmed d fl → tickScheduled d = true →
  ∃ d' r w lw racts wacts, nd_start p d = Ok d' ∧
    rd_log d' = rd_log d ++ (pair r <$> racts) ∧ wr_log d' = wr_log d ++ (pair w <$> wacts) ∧
    DmaReadFifo.startFill (nd_sys p) (the_readFifo d r) src len = Ok (the_readFifo d' r, racts) ∧
    DmaWriteFifo.startEmpty (nd_sys p) (the_writeFifo d w) dst len = Ok (the_writeFifo d' w, wacts) ∧
    Busy n (mkNDEnv d' (ra_addr <$> racts) wacts m0) (flags_running fl) (gic_log d) r w [] lw ∧
    left_of (mkNDEnv d' (ra_addr <$> racts) wacts m0) r w ≤ 5 * len + 1.
Proof.
  intros [Hrun Hri Hwi] [(rest & Er & Hf) Hs Hd Hl Hst] Ht.
  unfold nd_start. rewrite (nd_flags_ok d fl rest) by done. cbn [mbind outcome_bind].
  rewrite Hrun, Hst. cbn [negb andb Z.eqb Pos.eqb].
  rewrite (nd_flags_update_ok _ fl rest) by (done || lia). cbn [mbind outcome_bind]. fold (flags_running fl).
  cbn [mmreg set_mmreg]. rewrite Er in Hs, Hd, Hl. unfold SRC_OFF, DST_OFF, LEN_OFF in *.
  rewrite !(load_uint_tail (flags_running fl) fl) by lia. rewrite Hs, Hd, Hl. cbn [mbind outcome_bind].
  rewrite (wrapS_id 32 len) by (lia || split; lia).
  unfold getActiveReadFifo, getActiveWriteFifo. cbn [activeSrc activeDst set_active set_mmreg writesLeft].
  rewrite (wrapU_id 64 len) by (split; lia).
  set (r := side_of p src). set (w := side_of p dst).
  set (d1 := set_active _ (Some r) (Some w) src dst len true).
  destruct (rd_start n (the_readFifo d r) (Hri r)) as (rf & racts & ER & HR & L1).
  destruct (wr_start n (the_writeFifo d w) (Hwi w)) as (wf & wq & lw & EW & HW & L2).
  change (the_readFifo d1 r) with (the_readFifo d r). rewrite ER. cbn [mbind outcome_bind].
  rewrite the_writeFifo_read. change (the_writeFifo d1 w) with (the_writeFifo d w). change (writesLeft (set_readFifo d1 r rf racts)) with len.
  rewrite (wrapU_id 64 len), EW by (split; lia). cbn [mbind outcome_bind].
  eexists _, r, w, lw, racts, wq. do 3 (split; [done|]).
  assert (∀ s, the_readFifo (set_writeFifo (set_readFifo d1 r rf racts) w wf wq) s
    = if decide (s = r) then rf else the_readFifo d s) as ERd by (intros s; exact (the_readFifo_set d1 r rf racts s)).
  assert (∀ s, the_writeFifo (set_writeFifo (set_readFifo d1 r rf racts) w wf wq) s
    = if decide (s = w) then wf else the_writeFifo d s) as EWr by (intros s; exact (the_writeFifo_set d1 w wf wq s)).
  rewrite ERd, EWr, !decide_True by done. do 2 (split; [done|]). split.
  - split; cbn [dev raddrs wacts mem]; rewrite ?ERd, ?EWr, ?decide_True by done; try done;
      cbn [writesLeft set_writeFifo set_readFifo set_active d1]; rewrite ?Z.sub_diag; try done; [lia| | | |].
    + apply stepped_refl. lia.
    + intros s Hsr. rewrite ERd, decide_False by done. apply Hri.
    + intros s Hsw. rewrite EWr, decide_False by done. apply Hwi.
    + exists rest. split; [done|]. unfold flags_running. apply byte_lor; [by apply byte_land|lia].
  - unfold left_of. cbn [dev]. rewrite ERd, EWr, !decide_True by done.
    cbn [writesLeft set_writeFifo set_readFifo set_active d1]. lia.
Qed.

(** *** Logs only grow *)

Definition extends (d d' : NoncoherentDma) : Prop :=
  ∃ x y, rd_log d' = rd_log d ++ x ∧ wr_log d' = wr_log d ++ y.
#[local] Instance extends_refl : Reflexive extends.
Proof. intros d. exists [], []. by rewrite !app_nil_r. Qed.
#[local] Instance extends_trans : Transitive extends.
Proof. intros d1 d2 d3 (x & y & E1 & E2) (x' & y' & E3 & E4). exists (x ++ x'), (y ++ y'). by rewrite E3, E4, E1, E2, !app_assoc. Qed.

Lemma extends_read d s f acts : extends d (set_readFifo d s f acts).
Proof. exists (pair s <$> acts), []. by rewrite app_nil_r. Qed.
Lemma extends_write d s f acts : extends d (set_writeFifo d s f acts).
Proof. exists [], (pair s <$> acts). by rewrite app_nil_r. Qed.

Lemma nd_move_extends d d' : nd_move p d = Ok d' → extends d d'.
Proof.
  unfold nd_move. intros HR. monp. destruct (canFill _ _); monp; [|done].
  destruct o; monp; [|apply extends_read].
  etrans; [apply extends_read|]. exact (extends_write _ _ _ _).
Qed.
Lemma nd_finish_extends d d' : nd_finish p d = Ok d' → extends d d'.
Proof.
  unfold nd_finish, nd_flags_update. intros HR. monp. destruct (negb _); monp; [|done].
  exists [], []. by rewrite !app_nil_r.
Qed.

(** After the start, a tick does what it does to the running device. *)
Lemma nd_tick_start d d' fl v :
  nd_start p d = Ok d' → running d' = true → tickScheduled d' = true → has_regs d' fl →
  ∀ v', nd_event p (mkNDEnv d' (ra_addr <$> rd_new d d') (wr_new d d') (mem v)) NTick = Ok v' →
  extends d d' → tickScheduled d = true → raddrs v = [] → wacts v = [] → dev v = d →
  nd_event p v NTick = Ok v'.
Proof.
  intros Hs Hrun Ht Hregs v' He (x & y & Ex & Ey) Hd Hra Hwa Hdev. unfold nd_event in *.
  cbn [dev raddrs wacts mem] in He. rewrite Ht in He. rewrite Hdev, Hd, Hra, Hwa.
  assert (nd_tick p d = nd_tick p d') as ->.
  { unfold nd_tick at 1. rewrite Hs. unfold nd_tick. cbn [mbind outcome_bind].
    destruct Hregs as (rest & Er & Hf). unfold nd_start. rewrite (nd_flags_ok d' fl rest) by done.
    cbn [mbind outcome_bind]. by rewrite Hrun. }
  destruct (nd_tick p d') as [d2|] eqn:E; [|done]. cbn [mbind outcome_bind] in *. rewrite <-He. do 2 f_equal.
  all: assert (extends d' d2) as (x' & y' & Ex' & Ey').
  1,3: destruct (nd_tick_running _ _ Hrun Hregs) as (g & _ & E2); rewrite E2 in E;
       apply bind_ok in E as (d3 & E3 & E4); apply bind_ok in E4 as (? & _ & E4); simplify_eq;
       destruct (0 <? _); [apply nd_move_extends in E3|apply nd_finish_extends in E3]; exact E3.
  - unfold rd_new. rewrite Ex', Ex, <-app_assoc, !drop_app_length, app_assoc, drop_app_length. by rewrite !fmap_app.
  - unfold wr_new. rewrite Ey', Ey, <-app_assoc, !drop_app_length, app_assoc, drop_app_length. by rewrite !fmap_app.
Qed.

(** *** The phases of a transfer *)

(** [k] bounds what is left to do. *)
Inductive phase (n : nat) (fl : Z) (g0 : list GicCall) (v : NDEnv) (k : Z) : Prop :=
  | ph_wait : nd_idle n (dev v) → programmed (dev v) fl → tickScheduled (dev v) = true →
      raddrs v = [] → wacts v = [] → mem v = m0 → gic_log (dev v) = g0 → k = 5 * len + 2 → phase n fl g0 v k
  | ph_busy r w lr lw : Busy n v (flags_running fl) g0 r w lr lw → k = left_of v r w → phase n fl g0 v k
  | ph_done : Finished n v (flags_running fl) g0 → k = 0 → phase n fl g0 v k.

Definition is_undone (es : list DmaDoneEvent) (i : nat) : bool :=
  match es !! i with Some e => negb (_done e) | None => false end.

(** The events that bring the transfer forward. *)
Definition nd_enabled (v : NDEnv) (e : NDEvent) : bool :=
  let d := dev v in
  match running d, readFifo d, writeFifo d, e with
  | true, Some r, Some w, NTick => tick_enabled d r w
  | true, Some r, _, NRdDone i => is_undone (DmaReadFifo.pendingRequests (the_readFifo d r)) i
  | true, _, Some w, NWrDone i => is_undone (DmaWriteFifo.pendingRequests (the_writeFifo d w)) i
  | false, _, _, NTick => tickScheduled d
  | _, _, _, _ => false
  end.

Lemma nd_event_idle v e : raddrs v = [] → wacts v = [] → e ≠ NTick → nd_event p v e = Ok v.
Proof.
  intros Hr Hw He. unfold nd_event. destruct e as [|i|i]; [done| |].
  - rewrite Hr. destruct (readFifo _); [|done]. by destruct (_ !! i).
  - rewrite Hw. destruct (writeFifo _); [|done]. by destruct (_ !! i).
Qed.

Lemma nd_event_not_undone v r w e :
  readFifo (dev v) = Some r → writeFifo (dev v) = Some w → running (dev v) = true → e ≠ NTick →
  nd_enabled v e = false → nd_event p v e = Ok v.
Proof.
  intros Hr Hw Hrun He. unfold nd_enabled, nd_event. rewrite Hrun, Hr, Hw. unfold is_undone.
  destruct e as [|i|i]; [done| |].
  - destruct (DmaReadFifo.pendingRequests _ !! i) as [ev|]; [|done]. destruct (raddrs v !! i); [|done].
    by destruct (_done ev).
  - destruct (DmaWriteFifo.pendingRequests _ !! i) as [ev|]; [|done]. destruct (wacts v !! i); [|done].
    by destruct (_done ev).
Qed.

(** A step either brings the transfer forward or keeps what is enabled. *)
Definition advances (v : NDEnv) (k : Z) (e : NDEvent) (v' : NDEnv) (k' : Z) : Prop :=
  k' < k ∨ (k' = k ∧ nd_enabled v e = false ∧ ∀ e', nd_enabled v' e' = nd_enabled v e').

Lemma left_of_pos n v fl g0 r w lr lw : Busy n v fl g0 r w lr lw → 1 ≤ left_of v r w.
Proof.
  intros [_ _ Hl _ _ _ [[HI _ _] _] [[HJ _ _] _] _ _ _ _].
  destruct HI as [_ _ _ _ _ _ _ _ _ Ha _ _]. destruct HJ as [_ _ _ _ _ _ _ _ Hb _ _].
  unfold left_of, rd_left, wr_left. lia.
Qed.

Lemma busy_step n fl g0 v r w lr lw e :
  Busy (S n) v (flags_running fl) g0 r w lr lw →
  ∃ v' k', nd_event p v e = Ok v' ∧ phase n fl g0 v' k' ∧ advances v (left_of v r w) e v' k'.
Proof.
  intros HB. pose proof (busy_weaken _ _ _ _ _ _ _ _ HB) as HB0.
  pose proof (left_of_pos _ _ _ _ _ _ _ _ HB) as Hpos.
  pose proof (bz_run _ _ _ _ _ _ _ _ HB) as Hrun. pose proof (bz_r _ _ _ _ _ _ _ _ HB) as Hr.
  pose proof (bz_w _ _ _ _ _ _ _ _ HB) as Hw.
  assert (∀ e', e' ≠ NTick → nd_enabled v e' = false →
    ∃ v' k', nd_event p v e' = Ok v' ∧ phase n fl g0 v' k' ∧ advances v (left_of v r w) e' v' k') as Kidle.
  { intros e' Hne Hen. exists v, (left_of v r w). split; [by eapply nd_event_not_undone|].
    split; [by eapply ph_busy|]. by right. }
  destruct e as [|i|i].
  - destruct (busy_tick _ _ _ _ _ _ _ _ HB) as (v' & -> & Ht).
    assert (nd_enabled v NTick = tick_enabled (dev v) r w) as En by (unfold nd_enabled; by rewrite Hrun, Hr, Hw).
    destruct (tick_enabled (dev v) r w) eqn:Et.
    + destruct Ht as [Hfi|(lr' & lw' & HB' & Hlt)].
      * exists v', 0. split_and!; [done|by apply ph_done|left; lia].
      * exists v', (left_of v' r w). split_and!; [done|by eapply ph_busy|by left].
    + destruct Ht as (HB' & E1 & E2 & E3). exists v', (left_of v' r w). split_and!; [done|by eapply ph_busy|].
      right. split; [unfold left_of; by rewrite E1, E2, E3|]. split; [done|]. intros e'.
      unfold nd_enabled. destruct HB' as [R' _ _ _ A' B' _ _ _ _ _ _]. rewrite R', A', B', Hrun, Hr, Hw.
      unfold tick_enabled, can_move, chunk. rewrite E1, E2, E3. done.
  - destruct (nd_enabled v (NRdDone i)) eqn:En; [|by apply Kidle].
    unfold nd_enabled, is_undone in En. rewrite Hrun, Hr, Hw in En.
    destruct (DmaReadFifo.pendingRequests _ !! i) as [ev|] eqn:Ei; [|done]. zbool.
    destruct (busy_rddone _ _ _ _ _ _ _ _ _ _ HB Ei En) as (v' & lr' & -> & HB' & Hlt).
    exists v', (left_of v' r w). split_and!; [done|by eapply ph_busy|by left].
  - destruct (nd_enabled v (NWrDone i)) eqn:En; [|by apply Kidle].
    unfold nd_enabled, is_undone in En. rewrite Hrun, Hr, Hw in En.
    destruct (DmaWriteFifo.pendingRequests _ !! i) as [ev|] eqn:Ei; [|done]. zbool.
    destruct (busy_wrdone _ _ _ _ _ _ _ _ _ _ HB Ei En) as (v' & lw' & -> & HB' & Hlt).
    exists v', (left_of v' r w). split_and!; [done|by eapply ph_busy|by left].
Qed.

Lemma finished_weaken n v fl g0 : Finished (S n) v fl g0 → Finished n v fl g0.
Proof. intros []. split; eauto using idle_weaken. Qed.

Lemma phase_weaken n fl g0 v k : phase (S n) fl g0 v k → phase n fl g0 v k.
Proof.
  intros [|r w lr lw HB ->|HF ->]; [apply ph_wait|eapply ph_busy|apply ph_done];
    eauto using idle_weaken, busy_weaken, finished_weaken.
Qed.

Lemma phase_step n fl g0 v k e :
  phase (S n) fl g0 v k →
  ∃ v' k', nd_event p v e = Ok v' ∧ phase n fl g0 v' k' ∧ advances v k e v' k'.
Proof.
  intros [Hid Hpr Ht Hra Hwa Hm Hg ->|r w lr lw HB ->|HF ->].
  - pose proof (id_run _ _ Hid) as Hrun. destruct (decide (e = NTick)) as [->|Hne].
    + destruct (nd_start_ok _ _ _ Hid Hpr Ht) as (d' & r & w & lw & ra & wa & Hs & E1 & E2 & _ & _ & HB & Hk).
      rewrite <-(rd_new_app _ _ _ _ E1), <-(wr_new_app _ _ _ _ E2), <-Hm in HB, Hk. rewrite Hg in HB.
      destruct (busy_step n fl g0 _ _ _ _ _ NTick HB) as (v' & k' & He & Hph & Hadv).
      exists v', k'. split_and!; [|done|].
      * eapply nd_tick_start; try done; [apply (bz_run _ _ _ _ _ _ _ _ HB)|apply (bz_tick _ _ _ _ _ _ _ _ HB)
          |apply (bz_regs _ _ _ _ _ _ _ _ HB)|by eexists _, _].
      * left. destruct Hadv as [|[-> _]]; lia.
    + exists v, (5 * len + 2). split; [by apply nd_event_idle|].
      split; [by apply ph_wait; try done; apply idle_weaken|]. right. split; [done|]. split; [|done].
      unfold nd_enabled. rewrite Hrun. by destruct (readFifo (dev v)), (writeFifo (dev v)), e.
  - by apply (busy_step n fl g0 v r w lr lw e).
  - pose proof HF as [[Hrun _ _] Ht [Hra Hwa] _ _ _ _]. exists v, 0. split_and!.
    + destruct e; [|by apply nd_event_idle..]. unfold nd_event. by rewrite Ht.
    + apply ph_done; [by apply finished_weaken|done].
    + right. split; [done|]. split; [|done]. unfold nd_enabled. rewrite Hrun.
      by destruct (readFifo (dev v)), (writeFifo (dev v)), e.
Qed.

Lemma phase_run n fl g0 es : ∀ v k,
  phase (length es + n) fl g0 v k → ∃ v' k', nd_run p v es = Ok v' ∧ phase n fl g0 v' k' ∧ k' ≤ k.
Proof.
  induction es as [|e es IH]; intros v k Hph; cbn [nd_run].
  { by exists v, k. }
  destruct (phase_step _ _ _ _ _ e Hph) as (v1 & k1 & -> & Hph1 & Hadv). cbn [mbind outcome_bind].
  destruct (IH v1 k1 Hph1) as (v' & k' & -> & Hph' & Hle). exists v', k'. split_and!; [done|done|].
  destruct Hadv as [|[-> _]]; lia.
Qed.

(** An enabled event of a run brings the transfer forward. *)
Lemma phase_run_enabled n fl g0 es e : ∀ v k,
  phase (length es + n) fl g0 v k → nd_enabled v e = true → e ∈ es →
  ∃ v' k', nd_run p v es = Ok v' ∧ phase n fl g0 v' k' ∧ k' < k.
Proof.
  induction es as [|x es IH]; intros v k Hph Hen Hin; [by apply elem_of_nil in Hin|]. cbn [nd_run].
  destruct (phase_step _ _ _ _ _ x Hph) as (v1 & k1 & -> & Hph1 & Hadv). cbn [mbind outcome_bind].
  destruct Hadv as [Hlt|(-> & Hne & Hsame)].
  - destruct (phase_run _ _ _ _ _ _ Hph1) as (v' & k' & -> & Hph' & Hle). exists v', k'. split_and!; [done|done|lia].
  - apply elem_of_cons in Hin as [->|Hin]; [congruence|].
    apply (IH v1 k Hph1); [by rewrite Hsame|done].
Qed.

Lemma stepped_shift a t : stepped M len 0 t → ∀ e, e = a + len → stepped M e a (a + t).
Proof. intros (k & Hk & ->) e ->. exists k. lia. Qed.

(** Something is always enabled before the end. *)
Lemma phase_enabled n fl g0 v k :
  phase n fl g0 v k → 0 < k → ∃ e, e ∈ [NTick; NRdDone 0; NWrDone 0] ∧ nd_enabled v e = true.
Proof.
  intros [Hid Hpr Ht _ _ _ _ _|r w lr lw HB _|_ ->] Hk; [| |lia].
  { exists NTick. split; [rewrite !elem_of_cons; tauto|]. unfold nd_enabled. by rewrite (id_run _ _ Hid). }
  pose proof HB as [Hrun _ Hleft Hstep Hr Hw Hrd Hwr _ _ _ _].
  pose proof Hrd as [[HI Hst Hfr] He Hm Hf Hs Hl Hb _]. pose proof Hwr as [[HJ Hst2 Hfr2] He2 Hm2 Hf2 Hs2 Hsent Hfl _].
  set (rf := the_readFifo (dev v) r) in *. set (wf := the_writeFifo (dev v) w) in *.
  destruct (DmaReadFifo.pendingRequests rf) as [|e es] eqn:Ep.
  2: { exists (NRdDone 0). split; [rewrite !elem_of_cons; tauto|]. unfold nd_enabled, is_undone. rewrite Hrun, Hr, Hw. fold rf. rewrite Ep.
       unfold rfront_waits in Hfr. rewrite Ep in Hfr. cbn. by rewrite Hfr. }
  destruct (DmaWriteFifo.pendingRequests wf) as [|e es] eqn:Ep2.
  2: { exists (NWrDone 0). split; [rewrite !elem_of_cons; tauto|]. unfold nd_enabled, is_undone. rewrite Hrun, Hr, Hw. fold wf. rewrite Ep2.
       unfold DmaWriteFifo.front_waits in Hfr2. rewrite Ep2 in Hfr2. cbn. by rewrite Hfr2. }
  exists NTick. split; [rewrite !elem_of_cons; tauto|]. unfold nd_enabled, tick_enabled. rewrite Hrun, Hr, Hw.
  assert (Z.of_nat (length lw) = len - writesLeft (dev v) - (DmaWriteFifo.nextAddr wf - dst)) as Hlw.
  { destruct Hsent as (old & Hc & Hd & _). apply contiguous_length in Hc. apply (f_equal length) in Hd.
    rewrite length_app, length_bytes in Hd. lia. }
  assert (Z.of_nat (length lr) = DmaReadFifo.nextAddr rf - (src + (len - writesLeft (dev v)))) as Hlr.
  { unfold stream in Hb. rewrite Ep in Hb. apply (f_equal length) in Hb.
    rewrite length_app, length_bytes in Hb. cbn in Hb. lia. }
  pose proof (ri_addr _ _ _ _ _ _ HI) as Har. pose proof (wi_addr _ _ _ _ HJ) as Haw.
  rewrite He in Har. rewrite He2 in Haw.
  specialize (Hst Ep). specialize (Hst2 Ep2). unfold rnext_req in Hst. unfold DmaWriteFifo.next_req in Hst2.
  rewrite He, Hm in Hst. rewrite He2, Hm2 in Hst2.
  destruct (Z.ltb_spec 0 (writesLeft (dev v))) as [Hl0|Hl0].
  - assert (0 < chunk (dev v) ≤ writesLeft (dev v) ∧ chunk (dev v) ≤ M) as [Hk1 Hk2] by (unfold chunk; lia).
    apply andb_true_iff. split.
    + rewrite (canFill_ok _ _ _ _ _ HJ) by lia. apply Z.leb_le.
      destruct Hst2 as [|Hst2]; [lia|].
      destruct (decide (DmaWriteFifo.nextAddr wf < dst + (len - writesLeft (dev v)))) as [Hg|]; [|lia].
      pose proof (stepped_gap M (dst + len) dst _ (dst + (len - writesLeft (dev v))) Mpos Hs2) as Hgap.
      specialize (Hgap (stepped_shift _ _ Hstep _ eq_refl) Hg). lia.
    + apply Z.leb_le. unfold rf_size. fold rf. rewrite (bf_size_ok _ _ _ (ri_rep _ _ _ _ _ _ HI)).
      destruct Hst as [|Hst]; [lia|].
      pose proof (stepped_gap M (src + len) src (src + (len - writesLeft (dev v))) _ Mpos
        (stepped_shift _ _ Hstep _ eq_refl) Hs) as Hgap. lia.
  - apply negb_true_iff. unfold DmaWriteFifo.isActive, DmaWriteFifo.atEndOfBlock. fold wf. rewrite Ep2.
    rewrite bool_decide_true by done. cbn. apply negb_false_iff, Z.eqb_eq. rewrite He2.
    destruct Hst2; lia.
Qed.

End Transfer.

(** ** The properties *)

(** The parameters the device is built with. *)
Record nd_config (p : NDParams) (P : nat) : Prop := {
  cf_timing : bypassCaches (nd_sys p) = false;
  cf_pending : (0 < P)%nat;
  cf_max : 0 < nd_maxReqSize p;
}.

(** A block in the address space and a destination apart from the source. *)
Record block_ok (src dst len : Z) : Prop := {
  bk_len : 0 ≤ len < 2 ^ 31;
  bk_src : 0 ≤ src ∧ src + len < 2 ^ 64;
  bk_dst : 0 ≤ dst ∧ dst + len < 2 ^ 64;
  bk_disj : src + len ≤ dst ∨ dst + len ≤ src;
}.

Lemma flags_done fl : Z.lor (Z.land (flags_running fl) 253) 4 = Z.lor (Z.land fl 252) 4.
Proof.
  unfold flags_running. rewrite Z.land_lor_distr_l, <-Z.land_assoc. change (Z.land 2 253) with 0.
  change (Z.land 254 253) with 252. by rewrite Z.lor_0_r.
Qed.

Lemma phase_init p P n m0 src dst len d fl :
  nd_idle p P n d → programmed src dst len d fl → tickScheduled d = true →
  phase p P m0 src dst len n fl (gic_log d) (mkNDEnv d [] [] m0) (5 * len + 2).
Proof. intros. by apply ph_wait. Qed.

Lemma finished_flags p P n m0 src dst len v fl g0 :
  Finished p P m0 src dst len n v (flags_running fl) g0 → nd_flags (dev v) = Ok (Z.lor (Z.land fl 252) 4).
Proof. intros [_ _ _ _ _ (rest & E & Hf) _]. rewrite <-flags_done. by eapply nd_flags_ok. Qed.

(** The DMA device copies memory.  A device between two transfers has been
    given a source, a destination that does not overlap it and a length, and
    its start flag.  Then any sequence of ticks and of completions of its reads
    and writes, in whatever order, runs without a panic or failed assertion;
    memory outside the destination never changes; and once the tick is no
    longer scheduled the destination holds the bytes the source held at the
    start, the flags say done and neither start nor running, one interrupt has
    been raised where before there was none, and the device is ready for the
    next transfer. *)
Theorem transfer_copies p P n m0 src dst len d fl es
    (Hc : nd_config p P) (Hb : block_ok src dst len)
    (Hid : nd_idle p P (length es + n) d) (Hpr : programmed src dst len d fl)
    (Ht : tickScheduled d = true) :
  ∃ v, nd_run p (mkNDEnv d [] [] m0) es = Ok v ∧
    (∀ x, ¬ (dst ≤ x < dst + len) → mem v x = m0 x) ∧
    if tickScheduled (dev v) then sends (gic_log (dev v)) = sends (gic_log d)
    else bytes (mem v) dst len = bytes m0 src len ∧ running (dev v) = false ∧
         nd_flags (dev v) = Ok (Z.lor (Z.land fl 252) 4) ∧
         sends (gic_log (dev v)) = S (sends (gic_log d)) ∧ nd_idle p P n (dev v).
Proof.
  destruct Hc, Hb. pose proof (phase_init _ _ _ m0 _ _ _ _ _ Hid Hpr Ht) as Hph.
  eapply phase_run in Hph as (v & k & HR & Hph & _); try done. exists v. split; [done|].
  destruct Hph as [Hi Hp Ht' _ _ Hm Hg _|r w lr lw HB _|HF _].
  - rewrite Ht', Hg, Hm. done.
  - rewrite (bz_tick _ _ _ _ _ _ _ _ _ _ _ _ _ _ HB). split; [|apply HB]. apply HB.
  - rewrite (fi_tick _ _ _ _ _ _ _ _ _ _ HF). pose proof (finished_flags _ _ _ _ _ _ _ _ _ _ HF).
    destruct HF as [Hi ? ? ? ? ? ?]. split_and!; try done. apply Hi.
Qed.

(** A stretch of a run in which the tick, the oldest read and the oldest write
    each had a turn. *)
Definition covers (es : list NDEvent) : Prop := NTick ∈ es ∧ NRdDone 0 ∈ es ∧ NWrDone 0 ∈ es.

Lemma covers_advance p P m0 src dst len n fl g0 bs :
  nd_config p P → block_ok src dst len → Forall covers bs → ∀ v k,
  phase p P m0 src dst len (length (mjoin bs) + n) fl g0 v k →
  ∃ v' k', nd_run p v (mjoin bs) = Ok v' ∧ phase p P m0 src dst len n fl g0 v' k' ∧
    (k' ≤ 0 ∨ k' + Z.of_nat (length bs) ≤ k).
Proof.
  intros [] [] Hbs. induction Hbs as [|b bs (C1 & C2 & C3) _ IH]; intros v k Hph; cbn.
  { exists v, k. split_and!; [done|done|lia]. }
  cbn in Hph. rewrite length_app, <-Nat.add_assoc in Hph.
  assert (∃ v1 k1, nd_run p v b = Ok v1 ∧
    phase p P m0 src dst len (length (mjoin bs) + n) fl g0 v1 k1 ∧ (k1 ≤ 0 ∨ k1 < k)) as (v1 & k1 & R1 & Hph1 & Hlt).
  { destruct (decide (0 < k)) as [Hk|Hk].
    - pose proof Hph as Hen. eapply (phase_enabled p P m0 src dst len) in Hen as (e & He & Hen); try done.
      eapply (phase_run_enabled p P m0 src dst len) in Hph as (v1 & k1 & ? & ? & ?); try done.
      + exists v1, k1. split_and!; [done|done|by right].
      + apply elem_of_cons in He as [->|[->|[->|He%elem_of_nil]%elem_of_cons]%elem_of_cons]; done.
    - eapply (phase_run p P m0 src dst len) in Hph as (v1 & k1 & ? & ? & ?); try done.
      exists v1, k1. split_and!; [done|done|left; lia]. }
  destruct (IH v1 k1 Hph1) as (v' & k' & R2 & Hph' & Hle). exists v', k'.
  split_and!; [|done|lia]. rewrite nd_run_app, R1. done.
Qed.

(** A transfer comes to its end.  In the situation of the previous theorem,
    if the run lets the tick, the oldest read and the oldest write in flight
    each have at least [5 * len + 2] turns (the run is cut into that many
    stretches in which each of the three occurs, among any other events), the
    transfer is over. *)
Theorem transfer_completes p P n m0 src dst len d fl bs
    (Hc : nd_config p P) (Hb : block_ok src dst len) (Hbs : Forall covers bs)
    (Hmany : 5 * len + 2 ≤ Z.of_nat (length bs))
    (Hid : nd_idle p P (length (mjoin bs) + n) d) (Hpr : programmed src dst len d fl)
    (Ht : tickScheduled d = true) :
  ∃ v, nd_run p (mkNDEnv d [] [] m0) (mjoin bs) = Ok v ∧
    tickScheduled (dev v) = false ∧ running (dev v) = false ∧
    bytes (mem v) dst len = bytes m0 src len.
Proof.
  pose proof (phase_init _ _ _ m0 _ _ _ _ _ Hid Hpr Ht) as Hph.
  destruct (covers_advance _ _ _ _ _ _ _ _ _ _ Hc Hb Hbs _ _ Hph) as (v & k & HR & Hph' & Hk).
  exists v. split; [done|]. destruct Hb as [Hl ? ? ?].
  destruct Hph' as [_ _ _ _ _ _ _ ->|r w lr lw HB ->|HF _]; [lia| |].
  - destruct Hc. eapply left_of_pos in HB; [lia|done..].
  - destruct HF as [[] ? ? ? ? ? ?]. done.
Qed.

(** ** A new device *)

Lemma NoncoherentDma_new_idle p bufferSize maxPending uninit flag0 src0 dst0 left0 n :
  bypassCaches (nd_sys p) = false → 0 < nd_maxReqSize p → 0 < maxPending →
  maxPending * nd_maxReqSize p < 2 ^ 62 → 2 ≤ bufferSize / 2 < 2 ^ 31 → nd_maxReqSize p ≤ bufferSize / 2 →
  Z.of_nat n < 2 ^ 32 - 2 →
  nd_idle p (Z.to_nat maxPending) n (NoncoherentDma_new p bufferSize maxPending uninit flag0 src0 dst0 left0).
Proof.
  intros Hby Hm Hp Hb Hs Hfit Hn. split; [done| |].
  - intros s. assert (ridle p (Z.to_nat maxPending) n (DmaReadFifo_new (bufferSize / 2) (nd_maxReqSize p) maxPending uninit))
      as HR; [|by destruct s].
    split; [|done..]. intros μ. by apply (DmaReadFifo_new_ready (nd_sys p) μ).
  - intros s. assert (widle p (Z.to_nat maxPending) n (DmaWriteFifo_new (bufferSize / 2) (nd_maxReqSize p) maxPending uninit))
      as HW; [|by destruct s].
    split; [|done..]. by apply (DmaWriteFifo_new_ready (nd_sys p)).
Qed.

(** Programming the registers leaves an idle device idle. *)
Lemma nd_write_idle p P n d a data d' t :
  nd_write p d a data = Ok (d', t) → nd_idle p P n d → nd_idle p P n d' ∧ tickScheduled d' = true.
Proof. unfold nd_write. intros HR [? ? ?]. monp. by split. Qed.

(** Nine bytes from system memory to an accelerator, in requests of four. *)
Definition nd_ex_params : NDParams :=
  mkNDParams 256 100 21 4 200 [RangeSize 8192 64] (mkSys false 64 (fun _ n => replicate (Z.to_nat n) 0)).
Definition nd_ex_new : NoncoherentDma := NoncoherentDma_new nd_ex_params 16 2 0 0 0 0 0.
Definition nd_ex_regs : list Z := [1] ++ le_bytes 8 4096 ++ le_bytes 8 8192 ++ le_bytes 4 9.
Definition nd_ex_dev : NoncoherentDma :=
  match nd_write nd_ex_params nd_ex_new 256 nd_ex_regs with Ok (d, _) => d | Err _ => nd_ex_new end.
Definition nd_ex_mem (a : Z) : Z := a mod 256.
Definition nd_ex_round : list NDEvent := [NRdDone 1; NTick; NWrDone 1; NRdDone 0; NWrDone 0].

Lemma nd_ex_idle n : Z.of_nat n < 2 ^ 32 - 2 → nd_idle nd_ex_params 2 n nd_ex_dev ∧ tickScheduled nd_ex_dev = true.
Proof.
  intros Hn. assert (nd_idle nd_ex_params 2 n nd_ex_new) as H by (by apply (NoncoherentDma_new_idle nd_ex_params 16 2)).
  apply (nd_write_idle nd_ex_params 2 n nd_ex_new 256 nd_ex_regs nd_ex_dev 100); [|exact H].
  vm_compute. reflexivity.
Qed.
Lemma nd_ex_ok : nd_config nd_ex_params 2 ∧ block_ok 4096 8192 9 ∧ programmed 4096 8192 9 nd_ex_dev 1.
Proof. split_and!; split; try done; try lia. eexists. split; [vm_compute; reflexivity|lia]. Qed.

(** The bytes do arrive, whichever of two requests completes first. *)
Example nd_ex_copied :
  match nd_run nd_ex_params (mkNDEnv nd_ex_dev [] [] nd_ex_mem) (mjoin (replicate 6 nd_ex_round)) with
  | Ok v => tickScheduled (dev v) = false ∧ bytes (mem v) 8192 9 = [0; 1; 2; 3; 4; 5; 6; 7; 8] ∧
            sends (gic_log (dev v)) = 1%nat
  | Err _ => False
  end.
Proof. vm_compute. done. Qed.

Lemma transfer_copies_witness :
  ∃ v, nd_run nd_ex_params (mkNDEnv nd_ex_dev [] [] nd_ex_mem) (mjoin (replicate 6 nd_ex_round)) = Ok v ∧
    (∀ x, ¬ (8192 ≤ x < 8192 + 9) → mem v x = nd_ex_mem x) ∧
    if tickScheduled (dev v) then sends (gic_log (dev v)) = sends (gic_log nd_ex_dev)
    else bytes (mem v) 8192 9 = bytes nd_ex_mem 4096 9 ∧ running (dev v) = false ∧
         nd_flags (dev v) = Ok (Z.lor (Z.land 1 252) 4) ∧
         sends (gic_log (dev v)) = S (sends (gic_log nd_ex_dev)) ∧ nd_idle nd_ex_params 2 5 (dev v).
Proof.
  destruct nd_ex_ok as (Hc & Hb & Hp).
  destruct (nd_ex_idle (length (mjoin (replicate 6 nd_ex_round)) + 5)) as [Hi Ht]; [vm_compute; reflexivity|].
  exact (transfer_copies nd_ex_params 2 5 nd_ex_mem 4096 8192 9 nd_ex_dev 1 _ Hc Hb Hi Hp Ht).
Defined.

Lemma transfer_completes_witness :
  ∃ v, nd_run nd_ex_params (mkNDEnv nd_ex_dev [] [] nd_ex_mem) (mjoin (replicate 47 nd_ex_round)) = Ok v ∧
    tickScheduled (dev v) = false ∧ running (dev v) = false ∧
    bytes (mem v) 8192 9 = bytes nd_ex_mem 4096 9.
Proof.
  destruct nd_ex_ok as (Hc & Hb & Hp).
  destruct (nd_ex_idle (length (mjoin (replicate 47 nd_ex_round)) + 0)) as [Hi Ht]; [vm_compute; reflexivity|].
  refine (transfer_completes nd_ex_params 2 0 nd_ex_mem 4096 8192 9 nd_ex_dev 1 _ Hc Hb _ _ Hi Hp Ht).
  - apply Forall_replicate. split_and!; unfold nd_ex_round; rewrite !elem_of_cons; tauto.
  - rewrite length_replicate. lia.
Defined.
