(* ===== verification/Packets.v ===== *)
(** The memory commands of [mem/packet.hh] and their table in
    [mem/packet.cc]: for each command the set of its attributes as a bit set,
    the command of its response, and its printed name. *)
From S2P Require Import Prelude.
From Stdlib Require Import Strings.String.
#[local] Open Scope string_scope.
#[local] Open Scope Z_scope.

(** [MemCmd::Command]; the two numbers after [SwapResp] are unused. *)
Inductive MemCmd :=
  | InvalidCmd | ReadReq | ReadResp | ReadRespWithInvalidate | WriteReq | WriteResp | WritebackDirty
  | WritebackClean | WriteClean | CleanEvict | SoftPFReq | SoftPFExReq | HardPFReq | SoftPFResp
  | HardPFResp | WriteLineReq | UpgradeReq | SCUpgradeReq | UpgradeResp | SCUpgradeFailReq
  | UpgradeFailResp | ReadExReq | ReadExResp | ReadCleanReq | ReadSharedReq | LoadLockedReq
  | StoreCondReq | StoreCondFailReq | StoreCondResp | SwapReq | SwapResp | MemFenceReq | MemFenceResp
  | CleanSharedReq | CleanSharedResp | CleanInvalidReq | CleanInvalidResp | InvalidDestError
  | BadAddressError | FunctionalReadError | FunctionalWriteError | PrintReq | FlushReq | InvalidateReq
  | InvalidateResp.
#[export] Instance MemCmd_eq_dec : EqDecision MemCmd.
Proof. solve_decision. Defined.

(** [MemCmd::Attribute]. *)
Inductive Attribute :=
  | IsRead | IsWrite | IsUpgrade | IsInvalidate | IsClean | NeedsWritable | IsRequest | IsResponse
  | NeedsResponse | IsEviction | IsSWPrefetch | IsHWPrefetch | IsLlsc | HasData | IsError | IsPrint
  | IsFlush | FromCache.

(** The number of an enumerator. *)
Definition attrib_idx (a : Attribute) : Z :=
  match a with
  | IsRead => 0 | IsWrite => 1 | IsUpgrade => 2 | IsInvalidate => 3 | IsClean => 4 | NeedsWritable => 5
  | IsRequest => 6 | IsResponse => 7 | NeedsResponse => 8 | IsEviction => 9 | IsSWPrefetch => 10
  | IsHWPrefetch => 11 | IsLlsc => 12 | HasData => 13 | IsError => 14 | IsPrint => 15 | IsFlush => 16
  | FromCache => 17
  end.

(** [MemCmd::toInt]. *)
Definition toInt (c : MemCmd) : Z :=
  match c with
  | InvalidCmd => 0 | ReadReq => 1 | ReadResp => 2 | ReadRespWithInvalidate => 3 | WriteReq => 4
  | WriteResp => 5 | WritebackDirty => 6 | WritebackClean => 7 | WriteClean => 8 | CleanEvict => 9
  | SoftPFReq => 10 | SoftPFExReq => 11 | HardPFReq => 12 | SoftPFResp => 13 | HardPFResp => 14
  | WriteLineReq => 15 | UpgradeReq => 16 | SCUpgradeReq => 17 | UpgradeResp => 18
  | SCUpgradeFailReq => 19 | UpgradeFailResp => 20 | ReadExReq => 21 | ReadExResp => 22
  | ReadCleanReq => 23 | ReadSharedReq => 24 | LoadLockedReq => 25 | StoreCondReq => 26
  | StoreCondFailReq => 27 | StoreCondResp => 28 | SwapReq => 29 | SwapResp => 30 | MemFenceReq => 33
  | MemFenceResp => 34 | CleanSharedReq => 35 | CleanSharedResp => 36 | CleanInvalidReq => 37
  | CleanInvalidResp => 38 | InvalidDestError => 39 | BadAddressError => 40 | FunctionalReadError => 41
  | FunctionalWriteError => 42 | PrintReq => 43 | FlushReq => 44 | InvalidateReq => 45
  | InvalidateResp => 46
  end.

(** The [SET] macros. *)
Definition SET (l : list Attribute) : Z := fold_left (λ x a, Z.lor x (Z.shiftl 1 (attrib_idx a))) l 0.

Record CommandInfo := mkInfo { attributes : Z; response : MemCmd; str : string }.

(** The table, in the order of the commands, with the two unused entries. *)
Definition commandInfo : list CommandInfo :=
  [ mkInfo (SET []) InvalidCmd "InvalidCmd";
    mkInfo (SET [IsRead; IsRequest; NeedsResponse]) ReadResp "ReadReq";
    mkInfo (SET [IsRead; IsResponse; HasData]) InvalidCmd "ReadResp";
    mkInfo (SET [IsRead; IsResponse; HasData; IsInvalidate]) InvalidCmd "ReadRespWithInvalidate";
    mkInfo (SET [IsWrite; NeedsWritable; IsRequest; NeedsResponse; HasData]) WriteResp "WriteReq";
    mkInfo (SET [IsWrite; IsResponse]) InvalidCmd "WriteResp";
    mkInfo (SET [IsWrite; IsRequest; IsEviction; HasData; FromCache]) InvalidCmd "WritebackDirty";
    mkInfo (SET [IsWrite; IsRequest; IsEviction; HasData; FromCache]) InvalidCmd "WritebackClean";
    mkInfo (SET [IsWrite; IsRequest; HasData; FromCache]) InvalidCmd "WriteClean";
    mkInfo (SET [IsRequest; IsEviction; FromCache]) InvalidCmd "CleanEvict";
    mkInfo (SET [IsRead; IsRequest; IsSWPrefetch; NeedsResponse]) SoftPFResp "SoftPFReq";
    mkInfo (SET [IsRead; NeedsWritable; IsInvalidate; IsRequest; IsSWPrefetch; NeedsResponse]) SoftPFResp "SoftPFExReq";
    mkInfo (SET [IsRead; IsRequest; IsHWPrefetch; NeedsResponse; FromCache]) HardPFResp "HardPFReq";
    mkInfo (SET [IsRead; IsResponse; IsSWPrefetch; HasData]) InvalidCmd "SoftPFResp";
    mkInfo (SET [IsRead; IsResponse; IsHWPrefetch; HasData]) InvalidCmd "HardPFResp";
    mkInfo (SET [IsWrite; NeedsWritable; IsRequest; NeedsResponse; HasData]) WriteResp "WriteLineReq";
    mkInfo (SET [IsInvalidate; NeedsWritable; IsUpgrade; IsRequest; NeedsResponse; FromCache]) UpgradeResp "UpgradeReq";
    mkInfo (SET [IsInvalidate; NeedsWritable; IsUpgrade; IsLlsc; IsRequest; NeedsResponse; FromCache]) UpgradeResp "SCUpgradeReq";
    mkInfo (SET [IsUpgrade; IsResponse]) InvalidCmd "UpgradeResp";
    mkInfo (SET [IsRead; NeedsWritable; IsInvalidate; IsLlsc; IsRequest; NeedsResponse; FromCache]) UpgradeFailResp "SCUpgradeFailReq";
    mkInfo (SET [IsRead; IsResponse; HasData]) InvalidCmd "UpgradeFailResp";
    mkInfo (SET [IsRead; NeedsWritable; IsInvalidate; IsRequest; NeedsResponse; FromCache]) ReadExResp "ReadExReq";
    mkInfo (SET [IsRead; IsResponse; HasData]) InvalidCmd "ReadExResp";
    mkInfo (SET [IsRead; IsRequest; NeedsResponse; FromCache]) ReadResp "ReadCleanReq";
    mkInfo (SET [IsRead; IsRequest; NeedsResponse; FromCache]) ReadResp "ReadSharedReq";
    mkInfo (SET [IsRead; IsLlsc; IsRequest; NeedsResponse]) ReadResp "LoadLockedReq";
    mkInfo (SET [IsWrite; NeedsWritable; IsLlsc; IsRequest; NeedsResponse; HasData]) StoreCondResp "StoreCondReq";
    mkInfo (SET [IsWrite; NeedsWritable; IsLlsc; IsRequest; NeedsResponse; HasData]) StoreCondResp "StoreCondFailReq";
    mkInfo (SET [IsWrite; IsLlsc; IsResponse]) InvalidCmd "StoreCondResp";
    mkInfo (SET [IsRead; IsWrite; NeedsWritable; IsRequest; HasData; NeedsResponse]) SwapResp "SwapReq";
    mkInfo (SET [IsRead; IsWrite; IsResponse; HasData]) InvalidCmd "SwapResp";
    mkInfo (SET []) InvalidCmd "Deprecated_MessageReq";
    mkInfo (SET []) InvalidCmd "Deprecated_MessageResp";
    mkInfo (SET [IsRequest; NeedsResponse]) MemFenceResp "MemFenceReq";
    mkInfo (SET [IsResponse]) InvalidCmd "MemFenceResp";
    mkInfo (SET [IsRequest; IsClean; NeedsResponse; FromCache]) CleanSharedResp "CleanSharedReq";
    mkInfo (SET [IsResponse; IsClean]) InvalidCmd "CleanSharedResp";
    mkInfo (SET [IsRequest; IsInvalidate; IsClean; NeedsResponse; FromCache]) CleanInvalidResp "CleanInvalidReq";
    mkInfo (SET [IsResponse; IsInvalidate; IsClean]) InvalidCmd "CleanInvalidResp";
    mkInfo (SET [IsResponse; IsError]) InvalidCmd "InvalidDestError";
    mkInfo (SET [IsResponse; IsError]) InvalidCmd "BadAddressError";
    mkInfo (SET [IsRead; IsResponse; IsError]) InvalidCmd "FunctionalReadError";
    mkInfo (SET [IsWrite; IsResponse; IsError]) InvalidCmd "FunctionalWriteError";
    mkInfo (SET [IsRequest; IsPrint]) InvalidCmd "PrintReq";
    mkInfo (SET [IsRequest; IsFlush; NeedsWritable]) InvalidCmd "FlushReq";
    mkInfo (SET [IsInvalidate; IsRequest; NeedsWritable; NeedsResponse; FromCache]) InvalidateResp "InvalidateReq";
    mkInfo (SET [IsInvalidate; IsResponse]) InvalidCmd "InvalidateResp" ].

(** [commandInfo[cmd]]. *)
Definition info (c : MemCmd) : CommandInfo :=
  nth (Z.to_nat (toInt c)) commandInfo (mkInfo 0 InvalidCmd "").
Definition testCmdAttrib (c : MemCmd) (a : Attribute) : bool := Z.testbit (attributes (info c)) (attrib_idx a).
Definition cmd_toString (c : MemCmd) : string := str (info c).

Definition cmd_isRead (c : MemCmd) : bool := testCmdAttrib c IsRead.
Definition cmd_isWrite (c : MemCmd) : bool := testCmdAttrib c IsWrite.
Definition cmd_isUpgrade (c : MemCmd) : bool := testCmdAttrib c IsUpgrade.
Definition cmd_isRequest (c : MemCmd) : bool := testCmdAttrib c IsRequest.
Definition cmd_isResponse (c : MemCmd) : bool := testCmdAttrib c IsResponse.
Definition cmd_needsWritable (c : MemCmd) : bool := testCmdAttrib c NeedsWritable.
Definition cmd_needsResponse (c : MemCmd) : bool := testCmdAttrib c NeedsResponse.
Definition cmd_isInvalidate (c : MemCmd) : bool := testCmdAttrib c IsInvalidate.
Definition cmd_isEviction (c : MemCmd) : bool := testCmdAttrib c IsEviction.
Definition cmd_isClean (c : MemCmd) : bool := testCmdAttrib c IsClean.
Definition cmd_fromCache (c : MemCmd) : bool := testCmdAttrib c FromCache.
Definition cmd_hasData (c : MemCmd) : bool := testCmdAttrib c HasData.
Definition cmd_isLLSC (c : MemCmd) : bool := testCmdAttrib c IsLlsc.
Definition cmd_isSWPrefetch (c : MemCmd) : bool := testCmdAttrib c IsSWPrefetch.
Definition cmd_isHWPrefetch (c : MemCmd) : bool := testCmdAttrib c IsHWPrefetch.
Definition cmd_isError (c : MemCmd) : bool := testCmdAttrib c IsError.
Definition cmd_isPrint (c : MemCmd) : bool := testCmdAttrib c IsPrint.
Definition cmd_isFlush (c : MemCmd) : bool := testCmdAttrib c IsFlush.
Definition cmd_isWriteback (c : MemCmd) : bool := cmd_isEviction c && cmd_hasData c.
Definition cmd_isPrefetch (c : MemCmd) : bool := cmd_isSWPrefetch c || cmd_isHWPrefetch c.
Definition responseCommand (c : MemCmd) : MemCmd := response (info c).

(** Evaluates the tests of known commands. *)
Ltac cmd_red := repeat match goal with
  | |- context [?f ?c] =>
    is_constructor c;
    first [ constr_eq f cmd_isRead | constr_eq f cmd_isWrite | constr_eq f cmd_isResponse
          | constr_eq f cmd_needsResponse | constr_eq f cmd_isInvalidate | constr_eq f cmd_isClean
          | constr_eq f cmd_fromCache | constr_eq f cmd_hasData | constr_eq f cmd_isLLSC
          | constr_eq f responseCommand ];
    let b := eval vm_compute in (f c) in change (f c) with b
  end.

(** The table is consistent: it has its entries at the numbers of the
    commands, a command is not both a request and a response, what needs a
    response is a request and has one that is a response, moving data the way
    the request asked for, and nothing else has a response. *)
Lemma commandInfo_consistent c :
  negb (cmd_isRequest c && cmd_isResponse c) = true ∧
  (if cmd_needsResponse c then
     cmd_isRequest c = true ∧ cmd_isResponse (responseCommand c) = true ∧
     cmd_isWrite (responseCommand c) = cmd_isWrite c ∧
     (cmd_isRead c = true → cmd_isRead (responseCommand c) = true ∧ cmd_hasData (responseCommand c) = true)
   else responseCommand c = InvalidCmd).
Proof. by destruct c; vm_compute. Qed.
