(* ===== verification/Scratchpad.v ===== *)
(** Model of [hwacc/scratchpad_memory.{hh,cc}]: a memory with one general port
    and several private accelerator ports.  Each byte has a ready bit that the
    private ports check; each port accepts one request per bandwidth period;
    the responses leave through one queue ordered by time.  What it inherits
    from [AbstractMemory] (LL/SC tracking, functional access) is modelled as
    far as it is used. *)
From S2P Require Import Prelude CppFloat DmaEvents AddrRange StreamBuffer Packets.
From Stdlib Require Import Floats.SpecFloat.

(** ** Packets *)

(** A packet with what is used of its request; its size is the length of its
    data.  [sp_extra] is the extra data of the request, [sp_context] its
    context id if it has one, [sp_atomic] the operation of an atomic swap. *)
Record Packet := mkPacket {
  cmd : MemCmd;
  getAddr : Z;
  pk_data : list Z;
  isSecure : bool;
  pk_cacheResponding : bool;
  delay : Z;
  isInstFetch : bool;
  isCondSwap : bool;
  extraData : Z;
  contextId : option Z;
  atomicOp : option (list Z → list Z);
}.
Definition getSize (p : Packet) : Z := Z.of_nat (length (pk_data p)).
Definition set_cmd (p : Packet) (c : MemCmd) : Packet :=
  mkPacket c (getAddr p) (pk_data p) (isSecure p) (pk_cacheResponding p) (delay p) (isInstFetch p)
    (isCondSwap p) (extraData p) (contextId p) (atomicOp p).
Definition set_pkdata (p : Packet) (d : list Z) : Packet :=
  mkPacket (cmd p) (getAddr p) d (isSecure p) (pk_cacheResponding p) (delay p) (isInstFetch p)
    (isCondSwap p) (extraData p) (contextId p) (atomicOp p).
Definition set_extra (p : Packet) (x : Z) : Packet :=
  mkPacket (cmd p) (getAddr p) (pk_data p) (isSecure p) (pk_cacheResponding p) (delay p) (isInstFetch p)
    (isCondSwap p) x (contextId p) (atomicOp p).
Definition clear_delay (p : Packet) : Packet :=
  mkPacket (cmd p) (getAddr p) (pk_data p) (isSecure p) (pk_cacheResponding p) 0 (isInstFetch p)
    (isCondSwap p) (extraData p) (contextId p) (atomicOp p).

Definition matchAddr (p q : Packet) : bool :=
  (getAddr p =? getAddr q) && eqb (isSecure p) (isSecure q).
Definition makeResponse (p : Packet) : outcome Packet :=
  let* _ := assert_ (cmd_needsResponse (cmd p)) in
  Ok (set_cmd p (responseCommand (cmd p))).

(** ** State *)

Record LockedAddr := mkLockedAddr { la_addr : Z; la_context : Z }.

(** Configuration. *)
Record SpmParams := mkSpmParams {
  readyMode : bool;
  readOnInvalid : bool;
  writeOnValid : bool;
  resetOnScratchpadRead : bool;
  range : AddrRange;
  latency : Z;
  latency_var : Z;
  spm_bandwidth : spec_float;
}.

Record DeferredPacket := mkDeferred { dp_tick : Z; dp_pkt : Packet; dp_origin : nat }.

(** Index 0 of the vectors is the general port, index [i + 1] the private port
    [i].  [pmem] is the host memory, absent with [null=True]; the scheduled
    ticks of the events are kept with them. *)
Record Spm := mkSpm {
  ready : list bool;
  initial : bool;
  pmem : option (list Z);
  lockedAddrList : list LockedAddr;
  packetQueue : list DeferredPacket;
  isBusy : list bool;
  retryReq : list bool;
  retryResp : list bool;
  releaseEvent : list (option Z);
  releaseTick : list Z;
  dequeueEvent : option Z;
  spm_ports : list bool;
  spm_drain : DrainState;
}.

(** Calls on the ports. *)
Inductive PortCall := SendRetryReq (idx : nat) | SendTimingResp (idx : nat) (p : Packet).

Definition set_mem (s : Spm) (rdy : list bool) (init : bool) (m : option (list Z)) (l : list LockedAddr) : Spm :=
  mkSpm rdy init m l (packetQueue s) (isBusy s) (retryReq s) (retryResp s) (releaseEvent s) (releaseTick s)
    (dequeueEvent s) (spm_ports s) (spm_drain s).
Definition set_ready (s : Spm) (rdy : list bool) : Spm := set_mem s rdy (initial s) (pmem s) (lockedAddrList s).
Definition set_initial (s : Spm) (b : bool) : Spm := set_mem s (ready s) b (pmem s) (lockedAddrList s).
Definition set_pmem (s : Spm) (m : list Z) : Spm := set_mem s (ready s) (initial s) (Some m) (lockedAddrList s).
Definition set_locked (s : Spm) (l : list LockedAddr) : Spm := set_mem s (ready s) (initial s) (pmem s) l.
Definition set_queue (s : Spm) (q : list DeferredPacket) (ev : option Z) : Spm :=
  mkSpm (ready s) (initial s) (pmem s) (lockedAddrList s) q (isBusy s) (retryReq s) (retryResp s)
    (releaseEvent s) (releaseTick s) ev (spm_ports s) (spm_drain s).
Definition set_ports (s : Spm) (busy rreq rresp : list bool) (rel : list (option Z)) (relt : list Z) : Spm :=
  mkSpm (ready s) (initial s) (pmem s) (lockedAddrList s) (packetQueue s) busy rreq rresp rel relt
    (dequeueEvent s) (spm_ports s) (spm_drain s).
Definition set_retryReq (s : Spm) (l : list bool) : Spm :=
  set_ports s (isBusy s) l (retryResp s) (releaseEvent s) (releaseTick s).
Definition set_retryResp (s : Spm) (l : list bool) : Spm :=
  set_ports s (isBusy s) (retryReq s) l (releaseEvent s) (releaseTick s).
Definition set_spm_drain (s : Spm) (d : DrainState) : Spm :=
  mkSpm (ready s) (initial s) (pmem s) (lockedAddrList s) (packetQueue s) (isBusy s) (retryReq s) (retryResp s)
    (releaseEvent s) (releaseTick s) (dequeueEvent s) (spm_ports s) d.

(** [v[idx] = x] on a vector; outside it the behaviour is undefined. *)
Definition vec_set {A} (l : list A) (i : nat) (x : A) : outcome (list A) :=
  if (i <? length l)%nat then Ok (<[i:=x]> l) else Err Undefined.

Section Memory.
Context (c : SpmParams).

(** The constructor; the ready bits have no value unless [readyMode] is set. *)
Definition ScratchpadMemory_new (uninit : list bool) (m : option (list Z)) : Spm :=
  let n := Z.to_nat (ar_size (range c)) in
  mkSpm (if readyMode c then replicate n false else resize n false uninit) true m [] []
    [false] [false] [false] [None] [0] None [] Running.

(** ** Ready bits *)

(** [for (auto i=start_offset; i<end_offset; i++) if (ready[i] == bad) return false;]. *)
Fixpoint ready_scan (rdy : list bool) (bad : bool) (i : Z) (n : nat) : outcome bool :=
  match n with
  | O => Ok true
  | S n =>
      let* b := (if 0 <=? i then vec_get rdy (Z.to_nat i) else Err Undefined) in
      if eqb b bad then Ok false else ready_scan rdy bad (i + 1) n
  end.
(** [for (auto i=start_offset; i<end_offset; i++) ready[i] = v;]. *)
Fixpoint ready_fill (rdy : list bool) (v : bool) (i : Z) (n : nat) : outcome (list bool) :=
  match n with
  | O => Ok rdy
  | S n =>
      let* rdy := (if 0 <=? i then vec_set rdy (Z.to_nat i) v else Err Undefined) in
      ready_fill rdy v (i + 1) n
  end.
(** The number of turns of these loops, from the unsigned offsets. *)
Definition offsets (ad size : Z) : Z * nat :=
  let start_offset := u64 (ad - ar_start (range c)) in
  let end_offset := u64 (start_offset + size) in
  (start_offset, Z.to_nat (end_offset - start_offset)).

Definition isReady (s : Spm) (ad size : Z) (read : bool) : outcome bool :=
  if negb (readyMode c) then Ok true
  else
    let '(o, n) := offsets ad size in
    if read then if readOnInvalid c then Ok true else ready_scan (ready s) false o n
    else if writeOnValid c then Ok true else ready_scan (ready s) true o n.

Definition setAllReady (s : Spm) (r : bool) : Spm :=
  set_initial
    (if readyMode c && negb (initial s) then set_ready s ((fun _ => r) <$> ready s) else s) true.

(** ** Load-locked and store-conditional *)

Definition la_mask (paddr : Z) : Z := Z.land paddr (u64 (Z.lnot 15)).
Definition matchesContext (l : LockedAddr) (p : Packet) : outcome bool :=
  let* _ := assert_ (negb (la_context l =? -1)) in
  match contextId p with Some x => Ok (la_context l =? x) | None => Err AssertFail end.

Fixpoint lock_update (l : list LockedAddr) (p : Packet) : outcome (option (list LockedAddr)) :=
  match l with
  | [] => Ok None
  | x :: l =>
      let* m := matchesContext x p in
      if m : bool then Ok (Some (mkLockedAddr (la_mask (getAddr p)) (la_context x) :: l))
      else let* r := lock_update l p in Ok (option_map (cons x) r)
  end.
Definition trackLoadLocked (s : Spm) (p : Packet) : outcome Spm :=
  let* r := lock_update (lockedAddrList s) p in
  match r, contextId p with
  | Some l, _ => Ok (set_locked s l)
  | None, Some x => Ok (set_locked s (mkLockedAddr (la_mask (getAddr p)) x :: lockedAddrList s))
  | None, None => Err AssertFail
  end.

Fixpoint lock_find (l : list LockedAddr) (p : Packet) : outcome bool :=
  match l with
  | [] => Ok false
  | x :: l =>
      if la_addr x =? la_mask (getAddr p) then
        let* m := matchesContext x p in
        if m : bool then Ok true else lock_find l p
      else lock_find l p
  end.
(** The store is allowed, the packet with its extra data, and the records
    left.  (The exclusive monitors of the contexts that lose their record are
    cleared by a call on the CPU, outside the model.) *)
Definition checkLockedAddrList (s : Spm) (p : Packet) : outcome (bool * Packet * Spm) :=
  let isLLSC := cmd_isLLSC (cmd p) in
  let* (allowStore, p) :=
    if isLLSC then
      let* found := lock_find (lockedAddrList s) p in
      Ok (found, set_extra p (if found : bool then 1 else 0))
    else Ok (true, p) in
  if allowStore : bool then
    let* _ := assert_ (forallb (fun x => negb ((la_addr x =? la_mask (getAddr p)) && (la_context x =? -1)))
                         (lockedAddrList s)) in
    Ok (true, p, set_locked s (filter (fun x => la_addr x ≠ la_mask (getAddr p)) (lockedAddrList s)))
  else Ok (false, p, s).
Definition writeOK (s : Spm) (p : Packet) : outcome (bool * Packet * Spm) :=
  match lockedAddrList s with
  | [] => if cmd_isLLSC (cmd p) then Ok (false, set_extra p 0, s) else Ok (true, p, s)
  | _ => checkLockedAddrList s p
  end.

(** ** Access *)

(** [hostAddr - pmemAddr]. *)
Definition host_off (p : Packet) : Z := getAddr p - ar_start (range c).
(** [pkt->setData(hostAddr)] and [pkt->writeData(hostAddr)]. *)
Definition pkt_load (m : list Z) (p : Packet) : outcome Packet :=
  let* d := mem_read m (host_off p) (getSize p) in Ok (set_pkdata p d).
Definition pkt_store (m : list Z) (p : Packet) : outcome (list Z) := mem_write m (host_off p) (pk_data p).

(** The branch of [SwapReq]. *)
Definition access_swap (s : Spm) (p : Packet) : outcome (Packet * Spm) :=
  match atomicOp p with
  | Some op =>
      match pmem s with
      | Some m =>
          let* p := pkt_load m p in
          let* m := mem_write m (host_off p) (op (pk_data p)) in
          Ok (p, set_pmem s m)
      | None => Ok (p, s)
      end
  | None =>
      match pmem s with
      | None => Err Panic
      | Some m =>
          let overwrite_val := pk_data p in
          let* p := pkt_load m p in
          let* overwrite_mem :=
            if isCondSwap p then
              if (getSize p =? 8) || (getSize p =? 4) then
                Ok (bool_decide (le_bytes (length (pk_data p)) (extraData p) = pk_data p))
              else Err Panic
            else Ok true in
          let* m := if overwrite_mem : bool then mem_write m (host_off p) overwrite_val else Ok m in
          let* _ := assert_ (negb (isInstFetch p)) in
          Ok (p, set_pmem s m)
      end
  end.

(** [pkt->isRead()]. *)
Definition access_read (s : Spm) (p : Packet) (validateAccess : bool) : outcome (Packet * Spm) :=
  let* _ := assert_ (negb (cmd_isWrite (cmd p))) in
  let* s :=
    if cmd_isLLSC (cmd p) then
      let* _ := assert_ (negb (cmd_fromCache (cmd p))) in trackLoadLocked s p
    else Ok s in
  let* s :=
    if validateAccess then
      let* ok := isReady s (getAddr p) (getSize p) true in
      let* _ := panic_if (negb ok) in
      if resetOnScratchpadRead c then
        let '(o, n) := offsets (getAddr p) (getSize p) in
        let* rdy := ready_fill (ready s) false o n in Ok (set_ready s rdy)
      else Ok s
    else Ok s in
  let* p := match pmem s with Some m => pkt_load m p | None => Ok p end in
  Ok (p, s).

(** [pkt->isWrite()]: the data is written before the ready bits are checked. *)
Definition access_write (s : Spm) (p : Packet) (validateAccess : bool) : outcome (Packet * Spm) :=
  let* (ok, p, s) := writeOK s p in
  let* s :=
    if ok : bool then
      let* s := match pmem s with
                | Some m => let* m := pkt_store m p in Ok (set_pmem s m)
                | None => Ok s
                end in
      let* _ := assert_ (negb (isInstFetch p)) in Ok s
    else Ok s in
  let* _ :=
    if validateAccess then
      let* ok := isReady s (getAddr p) (getSize p) false in panic_if (negb ok)
    else Ok tt in
  let* s :=
    if readyMode c then
      let '(o, n) := offsets (getAddr p) (getSize p) in
      let* rdy := ready_fill (ready s) true o n in Ok (set_ready s rdy)
    else Ok s in
  Ok (p, s).

Definition scratchpadAccess (s : Spm) (p : Packet) (validateAccess : bool) : outcome (Packet * Spm) :=
  let s := set_initial s false in
  if pk_cacheResponding p then Ok (p, s)
  else if bool_decide (cmd p = CleanEvict) || bool_decide (cmd p = WritebackClean) then Ok (p, s)
  else
    let* sub := isSubset (plain (getAddr p) (u64 (getAddr p + (getSize p - 1)))) (range c) in
    let* _ := assert_ sub in
    let* (p, s) :=
      if bool_decide (cmd p = SwapReq) then access_swap s p
      else if cmd_isRead (cmd p) then access_read s p validateAccess
      else if cmd_isInvalidate (cmd p) || cmd_isClean (cmd p) then
        let* _ := assert_ (negb (cmd_isWrite (cmd p))) in Ok (p, s)
      else if cmd_isWrite (cmd p) then access_write s p validateAccess
      else Err Panic in
    if cmd_needsResponse (cmd p) then let* p := makeResponse p in Ok (p, s) else Ok (p, s).

(** [getLatency()]; [rnd] is the value drawn from [0 .. latency_var]. *)
Definition getLatency (rnd : Z) : Z := latency c + (if latency_var c =? 0 then 0 else rnd).

Definition recvAtomic (s : Spm) (p : Packet) (validateAccess : bool) (rnd : Z) : outcome (Z * Packet * Spm) :=
  let* _ := panic_if (pk_cacheResponding p) in
  let* (p, s) := scratchpadAccess s p validateAccess in
  Ok (getLatency rnd, p, s).
End Memory.

Section Ports.
Context (c : SpmParams).

(** ** Requests *)

(** The position after which a response is put: from the last element back,
    but never before the first, and not past one with the same address.  The
    list is not empty. *)
Fixpoint insert_after (q : list DeferredPacket) (when_to_send : Z) (p : Packet) (i : nat) : nat :=
  match i with
  | O => O
  | S j =>
      match q !! i with
      | Some d =>
          if (when_to_send <? dp_tick d) && negb (matchAddr (dp_pkt d) p) then insert_after q when_to_send p j
          else i
      | None => i
      end
  end.
(** [auto i = packetQueue.end(); --i; while (...) --i; emplace(++i, ...)]; in
    an empty [std::list] the decrement and the increment stay at the end. *)
Definition emplace (q : list DeferredPacket) (d : DeferredPacket) : list DeferredPacket :=
  match q with
  | [] => [d]
  | _ =>
      let i := S (insert_after q (dp_tick d) (dp_pkt d) (length q - 1)) in
      take i q ++ d :: drop i q
  end.

(** [schedule(event, when)] of an event that must not be scheduled. *)
Definition schedule (ev : option Z) (when_ : Z) : outcome (option Z) :=
  match ev with None => Ok (Some when_) | Some _ => Err AssertFail end.

(** [if (duration != 0)]: the port is busy until the release. *)
Definition hold_port (s : Spm) (idx : nat) (now duration : Z) : outcome Spm :=
  if negb (duration =? 0) then
    let* ev := vec_get (releaseEvent s) idx in
    let* ev := schedule ev (u64 (now + duration)) in
    let* rel := vec_set (releaseEvent s) idx ev in
    let* relt := vec_set (releaseTick s) idx (u64 (now + duration)) in
    let* busy := vec_set (isBusy s) idx true in
    Ok (set_ports s busy (retryReq s) (retryResp s) rel relt)
  else Ok s.

(** Whether the request is taken.  [recvPort] is -1 for the general port;
    [rnd1] and [rnd2] are the random parts of the two latencies drawn. *)
Definition recvTimingReq (now rnd1 rnd2 : Z) (s : Spm) (p : Packet) (recvPort : Z) (validateAccess : bool)
    : outcome (bool * Spm) :=
  let* _ := panic_if (pk_cacheResponding p) in
  let* _ := panic_if (negb (cmd_isRead (cmd p) || cmd_isWrite (cmd p))) in
  let idx := Z.to_nat (recvPort + 1) in
  let* retry := vec_get (retryReq s) idx in
  if retry : bool then Ok (false, s)
  else
    let* busy := vec_get (isBusy s) idx in
    if busy : bool then let* l := vec_set (retryReq s) idx true in Ok (false, set_retryReq s l)
    else
      let receive_delay := delay p in
      let p := clear_delay p in
      let* duration := transfer_ticks (getSize p) (spm_bandwidth c) in
      let* s := hold_port s idx now duration in
      let needsResponse := cmd_needsResponse (cmd p) in
      let* (_, p, s) := recvAtomic c s p validateAccess rnd1 in
      if needsResponse then
        let* _ := assert_ (cmd_isResponse (cmd p)) in
        let when_to_send := u64 (now + receive_delay + getLatency c rnd2) in
        let q := emplace (packetQueue s) (mkDeferred when_to_send p idx) in
        let* rr := vec_get (retryResp s) idx in
        let ev := match dequeueEvent s with
                  | None => if negb rr then option_map dp_tick (last q) else None
                  | ev => ev
                  end in
        Ok (true, set_queue s q ev)
      else Ok (true, s).

(** ** Release *)

(** One turn of the loop of [release] for port [idx]. *)
Definition release_port (s : Spm) (idx : nat) : outcome (Spm * list PortCall) :=
  let* ev := vec_get (releaseEvent s) idx in
  let* busy := vec_get (isBusy s) idx in
  if bool_decide (ev = None) && busy then
    let* b := vec_set (isBusy s) idx false in
    let s := set_ports s b (retryReq s) (retryResp s) (releaseEvent s) (releaseTick s) in
    let* retry := vec_get (retryReq s) idx in
    if retry : bool then
      let* l := vec_set (retryReq s) idx false in
      Ok (set_retryReq s l, [SendRetryReq idx])
    else Ok (s, [])
  else Ok (s, []).
Fixpoint release_loop (s : Spm) (idxs : list nat) : outcome (Spm * list PortCall) :=
  match idxs with
  | [] => Ok (s, [])
  | idx :: idxs =>
      let* (s, cs) := release_port s idx in
      let* (s, cs') := release_loop s idxs in
      Ok (s, cs ++ cs')
  end.
Definition release (s : Spm) : outcome (Spm * list PortCall) :=
  release_loop s (seq 0 (length (isBusy s))).

(** The release event of port [idx] is processed: it is no longer scheduled. *)
Definition process_release (s : Spm) (idx : nat) : outcome (Spm * list PortCall) :=
  let* rel := vec_set (releaseEvent s) idx None in
  release (set_ports s (isBusy s) (retryReq s) (retryResp s) rel (releaseTick s)).

(** ** Responses *)

(** [dequeue()]; [accepted] is what [sendTimingResp] returns. *)
Definition dequeue (now : Z) (accepted : bool) (s : Spm) : outcome (Spm * list PortCall) :=
  match packetQueue s with
  | [] => Err AssertFail
  | d :: q =>
      let call := SendTimingResp (dp_origin d) (dp_pkt d) in
      let* rr := vec_set (retryResp s) (dp_origin d) (negb accepted) in
      let s := set_retryResp s rr in
      if accepted then
        let s := match q with
                 | [] => let s := set_queue s q (dequeueEvent s) in set_spm_drain s (signalDrainDone (spm_drain s))
                 | d' :: _ => set_queue s q (Some (Z.max (dp_tick d') now))
                 end in
        Ok (s, [call])
      else Ok (s, [call])
  end.
(** The dequeue event is processed. *)
Definition process_dequeue (now : Z) (accepted : bool) (s : Spm) : outcome (Spm * list PortCall) :=
  dequeue now accepted (set_queue s (packetQueue s) None).

Definition recvRespRetry (now : Z) (accepted : bool) (s : Spm) (id : Z) : outcome (Spm * list PortCall) :=
  let idx := Z.to_nat (id + 1) in
  let* rr := vec_get (retryResp s) idx in
  let* _ := assert_ rr in
  dequeue now accepted s.

(** ** Ports and draining *)

(** [getPort("spm_ports", idx)]: the vectors grow to hold the port. *)
Definition attach_port (s : Spm) (idx : nat) : Spm :=
  let s :=
    if (length (spm_ports s) <=? idx)%nat then
      mkSpm (ready s) (initial s) (pmem s) (lockedAddrList s) (packetQueue s)
        (resize (idx + 2) false (isBusy s)) (resize (idx + 2) false (retryReq s))
        (resize (idx + 2) false (retryResp s)) (resize (idx + 2) None (releaseEvent s))
        (resize (idx + 2) 0 (releaseTick s)) (dequeueEvent s) (resize (idx + 1) false (spm_ports s)) (spm_drain s)
    else s in
  mkSpm (ready s) (initial s) (pmem s) (lockedAddrList s) (packetQueue s) (isBusy s) (retryReq s) (retryResp s)
    (releaseEvent s) (releaseTick s) (dequeueEvent s) (<[idx:=true]> (spm_ports s)) (spm_drain s).

Definition spm_drain_ (s : Spm) : Spm :=
  set_spm_drain s (if bool_decide (packetQueue s = []) then Drained else Draining).
Definition spm_init (s : Spm) : Spm := set_initial s true.

(** ** Functional accesses *)

(** [AbstractMemory::functionalAccess]: like the access, without checks of the
    ready bits and locks, and it leaves the ready bits alone. *)
Definition functionalAccess (s : Spm) (p : Packet) : outcome (Packet * Spm) :=
  let* sub := isSubset (RangeSize (getAddr p) (getSize p)) (range c) in
  let* _ := assert_ sub in
  if cmd_isRead (cmd p) then
    let* p := match pmem s with Some m => pkt_load c m p | None => Ok p end in
    let* p := makeResponse p in Ok (p, s)
  else if cmd_isWrite (cmd p) then
    let* s := match pmem s with
              | Some m => let* m := pkt_store c m p in Ok (set_pmem s m)
              | None => Ok s
              end in
    let* p := makeResponse p in Ok (p, s)
  else Err Panic.

(** [pkt->trySatisfyFunctional(other)] for a read or write [p] whose bytes
    [valid] (none tracked yet: empty) were found already: done, the two packets
    and the bytes found.  Masked writes are never queued. *)
Definition trySatisfy (p other : Packet) (valid : list bool) : outcome (bool * Packet * Packet * list bool) :=
  let func_start := getAddr p in
  let func_end := u64 (getAddr p + getSize p - 1) in
  let val_start := getAddr other in
  let val_end := u64 (getAddr other + getSize other - 1) in
  if negb (eqb (isSecure p) (isSecure other)) || (val_end <? func_start) || (func_end <? val_start)
     || negb (cmd_hasData (cmd other)) then Ok (false, p, other, valid)
  else
    let val_offset := if val_start <? func_start then func_start - val_start else 0 in
    let func_offset := if func_start <? val_start then val_start - func_start else 0 in
    let overlap_size := Z.min val_end func_end + 1 - Z.max val_start func_start in
    if cmd_isRead (cmd p) then
      let* bs := mem_read (pk_data other) val_offset overlap_size in
      let* d := mem_write (pk_data p) func_offset bs in
      let valid := match valid with [] => replicate (length (pk_data p)) false | _ => valid end in
      let o := Z.to_nat func_offset in
      let valid := take o valid ++ replicate (Z.to_nat overlap_size) true
                     ++ drop (o + Z.to_nat overlap_size) valid in
      Ok (forallb id valid, set_pkdata p d, other, valid)
    else if cmd_isWrite (cmd p) then
      let* bs := mem_read (pk_data p) func_offset overlap_size in
      let* d := mem_write (pk_data other) val_offset bs in
      Ok (false, p, set_pkdata other d, valid)
    else Err Panic.

(** The loop over [packetQueue], which stops at the packet that completes a
    read. *)
Fixpoint functional_loop (p : Packet) (valid : list bool) (q : list DeferredPacket)
    : outcome (Packet * list DeferredPacket) :=
  match q with
  | [] => Ok (p, [])
  | d :: q =>
      let* (done, p, other, valid) := trySatisfy p (dp_pkt d) valid in
      let d := mkDeferred (dp_tick d) other (dp_origin d) in
      if done : bool then Ok (p, d :: q)
      else let* (p, q) := functional_loop p valid q in Ok (p, d :: q)
  end.
Definition recvFunctional (s : Spm) (p : Packet) : outcome (Packet * Spm) :=
  let* (p, s) := functionalAccess s p in
  let* (p, q) := functional_loop p [] (packetQueue s) in
  Ok (p, set_queue s q (dequeueEvent s)).

(** What the private ports offer: [SPMPort::canAccess] and
    [SPMPort::setReadyStatus]. *)
Definition canAccess (s : Spm) (ad len : Z) (read : bool) : outcome bool := isReady c s ad len read.
Definition setReadyStatus (s : Spm) (r : bool) : Spm := setAllReady c s r.
End Ports.
