(* ===== verification/ScratchpadSpec.v ===== *)
(** Correctness of the scratchpad memory: its private ports see every byte as
    a cell that is full or empty; all ports together see one memory whose
    responses keep the order of the requests to each address; and a port that
    was refused is served again. *)
From S2P Require Import Prelude CppFloat DmaEvents AddrRange StreamBuffer Packets Scratchpad.
From Stdlib Require Import Floats.SpecFloat.

(** ** Lists of bits and bytes *)

(** [l] with the [n] elements from [o] on replaced by those of [xs]. *)
Definition splice {A} (l : list A) (o : nat) (xs : list A) : list A :=
  take o l ++ xs ++ drop (o + length xs) l.

Lemma length_splice {A} (l : list A) o xs : (o + length xs ≤ length l)%nat → length (splice l o xs) = length l.
Proof. intros. unfold splice. rewrite !length_app, length_take, length_drop. lia. Qed.

Lemma splice_cons {A} (l : list A) o x xs :
  (o < length l)%nat → splice (<[o:=x]> l) (S o) xs = splice l o (x :: xs).
Proof.
  intros Ho. unfold splice. cbn [length app].
  rewrite (take_S_r _ _ x) by (by apply list_lookup_insert_eq). rewrite take_insert_ge by lia.
  rewrite drop_insert_lt by lia. by rewrite <-app_assoc, Nat.add_succ_r.
Qed.

Lemma ready_fill_ok rdy v n : ∀ o,
  (o + n ≤ length rdy)%nat → ready_fill rdy v (Z.of_nat o) n = Ok (splice rdy o (replicate n v)).
Proof.
  revert rdy. induction n as [|n IH]; intros rdy o Ho; cbn [ready_fill].
  { unfold splice. cbn. by rewrite Nat.add_0_r, take_drop. }
  rewrite (proj2 (Z.leb_le _ _)), Nat2Z.id by lia. unfold vec_set.
  rewrite (proj2 (Nat.ltb_lt _ _)) by lia. cbn [mbind outcome_bind].
  replace (Z.of_nat o + 1) with (Z.of_nat (S o)) by lia.
  rewrite IH by (rewrite length_insert; lia). by rewrite splice_cons by lia.
Qed.

Lemma forallb_pointwise {A} (f g : A → bool) l : (∀ x, f x = g x) → forallb f l = forallb g l.
Proof. intros E. induction l as [|x l IH]; cbn; [done|]. by rewrite E, IH. Qed.

Lemma ready_scan_ok rdy bad n : ∀ o,
  (o + n ≤ length rdy)%nat →
  ready_scan rdy bad (Z.of_nat o) n = Ok (forallb (fun b => negb (eqb b bad)) (take n (drop o rdy))).
Proof.
  induction n as [|n IH]; intros o Ho; cbn [ready_scan]; [done|].
  rewrite (proj2 (Z.leb_le _ _)), Nat2Z.id by lia. unfold vec_get.
  destruct (rdy !! o) as [b|] eqn:E; [|apply lookup_ge_None in E; lia]. cbn [mbind outcome_bind].
  rewrite (drop_S _ b o) by done. cbn. destruct (eqb b bad); [done|].
  replace (Z.of_nat o + 1) with (Z.of_nat (S o)) by lia. by rewrite IH by lia.
Qed.

Lemma mem_write_splice m o xs :
  (o + length xs ≤ length m)%nat → mem_write m (Z.of_nat o) xs = Ok (splice m o xs).
Proof.
  intros Ho. unfold mem_write. rewrite (proj2 (in_block_spec _ _ _)) by lia. unfold splice.
  by rewrite Nat2Z.id.
Qed.

(** ** One access *)

Section Access.
Context (c : SpmParams) (start len : Z).

(** A memory of one segment. *)
Record range_ok : Prop := {
  rg_range : range c = plain start (start + len);
  rg_start : 0 ≤ start;
  rg_len : 0 ≤ len;
  rg_end : start + len < 2 ^ 64;
}.

(** A plain read or write of some bytes of it. *)
Record pkt_ok (p : Packet) : Prop := {
  po_cmd : cmd p = ReadReq ∨ cmd p = WriteReq;
  po_cache : pk_cacheResponding p = false;
  po_fetch : isInstFetch p = false;
  po_start : start ≤ getAddr p;
  po_size : 0 < getSize p;
  po_end : getAddr p + getSize p ≤ start + len;
}.

(** The memory holds [m] and has a ready bit for each byte; no address is
    locked. *)
Record spm_wf (s : Spm) (m : list Z) : Prop := {
  wf_pmem : pmem s = Some m;
  wf_mem : Z.of_nat (length m) = len;
  wf_ready : Z.of_nat (length (ready s)) = len;
  wf_locked : lockedAddrList s = [];
}.

Definition pos (p : Packet) : nat := Z.to_nat (getAddr p - start).
Definition size_of (p : Packet) : nat := length (pk_data p).

Hypothesis Hr : range_ok.

Lemma pkt_bounds p : pkt_ok p → Z.of_nat (pos p) = getAddr p - start ∧ (Z.of_nat (pos p + size_of p) ≤ len).
Proof. intros []. unfold pos, size_of, getSize in *. lia. Qed.

Lemma offsets_ok p : pkt_ok p → offsets c (getAddr p) (getSize p) = (Z.of_nat (pos p), size_of p).
Proof.
  intros Hp. destruct (pkt_bounds p Hp) as [Ho Hn]. destruct Hp. destruct Hr as [Er ? ? ?]. unfold offsets. rewrite Er. cbn.
  unfold size_of, getSize in *. rewrite (wrapU_id 64 (getAddr p - start)) by (split; lia).
  rewrite wrapU_id by (split; lia). f_equal; lia.
Qed.

Lemma in_range_ok p : pkt_ok p →
  isSubset (plain (getAddr p) (u64 (getAddr p + (getSize p - 1)))) (range c) = Ok true.
Proof.
  intros []. destruct Hr as [Er ? ? ?]. rewrite Er. rewrite wrapU_id by (split; lia). rewrite isSubset_plain.
  by rewrite (proj2 (Z.leb_le _ _)), (proj2 (Z.leb_le _ _)) by lia.
Qed.

Lemma isReady_ok s m p (read : bool) : spm_wf s m → pkt_ok p → readyMode c = true →
  (if read then readOnInvalid c else writeOnValid c) = false →
  isReady c s (getAddr p) (getSize p) read
  = Ok (forallb (fun b => eqb b read) (take (size_of p) (drop (pos p) (ready s)))).
Proof.
  intros [] Hp Hm Hro. destruct (pkt_bounds p Hp). unfold isReady. rewrite Hm, (offsets_ok p Hp). cbn [negb].
  destruct read; rewrite Hro, ready_scan_ok by lia; f_equal; apply forallb_pointwise; by intros [].
Qed.

Lemma load_ok s m p : spm_wf s m → pkt_ok p →
  pkt_load c m p = Ok (set_pkdata p (take (size_of p) (drop (pos p) m))).
Proof.
  intros [] Hp. destruct (pkt_bounds p Hp). unfold pkt_load, host_off, getSize. destruct Hr as [Er _ _ _]. rewrite Er. cbn.
  rewrite mem_read_ok by (unfold size_of in *; lia). cbn. unfold size_of. by rewrite Nat2Z.id.
Qed.
Lemma store_ok s m p : spm_wf s m → pkt_ok p → pkt_store c m p = Ok (splice m (pos p) (pk_data p)).
Proof.
  intros [] Hp. destruct (pkt_bounds p Hp) as [E ?]. unfold pkt_store, host_off. destruct Hr as [Er _ _ _]. rewrite Er. cbn.
  rewrite <-E, mem_write_splice by (unfold size_of in *; lia). done.
Qed.

(** The access as a whole, on a request that must be valid or need not be. *)
Definition access_body (s : Spm) (p : Packet) (validate : bool) : outcome (Packet * Spm) :=
  let* (p, s) := match cmd p with ReadReq => access_read c s p validate | _ => access_write c s p validate end in
  if cmd_needsResponse (cmd p) then let* p := makeResponse p in Ok (p, s) else Ok (p, s).

Lemma access_unfold s p validate : pkt_ok p →
  scratchpadAccess c s p validate = access_body (set_initial s false) p validate.
Proof.
  intros Hp. unfold scratchpadAccess, access_body. rewrite (po_cache _ Hp), (in_range_ok p Hp).
  destruct (po_cmd _ Hp) as [E|E]; rewrite E; done.
Qed.

(** What the two accesses do when they are let through. *)
Lemma access_read_ok s m p (validate : bool) rdy :
  spm_wf s m → pkt_ok p → cmd p = ReadReq →
  (if validate then
     isReady c s (getAddr p) (getSize p) true = Ok true ∧
     rdy = (if resetOnScratchpadRead c then splice (ready s) (pos p) (replicate (size_of p) false) else ready s)
   else rdy = ready s) →
  access_read c s p validate
  = Ok (set_pkdata p (take (size_of p) (drop (pos p) m)), set_ready s rdy).
Proof.
  intros Hw Hp Hc Hv. unfold access_read. rewrite Hc. cmd_red; cbn [negb assert_ mbind outcome_bind].
  assert (∀ r, (let* p0 := match pmem (set_ready s r) with Some m => pkt_load c m p | None => Ok p end in
    Ok (p0, set_ready s r)) = Ok (set_pkdata p (take (size_of p) (drop (pos p) m)), set_ready s r)) as E.
  { intros r. cbn. rewrite (wf_pmem _ _ Hw), (load_ok _ _ _ Hw Hp). done. }
  destruct validate.
  - destruct Hv as [Hv ->]. rewrite Hv. cbn [mbind outcome_bind negb panic_if].
    destruct (resetOnScratchpadRead c).
    + rewrite (offsets_ok p Hp). destruct (pkt_bounds p Hp).
      rewrite ready_fill_ok by (destruct Hw; lia). cbn [mbind outcome_bind]. apply E.
    + cbn [mbind outcome_bind]. rewrite <-(E (ready s)). by destruct s.
  - rewrite Hv. cbn [mbind outcome_bind]. rewrite <-(E (ready s)). by destruct s.
Qed.

Lemma access_write_ok s m p (validate : bool) :
  spm_wf s m → pkt_ok p → cmd p = WriteReq →
  (if validate then isReady c s (getAddr p) (getSize p) false = Ok true else True) →
  access_write c s p validate
  = Ok (p, set_ready (set_pmem s (splice m (pos p) (pk_data p)))
             (if readyMode c then splice (ready s) (pos p) (replicate (size_of p) true) else ready s)).
Proof.
  intros Hw Hp Hc Hv. unfold access_write, writeOK. rewrite (wf_locked _ _ Hw), Hc.
  cmd_red; cbn [mbind outcome_bind]. rewrite (wf_pmem _ _ Hw), (store_ok _ _ _ Hw Hp).
  cbn [mbind outcome_bind]. rewrite (po_fetch _ Hp). cbn [negb assert_ mbind outcome_bind].
  change (isReady c (set_pmem s (splice m (pos p) (pk_data p)))) with (isReady c s).
  assert ((if validate then let* ok := isReady c s (getAddr p) (getSize p) false in panic_if (negb ok) else Ok tt)
    = Ok tt) as -> by (destruct validate; [by rewrite Hv|done]).
  cbn [mbind outcome_bind]. destruct (readyMode c); [|done].
  rewrite (offsets_ok p Hp). destruct (pkt_bounds p Hp). cbn [ready set_pmem set_mem].
  rewrite ready_fill_ok by (destruct Hw; lia). done.
Qed.

(** What they do when the ready bits forbid the access. *)
Lemma access_read_refused s p :
  cmd p = ReadReq → isReady c s (getAddr p) (getSize p) true = Ok false → access_read c s p true = Err Panic.
Proof.
  intros E H. unfold access_read. rewrite E. cmd_red; cbn [negb assert_ mbind outcome_bind]. by rewrite H.
Qed.
Lemma access_write_refused s m p : spm_wf s m → pkt_ok p →
  cmd p = WriteReq → isReady c s (getAddr p) (getSize p) false = Ok false → access_write c s p true = Err Panic.
Proof.
  intros Hw Hp E H. unfold access_write, writeOK. rewrite (wf_locked _ _ Hw), E.
  cmd_red; cbn [mbind outcome_bind]. rewrite (wf_pmem _ _ Hw), (store_ok _ _ _ Hw Hp).
  cbn [mbind outcome_bind]. rewrite (po_fetch _ Hp). cbn [negb assert_ mbind outcome_bind].
  change (isReady c (set_pmem s (splice m (pos p) (pk_data p)))) with (isReady c s). by rewrite H.
Qed.
End Access.

(** ** Full and empty cells *)

(** A private port sees a cell per byte, with its ready bit: full or empty. *)
Definition cells_of (s : Spm) (m : list Z) : list (bool * Z) := zip (ready s) m.

(** The abstract memory.  Reading: in ready mode all cells must be full, unless
    [readOnInvalid] is set; the values are returned and, with
    [resetOnScratchpadRead], the cells emptied.  Writing: in ready mode all
    cells must be empty, unless [writeOnValid] is set; the values are stored
    and, in ready mode, the cells are full. *)
Definition cell_access (c : SpmParams) (cells : list (bool * Z)) (p : Packet) (o : nat)
    : option (list Z * list (bool * Z)) :=
  let w := take (length (pk_data p)) (drop o cells) in
  if cmd_isRead (cmd p) then
    if readyMode c && negb (readOnInvalid c) && negb (forallb fst w) then None
    else Some (w.*2, splice cells o ((fun x => (x.1 && negb (resetOnScratchpadRead c), x.2)) <$> w))
  else if readyMode c && negb (writeOnValid c) && existsb fst w then None
  else Some (pk_data p, splice cells o (zip_with (fun x v => (readyMode c || x.1, v)) w (pk_data p))).

Section Cells.
Implicit Types (rdy : list bool) (m : list Z).

Lemma splice_same {A} (l : list A) o n : splice l o (take n (drop o l)) = l.
Proof.
  unfold splice. rewrite length_take, length_drop. etrans; [|apply (take_drop o)]. f_equal.
  etrans; [|apply (take_drop n)]. f_equal. rewrite drop_drop.
  destruct (decide (n ≤ length l - o)%nat); [f_equal; lia|]. by rewrite !drop_ge by lia.
Qed.

Lemma zip_window rdy m o n : take n (drop o (zip rdy m)) = zip (take n (drop o rdy)) (take n (drop o m)).
Proof. by rewrite zip_with_drop, zip_with_take. Qed.

Lemma zip_splice rdy m o bs xs :
  length rdy = length m → length bs = length xs → (o + length xs ≤ length m)%nat →
  zip (splice rdy o bs) (splice m o xs) = splice (zip rdy m) o (zip bs xs).
Proof.
  intros E E' Ho. unfold splice. rewrite length_zip_with, E', Nat.min_id.
  rewrite !zip_with_app by (rewrite ?length_take, ?E; lia).
  by rewrite <-zip_with_take, <-zip_with_drop.
Qed.

Lemma zip_forallb rdy m : length rdy = length m → forallb fst (zip rdy m) = forallb (fun b => eqb b true) rdy.
Proof.
  revert m. induction rdy as [|b rdy IH]; intros [|v m] E; try done. cbn in *. rewrite IH by lia. by destruct b.
Qed.
Lemma zip_existsb rdy m : length rdy = length m → existsb fst (zip rdy m) = negb (forallb (fun b => eqb b false) rdy).
Proof.
  revert m. induction rdy as [|b rdy IH]; intros [|v m] E; try done. cbn in *. rewrite IH by lia. by destruct b.
Qed.

(** The cells after a read and after a write. *)
Lemma zip_reset rdy m (reset : bool) : length rdy = length m →
  (fun x : bool * Z => (x.1 && negb reset, x.2)) <$> zip rdy m
  = zip (if reset then replicate (length m) false else rdy) m.
Proof.
  revert m. induction rdy as [|b rdy IH]; intros [|v m] E; try done; [by destruct reset|]. cbn in *.
  rewrite IH by lia. destruct reset, b; done.
Qed.
Lemma zip_filled rdy m (xs : list Z) (mode : bool) : length rdy = length m → length m = length xs →
  zip_with (fun (x : bool * Z) (v : Z) => (mode || x.1, v)) (zip rdy m) xs
  = zip (if mode then replicate (length xs) true else rdy) xs.
Proof.
  revert m xs. induction rdy as [|b rdy IH]; intros [|v m] [|x xs] E E'; try done; [by destruct mode|]. cbn in *.
  rewrite IH by lia. destruct mode; done.
Qed.
End Cells.

(** [canAccess] in every configuration. *)
Lemma isReady_cells c start len s m p : range_ok c start len → spm_wf len s m → pkt_ok start len p →
  let w := take (length (pk_data p)) (drop (pos start p) (ready s)) in
  isReady c s (getAddr p) (getSize p) true
    = Ok (negb (readyMode c && negb (readOnInvalid c) && negb (forallb (fun b => eqb b true) w))) ∧
  isReady c s (getAddr p) (getSize p) false
    = Ok (negb (readyMode c && negb (writeOnValid c) && negb (forallb (fun b => eqb b false) w))).
Proof.
  intros Hr Hw Hp w. destruct (readyMode c) eqn:Hm.
  2: { unfold isReady. by rewrite Hm. }
  split; [destruct (readOnInvalid c) eqn:E|destruct (writeOnValid c) eqn:E].
  1, 3: unfold isReady; rewrite Hm, E; cbn [negb]; by destruct (offsets _ _ _).
  - rewrite (isReady_ok c start len Hr s m p true Hw Hp Hm E). cbn. by rewrite negb_involutive.
  - rewrite (isReady_ok c start len Hr s m p false Hw Hp Hm E). cbn. by rewrite negb_involutive.
Qed.

(** C24: the private ports see full and empty cells.  In every configuration of
    the modes of the scratchpad, for a plain read or write of a private port
    inside the memory's range (no load-locked records, a backing store), the
    concrete memory, its ready bits and its response behave as the abstract
    array of cells of [cell_access]: an access the cells allow returns the
    values, and empties or fills the cells as the modes say; an access they do
    not allow is a panic; [canAccess] tells beforehand which of the two it will
    be.  With ready mode on, [readOnInvalid] and [writeOnValid] off and
    [resetOnScratchpadRead] on the cells are one-place buffers; with
    [writeOnValid] on, the default, a write to full cells is allowed. *)
Theorem private_ports_cells c start len s m p
    (Hr : range_ok c start len) (Hw : spm_wf len s m) (Hp : pkt_ok start len p) :
  match cell_access c (cells_of s m) p (pos start p) with
  | Some (d, cells) =>
      canAccess c s (getAddr p) (getSize p) (cmd_isRead (cmd p)) = Ok true ∧
      ∃ s' m', scratchpadAccess c s p true = Ok (set_cmd (set_pkdata p d) (responseCommand (cmd p)), s') ∧
        spm_wf len s' m' ∧ cells_of s' m' = cells
  | None =>
      canAccess c s (getAddr p) (getSize p) (cmd_isRead (cmd p)) = Ok false ∧
      scratchpadAccess c s p true = Err Panic
  end.
Proof.
  rewrite (access_unfold c start len) by done. unfold canAccess.
  assert (spm_wf len (set_initial s false) m) as Hw' by (by destruct Hw).
  destruct (pkt_bounds start len p Hp) as [Ho Hn].
  destruct (isReady_cells c start len s m p Hr Hw Hp) as [Hrd Hwr].
  destruct (isReady_cells c start len _ m p Hr Hw' Hp) as [Hrd' Hwr'].
  assert (length (ready s) = length m) as El by (destruct Hw; lia).
  assert (pos start p + length (pk_data p) ≤ length m)%nat as Hin by (destruct Hw; unfold size_of in *; lia).
  unfold cell_access, cells_of. rewrite zip_window. unfold access_body.
  set (rs := take (length (pk_data p)) (drop (pos start p) (ready s))) in *.
  set (vs := take (length (pk_data p)) (drop (pos start p) m)).
  assert (length vs = length (pk_data p)) as Hvs by (subst vs; rewrite length_take, length_drop; lia).
  assert (length rs = length vs) as Hrv by (subst rs; rewrite length_take, length_drop; lia).
  rewrite zip_forallb, zip_existsb, zip_reset, zip_filled, snd_zip by lia.
  destruct (po_cmd _ _ _ Hp) as [E|E]; rewrite E; cmd_red; cbn match.
  - rewrite Hrd. destruct (readyMode c && negb (readOnInvalid c) && _) eqn:Hok; cbn [negb] in *; (split; [done|]).
    { by rewrite (access_read_refused c (set_initial s false) p E Hrd'). }
    erewrite (access_read_ok c start len Hr _ m p true); [|done|done|done|by split].
    cbn [mbind outcome_bind]. unfold makeResponse. cbn [cmd set_pkdata]. rewrite E. cmd_red; cbn [assert_ mbind outcome_bind].
    eexists _, m. split; [done|]. cbn [ready set_ready set_mem set_initial]. split.
    + destruct Hw. split; try done. cbn. destruct (resetOnScratchpadRead c); [|done].
      rewrite length_splice; [done|]. rewrite length_replicate. unfold size_of. lia.
    + rewrite <-(splice_same m (pos start p) (length (pk_data p))) at 1. fold vs.
      rewrite <-zip_splice by (destruct (resetOnScratchpadRead c); rewrite ?length_replicate; lia).
      f_equal. destruct (resetOnScratchpadRead c); [by rewrite Hvs|]. subst rs. by rewrite splice_same.
  - rewrite Hwr. destruct (readyMode c && negb (writeOnValid c) && _) eqn:Hok; cbn [negb] in *; (split; [done|]).
    { by rewrite (access_write_refused c start len Hr _ m p Hw' Hp E Hwr'). }
    rewrite (access_write_ok c start len Hr _ m p true) by done.
    cbn [mbind outcome_bind]. rewrite E. cmd_red; cbn match. unfold makeResponse. rewrite E.
    cmd_red; cbn [assert_ mbind outcome_bind].
    eexists _, _. split; [by destruct p|]. cbn [ready set_ready set_mem set_initial set_pmem]. split.
    + destruct Hw. split; try done; cbn; destruct (readyMode c); rewrite ?length_splice; try done;
        unfold size_of; rewrite ?length_replicate; lia.
    + rewrite <-zip_splice by (destruct (readyMode c); rewrite ?length_replicate; lia).
      f_equal. destruct (readyMode c); [done|]. subst rs. by rewrite splice_same.
Qed.

(** ** The response queue *)

Lemma matchAddr_spec p q : matchAddr p q = true ↔ getAddr p = getAddr q ∧ isSecure p = isSecure q.
Proof. unfold matchAddr. rewrite andb_true_iff, Z.eqb_eq, eqb_true_iff. done. Qed.

(** The queued responses to accesses of the address of [k]. *)
Definition at_addr (k : Packet) (l : list Packet) : list Packet := filter (fun p => matchAddr k p = true) l.
Lemma at_addr_app k a b : at_addr k (a ++ b) = at_addr k a ++ at_addr k b.
Proof. apply filter_app. Qed.

Lemma at_addr_none k l : Forall (fun p => matchAddr k p = false) l → at_addr k l = [].
Proof. induction 1 as [|p l Hp _ IH]; [done|]. unfold at_addr in *. by rewrite filter_cons_False by congruence. Qed.

Lemma insert_after_spec q w p i : let j := insert_after q w p i in
  (j ≤ i)%nat ∧ ∀ x d, (j < x ≤ i)%nat → q !! x = Some d → matchAddr (dp_pkt d) p = false.
Proof.
  induction i as [|i [IH1 IH2]]; cbn [insert_after]; [split; [done|lia]|].
  destruct (q !! S i) as [d|] eqn:E; [|split; [done|lia]].
  destruct ((w <? dp_tick d) && negb (matchAddr (dp_pkt d) p)) eqn:B; [|split; [done|lia]].
  split; [lia|]. intros x d' Hx Hd. destruct (decide (x = S i)) as [->|]; [|by apply (IH2 x); [lia|]].
  simplify_eq. apply andb_true_iff in B as [_ B]. by apply negb_true_iff.
Qed.

(** A response is never put before one to the same address. *)
Lemma emplace_order k q d :
  at_addr k (dp_pkt <$> emplace q d) = at_addr k ((dp_pkt <$> q) ++ [dp_pkt d]).
Proof.
  destruct q as [|d0 q']; [done|]. unfold emplace. set (q := d0 :: q').
  destruct (insert_after_spec q (dp_tick d) (dp_pkt d) (length q - 1)) as [_ Hj].
  set (j := insert_after _ _ _ _) in *.
  rewrite fmap_app, fmap_cons. rewrite <-(take_drop (S j) q) at 3. rewrite fmap_app.
  rewrite <-app_assoc, !at_addr_app. f_equal.
  unfold at_addr. rewrite !filter_cons, filter_nil. case_decide as Hk.
  - fold (at_addr k (dp_pkt <$> drop (S j) q)). rewrite at_addr_none; [done|].
    apply Forall_fmap, Forall_lookup. intros i y Hi. rewrite lookup_drop in Hi.
    pose proof (lookup_lt_Some _ _ _ Hi). specialize (Hj (S j + i)%nat y ltac:(lia) Hi).
    apply not_true_iff_false. cbn. intros Hky. apply matchAddr_spec in Hk, Hky.
    assert (matchAddr (dp_pkt y) (dp_pkt d) = true) by (apply matchAddr_spec; intuition congruence). congruence.
  - by rewrite app_nil_r.
Qed.

Lemma emplace_front d0 q d : ∃ q', emplace (d0 :: q) d = d0 :: q' ∧ q' ≠ [].
Proof.
  unfold emplace. set (j := insert_after _ _ _ _). cbn [take drop app].
  eexists. split; [done|]. by destruct (take j q).
Qed.
Lemma emplace_perm q d : emplace q d ≡ₚ d :: q.
Proof.
  unfold emplace. destruct q as [|d0 q']; [done|]. rewrite <-Permutation_middle. by rewrite take_drop.
Qed.

(** ** Events *)

(** A request on a port (-1 the general one), with the time and the random
    parts of the latencies; the release event of a port; the dequeue event and
    the retry of a port that refused a response, with what the peer answers. *)
Inductive SpmEvent :=
  | SReq (now rnd1 rnd2 : Z) (p : Packet) (port : Z) (validate : bool)
  | SRelease (idx : nat)
  | SDequeue (now : Z) (accepted : bool)
  | SRespRetry (now : Z) (accepted : bool) (port : Z).

(** The new state, the requests taken, the responses delivered, the calls on
    the ports.  An event that is not scheduled does not happen; a peer may ask
    for a response at any time. *)
Definition spm_event (c : SpmParams) (s : Spm) (e : SpmEvent)
    : outcome (Spm * list Packet * list Packet * list PortCall) :=
  let delivered (acc : bool) := if acc then dp_pkt <$> take 1 (packetQueue s) else [] in
  match e with
  | SReq now rnd1 rnd2 p port validate =>
      let* (taken, s) := recvTimingReq c now rnd1 rnd2 s p port validate in
      Ok (s, if taken : bool then [p] else [], [], [])
  | SRelease idx =>
      match releaseEvent s !! idx with
      | Some (Some _) => let* (s, calls) := process_release s idx in Ok (s, [], [], calls)
      | _ => Ok (s, [], [], [])
      end
  | SDequeue now acc =>
      match dequeueEvent s with
      | Some _ => let* (s', calls) := process_dequeue now acc s in Ok (s', [], delivered acc, calls)
      | None => Ok (s, [], [], [])
      end
  | SRespRetry now acc port =>
      let* (s', calls) := recvRespRetry now acc s port in Ok (s', [], delivered acc, calls)
  end.

(** A retry of a peer whose refusal is not remembered: it has refused nothing,
    or the response it refused has been offered to it again and taken. *)
Definition stray_retry (s : Spm) (e : SpmEvent) : Prop :=
  match e with SRespRetry _ _ port => retryResp s !! Z.to_nat (port + 1) ≠ Some true | _ => False end.
(** What the vector access and the assertion of [recvRespRetry] make of it. *)
Definition stray_error (ports : nat) (e : SpmEvent) : error :=
  match e with
  | SRespRetry _ _ port => if (Z.to_nat (port + 1) <? ports)%nat then AssertFail else Undefined
  | _ => Undefined
  end.

Fixpoint spm_run (c : SpmParams) (s : Spm) (es : list SpmEvent)
    : outcome (Spm * list Packet * list Packet * list PortCall) :=
  match es with
  | [] => Ok (s, [], [], [])
  | e :: es =>
      let* (s, t, d, cs) := spm_event c s e in
      let* (s, ts, ds, css) := spm_run c s es in
      Ok (s, t ++ ts, d ++ ds, cs ++ css)
  end.

(** ** The sequential memory *)

(** The response of a memory [m] that serves one request at a time. *)
Definition seq_access (start : Z) (m : list Z) (p : Packet) : Packet * list Z :=
  let n := length (pk_data p) in
  let o := pos start p in
  if cmd_isRead (cmd p) then
    (set_cmd (set_pkdata (clear_delay p) (take n (drop o m))) (responseCommand (cmd p)), m)
  else (set_cmd (clear_delay p) (responseCommand (cmd p)), splice m o (pk_data p)).
Fixpoint seq_run (start : Z) (m : list Z) (ps : list Packet) : list Packet * list Z :=
  match ps with
  | [] => ([], m)
  | p :: ps =>
      let '(r, m) := seq_access start m p in
      let '(rs, m) := seq_run start m ps in (r :: rs, m)
  end.

Lemma seq_run_app start m ps qs :
  seq_run start m (ps ++ qs) =
  let '(rs, m) := seq_run start m ps in let '(rs', m) := seq_run start m qs in (rs ++ rs', m).
Proof.
  revert m. induction ps as [|p ps IH]; intros m; cbn [app seq_run]; [by destruct (seq_run _ _ _)|].
  destruct (seq_access start m p) as [r m1]. rewrite IH.
  destruct (seq_run start m1 ps) as [rs m2]. by destruct (seq_run start m2 qs).
Qed.

(** ** Invariant *)

Section Invariant.
Context (c : SpmParams) (start len : Z) (n : nat).
Hypothesis Hr : range_ok c start len.
Hypothesis Hmode : readyMode c = false.

Record SpmInv (s : Spm) (m : list Z) : Prop := {
  si_wf : spm_wf len s m;
  si_busy : length (isBusy s) = n;
  si_retry : length (retryReq s) = n;
  si_resp : length (retryResp s) = n;
  si_rel : length (releaseEvent s) = n;
  si_relt : length (releaseTick s) = n;
  (** A port is busy exactly while its release is scheduled. *)
  si_held : ∀ i, isBusy s !! i = Some true ↔ ∃ t, releaseEvent s !! i = Some (Some t);
  si_wait : ∀ i, retryReq s !! i = Some true → isBusy s !! i = Some true;
  si_origin : Forall (fun d => (dp_origin d < n)%nat) (packetQueue s);
  (** Only the port of the oldest response can have refused it. *)
  si_refused : ∀ j, retryResp s !! j = Some true → ∃ d, head (packetQueue s) = Some d ∧ dp_origin d = j;
  si_live : ∀ d, head (packetQueue s) = Some d → dequeueEvent s ≠ None ∨ retryResp s !! dp_origin d = Some true;
  si_event : dequeueEvent s ≠ None → packetQueue s ≠ [];
  si_event2 : dequeueEvent s ≠ None → ∀ d, head (packetQueue s) = Some d →
    retryResp s !! dp_origin d = Some true → tail (packetQueue s) ≠ [];
}.

(** The request is one the ports can be given. *)
Definition ev_ok (e : SpmEvent) : Prop :=
  match e with
  | SReq _ _ _ p port _ =>
      pkt_ok start len p ∧ 0 ≤ port + 1 < Z.of_nat n ∧ ∃ t, transfer_ticks (getSize p) (spm_bandwidth c) = Ok t
  | SRelease _ | SDequeue _ _ | SRespRetry _ _ _ => True
  end.

(** *** Requests *)

(** An access in the default mode serves the request as the sequential memory
    does. *)
Lemma access_seq s m p validate :
  spm_wf len s m → pkt_ok start len p → delay p = 0 →
  ∃ rdy, length rdy = length (ready s) ∧
    scratchpadAccess c s p validate
    = Ok ((seq_access start m p).1, set_mem s rdy false (Some (seq_access start m p).2) []).
Proof.
  intros Hw Hp Hd. rewrite (access_unfold c start len) by done.
  assert (spm_wf len (set_initial s false) m) as Hw' by (by destruct Hw).
  assert (∀ read, isReady c (set_initial s false) (getAddr p) (getSize p) read = Ok true) as Hrd
    by (intros; unfold isReady; by rewrite Hmode).
  assert (clear_delay p = p) as Ecd by (destruct p; cbn in *; by subst).
  destruct (pkt_bounds start len p Hp) as [Ho Hn]. unfold access_body, seq_access. rewrite Ecd.
  destruct (po_cmd _ _ _ Hp) as [E|E]; rewrite E.
  - set (rdy := if validate then
        if resetOnScratchpadRead c then splice (ready s) (pos start p) (replicate (size_of p) false) else ready s
      else ready s).
    rewrite (access_read_ok c start len Hr _ m p validate rdy); [|done|done|done|by destruct validate].
    cbn [mbind outcome_bind cmd set_pkdata]. rewrite E. cmd_red; cbn match. unfold makeResponse.
    cbn [cmd set_pkdata]. rewrite E. cbn. exists rdy. split.
    + subst rdy. destruct validate; [|done]. destruct (resetOnScratchpadRead c); [|done].
      rewrite length_splice; [done|]. rewrite length_replicate. destruct Hw. unfold size_of in *. lia.
    + unfold set_ready, set_initial. cbn. by rewrite (wf_pmem _ _ _ Hw), (wf_locked _ _ _ Hw).
  - rewrite (access_write_ok c start len Hr _ m p validate); [|done|done|done|by destruct validate].
    cbn [mbind outcome_bind]. rewrite E. cmd_red; cbn match. unfold makeResponse. rewrite E, Hmode. cbn.
    exists (ready s). split; [done|]. unfold set_ready, set_pmem, set_initial. cbn. by rewrite (wf_locked _ _ _ Hw).
Qed.
Lemma refused_none s m : SpmInv s m → packetQueue s = [] → ∀ j, retryResp s !! j ≠ Some true.
Proof. intros HI Hq j Hj. apply (si_refused _ _ HI) in Hj as (d & Hd & _). by rewrite Hq in Hd. Qed.

Lemma hold_ok s m idx now t :
  SpmInv s m → isBusy s !! idx = Some false →
  ∃ s', hold_port s idx now t = Ok s' ∧ SpmInv s' m ∧ packetQueue s' = packetQueue s ∧
    dequeueEvent s' = dequeueEvent s ∧ retryResp s' = retryResp s ∧ retryReq s' = retryReq s.
Proof.
  intros HI Hb. unfold hold_port. destruct (negb (t =? 0)); [|by exists s].
  pose proof HI as [Hw L1 L2 L3 L4 L5 Hh Hwt Ho Hrf Hl He He2]. pose proof (lookup_lt_Some _ _ _ Hb) as Hlt.
  destruct (releaseEvent s !! idx) as [ev|] eqn:Ev; [|apply lookup_ge_None in Ev; lia].
  destruct ev as [t0|]; [pose proof (proj2 (Hh idx) (ex_intro _ _ Ev)); congruence|].
  unfold vec_get. rewrite Ev. cbn [mbind outcome_bind schedule]. unfold vec_set.
  rewrite !(proj2 (Nat.ltb_lt _ _)) by lia. cbn [mbind outcome_bind]. eexists. split; [done|]. split; [|done].
  split; cbn; rewrite ?length_insert; try done.
  - by destruct Hw.
  - intros i. destruct (decide (i = idx)) as [->|Hne].
    + rewrite !list_lookup_insert_eq by lia. split; [by eexists|done].
    + by rewrite !list_lookup_insert_ne by done.
  - intros i Hi. destruct (decide (i = idx)) as [->|Hne]; [by rewrite list_lookup_insert_eq by lia|].
    rewrite list_lookup_insert_ne by done. by apply Hwt.
Qed.

Lemma set_mem_inv s m rdy b m' :
  SpmInv s m → length rdy = length (ready s) → length m' = length m → SpmInv (set_mem s rdy b (Some m') []) m'.
Proof. intros [[] ? ? ? ? ? ? ? ? ? ? ? ?] E E'. split; try done. split; cbn; congruence. Qed.

Lemma spm_enqueue_inv s m d :
  SpmInv s m → (dp_origin d < n)%nat →
  ∃ rr, retryResp s !! dp_origin d = Some rr ∧
    SpmInv (set_queue s (emplace (packetQueue s) d)
      (match dequeueEvent s with
       | None => if negb rr then option_map dp_tick (last (emplace (packetQueue s) d)) else None
       | ev => ev end)) m.
Proof.
  intros HI Hd. pose proof HI as [Hw L1 L2 L3 L4 L5 Hh Hwt Ho Hrf Hl He He2].
  destruct (retryResp s !! dp_origin d) as [rr|] eqn:Err; [|apply lookup_ge_None in Err; lia].
  exists rr. split; [done|]. destruct (packetQueue s) as [|d0 q] eqn:Eq.
  - assert (dequeueEvent s = None) as -> by (destruct (dequeueEvent s); [by destruct He|done]).
    pose proof (refused_none s m HI Eq) as Hno. destruct rr; [by destruct (Hno (dp_origin d))|].
    split; cbn; try done; [by destruct Hw|by apply Forall_singleton|..].
    + intros j Hj. by apply Hno in Hj.
    + intros d' [= <-]. by left.
    + intros _ d' [= <-]. congruence.
  - destruct (emplace_front d0 q d) as (q' & Eq' & Hne). rewrite Eq'.
    assert (Forall (fun d => (dp_origin d < n)%nat) (d0 :: q')) as Ho'.
    { rewrite <-Eq', (emplace_perm (d0 :: q) d). by constructor. }
    specialize (Hl d0 eq_refl).
    split; cbn; try done; [by destruct Hw|].
    + intros d' [= <-]. destruct (dequeueEvent s); [by left|]. destruct Hl as [?|Hl]; [done|].
      destruct rr; [by right|left]. cbn. destruct (last (d0 :: q')) eqn:El; [done|by apply last_None in El].
Qed.

(** *** Responses *)

Lemma dequeue_inv s m d q ev0 now acc :
  SpmInv s m → packetQueue s = d :: q → (ev0 ≠ None → q ≠ []) →
  ∃ s', dequeue now acc (set_queue s (d :: q) ev0) = Ok (s', [SendTimingResp (dp_origin d) (dp_pkt d)]) ∧
    SpmInv s' m ∧ packetQueue s' = if acc then q else d :: q.
Proof.
  intros HI Hq Hev. pose proof HI as [Hw L1 L2 L3 L4 L5 Hh Hwt Ho Hrf Hl He He2]. rewrite Hq in Ho, Hrf.
  apply Forall_cons in Ho as [Hd Ho]. unfold dequeue. cbn [packetQueue set_queue]. unfold vec_set.
  rewrite (proj2 (Nat.ltb_lt _ _)) by (cbn; lia). cbn [mbind outcome_bind].
  assert (∀ b j, <[dp_origin d := b]> (retryResp s) !! j = Some true → b = true ∧ j = dp_origin d) as Honly.
  { intros b j Hj. destruct (decide (j = dp_origin d)) as [->|Hne].
    - rewrite list_lookup_insert_eq in Hj by lia. by simplify_eq.
    - rewrite list_lookup_insert_ne in Hj by done. apply Hrf in Hj as (d' & [= <-] & ?). congruence. }
  destruct acc; cbn [negb].
  - destruct q as [|d' q]; eexists; (split; [reflexivity|]); (split; [|reflexivity]).
    + assert (ev0 = None) as -> by (destruct ev0; [by destruct Hev|done]).
      split; cbn; rewrite ?length_insert; try done; [by destruct Hw|].
      intros j Hj. by apply Honly in Hj as [? _].
    + split; cbn; rewrite ?length_insert; try done; [by destruct Hw|..].
      * intros j Hj. by apply Honly in Hj as [? _].
      * intros d'' [= <-]. by left.
      * intros _ d'' [= <-] Hj. by apply Honly in Hj as [? _].
  - eexists. split; [reflexivity|]. split; [|reflexivity].
    split; cbn; rewrite ?length_insert; try done; [by destruct Hw|by constructor|..].
    + intros j Hj. apply Honly in Hj as [_ ->]. by exists d.
    + intros d'' [= <-]. right. by rewrite list_lookup_insert_eq by lia.
    + intros Hev' d'' [= <-] _. by apply Hev.
Qed.

(** *** Release *)

(** A port that the loop of [release] leaves alone. *)
Definition settled (s : Spm) (i : nat) : Prop :=
  ∃ ev b, releaseEvent s !! i = Some ev ∧ isBusy s !! i = Some b ∧ (ev = None → b = false).

Lemma release_settled s idxs : Forall (settled s) idxs → release_loop s idxs = Ok (s, []).
Proof.
  induction 1 as [|i idxs (ev & b & E1 & E2 & Hb) _ IH]; [done|]. cbn [release_loop]. unfold release_port, vec_get.
  rewrite E1, E2. cbn [mbind outcome_bind].
  destruct ev; [|rewrite (Hb eq_refl), andb_false_r]; cbn [mbind outcome_bind andb]; [rewrite bool_decide_false by done; cbn|];
    by rewrite IH.
Qed.

Lemma release_loop_app s a b :
  release_loop s (a ++ b) =
  (let* (s, cs) := release_loop s a in let* (s, cs') := release_loop s b in Ok (s, cs ++ cs')).
Proof.
  revert s. induction a as [|i a IH]; intros s; cbn [app release_loop].
  { cbn [mbind outcome_bind]. destruct (release_loop s b) as [[s' cs']|]; done. }
  destruct (release_port s i) as [[s1 cs]|]; [|done]. cbn [mbind outcome_bind]. rewrite IH.
  destruct (release_loop s1 a) as [[s2 cs2]|]; [|done]. cbn [mbind outcome_bind].
  destruct (release_loop s2 b) as [[s3 cs3]|]; [|done]. cbn [mbind outcome_bind]. by rewrite app_assoc.
Qed.

(** The state once port [idx] is free. *)
Definition freed (s : Spm) (idx : nat) : Spm :=
  set_ports s (<[idx:=false]> (isBusy s)) (<[idx:=false]> (retryReq s)) (retryResp s)
    (<[idx:=None]> (releaseEvent s)) (releaseTick s).

Lemma freed_inv s m idx : SpmInv s m → (idx < n)%nat → SpmInv (freed s idx) m.
Proof.
  intros [Hw L1 L2 L3 L4 L5 Hh Hwt Ho Hrf Hl He He2] Hi. split; cbn; rewrite ?length_insert; try done; [by destruct Hw|..].
  - intros i. destruct (decide (i = idx)) as [->|Hne].
    + rewrite !list_lookup_insert_eq by lia. split; [done|]. intros [t [=]].
    + by rewrite !list_lookup_insert_ne by done.
  - intros i. destruct (decide (i = idx)) as [->|Hne]; [by rewrite list_lookup_insert_eq by lia|].
    rewrite !list_lookup_insert_ne by done. apply Hwt.
Qed.

Lemma spm_release_ok s m idx t :
  SpmInv s m → releaseEvent s !! idx = Some (Some t) →
  ∃ r : bool, retryReq s !! idx = Some r ∧
    process_release s idx = Ok (freed s idx, if r then [SendRetryReq idx] else []) ∧ SpmInv (freed s idx) m.
Proof.
  intros HI Ht. pose proof (lookup_lt_Some _ _ _ Ht) as Hlt.
  pose proof HI as [Hw L1 L2 L3 L4 L5 Hh Hwt _ _ _ _ _]. rewrite L4 in Hlt.
  destruct (retryReq s !! idx) as [r|] eqn:Er; [|apply lookup_ge_None in Er; lia].
  exists r. split; [done|]. split; [|by apply freed_inv].
  unfold process_release, vec_set. rewrite (proj2 (Nat.ltb_lt _ _)) by lia. cbn [mbind outcome_bind].
  set (s1 := set_ports s _ _ _ _ _). unfold release. cbn [isBusy s1 set_ports]. rewrite L1.
  replace (seq 0 n) with (seq 0 idx ++ idx :: seq (S idx) (n - S idx)).
  2: { replace n with (idx + S (n - S idx))%nat at 2 by lia. by rewrite seq_app. }
  assert (∀ s2 i, i ≠ idx → (i < n)%nat → (∀ j, j ≠ idx → releaseEvent s2 !! j = releaseEvent s !! j) →
    (∀ j, j ≠ idx → isBusy s2 !! j = isBusy s !! j) → settled s2 i) as Hset.
  { intros s2 i Hne Hi E1 E2. unfold settled. rewrite E1, E2 by done.
    destruct (releaseEvent s !! i) as [ev|] eqn:Ev; [|apply lookup_ge_None in Ev; lia].
    destruct (isBusy s !! i) as [b|] eqn:Eb; [|apply lookup_ge_None in Eb; lia].
    exists ev, b. split_and!; [done|done|]. intros ->. destruct b; [|done].
    destruct (proj1 (Hh i) Eb) as [t' E]. congruence. }
  rewrite release_loop_app, release_settled.
  2: { apply Forall_seq. intros j Hj. apply Hset; [lia|lia|intros; cbn; by rewrite ?list_lookup_insert_ne..]. }
  cbn [mbind outcome_bind release_loop]. unfold release_port, vec_get, vec_set. cbn [s1 releaseEvent isBusy retryReq set_ports].
  rewrite list_lookup_insert_eq by lia. rewrite (proj2 (Hh idx) (ex_intro _ _ Ht)). cbn [mbind outcome_bind].
  rewrite bool_decide_true by done. cbn [andb].
  rewrite (proj2 (Nat.ltb_lt idx (length (isBusy s)))) by lia. cbn [mbind outcome_bind].
  cbn [retryReq set_ports isBusy]. rewrite Er. cbn [mbind outcome_bind].
  assert (∀ s2, s2 = freed s idx → release_loop s2 (seq (S idx) (n - S idx)) = Ok (s2, [])) as Hrest.
  { intros s2 ->. apply release_settled, Forall_seq. intros j Hj.
    apply Hset; [lia|lia|intros; cbn; by rewrite ?list_lookup_insert_ne..]. }
  destruct r.
  - rewrite (proj2 (Nat.ltb_lt _ _)) by (cbn; lia). cbn [mbind outcome_bind]. by rewrite Hrest.
  - cbn [mbind outcome_bind].
    assert (set_ports s1 (<[idx:=false]> (isBusy s)) (retryReq s) (retryResp s1)
      (<[idx:=None]> (releaseEvent s)) (releaseTick s1) = freed s idx) as ->.
    { unfold freed. by rewrite (list_insert_id (retryReq s)). }
    by rewrite Hrest.
Qed.

(** *** All events *)

(** What an event does to the responses and to memory. *)
Definition serves (s : Spm) (m : list Z) (taken delivered : list Packet) (s' : Spm) (m' : list Z) : Prop :=
  m' = (seq_run start m taken).2 ∧
  ∀ k, at_addr k (delivered ++ (dp_pkt <$> packetQueue s'))
       = at_addr k ((dp_pkt <$> packetQueue s) ++ (seq_run start m taken).1).

Lemma serves_nil s m s' : packetQueue s' = packetQueue s → serves s m [] [] s' m.
Proof. intros E. split; [done|]. intros k. cbn. by rewrite E, app_nil_r. Qed.

Lemma seq_access_length m p : pkt_ok start len p → Z.of_nat (length m) = len →
  length (seq_access start m p).2 = length m.
Proof.
  intros Hp Hm. destruct (pkt_bounds start len p Hp). unfold seq_access. destruct (cmd_isRead _); [done|]. cbn.
  apply length_splice. unfold size_of in *. lia.
Qed.

Lemma spm_req_ok s m now rnd1 rnd2 p port validate :
  SpmInv s m → ev_ok (SReq now rnd1 rnd2 p port validate) →
  let idx := Z.to_nat (port + 1) in
  ∃ taken s' m', recvTimingReq c now rnd1 rnd2 s p port validate = Ok (taken, s') ∧ SpmInv s' m' ∧
    serves s m (if taken : bool then [p] else []) [] s' m' ∧
    (taken = negb (default true (isBusy s !! idx))) ∧ (taken = false → retryReq s' !! idx = Some true).
Proof.
  intros HI (Hp & Hport & t & Ht) idx. pose proof HI as [Hw L1 L2 L3 L4 L5 Hh Hwt Ho Hrf Hl He He2].
  assert (idx < n)%nat as Hidx by (subst idx; lia).
  destruct (isBusy s !! idx) as [busy|] eqn:Eb; [|apply lookup_ge_None in Eb; lia].
  destruct (retryReq s !! idx) as [retry|] eqn:Er; [|apply lookup_ge_None in Er; lia].
  unfold recvTimingReq. rewrite (po_cache _ _ _ Hp). cbn [panic_if mbind outcome_bind].
  assert (cmd_isRead (cmd p) || cmd_isWrite (cmd p) = true) as -> by (destruct (po_cmd _ _ _ Hp) as [-> | ->]; done).
  cbn [negb panic_if mbind outcome_bind]. unfold vec_get. fold idx. rewrite Er. cbn [mbind outcome_bind].
  destruct retry.
  { specialize (Hwt _ Er). exists false, s, m. simplify_eq.
    split_and!; [done|done|by apply serves_nil|done|done]. }
  rewrite Eb. cbn [mbind outcome_bind]. destruct busy.
  { unfold vec_set. rewrite (proj2 (Nat.ltb_lt _ _)) by lia. cbn [mbind outcome_bind].
    exists false, (set_retryReq s (<[idx:=true]> (retryReq s))), m.
    split_and!; [done| |by apply serves_nil|done|intros _; cbn; by rewrite list_lookup_insert_eq by lia].
    split; cbn; rewrite ?length_insert; try done; [by destruct Hw|].
    intros i. destruct (decide (i = idx)) as [->|]; [done|]. rewrite list_lookup_insert_ne by done. apply Hwt. }
  change (getSize (clear_delay p)) with (getSize p). rewrite Ht. cbn [mbind outcome_bind].
  destruct (hold_ok s m idx now t HI Eb) as (s1 & -> & HI1 & Eq & Ed & Err & _). cbn [mbind outcome_bind].
  unfold recvAtomic. change (pk_cacheResponding (clear_delay p)) with (pk_cacheResponding p).
  rewrite (po_cache _ _ _ Hp). cbn [panic_if mbind outcome_bind].
  assert (pkt_ok start len (clear_delay p)) as Hp' by (by destruct Hp).
  destruct (access_seq s1 m (clear_delay p) validate (si_wf _ _ HI1) Hp' eq_refl) as (rdy & Hrl & ->).
  cbn [mbind outcome_bind]. change (seq_access start m (clear_delay p)) with (seq_access start m p).
  assert (cmd_needsResponse (cmd (clear_delay p)) = true) as ->
    by (cbn; destruct (po_cmd _ _ _ Hp) as [-> | ->]; done).
  assert (cmd_isResponse (cmd (seq_access start m p).1) = true) as ->.
  { unfold seq_access. destruct (po_cmd _ _ _ Hp) as [E|E]; rewrite E; done. }
  cbn [assert_ mbind outcome_bind].
  pose proof (seq_access_length m p Hp (wf_mem _ _ _ Hw)) as Hml.
  pose proof (set_mem_inv s1 m rdy false _ HI1 Hrl Hml) as HI2. set (s2 := set_mem s1 rdy false _ _) in *.
  set (d := mkDeferred _ (seq_access start m p).1 idx).
  destruct (spm_enqueue_inv s2 _ d HI2 Hidx) as (rr & Er2 & HI3).
  change (dp_origin d) with idx in Er2. unfold vec_get. rewrite Er2. cbn [mbind outcome_bind].
  eexists true, _, _. split_and!; [reflexivity|exact HI3| |done|done].
  split; [cbn; by destruct (seq_access start m p)|]. intros k.
  etrans; [exact (emplace_order k (packetQueue s2) d)|]. change (packetQueue s2) with (packetQueue s1). rewrite Eq.
  cbn. by destruct (seq_access start m p).
Qed.

Lemma delivered_serves s m d q s' (acc : bool) :
  packetQueue s = d :: q → packetQueue s' = (if acc then q else d :: q) →
  serves s m [] (if acc then dp_pkt <$> take 1 (packetQueue s) else []) s' m.
Proof.
  intros Eq Eq'. split; [done|]. intros k. cbn [seq_run fst]. rewrite app_nil_r, Eq, Eq'. by destruct acc.
Qed.

Lemma spm_event_ok s m e :
  SpmInv s m → ev_ok e → ¬ stray_retry s e →
  ∃ s' m' taken delivered calls, spm_event c s e = Ok (s', taken, delivered, calls) ∧
    SpmInv s' m' ∧ serves s m taken delivered s' m'.
Proof.
  intros HI Hev Hst. destruct e as [now r1 r2 p port v|idx|now acc|now acc port]; cbn [spm_event].
  - destruct (spm_req_ok s m now r1 r2 p port v HI Hev) as (taken & s' & m' & -> & HI' & Hs & _).
    cbn [mbind outcome_bind]. by eexists s', m', _, _, _.
  - destruct (releaseEvent s !! idx) as [[t|]|] eqn:Et; [|by eexists s, m, _, _, _; split_and!; [done|done|apply serves_nil]..].
    destruct (spm_release_ok s m idx t HI Et) as (r & _ & -> & HI'). cbn [mbind outcome_bind].
    eexists _, m, _, _, _. split_and!; [done|done|by apply serves_nil].
  - destruct (dequeueEvent s) as [t|] eqn:Et; [|by eexists s, m, _, _, _; split_and!; [done|done|apply serves_nil]].
    destruct (packetQueue s) as [|d q] eqn:Eq; [destruct (si_event _ _ HI); congruence|]. rewrite <-Eq.
    unfold process_dequeue. rewrite Eq.
    destruct (dequeue_inv s m d q None now acc HI Eq) as (s' & -> & HI' & Eq'); [done|]. cbn [mbind outcome_bind].
    eexists s', m, _, _, _. split_and!; [done|done|]. rewrite <-Eq. by eapply delivered_serves.
  - assert (retryResp s !! Z.to_nat (port + 1) = Some true) as Er.
    { cbn in Hst. by destruct (decide (retryResp s !! Z.to_nat (port + 1) = Some true)). }
    destruct (si_refused _ _ HI _ Er) as (d & Hd & Ho). destruct (packetQueue s) as [|d0 q] eqn:Eq; [done|].
    injection Hd as ->. unfold recvRespRetry, vec_get. rewrite Er. cbn [mbind outcome_bind assert_].
    destruct (dequeue_inv s m d q (dequeueEvent s) now acc HI Eq) as (s' & HD & HI' & Eq').
    { intros Hne. pose proof (si_event2 _ _ HI Hne d) as H2. rewrite Eq, Ho in H2. by apply H2. }
    assert (set_queue s (d :: q) (dequeueEvent s) = s) as E by (destruct s; cbn in *; by subst).
    rewrite E in HD. rewrite HD. cbn [mbind outcome_bind].
    eexists s', m, _, _, _. split_and!; [done|done|]. rewrite <-Eq. by eapply delivered_serves.
Qed.

Lemma spm_event_stray s m e : SpmInv s m → stray_retry s e → spm_event c s e = Err (stray_error n e).
Proof.
  intros HI Hst. destruct e as [|idx|now acc|now acc port]; try done. cbn [spm_event stray_error stray_retry] in *. unfold recvRespRetry, vec_get.
  destruct (Nat.ltb_spec (Z.to_nat (port + 1)) n) as [Hlt|Hge].
  - rewrite <-(si_resp _ _ HI) in Hlt. apply lookup_lt_is_Some in Hlt as [b Hb]. rewrite Hb in *.
    destruct b; [by destruct Hst|done].
  - rewrite <-(si_resp _ _ HI) in Hge. apply lookup_ge_None in Hge. by rewrite Hge.
Qed.

Lemma serves_app s m t1 d1 s1 m1 t2 d2 s2 m2 :
  serves s m t1 d1 s1 m1 → serves s1 m1 t2 d2 s2 m2 → serves s m (t1 ++ t2) (d1 ++ d2) s2 m2.
Proof.
  intros [-> H1] [-> H2]. unfold serves. rewrite seq_run_app.
  destruct (seq_run start m t1) as [r1 m1]. cbn [snd fst] in *.
  destruct (seq_run start m1 t2) as [r2 m2]. cbn [snd fst] in *. split; [done|]. intros k.
  specialize (H1 k). specialize (H2 k). rewrite !at_addr_app in *. rewrite <-app_assoc, H2, app_assoc, H1.
  by rewrite <-app_assoc.
Qed.

(** A run goes on to its end or up to a stray retry. *)
Lemma spm_run_ok es : ∀ s m,
  SpmInv s m → Forall ev_ok es →
  (∃ s' m' taken delivered calls, spm_run c s es = Ok (s', taken, delivered, calls) ∧
    SpmInv s' m' ∧ serves s m taken delivered s' m') ∨
  (∃ es1 e es2 s' m' taken delivered calls, es = es1 ++ e :: es2 ∧
    spm_run c s es1 = Ok (s', taken, delivered, calls) ∧ SpmInv s' m' ∧ serves s m taken delivered s' m' ∧
    stray_retry s' e ∧ spm_run c s es = Err (stray_error n e)).
Proof.
  induction es as [|e es IH]; intros s m HI Hes.
  { left. eexists s, m, _, _, _. split_and!; [done|done|by apply serves_nil]. }
  apply Forall_cons in Hes as [He Hes].
  assert (stray_retry s e ∨ ¬ stray_retry s e) as [Hst|Hst].
  { destruct e as [|idx|now acc|now acc port]; [right; by intros []..|]. cbn.
    destruct (decide (retryResp s !! Z.to_nat (port + 1) = Some true)) as [E|E]; [right|left; exact E].
    intros Hn. by apply Hn. }
  { right. eexists [], e, es, s, m, [], [], []. split_and!; [done|done|done|by apply serves_nil|done|].
    cbn [spm_run]. by rewrite (spm_event_stray s m e HI Hst). }
  destruct (spm_event_ok s m e HI He Hst) as (s1 & m1 & t1 & d1 & c1 & Ev & HI1 & S1).
  destruct (IH s1 m1 HI1 Hes) as [(s2 & m2 & t2 & d2 & c2 & HR & HI2 & S2)
    |(es1 & e2 & es2 & s2 & m2 & t2 & d2 & c2 & -> & HR & HI2 & S2 & Hst2 & HE)].
  - left. eexists s2, m2, _, _, _. cbn [spm_run]. rewrite Ev. cbn [mbind outcome_bind]. rewrite HR.
    split_and!; [done|done|by eapply serves_app].
  - right. eexists (e :: es1), e2, es2, s2, m2, _, _, _. cbn [spm_run app]. rewrite Ev. cbn [mbind outcome_bind].
    rewrite HR, HE. split_and!; [done|done|done|by eapply serves_app|done|done].
Qed.

End Invariant.

(** ** A new memory *)

(** A scratchpad with [k] private ports. *)
Definition spm_boot (c : SpmParams) (uninit : list bool) (m : list Z) (k : nat) : Spm :=
  foldl attach_port (ScratchpadMemory_new c uninit (Some m)) (seq 0 k).

Lemma boot_ports c uninit m k :
  let s := spm_boot c uninit m k in
  ready s = ready (ScratchpadMemory_new c uninit (Some m)) ∧ pmem s = Some m ∧ lockedAddrList s = [] ∧
  packetQueue s = [] ∧ dequeueEvent s = None ∧ isBusy s = replicate (S k) false ∧
  retryReq s = replicate (S k) false ∧ retryResp s = replicate (S k) false ∧
  releaseEvent s = replicate (S k) None ∧ releaseTick s = replicate (S k) 0 ∧ length (spm_ports s) = k.
Proof.
  unfold spm_boot. induction k as [|k IH]; [by split_and!|].
  rewrite seq_S, foldl_snoc. cbn [Nat.add]. revert IH.
  generalize (foldl attach_port (ScratchpadMemory_new c uninit (Some m)) (seq 0 k)) as s0.
  intros s0 (E1 & E2 & E3 & E4 & E5 & E6 & E7 & E8 & E9 & E10 & E11).
  unfold attach_port. rewrite E11, Nat.leb_refl. cbn [ready pmem lockedAddrList packetQueue dequeueEvent
    isBusy retryReq retryResp releaseEvent releaseTick spm_ports].
  rewrite E6, E7, E8, E9, E10. replace (k + 2)%nat with (S (S k)) by lia.
  rewrite !resize_replicate, length_insert, length_resize. split_and!; try done. lia.
Qed.

Lemma replicate_true n i : replicate n false !! i ≠ Some true.
Proof. intros H. apply lookup_replicate in H as [? _]. done. Qed.

Lemma spm_boot_inv c start len uninit m k :
  range_ok c start len → Z.of_nat (length m) = len → SpmInv len (S k) (spm_boot c uninit m k) m.
Proof.
  intros [Er ? ? ?] Hm. destruct (boot_ports c uninit m k) as (E1 & E2 & E3 & E4 & E5 & E6 & E7 & E8 & E9 & E10 & _).
  split; rewrite ?E4, ?E5, ?E6, ?E7, ?E8, ?E9, ?E10, ?length_replicate; try done.
  - split; [done|done| |done]. rewrite E1. cbn [ready ScratchpadMemory_new]. rewrite Er. unfold ar_size. cbn.
    rewrite wrapU_id by (split; lia). rewrite Z.shiftr_0_r.
    destruct (readyMode c); rewrite ?length_replicate, ?length_resize; lia.
  - intros i. split; [intros Hi; by apply replicate_true in Hi|].
    intros [t Ht]. apply lookup_replicate in Ht as [? _]. done.
  - intros i Hi. by apply replicate_true in Hi.
Qed.

(** ** The properties *)

(** The run [es] ends in [s]; the requests it took were served by the memory [m]
    one at a time in their order, and for every address the responses delivered
    and those queued are the responses of that memory in its order. *)
Definition served_in_order (c : SpmParams) (start : Z) (m : list Z) (s0 : Spm) (es : list SpmEvent) (s : Spm) : Prop :=
  ∃ taken delivered calls,
    spm_run c s0 es = Ok (s, taken, delivered, calls) ∧
    pmem s = Some (seq_run start m taken).2 ∧
    ∀ p, at_addr p (delivered ++ (dp_pkt <$> packetQueue s)) = at_addr p (seq_run start m taken).1.

(** C25: the scratchpad is one memory, and keeps the order of each address.
    Take a scratchpad in its default mode (ready mode off) with any number of
    private ports and any sequence of plain requests on its ports, releases,
    deliveries, refusals and retries of responses.  It runs without a panic or
    failed assertion to its end, or up to a retry for a response that is no
    longer remembered as refused, where [recvRespRetry] fails its assertion.
    The requests it took are served as by a memory that serves them one at a
    time in that order; and for every address the responses delivered, followed
    by those still queued, are exactly the responses of that memory, in its
    order, however the queue reorders other responses by time.  Such a retry can
    come from a well-behaved peer: [response_offered_before_retry] below. *)
Theorem scratchpad_serves_in_order c start len uninit m k es
    (Hr : range_ok c start len) (Hmode : readyMode c = false) (Hm : Z.of_nat (length m) = len)
    (Hes : Forall (ev_ok c start len (S k)) es) :
  let s0 := spm_boot c uninit m k in
  (∃ s, served_in_order c start m s0 es s) ∨
  (∃ es1 e es2 s, es = es1 ++ e :: es2 ∧ served_in_order c start m s0 es1 s ∧ stray_retry s e ∧
    spm_run c s0 es = Err (stray_error (S k) e)).
Proof.
  intros s0. pose proof (spm_boot_inv c start len uninit m k Hr Hm) as HI. fold s0 in HI.
  assert (∀ es' s m' t d cs, spm_run c s0 es' = Ok (s, t, d, cs) → SpmInv len (S k) s m' →
    serves start s0 m t d s m' → served_in_order c start m s0 es' s) as Hdone.
  { intros es' s m' t d cs HR HI' [Em Hs]. exists t, d, cs. split; [done|]. split; [by rewrite <-Em; apply HI'|].
    intros p. rewrite Hs. destruct (boot_ports c uninit m k) as (_ & _ & _ & E & _). fold s0 in E. by rewrite E. }
  destruct (spm_run_ok c start len (S k) Hr Hmode es _ _ HI Hes)
    as [(s & m' & t & d & cs & HR & HI' & Hs)|(es1 & e & es2 & s & m' & t & d & cs & -> & HR & HI' & Hs & Hst & HE)].
  - left. exists s. by eapply Hdone.
  - right. exists es1, e, es2, s. split_and!; try done. by eapply Hdone.
Qed.

(** C26: nobody waits for ever at the scratchpad.  After any run as in the
    previous theorem, a port whose request was refused has its release event
    scheduled; that event sends it, and only it, a retry, and then its next
    request is taken.  And as long as responses are queued, either the dequeue
    event is scheduled or the peer of the oldest response owes a retry; both
    offer that response to its port, and once it is accepted it leaves the
    queue. *)
Theorem scratchpad_live c start len uninit m k es s taken delivered calls
    (Hr : range_ok c start len) (Hmode : readyMode c = false) (Hm : Z.of_nat (length m) = len)
    (Hes : Forall (ev_ok c start len (S k)) es)
    (HR : spm_run c (spm_boot c uninit m k) es = Ok (s, taken, delivered, calls)) :
  (∀ idx, retryReq s !! idx = Some true →
    ∃ t s', releaseEvent s !! idx = Some (Some t) ∧ process_release s idx = Ok (s', [SendRetryReq idx]) ∧
      ∀ now r1 r2 p v, ev_ok c start len (S k) (SReq now r1 r2 p (Z.of_nat idx - 1) v) →
        ∃ s'', recvTimingReq c now r1 r2 s' p (Z.of_nat idx - 1) v = Ok (true, s'')) ∧
  (∀ d q, packetQueue s = d :: q →
    (dequeueEvent s ≠ None ∨ retryResp s !! dp_origin d = Some true) ∧
    ∀ now, ∃ s', packetQueue s' = q ∧
      if retryResp s !! dp_origin d is Some true
      then recvRespRetry now true s (Z.of_nat (dp_origin d) - 1) = Ok (s', [SendTimingResp (dp_origin d) (dp_pkt d)])
      else process_dequeue now true s = Ok (s', [SendTimingResp (dp_origin d) (dp_pkt d)])).
Proof.
  pose proof (spm_boot_inv c start len uninit m k Hr Hm) as HI0.
  destruct (spm_run_ok c start len (S k) Hr Hmode es _ _ HI0 Hes)
    as [(s0 & m' & ? & ? & ? & HR' & HI & _)|(? & ? & ? & ? & ? & ? & ? & ? & _ & _ & _ & _ & _ & HR')]; [|congruence].
  rewrite HR in HR'. injection HR' as <- _ _ _. split.
  - intros idx Hi. pose proof (si_wait _ _ _ _ HI idx Hi) as Hb. apply (si_held _ _ _ _ HI) in Hb as [t Ht].
    destruct (spm_release_ok len (S k) s m' idx t HI Ht) as (r & Er & HP & HI'). rewrite Hi in Er. injection Er as <-.
    exists t, (freed s idx). split_and!; [done|done|]. intros now r1 r2 p v Hev.
    destruct (spm_req_ok c start len (S k) Hr Hmode (freed s idx) m' now r1 r2 p _ v HI' Hev)
      as (tk & s' & m'' & Hreq & _ & _ & Htk & _).
    replace (Z.to_nat (Z.of_nat idx - 1 + 1)) with idx in Htk by lia. cbn [isBusy freed set_ports] in Htk.
    rewrite list_lookup_insert_eq in Htk by (rewrite (si_busy _ _ _ _ HI), <-(si_rel _ _ _ _ HI); by eapply lookup_lt_Some).
    subst tk. by exists s'.
  - intros d q Hq. split; [apply (si_live _ _ _ _ HI); by rewrite Hq|]. intros now.
    destruct (retryResp s !! dp_origin d) as [[]|] eqn:Err.
    + unfold recvRespRetry. replace (Z.to_nat (Z.of_nat (dp_origin d) - 1 + 1)) with (dp_origin d) by lia.
      unfold vec_get. rewrite Err. cbn [mbind outcome_bind assert_].
      destruct (dequeue_inv len (S k) s m' d q (dequeueEvent s) now true HI Hq) as (s' & HD & _ & Eq').
      { intros Hne. pose proof (si_event2 _ _ _ _ HI Hne d) as H2. rewrite Hq in H2. by apply H2. }
      assert (set_queue s (d :: q) (dequeueEvent s) = s) as E by (destruct s; cbn in *; by subst).
      rewrite E in HD. by exists s'.
    + unfold process_dequeue. rewrite Hq. destruct (dequeue_inv len (S k) s m' d q None now true HI Hq) as (s' & ? & _ & ?); [done|].
      by exists s'.
    + unfold process_dequeue. rewrite Hq. destruct (dequeue_inv len (S k) s m' d q None now true HI Hq) as (s' & ? & _ & ?); [done|].
      by exists s'.
Qed.

(** ** Examples *)

(** Sixteen bytes at 4096, one tick per byte. *)
Definition spm_ex (mode : bool) : SpmParams :=
  mkSpmParams mode false (negb mode) true (plain 4096 4112) 2 1 (fp_of_int double_ 1).
Definition spm_ex_pkt (x : MemCmd) (a : Z) (data : list Z) : Packet :=
  mkPacket x a data false false 0 false false 0 None None.
Definition spm_ex_mem : list Z := replicate 16 7.

Lemma spm_ex_range mode : range_ok (spm_ex mode) 4096 16.
Proof. split; done || lia. Qed.
Lemma spm_ex_pkt_ok x a data : x = ReadReq ∨ x = WriteReq → 4096 ≤ a → 0 < Z.of_nat (length data) →
  a + Z.of_nat (length data) ≤ 4112 → pkt_ok 4096 16 (spm_ex_pkt x a data).
Proof. intros. by split. Qed.

Definition spm_ex_cells (m : list Z) (o n : nat) : list (bool * Z) :=
  zip (replicate o false ++ replicate n true ++ replicate (16 - (o + n)) false) m.

Lemma private_ports_cells_witness :
  let p := spm_ex_pkt WriteReq 4098 [1; 2; 3] in
  let s := spm_boot (spm_ex true) [] spm_ex_mem 1 in
  canAccess (spm_ex true) s 4098 3 false = Ok true ∧
  ∃ s' m', scratchpadAccess (spm_ex true) s p true = Ok (set_cmd p WriteResp, s') ∧
    spm_wf 16 s' m' ∧ cells_of s' m' = spm_ex_cells ([7; 7; 1; 2; 3] ++ replicate 11 7) 2 3.
Proof.
  refine (private_ports_cells (spm_ex true) 4096 16 (spm_boot (spm_ex true) [] spm_ex_mem 1) spm_ex_mem
    (spm_ex_pkt WriteReq 4098 [1; 2; 3]) (spm_ex_range true) _ _).
  - by split.
  - apply spm_ex_pkt_ok; [by right|done|done|done].
Defined.

(** A write and a later read of the same bytes through the private port with
    the longer latency first, and a read of other bytes through the general
    port; the private port refuses its first response once. *)
Definition spm_ex_events : list SpmEvent :=
  [SReq 0 0 1 (spm_ex_pkt WriteReq 4098 [1; 2; 3]) 0 false; SReq 1 0 0 (spm_ex_pkt ReadReq 4100 [0]) 0 true;
   SReq 1 0 0 (spm_ex_pkt ReadReq 4096 [0; 0]) (-1) false; SRelease 1;
   SReq 4 0 0 (spm_ex_pkt ReadReq 4098 [0; 0; 0]) 0 false; SDequeue 5 false; SRespRetry 6 true 0; SDequeue 7 true].

Lemma spm_ex_events_ok : Forall (ev_ok (spm_ex false) 4096 16 2) spm_ex_events.
Proof.
  repeat constructor; try (apply spm_ex_pkt_ok; [by (left + right)|done|done|done]); try lia; eexists; vm_compute; reflexivity.
Qed.

Example spm_ex_run :
  match spm_run (spm_ex false) (spm_boot (spm_ex false) [] spm_ex_mem 1) spm_ex_events with
  | Ok (s, taken, delivered, calls) =>
      length taken = 3%nat ∧ pk_data <$> delivered = [[1; 2; 3]; [7; 7]] ∧
      pk_data ∘ dp_pkt <$> packetQueue s = [[1; 2; 3]] ∧ SendRetryReq 1 ∈ calls
  | Err _ => False
  end.
Proof. vm_compute. split_and!; [done..|]. apply list_elem_of_here. Qed.

Lemma scratchpad_serves_in_order_witness :
  let s0 := spm_boot (spm_ex false) [] spm_ex_mem 1 in
  (∃ s, served_in_order (spm_ex false) 4096 spm_ex_mem s0 spm_ex_events s) ∨
  (∃ es1 e es2 s, spm_ex_events = es1 ++ e :: es2 ∧ served_in_order (spm_ex false) 4096 spm_ex_mem s0 es1 s ∧
    stray_retry s e ∧ spm_run (spm_ex false) s0 spm_ex_events = Err (stray_error 2 e)).
Proof.
  exact (scratchpad_serves_in_order (spm_ex false) 4096 16 [] spm_ex_mem 1 spm_ex_events
    (spm_ex_range false) eq_refl eq_refl spm_ex_events_ok).
Defined.

(** The state of a run, for use in examples. *)
Definition spm_state (r : outcome (Spm * list Packet * list Packet * list PortCall)) (s0 : Spm) : Spm :=
  match r with Ok (s, _, _, _) => s | Err _ => s0 end.
Definition spm_ex_busy : Spm :=
  spm_state (spm_run (spm_ex false) (spm_boot (spm_ex false) [] spm_ex_mem 1) (take 2 spm_ex_events))
    (spm_boot (spm_ex false) [] spm_ex_mem 1).

Lemma scratchpad_live_witness :
  retryReq spm_ex_busy !! 1%nat = Some true ∧
  ∃ t s', releaseEvent spm_ex_busy !! 1%nat = Some (Some t) ∧
    process_release spm_ex_busy 1 = Ok (s', [SendRetryReq 1]).
Proof.
  assert (retryReq spm_ex_busy !! 1%nat = Some true) as Hb by (vm_compute; reflexivity). split; [exact Hb|].
  assert (∃ t d cs, spm_run (spm_ex false) (spm_boot (spm_ex false) [] spm_ex_mem 1) (take 2 spm_ex_events)
    = Ok (spm_ex_busy, t, d, cs)) as (tk & d & cs & HR) by (eexists _, _, _; vm_compute; reflexivity).
  destruct (scratchpad_live (spm_ex false) 4096 16 [] spm_ex_mem 1 _ _ _ _ _ (spm_ex_range false) eq_refl eq_refl
    (Forall_take _ 2 _ spm_ex_events_ok) HR) as [Hl _].
  destruct (Hl 1%nat Hb) as (t & s' & H1 & H2 & _). exists t, s'. exact (conj H1 H2).
Defined.

(** With two ports in use a response can be offered again to a peer that has
    refused it and not yet retried: the other port's request schedules the
    dequeue event.  If the peer takes it then, its retry fails an assertion. *)
Example response_offered_before_retry :
  let es := [SReq 0 0 0 (spm_ex_pkt ReadReq 4096 [0]) (-1) false; SDequeue 2 false;
             SReq 3 0 0 (spm_ex_pkt ReadReq 4100 [0]) 0 false; SDequeue 5 true] in
  let s := spm_state (spm_run (spm_ex false) (spm_boot (spm_ex false) [] spm_ex_mem 1) es)
             (spm_boot (spm_ex false) [] spm_ex_mem 1) in
  length (packetQueue s) = 1%nat ∧
  spm_run (spm_ex false) (spm_boot (spm_ex false) [] spm_ex_mem 1) (es ++ [SRespRetry 6 true (-1)]) = Err AssertFail.
Proof. vm_compute. done. Qed.

(** The range check lets an access run one byte past the end. *)
Example access_past_end :
  let s := spm_boot (spm_ex false) [] spm_ex_mem 1 in
  scratchpadAccess (spm_ex false) s (spm_ex_pkt WriteReq 4110 [1; 2; 3]) false = Err Undefined ∧
  scratchpadAccess (spm_ex false) s (spm_ex_pkt WriteReq 4111 [1; 2; 3]) false = Err AssertFail.
Proof. vm_compute. done. Qed.
