(* ===== verification/IoAcc.v ===== *)
(** Model of [hwacc/io_acc.{hh,cc}], the fixed-function accelerator: it reads
    four bytes at the address in its registers, in packets that do not cross
    cache lines, divides, and writes four bytes back. *)
From S2P Require Import Prelude MemRequest CommInterface.

#[local] Open Scope Z_scope.

Record IoParams := mkIoParams {
  ia_io_addr : Z;
  ia_io_size : Z;
  ia_int_num : Z;
  ia_cacheLineSize : Z;
  ia_clock_period : Z;
}.
Definition io_processDelay (p : IoParams) : Z := s32 (1000 * ia_clock_period p).

(** The packets the device makes. *)
Record IoPacket := mkIoPacket {
  ip_read : bool;
  ip_addr : Z;
  ip_size : Z;
  ip_data : list Z;
}.

(** Calls on the interrupt controller. *)
Inductive IoEvent := IoSendInt (n : Z) | IoClearInt (n : Z).

(** The members that describe a transfer.  A pointer that is not set, or whose
    array has been deleted, is [None]. *)
Record Transfer := mkTransfer {
  t_needToRead : bool;
  t_needToWrite : bool;
  t_currentReadAddr : Z;
  t_currentWriteAddr : Z;
  t_beginAddr : Z;
  t_writeLeft : Z;
  t_writeDone : Z;
  t_readLeft : Z;
  t_readDone : Z;
  t_totalLength : Z;
  t_curData : option (list Z);
  t_readsDone : option (list bool);
}.

(** [io_made] are the packets made so far, [io_wire] those the peer has accepted
    and not answered. *)
Record IOAcc := mkIOAcc {
  io_tr : Transfer;
  io_running : bool;
  io_computationNeeded : bool;
  io_processingDone : bool;
  io_mmreg : list Z;
  io_mmrval : Z;
  io_outstandingPkts : list IoPacket;
  io_wire : list IoPacket;
  io_made : list IoPacket;
  io_tickAt : option Z;
  io_out : list IoEvent;
}.

Definition set_tr (d : IOAcc) (t : Transfer) : IOAcc :=
  mkIOAcc t (io_running d) (io_computationNeeded d) (io_processingDone d) (io_mmreg d) (io_mmrval d)
    (io_outstandingPkts d) (io_wire d) (io_made d) (io_tickAt d) (io_out d).
Definition set_run (d : IOAcc) (b : bool) : IOAcc :=
  mkIOAcc (io_tr d) b (io_computationNeeded d) (io_processingDone d) (io_mmreg d) (io_mmrval d)
    (io_outstandingPkts d) (io_wire d) (io_made d) (io_tickAt d) (io_out d).
Definition set_needed (d : IOAcc) (b : bool) : IOAcc :=
  mkIOAcc (io_tr d) (io_running d) b (io_processingDone d) (io_mmreg d) (io_mmrval d)
    (io_outstandingPkts d) (io_wire d) (io_made d) (io_tickAt d) (io_out d).
Definition set_done (d : IOAcc) (b : bool) : IOAcc :=
  mkIOAcc (io_tr d) (io_running d) (io_computationNeeded d) b (io_mmreg d) (io_mmrval d)
    (io_outstandingPkts d) (io_wire d) (io_made d) (io_tickAt d) (io_out d).
Definition set_mmr (d : IOAcc) (r : list Z) (v : Z) : IOAcc :=
  mkIOAcc (io_tr d) (io_running d) (io_computationNeeded d) (io_processingDone d) r v
    (io_outstandingPkts d) (io_wire d) (io_made d) (io_tickAt d) (io_out d).
Definition set_port (d : IOAcc) (o w : list IoPacket) : IOAcc :=
  mkIOAcc (io_tr d) (io_running d) (io_computationNeeded d) (io_processingDone d) (io_mmreg d) (io_mmrval d)
    o w (io_made d) (io_tickAt d) (io_out d).
Definition note_made (d : IOAcc) (p : IoPacket) : IOAcc :=
  mkIOAcc (io_tr d) (io_running d) (io_computationNeeded d) (io_processingDone d) (io_mmreg d) (io_mmrval d)
    (io_outstandingPkts d) (io_wire d) (io_made d ++ [p]) (io_tickAt d) (io_out d).
Definition set_tickAt (d : IOAcc) (t : option Z) : IOAcc :=
  mkIOAcc (io_tr d) (io_running d) (io_computationNeeded d) (io_processingDone d) (io_mmreg d) (io_mmrval d)
    (io_outstandingPkts d) (io_wire d) (io_made d) t (io_out d).
Definition emit (d : IOAcc) (e : IoEvent) : IOAcc :=
  mkIOAcc (io_tr d) (io_running d) (io_computationNeeded d) (io_processingDone d) (io_mmreg d) (io_mmrval d)
    (io_outstandingPkts d) (io_wire d) (io_made d) (io_tickAt d) (io_out d ++ [e]).

(** The clock and the peer of the port, whose answer may depend on what it has
    accepted. *)
Record IoEnv := mkIoEnv {
  ie_curTick : Z;
  ie_nextCycle : Z;
  ie_sendTimingReq : list IoPacket → IoPacket → bool;
}.

Definition io_isStalled (d : IOAcc) : bool :=
  match io_outstandingPkts d with [] => false | _ => true end.

Section Device.
Context (p : IoParams) (env : IoEnv).

(** [if (!tickEvent.scheduled()) schedule(tickEvent, when)].  The assertion of [schedule] that
    [when] is not past, which only a delay that overflows the clock can fail, is left out. *)
Definition io_schedule_at (d : IOAcc) (t : Z) : IOAcc :=
  match io_tickAt d with Some _ => d | None => set_tickAt d (Some t) end.
Definition io_schedule (d : IOAcc) : IOAcc := io_schedule_at d (u64 (ie_curTick env + io_processDelay p)).

(** ** The port *)

Definition io_sendPacket (d : IOAcc) (pk : IoPacket) : IOAcc :=
  if io_isStalled d || negb (ie_sendTimingReq env (io_wire d) pk)
  then set_port d (io_outstandingPkts d ++ [pk]) (io_wire d)
  else set_port d (io_outstandingPkts d) (io_wire d ++ [pk]).

Fixpoint io_retryLoop (d : IOAcc) (l : list IoPacket) : IOAcc :=
  match l with
  | [] => d
  | pk :: l =>
      if ie_sendTimingReq env (io_wire d) pk
      then io_retryLoop (io_schedule (set_port d l (io_wire d ++ [pk]))) l
      else d
  end.
Definition io_recvReqRetry (d : IOAcc) : outcome IOAcc :=
  let* _ := assert_ (io_isStalled d) in Ok (io_retryLoop d (io_outstandingPkts d)).

(** ** Packets *)

(** The size of the next packet. *)
Definition io_chunk (addr left : Z) : outcome Z :=
  let cls := ia_cacheLineSize p in
  if cls =? 0 then Err Undefined else
  let size := s32 (if addr mod cls =? 0 then cls else u64 (cls - addr mod cls)) in
  if size =? - 2 ^ 31 then Err Undefined else
  Ok (if u64 (size - 1) <? left then size else s32 left).

Definition io_tryRead (d : IOAcc) : outcome IOAcc :=
  let t := io_tr d in
  if t_readLeft t <=? 0 then Ok d else
  let* size := io_chunk (t_currentReadAddr t) (t_readLeft t) in
  let pk := mkIoPacket true (t_currentReadAddr t) size [] in
  let d := io_sendPacket (note_made d pk) pk in
  let left := u64 (t_readLeft t - size) in
  let more := 0 <? left in
  let d := set_tr d (mkTransfer (if more then t_needToRead t else false) (t_needToWrite t)
    (u64 (t_currentReadAddr t + size)) (t_currentWriteAddr t) (t_beginAddr t) (t_writeLeft t) (t_writeDone t)
    left (t_readDone t) (t_totalLength t) (t_curData t) (t_readsDone t)) in
  Ok (if more && io_isStalled d then d else io_schedule d).

Definition io_tryWrite (d : IOAcc) : outcome IOAcc :=
  let t := io_tr d in
  if t_writeLeft t <=? 0 then Ok d else
  let* size := io_chunk (t_currentWriteAddr t) (t_writeLeft t) in
  let* curData := deref (t_curData t) in
  let* data := mem_read curData (u64 (t_totalLength t - t_writeLeft t)) size in
  let pk := mkIoPacket false (t_currentWriteAddr t) size data in
  let d := io_sendPacket (note_made d pk) pk in
  let left := u64 (t_writeLeft t - size) in
  let d := set_tr d (mkTransfer (t_needToRead t) (t_needToWrite t) (t_currentReadAddr t)
    (u64 (t_currentWriteAddr t + size)) (t_beginAddr t) left (t_writeDone t)
    (t_readLeft t) (t_readDone t) (t_totalLength t) (t_curData t) (t_readsDone t)) in
  Ok (if 0 <? left then d else io_schedule d).

(** ** Transfers *)

Definition io_prepRead (d : IOAcc) (src len : Z) : outcome IOAcc :=
  let* _ := assert_ (0 <? len) in
  let* _ := assert_ (negb (io_running d)) in
  let d := emit (set_run d true) (IoClearInt (ia_int_num p)) in
  let t := io_tr d in
  Ok (io_schedule (set_tr d (mkTransfer true false src (t_currentWriteAddr t) src 0 (t_writeDone t) len 0 len
    (Some (replicate (Z.to_nat len) 0)) (Some (replicate (Z.to_nat len) false))))).

(** [*(uint32_t * )mmreg = f( *(uint32_t * )mmreg)]. *)
Definition io_update_config (d : IOAcc) (f : Z → Z) : outcome IOAcc :=
  let* v := load_uint (io_mmreg d) 0 4 in
  let* r := mem_write (io_mmreg d) 0 (le_bytes 4 (f v)) in
  Ok (set_mmr d r (io_mmrval d)).

Definition io_prepWrite (d : IOAcc) (dst : Z) (value : list Z) (len : Z) : outcome IOAcc :=
  let* _ := assert_ (negb (io_running d)) in
  let* _ := assert_ (0 <? len) in
  let d := emit (set_run d true) (IoClearInt (ia_int_num p)) in
  let* d := io_update_config d (fun v => Z.land v 0xefffffff) in
  let t := io_tr d in
  let* data := mem_read value 0 len in
  Ok (io_schedule (set_tr d (mkTransfer false true (t_currentReadAddr t) dst (t_beginAddr t) len 0 0 len len
    (Some data) (Some (replicate (Z.to_nat len) true))))).

(** The first byte becomes half of the four-byte integer, as [uint8_t]. *)
Definition io_compute (data : list Z) : list Z := u8 (Z.quot (s32 (le_val data)) 2) :: tail data.

Definition io_processData (d : IOAcc) : outcome IOAcc :=
  let* curData := deref (t_curData (io_tr d)) in
  let* data := mem_read curData 0 4 in
  io_prepWrite (set_done d true) (io_mmrval d) (io_compute data) 4.

(** ** Responses *)

(** [pk] has left the wire; [data] is what a read packet brings. *)
Definition io_recvRead (d : IOAcc) (pk : IoPacket) (data : list Z) : outcome IOAcc :=
  let t := io_tr d in
  let off := u64 (ip_addr pk - t_beginAddr t) in
  let* curData := deref (t_curData t) in
  let* curData := mem_write curData off data in
  let* rd := deref (t_readsDone t) in
  let* rd := mark_done rd off (ip_size pk) in
  let* dn := contiguous (Z.to_nat (t_totalLength t - t_readDone t)) rd (t_readDone t) (t_totalLength t) in
  let fin := t_totalLength t <=? dn in
  let d := set_tr d (mkTransfer (if fin then false else t_needToRead t) (t_needToWrite t)
    (t_currentReadAddr t) (t_currentWriteAddr t) (t_beginAddr t) (t_writeLeft t) (t_writeDone t) (t_readLeft t)
    dn (t_totalLength t) (Some curData) (Some rd)) in
  if fin then io_processData (set_run d false) else Ok d.

Definition io_recvWrite (d : IOAcc) (pk : IoPacket) : outcome IOAcc :=
  let t := io_tr d in
  let dn := u64 (t_writeDone t + ip_size pk) in
  let more := dn <? t_totalLength t in
  let d := set_tr d (mkTransfer (t_needToRead t) (if more then t_needToWrite t else false)
    (t_currentReadAddr t) (t_currentWriteAddr t) (t_beginAddr t) (t_writeLeft t) dn (t_readLeft t)
    (t_readDone t) (t_totalLength t) (if more then t_curData t else None) (if more then t_readsDone t else None)) in
  if more then Ok (io_schedule d)
  else
    let* d := io_update_config (emit d (IoSendInt (ia_int_num p))) (fun v => Z.lor v 0x80000000) in
    Ok (set_run d false).

Definition io_recvPacket (d : IOAcc) (pk : IoPacket) (data : list Z) : outcome IOAcc :=
  if ip_read pk then io_recvRead d pk data else io_recvWrite d pk.

(** ** The tick event *)

Definition io_checkRun (d : IOAcc) : outcome IOAcc :=
  let* b := vec_get (io_mmreg d) 0 in
  let* d :=
    (if Z.testbit b 0 then
       io_prepRead (set_needed (set_mmr d (<[0%nat := Z.land b 0xfe]> (io_mmreg d)) (io_mmrval d)) true) (io_mmrval d) 4
     else Ok d) in
  match io_tickAt d with
  | None => Ok (if io_processingDone d then io_schedule (set_done d false) else d)
  | Some _ => Ok d
  end.

Definition io_tick (d : IOAcc) : outcome IOAcc :=
  let d := set_tickAt d None in
  if negb (io_running d) then io_checkRun d
  else if io_isStalled d then Ok d
  else
    let* d := (if t_needToRead (io_tr d) && negb (io_isStalled d) then io_tryRead d else Ok d) in
    let t := io_tr d in
    if t_needToWrite t && negb (io_isStalled d) && (u64 (t_totalLength t - t_writeLeft t) <? t_readDone t)
    then io_tryWrite d else Ok d.

(** ** The host *)

Definition io_read (d : IOAcc) (paddr size : Z) : outcome (list Z) :=
  let daddr := u64 (paddr - ia_io_addr p) in
  let* data := load_uint (io_mmreg d) (if daddr =? 0 then 0 else 4) 4 in
  if (size =? 1) || (size =? 2) || (size =? 4) then Ok (le_bytes (Z.to_nat size) data) else Err Panic.

Definition io_write (d : IOAcc) (paddr : Z) (data : list Z) : outcome IOAcc :=
  let* r := mem_write (io_mmreg d) (u64 (paddr - ia_io_addr p)) data in
  let* v := load_uint r 4 4 in
  Ok (io_schedule_at (set_mmr d r v) (ie_nextCycle env)).
End Device.

(** The constructor leaves the registers and the transfer as the memory was. *)
Definition IOAcc_new (t : Transfer) (mmreg : list Z) (mmrval : Z) : IOAcc :=
  mkIOAcc (mkTransfer false false (t_currentReadAddr t) (t_currentWriteAddr t) (t_beginAddr t) (t_writeLeft t)
    (t_writeDone t) (t_readLeft t) (t_readDone t) (t_totalLength t) None None)
    false false false mmreg mmrval [] [] [] None [].
