(* ===== verification/IoAccSpec.v ===== *)
(** Correctness of the fixed-function accelerator: once the host has set the run
    bit, the device reads the four bytes at its address once, writes back what it
    computes from them, raises its interrupt and stops, in any order of its
    ticks, of the responses and of the retries of its port. *)
From S2P Require Import Prelude MemRequest CommInterface CommInv IoAcc.

#[local] Open Scope Z_scope.

(** ** Buffers filled out of order *)

Lemma mem_write_inside (m m' : list Z) off bs i :
  mem_write m off bs = Ok m' → (i < length bs)%nat → m' !! (Z.to_nat off + i)%nat = bs !! i.
Proof.
  unfold mem_write. destruct (in_block _ _ _) eqn:E; [|done]. intros [= <-] Hi.
  apply in_block_spec in E. rewrite lookup_app_r by (rewrite length_take; lia).
  rewrite length_take, lookup_app_l by lia. f_equal. lia.
Qed.

Lemma mark_done_spec (rd : list bool) off size :
  0 ≤ off → 0 ≤ size → off + size ≤ Z.of_nat (length rd) < 2 ^ 31 →
  ∃ rd', mark_done rd off size = Ok rd' ∧ length rd' = length rd ∧
    ∀ i, 0 ≤ i → rd' !! Z.to_nat i = if (off <=? i) && (i <? off + size) then Some true else rd !! Z.to_nat i.
Proof.
  intros Ho Hs [Hl Hm]. unfold mark_done.
  assert ((off + size <? 2 ^ 31) && (0 <=? off) && (0 <=? size) &&
     (off + size <=? Z.of_nat (length rd)) = true) as -> by (rewrite !andb_true_iff, !Z.leb_le, Z.ltb_lt; lia).
  eexists. split; [done|]. split; [autorewrite with salam_simpl; lia|]. intros i Hi.
  destruct (Z.leb_spec off i); cbn [andb].
  2: { rewrite lookup_app_l by (rewrite length_take; lia). apply lookup_take_lt. lia. }
  rewrite lookup_app_r by (rewrite length_take; lia). rewrite length_take.
  destruct (Z.ltb_spec i (off + size)).
  - rewrite lookup_app_l by (rewrite length_replicate; lia). apply lookup_replicate_2. lia.
  - rewrite lookup_app_r by (rewrite length_replicate; lia). rewrite length_replicate, lookup_drop. f_equal. lia.
Qed.

(** The loop stops at the first byte that has not arrived. *)
Lemma contiguous_spec n rd : ∀ dn total,
  0 ≤ dn → total = dn + Z.of_nat n → total ≤ Z.of_nat (length rd) →
  ∃ dn', contiguous n rd dn total = Ok dn' ∧ dn ≤ dn' ≤ total ∧
    (∀ i, dn ≤ i < dn' → rd !! Z.to_nat i = Some true) ∧ (dn' < total → rd !! Z.to_nat dn' = Some false).
Proof.
  induction n as [|n IH]; intros dn total Hd Ht Hl; cbn [contiguous].
  { exists dn. split_and!; first [done|lia|intros; lia]. }
  rewrite (proj2 (Z.ltb_lt _ _)) by lia. unfold vec_get.
  destruct (rd !! Z.to_nat dn) as [b|] eqn:E; [|apply lookup_ge_None in E; lia].
  cbn [mbind outcome_bind]. destruct b.
  - destruct (IH (dn + 1) total) as (dn' & Hc & Hr & Ha & Hf); [lia..|].
    exists dn'. split_and!; [done|lia..| |done]. intros i Hi.
    destruct (decide (i = dn)) as [->|]; [done|]. apply Ha. lia.
  - exists dn. split_and!; first [done|lia|intros; lia].
Qed.

(** ** What the packets ask for *)

Definition pk_bytes (pk : IoPacket) : list Z := seqZ (ip_addr pk) (ip_size pk).
Definition reads_of (ps : list IoPacket) : list Z := ps ≫= fun pk => if ip_read pk then pk_bytes pk else [].
Definition writes_of (ps : list IoPacket) : list (Z * Z) :=
  ps ≫= fun pk => if ip_read pk then [] else zip (pk_bytes pk) (ip_data pk).
Definition io_packets (d : IOAcc) : list IoPacket := io_outstandingPkts d ++ io_wire d.
Definition in_line (p : IoParams) (pk : IoPacket) : Prop :=
  0 < ip_size pk ∧ ip_addr pk mod ia_cacheLineSize p + ip_size pk ≤ ia_cacheLineSize p.

(** ** The events of the device *)

Inductive IoInput := InTick | InResp (i : nat) | InRetry.

Definition io_enabled (d : IOAcc) (e : IoInput) : bool :=
  match e with
  | InTick => bool_decide (io_tickAt d ≠ None)
  | InResp i => bool_decide (is_Some (io_wire d !! i))
  | InRetry => io_isStalled d
  end.

(** The memory [μ] answers the read packets. *)
Definition io_event (p : IoParams) (μ : Z → Z) (env : IoEnv) (d : IOAcc) (e : IoInput) : outcome IOAcc :=
  match e with
  | InTick => io_tick p env d
  | InResp i =>
      let* pk := vec_get (io_wire d) i in
      io_recvPacket p env (set_port d (io_outstandingPkts d) (delete i (io_wire d))) pk
        (if ip_read pk then bytes μ (ip_addr pk) (ip_size pk) else [])
  | InRetry => io_recvReqRetry p env d
  end.

Definition io_step (p : IoParams) (μ : Z → Z) (d d' : IOAcc) : Prop :=
  ∃ env e, io_enabled d e = true ∧ io_event p μ env d e = Ok d'.
(** A retry that the peer refuses again leaves the device as it was. *)
Definition io_change (p : IoParams) (μ : Z → Z) (d d' : IOAcc) : Prop := io_step p μ d d' ∧ d' ≠ d.

(** ** The parts of a run *)

Section Run.
Context (p : IoParams) (μ : Z → Z) (a cfg : Z) (rest : list Z) (made0 : list IoPacket) (out0 : list IoEvent).
Hypothesis Hcls : 0 < ia_cacheLineSize p < 2 ^ 31.
Hypothesis Ha : inU 32 a.
Hypothesis Hcfg : inU 32 cfg.

Definition result : list Z := io_compute (bytes μ a 4).
Definition cfg_run : Z := Z.land cfg 0xfffffffe.
Definition cfg_write : Z := Z.land cfg_run 0xefffffff.
Definition cfg_done : Z := Z.lor cfg_write 0x80000000.
Definition regs (d : IOAcc) (c : Z) : Prop := io_mmreg d = le_bytes 4 c ++ rest ∧ io_mmrval d = a.
Definition ticking (d : IOAcc) : Z := match io_tickAt d with Some _ => 1 | None => 0 end.
Definition io_load (d : IOAcc) : Z :=
  4 * Z.of_nat (length (io_outstandingPkts d)) + 2 * Z.of_nat (length (io_wire d)) + ticking d.

Record armed (d : IOAcc) : Prop := {
  ar_regs : regs d cfg;
  ar_bit : Z.odd cfg = true;
  ar_run : io_running d = false;
  ar_pk : io_packets d = [];
  ar_made : io_made d = made0;
  ar_out : io_out d = out0;
  ar_tick : io_tickAt d ≠ None;
}.

(** The buffer while the bytes at the addresses [pend] are on their way and the
    last [left] ones not yet asked for. *)
Definition filled (pend : list Z) (left dn : Z) (cd : list Z) (rd : list bool) : Prop :=
  length cd = 4%nat ∧ length rd = 4%nat ∧ 0 ≤ dn < 4 ∧ rd !! Z.to_nat dn = Some false ∧
  (∀ i, 0 ≤ i < dn → rd !! Z.to_nat i = Some true) ∧
  (∀ i, 0 ≤ i < 4 → rd !! Z.to_nat i = Some false ↔ 4 - left ≤ i ∨ a + i ∈ pend) ∧
  (∀ i, 0 ≤ i < 4 → rd !! Z.to_nat i = Some true → cd !! Z.to_nat i = Some (μ (a + i))).

Record reading (d : IOAcc) (left : Z) : Prop := {
  rg_regs : regs d cfg_run;
  rg_run : io_running d = true;
  rg_out : io_out d = out0 ++ [IoClearInt (ia_int_num p)];
  rg_left : 0 ≤ left ≤ 4;
  rg_made : ∃ rs, io_made d = made0 ++ rs ∧ Forall (in_line p) rs ∧ Forall (fun pk => ip_read pk) rs ∧
    reads_of rs = seqZ a (4 - left);
  rg_pk : Forall (fun pk => ip_read pk ∧ 0 < ip_size pk) (io_packets d);
  rg_nodup : NoDup (reads_of (io_packets d));
  rg_range : ∀ i, i ∈ reads_of (io_packets d) → a ≤ i < a + (4 - left);
  rg_data : ∃ cw wd dn cd rd,
    io_tr d = mkTransfer (0 <? left) false (a + (4 - left)) cw a 0 wd left dn 4 (Some cd) (Some rd) ∧
    filled (reads_of (io_packets d)) left dn cd rd;
  rg_live : 0 < left → io_tickAt d ≠ None ∨ io_outstandingPkts d ≠ [];
}.

Definition sizes (ps : list IoPacket) : Z := foldr (fun pk n => ip_size pk + n) 0 ps.

Definition all_read (rs : list IoPacket) : Prop :=
  Forall (in_line p) rs ∧ Forall (fun pk => ip_read pk) rs ∧ reads_of rs = seqZ a 4.

Record writing (d : IOAcc) (left : Z) : Prop := {
  wg_regs : regs d cfg_write;
  wg_run : io_running d = true;
  wg_done : io_processingDone d = true;
  wg_out : io_out d = out0 ++ [IoClearInt (ia_int_num p); IoClearInt (ia_int_num p)];
  wg_left : 0 ≤ left ≤ 4;
  wg_made : ∃ rs ws, io_made d = made0 ++ rs ++ ws ∧ all_read rs ∧ Forall (in_line p) ws ∧
    Forall (fun pk => ¬ ip_read pk) ws ∧
    writes_of ws = zip (seqZ a (4 - left)) (take (Z.to_nat (4 - left)) result);
  wg_pk : Forall (fun pk => ¬ ip_read pk ∧ 0 < ip_size pk) (io_packets d);
  wg_data : ∃ cr ba dn rd,
    io_tr d = mkTransfer false true cr (a + (4 - left)) ba left dn 0 4 4 (Some result) rd ∧
    0 ≤ dn < 4 ∧ sizes (io_packets d) + dn + left = 4;
  wg_live : io_tickAt d ≠ None ∨ io_packets d ≠ [];
}.

Record finished (d : IOAcc) : Prop := {
  fi_regs : regs d cfg_done;
  fi_run : io_running d = false;
  fi_out : io_out d = out0 ++ [IoClearInt (ia_int_num p); IoClearInt (ia_int_num p); IoSendInt (ia_int_num p)];
  fi_made : ∃ rs ws, io_made d = made0 ++ rs ++ ws ∧ all_read rs ∧ Forall (in_line p) ws ∧
    Forall (fun pk => ¬ ip_read pk) ws ∧ writes_of ws = zip (seqZ a 4) result;
  fi_pk : io_packets d = [];
}.

(** The part a state is in, with a bound on the changes still to come. *)
Inductive phase (d : IOAcc) : Z → Prop :=
| ph_armed : armed d → phase d (100 + ticking d)
| ph_reading left : reading d left → phase d (50 + 6 * left + io_load d)
| ph_writing left : writing d left → phase d (4 + 6 * left + io_load d)
| ph_finished : finished d → phase d ((if io_processingDone d then 2 else 0) + ticking d).

(** ** Packets and registers *)

Lemma io_chunk_spec addr left :
  0 ≤ addr → 0 < left < 2 ^ 31 →
  ∃ size, io_chunk p addr left = Ok size ∧ 0 < size ≤ left ∧
    addr mod ia_cacheLineSize p + size ≤ ia_cacheLineSize p.
Proof.
  intros Hp Hl. set (c := mkParams 0 0 0 0 0 false [] false (ia_cacheLineSize p) 0 false).
  destruct (chunk_spec c addr left Hcls Hp Hl) as (size & Hs & ? & ? & _). eauto.
Qed.

Lemma io_sendPacket_shape env d pk :
  ∃ o w, io_sendPacket env d pk = set_port d o w ∧ o ++ w ≡ₚ pk :: io_packets d ∧
    4 * Z.of_nat (length o) + 2 * Z.of_nat (length w) ≤
    4 * Z.of_nat (length (io_outstandingPkts d)) + 2 * Z.of_nat (length (io_wire d)) + 4.
Proof.
  unfold io_sendPacket, io_packets. case_match; do 2 eexists; (split; [done|]); (split; [|rewrite length_app; cbn; lia]).
  - rewrite <-app_assoc. symmetry. apply Permutation_middle.
  - rewrite app_assoc, Permutation_app_comm. done.
Qed.

Lemma io_retryLoop_shape env l : ∀ d, io_outstandingPkts d = l →
  ∃ o w tk, io_retryLoop p env d l = set_tickAt (set_port d o w) tk ∧ o ++ w ≡ₚ io_packets d ∧
    (o = l ∧ w = io_wire d ∧ tk = io_tickAt d ∨
     tk ≠ None ∧ 4 * Z.of_nat (length o) + 2 * Z.of_nat (length w) + 2 ≤
       4 * Z.of_nat (length l) + 2 * Z.of_nat (length (io_wire d))).
Proof.
  assert (∀ d : IOAcc, d = set_tickAt (set_port d (io_outstandingPkts d) (io_wire d)) (io_tickAt d)) as Hid
    by (by intros []).
  induction l as [|pk l IH]; intros d Hl; cbn [io_retryLoop].
  { exists [], (io_wire d), (io_tickAt d). split_and!; [rewrite <-Hl; apply Hid|by unfold io_packets; rewrite Hl|by left]. }
  case_match.
  - set (d1 := io_schedule p env (set_port d l (io_wire d ++ [pk]))).
    assert (∃ t, d1 = set_tickAt (set_port d l (io_wire d ++ [pk])) (Some t)) as [t E].
    { subst d1. unfold io_schedule, io_schedule_at. case_match eqn:Et; eexists; [|done].
      cbn in Et. unfold set_tickAt. cbn. by rewrite <-Et. }
    destruct (IH d1) as (o & w & tk & -> & Hp & Hc); [by rewrite E|].
    exists o, w, tk. rewrite E in Hp, Hc |- *. split_and!; [done| |].
    + rewrite Hp. unfold io_packets. cbn. rewrite Hl, app_assoc, Permutation_app_comm. done.
    + right. cbn in Hc. rewrite length_app in Hc. cbn [length] in *.
      destruct Hc as [(-> & -> & ->)|[? ?]]; [rewrite length_app; cbn [length]|]; split; done || lia.
  - exists (pk :: l), (io_wire d), (io_tickAt d). split_and!; [rewrite <-Hl; apply Hid|by unfold io_packets; rewrite Hl|by left].
Qed.

Lemma io_schedule_some env d : ∃ t, io_schedule p env d = set_tickAt d (Some t).
Proof.
  unfold io_schedule, io_schedule_at. case_match eqn:E; eexists; [|done].
  destruct d. cbn in *. by rewrite E.
Qed.

Lemma load_regs d c : regs d c → inU 32 c → load_uint (io_mmreg d) 0 4 = Ok c.
Proof.
  intros [-> _] Hc. unfold load_uint.
  rewrite mem_read_ok by (rewrite ?length_app, ?length_le_bytes; lia). cbn [mbind outcome_bind]. f_equal.
  change (Z.to_nat 4) with 4%nat. change (Z.to_nat 0) with 0%nat. rewrite drop_0.
  rewrite take_app_length' by (by rewrite length_le_bytes). rewrite le_val_bytes. by apply Z.mod_small.
Qed.

Lemma io_update_config_ok d c f : regs d c → inU 32 c →
  ∃ r, io_update_config d f = Ok (set_mmr d r (io_mmrval d)) ∧ r = le_bytes 4 (f c) ++ rest.
Proof.
  intros Hr Hc. unfold io_update_config. rewrite (load_regs d c) by done. cbn [mbind outcome_bind].
  destruct Hr as [-> _]. unfold mem_write.
  rewrite (proj2 (in_block_spec _ _ _)) by (rewrite ?length_app, !length_le_bytes; lia).
  eexists. split; [done|]. cbn [Z.to_nat take app]. rewrite length_le_bytes. f_equal.
Qed.

Lemma cfg_run_bytes : le_bytes 4 cfg_run = Z.land (cfg mod 2 ^ 8) 0xfe :: tail (le_bytes 4 cfg).
Proof.
  unfold cfg_run. cbn [le_bytes tail]. f_equal.
  - apply Z.bits_inj'. intros n Hn. rewrite Z.land_spec.
    rewrite <-!Z.land_ones by lia. rewrite !Z.land_spec, <-andb_assoc, <-andb_assoc. f_equal.
    rewrite andb_comm, <-!Z.land_spec. done.
  - assert (Z.land cfg 0xfffffffe / 2 ^ 8 = cfg / 2 ^ 8) as ->; [|done].
    rewrite <-!Z.shiftr_div_pow2 by lia. rewrite Z.shiftr_land.
    change (Z.shiftr 0xfffffffe 8) with (Z.ones 24). rewrite Z.land_ones by lia.
    rewrite Z.shiftr_div_pow2 by lia. apply Z.mod_small. unfold inU in Hcfg.
    split; [apply Z.div_pos; lia|apply Z.div_lt_upper_bound; lia].
Qed.

Lemma cfg_ranges : inU 32 cfg_run ∧ inU 32 cfg_write ∧ inU 32 cfg_done.
Proof.
  assert (∀ x y, inU 32 x → 0 ≤ y → inU 32 (Z.land x y)) as H.
  { intros x y Hx ?. unfold inU. rewrite <-(Z.mod_small x (2 ^ 32)), <-Z.land_ones by (done || lia).
    rewrite <-Z.land_assoc, (Z.land_comm _ y), Z.land_assoc, Z.land_ones by lia. by apply Z.mod_pos_bound. }
  assert (inU 32 cfg_run) by (apply H; done). assert (inU 32 cfg_write) as Hw by (apply H; done).
  split_and!; [done..|]. unfold cfg_done. split; [apply Z.lor_nonneg; split; [apply Hw|done]|].
  apply Z.log2_lt_cancel. rewrite Z.log2_lor by (apply Hw || done).
  change (Z.log2 (2 ^ 32)) with 32. apply Z.max_lub_lt; [|done]. destruct (decide (cfg_write = 0)) as [->|]; [done|].
  apply Z.log2_lt_pow2; unfold inU in Hw; lia.
Qed.

(** ** Moving packets and ticks *)

#[local] Instance reads_of_perm : Proper ((≡ₚ) ==> (≡ₚ)) reads_of.
Proof. intros xs ys H. unfold reads_of. by rewrite H. Qed.
#[local] Instance sizes_perm : Proper ((≡ₚ) ==> eq) sizes.
Proof. intros xs ys H. unfold sizes. induction H; cbn; lia. Qed.

Definition repack (d : IOAcc) (o w : list IoPacket) (tk : option Z) : IOAcc := set_tickAt (set_port d o w) tk.
Lemma repack_id d : repack d (io_outstandingPkts d) (io_wire d) (io_tickAt d) = d.
Proof. by destruct d. Qed.

Lemma reading_repack d left o w tk : reading d left → o ++ w ≡ₚ io_packets d →
  (0 < left → tk ≠ None ∨ o ≠ []) → reading (repack d o w tk) left.
Proof.
  intros [] Hp Hl. constructor; cbn; try done; unfold io_packets in *; cbn; try by rewrite Hp.
  - intros i. rewrite Hp. auto.
  - destruct rg_data0 as (cw & wd & dn & cd & rd & ? & ? & ? & ? & ? & ? & Hf & ?).
    exists cw, wd, dn, cd, rd. unfold filled. split_and!; try done; try lia. intros i Hi. rewrite Hp. auto.
Qed.

Lemma writing_repack d left o w tk : writing d left → o ++ w ≡ₚ io_packets d →
  tk ≠ None ∨ o ++ w ≠ [] → writing (repack d o w tk) left.
Proof.
  intros [] Hp Hl. constructor; cbn; try done; unfold io_packets in *; cbn; try by rewrite Hp.
  destruct wg_data0 as (cr & ba & dn & rd & ? & ? & ?). exists cr, ba, dn, rd. by rewrite Hp.
Qed.

(** ** Ticks *)

Lemma armed_tick env d : armed d → ∃ d', io_tick p env d = Ok d' ∧ reading d' 4 ∧ io_load d' = 1.
Proof.
  intros [[Hr Hv] Hb Hrun Hpk Hm Ho _]. unfold io_tick. cbn [set_tickAt io_running]. rewrite Hrun. cbn [negb].
  unfold io_checkRun. cbn [set_tickAt io_mmreg io_mmrval]. rewrite Hr.
  change (vec_get (le_bytes 4 cfg ++ rest) 0) with (Ok (cfg mod 2 ^ 8)). cbn [mbind outcome_bind].
  assert (Z.testbit (cfg mod 2 ^ 8) 0 = true) as -> by (rewrite Z.mod_pow2_bits_low, Z.bit0_odd by lia; done).
  unfold io_prepRead. cbn [set_needed set_mmr set_tickAt io_running]. rewrite Hrun.
  cbn [assert_ negb mbind outcome_bind Z.ltb Z.compare].
  unfold io_schedule, io_schedule_at. cbn. apply app_nil in Hpk as [Hpo Hpw].
  eexists. split; [done|]. split; [|unfold io_load, ticking; cbn; by rewrite Hpo, Hpw].
  assert (io_packets (mkIOAcc (io_tr d) false false false [] 0 (io_outstandingPkts d) (io_wire d) [] None []) = [])
    as Hpk by (unfold io_packets; cbn; by rewrite Hpo, Hpw).
  constructor. 1: { split; [by rewrite cfg_run_bytes|done]. }
  all: cbn; try done; unfold io_packets in *; cbn in *; rewrite ?Hpk; try done.
  - by rewrite Ho.
  - exists []. by rewrite Hm, app_nil_r.
  - constructor.
  - by intros i []%elem_of_nil.
  - rewrite Hv. replace (a + (4 - 4)) with a by lia. do 5 eexists. split; [done|]. unfold filled. split_and!; try done; [lia| |].
    + intros i Hi. split; [intros _; left; lia|]. intros _. by apply (lookup_replicate_2 4 false); lia.
    + intros i Hi Hc. change [false; false; false; false] with (replicate 4 false) in Hc.
      apply lookup_replicate in Hc as [? _]. done.
  - by left.
Qed.

Lemma not_stalled d : io_isStalled d = false → io_outstandingPkts d = [].
Proof. unfold io_isStalled. by destruct (io_outstandingPkts d). Qed.
Lemma stalled d : io_isStalled d = true → io_outstandingPkts d ≠ [].
Proof. unfold io_isStalled. by destruct (io_outstandingPkts d). Qed.

Lemma tryRead_reading env d left : reading d left → 0 < left →
  ∃ d' left', io_tryRead p env (set_tickAt d None) = Ok d' ∧ reading d' left' ∧ 6 * left' + io_load d' ≤ 6 * left + io_load d - ticking d - 1.
Proof.
  intros HR Hl. pose proof HR as [].
  destruct rg_data0 as (cw & wd & dn & cd & rd & Ht & Hcd & Hrd & Hdn & Hfst & Hpre & Hnot & Hdat).
  unfold inU in Ha. unfold io_tryRead. cbn zeta. change (io_tr (set_tickAt d None)) with (io_tr d). rewrite Ht. cbn [t_readLeft t_currentReadAddr].
  rewrite (proj2 (Z.leb_gt _ _)) by lia.
  destruct (io_chunk_spec (a + (4 - left)) left) as (size & -> & Hsz & Hline); [lia..|]. cbn [mbind outcome_bind].
  set (pk := mkIoPacket true (a + (4 - left)) size []).
  destruct (io_sendPacket_shape env (note_made (set_tickAt d None) pk) pk) as (o & w & -> & Hp & Hlen). cbn zeta.
  change (io_packets (note_made (set_tickAt d None) pk)) with (io_packets d) in Hp. cbn in Hlen.
  rewrite (wrapU_id 64 (left - size)), (wrapU_id 64 (a + (4 - left) + size)) by (split; lia).
  set (tr := mkTransfer _ _ _ _ _ _ _ _ _ _ _ _).
  assert (∀ tk, (0 < left - size → tk ≠ None ∨ o ≠ []) →
    reading (set_tr (repack (note_made (set_tickAt d None) pk) o w tk) tr) (left - size)) as HR'.
  { intros tk Hlive. assert (reads_of (o ++ w) ≡ₚ seqZ (a + (4 - left)) size ++ reads_of (io_packets d)) as Hro
      by (rewrite Hp; done).
    constructor; cbn; try done; try lia; unfold io_packets in *; cbn.
    - destruct rg_made0 as (rs & -> & Hin & Hrs & Hseq). exists (rs ++ [pk]). rewrite app_assoc. split_and!; [done|..].
      + apply Forall_app; split; [done|]. constructor; [|done]. split; cbn; lia.
      + apply Forall_app; split; [done|]. by constructor.
      + unfold reads_of in *. rewrite bind_app, Hseq. replace (4 - (left - size)) with ((4 - left) + size) by lia.
        rewrite seqZ_app by lia. f_equal. apply app_nil_r.
    - rewrite Hp. constructor; [|done]. cbn. lia.
    - rewrite Hro. apply NoDup_app. split_and!; [apply NoDup_seqZ| |done].
      intros i Hi%elem_of_seqZ Hi'%rg_range0. lia.
    - intros i. rewrite Hro. intros [Hi%elem_of_seqZ|Hi%rg_range0]%elem_of_app; lia.
    - subst tr. cbn. replace (if 0 <? left - size then 0 <? left else false) with (0 <? left - size)
        by (repeat case_zbool; done || lia).
      replace (a + (4 - left) + size) with (a + (4 - (left - size))) by lia.
      exists cw, wd, dn, cd, rd. unfold filled. split_and!; try done; try lia. intros i Hi. rewrite Hnot by done.
      rewrite Hro, elem_of_app, elem_of_seqZ. split; [|intros [?|[?|?]]; auto; left; lia].
      intros [?|?]; [|auto]. destruct (decide (4 - (left - size) ≤ i)); [by left|right; left; lia]. }
  set (d1 := set_tr (set_port (note_made (set_tickAt d None) pk) o w) tr).
  assert (∃ tk, (if (0 <? left - size) && io_isStalled d1 then d1 else io_schedule p env d1)
    = set_tr (repack (note_made (set_tickAt d None) pk) o w tk) tr ∧ (0 < left - size → tk ≠ None ∨ o ≠ [])) as (tk & E & Htk).
  { case_match eqn:Es; zbool.
    - exists None. split; [by destruct d|]. intros _. right. by apply (stalled d1).
    - destruct (io_schedule_some env d1) as [t ->]. exists (Some t). split; [done|]. by left. }
  eexists _, (left - size). split; [by f_equal|]. fold d1. rewrite E. split; [by apply HR'|].
  unfold io_load. cbn. unfold ticking. cbn. repeat case_match; lia.
Qed.

Lemma reading_tick env d left : reading d left → io_tickAt d ≠ None →
  ∃ d' left', io_tick p env d = Ok d' ∧ reading d' left' ∧ 6 * left' + io_load d' < 6 * left + io_load d.
Proof.
  intros HR Ht. pose proof HR as []. assert (ticking d = 1) as Htk by (unfold ticking; by destruct (io_tickAt d)).
  destruct rg_data0 as (cw & wd & dn & cd & rd & Htr & _).
  assert ((0 < left → io_outstandingPkts d ≠ []) → reading (set_tickAt d None) left) as Hsame.
  { intros H. apply (reading_repack d left (io_outstandingPkts d) (io_wire d) None HR); [done|]. intros. right. auto. }
  assert (io_load (set_tickAt d None) + 1 = io_load d) as Hload by (unfold io_load; rewrite Htk; cbn; lia).
  assert (∀ d' l, reading d' l → t_needToWrite (io_tr d') = false) as Hnw
    by (intros d' l [_ _ _ _ _ _ _ _ (?&?&?&?&?&->&_) _]; done).
  unfold io_tick. cbn zeta. change (io_running (set_tickAt d None)) with (io_running d). rewrite rg_run0. cbn [negb].
  change (io_isStalled (set_tickAt d None)) with (io_isStalled d).
  change (io_tr (set_tickAt d None)) with (io_tr d). rewrite Htr. cbn [t_needToRead].
  destruct (io_isStalled d) eqn:Es.
  { exists (set_tickAt d None), left. split_and!; [done| |lia]. apply Hsame. intros _. by apply stalled. }
  destruct (Z.ltb_spec 0 left); cbn [andb negb].
  - destruct (tryRead_reading env d left HR) as (d' & left' & -> & HR' & Hm); [done|]. cbn [mbind outcome_bind].
    rewrite (Hnw d' left' HR'). exists d', left'. split_and!; [done..|lia].
  - exists (set_tickAt d None), left. cbn [mbind outcome_bind]. change (io_tr (set_tickAt d None)) with (io_tr d). rewrite Htr.
    split_and!; [done| |lia]. apply Hsame. lia.
Qed.

Lemma length_result : length result = 4%nat.
Proof. done. Qed.

Lemma writes_next l size : 0 ≤ l → 0 ≤ size → l + size ≤ 4 →
  zip (seqZ a (l + size)) (take (Z.to_nat (l + size)) result) =
  zip (seqZ a l) (take (Z.to_nat l) result) ++
  zip (seqZ (a + l) size) (take (Z.to_nat size) (drop (Z.to_nat l) result)).
Proof.
  intros. rewrite seqZ_app by lia. rewrite Z2Nat.inj_add by lia.
  rewrite <-take_take_drop, zip_with_app; [done|].
  rewrite length_seqZ, length_take, length_result. lia.
Qed.

Lemma tryWrite_writing env d left : writing d left → 0 < left →
  ∃ d' left', io_tryWrite p env (set_tickAt d None) = Ok d' ∧ writing d' left' ∧
    6 * left' + io_load d' ≤ 6 * left + io_load d - ticking d - 1.
Proof.
  intros HR Hl. pose proof HR as [].
  destruct wg_data0 as (cr & ba & dn & rd & Ht & Hdn & Hsum).
  unfold inU in Ha. unfold io_tryWrite. cbn zeta. change (io_tr (set_tickAt d None)) with (io_tr d). rewrite Ht.
  cbn [t_writeLeft t_currentWriteAddr t_curData t_totalLength]. rewrite (proj2 (Z.leb_gt _ _)) by lia.
  destruct (io_chunk_spec (a + (4 - left)) left) as (size & -> & Hsz & Hline); [lia..|].
  cbn [mbind outcome_bind deref]. rewrite (wrapU_id 64 (4 - left)) by (split; lia).
  rewrite mem_read_ok by (rewrite ?length_result; lia). cbn [mbind outcome_bind].
  set (pk := mkIoPacket false _ size _).
  destruct (io_sendPacket_shape env (note_made (set_tickAt d None) pk) pk) as (o & w & -> & Hp & Hlen).
  change (io_packets (note_made (set_tickAt d None) pk)) with (io_packets d) in Hp. cbn in Hlen.
  rewrite (wrapU_id 64 (left - size)), (wrapU_id 64 (a + (4 - left) + size)) by (split; lia).
  set (tr := mkTransfer _ _ _ _ _ _ _ _ _ _ _ _).
  assert (∀ tk, writing (set_tr (repack (note_made (set_tickAt d None) pk) o w tk) tr) (left - size)) as HR'.
  { intros tk. constructor; cbn; try done; try lia; unfold io_packets in *; cbn.
    - destruct wg_made0 as (rs & ws & -> & Hrs & Hin & Hws & Hseq). exists rs, (ws ++ [pk]).
      rewrite <-!app_assoc. split_and!; [done|done|..].
      + apply Forall_app; split; [done|]. constructor; [|done]. split; cbn; lia.
      + apply Forall_app; split; [done|]. constructor; [|done]. by intros [].
      + unfold writes_of in *. rewrite bind_app, Hseq. replace (4 - (left - size)) with ((4 - left) + size) by lia.
        rewrite writes_next by lia. f_equal. apply app_nil_r.
    - rewrite Hp. constructor; [|done]. split; [by intros []|]. cbn. lia.
    - subst tr. cbn. replace (a + (4 - left) + size) with (a + (4 - (left - size))) by lia.
      exists cr, ba, dn, rd. split_and!; [done|lia..|]. rewrite Hp.
      change (size + sizes (io_outstandingPkts d ++ io_wire d) + dn + (left - size) = 4). lia.
    - right. intros E. rewrite E in Hp. by apply Permutation_nil_cons in Hp. }
  set (d1 := set_tr (set_port (note_made (set_tickAt d None) pk) o w) tr).
  assert (∃ tk, (if 0 <? left - size then d1 else io_schedule p env d1)
    = set_tr (repack (note_made (set_tickAt d None) pk) o w tk) tr) as (tk & E).
  { case_match eqn:Es; [exists None; by destruct d|].
    destruct (io_schedule_some env d1) as [t ->]. by exists (Some t). }
  eexists _, (left - size). split; [by f_equal|]. fold d1. rewrite E. split; [by apply HR'|].
  unfold io_load. cbn. unfold ticking. cbn. repeat case_match; lia.
Qed.

Lemma writing_tick env d left : writing d left → io_tickAt d ≠ None →
  ∃ d' left', io_tick p env d = Ok d' ∧ writing d' left' ∧ 6 * left' + io_load d' < 6 * left + io_load d.
Proof.
  intros HR Ht. pose proof HR as []. assert (ticking d = 1) as Htk by (unfold ticking; by destruct (io_tickAt d)).
  destruct wg_data0 as (cr & ba & dn & rd & Htr & Hdn & Hsum).
  assert (io_packets d ≠ [] → writing (set_tickAt d None) left) as Hsame.
  { intros H. apply (writing_repack d left (io_outstandingPkts d) (io_wire d) None HR); [done|]. by right. }
  assert (io_load (set_tickAt d None) + 1 = io_load d) as Hload by (unfold io_load; rewrite Htk; cbn; lia).
  unfold io_tick. cbn zeta. change (io_running (set_tickAt d None)) with (io_running d). rewrite wg_run0. cbn [negb].
  change (io_isStalled (set_tickAt d None)) with (io_isStalled d).
  change (io_tr (set_tickAt d None)) with (io_tr d). rewrite Htr. cbn [t_needToRead andb].
  destruct (io_isStalled d) eqn:Es.
  { exists (set_tickAt d None), left. split_and!; [done| |lia]. apply Hsame.
    unfold io_packets. intros [? _]%app_nil. by apply (stalled d). }
  cbn [mbind outcome_bind]. change (io_isStalled (set_tickAt d None)) with (io_isStalled d).
  change (io_tr (set_tickAt d None)) with (io_tr d). rewrite Htr, Es.
  cbn [t_needToWrite t_totalLength t_writeLeft t_readDone negb andb]. rewrite wrapU_id by (split; lia).
  destruct (Z.ltb_spec (4 - left) 4).
  - destruct (tryWrite_writing env d left HR) as (d' & left' & -> & HR' & Hm); [lia|].
    exists d', left'. split_and!; [done..|lia].
  - exists (set_tickAt d None), left. split_and!; [done| |lia]. apply Hsame.
    intros E. rewrite E in Hsum. cbn in Hsum. lia.
Qed.

Lemma finished_tick env d : finished d → io_tickAt d ≠ None →
  ∃ d', io_tick p env d = Ok d' ∧ finished d' ∧
    (if io_processingDone d' then 2 else 0) + ticking d' < (if io_processingDone d then 2 else 0) + ticking d.
Proof.
  intros [[Hr Hv] Hrun Ho Hm Hpk] Ht.
  assert (ticking d = 1) as Htk by (unfold ticking; by destruct (io_tickAt d)).
  unfold io_tick. cbn [set_tickAt io_running]. rewrite Hrun. cbn [negb].
  unfold io_checkRun. cbn [set_tickAt io_mmreg io_mmrval]. rewrite Hr.
  change (vec_get (le_bytes 4 cfg_done ++ rest) 0) with (Ok (cfg_done mod 2 ^ 8)). cbn [mbind outcome_bind].
  assert (Z.testbit (cfg_done mod 2 ^ 8) 0 = false) as ->.
  { rewrite Z.mod_pow2_bits_low by lia. unfold cfg_done, cfg_write, cfg_run.
    by rewrite Z.lor_spec, !Z.land_spec, !andb_false_r. }
  cbn [mbind outcome_bind io_tickAt io_processingDone]. unfold io_schedule, io_schedule_at.
  change (io_processingDone (set_tickAt d None)) with (io_processingDone d). destruct (io_processingDone d) eqn:Ed.
  all: eexists; split; [done|]; split; [constructor; first [done|by split|exact Hm]|]; rewrite Htk; cbn; rewrite ?Ed; unfold ticking; cbn; lia.
Qed.

Lemma phase_tick env d m : phase d m → io_tickAt d ≠ None →
  ∃ d' m', io_tick p env d = Ok d' ∧ phase d' m' ∧ m' < m.
Proof.
  intros [Hd|left Hd|left Hd|Hd] Ht.
  - destruct (armed_tick env d Hd) as (d' & -> & HR & Hl). do 2 eexists. split; [done|]. split; [by eapply ph_reading|].
    unfold ticking. destruct (io_tickAt d); [lia|done].
  - destruct (reading_tick env d left Hd Ht) as (d' & l' & -> & HR & Hl).
    do 2 eexists. split; [done|]. split; [by eapply ph_reading|]. lia.
  - destruct (writing_tick env d left Hd Ht) as (d' & l' & -> & HR & Hl).
    do 2 eexists. split; [done|]. split; [by eapply ph_writing|]. lia.
  - destruct (finished_tick env d Hd Ht) as (d' & -> & HR & Hl).
    do 2 eexists. split; [done|]. split; [by eapply ph_finished|]. lia.
Qed.

(** ** Retries *)

Lemma retry_phase env d m : phase d m → io_isStalled d = true →
  ∃ d' m', io_recvReqRetry p env d = Ok d' ∧ phase d' m' ∧ (d' = d ∨ m' < m).
Proof.
  intros Hd Hs. unfold io_recvReqRetry. rewrite Hs. cbn [assert_ mbind outcome_bind].
  destruct (io_retryLoop_shape env (io_outstandingPkts d) d eq_refl) as (o & w & tk & -> & Hp & Hc).
  fold (repack d o w tk). exists (repack d o w tk).
  destruct Hc as [(-> & -> & ->)|[Htk Hlen]].
  { rewrite repack_id. eauto. }
  assert (io_load (repack d o w tk) < io_load d) as Hl.
  { unfold io_load. cbn. unfold ticking. cbn. repeat case_match; lia. }
  apply stalled in Hs. destruct Hd as [Hd|left Hd|left Hd|Hd].
  - destruct Hd. by apply app_nil in ar_pk0 as [? _].
  - exists (50 + 6 * left + io_load (repack d o w tk)). split_and!; [done| |right; lia].
    by apply ph_reading, reading_repack; [..|left].
  - exists (4 + 6 * left + io_load (repack d o w tk)). split_and!; [done| |right; lia].
    by apply ph_writing, writing_repack; [..|left].
  - destruct Hd. by apply app_nil in fi_pk0 as [? _].
Qed.

(** ** Responses *)

Lemma lookup_bytes addr size k : 0 ≤ k < size → bytes μ addr size !! Z.to_nat k = Some (μ (addr + k)).
Proof.
  intros. unfold bytes. rewrite list_lookup_fmap, lookup_seqZ_lt by lia. cbn. do 2 f_equal. lia.
Qed.

Lemma written_lookup cd cd' addr size i : 0 ≤ addr - a → 0 ≤ size → 0 ≤ i →
  mem_write cd (addr - a) (bytes μ addr size) = Ok cd' →
  cd' !! Z.to_nat i = if (addr - a <=? i) && (i <? addr - a + size) then Some (μ (a + i)) else cd !! Z.to_nat i.
Proof.
  intros Ho Hs Hi Hw. assert (Z.of_nat (length (bytes μ addr size)) = size) as Hl by (rewrite length_bytes; lia).
  destruct (_ && _) eqn:E; zbool.
  - pose proof (mem_write_inside _ _ _ _ (Z.to_nat (i - (addr - a))) Hw ltac:(lia)) as Hin.
    rewrite lookup_bytes in Hin by lia. rewrite <-Z2Nat.inj_add in Hin by lia.
    replace (addr - a + (i - (addr - a))) with i in Hin by lia. rewrite Hin. do 2 f_equal. lia.
  - apply (mem_write_lookup _ _ _ _ _ Hw). rewrite Hl. apply andb_false_iff in E as [E|E]; zbool; lia.
Qed.

Lemma filled_response pend pend' left dn cd rd addr size :
  filled pend left dn cd rd → pend ≡ₚ seqZ addr size ++ pend' → NoDup pend →
  (∀ i, i ∈ pend → a ≤ i < a + (4 - left)) → 0 < size → 0 ≤ left →
  ∃ cd' rd' dn', mem_write cd (addr - a) (bytes μ addr size) = Ok cd' ∧
    mark_done rd (addr - a) size = Ok rd' ∧ contiguous (Z.to_nat (4 - dn)) rd' dn 4 = Ok dn' ∧ dn' ≤ 4 ∧
    (dn' < 4 → filled pend' left dn' cd' rd') ∧ (4 ≤ dn' → left = 0 ∧ pend' = [] ∧ cd' = bytes μ a 4).
Proof.
  intros (Hcd & Hrd & Hdn & Hfst & Hpre & Hnot & Hdat) Hp Hnd Hrng Hs Hl.
  rewrite Hp in Hnd. apply NoDup_app in Hnd as (_ & Hdis & _). setoid_rewrite elem_of_seqZ in Hdis.
  setoid_rewrite Hp in Hrng. setoid_rewrite elem_of_app in Hrng. setoid_rewrite elem_of_seqZ in Hrng.
  pose proof (Hrng addr ltac:(left; lia)). pose proof (Hrng (addr + size - 1) ltac:(left; lia)).
  destruct (mem_write_ok cd (addr - a) (bytes μ addr size)) as (cd' & Hw & Hcd');
    [lia|rewrite length_bytes; lia|].
  destruct (mark_done_spec rd (addr - a) size) as (rd' & Hm & Hrd' & Hlk); [lia..|].
  destruct (contiguous_spec (Z.to_nat (4 - dn)) rd' dn 4) as (dn' & Hc & Hdn' & Hall & Hstop); [lia..|].
  pose proof (written_lookup cd cd' addr size) as Hcl.
  assert (∀ i, 0 ≤ i < dn' → rd' !! Z.to_nat i = Some true) as Hpre'.
  { intros i Hi. destruct (decide (i < dn)); [|apply Hall; lia]. rewrite Hlk by lia. case_match; [done|]. apply Hpre. lia. }
  assert (∀ i, 0 ≤ i < 4 → rd' !! Z.to_nat i = Some false ↔ 4 - left ≤ i ∨ a + i ∈ pend') as Hnot'.
  { intros i Hi. rewrite Hlk by lia. destruct (_ && _) eqn:E; zbool.
    - split; [done|]. intros [?|Hin]; [lia|]. exfalso. by apply (Hdis (a + i)); [lia|].
    - rewrite Hnot, Hp, elem_of_app, elem_of_seqZ by done.
      apply andb_false_iff in E as [E|E]; zbool; (split; [intros [?|[?|?]]|intros [?|?]]); auto; lia. }
  assert (∀ i, 0 ≤ i < 4 → rd' !! Z.to_nat i = Some true → cd' !! Z.to_nat i = Some (μ (a + i))) as Hdat'.
  { intros i Hi. rewrite Hlk, Hcl by (lia || done). case_match; [done|]. by apply Hdat. }
  exists cd', rd', dn'. split_and!; [done..|lia| |].
  - intros Hlt. unfold filled. split_and!; try done; lia || auto.
  - intros Hge. assert (dn' = 4) as -> by lia. split_and!.
    + destruct (decide (left = 0)); [done|]. pose proof (proj2 (Hnot' 3 ltac:(lia)) ltac:(left; lia)).
      by rewrite Hpre' in * by lia.
    + destruct pend' as [|x l]; [done|]. pose proof (Hrng x ltac:(right; by left)).
      pose proof (proj2 (Hnot' (x - a) ltac:(lia))) as Hx. rewrite Hpre' in Hx by lia.
      exfalso. assert (Some true = Some false) by (apply Hx; right; replace (a + (x - a)) with x by lia; by left). done.
    + apply list_eq_same_length with 4%nat; [done|lia|]. intros i x y Hi Hx Hy.
      pose proof (Hdat' (Z.of_nat i) ltac:(lia) (Hpre' (Z.of_nat i) ltac:(lia))) as Hv. rewrite Nat2Z.id in Hv.
      pose proof (lookup_bytes a 4 (Z.of_nat i) ltac:(lia)) as Hb. rewrite Nat2Z.id in Hb. congruence.
Qed.

(** The end of the reads starts the writes. *)
Lemma processData_writing env d cw wd cr ra bt rl dn rd :
  regs d cfg_run → io_running d = false → io_packets d = [] →
  io_out d = out0 ++ [IoClearInt (ia_int_num p)] → (∃ rs, io_made d = made0 ++ rs ∧ all_read rs) →
  io_tr d = mkTransfer false false cr cw ra bt wd rl dn 4 (Some (bytes μ a 4)) rd →
  ∃ d', io_processData p env d = Ok d' ∧ writing d' 4 ∧ io_load d' = 1.
Proof.
  intros Hr Hrun Hpk Ho (rs & Hm & Hrs) Ht. pose proof cfg_ranges as (Hc1 & Hc2 & _).
  unfold io_processData. rewrite Ht. cbn [t_curData deref mbind outcome_bind].
  rewrite mem_read_ok by (rewrite ?length_bytes; lia). cbn [mbind outcome_bind]. rewrite drop_0.
  rewrite firstn_all2 by (rewrite length_bytes; lia).
  fold result. unfold io_prepWrite. cbn [set_done io_running]. rewrite Hrun.
  cbn [assert_ negb mbind outcome_bind Z.ltb Z.compare].
  destruct (io_update_config_ok (emit (set_run (set_done d true) true) (IoClearInt (ia_int_num p))) cfg_run
    (fun v => Z.land v 0xefffffff)) as (r & -> & Er); [by destruct Hr|done|]. cbn [mbind outcome_bind].
  rewrite mem_read_ok by (rewrite ?length_result; lia). cbn [mbind outcome_bind]. rewrite drop_0.
  rewrite firstn_all2 by (rewrite length_result; lia).
  set (d1 := set_tr _ _). destruct (io_schedule_some env d1) as [t ->]. eexists. split; [done|].
  apply app_nil in Hpk as Hpk2. destruct Hpk2 as [Hpo Hpw].
  split; [|unfold io_load, ticking; cbn; by rewrite Hpo, Hpw].
  assert (io_packets (set_tickAt d1 (Some t)) = []) as Hpk1 by exact Hpk.
  destruct Hr as [_ Hv].
  constructor; rewrite ?Hpk1; try done.
  - cbn. by rewrite Ho, <-app_assoc.
  - exists rs, []. cbn. by rewrite app_nil_r.
  - cbn [set_tickAt io_tr d1 set_tr]. do 4 eexists.
    split; [|split]; [cbn; rewrite Ht; cbn; rewrite Hv; replace (a + (4 - 4)) with a by lia; done|lia|done].
  - by left.
Qed.

Lemma pending_delete d i pk : io_wire d !! i = Some pk →
  io_packets d ≡ₚ pk :: (io_outstandingPkts d ++ delete i (io_wire d)).
Proof.
  intros Hi. unfold io_packets. rewrite (delete_Permutation (io_wire d) i pk) at 1 by done.
  symmetry. apply Permutation_middle.
Qed.

Lemma reading_response env d left i pk : reading d left → io_wire d !! i = Some pk →
  ∃ d', io_recvRead p env (set_port d (io_outstandingPkts d) (delete i (io_wire d))) pk
    (bytes μ (ip_addr pk) (ip_size pk)) = Ok d' ∧
    (reading d' left ∧ io_load d' < io_load d ∨ writing d' 4 ∧ io_load d' = 1).
Proof.
  intros [] Hi. pose proof (pending_delete d i pk Hi) as Hp.
  set (rest' := io_outstandingPkts d ++ delete i (io_wire d)) in *.
  destruct rg_data0 as (cw & wd & dn & cd & rd & Ht & Hf). unfold inU in Ha.
  pose proof rg_pk0 as Hall. rewrite Hp in Hall. apply Forall_cons in Hall as ([Hrd Hsz] & Hall).
  assert (reads_of (io_packets d) ≡ₚ seqZ (ip_addr pk) (ip_size pk) ++ reads_of rest') as Hro.
  { rewrite Hp. unfold reads_of at 1. cbn. by destruct (ip_read pk). }
  destruct (filled_response _ _ _ _ _ _ _ _ Hf Hro rg_nodup0 rg_range0 Hsz ltac:(lia))
    as (cd' & rd' & dn' & Hw & Hm & Hc & Hle & Hmore & Hend).
  assert (a ≤ ip_addr pk < a + 4) as Hadr.
  { pose proof (rg_range0 (ip_addr pk)) as H. rewrite Hro, elem_of_app, elem_of_seqZ in H. lia. }
  unfold io_recvRead. cbn zeta.
  change (io_tr (set_port d _ _)) with (io_tr d). rewrite Ht.
  cbn [t_beginAddr t_curData t_readsDone t_readDone t_totalLength t_needToRead]. rewrite wrapU_id by (split; lia).
  cbn [deref mbind outcome_bind]. rewrite Hw. cbn [mbind outcome_bind]. rewrite Hm. cbn [mbind outcome_bind].
  rewrite Hc. cbn [mbind outcome_bind]. set (d1 := set_tr _ _).
  assert (Hlen : length (delete i (io_wire d)) = pred (length (io_wire d)))
    by (rewrite length_delete; [lia|eauto]).
  apply lookup_lt_Some in Hi as Hlt.
  destruct (Z.leb_spec 4 dn').
  - destruct Hend as (-> & Hnil & ->); [done|].
    assert (rest' = []) as Hr0.
    { destruct rest' as [|q l]; [done|]. apply Forall_cons in Hall as ([Hq ?] & _).
      unfold reads_of in Hnil. cbn in Hnil. destruct (ip_read q); [|done].
      apply app_nil in Hnil as [Hnil _]. apply (f_equal length) in Hnil. unfold pk_bytes in Hnil.
      rewrite length_seqZ in Hnil. cbn in Hnil. lia. }
    destruct (processData_writing env (set_run d1 false) cw wd (a + (4 - 0)) a 0 0 dn' (Some rd'))
      as (d' & -> & HW & Hl); try done.
    exists d'. split; [done|]. by right.
  - exists d1. split; [done|]. left. split.
    + constructor; try done.
      * change (io_packets d1) with rest'. by rewrite Hro in rg_nodup0; apply NoDup_app in rg_nodup0 as (_ & _ & ?).
      * change (io_packets d1) with rest'. intros j Hj. apply rg_range0. rewrite Hro. apply elem_of_app. by right.
      * change (io_packets d1) with rest'. exists cw, wd, dn', cd', rd'. split; [done|]. by apply Hmore.
    + unfold io_load. subst d1. cbn. unfold ticking. cbn. rewrite Hlen. lia.
Qed.

Lemma sizes_nonneg ps : Forall (fun pk => ¬ ip_read pk ∧ 0 < ip_size pk) ps → 0 ≤ sizes ps.
Proof. induction 1 as [|pk ps [_ ?] _ IH]; cbn; [done|]. fold (sizes ps). lia. Qed.
Lemma sizes_zero ps : Forall (fun pk => ¬ ip_read pk ∧ 0 < ip_size pk) ps → sizes ps = 0 → ps = [].
Proof.
  intros Hps. destruct Hps as [|pk ps [_ ?] Hps]; [done|]. pose proof (sizes_nonneg ps Hps). cbn. fold (sizes ps). lia.
Qed.

Lemma writing_response env d left i pk : writing d left → io_wire d !! i = Some pk →
  ∃ d', io_recvWrite p env (set_port d (io_outstandingPkts d) (delete i (io_wire d))) pk = Ok d' ∧
    (writing d' left ∧ io_load d' < io_load d ∨ finished d' ∧ io_processingDone d' = true).
Proof.
  intros [] Hi. pose proof (pending_delete d i pk Hi) as Hp.
  set (rest' := io_outstandingPkts d ++ delete i (io_wire d)) in *.
  destruct wg_data0 as (cr & ba & dn & rd & Ht & Hdn & Hsum).
  pose proof wg_pk0 as Hall. rewrite Hp in Hall, Hsum. apply Forall_cons in Hall as ([Hrd Hsz] & Hall).
  change (sizes (pk :: rest')) with (ip_size pk + sizes rest') in Hsum.
  pose proof (sizes_nonneg _ Hall) as Hnn. apply lookup_lt_Some in Hi as Hlt.
  assert (Hlen : length (delete i (io_wire d)) = pred (length (io_wire d)))
    by (rewrite length_delete; [lia|eauto]).
  unfold io_recvWrite. cbn zeta. change (io_tr (set_port d _ _)) with (io_tr d). rewrite Ht.
  cbn [t_writeDone t_totalLength]. rewrite wrapU_id by (split; lia). set (d1 := set_tr _ _).
  destruct (Z.ltb_spec (dn + ip_size pk) 4).
  - destruct (io_schedule_some env d1) as [t ->]. eexists. split; [done|]. left. split.
    + constructor; try done.
      * change (io_packets (set_tickAt d1 (Some t))) with rest'.
        exists cr, ba, (dn + ip_size pk), rd. split; [done|]. lia.
      * by left.
    + unfold io_load. subst d1. cbn. unfold ticking. cbn. rewrite Hlen. case_match; lia.
  - pose proof cfg_ranges as (_ & Hc & _).
    destruct (io_update_config_ok (emit d1 (IoSendInt (ia_int_num p))) cfg_write
      (fun v => Z.lor v 0x80000000)) as (r & -> & Er); [by destruct wg_regs0|done|].
    cbn [mbind outcome_bind]. assert (rest' = []) as Hr0 by (apply sizes_zero; [done|lia]).
    eexists. split; [done|]. right. split; [|done]. destruct wg_regs0 as [_ Hv].
    assert (left = 0) as -> by lia. constructor; try done.
    cbn. by rewrite wg_out0, <-app_assoc.
Qed.

Lemma phase_response env d m i pk : phase d m → io_wire d !! i = Some pk →
  ∃ d' m', io_recvPacket p env (set_port d (io_outstandingPkts d) (delete i (io_wire d))) pk
      (if ip_read pk then bytes μ (ip_addr pk) (ip_size pk) else []) = Ok d' ∧ phase d' m' ∧ m' < m.
Proof.
  intros Hd Hi. unfold io_recvPacket.
  assert (pk ∈ io_packets d) as Hin by (apply elem_of_app; right; by eapply list_elem_of_lookup_2).
  destruct Hd as [Hd|left Hd|left Hd|Hd].
  - destruct Hd. rewrite ar_pk0 in Hin. by apply elem_of_nil in Hin.
  - pose proof (rg_pk _ _ Hd) as Hall. rewrite Forall_forall in Hall. destruct (Hall pk Hin) as [Hrd _].
    destruct (ip_read pk); [|done]. pose proof (rg_left _ _ Hd).
    assert (0 ≤ io_load d) by (unfold io_load, ticking; case_match; lia).
    destruct (reading_response env d left i pk Hd Hi) as (d' & -> & [[HR ?]|[HW ?]]).
    + do 2 eexists. split; [done|]. split; [by apply (ph_reading d' left)|lia].
    + do 2 eexists. split; [done|]. split; [by apply (ph_writing d' 4)|lia].
  - pose proof (wg_pk _ _ Hd) as Hall. rewrite Forall_forall in Hall. destruct (Hall pk Hin) as [Hrd _].
    destruct (ip_read pk); [by destruct Hrd|]. pose proof (wg_left _ _ Hd).
    assert (0 ≤ io_load d) by (unfold io_load, ticking; case_match; lia).
    destruct (writing_response env d left i pk Hd Hi) as (d' & -> & [[HR ?]|[HW Hpd]]).
    + do 2 eexists. split; [done|]. split; [by apply (ph_writing d' left)|lia].
    + do 2 eexists. split; [done|]. split; [by apply (ph_finished d')|]. rewrite Hpd. unfold ticking. case_match; lia.
  - destruct Hd. rewrite fi_pk0 in Hin. by apply elem_of_nil in Hin.
Qed.

(** ** Runs *)

Lemma phase_event env d m e : phase d m → io_enabled d e = true →
  ∃ d' m', io_event p μ env d e = Ok d' ∧ phase d' m' ∧ (d' = d ∨ m' < m).
Proof.
  intros Hd He. destruct e as [|i|]; cbn in He |- *.
  - apply bool_decide_eq_true in He. destruct (phase_tick env d m Hd He) as (d' & m' & -> & ? & ?). eauto 10.
  - apply bool_decide_eq_true in He as [pk Hi]. unfold vec_get. rewrite Hi. cbn [mbind outcome_bind].
    destruct (phase_response env d m i pk Hd Hi) as (d' & m' & -> & ? & ?). eauto 10.
  - by apply retry_phase.
Qed.

Lemma phase_bound d m : phase d m → 0 ≤ m.
Proof.
  assert (∀ d, 0 ≤ ticking d ∧ 0 ≤ io_load d) as H.
  { intros d'. unfold io_load, ticking. case_match; lia. }
  destruct (H d). intros [?|left HR|left HW|?]; [lia|pose proof (rg_left _ _ HR); lia|pose proof (wg_left _ _ HW); lia|].
  case_match; lia.
Qed.

Lemma pending_enabled d : io_packets d ≠ [] → ∃ e, io_enabled d e = true.
Proof.
  unfold io_packets. intros Hp. destruct (io_isStalled d) eqn:Es; [by exists InRetry|].
  apply not_stalled in Es. rewrite Es in Hp. exists (InResp 0). cbn. apply bool_decide_eq_true.
  destruct (io_wire d); [done|]. by eexists.
Qed.

Lemma phase_live d m : phase d m → finished d ∨ ∃ e, io_enabled d e = true.
Proof.
  assert (io_tickAt d ≠ None → ∃ e, io_enabled d e = true) as Htick
    by (intros ?; exists InTick; by apply bool_decide_eq_true).
  intros [Hd|n Hd|n Hd|Hd]. 4: by left.
  all: right.
  - apply Htick, Hd.
  - pose proof (rg_left _ _ Hd). destruct (decide (n = 0)) as [->|].
    + apply pending_enabled. intros E.
      destruct (rg_data _ _ Hd) as (cw & wd & dn & cd & rd & _ & _ & _ & Hdn & Hf & _ & Hnot & _).
      apply Hnot in Hf as [?|Hin]; [lia| |lia]. rewrite E in Hin. by apply elem_of_nil in Hin.
    + destruct (rg_live _ _ Hd ltac:(lia)) as [?|Ho]; [auto|]. apply pending_enabled.
      by intros [? _]%app_nil.
  - destruct (wg_live _ _ Hd); [auto|by apply pending_enabled].
Qed.

Lemma phase_steps d m d' : phase d m → rtc (io_step p μ) d d' → ∃ m', phase d' m'.
Proof.
  intros Hd Hs. revert m Hd. induction Hs as [|d1 d2 d3 (env & e & He & Hev) _ IH]; [eauto|]. intros m Hd.
  destruct (phase_event env d1 m e Hd He) as (x & m' & Hx & Hph & _). rewrite Hev in Hx. simplify_eq. eauto.
Qed.

Lemma phase_changes n d m d' : phase d m → nsteps (io_change p μ) n d d' → Z.of_nat n ≤ m.
Proof.
  intros Hd Hs. revert m Hd.
  induction Hs as [d|n d1 d2 d3 [(env & e & He & Hev) Hne] _ IH]; intros m Hd; [by eapply phase_bound|].
  destruct (phase_event env d1 m e Hd He) as (x & m' & Hx & Hph & [->|?]); rewrite Hev in Hx; simplify_eq.
  apply IH in Hph. lia.
Qed.
End Run.

(** A device that is not at work. *)
Definition io_idle (d : IOAcc) : Prop := io_running d = false ∧ io_packets d = [].

(** The packets of a run, as far as it has come: the four bytes at the address are
    asked for in order, each once, then the result is written there, in packets
    within cache lines. *)
Definition io_traffic (p : IoParams) (μ : Z → Z) (a : Z) (ps : list IoPacket) : Prop :=
  ∃ rs ws n k, ps = rs ++ ws ∧ Forall (in_line p) ps ∧ 0 ≤ n ≤ 4 ∧ 0 ≤ k ≤ 4 ∧ (0 < k → n = 4) ∧
    reads_of rs = seqZ a n ∧ writes_of rs = [] ∧
    reads_of ws = [] ∧ writes_of ws = zip (seqZ a k) (take (Z.to_nat k) (io_compute (bytes μ a 4))).

Lemma reads_no_writes rs : Forall (fun pk => ip_read pk) rs → writes_of rs = [].
Proof. induction 1 as [|pk rs H _ IH]; [done|]. unfold writes_of in *. cbn. by destruct (ip_read pk). Qed.
Lemma writes_no_reads ws : Forall (fun pk => ¬ ip_read pk) ws → reads_of ws = [].
Proof. induction 1 as [|pk rs H _ IH]; [done|]. unfold reads_of in *. cbn. destruct (ip_read pk); [by destruct H|done]. Qed.

Lemma phase_traffic p μ a cfg rest made0 out0 d m : phase p μ a cfg rest made0 out0 d m →
  ∃ ps, io_made d = made0 ++ ps ∧ io_traffic p μ a ps.
Proof.
  assert (∀ rs ws n k, Forall (in_line p) rs → Forall (in_line p) ws → Forall (fun pk => ip_read pk) rs →
    Forall (fun pk => ¬ ip_read pk) ws → 0 ≤ n ≤ 4 → 0 ≤ k ≤ 4 → (0 < k → n = 4) → reads_of rs = seqZ a n →
    writes_of ws = zip (seqZ a k) (take (Z.to_nat k) (io_compute (bytes μ a 4))) →
    io_traffic p μ a (rs ++ ws)) as H.
  { intros rs ws n k ?? Hr Hw ?????. exists rs, ws, n, k. rewrite Forall_app.
    by rewrite (reads_no_writes rs Hr), (writes_no_reads ws Hw). }
  intros [Hd|l Hd|l Hd|Hd].
  - exists []. rewrite app_nil_r. split; [apply Hd|]. by apply (H [] [] 0 0).
  - pose proof (rg_left _ _ _ _ _ _ _ _ _ Hd). destruct (rg_made _ _ _ _ _ _ _ _ _ Hd) as (rs & -> & ? & ? & ?).
    exists (rs ++ []). rewrite app_nil_r. split; [done|]. rewrite <-(app_nil_r rs). apply (H rs [] (4 - l) 0); done || lia.
  - pose proof (wg_left _ _ _ _ _ _ _ _ _ Hd).
    destruct (wg_made _ _ _ _ _ _ _ _ _ Hd) as (rs & ws & -> & (? & ? & ?) & ? & ? & ?).
    exists (rs ++ ws). split; [done|]. apply (H rs ws 4 (4 - l)); done || lia.
  - destruct (fi_made _ _ _ _ _ _ _ _ Hd) as (rs & ws & -> & (? & ? & ?) & ? & ? & ?).
    exists (rs ++ ws). split; [done|]. by apply (H rs ws 4 4).
Qed.

Lemma load_uint_split m c : Forall (inU 8) m → load_uint m 0 4 = Ok c → m = le_bytes 4 c ++ drop 4 m ∧ inU 32 c.
Proof.
  intros Hb H. unfold load_uint, mem_read in H. destruct (in_block m 0 4) eqn:E; [|done].
  apply in_block_spec in E. cbn [mbind outcome_bind] in H. injection H as <-.
  change (Z.to_nat 0) with 0%nat. change (Z.to_nat 4) with 4%nat. rewrite drop_0.
  assert (length (take 4 m) = 4%nat) as Hl by (rewrite length_take; lia). split.
  - rewrite <-Hl at 1. rewrite le_bytes_val by (by apply Forall_take). by rewrite take_drop.
  - pose proof (le_val_range (take 4 m)) as Hr. rewrite Hl in Hr. done.
Qed.

Lemma write_arms p env d0 paddr data d1 cfg a :
  io_idle d0 → io_write p env d0 paddr data = Ok d1 → Forall (inU 8) (io_mmreg d1) →
  load_uint (io_mmreg d1) 0 4 = Ok cfg → load_uint (io_mmreg d1) 4 4 = Ok a → Z.odd cfg = true →
  inU 32 a ∧ inU 32 cfg ∧ armed a cfg (drop 4 (io_mmreg d1)) (io_made d0) (io_out d0) d1.
Proof.
  intros [Hrun Hpk] Hw Hb Hc Ha Hodd. unfold io_write in Hw. mon.
  set (d := set_mmr d0 x x0) in *.
  assert (∃ t, io_schedule_at d (ie_nextCycle env) = set_tickAt d (Some t)) as [t E].
  { unfold io_schedule_at. case_match eqn:Et; eexists; [|done]. unfold set_tickAt. by rewrite <-Et. }
  rewrite E in *. cbn in Hb, Hc, Ha |- *. destruct (load_uint_split x cfg Hb Hc) as [Hx Hin].
  split_and!; [|done|].
  - unfold load_uint in Ha. mon. pose proof (le_val_range x1) as Hr. apply mem_read_length in H1. rewrite H1 in Hr. exact Hr.
  - constructor; try done. split; [exact Hx|]. cbn. congruence.
Qed.

(** C40: Once a register write of the host has set the run bit of an idle device,
    whatever the order of its ticks, of the responses of a memory [μ] and of
    retries: no event fails; the packets made are the reads of the four bytes at
    the address, each once, followed by the writes of the computed bytes to the
    same address, none across a cache line; the device changes at most 101 times;
    and until it has finished some event is due. When it has finished, everything
    has been written, the interrupt has been cleared twice and raised once, and
    the done bit is set. *)
Theorem ioacc_run p μ env d0 paddr data d1 cfg a :
  0 < ia_cacheLineSize p < 2 ^ 31 → io_idle d0 →
  io_write p env d0 paddr data = Ok d1 → Forall (inU 8) (io_mmreg d1) →
  load_uint (io_mmreg d1) 0 4 = Ok cfg → load_uint (io_mmreg d1) 4 4 = Ok a → Z.odd cfg = true →
  (∀ n d, nsteps (io_change p μ) n d1 d → (n ≤ 101)%nat) ∧
  ∀ d, rtc (io_step p μ) d1 d →
    (∀ env' e, io_enabled d e = true → ∃ d', io_event p μ env' d e = Ok d') ∧
    (∃ ps, io_made d = io_made d0 ++ ps ∧ io_traffic p μ a ps) ∧
    (finished p μ a cfg (drop 4 (io_mmreg d1)) (io_made d0) (io_out d0) d ∨ ∃ e, io_enabled d e = true).
Proof.
  intros Hcls Hidle Hw Hb Hc Ha Hodd.
  destruct (write_arms p env d0 paddr data d1 cfg a) as (Hia & Hic & Harm); try done.
  assert (phase p μ a cfg (drop 4 (io_mmreg d1)) (io_made d0) (io_out d0) d1 (100 + ticking d1)) as Hph
    by by apply ph_armed.
  split.
  - intros n d Hs. apply (phase_changes p μ a cfg _ _ _ Hcls Hia Hic _ _ _ _ Hph) in Hs.
    unfold ticking in Hs. case_match; lia.
  - intros d Hs. destruct (phase_steps p μ a cfg _ _ _ Hcls Hia Hic _ _ _ Hph Hs) as [m Hm]. split_and!.
    + intros env' e He. destruct (phase_event p μ a cfg _ _ _ Hcls Hia Hic env' d m e Hm He) as (d' & _ & -> & _). eauto.
    + by eapply phase_traffic.
    + by eapply phase_live.
Qed.

(** ** Examples *)

Module IoExample.
Definition params : IoParams := mkIoParams 0x2f000000 8 68 2 1.
Definition blank : Transfer := mkTransfer false false 0 0 0 0 0 0 0 0 None None.
Definition reset : IOAcc := IOAcc_new blank (replicate 8 0) 0.
Definition memory (x : Z) : Z := if x =? 0x81 then 7 else if x =? 0x82 then 1 else 0.
Definition yes : IoEnv := mkIoEnv 10 11 (fun _ _ => true).
Definition no : IoEnv := mkIoEnv 10 11 (fun _ _ => false).
Definition start (reg : list Z) : outcome IOAcc := io_write params yes reset 0x2f000000 reg.
Definition session (d : IOAcc) (es : list (IoEnv * IoInput)) : outcome IOAcc :=
  foldM (fun d '(env, e) => io_event params memory env d e) es d.

(** The host asks for the bytes at [0x81], which hold [0x0107]: the line of two bytes
    splits them into three packets each way, some refused at first. *)
Definition registers : list Z := le_bytes 4 1 ++ le_bytes 4 0x81.
Definition script : list (IoEnv * IoInput) :=
  [(yes, InTick); (yes, InTick); (no, InTick); (yes, InRetry); (yes, InTick); (yes, InResp 2);
   (yes, InResp 0); (yes, InTick); (yes, InResp 0);
   (no, InTick); (no, InRetry); (yes, InRetry); (yes, InTick); (yes, InResp 0); (yes, InTick);
   (yes, InTick); (yes, InResp 1); (yes, InResp 0); (yes, InTick); (yes, InTick)].
End IoExample.

Example ioacc_runs :
  match (let* d := IoExample.start IoExample.registers in IoExample.session d IoExample.script) with
  | Ok d => writes_of (io_made d) = [(0x81, 0x83); (0x82, 1); (0x83, 0); (0x84, 0)] ∧
      io_running d = false ∧ io_tickAt d = None ∧ io_out d = [IoClearInt 68; IoClearInt 68; IoSendInt 68] ∧
      io_read IoExample.params d 0x2f000000 4 = Ok (le_bytes 4 0x80000000)
  | Err _ => False
  end.
Proof. vm_compute. auto. Qed.

(** The quotient of [0x0107] is [0x83], four bytes wide: only its low byte is
    stored, and the byte above keeps what was read. *)
Example compute_keeps_upper_bytes : io_compute (le_bytes 4 0x107) = le_bytes 4 0x183.
Proof. reflexivity. Qed.

(** A second run started by a write of the low byte: the done bit of the first one is
    still set while the device works. *)
Example done_bit_stale :
  match (let* d := IoExample.start IoExample.registers in
         let* d := IoExample.session d IoExample.script in
         let* d := io_write IoExample.params IoExample.yes d 0x2f000000 [1] in
         IoExample.session d [(IoExample.yes, InTick)]) with
  | Ok d => io_running d = true ∧ io_read IoExample.params d 0x2f000000 4 = Ok (le_bytes 4 0x80000000)
  | Err _ => False
  end.
Proof. vm_compute. auto. Qed.

(** The run bit set while the device works: the run ends with the bit set and no
    event left that would see it. *)
Example run_bit_unseen :
  match (let* d := IoExample.start IoExample.registers in
         let* d := IoExample.session d (take 16 IoExample.script) in
         let* d := io_write IoExample.params IoExample.yes d 0x2f000000 [1] in
         IoExample.session d [(IoExample.yes, InTick); (IoExample.yes, InResp 1);
           (IoExample.yes, InTick); (IoExample.yes, InResp 0)]) with
  | Ok d => io_running d = false ∧ io_packets d = [] ∧ io_tickAt d = None ∧ head (io_mmreg d) = Some 1
  | Err _ => False
  end.
Proof. vm_compute. auto. Qed.

Lemma ioacc_run_witness :
  ∃ d1, IoExample.start IoExample.registers = Ok d1 ∧
    (∀ n d, nsteps (io_change IoExample.params IoExample.memory) n d1 d → (n ≤ 101)%nat) ∧ io_enabled d1 InTick = true.
Proof.
  eexists. split; [reflexivity|]. split; [|reflexivity]. intros n d Hs.
  refine (proj1 (ioacc_run IoExample.params IoExample.memory IoExample.yes IoExample.reset 0x2f000000
    IoExample.registers _ 1 0x81 _ _ _ _ _ _ _) n d Hs);
    [split; reflexivity|split; reflexivity|reflexivity|repeat constructor; discriminate|reflexivity..].
Defined.
