(* ===== verification/EventQueue.v ===== *)
(** Model of [sim/eventq.{hh,cc}] and [sim/eventq_impl.hh]: the queue that runs
    every event of the simulator, a linked list of bins, each bin a stack of the
    events of one time and priority.  The events live in a heap, and a link is the
    name of an event or null. *)
From S2P Require Import Prelude.
From stdpp Require Import gmap.

#[local] Open Scope Z_scope.

(** ** Flags and priorities *)

Definition PublicRead : Z := 0x003f.
Definition PublicWrite : Z := 0x001d.
Definition Squashed : Z := 0x0001.
Definition Scheduled : Z := 0x0002.
Definition Managed : Z := 0x0004.
Definition AutoDelete : Z := Managed.
Definition IsExitEvent : Z := 0x0010.
Definition IsMainQueue : Z := 0x0020.
Definition Initialized : Z := 0x7a40.
Definition InitMask : Z := 0xffc0.

Definition Minimum_Pri : Z := -128.
Definition Debug_Enable_Pri : Z := -101.
Definition Debug_Break_Pri : Z := -100.
Definition CPU_Switch_Pri : Z := -31.
Definition Delayed_Writeback_Pri : Z := -1.
Definition Default_Pri : Z := 0.
Definition DVFS_Update_Pri : Z := 31.
Definition Serialize_Pri : Z := 32.
Definition CPU_Tick_Pri : Z := 50.
Definition CPU_Exit_Pri : Z := 64.
Definition Stat_Event_Pri : Z := 90.
Definition Progress_Event_Pri : Z := 95.
Definition Sim_Exit_Pri : Z := 100.
Definition Maximum_Pri : Z := 127.

(** [Flags<unsigned short>]. *)
Definition flag_isSet (f x : Z) : bool := negb (Z.land f x =? 0).
Definition flag_noneSet (f x : Z) : bool := Z.land f x =? 0.
Definition flag_set (f x : Z) : Z := Z.lor f x.
Definition flag_clear (f x : Z) : Z := Z.land f (u16 (Z.lnot x)).

(** ** Events *)

Record Event := mkEvent {
  nextBin : option nat;
  nextInBin : option nat;
  _when : Z;
  _priority : Z;
  flags : Z;
  queue : option nat;
}.

Definition Event_new (p f : Z) : outcome Event :=
  let* _ := assert_ (flag_noneSet f (u16 (Z.lnot PublicWrite))) in
  Ok (mkEvent None None 0 p (Z.lor Initialized f) None).

Definition with_nextBin (e : Event) (p : option nat) : Event :=
  mkEvent p (nextInBin e) (_when e) (_priority e) (flags e) (queue e).
Definition with_nextInBin (e : Event) (p : option nat) : Event :=
  mkEvent (nextBin e) p (_when e) (_priority e) (flags e) (queue e).
Definition with_flags (e : Event) (f : Z) : Event :=
  mkEvent (nextBin e) (nextInBin e) (_when e) (_priority e) f (queue e).
Definition setWhen (e : Event) (t : Z) (q : nat) : Event :=
  mkEvent (nextBin e) (nextInBin e) t (_priority e) (flags e) (Some q).

Definition initialized (e : Event) : bool := Z.land (flags e) InitMask =? Initialized.
Definition scheduled (e : Event) : bool := flag_isSet (flags e) Scheduled.
Definition squash (e : Event) : Event := with_flags e (flag_set (flags e) Squashed).
Definition squashed (e : Event) : bool := flag_isSet (flags e) Squashed.
Definition isExitEvent (e : Event) : bool := flag_isSet (flags e) IsExitEvent.
Definition isManaged (e : Event) : bool := flag_isSet (flags e) Managed.

Definition ev_lt (l r : Event) : bool :=
  (_when l <? _when r) || ((_when l =? _when r) && (_priority l <? _priority r)).
Definition ev_le (l r : Event) : bool :=
  (_when l <? _when r) || ((_when l =? _when r) && (_priority l <=? _priority r)).
Definition ev_eq (l r : Event) : bool := (_when l =? _when r) && (_priority l =? _priority r).
Definition ev_ne (l r : Event) : bool := negb (_when l =? _when r) || negb (_priority l =? _priority r).

(** ** The heap *)

Abbreviation heap := (gmap nat Event).

Definition ev_at (h : heap) (e : nat) : outcome Event :=
  match h !! e with Some ev => Ok ev | None => Err Undefined end.
Definition update_event (h : heap) (e : nat) (f : Event → Event) : outcome heap :=
  let* ev := ev_at h e in Ok (<[e := f ev]> h).

(** ** Lists of bins *)

(** Returns [event], the new top of its bin. *)
Definition insertBefore (h : heap) (event : nat) (curr : option nat) : outcome heap :=
  let* ev := ev_at h event in
  match curr with
  | None => Ok (<[event := with_nextInBin (with_nextBin ev None) None]> h)
  | Some c =>
      let* cv := ev_at h c in
      Ok (if ev_lt ev cv
          then <[event := with_nextInBin (with_nextBin ev (Some c)) None]> h
          else <[event := with_nextInBin (with_nextBin ev (nextBin cv)) (Some c)]> h)
  end.

(** [while (curr && *curr < *event)]; there are at most as many bins as events. *)
Fixpoint find_bin (n : nat) (h : heap) (ev : Event) (prev : nat) (curr : option nat) : outcome (nat * option nat) :=
  match n with
  | O => Err OutOfFuel
  | S n =>
      match curr with
      | None => Ok (prev, None)
      | Some c =>
          let* cv := ev_at h c in
          if ev_lt cv ev then find_bin n h ev c (nextBin cv) else Ok (prev, Some c)
      end
  end.

(** The heap and the head afterwards. *)
Definition insert (h : heap) (head : option nat) (event : nat) : outcome (heap * option nat) :=
  match head with
  | None => let* h := insertBefore h event None in Ok (h, Some event)
  | Some hd =>
      let* ev := ev_at h event in
      let* hv := ev_at h hd in
      if ev_le ev hv then let* h := insertBefore h event (Some hd) in Ok (h, Some event)
      else
        let* (prev, curr) := find_bin (S (size h)) h ev hd (nextBin hv) in
        let* h := insertBefore h event curr in
        let* h := update_event h prev (fun x => with_nextBin x (Some event)) in
        Ok (h, Some hd)
  end.

(** [while (event != next)]: the event before [event] in the bin. *)
Fixpoint find_in_bin (n : nat) (h : heap) (event curr : nat) (next : option nat) : outcome nat :=
  match n with
  | O => Err OutOfFuel
  | S n =>
      match next with
      | None => Err Panic
      | Some x =>
          if Nat.eqb x event then Ok curr
          else let* xv := ev_at h x in find_in_bin n h event x (nextInBin xv)
      end
  end.

(** The heap and the top of the bin afterwards. *)
Definition removeItem (h : heap) (event top : nat) : outcome (heap * option nat) :=
  let* tv := ev_at h top in
  if Nat.eqb event top then
    match nextInBin tv with
    | None => Ok (h, nextBin tv)
    | Some next => let* h := update_event h next (fun x => with_nextBin x (nextBin tv)) in Ok (h, Some next)
    end
  else
    let* curr := find_in_bin (S (size h)) h event top (nextInBin tv) in
    let* ev := ev_at h event in
    let* h := update_event h curr (fun x => with_nextInBin x (nextInBin ev)) in
    Ok (h, Some top).

(** [me] is the queue. *)
Definition remove (me : nat) (h : heap) (head : option nat) (event : nat) : outcome (heap * option nat) :=
  match head with
  | None => Err Panic
  | Some hd =>
      let* ev := ev_at h event in
      let* _ := assert_ (bool_decide (queue ev = Some me)) in
      let* hv := ev_at h hd in
      if ev_eq hv ev then removeItem h event hd
      else
        let* (prev, curr) := find_bin (S (size h)) h ev hd (nextBin hv) in
        match curr with
        | None => Err Panic
        | Some c =>
            let* cv := ev_at h c in
            if ev_ne cv ev then Err Panic else
            let* (h, top) := removeItem h event c in
            let* h := update_event h prev (fun x => with_nextBin x top) in
            Ok (h, Some hd)
        end
  end.

(** ** The queue *)

Record EventQueue := mkEventQueue {
  eq_heap : heap;
  eq_head : option nat;
  eq_curTick : Z;
  async_queue : list nat;
}.
Definition EventQueue_new (h : heap) : EventQueue := mkEventQueue h None 0 [].
Definition set_heap (q : EventQueue) (h : heap) : EventQueue :=
  mkEventQueue h (eq_head q) (eq_curTick q) (async_queue q).
Definition set_list (q : EventQueue) (h : heap) (hd : option nat) : EventQueue :=
  mkEventQueue h hd (eq_curTick q) (async_queue q).
Definition setCurTick (q : EventQueue) (t : Z) : EventQueue := mkEventQueue (eq_heap q) (eq_head q) t (async_queue q).
Definition set_async (q : EventQueue) (l : list nat) : EventQueue := mkEventQueue (eq_heap q) (eq_head q) (eq_curTick q) l.

Definition set_event_flags (q : EventQueue) (e : nat) (f : Z → Z) : outcome EventQueue :=
  let* h := update_event (eq_heap q) e (fun x => with_flags x (f (flags x))) in Ok (set_heap q h).

Definition empty (q : EventQueue) : bool := match eq_head q with None => true | Some _ => false end.
Definition getHead (q : EventQueue) : option nat := eq_head q.
Definition nextTick (q : EventQueue) : outcome Z :=
  match eq_head q with None => Err Undefined | Some hd => let* hv := ev_at (eq_heap q) hd in Ok (_when hv) end.
Definition replaceHead (q : EventQueue) (s : option nat) : option nat * EventQueue :=
  (eq_head q, set_list q (eq_heap q) s).

(** [delete event]: the destructor checks that it is not scheduled. *)
Definition delete_event (q : EventQueue) (e : nat) : outcome EventQueue :=
  let* ev := ev_at (eq_heap q) e in
  let* _ := assert_ (negb (scheduled ev)) in
  Ok (set_heap q (delete e (eq_heap q))).

(** [release] with the default [releaseImpl]; the default [acquireImpl] is empty. *)
Definition release (q : EventQueue) (e : nat) : outcome EventQueue :=
  let* ev := ev_at (eq_heap q) e in
  if isManaged ev && negb (scheduled ev) then delete_event q e else Ok q.

(** [inParallelMode], and whether this queue is [curEventQueue()]. *)
Record Mode := mkMode { inParallelMode : bool; isCurrent : bool }.

Section Queue.
Context (me : nat) (mode : Mode).

Definition queue_insert (q : EventQueue) (e : nat) : outcome EventQueue :=
  let* (h, hd) := insert (eq_heap q) (eq_head q) e in Ok (set_list q h hd).
Definition queue_remove (q : EventQueue) (e : nat) : outcome EventQueue :=
  let* (h, hd) := remove me (eq_heap q) (eq_head q) e in Ok (set_list q h hd).

Definition asyncInsert (q : EventQueue) (e : nat) : EventQueue := set_async q (async_queue q ++ [e]).

Fixpoint async_loop (l : list nat) (q : EventQueue) : outcome EventQueue :=
  match l with
  | [] => Ok q
  | e :: l => let* q := queue_insert q e in async_loop l (set_async q l)
  end.
Definition handleAsyncInsertions (q : EventQueue) : outcome EventQueue :=
  let* _ := assert_ (isCurrent mode) in async_loop (async_queue q) q.

Definition schedule (q : EventQueue) (e : nat) (t : Z) (global : bool) : outcome EventQueue :=
  let* _ := assert_ (eq_curTick q <=? t) in
  let* ev := ev_at (eq_heap q) e in
  let* _ := assert_ (negb (scheduled ev)) in
  let* _ := assert_ (initialized ev) in
  let q := set_heap q (<[e := setWhen ev t me]> (eq_heap q)) in
  let* q := (if inParallelMode mode && (negb (isCurrent mode) || global)
             then Ok (asyncInsert q e) else queue_insert q e) in
  set_event_flags q e (fun f => flag_set f Scheduled).

Definition deschedule (q : EventQueue) (e : nat) : outcome EventQueue :=
  let* ev := ev_at (eq_heap q) e in
  let* _ := assert_ (scheduled ev) in
  let* _ := assert_ (initialized ev) in
  let* _ := assert_ (negb (inParallelMode mode) || isCurrent mode) in
  let* q := queue_remove q e in
  let* q := set_event_flags q e (fun f => flag_clear (flag_clear f Squashed) Scheduled) in
  release q e.

Definition reschedule (q : EventQueue) (e : nat) (t : Z) (always : bool) : outcome EventQueue :=
  let* _ := assert_ (eq_curTick q <=? t) in
  let* ev := ev_at (eq_heap q) e in
  let* _ := assert_ (always || scheduled ev) in
  let* _ := assert_ (initialized ev) in
  let* _ := assert_ (negb (inParallelMode mode) || isCurrent mode) in
  let* q := (if scheduled ev then queue_remove q e else Ok q) in
  let* h := update_event (eq_heap q) e (fun x => setWhen x t me) in
  let* q := queue_insert (set_heap q h) e in
  set_event_flags q e (fun f => flag_set (flag_clear f Squashed) Scheduled).

(** ** Running events *)

(** What the code of an event does to the queue. *)
Inductive QOp :=
| OpNew (e : nat) (p f : Z)
| OpDelete (e : nat)
| OpSquash (e : nat)
| OpSchedule (e : nat) (t : Z) (global : bool)
| OpDeschedule (e : nat)
| OpReschedule (e : nat) (t : Z) (always : bool).

(** A new event is at an address no other event has. *)
Definition run_op (q : EventQueue) (o : QOp) : outcome EventQueue :=
  match o with
  | OpNew e p f =>
      match eq_heap q !! e with
      | Some _ => Err Undefined
      | None => let* ev := Event_new p f in Ok (set_heap q (<[e := ev]> (eq_heap q)))
      end
  | OpDelete e => delete_event q e
  | OpSquash e => let* h := update_event (eq_heap q) e squash in Ok (set_heap q h)
  | OpSchedule e t global => schedule q e t global
  | OpDeschedule e => deschedule q e
  | OpReschedule e t always => reschedule q e t always
  end.

(** [process] says what [process()] of the event does.  The second component is the
    exit event returned, if any. *)
Definition serviceOne (process : list QOp) (q : EventQueue) : outcome (EventQueue * option nat) :=
  let* e := match eq_head q with Some e => Ok e | None => Err Undefined end in
  let* hv := ev_at (eq_heap q) e in
  let* q := set_event_flags q e (fun f => flag_clear f Scheduled) in
  let* q :=
    match nextInBin hv with
    | Some next =>
        let* h := update_event (eq_heap q) next (fun x => with_nextBin x (nextBin hv)) in
        Ok (set_list q h (Some next))
    | None => Ok (set_list q (eq_heap q) (nextBin hv))
    end in
  if negb (squashed hv) then
    let* q := foldM run_op process (setCurTick q (_when hv)) in
    let* ev := ev_at (eq_heap q) e in
    if isExitEvent ev then
      let* _ := assert_ (negb (isManaged ev) || negb (flag_isSet (flags ev) IsMainQueue)) in Ok (q, Some e)
    else let* q := release q e in Ok (q, None)
  else
    let* q := set_event_flags q e (fun f => flag_clear f Squashed) in
    let* q := release q e in Ok (q, None).

(** [process n] is what the code of the [n]-th event served does. *)
Fixpoint serviceEvents (n : nat) (process : nat → list QOp) (q : EventQueue) (t : Z) : outcome EventQueue :=
  match n with
  | O => Err OutOfFuel
  | S n =>
      if empty q then Ok (setCurTick q t) else
      let* next := nextTick q in
      if t <? next then Ok (setCurTick q t)
      else let* (q, _) := serviceOne (process O) q in serviceEvents n (fun i => process (S i)) q t
  end.

(** The destructor of the queue deschedules what is left. *)
Fixpoint EventQueue_delete (n : nat) (q : EventQueue) : outcome EventQueue :=
  match eq_head q with
  | None => Ok q
  | Some hd => match n with O => Err OutOfFuel | S n => let* q := deschedule q hd in EventQueue_delete n q end
  end.

(** ** Checking and checkpoints *)

Fixpoint verify_bin (n : nat) (h : heap) (t p : Z) (seen : gset nat) (e : option nat)
    : outcome (option (Z * Z * gset nat)) :=
  match n with
  | O => Err OutOfFuel
  | S n =>
      match e with
      | None => Ok (Some (t, p, seen))
      | Some x =>
          let* ev := ev_at h x in
          if _when ev <? t then Ok None
          else if (_when ev =? t) && (_priority ev <? p) then Ok None
          else if decide (x ∈ seen) then Ok None
          else verify_bin n h (_when ev) (_priority ev) ({[x]} ∪ seen) (nextInBin ev)
      end
  end.
Fixpoint verify_bins (n : nat) (h : heap) (t p : Z) (seen : gset nat) (e : option nat) : outcome bool :=
  match n with
  | O => Err OutOfFuel
  | S n =>
      match e with
      | None => Ok true
      | Some x =>
          let* r := verify_bin (S (size h)) h t p seen (Some x) in
          match r with
          | None => Ok false
          | Some (t, p, seen) => let* ev := ev_at h x in verify_bins n h t p seen (nextBin ev)
          end
      end
  end.
Definition debugVerify (q : EventQueue) : outcome bool :=
  verify_bins (S (size (eq_heap q))) (eq_heap q) 0 0 ∅ (eq_head q).

Definition Event_serialize (e : Event) : Z * Z * Z := (_when e, _priority e, flags e).
Definition Event_unserialize (e : Event) (cp : Z * Z * Z) : outcome Event :=
  let* _ := assert_ (negb (scheduled e)) in
  let* _ := assert_ (initialized e) in
  let '(t, p, f) := cp in
  let f := flag_set f Initialized in
  let f := if flag_isSet f Scheduled && negb (flag_isSet f Squashed)
           then flag_clear f (Z.lor Squashed Scheduled) else f in
  Ok (mkEvent (nextBin e) (nextInBin e) t p f (queue e)).
Definition checkpointReschedule (q : EventQueue) (e : nat) : outcome EventQueue :=
  let* ev := ev_at (eq_heap q) e in
  if flag_isSet (flags ev) Scheduled then queue_insert q e else Ok q.
End Queue.
