(* ===== verification/EventQueueSpec.v ===== *)
(** Correctness of the event queue: the lists of bins and their links, some of
    them stale, implement a list sorted by time and priority in which the events
    of one time and priority are served last in, first out. *)
From stdpp Require Import gmap sorting.
From S2P Require Import Prelude EventQueue.

#[local] Open Scope Z_scope.

(** ** Keys *)

Definition key : Type := Z * Z.
Definition key_lt (a b : key) : bool := (a.1 <? b.1) || ((a.1 =? b.1) && (a.2 <? b.2)).
Definition ev_key (e : Event) : key := (_when e, _priority e).

Lemma ev_lt_key l r : ev_lt l r = key_lt (ev_key l) (ev_key r).
Proof. done. Qed.
Lemma ev_le_key l r : ev_le l r = negb (key_lt (ev_key r) (ev_key l)).
Proof.
  apply eq_true_iff_eq. unfold ev_le, key_lt. cbn.
  rewrite negb_true_iff, orb_true_iff, orb_false_iff, !andb_true_iff, andb_false_iff,
    !Z.ltb_lt, !Z.ltb_ge, !Z.eqb_eq, !Z.eqb_neq, Z.leb_le. lia.
Qed.
Lemma ev_eq_key l r : ev_eq l r = bool_decide (ev_key l = ev_key r).
Proof.
  unfold ev_eq. apply eq_true_iff_eq. rewrite andb_true_iff, !Z.eqb_eq, bool_decide_eq_true.
  unfold ev_key. split; [by intros [-> ->]|by intros [= -> ->]].
Qed.
Lemma ev_ne_key l r : ev_ne l r = negb (bool_decide (ev_key l = ev_key r)).
Proof. rewrite <-ev_eq_key. unfold ev_ne, ev_eq. by rewrite negb_andb. Qed.

Lemma key_lt_spec a b : key_lt a b = true ↔ a.1 < b.1 ∨ a.1 = b.1 ∧ a.2 < b.2.
Proof. unfold key_lt. by rewrite orb_true_iff, andb_true_iff, !Z.ltb_lt, Z.eqb_eq. Qed.
#[local] Instance key_lt_trans : Transitive (fun a b => key_lt a b = true).
Proof. intros a b c. rewrite !key_lt_spec. lia. Qed.
Lemma key_lt_irrefl a : key_lt a a = false.
Proof. apply not_true_iff_false. rewrite key_lt_spec. lia. Qed.
Lemma key_lt_total a b : key_lt a b = true ∨ a = b ∨ key_lt b a = true.
Proof. rewrite !key_lt_spec. destruct a as [x y], b as [z w]. cbn. assert (x = z → y = w → (x, y) = (z, w)) by congruence.
  destruct (Z.lt_total x z) as [|[->|]]; [lia| |lia]. destruct (Z.lt_total y w) as [|[->|]]; [lia|auto|lia]. Qed.
Lemma key_le_trans a b c : key_lt b a = false → key_lt c b = false → key_lt c a = false.
Proof. rewrite <-!not_true_iff_false, !key_lt_spec. lia. Qed.
Lemma key_lt_asym a b : key_lt a b = true → key_lt b a = false.
Proof. rewrite <-not_true_iff_false, !key_lt_spec. lia. Qed.

(** ** What the links represent *)

(** What an event is apart from its links. *)
Record Info := mkInfo { i_when : Z; i_priority : Z; i_flags : Z; i_queue : option nat }.
Definition ev_info (e : Event) : Info := mkInfo (_when e) (_priority e) (flags e) (queue e).
Definition i_key (i : Info) : key := (i_when i, i_priority i).

(** The events of a bin, from its top on. *)
Fixpoint chain (h : heap) (e : option nat) (b : list nat) : Prop :=
  match b with
  | [] => e = None
  | x :: b => e = Some x ∧ ∃ ev, h !! x = Some ev ∧ chain h (nextInBin ev) b
  end.

(** The bins from the link [s] up to the link [t].  Only the links to the next bin of
    the tops matter. *)
Fixpoint bins (h : heap) (s : option nat) (bs : list (list nat)) (t : option nat) : Prop :=
  match bs with
  | [] => s = t
  | b :: bs =>
      ∃ x ev b', b = x :: b' ∧ s = Some x ∧ h !! x = Some ev ∧ chain h (nextInBin ev) b' ∧ bins h (nextBin ev) bs t
  end.

Definition bin_key (h : heap) (b : list nat) (k : key) : Prop :=
  Forall (fun x => ∃ ev, h !! x = Some ev ∧ ev_key ev = k) b.

Record rep_bins (h : heap) (hd : option nat) (bs : list (list nat)) (ks : list key) : Prop := {
  rb_bins : bins h hd bs None;
  rb_keys : Forall2 (bin_key h) bs ks;
  rb_sorted : StronglySorted (fun a b => key_lt a b = true) ks;
  rb_nodup : NoDup (concat bs);
}.
Definition rep (h : heap) (hd : option nat) (l : list nat) : Prop := ∃ bs ks, l = concat bs ∧ rep_bins h hd bs ks.

Lemma elem_concat {A} (x : A) ls : x ∈ concat ls ↔ ∃ l, x ∈ l ∧ l ∈ ls.
Proof.
  induction ls as [|l ls IH]; cbn; [split; [by intros ?%elem_of_nil|by intros (? & _ & ?%elem_of_nil)]|].
  rewrite elem_of_app, IH. setoid_rewrite elem_of_cons. firstorder (subst; eauto).
Qed.

Lemma ev_at_ok (h : heap) e ev : h !! e = Some ev → ev_at h e = Ok ev.
Proof. intros H. unfold ev_at. by rewrite H. Qed.

(** ** Framing *)

Lemma chain_frame h h' b : ∀ e, (∀ x, x ∈ b → nextInBin <$> h' !! x = nextInBin <$> h !! x) → chain h e b → chain h' e b.
Proof.
  induction b as [|x b IH]; intros e Hf; cbn; [done|]. intros (-> & ev & Hx & Hc). split; [done|].
  pose proof (Hf x ltac:(by left)) as Hx'. rewrite Hx in Hx'. destruct (h' !! x) as [ev'|]; [|done]. cbn in Hx'.
  exists ev'. split; [done|]. injection Hx' as ->. apply IH; [|done]. intros y Hy. apply Hf. by right.
Qed.

Lemma bins_frame h h' bs : ∀ s t, (∀ x, x ∈ concat bs → h' !! x = h !! x) → bins h s bs t → bins h' s bs t.
Proof.
  induction bs as [|b bs IH]; intros s t Hf; cbn; [done|].
  intros (x & ev & b' & -> & -> & Hx & Hc & Hb). exists x, ev, b'.
  assert (∀ y, y ∈ x :: b' → h' !! y = h !! y) as Hb' by (intros y Hy; apply Hf; cbn [concat]; apply elem_of_app; by left).
  split_and!; [done..|by rewrite Hb' by (by left)| |].
  - eapply chain_frame; [|done]. intros y Hy. rewrite Hb' by (by right). done.
  - apply IH; [|done]. intros y Hy. apply Hf. cbn [concat]. apply elem_of_app. by right.
Qed.

Lemma bins_app h bs1 bs2 : ∀ s t, bins h s (bs1 ++ bs2) t ↔ ∃ m, bins h s bs1 m ∧ bins h m bs2 t.
Proof.
  induction bs1 as [|b bs1 IH]; intros s t; cbn.
  - split; [eauto|by intros (m & -> & ?)].
  - split.
    + intros (x & ev & b' & -> & -> & ? & ? & (m & ? & ?)%IH). eauto 15.
    + intros (m & (x & ev & b' & -> & -> & ? & ? & ?) & ?). exists x, ev, b'. split_and!; [done..|]. apply IH. eauto.
Qed.

(** The link to what follows the last bin. *)
Lemma bins_relink h bs x ev b' s m p :
  bins h s (bs ++ [x :: b']) m → NoDup (concat (bs ++ [x :: b'])) → h !! x = Some ev →
  bins (<[x := with_nextBin ev p]> h) s (bs ++ [x :: b']) p.
Proof.
  intros (n & Hbs & Hb)%bins_app Hnd Hx. apply bins_app. exists n.
  rewrite concat_app in Hnd. cbn in Hnd. rewrite app_nil_r in Hnd. apply NoDup_app in Hnd as (_ & Hdis & [Hxb _]%NoDup_cons).
  split.
  - eapply bins_frame; [|done]. intros y Hy. rewrite lookup_insert_ne; [done|]. intros ->. apply (Hdis y Hy). by left.
  - destruct Hb as (x' & ev' & b'' & [= <- <-] & -> & Hx' & Hc & _).
    assert (ev' = ev) as -> by congruence.
    exists x, (with_nextBin ev p), b'. split_and!; [done..|by rewrite lookup_insert_eq| |done].
    eapply chain_frame; [|done]. intros y Hy. rewrite lookup_insert_ne; [done|]. by intros ->.
Qed.

Lemma bin_key_info h h' b k : ev_info <$> h' = ev_info <$> h → bin_key h b k → bin_key h' b k.
Proof.
  intros Hi Hb. eapply Forall_impl; [exact Hb|]. intros x (ev & Hx & Hk).
  assert ((ev_info <$> h') !! x = Some (ev_info ev)) as Hx' by (rewrite Hi, lookup_fmap, Hx; done).
  rewrite lookup_fmap in Hx'. destruct (h' !! x) as [ev'|]; [|done]. exists ev'. split; [done|].
  injection Hx' as ??. by rewrite <-Hk; unfold ev_key; congruence.
Qed.
Lemma bin_keys_info h h' bs ks : ev_info <$> h' = ev_info <$> h → Forall2 (bin_key h) bs ks → Forall2 (bin_key h') bs ks.
Proof. intros Hi Hb. eapply Forall2_impl; [exact Hb|]. intros b k. by apply bin_key_info. Qed.

Lemma info_insert (h : heap) x ev ev' : h !! x = Some ev → ev_info ev' = ev_info ev → ev_info <$> <[x := ev']> h = ev_info <$> h.
Proof. intros Hx Hi. rewrite fmap_insert, Hi. apply insert_id. by rewrite lookup_fmap, Hx. Qed.

Lemma bins_tops h s bs t : bins h s bs t → (length bs ≤ length (concat bs))%nat.
Proof.
  revert s. induction bs as [|b bs IH]; intros s; cbn; [lia|]. intros (x & ev & b' & -> & _ & _ & _ & Hb).
  apply IH in Hb. rewrite length_app. cbn. lia.
Qed.
Lemma rep_size h hd bs ks : rep_bins h hd bs ks → (length bs ≤ length (concat bs) ≤ size h)%nat.
Proof.
  intros []. split; [by eapply bins_tops|]. rewrite <-size_dom.
  rewrite <-(size_list_to_set (C := gset nat) (concat bs)) by done. apply subseteq_size.
  intros x Hx%elem_of_list_to_set. apply elem_concat in Hx as (b & Hxb & Hb).
  apply list_elem_of_lookup in Hb as [i Hb]. destruct (Forall2_lookup_l _ _ _ _ _ rb_keys0 Hb) as (k & _ & Hk).
  unfold bin_key in Hk. rewrite Forall_forall in Hk. destruct (Hk x Hxb) as (ev & ? & _). apply elem_of_dom. eauto.
Qed.

(** ** Insertion *)

(** The place of a new event: before the first one that is not earlier. *)
Fixpoint ins (before : nat → bool) (e : nat) (l : list nat) : list nat :=
  match l with
  | [] => [e]
  | x :: l => if before x then x :: ins before e l else e :: x :: l
  end.

Lemma ins_app before e l1 l2 : Forall (fun x => before x = true) l1 → ins before e (l1 ++ l2) = l1 ++ ins before e l2.
Proof. induction 1 as [|x l1 H _ IH]; cbn; [done|]. by rewrite H, IH. Qed.

Definition earlier (h : heap) (k : key) (x : nat) : bool :=
  match h !! x with Some ev => key_lt (ev_key ev) k | None => false end.

Lemma bins_earlier h k bs ks : Forall2 (bin_key h) bs ks → Forall (fun k' => key_lt k' k = true) ks →
  Forall (fun x => earlier h k x = true) (concat bs).
Proof.
  induction 1 as [|b k' bs ks Hb _ IH]; intros Hk; cbn; [constructor|]. apply Forall_cons in Hk as [Hk Hks].
  apply Forall_app. split; [|by apply IH]. eapply Forall_impl; [exact Hb|]. intros x (ev & Hx & Hkx).
  unfold earlier. by rewrite Hx, Hkx.
Qed.

(** The loop stops at the first bin that is not earlier. *)
Lemma find_bin_spec h ev n : ∀ bs ks prev curr,
  (length bs < n)%nat → bins h curr bs None → Forall2 (bin_key h) bs ks →
  ∃ bs1 bs2 ks1 ks2 prev' curr', find_bin n h ev prev curr = Ok (prev', curr') ∧ bs = bs1 ++ bs2 ∧ ks = ks1 ++ ks2 ∧
    Forall2 (bin_key h) bs1 ks1 ∧ Forall2 (bin_key h) bs2 ks2 ∧ bins h curr bs1 curr' ∧ bins h curr' bs2 None ∧
    Forall (fun k => key_lt k (ev_key ev) = true) ks1 ∧
    match ks2 with k :: _ => key_lt k (ev_key ev) = false | [] => True end ∧
    (bs1 = [] ∧ prev' = prev ∨ ∃ bs0 b', bs1 = bs0 ++ [prev' :: b']).
Proof.
  induction n as [|n IH]; intros bs ks prev curr Hn Hb Hk; [lia|].
  destruct bs as [|b bs]; cbn in Hb.
  { subst curr. inversion Hk; subst. exists [], [], [], [], prev, None. cbn. split_and!; auto. }
  destruct Hb as (x & xv & b' & -> & -> & Hx & Hc & Hb).
  inversion Hk as [|? k ? ks' Hbk Hbks]; subst. cbn [find_bin]. unfold ev_at. rewrite Hx. cbn [mbind outcome_bind].
  assert (ev_key xv = k) as Hxk.
  { apply Forall_cons in Hbk as [(ev' & ? & <-) _]. by simplify_eq. }
  rewrite ev_lt_key, Hxk. destruct (key_lt k (ev_key ev)) eqn:E.
  - destruct (IH bs ks' x (nextBin xv)) as (bs1 & bs2 & ks1 & ks2 & p' & c' & -> & -> & -> & Hk1 & Hk2 & H1 & H2 & Hlt & Hge & Hp);
      [cbn in Hn; lia|done..|].
    exists ((x :: b') :: bs1), bs2, (k :: ks1), ks2, p', c'. split_and!; try done.
    + by constructor.
    + cbn. eauto 10.
    + by constructor.
    + right. destruct Hp as [[-> ->]|(bs0 & b0 & ->)]; [by exists [], b'|]. by exists ((x :: b') :: bs0), b0.
  - exists [], ((x :: b') :: bs), [], (k :: ks'), prev, (Some x). split_and!; try done; [cbn; eauto 10|by left].
Qed.

(** The new event on top of the bins that are not earlier. *)
Lemma insertBefore_spec h e ev curr bs ks :
  h !! e = Some ev → e ∉ concat bs → bins h curr bs None → Forall2 (bin_key h) bs ks →
  match ks with k :: _ => key_lt k (ev_key ev) = false | [] => True end →
  ∃ ev' bs' ks', insertBefore h e curr = Ok (<[e := ev']> h) ∧ ev_info ev' = ev_info ev ∧
    bins (<[e := ev']> h) (Some e) bs' None ∧ Forall2 (bin_key h) bs' ks' ∧ concat bs' = e :: concat bs ∧
    (ks' = ev_key ev :: ks ∧ match ks with k :: _ => key_lt (ev_key ev) k = true | [] => True end ∨
     ks' = ks ∧ head ks = Some (ev_key ev)).
Proof.
  intros He Hni Hb Hk Hge. unfold insertBefore, ev_at. rewrite He. cbn [mbind outcome_bind].
  assert (∀ ev', bins (<[e := ev']> h) curr bs None) as Hbs.
  { intros ev'. eapply bins_frame; [|done]. intros x Hx. apply lookup_insert_ne. by intros ->. }
  assert (bin_key h [e] (ev_key ev)) as Hek by (repeat constructor; eauto).
  destruct bs as [|b bs].
  { cbn in Hb. subst curr. inversion Hk; subst. eexists _, [[e]], [ev_key ev]. split; [done|].
    split; [done|]. split_and!; [|by constructor|done|by left].
    cbn. eexists _, _, []. rewrite lookup_insert_eq. done. }
  destruct Hb as (x & xv & b' & -> & -> & Hx & Hc & Hb). inversion Hk as [|? k ? ks' Hbk Hbks]; subst.
  assert (ev_key xv = k) as Hxk by (apply Forall_cons in Hbk as [(ev' & ? & <-) _]; by simplify_eq).
  rewrite Hx. cbn [mbind outcome_bind]. rewrite ev_lt_key, Hxk.
  destruct (key_lt (ev_key ev) k) eqn:E.
  - eexists _, ([e] :: (x :: b') :: bs), (ev_key ev :: k :: ks'). split; [done|]. split; [done|].
    split_and!; [|by constructor|done|by left]. eexists e, _, []. rewrite lookup_insert_eq.
    split_and!; [done..|]. apply Hbs.
  - assert (k = ev_key ev) as -> by (destruct (key_lt_total k (ev_key ev)) as [?|[?|?]]; congruence).
    eexists _, ((e :: x :: b') :: bs), (ev_key ev :: ks'). split; [done|]. split; [done|].
    split_and!; [|constructor; [by apply Forall_cons; split; [eauto|]|done]|done|by right].
    destruct (Hbs (with_nextInBin (with_nextBin ev (nextBin xv)) (Some x)))
      as (x0 & xv0 & b0 & [= <- <-] & _ & Hx0 & Hc0 & Hb0).
    assert (xv0 = xv) as -> by (rewrite lookup_insert_ne in Hx0 by (intros ->; apply Hni; cbn; by left); congruence).
    eexists e, _, (x :: b'). rewrite lookup_insert_eq. cbn. eauto 10.
Qed.

Lemma sorted_put k ks1 ks2 ks2' :
  StronglySorted (fun a b => key_lt a b = true) (ks1 ++ ks2) → Forall (fun k' => key_lt k' k = true) ks1 →
  ks2' = k :: ks2 ∧ match ks2 with k' :: _ => key_lt k k' = true | [] => True end ∨ ks2' = ks2 ∧ head ks2 = Some k →
  StronglySorted (fun a b => key_lt a b = true) (ks1 ++ ks2').
Proof.
  intros Hs H1 [[-> H2]|[-> _]]; [|done]. apply StronglySorted_app in Hs as (H12 & Hs1 & Hs2).
  assert (Forall (fun k' => key_lt k k' = true) ks2) as Hk2.
  { destruct ks2 as [|k' ks2]; [done|]. constructor; [done|]. inversion Hs2 as [|? ? ? Hall]; subst.
    eapply Forall_impl; [exact Hall|]. intros k''. by apply (key_lt_trans k k' k''). }
  rewrite Forall_forall in H1. apply StronglySorted_app_2; [|done|by constructor].
  intros x1 x2 Hx1 [->|Hx2]%elem_of_cons; auto.
Qed.

Lemma bin_key_elem h bs ks x : Forall2 (bin_key h) bs ks → x ∈ concat bs → ∃ ev, h !! x = Some ev ∧ ev_key ev ∈ ks.
Proof.
  intros Hk (b & Hxb & Hb)%elem_concat. apply list_elem_of_lookup in Hb as [i Hb].
  destruct (Forall2_lookup_l _ _ _ _ _ Hk Hb) as (k & Hki & Hbk).
  unfold bin_key in Hbk. rewrite Forall_forall in Hbk. destruct (Hbk x Hxb) as (ev & ? & <-).
  exists ev. split; [done|]. by eapply list_elem_of_lookup_2.
Qed.

Lemma nodup_insert (l1 l2 : list nat) e : NoDup (l1 ++ l2) → e ∉ l1 ++ l2 → NoDup (l1 ++ e :: l2).
Proof. intros Hn He. rewrite <-Permutation_middle. by constructor. Qed.

(** Putting the event into the middle: after the bins [bsA ++ [prev :: b0]]. *)
Lemma insert_middle h hd bsA prev b0 bs2 ks1 ks2 e ev curr :
  bins h hd (bsA ++ [prev :: b0]) curr → bins h curr bs2 None →
  Forall2 (bin_key h) (bsA ++ [prev :: b0]) ks1 → Forall2 (bin_key h) bs2 ks2 →
  StronglySorted (fun a b => key_lt a b = true) (ks1 ++ ks2) →
  NoDup (concat (bsA ++ [prev :: b0]) ++ concat bs2) → e ∉ concat (bsA ++ [prev :: b0]) ++ concat bs2 →
  h !! e = Some ev → Forall (fun k => key_lt k (ev_key ev) = true) ks1 →
  match ks2 with k :: _ => key_lt k (ev_key ev) = false | [] => True end →
  ∃ h1 h2, insertBefore h e curr = Ok h1 ∧ update_event h1 prev (fun x => with_nextBin x (Some e)) = Ok h2 ∧
    ev_info <$> h2 = ev_info <$> h ∧ rep h2 hd (concat (bsA ++ [prev :: b0]) ++ e :: concat bs2).
Proof.
  set (bs1 := bsA ++ [prev :: b0]). intros Hb1 Hb2 Hk1 Hk2 Hs Hnd Hni He Hlt Hge.
  assert (prev ∈ concat bs1) as Hprev by (apply elem_concat; exists (prev :: b0); subst bs1; split; [by left|]; apply elem_of_app; right; by left).
  destruct (bin_key_elem h bs1 ks1 prev Hk1 Hprev) as (pv & Hpv & _).
  destruct (insertBefore_spec h e ev curr bs2 ks2) as (ev' & bs2' & ks2' & Hins & Hinf & Hb2' & Hk2' & Hc & Hks); try done.
  { intros ?. apply Hni, elem_of_app. by right. }
  assert (e ≠ prev) as Hne by (intros ->; apply Hni, elem_of_app; by left).
  set (h1 := <[e := ev']> h) in *. assert (h1 !! prev = Some pv) as Hpv1 by (subst h1; by rewrite lookup_insert_ne).
  eexists h1, (<[prev := with_nextBin pv (Some e)]> h1). split; [done|].
  split; [unfold update_event, ev_at; by rewrite Hpv1|].
  assert (ev_info <$> <[prev := with_nextBin pv (Some e)]> h1 = ev_info <$> h) as Hinfo.
  { rewrite (info_insert h1 prev pv) by done. by apply (info_insert h e ev). }
  split; [done|]. apply NoDup_app in Hnd as Hnd'. destruct Hnd' as (Hnd1 & Hdis & _).
  exists (bs1 ++ bs2'), (ks1 ++ ks2'). rewrite concat_app, Hc. split; [done|]. constructor.
  - apply bins_app. exists (Some e). split.
    + apply (bins_relink h1 bsA prev pv b0 hd curr); [|done..]. eapply bins_frame; [|done].
      intros x Hx. apply lookup_insert_ne. intros ->. apply Hni, elem_of_app. by left.
    + eapply bins_frame; [|done]. intros x Hx. apply lookup_insert_ne. intros ->. rewrite Hc in Hx.
      apply elem_of_cons in Hx as [->|Hx]; [done|]. by apply (Hdis x).
  - apply (bin_keys_info h); [done|]. by apply Forall2_app.
  - by apply (sorted_put (ev_key ev) ks1 ks2).
  - rewrite concat_app, Hc. by apply nodup_insert.
Qed.

Lemma insert_spec h hd l e ev : rep h hd l → e ∉ l → h !! e = Some ev →
  ∃ h' hd', insert h hd e = Ok (h', Some hd') ∧ ev_info <$> h' = ev_info <$> h ∧
    rep h' (Some hd') (ins (earlier h (ev_key ev)) e l).
Proof.
  intros (bs & ks & -> & HR) Hni He. pose proof (rep_size _ _ _ _ HR) as Hsz. destruct HR as [Hb Hk Hs Hnd].
  assert (match ks with k :: _ => key_lt k (ev_key ev) = false | [] => True end →
    ∃ h', insertBefore h e hd = Ok h' ∧ ev_info <$> h' = ev_info <$> h ∧ rep h' (Some e) (e :: concat bs)) as Htop.
  { intros Hge. destruct (insertBefore_spec h e ev hd bs ks) as (ev' & bs' & ks' & -> & Hinf & Hb' & Hk' & Hc & Hks); try done.
    eexists. split; [done|]. assert (ev_info <$> <[e:=ev']> h = ev_info <$> h) as Hinfo by by apply (info_insert h e ev).
    split; [done|]. exists bs', ks'. split; [done|]. constructor; [done|by apply (bin_keys_info h)| |].
    - by apply (sorted_put (ev_key ev) [] ks).
    - rewrite Hc. by constructor. }
  unfold insert. destruct bs as [|b bs].
  { cbn in Hb. subst hd. inversion Hk; subst. destruct (Htop I) as (h' & -> & ? & ?). eauto 10. }
  destruct Hb as (x & xv & b' & -> & -> & Hx & Hc & Hb). inversion Hk as [|? k ? ks' Hbk Hbks]; subst.
  assert (ev_key xv = k) as Hxk by (apply Forall_cons in Hbk as [(ev' & ? & <-) _]; by simplify_eq).
  unfold ev_at. rewrite He, Hx. cbn [mbind outcome_bind]. rewrite ev_le_key, Hxk.
  destruct (key_lt k (ev_key ev)) eqn:E; cbn [negb].
  - destruct (find_bin_spec h ev (S (size h)) bs ks' x (nextBin xv))
      as (bs1 & bs2 & ks1 & ks2 & p' & c' & -> & -> & -> & Hk1 & Hk2 & H1 & H2 & Hlt & Hge & Hp); [cbn in Hsz; lia|done..|].
    cbn [mbind outcome_bind].
    assert (∃ bsA b0, (x :: b') :: bs1 = bsA ++ [p' :: b0]) as (bsA & b0 & Esplit).
    { destruct Hp as [[-> ->]|(bs0 & b0 & ->)]; [by exists [], b'|]. by exists ((x :: b') :: bs0), b0. }
    assert (Hni' := Hni). assert (Hnd' := Hnd).
    change (concat ((x :: b') :: bs1 ++ bs2)) with (concat (((x :: b') :: bs1) ++ bs2)) in Hni', Hnd'.
    rewrite concat_app, Esplit in Hni', Hnd'.
    destruct (insert_middle h (Some x) bsA p' b0 bs2 (k :: ks1) ks2 e ev c') as (h1 & h2 & -> & Hup & Hinfo & HR); try done.
    + rewrite <-Esplit. cbn. eauto 10.
    + rewrite <-Esplit. by constructor.
    + by constructor.
    + cbn [mbind outcome_bind]. rewrite Hup. cbn [mbind outcome_bind]. do 2 eexists. split; [done|]. split; [done|].
      change (concat ((x :: b') :: bs1 ++ bs2)) with (concat (((x :: b') :: bs1) ++ bs2)). rewrite concat_app, ins_app.
      2: { apply (bins_earlier h _ ((x :: b') :: bs1) (k :: ks1)); by constructor. }
      rewrite Esplit. destruct bs2 as [|b2 bs2]; [done|]. destruct H2 as (y & yv & b2' & -> & -> & Hy & _).
      inversion Hk2 as [|? k2 ? ? Hyk]; subst. apply Forall_cons in Hyk as [(yv' & Hy' & Hyk) _].
      cbn [concat ins app]. unfold earlier. rewrite Hy', Hyk, Hge. done.
  - destruct (Htop eq_refl) as (h' & -> & ? & ?). do 2 eexists. split; [done|]. split; [done|].
    cbn [concat ins app]. unfold earlier. by rewrite Hx, Hxk, E.
Qed.

(** ** Removal *)

Lemma find_in_bin_spec h e n : ∀ b curr next, (length b < n)%nat → chain h next b →
  if decide (e ∈ b) then ∃ b1 c b2, curr :: b = b1 ++ c :: e :: b2 ∧ find_in_bin n h e curr next = Ok c
  else find_in_bin n h e curr next = Err Panic.
Proof.
  induction n as [|n IH]; intros b curr next Hn Hc; [lia|]. destruct b as [|x b]; cbn in Hc.
  { subst next. case_decide as H; [by apply elem_of_nil in H|done]. }
  destruct Hc as (-> & ev & Hx & Hc). cbn [find_in_bin]. destruct (Nat.eqb_spec x e) as [->|Hne].
  { rewrite decide_True by (by left). by exists [], curr, b. }
  unfold ev_at. rewrite Hx. cbn [mbind outcome_bind]. specialize (IH b x (nextInBin ev)).
  destruct (decide (e ∈ b)) as [Hin|Hni].
  - rewrite decide_True by (by right). destruct IH as (b1 & c & b2 & E & ->); [cbn in Hn; lia|done|].
    exists (curr :: b1), c, b2. by rewrite E.
  - rewrite decide_False by (intros [?|?]%elem_of_cons; congruence). apply IH; [cbn in Hn; lia|done].
Qed.

Lemma chain_unlink h b1 c cv e ev b2 : ∀ p, NoDup (b1 ++ c :: e :: b2) → h !! c = Some cv → h !! e = Some ev →
  chain h p (b1 ++ c :: e :: b2) → chain (<[c := with_nextInBin cv (nextInBin ev)]> h) p (b1 ++ c :: b2).
Proof.
  induction b1 as [|x b1 IH]; intros p Hnd Hcv Hev; cbn [app chain].
  - intros (-> & cv' & Hc' & Ee & ev' & He' & Hch). simplify_eq. split; [done|].
    exists (with_nextInBin cv (nextInBin ev)). rewrite lookup_insert_eq. split; [done|]. cbn.
    apply NoDup_cons in Hnd as [Hni _].
    eapply chain_frame; [|done]. intros y Hy. rewrite lookup_insert_ne; [done|]. intros ->. apply Hni. by right.
  - intros (-> & xv & Hx & Hch). apply NoDup_cons in Hnd as [Hni Hnd]. split; [done|]. exists xv.
    rewrite lookup_insert_ne by (intros ->; apply Hni, elem_of_app; right; by left). split; [done|]. by apply IH.
Qed.

(** A bin without [e], which may be empty. *)
Definition drop_event (e : nat) (l : list nat) : list nat := filter (.≠ e) l.
Definition put_bin {A} (b : list nat) (x : A) (xs : list A) : list A := match b with [] => xs | _ => x :: xs end.

Lemma drop_event_none e l : e ∉ l → drop_event e l = l.
Proof.
  unfold drop_event. induction l as [|x l IH]; intros He; [done|]. apply not_elem_of_cons in He as [Hne Hni].
  rewrite filter_cons_True by congruence. by rewrite IH.
Qed.
Lemma drop_event_middle e b1 b2 : NoDup (b1 ++ e :: b2) → drop_event e (b1 ++ e :: b2) = b1 ++ b2.
Proof.
  intros Hnd. unfold drop_event. rewrite filter_app, filter_cons_False by (by intros []).
  apply NoDup_app in Hnd as (_ & Hd & [Hn _]%NoDup_cons). f_equal; apply drop_event_none; [|done].
  intros H. apply (Hd e H). by left.
Qed.

Lemma removeItem_absent h e top tv b' : h !! top = Some tv → chain h (nextInBin tv) b' → (length b' ≤ size h)%nat →
  e ∉ top :: b' → removeItem h e top = Err Panic.
Proof.
  intros Ht Hc Hl [Hne Hni]%not_elem_of_cons. unfold removeItem, ev_at. rewrite Ht. cbn [mbind outcome_bind].
  destruct (Nat.eqb_spec e top); [done|]. pose proof (find_in_bin_spec h e (S (size h)) b' top (nextInBin tv)) as H.
  rewrite decide_False in H by done. rewrite H by (done || lia). done.
Qed.

Lemma removeItem_spec h e top tv b' : h !! top = Some tv → chain h (nextInBin tv) b' → (length b' ≤ size h)%nat →
  NoDup (top :: b') → e ∈ top :: b' →
  ∃ h' r, removeItem h e top = Ok (h', r) ∧ ev_info <$> h' = ev_info <$> h ∧ (∀ x, x ∉ top :: b' → h' !! x = h !! x) ∧
    bins h' r (put_bin (drop_event e (top :: b')) (drop_event e (top :: b')) []) (nextBin tv).
Proof.
  intros Ht Hc Hl Hnd He. unfold removeItem. rewrite (ev_at_ok _ _ _ Ht). cbn [mbind outcome_bind].
  destruct (Nat.eqb_spec e top) as [->|Hne].
  - pose proof (drop_event_middle top [] b' Hnd) as Ed. cbn [app] in Ed. rewrite Ed. destruct b' as [|x b']; cbn in Hc.
    { rewrite Hc. exists h, (nextBin tv). done. }
    destruct Hc as (Ex & xv & Hx & Hc). rewrite Ex. unfold update_event, ev_at. rewrite Hx. cbn [mbind outcome_bind].
    do 2 eexists. split; [done|]. split; [by apply (info_insert h x xv)|]. split.
    { intros y Hy. apply lookup_insert_ne. intros ->. apply Hy. right. by left. }
    cbn. exists x, (with_nextBin xv (nextBin tv)), b'. rewrite lookup_insert_eq. split_and!; try done.
    apply NoDup_cons in Hnd as [_ [Hni _]%NoDup_cons]. eapply chain_frame; [|exact Hc].
    intros y Hy. rewrite lookup_insert_ne; [done|]. by intros ->.
  - apply elem_of_cons in He as [?|He]; [done|].
    pose proof (find_in_bin_spec h e (S (size h)) b' top (nextInBin tv)) as H. rewrite decide_True in H by done.
    destruct H as (b1 & c & b2 & E & ->); [lia|done|]. cbn [mbind outcome_bind].
    assert (chain h (Some top) (top :: b')) as Hall by (cbn; eauto).
    rewrite E in Hall, Hnd.
    assert (∀ y, y ∈ top :: b' → ∃ yv, h !! y = Some yv) as Hin.
    { rewrite E. clear -Hall. revert Hall. generalize (b1 ++ c :: e :: b2), (Some top). intros l.
      induction l as [|z l IH]; intros p; cbn; [by intros _ ? ?%elem_of_nil|].
      intros (_ & zv & Hz & Hc) y [->|Hy]%elem_of_cons; [eauto|by eapply IH]. }
    destruct (Hin c) as [cv Hcv]; [rewrite E; set_solver|]. destruct (Hin e) as [ev Hev]; [by right|].
    unfold ev_at. rewrite Hev. cbn [mbind outcome_bind]. unfold update_event, ev_at. rewrite Hcv. cbn [mbind outcome_bind].
    do 2 eexists. split; [done|]. split; [by apply (info_insert h c cv)|]. split.
    { intros y Hy. apply lookup_insert_ne. intros ->. apply Hy. rewrite E. set_solver. }
    pose proof (chain_unlink h b1 c cv e ev b2 _ Hnd Hcv Hev Hall) as Hun. rewrite E.
    replace (b1 ++ c :: e :: b2) with ((b1 ++ [c]) ++ e :: b2) in Hnd |- * by (by rewrite <-app_assoc).
    rewrite drop_event_middle, <-app_assoc by done. cbn [app].
    assert (∃ b0, b1 ++ c :: b2 = top :: b0) as [b0 E0].
    { destruct b1; cbn in E |- *; injection E as <- _; eauto. }
    rewrite E0 in Hun |- *. destruct Hun as (_ & tv' & Ht' & Hch). cbn. exists top, tv', b0. split_and!; try done.
    destruct (decide (c = top)) as [->|]; [rewrite lookup_insert_eq in Ht'|rewrite lookup_insert_ne in Ht' by done];
      simplify_eq; done.
Qed.

Lemma drop_event_app e l1 l2 : drop_event e (l1 ++ l2) = drop_event e l1 ++ drop_event e l2.
Proof. apply filter_app. Qed.
Lemma concat_put_bin b bs : concat (put_bin b b bs) = b ++ concat bs.
Proof. by destruct b. Qed.
Lemma put_bin_app {A} b (x : A) xs ys : put_bin b x xs ++ ys = put_bin b x (xs ++ ys).
Proof. by destruct b. Qed.

Lemma sorted_drop (b : list nat) k ks1 ks2 :
  StronglySorted (fun a b => key_lt a b = true) (ks1 ++ k :: ks2) →
  StronglySorted (fun a b => key_lt a b = true) (ks1 ++ put_bin b k ks2).
Proof.
  destruct b; [|done]. cbn. rewrite !StronglySorted_app. intros (H12 & H1 & H2). inversion H2; subst.
  split_and!; try done. intros x1 x2 ??. apply H12; [done|by right].
Qed.

Lemma drop_bin_keys h e b k bs ks : bin_key h b k → Forall2 (bin_key h) bs ks →
  Forall2 (bin_key h) (put_bin (drop_event e b) (drop_event e b) bs) (put_bin (drop_event e b) k ks).
Proof.
  intros Hb Hbs. assert (bin_key h (drop_event e b) k) as Hd.
  { apply Forall_forall. intros x [_ Hx]%list_elem_of_filter. unfold bin_key in Hb. rewrite Forall_forall in Hb. auto. }
  destruct (drop_event e b); [done|by constructor].
Qed.

(** Events of another bin have another key. *)
Lemma bin_of_key h bs ks x ev : Forall2 (bin_key h) bs ks → h !! x = Some ev → ev_key ev ∉ ks → x ∉ concat bs.
Proof. intros Hk Hx Hn Hin. destruct (bin_key_elem h bs ks x Hk Hin) as (ev' & ? & ?). by simplify_eq. Qed.

Lemma sorted_notin k ks : StronglySorted (fun a b => key_lt a b = true) (k :: ks) → k ∉ ks.
Proof.
  inversion 1 as [|? ? ? Hall]; subst. intros Hin. rewrite Forall_forall in Hall. apply Hall in Hin.
  by rewrite key_lt_irrefl in Hin.
Qed.

(** Removing the event from the bin [top :: b'] after the bins [bs1], whose end is
    linked anew by [relink]. *)
Lemma remove_from_bin h hd bs1 top tv b' bs2 ks1 ks2 e ev :
  rep_bins h hd (bs1 ++ (top :: b') :: bs2) (ks1 ++ ev_key ev :: ks2) → length bs1 = length ks1 →
  bins h hd bs1 (Some top) → h !! top = Some tv →
  h !! e = Some ev →
  if decide (e ∈ concat (bs1 ++ (top :: b') :: bs2)) then
    ∃ h' r bs', removeItem h e top = Ok (h', r) ∧ ev_info <$> h' = ev_info <$> h ∧
      concat bs' = drop_event e (concat ((top :: b') :: bs2)) ∧ bins h' hd bs1 (Some top) ∧ bins h' r bs' None ∧
      (∀ x, x ∈ concat bs1 → x ∉ concat bs' ∧ h' !! x = h !! x) ∧
      drop_event e (concat bs1) = concat bs1 ∧
      ∃ ks', Forall2 (bin_key h) (bs1 ++ bs') ks' ∧ StronglySorted (fun a b => key_lt a b = true) ks'
  else removeItem h e top = Err Panic.
Proof.
  intros HR Hlen Hpre Ht He. pose proof (rep_size _ _ _ _ HR) as Hsz. destruct HR as [Hb Hk Hs Hnd].
  apply bins_app in Hb as (m & _ & (x & xv & b'' & [= <- <-] & -> & Hx & Hc & Hb2)).
  assert (xv = tv) as -> by congruence.
  apply Forall2_app_inv in Hk as [Hk1 Hk2]; [|done]. inversion Hk2 as [|? ? ? ? Hbk Hbks]; subst.
  apply StronglySorted_app in Hs as Hs'. destruct Hs' as (H12 & _ & Hs2).
  assert (e ∉ concat bs1) as Hn1.
  { apply (bin_of_key h bs1 ks1 e ev); [done..|]. intros Hin. pose proof (H12 _ (ev_key ev) Hin ltac:(by left)) as E.
    by rewrite key_lt_irrefl in E. }
  assert (e ∉ concat bs2) as Hn2 by (apply (bin_of_key h bs2 ks2 e ev); [done..|by apply sorted_notin]).
  rewrite concat_app in Hnd, Hsz |- *. cbn [concat] in Hnd, Hsz |- *.
  apply NoDup_app in Hnd as (_ & Hd1 & [Hndb [Hdb _]]%NoDup_app).
  assert ((length b' ≤ size h)%nat) as Hlb by (rewrite !length_app in Hsz; cbn in Hsz; lia).
  destruct (decide (e ∈ top :: b')) as [Hin|Hnin].
  2: { rewrite decide_False; [by apply (removeItem_absent h e top tv b')|]. rewrite !elem_of_app. tauto. }
  rewrite decide_True by (rewrite !elem_of_app; tauto).
  destruct (removeItem_spec h e top tv b') as (h' & r & -> & Hinfo & Hsame & Hbins); try done.
  exists h', r, (put_bin (drop_event e (top :: b')) (drop_event e (top :: b')) bs2).
  split; [done|]. split; [done|]. rewrite concat_put_bin, drop_event_app, (drop_event_none e (concat bs2)) by done.
  split; [done|].
  assert (∀ y, y ∈ concat bs1 → h' !! y = h !! y) as Hf1.
  { intros y Hy. apply Hsame. intros Hy'. apply (Hd1 y Hy), elem_of_app. by left. }
  split_and!.
  - by eapply bins_frame.
  - change bs2 with ([] ++ bs2) at 1. rewrite <-put_bin_app. apply bins_app. exists (nextBin tv). split; [done|].
    eapply bins_frame; [|done]. intros y Hy. apply Hsame. intros Hy'. by apply (Hdb y).
  - intros y Hy. split; [|by apply Hf1]. intros [Hy'|Hy']%elem_of_app; apply (Hd1 y Hy), elem_of_app.
    + apply list_elem_of_filter in Hy' as [_ Hy']. by left.
    + by right.
  - by apply drop_event_none.
  - exists (ks1 ++ put_bin (drop_event e (top :: b')) (ev_key ev) ks2). split; [|by apply sorted_drop].
    apply Forall2_app; [done|]. by apply drop_bin_keys.
Qed.

Lemma nodup_drop e l : NoDup l → NoDup (drop_event e l).
Proof. apply NoDup_filter. Qed.

Lemma remove_spec me h hd l e ev : rep h hd l → h !! e = Some ev → queue ev = Some me →
  if decide (e ∈ l) then
    ∃ h' hd', remove me h hd e = Ok (h', hd') ∧ ev_info <$> h' = ev_info <$> h ∧ rep h' hd' (drop_event e l)
  else remove me h hd e = Err Panic.
Proof.
  intros (bs & ks & -> & HR) He Hq. pose proof (rep_size _ _ _ _ HR) as Hsz. pose proof HR as [Hb Hk Hs Hnd].
  unfold remove. destruct bs as [|b bs].
  { cbn in Hb. subst hd. cbn. case_decide as H; [by apply elem_of_nil in H|done]. }
  destruct Hb as (x & xv & b' & -> & -> & Hx & Hc & Hb). inversion Hk as [|? k ? ks' Hbk Hbks]; subst.
  assert (ev_key xv = k) as Hxk by (apply Forall_cons in Hbk as [(ev' & ? & <-) _]; by simplify_eq).
  rewrite (ev_at_ok _ _ _ He). cbn [mbind outcome_bind]. rewrite bool_decide_eq_true_2 by done.
  cbn [assert_ mbind outcome_bind]. rewrite (ev_at_ok _ _ _ Hx). cbn [mbind outcome_bind].
  rewrite ev_eq_key, Hxk. destruct (bool_decide_reflect (k = ev_key ev)) as [->|Hne].
  - pose proof (remove_from_bin h (Some x) [] x xv b' bs [] ks' e ev HR eq_refl eq_refl Hx He) as Hrm. cbn [app] in Hrm.
    case_decide; [|done]. destruct Hrm as (h' & r & bs' & -> & Hinfo & Hcc & _ & Hb' & _ & _ & ks2 & Hk2 & Hs2).
    do 2 eexists. split; [done|]. split; [done|]. exists bs', ks2. split; [done|].
    constructor; [done|by apply (bin_keys_info h)|done|]. rewrite Hcc. by apply nodup_drop.
  - destruct (find_bin_spec h ev (S (size h)) bs ks' x (nextBin xv))
      as (bs1 & bs2 & ks1 & ks2 & p' & c' & -> & -> & -> & Hk1 & Hk2 & H1 & H2 & Hlt & Hge & Hp); [cbn in Hsz; lia|done..|].
    cbn [mbind outcome_bind].
    assert (e ∉ concat ((x :: b') :: bs1)) as Hn1.
    { apply (bin_of_key h _ (k :: ks1) e ev); [by constructor|done|]. rewrite Forall_forall in Hlt.
      intros [?|Hin]%elem_of_cons; [done|]. apply Hlt in Hin. by rewrite key_lt_irrefl in Hin. }
    assert (concat ((x :: b') :: bs1 ++ bs2) = concat ((x :: b') :: bs1) ++ concat bs2) as Ecat
      by (cbn; by rewrite concat_app, app_assoc).
    destruct bs2 as [|b2 bs2].
    { cbn in H2. subst c'. rewrite decide_False; [done|]. rewrite Ecat, app_nil_r. done. }
    destruct H2 as (c & cv & b2' & -> & -> & Hcv & Hcc & Hb2). inversion Hk2 as [|? k2 ? ks2' Hbk2 Hbks2]; subst.
    assert (ev_key cv = k2) as Hck by (apply Forall_cons in Hbk2 as [(ev' & ? & <-) _]; by simplify_eq).
    rewrite (ev_at_ok _ _ _ Hcv). cbn [mbind outcome_bind]. rewrite ev_ne_key, Hck.
    destruct (bool_decide_reflect (k2 = ev_key ev)) as [->|Hne2]; cbn [negb].
    2: { rewrite decide_False; [done|]. rewrite Ecat. intros [?|Hin]%elem_of_app; [done|].
         destruct (bin_key_elem h _ _ e Hk2 Hin) as (ev' & ? & Hin'). simplify_eq.
         apply elem_of_cons in Hin' as [?|Hin']; [congruence|].
         inversion Hs as [|? ? Hs' _]; subst. apply StronglySorted_app in Hs' as (_ & _ & Hs').
         inversion Hs' as [|? ? _ Hall]; subst. rewrite Forall_forall in Hall. rewrite (Hall _ Hin') in Hge. done. }
    assert (∃ bsA b0, (x :: b') :: bs1 = bsA ++ [p' :: b0]) as (bsA & b0 & Esplit).
    { destruct Hp as [[-> ->]|(bs0 & b0 & ->)]; [by exists [], b'|]. by exists ((x :: b') :: bs0), b0. }
    pose proof (remove_from_bin h (Some x) ((x :: b') :: bs1) c cv b2' bs2 (ev_key xv :: ks1) ks2' e ev HR
      ltac:(cbn; f_equal; by eapply Forall2_length) ltac:(cbn; eauto 10) Hcv He) as Hrm.
    cbn [app] in Hrm. case_decide; [|by rewrite Hrm].
    destruct Hrm as (h' & r & bs' & -> & Hinfo & Hcat & Hb1' & Hb' & Hf & Hd1 & ksn & Hkn & Hsn). cbn [mbind outcome_bind].
    assert (p' ∈ concat ((x :: b') :: bs1)) as Hpin
      by (rewrite Esplit; apply elem_concat; exists (p' :: b0); split; [by left|]; apply elem_of_app; right; by left).
    destruct (bin_key_elem h ((x :: b') :: bs1) (ev_key xv :: ks1) p' ltac:(by constructor) Hpin) as (pv & Hpv & _).
    destruct (Hf p' Hpin) as [Hpn Hps]. rewrite Hpv in Hps. unfold update_event. rewrite (ev_at_ok _ _ _ Hps).
    cbn [mbind outcome_bind]. do 2 eexists. split; [done|].
    assert (ev_info <$> <[p' := with_nextBin pv r]> h' = ev_info <$> h) as Hi2 by (by rewrite (info_insert h' p' pv)).
    split; [done|]. exists (((x :: b') :: bs1) ++ bs'), ksn.
    assert (concat (((x :: b') :: bs1) ++ bs') = drop_event e (concat ((x :: b') :: bs1 ++ (c :: b2') :: bs2))) as Efin
      by (rewrite Ecat, drop_event_app, Hd1, <-Hcat, concat_app; done).
    split; [done|]. constructor; [|by apply (bin_keys_info h)|done|rewrite Efin; by apply nodup_drop].
    apply bins_app. exists r. split.
    + rewrite Esplit in Hb1' |- *. eapply bins_relink; [exact Hb1'| |done].
      rewrite <-Esplit. rewrite Ecat in Hnd. by apply NoDup_app in Hnd as (? & _).
    + eapply bins_frame; [|done]. intros y Hy. apply lookup_insert_ne. by intros ->.
Qed.
