(* ===== verification/EventQueueRefine.v ===== *)
(** The event queue refines a sorted list of events: every operation, run on
    both, fails in the same way or leads to related states. *)
From stdpp Require Import gmap sorting.
From S2P Require Import Prelude EventQueue EventQueueSpec.

#[local] Open Scope Z_scope.

(** ** The specification: a heap of events without links, and a list *)

Record AQ := mkAQ {
  aq_info : gmap nat Info;
  aq_order : list nat;
  aq_cur : Z;
  aq_async : list nat;
}.
Definition aq_new : AQ := mkAQ ∅ [] 0 [].

Definition i_scheduled (i : Info) : bool := flag_isSet (i_flags i) Scheduled.
Definition i_initialized (i : Info) : bool := Z.land (i_flags i) InitMask =? Initialized.
Definition i_is (f : Z) (i : Info) : bool := flag_isSet (i_flags i) f.
Definition i_with_flags (f : Z → Z) (i : Info) : Info := mkInfo (i_when i) (i_priority i) (f (i_flags i)) (i_queue i).
Definition i_setWhen (t : Z) (me : nat) (i : Info) : Info := mkInfo t (i_priority i) (i_flags i) (Some me).

Definition a_at (a : AQ) (e : nat) : outcome Info :=
  match aq_info a !! e with Some i => Ok i | None => Err Undefined end.
Definition a_update (a : AQ) (e : nat) (f : Info → Info) : outcome AQ :=
  let* i := a_at a e in Ok (mkAQ (<[e := f i]> (aq_info a)) (aq_order a) (aq_cur a) (aq_async a)).
Definition a_order (a : AQ) (l : list nat) : AQ := mkAQ (aq_info a) l (aq_cur a) (aq_async a).

(** Before the first event that is not strictly earlier: by time, then priority, then
    last in first. *)
Definition a_before (a : AQ) (k : key) (x : nat) : bool :=
  match aq_info a !! x with Some i => key_lt (i_key i) k | None => false end.
Definition a_insert (a : AQ) (e : nat) : outcome AQ :=
  let* i := a_at a e in Ok (a_order a (ins (a_before a (i_key i)) e (aq_order a))).

Section Spec.
Context (me : nat) (mode : Mode).

Definition a_remove (a : AQ) (e : nat) : outcome AQ :=
  match aq_order a with
  | [] => Err Panic
  | _ =>
      let* i := a_at a e in
      let* _ := assert_ (bool_decide (i_queue i = Some me)) in
      if decide (e ∈ aq_order a) then Ok (a_order a (drop_event e (aq_order a))) else Err Panic
  end.

Definition a_delete (a : AQ) (e : nat) : outcome AQ :=
  let* i := a_at a e in
  let* _ := assert_ (negb (i_scheduled i)) in
  Ok (mkAQ (delete e (aq_info a)) (aq_order a) (aq_cur a) (aq_async a)).
Definition a_release (a : AQ) (e : nat) : outcome AQ :=
  let* i := a_at a e in
  if i_is Managed i && negb (i_scheduled i) then a_delete a e else Ok a.

Definition a_schedule (a : AQ) (e : nat) (t : Z) (global : bool) : outcome AQ :=
  let* _ := assert_ (aq_cur a <=? t) in
  let* i := a_at a e in
  let* _ := assert_ (negb (i_scheduled i)) in
  let* _ := assert_ (i_initialized i) in
  let* a := a_update a e (i_setWhen t me) in
  let* a := (if inParallelMode mode && (negb (isCurrent mode) || global)
             then Ok (mkAQ (aq_info a) (aq_order a) (aq_cur a) (aq_async a ++ [e])) else a_insert a e) in
  a_update a e (i_with_flags (fun f => flag_set f Scheduled)).

Definition a_deschedule (a : AQ) (e : nat) : outcome AQ :=
  let* i := a_at a e in
  let* _ := assert_ (i_scheduled i) in
  let* _ := assert_ (i_initialized i) in
  let* _ := assert_ (negb (inParallelMode mode) || isCurrent mode) in
  let* a := a_remove a e in
  let* a := a_update a e (i_with_flags (fun f => flag_clear (flag_clear f Squashed) Scheduled)) in
  a_release a e.

Definition a_reschedule (a : AQ) (e : nat) (t : Z) (always : bool) : outcome AQ :=
  let* _ := assert_ (aq_cur a <=? t) in
  let* i := a_at a e in
  let* _ := assert_ (always || i_scheduled i) in
  let* _ := assert_ (i_initialized i) in
  let* _ := assert_ (negb (inParallelMode mode) || isCurrent mode) in
  let* a := (if i_scheduled i then a_remove a e else Ok a) in
  let* a := a_update a e (i_setWhen t me) in
  let* a := a_insert a e in
  a_update a e (i_with_flags (fun f => flag_set (flag_clear f Squashed) Scheduled)).

Definition a_run_op (a : AQ) (o : QOp) : outcome AQ :=
  match o with
  | OpNew e p f =>
      match aq_info a !! e with
      | Some _ => Err Undefined
      | None =>
          let* _ := assert_ (flag_noneSet f (u16 (Z.lnot PublicWrite))) in
          Ok (mkAQ (<[e := mkInfo 0 p (Z.lor Initialized f) None]> (aq_info a)) (aq_order a) (aq_cur a) (aq_async a))
      end
  | OpDelete e => a_delete a e
  | OpSquash e => a_update a e (i_with_flags (fun f => flag_set f Squashed))
  | OpSchedule e t global => a_schedule a e t global
  | OpDeschedule e => a_deschedule a e
  | OpReschedule e t always => a_reschedule a e t always
  end.

(** The first event of the list is served. *)
Definition a_serve (process : list QOp) (a : AQ) : outcome (AQ * option nat) :=
  match aq_order a with
  | [] => Err Undefined
  | e :: l =>
      let* i := a_at a e in
      let* a := a_update (a_order a l) e (i_with_flags (fun f => flag_clear f Scheduled)) in
      if negb (i_is Squashed i) then
        let* a := foldM a_run_op process (mkAQ (aq_info a) (aq_order a) (i_when i) (aq_async a)) in
        let* i := a_at a e in
        if i_is IsExitEvent i then
          let* _ := assert_ (negb (i_is Managed i) || negb (i_is IsMainQueue i)) in Ok (a, Some e)
        else let* a := a_release a e in Ok (a, None)
      else
        let* a := a_update a e (i_with_flags (fun f => flag_clear f Squashed)) in
        let* a := a_release a e in Ok (a, None)
  end.

Fixpoint a_async_loop (l : list nat) (a : AQ) : outcome AQ :=
  match l with
  | [] => Ok a
  | e :: l => let* a := a_insert a e in a_async_loop l (mkAQ (aq_info a) (aq_order a) (aq_cur a) l)
  end.
Definition a_handleAsync (a : AQ) : outcome AQ :=
  let* _ := assert_ (isCurrent mode) in a_async_loop (aq_async a) a.
End Spec.

(** ** Runs *)

Inductive QCmd := CmdOp (o : QOp) | CmdServe (process : list QOp) | CmdAsync.

Definition run_cmd (me : nat) (q : EventQueue) (c : Mode * QCmd) : outcome EventQueue :=
  match c with
  | (mode, CmdOp o) => run_op me mode q o
  | (mode, CmdServe process) => let* (q, _) := serviceOne me mode process q in Ok q
  | (mode, CmdAsync) => handleAsyncInsertions mode q
  end.
Definition a_run_cmd (me : nat) (a : AQ) (c : Mode * QCmd) : outcome AQ :=
  match c with
  | (mode, CmdOp o) => a_run_op me mode a o
  | (mode, CmdServe process) => let* (a, _) := a_serve me mode process a in Ok a
  | (mode, CmdAsync) => a_handleAsync mode a
  end.

(** ** Agreement of two outcomes *)

Definition agree {A B} (P : A → B → Prop) (x : outcome A) (y : outcome B) : Prop :=
  match x, y with
  | Ok a, Ok b => P a b
  | Err e, Err e' => e = e'
  | _, _ => False
  end.

Lemma agree_bind {A B C D} (P : A → B → Prop) (Q : C → D → Prop) x y f g :
  agree P x y → (∀ a b, P a b → agree Q (f a) (g b)) → agree Q (let* a := x in f a) (let* b := y in g b).
Proof. destruct x, y; cbn; naive_solver. Qed.
Lemma agree_assert {C D} (Q : C → D → Prop) b b' f g : b = b' → (b = true → agree Q f g) →
  agree Q (let* _ := assert_ b in f) (let* _ := assert_ b' in g).
Proof. intros <-. destruct b; cbn; auto. Qed.

(** ** The relation *)

Record linked (q : EventQueue) (a : AQ) : Prop := {
  li_info : aq_info a = ev_info <$> eq_heap q;
  li_cur : aq_cur a = eq_curTick q;
  li_async : aq_async a = async_queue q;
  li_rep : rep (eq_heap q) (eq_head q) (aq_order a);
}.

(** An event is flagged as scheduled exactly while it is in one of the lists. *)
Record sane (me : nat) (a : AQ) : Prop := {
  sa_nodup : NoDup (aq_order a ++ aq_async a);
  sa_in : ∀ e, e ∈ aq_order a ++ aq_async a →
    ∃ i, aq_info a !! e = Some i ∧ i_scheduled i = true ∧ i_queue i = Some me;
  sa_flag : ∀ e i, aq_info a !! e = Some i → i_scheduled i = true → e ∈ aq_order a ++ aq_async a;
  sa_init : ∀ e i, aq_info a !! e = Some i → i_initialized i = true;
}.
Definition refines (me : nat) (q : EventQueue) (a : AQ) : Prop := linked q a ∧ sane me a.

Definition links (e : Event) : option nat * option nat * key := (nextBin e, nextInBin e, ev_key e).

Lemma chain_links h h' b e : (∀ x, x ∈ b → links <$> h' !! x = links <$> h !! x) → chain h e b → chain h' e b.
Proof.
  intros Hf. apply chain_frame. intros x Hx. specialize (Hf x Hx).
  destruct (h' !! x), (h !! x); cbn in *; [|done..]. unfold links in Hf. congruence.
Qed.
Lemma bins_links h h' bs : ∀ s t, (∀ x, x ∈ concat bs → links <$> h' !! x = links <$> h !! x) → bins h s bs t → bins h' s bs t.
Proof.
  induction bs as [|b bs IH]; intros s t Hf; cbn; [done|].
  intros (x & ev & b' & -> & -> & Hx & Hc & Hb).
  pose proof (Hf x ltac:(cbn; by left)) as Hx'. rewrite Hx in Hx'. destruct (h' !! x) as [ev'|] eqn:E; [|done].
  exists x, ev'. cbn in Hx'. injection Hx' as En Ei _ _. rewrite En, Ei. exists b'. split_and!; try done.
  - eapply chain_links; [|done]. intros y Hy. apply Hf. cbn. right. apply elem_of_app. by left.
  - apply IH; [|done]. intros y Hy. apply Hf. cbn [concat]. apply elem_of_app. by right.
Qed.

Lemma rep_links h h' hd l : (∀ x, x ∈ l → links <$> h' !! x = links <$> h !! x) → rep h hd l → rep h' hd l.
Proof.
  intros Hf (bs & ks & -> & [Hb Hk Hs Hn]). exists bs, ks. split; [done|]. constructor; try done.
  - by eapply bins_links.
  - apply Forall2_same_length_lookup. split; [by eapply Forall2_length|]. intros i b k Hbi Hki.
    pose proof (Forall2_lookup_lr _ _ _ _ _ _ Hk Hbi Hki) as Hbk. apply Forall_forall. intros x Hx.
    unfold bin_key in Hbk. rewrite Forall_forall in Hbk. destruct (Hbk x Hx) as (ev & Hev & Ekey).
    assert (x ∈ concat bs) as Hin by (apply elem_concat; exists b; split; [done|by eapply list_elem_of_lookup_2]).
    specialize (Hf x Hin). rewrite Hev in Hf. destruct (h' !! x) as [ev'|]; [|done]. exists ev'.
    cbn in Hf. injection Hf as _ _ ??. split; [done|]. unfold ev_key in *. congruence.
Qed.

(** ** The operations on one event *)

Lemma linked_at q a e : linked q a → agree (fun ev i => i = ev_info ev ∧ eq_heap q !! e = Some ev) (ev_at (eq_heap q) e) (a_at a e).
Proof. intros []. unfold ev_at, a_at. rewrite li_info0, lookup_fmap. by destruct (eq_heap q !! e). Qed.

Lemma linked_update q a e f g : linked q a → (∀ ev, ev_info (f ev) = g (ev_info ev)) →
  e ∉ aq_order a ∨ (∀ ev, links (f ev) = links ev) →
  agree (fun h a' => linked (set_heap q h) a' ∧ aq_order a' = aq_order a)
    (update_event (eq_heap q) e f) (a_update a e g).
Proof.
  intros HL Hfg Hl. unfold update_event, a_update. eapply agree_bind; [by apply linked_at|].
  intros ev i [-> He]. split; [|done]. destruct HL. constructor; cbn; try done.
  - by rewrite li_info0, fmap_insert, Hfg.
  - eapply rep_links; [|done]. intros x Hx. destruct (decide (x = e)) as [->|]; [|by rewrite lookup_insert_ne].
    destruct Hl as [?|Hl]; [done|]. rewrite lookup_insert_eq, He. cbn. by rewrite Hl.
Qed.

Lemma linked_flags q a e f : linked q a →
  agree (fun q' a' => linked q' a' ∧ aq_order a' = aq_order a)
    (set_event_flags q e f) (a_update a e (i_with_flags f)).
Proof.
  intros HL. unfold set_event_flags.
  pose proof (linked_update q a e (fun x => with_flags x (f (flags x))) (i_with_flags f) HL) as H.
  specialize (H ltac:(done) ltac:(by right)).
  destruct (update_event _ _ _), (a_update _ _ _); cbn in *; done.
Qed.

Lemma ins_ext f g e l : (∀ x, f x = g x) → ins f e l = ins g e l.
Proof. intros H. induction l as [|x l IH]; cbn; [done|]. by rewrite H, IH. Qed.

Lemma linked_insert q a e : linked q a → e ∉ aq_order a →
  agree (fun q' a' => linked q' a') (queue_insert q e) (a_insert a e).
Proof.
  intros HL Hni. unfold queue_insert, a_insert. pose proof HL as [Hi Hc Has Hr].
  unfold a_at. rewrite Hi, lookup_fmap. destruct (eq_heap q !! e) as [ev|] eqn:He; cbn [fmap option_fmap option_map].
  - destruct (insert_spec _ _ _ e ev Hr Hni He) as (h' & hd' & -> & Hinf & Hr'). cbn. constructor; cbn; try done.
    { by rewrite Hinf. }
    rewrite (ins_ext _ (earlier (eq_heap q) (ev_key ev))); [done|].
    intros x. unfold a_before, earlier. rewrite Hi, lookup_fmap. by destruct (eq_heap q !! x).
  - cbn. unfold insert, insertBefore, ev_at. rewrite He. by destruct (eq_head q).
Qed.

Lemma rep_head h hd l : rep h hd l → hd = head l.
Proof.
  intros (bs & ks & -> & [Hb _ _ _]). destruct bs as [|b bs]; [done|]. by destruct Hb as (x & ? & ? & -> & -> & _).
Qed.

Lemma linked_remove me q a e : linked q a → agree linked (queue_remove me q e) (a_remove me a e).
Proof.
  intros HL. pose proof HL as [Hi Hc Has Hr]. unfold queue_remove, a_remove.
  pose proof (rep_head _ _ _ Hr) as Hhd. destruct (aq_order a) as [|x l] eqn:El; cbn in Hhd.
  { unfold remove. by rewrite Hhd. }
  unfold a_at. rewrite Hi, lookup_fmap. destruct (eq_heap q !! e) as [ev|] eqn:He; cbn [fmap option_fmap option_map].
  2: { unfold remove, ev_at. by rewrite Hhd, He. }
  cbn [mbind outcome_bind]. destruct (bool_decide (i_queue (ev_info ev) = Some me)) eqn:Eq; cbn [assert_ mbind outcome_bind].
  2: { unfold remove. rewrite Hhd, (ev_at_ok _ _ _ He). cbn [mbind outcome_bind]. cbn in Eq. by rewrite Eq. }
  apply bool_decide_eq_true in Eq. pose proof (remove_spec me _ _ _ e ev Hr He Eq) as Hrm.
  destruct (decide (e ∈ x :: l)); [|by rewrite Hrm].
  destruct Hrm as (h' & hd' & -> & Hinf & Hr'). cbn. constructor; cbn; try done. by rewrite Hinf.
Qed.

Lemma linked_delete me q a e : linked q a → sane me a → agree linked (delete_event q e) (a_delete a e).
Proof.
  intros HL Hs. unfold delete_event, a_delete. eapply agree_bind; [by apply linked_at|]. intros ev i [-> He].
  apply agree_assert; [done|]. intros Hns%negb_true_iff. cbn. destruct HL. constructor; cbn; try done.
  - by rewrite li_info0, fmap_delete.
  - eapply rep_links; [|done]. intros x Hx. rewrite lookup_delete_ne; [done|]. intros ->.
    destruct (sa_in _ _ Hs x) as (i & Hx' & Hsc & _); [apply elem_of_app; by left|].
    rewrite li_info0, lookup_fmap, He in Hx'. cbn in Hx'. simplify_eq. unfold i_scheduled in Hsc. cbn in Hsc.
    unfold scheduled in Hns. congruence.
Qed.

Lemma linked_release me q a e : linked q a → sane me a → agree linked (release q e) (a_release a e).
Proof.
  intros HL Hs. unfold release, a_release. eapply agree_bind; [by apply linked_at|]. intros ev i [-> He].
  change (i_is Managed (ev_info ev)) with (isManaged ev). change (i_scheduled (ev_info ev)) with (scheduled ev).
  destruct (isManaged ev && negb (scheduled ev)); [by eapply linked_delete|done].
Qed.

(** ** Flags *)

Lemma flag_set_other f s x : Z.land s x = 0 → Z.land (flag_set f s) x = Z.land f x.
Proof. intros H. unfold flag_set. by rewrite Z.land_lor_distr_l, H, Z.lor_0_r. Qed.
Lemma flag_clear_other f s x : Z.land (u16 (Z.lnot s)) x = x → Z.land (flag_clear f s) x = Z.land f x.
Proof. intros H. unfold flag_clear. by rewrite <-Z.land_assoc, H. Qed.
Lemma flag_clear_same f s x : Z.land (u16 (Z.lnot s)) x = 0 → Z.land (flag_clear f s) x = 0.
Proof. intros H. unfold flag_clear. by rewrite <-Z.land_assoc, H, Z.land_0_r. Qed.
Lemma flag_set_same f s : s ≠ 0 → flag_isSet (flag_set f s) s = true.
Proof.
  intros Hs. unfold flag_isSet, flag_set. apply negb_true_iff, Z.eqb_neq.
  rewrite Z.land_lor_distr_l, Z.land_diag, Z.lor_eq_0_iff. tauto.
Qed.

(** A change of flags that keeps the initialization mark. *)
Class KeepsInit (f : Z → Z) : Prop := keeps_init x : Z.land (f x) InitMask = Z.land x InitMask.
#[export] Instance keeps_set_scheduled : KeepsInit (fun f => flag_set f Scheduled).
Proof. intros x. by apply flag_set_other. Qed.
#[export] Instance keeps_set_squashed : KeepsInit (fun f => flag_set f Squashed).
Proof. intros x. by apply flag_set_other. Qed.
#[export] Instance keeps_clear_scheduled : KeepsInit (fun f => flag_clear f Scheduled).
Proof. intros x. by apply flag_clear_other. Qed.
#[export] Instance keeps_clear_squashed : KeepsInit (fun f => flag_clear f Squashed).
Proof. intros x. by apply flag_clear_other. Qed.
#[export] Instance keeps_clear_both : KeepsInit (fun f => flag_clear (flag_clear f Squashed) Scheduled).
Proof. intros x. by rewrite !flag_clear_other. Qed.
#[export] Instance keeps_clear_set : KeepsInit (fun f => flag_set (flag_clear f Squashed) Scheduled).
Proof. intros x. by rewrite flag_set_other, flag_clear_other. Qed.

Lemma init_update (m : gmap nat Info) e i i' : (∀ x j, m !! x = Some j → i_initialized j = true) →
  m !! e = Some i → Z.land (i_flags i') InitMask = Z.land (i_flags i) InitMask →
  ∀ x j, <[e := i']> m !! x = Some j → i_initialized j = true.
Proof.
  intros Hm He Hf x j. rewrite lookup_insert_Some. intros [[-> <-]|[_ Hx]]; [|by eapply Hm].
  unfold i_initialized. rewrite Hf. by apply (Hm x i).
Qed.

(** ** The specification keeps its lists and flags in step *)

Lemma ins_perm f e l : ins f e l ≡ₚ e :: l.
Proof. induction l as [|x l IH]; cbn; [done|]. case_match; [|done]. rewrite IH. apply Permutation_swap. Qed.
Lemma elem_ins f e l x : x ∈ ins f e l ↔ x = e ∨ x ∈ l.
Proof. by rewrite ins_perm, elem_of_cons. Qed.
Lemma elem_drop e l x : x ∈ drop_event e l ↔ x ≠ e ∧ x ∈ l.
Proof. unfold drop_event. by rewrite list_elem_of_filter. Qed.

Lemma a_at_ok a e i : a_at a e = Ok i ↔ aq_info a !! e = Some i.
Proof. unfold a_at. destruct (aq_info a !! e); naive_solver. Qed.

(** An event that enters the lists with its flag set. *)
Lemma sane_enter me a e i i' o' as' : sane me a → aq_info a !! e = Some i → e ∉ aq_order a ++ aq_async a →
  o' ++ as' ≡ₚ e :: aq_order a ++ aq_async a → i_scheduled i' = true → i_queue i' = Some me →
  Z.land (i_flags i') InitMask = Z.land (i_flags i) InitMask →
  sane me (mkAQ (<[e := i']> (aq_info a)) o' (aq_cur a) as').
Proof.
  intros [Hn Hin Hfl Hini] He Hni Hp Hsc Hq Hf. constructor; cbn.
  - rewrite Hp. by constructor.
  - intros x. rewrite Hp. intros [->|Hx]%elem_of_cons; [exists i'; by rewrite lookup_insert_eq|].
    rewrite lookup_insert_ne by (by intros ->). auto.
  - intros x j. rewrite Hp, lookup_insert_Some, elem_of_cons. intros [[-> <-]|[_ Hx]] Hj; [by left|]. right. by eapply Hfl.
  - by apply (init_update _ e i).
Qed.

(** An event that leaves the lists with its flag cleared. *)
Lemma sane_leave me a e i i' o' as' c : sane me a → aq_info a !! e = Some i → aq_order a ++ aq_async a ≡ₚ e :: o' ++ as' →
  i_scheduled i' = false → Z.land (i_flags i') InitMask = Z.land (i_flags i) InitMask →
  sane me (mkAQ (<[e := i']> (aq_info a)) o' c as').
Proof.
  intros [Hn Hin Hfl Hini] He Hp Hsc Hf. rewrite Hp in Hn. apply NoDup_cons in Hn as [Hni Hn]. constructor; cbn.
  - done.
  - intros x Hx. rewrite lookup_insert_ne by (by intros ->). apply Hin. rewrite Hp. by right.
  - intros x j. rewrite lookup_insert_Some. intros [[-> <-]|[Hne Hx]] Hj; [congruence|].
    pose proof (Hfl x j Hx Hj) as H. rewrite Hp in H. apply elem_of_cons in H as [?|?]; [congruence|done].
  - by apply (init_update _ e i).
Qed.

(** A change that keeps the flag, the queue and the mark. *)
Lemma sane_keep me a e i i' c : sane me a → aq_info a !! e = Some i → i_scheduled i' = i_scheduled i →
  i_queue i' = i_queue i → Z.land (i_flags i') InitMask = Z.land (i_flags i) InitMask →
  sane me (mkAQ (<[e := i']> (aq_info a)) (aq_order a) c (aq_async a)).
Proof.
  intros [Hn Hin Hfl Hini] He Hs Hq Hf. constructor; cbn; [done|..].
  - intros x Hx. destruct (Hin x Hx) as (j & Hj & ? & ?). destruct (decide (x = e)) as [->|].
    + rewrite lookup_insert_eq. exists i'. simplify_eq. by rewrite Hs, Hq.
    + rewrite lookup_insert_ne by done. eauto.
  - intros x j. rewrite lookup_insert_Some. intros [[-> <-]|[Hne Hx]] Hj; [|by eapply Hfl].
    apply (Hfl x i He). congruence.
  - by apply (init_update _ e i).
Qed.

Lemma agree_sane me x y : agree linked x y → (∀ a, y = Ok a → sane me a) → agree (refines me) x y.
Proof. destruct x, y; cbn; try done. intros. split; auto. Qed.

Lemma a_update_ok a e f a' : a_update a e f = Ok a' ↔
  ∃ i, aq_info a !! e = Some i ∧ a' = mkAQ (<[e := f i]> (aq_info a)) (aq_order a) (aq_cur a) (aq_async a).
Proof.
  unfold a_update, a_at. destruct (aq_info a !! e) as [i|]; cbn; [|naive_solver].
  split; [intros [= <-]; eauto|by intros (? & [= <-] & ->)].
Qed.

Section Preserved.
Context (me : nat) (mode : Mode).

Lemma sane_delete a e a' : sane me a → a_delete a e = Ok a' → sane me a'.
Proof.
  intros [Hn Hin Hfl Hini]. unfold a_delete. intros H. mon. apply a_at_ok in H0. apply negb_true_iff in H1.
  assert (e ∉ aq_order a ++ aq_async a) as Hni by (intros (i & ? & ? & _)%Hin; congruence).
  constructor; cbn; [done|..].
  - intros y Hy. rewrite lookup_delete_ne by (by intros ->). auto.
  - intros y j. rewrite lookup_delete_Some. intros [_ Hy]. by apply Hfl.
  - intros y j. rewrite lookup_delete_Some. intros [_ Hy]. by apply (Hini y).
Qed.

Lemma sane_release a e a' : sane me a → a_release a e = Ok a' → sane me a'.
Proof. intros Hs. unfold a_release. intros H. mon. case_match; [by eapply sane_delete|by mon]. Qed.

Lemma unscheduled_out a e i : sane me a → aq_info a !! e = Some i → i_scheduled i = false → e ∉ aq_order a ++ aq_async a.
Proof. intros Hs He Hi (j & ? & ? & _)%(sa_in _ _ Hs). congruence. Qed.

Lemma sane_schedule a e t g a' : sane me a → a_schedule me mode a e t g = Ok a' → sane me a'.
Proof.
  intros Hs. unfold a_schedule. intros H. mon. apply a_at_ok in H1 as Hi. apply negb_true_iff in H2. rename x0 into i.
  apply a_update_ok in H4 as (i0 & Hi0 & ->). rewrite Hi in Hi0. injection Hi0 as <-.
  pose proof (unscheduled_out a e i Hs Hi H2) as Hni.
  apply a_update_ok in H as (j & Hj & ->). case_match.
  - mon. cbn in *. rewrite lookup_insert_eq in Hj. injection Hj as <-. rewrite insert_insert_eq.
    eapply (sane_enter me a e i); try done.
    + rewrite app_assoc. by rewrite Permutation_app_comm.
    + unfold i_scheduled. cbn. by apply flag_set_same.
    + cbn. apply (keeps_init (f := fun f => flag_set f Scheduled)).
  - unfold a_insert in H5. mon. cbn in *. rewrite lookup_insert_eq in Hj. injection Hj as <-. rewrite insert_insert_eq.
    eapply (sane_enter me a e i); try done.
    + by rewrite ins_perm.
    + unfold i_scheduled. cbn. by apply flag_set_same.
    + cbn. apply (keeps_init (f := fun f => flag_set f Scheduled)).
Qed.

Lemma drop_perm e l : NoDup l → e ∈ l → l ≡ₚ e :: drop_event e l.
Proof.
  intros Hn (l1 & l2 & ->)%list_elem_of_split. rewrite drop_event_middle by done. symmetry. apply Permutation_middle.
Qed.

Lemma a_remove_ok a e a' : a_remove me a e = Ok a' → e ∈ aq_order a ∧ a' = a_order a (drop_event e (aq_order a)).
Proof.
  unfold a_remove. intros H. destruct (aq_order a) eqn:E; [done|]. mon. case_decide; [|done]. by mon.
Qed.

Lemma removed_perm a e : sane me a → e ∈ aq_order a →
  aq_order a ++ aq_async a ≡ₚ e :: drop_event e (aq_order a) ++ aq_async a.
Proof.
  intros Hs He. rewrite (drop_perm e (aq_order a)) at 1; [done| |done].
  by pose proof (sa_nodup _ _ Hs) as [? _]%NoDup_app.
Qed.

Lemma sane_deschedule a e a' : sane me a → a_deschedule me mode a e = Ok a' → sane me a'.
Proof.
  intros Hs. unfold a_deschedule. intros H. mon. apply a_remove_ok in H4 as [He ->].
  apply a_update_ok in H5 as (j & Hj & ->). eapply sane_release; [|exact H]. cbn in Hj |- *.
  eapply (sane_leave me a e j); try done.
  - by apply removed_perm.
  - unfold i_scheduled, flag_isSet. cbn. by rewrite flag_clear_same.
  - apply (keeps_init (f := fun f => flag_clear (flag_clear f Squashed) Scheduled)).
Qed.

(** Taking an event out of the list and putting it back. *)
Lemma sane_reenter a e i i' o' : sane me a → aq_info a !! e = Some i → e ∈ aq_order a →
  o' ≡ₚ e :: drop_event e (aq_order a) → i_scheduled i' = true → i_queue i' = Some me →
  Z.land (i_flags i') InitMask = Z.land (i_flags i) InitMask →
  sane me (mkAQ (<[e := i']> (aq_info a)) o' (aq_cur a) (aq_async a)).
Proof.
  intros Hs Hi He Ho Hsc Hq Hm. set (i0 := i_with_flags (fun f => flag_clear f Scheduled) i).
  assert (Z.land (i_flags i0) InitMask = Z.land (i_flags i) InitMask) as Hm0
    by apply (keeps_init (f := fun f => flag_clear f Scheduled)).
  assert (sane me (mkAQ (<[e := i0]> (aq_info a)) (drop_event e (aq_order a)) (aq_cur a) (aq_async a))) as H0.
  { eapply (sane_leave me a e i); try done; [by apply removed_perm|].
    unfold i_scheduled, flag_isSet. cbn. by rewrite flag_clear_same. }
  pose proof (sane_enter me _ e i0 i' o' (aq_async a) H0) as H. cbn in H. rewrite insert_insert_eq in H.
  apply H; try done.
  - by rewrite lookup_insert_eq.
  - rewrite elem_of_app, elem_drop. intros [[? _]|Hin]; [done|].
    pose proof (sa_nodup _ _ Hs) as (_ & Hd & _)%NoDup_app. by apply (Hd e).
  - by rewrite Ho.
  - exact (eq_trans Hm (eq_sym Hm0)).
Qed.

Lemma sane_reschedule a e t al a' : sane me a → a_reschedule me mode a e t al = Ok a' → sane me a'.
Proof.
  intros Hs. unfold a_reschedule. intros H. mon. apply a_at_ok in H1 as Hi. rename x0 into i.
  assert (∃ o, (i_scheduled i = true ∧ e ∈ aq_order a ∧ o = drop_event e (aq_order a) ∨
    i_scheduled i = false ∧ o = aq_order a) ∧ x4 = a_order a o) as (o & Ho & ->).
  { destruct (i_scheduled i) eqn:Ei.
    - apply a_remove_ok in H5 as [He ->]. eauto 10.
    - mon. exists (aq_order x4). split; [auto|by destruct x4]. }
  clear H5. apply a_update_ok in H6 as (i0 & Hi0 & ->). cbn in Hi0. rewrite Hi in Hi0. injection Hi0 as <-.
  unfold a_insert in H7. mon. apply a_update_ok in H as (j & Hj & ->). cbn in *.
  rewrite lookup_insert_eq in Hj. injection Hj as <-. rewrite insert_insert_eq.
  set (i' := i_with_flags _ _).
  assert (i_scheduled i' = true ∧ i_queue i' = Some me ∧ Z.land (i_flags i') InitMask = Z.land (i_flags i) InitMask)
    as (Hsc & Hq & Hm).
  { split_and!; [by apply flag_set_same|done|].
    apply (keeps_init (f := fun f => flag_set (flag_clear f Squashed) Scheduled)). }
  destruct Ho as [(Ei & He & ->)|(Ei & ->)].
  - eapply (sane_reenter a e i); try done. by rewrite ins_perm.
  - eapply (sane_enter me a e i); try done; [by eapply unscheduled_out|by rewrite ins_perm].
Qed.

Lemma sane_run_op a o a' : sane me a → a_run_op me mode a o = Ok a' → sane me a'.
Proof.
  intros Hs. destruct o as [e p f|e|e|e t g|e|e t al]; cbn.
  - destruct (aq_info a !! e) eqn:He; [done|]. intros H. mon.
    assert (∀ m, Z.land (u16 (Z.lnot PublicWrite)) m = m → Z.land f m = 0) as Hf.
    { intros m Hm. unfold flag_noneSet in H0. zbool. rewrite <-Hm, Z.land_assoc, H0. done. }
    destruct Hs as [Hn Hin Hfl Hini]. constructor; cbn; [done|..].
    + intros y Hy. rewrite lookup_insert_ne; [auto|]. intros ->. destruct (Hin y Hy) as (? & ? & _). congruence.
    + intros y j. rewrite lookup_insert_Some. intros [[-> <-]|[_ Hy]] Hj; [|by eapply Hfl].
      unfold i_scheduled, flag_isSet in Hj. cbn in Hj. rewrite Z.land_lor_distr_l, (Hf Scheduled) in Hj by done. done.
    + intros y j. rewrite lookup_insert_Some. intros [[-> <-]|[_ Hy]]; [|by eapply Hini].
      unfold i_initialized. cbn. by rewrite Z.land_lor_distr_l, (Hf InitMask).
  - by apply sane_delete.
  - intros (i & Hi & ->)%a_update_ok. eapply (sane_keep me a e i); try done.
    + unfold i_scheduled, flag_isSet. cbn. by rewrite flag_set_other.
    + apply (keeps_init (f := fun f => flag_set f Squashed)).
  - by apply sane_schedule.
  - by apply sane_deschedule.
  - by apply sane_reschedule.
Qed.
End Preserved.

(** ** The operations refine the specification *)

Section Operations.
Context (me : nat) (mode : Mode).

Lemma linked_set_flags q a e f : linked q a →
  agree linked (set_event_flags q e f) (a_update a e (i_with_flags f)).
Proof.
  intros HL. pose proof (linked_flags q a e f HL) as H. destruct (set_event_flags _ _ _), (a_update _ _ _); naive_solver.
Qed.

Lemma schedule_refines q a e t g : refines me q a → agree (refines me) (schedule me mode q e t g) (a_schedule me mode a e t g).
Proof.
  intros [HL Hs]. apply agree_sane; [|intros a'; by apply sane_schedule]. unfold schedule, a_schedule.
  apply agree_assert; [by destruct HL as [_ -> _ _]|]. intros _.
  eapply agree_bind; [by apply linked_at|]. intros ev i [-> He].
  apply agree_assert; [done|]. intros Hn%negb_true_iff. apply agree_assert; [done|]. intros _.
  assert (e ∉ aq_order a) as Hni.
  { intros Hin. eapply (unscheduled_out me a e (ev_info ev)); [done| |done|apply elem_of_app; by left].
    by rewrite (li_info _ _ HL), lookup_fmap, He. }
  pose proof (linked_update q a e (fun x => setWhen x t me) (i_setWhen t me) HL ltac:(done) ltac:(by left)) as H.
  unfold update_event in H. rewrite (ev_at_ok _ _ _ He) in H. cbn [mbind outcome_bind] in H.
  destruct (a_update a e (i_setWhen t me)) as [a1|]; [|done]. destruct H as [HL1 Ho]. cbn [mbind outcome_bind].
  eapply (agree_bind linked).
  - case_match; [|by apply linked_insert; [|rewrite Ho]]. destruct HL1. constructor; cbn; try done. cbn in *. congruence.
  - intros q2 a2 HL2. by apply linked_set_flags.
Qed.

Lemma deschedule_refines q a e : refines me q a → agree (refines me) (deschedule me mode q e) (a_deschedule me mode a e).
Proof.
  intros [HL Hs]. unfold deschedule, a_deschedule. eapply agree_bind; [by apply linked_at|]. intros ev i [-> He].
  do 3 (apply agree_assert; [done|]; intros _).
  pose proof (linked_remove me q a e HL) as H. destruct (a_remove me a e) as [a1|] eqn:Ea.
  2: { by destruct (queue_remove me q e). }
  destruct (queue_remove me q e) as [q1|]; [|done]. cbn [agree mbind outcome_bind] in H |- *.
  pose proof (linked_set_flags q1 a1 e (fun f => flag_clear (flag_clear f Squashed) Scheduled) H) as H2.
  destruct (a_update a1 e _) as [a2|] eqn:Eu; [|by destruct (set_event_flags q1 e _)].
  destruct (set_event_flags q1 e _) as [q2|]; [|done]. cbn [agree mbind outcome_bind] in H2 |- *.
  assert (sane me a2) as Hs2.
  { apply a_remove_ok in Ea as [Hin ->]. apply a_update_ok in Eu as (j & Hj & ->). cbn in Hj |- *.
    eapply (sane_leave me a e j); [done..|by apply (removed_perm me)| |].
    - unfold i_scheduled, flag_isSet. cbn. by rewrite flag_clear_same.
    - apply (keeps_init (f := fun f => flag_clear (flag_clear f Squashed) Scheduled)). }
  apply agree_sane; [by eapply linked_release|]. intros a'. by apply sane_release.
Qed.

Lemma reschedule_refines q a e t al :
  refines me q a → agree (refines me) (reschedule me mode q e t al) (a_reschedule me mode a e t al).
Proof.
  intros [HL Hs]. apply agree_sane; [|intros a'; by apply sane_reschedule]. unfold reschedule, a_reschedule.
  apply agree_assert; [by destruct HL as [_ -> _ _]|]. intros _.
  eapply agree_bind; [by apply linked_at|]. intros ev i [-> He].
  do 3 (apply agree_assert; [done|]; intros _). change (i_scheduled (ev_info ev)) with (scheduled ev).
  eapply (agree_bind (fun q1 a1 => linked q1 a1 ∧ e ∉ aq_order a1)).
  { destruct (scheduled ev) eqn:Esc.
    - pose proof (linked_remove me q a e HL) as H. destruct (a_remove me a e) as [a1|] eqn:Ea;
        destruct (queue_remove me q e); try done. cbn in H |- *. split; [done|].
      apply a_remove_ok in Ea as [_ ->]. cbn. rewrite elem_drop. tauto.
    - cbn. split; [done|]. intros Hin. eapply (unscheduled_out me a e (ev_info ev)); [done| |done|apply elem_of_app; by left].
      by rewrite (li_info _ _ HL), lookup_fmap, He. }
  intros q1 a1 [HL1 Hni]. eapply agree_bind.
  { apply (linked_update q1 a1 e (fun x => setWhen x t me) (i_setWhen t me) HL1); [done|by left]. }
  intros h a2 [HL2 Ho]. eapply agree_bind; [apply linked_insert; [done|by rewrite Ho]|].
  intros q3 a3 HL3. by apply linked_set_flags.
Qed.

Lemma run_op_refines q a o : refines me q a → agree (refines me) (run_op me mode q o) (a_run_op me mode a o).
Proof.
  intros HR. pose proof HR as [HL Hs]. destruct o as [e p f|e|e|e t g|e|e t al]; cbn [run_op a_run_op].
  - apply agree_sane; [|intros a'; by apply (sane_run_op me mode a (OpNew e p f))].
    rewrite (li_info _ _ HL), lookup_fmap. destruct (eq_heap q !! e) eqn:He; [done|]. cbn [fmap option_fmap option_map].
    unfold Event_new. destruct (assert_ _) eqn:Ea; cbn; [|congruence]. destruct HL. constructor; cbn; try done.
    + by rewrite fmap_insert.
    + eapply rep_links; [|done]. intros x Hx. rewrite lookup_insert_ne; [done|]. intros ->.
      destruct (sa_in _ _ Hs x) as (i & Hi & _); [apply elem_of_app; by left|].
      rewrite li_info0, lookup_fmap, He in Hi. done.
  - apply agree_sane; [by eapply linked_delete|]. intros a'. by apply sane_delete.
  - apply agree_sane; [|intros a'; by apply (sane_run_op me mode a (OpSquash e))].
    pose proof (linked_update q a e squash (i_with_flags (fun f => flag_set f Squashed)) HL ltac:(done) ltac:(by right)) as H.
    destruct (update_event _ _ _), (a_update _ _ _); cbn in *; naive_solver.
  - by apply schedule_refines.
  - by apply deschedule_refines.
  - by apply reschedule_refines.
Qed.

Lemma run_ops_refines os : ∀ q a, refines me q a → agree (refines me) (foldM (run_op me mode) os q) (foldM (a_run_op me mode) os a).
Proof.
  induction os as [|o os IH]; intros q a HR; cbn [foldM]; [done|]. eapply agree_bind; [by apply run_op_refines|]. auto.
Qed.

(** Taking the first event off the queue is removing it. *)
Definition pop (q : EventQueue) (hv : Event) : outcome EventQueue :=
  match nextInBin hv with
  | Some next =>
      let* h := update_event (eq_heap q) next (fun x => with_nextBin x (nextBin hv)) in
      Ok (set_list q h (Some next))
  | None => Ok (set_list q (eq_heap q) (nextBin hv))
  end.

Lemma pop_remove q e hv : eq_head q = Some e → eq_heap q !! e = Some hv → queue hv = Some me →
  pop q hv = queue_remove me q e.
Proof.
  intros Hh He Hq. unfold queue_remove, remove. rewrite Hh, (ev_at_ok _ _ _ He). cbn [mbind outcome_bind].
  rewrite bool_decide_eq_true_2 by done. cbn [assert_ mbind outcome_bind]. unfold ev_eq. rewrite !Z.eqb_refl. cbn [andb]. unfold removeItem, pop.
  rewrite (ev_at_ok _ _ _ He). cbn [mbind outcome_bind]. rewrite Nat.eqb_refl.
  destruct (nextInBin hv); [|done]. by destruct (update_event _ _ _).
Qed.

Lemma pop_refines q a e l i : refines me q a → aq_order a = e :: l → aq_info a !! e = Some i →
  ∃ ev q1 q2, eq_head q = Some e ∧ eq_heap q !! e = Some ev ∧ i = ev_info ev ∧
    set_event_flags q e (fun f => flag_clear f Scheduled) = Ok q1 ∧ pop q1 ev = Ok q2 ∧
    refines me q2 (mkAQ (<[e := i_with_flags (fun f => flag_clear f Scheduled) i]> (aq_info a)) l (aq_cur a) (aq_async a)).
Proof.
  intros [HL Hs] Ho Hi. pose proof (rep_head _ _ _ (li_rep _ _ HL)) as Hh. rewrite Ho in Hh.
  pose proof Hi as He. rewrite (li_info _ _ HL), lookup_fmap in He.
  destruct (eq_heap q !! e) as [ev|] eqn:Hev; [|done]. injection He as <-.
  pose proof (linked_set_flags q a e (fun f => flag_clear f Scheduled) HL) as H.
  assert (a_update a e (i_with_flags (fun f => flag_clear f Scheduled)) =
    Ok (mkAQ (<[e := i_with_flags (fun f => flag_clear f Scheduled) (ev_info ev)]> (aq_info a)) (aq_order a) (aq_cur a) (aq_async a)))
    as Ea by (apply a_update_ok; eauto).
  rewrite Ea in H. destruct (set_event_flags q e _) as [q1|] eqn:E1; [|done]. cbn in H.
  exists ev, q1. destruct (sa_in _ _ Hs e) as (i & Hi' & Hsc & Hq); [rewrite Ho; by left|].
  rewrite Hi in Hi'. injection Hi' as <-.
  pose proof (linked_remove me q1 _ e H) as Hrm. unfold a_remove in Hrm. cbn [aq_order] in Hrm. rewrite Ho in Hrm.
  unfold a_at in Hrm. cbn [aq_info] in Hrm. rewrite lookup_insert_eq in Hrm. cbn [mbind outcome_bind] in Hrm.
  rewrite bool_decide_eq_true_2 in Hrm by done. cbn [assert_ mbind outcome_bind] in Hrm. rewrite decide_True in Hrm by (by left).
  destruct (queue_remove me q1 e) as [q2|] eqn:E2; [|done]. cbn [agree] in Hrm. exists q2. split_and!; try done.
  - rewrite <-E2. unfold set_event_flags, update_event in E1. rewrite (ev_at_ok _ _ _ Hev) in E1. cbn in E1. injection E1 as <-.
    rewrite <-(pop_remove _ e (with_flags ev (flag_clear (flags ev) Scheduled))); cbn; [done|done|by rewrite lookup_insert_eq|done].
  - assert (drop_event e (e :: l) = l) as Ed.
    { apply (drop_event_middle e []). pose proof (sa_nodup _ _ Hs) as [Hn _]%NoDup_app. by rewrite Ho in Hn. }
    rewrite Ed in Hrm. split; [exact Hrm|]. eapply (sane_leave me a e (ev_info ev)); try done; [by rewrite Ho| |].
    + unfold i_scheduled, flag_isSet. cbn. by rewrite flag_clear_same.
    + apply (keeps_init (f := fun f => flag_clear f Scheduled)).
Qed.

Lemma refines_time q a t : refines me q a →
  refines me (setCurTick q t) (mkAQ (aq_info a) (aq_order a) t (aq_async a)).
Proof. intros [[] []]. by split; constructor. Qed.

Lemma release_refines q a e : refines me q a → agree (refines me) (release q e) (a_release a e).
Proof. intros [HL Hs]. apply agree_sane; [by eapply linked_release|]. intros a'. by apply sane_release. Qed.

Lemma serve_refines process q a : refines me q a →
  agree (fun x y => refines me x.1 y.1 ∧ x.2 = y.2) (serviceOne me mode process q) (a_serve me mode process a).
Proof.
  intros HR. unfold serviceOne, a_serve. pose proof (rep_head _ _ _ (li_rep _ _ (proj1 HR))) as Hh.
  destruct (aq_order a) as [|e l] eqn:Ho; [by rewrite Hh|]. rewrite Hh. cbn [mbind outcome_bind head].
  destruct (sa_in _ _ (proj2 HR) e) as (i & Hi & _); [rewrite Ho; by left|].
  destruct (pop_refines q a e l i HR Ho Hi) as (ev & q1 & q2 & _ & Hev & -> & Hfl & Hpop & HR2).
  rewrite (ev_at_ok _ _ _ Hev), (proj2 (a_at_ok a e (ev_info ev)) Hi). cbn [mbind outcome_bind]. rewrite Hfl. cbn [mbind outcome_bind].
  fold (pop q1 ev). rewrite Hpop. cbn [mbind outcome_bind].
  rewrite (proj2 (a_update_ok (a_order a l) e (i_with_flags (fun f => flag_clear f Scheduled)) _)) by eauto.
  cbn [mbind outcome_bind aq_info aq_order aq_async aq_cur a_order].
  change (i_is Squashed (ev_info ev)) with (squashed ev). destruct (squashed ev); cbn [negb].
  - eapply (agree_bind (refines me)).
    { apply agree_sane; [apply linked_set_flags, HR2|]. intros a' (j & Hj & ->)%a_update_ok.
      eapply (sane_keep me _ e j); try done; [apply HR2| |].
      - unfold i_scheduled, flag_isSet. cbn. by rewrite flag_clear_other.
      - apply (keeps_init (f := fun f => flag_clear f Squashed)). }
    intros q3 a3 HR3. eapply (agree_bind (refines me)); [by apply release_refines|]. intros q4 a4 HR4. done.
  - eapply (agree_bind (refines me)); [exact (run_ops_refines process _ _ (refines_time q2 _ (_when ev) HR2))|].
    intros q3 a3 HR3. eapply agree_bind; [apply linked_at, HR3|]. intros ev3 i3 [-> He3].
    change (i_is IsExitEvent (ev_info ev3)) with (isExitEvent ev3). destruct (isExitEvent ev3).
    + by apply agree_assert.
    + eapply (agree_bind (refines me)); [by apply release_refines|]. intros q4 a4 HR4. done.
Qed.
End Operations.

Lemma async_refines me l : ∀ q a, refines me q a → aq_async a = l → agree (refines me) (async_loop l q) (a_async_loop l a).
Proof.
  induction l as [|e l IH]; intros q a HR Hl; cbn [async_loop a_async_loop]; [done|].
  pose proof HR as [HL Hs]. pose proof (sa_nodup _ _ Hs) as Hn. rewrite Hl in Hn.
  assert (e ∉ aq_order a) as Hni by (apply NoDup_app in Hn as (_ & Hd & _); intros H; apply (Hd e H); by left).
  pose proof (linked_insert q a e HL Hni) as H. destruct (sa_in _ _ Hs e) as (i & Hi & _).
  { rewrite Hl. apply elem_of_app. right. by left. }
  unfold a_insert in H |- *. rewrite (proj2 (a_at_ok a e i) Hi) in H |- *. cbn [mbind outcome_bind] in H |- *.
  destruct (queue_insert q e) as [q1|]; [|done]. cbn [agree mbind outcome_bind] in H |- *. apply IH; [|done]. split.
  - destruct H. constructor; done.
  - set (o := ins _ e _). assert (o ++ l ≡ₚ aq_order a ++ aq_async a) as Hp.
    { subst o. rewrite Hl, ins_perm. apply Permutation_middle. }
    destruct Hs as [_ Hin Hfl Hini]. constructor; cbn; try done.
    + rewrite Hp. by rewrite Hl.
    + intros x. rewrite Hp. auto.
    + intros x j Hx Hj. rewrite Hp. by eapply Hfl.
Qed.

Lemma refines_new me : refines me (EventQueue_new ∅) aq_new.
Proof.
  split.
  - constructor; cbn; try done. exists [], []. split; [done|]. constructor; try done; constructor.
  - constructor; cbn; [constructor|..].
    + by intros e ?%elem_of_nil.
    + intros e i. by rewrite lookup_empty.
    + intros e i. by rewrite lookup_empty.
Qed.

Lemma run_cmd_refines me q a c : refines me q a → agree (refines me) (run_cmd me q c) (a_run_cmd me a c).
Proof.
  intros HR. destruct c as [mode [o|process|]]; cbn [run_cmd a_run_cmd].
  - by apply run_op_refines.
  - pose proof (serve_refines me mode process q a HR) as H.
    destruct (serviceOne _ _ _ _) as [[? ?]|], (a_serve _ _ _ _) as [[? ?]|]; cbn in *; naive_solver.
  - unfold handleAsyncInsertions, a_handleAsync. apply agree_assert; [done|]. intros _.
    rewrite <-(li_async _ _ (proj1 HR)). by apply async_refines.
Qed.

Lemma eq_run_refines me cs : ∀ q a, refines me q a → agree (refines me) (foldM (run_cmd me) cs q) (foldM (a_run_cmd me) cs a).
Proof.
  induction cs as [|c cs IH]; intros q a HR; cbn [foldM]; [done|]. eapply agree_bind; [by apply run_cmd_refines|]. auto.
Qed.

(** C37: The event queue refines a sorted list. Any sequence of operations, in serial or
    parallel mode (new events, schedule, deschedule, reschedule, squash, delete,
    service of the next event with anything its code does to the queue, insertion
    of asynchronous events), run on the linked bins and on a list in which an
    event goes before the first one that is not strictly earlier by time and
    priority, fails on both in the same way or ends in states that correspond. *)
Theorem eventq_refines me cs :
  agree (refines me) (foldM (run_cmd me) cs (EventQueue_new ∅)) (foldM (a_run_cmd me) cs aq_new).
Proof. apply eq_run_refines, refines_new. Qed.
