(* ===== verification/EventQueueTime.v ===== *)
(** Time in the event queue: in serial mode the queue serves events in the order of
    their time and priority, time never goes back, and the operations used as
    they are meant to be never fail. *)
From stdpp Require Import gmap sorting.
From S2P Require Import Prelude EventQueue EventQueueSpec EventQueueRefine.

#[local] Open Scope Z_scope.

Definition serial : Mode := mkMode false true.

(** What the list of a serial run holds is not in the past. *)
Definition timely (a : AQ) : Prop :=
  aq_async a = [] ∧ ∀ e i, e ∈ aq_order a → aq_info a !! e = Some i → aq_cur a ≤ i_when i.

Section Serial.
Context (me : nat).

Lemma timely_update a e f c' : (∀ i, i_when (f i) = i_when i) → timely a → aq_cur a = c' → ∀ a',
  a_update a e f = Ok a' → timely a' ∧ aq_cur a' = c' ∧ aq_order a' = aq_order a.
Proof.
  intros Hf [Has Ht] <- a' (i & Hi & ->)%a_update_ok. split; [|done]. split; [done|]. cbn. intros x j Hx.
  rewrite lookup_insert_Some. intros [[-> <-]|[_ Hj]]; [rewrite Hf|]; eauto.
Qed.

Lemma timely_delete a e a' : timely a → a_delete a e = Ok a' → timely a' ∧ aq_cur a' = aq_cur a.
Proof.
  intros [Has Ht]. unfold a_delete. intros H. mon. split; [|done]. split; [done|]. cbn. intros y j Hy.
  rewrite lookup_delete_Some. intros [_ Hj]. eauto.
Qed.
Lemma timely_release a e a' : timely a → a_release a e = Ok a' → timely a' ∧ aq_cur a' = aq_cur a.
Proof. intros Ht. unfold a_release. intros H. mon. case_match; [by eapply timely_delete|by mon]. Qed.

(** An event entered at a time that is not past. *)
Lemma timely_insert a e t a1 a' : timely a → aq_cur a ≤ t → a_update a e (i_setWhen t me) = Ok a1 →
  a_insert a1 e = Ok a' → timely a' ∧ aq_cur a' = aq_cur a.
Proof.
  intros [Has Ht] Hc (i & Hi & ->)%a_update_ok. unfold a_insert. intros H. mon. split; [|done]. split; [done|]. cbn.
  intros y j [->|Hy]%elem_ins; rewrite lookup_insert_Some.
  - intros [[_ <-]|[? _]]; done.
  - intros [[_ <-]|[_ Hj]]; [done|eauto].
Qed.

Lemma timely_remove a e a' : timely a → a_remove me a e = Ok a' → timely a' ∧ aq_cur a' = aq_cur a.
Proof.
  intros [Has Ht] [_ ->]%a_remove_ok. split; [|done]. split; [done|]. cbn. intros y j [_ Hy]%elem_drop. eauto.
Qed.

Lemma timely_run_op a o a' : timely a → a_run_op me serial a o = Ok a' → sane me a → timely a' ∧ aq_cur a' = aq_cur a.
Proof.
  intros Ht H Hs. destruct o as [e p f|e|e|e t g|e|e t al]; cbn in H.
  - destruct (aq_info a !! e) eqn:He; [done|]. mon. split; [|done]. destruct Ht as [Has Ht]. split; [done|]. cbn.
    intros y j Hy. rewrite lookup_insert_Some. intros [[-> _]|[_ Hj]]; [|eauto].
    destruct (sa_in _ _ Hs y) as (? & ? & _); [apply elem_of_app; by left|congruence].
  - by eapply timely_delete.
  - destruct (fun Hf => timely_update a e _ (aq_cur a) Hf Ht eq_refl a' H) as (? & ? & _); done.
  - unfold a_schedule in H. mon. zbool. cbn in H5.
    destruct (timely_insert a e t x3 x4) as [Ht' Hc']; try done.
    destruct (fun Hf => timely_update x4 e _ (aq_cur a) Hf Ht' Hc' a' H) as (? & ? & _); done.
  - unfold a_deschedule in H. mon. destruct (timely_remove a e x3 Ht H4) as [Ht1 Hc1].
    destruct (fun Hf => timely_update x3 e _ (aq_cur a) Hf Ht1 Hc1 x4 H5) as (Ht2 & Hc2 & _); [done|].
    destruct (timely_release _ _ _ Ht2 H). split; [done|congruence].
  - unfold a_reschedule in H. mon. zbool.
    assert (timely x4 ∧ aq_cur x4 = aq_cur a) as [Ht1 Hc1].
    { destruct (i_scheduled x0); [by eapply timely_remove|by mon]. }
    destruct (timely_insert x4 e t x5 x6) as [Ht' Hc']; try done; [lia|].
    destruct (fun Hf => timely_update x6 e _ (aq_cur a) Hf Ht' (eq_trans Hc' Hc1) a' H) as (? & ? & _); done.
Qed.

Lemma timely_run_ops os : ∀ a a', timely a → sane me a → foldM (a_run_op me serial) os a = Ok a' →
  timely a' ∧ aq_cur a' = aq_cur a.
Proof.
  induction os as [|o os IH]; intros a a' Ht Hs H; cbn [foldM] in H; mon; [done|].
  destruct (timely_run_op a o x Ht H0 Hs) as [Ht1 Hc1]. pose proof (sane_run_op me serial a o x Hs H0) as Hs1.
  destruct (IH x a' Ht1 Hs1 H). split; [done|congruence].
Qed.

(** The first event of the list is not later than any other. *)
Lemma rep_first h hd e l ev x xv : rep h hd (e :: l) → h !! e = Some ev → x ∈ e :: l → h !! x = Some xv →
  key_lt (ev_key xv) (ev_key ev) = false.
Proof.
  intros (bs & ks & El & [Hb Hk Hs _]) He Hx Hxv. rewrite El in Hx. destruct (bin_key_elem h bs ks x Hk Hx) as (xv' & ? & Hin).
  simplify_eq. destruct bs as [|b bs]; [done|]. destruct Hb as (y & yv & b' & -> & _ & Hy & _).
  injection El as <- ->. inversion Hk as [|? k ? ks' Hbk]; subst.
  apply Forall_cons in Hbk as [(ev' & ? & <-) _]. simplify_eq.
  apply elem_of_cons in Hin as [->|Hin]; [apply key_lt_irrefl|]. inversion Hs as [|? ? _ Hall]; subst.
  rewrite Forall_forall in Hall. by apply key_lt_asym, Hall.
Qed.

Lemma first_when q a e l i : linked q a → aq_order a = e :: l → aq_info a !! e = Some i →
  ∀ x j, x ∈ e :: l → aq_info a !! x = Some j → i_when i ≤ i_when j.
Proof.
  intros [Hi _ _ Hr] Ho He x j Hx Hj. rewrite Ho in Hr. rewrite Hi, lookup_fmap in He, Hj.
  destruct (eq_heap q !! e) as [ev|] eqn:E1; [|done]. destruct (eq_heap q !! x) as [xv|] eqn:E2; [|done].
  injection He as <-. injection Hj as <-. pose proof (rep_first _ _ _ _ _ _ _ Hr E1 Hx E2) as H.
  rewrite <-not_true_iff_false, key_lt_spec in H. cbn in *. lia.
Qed.

Lemma timely_serve q a process a' x : refines me q a → timely a → a_serve me serial process a = Ok (a', x) →
  timely a' ∧ aq_cur a ≤ aq_cur a'.
Proof.
  intros [HL Hs] Ht H. unfold a_serve in H. destruct (aq_order a) as [|e l] eqn:Ho; [done|]. mon. apply a_at_ok in H0 as Hi.
  rename x0 into i. pose proof (first_when q a e l i HL Ho Hi) as Hfirst.
  assert (aq_cur a ≤ i_when i) as Hnow by (apply (proj2 Ht e i); [rewrite Ho; by left|done]).
  apply a_update_ok in H1 as (i0 & Hi0 & ->). cbn in Hi0. rewrite Hi in Hi0. injection Hi0 as <-. cbn in H.
  set (a1 := mkAQ _ l (aq_cur a) (aq_async a)) in H.
  assert (∀ c, c ≤ i_when i → timely (mkAQ (aq_info a1) l c (aq_async a))) as Ht1.
  { intros c Hc. split; [apply Ht|]. cbn. intros y j Hy. rewrite lookup_insert_Some.
    intros [[_ <-]|[_ Hj]]; [done|]. pose proof (Hfirst y j ltac:(by right) Hj). lia. }
  assert (∀ c, sane me (mkAQ (aq_info a1) l c (aq_async a))) as Hs1.
  { intros c. eapply (sane_leave me a e i); try done; [by rewrite Ho| |].
    - unfold i_scheduled, flag_isSet. cbn. by rewrite flag_clear_same.
    - apply (keeps_init (f := fun f => flag_clear f Scheduled)). }
  destruct (negb (i_is Squashed i)).
  - mon. destruct (timely_run_ops process _ x0 (Ht1 (i_when i) ltac:(lia)) (Hs1 _) H1) as [Ht2 Hc2]. cbn in Hc2.
    case_match; mon; [split; [done|lia]|]. destruct (timely_release x0 e a' Ht2 H4). split; [done|lia].
  - mon. destruct (fun Hf => timely_update a1 e _ (aq_cur a) Hf (Ht1 (aq_cur a) Hnow) eq_refl x0 H1) as (Ht2 & Hc2 & _); [done|].
    destruct (timely_release x0 e a' Ht2 H2). split; [done|lia].
Qed.

Lemma serial_run cs : ∀ q a q', refines me q a → timely a → foldM (run_cmd me) (pair serial <$> cs) q = Ok q' →
  ∃ a', refines me q' a' ∧ timely a'.
Proof.
  induction cs as [|c cs IH]; intros q a q' HR Ht H; cbn [fmap list_fmap foldM] in H; mon; [eauto|].
  pose proof (run_cmd_refines me q a (serial, c) HR) as Hc. rewrite H0 in Hc.
  destruct (a_run_cmd me a (serial, c)) as [a1|] eqn:Ea; [|done]. cbn [agree] in Hc.
  apply (IH x a1 q'); [done| |done]. destruct c as [o|process|]; cbn in Ea.
  - by destruct (timely_run_op a o a1 Ht Ea (proj2 HR)).
  - mon. destruct x0 as [a2 r]. mon. by destruct (timely_serve q a process a1 r HR Ht H1).
  - unfold a_handleAsync in Ea. mon. rewrite (proj1 Ht) in Ea. cbn in Ea. by mon.
Qed.
End Serial.

Lemma scheduled_order me q a e ev : refines me q a → timely a → eq_heap q !! e = Some ev →
  scheduled ev = true ↔ e ∈ aq_order a.
Proof.
  intros [HL Hs] [Has _] He. assert (aq_info a !! e = Some (ev_info ev)) as Hi by by rewrite (li_info _ _ HL), lookup_fmap, He.
  split.
  - intros Hsc. pose proof (sa_flag _ _ Hs e _ Hi Hsc) as H. by rewrite Has, app_nil_r in H.
  - intros Hin. destruct (sa_in _ _ Hs e) as (i & Hi' & Hsc & _); [apply elem_of_app; by left|].
    rewrite Hi in Hi'. by injection Hi' as <-.
Qed.

Lemma order_alloc me q a e : refines me q a → e ∈ aq_order a → ∃ ev, eq_heap q !! e = Some ev ∧ scheduled ev = true ∧
  queue ev = Some me ∧ initialized ev = true.
Proof.
  intros [HL Hs] Hin. destruct (sa_in _ _ Hs e) as (i & Hi & Hsc & Hq); [apply elem_of_app; by left|].
  pose proof (sa_init _ _ Hs e i Hi) as Hini. rewrite (li_info _ _ HL), lookup_fmap in Hi.
  destruct (eq_heap q !! e) as [ev|]; [|done]. injection Hi as <-. eauto.
Qed.

Lemma heap_initialized me q a e ev : refines me q a → eq_heap q !! e = Some ev → initialized ev = true.
Proof.
  intros [HL Hs] He. apply (sa_init _ _ Hs e (ev_info ev)). by rewrite (li_info _ _ HL), lookup_fmap, He.
Qed.

Lemma agree_ok {A B} (P : A → B → Prop) x y b : agree P x y → y = Ok b → ∃ a, x = Ok a.
Proof. intros H ->. destruct x; [eauto|done]. Qed.

Lemma deschedule_ok me q a e ev : refines me q a → timely a → eq_heap q !! e = Some ev → scheduled ev = true →
  ∃ q', deschedule me serial q e = Ok q'.
Proof.
  intros HR Ht He Hsc. pose proof (proj1 (scheduled_order me q a e ev HR Ht He) Hsc) as Hin.
  destruct (order_alloc me q a e HR Hin) as (ev' & ? & _ & Hq & Hini). simplify_eq.
  assert (aq_info a !! e = Some (ev_info ev)) as Hi by by rewrite (li_info _ _ (proj1 HR)), lookup_fmap, He.
  pose proof (deschedule_refines me serial q a e HR) as Hag.
  assert (∃ a', a_deschedule me serial a e = Ok a') as [a' Ha]; [|by eapply agree_ok].
  unfold a_deschedule. rewrite (proj2 (a_at_ok _ _ _) Hi). cbn [mbind outcome_bind].
  change (i_scheduled (ev_info ev)) with (scheduled ev). change (i_initialized (ev_info ev)) with (initialized ev).
  rewrite Hsc, Hini. cbn [assert_ mbind outcome_bind inParallelMode serial negb orb].
  unfold a_remove. destruct (aq_order a) as [|x l] eqn:Ho; [by apply elem_of_nil in Hin|].
  rewrite (proj2 (a_at_ok _ _ _) Hi). cbn [mbind outcome_bind]. rewrite bool_decide_eq_true_2 by done.
  cbn [assert_ mbind outcome_bind]. rewrite decide_True by done. cbn [mbind outcome_bind].
  rewrite (proj2 (a_update_ok _ e (i_with_flags (fun f => flag_clear (flag_clear f Squashed) Scheduled)) _)) by eauto.
  cbn [mbind outcome_bind]. unfold a_release, a_delete, a_at. cbn. rewrite lookup_insert_eq. cbn.
  assert (i_scheduled (i_with_flags (fun f => flag_clear (flag_clear f Squashed) Scheduled) (ev_info ev)) = false) as ->.
  { unfold i_scheduled, flag_isSet. cbn. by rewrite flag_clear_same. }
  destruct (i_is Managed _); cbn; eauto.
Qed.

Lemma schedule_ok me q a e ev t : refines me q a → eq_heap q !! e = Some ev → scheduled ev = false →
  eq_curTick q ≤ t → ∃ q', schedule me serial q e t false = Ok q'.
Proof.
  intros HR He Hsc Hc. pose proof (schedule_refines me serial q a e t false HR) as Hag.
  assert (aq_info a !! e = Some (ev_info ev)) as Hi by by rewrite (li_info _ _ (proj1 HR)), lookup_fmap, He.
  pose proof (heap_initialized me q a e ev HR He) as Hini.
  assert (∃ a', a_schedule me serial a e t false = Ok a') as [a' Ha]; [|by eapply agree_ok].
  unfold a_schedule. rewrite (li_cur _ _ (proj1 HR)), (proj2 (Z.leb_le _ _) Hc). cbn [assert_ mbind outcome_bind].
  rewrite (proj2 (a_at_ok _ _ _) Hi). cbn [mbind outcome_bind].
  change (i_scheduled (ev_info ev)) with (scheduled ev). change (i_initialized (ev_info ev)) with (initialized ev).
  rewrite Hsc, Hini. cbn [negb assert_ mbind outcome_bind].
  rewrite (proj2 (a_update_ok a e (i_setWhen t me) _)) by eauto. cbn [mbind outcome_bind inParallelMode serial andb].
  unfold a_insert, a_update, a_at. cbn. rewrite lookup_insert_eq. cbn. rewrite lookup_insert_eq. cbn. eauto.
Qed.

(** C38: In serial mode, in every state the queue can reach: no scheduled event lies in the
    past; the queue is empty exactly when no event is scheduled; the event at its
    head is scheduled and no scheduled event comes before it by time and priority;
    a scheduled event can be descheduled and one that is not can be scheduled at
    any time not past, without failure; and serving an event, whatever its code
    does, never moves the clock back. *)
Theorem served_in_order me cs q :
  foldM (run_cmd me) (pair serial <$> cs) (EventQueue_new ∅) = Ok q →
  (∀ e ev, eq_heap q !! e = Some ev → scheduled ev = true → eq_curTick q ≤ _when ev) ∧
  (empty q = true ↔ ∀ e ev, eq_heap q !! e = Some ev → scheduled ev = false) ∧
  (∀ e, eq_head q = Some e → ∃ ev, eq_heap q !! e = Some ev ∧ scheduled ev = true ∧
     ∀ e' ev', eq_heap q !! e' = Some ev' → scheduled ev' = true → ev_le ev ev' = true) ∧
  (∀ e ev, eq_heap q !! e = Some ev → scheduled ev = true → ∃ q', deschedule me serial q e = Ok q') ∧
  (∀ e ev t, eq_heap q !! e = Some ev → scheduled ev = false → eq_curTick q ≤ t →
     ∃ q', schedule me serial q e t false = Ok q') ∧
  (∀ process q' x, serviceOne me serial process q = Ok (q', x) → eq_curTick q ≤ eq_curTick q').
Proof.
  intros Hrun. destruct (serial_run me cs _ _ _ (refines_new me) ltac:(split; [done|by intros e i ?%elem_of_nil]) Hrun)
    as (a & HR & Ht). pose proof HR as [HL Hs]. pose proof (rep_head _ _ _ (li_rep _ _ HL)) as Hhd. split_and!.
  - intros e ev He Hsc. rewrite <-(li_cur _ _ HL). apply (proj2 Ht e (ev_info ev)).
    + by apply (scheduled_order me q a e ev).
    + by rewrite (li_info _ _ HL), lookup_fmap, He.
  - unfold empty. rewrite Hhd. destruct (aq_order a) as [|x l] eqn:Ho; cbn.
    + split; [intros _ e ev He|done]. apply not_true_iff_false. rewrite (scheduled_order me q a e ev), Ho by done.
      by intros ?%elem_of_nil.
    + split; [done|]. intros H. destruct (order_alloc me q a x HR) as (ev & Hx & Hsc & _); [rewrite Ho; by left|].
      by rewrite (H x ev Hx) in Hsc.
  - intros e He. rewrite Hhd in He. destruct (aq_order a) as [|x l] eqn:Ho; [done|]. injection He as ->.
    destruct (order_alloc me q a e HR) as (ev & Hx & Hsc & _); [rewrite Ho; by left|]. exists ev. split_and!; [done..|].
    intros e' ev' He' Hsc'. rewrite ev_le_key. apply negb_true_iff. pose proof (li_rep _ _ HL) as Hrep. rewrite Ho in Hrep.
    eapply rep_first; [exact Hrep|done| |done]. rewrite <-Ho. by apply (scheduled_order me q a e' ev').
  - intros e ev. by apply (deschedule_ok me q a).
  - intros e ev t. by apply (schedule_ok me q a).
  - intros process q' x H. pose proof (serve_refines me serial process q a HR) as Hag. rewrite H in Hag.
    destruct (a_serve me serial process a) as [[a' y]|] eqn:Ea; [|done]. destruct Hag as [[HL' _] _]. cbn in HL'.
    rewrite <-(li_cur _ _ HL), <-(li_cur _ _ HL'). by eapply timely_serve.
Qed.

(** ** Examples *)

Definition example_run : list QCmd :=
  [CmdOp (OpNew 1 Default_Pri 0); CmdOp (OpNew 2 CPU_Tick_Pri 0); CmdOp (OpNew 3 Default_Pri 0);
   CmdOp (OpNew 4 Default_Pri Managed);
   CmdOp (OpSchedule 2 10 false); CmdOp (OpSchedule 1 10 false); CmdOp (OpSchedule 3 10 false);
   CmdOp (OpSchedule 4 5 false); CmdOp (OpReschedule 4 12 false);
   CmdServe [OpSchedule 3 11 false]; CmdServe [OpDeschedule 3; OpSchedule 3 10 false]].

(** Two events of one time and priority are served last in, first out; the third one
    comes after them by its priority. *)
Fixpoint serve_all (n : nat) (q : EventQueue) : outcome (list (nat * Z)) :=
  match n, eq_head q with
  | S n, Some e =>
      let* (q, _) := serviceOne 0 serial [] q in
      let* l := serve_all n q in Ok ((e, eq_curTick q) :: l)
  | _, _ => Ok []
  end.
Example same_time_last_first :
  (let* q := foldM (run_cmd 0) (pair serial <$> take 9 example_run) (EventQueue_new ∅) in serve_all 9 q)
  = Ok [(3%nat, 10); (1%nat, 10); (2%nat, 10); (4%nat, 12)].
Proof. vm_compute. reflexivity. Qed.

(** The check of the order starts from time 0 and priority 0: a first event at tick 0
    with a negative priority is reported, although the queue is in order. *)
Example verify_rejects_first :
  (let* q := foldM (run_cmd 0) [(serial, CmdOp (OpNew 1 Delayed_Writeback_Pri 0)); (serial, CmdOp (OpSchedule 1 0 false))]
     (EventQueue_new ∅) in debugVerify q) = Ok false.
Proof. vm_compute. reflexivity. Qed.
Example verify_accepts :
  (let* q := foldM (run_cmd 0) (pair serial <$> example_run) (EventQueue_new ∅) in debugVerify q) = Ok true.
Proof. vm_compute. reflexivity. Qed.

(** An event that was scheduled when the checkpoint was taken comes back with the flag
    cleared, and [checkpointReschedule] then leaves it out of the queue; one that
    was also squashed is put back. *)
Definition restore (f : Z) : outcome (option nat) :=
  let* e := Event_new Default_Pri 0 in
  let* e := Event_unserialize e (100, Default_Pri, flag_set Initialized f) in
  let* q := checkpointReschedule (EventQueue_new {[1%nat := e]}) 1 in
  Ok (getHead q).
Example restored_event_lost :
  restore Scheduled = Ok None ∧ restore (Z.lor Squashed Scheduled) = Ok (Some 1%nat).
Proof. vm_compute. auto. Qed.

Lemma served_in_order_witness :
  match foldM (run_cmd 0) (pair serial <$> example_run) (EventQueue_new ∅) with
  | Ok q => empty q = true ↔ ∀ e ev, eq_heap q !! e = Some ev → scheduled ev = false
  | Err _ => False
  end.
Proof.
  destruct (foldM (run_cmd 0) (pair serial <$> example_run) (EventQueue_new ∅)) as [q|] eqn:E.
  - exact (proj1 (proj2 (served_in_order 0 example_run q E))).
  - vm_compute in E. discriminate E.
Defined.
