(* ===== verification/IntMath.v ===== *)
(** Model of [base/intmath.hh] and [base/chunk_generator.hh]: logarithms by bit
    tests, alignment to powers of two, and the generator that cuts a region of
    memory at chunk boundaries, with their reference definitions. *)
From S2P Require Import Prelude.

#[local] Open Scope Z_scope.

(** ** Logarithms *)

(** [if (x & mask) { y += k; x >>= k; }]. *)
Definition log_step (mask k : Z) (s : Z * Z) : Z * Z :=
  let '(x, y) := s in if Z.land x mask =? 0 then (x, y) else (Z.shiftr x k, y + k).

(** [floorLog2(unsigned)] and [floorLog2(unsigned long long)]. *)
Definition floorLog2_steps (s : Z * Z) : Z :=
  let '(x, y) := log_step 0x0000000c 2 (log_step 0x000000f0 4 (log_step 0x0000ff00 8 (log_step 0xffff0000 16 s))) in
  if Z.land x 0x00000002 =? 0 then y else y + 1.
Definition floorLog2_32 (x : Z) : outcome Z := let* _ := assert_ (0 <? x) in Ok (floorLog2_steps (x, 0)).
Definition floorLog2_64 (x : Z) : outcome Z :=
  let* _ := assert_ (0 <? x) in Ok (floorLog2_steps (log_step 0xffffffff00000000 32 (x, 0))).

Definition ceilLog2_32 (n : Z) : outcome Z :=
  let* _ := assert_ (0 <? n) in
  if n =? 1 then Ok 0 else let* l := floorLog2_32 (u32 (n - 1)) in Ok (l + 1).

Definition isPowerOf2_32 (n : Z) : outcome bool :=
  if n =? 0 then Ok false else
  let* f := floorLog2_32 n in let* c := ceilLog2_32 n in Ok (f =? c).

(** ** Alignment *)

(** [val] is an address, [align] an [unsigned]. *)
Definition roundUp (val align : Z) : outcome Z :=
  let* p := isPowerOf2_32 align in
  let* _ := assert_ p in
  let mask := u64 (align - 1) in Ok (Z.land (u64 (val + mask)) (u64 (Z.lnot mask))).
Definition roundDown (val align : Z) : outcome Z :=
  let* p := isPowerOf2_32 align in
  let* _ := assert_ p in
  let mask := u64 (align - 1) in Ok (Z.land val (u64 (Z.lnot mask))).

(** ** The generator *)

Record ChunkGenerator := mkChunkGenerator {
  curAddr : Z;
  nextAddr : Z;
  curSize : Z;
  sizeLeft : Z;
  startAddr : Z;
  chunkSize : Z;
}.

Definition ChunkGenerator_new (start total chunk : Z) : outcome ChunkGenerator :=
  let* p := (if chunk =? 0 then Ok true else isPowerOf2_32 chunk) in
  let* _ := assert_ p in
  let* next :=
    (if chunk =? 0 then Ok (u64 (start + total))
     else let* n := roundUp start chunk in Ok (if start =? n then u64 (n + chunk) else n)) in
  let left_in_chunk := u32 (next - start) in
  let size := Z.min total left_in_chunk in
  Ok (mkChunkGenerator start next size (u32 (total - size)) start chunk).

Definition cg_addr (g : ChunkGenerator) : Z := curAddr g.
Definition cg_size (g : ChunkGenerator) : Z := curSize g.
Definition cg_complete (g : ChunkGenerator) : Z := u32 (curAddr g - startAddr g).
Definition cg_done (g : ChunkGenerator) : bool := curSize g =? 0.
Definition cg_last (g : ChunkGenerator) : bool := sizeLeft g =? 0.

Definition cg_next (g : ChunkGenerator) : bool * ChunkGenerator :=
  if sizeLeft g =? 0 then (false, mkChunkGenerator (curAddr g) (nextAddr g) 0 (sizeLeft g) (startAddr g) (chunkSize g))
  else
    let size := Z.min (sizeLeft g) (chunkSize g) in
    (true, mkChunkGenerator (nextAddr g) (u64 (nextAddr g + size)) size (u32 (sizeLeft g - size)) (startAddr g) (chunkSize g)).

(** The loop [for (ChunkGenerator gen(...); !gen.done(); gen.next())], as the list of
    address, size and offset of its turns; each turn takes a byte at least. *)
Fixpoint cg_loop (n : nat) (g : ChunkGenerator) : outcome (list (Z * Z * Z)) :=
  if cg_done g then Ok [] else
  match n with
  | O => Err OutOfFuel
  | S n => let* l := cg_loop n (cg_next g).2 in Ok ((cg_addr g, cg_size g, cg_complete g) :: l)
  end.
Definition chunks (addr total chunk : Z) : outcome (list (Z * Z * Z)) :=
  let* g := ChunkGenerator_new addr total chunk in cg_loop (Z.to_nat total) g.

(** ** Correctness of the bit tests *)

Lemma land_high x k : 0 ≤ x < 2 ^ (2 * k) → 0 ≤ k → Z.land x (Z.shiftl (Z.ones k) k) = Z.shiftl (Z.shiftr x k) k.
Proof.
  intros Hx Hk. apply Z.bits_inj'. intros n Hn. rewrite Z.land_spec.
  destruct (Z.lt_ge_cases n k).
  - rewrite !Z.shiftl_spec_low by lia. by rewrite andb_false_r.
  - rewrite !Z.shiftl_spec_high, Z.shiftr_spec by lia. replace (n - k + k) with n by lia.
    destruct (Z.lt_ge_cases n (2 * k)).
    + rewrite Z.ones_spec_low by lia. by rewrite andb_true_r.
    + rewrite <-(Z.mod_small x (2 ^ (2 * k))) by done. by rewrite Z.mod_pow2_bits_high by lia.
Qed.

Lemma log_step_spec mask k x y : 0 < k → mask = Z.shiftl (Z.ones k) k → 0 < x < 2 ^ (2 * k) →
  let '(x', y') := log_step mask k (x, y) in 0 < x' < 2 ^ k ∧ Z.log2 x' + y' = Z.log2 x + y.
Proof.
  intros Hk -> Hx. unfold log_step. rewrite land_high by lia.
  assert (Z.shiftr x k = x / 2 ^ k) as Hs by (apply Z.shiftr_div_pow2; lia).
  assert (0 < 2 ^ k) by (apply Z.pow_pos_nonneg; lia).
  assert (2 ^ (2 * k) = 2 ^ k * 2 ^ k) as E by (rewrite <-Z.pow_add_r by lia; f_equal; lia).
  destruct (Z.eqb_spec (Z.shiftl (Z.shiftr x k) k) 0) as [H0|Hne].
  - apply Z.shiftl_eq_0_iff in H0; [|lia]. rewrite Hs in H0.
    apply Z.div_small_iff in H0 as [?|?]; lia.
  - assert (0 < x / 2 ^ k) as Hpos.
    { assert (0 ≤ x / 2 ^ k) by (apply Z.div_pos; lia). assert (x / 2 ^ k ≠ 0); [|lia].
      intros Hz. apply Hne. by rewrite Hs, Hz, Z.shiftl_0_l. }
    rewrite Hs. split; [split; [done|]; apply Z.div_lt_upper_bound; lia|].
    rewrite <-Z.shiftr_div_pow2, Z.log2_shiftr by lia.
    assert (k ≤ Z.log2 x); [|lia]. apply Z.log2_le_pow2; [lia|].
    destruct (Z.lt_ge_cases x (2 ^ k)) as [Hlt|]; [|done]. rewrite Z.div_small in Hpos; lia.
Qed.

Lemma floorLog2_steps_spec x y : 0 < x < 2 ^ 32 → floorLog2_steps (x, y) = Z.log2 x + y.
Proof.
  intros Hx. unfold floorLog2_steps.
  pose proof (log_step_spec 0xffff0000 16 x y ltac:(lia) eq_refl Hx) as H1. destruct (log_step _ 16 _) as [x1 y1].
  destruct H1 as [Hx1 E1]. pose proof (log_step_spec 0x0000ff00 8 x1 y1 ltac:(lia) eq_refl Hx1) as H2.
  destruct (log_step _ 8 _) as [x2 y2].
  destruct H2 as [Hx2 E2]. pose proof (log_step_spec 0x000000f0 4 x2 y2 ltac:(lia) eq_refl Hx2) as H3.
  destruct (log_step _ 4 _) as [x3 y3].
  destruct H3 as [Hx3 E3]. pose proof (log_step_spec 0x0000000c 2 x3 y3 ltac:(lia) eq_refl Hx3) as H4.
  destruct (log_step _ 2 _) as [x4 y4]. destruct H4 as [Hx4 E4].
  assert (x4 = 1 ∨ x4 = 2 ∨ x4 = 3) as [H|[H|H]] by lia; subst x4.
  - change (Z.log2 1) with 0 in E4. change (Z.land 1 2 =? 0) with true. cbv iota. lia.
  - change (Z.log2 2) with 1 in E4. change (Z.land 2 2 =? 0) with false. cbv iota. lia.
  - change (Z.log2 3) with 1 in E4. change (Z.land 3 2 =? 0) with false. cbv iota. lia.
Qed.

Lemma floorLog2_32_spec x : 0 < x < 2 ^ 32 → floorLog2_32 x = Ok (Z.log2 x).
Proof.
  intros Hx. unfold floorLog2_32. rewrite (proj2 (Z.ltb_lt _ _)) by lia. cbn [assert_ mbind outcome_bind].
  by rewrite floorLog2_steps_spec, Z.add_0_r.
Qed.
Lemma floorLog2_64_spec x : 0 < x < 2 ^ 64 → floorLog2_64 x = Ok (Z.log2 x).
Proof.
  intros Hx. unfold floorLog2_64. rewrite (proj2 (Z.ltb_lt _ _)) by lia. cbn [assert_ mbind outcome_bind].
  pose proof (log_step_spec 0xffffffff00000000 32 x 0 ltac:(lia) eq_refl Hx) as H. destruct (log_step _ 32 _) as [x1 y1].
  destruct H as [Hx1 E]. rewrite floorLog2_steps_spec by done. by rewrite E, Z.add_0_r.
Qed.

Lemma isPowerOf2_32_spec n : 0 < n < 2 ^ 32 → isPowerOf2_32 n = Ok (n =? 2 ^ Z.log2 n).
Proof.
  intros Hn. unfold isPowerOf2_32. rewrite (proj2 (Z.eqb_neq _ _)) by lia. rewrite floorLog2_32_spec by done.
  cbn [mbind outcome_bind]. unfold ceilLog2_32. rewrite (proj2 (Z.ltb_lt _ _)) by lia. cbn [assert_ mbind outcome_bind].
  destruct (Z.eqb_spec n 1) as [->|Hne]; [done|]. rewrite wrapU_id by (split; lia).
  rewrite floorLog2_32_spec by lia. cbn [mbind outcome_bind]. f_equal. apply eq_true_iff_eq. rewrite !Z.eqb_eq.
  destruct (Z.log2_spec n) as [Hlo Hhi]; [lia|]. pose proof (Z.log2_nonneg n) as Hnn. split.
  - intros E. destruct (Z.log2_spec (n - 1)) as [_ Hhi1]; [lia|].
    replace (Z.succ (Z.log2 (n - 1))) with (Z.log2 n) in Hhi1 by lia. lia.
  - intros E. assert (0 < Z.log2 n) by (destruct (decide (Z.log2 n = 0)) as [H0|]; [rewrite H0 in E|]; lia).
    assert (Z.log2 (n - 1) = Z.pred (Z.log2 n)); [|lia].
    rewrite E at 1. replace (2 ^ Z.log2 n - 1) with (Z.pred (2 ^ Z.log2 n)) by lia. by apply Z.log2_pred_pow2.
Qed.

Lemma isPowerOf2_pow k : 0 ≤ k < 32 → isPowerOf2_32 (2 ^ k) = Ok true.
Proof.
  intros Hk. rewrite isPowerOf2_32_spec; [by rewrite Z.log2_pow2, Z.eqb_refl by lia|].
  split; [apply Z.pow_pos_nonneg; lia|apply Z.pow_lt_mono_r; lia].
Qed.

(** ** Alignment *)

Lemma clear_low x k : 0 ≤ x < 2 ^ 64 → 0 ≤ k → Z.land x (u64 (Z.lnot (Z.ones k))) = x / 2 ^ k * 2 ^ k.
Proof.
  intros Hx Hk. rewrite <-Z.shiftr_div_pow2, <-Z.shiftl_mul_pow2 by lia. apply Z.bits_inj'. intros n Hn.
  rewrite Z.land_spec. unfold wrapU. destruct (Z.lt_ge_cases n 64).
  - rewrite Z.mod_pow2_bits_low, Z.lnot_spec by lia. destruct (Z.lt_ge_cases n k).
    + rewrite Z.ones_spec_low, Z.shiftl_spec_low by lia. apply andb_false_r.
    + rewrite Z.ones_spec_high, Z.shiftl_spec_high, Z.shiftr_spec by lia. rewrite andb_true_r. f_equal. lia.
  - rewrite Z.mod_pow2_bits_high, andb_false_r by lia.
    destruct (Z.lt_ge_cases n k); [by rewrite Z.shiftl_spec_low|].
    rewrite Z.shiftl_spec_high, Z.shiftr_spec by lia. rewrite <-(Z.mod_small x (2 ^ 64)) by done.
    by rewrite Z.mod_pow2_bits_high by lia.
Qed.

Lemma mask_ones k : 0 ≤ k < 32 → u64 (2 ^ k - 1) = Z.ones k.
Proof.
  intros Hk. rewrite Z.ones_equiv. replace (Z.pred (2 ^ k)) with (2 ^ k - 1) by lia.
  assert (0 < 2 ^ k < 2 ^ 32) by (split; [apply Z.pow_pos_nonneg; lia|apply Z.pow_lt_mono_r; lia]).
  apply wrapU_id. split; lia.
Qed.

Lemma roundUp_spec x k : 0 ≤ x → 0 ≤ k < 32 → x + 2 ^ k ≤ 2 ^ 64 →
  roundUp x (2 ^ k) = Ok ((x + (2 ^ k - 1)) / 2 ^ k * 2 ^ k).
Proof.
  intros Hx Hk Hb. assert (0 < 2 ^ k) by (apply Z.pow_pos_nonneg; lia).
  unfold roundUp. rewrite isPowerOf2_pow by done. cbn [assert_ mbind outcome_bind]. f_equal. rewrite mask_ones by done.
  replace (Z.ones k) with (2 ^ k - 1) at 1 by (rewrite Z.ones_equiv; lia).
  rewrite (wrapU_id 64 (x + _)) by (split; lia). by apply clear_low; lia.
Qed.

(** The next boundary after [x], as the generator finds it. *)
Lemma next_boundary x k : 0 ≤ x → 0 ≤ k < 32 → x + 2 ^ k < 2 ^ 64 →
  ∃ n, roundUp x (2 ^ k) = Ok n ∧ (if x =? n then u64 (n + 2 ^ k) else n) = x + (2 ^ k - x mod 2 ^ k).
Proof.
  intros Hx Hk Hb. assert (0 < 2 ^ k) as Hp by (apply Z.pow_pos_nonneg; lia). eexists. split; [apply roundUp_spec; lia|].
  pose proof (Z.div_mod x (2 ^ k) ltac:(lia)) as Hdm. pose proof (Z.mod_pos_bound x (2 ^ k) Hp) as Hm.
  set (c := 2 ^ k) in *. destruct (decide (x mod c = 0)) as [H0|Hne].
  - assert ((x + (c - 1)) / c = x / c) as E.
    { symmetry. apply (Z.div_unique_pos _ _ _ (c - 1)); lia. }
    rewrite E. replace (x / c * c) with x by lia. rewrite Z.eqb_refl, wrapU_id by (split; lia). lia.
  - assert ((x + (c - 1)) / c = x / c + 1) as E.
    { symmetry. apply (Z.div_unique_pos _ _ _ (x mod c - 1)); lia. }
    rewrite E. rewrite (proj2 (Z.eqb_neq _ _)) by nia. nia.
Qed.

(** ** Chunks *)

(** The pieces of a region, cut at the multiples of [c]. *)
Fixpoint pieces (n : nat) (base a len c : Z) : list (Z * Z * Z) :=
  match n with
  | O => []
  | S n =>
      if len <=? 0 then [] else
      let s := Z.min len (c - a mod c) in (a, s, a - base) :: pieces n base (a + s) (len - s) c
  end.

(** The generator at address [a] with [len] bytes to go. *)
Definition cg_at (g : ChunkGenerator) (base a len c : Z) : Prop :=
  curAddr g = a ∧ curSize g = Z.min len (c - a mod c) ∧ sizeLeft g = len - curSize g ∧ startAddr g = base ∧
  chunkSize g = c ∧ (0 < sizeLeft g → nextAddr g = a + curSize g).

Lemma cg_at_next g base a len c : 0 < c < 2 ^ 32 → 0 ≤ a → 0 ≤ len < 2 ^ 32 → a + len + c < 2 ^ 64 →
  cg_at g base a len c → 0 < sizeLeft g → cg_at (cg_next g).2 base (a + curSize g) (len - curSize g) c.
Proof.
  intros Hc Ha Hl Hb (Ea & Es & El & Eb & Ec & En) Hleft. pose proof (Z.mod_pos_bound a c ltac:(lia)) as Hm.
  pose proof (Z.div_mod a c ltac:(lia)) as Hdm. assert (curSize g = c - a mod c) as Ecur by lia.
  assert ((a + curSize g) mod c = 0) as Hal.
  { rewrite Ecur. replace (a + (c - a mod c)) with ((a / c + 1) * c) by nia. apply Z.mod_mul. lia. }
  unfold cg_next. rewrite (proj2 (Z.eqb_neq _ _)) by lia. cbn. unfold cg_at. cbn. rewrite Hal, En, El, Ec by done.
  rewrite (wrapU_id 32) by (split; lia). split_and!; try done; try lia.
  intros ?. rewrite wrapU_id; [done|]. split; lia.
Qed.

Lemma pieces_nil n base a c : pieces n base a 0 c = [].
Proof. by destruct n. Qed.

Lemma cg_loop_spec n base c : ∀ g a len, 0 < c < 2 ^ 32 → 0 ≤ base ≤ a → 0 ≤ len < 2 ^ 32 → a + len + c < 2 ^ 64 →
  a - base < 2 ^ 32 → a + len - base < 2 ^ 32 → (Z.to_nat len ≤ n)%nat → cg_at g base a len c →
  cg_loop n g = Ok (pieces n base a len c).
Proof.
  induction n as [|n IH]; intros g a len Hc Ha Hl Hb Ho Hoe Hn HG; pose proof HG as (Ea & Es & El & Eb & Ec & En);
    pose proof (Z.mod_pos_bound a c ltac:(lia)) as Hm; cbn [cg_loop pieces]; unfold cg_done.
  { rewrite (proj2 (Z.eqb_eq _ _)) by lia. done. }
  destruct (Z.leb_spec len 0).
  { rewrite (proj2 (Z.eqb_eq _ _)) by lia. done. }
  rewrite (proj2 (Z.eqb_neq _ _)) by lia.
  assert (cg_loop n (cg_next g).2 = Ok (pieces n base (a + curSize g) (len - curSize g) c)) as ->.
  { destruct (decide (sizeLeft g = 0)) as [H0|].
    - unfold cg_next. rewrite H0. cbn. replace (len - curSize g) with 0 by lia. rewrite pieces_nil. by destruct n.
    - apply IH; try done; try lia. by apply cg_at_next; try lia. }
  cbn [mbind outcome_bind]. unfold cg_addr, cg_size, cg_complete. rewrite Ea, Eb, wrapU_id by (split; lia).
  by rewrite Es.
Qed.

(** The loop over the generator cuts the region at the multiples of the chunk size. *)
Lemma chunks_spec a len k : 0 ≤ a → 0 ≤ len < 2 ^ 32 → 0 ≤ k < 32 → a + len + 2 ^ k < 2 ^ 64 →
  chunks a len (2 ^ k) = Ok (pieces (Z.to_nat len) a a len (2 ^ k)).
Proof.
  intros Ha Hl Hk Hb. assert (0 < 2 ^ k < 2 ^ 32) as Hc by (split; [apply Z.pow_pos_nonneg; lia|apply Z.pow_lt_mono_r; lia]).
  unfold chunks, ChunkGenerator_new. rewrite (proj2 (Z.eqb_neq (2 ^ k) 0)) by lia.
  rewrite isPowerOf2_pow by done. cbn [assert_ mbind outcome_bind].
  destruct (next_boundary a k) as (n & -> & En); [lia..|]. cbn [mbind outcome_bind]. rewrite En.
  pose proof (Z.mod_pos_bound a (2 ^ k) ltac:(lia)) as Hm.
  replace (a + (2 ^ k - a mod 2 ^ k) - a) with (2 ^ k - a mod 2 ^ k) by lia.
  rewrite !(wrapU_id 32) by (split; lia). apply cg_loop_spec; try lia. unfold cg_at. cbn. split_and!; try done. lia.
Qed.

(** What the pieces are: consecutive, not empty, within a chunk, all of the region. *)
Lemma pieces_ok n base c : ∀ a len, 0 < c → 0 ≤ len → (Z.to_nat len ≤ n)%nat →
  Forall (fun '(x, s, o) => 0 < s ∧ x mod c + s ≤ c ∧ o = x - base) (pieces n base a len c) ∧
  (pieces n base a len c ≫= fun '(x, s, _) => seqZ x s) = seqZ a len.
Proof.
  induction n as [|n IH]; intros a len Hc Hl Hn; cbn [pieces].
  { assert (len = 0) as -> by lia. split; [constructor|done]. }
  destruct (Z.leb_spec len 0); [assert (len = 0) as -> by lia; split; [constructor|done]|].
  pose proof (Z.mod_pos_bound a c Hc) as Hm. set (s := Z.min len (c - a mod c)).
  destruct (IH (a + s) (len - s)) as [H1 H2]; [lia..|]. split; [constructor; [lia|done]|].
  cbn. rewrite H2, <-seqZ_app by lia. f_equal. lia.
Qed.
