(* ===== verification/BitReverse.v ===== *)
(** The rest of [base/bitfield.{hh,cc}] and of [base/intmath.hh]: replacing
    fields in place, mirroring a word with the table of mirrored bytes, powers,
    rounded-up division and the logarithms of the other integer types, with
    their reference definitions. *)
From S2P Require Import Prelude Bitfield BitfieldSpec IntMath.

#[local] Open Scope Z_scope.

(** ** base/bitfield *)

(** [replaceBits(val, first, last, bit_val)] gives [val] its new value. *)
Definition replaceBits (val first last bit_val : Z) : outcome Z := insertBits val first last bit_val.
Definition replaceBit (val b bit_val : Z) : outcome Z := insertBits val b b bit_val.

Definition reverseLookUpTable : list Z :=
  [0x00; 0x80; 0x40; 0xC0; 0x20; 0xA0; 0x60; 0xE0; 0x10; 0x90; 0x50; 0xD0; 0x30; 0xB0; 0x70; 0xF0;
   0x08; 0x88; 0x48; 0xC8; 0x28; 0xA8; 0x68; 0xE8; 0x18; 0x98; 0x58; 0xD8; 0x38; 0xB8; 0x78; 0xF8;
   0x04; 0x84; 0x44; 0xC4; 0x24; 0xA4; 0x64; 0xE4; 0x14; 0x94; 0x54; 0xD4; 0x34; 0xB4; 0x74; 0xF4;
   0x0C; 0x8C; 0x4C; 0xCC; 0x2C; 0xAC; 0x6C; 0xEC; 0x1C; 0x9C; 0x5C; 0xDC; 0x3C; 0xBC; 0x7C; 0xFC;
   0x02; 0x82; 0x42; 0xC2; 0x22; 0xA2; 0x62; 0xE2; 0x12; 0x92; 0x52; 0xD2; 0x32; 0xB2; 0x72; 0xF2;
   0x0A; 0x8A; 0x4A; 0xCA; 0x2A; 0xAA; 0x6A; 0xEA; 0x1A; 0x9A; 0x5A; 0xDA; 0x3A; 0xBA; 0x7A; 0xFA;
   0x06; 0x86; 0x46; 0xC6; 0x26; 0xA6; 0x66; 0xE6; 0x16; 0x96; 0x56; 0xD6; 0x36; 0xB6; 0x76; 0xF6;
   0x0E; 0x8E; 0x4E; 0xCE; 0x2E; 0xAE; 0x6E; 0xEE; 0x1E; 0x9E; 0x5E; 0xDE; 0x3E; 0xBE; 0x7E; 0xFE;
   0x01; 0x81; 0x41; 0xC1; 0x21; 0xA1; 0x61; 0xE1; 0x11; 0x91; 0x51; 0xD1; 0x31; 0xB1; 0x71; 0xF1;
   0x09; 0x89; 0x49; 0xC9; 0x29; 0xA9; 0x69; 0xE9; 0x19; 0x99; 0x59; 0xD9; 0x39; 0xB9; 0x79; 0xF9;
   0x05; 0x85; 0x45; 0xC5; 0x25; 0xA5; 0x65; 0xE5; 0x15; 0x95; 0x55; 0xD5; 0x35; 0xB5; 0x75; 0xF5;
   0x0D; 0x8D; 0x4D; 0xCD; 0x2D; 0xAD; 0x6D; 0xED; 0x1D; 0x9D; 0x5D; 0xDD; 0x3D; 0xBD; 0x7D; 0xFD;
   0x03; 0x83; 0x43; 0xC3; 0x23; 0xA3; 0x63; 0xE3; 0x13; 0x93; 0x53; 0xD3; 0x33; 0xB3; 0x73; 0xF3;
   0x0B; 0x8B; 0x4B; 0xCB; 0x2B; 0xAB; 0x6B; 0xEB; 0x1B; 0x9B; 0x5B; 0xDB; 0x3B; 0xBB; 0x7B; 0xFB;
   0x07; 0x87; 0x47; 0xC7; 0x27; 0xA7; 0x67; 0xE7; 0x17; 0x97; 0x57; 0xD7; 0x37; 0xB7; 0x77; 0xF7;
   0x0F; 0x8F; 0x4F; 0xCF; 0x2F; 0xAF; 0x6F; 0xEF; 0x1F; 0x9F; 0x5F; 0xDF; 0x3F; 0xBF; 0x7F; 0xFF].

(** The loop of [reverseBits] on an unsigned type of [w] bits. *)
Fixpoint reverse_loop (n : nat) (w val output : Z) : outcome Z :=
  match n with
  | O => Ok output
  | S n =>
      let* r := vec_get reverseLookUpTable (Z.to_nat (Z.land val 0xFF)) in
      reverse_loop n w (Z.shiftr val 8) (wrapU w (Z.lor (Z.shiftl output 8) r))
  end.
Definition reverseBits (w val size : Z) : outcome Z :=
  let* _ := assert_ (size <=? w / 8) in reverse_loop (Z.to_nat size) w val 0.

(** *** What it computes *)

Definition mirror8 (b r : Z) : bool := forallb (fun i => Bool.eqb (Z.testbit r i) (Z.testbit b (7 - i))) (seqZ 0 8).
Lemma table_mirrors b : inU 8 b →
  ∃ r, vec_get reverseLookUpTable (Z.to_nat b) = Ok r ∧ inU 8 r ∧
    ∀ i, 0 ≤ i < 8 → Z.testbit r i = Z.testbit b (7 - i).
Proof.
  intros Hb. set (f := fun b => match reverseLookUpTable !! Z.to_nat b with
    | Some r => (0 <=? r) && (r <? 256) && mirror8 b r | None => false end).
  assert (H : forallb f (seqZ 0 256) = true) by (vm_compute; reflexivity).
  rewrite forallb_forall in H. specialize (H b). unfold f in H.
  assert (In b (seqZ 0 256)) as Hin by (apply list_elem_of_In, elem_of_seqZ; destruct Hb; lia).
  specialize (H Hin). unfold vec_get. destruct (reverseLookUpTable !! Z.to_nat b) as [r|]; [|done].
  exists r. split; [done|]. zbool. split; [split; lia|]. intros i Hi. unfold mirror8 in *.
  match goal with H : forallb _ _ = true |- _ => rewrite forallb_forall in H; specialize (H i) end.
  assert (In i (seqZ 0 8)) as Hi8 by (apply list_elem_of_In, elem_of_seqZ; lia).
  match goal with H : In i _ → _ |- _ => specialize (H Hi8); by apply eqb_prop in H end.
Qed.

(** [r] holds the first [n] bits of [v] in reverse, and nothing else. *)
Definition mirrors (n v r : Z) : Prop :=
  0 ≤ r ∧ ∀ i, 0 ≤ i → Z.testbit r i = (i <? n) && Z.testbit v (n - 1 - i).

Lemma mirrors_range n v r : 0 ≤ n → mirrors n v r → inU n r.
Proof.
  intros ? [? H]. apply inU_bits; [done|done|]. intros i ?. rewrite H by lia. by replace (i <? n) with false by lia.
Qed.

Lemma mirrors_step n v r o : 0 ≤ n → mirrors n v o → inU 8 r →
  (∀ i, 0 ≤ i < 8 → Z.testbit r i = Z.testbit v (n + 7 - i)) → mirrors (n + 8) v (Z.lor (Z.shiftl o 8) r).
Proof.
  intros ? [Ho1 Ho] Hr Hri. split.
  { apply Z.lor_nonneg. split; [by apply Z.shiftl_nonneg|by destruct Hr]. }
  intros i ?. rewrite Z.lor_spec, Z.shiftl_spec by done. destruct (decide (i < 8)).
  - rewrite Z.testbit_neg_r, Hri by lia. replace (i <? n + 8) with true by lia. simpl. f_equal. lia.
  - rewrite Ho, (inU_testbit_high 8 r i), orb_false_r by (done || lia).
    replace (i - 8 <? n) with (i <? n + 8) by lia. f_equal. f_equal. lia.
Qed.

Lemma reverse_loop_spec w v n : ∀ k o,
  0 ≤ k → k + 8 * Z.of_nat n ≤ w → mirrors k v o →
  ∃ r, reverse_loop n w (Z.shiftr v k) o = Ok r ∧ mirrors (k + 8 * Z.of_nat n) v r.
Proof.
  induction n as [|n IH]; intros k o Hk Hw Ho; cbn [reverse_loop].
  { exists o. split; [done|]. by replace (k + 8 * Z.of_nat 0) with k by lia. }
  assert (Hb : ∀ i, 0 ≤ i < 8 → Z.testbit (Z.land (Z.shiftr v k) 0xFF) i = Z.testbit v (k + i)).
  { intros i ?. change 0xFF with (Z.ones 8). rewrite Z.land_ones, Z.mod_pow2_bits_low, Z.shiftr_spec by lia. f_equal. lia. }
  destruct (table_mirrors (Z.land (Z.shiftr v k) 0xFF)) as (r & -> & Hr & Hri).
  { rewrite Z.land_comm. apply land_range; [done|split; done]. }
  cbn [mbind outcome_bind].
  assert (mirrors (k + 8) v (Z.lor (Z.shiftl o 8) r)) as Hstep.
  { apply mirrors_step; [done|done|done|]. intros i ?. rewrite Hri, Hb by lia. f_equal. lia. }
  pose proof (mirrors_range (k + 8) _ _ ltac:(lia) Hstep) as [? ?]. pose proof (Z.pow_le_mono_r 2 (k + 8) w ltac:(lia) ltac:(lia)).
  rewrite wrapU_id by (split; lia). rewrite Z.shiftr_shiftr by lia.
  destruct (IH (k + 8) _ ltac:(lia) ltac:(lia) Hstep) as (r' & -> & Hr'). exists r'. split; [done|].
  by replace (k + 8 * Z.of_nat (S n)) with (k + 8 + 8 * Z.of_nat n) by lia.
Qed.

Lemma reverseBits_mirrors w v size : 0 ≤ size → 8 * size ≤ w →
  ∃ r, reverseBits w v size = Ok r ∧ mirrors (8 * size) v r.
Proof.
  intros ? ?. unfold reverseBits. rewrite (proj2 (Z.leb_le size (w / 8))) by (apply Z.div_le_lower_bound; lia).
  cbn [mbind outcome_bind assert_]. destruct (reverse_loop_spec w v (Z.to_nat size) 0 0) as (r & Hr & Hm); [lia|lia| |].
  { split; [done|]. intros i ?. rewrite Z.bits_0. by replace (i <? 0) with false by lia. }
  exists r. split; [by rewrite Z.shiftr_0_r in Hr|]. by replace (0 + 8 * Z.of_nat (Z.to_nat size)) with (8 * size) in Hm by lia.
Qed.

(** Mirroring whole words of [8 * size] bits moves bit [i] to the other end and
    undoes itself. *)
Theorem reverseBits_involutive w v size (Hs : 0 ≤ size) (Hw : 8 * size ≤ w) (Hv : inU (8 * size) v) :
  ∃ r, reverseBits w v size = Ok r ∧ inU (8 * size) r ∧
    (∀ i, 0 ≤ i < 8 * size → Z.testbit r i = Z.testbit v (8 * size - 1 - i)) ∧
    reverseBits w r size = Ok v.
Proof.
  destruct (reverseBits_mirrors w v size Hs Hw) as (r & Hr & Hm).
  destruct (reverseBits_mirrors w r size Hs Hw) as (v' & Hv' & Hm').
  exists r. pose proof (mirrors_range (8 * size) _ _ ltac:(lia) Hm) as Hri. destruct Hm as [? Hm]. destruct Hm' as [? Hm'].
  split_and!; [done|done| |].
  { intros i ?. rewrite Hm by lia. by replace (i <? 8 * size) with true by lia. }
  rewrite Hv'. f_equal. apply Z.bits_inj'. intros i ?. rewrite Hm' by done. destruct (i <? 8 * size) eqn:E; zbool.
  - rewrite Hm by lia. replace (8 * size - 1 - i <? 8 * size) with true by lia. simpl. f_equal. lia.
  - simpl. symmetry. apply (inU_testbit_high (8 * size)); [done|lia].
Qed.

Lemma reverseBits_involutive_witness :
  ∃ r, reverseBits 32 0x1234 2 = Ok r ∧ inU (8 * 2) r ∧
    (∀ i, 0 ≤ i < 8 * 2 → Z.testbit r i = Z.testbit 0x1234 (8 * 2 - 1 - i)) ∧ reverseBits 32 r 2 = Ok 0x1234.
Proof. apply (reverseBits_involutive 32 0x1234 2); [lia|lia|split; lia]. Defined.

(** ** base/intmath *)

(** [power(n, e)]: the result and whether the overflow warning was printed.  The
    loop counts with an [int]. *)
Fixpoint power_loop (k : nat) (n result : Z) (warned : bool) : Z * bool :=
  match k with
  | O => (result, warned)
  | S k =>
      let old_result := result in
      let result := u64 (result * n) in
      power_loop k n result (warned || (result <? old_result))
  end.
Definition power (n e : Z) : outcome (Z * bool) :=
  if e =? 0 then Ok (1, false) else
  if 2 ^ 31 <=? e then Err Undefined else Ok (power_loop (Z.to_nat (e - 1)) n n false).

(** [divCeil(a, b)] of two 64-bit values. *)
Definition divCeil (a b : Z) : outcome Z :=
  if b =? 0 then Err Undefined else Ok (u64 (u64 (a + b) - 1) / b).

(** [floorLog2] of the signed types, and [ceilLog2] and [isPowerOf2] of 64 bits. *)
Definition floorLog2_int (x : Z) : outcome Z := let* _ := assert_ (0 <? x) in floorLog2_32 (u32 x).
Definition floorLog2_long (x : Z) : outcome Z := let* _ := assert_ (0 <? x) in floorLog2_64 (u64 x).
Definition ceilLog2_64 (n : Z) : outcome Z :=
  let* _ := assert_ (0 <? n) in
  if n =? 1 then Ok 0 else let* l := floorLog2_64 (u64 (n - 1)) in Ok (l + 1).
Definition isPowerOf2_64 (n : Z) : outcome bool :=
  if n =? 0 then Ok false else
  let* f := floorLog2_64 n in let* c := ceilLog2_64 n in Ok (f =? c).

(** *** What they compute *)

Lemma power_loop_spec n k : ∀ r w, (power_loop k n r w).1 = if Nat.eqb k 0 then r else u64 (r * n ^ Z.of_nat k).
Proof.
  induction k as [|k IH]; intros r w; [done|]. cbn [power_loop Nat.eqb]. rewrite IH. destruct k as [|k]; cbn [Nat.eqb].
  { f_equal. lia. }
  unfold u64, wrapU. rewrite Z.mul_mod_idemp_l by lia. f_equal.
  replace (Z.of_nat (S (S k))) with (Z.succ (Z.of_nat (S k))) by lia. rewrite Z.pow_succ_r by lia. ring.
Qed.

(** A power is right modulo [2 ^ 64]; a warning means that it overflowed, but not
    every overflow is warned about. *)
Lemma power_spec n e : 0 ≤ n < 2 ^ 32 → 0 ≤ e < 2 ^ 31 → ∃ w, power n e = Ok (u64 (n ^ e), w).
Proof.
  intros Hn He. unfold power. destruct (e =? 0) eqn:E; zbool; [by exists false; subst|].
  rewrite (proj2 (Z.leb_gt _ _)) by lia. pose proof (power_loop_spec n (Z.to_nat (e - 1)) n false) as H.
  destruct (power_loop _ _ _ _) as [r w]. exists w. cbn [fst] in H. rewrite H. do 2 f_equal.
  destruct (Nat.eqb (Z.to_nat (e - 1)) 0) eqn:E0.
  - apply Nat.eqb_eq in E0. assert (e = 1) as -> by lia. rewrite Z.pow_1_r, wrapU_id by (split; lia). done.
  - f_equal. replace e with (Z.succ (Z.of_nat (Z.to_nat (e - 1)))) at 2 by lia. rewrite Z.pow_succ_r by lia. done.
Qed.
Lemma power_quiet n k : ∀ r w,
  0 ≤ n → 0 ≤ r ≤ r * n → r * n ^ Z.of_nat k < 2 ^ 64 → (power_loop k n r w).2 = w.
Proof.
  induction k as [|k IH]; intros r w Hn Hr H; [done|]. cbn [power_loop].
  rewrite Nat2Z.inj_succ, Z.pow_succ_r, Z.mul_assoc in H by lia.
  destruct (decide (n = 0)) as [->|].
  { assert (r = 0) as -> by lia. change (u64 (0 * 0)) with 0. rewrite IH by lia. apply orb_false_r. }
  pose proof (Z.pow_pos_nonneg n (Z.of_nat k) ltac:(lia) ltac:(lia)).
  assert (r * n < 2 ^ 64) by nia. rewrite wrapU_id by (split; nia).
  rewrite IH by nia. rewrite (proj2 (Z.ltb_ge _ _)) by lia. apply orb_false_r.
Qed.
Lemma power_exact n e : 0 ≤ n < 2 ^ 32 → 0 ≤ e < 2 ^ 31 → n ^ e < 2 ^ 64 → power n e = Ok (n ^ e, false).
Proof.
  intros Hn He Hlt. destruct (power_spec n e Hn He) as [w Hw]. rewrite Hw.
  rewrite wrapU_id by (split; [apply Z.pow_nonneg|]; lia). unfold power in Hw. destruct (e =? 0) eqn:E; zbool.
  { injection Hw as _ Hw. by rewrite <- Hw. }
  rewrite (proj2 (Z.leb_gt _ _)) in Hw by lia.
  pose proof (power_quiet n (Z.to_nat (e - 1)) n false) as Hq. injection Hw as Hw. rewrite Hw in Hq. cbn [snd] in Hq.
  rewrite Hq; [done|lia|nia|]. rewrite <- Z.pow_succ_r by lia. replace (Z.succ _) with e by lia. done.
Qed.
Example power_silent : power 1626 6 = Ok (u64 (1626 ^ 6), false) ∧ u64 (1626 ^ 6) ≠ 1626 ^ 6.
Proof. split; [reflexivity|discriminate]. Qed.

(** Division rounded up, unless the sum before it overflows. *)
Lemma divCeil_spec a b : 0 ≤ a → 0 < b → a + b < 2 ^ 64 →
  ∃ q, divCeil a b = Ok q ∧ a ≤ q * b < a + b.
Proof.
  intros Ha Hb Hs. unfold divCeil. rewrite (proj2 (Z.eqb_neq _ _)) by lia. rewrite (wrapU_id 64 (a + b)), wrapU_id by (split; lia).
  eexists. split; [done|]. pose proof (Z.div_mod (a + b - 1) b ltac:(lia)). pose proof (Z.mod_pos_bound (a + b - 1) b ltac:(lia)). nia.
Qed.

Lemma floorLog2_signed_spec x :
  (0 < x < 2 ^ 31 → floorLog2_int x = Ok (Z.log2 x)) ∧ (0 < x < 2 ^ 63 → floorLog2_long x = Ok (Z.log2 x)).
Proof.
  split; intros Hx; [unfold floorLog2_int|unfold floorLog2_long]; rewrite (proj2 (Z.ltb_lt _ _)) by lia;
    cbn [mbind outcome_bind assert_]; rewrite wrapU_id by (split; lia).
  - apply floorLog2_32_spec. lia.
  - apply floorLog2_64_spec. lia.
Qed.

Lemma ceilLog2_64_spec n : 0 < n < 2 ^ 64 → ceilLog2_64 n = Ok (Z.log2_up n).
Proof.
  intros Hn. unfold ceilLog2_64. rewrite (proj2 (Z.ltb_lt _ _)) by lia. cbn [mbind outcome_bind assert_].
  destruct (n =? 1) eqn:E; zbool; [by subst|]. rewrite wrapU_id by (split; lia). rewrite floorLog2_64_spec by lia.
  cbn [mbind outcome_bind]. rewrite Z.log2_up_eqn by lia. by replace (Z.pred n) with (n - 1) by lia.
Qed.
Lemma isPowerOf2_64_spec n : 0 < n < 2 ^ 64 → isPowerOf2_64 n = Ok (n =? 2 ^ Z.log2 n).
Proof.
  intros Hn. unfold isPowerOf2_64. rewrite (proj2 (Z.eqb_neq _ _)) by lia.
  rewrite floorLog2_64_spec, ceilLog2_64_spec by lia. cbn [mbind outcome_bind]. f_equal.
  apply eq_bool_prop_intro. rewrite !Is_true_true, !Z.eqb_eq.
  split; intros H.
  - destruct (Z.log2_log2_up_exact n ltac:(lia)) as [H1 _]. destruct (H1 H) as [b Hb].
    assert (0 ≤ b) by (destruct (decide (0 ≤ b)); [done|rewrite Z.pow_neg_r in Hb; lia]).
    rewrite Hb at 2. rewrite Z.log2_pow2 by done. done.
  - rewrite H at 2. pose proof (Z.log2_nonneg n). by rewrite Z.log2_up_pow2.
Qed.
