(* ===== verification/DmaPort.v ===== *)
(** Model of the class [DmaPort] of [dev/dma_device.{hh,cc}], through which every
    DMA engine of the accelerators reaches memory: an action is cut into packets
    within cache lines, the packets are sent one after the other, and the
    completion event of the action is scheduled once all have been answered. *)
From S2P Require Import Prelude IntMath DmaEvents.
From stdpp Require Import gmap.

#[local] Open Scope Z_scope.

(** [DmaReqState], one for each action. *)
Record DmaReqState := mkDmaReqState {
  completionEvent : option nat;
  totBytes : Z;
  numBytes : Z;
  rs_delay : Z;
}.
Definition DmaReqState_new (ce : option nat) (tb delay : Z) : DmaReqState := mkDmaReqState ce tb 0 delay.

(** A packet: [dk_data] points at its part of the device's block, [senderState] at the
    state of its action. *)
Record DmaPacket := mkDmaPacket {
  dk_write : bool;
  dk_addr : Z;
  dk_size : Z;
  dk_data : option Z;
  dk_sid : Z;
  dk_ssid : Z;
  senderState : nat;
}.

(** The states of the actions are a heap, [dp_nextState] the next one to be allocated.
    [dp_wire] are the packets accepted by the peer and not answered, [dp_sent] all
    accepted so far, [dp_completed] the completion events scheduled, with their time. *)
Record DmaPort := mkDmaPort {
  dp_states : gmap nat DmaReqState;
  dp_nextState : nat;
  transmitList : list DmaPacket;
  dp_wire : list DmaPacket;
  dp_sent : list DmaPacket;
  sendEvent : option Z;
  pendingCount : Z;
  inRetry : bool;
  dp_drain : DrainState;
  dp_completed : list (nat * Z);
}.
Definition DmaPort_new : DmaPort := mkDmaPort ∅ 0 [] [] [] None 0 false Running [].

Record DmaParams := mkDmaParams { dp_lineSize : Z; defaultSid : Z; defaultSSid : Z }.

(** [sys->isTimingMode()] and [sys->isAtomicMode()]. *)
Inductive MemoryMode := Timing | Atomic | OtherMode.

(** The clock, the mode, the answer of the peer, the latency of an atomic access, and
    how often each completion event has run. *)
Record DmaEnv := mkDmaEnv {
  de_curTick : Z;
  de_nextEdge : Z;
  de_mode : MemoryMode;
  de_accepts : DmaPacket → bool;
  de_latency : DmaPacket → Z;
  de_fired : nat → nat;
}.

Definition dp_set_send (p : DmaPort) (l w s : list DmaPacket) (e : option Z) (r : bool) : DmaPort :=
  mkDmaPort (dp_states p) (dp_nextState p) l w s e (pendingCount p) r (dp_drain p) (dp_completed p).
Definition dp_set_states (p : DmaPort) (s : gmap nat DmaReqState) (n : nat) : DmaPort :=
  mkDmaPort s n (transmitList p) (dp_wire p) (dp_sent p) (sendEvent p) (pendingCount p) (inRetry p)
    (dp_drain p) (dp_completed p).
Definition dp_set_count (p : DmaPort) (c : Z) (d : DrainState) : DmaPort :=
  mkDmaPort (dp_states p) (dp_nextState p) (transmitList p) (dp_wire p) (dp_sent p) (sendEvent p) c (inRetry p)
    d (dp_completed p).
Definition dp_complete (p : DmaPort) (e : nat) (t : Z) : DmaPort :=
  mkDmaPort (dp_states p) (dp_nextState p) (transmitList p) (dp_wire p) (dp_sent p) (sendEvent p) (pendingCount p)
    (inRetry p) (dp_drain p) (dp_completed p ++ [(e, t)]).

Section Port.
Context (cfg : DmaParams) (env : DmaEnv).

(** [event->scheduled()]: the event was scheduled more often than it has run. *)
Definition event_scheduled (p : DmaPort) (e : nat) : bool :=
  Nat.ltb (de_fired env e) (length (filter (eq e) (fst <$> dp_completed p))).

(** [device->schedule(event, curTick() + delay)], with the assertions of
    [EventQueue::schedule]. *)
Definition dma_schedule (p : DmaPort) (e : nat) (delay : Z) : outcome DmaPort :=
  let when := u64 (de_curTick env + delay) in
  let* _ := assert_ (u64 (de_curTick env) <=? when) in
  let* _ := assert_ (negb (event_scheduled p e)) in
  Ok (dp_complete p e when).

(** The packet has left the wire. *)
Definition handleResp (p : DmaPort) (pk : DmaPacket) (delay : Z) : outcome DmaPort :=
  let* st := match dp_states p !! senderState pk with Some st => Ok st | None => Err Undefined end in
  let* _ := assert_ (negb (pendingCount p =? 0)) in
  let p := dp_set_count p (u32 (pendingCount p - 1)) (dp_drain p) in
  let n := u64 (numBytes st + dk_size pk) in
  let* _ := assert_ (n <=? totBytes st) in
  let* p :=
    (if totBytes st =? n then
       let* p := match completionEvent st with
                 | Some e => dma_schedule p e (u64 (delay + rs_delay st))
                 | None => Ok p
                 end in
       Ok (dp_set_states p (delete (senderState pk) (dp_states p)) (dp_nextState p))
     else Ok (dp_set_states p (<[senderState pk := mkDmaReqState (completionEvent st) (totBytes st) n (rs_delay st)]> (dp_states p))
            (dp_nextState p))) in
  Ok (if pendingCount p =? 0 then dp_set_count p (pendingCount p) (signalDrainDone (dp_drain p)) else p).

(** [clean] says that the block did not come in the Modified state. *)
Definition recvTimingResp (p : DmaPort) (pk : DmaPacket) (clean : bool) : outcome DmaPort :=
  let* _ := assert_ clean in handleResp p pk 0.

Definition dma_drain (p : DmaPort) : DrainState * DmaPort :=
  if pendingCount p =? 0 then (Drained, dp_set_count p (pendingCount p) Drained)
  else (Draining, dp_set_count p (pendingCount p) Draining).
Definition dmaPending (p : DmaPort) : bool := 0 <? pendingCount p.

Definition trySendTimingReq (p : DmaPort) : outcome DmaPort :=
  match transmitList p with
  | [] => Err Undefined
  | pk :: l =>
      if de_accepts env pk then
        let w := dp_wire p ++ [pk] in
        let s := dp_sent p ++ [pk] in
        match l with
        | [] => Ok (dp_set_send p l w s (sendEvent p) false)
        | _ =>
            let* _ := assert_ (match sendEvent p with None => true | Some _ => false end) in
            Ok (dp_set_send p l w s (Some (de_nextEdge env)) false)
        end
      else Ok (dp_set_send p (pk :: l) (dp_wire p) (dp_sent p) (sendEvent p) true)
  end.

Definition recvReqRetry (p : DmaPort) : outcome DmaPort :=
  let* _ := assert_ (negb (bool_decide (transmitList p = []))) in trySendTimingReq p.

(** The loop of atomic mode. *)
Fixpoint atomic_loop (l : list DmaPacket) (p : DmaPort) : outcome DmaPort :=
  match l with
  | [] => Ok p
  | pk :: l =>
      let* p := handleResp (dp_set_send p l (dp_wire p) (dp_sent p ++ [pk]) (sendEvent p) (inRetry p)) pk (de_latency env pk) in
      atomic_loop l p
  end.

Definition sendDma (p : DmaPort) : outcome DmaPort :=
  let* _ := assert_ (negb (bool_decide (transmitList p = []))) in
  match de_mode env with
  | Timing =>
      if inRetry p || (match sendEvent p with Some _ => true | None => false end) then Ok p else trySendTimingReq p
  | Atomic => atomic_loop (transmitList p) p
  | OtherMode => Err Panic
  end.

(** The event [sendEvent] fires. *)
Definition dma_sendEvent (p : DmaPort) : outcome DmaPort :=
  sendDma (dp_set_send p (transmitList p) (dp_wire p) (dp_sent p) None (inRetry p)).

Definition queueDma (p : DmaPort) (pk : DmaPacket) : DmaPort :=
  let p := dp_set_send p (transmitList p ++ [pk]) (dp_wire p) (dp_sent p) (sendEvent p) (inRetry p) in
  dp_set_count p (u32 (pendingCount p + 1)) (dp_drain p).

(** [size] is an [int]; the state takes it as an address, the generator as an [unsigned]. *)
Definition dmaAction (p : DmaPort) (write : bool) (addr size : Z) (event : option nat) (data : option Z)
    (sid ssid delay : Z) : outcome DmaPort :=
  let st := dp_nextState p in
  let p := dp_set_states p (<[st := DmaReqState_new event (u64 size) delay]> (dp_states p)) (S st) in
  let* cs := chunks addr (u32 size) (dp_lineSize cfg) in
  let p := foldl (fun p '(a, s, o) =>
    queueDma p (mkDmaPacket write a s ((fun d => u64 (d + o)) <$> data) sid ssid st)) p cs in
  sendDma p.

(** The overload without stream identifiers. *)
Definition dmaAction_default (p : DmaPort) (write : bool) (addr size : Z) (event : option nat) (data : option Z)
    (delay : Z) : outcome DmaPort :=
  dmaAction p write addr size event data (defaultSid cfg) (defaultSSid cfg) delay.

(** [DmaDevice::dmaWrite] and [DmaDevice::dmaRead]. *)
Definition dmaWrite (p : DmaPort) (addr size : Z) (event : option nat) (data : option Z) (delay : Z) : outcome DmaPort :=
  dmaAction_default p true addr size event data delay.
Definition dmaRead (p : DmaPort) (addr size : Z) (event : option nat) (data : option Z) (delay : Z) : outcome DmaPort :=
  dmaAction_default p false addr size event data delay.
End Port.
