(* ===== verification/DmaPortSpec.v ===== *)
(** Correctness of the DMA port: its packets go out in order and none is lost, and
    the completion event of an action is scheduled once, when all its packets
    have been answered, in whatever order. *)
From stdpp Require Import gmap.
From S2P Require Import Prelude IntMath DmaEvents DmaPort.

#[local] Open Scope Z_scope.

(** ** Actions and their packets *)

Record Action := mkAction {
  ac_write : bool;
  ac_addr : Z;
  ac_size : Z;
  ac_event : option nat;
  ac_data : option Z;
  ac_sid : Z;
  ac_ssid : Z;
  ac_delay : Z;
}.

Definition act_packets (c : Z) (j : nat) (a : Action) : list DmaPacket :=
  (fun '(x, s, o) => mkDmaPacket (ac_write a) x s ((fun d => u64 (d + o)) <$> ac_data a) (ac_sid a) (ac_ssid a) j)
    <$> pieces (Z.to_nat (ac_size a)) (ac_addr a) (ac_addr a) (ac_size a) c.
Definition all_packets (c : Z) (acts : list Action) : list DmaPacket := concat (imap (act_packets c) acts).

(** The bytes the packets of action [j] ask for. *)
Fixpoint sizes_of (j : nat) (ps : list DmaPacket) : Z :=
  match ps with [] => 0 | pk :: ps => (if Nat.eqb (senderState pk) j then dk_size pk else 0) + sizes_of j ps end.

(** ** The inputs of the port *)

Inductive DmaInput := InAction (a : Action) | InSend | InRetry | InResp (i : nat).

Definition dma_input (cfg : DmaParams) (env : DmaEnv) (p : DmaPort) (i : DmaInput) : outcome DmaPort :=
  match i with
  | InAction a => dmaAction cfg env p (ac_write a) (ac_addr a) (ac_size a) (ac_event a) (ac_data a) (ac_sid a) (ac_ssid a) (ac_delay a)
  | InSend => dma_sendEvent env p
  | InRetry => recvReqRetry env p
  | InResp i =>
      let* pk := vec_get (dp_wire p) i in
      recvTimingResp env (dp_set_send p (transmitList p) (delete i (dp_wire p)) (dp_sent p) (sendEvent p) (inRetry p)) pk true
  end.

Definition act_ok (cfg : DmaParams) (a : Action) : Prop :=
  0 ≤ ac_addr a ∧ 0 < ac_size a < 2 ^ 31 ∧ ac_addr a + ac_size a + dp_lineSize cfg < 2 ^ 64.

(** An action needs room in the 32-bit counter of packets; the send event fires when it
    is scheduled, a retry comes when one is owed, a response when a packet waits. *)
Definition dma_enabled (cfg : DmaParams) (p : DmaPort) (i : DmaInput) : Prop :=
  match i with
  | InAction a => act_ok cfg a ∧ pendingCount p + ac_size a < 2 ^ 32
  | InSend => sendEvent p ≠ None
  | InRetry => inRetry p = true
  | InResp i => is_Some (dp_wire p !! i)
  end.

(** All packets of action [j] have been answered. *)
Definition answered (p : DmaPort) (j : nat) : Prop := Forall (fun pk => senderState pk ≠ j) (dp_wire p ++ transmitList p).
#[export] Instance answered_dec p j : Decision (answered p j).
Proof. unfold answered. apply _. Defined.

(** The answer to a packet that is the last of its action can schedule the completion
    event: the event is not scheduled already, and its time is not past the end of the
    64-bit clock. *)
Definition completion_ok (env : DmaEnv) (acts : list Action) (p : DmaPort) (i : DmaInput) : bool :=
  match i with
  | InResp i =>
      match dp_wire p !! i with
      | Some pk =>
          let p' := dp_set_send p (transmitList p) (delete i (dp_wire p)) (dp_sent p) (sendEvent p) (inRetry p) in
          match acts !! senderState pk with
          | Some a =>
              match ac_event a with
              | Some e => negb (bool_decide (answered p' (senderState pk))) ||
                  ((u64 (de_curTick env) <=? u64 (de_curTick env + u64 (ac_delay a))) && negb (event_scheduled env p e))
              | None => true
              end
          | None => true
          end
      | None => true
      end
  | _ => true
  end.

Definition acts_of (i : DmaInput) : list Action := match i with InAction a => [a] | _ => [] end.

(** The states reached in timing mode, with the actions started. *)
Inductive reached (cfg : DmaParams) : list Action → DmaPort → Prop :=
| reached_new : reached cfg [] DmaPort_new
| reached_input acts p env i p' : reached cfg acts p → de_mode env = Timing → dma_enabled cfg p i →
    dma_input cfg env p i = Ok p' → reached cfg (acts ++ acts_of i) p'.

(** ** The invariant *)

Definition pending (p : DmaPort) : list DmaPacket := dp_wire p ++ transmitList p.
Definition status (states : gmap nat DmaReqState) (j : nat) (a : Action) : option nat :=
  match states !! j with None => ac_event a | Some _ => None end.
Definition finished_events (states : gmap nat DmaReqState) (acts : list Action) : list nat :=
  omap id (imap (status states) acts).

(** Action [j] while it waits for its packets [ps], and after. *)
Definition act_state (states : gmap nat DmaReqState) (ps : list DmaPacket) (j : nat) (a : Action) : Prop :=
  match states !! j with
  | Some st => completionEvent st = ac_event a ∧ totBytes st = ac_size a ∧ rs_delay st = ac_delay a ∧
      0 ≤ numBytes st ∧ numBytes st + sizes_of j ps = ac_size a ∧ 0 < sizes_of j ps
  | None => sizes_of j ps = 0
  end.

Record core (cfg : DmaParams) (acts : list Action) (p : DmaPort) : Prop := {
  co_acts : Forall (act_ok cfg) acts;
  co_order : dp_sent p ++ transmitList p = all_packets (dp_lineSize cfg) acts;
  co_count : pendingCount p = Z.of_nat (length (pending p));
  co_bound : pendingCount p < 2 ^ 32;
  co_next : dp_nextState p = length acts;
  co_dom : ∀ j, (length acts ≤ j)%nat → dp_states p !! j = None;
  co_pk : Forall (fun pk => (senderState pk < length acts)%nat ∧ 0 < dk_size pk) (pending p);
  co_state : ∀ j a, acts !! j = Some a → act_state (dp_states p) (pending p) j a;
  co_done : fst <$> dp_completed p ≡ₚ finished_events (dp_states p) acts;
  co_excl : sendEvent p ≠ None → inRetry p = false;
  co_use : (sendEvent p ≠ None ∨ inRetry p = true) → transmitList p ≠ [];
}.
Definition live (p : DmaPort) : Prop := transmitList p ≠ [] → sendEvent p ≠ None ∨ inRetry p = true.

Lemma sizes_of_app j ps qs : sizes_of j (ps ++ qs) = sizes_of j ps + sizes_of j qs.
Proof. induction ps as [|pk ps IH]; cbn; [done|]. rewrite IH. lia. Qed.
#[local] Instance sizes_of_perm j : Proper ((≡ₚ) ==> eq) (sizes_of j).
Proof. intros ps qs H. induction H; cbn; lia. Qed.

Lemma sizes_of_zero j ps : Forall (fun pk => 0 < dk_size pk) ps →
  0 ≤ sizes_of j ps ∧ (sizes_of j ps = 0 ↔ Forall (fun pk => senderState pk ≠ j) ps).
Proof.
  induction 1 as [|pk ps Hpk _ [IH1 IH2]]; cbn; [split; [done|split; constructor]|].
  rewrite Forall_cons. destruct (Nat.eqb_spec (senderState pk) j); cbv iota; (split; [lia|]).
  - split; [intros; exfalso; lia|]. intros [? _]. congruence.
  - rewrite <-IH2. split; [intros; split; [done|lia]|lia].
Qed.

(** ** Sending *)

(** The packets and the states are kept when a packet moves from the list to the wire. *)
Lemma core_move cfg acts p l w s e r : core cfg acts p → s ++ l = dp_sent p ++ transmitList p → w ++ l ≡ₚ pending p →
  (e ≠ None → r = false) → (e ≠ None ∨ r = true → l ≠ []) → core cfg acts (dp_set_send p l w s e r).
Proof.
  intros [] Hs Hp He Hu. constructor; cbn; try done.
  - by rewrite Hs.
  - unfold pending in *. cbn. by rewrite Hp.
  - unfold pending in *. cbn. by rewrite Hp.
  - intros j a Hj. specialize (co_state0 j a Hj). unfold act_state, pending in *. cbn.
    destruct (dp_states p !! j); by rewrite Hp.
Qed.

Lemma trySend_core cfg env acts p : core cfg acts p → transmitList p ≠ [] → sendEvent p = None →
  ∃ p', trySendTimingReq env p = Ok p' ∧ core cfg acts p' ∧ live p'.
Proof.
  intros HC Hne Hse. unfold trySendTimingReq. destruct (transmitList p) as [|pk l] eqn:El; [done|].
  assert (dp_wire p ++ [pk] ++ l ≡ₚ pending p) as Hp by (unfold pending; by rewrite El).
  destruct (de_accepts env pk).
  - destruct l as [|pk' l].
    + eexists. split; [done|]. split; [|by intros []]. apply core_move; try done.
      * by rewrite El, app_nil_r.
      * by rewrite app_nil_r.
      * rewrite Hse. by intros [?|?].
    + rewrite Hse. cbn [assert_ mbind outcome_bind]. eexists. split; [done|]. split; [|by left].
      apply core_move; try done; by rewrite ?El, <-app_assoc.
  - eexists. split; [done|]. split; [|by right]. apply core_move; try done; by rewrite ?El, ?Hse.
Qed.

Lemma sendDma_core cfg env acts p : core cfg acts p → transmitList p ≠ [] → de_mode env = Timing →
  ∃ p', sendDma env p = Ok p' ∧ core cfg acts p' ∧ live p'.
Proof.
  intros HC Hne Hm. unfold sendDma. rewrite (bool_decide_eq_false_2 _ Hne), Hm. cbn [negb assert_ mbind outcome_bind].
  destruct (inRetry p) eqn:Er; cbn [orb]; [exists p; split_and!; try done; by right|].
  destruct (sendEvent p) eqn:Es; [exists p; split_and!; try done; left; by rewrite Es|]. by apply trySend_core.
Qed.

(** ** Starting an action *)

Lemma queue_all ps : ∀ p, 0 ≤ pendingCount p → pendingCount p + Z.of_nat (length ps) < 2 ^ 32 →
  foldl queueDma p ps = mkDmaPort (dp_states p) (dp_nextState p) (transmitList p ++ ps) (dp_wire p) (dp_sent p) (sendEvent p)
    (pendingCount p + Z.of_nat (length ps)) (inRetry p) (dp_drain p) (dp_completed p).
Proof.
  induction ps as [|pk ps IH]; intros p H0 Hb; cbn [foldl length].
  { rewrite app_nil_r, Z.add_0_r. by destruct p. }
  cbn [length] in Hb. assert (u32 (pendingCount p + 1) = pendingCount p + 1) as E by (apply wrapU_id; split; lia).
  rewrite IH; unfold queueDma, dp_set_count, dp_set_send; cbn; rewrite E; [|lia..].
  f_equal; [by rewrite <-app_assoc|lia].
Qed.

Lemma pieces_length n base c : ∀ a len, 0 < c → 0 ≤ len → Z.of_nat (length (pieces n base a len c)) ≤ len.
Proof.
  induction n as [|n IH]; intros a len Hc Hl; cbn [pieces length]; [lia|].
  destruct (Z.leb_spec len 0); cbn [length]; [lia|]. pose proof (Z.mod_pos_bound a c Hc).
  set (s := Z.min len (c - a mod c)). specialize (IH (a + s) (len - s) Hc ltac:(lia)). lia.
Qed.

Lemma act_packets_sizes c j a : 0 < c → 0 ≤ ac_size a →
  Forall (fun pk => senderState pk = j ∧ 0 < dk_size pk) (act_packets c j a) ∧ sizes_of j (act_packets c j a) = ac_size a.
Proof.
  intros Hc Hs. unfold act_packets. destruct (pieces_ok (Z.to_nat (ac_size a)) (ac_addr a) c (ac_addr a) (ac_size a)) as [H1 H2]; [lia..|].
  split.
  - apply Forall_fmap. eapply Forall_impl; [exact H1|]. intros [[x s] o] (? & _). done.
  - apply (f_equal length) in H2. rewrite length_seqZ in H2.
    assert (∀ l : list (Z * Z * Z), Forall (fun '(x, s, o) => 0 < s ∧ x mod c + s ≤ c ∧ o = x - ac_addr a) l →
      Z.of_nat (length (l ≫= fun '(x, s, _) => seqZ x s)) =
      sizes_of j ((fun '(x, s, o) => mkDmaPacket (ac_write a) x s ((fun d => u64 (d + o)) <$> ac_data a) (ac_sid a) (ac_ssid a) j) <$> l)) as Hl.
    { induction 1 as [|[[x s] o] l (Hsz & _) _ IH]; [done|]. cbn. rewrite length_app, length_seqZ, Nat.eqb_refl, <-IH. lia. }
    rewrite <-Hl by done. lia.
Qed.

Lemma all_packets_snoc c acts a : all_packets c (acts ++ [a]) = all_packets c acts ++ act_packets c (length acts) a.
Proof. unfold all_packets. rewrite imap_app. cbn. rewrite concat_app. cbn. by rewrite app_nil_r, Nat.add_0_r. Qed.

Lemma sizes_of_other j k ps : Forall (fun pk => senderState pk = k ∧ 0 < dk_size pk) ps → j ≠ k → sizes_of j ps = 0.
Proof.
  induction 1 as [|pk ps [E _] _ IH]; intros Hne; cbn; [done|]. destruct (Nat.eqb_spec (senderState pk) j); [congruence|].
  rewrite IH by done. done.
Qed.

Lemma foldl_map {A B C} (f : C → B → C) (g : A → B) l : ∀ c, foldl (fun c x => f c (g x)) c l = foldl f c (g <$> l).
Proof. induction l as [|x l IH]; intros c; [done|]. cbn. apply IH. Qed.

Lemma finished_snoc states st acts a : finished_events (<[length acts := st]> states) (acts ++ [a]) = finished_events states acts.
Proof.
  unfold finished_events. rewrite imap_app, omap_app. cbn. unfold status at 2. rewrite Nat.add_0_r, lookup_insert_eq.
  cbn. rewrite app_nil_r. f_equal. apply imap_ext. intros j x Hj%lookup_lt_Some.
  unfold status. by rewrite lookup_insert_ne by lia.
Qed.

Section Started.
Context (cfg : DmaParams) (k : Z).
Hypothesis Hk : 0 ≤ k < 32.
Hypothesis Hline : dp_lineSize cfg = 2 ^ k.

Lemma line_pos : 0 < dp_lineSize cfg.
Proof. rewrite Hline. apply Z.pow_pos_nonneg; lia. Qed.

(** The port with the packets of a new action queued. *)
Definition started (p : DmaPort) (a : Action) : DmaPort :=
  mkDmaPort (<[dp_nextState p := DmaReqState_new (ac_event a) (ac_size a) (ac_delay a)]> (dp_states p)) (S (dp_nextState p))
    (transmitList p ++ act_packets (dp_lineSize cfg) (dp_nextState p) a) (dp_wire p) (dp_sent p) (sendEvent p)
    (pendingCount p + Z.of_nat (length (act_packets (dp_lineSize cfg) (dp_nextState p) a))) (inRetry p) (dp_drain p)
    (dp_completed p).

Lemma act_packets_length c j a : 0 < c → 0 ≤ ac_size a → Z.of_nat (length (act_packets c j a)) ≤ ac_size a.
Proof. intros. unfold act_packets. rewrite length_fmap. by apply pieces_length. Qed.

Lemma dmaAction_started env p a : act_ok cfg a → 0 ≤ pendingCount p → pendingCount p + ac_size a < 2 ^ 32 →
  dma_input cfg env p (InAction a) = sendDma env (started p a).
Proof.
  intros (Ha & Hs & Hb) Hp Hc. cbn [dma_input]. unfold dmaAction. rewrite (wrapU_id 32), (wrapU_id 64) by (split; lia).
  rewrite Hline in Hb |- *. rewrite chunks_spec by lia. cbn [mbind outcome_bind].
  pose proof (act_packets_length (2 ^ k) (dp_nextState p) a ltac:(rewrite <-Hline; apply line_pos) ltac:(lia)) as Hlen.
  f_equal. transitivity (foldl queueDma
    (dp_set_states p (<[dp_nextState p := DmaReqState_new (ac_event a) (ac_size a) (ac_delay a)]> (dp_states p)) (S (dp_nextState p)))
    (act_packets (2 ^ k) (dp_nextState p) a)).
  - unfold act_packets. rewrite <-foldl_map. generalize (pieces (Z.to_nat (ac_size a)) (ac_addr a) (ac_addr a) (ac_size a) (2 ^ k)).
    intros l. generalize (dp_set_states p (<[dp_nextState p := DmaReqState_new (ac_event a) (ac_size a) (ac_delay a)]> (dp_states p)) (S (dp_nextState p))).
    induction l as [|[[x s] o] l IH]; intros q; cbn; [done|]. apply IH.
  - rewrite queue_all by (cbn; lia). unfold started. by rewrite Hline.
Qed.

Lemma started_core acts p a : core cfg acts p → act_ok cfg a → pendingCount p + ac_size a < 2 ^ 32 →
  core cfg (acts ++ [a]) (started p a) ∧ transmitList (started p a) ≠ [].
Proof.
  intros [] Hok Hc. pose proof Hok as (Ha & Hs & Hb). set (c := dp_lineSize cfg).
  destruct (act_packets_sizes c (length acts) a line_pos ltac:(lia)) as [Hall Hsum].
  pose proof (act_packets_length c (length acts) a line_pos ltac:(lia)) as Hlen.
  assert (act_packets c (length acts) a ≠ []) as Hne by (intros E; rewrite E in Hsum; cbn in Hsum; lia).
  assert (pending (started p a) = pending p ++ act_packets c (length acts) a) as Hpend
    by (unfold pending, started; cbn; by rewrite co_next0, app_assoc).
  assert (transmitList (started p a) ≠ []) as Htl
    by (unfold started; cbn; rewrite co_next0; intros [_ ?]%app_nil; done).
  split; [|done]. constructor; rewrite ?Hpend; try done.
  - apply Forall_app. by split; [|constructor].
  - unfold started. cbn. rewrite co_next0, app_assoc, co_order0, all_packets_snoc. done.
  - unfold started. cbn. rewrite length_app, co_next0, co_count0. fold c. lia.
  - unfold started. cbn. rewrite co_next0. fold c. lia.
  - unfold started. cbn. rewrite length_app, co_next0. cbn. lia.
  - intros j. rewrite length_app. cbn. intros Hj. rewrite lookup_insert_ne by lia. apply co_dom0. lia.
  - apply Forall_app. rewrite length_app. cbn. split.
    + eapply Forall_impl; [exact co_pk0|]. intros pk [? ?]. split; [lia|done].
    + eapply Forall_impl; [exact Hall|]. intros pk [-> ?]. split; [lia|done].
  - intros j b Hj. unfold act_state, started. cbn. rewrite co_next0. rewrite sizes_of_app.
    destruct (decide (j = length acts)) as [->|Hne'].
    + rewrite lookup_app_r, Nat.sub_diag in Hj by lia. injection Hj as <-. rewrite lookup_insert_eq. cbn.
      assert (sizes_of (length acts) (pending p) = 0) as E0.
      { apply sizes_of_zero; eapply Forall_impl; try exact co_pk0; cbn; [by intros ? [_ ?]|]. intros pk [? _]. lia. }
      split_and!; try done; lia.
    + assert (acts !! j = Some b) as Hj' by (apply lookup_app_Some in Hj as [?|[? Hj]]; [done|];
        apply list_lookup_singleton_Some in Hj; lia).
      rewrite lookup_insert_ne by done. rewrite (sizes_of_other j (length acts) (act_packets c (length acts) a)) by done. rewrite Z.add_0_r.
      by apply co_state0.
  - unfold started. cbn. rewrite co_next0, finished_snoc. done.
Qed.
End Started.

(** ** Responses *)

Lemma omap_insert_none (l : list (option nat)) j o : l !! j = Some None →
  omap id (<[j := o]> l) ≡ₚ match o with Some e => e :: omap id l | None => omap id l end.
Proof.
  revert j. induction l as [|x l IH]; intros [|j] Hj; cbn in Hj |- *; [done|done| |].
  - injection Hj as ->. cbn. by destruct o.
  - destruct x as [x|]; cbn; rewrite (IH j Hj); destruct o; done || apply Permutation_swap.
Qed.

(** An action that ends adds its event. *)
Lemma finished_delete states acts j a st : acts !! j = Some a → states !! j = Some st →
  finished_events (delete j states) acts ≡ₚ
  match ac_event a with Some e => e :: finished_events states acts | None => finished_events states acts end.
Proof.
  intros Ha Hst. unfold finished_events.
  assert (imap (status (delete j states)) acts = <[j := ac_event a]> (imap (status states) acts)) as ->.
  { apply list_eq. intros i. rewrite list_lookup_imap. destruct (decide (i = j)) as [->|Hne].
    - rewrite Ha, list_lookup_insert_eq by (rewrite length_imap; by eapply lookup_lt_Some). cbn. unfold status.
      by rewrite lookup_delete_eq.
    - rewrite list_lookup_insert_ne, list_lookup_imap by done. destruct (acts !! i); [|done]. cbn. unfold status.
      by rewrite lookup_delete_ne. }
  apply omap_insert_none. rewrite list_lookup_imap, Ha. cbn. unfold status. by rewrite Hst.
Qed.

Lemma finished_update states acts j st st' : states !! j = Some st → finished_events (<[j := st']> states) acts = finished_events states acts.
Proof.
  intros Hst. unfold finished_events. f_equal. apply imap_ext. intros i x _. unfold status.
  destruct (decide (i = j)) as [->|]; [by rewrite lookup_insert_eq, Hst|by rewrite lookup_insert_ne].
Qed.

(** The other actions do not see the packet go. *)
Lemma act_state_frame states states' pk ps j a : j ≠ senderState pk → states' !! j = states !! j →
  act_state states (pk :: ps) j a → act_state states' ps j a.
Proof.
  intros Hne Hst. unfold act_state. rewrite Hst. cbn. destruct (Nat.eqb_spec (senderState pk) j); [congruence|]. done.
Qed.

Lemma core_answered cfg acts p pk p' a : core cfg acts p → pending p ≡ₚ pk :: pending p' → acts !! senderState pk = Some a →
  transmitList p' = transmitList p → dp_sent p' = dp_sent p → sendEvent p' = sendEvent p → inRetry p' = inRetry p →
  dp_nextState p' = dp_nextState p → pendingCount p' = pendingCount p - 1 →
  (∀ i, i ≠ senderState pk → dp_states p' !! i = dp_states p !! i) →
  act_state (dp_states p') (pending p') (senderState pk) a →
  fst <$> dp_completed p' ≡ₚ finished_events (dp_states p') acts → core cfg acts p'.
Proof.
  intros [] Hp Ha Et Es Ee Er En Ec Hst Hj Hd. pose proof Hp as Hlen%Permutation_length. cbn in Hlen.
  constructor; rewrite ?Et, ?Es, ?Ee, ?Er, ?En; try done; try lia.
  - intros i Hi. rewrite Hst; [by apply co_dom0|]. apply lookup_lt_Some in Ha. lia.
  - rewrite Hp in co_pk0. by apply Forall_cons in co_pk0 as [_ ?].
  - intros i b Hb. destruct (decide (i = senderState pk)) as [->|Hne]; [by rewrite Ha in Hb; injection Hb as <-|].
    apply (act_state_frame (dp_states p) _ pk); [done|by apply Hst|]. pose proof (co_state0 i b Hb) as H.
    unfold act_state in H |- *. destruct (dp_states p !! i); by rewrite Hp in H.
Qed.

(** A packet on the wire: its action and the state that waits for it. *)
Definition unwired (p : DmaPort) (i : nat) : DmaPort :=
  dp_set_send p (transmitList p) (delete i (dp_wire p)) (dp_sent p) (sendEvent p) (inRetry p).
Record awaited (acts : list Action) (p : DmaPort) (i : nat) (pk : DmaPacket) (a : Action) (st : DmaReqState) : Prop := {
  aw_action : acts !! senderState pk = Some a;
  aw_state : dp_states p !! senderState pk = Some st;
  aw_pending : pending p ≡ₚ pk :: pending (unwired p i);
  aw_event : completionEvent st = ac_event a;
  aw_total : totBytes st = ac_size a;
  aw_delay : rs_delay st = ac_delay a;
  aw_size : 0 < dk_size pk ∧ 0 ≤ numBytes st ∧ ac_size a < 2 ^ 31;
  aw_bytes : numBytes st + dk_size pk + sizes_of (senderState pk) (pending (unwired p i)) = ac_size a;
  aw_left : 0 ≤ sizes_of (senderState pk) (pending (unwired p i));
  aw_last : sizes_of (senderState pk) (pending (unwired p i)) = 0 ↔ answered (unwired p i) (senderState pk);
}.

Lemma wire_awaited cfg acts p i pk : core cfg acts p → dp_wire p !! i = Some pk → ∃ a st, awaited acts p i pk a st.
Proof.
  intros [] Hi.
  assert (pending p ≡ₚ pk :: pending (unwired p i)) as Hp.
  { unfold pending, unwired. cbn. rewrite (delete_Permutation (dp_wire p) i pk) at 1 by done. done. }
  pose proof co_pk0 as Hall. rewrite Hp in Hall. apply Forall_cons in Hall as [[Hj Hsz] Hall].
  destruct (lookup_lt_is_Some_2 acts _ Hj) as [a Ha]. pose proof (co_state0 _ a Ha) as Hst.
  pose proof (proj1 (Forall_lookup _ _) co_acts0 _ a Ha) as (_ & Has & _).
  destruct (sizes_of_zero (senderState pk) (pending (unwired p i))) as [Hnn Hz].
  { eapply Forall_impl; [exact Hall|]. by intros ? [_ ?]. }
  assert (sizes_of (senderState pk) (pending p) = dk_size pk + sizes_of (senderState pk) (pending (unwired p i))) as Esz.
  { rewrite Hp. cbn. by rewrite Nat.eqb_refl. }
  unfold act_state in Hst. destruct (dp_states p !! senderState pk) as [st|] eqn:Est; [|lia].
  destruct Hst as (? & ? & ? & ? & ? & _). exists a, st. split; (done || lia).
Qed.

(** What the answer to the packet does. *)
Lemma response_eq cfg env acts p i pk a st : core cfg acts p → dp_wire p !! i = Some pk → awaited acts p i pk a st →
  let j := senderState pk in
  let p2 := dp_set_count (unwired p i) (pendingCount p - 1) (dp_drain p) in
  dma_input cfg env p (InResp i) =
  (let* p3 := (if decide (answered (unwired p i) j) then
      let* p3 := match ac_event a with Some e => dma_schedule env p2 e (u64 (ac_delay a)) | None => Ok p2 end in
      Ok (dp_set_states p3 (delete j (dp_states p3)) (dp_nextState p3))
    else Ok (dp_set_states p2 (<[j := mkDmaReqState (ac_event a) (ac_size a) (numBytes st + dk_size pk) (ac_delay a)]> (dp_states p2))
               (dp_nextState p2))) in
   Ok (if pendingCount p3 =? 0 then dp_set_count p3 (pendingCount p3) (signalDrainDone (dp_drain p3)) else p3)).
Proof.
  intros HC Hi [Ha Hst Hp He Ht Hd (? & ? & ?) Hb Hl Hlast] j p2. cbn [dma_input]. unfold vec_get. rewrite Hi. cbn [mbind outcome_bind].
  fold (unwired p i). pose proof (Permutation_length Hp) as Hlen. cbn in Hlen.
  pose proof (co_count _ _ _ HC) as Hc. pose proof (co_bound _ _ _ HC) as Hbd.
  unfold recvTimingResp, handleResp. cbn [assert_ mbind outcome_bind]. fold j.
  change (dp_states (unwired p i)) with (dp_states p). change (pendingCount (unwired p i)) with (pendingCount p).
  unfold j. rewrite Hst. fold j. cbn [mbind outcome_bind]. rewrite (proj2 (Z.eqb_neq (pendingCount p) 0)) by lia.
  cbn [negb assert_ mbind outcome_bind]. rewrite (wrapU_id 32), (wrapU_id 64 (numBytes st + _)) by (split; lia).
  rewrite (proj2 (Z.leb_le _ _)) by lia. cbn [assert_ mbind outcome_bind]. rewrite He, Ht, Hd. cbn [Z.add].
  case_decide as Hans; unfold j in Hans; rewrite <-Hlast in Hans.
  - rewrite (proj2 (Z.eqb_eq _ _)) by lia. done.
  - rewrite (proj2 (Z.eqb_neq _ _)) by lia. done.
Qed.

Lemma response_core cfg env acts p i pk : core cfg acts p → live p → dp_wire p !! i = Some pk →
  if completion_ok env acts p (InResp i)
  then ∃ p', dma_input cfg env p (InResp i) = Ok p' ∧ core cfg acts p' ∧ live p'
  else dma_input cfg env p (InResp i) = Err AssertFail.
Proof.
  intros HC Hlive Hi. destruct (wire_awaited cfg acts p i pk HC Hi) as (a & st & Haw).
  pose proof (response_eq cfg env acts p i pk a st HC Hi Haw) as Eq. cbv zeta in Eq. rewrite Eq. clear Eq.
  destruct Haw as [Ha Hst Hp He Ht Hd (? & ? & ?) Hb Hl Hlast]. cbn [completion_ok]. rewrite Hi, Ha. fold (unwired p i).
  set (j := senderState pk) in *. set (p2 := dp_set_count _ _ _).
  assert (∀ p3, core cfg acts p3 ∧ live p3 →
    let p' := if pendingCount p3 =? 0 then dp_set_count p3 (pendingCount p3) (signalDrainDone (dp_drain p3)) else p3 in
    core cfg acts p' ∧ live p') as Hend.
  { intros p3 [H3 L3] p'. subst p'. case_match; [|done]. split; [|exact L3]. destruct H3. by constructor. }
  case_decide as Hans; [rewrite bool_decide_eq_true_2 by done|rewrite bool_decide_eq_false_2 by done].
  - assert (act_state (delete j (dp_states p)) (pending (unwired p i)) j a) as Hact
      by (unfold act_state; rewrite lookup_delete_eq; by apply Hlast).
    assert (∀ i', i' ≠ j → delete j (dp_states p) !! i' = dp_states p !! i') as Hoth by (intros; by rewrite lookup_delete_ne).
    pose proof (finished_delete (dp_states p) acts j a st Ha Hst) as Hfin. pose proof (co_done _ _ _ HC) as Hdone.
    destruct (ac_event a) as [e|]; cbn [negb orb].
    + unfold dma_schedule. change (event_scheduled env p2 e) with (event_scheduled env p e).
      destruct (_ <=? _); [|done]. destruct (event_scheduled env p e); [done|]. cbn [negb andb assert_ mbind outcome_bind].
      eexists. split; [done|]. apply Hend. split; [|exact Hlive]. eapply (core_answered cfg acts p pk _ a); try done.
      cbn. rewrite fmap_app. cbn. rewrite Hdone, Hfin. by rewrite Permutation_app_comm.
    + cbn [mbind outcome_bind]. eexists. split; [done|]. apply Hend. split; [|exact Hlive]. eapply (core_answered cfg acts p pk _ a); try done.
      cbn. by rewrite Hdone, Hfin.
  - assert (sizes_of j (pending (unwired p i)) ≠ 0) as Hmore by (by rewrite Hlast).
    assert (match ac_event a with Some e => _ | None => true end = true) as -> by (by destruct (ac_event a)).
    cbn [mbind outcome_bind]. eexists. split; [done|]. apply Hend. split; [|exact Hlive]. eapply (core_answered cfg acts p pk _ a); try done.
    + intros i' Hi'. cbn. by rewrite lookup_insert_ne.
    + unfold act_state. cbn [dp_set_states dp_states dp_set_count]. rewrite lookup_insert_eq. cbn [completionEvent totBytes numBytes rs_delay].
      change (pending (dp_set_states _ _ _)) with (pending (unwired p i)). fold j. split_and!; try done; lia.
    + cbn. rewrite (finished_update _ _ _ st) by done. apply (co_done _ _ _ HC).
Qed.

(** ** Runs *)

Section Sound.
Context (cfg : DmaParams) (k : Z).
Hypothesis Hk : 0 ≤ k < 32.
Hypothesis Hline : dp_lineSize cfg = 2 ^ k.

Lemma input_core env acts p i : core cfg acts p → live p → de_mode env = Timing → dma_enabled cfg p i →
  if completion_ok env acts p i
  then ∃ p', dma_input cfg env p i = Ok p' ∧ core cfg (acts ++ acts_of i) p' ∧ live p'
  else dma_input cfg env p i = Err AssertFail.
Proof.
  intros HC HL Hm Hen. destruct i as [a| | |i]; cbn [acts_of]; rewrite ?app_nil_r; cbn [dma_enabled] in Hen.
  - destruct Hen as [Hok Hc]. rewrite (dmaAction_started cfg k) by (done || rewrite (co_count _ _ _ HC); lia).
    destruct (started_core cfg k Hk Hline acts p a HC Hok Hc) as [HC' Hne]. by apply sendDma_core.
  - cbn [dma_input]. unfold dma_sendEvent. pose proof (co_use _ _ _ HC ltac:(by left)) as Hne.
    apply sendDma_core; [|done|done]. by apply core_move.
  - cbn [dma_input]. unfold recvReqRetry. pose proof (co_use _ _ _ HC ltac:(by right)) as Hne.
    rewrite (bool_decide_eq_false_2 _ Hne). cbn [negb assert_ mbind outcome_bind]. apply trySend_core; [done..|].
    destruct (sendEvent p) eqn:E; [|done]. pose proof (co_excl _ _ _ HC). rewrite E in H. by rewrite H in Hen.
  - destruct Hen as [pk Hi]. by apply (response_core cfg env acts p i pk).
Qed.

Lemma core_new : core cfg [] DmaPort_new.
Proof.
  constructor; cbn; try done; try by constructor.
  by intros [?|?].
Qed.

Lemma reached_core acts p : reached cfg acts p → core cfg acts p ∧ live p.
Proof.
  induction 1 as [|acts p env i p' _ [HC HL] Hm Hen Hin]; [split; [apply core_new|by intros []]|].
  pose proof (input_core env acts p i HC HL Hm Hen) as H. rewrite Hin in H. case_match; [|done].
  by destruct H as (p'' & [= <-] & ?).
Qed.

(** The packets of an action lie within cache lines and cover its bytes in order. *)
Definition pk_in_line (pk : DmaPacket) : Prop :=
  0 < dk_size pk ∧ dk_addr pk mod dp_lineSize cfg + dk_size pk ≤ dp_lineSize cfg.
Lemma act_packets_region j a : 0 ≤ ac_size a → Forall pk_in_line (act_packets (dp_lineSize cfg) j a) ∧
  (act_packets (dp_lineSize cfg) j a ≫= fun pk => seqZ (dk_addr pk) (dk_size pk)) = seqZ (ac_addr a) (ac_size a).
Proof.
  intros Hs. destruct (pieces_ok (Z.to_nat (ac_size a)) (ac_addr a) (dp_lineSize cfg) (ac_addr a) (ac_size a)) as [H1 H2];
    [by eapply line_pos|lia..|]. unfold act_packets. split.
  - apply Forall_fmap. eapply Forall_impl; [exact H1|]. intros [[x s] o] (? & ? & _). done.
  - rewrite <-H2. generalize (pieces (Z.to_nat (ac_size a)) (ac_addr a) (ac_addr a) (ac_size a) (dp_lineSize cfg)).
    intros l. induction l as [|[[x s] o] l IH]; [done|]. cbn in *. by rewrite IH.
Qed.
End Sound.

Lemma finished_answered cfg acts p : core cfg acts p →
  finished_events (dp_states p) acts = omap id (imap (fun j a => if decide (answered p j) then ac_event a else None) acts).
Proof.
  intros []. unfold finished_events. f_equal. apply imap_ext. intros j a Hj. specialize (co_state0 j a Hj).
  destruct (sizes_of_zero j (pending p)) as [_ Hz]; [eapply Forall_impl; [exact co_pk0|]; by intros ? [_ ?]|].
  unfold act_state, status in *. destruct (dp_states p !! j) as [st|].
  - case_decide as Hans; [|done]. apply Hz in Hans. lia.
  - rewrite decide_True; [done|]. by apply Hz.
Qed.

(** C39: In timing mode, whatever actions of at least one byte are started and in whatever
    order send events, retries and responses come: each runs without failing, save the
    answer that completes an action whose completion event is still scheduled from an
    earlier action (or whose time lies past the 64-bit clock), which fails the assertion
    of [schedule]; the packets sent and still to
    be sent are, in order, those of the actions, each within a cache line and
    together the bytes of the action; while packets wait to be sent, a send event
    or a retry is due; an action's completion event has been scheduled, once, if
    and only if all its packets have been answered; and the port reports pending
    requests exactly while a packet is unanswered. *)
Theorem dma_port_sound cfg k acts p :
  0 ≤ k < 32 → dp_lineSize cfg = 2 ^ k → reached cfg acts p →
  (∀ env i, de_mode env = Timing → dma_enabled cfg p i →
     if completion_ok env acts p i then ∃ p', dma_input cfg env p i = Ok p' else dma_input cfg env p i = Err AssertFail) ∧
  dp_sent p ++ transmitList p = all_packets (dp_lineSize cfg) acts ∧
  (∀ j a, acts !! j = Some a → Forall (pk_in_line cfg) (act_packets (dp_lineSize cfg) j a) ∧
     (act_packets (dp_lineSize cfg) j a ≫= fun pk => seqZ (dk_addr pk) (dk_size pk)) = seqZ (ac_addr a) (ac_size a)) ∧
  (transmitList p ≠ [] → dma_enabled cfg p InSend ∨ dma_enabled cfg p InRetry) ∧
  fst <$> dp_completed p ≡ₚ omap id (imap (fun j a => if decide (answered p j) then ac_event a else None) acts) ∧
  (dmaPending p = false ↔ dp_wire p ++ transmitList p = []).
Proof.
  intros Hk Hline Hr. destruct (reached_core cfg k Hk Hline acts p Hr) as [HC HL]. split_and!.
  - intros env i Hm Hen. pose proof (input_core cfg k Hk Hline env acts p i HC HL Hm Hen) as H. case_match; [|done].
    destruct H as (p' & -> & _). eauto.
  - apply (co_order _ _ _ HC).
  - intros j a Hj. pose proof (proj1 (Forall_lookup _ _) (co_acts _ _ _ HC) j a Hj) as (_ & ? & _).
    apply (act_packets_region cfg k Hk Hline). lia.
  - exact HL.
  - rewrite <-(finished_answered cfg acts p HC). apply (co_done _ _ _ HC).
  - unfold dmaPending. rewrite (co_count _ _ _ HC). fold (pending p). rewrite Z.ltb_ge.
    destruct (pending p); cbn; split; (done || lia).
Qed.

(** ** Examples *)

Module DmaExample.
Definition cfg : DmaParams := mkDmaParams 64 0 0.
Definition yes : DmaEnv := mkDmaEnv 1000 1001 Timing (fun _ => true) (fun _ => 0) (fun _ => O).
Definition no : DmaEnv := mkDmaEnv 1000 1001 Timing (fun _ => false) (fun _ => 0) (fun _ => O).
Definition atomic : DmaEnv := mkDmaEnv 1000 1001 Atomic (fun _ => true) (fun _ => 30) (fun _ => O).
Definition read_ : Action := mkAction false 0x1030 100 (Some 7%nat) (Some 0x5000) 0 0 5.
Definition write_ : Action := mkAction true 0x2000 16 (Some 8%nat) (Some 0x6000) 0 0 0.
Definition script : list (DmaEnv * DmaInput) :=
  [(yes, InAction read_); (no, InSend); (yes, InAction write_); (yes, InRetry); (yes, InSend); (yes, InResp 1);
   (yes, InSend); (yes, InResp 2); (yes, InResp 0); (yes, InResp 0)].
Definition run (s : list (DmaEnv * DmaInput)) : outcome DmaPort :=
  foldM (fun p '(env, i) => dma_input cfg env p i) s DmaPort_new.
End DmaExample.

(** A read of 100 bytes from [0x1030] takes three packets; the write started behind it
    is answered first and completes first. *)
Example dma_runs :
  match DmaExample.run DmaExample.script with
  | Ok p => (fun pk => (dk_addr pk, dk_size pk, dk_data pk)) <$> dp_sent p =
      [(0x1030, 16, Some 0x5000); (0x1040, 64, Some 0x5010); (0x1080, 20, Some 0x5050); (0x2000, 16, Some 0x6000)] ∧
      dp_completed p = [(8%nat, 1000); (7%nat, 1005)] ∧ pendingCount p = 0
  | Err _ => False
  end.
Proof. vm_compute. auto. Qed.

(** In atomic mode the action is over when the call returns. *)
Example dma_atomic :
  match dma_input DmaExample.cfg DmaExample.atomic DmaPort_new (InAction DmaExample.read_) with
  | Ok p => dp_completed p = [(7%nat, 1035)] ∧ pendingCount p = 0 ∧ transmitList p = []
  | Err _ => False
  end.
Proof. vm_compute. auto. Qed.

(** An action of no bytes fails the assertion on the list, or sends another action's packet. *)
Example dma_empty_action :
  dma_input DmaExample.cfg DmaExample.yes DmaPort_new (InAction (mkAction true 0 0 None None 0 0 0)) = Err AssertFail.
Proof. vm_compute. reflexivity. Qed.

(** Two actions that share a completion event: the answer to the second fails while the
    event waits to run, and succeeds once it has run. *)
Example dma_shared_event :
  let a := mkAction true 0x2000 16 (Some 8%nat) None 0 0 0 in
  let s := [(DmaExample.yes, InAction a); (DmaExample.yes, InAction a); (DmaExample.yes, InResp 0)] in
  let fired := mkDmaEnv 2000 2001 Timing (fun _ => true) (fun _ => 0) (fun _ => 1%nat) in
  DmaExample.run (s ++ [(DmaExample.yes, InResp 0)]) = Err AssertFail ∧
  match DmaExample.run (s ++ [(fired, InResp 0)]) with Ok p => dp_completed p = [(8%nat, 1000); (8%nat, 2000)] | Err _ => False end.
Proof. vm_compute. auto. Qed.

Lemma dma_port_sound_witness :
  match dma_input DmaExample.cfg DmaExample.yes DmaPort_new (InAction DmaExample.read_) with
  | Ok p => transmitList p ≠ [] → sendEvent p ≠ None ∨ inRetry p = true
  | Err _ => False
  end.
Proof.
  destruct (dma_input DmaExample.cfg DmaExample.yes DmaPort_new (InAction DmaExample.read_)) as [p|] eqn:E.
  - refine (proj1 (proj2 (proj2 (proj2 (dma_port_sound DmaExample.cfg 6 [DmaExample.read_] p _ eq_refl _))))).
    + split; [discriminate|reflexivity].
    + apply (reached_input DmaExample.cfg [] DmaPort_new DmaExample.yes (InAction DmaExample.read_)).
      * constructor.
      * reflexivity.
      * split; [split; [discriminate|split; [split; reflexivity|reflexivity]]|reflexivity].
      * exact E.
  - vm_compute in E. discriminate E.
Defined.
