(* ===== verification/DmaSystem.v ===== *)
(** The DMA device of [NoncoherentDma] on its two DMA ports: the read and write
    actions of its FIFOs are cut into packets by [DmaPort], the packets are sent,
    refused, retried and answered one by one, and the completion event a port
    schedules is the [DmaDoneEvent] of the FIFO that asked for the action. *)
From stdpp Require Import gmap.
From S2P Require Import Prelude CircularQueue ByteFifo DmaEvents DmaReadFifo DmaWriteFifo NoncoherentDma NoncoherentDmaSpec DmaPort DmaPortSpec.

#[local] Open Scope Z_scope.

(** ** A port and the blocks its packets point into *)

(** [port.dmaAction(cmd, addr, size, event, event->data(), 0, flags)], with what the
    block [event->data()] holds. *)
Record DmaCall := mkDmaCall { dc_write : bool; dc_addr : Z; dc_block : list Z }.

(** An event is named by the number of the action it was reset for, and a pointer into
    its block by the offset. *)
Record Channel := mkChannel { ch_port : DmaPort; ch_blocks : gmap nat (list Z) }.
Definition Channel_new : Channel := mkChannel DmaPort_new ∅.

Section Channel.
Context (cfg : DmaParams) (env : DmaEnv).

(** The name of the event and the port afterwards.  The size is passed as an [int]. *)
Definition ch_call (ch : Channel) (c : DmaCall) : outcome (nat * Channel) :=
  let j := dp_nextState (ch_port ch) in
  let* p := dmaAction_default cfg env (ch_port ch) (dc_write c) (dc_addr c) (s32 (Z.of_nat (length (dc_block c))))
              (Some j) (Some 0) 0 in
  Ok (j, mkChannel p (<[j := dc_block c]> (ch_blocks ch))).

Fixpoint ch_calls (ch : Channel) (cs : list DmaCall) : outcome (list nat * Channel) :=
  match cs with
  | [] => Ok ([], ch)
  | c :: cs =>
      let* (j, ch) := ch_call ch c in
      let* (js, ch) := ch_calls ch cs in Ok (j :: js, ch)
  end.

(** [sendEvent] fires, and the peer asks for a retry. *)
Definition ch_send (ch : Channel) : outcome Channel :=
  let* p := dma_sendEvent env (ch_port ch) in Ok (mkChannel p (ch_blocks ch)).
Definition ch_retry (ch : Channel) : outcome Channel :=
  let* p := recvReqRetry env (ch_port ch) in Ok (mkChannel p (ch_blocks ch)).

(** The [i]-th packet on the wire is answered by memory [m], which copies between
    itself and the place the packet points at. *)
Definition ch_resp (ch : Channel) (i : nat) (m : Z → Z) : outcome (Channel * (Z → Z)) :=
  let p := ch_port ch in
  let* pk := vec_get (dp_wire p) i in
  let* b := deref (ch_blocks ch !! senderState pk) in
  let* o := deref (dk_data pk) in
  let* (b, m) :=
    (if dk_write pk then let* xs := mem_read b o (dk_size pk) in Ok (b, mem_put m (dk_addr pk) xs)
     else let* b := mem_write b o (bytes m (dk_addr pk) (dk_size pk)) in Ok (b, m)) in
  let p := dp_set_send p (transmitList p) (delete i (dp_wire p)) (dp_sent p) (sendEvent p) (inRetry p) in
  let* p := recvTimingResp env p pk true in
  Ok (mkChannel p (<[senderState pk := b]> (ch_blocks ch)), m).
End Channel.

(** ** The device on its ports *)

(** [ds_rids] and [ds_wids] name the events of the requests in flight of the active read
    and write FIFO, in the order of [pendingRequests]. *)
Record DmaSys := mkDmaSys {
  ds_dev : NoncoherentDma;
  ds_memCh : Channel;
  ds_accCh : Channel;
  ds_rids : list nat;
  ds_wids : list nat;
  ds_memory : Z → Z;
}.

Definition the_ch (c : DmaSys) (s : Side) : Channel := match s with MemSide => ds_memCh c | AccSide => ds_accCh c end.
Definition set_ch (c : DmaSys) (s : Side) (ch : Channel) : DmaSys :=
  mkDmaSys (ds_dev c) (match s with MemSide => ch | AccSide => ds_memCh c end)
    (match s with MemSide => ds_accCh c | AccSide => ch end) (ds_rids c) (ds_wids c) (ds_memory c).
Definition set_memory (c : DmaSys) (m : Z → Z) : DmaSys :=
  mkDmaSys (ds_dev c) (ds_memCh c) (ds_accCh c) (ds_rids c) (ds_wids c) m.

Definition read_call (a : RdAction) : DmaCall := mkDmaCall false (ra_addr a) (replicate (Z.to_nat (ra_size a)) 0).
Definition write_call (a : DmaAction) : DmaCall := mkDmaCall true (da_addr a) (da_data a).

(** The requests in flight of the active FIFOs. *)
Definition rd_pend (d : NoncoherentDma) : list DmaDoneEvent :=
  match readFifo d with Some s => DmaReadFifo.pendingRequests (the_readFifo d s) | None => [] end.
Definition wr_pend (d : NoncoherentDma) : list DmaDoneEvent :=
  match writeFifo d with Some s => DmaWriteFifo.pendingRequests (the_writeFifo d s) | None => [] end.

(** The names of [n] requests in flight, once [new] ones were added behind. *)
Definition retire (names new : list nat) (n : nat) : list nat := drop (length names + length new - n) names ++ new.

Section System.
Context (p : NDParams) (cfg : DmaParams) (env : Side → DmaEnv).

Fixpoint issue_calls (c : DmaSys) (l : list (Side * DmaCall)) : outcome (list nat * DmaSys) :=
  match l with
  | [] => Ok ([], c)
  | (s, x) :: l =>
      let* (j, ch) := ch_call cfg (env s) (the_ch c s) x in
      let* (js, c) := issue_calls (set_ch c s ch) l in Ok (j :: js, c)
  end.

(** The device has moved on to [d]: the actions it asked for meanwhile go to the ports,
    those of the read FIFOs before those of the write FIFOs as in [tick]. *)
Definition ds_device (c : DmaSys) (d : NoncoherentDma) : outcome DmaSys :=
  let rds := drop (length (rd_log (ds_dev c))) (rd_log d) in
  let wrs := drop (length (wr_log (ds_dev c))) (wr_log d) in
  let* (rs, c) := issue_calls c ((fun '(s, a) => (s, read_call a)) <$> rds) in
  let* (ws, c) := issue_calls c ((fun '(s, a) => (s, write_call a)) <$> wrs) in
  Ok (mkDmaSys d (ds_memCh c) (ds_accCh c) (retire (ds_rids c) rs (length (rd_pend d)))
        (retire (ds_wids c) ws (length (wr_pend d))) (ds_memory c)).

(** Events: the tick of the device; on a side, the completion event [e], the send event,
    a retry and the answer to a packet. *)
Inductive SysEvent :=
| SysTick
| SysDone (s : Side) (e : nat)
| SysSend (s : Side)
| SysRetry (s : Side)
| SysResp (s : Side) (i : nat).

(** The request whose event is [e]: of the write FIFO or not, and its position. *)
Definition find_name (names : list nat) (e : nat) : option nat := fst <$> list_find (eq e) names.
Definition find_request (c : DmaSys) (s : Side) (e : nat) : option (bool * nat) :=
  match (if decide (readFifo (ds_dev c) = Some s) then find_name (ds_rids c) e else None) with
  | Some i => Some (false, i)
  | None => pair true <$> (if decide (writeFifo (ds_dev c) = Some s) then find_name (ds_wids c) e else None)
  end.

(** The event has been scheduled and not run. *)
Definition event_due (c : DmaSys) (s : Side) (e : nat) : bool :=
  bool_decide (e ∈ fst <$> dp_completed (ch_port (the_ch c s))) &&
  match find_request c s e with
  | Some (false, i) => is_undone (rd_pend (ds_dev c)) i
  | Some (true, i) => is_undone (wr_pend (ds_dev c)) i
  | None => false
  end.

Definition sys_enabled (c : DmaSys) (e : SysEvent) : bool :=
  match e with
  | SysTick => tickScheduled (ds_dev c)
  | SysDone s e => event_due c s e
  | SysSend s => match sendEvent (ch_port (the_ch c s)) with Some _ => true | None => false end
  | SysRetry s => inRetry (ch_port (the_ch c s))
  | SysResp s i => Nat.ltb i (length (dp_wire (ch_port (the_ch c s))))
  end.

(** [DmaDoneEvent::process] of the request. *)
Definition run_done (c : DmaSys) (s : Side) (e : nat) : outcome DmaSys :=
  let d := ds_dev c in
  match find_request c s e with
  | Some (false, i) =>
      let* b := deref (ch_blocks (the_ch c s) !! e) in
      let* (f, acts) := DmaReadFifo.process (nd_sys p) (the_readFifo d s) i b in
      ds_device c (set_readFifo d s f acts)
  | Some (true, i) =>
      let* (f, acts) := DmaWriteFifo.process (nd_sys p) (the_writeFifo d s) i in
      ds_device c (set_writeFifo d s f acts)
  | None => Ok c
  end.

(** An event that cannot happen does nothing. *)
Definition sys_event (c : DmaSys) (e : SysEvent) : outcome DmaSys :=
  if negb (sys_enabled c e) then Ok c else
  match e with
  | SysTick => let* d := nd_tick p (ds_dev c) in ds_device c d
  | SysDone s e => run_done c s e
  | SysSend s => let* ch := ch_send (env s) (the_ch c s) in Ok (set_ch c s ch)
  | SysRetry s => let* ch := ch_retry (env s) (the_ch c s) in Ok (set_ch c s ch)
  | SysResp s i =>
      let* (ch, m) := ch_resp (env s) (the_ch c s) i (ds_memory c) in Ok (set_memory (set_ch c s ch) m)
  end.

(** The event brings the transfer forward: a tick that moves bytes or ends the transfer, a
    completion, an answer, or a packet that is accepted. *)
Definition sys_effective (c : DmaSys) (e : SysEvent) : bool :=
  sys_enabled c e &&
  match e with
  | SysTick => nd_enabled p (mkNDEnv (ds_dev c) [] [] (ds_memory c)) NTick
  | SysDone _ _ | SysResp _ _ => true
  | SysSend s | SysRetry s =>
      match transmitList (ch_port (the_ch c s)) with pk :: _ => de_accepts (env s) pk | [] => false end
  end.
End System.

(** A run, and the number of its events that were effective. *)
Fixpoint sys_run (p : NDParams) (cfg : DmaParams) (c : DmaSys) (es : list ((Side → DmaEnv) * SysEvent))
    : outcome (DmaSys * nat) :=
  match es with
  | [] => Ok (c, O)
  | (env, e) :: es =>
      let n := if sys_effective p env c e then 1%nat else O in
      let* c := sys_event p cfg env c e in
      let* (c, k) := sys_run p cfg c es in Ok (c, (n + k)%nat)
  end.
