(* ===== verification/DmaChannel.v ===== *)
(** A DMA port together with the blocks its packets point into: which bytes of an
    action are still to be answered, and what a call, a send and a response do. *)
From stdpp Require Import gmap.
From S2P Require Import Prelude IntMath DmaEvents NoncoherentDma NoncoherentDmaSpec DmaPort DmaPortSpec DmaSystem.

#[local] Open Scope Z_scope.

(** ** Packets in flight *)

(** Byte [o] of action [j] is in a packet of [ps]. *)
Definition open_at (ps : list DmaPacket) (j : nat) (o : Z) : Prop :=
  ∃ pk d, pk ∈ ps ∧ senderState pk = j ∧ dk_data pk = Some d ∧ d ≤ o < d + dk_size pk.

#[export] Instance open_at_perm : Proper ((≡ₚ) ==> eq ==> eq ==> iff) open_at.
Proof.
  intros ps qs H j ? <- o ? <-. unfold open_at.
  split; intros (pk & d & Hin & ?); exists pk, d; (split; [|done]); by rewrite H in * || by rewrite <-H in *.
Qed.

Lemma answered_pending p j : answered p j ↔ Forall (fun pk => senderState pk ≠ j) (pending p).
Proof. done. Qed.
Lemma answered_closed p j o : answered p j → ¬ open_at (pending p) j o.
Proof.
  rewrite answered_pending, Forall_forall. intros H (pk & d & Hin & E & _). by apply (H pk).
Qed.
Lemma unanswered_packet p j : ¬ answered p j → ∃ pk, pk ∈ pending p ∧ senderState pk = j.
Proof.
  rewrite answered_pending. intros H. apply not_Forall_Exists, Exists_exists in H as (pk & Hin & E); [|apply _].
  exists pk. split; [done|]. by destruct (decide (senderState pk = j)).
Qed.

(** Twice the packets to send and the packets on the wire: what is left to do. *)
Definition weight (p : DmaPort) : nat := (2 * length (transmitList p) + length (dp_wire p))%nat.

(** ** Packets of an action *)

Lemma pieces_in c a len x s o : 0 < c → 0 ≤ len → (x, s, o) ∈ pieces (Z.to_nat len) a a len c →
  0 < s ∧ o = x - a ∧ a ≤ x ∧ x + s ≤ a + len.
Proof.
  intros Hc Hl Hin. destruct (pieces_ok (Z.to_nat len) a c a len) as [H1 H2]; [done..|].
  rewrite Forall_forall in H1. specialize (H1 _ Hin) as (Hs & _ & Ho). cbn in Hs, Ho.
  assert (∀ y, x ≤ y < x + s → a ≤ y < a + len) as Hsub.
  { intros y Hy. apply elem_of_seqZ. rewrite <-H2. apply list_elem_of_bind. exists (x, s, o).
    split; [by apply elem_of_seqZ|done]. }
  pose proof (Hsub x ltac:(lia)). pose proof (Hsub (x + s - 1) ltac:(lia)). split_and!; lia.
Qed.
Lemma pieces_cover c a len y : 0 < c → 0 ≤ len → a ≤ y < a + len →
  ∃ x s o, (x, s, o) ∈ pieces (Z.to_nat len) a a len c ∧ x ≤ y < x + s.
Proof.
  intros Hc Hl Hy. destruct (pieces_ok (Z.to_nat len) a c a len) as [_ H2]; [done..|].
  apply elem_of_seqZ in Hy. rewrite <-H2 in Hy. apply list_elem_of_bind in Hy as ([[x s] o] & Hy & Hin).
  apply elem_of_seqZ in Hy. eauto.
Qed.

Section Chan.
Context (cfg : DmaParams) (k : Z).
Hypothesis Hk : 0 ≤ k < 32.
Hypothesis Hline : dp_lineSize cfg = 2 ^ k.

(** An action as the FIFOs ask for it. *)
Definition call_action (j : nat) (c : DmaCall) : Action :=
  mkAction (dc_write c) (dc_addr c) (Z.of_nat (length (dc_block c))) (Some j) (Some 0) (defaultSid cfg) (defaultSSid cfg) 0.

Record chan_ok (acts : list Action) (ch : Channel) : Prop := {
  ck_reached : reached cfg acts (ch_port ch);
  ck_named : ∀ j a, acts !! j = Some a → ac_event a = Some j ∧ ac_data a = Some 0;
  ck_block : ∀ j a, acts !! j = Some a → ∃ b, ch_blocks ch !! j = Some b ∧ Z.of_nat (length b) = ac_size a;
  ck_delay : ∀ j a, acts !! j = Some a → answered (ch_port ch) j ∨ ac_delay a = 0;
}.

Lemma chan_core acts ch : chan_ok acts ch → core cfg acts (ch_port ch) ∧ live (ch_port ch).
Proof. intros [Hr _ _ _]. by apply (reached_core cfg k Hk Hline). Qed.

(** The port can be used for a transfer: nothing is in flight. *)
Definition chan_idle (ch : Channel) : Prop := ∃ acts, chan_ok acts ch ∧ pending (ch_port ch) = [].

Lemma chan_new : chan_idle Channel_new.
Proof. exists []. split; [|done]. split; [constructor|by intros ? ? ?..]. Qed.

Lemma trySend_inv env p p' : trySendTimingReq env p = Ok p' →
  dp_wire p ⊆ dp_sent p → dp_wire p' ⊆ dp_sent p' ∧ pending p' ≡ₚ pending p ∧ dp_completed p' = dp_completed p ∧
  weight p = (weight p' + match transmitList p with pk :: _ => if de_accepts env pk then 1 else 0 | [] => 0 end)%nat.
Proof.
  unfold trySendTimingReq. intros H Hw. destruct (transmitList p) as [|pk l] eqn:El; [done|].
  unfold pending, weight. rewrite El. destruct (de_accepts env pk).
  - assert (∃ e, p' = dp_set_send p l (dp_wire p ++ [pk]) (dp_sent p ++ [pk]) e false) as [e ->].
    { destruct l; mon; eauto. }
    cbn [dp_set_send transmitList dp_wire dp_sent dp_completed]. split_and!; [set_solver|by rewrite <-app_assoc|done|].
    rewrite length_app. cbn [length]. lia.
  - injection H as <-. cbn [dp_set_send transmitList dp_wire dp_sent dp_completed]. split_and!; try done; cbn [length]; lia.
Qed.

Lemma sendDma_inv env p p' : sendDma env p = Ok p' → de_mode env = Timing → dp_wire p ⊆ dp_sent p →
  dp_wire p' ⊆ dp_sent p' ∧ pending p' ≡ₚ pending p ∧ dp_completed p' = dp_completed p ∧ (weight p' ≤ weight p)%nat.
Proof.
  unfold sendDma. intros H Hm Hw. mon. rewrite Hm in H. destruct (_ || _); [by injection H as <-|].
  destruct (trySend_inv env p p' H Hw) as (? & ? & ? & ?). split_and!; try done. lia.
Qed.

Lemma resp_inv env p i p' : dma_input cfg env p (InResp i) = Ok p' → dp_wire p ⊆ dp_sent p →
  ∃ pk, dp_wire p !! i = Some pk ∧ dp_wire p' = delete i (dp_wire p) ∧ transmitList p' = transmitList p ∧
    dp_sent p' = dp_sent p.
Proof.
  cbn [dma_input]. unfold recvTimingResp, handleResp, dma_schedule. intros H Hw. mon. unfold vec_get in H0.
  destruct (dp_wire p !! i) as [pk|] eqn:Ei; [|done]. injection H0 as <-. exists pk. split; [done|].
  assert (dp_wire x4 = delete i (dp_wire p) ∧ transmitList x4 = transmitList p ∧ dp_sent x4 = dp_sent p) as (? & ? & ?).
  { destruct (_ =? _) in H5; mon; [destruct (completionEvent x1); mon|]; done. }
  by destruct (pendingCount x4 =? 0).
Qed.

Lemma wire_sent acts p : reached cfg acts p → dp_wire p ⊆ dp_sent p.
Proof.
  induction 1 as [|acts p env i p' Hr IH Hm Hen Hin]; [done|].
  destruct (reached_core cfg k Hk Hline acts p Hr) as [HC _]. destruct i as [a| | |i].
  - destruct Hen as [Hok Hc]. rewrite (dmaAction_started cfg k) in Hin by (done || rewrite (co_count _ _ _ HC); lia).
    by apply sendDma_inv in Hin as [? _].
  - by apply sendDma_inv in Hin as [? _].
  - cbn [dma_input] in Hin. unfold recvReqRetry in Hin. mon. by apply trySend_inv in Hin as [? _].
  - apply resp_inv in Hin as (pk & Hi & -> & _ & ->); [|done]. intros x Hx. apply IH.
    rewrite (delete_Permutation _ _ _ Hi). by right.
Qed.

(** Where a packet in flight points. *)
Lemma packet_action acts ch pk : chan_ok acts ch → pk ∈ pending (ch_port ch) →
  ∃ a d, acts !! senderState pk = Some a ∧ dk_write pk = ac_write a ∧ dk_data pk = Some d ∧ dk_addr pk = ac_addr a + d ∧
    0 ≤ d ∧ 0 < dk_size pk ∧ d + dk_size pk ≤ ac_size a.
Proof.
  intros Hch Hin. destruct (chan_core acts ch Hch) as [HC _].
  assert (pk ∈ all_packets (dp_lineSize cfg) acts) as Hall.
  { rewrite <-(co_order _ _ _ HC). apply elem_of_app in Hin as [Hin|Hin]; apply elem_of_app; [left|by right].
    by apply (wire_sent acts _ (ck_reached _ _ Hch)). }
  unfold all_packets in Hall. apply list_elem_of_In, in_concat in Hall as (l & Hl%list_elem_of_In & Hpk%list_elem_of_In).
  apply list_elem_of_lookup in Hl as [j Hj]. rewrite list_lookup_imap in Hj.
  destruct (acts !! j) as [a|] eqn:Ea; [|done]. injection Hj as <-. unfold act_packets in Hpk.
  apply list_elem_of_fmap in Hpk as ([[x s] o] & -> & Hp). cbn.
  pose proof (proj1 (Forall_lookup _ _) (co_acts _ _ _ HC) j a Ea) as (Ha & Hs & Hb).
  apply pieces_in in Hp as (H1 & -> & H2 & H3); [|by eapply line_pos|lia].
  destruct (ck_named _ _ Hch j a Ea) as [_ Hd]. rewrite Hd. exists a, (x - ac_addr a). cbn.
  rewrite wrapU_id by (split; lia). split_and!; try done; lia.
Qed.

(** Every byte of a new action is in a packet. *)
Lemma action_open j c o : 0 ≤ o < Z.of_nat (length (dc_block c)) → Z.of_nat (length (dc_block c)) < 2 ^ 31 →
  open_at (act_packets (dp_lineSize cfg) j (call_action j c)) j o.
Proof.
  intros Ho Hb. destruct (pieces_cover (dp_lineSize cfg) (dc_addr c) (Z.of_nat (length (dc_block c))) (dc_addr c + o))
    as (x & s & o' & Hin & Hx); [by eapply line_pos|lia..|].
  pose proof Hin as (Hs & -> & Hlo & Hhi)%pieces_in; [|by eapply line_pos|lia].
  exists (mkDmaPacket (dc_write c) x s (Some (x - dc_addr c)) (defaultSid cfg) (defaultSSid cfg) j), (x - dc_addr c).
  cbn. split_and!; try done; try lia. unfold act_packets, call_action. cbn. apply list_elem_of_fmap.
  exists (x, s, x - dc_addr c). split; [|done]. by rewrite wrapU_id by (split; lia).
Qed.

(** ** Steps *)

Definition calls_size (cs : list DmaCall) : nat := sum_list_with (fun c => length (dc_block c)) cs.

(** An action asked for: a new name, whose bytes are all open. *)
Record called (acts : list Action) (ch : Channel) (cs : list DmaCall) (js : list nat) (ch' : Channel) : Prop := {
  cd_ok : chan_ok (acts ++ zip_with call_action js cs) ch';
  cd_names : js = seq (length acts) (length cs);
  cd_pending : pending (ch_port ch') ≡ₚ pending (ch_port ch) ++ concat (zip_with (fun j c => act_packets (dp_lineSize cfg) j (call_action j c)) js cs);
  cd_blocks : ∀ j, (j < length acts)%nat → ch_blocks ch' !! j = ch_blocks ch !! j;
  cd_new : Forall2 (fun j c => ch_blocks ch' !! j = Some (dc_block c)) js cs;
  cd_weight : Z.of_nat (weight (ch_port ch')) ≤ Z.of_nat (weight (ch_port ch)) + 2 * Z.of_nat (calls_size cs);
}.

Definition call_ok (c : DmaCall) : Prop := act_ok cfg (call_action 0 c).

Lemma ch_call_ok env acts ch c : chan_ok acts ch → de_mode env = Timing → call_ok c →
  pendingCount (ch_port ch) + Z.of_nat (length (dc_block c)) < 2 ^ 32 →
  ∃ ch', ch_call cfg env ch c = Ok (length acts, ch') ∧ called acts ch [c] [length acts] ch'.
Proof.
  intros Hch Hm Hok Hc. destruct (chan_core acts ch Hch) as [HC HL]. set (p := ch_port ch) in *. set (j := length acts).
  assert (dma_enabled cfg p (InAction (call_action j c))) as Hen by done.
  destruct (input_core cfg k Hk Hline env acts p _ HC HL Hm Hen) as (p' & Hin & HC' & _).
  pose proof Hok as (Ha & Hs & Hb). cbn in Ha, Hs, Hb.
  pose proof Hin as Hin2. rewrite (dmaAction_started cfg k) in Hin2 by (done || rewrite (co_count _ _ _ HC); lia).
  apply sendDma_inv in Hin2 as (_ & Hp & _ & Hw); [|done|exact (wire_sent acts p (ck_reached _ _ Hch))].
  exists (mkChannel p' (<[j := dc_block c]> (ch_blocks ch))). split.
  - unfold ch_call. fold p. rewrite (co_next _ _ _ HC). rewrite wrapS_id by (lia || split; lia).
    unfold dmaAction_default. change (dmaAction _ _ _ _ _ _ _ _ _ _ _) with (dma_input cfg env p (InAction (call_action j c))).
    rewrite Hin. done.
  - split; cbn [zip_with ch_port ch_blocks concat]; rewrite ?app_nil_r; [split; cbn [ch_port ch_blocks]|..]; try done.
    + by apply (reached_input cfg acts p env (InAction (call_action j c))); [apply Hch|..].
    + intros i a [Hi|[? Hi]]%lookup_app_Some; [by apply (ck_named _ _ Hch)|].
      apply list_lookup_singleton_Some in Hi as [Hi <-]. split; [|done]. cbn. f_equal. unfold j. lia.
    + intros i a [Hi|[? Hi]]%lookup_app_Some.
      * rewrite lookup_insert_ne; [by apply (ck_block _ _ Hch)|]. apply lookup_lt_Some in Hi. unfold j. lia.
      * apply list_lookup_singleton_Some in Hi as [Hi <-]. assert (i = j) as -> by (unfold j; lia).
        exists (dc_block c). by rewrite lookup_insert_eq.
    + intros i a [Hi|[? Hi]]%lookup_app_Some; [|right; by apply list_lookup_singleton_Some in Hi as [_ <-]].
      destruct (ck_delay _ _ Hch i a Hi) as [Hans|]; [left|by right]. unfold answered. fold (pending p'). rewrite Hp.
      unfold pending, started. cbn [transmitList dp_wire]. rewrite (co_next _ _ _ HC), app_assoc. apply Forall_app. split; [done|].
      apply Forall_fmap, Forall_forall. intros [[? ?] ?] _. cbn. apply lookup_lt_Some in Hi. unfold j. lia.
    + rewrite Hp. unfold pending, started. cbn [transmitList dp_wire]. rewrite (co_next _ _ _ HC). by rewrite app_assoc.
    + intros i Hi. by rewrite lookup_insert_ne by (unfold j; lia).
    + constructor; [apply lookup_insert_eq|constructor].
    + pose proof (act_packets_length (dp_lineSize cfg) j (call_action j c) ltac:(by eapply line_pos) ltac:(cbn; lia)) as Hlen.
      unfold weight, started in *. cbn [transmitList dp_wire] in Hw. rewrite (co_next _ _ _ HC), length_app in Hw.
      fold j in Hw. cbn [calls_size sum_list_with]. cbn in Hlen. fold p. lia.
Qed.

Lemma called_nil acts ch : chan_ok acts ch → called acts ch [] [] ch.
Proof. intros H. split; cbn; rewrite ?app_nil_r; try done; lia. Qed.

Lemma called_cons acts ch c ch1 cs js ch' : called acts ch [c] [length acts] ch1 →
  called (acts ++ [call_action (length acts) c]) ch1 cs js ch' → called acts ch (c :: cs) (length acts :: js) ch'.
Proof.
  intros [H1 _ P1 B1 N1 W1] [H2 E2 P2 B2 N2 W2]. rewrite length_app in *. cbn [length zip_with calls_size sum_list_with concat] in *.
  rewrite Nat.add_1_r in *. split; cbn [length zip_with calls_size sum_list_with concat].
  - by rewrite <-app_assoc in H2.
  - by rewrite E2.
  - by rewrite P2, P1, app_nil_r, app_assoc.
  - intros j Hj. rewrite B2, B1 by lia. done.
  - constructor; [|done]. apply Forall2_cons in N1 as [N1 _]. by rewrite B2 by lia.
  - unfold calls_size in *. cbn in *. lia.
Qed.

Lemma ch_calls_ok env cs : ∀ acts ch, chan_ok acts ch → de_mode env = Timing → Forall call_ok cs →
  pendingCount (ch_port ch) + Z.of_nat (calls_size cs) < 2 ^ 32 →
  ∃ js ch', ch_calls cfg env ch cs = Ok (js, ch') ∧ called acts ch cs js ch' ∧
    pendingCount (ch_port ch') ≤ pendingCount (ch_port ch) + Z.of_nat (calls_size cs).
Proof.
  induction cs as [|c cs IH]; intros acts ch Hch Hm Hcs Hb; cbn [ch_calls].
  { exists [], ch. split_and!; [done|by apply called_nil|cbn; lia]. }
  apply Forall_cons in Hcs as [Hc Hcs]. cbn [calls_size sum_list_with] in *. fold (calls_size cs) in *.
  destruct (ch_call_ok env acts ch c Hch Hm Hc ltac:(lia)) as (ch1 & -> & H1). cbn [mbind outcome_bind].
  assert (pendingCount (ch_port ch1) ≤ pendingCount (ch_port ch) + Z.of_nat (length (dc_block c))) as Hcnt.
  { destruct (chan_core _ _ Hch) as [HC _]. destruct (chan_core _ _ (cd_ok _ _ _ _ _ H1)) as [HC1 _].
    rewrite (co_count _ _ _ HC), (co_count _ _ _ HC1), (cd_pending _ _ _ _ _ H1), length_app. cbn. rewrite app_nil_r.
    pose proof Hc as (_ & ? & _). cbn in *.
    pose proof (act_packets_length (dp_lineSize cfg) (length acts) (call_action (length acts) c) ltac:(by eapply line_pos) ltac:(cbn; lia)) as Hlen.
    cbn in Hlen. lia. }
  destruct (IH (acts ++ [call_action (length acts) c]) ch1 (cd_ok _ _ _ _ _ H1) Hm Hcs ltac:(lia)) as (js & ch' & -> & H2 & Hle).
  cbn [mbind outcome_bind]. exists (length acts :: js), ch'. split_and!; [done|by eapply called_cons|lia].
Qed.

(** What was in flight before stays as it was. *)
Lemma called_old acts ch cs js ch' j : called acts ch cs js ch' → (j < length acts)%nat →
  (answered (ch_port ch') j ↔ answered (ch_port ch) j) ∧
  (∀ o, open_at (pending (ch_port ch')) j o ↔ open_at (pending (ch_port ch)) j o).
Proof.
  clear k Hk Hline. intros [_ -> Hp _ _ _] Hj.
  assert (∀ pk, pk ∈ concat (zip_with (fun j c => act_packets (dp_lineSize cfg) j (call_action j c)) (seq (length acts) (length cs)) cs) →
    senderState pk ≠ j) as Hne.
  { intros pk Hpk. apply list_elem_of_In, in_concat in Hpk as (l & Hl%list_elem_of_In & Hpk%list_elem_of_In).
    apply list_elem_of_lookup in Hl as [i Hi]. rewrite lookup_zip_with in Hi.
    destruct (seq _ _ !! i) as [j'|] eqn:Ej; [|done]. destruct (cs !! i); [|done]. injection Hi as <-.
    apply lookup_seq in Ej as [-> _]. unfold act_packets in Hpk. apply list_elem_of_fmap in Hpk as ([[? ?] ?] & -> & _). cbn. lia. }
  split.
  - rewrite !answered_pending, Hp, Forall_app. split; [by intros [? _]|]. intros H. split; [done|].
    by apply Forall_forall.
  - intros o. rewrite Hp. split; intros (pk & d & Hin & ?); exists pk, d; (split; [|done]).
    + apply elem_of_app in Hin as [?|Hin]; [done|]. exfalso. apply (Hne pk Hin). naive_solver.
    + apply elem_of_app. by left.
Qed.

(** The bytes of what was asked for are open. *)
Lemma called_new acts ch cs js ch' i j c : called acts ch cs js ch' → js !! i = Some j → cs !! i = Some c → call_ok c →
  ch_blocks ch' !! j = Some (dc_block c) ∧ (acts ++ zip_with call_action js cs) !! j = Some (call_action j c) ∧
  (∀ o, 0 ≤ o < Z.of_nat (length (dc_block c)) → open_at (pending (ch_port ch')) j o).
Proof.
  intros [_ Ej Hp _ Hn _] Hj Hc (_ & Hs & _). cbn in Hs. split_and!.
  - by apply (Forall2_lookup_lr _ _ _ _ _ _ Hn Hj Hc).
  - pose proof Hj as Hj2. rewrite Ej in Hj2. apply lookup_seq in Hj2 as [Ej2 _].
    rewrite lookup_app_r by lia. replace (j - length acts)%nat with i by lia. rewrite lookup_zip_with, Hj, Hc. done.
  - intros o Ho. rewrite Hp. destruct (action_open j c o Ho ltac:(lia)) as (pk & d & Hin & ?). exists pk, d.
    split; [|done]. apply elem_of_app. right. apply list_elem_of_In, in_concat.
    exists (act_packets (dp_lineSize cfg) j (call_action j c)). split; [|by apply list_elem_of_In].
    apply list_elem_of_In, list_elem_of_lookup. exists i. by rewrite lookup_zip_with, Hj, Hc.
Qed.

(** Sending moves packets from the list to the wire. *)
Record sent_on (acts : list Action) (ch ch' : Channel) (n : nat) : Prop := {
  so_ok : chan_ok acts ch';
  so_pending : pending (ch_port ch') ≡ₚ pending (ch_port ch);
  so_blocks : ch_blocks ch' = ch_blocks ch;
  so_weight : weight (ch_port ch) = (weight (ch_port ch') + n)%nat;
}.

Definition accepts (env : DmaEnv) (p : DmaPort) : nat :=
  match transmitList p with pk :: _ => if de_accepts env pk then 1 else 0 | [] => 0 end.

Lemma chan_step env acts ch i p' : chan_ok acts ch → de_mode env = Timing → dma_enabled cfg (ch_port ch) i → acts_of i = [] →
  dma_input cfg env (ch_port ch) i = Ok p' → pending p' ⊆ pending (ch_port ch) → ∀ bs, (∀ j b, ch_blocks ch !! j = Some b → ∃ b', bs !! j = Some b' ∧ length b' = length b) →
  chan_ok acts (mkChannel p' bs).
Proof.
  intros [Hr Hn Hb Hd] Hm Hen Hi Hin Hsub bs Hbs. split; [|done| |].
  3:{ intros j a Hj. destruct (Hd j a Hj) as [Hans|]; [left|by right]. unfold answered in *. rewrite Forall_forall in *.
      intros pk Hpk. by apply Hans, Hsub. }
  - rewrite <-(app_nil_r acts), <-Hi. by eapply reached_input.
  - intros j a Hj. destruct (Hb j a Hj) as (b & H1 & H2). destruct (Hbs j b H1) as (b' & ? & E). exists b'. by rewrite E.
Qed.

Lemma ch_send_ok env acts ch : chan_ok acts ch → de_mode env = Timing → sendEvent (ch_port ch) ≠ None →
  ∃ ch', ch_send env ch = Ok ch' ∧ sent_on acts ch ch' (accepts env (ch_port ch)).
Proof.
  intros Hch Hm Hen. destruct (chan_core acts ch Hch) as [HC HL].
  destruct (input_core cfg k Hk Hline env acts (ch_port ch) InSend HC HL Hm Hen) as (p' & Hin & _).
  exists (mkChannel p' (ch_blocks ch)). unfold ch_send. cbn [dma_input] in Hin. rewrite Hin. split; [done|].
  pose proof Hin as Hin2. unfold dma_sendEvent, sendDma in Hin2. mon. rewrite Hm in Hin2. cbn [inRetry dp_set_send sendEvent] in Hin2.
  rewrite (co_excl _ _ _ HC Hen) in Hin2. cbn [orb] in Hin2.
  destruct (trySend_inv _ _ _ Hin2) as (_ & Hp & _ & Hw); [exact (wire_sent acts _ (ck_reached _ _ Hch))|].
  split; [|exact Hp|done|exact Hw]. eapply (chan_step env acts ch InSend); try done; [|eauto]. intros y Hy. by rewrite Hp in Hy.
Qed.

Lemma ch_retry_ok env acts ch : chan_ok acts ch → de_mode env = Timing → inRetry (ch_port ch) = true →
  ∃ ch', ch_retry env ch = Ok ch' ∧ sent_on acts ch ch' (accepts env (ch_port ch)).
Proof.
  intros Hch Hm Hen. destruct (chan_core acts ch Hch) as [HC HL].
  destruct (input_core cfg k Hk Hline env acts (ch_port ch) InRetry HC HL Hm Hen) as (p' & Hin & _).
  exists (mkChannel p' (ch_blocks ch)). unfold ch_retry. cbn [dma_input] in Hin. rewrite Hin. split; [done|].
  pose proof Hin as Hin2. unfold recvReqRetry in Hin2. mon.
  destruct (trySend_inv _ _ _ Hin2) as (_ & Hp & _ & Hw); [exact (wire_sent acts _ (ck_reached _ _ Hch))|].
  split; [|exact Hp|done|exact Hw]. eapply (chan_step env acts ch InRetry); try done; [|eauto]. intros y Hy. by rewrite Hp in Hy.
Qed.

(** ** Responses *)

(** What an answered packet changes: for a read the bytes of the block it points at, for a
    write those of memory. *)
Record resp_on (acts : list Action) (ch : Channel) (m : Z → Z) (ch' : Channel) (m' : Z → Z) : Prop := {
  ro_ok : chan_ok acts ch';
  ro_weight : weight (ch_port ch) = S (weight (ch_port ch'));
  ro_packet : ∃ pk a d b b', pending (ch_port ch) ≡ₚ pk :: pending (ch_port ch') ∧ acts !! senderState pk = Some a ∧
    dk_data pk = Some d ∧ 0 ≤ d ∧ 0 < dk_size pk ∧ d + dk_size pk ≤ ac_size a ∧
    ch_blocks ch !! senderState pk = Some b ∧ Z.of_nat (length b) = ac_size a ∧
    ch_blocks ch' = <[senderState pk := b']> (ch_blocks ch) ∧
    if ac_write a then b' = b ∧ m' = mem_put m (ac_addr a + d) (take (Z.to_nat (dk_size pk)) (drop (Z.to_nat d) b))
    else m' = m ∧ mem_write b d (bytes m (ac_addr a + d) (dk_size pk)) = Ok b';
}.

(** The events a port has scheduled are those of the actions all answered. *)
Lemma completed_answered acts ch j : chan_ok acts ch → (j < length acts)%nat →
  j ∈ fst <$> dp_completed (ch_port ch) ↔ answered (ch_port ch) j.
Proof.
  intros Hch Hj. destruct (chan_core acts ch Hch) as [HC _]. rewrite (co_done _ _ _ HC), (finished_answered cfg acts _ HC).
  rewrite list_elem_of_omap. split.
  - intros (o & Ho & Eo). cbn in Eo. subst o. apply list_elem_of_lookup in Ho as [i Hi]. rewrite list_lookup_imap in Hi.
    destruct (acts !! i) as [a|] eqn:Ea; [|done]. cbn in Hi. destruct (ck_named _ _ Hch i a Ea) as [En _]. rewrite En in Hi.
    case_decide; [|done]. by injection Hi as ->.
  - intros Hans. destruct (lookup_lt_is_Some_2 acts j Hj) as [a Ha]. exists (Some j). split; [|done].
    apply list_elem_of_lookup. exists j. rewrite list_lookup_imap, Ha. cbn. rewrite decide_True by done.
    by destruct (ck_named _ _ Hch j a Ha) as [-> _].
Qed.

Lemma completed_count acts ch j : chan_ok acts ch → (j < length acts)%nat → ¬ answered (ch_port ch) j →
  filter (eq j) (fst <$> dp_completed (ch_port ch)) = [].
Proof.
  intros Hch Hj Hans. destruct (filter _ _) as [|x l] eqn:E; [done|].
  assert (x ∈ filter (eq j) (fst <$> dp_completed (ch_port ch))) as Hx by (rewrite E; by left).
  apply list_elem_of_filter in Hx as [<- Hx]. destruct Hans. by apply (completed_answered acts ch).
Qed.

(** No two actions of a channel share a completion event. *)
Lemma completion_named env acts ch i pk : chan_ok acts ch → dp_wire (ch_port ch) !! i = Some pk →
  completion_ok env acts (ch_port ch) (InResp i) = true.
Proof.
  intros Hch Hi. cbn [completion_ok]. rewrite Hi. destruct (acts !! senderState pk) as [a|] eqn:Ha; [|done].
  assert (¬ answered (ch_port ch) (senderState pk)) as Hnot.
  { intros Hans. unfold answered in Hans. rewrite Forall_forall in Hans. apply (Hans pk); [|done]. apply elem_of_app. left.
    by eapply list_elem_of_lookup_2. }
  destruct (ck_named _ _ Hch _ _ Ha) as [-> _]. destruct (ck_delay _ _ Hch _ _ Ha) as [?|Hz]; [done|]. rewrite Hz.
  change (u64 0) with 0. rewrite Z.add_0_r, Z.leb_refl. unfold event_scheduled. rewrite (completed_count acts ch) by (done || by eapply lookup_lt_Some).
  cbn. apply orb_true_r.
Qed.

Lemma ch_resp_ok env acts ch i m : chan_ok acts ch → de_mode env = Timing → (i < length (dp_wire (ch_port ch)))%nat →
  ∃ ch' m', ch_resp env ch i m = Ok (ch', m') ∧ resp_on acts ch m ch' m'.
Proof.
  intros Hch Hm Hi. destruct (chan_core acts ch Hch) as [HC HL].
  apply lookup_lt_is_Some in Hi as [pk Hi].
  assert (pk ∈ pending (ch_port ch)) as Hpk by (apply elem_of_app; left; by eapply list_elem_of_lookup_2).
  destruct (packet_action acts ch pk Hch Hpk) as (a & d & Ha & Hw & Hd & Had & H0 & Hsz & Hle).
  destruct (ck_block _ _ Hch _ _ Ha) as (b & Hb & Hlen).
  pose proof (input_core cfg k Hk Hline env acts (ch_port ch) (InResp i) HC HL Hm ltac:(cbn; eauto)) as Hin.
  rewrite (completion_named env acts ch i pk) in Hin by done. destruct Hin as (p' & Hin & _).
  pose proof (resp_inv env _ i p' Hin (wire_sent acts _ (ck_reached _ _ Hch))) as (pk' & Hi' & Ew & Et & _).
  rewrite Hi in Hi'. injection Hi' as <-.
  assert (pending (ch_port ch) ≡ₚ pk :: pending p') as Hp.
  { unfold pending. rewrite Ew, Et, (delete_Permutation (dp_wire (ch_port ch)) i pk) at 1 by done. done. }
  assert (weight (ch_port ch) = S (weight p')) as Hwt.
  { unfold weight. rewrite Ew, Et, length_delete by eauto. apply lookup_lt_Some in Hi. lia. }
  assert (∃ b' m', length b' = length b ∧
    (if dk_write pk then let* xs := mem_read b d (dk_size pk) in Ok (b, mem_put m (dk_addr pk) xs)
     else let* b := mem_write b d (bytes m (dk_addr pk) (dk_size pk)) in Ok (b, m)) = Ok (b', m') ∧
    if ac_write a then b' = b ∧ m' = mem_put m (ac_addr a + d) (take (Z.to_nat (dk_size pk)) (drop (Z.to_nat d) b))
    else m' = m ∧ mem_write b d (bytes m (ac_addr a + d) (dk_size pk)) = Ok b') as (b' & m' & Hl' & E & Hcase).
  { rewrite Hw, Had. destruct (ac_write a).
    - rewrite mem_read_ok by lia. cbn [mbind outcome_bind]. eexists b, _. by split_and!.
    - destruct (mem_write_ok b d (bytes m (ac_addr a + d) (dk_size pk))) as (b' & -> & ?); [lia|rewrite length_bytes; lia|].
      cbn [mbind outcome_bind]. eexists b', m. by split_and!. }
  exists (mkChannel p' (<[senderState pk := b']> (ch_blocks ch))), m'. split.
  - unfold ch_resp, vec_get, deref. rewrite Hi. cbn [mbind outcome_bind]. rewrite Hb, Hd. cbn [mbind outcome_bind].
    rewrite E. cbn [mbind outcome_bind].
    cbn [dma_input] in Hin. unfold vec_get in Hin. rewrite Hi in Hin. cbn [mbind outcome_bind] in Hin. rewrite Hin. done.
  - split; [|done|].
    + eapply (chan_step env acts ch (InResp i)); try done; [cbn; eauto|intros x Hx; rewrite Hp; by right|]. intros j b0 Hj.
      destruct (decide (j = senderState pk)) as [->|Hne]; [|rewrite lookup_insert_ne by done; eauto].
      rewrite lookup_insert_eq. exists b'. split; [done|]. congruence.
    + exists pk, a, d, b, b'. split_and!; try done.
Qed.

End Chan.
