(* ===== verification/DmaDevice.v ===== *)
(** What an event does to the requests in flight of the DMA device: which requests it
    retires, which it adds, and the actions it asks its ports for. *)
From S2P Require Import Prelude CircularQueue ByteFifo DmaEvents DmaReadFifo DmaWriteFifo DmaProgress NoncoherentDma NoncoherentDmaSpec DmaSystem.

#[local] Open Scope Z_scope.

(** The device went from [d] to [d'], using the FIFOs of the sides [r] and [w], whose
    blocks stood at [a] and [b] and whose requests in flight were [rp] and [wp]. *)
Record dmoves (d d' : NoncoherentDma) (rp wp : list DmaDoneEvent) (r w : Side) (a b : Z)
    (ra : list RdAction) (wa : list DmaAction) : Prop := {
  dm_rf : readFifo d' = Some r;
  dm_wf : writeFifo d' = Some w;
  dm_rlog : rd_log d' = rd_log d ++ (pair r <$> ra);
  dm_wlog : wr_log d' = wr_log d ++ (pair w <$> wa);
  dm_rpend : advance rp (DmaReadFifo.pendingRequests (the_readFifo d' r)) (ra_size <$> ra);
  dm_wpend : advance wp (DmaWriteFifo.pendingRequests (the_writeFifo d' w)) (da_len <$> wa);
  dm_reads : reads a ra (DmaReadFifo.nextAddr (the_readFifo d' r));
  dm_writes : writes b wa (DmaWriteFifo.nextAddr (the_writeFifo d' w));
}.

Abbreviation rpos d r := (DmaReadFifo.nextAddr (the_readFifo d r)).
Abbreviation wpos d w := (DmaWriteFifo.nextAddr (the_writeFifo d w)).
Abbreviation rpend d r := (DmaReadFifo.pendingRequests (the_readFifo d r)).
Abbreviation wpend d w := (DmaWriteFifo.pendingRequests (the_writeFifo d w)).

Lemma dmoves_same d d' r w : readFifo d' = Some r → writeFifo d' = Some w → rd_log d' = rd_log d → wr_log d' = wr_log d →
  the_readFifo d' r = the_readFifo d r → the_writeFifo d' w = the_writeFifo d w →
  dmoves d d' (rpend d r) (wpend d w) r w (rpos d r) (wpos d w) [] [].
Proof.
  intros Hr Hw El1 El2 Ef1 Ef2. split; rewrite ?El1, ?El2, ?Ef1, ?Ef2; cbn; rewrite ?app_nil_r; try done; apply advance_refl.
Qed.

Lemma writes_app a b c xs ys : writes a xs b → writes b ys c → writes a (xs ++ ys) c.
Proof. intros [H1 P1] [H2 P2]. split; [by eapply contiguous_app|by apply Forall_app]. Qed.

Lemma dmoves_trans d d1 d2 rp wp r w a b ra wa ra' wa' : dmoves d d1 rp wp r w a b ra wa →
  dmoves d1 d2 (rpend d1 r) (wpend d1 w) r w (rpos d1 r) (wpos d1 w) ra' wa' →
  dmoves d d2 rp wp r w a b (ra ++ ra') (wa ++ wa').
Proof.
  intros [] []. split; try done; rewrite ?fmap_app.
  - by rewrite dm_rlog1, dm_rlog0, <-app_assoc.
  - by rewrite dm_wlog1, dm_wlog0, <-app_assoc.
  - by eapply advance_trans.
  - by eapply advance_trans.
  - by eapply reads_app.
  - by eapply writes_app.
Qed.

Section Moves.
Context (p : NDParams).
Hypothesis timing : bypassCaches (nd_sys p) = false.

Lemma stepped_end m e a b : stepped m e a b → b ≤ e.
Proof. intros (k & _ & ->). lia. Qed.

(** Neither block goes past its end. *)
Definition inside d d' r w : Prop :=
  rpos d' r ≤ DmaReadFifo.endAddr (the_readFifo d r) ∧ wpos d' w ≤ DmaWriteFifo.endAddr (the_writeFifo d w).

Lemma inside_same d d' r w : raddr_ok (the_readFifo d r) → waddr_ok (the_writeFifo d w) →
  the_readFifo d' r = the_readFifo d r → the_writeFifo d' w = the_writeFifo d w → inside d d' r w.
Proof. intros (_ & ? & _) (_ & ? & _) E1 E2. unfold inside. rewrite E1, E2. lia. Qed.

Lemma move_dmoves d d' r w : readFifo d = Some r → writeFifo d = Some w →
  raddr_ok (the_readFifo d r) → waddr_ok (the_writeFifo d w) → nd_move p d = Ok d' →
  inside d d' r w ∧ ∃ ra wa, dmoves d d' (rpend d r) (wpend d w) r w (rpos d r) (wpos d w) ra wa.
Proof.
  intros Hr Hw Har Haw. unfold nd_move. rewrite Hr, Hw. cbn [deref mbind outcome_bind]. intros H.
  destruct (canFill _ _); [|injection H as <-; split; [by apply inside_same|]; exists [], []; by apply dmoves_same].
  apply bind_ok in H as ([[o f] acts] & Hg & H).
  pose proof (tryGet_moves _ timing _ _ _ _ _ Har Hg) as [Hp Hs%stepped_end].
  pose proof (tryGet_reads _ timing _ _ _ _ _ Har Hg) as Hre. unfold inside.
  destruct o as [data|]; monp.
  - rewrite the_writeFifo_read in *.
    match goal with Hg : DmaWriteFifo.fill _ _ _ = Ok _ |- _ =>
      pose proof (fill_moves _ timing _ _ _ _ Haw Hg) as [Hq Ht%stepped_end]; pose proof (fill_writes _ timing _ _ _ _ Haw Hg) as Hwr end.
    split; [destruct r, w; by split|]. eexists _, _. split; try done; destruct r, w; done.
  - split; [rewrite the_writeFifo_read; destruct Haw as (_ & ? & _); split; [by destruct r|lia]|].
    eexists _, []. split; try done; rewrite ?the_writeFifo_read; cbn; rewrite ?app_nil_r; try done; try apply advance_refl; by destruct r.
Qed.

Lemma finish_dmoves d d' r w : readFifo d = Some r → writeFifo d = Some w →
  raddr_ok (the_readFifo d r) → waddr_ok (the_writeFifo d w) → nd_finish p d = Ok d' →
  inside d d' r w ∧ dmoves d d' (rpend d r) (wpend d w) r w (rpos d r) (wpos d w) [] [].
Proof.
  intros Hr Hw Har Haw. unfold nd_finish, nd_flags_update. rewrite Hw. cbn [deref mbind outcome_bind]. intros H.
  destruct (negb _); monp; (split; [apply inside_same|apply dmoves_same]; try done; by destruct r || destruct w).
Qed.

(** The tick of a running transfer. *)
Lemma tick_dmoves d d' fl r w : running d = true → has_regs d fl → readFifo d = Some r → writeFifo d = Some w →
  raddr_ok (the_readFifo d r) → waddr_ok (the_writeFifo d w) → nd_tick p d = Ok d' →
  inside d d' r w ∧ ∃ ra wa, dmoves d d' (rpend d r) (wpend d w) r w (rpos d r) (wpos d w) ra wa.
Proof.
  intros Hrun Hregs Hr Hw Har Haw H. destruct (nd_tick_running p d fl Hrun Hregs) as (g & _ & E). rewrite E in H. clear E.
  apply bind_ok in H as (d1 & H1 & H2). apply bind_ok in H2 as (fl' & _ & H2). injection H2 as <-.
  assert (inside d d1 r w ∧ ∃ ra wa, dmoves (add_gic d g) d1 (rpend d r) (wpend d w) r w (rpos d r) (wpos d w) ra wa)
    as (Hin & ra & wa & []).
  { destruct (0 <? _).
    - by apply (move_dmoves (add_gic d g) d1 r w).
    - destruct (finish_dmoves (add_gic d g) d1 r w) as [? ?]; try done. split; [done|]. by exists [], []. }
  split; [exact Hin|]. exists ra, wa. split; try done; by destruct r || destruct w.
Qed.
End Moves.

(** ** Every event of a transfer *)

Section Transfer.
Context (p : NDParams) (P : nat) (m0 : Z → Z) (src dst len : Z).
Hypothesis Hc : nd_config p P.
Hypothesis Hb : block_ok src dst len.

Abbreviation Phase := (phase p P m0 src dst len).

(** How far the two blocks have come. *)
Definition issued (v : NDEnv) (r w : Side) : Z := (rpos (dev v) r - src) + (wpos (dev v) w - dst).

(** What holds of the requests in flight in every phase. *)
Record in_flight (v : NDEnv) : Prop := {
  if_rd : Forall2 (in_src src len) (rd_pend (dev v)) (raddrs v);
  if_rsize : Forall (fun e => 0 < _requestSize e) (rd_pend (dev v));
  if_wr : length (wr_pend (dev v)) = length (wacts v);
  if_dst : ∃ old b, contiguous dst (old ++ wacts v) b ∧ b ≤ dst + len;
  if_frame : ∀ x, ¬ (dst ≤ x < dst + len) → mem v x = m0 x;
}.

Lemma ridle_pend n f : ridle p P n f → DmaReadFifo.pendingRequests f = [].
Proof.
  intros [HR _ _ _]. pose proof (ri_pending _ _ _ _ _ _ (rr_inv _ _ _ _ _ _ (HR m0))) as Hp. by apply Forall2_nil_inv_r in Hp.
Qed.
Lemma idle_pend n d : nd_idle p P n d → rd_pend d = [] ∧ wr_pend d = [].
Proof.
  intros [_ Hr Hw]. unfold rd_pend, wr_pend. split; [destruct (readFifo d); [by eapply ridle_pend|done]|].
  destruct (writeFifo d) as [s|]; [apply (Hw s)|done].
Qed.

Lemma phase_flight n fl g0 v k : Phase n fl g0 v k → in_flight v.
Proof.
  intros [Hid _ _ Hra Hwa Hm _ _|r w lr lw HB _|HF _].
  - destruct (idle_pend _ _ Hid) as [E1 E2]. split; rewrite ?E1, ?E2, ?Hra, ?Hwa, ?Hm; try done.
    exists [], dst. cbn. destruct Hb. split; [done|lia].
  - destruct HB as [_ _ Hleft _ Hr Hw Hrd Hwr _ _ _ _]. unfold rd_pend, wr_pend. destruct Hrd as [HR _ _ _ _ _ _ Hrg].
    destruct Hwr as [HW He _ _ _ (old & Hct & _ & _) Hfl Hfr]. split; unfold rd_pend, wr_pend; rewrite ?Hr, ?Hw; try done.
    + pose proof (ri_pending _ _ _ _ _ _ (rr_inv _ _ _ _ _ _ HR)) as Hp. clear -Hp.
      induction Hp as [|e a es as_ [[? _] _ _] _ IH]; constructor; [lia|done].
    + by eapply Forall2_length.
    + exists old. eexists. split; [exact Hct|]. pose proof (wi_addr _ _ _ _ (wr_inv _ _ _ _ HW)). rewrite He in *. lia.
  - destruct HF as [Hid _ [Hra Hwa] _ Hfr _ _]. destruct (idle_pend _ _ Hid) as [E1 E2].
    split; rewrite ?E1, ?E2, ?Hra, ?Hwa; try done. exists [], dst. cbn. destruct Hb. split; [done|lia].
Qed.

(** The bytes asked for so far, [iss], in each phase. *)
Definition pos_ok (v : NDEnv) (iss : Z) : Prop :=
  if running (dev v) then ∃ r w, readFifo (dev v) = Some r ∧ writeFifo (dev v) = Some w ∧ iss = issued v r w
  else if tickScheduled (dev v) then iss = 0 else 0 ≤ iss ≤ 2 * len.

Lemma busy_pos n v fl g0 r w lr lw : Busy p P m0 src dst len n v fl g0 r w lr lw →
  src ≤ rpos (dev v) r ≤ src + len ∧ dst ≤ wpos (dev v) w ≤ dst + len.
Proof.
  intros [_ _ Hl _ _ _ [HR He _ _ _ Hle _ _] [HW He2 _ _ _ (old & Hct & _ & _) _ _] _ _ _ _].
  pose proof (ri_addr _ _ _ _ _ _ (rr_inv _ _ _ _ _ _ HR)) as H1. rewrite He in H1.
  pose proof (wi_addr _ _ _ _ (wr_inv _ _ _ _ HW)) as H2. rewrite He2 in H2.
  apply contiguous_length in Hct. lia.
Qed.

Lemma pos_bounds n fl g0 v k iss : Phase n fl g0 v k → pos_ok v iss → 0 ≤ iss ≤ 2 * len.
Proof.
  unfold pos_ok. destruct Hb. intros [Hid _ Ht _ _ _ _ _|r w lr lw HB _|HF _].
  - rewrite (id_run _ _ _ _ Hid), Ht. intros ->. lia.
  - rewrite (bz_run _ _ _ _ _ _ _ _ _ _ _ _ _ _ HB). intros (r' & w' & Hr & Hw & ->).
    rewrite (bz_r _ _ _ _ _ _ _ _ _ _ _ _ _ _ HB) in Hr. rewrite (bz_w _ _ _ _ _ _ _ _ _ _ _ _ _ _ HB) in Hw.
    simplify_eq. pose proof (busy_pos _ _ _ _ _ _ _ _ HB). unfold issued. lia.
  - destruct HF as [[Hr _ _] Ht _ _ _ _ _]. by rewrite Hr, Ht.
Qed.

(** An event of a transfer takes [v] to [v']. *)
Record ev_moves (v v' : NDEnv) (rp wp : list DmaDoneEvent) (r w : Side) (a b : Z)
    (ra : list RdAction) (wa : list DmaAction) : Prop := {
  em_d : dmoves (dev v) (dev v') rp wp r w a b ra wa;
  em_ra : raddrs v' = drop (length rp + length ra - length (rpend (dev v') r)) (raddrs v) ++ (ra_addr <$> ra);
  em_wa : wacts v' = drop (length wp + length wa - length (wpend (dev v') w)) (wacts v) ++ wa;
  em_range : src ≤ a ∧ rpos (dev v') r ≤ src + len ∧ dst ≤ b ∧ wpos (dev v') w ≤ dst + len;
  em_pos : ∀ iss, pos_ok v iss → pos_ok v' (iss + (rpos (dev v') r - a) + (wpos (dev v') w - b));
}.

Lemma advance_front e es pend' szs : advance (e :: es) pend' szs → _done e = false →
  length pend' = (length (e :: es) + length szs)%nat.
Proof.
  intros (mv & rest & new & E & -> & Hm & _ & <-) He. destruct mv as [|x mv].
  - rewrite E, length_app, length_fmap. done.
  - injection E as <- _. apply Forall_cons in Hm as [? _]. congruence.
Qed.
Lemma advance_keep pend pend' szs : advance pend pend' szs →
  match pend with e :: _ => _done e = false | [] => True end → length pend' = (length pend + length szs)%nat.
Proof.
  destruct pend as [|e es]; [|by apply advance_front]. intros (mv & rest & new & E & -> & _ & _ & <-) _.
  symmetry in E. apply app_eq_nil in E as [_ ->]. by rewrite length_fmap.
Qed.

(** The tick of a running transfer. *)
Lemma busy_tick_moves n fl g0 v v' r w lr lw :
  Busy p P m0 src dst len (S n) v fl g0 r w lr lw → nd_event p v NTick = Ok v' →
  (Finished p P m0 src dst len n v' fl g0 ∨ ∃ lr' lw', Busy p P m0 src dst len n v' fl g0 r w lr' lw') →
  ∃ ra wa, nd_tick p (dev v) = Ok (dev v') ∧ mem v' = mem v ∧
    ev_moves v v' (rpend (dev v) r) (wpend (dev v) w) r w (rpos (dev v) r) (wpos (dev v) w) ra wa.
Proof.
  intros HB He Hph'. destruct Hc as [timing Ppos Mpos]. pose proof (busy_pos _ _ _ _ _ _ _ _ HB) as Hpos.
  pose proof HB as [Hrun Htick Hl _ Hr Hw Hrd Hwr _ _ Hregs _]. unfold nd_event in He. rewrite Htick in He.
  apply bind_ok in He as (d' & Ht & He). injection He as <-. cbn [dev raddrs wacts mem] in *.
  destruct (tick_dmoves p timing (dev v) d' fl r w) as ([I1 I2] & ra & wa & Hm); try done; [by eapply rbusy_addr|by eapply wbusy_addr|].
  exists ra, wa. split; [done|]. split; [done|]. pose proof Hm as [Hr' Hw' Lr Lw Ar Aw Re [We _]].
  rewrite (rb_end _ _ _ _ _ _ _ _ _ _ Hrd) in I1. rewrite (wb_end _ _ _ _ _ _ _ _ _ _ _ _ Hwr) in I2.
  assert (length (rpend d' r) = (length (rpend (dev v) r) + length ra)%nat) as K1.
  { rewrite <-(length_fmap ra_size ra). apply advance_keep; [done|]. destruct Hrd as [[_ _ Hf] _]. unfold rfront_waits in Hf. by destruct (rpend (dev v) r). }
  assert (length (wpend d' w) = (length (wpend (dev v) w) + length wa)%nat) as K2.
  { rewrite <-(length_fmap da_len wa). apply advance_keep; [done|]. destruct Hwr as [[_ _ Hf] _]. unfold DmaWriteFifo.front_waits in Hf. by destruct (wpend (dev v) w). }
  destruct (reads_bytes m0 _ _ _ Re) as [? _]. pose proof (contiguous_length _ _ _ We).
  split; cbn [dev raddrs wacts mem]; rewrite ?K1, ?K2, ?Nat.sub_diag; try done; try lia.
  - by rewrite (rd_new_app _ _ _ _ Lr).
  - by rewrite (wr_new_app _ _ _ _ Lw).
  - intros iss. unfold pos_ok. rewrite Hrun, Hr, Hw. intros (r0 & w0 & [= <-] & [= <-] & ->). cbn [dev].
    destruct Hph' as [HF|(lr' & lw' & HB')].
    + destruct HF as [[Hx _ _] Hy _ _ _ _ _]. cbn in Hx, Hy. rewrite Hx, Hy. unfold issued. lia.
    + pose proof (bz_run _ _ _ _ _ _ _ _ _ _ _ _ _ _ HB') as Hx. cbn in Hx. rewrite Hx.
      exists r, w. split_and!; [done..|]. unfold issued. cbn. lia.
Qed.

(** The tick that starts the transfer and goes on with it. *)
Lemma wait_tick_moves n fl g0 v k : nd_idle p P (S n) (dev v) → Phase (S n) fl g0 v k → running (dev v) = false →
  tickScheduled (dev v) = true →
  ∃ v' k' r w ra wa, nd_event p v NTick = Ok v' ∧ Phase n fl g0 v' k' ∧ k' < k ∧
    nd_tick p (dev v) = Ok (dev v') ∧ mem v' = mem v ∧ ev_moves v v' [] [] r w src dst ra wa.
Proof.
  intros Hid Hph Hrun Ht. destruct Hc as [timing Ppos Mpos], Hb as [Hlen Hsrc Hdst Hdisj].
  destruct Hph as [_ Hpr _ Hra Hwa Hm Hg ->|r w lr lw HB _|HF _].
  2: { by rewrite (bz_run _ _ _ _ _ _ _ _ _ _ _ _ _ _ HB) in Hrun. }
  2: { by rewrite (fi_tick _ _ _ _ _ _ _ _ _ _ HF) in Ht. }
  destruct (nd_start_ok p P m0 src dst len timing Ppos Hlen Hsrc Hdst _ _ _ Hid Hpr Ht)
    as (d1 & r & w & lw & ra & wa & Hs & E1 & E2 & ER & EW & HB & Hk).
  set (v1 := mkNDEnv d1 (ra_addr <$> ra) wa m0) in *.
  destruct (busy_tick p P m0 src dst len timing Ppos Mpos Hlen Hsrc Hdst Hdisj _ _ _ _ _ _ _ _ HB) as (v' & He & Hcase).
  assert (Finished p P m0 src dst len n v' (flags_running fl) (gic_log (dev v)) ∨
    ∃ lr' lw', Busy p P m0 src dst len n v' (flags_running fl) (gic_log (dev v)) r w lr' lw') as Hfin.
  { destruct (tick_enabled _ _ _ _); [|destruct Hcase as [? _]; eauto]. destruct Hcase as [|(? & ? & ? & _)]; eauto. }
  destruct (busy_tick_moves _ _ _ v1 v' _ _ _ _ HB He Hfin) as (ra' & wa' & Htick & Hmem & [Hdm Era Ewa Hrg Hps]).
  assert (nd_event p v NTick = Ok v') as Hev.
  { eapply nd_tick_start; try done; [apply (bz_run _ _ _ _ _ _ _ _ _ _ _ _ _ _ HB)|apply (bz_tick _ _ _ _ _ _ _ _ _ _ _ _ _ _ HB)
      |apply (bz_regs _ _ _ _ _ _ _ _ _ _ _ _ _ _ HB)| |by eexists _, _].
    rewrite (rd_new_app _ _ _ _ E1), (wr_new_app _ _ _ _ E2), Hm. exact He. }
  assert (dmoves (dev v) d1 [] [] r w src dst ra wa) as Hd1.
  { pose proof (id_rd _ _ _ _ Hid r) as HIr. pose proof (id_wr _ _ _ _ Hid w) as HIw.
    pose proof (ridle_pend _ _ HIr) as Ep. pose proof (widle_none _ _ _ _ HIw) as Ew.
    assert (raddr_ok (the_readFifo (dev v) r)) as Har.
    { destruct HIr as [HR _ _ _]. destruct (HR m0) as [[] _ _]. unfold raddr_ok. lia. }
    assert (waddr_ok (the_writeFifo (dev v) w)) as Haw.
    { destruct HIw as [[[] _ _] _ _ _ _]. unfold waddr_ok. lia. }
    pose proof (startFill_moves _ timing (the_readFifo (dev v) r) src len _ _ Har ltac:(lia) ltac:(lia) ltac:(lia) ER) as [A1 _]. rewrite Ep in A1.
    pose proof (startEmpty_moves _ timing (the_writeFifo (dev v) w) dst len _ _ Haw ltac:(lia) ltac:(lia) ltac:(lia) EW) as [A2 _]. rewrite Ew in A2.
    split; try done; [apply (bz_r _ _ _ _ _ _ _ _ _ _ _ _ _ _ HB)|apply (bz_w _ _ _ _ _ _ _ _ _ _ _ _ _ _ HB)|..].
    - by apply (startFill_reads _ timing (the_readFifo (dev v) r) src len _ _ Har ltac:(lia) ltac:(lia) ltac:(lia) ER).
    - by apply (startEmpty_writes _ timing (the_writeFifo (dev v) w) dst len _ _ Haw ltac:(lia) ltac:(lia) ltac:(lia) EW). }
  pose proof (dmoves_trans _ _ _ _ _ _ _ _ _ _ _ _ _ Hd1 Hdm) as Hd.
  assert (nd_tick p (dev v) = Ok (dev v') ∧ raddrs v' = ra_addr <$> (ra ++ ra') ∧ wacts v' = wa ++ wa' ∧ mem v' = mem v)
    as (T1 & T2 & T3 & T4).
  { unfold nd_event in Hev. rewrite Ht in Hev. apply bind_ok in Hev as (d' & Ht' & Hev). injection Hev as <-. cbn in *.
    by rewrite (rd_new_app _ _ _ _ (dm_rlog _ _ _ _ _ _ _ _ _ _ Hd)), (wr_new_app _ _ _ _ (dm_wlog _ _ _ _ _ _ _ _ _ _ Hd)), Hra, Hwa. }
  assert (∃ k', Phase n fl g0 v' k' ∧ k' < 5 * len + 2) as (k' & Hph & Hlt).
  { rewrite <-Hg. destruct (tick_enabled _ _ _ _).
    - destruct Hcase as [HF|(lr' & lw' & HB' & Hlt)]; [exists 0; split; [by apply ph_done|lia]|].
      exists (left_of v' r w). split; [by eapply ph_busy|lia].
    - destruct Hcase as (HB' & F1 & F2 & F3). exists (left_of v' r w). split; [by eapply ph_busy|].
      unfold left_of in *. rewrite F1, F2, F3. lia. }
  exists v', k', r, w, (ra ++ ra'), (wa ++ wa'). split_and!; try done. destruct Hrg as (R1 & R2 & R3 & R4).
  split; rewrite ?T2, ?T3, ?Hra, ?Hwa, ?drop_nil; try done; try lia.
  intros iss. unfold pos_ok at 1. rewrite Hrun, Ht. intros ->.
  specialize (Hps (issued v1 r w)). replace (0 + _ + _) with (issued v1 r w + (rpos (dev v') r - rpos (dev v1) r) + (wpos (dev v') w - wpos (dev v1) w))
    by (unfold issued; lia).
  apply Hps. unfold pos_ok. rewrite (bz_run _ _ _ _ _ _ _ _ _ _ _ _ _ _ HB). exists r, w.
  by rewrite (bz_r _ _ _ _ _ _ _ _ _ _ _ _ _ _ HB), (bz_w _ _ _ _ _ _ _ _ _ _ _ _ _ _ HB).
Qed.

(** Completions come only while the transfer runs. *)
Lemma phase_busy n fl g0 v k : Phase n fl g0 v k → rd_pend (dev v) ≠ [] ∨ wr_pend (dev v) ≠ [] →
  ∃ r w lr lw, Busy p P m0 src dst len n v (flags_running fl) g0 r w lr lw ∧ k = left_of v r w.
Proof.
  intros [Hid _ _ _ _ _ _ _|r w lr lw HB ->|HF _] Hne; [|by eauto 6|].
  - destruct (idle_pend _ _ Hid) as [E1 E2]. rewrite E1, E2 in Hne. by destruct Hne.
  - destruct HF as [Hid _ _ _ _ _ _]. destruct (idle_pend _ _ Hid) as [E1 E2]. rewrite E1, E2 in Hne. by destruct Hne.
Qed.

Lemma busy_pos_ok n n' v v' fl fl' g0 r w lr lw lr' lw' : Busy p P m0 src dst len n v fl g0 r w lr lw →
  Busy p P m0 src dst len n' v' fl' g0 r w lr' lw' →
  ∀ iss, pos_ok v iss → pos_ok v' (iss + (rpos (dev v') r - rpos (dev v) r) + (wpos (dev v') w - wpos (dev v) w)).
Proof.
  intros HB HB' iss. unfold pos_ok. rewrite (bz_run _ _ _ _ _ _ _ _ _ _ _ _ _ _ HB), (bz_run _ _ _ _ _ _ _ _ _ _ _ _ _ _ HB').
  rewrite (bz_r _ _ _ _ _ _ _ _ _ _ _ _ _ _ HB), (bz_w _ _ _ _ _ _ _ _ _ _ _ _ _ _ HB).
  intros (? & ? & [= <-] & [= <-] & ->). exists r, w.
  rewrite (bz_r _ _ _ _ _ _ _ _ _ _ _ _ _ _ HB'), (bz_w _ _ _ _ _ _ _ _ _ _ _ _ _ _ HB').
  split_and!; [done..|]. unfold issued. lia.
Qed.

(** The [i]-th read completes; [b] is what its block holds. *)
Lemma rd_done_moves n fl g0 v k i e a bs : Phase (S n) fl g0 v k → rd_pend (dev v) !! i = Some e → _done e = false →
  raddrs v !! i = Some a → bs = bytes m0 a (_requestSize e) →
  ∃ v' k' r w e' f acts wa, Phase n fl g0 v' k' ∧ k' < k ∧ mem v' = mem v ∧ readFifo (dev v) = Some r ∧
    DmaReadFifo.process (nd_sys p) (the_readFifo (dev v) r) i bs = Ok (f, acts) ∧ dev v' = set_readFifo (dev v) r f acts ∧
    _done e' = true ∧ _requestSize e' = _requestSize e ∧
    ev_moves v v' (<[i := e']> (rd_pend (dev v))) (wr_pend (dev v)) r w (rpos (dev v) r) (wpos (dev v) w) acts wa.
Proof.
  intros Hph Hi Hd Ha Ebs. destruct Hc as [timing Ppos Mpos], Hb as [Hlen Hsrc Hdst Hdisj].
  pose proof (phase_flight _ _ _ _ _ Hph) as HF. destruct (phase_busy _ _ _ _ _ Hph) as (r & w & lr & lw & HB & ->).
  { left. by destruct (rd_pend (dev v)). }
  pose proof (bz_r _ _ _ _ _ _ _ _ _ _ _ _ _ _ HB) as Hr. pose proof (bz_w _ _ _ _ _ _ _ _ _ _ _ _ _ _ HB) as Hw.
  unfold rd_pend, wr_pend in *. rewrite Hr, Hw in *.
  destruct (busy_rddone p P m0 src dst len timing Ppos Mpos Hdisj _ _ _ _ _ _ _ _ _ _ HB Hi Hd) as (v' & lr' & He & HB' & Hlt).
  assert (bytes (mem v) a (_requestSize e) = bs) as Eb.
  { rewrite Ebs. destruct HF as [Hrd _ _ _ Hfr]. unfold rd_pend in Hrd. rewrite Hr in Hrd.
    destruct (Forall2_lookup_lr _ _ _ _ _ _ Hrd Hi Ha) as [? ?]. apply bytes_ext. intros x Hx. apply Hfr. lia. }
  unfold nd_event in He. rewrite Hr, Hi, Ha, Hd, Eb in He. apply bind_ok in He as ([f acts] & HP & He). injection He as <-.
  pose proof (rbusy_addr _ _ _ _ _ Ppos _ _ _ _ _ (bz_rd _ _ _ _ _ _ _ _ _ _ _ _ _ _ HB)) as Har.
  destruct (r_process_moves _ timing _ _ _ _ _ Har HP) as (e0 & e' & He0 & _ & Hd' & Hsz & [Hp Hs%stepped_end]).
  pose proof (r_process_reads _ timing _ _ _ _ _ Har HP) as Hre. simplify_eq.
  pose proof (busy_pos _ _ _ _ _ _ _ _ HB) as B1. pose proof (busy_pos _ _ _ _ _ _ _ _ HB') as B2.
  eexists _, _, r, w, e', f, acts, []. split; [by eapply ph_busy|]. split; [exact Hlt|]. do 6 (split; [done|]).
  split; cbn [dev raddrs wacts mem] in *; rewrite ?the_readFifo_set, ?the_writeFifo_read, ?decide_True in * by done.
  - split; rewrite ?the_readFifo_set, ?the_writeFifo_read, ?decide_True by done; cbn; rewrite ?app_nil_r; try done. apply advance_refl.
  - unfold track. by rewrite length_insert.
  - rewrite app_nil_r, Nat.add_0_r, Nat.sub_diag. done.
  - lia.
  - intros iss Hiss. pose proof (busy_pos_ok _ _ _ _ _ _ _ _ _ _ _ _ _ HB HB' iss Hiss) as Hx. cbn [dev] in Hx.
    by rewrite the_readFifo_set, the_writeFifo_read, decide_True in Hx.
Qed.

(** The [i]-th write completes. *)
Lemma wr_done_moves n fl g0 v k i e y : Phase (S n) fl g0 v k → wr_pend (dev v) !! i = Some e → _done e = false →
  wacts v !! i = Some y →
  ∃ v' k' r w e' f acts ra, Phase n fl g0 v' k' ∧ k' < k ∧ mem v' = mem_put (mem v) (da_addr y) (da_data y) ∧
    writeFifo (dev v) = Some w ∧
    DmaWriteFifo.process (nd_sys p) (the_writeFifo (dev v) w) i = Ok (f, acts) ∧ dev v' = set_writeFifo (dev v) w f acts ∧
    _done e' = true ∧ _requestSize e' = _requestSize e ∧
    ev_moves v v' (rd_pend (dev v)) (<[i := e']> (wr_pend (dev v))) r w (rpos (dev v) r) (wpos (dev v) w) ra acts.
Proof.
  intros Hph Hi Hd Ha. destruct Hc as [timing Ppos Mpos], Hb as [Hlen Hsrc Hdst Hdisj].
  destruct (phase_busy _ _ _ _ _ Hph) as (r & w & lr & lw & HB & ->).
  { right. by destruct (wr_pend (dev v)). }
  pose proof (bz_r _ _ _ _ _ _ _ _ _ _ _ _ _ _ HB) as Hr. pose proof (bz_w _ _ _ _ _ _ _ _ _ _ _ _ _ _ HB) as Hw.
  unfold rd_pend, wr_pend in *. rewrite Hr, Hw in *.
  destruct (busy_wrdone p P m0 src dst len timing Ppos Mpos _ _ _ _ _ _ _ _ _ _ HB Hi Hd) as (v' & lw' & He & HB' & Hlt).
  unfold nd_event in He. rewrite Hw, Hi, Ha, Hd in He. apply bind_ok in He as ([f acts] & HP & He). injection He as <-.
  pose proof (wbusy_addr _ _ _ _ _ _ Ppos _ _ _ _ _ _ (bz_wr _ _ _ _ _ _ _ _ _ _ _ _ _ _ HB)) as Haw.
  destruct (w_process_moves _ timing _ _ _ _ Haw HP) as (e0 & e' & He0 & _ & Hd' & Hsz & [Hp Hs%stepped_end]).
  pose proof (w_process_writes _ timing _ _ _ _ Haw HP) as Hwr. simplify_eq.
  pose proof (busy_pos _ _ _ _ _ _ _ _ HB) as B1. pose proof (busy_pos _ _ _ _ _ _ _ _ HB') as B2.
  eexists _, _, r, w, e', f, acts, []. split; [by eapply ph_busy|]. split; [exact Hlt|]. do 6 (split; [done|]).
  split; cbn [dev raddrs wacts mem] in *; rewrite ?the_readFifo_write, ?the_writeFifo_set, ?decide_True in * by done.
  - split; rewrite ?the_readFifo_write, ?the_writeFifo_set, ?decide_True by done; cbn; rewrite ?app_nil_r; try done. apply advance_refl.
  - cbn. rewrite app_nil_r, Nat.add_0_r, Nat.sub_diag. done.
  - unfold wtrack. by rewrite length_insert.
  - lia.
  - intros iss Hiss. pose proof (busy_pos_ok _ _ _ _ _ _ _ _ _ _ _ _ _ HB HB' iss Hiss) as Hx. cbn [dev] in Hx.
    by rewrite the_readFifo_write, the_writeFifo_set, decide_True in Hx.
Qed.

(** The tick, in any phase. *)
Lemma tick_moves n fl g0 v k : Phase (S n) fl g0 v k → tickScheduled (dev v) = true →
  ∃ v' k' r w a b ra wa, nd_tick p (dev v) = Ok (dev v') ∧ Phase n fl g0 v' k' ∧ k' ≤ k ∧
    (nd_enabled p v NTick = true → k' < k) ∧ mem v' = mem v ∧
    (rd_pend (dev v) = [] ∧ wr_pend (dev v) = [] ∨ readFifo (dev v) = Some r ∧ writeFifo (dev v) = Some w) ∧
    ev_moves v v' (rd_pend (dev v)) (wr_pend (dev v)) r w a b ra wa.
Proof.
  intros Hph Ht. pose proof Hph as Hph0. destruct Hph as [Hid _ _ _ _ _ _ _|r w lr lw HB ->|HF _].
  - destruct (idle_pend _ _ Hid) as [-> ->]. destruct (wait_tick_moves _ _ _ _ _ Hid Hph0 (id_run _ _ _ _ Hid) Ht)
      as (v' & k' & r & w & ra & wa & _ & ? & ? & ? & ? & ?).
    exists v', k', r, w, src, dst, ra, wa. split_and!; try done; [lia|by left].
  - destruct Hc as [timing Ppos Mpos], Hb as [Hlen Hsrc Hdst Hdisj].
    pose proof (bz_r _ _ _ _ _ _ _ _ _ _ _ _ _ _ HB) as Hr. pose proof (bz_w _ _ _ _ _ _ _ _ _ _ _ _ _ _ HB) as Hw.
    destruct (busy_tick p P m0 src dst len timing Ppos Mpos Hlen Hsrc Hdst Hdisj _ _ _ _ _ _ _ _ HB) as (v' & He & Hcase).
    assert (Finished p P m0 src dst len n v' (flags_running fl) g0 ∨
      ∃ lr' lw', Busy p P m0 src dst len n v' (flags_running fl) g0 r w lr' lw') as Hfin.
    { destruct (tick_enabled _ _ _ _); [|destruct Hcase as [? _]; eauto]. destruct Hcase as [|(? & ? & ? & _)]; eauto. }
    destruct (busy_tick_moves _ _ _ v v' _ _ _ _ HB He Hfin) as (ra & wa & Htick & Hmem & Hmv).
    eapply left_of_pos in HB as Hpos; [|done..]. unfold rd_pend, wr_pend. rewrite Hr, Hw.
    assert (∃ k', Phase n fl g0 v' k' ∧ k' ≤ left_of v r w ∧ (tick_enabled p (dev v) r w = true → k' < left_of v r w)) as (k' & H1 & H2 & H3).
    { destruct (tick_enabled p (dev v) r w).
      - destruct Hcase as [HF|(lr' & lw' & HB' & Hlt)]; [exists 0; split; [by apply ph_done|lia]|].
        exists (left_of v' r w). split; [by eapply ph_busy|lia].
      - destruct Hcase as (HB' & F1 & F2 & F3). exists (left_of v' r w). split; [by eapply ph_busy|].
        unfold left_of. rewrite F1, F2, F3. split; [lia|done]. }
    eexists v', k', r, w, _, _, ra, wa. split_and!; try done; [|by right].
    unfold nd_enabled. rewrite (bz_run _ _ _ _ _ _ _ _ _ _ _ _ _ _ HB), Hr, Hw. done.
  - by rewrite (fi_tick _ _ _ _ _ _ _ _ _ _ HF) in Ht.
Qed.
End Transfer.
