(* ===== verification/DmaSystemInv.v ===== *)
(** The invariant of the DMA device on its ports: every request in flight is an action
    of a port, the bytes of its answered packets are where they belong, and memory
    differs from that of [NoncoherentDmaSpec], where an action is one step, only in
    the writes still in flight. *)
From stdpp Require Import gmap.
From S2P Require Import Prelude CircularQueue ByteFifo DmaEvents DmaReadFifo DmaWriteFifo DmaProgress NoncoherentDma NoncoherentDmaSpec DmaPort DmaPortSpec DmaSystem DmaChannel DmaDevice.

#[local] Open Scope Z_scope.

(** ** Lists *)

Lemma Forall3_by_lookup {A B C} (R : A → B → C → Prop) l k k' : length l = length k → length l = length k' →
  (∀ i x y z, l !! i = Some x → k !! i = Some y → k' !! i = Some z → R x y z) → Forall3 R l k k'.
Proof.
  revert k k'. induction l as [|x l IH]; intros [|y k] [|z k'] H1 H2 H; try done; constructor.
  - by apply (H 0%nat).
  - apply IH; [cbn in *; lia..|]. intros i. apply (H (S i)).
Qed.

Lemma Forall3_insert_m {A B C} (R : A → B → C → Prop) l k k' i y' : Forall3 R l k k' →
  (∀ x y z, l !! i = Some x → k !! i = Some y → k' !! i = Some z → R x y z → R x y' z) → Forall3 R l (<[i := y']> k) k'.
Proof.
  intros HF H. apply Forall3_by_lookup; [rewrite length_insert; by eapply Forall3_length_lm|by eapply Forall3_length_lr|].
  intros j x y z Hx Hy Hz. apply list_lookup_insert_Some in Hy as [(<- & <- & _)|[Hne Hy]].
  - destruct (Forall3_lookup_l _ _ _ _ _ _ HF Hx) as (y0 & z0 & Hy0 & Hz0 & ?). simplify_eq. eauto.
  - by eapply Forall3_lookup_lmr.
Qed.

(** The requests that stay, and the new ones behind them. *)
Lemma retire_track {C} (R : nat → DmaDoneEvent → C → Prop) names pend cs pend' szs js cs' :
  Forall3 R names pend cs → advance pend pend' szs → length js = length szs →
  (∀ new, Forall (fun e => _done e = false) new → _requestSize <$> new = szs → Forall3 R js new cs') →
  Forall3 R (retire names js (length pend')) pend' (drop (length pend + length szs - length pend') cs ++ cs') ∧
  (∀ j, j ∈ names → j ∉ retire names js (length pend') → ∃ e c, _done e = true ∧ R j e c).
Proof.
  intros HF (mv & rest & new & -> & -> & Hm & Hn & Hsz) Hjs Hnew.
  apply Forall3_app_inv_m in HF as (n1 & n2 & c1 & c2 & -> & -> & HF1 & HF2).
  pose proof (Forall3_length_lm _ _ _ _ HF1) as L1. pose proof (Forall3_length_lr _ _ _ _ HF1) as L1'.
  pose proof (Forall3_length_lm _ _ _ _ HF2) as L2.
  pose proof (f_equal length Hsz) as L3. rewrite length_fmap in L3. unfold retire. rewrite !length_app.
  replace (length n1 + length n2 + length js - (length rest + length new))%nat with (length n1) by lia.
  replace (length mv + length rest + length szs - (length rest + length new))%nat with (length c1) by lia.
  rewrite !drop_app_length. split; [apply Forall3_app; [done|by apply Hnew]|].
  intros j [Hj|Hj]%elem_of_app Hnj; [|exfalso; apply Hnj, elem_of_app; by left].
  apply list_elem_of_lookup in Hj as [i Hi]. destruct (Forall3_lookup_l _ _ _ _ _ _ HF1 Hi) as (e & c & He & _ & HR).
  exists e, c. split; [|done]. rewrite Forall_forall in Hm. apply Hm. by eapply list_elem_of_lookup_2.
Qed.

(** The names used on a side. *)
Definition named (ro wo : option Side) (rids wids : list nat) (s : Side) : list nat :=
  (if decide (ro = Some s) then rids else []) ++ (if decide (wo = Some s) then wids else []).

Lemma retire_in names js n x : x ∈ retire names js n → x ∈ names ∨ x ∈ js.
Proof.
  unfold retire. rewrite elem_of_app. intros [H|]; [left|by right]. rewrite <-(take_drop (length names + length js - n) names).
  apply elem_of_app. by right.
Qed.
Lemma retire_new names js n x : x ∈ js → x ∈ retire names js n.
Proof. intros. apply elem_of_app. by right. Qed.
Lemma retire_nodup names js n : NoDup names → NoDup js → (∀ x, x ∈ names → x ∉ js) → NoDup (retire names js n).
Proof.
  intros H1 H2 H3. unfold retire. apply NoDup_app. rewrite <-(take_drop (length names + length js - n) names) in H1.
  apply NoDup_app in H1 as (_ & _ & H1). split_and!; try done. intros x Hx. apply H3.
  rewrite <-(take_drop (length names + length js - n) names). apply elem_of_app. by right.
Qed.

(** New names are larger than those in use on the side. *)
Lemma named_retire r w rids wids js ws n1 n2 s L : NoDup (named (Some r) (Some w) rids wids s) →
  (∀ x, x ∈ named (Some r) (Some w) rids wids s → (x < L)%nat) →
  (r = s → js = seq L (length js)) → (w = s → ws = seq (if decide (r = s) then L + length js else L) (length ws)) →
  NoDup (named (Some r) (Some w) (retire rids js n1) (retire wids ws n2) s).
Proof.
  unfold named. intros Hn HL Hjs Hws. apply NoDup_app in Hn as (N1 & N12 & N2).
  assert (∀ x l m, x ∈ seq l m → (l ≤ x < l + m)%nat) as Hseq by (intros; by apply elem_of_seq).
  apply NoDup_app. split_and!.
  - destruct (decide (Some r = Some s)) as [[= E]|]; [|constructor]. apply retire_nodup; [done|rewrite (Hjs E); apply NoDup_seq|].
    intros x Hx Hj. rewrite (Hjs E) in Hj. apply Hseq in Hj. specialize (HL x). rewrite elem_of_app in HL. naive_solver lia.
  - intros x Hx1 Hx2. destruct (decide (Some r = Some s)) as [[= E]|]; [|by apply elem_of_nil in Hx1].
    destruct (decide (Some w = Some s)) as [[= E']|]; [|by apply elem_of_nil in Hx2].
    specialize (Hjs E). specialize (Hws E'). rewrite decide_True in Hws by done.
    apply retire_in in Hx1 as [Hx1|Hx1]; apply retire_in in Hx2 as [Hx2|Hx2].
    + by apply (N12 x).
    + rewrite Hws in Hx2. apply Hseq in Hx2. specialize (HL x). rewrite elem_of_app in HL. naive_solver lia.
    + rewrite Hjs in Hx1. apply Hseq in Hx1. specialize (HL x). rewrite elem_of_app in HL. naive_solver lia.
    + rewrite Hjs in Hx1. rewrite Hws in Hx2. apply Hseq in Hx1, Hx2. lia.
  - destruct (decide (Some w = Some s)) as [[= E]|]; [|constructor]. apply retire_nodup; [done|rewrite (Hws E); apply NoDup_seq|].
    intros x Hx Hj. rewrite (Hws E) in Hj. apply Hseq in Hj. specialize (HL x). rewrite elem_of_app in HL. case_decide; naive_solver lia.
Qed.

(** A name that goes out of use belongs to an answered request, a new action gets a name. *)
Lemma retired_all {A} (acts acts' : Side → list A) (ans : Side → nat → Prop) r w rids wids js ws n1 n2 :
  (∀ s j, (j < length (acts s))%nat → ans s j ∨ j ∈ named (Some r) (Some w) rids wids s) →
  (∀ j, j ∈ rids → j ∉ retire rids js n1 → ans r j) → (∀ j, j ∈ wids → j ∉ retire wids ws n2 → ans w j) →
  (∀ s j, (length (acts s) ≤ j)%nat → (j < length (acts' s))%nat → s = r ∧ j ∈ js ∨ s = w ∧ j ∈ ws) →
  ∀ s j, (j < length (acts' s))%nat → ans s j ∨ j ∈ named (Some r) (Some w) (retire rids js n1) (retire wids ws n2) s.
Proof.
  intros Hall D1 D2 Hnew s j Hj. unfold named in *. destruct (decide (j < length (acts s))%nat) as [Ho|Ho].
  - destruct (Hall s j Ho) as [Ha|Hin]; [by left|].
    apply elem_of_app in Hin as [Hin|Hin]; (destruct (decide _) as [[= <-]|]; [|by apply elem_of_nil in Hin]).
    + destruct (decide (j ∈ retire rids js n1)); [|left; by apply D1]. right. apply elem_of_app. by left.
    + destruct (decide (j ∈ retire wids ws n2)); [|left; by apply D2]. right. apply elem_of_app. by right.
  - right. apply elem_of_app. destruct (Hnew s j ltac:(lia) Hj) as [[-> Hin]|[-> Hin]]; [left|right];
      rewrite decide_True by done; by apply retire_new.
Qed.

(** ** Requests and their actions *)

Section Tracks.
Context (cfg : DmaParams) (k : Z) (m0 : Z → Z).
Hypothesis Hk : 0 ≤ k < 32.
Hypothesis Hline : dp_lineSize cfg = 2 ^ k.

(** Request [e] of the read FIFO reads at [a], as action [j] of the port. *)
Definition rd_track (acts : list Action) (ch : Channel) (j : nat) (e : DmaDoneEvent) (a : Z) : Prop :=
  ∃ act, acts !! j = Some act ∧ ac_write act = false ∧ ac_addr act = a ∧ ac_size act = _requestSize e ∧
    (_done e = true → answered (ch_port ch) j) ∧
    ∀ b o, ch_blocks ch !! j = Some b → 0 ≤ o < _requestSize e → ¬ open_at (pending (ch_port ch)) j o →
      b !! Z.to_nat o = Some (m0 (a + o)).

(** Request [e] of the write FIFO makes the write [x] to memory [m]. *)
Definition wr_track (acts : list Action) (ch : Channel) (m : Z → Z) (j : nat) (e : DmaDoneEvent) (x : DmaAction) : Prop :=
  ∃ act, acts !! j = Some act ∧ ac_write act = true ∧ ac_addr act = da_addr x ∧ ac_size act = da_len x ∧
    ch_blocks ch !! j = Some (da_data x) ∧ (_done e = true → answered (ch_port ch) j) ∧
    ∀ o, 0 ≤ o < da_len x → ¬ open_at (pending (ch_port ch)) j o → da_data x !! Z.to_nat o = Some (m (da_addr x + o)).

(** The port has taken on more, or sent something; what it had in flight is as before. *)
Record grew (acts : list Action) (ch : Channel) (acts' : list Action) (ch' : Channel) : Prop := {
  gr_ok : chan_ok cfg acts' ch';
  gr_acts : acts `prefix_of` acts';
  gr_old : ∀ j, (j < length acts)%nat → (answered (ch_port ch') j ↔ answered (ch_port ch) j) ∧
    (∀ o, open_at (pending (ch_port ch')) j o ↔ open_at (pending (ch_port ch)) j o) ∧
    ch_blocks ch' !! j = ch_blocks ch !! j;
}.

Lemma grew_refl acts ch : chan_ok cfg acts ch → grew acts ch acts ch.
Proof. by split. Qed.
Lemma grew_trans a1 c1 a2 c2 a3 c3 : grew a1 c1 a2 c2 → grew a2 c2 a3 c3 → grew a1 c1 a3 c3.
Proof.
  intros [_ P1 H1] [O2 P2 H2]. split; [done|by etrans|]. intros j Hj. destruct (H1 j Hj) as (A1 & B1 & C1).
  destruct (H2 j) as (A2 & B2 & C2); [apply prefix_length in P1; lia|].
  split_and!; [by rewrite A2|intros o; by rewrite B2|by rewrite C2].
Qed.
Lemma grew_called acts ch cs js ch' : called cfg acts ch cs js ch' → grew acts ch (acts ++ zip_with (call_action cfg) js cs) ch'.
Proof.
  intros H. split; [apply H|by apply prefix_app_r|]. intros j Hj. destruct (called_old cfg _ _ _ _ _ j H Hj) as [? ?].
  split_and!; [done..|]. by apply (cd_blocks _ _ _ _ _ _ H).
Qed.
Lemma grew_sent acts ch ch' n : sent_on cfg acts ch ch' n → grew acts ch acts ch'.
Proof.
  intros [O Hp Hbl _]. split; [done..|]. intros j _. split_and!.
  - by rewrite !answered_pending, Hp.
  - intros o. by rewrite Hp.
  - by rewrite Hbl.
Qed.

Lemma called_names acts ch cs js ch' j : called cfg acts ch cs js ch' → (length acts ≤ j)%nat →
  (j < length (acts ++ zip_with (call_action cfg) js cs))%nat → j ∈ js.
Proof.
  clear k Hk Hline. intros Hcd H1 H2. pose proof (cd_names _ _ _ _ _ _ Hcd) as E. rewrite length_app, length_zip_with in H2.
  pose proof (f_equal length E) as L. rewrite length_seq in L. rewrite E. apply elem_of_seq. lia.
Qed.

Lemma rd_track_grew a1 c1 a2 c2 j e a : grew a1 c1 a2 c2 → rd_track a1 c1 j e a → rd_track a2 c2 j e a.
Proof.
  intros [_ Hp Hold] (act & Hj & ? & ? & ? & Hd & Hbl). destruct (Hold j) as (A & B & C); [by eapply lookup_lt_Some|].
  exists act. split_and!; try done; [by eapply prefix_lookup_Some|by rewrite A|]. intros b o. rewrite C, B. apply Hbl.
Qed.
Lemma wr_track_grew a1 c1 a2 c2 m j e x : grew a1 c1 a2 c2 → wr_track a1 c1 m j e x → wr_track a2 c2 m j e x.
Proof.
  intros [_ Hp Hold] (act & Hj & ? & ? & ? & Hbl & Hd & Hm). destruct (Hold j) as (A & B & C); [by eapply lookup_lt_Some|].
  exists act. split_and!; try done; [by eapply prefix_lookup_Some|by rewrite C|by rewrite A|]. intros o. rewrite B. apply Hm.
Qed.

(** Requests just asked for. *)
Lemma rd_track_new acts ch ra js ch' new : called cfg acts ch (read_call <$> ra) js ch' → Forall (call_ok cfg) (read_call <$> ra) →
  Forall (fun e => _done e = false) new → _requestSize <$> new = ra_size <$> ra →
  Forall3 (rd_track (acts ++ zip_with (call_action cfg) js (read_call <$> ra)) ch') js new (ra_addr <$> ra).
Proof.
  intros Hcd Hok Hn Hsz. pose proof (f_equal length Hsz) as L. rewrite !length_fmap in L.
  pose proof (f_equal length (cd_names _ _ _ _ _ _ Hcd)) as Lj. rewrite length_seq, length_fmap in Lj.
  apply Forall3_by_lookup; [lia|rewrite length_fmap; lia|]. intros i j e a Hj He Ha.
  rewrite list_lookup_fmap in Ha. destruct (ra !! i) as [x|] eqn:Ex; [|done]. injection Ha as <-.
  assert ((read_call <$> ra) !! i = Some (read_call x)) as Hx by by rewrite list_lookup_fmap, Ex.
  pose proof (proj1 (Forall_lookup _ _) Hok _ _ Hx) as Hcx. pose proof Hcx as (_ & Hs & _). cbn in Hs. rewrite length_replicate in Hs.
  destruct (called_new cfg k Hk Hline _ _ _ _ _ _ _ _ Hcd Hj Hx Hcx) as (_ & Ha & Hop). cbn in Hop. rewrite length_replicate in Hop.
  assert (_requestSize e = ra_size x) as Es.
  { apply (f_equal (fun l => l !! i)) in Hsz. rewrite !list_lookup_fmap, He, Ex in Hsz. by injection Hsz. }
  pose proof (proj1 (Forall_lookup _ _) Hn _ _ He) as Hd. cbn in Hd.
  eexists. split; [exact Ha|]. cbn. rewrite length_replicate, Es. split_and!; try done; [lia|congruence|].
  intros b o _ Ho Hno. exfalso. apply Hno, Hop. lia.
Qed.
Lemma wr_track_new acts ch wa js ch' new m : called cfg acts ch (write_call <$> wa) js ch' → Forall (call_ok cfg) (write_call <$> wa) →
  Forall (fun e => _done e = false) new → _requestSize <$> new = da_len <$> wa →
  Forall3 (wr_track (acts ++ zip_with (call_action cfg) js (write_call <$> wa)) ch' m) js new wa.
Proof.
  intros Hcd Hok Hn Hsz. pose proof (f_equal length Hsz) as L. rewrite !length_fmap in L.
  pose proof (f_equal length (cd_names _ _ _ _ _ _ Hcd)) as Lj. rewrite length_seq, length_fmap in Lj.
  apply Forall3_by_lookup; [lia..|]. intros i j e x Hj He Ex.
  assert ((write_call <$> wa) !! i = Some (write_call x)) as Hx by by rewrite list_lookup_fmap, Ex.
  pose proof (proj1 (Forall_lookup _ _) Hok _ _ Hx) as Hcx.
  destruct (called_new cfg k Hk Hline _ _ _ _ _ _ _ _ Hcd Hj Hx Hcx) as (Hbl & Ha & Hop).
  pose proof (proj1 (Forall_lookup _ _) Hn _ _ He) as Hd. cbn in Hd.
  eexists. split; [exact Ha|]. split_and!; try done; [congruence|].
  intros o Ho Hno. exfalso. by apply Hno, Hop.
Qed.
End Tracks.

(** ** The invariant *)

Lemma the_ch_set c s ch s' : the_ch (set_ch c s ch) s' = if decide (s' = s) then ch else the_ch c s'.
Proof. by destruct s, s'. Qed.
Lemma set_ch_set c s ch ch' : set_ch (set_ch c s ch) s ch' = set_ch c s ch'.
Proof. by destruct s. Qed.

(** What is in flight on both ports. *)
Definition in_ports (c : DmaSys) : Z :=
  pendingCount (ch_port (the_ch c MemSide)) + pendingCount (ch_port (the_ch c AccSide)).
Definition load (c : DmaSys) : Z :=
  Z.of_nat (weight (ch_port (the_ch c MemSide))) + Z.of_nat (weight (ch_port (the_ch c AccSide))).

(** Memory [m] is [m'] but for the writes in flight. *)
Definition mem_rel (pend : list DmaDoneEvent) (wq : list DmaAction) (m m' : Z → Z) : Prop :=
  ∀ x, (∀ i e y, pend !! i = Some e → wq !! i = Some y → _done e = false → ¬ (da_addr y ≤ x < da_addr y + da_len y)) → m x = m' x.

Lemma mem_rel_advance pend pend' wq wa m m' szs : mem_rel pend wq m m' → advance pend pend' szs → length szs = length wa →
  length pend = length wq → mem_rel pend' (drop (length pend + length szs - length pend') wq ++ wa) m m'.
Proof.
  intros Hm (mv & rest & new & -> & -> & Hmv & _ & Hsz) Hl Hlw x Hx. pose proof (f_equal length Hsz) as L. rewrite length_fmap in L.
  rewrite !length_app in *. replace (length mv + length rest + length szs - (length rest + length new))%nat with (length mv) in Hx by lia.
  apply Hm. intros i e y He Hy Hd. destruct (decide (i < length mv)%nat) as [Hi|Hi].
  - rewrite lookup_app_l in He by done. rewrite Forall_lookup in Hmv. specialize (Hmv _ _ He). cbn in Hmv. congruence.
  - rewrite lookup_app_r in He by lia. pose proof (lookup_lt_Some _ _ _ He). apply (Hx (i - length mv)%nat e y); [|  |done].
    + by rewrite lookup_app_l.
    + rewrite lookup_app_l by (rewrite length_drop; lia). rewrite lookup_drop.
      by replace (length mv + (i - length mv))%nat with i by lia.
Qed.

Section Sys.
Context (p : NDParams) (cfg : DmaParams) (k : Z) (P : nat) (m0 : Z → Z) (src dst len : Z).
Hypothesis Hc : nd_config p P.
Hypothesis Hb : block_ok src dst len.
Hypothesis Hk : 0 ≤ k < 32.
Hypothesis Hline : dp_lineSize cfg = 2 ^ k.
Hypothesis Hroom : src + len + dp_lineSize cfg < 2 ^ 64 ∧ dst + len + dp_lineSize cfg < 2 ^ 64.

Abbreviation Phase := (phase p P m0 src dst len).

(** [c] stands for the state [v] of [NoncoherentDmaSpec], with [acts] the actions each
    port was ever given, [iss] bytes asked for and [kk] left to do. *)
Record SInv (n : nat) (fl : Z) (g0 : list GicCall) (c : DmaSys) (v : NDEnv) (acts : Side → list Action) (iss kk : Z) : Prop := {
  si_dev : ds_dev c = dev v;
  si_phase : Phase n fl g0 v kk;
  si_ch : ∀ s, chan_ok cfg (acts s) (the_ch c s);
  si_r : match readFifo (dev v) with
         | Some s => Forall3 (rd_track m0 (acts s) (the_ch c s)) (ds_rids c) (rd_pend (dev v)) (raddrs v)
         | None => ds_rids c = [] end;
  si_w : match writeFifo (dev v) with
         | Some s => Forall3 (wr_track (acts s) (the_ch c s) (ds_memory c)) (ds_wids c) (wr_pend (dev v)) (wacts v)
         | None => ds_wids c = [] end;
  si_nodup : ∀ s, NoDup (named (readFifo (dev v)) (writeFifo (dev v)) (ds_rids c) (ds_wids c) s);
  si_all : ∀ s j, (j < length (acts s))%nat → answered (ch_port (the_ch c s)) j ∨
             j ∈ named (readFifo (dev v)) (writeFifo (dev v)) (ds_rids c) (ds_wids c) s;
  si_mem : mem_rel (wr_pend (dev v)) (wacts v) (ds_memory c) (mem v);
  si_pos : pos_ok src dst len v iss;
  si_count : in_ports c ≤ iss;
}.

(** ** Asking for actions *)

Lemma issue_side env cs s : ∀ c, issue_calls cfg env c (pair s <$> cs) =
  (let* (js, ch) := ch_calls cfg (env s) (the_ch c s) cs in Ok (js, set_ch c s ch)).
Proof.
  induction cs as [|x cs IH]; intros c; cbn [issue_calls ch_calls fmap list_fmap].
  { cbn. by destruct c, s. }
  destruct (ch_call cfg (env s) (the_ch c s) x) as [[j ch]|]; cbn [mbind outcome_bind]; [|done].
  rewrite IH, the_ch_set, decide_True by done. destruct (ch_calls _ _ _ _) as [[js ch']|]; cbn [mbind outcome_bind]; [|done].
  by rewrite set_ch_set.
Qed.

Lemma count_pos acts ch : chan_ok cfg acts ch → 0 ≤ pendingCount (ch_port ch).
Proof. intros H. destruct (chan_core cfg k Hk Hline _ _ H) as [HC _]. rewrite (co_count _ _ _ HC). lia. Qed.

(** The actions of one side, all accepted. *)
Lemma issue_calls_ok env c s cs (acts : Side → list Action) : (∀ s, chan_ok cfg (acts s) (the_ch c s)) → de_mode (env s) = Timing →
  Forall (call_ok cfg) cs → in_ports c + Z.of_nat (calls_size cs) < 2 ^ 32 →
  ∃ js ch', issue_calls cfg env c (pair s <$> cs) = Ok (js, set_ch c s ch') ∧ called cfg (acts s) (the_ch c s) cs js ch' ∧
    in_ports (set_ch c s ch') ≤ in_ports c + Z.of_nat (calls_size cs) ∧
    load (set_ch c s ch') ≤ load c + 2 * Z.of_nat (calls_size cs).
Proof.
  intros Hch Hm Hcs Hb'. pose proof (count_pos _ _ (Hch MemSide)). pose proof (count_pos _ _ (Hch AccSide)).
  destruct (ch_calls_ok cfg k Hk Hline (env s) cs (acts s) (the_ch c s) (Hch s) Hm Hcs) as (js & ch' & E & Hcd & Hle).
  { unfold in_ports in Hb'. destruct s; lia. }
  exists js, ch'. rewrite issue_side, E. cbn [mbind outcome_bind]. split_and!; [done|done|..].
  - unfold in_ports. destruct s; cbn in *; lia.
  - pose proof (cd_weight _ _ _ _ _ _ Hcd). unfold load. destruct s; cbn in *; lia.
Qed.

Definition upd (acts : Side → list Action) (s : Side) (l : list Action) : Side → list Action :=
  fun s' => if decide (s' = s) then l else acts s'.

Lemma grew_issue c s ch' acts cs js : (∀ s, chan_ok cfg (acts s) (the_ch c s)) → called cfg (acts s) (the_ch c s) cs js ch' →
  ∀ s', grew cfg (acts s') (the_ch c s') (upd acts s (acts s ++ zip_with (call_action cfg) js cs) s') (the_ch (set_ch c s ch') s').
Proof.
  intros Hch Hcd s'. rewrite the_ch_set. unfold upd. destruct (decide (s' = s)) as [->|]; [by apply grew_called|by apply grew_refl].
Qed.

Lemma reads_calls a ra b : reads a ra b → Forall (fun x => 0 < ra_size x) ra ∧ Z.of_nat (calls_size (read_call <$> ra)) = b - a ∧
  Forall (fun x => a ≤ ra_addr x ∧ ra_addr x + ra_size x ≤ b) ra ∧ a ≤ b.
Proof.
  revert a. induction ra as [|x ra IH]; intros a; cbn [reads]; [intros ->; cbn; split_and!; try done; lia|].
  intros (Ha & Hx & Hr). destruct (IH _ Hr) as (H1 & H2 & H3 & H4). split_and!; [by constructor| | |lia].
  - unfold calls_size in *. cbn. rewrite length_replicate. lia.
  - constructor; [lia|]. eapply Forall_impl; [exact H3|]. cbn. lia.
Qed.
Lemma writes_calls a wa b : writes a wa b → Z.of_nat (calls_size (write_call <$> wa)) = b - a ∧
  Forall (fun x => 0 < da_len x ∧ a ≤ da_addr x ∧ da_addr x + da_len x ≤ b) wa ∧ a ≤ b.
Proof.
  intros [Hw Hp]. revert a Hw. induction Hp as [|x wa Hx _ IH]; intros a; cbn [contiguous]; [intros ->; cbn; split_and!; try done; lia|].
  intros (Ha & Hr). destruct (IH _ Hr) as (H2 & H3 & H4). unfold da_len in *. split_and!; [| |lia].
  - unfold calls_size in *. cbn. lia.
  - constructor; [lia|]. eapply Forall_impl; [exact H3|]. cbn. lia.
Qed.

Lemma read_calls_ok a ra b : reads a ra b → src ≤ a → b ≤ src + len → Forall (call_ok cfg) (read_call <$> ra).
Proof.
  intros Hr Ha Hb'. destruct Hb as [Hl Hs _ _]. destruct (reads_calls _ _ _ Hr) as (H1 & _ & H3 & _). apply Forall_fmap.
  apply Forall_forall. intros x Hx. rewrite Forall_forall in H1, H3. specialize (H1 _ Hx). specialize (H3 _ Hx). cbn in H1, H3.
  unfold call_ok, act_ok. cbn. rewrite length_replicate. lia.
Qed.
Lemma write_calls_ok a wa b : writes a wa b → dst ≤ a → b ≤ dst + len → Forall (call_ok cfg) (write_call <$> wa).
Proof.
  intros Hr Ha Hb'. destruct Hb as [Hl _ Hs _]. destruct (writes_calls _ _ _ Hr) as (_ & H3 & _). apply Forall_fmap.
  apply Forall_forall. intros x Hx. rewrite Forall_forall in H3. specialize (H3 _ Hx). cbn in H3.
  unfold call_ok, act_ok. cbn. unfold da_len in *. lia.
Qed.

(** ** An event of the device *)

Lemma pair_calls {A} (f : A → DmaCall) (s : Side) (l : list A) : (fun '(s, a) => (s, f a)) <$> (pair s <$> l) = pair s <$> (f <$> l).
Proof. by rewrite <-!list_fmap_compose. Qed.

Lemma device_ok n fl g0 env c v acts iss v' kk rp wp r w a b ra wa :
  (∀ s, de_mode (env s) = Timing) → ds_dev c = dev v → (∀ s, chan_ok cfg (acts s) (the_ch c s)) →
  Forall3 (rd_track m0 (acts r) (the_ch c r)) (ds_rids c) rp (raddrs v) →
  Forall3 (wr_track (acts w) (the_ch c w) (ds_memory c)) (ds_wids c) wp (wacts v) →
  (∀ s, NoDup (named (Some r) (Some w) (ds_rids c) (ds_wids c) s)) →
  (∀ s j, (j < length (acts s))%nat → answered (ch_port (the_ch c s)) j ∨ j ∈ named (Some r) (Some w) (ds_rids c) (ds_wids c) s) →
  mem_rel wp (wacts v) (ds_memory c) (mem v') → pos_ok src dst len v iss → in_ports c ≤ iss → 0 ≤ iss →
  Phase n fl g0 v' kk → ev_moves src dst len v v' rp wp r w a b ra wa →
  ∃ c' acts' iss', ds_device cfg env c (dev v') = Ok c' ∧ SInv n fl g0 c' v' acts' iss' kk ∧ iss ≤ iss' ∧
    load c' ≤ load c + 2 * (iss' - iss).
Proof.
  intros Hm Hdev Hch Hr Hw Hnd Hall Hmem Hpos Hcnt Hiss Hph [[Erf Ewf Erl Ewl Arp Awp Hre Hwr] Era Ewa (R1 & R2 & R3 & R4) Hps].
  pose proof (Hps iss Hpos) as Hpos'. pose proof (pos_bounds _ _ _ _ _ _ Hb _ _ _ _ _ _ Hph Hpos') as Hbd.
  destruct (reads_calls _ _ _ Hre) as (_ & Sr & _ & Lr). destruct (writes_calls _ _ _ Hwr) as (Sw & _ & Lw).
  assert (2 * len < 2 ^ 32) as Hlen by (destruct Hb; lia).
  set (iss' := iss + _ + _) in *.
  pose proof (read_calls_ok _ _ _ Hre R1 R2) as Okr. pose proof (write_calls_ok _ _ _ Hwr R3 R4) as Okw.
  destruct (issue_calls_ok env c r (read_call <$> ra) acts Hch (Hm r) Okr ltac:(lia)) as (js & chr & E1 & C1 & P1 & W1).
  set (c1 := set_ch c r chr) in *. pose proof (grew_issue c r chr acts _ js Hch C1) as G1.
  set (acts1 := upd acts r _) in *. assert (∀ s, chan_ok cfg (acts1 s) (the_ch c1 s)) as Hch1 by (intros s; apply G1).
  destruct (issue_calls_ok env c1 w (write_call <$> wa) acts1 Hch1 (Hm w) Okw ltac:(lia)) as (ws & chw & E2 & C2 & P2 & W2).
  set (c2 := set_ch c1 w chw) in *. pose proof (grew_issue c1 w chw acts1 _ ws Hch1 C2) as G2.
  set (acts2 := upd acts1 w _) in *.
  assert (∀ s, grew cfg (acts s) (the_ch c s) (acts2 s) (the_ch c2 s)) as G by (intros s; by eapply grew_trans).
  assert (rd_pend (dev v') = rpend (dev v') r ∧ wr_pend (dev v') = wpend (dev v') w) as [Ep1 Ep2]
    by (unfold rd_pend, wr_pend; by rewrite Erf, Ewf).
  assert (acts1 r = acts r ++ zip_with (call_action cfg) js (read_call <$> ra) ∧ the_ch c1 r = chr) as [A1 K1]
    by (unfold acts1, upd, c1; by rewrite the_ch_set, !decide_True).
  assert (acts2 w = acts1 w ++ zip_with (call_action cfg) ws (write_call <$> wa) ∧ the_ch c2 w = chw) as [A2 K2]
    by (unfold acts2, upd, c2; by rewrite the_ch_set, !decide_True).
  pose proof (f_equal length (cd_names _ _ _ _ _ _ C1)) as Ljs. rewrite length_seq, length_fmap in Ljs.
  pose proof (f_equal length (cd_names _ _ _ _ _ _ C2)) as Lws. rewrite length_seq, length_fmap in Lws.
  destruct (retire_track (rd_track m0 (acts2 r) (the_ch c2 r)) (ds_rids c) rp (raddrs v) _ _ js (ra_addr <$> ra)
    ltac:(eapply Forall3_impl; [exact Hr|intros ??? Hx; eapply rd_track_grew; [apply G|exact Hx]]) Arp ltac:(by rewrite length_fmap)) as [T1 D1].
  { intros new Hn Hsz. eapply Forall3_impl; [exact (rd_track_new cfg k m0 Hk Hline (acts r) (the_ch c r) ra js chr new C1 Okr Hn Hsz)|]. intros j e x Hx. eapply rd_track_grew; [|exact Hx].
    specialize (G2 r). rewrite A1, K1 in G2. exact G2. }
  destruct (retire_track (wr_track (acts2 w) (the_ch c2 w) (ds_memory c)) (ds_wids c) wp (wacts v) _ _ ws wa
    ltac:(eapply Forall3_impl; [exact Hw|intros ??? Hx; eapply wr_track_grew; [apply G|exact Hx]]) Awp ltac:(by rewrite length_fmap)) as [T2 D2].
  { intros new Hn Hsz. rewrite A2, K2.
    exact (wr_track_new cfg k Hk Hline (acts1 w) (the_ch c1 w) wa ws chw new (ds_memory c) C2 Okw Hn Hsz). }
  rewrite length_fmap in T1. rewrite length_fmap in T2.
  assert (∀ s x, x ∈ named (Some r) (Some w) (ds_rids c) (ds_wids c) s → (x < length (acts s))%nat) as Hlt.
  { intros s x [Hx|Hx]%elem_of_app; (destruct (decide _) as [[= <-]|]; [|by apply elem_of_nil in Hx]);
      apply list_elem_of_lookup in Hx as [i Hi].
    - destruct (Forall3_lookup_l _ _ _ _ _ _ Hr Hi) as (? & ? & _ & _ & act & Ha & _). by eapply lookup_lt_Some.
    - destruct (Forall3_lookup_l _ _ _ _ _ _ Hw Hi) as (? & ? & _ & _ & act & Ha & _). by eapply lookup_lt_Some. }
  set (c' := mkDmaSys (dev v') (ds_memCh c2) (ds_accCh c2) (retire (ds_rids c) js (length (rd_pend (dev v'))))
    (retire (ds_wids c) ws (length (wr_pend (dev v')))) (ds_memory c)).
  assert (∀ s, the_ch c' s = the_ch c2 s) as Kc by by intros [].
  exists c', acts2, iss'. split_and!; [| |lia|].
  - unfold ds_device. rewrite Hdev, Erl, Ewl, !drop_app_length, (pair_calls read_call), (pair_calls write_call), E1.
    cbn [mbind outcome_bind]. rewrite E2. done.
  - split; rewrite ?Erf, ?Ewf; try done; cbn [ds_rids ds_wids ds_memory c'].
    + intros s. rewrite Kc. apply G.
    + rewrite Kc, Ep1, Era. exact T1.
    + rewrite Kc, Ep2, Ewa. exact T2.
    + intros s. apply (named_retire _ _ _ _ _ _ _ _ _ (length (acts s))); [apply Hnd|apply Hlt| |].
      * intros <-. rewrite Ljs. rewrite (cd_names _ _ _ _ _ _ C1) at 1. by rewrite length_fmap.
      * intros <-. rewrite (cd_names _ _ _ _ _ _ C2) at 1. rewrite length_fmap, <-Lws. f_equal. unfold acts1, upd.
        destruct (decide (w = r)) as [->|]; [|by rewrite decide_False].
        rewrite decide_True, length_app, length_zip_with, length_fmap by done. lia.
    + intros s j Hj. rewrite Kc. revert s j Hj.
      apply (retired_all acts acts2 (fun s => answered (ch_port (the_ch c2 s)))).
      * intros s j Hj. destruct (Hall s j Hj); [left; by apply (gr_old _ _ _ _ _ (G s))|by right].
      * rewrite Ep1. intros j H1 H2. destruct (D1 j H1 H2) as (e & x & Hd & act & _ & _ & _ & _ & Ha & _). by apply Ha.
      * rewrite Ep2. intros j H1 H2. destruct (D2 j H1 H2) as (e & x & Hd & act & _ & _ & _ & _ & _ & Ha & _). by apply Ha.
      * intros s j H1 H2. destruct (decide (j < length (acts1 s))%nat) as [H3|H3].
        -- left. unfold acts1, upd in H3. destruct (decide (s = r)) as [->|]; [|lia]. split; [done|]. eapply called_names; [exact C1|lia..].
        -- right. unfold acts2, upd in H2. destruct (decide (s = w)) as [->|]; [|lia]. split; [done|]. eapply called_names; [exact C2|lia..].
    + rewrite Ep2, Ewa. pose proof (mem_rel_advance _ _ _ wa _ _ _ Hmem Awp) as Hx. rewrite length_fmap in Hx.
      apply Hx; [done|]. rewrite <-(Forall3_length_lm _ _ _ _ Hw). by eapply Forall3_length_lr.
    + change (in_ports c2 ≤ iss'). unfold iss'. lia.
  - change (load c2 ≤ load c + 2 * (iss' - iss)). unfold iss'. lia.
Qed.
End Sys.
