(* ===== verification/DmaSystemSpec.v ===== *)
(** Correctness of the DMA device on its ports: a transfer copies its block, packet by
    packet and in whatever order the packets are answered, and comes to its end. *)
From stdpp Require Import gmap.
From S2P Require Import Prelude CircularQueue ByteFifo DmaEvents DmaReadFifo DmaWriteFifo DmaProgress NoncoherentDma NoncoherentDmaSpec DmaPort DmaPortSpec DmaSystem DmaChannel DmaDevice DmaSystemInv.

#[local] Open Scope Z_scope.

(** ** Ranges of the writes in flight *)

Lemma contiguous_elem a xs b i y : contiguous a xs b → xs !! i = Some y → a ≤ da_addr y ∧ da_addr y + da_len y ≤ b.
Proof.
  intros Hc Hi. rewrite <-(take_drop_middle xs i y Hi) in Hc. apply contiguous_disjoint in Hc as (_ & _ & ? & ?). done.
Qed.
Lemma contiguous_apart a xs b i j y z : contiguous a xs b → xs !! i = Some y → xs !! j = Some z → i ≠ j →
  da_addr y + da_len y ≤ da_addr z ∨ da_addr z + da_len z ≤ da_addr y.
Proof.
  intros Hc Hi Hj Hne. rewrite <-(take_drop_middle xs i y Hi) in Hc. apply contiguous_disjoint in Hc as (H1 & H2 & _).
  destruct (decide (j < i)%nat).
  - right. rewrite Forall_lookup in H1. apply (H1 j). by rewrite lookup_take_lt.
  - left. rewrite Forall_lookup in H2. apply (H2 (j - S i)%nat). rewrite lookup_drop. by replace (S i + (j - S i))%nat with j by lia.
Qed.

(** ** A packet answered *)

Lemma open_cons pk ps j o : open_at (pk :: ps) j o → ¬ open_at ps j o →
  senderState pk = j ∧ ∃ d, dk_data pk = Some d ∧ d ≤ o < d + dk_size pk.
Proof.
  intros (pk' & d & Hin & E & Hd & Ho) Hno. apply elem_of_cons in Hin as [->|Hin]; [eauto|]. exfalso. apply Hno. by exists pk', d.
Qed.
Lemma open_other pk ps j o : senderState pk ≠ j → open_at (pk :: ps) j o ↔ open_at ps j o.
Proof.
  intros Hne. split; intros (pk' & d & Hin & E & ?); exists pk', d; (split; [|done]); [|by right].
  apply elem_of_cons in Hin as [->|]; done.
Qed.
Lemma answered_mono ps qs pk j : qs ≡ₚ pk :: ps → Forall (fun pk => senderState pk ≠ j) qs → Forall (fun pk => senderState pk ≠ j) ps.
Proof. intros -> [_ H]%Forall_cons. done. Qed.

Section Resp.
Context (cfg : DmaParams) (m0 : Z → Z).

Lemma rd_track_resp acts ch m ch' m' j e a : resp_on cfg acts ch m ch' m' → rd_track m0 acts ch j e a →
  (∀ x, a ≤ x < a + _requestSize e → m x = m0 x) → rd_track m0 acts ch' j e a.
Proof.
  intros [_ _ (pk & act & d & b & b' & Hp & Ha & Hd & H0 & Hs & Hle & Hb & Hlen & Hb' & Hcase)] (act' & Hj & Hw & Ea & Es & Han & Hbl) Hm.
  exists act'. split_and!; try done.
  { intros He. specialize (Han He). rewrite answered_pending in *. by eapply answered_mono. }
  intros x o Hx Ho Hno. rewrite Hb' in Hx. destruct (decide (senderState pk = j)) as [<-|Hne].
  - rewrite Ha in Hj. injection Hj as ->. rewrite Hw, Ea in Hcase. destruct Hcase as [_ Hmw]. rewrite lookup_insert_eq in Hx. injection Hx as <-.
    destruct (decide (d ≤ o < d + dk_size pk)) as [Hin|Hout].
    + pose proof (mem_write_read _ _ _ _ Hmw) as Hr. rewrite length_bytes, Z2Nat.id in Hr by lia.
      unfold mem_read in Hr. destruct (in_block _ _ _); [|done]. injection Hr as Hr.
      apply (f_equal (fun l => l !! Z.to_nat (o - d))) in Hr. rewrite lookup_take_lt, lookup_drop in Hr by lia.
      replace (Z.to_nat d + Z.to_nat (o - d))%nat with (Z.to_nat o) in Hr by lia. rewrite Hr. unfold bytes.
      rewrite list_lookup_fmap, lookup_seqZ_lt by lia. cbn. rewrite Z2Nat.id by lia.
      replace (a + d + (o - d)) with (a + o) by lia. f_equal. apply Hm. lia.
    + rewrite (mem_write_lookup _ _ _ _ _ Hmw) by (rewrite length_bytes; lia). apply Hbl; [done|done|].
      rewrite Hp. intros Hop. destruct (open_cons _ _ _ _ Hop Hno) as (_ & d' & Hd' & ?). simplify_eq. lia.
  - rewrite lookup_insert_ne in Hx by done. apply Hbl; [done|done|]. by rewrite Hp, open_other.
Qed.

Lemma wr_track_resp acts ch m ch' m' j e x : resp_on cfg acts ch m ch' m' → wr_track acts ch m j e x →
  (∀ pk act, pk ∈ pending (ch_port ch) → senderState pk ≠ j → acts !! senderState pk = Some act → ac_write act = true →
     ac_addr act + ac_size act ≤ da_addr x ∨ da_addr x + da_len x ≤ ac_addr act) →
  wr_track acts ch' m' j e x.
Proof.
  intros [_ _ (pk & act & d & b & b' & Hp & Ha & Hd & H0 & Hs & Hle & Hb & Hlen & Hb' & Hcase)] (act' & Hj & Hw & Ea & Es & Hbl & Han & Hm) Hap.
  assert (pk ∈ pending (ch_port ch)) as Hin by (rewrite Hp; by left).
  exists act'. destruct (decide (senderState pk = j)) as [<-|Hne].
  - rewrite Ha in Hj. injection Hj as ->. rewrite Hw, Ea in Hcase. destruct Hcase as [-> ->]. rewrite Hbl in Hb. injection Hb as <-.
    split_and!; try done; [by rewrite Hb', lookup_insert_eq|
      intros He; specialize (Han He); rewrite answered_pending in *; by eapply answered_mono|].
    intros o Ho Hno. destruct (decide (d ≤ o < d + dk_size pk)) as [Hr|Hr].
    + unfold mem_put. rewrite length_take, length_drop. rewrite (proj2 (Z.leb_le _ _)), (proj2 (Z.ltb_lt _ _)) by (unfold da_len in *; lia).
      cbn. replace (Z.to_nat (da_addr x + o - (da_addr x + d))) with (Z.to_nat (o - d)) by lia.
      rewrite lookup_take_lt, lookup_drop by lia. replace (Z.to_nat d + Z.to_nat (o - d))%nat with (Z.to_nat o) by lia.
      destruct (da_data x !! Z.to_nat o) eqn:E; [done|]. apply lookup_ge_None in E. unfold da_len in *. lia.
    + rewrite mem_put_out by (rewrite length_take, length_drop; unfold da_len in *; lia). apply Hm; [done|].
      rewrite Hp. intros Hop. destruct (open_cons _ _ _ _ Hop Hno) as (_ & d' & Hd' & ?). simplify_eq. lia.
  - split_and!; try done; [by rewrite Hb', lookup_insert_ne|
      intros He; specialize (Han He); rewrite answered_pending in *; by eapply answered_mono|].
    intros o Ho Hno. rewrite (Hm o Ho) by by rewrite Hp, open_other. destruct (ac_write act) eqn:Ew.
    + destruct Hcase as [_ ->]. rewrite mem_put_out; [done|]. rewrite length_take, length_drop.
      destruct (Hap pk act Hin Hne Ha Ew); lia.
    + by destruct Hcase as [-> _].
Qed.
End Resp.

(** ** Steps *)

Section Sys.
Context (p : NDParams) (cfg : DmaParams) (k : Z) (P : nat) (m0 : Z → Z) (src dst len : Z).
Hypothesis Hc : nd_config p P.
Hypothesis Hb : block_ok src dst len.
Hypothesis Hk : 0 ≤ k < 32.
Hypothesis Hline : dp_lineSize cfg = 2 ^ k.
Hypothesis Hroom : src + len + dp_lineSize cfg < 2 ^ 64 ∧ dst + len + dp_lineSize cfg < 2 ^ 64.

Abbreviation Inv := (SInv p cfg P m0 src dst len).

Lemma inv_weaken n fl g0 c v acts iss kk : Inv (S n) fl g0 c v acts iss kk → Inv n fl g0 c v acts iss kk.
Proof. intros []. split; try done. by apply phase_weaken. Qed.

Lemma ports_pending (acts : Side → list Action) c : (∀ s, chan_ok cfg (acts s) (the_ch c s)) →
  in_ports c = Z.of_nat (length (pending (ch_port (the_ch c MemSide))) + length (pending (ch_port (the_ch c AccSide)))).
Proof.
  intros Hch. unfold in_ports. destruct (chan_core cfg k Hk Hline _ _ (Hch MemSide)) as [H1 _].
  destruct (chan_core cfg k Hk Hline _ _ (Hch AccSide)) as [H2 _]. rewrite (co_count _ _ _ H1), (co_count _ _ _ H2). lia.
Qed.

Lemma inv_sent n fl g0 c v acts iss kk s ch' m : Inv n fl g0 c v acts iss kk → sent_on cfg (acts s) (the_ch c s) ch' m →
  Inv n fl g0 (set_ch c s ch') v acts iss kk ∧ load (set_ch c s ch') = load c - Z.of_nat m.
Proof.
  intros HI Hs. pose proof HI as [Hdev Hph Hch Hr Hw Hnd Hall Hmem Hpos Hcnt].
  assert (∀ s', grew cfg (acts s') (the_ch c s') (acts s') (the_ch (set_ch c s ch') s')) as G.
  { intros s'. rewrite the_ch_set. destruct (decide (s' = s)) as [->|]; [by eapply grew_sent|by apply grew_refl]. }
  split.
  - split; try done.
    + intros s'. apply G.
    + destruct (readFifo (dev v)); [|done]. eapply Forall3_impl; [exact Hr|]. intros ??? Hx. eapply rd_track_grew; [apply G|exact Hx].
    + destruct (writeFifo (dev v)); [|done]. eapply Forall3_impl; [exact Hw|]. intros ??? Hx. eapply wr_track_grew; [apply G|exact Hx].
    + intros s' j Hj. destruct (Hall s' j Hj) as [Ha|Ha]; [left|by right]. by apply (gr_old _ _ _ _ _ (G s') j Hj).
    + rewrite (ports_pending acts) by (intros; apply G). rewrite (ports_pending acts) in Hcnt by done.
      pose proof (Permutation_length (so_pending _ _ _ _ _ Hs)). destruct s; cbn in *; lia.
  - pose proof (so_weight _ _ _ _ _ Hs). unfold load. destruct s; cbn in *; lia.
Qed.

Lemma inv_flight n fl g0 c v acts iss kk : Inv n fl g0 c v acts iss kk → in_flight m0 src dst len v.
Proof. intros []. by eapply phase_flight. Qed.

(** The source is as it was at the start. *)
Lemma inv_memory n fl g0 c v acts iss kk x : Inv n fl g0 c v acts iss kk → ¬ (dst ≤ x < dst + len) → ds_memory c x = m0 x.
Proof.
  intros HI Hx. pose proof (inv_flight _ _ _ _ _ _ _ _ HI) as [_ _ _ (old & b & Hct & Hle) Hfr].
  rewrite <-(Hfr x Hx). apply (si_mem _ _ _ _ _ _ _ _ _ _ _ _ _ _ _ HI). intros i e y _ Hy _.
  assert ((old ++ wacts v) !! (length old + i)%nat = Some y) as Hy' by by rewrite lookup_app_r, Nat.add_sub' by lia.
  pose proof (contiguous_elem _ _ _ _ _ Hct Hy'). lia.
Qed.

(** The request a packet in flight belongs to. *)
Lemma packet_request n fl g0 c v acts iss kk s pk : Inv n fl g0 c v acts iss kk → pk ∈ pending (ch_port (the_ch c s)) →
  (readFifo (dev v) = Some s ∧ ∃ i e a, ds_rids c !! i = Some (senderState pk) ∧ rd_pend (dev v) !! i = Some e ∧ raddrs v !! i = Some a ∧
     _done e = false ∧ rd_track m0 (acts s) (the_ch c s) (senderState pk) e a) ∨
  (writeFifo (dev v) = Some s ∧ ∃ i e y, ds_wids c !! i = Some (senderState pk) ∧ wr_pend (dev v) !! i = Some e ∧ wacts v !! i = Some y ∧
     _done e = false ∧ wr_track (acts s) (the_ch c s) (ds_memory c) (senderState pk) e y).
Proof.
  intros [Hdev Hph Hch Hr Hw Hnd Hall Hmem Hpos Hcnt] Hpk.
  destruct (packet_action cfg k Hk Hline _ _ _ (Hch s) Hpk) as (act & d & Ha & _).
  assert (¬ answered (ch_port (the_ch c s)) (senderState pk)) as Hna.
  { rewrite answered_pending, Forall_forall. intros H. by apply (H pk Hpk). }
  destruct (Hall s (senderState pk)) as [?|Hin]; [by eapply lookup_lt_Some|done|].
  apply elem_of_app in Hin as [Hin|Hin]; (destruct (decide _) as [E|]; [|by apply elem_of_nil in Hin]); [left|right]; (split; [done|]);
    rewrite E in *; apply list_elem_of_lookup in Hin as [i Hi].
  - destruct (Forall3_lookup_l _ _ _ _ _ _ Hr Hi) as (e & a & He & Hx & Ht). exists i, e, a. split_and!; try done.
    destruct (_done e) eqn:Ed; [|done]. destruct Ht as (? & _ & _ & _ & _ & Han & _). by destruct (Hna (Han Ed)).
  - destruct (Forall3_lookup_l _ _ _ _ _ _ Hw Hi) as (e & y & He & Hx & Ht). exists i, e, y. split_and!; try done.
    destruct (_done e) eqn:Ed; [|done]. destruct Ht as (? & _ & _ & _ & _ & _ & Han & _). by destruct (Hna (Han Ed)).
Qed.

Lemma the_ch_memory c m s : the_ch (set_memory c m) s = the_ch c s.
Proof. by destruct s. Qed.

(** A write packet belongs to another request than the [i]-th one: it writes elsewhere. *)
Lemma write_apart n fl g0 c v acts iss kk s i e j y pk act : Inv n fl g0 c v acts iss kk → writeFifo (dev v) = Some s →
  ds_wids c !! i = Some j → wr_pend (dev v) !! i = Some e → wacts v !! i = Some y →
  pk ∈ pending (ch_port (the_ch c s)) → senderState pk ≠ j → acts s !! senderState pk = Some act → ac_write act = true →
  ac_addr act + ac_size act ≤ da_addr y ∨ da_addr y + da_len y ≤ ac_addr act.
Proof.
  intros HI Hws Hj He Hy Hpk Hne Ha Hwr. destruct (packet_request _ _ _ _ _ _ _ _ _ _ HI Hpk) as
    [(_ & i' & e' & a' & _ & _ & _ & _ & act' & Ha' & Hf & _)|(_ & i' & e' & y' & Hi' & _ & Hy' & _ & act' & Ha' & _ & Ea & Es & _)].
  - rewrite Ha in Ha'. injection Ha' as <-. congruence.
  - rewrite Ha in Ha'. injection Ha' as <-. rewrite Ea, Es. assert (i' ≠ i) as Hii by (intros ->; congruence).
    pose proof (inv_flight _ _ _ _ _ _ _ _ HI) as [_ _ _ (old & b & Hct & _) _].
    eapply (contiguous_apart _ _ _ (length old + i') (length old + i)); [exact Hct| | |lia]; by rewrite lookup_app_r, Nat.add_sub' by lia.
Qed.

Lemma inv_resp n fl g0 c v acts iss kk s ch' m' : Inv n fl g0 c v acts iss kk →
  resp_on cfg (acts s) (the_ch c s) (ds_memory c) ch' m' →
  Inv n fl g0 (set_memory (set_ch c s ch') m') v acts iss kk ∧ load (set_memory (set_ch c s ch') m') = load c - 1.
Proof.
  intros HI Hro. pose proof HI as [Hdev Hph Hch Hr Hw Hnd Hall Hmem Hpos Hcnt].
  pose proof Hro as [Hok Hwt (pk & act & d & b & b' & Hp & Ha & Hd & H0 & Hs & Hle & Hbl & Hlen & Hb' & Hcase)].
  assert (pk ∈ pending (ch_port (the_ch c s))) as Hpk by (rewrite Hp; by left).
  set (c' := set_memory (set_ch c s ch') m').
  assert (∀ s', the_ch c' s' = if decide (s' = s) then ch' else the_ch c s') as Kc by (intros s'; unfold c'; by rewrite the_ch_memory, the_ch_set).
  assert (∀ s', chan_ok cfg (acts s') (the_ch c' s')) as Hch' by (intros s'; rewrite Kc; by destruct (decide (s' = s)) as [->|]).
  split; [split; try done|].
  - destruct (readFifo (dev v)) as [sr|] eqn:Er; [|done]. rewrite Kc. destruct (decide (sr = s)) as [->|]; [|done].
    apply Forall3_by_lookup; [by eapply Forall3_length_lm|by eapply Forall3_length_lr|]. intros i j e a Hj He Hx.
    eapply (rd_track_resp cfg); [exact Hro|by eapply Forall3_lookup_lmr|]. intros x Hxr. eapply inv_memory; [exact HI|].
    destruct (Forall2_lookup_lr _ _ _ _ _ _ (if_rd _ _ _ _ _ (inv_flight _ _ _ _ _ _ _ _ HI)) He Hx) as [? ?]. destruct Hb. lia.
  - destruct (writeFifo (dev v)) as [sw|] eqn:Ew; [|done]. rewrite Kc. destruct (decide (sw = s)) as [->|Hne].
    + apply Forall3_by_lookup; [by eapply Forall3_length_lm|by eapply Forall3_length_lr|]. intros i j e y Hj He Hy.
      eapply (wr_track_resp cfg); [exact Hro|by eapply Forall3_lookup_lmr|]. intros pk' act' H1 H2 H3 H4. by eapply (write_apart _ _ _ _ _ _ _ _ s).
    + assert (m' = ds_memory c) as Em; [|change (ds_memory c') with m'; by rewrite Em].
      destruct (packet_request _ _ _ _ _ _ _ _ _ _ HI Hpk) as [(_ & i & e & a & _ & _ & _ & _ & act' & Ha' & Hf & _)|(? & _)]; [|congruence].
      rewrite Ha in Ha'. injection Ha' as <-. rewrite Hf in Hcase. apply Hcase.
  - intros s' j Hj. destruct (Hall s' j Hj) as [Han|]; [left|by right]. rewrite Kc. destruct (decide (s' = s)) as [->|]; [|done].
    rewrite answered_pending in *. by eapply answered_mono.
  - destruct (ac_write act) eqn:Ew; [|by destruct Hcase as [-> _]]. destruct Hcase as [_ ->]. intros x Hx.
    destruct (packet_request _ _ _ _ _ _ _ _ _ _ HI Hpk) as [(_ & i & e & a & _ & _ & _ & _ & act' & Ha' & Hf & _)|(_ & i & e & y & Hi & He & Hy & Hdn & act' & Ha' & _ & Ea & Es & _)];
      rewrite Ha in Ha'; injection Ha' as <-; [congruence|]. change (ds_memory c') with (mem_put (ds_memory c) (ac_addr act + d) (take (Z.to_nat (dk_size pk)) (drop (Z.to_nat d) b))).
    rewrite mem_put_out; [by apply Hmem|]. rewrite length_take, length_drop. pose proof (Hx i e y He Hy Hdn). lia.
  - rewrite (ports_pending acts) by done. rewrite (ports_pending acts) in Hcnt by done. pose proof (Permutation_length Hp) as Hl.
    clear Kc Hch'. unfold c'. destruct s; cbn in *; lia.
  - unfold load in *. destruct s; cbn in *; lia.
Qed.

(** *** Events of the device *)

(** After an event of the device. *)
Definition dev_step (n : nat) (fl : Z) (g0 : list GicCall) (c c' : DmaSys) (iss kk : Z) (strict : bool) : Prop :=
  ∃ v' acts' iss' kk', Inv n fl g0 c' v' acts' iss' kk' ∧ iss ≤ iss' ∧ load c' ≤ load c + 2 * (iss' - iss) ∧ kk' ≤ kk ∧
    (strict = true → kk' < kk).

(** The lists of names belong to the active FIFOs. *)
Lemma inv_tracks n fl g0 c v acts iss kk r w : Inv n fl g0 c v acts iss kk →
  (rd_pend (dev v) = [] ∧ wr_pend (dev v) = [] ∨ readFifo (dev v) = Some r ∧ writeFifo (dev v) = Some w) →
  Forall3 (rd_track m0 (acts r) (the_ch c r)) (ds_rids c) (rd_pend (dev v)) (raddrs v) ∧
  Forall3 (wr_track (acts w) (the_ch c w) (ds_memory c)) (ds_wids c) (wr_pend (dev v)) (wacts v) ∧
  (∀ s, NoDup (named (Some r) (Some w) (ds_rids c) (ds_wids c) s)) ∧
  (∀ s j, (j < length (acts s))%nat → answered (ch_port (the_ch c s)) j ∨ j ∈ named (Some r) (Some w) (ds_rids c) (ds_wids c) s).
Proof.
  intros HI. pose proof HI as [Hdev Hph Hch Hr Hw Hnd Hall Hmem Hpos Hcnt].
  intros [[E1 E2]|[E1 E2]]; [|rewrite E1, E2 in *; done].
  pose proof (inv_flight _ _ _ _ _ _ _ _ HI) as [F1 _ F2 _ _]. rewrite E1 in F1. rewrite E2 in F2. apply Forall2_nil_inv_l in F1.
  symmetry in F2. apply nil_length_inv in F2.
  assert (ds_rids c = []) as Er. { destruct (readFifo (dev v)); [|done]. rewrite E1, F1 in Hr. by inversion Hr. }
  assert (ds_wids c = []) as Ew. { destruct (writeFifo (dev v)); [|done]. rewrite E2, F2 in Hw. by inversion Hw. }
  rewrite E1, E2, F1, F2, Er, Ew in *. split_and!; [constructor..| |].
  - intros s. unfold named. repeat case_decide; constructor.
  - intros s j Hj. left. destruct (Hall s j Hj) as [?|Hin]; [done|]. unfold named in Hin. repeat case_decide; by apply elem_of_nil in Hin.
Qed.

Lemma inv_pos n fl g0 c v acts iss kk : Inv n fl g0 c v acts iss kk → 0 ≤ iss ≤ 2 * len.
Proof. intros []. by eapply pos_bounds. Qed.

Lemma inv_tick n fl g0 env c v acts iss kk : Inv (S n) fl g0 c v acts iss kk → (∀ s, de_mode (env s) = Timing) →
  tickScheduled (ds_dev c) = true →
  ∃ c', (let* d := nd_tick p (ds_dev c) in ds_device cfg env c d) = Ok c' ∧
    dev_step n fl g0 c c' iss kk (nd_enabled p (mkNDEnv (ds_dev c) [] [] (ds_memory c)) NTick).
Proof.
  intros HI Hm Ht. pose proof HI as [Hdev Hph Hch _ _ _ _ Hmem Hpos Hcnt]. rewrite Hdev in *.
  destruct (tick_moves p P m0 src dst len Hc Hb _ _ _ _ _ Hph Ht) as (v' & k' & r & w & a & b & ra & wa & Hnt & Hph' & Hle & Hlt & Em & Hcase & Hmv).
  destruct (inv_tracks _ _ _ _ _ _ _ _ _ _ HI Hcase) as (Tr & Tw & Hnd & Hall).
  destruct (device_ok p cfg k P m0 src dst len Hb Hk Hline Hroom n fl g0 env c v acts iss v' k' (rd_pend (dev v)) (wr_pend (dev v)) r w a b ra wa)
    as (c' & acts' & iss' & E & HI' & H1 & H2); try done; [by rewrite Em|by eapply inv_pos|].
  exists c'. rewrite Hnt. cbn [mbind outcome_bind]. split; [done|]. exists v', acts', iss', k'. done.
Qed.

Lemma find_name_spec names e i : find_name names e = Some i → names !! i = Some e.
Proof.
  unfold find_name. destruct (list_find (eq e) names) as [[i' x]|] eqn:E; [|done]. intros [= <-].
  apply list_find_Some in E as (Hi & <- & _). done.
Qed.
Lemma find_name_nodup names e i : NoDup names → names !! i = Some e → find_name names e = Some i.
Proof.
  intros Hn Hi. unfold find_name. destruct (list_find (eq e) names) as [[i' x]|] eqn:E.
  - apply list_find_Some in E as (Hi' & <- & _). cbn. f_equal. by eapply NoDup_lookup.
  - apply list_find_None in E. rewrite Forall_lookup in E. by destruct (E i e Hi).
Qed.

Lemma named_nodup ro wo rids wids s : NoDup (named ro wo rids wids s) →
  (ro = Some s → NoDup rids) ∧ (wo = Some s → NoDup wids) ∧ (ro = Some s → wo = Some s → ∀ x, x ∈ rids → x ∉ wids).
Proof. unfold named. intros (H1 & H2 & H3)%NoDup_app. repeat case_decide; naive_solver. Qed.

(** The block of an answered read holds the bytes of memory. *)
Lemma read_block acts ch j e a b : rd_track m0 acts ch j e a → answered (ch_port ch) j → ch_blocks ch !! j = Some b →
  Z.of_nat (length b) = _requestSize e → b = bytes m0 a (_requestSize e).
Proof.
  intros (act & _ & _ & _ & _ & _ & Hbl) Han Hb' Hl. apply list_eq. intros i. unfold bytes. rewrite list_lookup_fmap.
  destruct (decide (i < length b)%nat) as [Hi|Hi].
  - specialize (Hbl b (Z.of_nat i) Hb' ltac:(lia) (answered_closed _ _ _ Han)). rewrite Nat2Z.id in Hbl. rewrite Hbl.
    by rewrite lookup_seqZ_lt by lia.
  - rewrite lookup_ge_None_2 by lia. by rewrite lookup_seqZ_ge by lia.
Qed.

Lemma undone_lookup es i : is_undone es i = true → ∃ e, es !! i = Some e ∧ _done e = false.
Proof. unfold is_undone. destruct (es !! i) as [e|]; [|done]. intros H%negb_true_iff. eauto. Qed.

(** The completion event of a read. *)
Lemma inv_rd_done n fl g0 env c v acts iss kk s e i : Inv (S n) fl g0 c v acts iss kk → (∀ s, de_mode (env s) = Timing) →
  readFifo (dev v) = Some s → ds_rids c !! i = Some e → answered (ch_port (the_ch c s)) e → is_undone (rd_pend (dev v)) i = true →
  ∃ c', (let* b := deref (ch_blocks (the_ch c s) !! e) in
         let* (f, acts) := DmaReadFifo.process (nd_sys p) (the_readFifo (ds_dev c) s) i b in
         ds_device cfg env c (set_readFifo (ds_dev c) s f acts)) = Ok c' ∧ dev_step n fl g0 c c' iss kk true.
Proof.
  intros HI Hm Hs Hi Han (ev & Hev & Hd)%undone_lookup. pose proof HI as [Hdev Hph Hch Hr _ _ _ Hmem Hpos Hcnt]. rewrite Hdev, Hs in *.
  destruct (Forall3_lookup_l _ _ _ _ _ _ Hr Hi) as (ev' & a & Hev' & Ha & Ht). rewrite Hev in Hev'. injection Hev' as <-.
  pose proof Ht as (act & Hact & _ & _ & Hsz & _). destruct (ck_block _ _ _ (Hch s) _ _ Hact) as (b & Hbk & Hlb).
  pose proof (read_block _ _ _ _ _ _ Ht Han Hbk ltac:(lia)) as Eb.
  destruct (rd_done_moves p P m0 src dst len Hc Hb _ _ _ _ _ _ _ _ _ Hph Hev Hd Ha Eb)
    as (v' & k' & r & w & e' & f & ra & wa & Hph' & Hlt & Em & Er & HP & Edv & Hd' & Hsz' & Hmv).
  rewrite Hs in Er. injection Er as <-.
  assert (writeFifo (dev v) = Some w) as Ew. { pose proof (dm_wf _ _ _ _ _ _ _ _ _ _ (em_d _ _ _ _ _ _ _ _ _ _ _ _ _ Hmv)) as Hx. by rewrite Edv in Hx. }
  destruct (inv_tracks _ _ _ _ _ _ _ _ s w HI ltac:(by right)) as (Tr & Tw & Hnd & Hall).
  destruct (device_ok p cfg k P m0 src dst len Hb Hk Hline Hroom n fl g0 env c v acts iss v' k' (<[i := e']> (rd_pend (dev v))) (wr_pend (dev v)) s w (rpos (dev v) s) (wpos (dev v) w) ra wa)
    as (c' & acts' & iss' & E & HI' & H1 & H2); try done; [|by rewrite Em|by eapply inv_pos|].
  { apply Forall3_insert_m; [done|]. intros x y z Hx Hy Hz (act' & T1 & T2 & T3 & T4 & T5 & T6). rewrite Hi in Hx. rewrite Hev in Hy. simplify_eq.
    exists act. rewrite Hsz'. by split_and!. }
  exists c'. rewrite Hbk. cbn [deref mbind outcome_bind]. rewrite HP. cbn [mbind outcome_bind]. rewrite <-Edv. split; [done|].
  exists v', acts', iss', k'. split_and!; try done; lia.
Qed.

(** The completion event of a write. *)
Lemma inv_wr_done n fl g0 env c v acts iss kk s e i : Inv (S n) fl g0 c v acts iss kk → (∀ s, de_mode (env s) = Timing) →
  writeFifo (dev v) = Some s → ds_wids c !! i = Some e → answered (ch_port (the_ch c s)) e → is_undone (wr_pend (dev v)) i = true →
  ∃ c', (let* (f, acts) := DmaWriteFifo.process (nd_sys p) (the_writeFifo (ds_dev c) s) i in
         ds_device cfg env c (set_writeFifo (ds_dev c) s f acts)) = Ok c' ∧ dev_step n fl g0 c c' iss kk true.
Proof.
  intros HI Hm Hs Hi Han (ev & Hev & Hd)%undone_lookup. pose proof HI as [Hdev Hph Hch _ Hw _ _ Hmem Hpos Hcnt]. rewrite Hdev, Hs in *.
  destruct (Forall3_lookup_l _ _ _ _ _ _ Hw Hi) as (ev' & y & Hev' & Hy & Ht). rewrite Hev in Hev'. injection Hev' as <-.
  destruct (wr_done_moves p P m0 src dst len Hc Hb _ _ _ _ _ _ _ _ Hph Hev Hd Hy)
    as (v' & k' & r & w & e' & f & wa & ra & Hph' & Hlt & Em & Er & HP & Edv & Hd' & Hsz' & Hmv).
  rewrite Hs in Er. injection Er as <-.
  assert (readFifo (dev v) = Some r) as Ew. { pose proof (dm_rf _ _ _ _ _ _ _ _ _ _ (em_d _ _ _ _ _ _ _ _ _ _ _ _ _ Hmv)) as Hx. by rewrite Edv in Hx. }
  destruct (inv_tracks _ _ _ _ _ _ _ _ r s HI ltac:(by right)) as (Tr & Tw & Hnd & Hall).
  destruct (device_ok p cfg k P m0 src dst len Hb Hk Hline Hroom n fl g0 env c v acts iss v' k' (rd_pend (dev v)) (<[i := e']> (wr_pend (dev v))) r s
    (rpos (dev v) r) (wpos (dev v) s) ra wa) as (c' & acts' & iss' & E & HI' & H1 & H2); try done; [| |by eapply inv_pos|].
  - apply Forall3_insert_m; [done|]. intros x z y' Hx Hz Hy' (act' & T1 & T2 & T3 & T4 & T5 & T6 & T7).
    rewrite Hi in Hx. injection Hx as <-. by exists act'.
  - rewrite Em. intros x Hx. destruct (decide (da_addr y ≤ x < da_addr y + da_len y)) as [Hin|Hout].
    + destruct Ht as (act & _ & _ & _ & _ & _ & _ & Hdat). specialize (Hdat (x - da_addr y) ltac:(lia) (answered_closed _ _ _ Han)).
      replace (da_addr y + (x - da_addr y)) with x in Hdat by lia. unfold mem_put.
      rewrite (proj2 (Z.leb_le _ _)), (proj2 (Z.ltb_lt _ _)) by (unfold da_len in *; lia). cbn. by rewrite Hdat.
    + rewrite mem_put_out by (unfold da_len in *; lia). apply Hmem. intros i' e0 y0 He0 Hy0 Hd0.
      destruct (decide (i' = i)) as [->|Hne]; [by simplify_eq|]. apply (Hx i' e0 y0); [by rewrite list_lookup_insert_ne|done|done].
  - exists c'. rewrite HP. cbn [mbind outcome_bind]. rewrite <-Edv. split; [done|]. exists v', acts', iss', k'. split_and!; try done; lia.
Qed.

(** ** Every event *)

(** What is left to do. *)
Definition to_do (c : DmaSys) (iss kk : Z) : Z := kk + 2 * (2 * len - iss) + load c.

Lemma due_request c s e v : ds_dev c = dev v → event_due c s e = true →
  e ∈ fst <$> dp_completed (ch_port (the_ch c s)) ∧
  ((∃ i, find_request c s e = Some (false, i) ∧ readFifo (dev v) = Some s ∧ ds_rids c !! i = Some e ∧ is_undone (rd_pend (dev v)) i = true) ∨
   (∃ i, find_request c s e = Some (true, i) ∧ writeFifo (dev v) = Some s ∧ ds_wids c !! i = Some e ∧ is_undone (wr_pend (dev v)) i = true)).
Proof.
  intros Hdev. unfold event_due. rewrite andb_true_iff, bool_decide_eq_true. intros [Hin Hu]. split; [done|].
  unfold find_request in *. rewrite Hdev in *. destruct (decide (readFifo (dev v) = Some s)) as [Er|].
  - destruct (find_name (ds_rids c) e) as [i|] eqn:Ef; [left; exists i; split_and!; try done; by apply find_name_spec|].
    destruct (decide (writeFifo (dev v) = Some s)) as [Ew|]; [|done]. destruct (find_name (ds_wids c) e) as [i|] eqn:Ef2; [|done].
    right. exists i. split_and!; try done. by apply find_name_spec.
  - destruct (decide (writeFifo (dev v) = Some s)) as [Ew|]; [|done]. destruct (find_name (ds_wids c) e) as [i|] eqn:Ef2; [|done].
    right. exists i. split_and!; try done. by apply find_name_spec.
Qed.

Lemma inv_event n fl g0 env c v acts iss kk e : Inv (S n) fl g0 c v acts iss kk → (∀ s, de_mode (env s) = Timing) →
  ∃ c' v' acts' iss' kk', sys_event p cfg env c e = Ok c' ∧ Inv n fl g0 c' v' acts' iss' kk' ∧
    to_do c' iss' kk' ≤ to_do c iss kk - (if sys_effective p env c e then 1 else 0).
Proof.
  intros HI Hm. pose proof (inv_weaken _ _ _ _ _ _ _ _ HI) as HW. unfold sys_event, sys_effective, to_do.
  destruct (sys_enabled c e) eqn:En; cbn [negb andb]; [|exists c, v, acts, iss, kk; split_and!; try done; lia].
  assert (∀ c' b, dev_step n fl g0 c c' iss kk b → ∃ v' acts' iss' kk', Inv n fl g0 c' v' acts' iss' kk' ∧
    kk' + 2 * (2 * len - iss') + load c' ≤ kk + 2 * (2 * len - iss) + load c - (if b then 1 else 0)) as Kdev.
  { intros c' b (v' & acts' & iss' & kk' & H1 & H2 & H3 & H4 & H5). exists v', acts', iss', kk'. split; [done|].
    destruct b; [specialize (H5 eq_refl)|]; lia. }
  pose proof HI as [Hdev _ Hch _ _ _ _ _ _ _]. destruct e as [|s e|s|s|s i]; cbn [sys_enabled] in En.
  - destruct (inv_tick _ _ _ env _ _ _ _ _ HI Hm En) as (c' & -> & Hst). destruct (Kdev _ _ Hst) as (v' & acts' & iss' & kk' & ? & ?).
    exists c', v', acts', iss', kk'. done.
  - destruct (due_request c s e v Hdev En) as [Hin Hcase]. unfold run_done.
    assert (answered (ch_port (the_ch c s)) e) as Han.
    { apply (completed_answered cfg k Hk Hline _ _ _ (Hch s)); [|done]. pose proof HI as [_ _ _ Hr Hw _ _ _ _ _].
      destruct Hcase as [(i & _ & Es & Hi & _)|(i & _ & Es & Hi & _)]; rewrite Es in *.
      - destruct (Forall3_lookup_l _ _ _ _ _ _ Hr Hi) as (? & ? & _ & _ & act & Ha & _). by eapply lookup_lt_Some.
      - destruct (Forall3_lookup_l _ _ _ _ _ _ Hw Hi) as (? & ? & _ & _ & act & Ha & _). by eapply lookup_lt_Some. }
    destruct Hcase as [(i & -> & Es & Hi & Hu)|(i & -> & Es & Hi & Hu)].
    + destruct (inv_rd_done _ _ _ env _ _ _ _ _ _ _ _ HI Hm Es Hi Han Hu) as (c' & -> & Hst).
      destruct (Kdev _ _ Hst) as (v' & acts' & iss' & kk' & ? & ?). by exists c', v', acts', iss', kk'.
    + destruct (inv_wr_done _ _ _ env _ _ _ _ _ _ _ _ HI Hm Es Hi Han Hu) as (c' & -> & Hst).
      destruct (Kdev _ _ Hst) as (v' & acts' & iss' & kk' & ? & ?). by exists c', v', acts', iss', kk'.
  - destruct (ch_send_ok cfg k Hk Hline (env s) _ _ (Hch s) (Hm s)) as (ch' & -> & Hs); [by destruct (sendEvent _)|]. cbn [mbind outcome_bind].
    destruct (inv_sent _ _ _ _ _ _ _ _ s _ _ HW Hs) as [HI' Hl]. eexists _, v, acts, iss, kk. split; [done|]. split; [done|].
    rewrite Hl. unfold accepts. destruct (transmitList _) as [|pk l]; [lia|]. destruct (de_accepts _ _); lia.
  - destruct (ch_retry_ok cfg k Hk Hline (env s) _ _ (Hch s) (Hm s) En) as (ch' & -> & Hs). cbn [mbind outcome_bind].
    destruct (inv_sent _ _ _ _ _ _ _ _ s _ _ HW Hs) as [HI' Hl]. eexists _, v, acts, iss, kk. split; [done|]. split; [done|].
    rewrite Hl. unfold accepts. destruct (transmitList _) as [|pk l]; [lia|]. destruct (de_accepts _ _); lia.
  - apply Nat.ltb_lt in En. destruct (ch_resp_ok cfg k Hk Hline (env s) _ _ i (ds_memory c) (Hch s) (Hm s) En) as (ch' & m' & -> & Hs).
    cbn [mbind outcome_bind]. destruct (inv_resp _ _ _ _ _ _ _ _ s _ _ HW Hs) as [HI' Hl]. eexists _, v, acts, iss, kk.
    split; [done|]. split; [done|]. lia.
Qed.

Lemma inv_run n fl g0 es : ∀ c v acts iss kk, Forall (fun '(env, _) => ∀ s, de_mode (env s) = Timing) es →
  Inv (length es + n) fl g0 c v acts iss kk →
  ∃ c' m v' acts' iss' kk', sys_run p cfg c es = Ok (c', m) ∧ Inv n fl g0 c' v' acts' iss' kk' ∧
    Z.of_nat m + to_do c' iss' kk' ≤ to_do c iss kk.
Proof.
  induction es as [|[env e] es IH]; intros c v acts iss kk Hes HI; cbn [sys_run].
  { exists c, 0%nat, v, acts, iss, kk. split_and!; try done; lia. }
  apply Forall_cons in Hes as [Hm Hes].
  destruct (inv_event _ _ _ env _ _ _ _ _ e HI Hm) as (c1 & v1 & acts1 & iss1 & kk1 & -> & HI1 & Hle). cbn [mbind outcome_bind].
  destruct (IH _ _ _ _ _ Hes HI1) as (c' & m & v' & acts' & iss' & kk' & -> & HI' & Hle'). cbn [mbind outcome_bind].
  eexists c', _, v', acts', iss', kk'. split_and!; [done|done|]. destruct (sys_effective _ _ _ _); lia.
Qed.

(** ** Progress *)

(** A request that is not answered has a packet to answer or to send; one that is has its
    event due. *)
Lemma port_progress n fl g0 c v acts iss kk s j : Inv n fl g0 c v acts iss kk → ¬ answered (ch_port (the_ch c s)) j →
  ∃ e, ∀ env, (∀ s pk, de_accepts (env s) pk = true) → sys_effective p env c e = true.
Proof.
  intros HI (pk & Hin & _)%unanswered_packet. destruct (chan_core cfg k Hk Hline _ _ (si_ch _ _ _ _ _ _ _ _ _ _ _ _ _ _ _ HI s)) as [HC HL].
  apply elem_of_app in Hin as [Hin|Hin].
  - apply list_elem_of_lookup in Hin as [i Hi]. exists (SysResp s i). intros env _. unfold sys_effective. cbn [sys_enabled].
    rewrite andb_true_r. apply Nat.ltb_lt. by eapply lookup_lt_Some.
  - assert (transmitList (ch_port (the_ch c s)) ≠ []) as Hne by (intros E; rewrite E in Hin; by apply elem_of_nil in Hin).
    destruct (HL Hne) as [Hse|Hre]; [exists (SysSend s)|exists (SysRetry s)]; intros env Hacc; unfold sys_effective; cbn [sys_enabled];
      (destruct (transmitList _) as [|pk' l]; [done|]); rewrite Hacc, ?Hre; [by destruct (sendEvent _)|done].
Qed.

Lemma due_effective c s e w i : find_request c s e = Some (w, i) →
  is_undone (if w then wr_pend (ds_dev c) else rd_pend (ds_dev c)) i = true → e ∈ fst <$> dp_completed (ch_port (the_ch c s)) →
  ∀ env, sys_effective p env c (SysDone s e) = true.
Proof.
  intros Hf Hu Hin env. unfold sys_effective. cbn [sys_enabled]. unfold event_due. rewrite Hf, bool_decide_eq_true_2 by done.
  destruct w; by rewrite Hu.
Qed.

Lemma sys_progress n fl g0 c v acts iss kk : Inv n fl g0 c v acts iss kk → tickScheduled (ds_dev c) = true →
  ∃ e, ∀ env, (∀ s pk, de_accepts (env s) pk = true) → sys_effective p env c e = true.
Proof.
  intros HI Ht. pose proof HI as [Hdev Hph Hch Hr Hw Hnd _ _ _ _]. rewrite Hdev in Ht.
  pose proof Hc as [timing Ppos Mpos]. pose proof Hb as [Hlen Hsrc Hdst Hdisj].
  assert (0 < kk) as Hpos.
  { destruct Hph as [_ _ _ _ _ _ _ ->|r w lr lw HB ->|HF _]; [lia| |by rewrite (fi_tick _ _ _ _ _ _ _ _ _ _ HF) in Ht].
    eapply left_of_pos in HB; [lia|done..]. }
  destruct (phase_enabled p P m0 src dst len Ppos Mpos Hlen Hsrc Hdst Hdisj _ _ _ _ _ Hph Hpos) as (e & He & Hen).
  apply elem_of_cons in He as [->|[->|[->|He%elem_of_nil]%elem_of_cons]%elem_of_cons]; [| | |done].
  - exists SysTick. intros env _. unfold sys_effective. cbn [sys_enabled]. rewrite Hdev, Ht. exact Hen.
  - unfold nd_enabled in Hen. destruct (running (dev v)); [|by destruct (readFifo (dev v)), (writeFifo (dev v))].
    destruct (readFifo (dev v)) as [s|] eqn:Es; [|by destruct (writeFifo (dev v))].
    assert (is_undone (rd_pend (dev v)) 0 = true) as Hu by (unfold rd_pend; rewrite Es; by destruct (writeFifo (dev v))).
    pose proof Hu as (ev & Hev & _)%undone_lookup. destruct (Forall3_lookup_m _ _ _ _ _ _ Hr Hev) as (j & a & Hj & _ & act & Ha & _).
    destruct (decide (answered (ch_port (the_ch c s)) j)) as [Han|Hna]; [|by eapply port_progress].
    exists (SysDone s j). intros env _. eapply (due_effective _ _ _ false 0%nat).
    + unfold find_request. rewrite Hdev, Es, decide_True by done. destruct (named_nodup _ _ _ _ _ (Hnd s)) as (Hn1 & _).
      by rewrite (find_name_nodup _ _ 0%nat) by auto.
    + by rewrite Hdev.
    + apply (completed_answered cfg k Hk Hline _ _ _ (Hch s)); [by eapply lookup_lt_Some|done].
  - unfold nd_enabled in Hen. destruct (running (dev v)); [|by destruct (readFifo (dev v)), (writeFifo (dev v))].
    destruct (writeFifo (dev v)) as [s|] eqn:Es; [|by destruct (readFifo (dev v))].
    assert (is_undone (wr_pend (dev v)) 0 = true) as Hu by (unfold wr_pend; rewrite Es; by destruct (readFifo (dev v))).
    pose proof Hu as (ev & Hev & _)%undone_lookup. destruct (Forall3_lookup_m _ _ _ _ _ _ Hw Hev) as (j & a & Hj & _ & act & Ha & _).
    destruct (decide (answered (ch_port (the_ch c s)) j)) as [Han|Hna]; [|by eapply port_progress].
    exists (SysDone s j). intros env _. eapply (due_effective _ _ _ true 0%nat).
    + unfold find_request. rewrite Hdev, Es. destruct (named_nodup _ _ _ _ _ (Hnd s)) as (_ & Hn2 & Hnr).
      rewrite (decide_True (P := Some s = Some s)) by done. rewrite (find_name_nodup _ _ 0%nat (Hn2 eq_refl) Hj).
      destruct (decide (readFifo (dev v) = Some s)) as [Er|]; [|done]. destruct (find_name (ds_rids c) j) as [i|] eqn:Ef; [|done].
      exfalso. apply find_name_spec in Ef. apply (Hnr Er eq_refl j); by eapply list_elem_of_lookup_2.
    + by rewrite Hdev.
    + apply (completed_answered cfg k Hk Hline _ _ _ (Hch s)); [by eapply lookup_lt_Some|done].
Qed.

(** ** The beginning and the end *)

Lemma inv_start n fl d mc ac : nd_idle p P n d → programmed src dst len d fl → tickScheduled d = true →
  chan_idle cfg mc → chan_idle cfg ac →
  ∃ acts, Inv n fl (gic_log d) (mkDmaSys d mc ac [] [] m0) (mkNDEnv d [] [] m0) acts 0 (5 * len + 2) ∧
    load (mkDmaSys d mc ac [] [] m0) = 0.
Proof.
  intros Hid Hpr Ht (a1 & C1 & E1) (a2 & C2 & E2). exists (fun s => match s with MemSide => a1 | AccSide => a2 end).
  destruct (idle_pend p P m0 _ _ Hid) as [R1 R2].
  assert (∀ ch, pending (ch_port ch) = [] → weight (ch_port ch) = 0%nat) as Kw.
  { intros ch E. unfold weight, pending in *. apply app_eq_nil in E as [-> ->]. done. }
  split; [split; cbn; try done|unfold load; cbn [the_ch ds_memCh ds_accCh]; by rewrite !Kw].
  - by apply phase_init.
  - by intros [].
  - rewrite R1. destruct (readFifo d); [constructor|done].
  - rewrite R2. destruct (writeFifo d); [constructor|done].
  - intros s. unfold named. repeat case_decide; constructor.
  - intros s j Hj. left. rewrite answered_pending. destruct s; cbn; rewrite ?E1, ?E2; constructor.
  - unfold pos_ok. cbn. by rewrite (id_run _ _ _ _ Hid), Ht.
  - rewrite (ports_pending (fun s => match s with MemSide => a1 | AccSide => a2 end)) by by intros []. cbn. by rewrite E1, E2.
Qed.

Lemma inv_end n fl g0 c v acts iss kk : Inv n fl g0 c v acts iss kk → tickScheduled (ds_dev c) = false →
  Finished p P m0 src dst len n v (flags_running fl) g0 ∧ (∀ x, ds_memory c x = mem v x) ∧ (∀ s, chan_idle cfg (the_ch c s)).
Proof.
  intros HI Ht. pose proof HI as [Hdev Hph Hch Hr Hw _ Hall Hmem _ _]. rewrite Hdev in Ht.
  assert (Finished p P m0 src dst len n v (flags_running fl) g0) as HF.
  { destruct Hph as [_ _ Ht' _ _ _ _ _|r w lr lw HB _|HF _]; [congruence| |done].
    by rewrite (bz_tick _ _ _ _ _ _ _ _ _ _ _ _ _ _ HB) in Ht. }
  pose proof HF as [Hid _ [Hra Hwa] _ _ _ _]. destruct (idle_pend p P m0 _ _ Hid) as [R1 R2]. split_and!; [done| |].
  - intros x. apply Hmem. intros i e y He. by rewrite R2 in He.
  - intros s. exists (acts s). split; [done|]. rewrite R1, Hra in Hr. rewrite R2, Hwa in Hw.
    assert (named (readFifo (dev v)) (writeFifo (dev v)) (ds_rids c) (ds_wids c) s = []) as En.
    { assert (ds_rids c = []) as Er by (destruct (readFifo (dev v)); [by inversion Hr|done]).
      assert (ds_wids c = []) as Ew by (destruct (writeFifo (dev v)); [by inversion Hw|done]).
      unfold named. rewrite Er, Ew. repeat case_decide; done. }
    destruct (pending (ch_port (the_ch c s))) as [|pk l] eqn:Ep; [done|]. exfalso.
    destruct (packet_action cfg k Hk Hline _ _ pk (Hch s)) as (act & d & Ha & _); [rewrite Ep; by left|].
    destruct (Hall s (senderState pk)) as [Han|Hin]; [by eapply lookup_lt_Some| |rewrite En in Hin; by apply elem_of_nil in Hin].
    rewrite answered_pending, Ep in Han. by apply Forall_cons in Han as [? _].
Qed.
End Sys.

(** ** The theorem *)

(** C23: a DMA transfer, packet by packet. A device between two transfers, on two ports with
    nothing in flight, has been given a source, a destination that does not overlap
    it and a length, and its start flag. Then, whatever the order of ticks, of send
    events and retries, of packets accepted and refused, of the answers of memory to
    single packets on either port and of completion events: nothing fails; memory
    outside the destination does not change; at most [9 * len + 2] events bring the
    transfer forward; until the end some event would, if its packet is accepted; and at
    the end the destination holds the bytes of the source, the flags say done, one
    interrupt was raised and device and ports are ready for the next transfer. *)
Theorem dma_system_copies p cfg k P n m0 src dst len d fl mc ac es
    (Hc : nd_config p P) (Hb : block_ok src dst len) (Hk : 0 ≤ k < 32) (Hline : dp_lineSize cfg = 2 ^ k)
    (Hroom : src + len + dp_lineSize cfg < 2 ^ 64 ∧ dst + len + dp_lineSize cfg < 2 ^ 64)
    (Hid : nd_idle p P (length es + n) d) (Hpr : programmed src dst len d fl) (Ht : tickScheduled d = true)
    (Hmc : chan_idle cfg mc) (Hac : chan_idle cfg ac)
    (Hes : Forall (fun '(env, _) => ∀ s, de_mode (env s) = Timing) es) :
  ∃ c m, sys_run p cfg (mkDmaSys d mc ac [] [] m0) es = Ok (c, m) ∧
    (∀ x, ¬ (dst ≤ x < dst + len) → ds_memory c x = m0 x) ∧ Z.of_nat m ≤ 9 * len + 2 ∧
    if tickScheduled (ds_dev c)
    then sends (gic_log (ds_dev c)) = sends (gic_log d) ∧
         ∃ e, ∀ env, (∀ s pk, de_accepts (env s) pk = true) → sys_effective p env c e = true
    else bytes (ds_memory c) dst len = bytes m0 src len ∧ nd_flags (ds_dev c) = Ok (Z.lor (Z.land fl 252) 4) ∧
         sends (gic_log (ds_dev c)) = S (sends (gic_log d)) ∧ nd_idle p P n (ds_dev c) ∧
         chan_idle cfg (ds_memCh c) ∧ chan_idle cfg (ds_accCh c).
Proof.
  destruct (inv_start p cfg k P m0 src dst len Hk Hline _ _ _ _ _ Hid Hpr Ht Hmc Hac) as (acts & HI & Hl).
  destruct (inv_run p cfg k P m0 src dst len Hc Hb Hk Hline Hroom n _ _ es _ _ _ _ _ Hes HI)
    as (c & m & v & acts' & iss & kk & HR & HI' & Hle).
  exists c, m. split; [done|]. split; [intros x Hx; by eapply inv_memory|]. split.
  - unfold to_do in Hle. rewrite Hl in Hle. pose proof (inv_pos _ _ _ _ _ _ _ Hb _ _ _ _ _ _ _ _ HI').
    assert (0 ≤ kk).
    { destruct Hb as [? ? ? ?]. destruct (si_phase _ _ _ _ _ _ _ _ _ _ _ _ _ _ _ HI') as [_ _ _ _ _ _ _ ->|r w lr lw HB ->|_ ->]; [lia| |lia].
      eapply left_of_pos in HB; [lia|try apply Hc; done..]. }
    unfold load in Hle. lia.
  - pose proof (si_dev _ _ _ _ _ _ _ _ _ _ _ _ _ _ _ HI') as Hdev. destruct (tickScheduled (ds_dev c)) eqn:Et.
    + split; [|by eapply sys_progress]. rewrite Hdev in Et |- *.
      destruct (si_phase _ _ _ _ _ _ _ _ _ _ _ _ _ _ _ HI') as [_ _ _ _ _ _ -> _|r w lr lw HB _|HF _]; [done| |].
      * apply (bz_sends _ _ _ _ _ _ _ _ _ _ _ _ _ _ HB).
      * by rewrite (fi_tick _ _ _ _ _ _ _ _ _ _ HF) in Et.
    + destruct (inv_end p cfg k P m0 src dst len Hk Hline _ _ _ _ _ _ _ _ HI' Et) as (HF & Hm & Hch).
      pose proof (finished_flags _ _ _ _ _ _ _ _ _ _ HF) as Hfl. rewrite Hdev. destruct HF as [Hid' _ _ Hcp _ _ Hsd].
      split_and!; try done; [|exact (Hch MemSide)|exact (Hch AccSide)]. rewrite <-Hcp. apply bytes_ext. intros x _. apply Hm.
Qed.

(** ** An example *)

(** Nine bytes over cache lines of two, so that a request of four bytes takes two packets. *)
Definition sys_ex_cfg : DmaParams := mkDmaParams 2 0 0.
Definition sys_ex_env (accept : bool) : Side → DmaEnv := fun _ => mkDmaEnv 1000 1001 Timing (fun _ => accept) (fun _ => 0) (fun _ => O).
Definition sys_ex_side (s : Side) : list ((Side → DmaEnv) * SysEvent) :=
  [(sys_ex_env false, SysSend s); (sys_ex_env true, SysRetry s); (sys_ex_env true, SysSend s); (sys_ex_env true, SysResp s 1);
   (sys_ex_env true, SysResp s 0)] ++ ((fun j => (sys_ex_env true, SysDone s j)) <$> seq 0 4).
Definition sys_ex_round : list ((Side → DmaEnv) * SysEvent) :=
  (sys_ex_env true, SysTick) :: sys_ex_side MemSide ++ sys_ex_side AccSide.
Definition sys_ex_es : list ((Side → DmaEnv) * SysEvent) := mjoin (replicate 12 sys_ex_round).

(** Packets are refused and answered out of order; each of the nine bytes arrives. *)
Example dma_system_runs :
  match sys_run nd_ex_params sys_ex_cfg (mkDmaSys nd_ex_dev Channel_new Channel_new [] [] nd_ex_mem) sys_ex_es with
  | Ok (c, m) => tickScheduled (ds_dev c) = false ∧ bytes (ds_memory c) 8192 9 = [0; 1; 2; 3; 4; 5; 6; 7; 8] ∧
      length (dp_sent (ch_port (ds_memCh c))) = 5%nat ∧ length (dp_sent (ch_port (ds_accCh c))) = 5%nat ∧ m = 27%nat
  | Err _ => False
  end.
Proof. vm_compute. auto. Qed.

Lemma sys_ex_timing : Forall (fun '(env, _) => ∀ s : Side, de_mode (env s) = Timing) sys_ex_es.
Proof. apply Forall_join, Forall_replicate. repeat constructor. Qed.

Lemma dma_system_copies_witness :
  ∃ c m, sys_run nd_ex_params sys_ex_cfg (mkDmaSys nd_ex_dev Channel_new Channel_new [] [] nd_ex_mem) sys_ex_es = Ok (c, m) ∧
    Z.of_nat m ≤ 9 * 9 + 2.
Proof.
  destruct nd_ex_ok as (Hc & Hb & Hp). destruct (nd_ex_idle (length sys_ex_es + 0)) as [Hi Ht]; [vm_compute; reflexivity|].
  destruct (dma_system_copies nd_ex_params sys_ex_cfg 1 2 0 nd_ex_mem 4096 8192 9 nd_ex_dev 1 Channel_new Channel_new sys_ex_es
    Hc Hb ltac:(lia) eq_refl ltac:(cbn; lia) Hi Hp Ht (chan_new _) (chan_new _) sys_ex_timing) as (c & m & HR & _ & Hm & _).
  exists c, m. split; [exact HR|exact Hm].
Defined.
