(* ===== verification/PacketQueue.v ===== *)
(** Model of [mem/packet_queue.{hh,cc}], [mem/tport.cc] and the class [PioPort] of
    [dev/io_device.hh]: the queue in which a port keeps packets until they are
    due, and the port through which the host reads and writes the registers of
    a device. *)
From S2P Require Import Prelude DmaEvents Packets Scratchpad.

#[local] Open Scope Z_scope.

Definition MaxTick : Z := u64 (-1).

(** [DeferredPacket].  [qd_express] is the flag [EXPRESS_SNOOP] of the packet. *)
Record Deferred := mkDeferredPacket { qd_tick : Z; qd_pkt : Packet; qd_express : bool }.

(** [sendEvent] is the tick the event is scheduled for, if it is. *)
Record PacketQueue := mkPacketQueue {
  transmitList : list Deferred;
  sendEvent : option Z;
  disableSanityCheck_ : bool;
  forceOrder : bool;
  waitingOnRetry : bool;
  pq_drainState : DrainState;
}.

Definition PacketQueue_new (force_order disable_sanity_check : bool) : PacketQueue :=
  mkPacketQueue [] None disable_sanity_check force_order false Running.

Definition set_list (q : PacketQueue) (l : list Deferred) : PacketQueue :=
  mkPacketQueue l (sendEvent q) (disableSanityCheck_ q) (forceOrder q) (waitingOnRetry q) (pq_drainState q).
Definition set_event (q : PacketQueue) (e : option Z) : PacketQueue :=
  mkPacketQueue (transmitList q) e (disableSanityCheck_ q) (forceOrder q) (waitingOnRetry q) (pq_drainState q).
Definition set_waiting (q : PacketQueue) (b : bool) : PacketQueue :=
  mkPacketQueue (transmitList q) (sendEvent q) (disableSanityCheck_ q) (forceOrder q) b (pq_drainState q).
Definition set_pq_drain (q : PacketQueue) (d : DrainState) : PacketQueue :=
  mkPacketQueue (transmitList q) (sendEvent q) (disableSanityCheck_ q) (forceOrder q) (waitingOnRetry q) d.
Definition disableSanityCheck (q : PacketQueue) : PacketQueue :=
  mkPacketQueue (transmitList q) (sendEvent q) true (forceOrder q) (waitingOnRetry q) (pq_drainState q).

Definition pq_size (q : PacketQueue) : Z := Z.of_nat (length (transmitList q)).

(** ** Looking into the queue *)

Definition deferredPacketReady (q : PacketQueue) (cur : Z) : bool :=
  match transmitList q with [] => false | d :: _ => qd_tick d <=? cur end.
Definition deferredPacketReadyTime (q : PacketQueue) : Z :=
  match transmitList q with [] => MaxTick | d :: _ => qd_tick d end.

Definition getBlockAddr (p : Packet) (blk_size : Z) : Z := Z.land (getAddr p) (u64 (Z.lnot (u32 (blk_size - 1)))).
Definition matchBlockAddr (p pkt : Packet) (blk_size : Z) : bool :=
  (getBlockAddr p blk_size =? getBlockAddr pkt blk_size) && eqb (isSecure p) (isSecure pkt).
Definition checkConflict (q : PacketQueue) (pkt : Packet) (blk_size : Z) : bool :=
  existsb (fun d => matchBlockAddr (qd_pkt d) pkt blk_size) (transmitList q).

(** The loop of [trySatisfyFunctional], with the bytes found so far. *)
Fixpoint satisfy_loop (p : Packet) (valid : list bool) (l : list Deferred) : outcome (bool * Packet * list Deferred) :=
  match l with
  | [] => Ok (false, p, [])
  | d :: l =>
      let* (found, p, other, valid) := trySatisfy p (qd_pkt d) valid in
      let d := mkDeferredPacket (qd_tick d) other (qd_express d) in
      if found : bool then Ok (true, p, d :: l)
      else let* (found, p, l) := satisfy_loop p valid l in Ok (found, p, d :: l)
  end.
Definition pq_trySatisfyFunctional (q : PacketQueue) (p : Packet) : outcome (bool * Packet * PacketQueue) :=
  let* (found, p, l) := satisfy_loop p [] (transmitList q) in Ok (found, p, set_list q l).

(** ** Queueing and sending *)

Definition schedSendEvent (q : PacketQueue) (cur when : Z) : outcome PacketQueue :=
  if waitingOnRetry q then
    let* _ := assert_ (match sendEvent q with None => true | Some _ => false end) in Ok q
  else if negb (when =? MaxTick) then
    let when := Z.max when (u64 (cur + 1)) in
    match sendEvent q with
    | None => let* _ := assert_ (cur <=? when) in Ok (set_event q (Some when))
    | Some e =>
        if when <? e then let* _ := assert_ (cur <=? when) in Ok (set_event q (Some when)) else Ok q
    end
  else
    match pq_drainState q, transmitList q, sendEvent q with
    | Draining, [], None => Ok (set_pq_drain q (signalDrainDone (pq_drainState q)))
    | _, _, _ => Ok q
    end.

(** The search from the end: [it] stands before entry [i]. *)
Fixpoint place_from (force : bool) (x : Deferred) (l : list Deferred) (i : nat) : option (list Deferred) :=
  match i with
  | O => None
  | S j =>
      match l !! j with
      | Some d =>
          if (force && matchAddr (qd_pkt d) (qd_pkt x)) || (qd_tick d <=? qd_tick x)
          then Some (take i l ++ x :: drop i l) else place_from force x l j
      | None => None
      end
  end.

Definition schedSendTiming (q : PacketQueue) (cur : Z) (x : Deferred) : outcome PacketQueue :=
  let* _ := assert_ (cur <=? qd_tick x) in
  let* _ := assert_ (negb (qd_express x)) in
  let* _ := panic_if (negb (disableSanityCheck_ q) && (100 <? pq_size q)) in
  match place_from (forceOrder q) x (transmitList q) (length (transmitList q)) with
  | Some l => Ok (set_list q l)
  | None => schedSendEvent (set_list q (x :: transmitList q)) cur (qd_tick x)
  end.

(** [sendTiming] may queue further packets, [nested], before it returns. *)
Definition sendDeferredPacket (q : PacketQueue) (cur : Z) (nested : list Deferred) (accepted : bool)
    : outcome (PacketQueue * Deferred) :=
  let* _ := assert_ (negb (waitingOnRetry q)) in
  let* _ := assert_ (deferredPacketReady q cur) in
  match transmitList q with
  | [] => Err Undefined
  | dp :: l =>
      let* q := foldM (fun q x => schedSendTiming q cur x) nested (set_list q l) in
      let q := set_waiting q (negb accepted) in
      if negb (waitingOnRetry q) then
        let* q := schedSendEvent q cur (deferredPacketReadyTime q) in Ok (q, dp)
      else Ok (set_list q (dp :: transmitList q), dp)
  end.

(** The event is no longer scheduled when it is processed. *)
Definition processSendEvent (q : PacketQueue) (cur : Z) (nested : list Deferred) (accepted : bool)
    : outcome (PacketQueue * Deferred) :=
  let q := set_event q None in
  let* _ := assert_ (negb (waitingOnRetry q)) in
  sendDeferredPacket q cur nested accepted.

Definition retry (q : PacketQueue) (cur : Z) (nested : list Deferred) (accepted : bool)
    : outcome (PacketQueue * Deferred) :=
  let* _ := assert_ (waitingOnRetry q) in
  sendDeferredPacket (set_waiting q false) cur nested accepted.

(** [drain], whose result becomes the state of the object. *)
Definition pq_drain (q : PacketQueue) : PacketQueue :=
  set_pq_drain q (match transmitList q with [] => Drained | _ => Draining end).

(** ** The port of a device *)

(** What the port needs of its device: accesses that turn the packet into its
    response and take a time. *)
Class PioDevice (D : Type) := {
  pio_read : D → Packet → outcome (D * Packet * Z);
  pio_write : D → Packet → outcome (D * Packet * Z);
}.

Section Port.
Context {D : Type} `{!PioDevice D}.

(** [PioPort::recvAtomic]. *)
Definition pio_recvAtomic (d : D) (pkt : Packet) : outcome (D * Packet * Z) :=
  let receive_delay := delay pkt in
  let pkt := clear_delay pkt in
  let* (d, pkt, t) := (if cmd_isRead (cmd pkt) then pio_read d pkt else pio_write d pkt) in
  let* _ := assert_ (cmd_isResponse (cmd pkt) || cmd_isError (cmd pkt)) in
  Ok (d, pkt, u64 (t + receive_delay)).

(** [SimpleTimingPort::recvTimingReq]; a packet that needs no response is
    deleted. *)
Definition pio_recvTimingReq (q : PacketQueue) (d : D) (cur : Z) (pkt : Packet) : outcome (PacketQueue * D * bool) :=
  let* _ := panic_if (pk_cacheResponding pkt) in
  let needsResponse := cmd_needsResponse (cmd pkt) in
  let* (d, pkt, latency) := pio_recvAtomic d pkt in
  if needsResponse then
    let* _ := assert_ (cmd_isResponse (cmd pkt)) in
    let* q := schedSendTiming q cur (mkDeferredPacket (u64 (cur + latency)) pkt false) in Ok (q, d, true)
  else Ok (q, d, true).

(** [SimpleTimingPort::recvFunctional]. *)
Definition pio_recvFunctional (q : PacketQueue) (d : D) (pkt : Packet) : outcome (PacketQueue * D * Packet) :=
  let* (found, pkt, q) := pq_trySatisfyFunctional q pkt in
  if found : bool then Ok (q, d, pkt)
  else let* (d, pkt, _) := pio_recvAtomic d pkt in Ok (q, d, pkt).
End Port.
