(* ===== verification/PacketQueueSpec.v ===== *)
(** The packet queue of a port: the order in which packets leave depends only on
    the order and the times in which they came, none is lost, and one that
    waits has an event or a retry due. *)
From stdpp Require Import sorting.
From S2P Require Import Prelude DmaEvents Packets Scratchpad PacketQueue.

#[local] Open Scope Z_scope.

(** ** The order of the packets *)

(** [x] may not go in front of [d]. *)
Definition blocks (force : bool) (x d : Deferred) : bool :=
  (force && matchAddr (qd_pkt d) (qd_pkt x)) || (qd_tick d <=? qd_tick x).

(** The list after the arrival of [x]. *)
Definition place (force : bool) (l : list Deferred) (x : Deferred) : list Deferred :=
  default (x :: l) (place_from force x l (length l)).
(** The packets in the order in which they leave, from the order in which they
    came. *)
Definition arranged (force : bool) (arrivals : list Deferred) : list Deferred :=
  foldl (place force) [] arrivals.

Lemma place_from_app force x l k i :
  (i ≤ length l)%nat → place_from force x (l ++ k) i = (fun l' => l' ++ k) <$> place_from force x l i.
Proof.
  induction i as [|j IH]; intros Hi; [done|]. cbn [place_from].
  destruct (lookup_lt_is_Some_2 l j) as [d Hd]; [lia|]. rewrite lookup_app_l, Hd by lia.
  destruct (_ || _); [|apply IH; lia]. cbn [fmap option_fmap option_map]. f_equal.
  rewrite take_app_le, drop_app_le by lia. by rewrite <- app_assoc.
Qed.

Lemma place_snoc force l d x :
  place force (l ++ [d]) x = if blocks force x d then l ++ [d; x] else place force l x ++ [d].
Proof.
  unfold place. rewrite length_app, Nat.add_1_r. cbn [place_from]. rewrite list_lookup_middle by done.
  fold (blocks force x d). destruct (blocks force x d); cbn [default].
  - rewrite firstn_all2, skipn_all2 by (rewrite length_app; cbn; lia). by rewrite <- app_assoc.
  - rewrite place_from_app by lia. by destruct (place_from force x l (length l)).
Qed.

(** An arrival goes behind the packets that are due no later. *)
Lemma place_app force s l x :
  Forall (fun d => qd_tick d ≤ qd_tick x) s → place force (s ++ l) x = s ++ place force l x.
Proof.
  intros Hs. induction l as [|d l IH] using rev_ind.
  - rewrite app_nil_r. destruct s as [|d s _] using rev_ind; [done|]. rewrite place_snoc.
    apply Forall_app in Hs as [_ [Hd _]%Forall_cons]. unfold blocks. replace (_ <=? _) with true by lia.
    by rewrite orb_true_r, <- app_assoc.
  - rewrite app_assoc, !place_snoc. destruct (blocks force x d); [by rewrite <- app_assoc|by rewrite IH, app_assoc].
Qed.

Lemma place_Permutation force l x : place force l x ≡ₚ x :: l.
Proof.
  induction l as [|d l IH] using rev_ind; [done|]. rewrite place_snoc. destruct (blocks force x d).
  - change [d; x] with ([d] ++ [x]). rewrite app_assoc. by rewrite <- Permutation_cons_append.
  - by rewrite IH.
Qed.

Lemma arranged_snoc force l x : arranged force (l ++ [x]) = place force (arranged force l) x.
Proof. unfold arranged. by rewrite foldl_app. Qed.

Lemma arranged_Permutation force l : arranged force l ≡ₚ l.
Proof.
  induction l as [|x l IH] using rev_ind; [done|]. rewrite arranged_snoc, place_Permutation, IH. apply Permutation_cons_append.
Qed.

(** Packets of a class within which an arrival never overtakes stay in order. *)
Lemma place_filter (P : Deferred → Prop) `{!∀ d, Decision (P d)} force l x :
  (∀ d, P x → P d → blocks force x d = true) → filter P (place force l x) = filter P (l ++ [x]).
Proof.
  intros Hno. induction l as [|d l IH] using rev_ind; [done|]. rewrite place_snoc.
  destruct (blocks force x d) eqn:E; [by rewrite <- app_assoc|]. rewrite !filter_app, IH, filter_app, <- !app_assoc.
  f_equal. rewrite !filter_cons, !filter_nil. repeat case_decide; try done. by rewrite Hno in E.
Qed.

Lemma arranged_filter (P : Deferred → Prop) `{!∀ d, Decision (P d)} force l :
  (∀ x d, P x → P d → blocks force x d = true) → filter P (arranged force l) = filter P l.
Proof.
  intros Hno. induction l as [|x l IH] using rev_ind; [done|].
  rewrite arranged_snoc, place_filter by auto. by rewrite !filter_app, IH.
Qed.

(** Without forced order the packets leave by time. *)
Lemma place_sorted l x :
  StronglySorted (fun a b => qd_tick a ≤ qd_tick b) l → StronglySorted (fun a b => qd_tick a ≤ qd_tick b) (place false l x).
Proof.
  induction l as [|d l IH] using rev_ind; [by repeat constructor|]. intros Hs.
  apply StronglySorted_app in Hs as (Hc & Hl & _). specialize (IH Hl). rewrite place_snoc.
  destruct (blocks false x d) eqn:E; cbn in E; zbool; apply StronglySorted_app; split_and!.
  - intros a b Ha Hb. specialize (Hc a d Ha ltac:(by left)). cbn in Hc.
    apply elem_of_cons in Hb as [->|[->|[]%elem_of_nil]%elem_of_cons]; lia.
  - done.
  - repeat constructor; done.
  - intros a b Ha ->%list_elem_of_singleton. rewrite place_Permutation in Ha. apply elem_of_cons in Ha as [->|Ha]; [lia|].
    apply Hc; [done|by left].
  - done.
  - repeat constructor.
Qed.

Lemma arranged_sorted l : StronglySorted (fun a b => qd_tick a ≤ qd_tick b) (arranged false l).
Proof. induction l as [|x l IH] using rev_ind; [constructor|]. rewrite arranged_snoc. by apply place_sorted. Qed.

(** Arrivals in the order of their times keep their order. *)
Lemma arranged_id force l : StronglySorted (fun a b => qd_tick a ≤ qd_tick b) l → arranged force l = l.
Proof.
  induction l as [|x l IH] using rev_ind; [done|]. intros (Hc & Hl & _)%StronglySorted_app.
  rewrite arranged_snoc, IH by done. rewrite <- (app_nil_r l) at 1. rewrite place_app; [done|].
  apply Forall_forall. intros d Hd. apply Hc; [done|by left].
Qed.

(** ** One arrival *)

Lemma place_from_Some force x l i l' :
  place_from force x l i = Some l' → ∃ d r r', l = d :: r ∧ l' = d :: r'.
Proof.
  induction i as [|j IH]; [done|]. cbn [place_from]. destruct (l !! j) as [d'|] eqn:E; [|done].
  destruct (_ || _); [|done]. intros [= <-]. destruct l as [|d r]; [done|]. cbn. eauto.
Qed.

Lemma place_from_None force x l : place_from force x l (length l) = None → Forall (fun d => blocks force x d = false) l.
Proof.
  induction l as [|d l IH] using rev_ind; [done|]. rewrite length_app, Nat.add_1_r. cbn [place_from].
  rewrite list_lookup_middle by done. fold (blocks force x d). destruct (blocks force x d) eqn:E; [done|].
  rewrite place_from_app by lia. intros H%fmap_None. apply Forall_app. split; [by apply IH|by repeat constructor].
Qed.

(** The send event, if scheduled, is due when the first packet is, but not in
    the tick in which it was scheduled. *)
Definition event_ok (cur : Z) (q : PacketQueue) : Prop :=
  match sendEvent q with
  | None => True
  | Some e => ∃ d l, transmitList q = d :: l ∧ cur ≤ e ∧ qd_tick d ≤ e ≤ Z.max (qd_tick d) (cur + 1)
  end.
(** While a retry is due no event is, and the refused packet is first. *)
Definition waiting_ok (cur : Z) (q : PacketQueue) : Prop :=
  waitingOnRetry q = true → sendEvent q = None ∧ ∃ d l, transmitList q = d :: l ∧ qd_tick d ≤ cur.
Definition armed (q : PacketQueue) : Prop :=
  waitingOnRetry q = true ∨ is_Some (sendEvent q) ∨ transmitList q = [].
Definition same_flags (q q' : PacketQueue) : Prop :=
  waitingOnRetry q' = waitingOnRetry q ∧ forceOrder q' = forceOrder q ∧ disableSanityCheck_ q' = disableSanityCheck_ q.

Definition time_ok (cur : Z) : Prop := 0 ≤ cur ∧ cur + 1 < MaxTick.
Definition arrival_ok (cur : Z) (x : Deferred) : Prop := cur ≤ qd_tick x < MaxTick ∧ qd_express x = false.
(** The sanity check of [schedSendTiming] lets [n] more packets in: it panics on
    the packet that finds more than 100 waiting. *)
Definition room (n : nat) (q : PacketQueue) : Prop :=
  disableSanityCheck_ q = true ∨ (n ≤ 101 - length (transmitList q))%nat.
#[export] Instance room_dec n q : Decision (room n q).
Proof. unfold room. apply _. Defined.
(** The queue while its first packet is being sent. *)
Definition rest (q : PacketQueue) : PacketQueue := set_list q (tail (transmitList q)).

(** Scheduling for the first packet of the list. *)
Lemma schedSendEvent_first q cur d l :
  time_ok cur → transmitList q = d :: l → qd_tick d < MaxTick → waitingOnRetry q = false →
  (∀ e, sendEvent q = Some e → cur ≤ e ∧ qd_tick d ≤ e) →
  ∃ q', schedSendEvent q cur (qd_tick d) = Ok q' ∧ transmitList q' = d :: l ∧ same_flags q q' ∧
    event_ok cur q' ∧ is_Some (sendEvent q').
Proof.
  intros [? ?] Hl Ht Hw He. unfold schedSendEvent. rewrite Hw. replace (qd_tick d =? MaxTick) with false by lia. cbn [negb].
  rewrite wrapU_id by (change MaxTick with (2 ^ 64 - 1) in *; split; lia). unfold assert_.
  replace (cur <=? Z.max (qd_tick d) (cur + 1)) with true by lia. cbn [mbind outcome_bind].
  destruct (sendEvent q) as [e|] eqn:E.
  - destruct (He e eq_refl). destruct (_ <? e) eqn:E'; zbool; eexists; (split; [reflexivity|]); cbn; (split_and!; [done..| |eauto]).
    + exists d, l. split; [done|]. lia.
    + unfold event_ok. rewrite E. exists d, l. split; [done|]. lia.
  - eexists. split; [reflexivity|]. cbn. split_and!; [done..| |eauto]. exists d, l. split; [done|]. lia.
Qed.

Lemma schedSendTiming_ok q cur x :
  time_ok cur → arrival_ok cur x → room 1 q → event_ok cur q → waiting_ok cur q →
  ∃ q', schedSendTiming q cur x = Ok q' ∧ transmitList q' = place (forceOrder q) (transmitList q) x ∧
    same_flags q q' ∧ event_ok cur q' ∧ waiting_ok cur q' ∧ (armed q → armed q').
Proof.
  intros Hc [Hx Hs] Hroom He Hw. unfold schedSendTiming, place. rewrite Hs. unfold assert_.
  replace (cur <=? qd_tick x) with true by lia. cbn [mbind outcome_bind negb].
  replace (panic_if _) with (@Ok unit tt); cbn [mbind outcome_bind].
  2:{ unfold panic_if, pq_size. destruct Hroom as [->|]; [done|]. replace (100 <? _) with false by lia. by rewrite andb_false_r. }
  destruct (place_from _ _ _ _) as [l'|] eqn:E.
  - apply place_from_Some in E as (d & r & r' & El & ->). eexists. split; [reflexivity|]. cbn. split_and!; [done..| | |].
    + unfold event_ok in *. cbn. destruct (sendEvent q); [|done]. destruct He as (d' & l & El' & ?). rewrite El in El'.
      injection El' as <- <-. eauto.
    + intros [? (d' & l & El' & ?)]%Hw. rewrite El in El'. injection El' as <- <-. cbn. eauto.
    + intros [?|[?|El']]; [by left|by right; left|by rewrite El in El'].
  - apply place_from_None in E. cbn [default].
    assert (Hnw : waitingOnRetry q = false).
    { destruct (waitingOnRetry q) eqn:Ew; [|done]. destruct (Hw Ew) as (_ & d & l & El & ?). rewrite El in E.
      apply Forall_cons in E as [E _]. unfold blocks in E. zbool. lia. }
    destruct (schedSendEvent_first (set_list q (x :: transmitList q)) cur x (transmitList q)) as (q' & Eq & El & Hf & He' & Hsome);
      [done..|lia|done| |].
    + intros e Ee. cbn in Ee. unfold event_ok in He. rewrite Ee in He. destruct He as (d & l & El & ? & ? & ?). rewrite El in E.
      apply Forall_cons in E as [E _]. unfold blocks in E. zbool. split; lia.
    + exists q'. split_and!; [done..| |by right; left]. destruct Hf as (Hf & _). intros Hq. cbn in Hf. congruence.
Qed.

(** The packet too many. *)
Lemma schedSendTiming_full q cur x : arrival_ok cur x → ¬ room 1 q → schedSendTiming q cur x = Err Panic.
Proof.
  intros [Hx Hs] Hroom. unfold schedSendTiming. rewrite Hs. unfold assert_, panic_if, pq_size.
  replace (cur <=? qd_tick x) with true by lia. cbn [mbind outcome_bind negb].
  destruct (disableSanityCheck_ q) eqn:E; [by destruct Hroom; left|].
  replace (100 <? _) with true; [done|]. destruct (decide (length (transmitList q) ≤ 100)%nat); [|lia].
  destruct Hroom. right. lia.
Qed.

(** ** Sending *)

Lemma room_place n q q' x :
  room (S n) q → transmitList q' = place (forceOrder q) (transmitList q) x → same_flags q q' → room n q' ∧ room 1 q.
Proof.
  intros [Hr|Hr] El (_ & _ & Hd); [split; left; congruence|]. split; right; [|lia].
  rewrite El, (place_Permutation (forceOrder q)). cbn. lia.
Qed.

Lemma room_place_inv n q q' x :
  room n q' → room 1 q → transmitList q' = place (forceOrder q) (transmitList q) x → same_flags q q' → room (S n) q.
Proof.
  intros [Hr|Hr] H1 El (_ & _ & Hd); [left; congruence|]. destruct H1 as [?|H1]; [by left|right].
  rewrite El, (place_Permutation (forceOrder q)) in Hr. cbn in Hr. lia.
Qed.

Lemma arrivals_ok ns q cur :
  time_ok cur → Forall (arrival_ok cur) ns → room (length ns) q → event_ok cur q → waiting_ok cur q →
  ∃ q', foldM (fun q x => schedSendTiming q cur x) ns q = Ok q' ∧
    transmitList q' = foldl (place (forceOrder q)) (transmitList q) ns ∧ same_flags q q' ∧
    event_ok cur q' ∧ waiting_ok cur q' ∧ (armed q → armed q').
Proof.
  intros Hc Hns. revert q. induction Hns as [|x ns Hx Hns IH]; intros q Hroom He Hw.
  { exists q. cbn. unfold same_flags. auto 10. }
  assert (Hr1 : room 1 q) by (destruct Hroom; [by left|right; cbn in *; lia]).
  destruct (schedSendTiming_ok q cur x Hc Hx Hr1 He Hw) as (q1 & E1 & El1 & Hf1 & He1 & Hw1 & Ha1).
  destruct (room_place _ _ _ _ Hroom El1 Hf1) as [Hroom1 _].
  destruct (IH q1 Hroom1 He1 Hw1) as (q2 & E2 & El2 & Hf2 & He2 & Hw2 & Ha2).
  exists q2. cbn [foldM]. rewrite E1. cbn [mbind outcome_bind]. destruct Hf1 as (? & Hf & ?), Hf2 as (? & ? & ?).
  rewrite El2, El1, Hf. split_and!; [done|done|unfold same_flags; split_and!; congruence|done|done|auto].
Qed.

Lemma arrivals_full ns q cur :
  time_ok cur → Forall (arrival_ok cur) ns → ¬ room (length ns) q → event_ok cur q → waiting_ok cur q →
  foldM (fun q x => schedSendTiming q cur x) ns q = Err Panic.
Proof.
  intros Hc Hns. revert q. induction Hns as [|x ns Hx Hns IH]; intros q Hfull He Hw; cbn [foldM].
  { destruct Hfull. right. cbn. lia. }
  destruct (decide (room 1 q)) as [Hr1|Hr1]; [|by rewrite schedSendTiming_full].
  destruct (schedSendTiming_ok q cur x Hc Hx Hr1 He Hw) as (q1 & -> & El1 & Hf1 & He1 & Hw1 & _). cbn [mbind outcome_bind].
  apply IH; [|done..]. intros Hr. by apply Hfull, (room_place_inv _ q q1 x).
Qed.

Definition soon (d : Deferred) : Prop := qd_tick d < MaxTick.

Lemma places_Forall (P : Deferred → Prop) force l ns : Forall P l → Forall P ns → Forall P (foldl (place force) l ns).
Proof.
  intros Hl Hns. revert l Hl. induction Hns as [|x ns Hx _ IH]; intros l Hl; [done|]. cbn. apply IH.
  rewrite place_Permutation. by constructor.
Qed.

(** After a packet was accepted the event is scheduled for the next one. *)
Lemma sched_next q cur :
  time_ok cur → Forall soon (transmitList q) → waitingOnRetry q = false → event_ok cur q →
  ∃ q', schedSendEvent q cur (deferredPacketReadyTime q) = Ok q' ∧ transmitList q' = transmitList q ∧
    same_flags q q' ∧ event_ok cur q' ∧ armed q'.
Proof.
  intros Hc Hs Hw He. unfold deferredPacketReadyTime. destruct (transmitList q) as [|d l] eqn:El.
  - unfold schedSendEvent. rewrite Hw, Z.eqb_refl. cbn [negb]. unfold event_ok in He. destruct (sendEvent q) as [e|] eqn:Ee.
    { destruct He as (d & l & El' & _). by rewrite El in El'. }
    rewrite El. exists (match pq_drainState q with Draining => set_pq_drain q (signalDrainDone (pq_drainState q)) | _ => q end).
    unfold same_flags, event_ok, armed. destruct (pq_drainState q); cbn; rewrite ?Ee, ?El; auto 10.
  - apply Forall_cons in Hs as [Hd _].
    destruct (schedSendEvent_first q cur d l Hc El Hd Hw) as (q' & E & El' & Hf & He' & Ha).
    { intros e Ee. unfold event_ok in He. rewrite Ee, El in He. destruct He as (? & ? & [= <- <-] & ?). lia. }
    exists q'. split_and!; [done..|by right; left].
Qed.

Lemma sendDeferredPacket_ok q cur d l ns acc :
  time_ok cur → transmitList q = d :: l → qd_tick d ≤ cur → Forall soon l → waitingOnRetry q = false → sendEvent q = None →
  Forall (arrival_ok cur) ns → room (length ns) (set_list q l) → (acc = false → ns = []) →
  ∃ q', sendDeferredPacket q cur ns acc = Ok (q', d) ∧ forceOrder q' = forceOrder q ∧
    transmitList q' = (if acc then foldl (place (forceOrder q)) l ns else d :: l) ∧
    event_ok cur q' ∧ waiting_ok cur q' ∧ armed q'.
Proof.
  intros Hc El Hd Hl Hw Hev Hns Hroom Hacc. unfold sendDeferredPacket, deferredPacketReady. rewrite Hw, El. unfold assert_.
  replace (qd_tick d <=? cur) with true by lia. cbn [negb mbind outcome_bind].
  destruct acc; cbn [negb].
  - destruct (arrivals_ok ns (set_list q l) cur Hc Hns Hroom) as (q1 & -> & El1 & (Hw1 & Hf1 & _) & He1 & _ & _).
    { unfold event_ok. cbn. by rewrite Hev. }
    { intros Hw'. cbn in Hw'. congruence. }
    cbn [mbind outcome_bind waitingOnRetry set_waiting negb]. cbn in El1, Hf1.
    destruct (sched_next (set_waiting q1 false) cur) as (q2 & -> & El2 & (Hw2 & Hf2 & _) & He2 & Ha2); [done| |done|done|].
    + cbn. rewrite El1. apply places_Forall; [done|]. apply (Forall_impl _ _ _ Hns). intros x [[] _]. done.
    + exists q2. cbn in El2, Hf2, Hw2. split_and!; [done|congruence|by rewrite El2, El1|done| |done].
      intros Hq. congruence.
  - rewrite (Hacc eq_refl). eexists. split; [reflexivity|]. unfold event_ok, armed. cbn. rewrite Hev.
    split_and!; [done|done|done| |by left]. intros _. cbn. eauto.
Qed.

Lemma sendDeferredPacket_full q cur d l ns acc :
  time_ok cur → transmitList q = d :: l → qd_tick d ≤ cur → waitingOnRetry q = false → sendEvent q = None →
  Forall (arrival_ok cur) ns → ¬ room (length ns) (set_list q l) → sendDeferredPacket q cur ns acc = Err Panic.
Proof.
  intros Hc El Hd Hw Hev Hns Hroom. unfold sendDeferredPacket, deferredPacketReady. rewrite Hw, El. unfold assert_.
  replace (qd_tick d <=? cur) with true by lia. cbn [negb mbind outcome_bind].
  rewrite arrivals_full; [done..| |]; [unfold event_ok; cbn; by rewrite Hev|intros Hw'; cbn in Hw'; congruence].
Qed.

(** ** Runs *)

(** Time passes but never past the event that is due; packets arrive; the event is
    processed at its time and a retry follows a refusal. *)
Inductive queue_run (force dis : bool) : Z → PacketQueue → list Deferred → list Deferred → Prop :=
  | run_new : queue_run force dis 0 (PacketQueue_new force dis) [] []
  | run_wait cur cur' q arr sent :
      queue_run force dis cur q arr sent → cur ≤ cur' → time_ok cur' → (∀ e, sendEvent q = Some e → cur' ≤ e) →
      queue_run force dis cur' q arr sent
  | run_arrive cur q q' arr sent x :
      queue_run force dis cur q arr sent → arrival_ok cur x → schedSendTiming q cur x = Ok q' →
      queue_run force dis cur q' (arr ++ [x]) sent
  | run_event cur q q' arr sent ns acc d :
      queue_run force dis cur q arr sent → sendEvent q = Some cur → Forall (arrival_ok cur) ns → (acc = false → ns = []) →
      processSendEvent q cur ns acc = Ok (q', d) →
      queue_run force dis cur q' (arr ++ ns) (if acc : bool then sent ++ [d] else sent)
  | run_retry cur q q' arr sent ns acc d :
      queue_run force dis cur q arr sent → waitingOnRetry q = true → Forall (arrival_ok cur) ns → (acc = false → ns = []) →
      retry q cur ns acc = Ok (q', d) →
      queue_run force dis cur q' (arr ++ ns) (if acc : bool then sent ++ [d] else sent)
  | run_drain cur q arr sent : queue_run force dis cur q arr sent → queue_run force dis cur (pq_drain q) arr sent
  | run_resume cur q arr sent :
      queue_run force dis cur q arr sent → queue_run force dis cur (set_pq_drain q Running) arr sent.

Record queue_inv (force : bool) (cur : Z) (q : PacketQueue) (arr sent : list Deferred) : Prop := {
  qi_time : time_ok cur;
  qi_force : forceOrder q = force;
  qi_order : sent ++ transmitList q = arranged force arr;
  qi_sent : Forall (fun d => qd_tick d ≤ cur) sent;
  qi_soon : Forall soon (transmitList q);
  qi_event : event_ok cur q;
  qi_waiting : waiting_ok cur q;
  qi_armed : armed q;
}.

Lemma arranged_app force arr ns : arranged force (arr ++ ns) = foldl (place force) (arranged force arr) ns.
Proof. unfold arranged. by rewrite foldl_app. Qed.

(** Arrivals that are due later than the packets sent go behind them. *)
Lemma places_app force s l ns :
  Forall (fun x => Forall (fun d => qd_tick d ≤ qd_tick x) s) ns → foldl (place force) (s ++ l) ns = s ++ foldl (place force) l ns.
Proof.
  intros H. revert l. induction H as [|x ns Hx _ IH]; intros l; [done|]. cbn. by rewrite place_app, IH by done.
Qed.

Lemma sent_before cur (sent ns : list Deferred) :
  Forall (fun d => qd_tick d ≤ cur) sent → Forall (arrival_ok cur) ns → Forall (fun x => Forall (fun d => qd_tick d ≤ qd_tick x) sent) ns.
Proof.
  intros Hs Hn. apply (Forall_impl _ _ _ Hn). intros x [[Hx _] _]. apply (Forall_impl _ _ _ Hs). intros d ?. cbn in *. lia.
Qed.

Lemma arrivals_soon cur ns : Forall (arrival_ok cur) ns → Forall soon ns.
Proof. intros H. apply (Forall_impl _ _ _ H). intros x [[] _]. done. Qed.

(** A send, from the event or a retry, keeps the invariant; it panics when it
    brings in a packet too many. *)
Lemma send_inv force cur q0 q arr sent ns acc d l :
  queue_inv force cur q0 arr sent → transmitList q0 = d :: l → qd_tick d ≤ cur →
  transmitList q = d :: l → forceOrder q = force → disableSanityCheck_ q = disableSanityCheck_ q0 →
  waitingOnRetry q = false → sendEvent q = None → Forall (arrival_ok cur) ns → (acc = false → ns = []) →
  if decide (room (length ns) (rest q0)) then
    ∃ q', sendDeferredPacket q cur ns acc = Ok (q', d) ∧ queue_inv force cur q' (arr ++ ns) (if acc then sent ++ [d] else sent)
  else sendDeferredPacket q cur ns acc = Err Panic.
Proof.
  intros [Hc Hf Ho Hs Hsn _ _ _] El0 Hd El Hf' Hdis Hw Hev Hns Hacc.
  assert (Hrest : room (length ns) (rest q0) ↔ room (length ns) (set_list q l)).
  { unfold rest, room. rewrite El0. cbn. by rewrite Hdis. }
  case_decide as Hroom; rewrite Hrest in Hroom; [|by apply (sendDeferredPacket_full q cur d l)].
  rewrite El0 in Ho, Hsn. apply Forall_cons in Hsn as [Hsd Hsn].
  destruct (sendDeferredPacket_ok q cur d l ns acc Hc El Hd Hsn Hw Hev Hns Hroom Hacc) as (q' & E & Hfq & Elq & ? & ? & ?).
  exists q'. split; [done|]. rewrite Hf' in Elq. destruct acc.
  - split; [done|congruence| | | |done..].
    + rewrite arranged_app, <- Ho, Elq. change (d :: l) with ([d] ++ l). rewrite app_assoc. symmetry. apply places_app.
      apply (sent_before cur); [|done]. apply Forall_app. split; [done|by repeat constructor].
    + apply Forall_app. split; [done|by repeat constructor].
    + rewrite Elq. apply places_Forall; [done|by apply (arrivals_soon cur)].
  - rewrite (Hacc eq_refl), app_nil_r. split; [done|congruence|by rewrite Elq|done|rewrite Elq; by constructor|done..].
Qed.

Lemma event_inv force cur q arr sent ns acc :
  queue_inv force cur q arr sent → sendEvent q = Some cur → Forall (arrival_ok cur) ns → (acc = false → ns = []) →
  if decide (room (length ns) (rest q)) then
    ∃ q' d, processSendEvent q cur ns acc = Ok (q', d) ∧ head (transmitList q) = Some d ∧
      queue_inv force cur q' (arr ++ ns) (if acc then sent ++ [d] else sent)
  else processSendEvent q cur ns acc = Err Panic.
Proof.
  intros Hq He Hns Hacc. pose proof (qi_event _ _ _ _ _ Hq) as Hev. unfold event_ok in Hev. rewrite He in Hev.
  destruct Hev as (d & l & El & _ & Hd & _).
  assert (Hw : waitingOnRetry q = false).
  { destruct (waitingOnRetry q) eqn:E; [|done]. destruct (qi_waiting _ _ _ _ _ Hq E) as [? _]. congruence. }
  pose proof (send_inv force cur q (set_event q None) arr sent ns acc d l Hq El Hd El (qi_force _ _ _ _ _ Hq) eq_refl Hw eq_refl Hns Hacc) as Hsend.
  unfold processSendEvent, assert_. cbn [set_event waitingOnRetry]. rewrite Hw. cbn [negb mbind outcome_bind].
  case_decide; [|done]. destruct Hsend as (q' & E & Hq'). exists q', d. by rewrite E, El.
Qed.

Lemma retry_inv force cur q arr sent ns acc :
  queue_inv force cur q arr sent → waitingOnRetry q = true → Forall (arrival_ok cur) ns → (acc = false → ns = []) →
  if decide (room (length ns) (rest q)) then
    ∃ q' d, retry q cur ns acc = Ok (q', d) ∧ head (transmitList q) = Some d ∧
      queue_inv force cur q' (arr ++ ns) (if acc then sent ++ [d] else sent)
  else retry q cur ns acc = Err Panic.
Proof.
  intros Hq Hw Hns Hacc. destruct (qi_waiting _ _ _ _ _ Hq Hw) as (He & d & l & El & Hd).
  pose proof (send_inv force cur q (set_waiting q false) arr sent ns acc d l Hq El Hd El (qi_force _ _ _ _ _ Hq) eq_refl eq_refl He Hns Hacc) as Hsend.
  unfold retry. rewrite Hw. cbn [assert_ mbind outcome_bind].
  case_decide; [|done]. destruct Hsend as (q' & E & Hq'). exists q', d. by rewrite E, El.
Qed.

Lemma arrive_inv force cur q arr sent x :
  queue_inv force cur q arr sent → arrival_ok cur x →
  if decide (room 1 q) then ∃ q', schedSendTiming q cur x = Ok q' ∧ queue_inv force cur q' (arr ++ [x]) sent
  else schedSendTiming q cur x = Err Panic.
Proof.
  intros [Hc Hf Ho Hs Hsn Hev Hwt Ha] Hx. case_decide as Hroom; [|by apply schedSendTiming_full].
  destruct (schedSendTiming_ok q cur x Hc Hx Hroom Hev Hwt) as (q' & E & El & (_ & Hf' & _) & ? & ? & Ha'). exists q'. split; [done|].
  rewrite Hf in El. split; [done|congruence| |done| |done|done|auto].
  - rewrite arranged_snoc, <- Ho, El. symmetry. apply place_app. apply (Forall_impl _ _ _ Hs). intros d ?. destruct Hx. lia.
  - rewrite El, place_Permutation. constructor; [by apply Hx|done].
Qed.

Lemma queue_run_inv force dis cur q arr sent : queue_run force dis cur q arr sent → queue_inv force cur q arr sent.
Proof.
  induction 1 as [|cur cur' q arr sent _ IH ? ? He|cur q q' arr sent x _ IH Hx E|cur q q' arr sent ns acc d _ IH He Hns Hacc E
    |cur q q' arr sent ns acc d _ IH Hw Hns Hacc E|cur q arr sent _ IH|cur q arr sent _ IH].
  - split; cbn; try done. by right; right.
  - destruct IH as [Hc Hf Ho Hs Hsn Hev Hwt Ha]. split; try done.
    + apply (Forall_impl _ _ _ Hs). intros d ?. cbn in *. lia.
    + unfold event_ok in *. destruct (sendEvent q) as [e|]; [|done]. destruct Hev as (d & l & ? & ?). specialize (He e eq_refl).
      exists d, l. split; [done|]. lia.
    + intros (? & d & l & ? & ?)%Hwt. split; [done|]. exists d, l. split; [done|lia].
  - pose proof (arrive_inv _ _ _ _ _ x IH Hx) as H. rewrite E in H. case_decide; [|done].
    by destruct H as (q1 & [= <-] & ?).
  - pose proof (event_inv _ _ _ _ _ ns acc IH He Hns Hacc) as H. rewrite E in H. case_decide; [|done].
    by destruct H as (q1 & d1 & [= <- <-] & _ & ?).
  - pose proof (retry_inv _ _ _ _ _ ns acc IH Hw Hns Hacc) as H. rewrite E in H. case_decide; [|done].
    by destruct H as (q1 & d1 & [= <- <-] & _ & ?).
  - destruct IH. by split.
  - destruct IH. by split.
Qed.

(** The packets of an address of the secure or the normal memory. *)
Definition at_addr (a : Z) (s : bool) (d : Deferred) : Prop := getAddr (qd_pkt d) = a ∧ isSecure (qd_pkt d) = s.
#[export] Instance at_addr_dec a s d : Decision (at_addr a s d).
Proof. unfold at_addr. apply _. Defined.

Lemma at_addr_blocks a s x d : at_addr a s x → at_addr a s d → blocks true x d = true.
Proof.
  intros [E1 E2] [E3 E4]. unfold blocks, matchAddr. by rewrite E1, E2, E3, E4, Z.eqb_refl, eqb_reflx.
Qed.

Lemma tick_blocks force t x d : qd_tick x = t → qd_tick d = t → blocks force x d = true.
Proof. intros. unfold blocks. replace (_ <=? _) with true by lia. apply orb_true_r. Qed.

(** C35: for any arrivals, refusals and retries, and with packets that arrive while
    another is being accepted: the packets that have left and those that wait are
    the arrivals, in an order that depends on the arrivals alone: by time and among
    equal times as they came, and with forced order the packets of an address
    as they came; none leaves before it is due; while packets wait, a retry is
    due or the event is scheduled, no later than the first packet is due or the
    next tick.  The sanity check is the only failure: an arrival, or a send during
    which packets arrive, succeeds when each new packet finds at most 100 others
    waiting or the check is disabled, and panics otherwise.  (Arrivals are due now
    or later and are no express snoops, as the code asserts.) *)
Theorem packet_queue_sound force dis cur q arr sent :
  queue_run force dis cur q arr sent →
  let all := sent ++ transmitList q in
  all = arranged force arr ∧ all ≡ₚ arr ∧ (∀ t, filter (fun d => qd_tick d = t) all = filter (fun d => qd_tick d = t) arr) ∧
  (force = false → StronglySorted (fun a b => qd_tick a ≤ qd_tick b) all) ∧
  (force = true → ∀ a s, filter (at_addr a s) all = filter (at_addr a s) arr) ∧
  Forall (fun d => qd_tick d ≤ cur) sent ∧
  (∀ d l, transmitList q = d :: l →
     waitingOnRetry q = true ∧ qd_tick d ≤ cur ∨
     ∃ e, sendEvent q = Some e ∧ cur ≤ e ∧ qd_tick d ≤ e ≤ Z.max (qd_tick d) (cur + 1)) ∧
  (∀ x, arrival_ok cur x →
     if decide (room 1 q) then ∃ q', schedSendTiming q cur x = Ok q' else schedSendTiming q cur x = Err Panic) ∧
  (∀ ns acc, Forall (arrival_ok cur) ns → (acc = false → ns = []) →
     (sendEvent q = Some cur →
        if decide (room (length ns) (rest q))
        then ∃ q' d, processSendEvent q cur ns acc = Ok (q', d) ∧ head (transmitList q) = Some d
        else processSendEvent q cur ns acc = Err Panic) ∧
     (waitingOnRetry q = true →
        if decide (room (length ns) (rest q))
        then ∃ q' d, retry q cur ns acc = Ok (q', d) ∧ head (transmitList q) = Some d
        else retry q cur ns acc = Err Panic)).
Proof.
  intros Hrun all. pose proof (queue_run_inv _ _ _ _ _ _ Hrun) as Hq. pose proof (qi_order _ _ _ _ _ Hq) as Ho. fold all in Ho.
  split_and!; [done|rewrite Ho; apply arranged_Permutation| | | |apply Hq| | |].
  - intros t. rewrite Ho. apply arranged_filter. intros x d. apply tick_blocks.
  - intros ->. rewrite Ho. apply arranged_sorted.
  - intros -> a s. rewrite Ho. apply arranged_filter. intros x d. apply at_addr_blocks.
  - intros d l El. destruct (qi_armed _ _ _ _ _ Hq) as [Hw|[[e He]|El']]; [left|right|by rewrite El in El'].
    + destruct (qi_waiting _ _ _ _ _ Hq Hw) as (_ & d' & l' & El' & ?). rewrite El in El'. injection El' as <- <-. done.
    + pose proof (qi_event _ _ _ _ _ Hq) as Hev. unfold event_ok in Hev. rewrite He, El in Hev.
      destruct Hev as (d' & l' & [= <- <-] & ?). eauto.
  - intros x Hx. pose proof (arrive_inv _ _ _ _ _ x Hq Hx) as H. case_decide; [|done]. destruct H as (q' & ? & _). eauto.
  - intros ns acc Hns Hacc. split; intros H.
    + pose proof (event_inv _ _ _ _ _ ns acc Hq H Hns Hacc) as H'. case_decide; [|done]. destruct H' as (q' & d & ? & ? & _). eauto.
    + pose proof (retry_inv _ _ _ _ _ ns acc Hq H Hns Hacc) as H'. case_decide; [|done]. destruct H' as (q' & d & ? & ? & _). eauto.
Qed.

(** ** Examples *)

Module QueueExample.
Definition pkt (a : Z) (c : MemCmd) : Packet := mkPacket c a [1; 2; 3; 4] false false 0 false false 0 None None.
Definition due (t a : Z) : Deferred := mkDeferredPacket t (pkt a ReadResp) false.
Definition get {A} (d : A) (m : outcome A) : A := match m with Ok a => a | Err _ => d end.

(** A packet due at 30 arrives, then one of another address due at 20, then one
    of the first address due at 25; the first is refused once. *)
Definition q0 : PacketQueue := PacketQueue_new true false.
Definition q1 : PacketQueue := get q0 (schedSendTiming q0 0 (due 30 64)).
Definition q2 : PacketQueue := get q0 (schedSendTiming q1 0 (due 20 128)).
Definition q3 : PacketQueue := get q0 (schedSendTiming q2 0 (due 25 64)).
Definition q4 : PacketQueue := (get (q0, due 0 0) (processSendEvent q3 20 [] false)).1.
Definition q5 : PacketQueue := (get (q0, due 0 0) (retry q4 35 [due 40 192] true)).1.

Ltac by_computing := vm_compute; repeat split; (reflexivity || discriminate).

Lemma example_run :
  queue_run true false 35 q5 [due 30 64; due 20 128; due 25 64; due 40 192] [due 20 128].
Proof.
  apply (run_retry true false 35 q4 q5 [due 30 64; due 20 128; due 25 64] [] [due 40 192] true (due 20 128));
    [|reflexivity|apply Forall_singleton; by_computing|done|reflexivity].
  apply (run_wait true false 20 35); [|by_computing|by_computing|done].
  apply (run_event true false 20 q3 q4 [due 30 64; due 20 128; due 25 64] [] [] false (due 20 128));
    [|reflexivity|by apply Forall_nil|done|reflexivity].
  apply (run_wait true false 0 20); [|by_computing|by_computing|intros e [= <-]; by_computing].
  apply (run_arrive true false 0 q2 q3 [due 30 64; due 20 128]); [|by_computing|reflexivity].
  apply (run_arrive true false 0 q1 q2 [due 30 64]); [|by_computing|reflexivity].
  apply (run_arrive true false 0 q0 q1 []); [constructor|by_computing|reflexivity].
Qed.

(** The packet due at 25 stays behind the earlier one of its address. *)
Lemma packet_queue_sound_witness :
  transmitList q5 = [due 30 64; due 25 64; due 40 192] ∧ [due 20 128] ++ transmitList q5 = arranged true [due 30 64; due 20 128; due 25 64; due 40 192].
Proof.
  split; [reflexivity|]. exact (proj1 (packet_queue_sound true false 35 q5 _ _ example_run)).
Defined.

(** With the check enabled the 102nd packet panics, also one that arrives during
    a send from a queue that was full. *)
Definition full (n : nat) : PacketQueue := get q0 (foldM (fun q x => schedSendTiming q 0 x) (replicate n (due 30 64)) q0).
Example one_too_many :
  length (transmitList (full 101)) = 101%nat ∧ schedSendTiming (full 101) 0 (due 30 64) = Err Panic ∧
  processSendEvent (full 101) 30 [due 31 64; due 32 64] true = Err Panic.
Proof. vm_compute. done. Qed.

(** A packet that arrives while another one is being refused schedules the event
    although a retry is due: the event then fails its assertion. *)
Example nested_then_refused :
  ∃ q' d, processSendEvent q1 30 [due 31 128] false = Ok (q', d) ∧ waitingOnRetry q' = true ∧ sendEvent q' = Some 31 ∧
    processSendEvent q' 31 [] true = Err AssertFail.
Proof. vm_compute. eexists _, _. split; [reflexivity|]. done. Qed.
End QueueExample.
