(* ===== verification/PioPort.v ===== *)
(** The port through which the host accesses the registers of a device: each
    request reaches the device when it arrives, and its answer leaves once, when
    it is due.  [CommInterface] is such a device. *)
From stdpp Require Import sorting.
From S2P Require Import Prelude DmaEvents Packets AddrRange MemRequest CommInterface CommInv CommSpec Scratchpad PacketQueue PacketQueueSpec.

#[local] Open Scope Z_scope.

Section Runs.
Context {D : Type} `{!PioDevice D}.

(** A request that was answered: when it came, the request, the device before
    it, and the response with the time it is due. *)
Record Entry := mkEntry { le_time : Z; le_req : Packet; le_before : D; le_resp : Deferred }.

(** The device, at time [cur], answers the request and is [d'] afterwards. *)
Definition answers (cur : Z) (e : Entry) (d' : D) : Prop :=
  le_time e = cur ∧ pk_cacheResponding (le_req e) = false ∧ cmd_needsResponse (cmd (le_req e)) = true ∧
  ∃ r lat, pio_recvAtomic (le_before e) (le_req e) = Ok (d', r, lat) ∧ cmd_isResponse (cmd r) = true ∧
    0 ≤ lat ∧ cur + lat < MaxTick ∧ le_resp e = mkDeferredPacket (cur + lat) r false.

(** Requests one after the other. *)
Inductive served (cur : Z) : D → list Entry → D → Prop :=
  | served_nil d : served cur d [] d
  | served_cons e d1 d2 es : answers cur e d1 → served cur d1 es d2 → served cur (le_before e) (e :: es) d2.

(** The host sends requests, also while it takes a response; the device changes
    as it likes in between. *)
Inductive port_run (dis : bool) : Z → PacketQueue → D → list Entry → list Deferred → Prop :=
  | pr_new d : port_run dis 0 (PacketQueue_new false dis) d [] []
  | pr_wait cur cur' q d log sent :
      port_run dis cur q d log sent → cur ≤ cur' → time_ok cur' → (∀ e, sendEvent q = Some e → cur' ≤ e) →
      port_run dis cur' q d log sent
  | pr_device cur q d d' log sent : port_run dis cur q d log sent → port_run dis cur q d' log sent
  | pr_request cur q q' d' log sent e :
      port_run dis cur q (le_before e) log sent → answers cur e d' →
      pio_recvTimingReq q (le_before e) cur (le_req e) = Ok (q', d', true) →
      port_run dis cur q' d' (log ++ [e]) sent
  | pr_event cur q q' d d' log sent es acc x :
      port_run dis cur q d log sent → sendEvent q = Some cur → served cur d es d' → (acc = false → es = []) →
      processSendEvent q cur (le_resp <$> es) acc = Ok (q', x) →
      port_run dis cur q' d' (log ++ es) (if acc : bool then sent ++ [x] else sent)
  | pr_retry cur q q' d d' log sent es acc x :
      port_run dis cur q d log sent → waitingOnRetry q = true → served cur d es d' → (acc = false → es = []) →
      retry q cur (le_resp <$> es) acc = Ok (q', x) →
      port_run dis cur q' d' (log ++ es) (if acc : bool then sent ++ [x] else sent).

Lemma answers_arrival cur e d' : 0 ≤ cur → answers cur e d' → arrival_ok cur (le_resp e).
Proof. intros ? (_ & _ & _ & r & lat & _ & _ & ? & ? & ->). split; [cbn; lia|done]. Qed.

Lemma served_arrivals cur d es d' :
  0 ≤ cur → served cur d es d' → Forall (arrival_ok cur) (le_resp <$> es) ∧ Forall (fun e => ∃ d, answers (le_time e) e d) es ∧
  Forall (fun e => le_time e = cur) es.
Proof.
  intros Hc. induction 1 as [|e d1 d2 es Ha _ (H1 & H2 & H3)]; [done|]. pose proof (proj1 Ha) as Et.
  split_and!; constructor; try done; [by apply (answers_arrival cur e d1)|exists d1; by rewrite Et].
Qed.

(** A request the device answers is taken and its answer queued. *)
Lemma recvTimingReq_sched q cur e d' :
  0 ≤ cur → answers cur e d' →
  pio_recvTimingReq q (le_before e) cur (le_req e) = (let* q' := schedSendTiming q cur (le_resp e) in Ok (q', d', true)).
Proof.
  intros Hc (_ & Hcr & Hn & r & lat & E & Hr & ? & ? & ->). unfold pio_recvTimingReq. rewrite Hcr, Hn, E.
  cbn [panic_if mbind outcome_bind]. rewrite Hr. cbn [assert_ mbind outcome_bind].
  rewrite wrapU_id by (change MaxTick with (2 ^ 64 - 1) in *; split; lia). done.
Qed.

Definition log_ok (cur : Z) (log : list Entry) : Prop :=
  Forall (fun e => ∃ d, answers (le_time e) e d) log ∧ Forall (fun e => le_time e ≤ cur) log ∧
  StronglySorted (fun a b => le_time a ≤ le_time b) log.

Lemma log_ok_app cur log es :
  log_ok cur log → Forall (fun e => ∃ d, answers (le_time e) e d) es → Forall (fun e => le_time e = cur) es → log_ok cur (log ++ es).
Proof.
  intros (Hl & Ht & Hs) Ha He. rewrite Forall_forall in He, Ht. split_and!.
  - by apply Forall_app.
  - apply Forall_app. split; apply Forall_forall; [done|]. intros e Hin. rewrite (He e Hin). done.
  - apply StronglySorted_app. split_and!; [|done|].
    + intros a b Hin Hb. rewrite (He b Hb). by apply Ht.
    + clear Ha. induction es as [|e es IH]; [constructor|]. constructor.
      * apply IH. intros a Hin. apply He. by right.
      * apply Forall_forall. intros a Hin. rewrite (He e), (He a); [done|by right|by left].
Qed.

Lemma run_time force dis cur q arr sent : queue_run force dis cur q arr sent → 0 ≤ cur.
Proof. intros H%queue_run_inv. by destruct (qi_time _ _ _ _ _ H). Qed.

(** The responses queue up as the arrivals of a packet queue, in the order of
    the requests. *)
Lemma port_run_queue dis cur q d log sent :
  port_run dis cur q d log sent → queue_run false dis cur q (le_resp <$> log) sent ∧ log_ok cur log.
Proof.
  induction 1 as [d|cur cur' q d log sent _ (Hq & Hl & Ht & Hs) Hle Hok He|cur q d d' log sent _ IH
    |cur q q' d' log sent e _ [Hq Hl] Ha E
    |cur q q' d d' log sent es acc x _ [Hq Hl] Hev Hes Hacc E
    |cur q q' d d' log sent es acc x _ [Hq Hl] Hw Hes Hacc E].
  - split; [constructor|]. repeat split; constructor.
  - split; [by apply (run_wait _ _ cur)|]. split_and!; [done| |done]. apply (Forall_impl _ _ _ Ht). intros e ?. cbn in *. lia.
  - done.
  - pose proof (run_time _ _ _ _ _ _ Hq) as Hc. rewrite (recvTimingReq_sched q cur e d' Hc Ha) in E.
    apply bind_ok in E as (q1 & E & [= <-]). split.
    + rewrite fmap_app. apply (run_arrive _ _ cur q); [done|by apply (answers_arrival cur e d')|done].
    + apply log_ok_app; [done|..]; apply Forall_singleton; [|apply Ha]. exists d'. by rewrite (proj1 Ha).
  - pose proof (run_time _ _ _ _ _ _ Hq) as Hc. destruct (served_arrivals cur d es d' Hc Hes) as (H1 & H2 & H3).
    split; [|by apply log_ok_app]. rewrite fmap_app.
    apply (run_event _ _ cur q); [done..|by intros ->%Hacc|done].
  - pose proof (run_time _ _ _ _ _ _ Hq) as Hc. destruct (served_arrivals cur d es d' Hc Hes) as (H1 & H2 & H3).
    split; [|by apply log_ok_app]. rewrite fmap_app.
    apply (run_retry _ _ cur q); [done..|by intros ->%Hacc|done].
Qed.

(** C36: the port answers every request once: what has left and what waits are the
    device's answers, given when the requests came; none leaves before it is
    due; with a constant latency they leave in the order of the requests; while
    an answer waits, a retry is due or the send event is scheduled.  A request that
    the device answers is taken unless more than 100 answers wait and the sanity
    check of the queue is on, which is a panic. *)
Theorem pio_port_answers dis cur q d log sent :
  port_run dis cur q d log sent →
  Forall (fun e => ∃ d', answers (le_time e) e d') log ∧
  sent ++ transmitList q ≡ₚ le_resp <$> log ∧
  Forall (fun x => qd_tick x ≤ cur) sent ∧
  (∀ L, Forall (fun e => qd_tick (le_resp e) = le_time e + L) log → sent ++ transmitList q = le_resp <$> log) ∧
  (∀ e d', le_before e = d → answers cur e d' →
     if decide (room 1 q) then ∃ q', pio_recvTimingReq q d cur (le_req e) = Ok (q', d', true)
     else pio_recvTimingReq q d cur (le_req e) = Err Panic) ∧
  (transmitList q ≠ [] → waitingOnRetry q = true ∨ is_Some (sendEvent q)).
Proof.
  intros (Hq & Hl & Ht & Hs)%port_run_queue. pose proof (run_time _ _ _ _ _ _ Hq) as Hc.
  pose proof (queue_run_inv _ _ _ _ _ _ Hq) as Hi. pose proof (qi_order _ _ _ _ _ Hi) as Ho.
  split_and!; [done|rewrite Ho; apply arranged_Permutation|apply Hi| | |].
  - intros L HL. rewrite Ho. apply arranged_id. clear -Hs HL. induction Hs as [|e log _ IH He]; [constructor|].
    apply Forall_cons in HL as [E HL]. cbn. constructor; [by apply IH|]. apply Forall_fmap. rewrite Forall_forall in *.
    intros b Hb. cbn. rewrite E, (HL b Hb). specialize (He b Hb). lia.
  - intros e d' <- Ha. rewrite (recvTimingReq_sched q cur e d' Hc Ha).
    pose proof (arrive_inv _ _ _ _ _ (le_resp e) Hi (answers_arrival cur e d' Hc Ha)) as H. case_decide; [|by rewrite H].
    destruct H as (q' & -> & _). by exists q'.
  - intros Hne. destruct (qi_armed _ _ _ _ _ Hi) as [?|[?|?]]; [by left|by right|done].
Qed.
End Runs.

(** ** The accelerator's registers *)

(** [CommInterface::read] and [CommInterface::write], with the response they make
    of the packet and the delay they return. *)
Section Registers.
Context (cfg : Params) (env : Env) (pioDelay : Z).

Definition comm_pio_read (s : Mem * Dev) (pkt : Packet) : outcome (Mem * Dev * Packet * Z) :=
  let* bs := read cfg s.2 (getAddr pkt) (getSize pkt) in
  let* r := makeResponse (set_pkdata pkt bs) in Ok (s, r, pioDelay).
Definition comm_pio_write (s : Mem * Dev) (pkt : Packet) : outcome (Mem * Dev * Packet * Z) :=
  let* (m, d) := write cfg env s.1 s.2 (getAddr pkt) (pk_data pkt) in
  let* r := makeResponse pkt in Ok ((m, d), r, pioDelay).
#[export] Instance comm_pio : PioDevice (Mem * Dev) := {| pio_read := comm_pio_read; pio_write := comm_pio_write |}.
End Registers.

(** ** Example: the host writes a register and reads it back *)

Module PioExample.
#[local] Instance device : PioDevice (Mem * Dev) := comm_pio ex_cfg ex_env 100.

Definition host (c : MemCmd) (bs : list Z) : Packet := mkPacket c 0x10020008 bs false false 0 false false 0 None None.
Definition s0 : Mem * Dev := CommInterface_new ex_cfg (fun _ => 1%nat).
Definition access (s : Mem * Dev) (p : Packet) : Mem * Dev * Packet * Z :=
  match pio_recvAtomic s p with Ok x => x | Err _ => (s, p, 0) end.
Definition entry (t : Z) (s : Mem * Dev) (p : Packet) : Entry :=
  let '(_, r, lat) := access s p in mkEntry t p s (mkDeferredPacket (t + lat) r false).
Definition e1 : Entry := entry 10 s0 (host WriteReq [5; 6; 7; 8]).
Definition s1 : Mem * Dev := (access s0 (host WriteReq [5; 6; 7; 8])).1.1.
Definition e2 : Entry := entry 20 s1 (host ReadReq [0; 0; 0; 0]).

Definition queue (o : outcome (PacketQueue * (Mem * Dev) * bool)) : PacketQueue :=
  match o with Ok (q, _, _) => q | Err _ => PacketQueue_new false false end.
Definition q1 : PacketQueue := queue (pio_recvTimingReq (PacketQueue_new false false) s0 10 (le_req e1)).
Definition q2 : PacketQueue := queue (pio_recvTimingReq q1 s1 20 (le_req e2)).
Definition sent_first (o : outcome (PacketQueue * Deferred)) : PacketQueue :=
  match o with Ok (q, _) => q | Err _ => PacketQueue_new false false end.
Definition q3 : PacketQueue := sent_first (processSendEvent q2 110 [] true).

Definition answered (t : Z) (s : Mem * Dev) (p : Packet) : bool :=
  match pio_recvAtomic s p with
  | Ok (_, r, lat) =>
      negb (pk_cacheResponding p) && cmd_needsResponse (cmd p) && cmd_isResponse (cmd r) && (0 <=? lat) && (t + lat <? MaxTick)
  | Err _ => false
  end.
Lemma entry_answers t s p : answered t s p = true → answers t (entry t s p) (access s p).1.1.
Proof.
  unfold answered, answers, entry, access. destruct (pio_recvAtomic s p) as [[[d r] lat]|] eqn:E; [|done]. intros H. zbool. cbn.
  split_and!; [done..|]. by exists r, lat.
Qed.

Lemma pio_example_run : port_run false 110 q3 s1 [e1; e2] [le_resp e1].
Proof.
  apply (pr_event false 110 q2 q3 s1 s1 [e1; e2] [] [] true (le_resp e1));
    [|reflexivity|constructor|done|vm_compute; reflexivity].
  apply (pr_wait false 20 110); [|done|by split|intros e [= <-]; done].
  apply (pr_request false 20 q1 q2 s1 [e1] [] e2); [|apply entry_answers; vm_compute; reflexivity|vm_compute; reflexivity].
  apply (pr_wait false 10 20); [|done|by split|intros e [= <-]; done].
  apply (pr_request false 10 (PacketQueue_new false false) q1 s1 [] [] e1); [|apply entry_answers; vm_compute; reflexivity|vm_compute; reflexivity].
  apply (pr_wait false 0 10); [constructor|done|by split|done].
Qed.

(** The answer to the read, due at tick 120, holds the bytes written. *)
Lemma pio_port_answers_witness :
  (pk_data ∘ qd_pkt) <$> transmitList q3 = [[5; 6; 7; 8]] ∧ [le_resp e1] ++ transmitList q3 = [le_resp e1; le_resp e2].
Proof.
  split; [vm_compute; reflexivity|].
  destruct (pio_port_answers false 110 q3 s1 [e1; e2] [le_resp e1] pio_example_run) as (_ & _ & _ & Horder & _).
  apply (Horder 100). repeat constructor.
Defined.
End PioExample.
