(* ===== verification/XBar.v ===== *)
(** Model of [mem/xbar.{hh,cc}], [mem/noncoherent_xbar.{hh,cc}] and of the clock of
    [sim/clocked_object.hh]: the crossbar that connects the accelerators of a
    cluster, its address map, and the layers that arbitrate for its ports.
    Statistics are not modelled. *)
From stdpp Require Import gmap strings.
From S2P Require Import Prelude Bitfield AddrRange AddrRangeMap DmaEvents Packets Scratchpad PacketQueue IntMath BitReverse.

#[local] Open Scope Z_scope.

(** ** The clock of a clocked object *)

Record Clocked := mkClocked { ck_tick : Z; ck_cycle : Z }.
Definition Clocked_new : Clocked := mkClocked 0 0.

Definition clock_update (period cur : Z) (c : Clocked) : outcome Clocked :=
  if cur <=? ck_tick c then Ok c else
  let c := mkClocked (u64 (ck_tick c + period)) (u64 (ck_cycle c + 1)) in
  if cur <=? ck_tick c then Ok c else
  let* elapsedCycles := divCeil (u64 (cur - ck_tick c)) period in
  Ok (mkClocked (u64 (ck_tick c + u64 (elapsedCycles * period))) (u64 (ck_cycle c + elapsedCycles))).

(** [clockEdge(cycles)] and [curCycle()]. *)
Definition clockEdge (period cur : Z) (c : Clocked) (cycles : Z) : outcome (Z * Clocked) :=
  let* c := clock_update period cur c in Ok (u64 (ck_tick c + u64 (period * cycles)), c).
Definition curCycle (period cur : Z) (c : Clocked) : outcome (Z * Clocked) :=
  let* c := clock_update period cur c in Ok (ck_cycle c, c).

(** ** Layers *)

Inductive LayerState := IDLE | BUSY | RETRY.
#[export] Instance LayerState_eq_dec : EqDecision LayerState.
Proof. solve_decision. Defined.

(** A port is its number.  [releaseEvent] is the tick it is scheduled for. *)
Record Layer := mkLayer {
  state : LayerState;
  waitingForLayer : list nat;
  waitingForPeer : option nat;
  releaseEvent : option Z;
  ly_drain : DrainState;
}.
Definition Layer_new : Layer := mkLayer IDLE [] None None Running.
Definition set_state (l : Layer) (s : LayerState) : Layer :=
  mkLayer s (waitingForLayer l) (waitingForPeer l) (releaseEvent l) (ly_drain l).
Definition set_waiting (l : Layer) (w : list nat) (p : option nat) : Layer :=
  mkLayer (state l) w p (releaseEvent l) (ly_drain l).
Definition set_release (l : Layer) (e : option Z) : Layer :=
  mkLayer (state l) (waitingForLayer l) (waitingForPeer l) e (ly_drain l).
Definition set_ldrain (l : Layer) (d : DrainState) : Layer :=
  mkLayer (state l) (waitingForLayer l) (waitingForPeer l) (releaseEvent l) d.

Definition is_state (l : Layer) (s : LayerState) : bool := bool_decide (state l = s).

(** [schedule] needs an event that is not scheduled yet and a time not past. *)
Definition occupyLayer (l : Layer) (cur until : Z) : outcome Layer :=
  let* _ := assert_ (is_state l BUSY) in
  let* _ := assert_ (negb (until =? 0)) in
  let* _ := assert_ (cur <=? until) in
  let* _ := assert_ (bool_decide (releaseEvent l = None)) in
  Ok (set_release l (Some until)).

Definition tryTiming (l : Layer) (src_port : nat) : outcome (bool * Layer) :=
  if is_state l BUSY || negb (bool_decide (waitingForPeer l = None)) then
    let* _ := assert_ (bool_decide (src_port ∉ waitingForLayer l)) in
    Ok (false, set_waiting l (waitingForLayer l ++ [src_port]) (waitingForPeer l))
  else Ok (true, set_state l BUSY).

Definition succeededTiming (l : Layer) (cur busy_time : Z) : outcome Layer :=
  let* _ := assert_ (is_state l BUSY) in occupyLayer l cur busy_time.

Definition failedTiming (l : Layer) (src_port : nat) (cur busy_time : Z) : outcome Layer :=
  let* _ := assert_ (bool_decide (waitingForPeer l = None)) in
  let l := set_waiting l (waitingForLayer l) (Some src_port) in
  let* _ := assert_ (is_state l BUSY) in occupyLayer l cur busy_time.

(** [retryWaiting] up to [sendRetry]: the port to send it to; and the rest of it,
    with the next clock edge. *)
Definition begin_retry (l : Layer) : outcome (nat * Layer) :=
  match waitingForLayer l with
  | [] => Err AssertFail
  | retryingPort :: w =>
      let* _ := assert_ (is_state l IDLE) in
      Ok (retryingPort, set_waiting (set_state l RETRY) w (waitingForPeer l))
  end.
Definition end_retry (l : Layer) (cur edge : Z) : outcome Layer :=
  if is_state l RETRY then occupyLayer (set_state l BUSY) cur edge else Ok l.

(** [releaseLayer] when its event is served, and [recvRetry]: whether
    [retryWaiting] follows. *)
Definition releaseLayer (l : Layer) : outcome (bool * Layer) :=
  let l := set_release l None in
  let* _ := assert_ (is_state l BUSY) in
  let l := set_state l IDLE in
  if negb (bool_decide (waitingForLayer l = [])) then Ok (bool_decide (waitingForPeer l = None), l)
  else
    match waitingForPeer l, ly_drain l with
    | None, Draining => Ok (false, set_ldrain l (signalDrainDone (ly_drain l)))
    | _, _ => Ok (false, l)
    end.
Definition recvRetry (l : Layer) : outcome (bool * Layer) :=
  match waitingForPeer l with
  | None => Err AssertFail
  | Some p =>
      let l := set_waiting l (p :: waitingForLayer l) None in
      if is_state l IDLE then Ok (true, l)
      else let* _ := assert_ (is_state l BUSY) in Ok (false, l)
  end.

(** [drain], whose result becomes the state of the object. *)
Definition layer_drain (l : Layer) : Layer := set_ldrain l (if is_state l IDLE then Drained else Draining).

(** ** The crossbar *)

(** A packet, with the identity of its request. *)
Record XPkt := mkXPkt {
  x_req : nat;
  x_cmd : MemCmd;
  x_addr : Z;
  x_size : Z;
  x_headerDelay : Z;
  x_payloadDelay : Z;
  x_cacheResponding : bool;
  x_express : bool;
}.
Definition set_delays (p : XPkt) (h d : Z) : XPkt :=
  mkXPkt (x_req p) (x_cmd p) (x_addr p) (x_size p) h d (x_cacheResponding p) (x_express p).
Definition getAddrRange (p : XPkt) : AddrRange := RangeSize (x_addr p) (x_size p).

(** The parameters; [us] is a microsecond in ticks. *)
Record XParams := mkXParams {
  frontendLatency : Z;
  forwardLatency : Z;
  responseLatency : Z;
  width : Z;
  clockPeriod : Z;
  us : Z;
  useDefaultRange : bool;
  masters : nat;
  has_default : bool;
  slaves : nat;
}.

(** What the crossbar calls on its peers: a request forwarded from a slave port
    through a master port and whether it was taken, a response given to the
    queue of a slave port for a time, retries, and changes of the ranges. *)
Inductive Out :=
  | OutReq (src dst : nat) (pkt : XPkt) (expect accepted : bool)
  | OutResp (dst : nat) (pkt : XPkt) (when : Z)
  | OutRetryReq (dst : nat)
  | OutRetryResp (dst : nat)
  | OutRange (dst : nat).

Record XBar := mkXBar {
  params : XParams;
  clock : Clocked;
  reqLayers : list Layer;
  respLayers : list Layer;
  portMap : AddrRangeMap (V := nat);
  routeTo : gmap nat nat;
  xbarRanges : list AddrRange;
  defaultRange : AddrRange;
  gotAddrRanges : list bool;
  gotAllAddrRanges : bool;
  defaultPortID : option nat;
  outs : list Out;
}.

Definition set_clock (x : XBar) (c : Clocked) : XBar :=
  mkXBar (params x) c (reqLayers x) (respLayers x) (portMap x) (routeTo x) (xbarRanges x) (defaultRange x)
    (gotAddrRanges x) (gotAllAddrRanges x) (defaultPortID x) (outs x).
Definition set_reqLayers (x : XBar) (l : list Layer) : XBar :=
  mkXBar (params x) (clock x) l (respLayers x) (portMap x) (routeTo x) (xbarRanges x) (defaultRange x)
    (gotAddrRanges x) (gotAllAddrRanges x) (defaultPortID x) (outs x).
Definition set_respLayers (x : XBar) (l : list Layer) : XBar :=
  mkXBar (params x) (clock x) (reqLayers x) l (portMap x) (routeTo x) (xbarRanges x) (defaultRange x)
    (gotAddrRanges x) (gotAllAddrRanges x) (defaultPortID x) (outs x).
Definition set_portMap (x : XBar) (m : AddrRangeMap (V := nat)) : XBar :=
  mkXBar (params x) (clock x) (reqLayers x) (respLayers x) m (routeTo x) (xbarRanges x) (defaultRange x)
    (gotAddrRanges x) (gotAllAddrRanges x) (defaultPortID x) (outs x).
Definition set_routeTo (x : XBar) (r : gmap nat nat) : XBar :=
  mkXBar (params x) (clock x) (reqLayers x) (respLayers x) (portMap x) r (xbarRanges x) (defaultRange x)
    (gotAddrRanges x) (gotAllAddrRanges x) (defaultPortID x) (outs x).
Definition set_ranges (x : XBar) (m : AddrRangeMap (V := nat)) (rs : list AddrRange) (d : AddrRange) (got : list bool) (all : bool) : XBar :=
  mkXBar (params x) (clock x) (reqLayers x) (respLayers x) m (routeTo x) rs d got all (defaultPortID x) (outs x).
Definition put (x : XBar) (o : Out) : XBar :=
  mkXBar (params x) (clock x) (reqLayers x) (respLayers x) (portMap x) (routeTo x) (xbarRanges x) (defaultRange x)
    (gotAddrRanges x) (gotAllAddrRanges x) (defaultPortID x) (outs x ++ [o]).

(** The default port, if there is one, is the last master port. *)
Definition master_ports (p : XParams) : nat := (masters p + if has_default p then 1 else 0)%nat.
Definition NoncoherentXBar_new (p : XParams) : XBar :=
  mkXBar p Clocked_new (replicate (master_ports p) Layer_new) (replicate (slaves p) Layer_new) Map_new ∅ []
    AddrRange_default (replicate (master_ports p) false) false (if has_default p then Some (masters p) else None) [].

(** [getPort]: which port is returned. *)
Inductive XPort := XMaster (i : nat) | XSlave (i : nat).
Definition XBar_getPort (x : XBar) (if_name : string) (idx : Z) : outcome XPort :=
  if bool_decide (if_name = "master"%string) && (u64 idx <? Z.of_nat (length (reqLayers x))) then
    Ok (XMaster (Z.to_nat (u64 idx)))
  else if bool_decide (if_name = "default"%string) then
    match defaultPortID x with Some d => Ok (XMaster d) | None => Err Undefined end
  else if bool_decide (if_name = "slave"%string) && (u64 idx <? Z.of_nat (length (respLayers x))) then
    Ok (XSlave (Z.to_nat (u64 idx)))
  else Err Panic.

(** The cache of the address map holds three entries. *)
Definition cache_size : nat := 3.

Definition findPort (x : XBar) (addr_range : AddrRange) : outcome (nat * XBar) :=
  let* _ := assert_ (gotAllAddrRanges x) in
  let* (i, m) := contains cache_size (portMap x) addr_range in
  let x := set_portMap x m in
  match i with
  | Some e => Ok (e.2, x)
  | None =>
      if useDefaultRange (params x) then
        let* s := isSubset addr_range (defaultRange x) in
        if s : bool then
          match defaultPortID x with Some d => Ok (d, x) | None => Err Undefined end
        else Err Panic
      else
        match defaultPortID x with Some d => Ok (d, x) | None => Err Panic end
  end.

(** [divCeil] of two 32-bit values. *)
Definition divCeil32 (a b : Z) : outcome Z := if b =? 0 then Err Undefined else Ok (u32 (u32 (a + b) - 1) / b).

(** [calcPacketTiming(pkt, header_delay)]; the two delays have 32 bits. *)
Definition calcPacketTiming (x : XBar) (cur : Z) (pkt : XPkt) (header_delay : Z) : outcome (XPkt * XBar) :=
  let* (edge, c) := clockEdge (clockPeriod (params x)) cur (clock x) 0 in
  let x := set_clock x c in
  let offset := u64 (edge - cur) in
  let header := u32 (x_headerDelay pkt + u64 (offset + header_delay)) in
  let* _ := panic_if (us (params x) <? header) in
  if cmd_hasData (x_cmd pkt) then
    let* n := divCeil32 (x_size pkt) (width (params x)) in
    Ok (set_delays pkt header (u32 (Z.max (x_payloadDelay pkt) (u64 (n * clockPeriod (params x))))), x)
  else Ok (set_delays pkt header (x_payloadDelay pkt), x).

(** [recvTimingReq] once the layer [l] of the master port lets the packet through;
    [accepted] is what the peer of the master port answers.  The packet goes back
    to its sender when it is refused. *)
Definition forwardReq (x : XBar) (cur : Z) (slave_port_id master_port_id : nat) (l : Layer) (pkt : XPkt)
    (accepted : bool) : outcome (bool * XPkt * XBar) :=
  let old_header_delay := x_headerDelay pkt in
  let xbar_delay := u64 (u64 (frontendLatency (params x) + forwardLatency (params x)) * clockPeriod (params x)) in
  let* (pkt, x) := calcPacketTiming x cur pkt xbar_delay in
  let* (edge, c) := clockEdge (clockPeriod (params x)) cur (clock x) 1 in
  let x := set_clock x c in
  let packetFinishTime := u64 (edge + x_payloadDelay pkt) in
  let expect_response := cmd_needsResponse (x_cmd pkt) && negb (x_cacheResponding pkt) in
  let x := put x (OutReq slave_port_id master_port_id pkt expect_response accepted) in
  if negb accepted then
    let pkt := set_delays pkt old_header_delay (x_payloadDelay pkt) in
    let* (edge, c) := clockEdge (clockPeriod (params x)) cur (clock x) 1 in
    let* l := failedTiming l slave_port_id cur edge in
    Ok (false, pkt, set_reqLayers (set_clock x c) (<[master_port_id := l]> (reqLayers x)))
  else
    let* x :=
      if expect_response then
        let* _ := assert_ (bool_decide (routeTo x !! x_req pkt = None)) in
        Ok (set_routeTo x (<[x_req pkt := slave_port_id]> (routeTo x)))
      else Ok x in
    let* l := succeededTiming l cur packetFinishTime in
    Ok (true, pkt, set_reqLayers x (<[master_port_id := l]> (reqLayers x))).
Definition recvTimingReq (x : XBar) (cur : Z) (slave_port_id : nat) (pkt : XPkt) (accepted : bool)
    : outcome (bool * XPkt * XBar) :=
  let* _ := vec_get (respLayers x) slave_port_id in
  let* _ := assert_ (negb (x_express pkt)) in
  let* (master_port_id, x) := findPort x (getAddrRange pkt) in
  let* l := vec_get (reqLayers x) master_port_id in
  let* (free, l) := tryTiming l slave_port_id in
  let x := set_reqLayers x (<[master_port_id := l]> (reqLayers x)) in
  if negb free then Ok (false, pkt, x) else forwardReq x cur slave_port_id master_port_id l pkt accepted.

(** [recvTimingResp], and what follows when the layer [l] of the slave port lets
    the packet through. *)
Definition forwardResp (x : XBar) (cur : Z) (slave_port_id : nat) (l : Layer) (pkt : XPkt)
    : outcome (bool * XPkt * XBar) :=
  let xbar_delay := u64 (responseLatency (params x) * clockPeriod (params x)) in
  let* (pkt, x) := calcPacketTiming x cur pkt xbar_delay in
  let* (edge, c) := clockEdge (clockPeriod (params x)) cur (clock x) 1 in
  let x := set_clock x c in
  let packetFinishTime := u64 (edge + x_payloadDelay pkt) in
  let latency := x_headerDelay pkt in
  let pkt := set_delays pkt 0 (x_payloadDelay pkt) in
  let x := put x (OutResp slave_port_id pkt (u64 (cur + latency))) in
  let x := set_routeTo x (delete (x_req pkt) (routeTo x)) in
  let* l := succeededTiming l cur packetFinishTime in
  Ok (true, pkt, set_respLayers x (<[slave_port_id := l]> (respLayers x))).
Definition recvTimingResp (x : XBar) (cur : Z) (master_port_id : nat) (pkt : XPkt) : outcome (bool * XPkt * XBar) :=
  let* _ := vec_get (reqLayers x) master_port_id in
  match routeTo x !! x_req pkt with
  | None => Err AssertFail
  | Some slave_port_id =>
      let* _ := assert_ (bool_decide (slave_port_id < length (respLayers x))%nat) in
      let* l := vec_get (respLayers x) slave_port_id in
      let* (free, l) := tryTiming l master_port_id in
      let x := set_respLayers x (<[slave_port_id := l]> (respLayers x)) in
      if negb free then Ok (false, pkt, x) else forwardResp x cur slave_port_id l pkt
  end.

(** *** Retries

    A retry makes the peer send again, before [sendRetry] returns or later.  The
    calls it makes meanwhile are given as a list. *)
Inductive Call :=
  | CallReq (src : nat) (pkt : XPkt) (accepted : bool)
  | CallResp (src : nat) (pkt : XPkt).
Definition do_call (x : XBar) (cur : Z) (c : Call) : outcome XBar :=
  match c with
  | CallReq s pkt accepted => let* (_, _, x) := recvTimingReq x cur s pkt accepted in Ok x
  | CallResp m pkt => let* (_, _, x) := recvTimingResp x cur m pkt in Ok x
  end.
Definition do_calls (x : XBar) (cur : Z) (cs : list Call) : outcome XBar := foldM (fun x c => do_call x cur c) cs x.

(** Which vector of layers: [true] for the requests. *)
Definition layers (req : bool) (x : XBar) : list Layer := if req then reqLayers x else respLayers x.
Definition set_layers (req : bool) (x : XBar) (l : list Layer) : XBar :=
  if req then set_reqLayers x l else set_respLayers x l.
Definition set_layer (req : bool) (x : XBar) (k : nat) (l : Layer) : XBar := set_layers req x (<[k := l]> (layers req x)).
Definition out_retry (req : bool) (p : nat) : Out := if req then OutRetryReq p else OutRetryResp p.

(** [retryWaiting] of layer [k], up to the retry and after it. *)
Definition start_retry (req : bool) (x : XBar) (k : nat) : outcome XBar :=
  let* l := vec_get (layers req x) k in
  let* (p, l) := begin_retry l in
  Ok (put (set_layer req x k l) (out_retry req p)).
Definition finish_retry (req : bool) (x : XBar) (cur : Z) (k : nat) : outcome XBar :=
  let* l := vec_get (layers req x) k in
  if is_state l RETRY then
    let* (edge, c) := clockEdge (clockPeriod (params x)) cur (clock x) 0 in
    let* l := end_retry l cur edge in
    Ok (set_layer req (set_clock x c) k l)
  else Ok x.
Definition retryWaiting (req : bool) (x : XBar) (cur : Z) (k : nat) (nested : list Call) : outcome XBar :=
  let* x := start_retry req x k in
  let* x := do_calls x cur nested in
  finish_retry req x cur k.

(** The event of a layer, and [recvReqRetry] from the peer of a master port; first
    what they do before [retryWaiting]. *)
Definition release_begin (req : bool) (x : XBar) (k : nat) : outcome (bool * XBar) :=
  let* l := vec_get (layers req x) k in
  let* (again, l) := releaseLayer l in Ok (again, set_layer req x k l).
Definition release (req : bool) (x : XBar) (cur : Z) (k : nat) (nested : list Call) : outcome XBar :=
  let* (again, x) := release_begin req x k in
  if again : bool then retryWaiting req x cur k nested else Ok x.
Definition retry_begin (x : XBar) (master_port_id : nat) : outcome (bool * XBar) :=
  let* l := vec_get (reqLayers x) master_port_id in
  let* (again, l) := recvRetry l in Ok (again, set_layer true x master_port_id l).
Definition recvReqRetry (x : XBar) (cur : Z) (master_port_id : nat) (nested : list Call) : outcome XBar :=
  let* (again, x) := retry_begin x master_port_id in
  if again : bool then retryWaiting true x cur master_port_id nested else Ok x.

(** [drain] of a layer. *)
Definition drain_layer (req : bool) (x : XBar) (k : nat) : outcome XBar :=
  let* l := vec_get (layers req x) k in Ok (set_layer req x k (layer_drain l)).

(** *** Atomic and functional accesses *)

(** [recvAtomicBackdoor] without a backdoor; the peer turns the packet around and
    takes [response_latency]. *)
Definition recvAtomic (x : XBar) (pkt : XPkt) (peer : nat → XPkt → XPkt * Z) : outcome (XPkt * Z * XBar) :=
  let* (master_port_id, x) := findPort x (getAddrRange pkt) in
  let* _ := vec_get (reqLayers x) master_port_id in
  let (pkt, response_latency) := peer master_port_id pkt in
  Ok (set_delays pkt (x_headerDelay pkt) (u32 response_latency), response_latency, x).

(** [recvFunctional]: the queues of the slave ports are looked through one after
    the other, while the packet remembers the bytes it has found. *)
Definition unconcat (qs : list PacketQueue) (ds : list Deferred) : list PacketQueue :=
  (foldl (fun '(ds, qs) q =>
     let n := length (transmitList q) in (drop n ds, qs ++ [set_list q (take n ds)])) (ds, []) qs).2.
Definition xbar_recvFunctional (x : XBar) (slavePorts : list PacketQueue) (pkt : Packet)
    (peer : nat → Packet → outcome Packet) : outcome (Packet * list PacketQueue * XBar) :=
  let* (found, pkt, ds) := satisfy_loop pkt [] (concat (transmitList <$> slavePorts)) in
  let slavePorts := unconcat slavePorts ds in
  if found : bool then
    let* pkt := (if cmd_needsResponse (cmd pkt) then makeResponse pkt else Ok pkt) in
    Ok (pkt, slavePorts, x)
  else
    let* (dest_id, x) := findPort x (RangeSize (getAddr pkt) (getSize pkt)) in
    let* _ := vec_get (reqLayers x) dest_id in
    let* pkt := peer dest_id pkt in Ok (pkt, slavePorts, x).

(** *** Address ranges *)

(** [portMap.erase] of the entries of a port. *)
Definition erase_port (m : AddrRangeMap (V := nat)) (master_port_id : nat) : AddrRangeMap (V := nat) :=
  foldl (fun m e => if Nat.eqb e.2 master_port_id then erase m e.1 else m) m (tree m).
Definition insert_ranges (m : AddrRangeMap (V := nat)) (rs : list AddrRange) (master_port_id : nat)
    : outcome (AddrRangeMap (V := nat)) :=
  foldM (fun m r =>
    let* (o, m) := insert cache_size m r master_port_id in
    match o with Some _ => Ok m | None => Err Panic end) rs m.

(** Adds a range to the ranges of the crossbar unless the default range has it. *)
Definition keep_range (useDefault : bool) (d : AddrRange) (acc : list AddrRange) (r : AddrRange)
    : outcome (list AddrRange) :=
  let* skip := (if useDefault then isSubset r d else Ok false) in
  Ok (if skip : bool then acc else acc ++ [r]).
Definition merge_and_keep (useDefault : bool) (d : AddrRange) (acc intlv : list AddrRange) : outcome (list AddrRange) :=
  let* m := AddrRange_merge intlv in keep_range useDefault d acc m.
(** The loop over the map, with the interleaved ranges seen last. *)
Fixpoint aggregate (useDefault : bool) (d : AddrRange) (rs acc intlv : list AddrRange) : outcome (list AddrRange) :=
  match rs with
  | [] => match intlv with [] => Ok acc | _ => merge_and_keep useDefault d acc intlv end
  | r :: rs =>
      if interleaved r then
        match last intlv with
        | Some b =>
            if mergesWith b r then aggregate useDefault d rs acc (intlv ++ [r])
            else
              let* acc := merge_and_keep useDefault d acc intlv in
              aggregate useDefault d rs acc [r]
        | None => aggregate useDefault d rs acc [r]
        end
      else
        let* acc := keep_range useDefault d acc r in
        aggregate useDefault d rs acc intlv
  end.
Definition check_default (d : AddrRange) (rs : list AddrRange) : outcome unit :=
  foldM (fun _ r =>
    let* i := intersects r d in
    if i : bool then let* s := isSubset r d in panic_if (negb s) else Ok tt) rs tt.

(** [recvRangeChange]; [ranges] is what the peer of the master port answers. *)
Definition recvRangeChange (x : XBar) (master_port_id : nat) (ranges : list AddrRange) : outcome XBar :=
  let p := params x in
  let* _ := vec_get (gotAddrRanges x) master_port_id in
  let got := <[master_port_id := true]> (gotAddrRanges x) in
  let all := if gotAllAddrRanges x then true else forallb id got in
  let* (m, d) :=
    if bool_decide (defaultPortID x = Some master_port_id) then
      if useDefaultRange p then
        match ranges with [r] => Ok (portMap x, r) | _ => Err Panic end
      else Ok (portMap x, defaultRange x)
    else
      let* m := insert_ranges (erase_port (portMap x) master_port_id) ranges master_port_id in
      Ok (m, defaultRange x) in
  if all : bool then
    let* acc :=
      if useDefaultRange p then
        let* _ := match defaultPortID x with
                  | Some i => let* g := vec_get got i in panic_if (negb g)
                  | None => Err Undefined
                  end in Ok [d]
      else Ok [] in
    let* rs := aggregate (useDefaultRange p) d (tree m).*1 acc [] in
    let* _ := (if useDefaultRange p then check_default d rs else Ok tt) in
    Ok (foldl put (set_ranges x m rs d got all) (OutRange <$> seq 0 (slaves p)))
  else Ok (set_ranges x m (xbarRanges x) d got all).

Definition XBar_getAddrRanges (x : XBar) : outcome (list AddrRange) :=
  let* _ := assert_ (gotAllAddrRanges x) in Ok (xbarRanges x).
