(* ===== verification/XBarSpec.v ===== *)
(** The crossbar of [XBar]: its clock, its layers and its routing.  Packets that
    are refused, retried, answered and refused again in any order never break an
    assertion of the code, no port is left waiting without a wake-up, and every
    response reaches the port its request came from. *)
From stdpp Require Import gmap.
From S2P Require Import Prelude Bitfield AddrRange AddrRangeSpec AddrRangeLaws AddrRangeMap DmaEvents Packets IntMath BitReverse XBar.

#[local] Open Scope Z_scope.

(** ** The clock *)

(** The clock was last moved at or before [cur]. *)
Definition clock_ok (period cur : Z) (c : Clocked) : Prop :=
  0 ≤ ck_tick c ∧ ck_tick c < cur + period ∧ ck_tick c = period * ck_cycle c ∧ 0 ≤ ck_cycle c.
Definition time_ok (period cur : Z) : Prop := 0 < period < 2 ^ 31 ∧ 0 ≤ cur < 2 ^ 63.

(** An update moves the clock to the first edge that is not past. *)
Lemma clock_update_ok period cur c : time_ok period cur → clock_ok period cur c →
  ∃ c', clock_update period cur c = Ok c' ∧ clock_ok period cur c' ∧ cur ≤ ck_tick c'.
Proof.
  intros [Hp Hc] (H0 & H1 & H2 & H3). unfold clock_update. destruct (cur <=? ck_tick c) eqn:E; zbool.
  { exists c. split_and!; done. }
  assert (ck_cycle c ≤ ck_tick c) by nia.
  rewrite (wrapU_id 64 (ck_tick c + period)), (wrapU_id 64 (ck_cycle c + 1)) by (split; lia). cbn [ck_tick ck_cycle].
  destruct (cur <=? ck_tick c + period) eqn:E2; zbool.
  { eexists. split; [done|]. unfold clock_ok. cbn. split_and!; nia. }
  rewrite (wrapU_id 64 (cur - _)) by (split; lia).
  destruct (divCeil_spec (cur - (ck_tick c + period)) period) as (q & -> & Hq); [lia..|]. cbn [mbind outcome_bind].
  assert (0 ≤ q) by nia. assert (q ≤ q * period) by nia.
  rewrite (wrapU_id 64 (q * period)) by (split; lia). rewrite !wrapU_id by (split; lia).
  eexists. split; [done|]. unfold clock_ok. cbn. split_and!; nia.
Qed.

Lemma clockEdge_ok period cur c n : time_ok period cur → clock_ok period cur c → 0 ≤ n ≤ 1 →
  ∃ e c', clockEdge period cur c n = Ok (e, c') ∧ clock_ok period cur c' ∧
    cur + n * period ≤ e < cur + (n + 1) * period.
Proof.
  intros Ht Hc Hn. destruct (clock_update_ok period cur c Ht Hc) as (c' & Hu & Hc' & ?). destruct Ht, Hc' as (? & ? & ? & ?).
  unfold clockEdge. rewrite Hu. cbn [mbind outcome_bind]. rewrite (wrapU_id 64 (period * n)) by (split; nia).
  rewrite wrapU_id by (split; nia). do 2 eexists. split; [done|]. split; [by split_and!|nia].
Qed.
Lemma clock_ok_mono period cur cur' c : cur ≤ cur' → clock_ok period cur c → clock_ok period cur' c.
Proof. intros ? (? & ? & ? & ?). split_and!; try done. lia. Qed.

(** ** Layers *)

Definition waiting (l : Layer) : list nat := option_list (waitingForPeer l) ++ waitingForLayer l.

(** Between events no layer is retrying; a busy one has its event scheduled; an
    idle one keeps ports waiting only while its peer owes a retry, which cannot be
    at tick 0, where the crossbar could not schedule an event.  The layer whose
    retry is on its way may be in the third state. *)
Definition layer_inv (retrying : bool) (cur : Z) (l : Layer) : Prop :=
  match state l with
  | IDLE => releaseEvent l = None ∧ (waitingForPeer l = None → waitingForLayer l = []) ∧ (waitingForPeer l = None ∨ 0 < cur)
  | BUSY => ∃ t, releaseEvent l = Some t ∧ cur ≤ t ∧ 0 < t
  | RETRY => retrying = true ∧ releaseEvent l = None ∧ waitingForPeer l = None ∧ 0 < cur
  end.

(** A layer that has let a packet through and is not occupied yet. *)
Record taken (l l' : Layer) : Prop := {
  tk_state : state l' = BUSY;
  tk_release : releaseEvent l' = None;
  tk_peer : waitingForPeer l' = None;
  tk_same : waitingForPeer l = None ∧ waitingForLayer l' = waitingForLayer l;
}.

Lemma tryTiming_ok b cur l src : layer_inv b cur l → src ∉ waiting l →
  ∃ free l', tryTiming l src = Ok (free, l') ∧
    if free : bool then taken l l' else layer_inv b cur l' ∧ waiting l' ≡ₚ src :: waiting l ∧ waitingForPeer l' = waitingForPeer l.
Proof.
  intros Hl Hs. unfold tryTiming, is_state. destruct l as [st w peer re dr]. unfold waiting, layer_inv in *. cbn in *.
  assert (src ∉ w) by set_solver.
  destruct (bool_decide (st = BUSY) || negb (bool_decide (peer = None))) eqn:E.
  - rewrite bool_decide_eq_true_2 by done. cbn. do 2 eexists. split; [done|]. cbn. split_and!; [|by solve_Permutation|done].
    destruct st; [destruct Hl as (-> & Hi & ?)|done|].
    + split_and!; [done| |done]. intros ->. done.
    + destruct Hl as (-> & -> & -> & _). done.
  - apply orb_false_iff in E as [E1%bool_decide_eq_false E2%negb_false_iff%bool_decide_eq_true]. subst peer.
    do 2 eexists. split; [done|]. split; cbn; [done| |done|done]. destruct st; [by destruct Hl|done|by destruct Hl as (_ & -> & _)].
Qed.

Lemma occupyLayer_ok l cur until : state l = BUSY → releaseEvent l = None → 0 < until → cur ≤ until →
  occupyLayer l cur until = Ok (set_release l (Some until)).
Proof.
  intros Hs Hr ? ?. unfold occupyLayer, is_state. rewrite Hs, Hr, !bool_decide_eq_true_2 by done.
  rewrite (proj2 (Z.eqb_neq _ _)) by lia. by rewrite (proj2 (Z.leb_le _ _)) by lia.
Qed.
Lemma succeeded_ok l l' cur t b : taken l l' → 0 < t → cur ≤ t →
  ∃ l'', succeededTiming l' cur t = Ok l'' ∧ layer_inv b cur l'' ∧ waiting l'' = waiting l ∧ waitingForPeer l'' = None.
Proof.
  intros [H1 H2 H3 [H4 H5]] ? ?. unfold succeededTiming, is_state. rewrite H1, bool_decide_eq_true_2 by done. cbn [mbind outcome_bind assert_].
  rewrite occupyLayer_ok by done. eexists. split; [done|]. unfold layer_inv, waiting. cbn. rewrite H1, H3, H4, H5. split; [by eexists|done].
Qed.
Lemma failed_ok l l' src cur t b : taken l l' → 0 < t → cur ≤ t →
  ∃ l'', failedTiming l' src cur t = Ok l'' ∧ layer_inv b cur l'' ∧ waiting l'' = src :: waiting l.
Proof.
  intros [H1 H2 H3 [H4 H5]] ? ?. unfold failedTiming, is_state. cbn. rewrite H3, H1, !bool_decide_eq_true_2 by done. cbn [mbind outcome_bind assert_].
  rewrite occupyLayer_ok by done. eexists. split; [done|]. unfold layer_inv, waiting. cbn. rewrite H1, H4, H5. split; [by eexists|done].
Qed.

(** A layer about to send a retry. *)
Record poised (l : Layer) : Prop := {
  po_state : state l = IDLE;
  po_release : releaseEvent l = None;
  po_peer : waitingForPeer l = None;
  po_some : waitingForLayer l ≠ [];
}.
Lemma releaseLayer_ok cur l : layer_inv false cur l → releaseEvent l = Some cur →
  0 < cur ∧ ∃ again l', releaseLayer l = Ok (again, l') ∧ waiting l' = waiting l ∧ waitingForPeer l' = waitingForPeer l ∧
    if again : bool then poised l' else layer_inv false cur l'.
Proof.
  destruct l as [st w peer re dr]. unfold layer_inv, releaseLayer, is_state, waiting. cbn. intros Hl ->.
  destruct st; [by destruct Hl|destruct Hl as (t & [= <-] & _ & Hpos)|by destruct Hl as (_ & ? & _)]. split; [done|]. cbn.
  destruct (bool_decide (w = [])) eqn:Ew; cbn [negb].
  - apply bool_decide_eq_true in Ew as ->.
    destruct peer, dr; cbn; do 2 eexists; (split; [done|]); cbn; naive_solver.
  - apply bool_decide_eq_false in Ew. do 2 eexists. split; [done|]. cbn. split; [done|]. split; [done|].
    destruct peer; cbn; [naive_solver|by split].
Qed.
Lemma recvRetry_ok cur l p : layer_inv false cur l → waitingForPeer l = Some p →
  ∃ again l', recvRetry l = Ok (again, l') ∧ waiting l' = waiting l ∧ waitingForPeer l' = None ∧
    if again : bool then poised l' ∧ 0 < cur else layer_inv false cur l'.
Proof.
  destruct l as [st w peer re dr]. unfold layer_inv, recvRetry, is_state, waiting. cbn. intros Hl ->. cbn.
  destruct st; [destruct Hl as (-> & _ & [|])|destruct Hl as (t & -> & ? & ?)|by destruct Hl as (? & _)]; [done|..]; cbn;
    do 2 eexists; (split; [done|]); cbn; (split; [done|]); (split; [done|]); [by repeat split|by eexists].
Qed.
Lemma begin_retry_ok cur l : 0 < cur → poised l →
  ∃ p l', begin_retry l = Ok (p, l') ∧ layer_inv true cur l' ∧ waiting l = p :: waiting l' ∧ waitingForPeer l' = None.
Proof.
  intros ? [H1 H2 H3 H4]. destruct l as [st w peer re dr]. cbn in *. subst. destruct w as [|p w]; [done|].
  unfold begin_retry. cbn. by do 2 eexists.
Qed.

Definition waits (ls : list Layer) : list nat := concat (waiting <$> ls).
Lemma waits_insert ls k l l' : ls !! k = Some l → waits (<[k := l']> ls) ++ waiting l ≡ₚ waits ls ++ waiting l'.
Proof.
  unfold waits. revert k. induction ls as [|a ls IH]; intros [|k] Hk; [done..| |]; cbn in *.
  - simplify_eq. solve_Permutation.
  - specialize (IH k Hk). rewrite <- !app_assoc. by rewrite IH.
Qed.
Lemma waits_same ls k l l' : ls !! k = Some l → waiting l' = waiting l → waits (<[k := l']> ls) ≡ₚ waits ls.
Proof. intros Hk E. pose proof (waits_insert ls k l l' Hk) as H. rewrite E in H. by apply (inj (.++ waiting l)) in H. Qed.
Lemma waits_add ls k l l' p : ls !! k = Some l → waiting l' ≡ₚ p :: waiting l → waits (<[k := l']> ls) ≡ₚ p :: waits ls.
Proof.
  intros Hk E. pose proof (waits_insert ls k l l' Hk) as H. rewrite E in H.
  apply (inj (.++ waiting l)). rewrite H. solve_Permutation.
Qed.
Lemma waits_elem ls k l p : ls !! k = Some l → p ∈ waiting l → p ∈ waits ls.
Proof.
  intros Hk Hp. unfold waits. apply list_elem_of_In, in_concat. exists (waiting l).
  split; [|by apply list_elem_of_In]. apply list_elem_of_In, list_elem_of_fmap. exists l. split; [done|].
  by apply list_elem_of_lookup_2 with k.
Qed.

(** ** Routing *)

(** The ports requests wait for a response at, by the calls made so far; [None]
    when a response was given to a port that does not wait for it. *)
Definition route_step (o : option (gmap nat nat)) (e : Out) : option (gmap nat nat) :=
  m ← o;
  match e with
  | OutReq src _ pkt true true => match m !! x_req pkt with None => Some (<[x_req pkt := src]> m) | Some _ => None end
  | OutResp dst pkt _ => if decide (m !! x_req pkt = Some dst) then Some (delete (x_req pkt) m) else None
  | _ => Some m
  end.
Definition routes (l : list Out) : option (gmap nat nat) := foldl route_step (Some ∅) l.
Lemma routes_snoc l e : routes (l ++ [e]) = route_step (routes l) e.
Proof. unfold routes. by rewrite foldl_app. Qed.

(** The port a range of addresses belongs to. *)
Definition inside (r : AddrRange) (e : AddrRange * nat) : Prop := isSubset r e.1 = Ok true.
Definition goes_to (x : XBar) (r : AddrRange) (d : nat) : Prop :=
  (∃ e, e ∈ tree (portMap x) ∧ inside r e ∧ e.2 = d) ∨
  (∀ e, e ∈ tree (portMap x) → ¬ inside r e) ∧ defaultPortID x = Some d ∧
  (useDefaultRange (params x) = true → isSubset r (defaultRange x) = Ok true).
Definition routable (x : XBar) (r : AddrRange) : Prop :=
  query_ok r ∧ (∀ e, e ∈ tree (portMap x) → inside r e → ar_lt r e.1 = false) ∧ ∃ d, goes_to x r d.

Lemma findPort_ok x r : map_ok cache_size (portMap x) → gotAllAddrRanges x = true → routable x r →
  ∃ d m', findPort x r = Ok (d, set_portMap x m') ∧ goes_to x r d ∧ tree m' = tree (portMap x) ∧ map_ok cache_size m'.
Proof.
  intros Hm Hg (Hq & Hlt & dd & Hd). unfold findPort. rewrite Hg. cbn [mbind outcome_bind assert_].
  destruct (contains_spec cache_size (portMap x) r Hm Hq) as (o & m' & -> & Ht & Hm' & Ho). cbn [mbind outcome_bind].
  destruct o as [e|].
  { exists e.2, m'. destruct Ho as (? & ? & _). split_and!; try done. left. by exists e. }
  assert (Hno : ∀ e, e ∈ tree (portMap x) → ¬ inside r e).
  { intros e He Hi. specialize (Ho e He Hi). rewrite Hlt in Ho; done. }
  destruct Hd as [(e & He & Hi & _)|(_ & Hdp & Hu)]; [by destruct (Hno e He)|]. cbn [set_portMap params defaultPortID defaultRange] in *.
  rewrite Hdp. destruct (useDefaultRange (params x)) eqn:Eu.
  - rewrite Hu by done. cbn [mbind outcome_bind]. exists dd, m'. split_and!; try done. right. rewrite Eu. done.
  - exists dd, m'. split_and!; try done. right. rewrite Eu. done.
Qed.

(** An address belongs to one port at most. *)
Lemma goes_to_unique x r d d' : map_ok cache_size (portMap x) → query_ok r → goes_to x r d → goes_to x r d' → d = d'.
Proof.
  intros Hm Hq [(e & He & Hi & <-)|(Hn & Hd & _)] [(e' & He' & Hi' & <-)|(Hn' & Hd' & _)];
    [|by destruct (Hn' e He)|by destruct (Hn e' He')|congruence].
  f_equal. apply (entry_unique cache_size (portMap x) e e' (ar_start r)); try done;
    (apply isSubset_start; [done| |done]); by apply (entry_ok cache_size (portMap x)).
Qed.

(** ** The invariant *)

Record params_ok (p : XParams) : Prop := {
  pa_front : 0 ≤ frontendLatency p;
  pa_forward : 0 ≤ forwardLatency p;
  pa_resp : 0 ≤ responseLatency p;
  pa_width : 0 < width p;
  pa_us : us p < 2 ^ 32;
}.
Abbreviation period x := (clockPeriod (params x)).

(** What no packet changes. *)
Record same_map (x x' : XBar) : Prop := {
  sm_params : params x' = params x;
  sm_tree : tree (portMap x') = tree (portMap x);
  sm_default : defaultPortID x' = defaultPortID x;
  sm_range : defaultRange x' = defaultRange x;
  sm_got : gotAllAddrRanges x' = gotAllAddrRanges x;
  sm_len : ∀ req, length (layers req x') = length (layers req x);
}.
#[export] Instance same_map_po : PreOrder same_map.
Proof. split; [by split|]. intros x y z [] []. split; intros; congruence. Qed.
Lemma goes_to_same x x' r d : same_map x x' → goes_to x r d → goes_to x' r d.
Proof. intros []. unfold goes_to. by repeat match goal with H : _ x' = _ x |- _ => rewrite H | H : tree _ = _ |- _ => rewrite H end. Qed.
Lemma routable_same x x' r : same_map x x' → routable x r → routable x' r.
Proof.
  intros Hs (Hq & Hlt & d & Hd). split; [done|]. rewrite (sm_tree _ _ Hs). split; [done|]. exists d. by apply (goes_to_same x).
Qed.

Definition out_ok (x : XBar) (o : Out) : Prop :=
  match o with OutReq _ dst pkt _ _ => goes_to x (getAddrRange pkt) dst | _ => True end.

(** [mid] is the layer whose retry is on its way. *)
Record XInv (mid : option (bool * nat)) (cur : Z) (x : XBar) : Prop := {
  xi_time : time_ok (period x) cur;
  xi_params : params_ok (params x);
  xi_clock : clock_ok (period x) cur (clock x);
  xi_map : map_ok cache_size (portMap x);
  xi_got : gotAllAddrRanges x = true;
  xi_dest : ∀ r d, goes_to x r d → (d < length (reqLayers x))%nat;
  xi_layers : ∀ req k l, layers req x !! k = Some l → layer_inv (bool_decide (mid = Some (req, k))) cur l;
  xi_waits : ∀ req, NoDup (waits (layers req x));
  xi_resp : ∀ k l, respLayers x !! k = Some l → waitingForPeer l = None;
  xi_routes : routes (outs x) = Some (routeTo x);
  xi_ports : ∀ q s, routeTo x !! q = Some s → (s < length (respLayers x))%nat;
  xi_outs : Forall (out_ok x) (outs x);
}.

Lemma layer_inv_mono (b b' : bool) cur l : (b = true → b' = true) → layer_inv b cur l → layer_inv b' cur l.
Proof. unfold layer_inv. destruct (state l); naive_solver. Qed.

(** A step that changes one layer. *)
Lemma XInv_step mid mid' cur x x' req k l l' : XInv mid cur x → layers req x !! k = Some l → same_map x x' →
  clock_ok (period x) cur (clock x') → map_ok cache_size (portMap x') →
  layers req x' = <[k := l']> (layers req x) → layers (negb req) x' = layers (negb req) x →
  (∀ j, j ≠ (req, k) → mid = Some j → mid' = Some j) →
  layer_inv (bool_decide (mid' = Some (req, k))) cur l' → NoDup (waits (layers req x')) →
  (req = false → waitingForPeer l' = None) → routes (outs x') = Some (routeTo x') →
  (∀ q s, routeTo x' !! q = Some s → (s < length (respLayers x))%nat) →
  Forall (out_ok x') (outs x') → XInv mid' cur x'.
Proof.
  intros [Ht Hpa _ _ Hg Hd Hls Hws Hre _ _ _] Hk Hs Hck Hm Hl Hl2 Hmid Hli Hw Hr Hro Hp Ho.
  pose proof Hs as [Es Etr Ed Er Eg Elen]. rewrite <- Es in *. pose proof (lookup_lt_Some _ _ _ Hk) as Hlt.
  assert (Hcase : ∀ rq, rq = req ∨ rq = negb req) by (intros []; destruct req; auto).
  split; try done.
  - congruence.
  - intros r d Hgd. rewrite (Elen true : length (reqLayers x') = _). apply (Hd r d). apply (goes_to_same x' x); [|done].
    by split.
  - intros rq j lj Hj. destruct (Hcase rq) as [->| ->].
    + rewrite Hl in Hj. destruct (decide (j = k)) as [->|Hne].
      * rewrite list_lookup_insert_eq in Hj by done. by simplify_eq.
      * rewrite list_lookup_insert_ne in Hj by done. apply Hls in Hj. eapply layer_inv_mono; [|done].
        rewrite !bool_decide_eq_true. apply Hmid. congruence.
    + rewrite Hl2 in Hj. apply Hls in Hj. eapply layer_inv_mono; [|done].
      rewrite !bool_decide_eq_true. apply Hmid. by destruct req.
  - intros rq. destruct (Hcase rq) as [->| ->]; [done|]. rewrite Hl2. apply Hws.
  - intros j lj Hj. change (layers false x' !! j = Some lj) in Hj. destruct req.
    + cbn [negb] in Hl2. rewrite Hl2 in Hj. by apply (Hre j).
    + rewrite Hl in Hj. destruct (decide (j = k)) as [->|Hne].
      * rewrite list_lookup_insert_eq in Hj by done. simplify_eq. by apply Hr.
      * rewrite list_lookup_insert_ne in Hj by done. by apply (Hre j).
  - intros q s Hq. rewrite (Elen false : length (respLayers x') = _). by apply (Hp q).
Qed.

(** ** One packet *)

(** The delay a packet arrives with leaves room for the one the crossbar adds. *)
Definition delay_ok (x : XBar) (pkt : XPkt) (add : Z) : Prop :=
  0 ≤ add ∧ 0 ≤ x_headerDelay pkt ∧ x_headerDelay pkt + period x + add ≤ us (params x) ∧ inU 32 (x_payloadDelay pkt).

Lemma calcPacketTiming_ok cur x pkt d : time_ok (period x) cur → params_ok (params x) →
  clock_ok (period x) cur (clock x) → delay_ok x pkt d →
  ∃ h pd c, calcPacketTiming x cur pkt d = Ok (set_delays pkt h pd, set_clock x c) ∧
    clock_ok (period x) cur c ∧ inU 32 pd ∧ 0 ≤ h ≤ us (params x).
Proof.
  intros Ht Hp Hc (Hd & Hh & Hs & Hpd). unfold calcPacketTiming. pose proof Ht as [Hper Hcur]. pose proof (pa_us _ Hp).
  destruct (clockEdge_ok (period x) cur (clock x) 0 Ht Hc ltac:(lia)) as (e & c & -> & Hc' & He). cbn [mbind outcome_bind].
  rewrite (wrapU_id 64 (e - cur)) by (split; lia). rewrite (wrapU_id 64 (e - cur + d)) by (split; lia).
  rewrite (wrapU_id 32 (x_headerDelay pkt + _)) by (split; lia). cbn [set_clock params].
  rewrite (proj2 (Z.ltb_ge _ _)) by lia. cbn [mbind outcome_bind panic_if].
  destruct (cmd_hasData (x_cmd pkt)).
  - unfold divCeil32. rewrite (proj2 (Z.eqb_neq _ _)) by (pose proof (pa_width _ Hp); lia). cbn [mbind outcome_bind].
    do 3 eexists. split; [done|]. split_and!; [done|by apply wrapU_range|lia|lia].
  - do 3 eexists. split; [done|]. split_and!; [done|done|lia|lia].
Qed.

Record req_ok (x : XBar) (s : nat) (pkt : XPkt) : Prop := {
  rq_port : (s < length (respLayers x))%nat;
  rq_free : s ∉ waits (reqLayers x);
  rq_plain : x_express pkt = false;
  rq_route : routable x (getAddrRange pkt);
  rq_new : cmd_needsResponse (x_cmd pkt) && negb (x_cacheResponding pkt) = true → routeTo x !! x_req pkt = None;
  rq_delay : delay_ok x pkt ((frontendLatency (params x) + forwardLatency (params x)) * period x);
}.

Lemma out_ok_same x x' o : same_map x x' → out_ok x o → out_ok x' o.
Proof. destruct o; cbn; [apply goes_to_same|done..]. Qed.
Lemma outs_same x x' l : same_map x x' → Forall (out_ok x) l → Forall (out_ok x') l.
Proof. intros Hs Ho. eapply Forall_impl; [done|]. intros ?. by apply out_ok_same. Qed.
Lemma outs_snoc x x' l o : same_map x x' → Forall (out_ok x) l → out_ok x o → Forall (out_ok x') (l ++ [o]).
Proof. intros Hs Ho Hn. apply (outs_same x); [done|]. apply Forall_app. by rewrite Forall_singleton. Qed.
Lemma waits_new ls k l l' s : NoDup (waits ls) → s ∉ waits ls → ls !! k = Some l → waiting l' ≡ₚ s :: waiting l →
  NoDup (waits (<[k := l']> ls)).
Proof. intros Hn Hs Hk Hw. rewrite (waits_add ls k l l' s Hk Hw). by constructor. Qed.
Lemma waits_keep ls k l l' : NoDup (waits ls) → ls !! k = Some l → waiting l' = waiting l → NoDup (waits (<[k := l']> ls)).
Proof. intros Hn Hk Hw. by rewrite (waits_same ls k l l' Hk Hw). Qed.

(** The layer is being occupied: [x1] has it taken, the rest is as in [x]. *)
Record occupying (req : bool) (k : nat) (l1 : Layer) (x x1 : XBar) : Prop := {
  oc_map : same_map x x1;
  oc_ok : map_ok cache_size (portMap x1);
  oc_clock : clock x1 = clock x;
  oc_layers : layers req x1 = <[k := l1]> (layers req x);
  oc_other : layers (negb req) x1 = layers (negb req) x;
  oc_routes : routeTo x1 = routeTo x ∧ outs x1 = outs x;
}.

Lemma busy_until edge pd cur per : 0 < per → time_ok per cur → inU 32 pd → cur + 1 * per ≤ edge < cur + (1 + 1) * per →
  0 < u64 (edge + pd) ∧ cur ≤ u64 (edge + pd).
Proof. intros ? [] [] ?. rewrite wrapU_id by (split; lia). lia. Qed.

Lemma XInv_occupied mid cur req k l l1 l2 x x1 x' : XInv mid cur x → layers req x !! k = Some l →
  occupying req k l1 x x1 → same_map x1 x' → portMap x' = portMap x1 → layers req x' = <[k := l2]> (layers req x1) →
  layers (negb req) x' = layers (negb req) x1 → clock_ok (period x) cur (clock x') →
  layer_inv (bool_decide (mid = Some (req, k))) cur l2 → NoDup (waits (<[k := l2]> (layers req x))) →
  (req = false → waitingForPeer l2 = None) → routes (outs x') = Some (routeTo x') →
  (∀ q s, routeTo x' !! q = Some s → (s < length (respLayers x))%nat) → Forall (out_ok x) (outs x') →
  XInv mid cur x' ∧ same_map x x'.
Proof.
  intros Hx Hl [Hsm Hm1 Eck El1 El2 _] Hs1 Epm E1 E2 Hck Hli Hw Hp Hro Hpo Hou. rewrite El1, list_insert_insert_eq in E1.
  assert (same_map x x') as Hs by (by etrans). split; [|done].
  apply (XInv_step mid mid cur x x' req k l l2); try done; [congruence|congruence|by rewrite E1|by apply (outs_same x)].
Qed.

Lemma forwardReq_ok mid cur x x1 s d l l1 pkt acc : XInv mid cur x → req_ok x s pkt → goes_to x (getAddrRange pkt) d →
  layers true x !! d = Some l → taken l l1 → occupying true d l1 x x1 →
  ∃ ok pkt' x', forwardReq x1 cur s d l1 pkt acc = Ok (ok, pkt', x') ∧ XInv mid cur x' ∧ same_map x x'.
Proof.
  intros Hx [Hsl Hfree Hex Hrt Hnew Hdel] Hgo Hl Htk [Hsm Hm1 Eck El1 El2 [Ert Eou]].
  pose proof Hx as [Ht Hpa Hck _ _ _ Hls Hws _ Hro Hpo Hou]. pose proof Ht as [Hper Hcur]. pose proof (pa_us _ Hpa).
  pose proof (pa_front _ Hpa). pose proof (pa_forward _ Hpa). pose proof Hdel as (_ & Hh & Hsum & _).
  set (add := (frontendLatency (params x) + forwardLatency (params x)) * period x) in *.
  assert (0 ≤ add) by nia. assert (frontendLatency (params x) + forwardLatency (params x) ≤ add) by nia.
  unfold forwardReq. rewrite (sm_params _ _ Hsm).
  rewrite (wrapU_id 64 (frontendLatency _ + _)) by (split; lia). fold add. rewrite (wrapU_id 64 add) by (split; lia).
  assert (delay_ok x1 pkt add) as Hdel1 by (unfold delay_ok; by rewrite (sm_params _ _ Hsm)).
  destruct (calcPacketTiming_ok cur x1 pkt add) as (h & pd & c & -> & Hc1 & Hpd & Hh'); rewrite ?Eck, ?(sm_params _ _ Hsm) in *; try done.
  cbn [mbind outcome_bind set_clock params clock]. rewrite (sm_params _ _ Hsm).
  destruct (clockEdge_ok (period x) cur c 1 Ht Hc1 ltac:(lia)) as (e & c2 & -> & Hc2 & He). cbn [mbind outcome_bind set_clock set_delays x_payloadDelay x_cmd x_cacheResponding x_req put params clock].
  destruct (busy_until e pd cur (period x)) as [Hu1 Hu2]; [lia|done..|].
  set (o := OutReq s d (set_delays pkt h pd) _ acc).
  assert (out_ok x o) as Hoo by (unfold o; cbn; by destruct pkt). pose proof (Hls true d l Hl) as Hli.
  destruct acc; cbn [negb].
  2:{ rewrite (sm_params _ _ Hsm). destruct (clockEdge_ok (period x) cur c2 1 Ht Hc2 ltac:(lia)) as (e' & c3 & -> & Hc3 & He').
      cbn [mbind outcome_bind].
      destruct (failed_ok l l1 s cur e' (bool_decide (mid = Some (true, d))) Htk) as (l2 & -> & Hi2 & Hw2); [lia..|].
      cbn [mbind outcome_bind]. do 3 eexists. split; [done|].
      eapply (XInv_occupied mid cur true d l l1 l2 x x1); try done; cbn.
      - split; try done. intros []; [apply length_insert|done].
      - by apply (waits_new _ d l l2 s (Hws true)); [..|rewrite Hw2].
      - rewrite routes_snoc, Eou, Ert, Hro. cbn. by destruct (_ && _).
      - by rewrite Ert.
      - rewrite Eou. by apply Forall_app; rewrite Forall_singleton. }
  destruct (succeeded_ok l l1 cur (u64 (e + pd)) (bool_decide (mid = Some (true, d))) Htk) as (l2 & Hsu & Hi2 & Hw2 & _); [lia..|].
  destruct (cmd_needsResponse (x_cmd pkt) && negb (x_cacheResponding pkt)) eqn:Ee; cbn [put set_clock routeTo x_req set_delays].
  - rewrite Ert, Hnew, bool_decide_eq_true_2 by done. cbn [mbind outcome_bind assert_]. rewrite Hsu. cbn [mbind outcome_bind].
    do 3 eexists. split; [done|]. eapply (XInv_occupied mid cur true d l l1 l2 x x1); try done; cbn.
    + split; try done. intros []; [apply length_insert|done].
    + by apply (waits_keep _ d l l2 (Hws true)).
    + rewrite routes_snoc, Eou, Hro. cbn. by rewrite Hnew.
    + intros q s'. rewrite lookup_insert_Some. intros [[_ <-]|[_ Hq]]; [done|by apply (Hpo q)].
    + rewrite Eou. by apply Forall_app; rewrite Forall_singleton.
  - cbn [mbind outcome_bind]. rewrite Hsu. cbn [mbind outcome_bind].
    do 3 eexists. split; [done|]. eapply (XInv_occupied mid cur true d l l1 l2 x x1); try done; cbn.
    + split; try done. intros []; [apply length_insert|done].
    + by apply (waits_keep _ d l l2 (Hws true)).
    + by rewrite routes_snoc, Eou, Ert, Hro.
    + by rewrite Ert.
    + rewrite Eou. by apply Forall_app; rewrite Forall_singleton.
Qed.

Lemma recvTimingReq_ok mid cur x s pkt acc : XInv mid cur x → req_ok x s pkt →
  ∃ ok pkt' x', recvTimingReq x cur s pkt acc = Ok (ok, pkt', x') ∧ XInv mid cur x' ∧ same_map x x'.
Proof.
  intros Hx Hrq. pose proof Hrq as [Hsl Hfree Hex Hrt _ _]. pose proof Hx as [Ht Hpa Hck Hm Hg Hd Hls Hws _ Hro Hpo Hou].
  unfold recvTimingReq. destruct (lookup_lt_is_Some_2 _ _ Hsl) as [rl Hrl].
  rewrite (proj2 (vec_get_ok _ _ _) Hrl), Hex. cbn [mbind outcome_bind assert_ negb].
  destruct (findPort_ok x (getAddrRange pkt) Hm Hg Hrt) as (d & m' & -> & Hgo & Htr & Hm'). cbn [mbind outcome_bind].
  pose proof (Hd _ _ Hgo) as Hdl. destruct (lookup_lt_is_Some_2 _ _ Hdl) as [l Hl]. cbn [set_portMap reqLayers].
  rewrite (proj2 (vec_get_ok _ _ _) Hl). cbn [mbind outcome_bind].
  assert (s ∉ waiting l) as Hsw by (intros Hin; by apply Hfree, (waits_elem _ d l)).
  destruct (tryTiming_ok _ cur l s (Hls true d l Hl) Hsw) as (free & l1 & -> & Hfr). cbn [mbind outcome_bind].
  set (x1 := set_reqLayers (set_portMap x m') (<[d := l1]> (reqLayers x))).
  assert (same_map x x1) as Hsm by (split; try done; intros []; [apply length_insert|done]).
  destruct free; cbn [negb].
  - by apply (forwardReq_ok mid cur x x1 s d l).
  - destruct Hfr as (Hl1 & Hw1 & _). do 3 eexists. split; [done|]. split; [|done].
    apply (XInv_step mid mid cur x x1 true d l l1); try done.
    + by apply (waits_new _ d l l1 s (Hws true)).
    + by apply (outs_same x).
Qed.

Record resp_ok (x : XBar) (m : nat) (pkt : XPkt) : Prop := {
  rp_port : (m < length (reqLayers x))%nat;
  rp_free : m ∉ waits (respLayers x);
  rp_route : is_Some (routeTo x !! x_req pkt);
  rp_delay : delay_ok x pkt (responseLatency (params x) * period x);
}.

Lemma forwardResp_ok mid cur x x1 m s l l1 pkt : XInv mid cur x → resp_ok x m pkt → routeTo x !! x_req pkt = Some s →
  layers false x !! s = Some l → taken l l1 → occupying false s l1 x x1 →
  ∃ ok pkt' x', forwardResp x1 cur s l1 pkt = Ok (ok, pkt', x') ∧ XInv mid cur x' ∧ same_map x x'.
Proof.
  intros Hx [_ _ _ Hdel] Hs Hl Htk [Hsm Hm1 Eck El1 El2 [Ert Eou]].
  pose proof Hx as [Ht Hpa Hck _ _ _ Hls Hws _ Hro Hpo Hou]. pose proof Ht as [Hper Hcur]. pose proof (pa_us _ Hpa).
  pose proof (pa_resp _ Hpa). pose proof Hdel as (Hadd & Hh & Hsum & _). set (add := responseLatency (params x) * period x) in *.
  unfold forwardResp. rewrite (sm_params _ _ Hsm). fold add. rewrite (wrapU_id 64 add) by (split; lia).
  assert (delay_ok x1 pkt add) as Hdel1 by (unfold delay_ok; by rewrite (sm_params _ _ Hsm)).
  destruct (calcPacketTiming_ok cur x1 pkt add) as (h & pd & c & -> & Hc1 & Hpd & Hh'); rewrite ?Eck, ?(sm_params _ _ Hsm) in *; try done.
  cbn [mbind outcome_bind set_clock params clock]. rewrite (sm_params _ _ Hsm).
  destruct (clockEdge_ok (period x) cur c 1 Ht Hc1 ltac:(lia)) as (e & c2 & -> & Hc2 & He).
  cbn [mbind outcome_bind set_clock set_delays x_payloadDelay x_cmd x_cacheResponding x_req put params clock routeTo].
  destruct (busy_until e pd cur (period x)) as [Hu1 Hu2]; [lia|done..|].
  destruct (succeeded_ok l l1 cur (u64 (e + pd)) (bool_decide (mid = Some (false, s))) Htk) as (l2 & -> & Hi2 & Hw2 & Hp2); [lia..|].
  cbn [mbind outcome_bind]. do 3 eexists. split; [done|].
  eapply (XInv_occupied mid cur false s l l1 l2 x x1); try done; cbn.
  - split; try done. intros []; [done|apply length_insert].
  - by apply (waits_keep _ s l l2 (Hws false)).
  - rewrite routes_snoc, Eou, Ert, Hro. cbn. by rewrite decide_True by done.
  - rewrite Ert. intros q s'. rewrite lookup_delete_Some. intros [_ Hq]. by apply (Hpo q).
  - rewrite Eou. by apply Forall_app; rewrite Forall_singleton.
Qed.

Lemma recvTimingResp_ok mid cur x m pkt : XInv mid cur x → resp_ok x m pkt →
  ∃ ok pkt' x', recvTimingResp x cur m pkt = Ok (ok, pkt', x') ∧ XInv mid cur x' ∧ same_map x x'.
Proof.
  intros Hx Hrp. pose proof Hrp as [Hml Hfree [s Hs] _]. pose proof Hx as [Ht Hpa Hck Hm Hg _ Hls Hws Hre Hro Hpo Hou].
  unfold recvTimingResp. destruct (lookup_lt_is_Some_2 _ _ Hml) as [ql Hql].
  rewrite (proj2 (vec_get_ok _ _ _) Hql), Hs. cbn [mbind outcome_bind]. pose proof (Hpo _ _ Hs) as Hsl.
  rewrite bool_decide_eq_true_2 by done. cbn [mbind outcome_bind assert_]. destruct (lookup_lt_is_Some_2 _ _ Hsl) as [l Hl].
  rewrite (proj2 (vec_get_ok _ _ _) Hl). cbn [mbind outcome_bind].
  assert (m ∉ waiting l) as Hsw by (intros Hin; by apply Hfree, (waits_elem _ s l)).
  destruct (tryTiming_ok _ cur l m (Hls false s l Hl) Hsw) as (free & l1 & -> & Hfr). cbn [mbind outcome_bind].
  set (x1 := set_respLayers x (<[s := l1]> (respLayers x))).
  assert (same_map x x1) as Hsm by (split; try done; intros []; [done|apply length_insert]).
  destruct free; cbn [negb].
  - by apply (forwardResp_ok mid cur x x1 m s l).
  - destruct Hfr as (Hl1 & Hw1 & Hp1). do 3 eexists. split; [done|]. split; [|done].
    apply (XInv_step mid mid cur x x1 false s l l1); try done.
    + by apply (waits_new _ s l l1 m (Hws false)).
    + intros _. rewrite Hp1. by apply (Hre s).
Qed.

(** ** Calls and retries *)

Definition call_ok (x : XBar) (c : Call) : Prop :=
  match c with CallReq s pkt _ => req_ok x s pkt | CallResp m pkt => resp_ok x m pkt end.
(** Each call is allowed in the state the ones before it leave. *)
Fixpoint calls_ok (x : XBar) (cur : Z) (cs : list Call) : Prop :=
  match cs with
  | [] => True
  | c :: cs => call_ok x c ∧ ∀ x', do_call x cur c = Ok x' → calls_ok x' cur cs
  end.

Lemma do_call_ok mid cur x c : XInv mid cur x → call_ok x c → ∃ x', do_call x cur c = Ok x' ∧ XInv mid cur x' ∧ same_map x x'.
Proof.
  intros Hx Hc. destruct c as [s pkt acc|m pkt]; cbn in *.
  - destruct (recvTimingReq_ok mid cur x s pkt acc Hx Hc) as (? & ? & x' & -> & ? & ?). by exists x'.
  - destruct (recvTimingResp_ok mid cur x m pkt Hx Hc) as (? & ? & x' & -> & ? & ?). by exists x'.
Qed.
Lemma do_calls_ok mid cur cs x : XInv mid cur x → calls_ok x cur cs →
  ∃ x', do_calls x cur cs = Ok x' ∧ XInv mid cur x' ∧ same_map x x'.
Proof.
  unfold do_calls. revert x. induction cs as [|c cs IH]; intros x Hx Hc; cbn [foldM]; [by exists x|].
  destruct Hc as [Hc Hcs]. destruct (do_call_ok mid cur x c Hx Hc) as (x1 & E & Hx1 & Hs1). rewrite E. cbn [mbind outcome_bind].
  destruct (IH x1 Hx1 (Hcs x1 E)) as (x2 & -> & ? & ?). exists x2. split_and!; [done..|by etrans].
Qed.

Lemma lookup_set_layer req x k l l' : layers req x !! k = Some l → layers req (set_layer req x k l') !! k = Some l'.
Proof. intros Hk. unfold set_layer. destruct req; cbn in *; apply list_lookup_insert_eq; by apply lookup_lt_Some in Hk. Qed.
Lemma layers_set_layer req x k l : layers req (set_layer req x k l) = <[k := l]> (layers req x) ∧
  layers (negb req) (set_layer req x k l) = layers (negb req) x.
Proof. by destruct req. Qed.
Lemma same_set_layer req x k l : same_map x (set_layer req x k l).
Proof. destruct req; split; try done; intros []; try done; apply length_insert. Qed.
Lemma set_layer_frame req x k l : portMap (set_layer req x k l) = portMap x ∧ routeTo (set_layer req x k l) = routeTo x ∧
  outs (set_layer req x k l) = outs x ∧ clock (set_layer req x k l) = clock x.
Proof. by destruct req. Qed.

Lemma waits_drop ls k l l' p : NoDup (waits ls) → ls !! k = Some l → waiting l = p :: waiting l' → NoDup (waits (<[k := l']> ls)).
Proof.
  intros Hn Hk Hw. pose proof (waits_insert ls k l l' Hk) as H. rewrite Hw in H.
  assert (p :: waits (<[k := l']> ls) ≡ₚ waits ls) as Hp.
  { apply (inj (.++ waiting l')). rewrite <- H. solve_Permutation. }
  rewrite <- Hp in Hn. by apply NoDup_cons in Hn as [].
Qed.

(** A layer is replaced by one with the same ports waiting, or one fewer. *)
Lemma XInv_set_layer mid mid' cur req k x l l' : XInv mid cur x → layers req x !! k = Some l →
  (∀ j, j ≠ (req, k) → mid = Some j → mid' = Some j) →
  layer_inv (bool_decide (mid' = Some (req, k))) cur l' →
  (waiting l' = waiting l ∨ ∃ p, waiting l = p :: waiting l') → (waitingForPeer l = None → waitingForPeer l' = None) →
  XInv mid' cur (set_layer req x k l').
Proof.
  intros Hx Hk Hmid Hli Hw Hp. pose proof Hx as [Ht Hpa Hck Hm Hg Hd Hls Hws Hre Hro Hpo Hou].
  destruct (layers_set_layer req x k l') as [E1 E2]. destruct (set_layer_frame req x k l') as (E3 & E4 & E5 & E6).
  apply (XInv_step mid mid' cur x (set_layer req x k l') req k l l'); rewrite ?E3, ?E4, ?E5, ?E6; try done.
  - apply same_set_layer.
  - rewrite E1. destruct Hw as [Hw|[p Hw]]; [by apply (waits_keep _ k l)|by apply (waits_drop _ k l l' p)].
  - intros ->. by apply Hp, (Hre k).
  - apply (outs_same x); [apply same_set_layer|done].
Qed.

Lemma XInv_put mid cur x o : XInv mid cur x → (∀ m, route_step (Some m) o = Some m) → out_ok x o → XInv mid cur (put x o).
Proof.
  intros [] Ho Hok. split; try done; cbn.
  - by rewrite routes_snoc, xi_routes0.
  - apply (outs_snoc x); [by split|done|done].
Qed.
Lemma XInv_clock mid cur x c : XInv mid cur x → clock_ok (period x) cur c → XInv mid cur (set_clock x c).
Proof. intros [] Hc. by split. Qed.

Lemma start_retry_ok cur req k x l l' : XInv None cur x → 0 < cur → layers req x !! k = Some l → waiting l' = waiting l → poised l' →
  ∃ x2, start_retry req (set_layer req x k l') k = Ok x2 ∧ XInv (Some (req, k)) cur x2 ∧ same_map x x2.
Proof.
  intros Hx Hcur Hk Hw Hpo. unfold start_retry. rewrite (proj2 (vec_get_ok _ _ _) (lookup_set_layer req x k l l' Hk)).
  cbn [mbind outcome_bind]. destruct (begin_retry_ok cur l' Hcur Hpo) as (p & l2 & -> & Hi2 & Hw2 & Hp2). cbn [mbind outcome_bind].
  assert (set_layer req (set_layer req x k l') k l2 = set_layer req x k l2) as ->.
  { unfold set_layer. destruct req; cbn; unfold set_reqLayers, set_respLayers; cbn; by rewrite list_insert_insert_eq. }
  eexists. split; [done|]. split.
  - apply XInv_put; [|by destruct req|by destruct req].
    apply (XInv_set_layer None (Some (req, k)) cur req k x l); try done.
    + by rewrite bool_decide_eq_true_2.
    + right. exists p. congruence.
  - etrans; [apply (same_set_layer req x k l2)|by split].
Qed.

Lemma finish_retry_ok cur req k x : XInv (Some (req, k)) cur x → (k < length (layers req x))%nat →
  ∃ x', finish_retry req x cur k = Ok x' ∧ XInv None cur x' ∧ same_map x x'.
Proof.
  intros Hx Hk. destruct (lookup_lt_is_Some_2 _ _ Hk) as [l Hl]. pose proof Hx as [Ht Hpa Hck Hm Hg Hd Hls Hws Hre Hro Hpo Hou].
  pose proof (Hls req k l Hl) as Hi. rewrite bool_decide_eq_true_2 in Hi by done. pose proof Ht as [Hper Hcur].
  unfold finish_retry. rewrite (proj2 (vec_get_ok _ _ _) Hl). cbn [mbind outcome_bind]. unfold is_state.
  destruct (bool_decide (state l = RETRY)) eqn:Es.
  - apply bool_decide_eq_true in Es.
    destruct (clockEdge_ok (period x) cur (clock x) 0 Ht Hck ltac:(lia)) as (e & c & -> & Hc & He). cbn [mbind outcome_bind].
    unfold layer_inv in Hi. rewrite Es in Hi. destruct Hi as (_ & Hrel & Hpeer).
    unfold end_retry, is_state. rewrite Es, bool_decide_eq_true_2 by done.
    rewrite occupyLayer_ok by (cbn; done || lia). cbn [mbind outcome_bind]. eexists. split; [done|].
    set (l' := set_release _ _). pose proof (XInv_clock _ _ _ _ Hx Hc) as Hxc.
    assert (layers req (set_clock x c) !! k = Some l) as Hlc by (by destruct req). split.
    + apply (XInv_set_layer (Some (req, k)) None cur req k (set_clock x c) l l' Hxc Hlc); try done.
      * intros j ? [= <-]. done.
      * unfold layer_inv, l'. cbn. eexists. split; [done|]. lia.
      * by left.
    + etrans; [|apply same_set_layer]. by split.
  - apply bool_decide_eq_false in Es. exists x. split; [done|]. split; [|done]. split; try done.
    intros rq j lj Hj. pose proof (Hls rq j lj Hj) as Hij. rewrite bool_decide_eq_false_2 by done.
    destruct (decide ((req, k) = (rq, j))) as [[= <- <-]|Hne].
    + rewrite Hl in Hj. injection Hj as <-. unfold layer_inv in *. by destruct (state l).
    + rewrite bool_decide_eq_false_2 in Hij by congruence. done.
Qed.

(** The calls made during a retry are allowed in the states they meet. *)
Definition nested_ok (begin : outcome (bool * XBar)) (req : bool) (cur : Z) (k : nat) (nested : list Call) : Prop :=
  match begin with
  | Ok (true, x1) => match start_retry req x1 k with Ok x2 => calls_ok x2 cur nested | Err _ => True end
  | _ => True
  end.

Lemma retryWaiting_ok cur req k x l l' nested : XInv None cur x → 0 < cur → layers req x !! k = Some l →
  waiting l' = waiting l → poised l' → nested_ok (Ok (true, set_layer req x k l')) req cur k nested →
  ∃ x', retryWaiting req (set_layer req x k l') cur k nested = Ok x' ∧ XInv None cur x' ∧ same_map x x'.
Proof.
  intros Hx Hcur Hk Hw Hpo Hn. unfold retryWaiting. cbn in Hn.
  destruct (start_retry_ok cur req k x l l' Hx Hcur Hk Hw Hpo) as (x2 & E2 & Hx2 & Hs2). rewrite E2 in Hn |- *. cbn [mbind outcome_bind].
  destruct (do_calls_ok _ cur nested x2 Hx2 Hn) as (x3 & -> & Hx3 & Hs3). cbn [mbind outcome_bind].
  destruct (finish_retry_ok cur req k x3 Hx3) as (x4 & -> & Hx4 & Hs4).
  { rewrite (sm_len _ _ Hs3), (sm_len _ _ Hs2). by apply lookup_lt_Some in Hk. }
  exists x4. split; [done|]. split; [done|]. by do 2 (etrans; [done|]).
Qed.

Lemma layer_release_ok cur req k x l nested : XInv None cur x → layers req x !! k = Some l → releaseEvent l = Some cur →
  nested_ok (release_begin req x k) req cur k nested →
  ∃ x', release req x cur k nested = Ok x' ∧ XInv None cur x' ∧ same_map x x'.
Proof.
  intros Hx Hk Hr Hn. pose proof (xi_layers _ _ _ Hx req k l Hk) as Hi. rewrite bool_decide_eq_false_2 in Hi by done.
  destruct (releaseLayer_ok cur l Hi Hr) as (Hpos & again & l' & E & Hw & Hp & Ha).
  unfold release. assert (release_begin req x k = Ok (again, set_layer req x k l')) as Eb.
  { unfold release_begin. rewrite (proj2 (vec_get_ok _ _ _) Hk). cbn [mbind outcome_bind]. by rewrite E. }
  rewrite Eb in Hn |- *. cbn [mbind outcome_bind]. destruct again.
  - by apply (retryWaiting_ok cur req k x l).
  - eexists. split; [done|]. split; [|apply same_set_layer].
    apply (XInv_set_layer None None cur req k x l); try done; [by left|congruence].
Qed.

Lemma recvReqRetry_ok cur m x l p nested : XInv None cur x → reqLayers x !! m = Some l → waitingForPeer l = Some p →
  nested_ok (retry_begin x m) true cur m nested →
  ∃ x', recvReqRetry x cur m nested = Ok x' ∧ XInv None cur x' ∧ same_map x x'.
Proof.
  intros Hx Hk Hr Hn. pose proof (xi_layers _ _ _ Hx true m l Hk) as Hi. rewrite bool_decide_eq_false_2 in Hi by done.
  destruct (recvRetry_ok cur l p Hi Hr) as (again & l' & E & Hw & Hp & Ha).
  unfold recvReqRetry. assert (retry_begin x m = Ok (again, set_layer true x m l')) as Eb.
  { unfold retry_begin. rewrite (proj2 (vec_get_ok _ _ _) Hk). cbn [mbind outcome_bind]. by rewrite E. }
  rewrite Eb in Hn |- *. cbn [mbind outcome_bind]. destruct again.
  - destruct Ha. by apply (retryWaiting_ok cur true m x l).
  - eexists. split; [done|]. split; [|apply same_set_layer].
    apply (XInv_set_layer None None cur true m x l); try done. by left.
Qed.

Lemma drain_layer_ok cur req k x : XInv None cur x → (k < length (layers req x))%nat →
  ∃ x', drain_layer req x k = Ok x' ∧ XInv None cur x' ∧ same_map x x'.
Proof.
  intros Hx Hk. destruct (lookup_lt_is_Some_2 _ _ Hk) as [l Hl]. unfold drain_layer.
  rewrite (proj2 (vec_get_ok _ _ _) Hl). cbn [mbind outcome_bind]. eexists. split; [done|]. split; [|apply same_set_layer].
  apply (XInv_set_layer None None cur req k x l); try done; [|by left].
  pose proof (xi_layers _ _ _ Hx req k l Hl) as Hi. unfold layer_inv, layer_drain in *. by destruct l.
Qed.

(** Time passes up to the next event of a layer. *)
Lemma XInv_time cur cur' x : XInv None cur x → cur ≤ cur' → cur' < 2 ^ 63 →
  (∀ req k l t, layers req x !! k = Some l → releaseEvent l = Some t → cur' ≤ t) → XInv None cur' x.
Proof.
  intros [] ? ? Ht. split; try done.
  - destruct xi_time0. split; lia.
  - by apply (clock_ok_mono _ cur).
  - intros req k l Hk. pose proof (xi_layers0 req k l Hk) as Hi. unfold layer_inv in *. destruct (state l).
    + destruct Hi as (? & ? & ?). split_and!; [done|done|]. intuition lia.
    + destruct Hi as (t & Ht' & ? & ?). exists t. split_and!; [done|by apply (Ht req k l)|done].
    + by destruct Hi.
Qed.

(** ** Runs *)

(** What the peers of the crossbar do: they send packets, unless they wait for a
    retry; answer requests they were given; and send a retry after they refused a
    packet.  The event of a layer is served at its time. *)
Inductive xstep (cur : Z) (x : XBar) : XBar → Prop :=
  | st_call c x' : call_ok x c → do_call x cur c = Ok x' → xstep cur x x'
  | st_release req k l nested x' : layers req x !! k = Some l → releaseEvent l = Some cur →
      nested_ok (release_begin req x k) req cur k nested → release req x cur k nested = Ok x' → xstep cur x x'
  | st_retry m l p nested x' : reqLayers x !! m = Some l → waitingForPeer l = Some p →
      nested_ok (retry_begin x m) true cur m nested → recvReqRetry x cur m nested = Ok x' → xstep cur x x'
  | st_drain req k x' : drain_layer req x k = Ok x' → xstep cur x x'.
Inductive xrun (x0 : XBar) : Z → XBar → Prop :=
  | xr_start : xrun x0 0 x0
  | xr_step cur x x' : xrun x0 cur x → xstep cur x x' → xrun x0 cur x'
  | xr_time cur cur' x : xrun x0 cur x → cur ≤ cur' → cur' < 2 ^ 63 →
      (∀ req k l t, layers req x !! k = Some l → releaseEvent l = Some t → cur' ≤ t) → xrun x0 cur' x.

Lemma xrun_ok x0 cur x : XInv None 0 x0 → xrun x0 cur x → XInv None cur x ∧ same_map x0 x.
Proof.
  intros H0. induction 1 as [|cur x x' _ [Hx Hs] Hst|cur cur' x _ [Hx Hs] ? ? Ht]; [done| |split; [by apply (XInv_time cur)|done]].
  assert (∃ x'', Ok x' = Ok x'' ∧ XInv None cur x'' ∧ same_map x x'') as (? & [= <-] & ? & ?); [|split; [done|by etrans]].
  destruct Hst as [c x' Hc <-|req k l ns x' Hk Hr Hn <-|m l p ns x' Hk Hr Hn <-|req k x' Hd].
  - by apply do_call_ok.
  - by apply (layer_release_ok cur req k x l).
  - by apply (recvReqRetry_ok cur m x l p).
  - rewrite <- Hd. apply drain_layer_ok; [done|]. unfold drain_layer in Hd.
    apply bind_ok in Hd as (l & Hl%vec_get_ok & _). by apply lookup_lt_Some in Hl.
Qed.

(** ** Address ranges *)

Definition covered (rs : list AddrRange) (a : Z) : Prop := ∃ r, r ∈ rs ∧ ar_contains r a = true.
Lemma covered_app rs rs' a : covered (rs ++ rs') a ↔ covered rs a ∨ covered rs' a.
Proof. unfold covered. set_solver. Qed.
Lemma covered_one r a : covered [r] a ↔ ar_contains r a = true.
Proof. unfold covered. set_solver. Qed.
Lemma covered_cons r rs a : covered (r :: rs) a ↔ ar_contains r a = true ∨ covered rs a.
Proof. unfold covered. set_solver. Qed.
Lemma covered_nil a : covered [] a ↔ False.
Proof. unfold covered. set_solver. Qed.

(** A range a peer may report. *)
Definition reported (r : AddrRange) : Prop := range_ok r ∧ (length (ar_masks r) ≤ 8)%nat.
Definition bounded (r : AddrRange) : Prop := word_bounds r ∧ (length (ar_masks r) ≤ 8)%nat.
Lemma reported_bounded r : reported r → bounded r.
Proof. intros [[] ?]. by split. Qed.

Lemma merge_covers rs m a : AddrRange_merge rs = Ok m → Forall bounded rs → ar_contains m a = true ↔ covered rs a.
Proof.
  intros H Hf. destruct (merge_partitions rs m H) with (a := a) as [-> _].
  { eapply Forall_impl; [done|]. by intros r []. }
  unfold covered. setoid_rewrite list_elem_of_lookup. naive_solver.
Qed.
Lemma merge_bounds rs m : AddrRange_merge rs = Ok m → rs ≠ [] → Forall bounded rs → word_bounds m.
Proof.
  intros H Hne Hf. destruct rs as [|r rs]; [done|]. apply Forall_cons in Hf as [[Hr _] _]. unfold AddrRange_merge in H. cbn [head default] in H.
  destruct (_ <? _)%nat; [|by injection H as <-]. apply bind_ok in H as (? & _ & H). apply bind_ok in H as (? & _ & H).
  apply bind_ok in H as (? & _ & [= <-]). done.
Qed.

Section Ranges.
Context (ud : bool) (d : AddrRange) (Hd : ud = true → range_ok d).

Lemma keep_range_covers acc acc' r : keep_range ud d acc r = Ok acc' → word_bounds r → (ud = true → d ∈ acc) →
  (∀ a, covered acc' a ↔ covered acc a ∨ ar_contains r a = true) ∧ (ud = true → d ∈ acc').
Proof.
  intros H Hr Hin. unfold keep_range in H. apply bind_ok in H as (skip & Hs & [= <-]). destruct skip.
  - destruct ud; [|done]. split; [|done]. intros a. split; [by left|]. intros [|Ha]; [done|]. exists d. split; [by apply Hin|].
    apply (isSubset_sound r); [done|done|by apply contains_in_range|]. specialize (Hd eq_refl).
    destruct (interleaved d) eqn:E; [by right|left]. by apply (ro_masks d), interleaved_not.
  - split; [|set_solver]. intros a. by rewrite covered_app, covered_one.
Qed.
Lemma merge_and_keep_covers acc acc' intlv : merge_and_keep ud d acc intlv = Ok acc' → intlv ≠ [] → Forall bounded intlv →
  (ud = true → d ∈ acc) → (∀ a, covered acc' a ↔ covered acc a ∨ covered intlv a) ∧ (ud = true → d ∈ acc').
Proof.
  intros H Hne Hf Hin. unfold merge_and_keep in H. apply bind_ok in H as (m & Hm & H).
  destruct (keep_range_covers acc acc' m H) as [Hc ?]; [by apply (merge_bounds intlv)|done|].
  split; [|done]. intros a. by rewrite Hc, (merge_covers intlv m).
Qed.

Lemma aggregate_covers rs : ∀ acc intlv res, aggregate ud d rs acc intlv = Ok res → Forall bounded rs → Forall bounded intlv →
  (ud = true → d ∈ acc) → ∀ a, covered res a ↔ covered acc a ∨ covered rs a ∨ covered intlv a.
Proof.
  induction rs as [|r rs IH]; intros acc intlv res H Hf Hi Hin a; cbn [aggregate] in H.
  - rewrite covered_nil. destruct intlv as [|i intlv]; [injection H as <-; rewrite covered_nil; tauto|].
    destruct (merge_and_keep_covers acc res (i :: intlv) H) as [-> _]; [done..|]. tauto.
  - apply Forall_cons in Hf as [Hr Hf]. rewrite covered_cons. destruct (interleaved r).
    + destruct (last intlv) as [b|] eqn:El.
      * destruct (mergesWith b r).
        -- rewrite (IH acc _ res H), covered_app, covered_one; [tauto|done| |done]. apply Forall_app. by rewrite Forall_singleton.
        -- apply bind_ok in H as (acc1 & H1 & H).
           destruct (merge_and_keep_covers acc acc1 intlv H1) as [Hc ?]; [by intros ->|done|done|].
           rewrite (IH acc1 _ res H), covered_one, Hc; [tauto|done|by constructor|done].
      * apply last_None in El as ->. rewrite (IH acc _ res H), covered_one, covered_nil; [tauto|done|by constructor|done].
    + apply bind_ok in H as (acc1 & H1 & H). destruct (keep_range_covers acc acc1 r H1) as [Hc ?]; [apply Hr|done|].
      rewrite (IH acc1 intlv res H), Hc; [tauto|done..].
Qed.
End Ranges.

(** ** Configuration *)

Lemma erase_port_ok m k : map_ok cache_size m → map_ok cache_size (erase_port m k) ∧ tree (erase_port m k) ⊆ tree m.
Proof.
  intros Hm. unfold erase_port. set (f := fun m e => _).
  enough (H : ∀ es m, map_ok cache_size m → map_ok cache_size (foldl f m es) ∧ tree (foldl f m es) ⊆ tree m) by by apply H.
  clear m Hm. induction es as [|e es IH]; intros m Hm; cbn [foldl]; [done|]. unfold f at 2 4.
  destruct (Nat.eqb e.2 k); [|by apply IH]. destruct (IH (erase m e.1)) as [? Hs]; [by apply erase_ok|]. split; [done|].
  intros x Hx. apply Hs in Hx. by apply list_elem_of_filter in Hx as [].
Qed.

Lemma insert_ranges_ok rs k : ∀ m m', map_ok cache_size m → Forall reported rs → insert_ranges m rs k = Ok m' →
  map_ok cache_size m' ∧ ∀ e, e ∈ tree m' → e ∈ tree m ∨ e.2 = k ∧ reported e.1.
Proof.
  unfold insert_ranges. induction rs as [|r rs IH]; intros m m' Hm Hf H; cbn [foldM] in H.
  { injection H as <-. split; [done|]. auto. }
  apply Forall_cons in Hf as [Hr Hf]. apply bind_ok in H as (m1 & H1 & H). apply bind_ok in H1 as ([o m2] & Hi & H1).
  destruct o as [e|]; [|done]. injection H1 as ->. apply insert_ok in Hi as (Hm1 & _ & Hp); [|done|apply Hr].
  destruct (IH m1 m' Hm1 Hf H) as [? He]. split; [done|]. intros x Hx. destruct (He x Hx) as [Hx1|]; [|by right].
  rewrite Hp in Hx1. apply elem_of_cons in Hx1 as [->|]; [by right|by left].
Qed.

(** The state while the peers report their ranges. *)
Record CInv (p : XParams) (x : XBar) : Prop := {
  ci_params : params x = p;
  ci_fresh : ∃ m rs d got all os, x = mkXBar p Clocked_new (replicate (master_ports p) Layer_new)
    (replicate (slaves p) Layer_new) m ∅ rs d got all (if has_default p then Some (masters p) else None) os ∧
    Forall (fun o => match o with OutRange _ => True | _ => False end) os;
  ci_map : map_ok cache_size (portMap x);
  ci_ports : ∀ e, e ∈ tree (portMap x) → (e.2 < master_ports p)%nat ∧ reported e.1;
  ci_default : useDefaultRange p = true → ∀ i, defaultPortID x = Some i → gotAddrRanges x !! i = Some true → range_ok (defaultRange x);
  ci_got : length (gotAddrRanges x) = master_ports p;
  ci_ranges : gotAllAddrRanges x = true → ∀ a, covered (xbarRanges x) a ↔
    covered (tree (portMap x)).*1 a ∨ useDefaultRange p = true ∧ ar_contains (defaultRange x) a = true;
}.

Lemma CInv_new p : CInv p (NoncoherentXBar_new p).
Proof.
  split; cbn; try done.
  - by do 6 eexists.
  - apply Map_new_ok.
  - set_solver.
  - intros _ i _ Hi. by apply lookup_replicate_1 in Hi as [[=] _].
  - apply length_replicate.
Qed.

(** The default range is the one its port reported last. *)
Definition report_ok (c : nat * list AddrRange) : Prop := Forall reported c.2.
Definition configure (x : XBar) (cs : list (nat * list AddrRange)) : outcome XBar :=
  foldM (fun x c => recvRangeChange x c.1 c.2) cs x.

Lemma foldl_put x os : foldl put x os =
  mkXBar (params x) (clock x) (reqLayers x) (respLayers x) (portMap x) (routeTo x) (xbarRanges x) (defaultRange x)
    (gotAddrRanges x) (gotAllAddrRanges x) (defaultPortID x) (outs x ++ os).
Proof.
  revert x. induction os as [|o os IH]; intros x; cbn [foldl]; [rewrite app_nil_r; by destruct x|].
  rewrite IH. cbn. by rewrite <- app_assoc.
Qed.

(** The map and the default range after a report. *)
Definition update_map (x : XBar) (k : nat) (ranges : list AddrRange) : outcome (AddrRangeMap (V := nat) * AddrRange) :=
  if bool_decide (defaultPortID x = Some k) then
    if useDefaultRange (params x) then
      match ranges with [r] => Ok (portMap x, r) | _ => Err Panic end
    else Ok (portMap x, defaultRange x)
  else
    let* m := insert_ranges (erase_port (portMap x) k) ranges k in Ok (m, defaultRange x).
Lemma update_map_ok p x k ranges m d : CInv p x → Forall reported ranges → (k < master_ports p)%nat →
  update_map x k ranges = Ok (m, d) →
  map_ok cache_size m ∧ (∀ e, e ∈ tree m → (e.2 < master_ports p)%nat ∧ reported e.1) ∧
  (useDefaultRange p = true → ∀ i, defaultPortID x = Some i → <[k := true]> (gotAddrRanges x) !! i = Some true → range_ok d).
Proof.
  intros [Ep _ Hm Hpo Hde _ _] Hf Hk H. unfold update_map in H. rewrite Ep in H.
  assert (Hkeep : defaultPortID x ≠ Some k → useDefaultRange p = true → ∀ i, defaultPortID x = Some i →
    <[k := true]> (gotAddrRanges x) !! i = Some true → range_ok (defaultRange x)).
  { intros Hne ? i Hi Hg. rewrite list_lookup_insert_ne in Hg by congruence. by apply (Hde H0 i). }
  case_bool_decide as Ed.
  - destruct (useDefaultRange p); [|by injection H as <- <-]. destruct ranges as [|r [|]]; [done| |done]. injection H as <- <-.
    apply Forall_singleton in Hf as [Hr _]. split_and!; [done|done|]. intros _ i _ _. apply Hr.
  - apply bind_ok in H as (m' & Hi & [= <- <-]). destruct (erase_port_ok (portMap x) k Hm) as [He Hs].
    destruct (insert_ranges_ok ranges k _ _ He Hf Hi) as [? Hin]. split_and!; [done| |by apply Hkeep].
    intros e Hex. destruct (Hin e Hex) as [Ho|[-> ?]]; [by apply Hpo, Hs|done].
Qed.

Lemma tree_bounded p (m : AddrRangeMap (V := nat)) :
  (∀ e, e ∈ tree m → (e.2 < master_ports p)%nat ∧ reported e.1) → Forall bounded (tree m).*1.
Proof.
  intros H. apply Forall_forall. intros r (e & -> & He)%list_elem_of_fmap. by apply reported_bounded, H.
Qed.

Lemma recvRangeChange_ok p x k ranges x' : CInv p x → Forall reported ranges → recvRangeChange x k ranges = Ok x' → CInv p x'.
Proof.
  intros Hx Hf H. pose proof Hx as [Ep (m0 & rs0 & d0 & got0 & all0 & os & Ex & Hos) Hm Hpo Hde Hgl Hra].
  unfold recvRangeChange in H. apply bind_ok in H as (g & Hg%vec_get_ok & H). apply bind_ok in H as ([m d] & Hud & H).
  fold (update_map x k ranges) in Hud. pose proof (lookup_lt_Some _ _ _ Hg) as Hk. rewrite Hgl in Hk.
  destruct (update_map_ok p x k ranges m d Hx Hf Hk Hud) as (Hm' & Hpo' & Hde'). rewrite Ep in H.
  set (got := <[k := true]> (gotAddrRanges x)) in *. assert (length got = master_ports p) by (unfold got; by rewrite length_insert).
  destruct (if gotAllAddrRanges x then true else forallb id got) eqn:Eall.
  2:{ injection H as <-. split; cbn; try done. subst x. by do 6 eexists. }
  apply bind_ok in H as (acc & Hacc & H). apply bind_ok in H as (rs & Hag & H). apply bind_ok in H as (u & Hchk & [= <-]).
  rewrite foldl_put. assert (Hacc' : acc = (if useDefaultRange p then [d] else []) ∧ (useDefaultRange p = true → range_ok d)).
  { destruct (useDefaultRange p); [|by injection Hacc as <-]. apply bind_ok in Hacc as (u' & Hu & [= <-]). split; [done|]. intros _.
    destruct (defaultPortID x) as [i|] eqn:Ei; [|done]. apply bind_ok in Hu as (b & Hb%vec_get_ok & Hu%panic_if_ok).
    apply negb_false_iff in Hu as ->. by apply (Hde' eq_refl i). }
  destruct Hacc' as [-> Hrd]. split; cbn; try done.
  - subst x. do 6 eexists. split; [done|]. apply Forall_app. split; [done|]. apply Forall_fmap, Forall_true. done.
  - intros _ a. rewrite (aggregate_covers (useDefaultRange p) d Hrd (tree m).*1 _ [] rs Hag (tree_bounded p m Hpo')); [|done|].
    + rewrite covered_nil. destruct (useDefaultRange p); rewrite ?covered_one, ?covered_nil; naive_solver.
    + intros ->. set_solver.
Qed.

Lemma configure_ok p cs x : Forall report_ok cs → configure (NoncoherentXBar_new p) cs = Ok x → CInv p x.
Proof.
  intros Hcs. generalize (CInv_new p). generalize (NoncoherentXBar_new p) as x0. unfold configure.
  induction cs as [|[k rs] cs IH]; intros x0 Hx0 H; cbn [foldM] in H; [by injection H as <-|].
  apply Forall_cons in Hcs as [Hr Hcs]. apply bind_ok in H as (x1 & H1 & H). apply (IH Hcs x1); [|done].
  by apply (recvRangeChange_ok p x0 k rs).
Qed.

(** Once every peer has reported, the crossbar is ready for packets. *)
Lemma configured_ready p x : params_ok p → 0 < clockPeriod p < 2 ^ 31 → CInv p x → gotAllAddrRanges x = true → XInv None 0 x.
Proof.
  intros Hp Hper [Ep (m & rs & d & got & all & os & Ex & Hos) Hm Hpo _ _ _] Hg.
  assert (Hnew : ∀ n k l, replicate n Layer_new !! k = Some l → l = Layer_new) by (intros ? ? ? ?%lookup_replicate_1; naive_solver).
  assert (Hw : ∀ n, waits (replicate n Layer_new) = []) by (induction n; [done|]; by cbn).
  split; rewrite ?Ep; try done.
  - rewrite Ex. unfold clock_ok. cbn. lia.
  - intros r dd [(e & He & _ & <-)|(_ & Hd & _)].
    + rewrite Ex. cbn. rewrite length_replicate. by apply Hpo.
    + rewrite Ex in Hd |- *. cbn in *. rewrite length_replicate. unfold master_ports. destruct (has_default p); simplify_eq. lia.
  - intros req k l Hl. rewrite Ex in Hl. destruct req; cbn in Hl; apply Hnew in Hl as ->; by cbn; auto.
  - intros req. rewrite Ex. destruct req; cbn [layers reqLayers respLayers]; rewrite Hw; constructor.
  - intros k l Hl. rewrite Ex in Hl. cbn in Hl. by apply Hnew in Hl as ->.
  - rewrite Ex. cbn. clear -Hos. unfold routes. generalize (∅ : gmap nat nat) as mm. intros mm.
    induction Hos as [|o os Ho _ IH]; [done|]. cbn. by destruct o.
  - intros q s Hq. rewrite Ex in Hq. cbn in Hq. done.
  - rewrite Ex. cbn. eapply Forall_impl; [done|]. by intros [].
Qed.

(** ** Soundness *)

(** C34: a crossbar whose peers have reported their ranges, with requests,
    refusals, retries, responses and draining in any order, and packets sent
    from within a retry: no assertion of the code fails and no packet the peers
    may send is mishandled; a port waits in one place at most; wherever ports
    wait, the layer's event is scheduled or its peer owes a retry; every request
    went to the one port whose range it belongs to; every response went to the
    port that waits for it, and the routing table holds exactly the requests
    that still wait; and the ranges the crossbar reports are those of its ports.
    The requests are for addresses the port map can find, see [missable]. *)
Theorem xbar_sound p cs x0 cur x (Hp : params_ok p) (Hper : 0 < clockPeriod p < 2 ^ 31) (Hcs : Forall report_ok cs)
    (Hcfg : configure (NoncoherentXBar_new p) cs = Ok x0) (Hall : gotAllAddrRanges x0 = true) (Hrun : xrun x0 cur x) :
  (∀ c, call_ok x c → ∃ x', do_call x cur c = Ok x') ∧
  (∀ req k l nested, layers req x !! k = Some l → releaseEvent l = Some cur →
     nested_ok (release_begin req x k) req cur k nested → ∃ x', release req x cur k nested = Ok x') ∧
  (∀ m l q nested, reqLayers x !! m = Some l → waitingForPeer l = Some q →
     nested_ok (retry_begin x m) true cur m nested → ∃ x', recvReqRetry x cur m nested = Ok x') ∧
  (∀ req, NoDup (waits (layers req x))) ∧
  (∀ req k l q, layers req x !! k = Some l → q ∈ waiting l →
     (∃ t, releaseEvent l = Some t ∧ cur ≤ t) ∨ req = true ∧ is_Some (waitingForPeer l)) ∧
  (∀ src dst pkt e a, OutReq src dst pkt e a ∈ outs x → goes_to x0 (getAddrRange pkt) dst) ∧
  routes (outs x) = Some (routeTo x) ∧
  (∀ a, covered (xbarRanges x0) a ↔
     covered (tree (portMap x0)).*1 a ∨ useDefaultRange p = true ∧ ar_contains (defaultRange x0) a = true).
Proof.
  pose proof (configure_ok p cs x0 Hcs Hcfg) as Hc. pose proof (configured_ready p x0 Hp Hper Hc Hall) as H0.
  destruct (xrun_ok x0 cur x H0 Hrun) as [Hx Hs]. split_and!.
  - intros c Hok. destruct (do_call_ok _ _ _ _ Hx Hok) as (x' & ? & _). by exists x'.
  - intros req k l nested Hk Hr Hn. destruct (layer_release_ok cur req k x l nested Hx Hk Hr Hn) as (x' & ? & _). by exists x'.
  - intros m l q nested Hk Hr Hn. destruct (recvReqRetry_ok cur m x l q nested Hx Hk Hr Hn) as (x' & ? & _). by exists x'.
  - apply Hx.
  - intros req k l q Hk Hq. pose proof (xi_layers _ _ _ Hx req k l Hk) as Hi. unfold layer_inv in Hi. unfold waiting in Hq.
    destruct (state l); [destruct Hi as (_ & Hi & _)|destruct Hi as (t & ? & ? & _); left; by exists t|by destruct Hi].
    right. destruct (waitingForPeer l) as [peer|] eqn:Ep; [|rewrite Hi in Hq by done; by apply elem_of_nil in Hq].
    destruct req; [by split|]. by rewrite (xi_resp _ _ _ Hx k l Hk) in Ep.
  - intros src dst pkt e a Ho. pose proof (xi_outs _ _ _ Hx) as Hou. rewrite Forall_forall in Hou. apply Hou in Ho.
    apply (goes_to_same x x0); [|done]. destruct Hs. split; intros; congruence.
  - apply Hx.
  - by apply Hc.
Qed.

(** *** An example run

    Two ports send to the same slave; the second waits, is retried and refused,
    and the first gets its response. *)
Definition xp_ex : XParams := mkXParams 1 0 1 2 1000 1000000 false 2 false 2.
Definition reports_ex : list (nat * list AddrRange) :=
  [(1%nat, [plain 0x2000 0x3000]); (0%nat, [plain 0x1000 0x2000; plain 0x8000 0x9000])].
Definition xpkt (req : nat) (c : MemCmd) (a : Z) : XPkt := mkXPkt req c a 4 0 0 false false.
Definition try_ (o : outcome XBar) : XBar := match o with Ok x => x | Err _ => NoncoherentXBar_new xp_ex end.
Definition xb0 : XBar := Eval vm_compute in try_ (configure (NoncoherentXBar_new xp_ex) reports_ex).
Definition xb1 : XBar := Eval vm_compute in try_ (do_call xb0 0 (CallReq 0 (xpkt 7 ReadReq 0x1000) true)).
Definition xb2 : XBar := Eval vm_compute in try_ (do_call xb1 0 (CallReq 1 (xpkt 8 WriteReq 0x8ffc) true)).
Definition again_ex : list Call := [CallReq 1 (xpkt 8 WriteReq 0x8ffc) false].
Definition xb3 : XBar := Eval vm_compute in try_ (release true xb2 1000 0 again_ex).
Definition xb4 : XBar := Eval vm_compute in try_ (do_call xb3 1000 (CallResp 0 (xpkt 7 ReadResp 0x1000))).

Lemma routable_ex x a d : tree (portMap x) = tree (portMap xb0) → params x = xp_ex →
  In (a, d) [(0x1000, 0%nat); (0x8ffc, 0%nat)] → routable x (RangeSize a 4).
Proof.
  intros Et Ep Ha. unfold routable, goes_to. rewrite Et, Ep. destruct Ha as [[= <- <-]|[[= <- <-]|[]]].
  all: split; [by split; [split; split|..]|]; split;
    [intros e He; repeat (apply elem_of_cons in He as [->|He]; [by vm_compute|]); by apply elem_of_nil in He|].
  - exists 0%nat. left. exists (plain 0x1000 0x2000, 0%nat). split; [set_solver|]. by vm_compute.
  - exists 0%nat. left. exists (plain 0x8000 0x9000, 0%nat). split; [set_solver|]. by vm_compute.
Qed.
Lemma req_ok_ex x s q c a d : tree (portMap x) = tree (portMap xb0) → params x = xp_ex → (s < length (respLayers x))%nat →
  bool_decide (s ∈ waits (reqLayers x)) = false → routeTo x !! q = None →
  In (a, d) [(0x1000, 0%nat); (0x8ffc, 0%nat)] → req_ok x s (xpkt q c a).
Proof.
  intros Et Ep Hs Hw Hr Ha. split; try done.
  - by apply bool_decide_eq_false in Hw.
  - by apply (routable_ex x a d).
  - unfold delay_ok. rewrite Ep. cbn. unfold inU. lia.
Qed.

Lemma reported_plain a b : 0 ≤ a → a + 1 < b → b < 2 ^ 64 → reported (plain a b).
Proof.
  intros. split; [|cbn; lia]. split; [split; split; cbn; lia|cbn; lia| |done|by eexists].
  unfold ar_size. cbn [plain ar_masks ar_start ar_end length Z.of_nat]. rewrite Z.shiftr_0_r, wrapU_id by (split; lia). lia.
Qed.

Lemma xbar_sound_witness :
  (∀ req, NoDup (waits (layers req xb4))) ∧ routes (outs xb4) = Some (routeTo xb4) ∧ routeTo xb4 = ∅.
Proof.
  assert (Hr : xrun xb0 1000 xb4).
  { apply (xr_step _ _ xb3); [|apply (st_call _ _ (CallResp 0 (xpkt 7 ReadResp 0x1000)))].
    - apply (xr_step _ _ xb2);
        [|apply (st_release _ _ true 0%nat (mkLayer BUSY [1%nat] None (Some 1000) Running) again_ex); [done|done| |by vm_compute]].
      + apply (xr_time _ 0); [|lia|lia|].
        * apply (xr_step _ _ xb1); [|apply (st_call _ _ (CallReq 1 (xpkt 8 WriteReq 0x8ffc) true)); [|by vm_compute]].
          -- apply (xr_step _ _ xb0); [apply xr_start|apply (st_call _ _ (CallReq 0 (xpkt 7 ReadReq 0x1000) true)); [|by vm_compute]].
             apply (req_ok_ex xb0 0 7 ReadReq 0x1000 0); try done; try (cbn; lia); by left.
          -- apply (req_ok_ex xb1 1 8 WriteReq 0x8ffc 0); try done; try (cbn; lia); by right; left.
        * intros [] [|[|k]] l t Hl Ht; cbn in Hl; simplify_eq; cbn in Ht; by simplify_eq.
      + cbn [nested_ok]. vm_compute (release_begin _ _ _). cbn [nested_ok]. vm_compute (start_retry _ _ _).
        split; [|done]. apply (req_ok_ex _ 1 8 WriteReq 0x8ffc 0); try done; try (cbn; lia); by right; left.
    - split; [cbn; lia|by apply (bool_decide_unpack _)|by eexists|]. unfold delay_ok. cbn. unfold inU. lia.
    - by vm_compute. }
  destruct (xbar_sound xp_ex reports_ex xb0 1000 xb4) as (_ & _ & _ & H1 & _ & _ & H2 & _);
    [by split| done| |by vm_compute|done|done|done].
  repeat first [apply reported_plain; lia | apply Forall_nil; exact I | apply Forall_cons; split | progress unfold report_ok; cbn [snd]].
Defined.
