(* ===== verification/Wiring.v ===== *)
(** Configuration: how the ports of the devices come to exist ([getPort] of
    [comm_interface.cc], [stream_buffer.cc], [stream_dma.cc], [io_acc.cc],
    [noncoherent_dma.cc] and their base classes), how a stream master port is
    bound ([stream_port.{hh,cc}], [mem/port.cc], [sim/port.hh]), the address
    ranges of the stream DMA, the cluster object, and what the destructors of
    the DMA FIFOs leave behind.  The theorem says that wiring a communication
    interface gives the state its model starts from. *)
From Stdlib Require Import Ascii String.
From stdpp Require Import gmap strings.
From S2P Require Import Prelude MemRequest AddrRange CommInterface CommSpec DmaEvents.

#[local] Open Scope string_scope.
#[local] Open Scope list_scope.
#[local] Open Scope Z_scope.

(** ** getPort *)

(** What a call returns a reference to. *)
Inductive PortRef :=
  | RefPort (pid : PortId)
  | RefPio
  | RefDma
  | RefStreamIn
  | RefStreamOut
  | RefAcc
  | RefMem.

(** [SimObject::getPort]: there is no such port. *)
Definition SimObject_getPort (if_name : string) : outcome PortRef := Err Panic.

Definition PioDevice_getPort (if_name : string) (idx : Z) : outcome PortRef :=
  if bool_decide (if_name = "pio") then Ok RefPio else SimObject_getPort if_name.
Definition DmaDevice_getPort (if_name : string) (idx : Z) : outcome PortRef :=
  if bool_decide (if_name = "dma") then Ok RefDma else PioDevice_getPort if_name idx.
Definition NoncoherentDma_getPort (if_name : string) (idx : Z) : outcome PortRef :=
  if bool_decide (if_name = "cluster_dma") then Ok RefAcc else DmaDevice_getPort if_name idx.
Definition StreamDma_getPort (if_name : string) (idx : Z) : outcome PortRef :=
  if bool_decide (if_name = "stream_in") then Ok RefStreamIn
  else if bool_decide (if_name = "stream_out") then Ok RefStreamOut
  else DmaDevice_getPort if_name idx.
Definition StreamBuffer_getPort (if_name : string) (idx : Z) : outcome PortRef :=
  if bool_decide (if_name = "stream_in") then Ok RefStreamIn
  else if bool_decide (if_name = "stream_out") then Ok RefStreamOut
  else SimObject_getPort if_name.
Definition IOAcc_getPort (if_name : string) (idx : Z) : outcome PortRef :=
  if bool_decide (if_name = "mem_side") then Ok RefMem else SimObject_getPort if_name.

(** The vectors of port pointers of a communication interface while it is
    wired; [None] is a null pointer. *)
Definition Vectors : Type := PortKind → list (option Port).
Definition set_vector (w : Vectors) (k : PortKind) (v : list (option Port)) : Vectors :=
  fun k' => if decide (k' = k) then v else w k'.

(** [v.resize(n, nullptr)]. *)
Definition resize_null (v : list (option Port)) (n : nat) : list (option Port) :=
  take n v ++ replicate (n - length v) None.

(** The body for one vector.  [idx] is a signed 16-bit [PortID], compared as a
    [size_t]; [resize] throws [std::length_error], which nothing catches, for
    more than [max_size()] pointers. *)
Definition vector_max : Z := 2 ^ 60 - 1.
Definition vector_port (v : list (option Port)) (idx : Z) : outcome (list (option Port)) :=
  let* v :=
    if Z.of_nat (length v) <=? u64 idx then
      if vector_max <? u64 (idx + 1) then Err Panic else Ok (resize_null v (Z.to_nat (u64 (idx + 1))))
    else Ok v in
  if Z.of_nat (length v) <=? u64 idx then Err Undefined else
  let i := Z.to_nat (u64 idx) in
  let* p := vec_get v i in
  match p with
  | None => Ok (<[i := Some Port_new]> v)
  | Some _ => Ok v
  end.

Definition port_kind (if_name : string) : option PortKind :=
  if bool_decide (if_name = "local") then Some PLocal
  else if bool_decide (if_name = "acp") then Some PGlobal
  else if bool_decide (if_name = "stream") then Some PStream
  else if bool_decide (if_name = "spm") then Some PSPM
  else None.

Definition CommInterface_getPort (w : Vectors) (if_name : string) (idx : Z) : outcome (PortRef * Vectors) :=
  match port_kind if_name with
  | Some k =>
      let* v := vector_port (w k) idx in
      Ok (RefPort (k, Z.to_nat (u64 idx)), set_vector w k v)
  | None =>
      if bool_decide (if_name = "pio") then Ok (RefPio, w)
      else let* r := SimObject_getPort if_name in Ok (r, w)
  end.

(** The calls of a configuration, in order. *)
Definition wire (cs : list (string * Z)) (w : Vectors) : outcome Vectors :=
  foldM (fun w c => let* (_, w) := CommInterface_getPort w c.1 c.2 in Ok w) cs w.

Definition no_ports : Vectors := fun _ => [].

(** ** Binding a stream master port *)

(** The ports of a system by address.  A slave port is a stream slave or not;
    [ms_stream] is [None] before it is first assigned, as the constructor does
    not set it. *)
Inductive PortObj :=
  | MasterObj (slave : option nat) (ms_stream : option (option nat)) (connected : bool)
  | SlaveObj (is_stream : bool) (master : option nat) (connected : bool).
Abbreviation System_ := (gmap nat PortObj).

Definition StreamMasterPort_new : PortObj := MasterObj None None false.
Definition SlavePort_obj (is_stream : bool) : PortObj := SlaveObj is_stream None false.

(** [MasterPort::bind(peer)] and [StreamMasterPort::bind(peer)]. *)
Definition slaveBind (s : System_) (slave master : nat) : outcome System_ :=
  match s !! slave with
  | Some (SlaveObj st _ _) => Ok (<[slave := SlaveObj st (Some master) true]> s)
  | _ => Err Undefined
  end.
Definition stream_bind (s : System_) (p peer : nat) : outcome System_ :=
  match s !! p with
  | Some (MasterObj _ stream _) =>
      let stream := match s !! peer with
                    | Some (SlaveObj true _ _) => Some (Some peer)
                    | _ => stream
                    end in
      match s !! peer with
      | Some (SlaveObj _ _ _) => slaveBind (<[p := MasterObj (Some peer) stream true]> s) peer p
      | _ => Err Panic
      end
  | _ => Err Undefined
  end.

Definition slaveUnbind (s : System_) (slave : nat) : outcome System_ :=
  match s !! slave with
  | Some (SlaveObj st _ _) => Ok (<[slave := SlaveObj st None false]> s)
  | _ => Err Undefined
  end.
Definition stream_unbind (s : System_) (p : nat) : outcome System_ :=
  match s !! p with
  | Some (MasterObj None _ _) => Err Panic
  | Some (MasterObj (Some slave) _ _) =>
      let* s := slaveUnbind s slave in Ok (<[p := MasterObj None (Some None) false]> s)
  | _ => Err Undefined
  end.

(** [streamValid(len, isRead)]; [tvalid] is the virtual call on the slave. *)
Definition streamValid_at (s : System_) (tvalid : nat → Z → bool → bool) (p : nat) (len : Z) (isRead : bool)
    : outcome bool :=
  match s !! p with
  | Some (MasterObj _ (Some (Some slave)) _) => Ok (tvalid slave len isRead)
  | Some (MasterObj _ (Some None) _) => Ok true
  | _ => Err Undefined
  end.

(** [MasterPort::getAddrRanges]: what the slave answers. *)
Definition getAddrRanges_at (s : System_) (ranges : nat → list AddrRange) (p : nat) : outcome (list AddrRange) :=
  match s !! p with
  | Some (MasterObj (Some slave) _ _) => Ok (ranges slave)
  | _ => Err Undefined
  end.

(** ** The rest *)

Definition StreamDma_getAddrRanges (pioAddr pioSize : Z) : outcome (list AddrRange) :=
  let* _ := assert_ (negb (pioSize =? 0)) in Ok [RangeSize pioAddr pioSize].
Definition StreamDma_getStreamAddrRanges (streamAddr streamSize : Z) : outcome (list AddrRange) :=
  let* _ := assert_ (negb (streamSize =? 0)) in Ok [RangeSize streamAddr streamSize].

(** [AccCluster]: the interrupt controller it is given; the console interrupts
    only warn. *)
Record AccCluster := mkAccCluster { cl_system : nat; cl_gic : option nat }.
Definition AccCluster_new (system : nat) : AccCluster := mkAccCluster system None.
Definition setGic (c : AccCluster) (gic : nat) : AccCluster := mkAccCluster (cl_system c) (Some gic).
Definition postConsoleInt (c : AccCluster) : AccCluster := c.
Definition clearConsoleInt (c : AccCluster) : AccCluster := c.

(** A [DmaDoneEvent] with its parent pointer and its [AutoDelete] flag. *)
Record OwnedEvent := mkOwned { oe_event : DmaDoneEvent; oe_parent : bool; oe_autoDelete : bool }.
Definition owned (e : DmaDoneEvent) : OwnedEvent := mkOwned e true false.
Definition kill (e : OwnedEvent) : OwnedEvent := mkOwned (oe_event e) false true.

(** [~DmaReadFifo] and [~DmaWriteFifo]: how many events are deleted, and the
    ones left to the event queue. *)
Fixpoint destroy (pending : list OwnedEvent) : nat * list OwnedEvent :=
  match pending with
  | [] => (0%nat, [])
  | e :: pending =>
      let (n, left) := destroy pending in
      if _done (oe_event e) then (S n, left) else (n, kill e :: left)
  end.

(** [process()] of an event: whether [dmaDone] of the parent is called, and
    whether the event queue deletes it. *)
Definition process_event (e : OwnedEvent) : outcome (bool * bool) :=
  if negb (oe_parent e) then Ok (false, oe_autoDelete e) else
  let* _ := set_done (oe_event e) in Ok (true, oe_autoDelete e).

(** ** What they do *)

(** After the destructor no completion reaches the FIFO, and every event that
    was pending is deleted once, now or when it completes. *)
Lemma destroy_safe pending :
  (fst (destroy pending) + length (snd (destroy pending)) = length pending)%nat ∧
  Forall (fun e => process_event e = Ok (false, true)) (snd (destroy pending)).
Proof.
  induction pending as [|e pending [IH1 IH2]]; [done|]. cbn [destroy length].
  destruct (destroy pending) as [n l]. cbn [fst snd] in *. destruct (_done (oe_event e)); cbn [fst snd length].
  - split; [lia|done].
  - split; [lia|]. by constructor.
Qed.

(** Binding is symmetric and unbinding undoes it. *)
Lemma stream_bind_ok s p peer st o m c tv len rd :
  s !! p = Some (MasterObj o m false) → s !! peer = Some (SlaveObj st c false) → p ≠ peer →
  ∃ s1, stream_bind s p peer = Ok s1 ∧
    s1 !! peer = Some (SlaveObj st (Some p) true) ∧
    (∀ ranges, getAddrRanges_at s1 ranges p = Ok (ranges peer)) ∧
    (st = true → streamValid_at s1 tv p len rd = Ok (tv peer len rd)) ∧
    ∃ s2, stream_unbind s1 p = Ok s2 ∧ s2 !! peer = Some (SlaveObj st None false) ∧
      s2 !! p = Some (MasterObj None (Some None) false) ∧ streamValid_at s2 tv p len rd = Ok true.
Proof.
  intros Hp Hpeer Hne. unfold stream_bind. rewrite Hp, Hpeer. unfold slaveBind.
  rewrite lookup_insert_ne by done. rewrite Hpeer. eexists. split; [done|].
  split; [apply lookup_insert_eq|].
  set (s1 := <[peer := _]> _).
  assert (s1 !! p = Some (MasterObj (Some peer) (if st then Some (Some peer) else m) true)) as H1.
  { subst s1. rewrite lookup_insert_ne by done. rewrite lookup_insert_eq. by destruct st. }
  assert (s1 !! peer = Some (SlaveObj st (Some p) true)) as H2 by apply lookup_insert_eq.
  clearbody s1. split; [intros ranges; unfold getAddrRanges_at; by rewrite H1|].
  split; [intros ->; unfold streamValid_at; by rewrite H1|].
  unfold stream_unbind, slaveUnbind. rewrite H1, H2. cbn [mbind outcome_bind]. eexists. split; [done|].
  rewrite lookup_insert_ne, lookup_insert_eq by done. split; [done|].
  rewrite lookup_insert_eq. split; [done|]. unfold streamValid_at. by rewrite lookup_insert_eq.
Qed.

(** A new port bound to a slave that is no stream slave has no value there. *)
Example streamValid_plain :
  (let s := <[1%nat := StreamMasterPort_new]> (<[2%nat := SlavePort_obj false]> ∅) in
   let* s := stream_bind s 1 2 in streamValid_at s (fun _ _ _ => true) 1 4 true) = Err Undefined.
Proof. vm_compute. reflexivity. Qed.

(** *** Wiring *)

Lemma length_resize v n : length (resize_null v n) = n.
Proof. unfold resize_null. rewrite length_app, length_take, length_replicate. lia. Qed.
Lemma lookup_resize v n i :
  (length v ≤ n)%nat → resize_null v n !! i = if decide (i < length v)%nat then v !! i
    else if decide (i < n)%nat then Some None else None.
Proof.
  intros Hn. unfold resize_null. rewrite take_ge by lia. case_decide.
  - by rewrite lookup_app_l.
  - rewrite lookup_app_r by lia. case_decide.
    + by rewrite lookup_replicate_2 by lia.
    + apply lookup_ge_None. rewrite length_replicate. lia.
Qed.

(** The vector holds a new port at the indices of [I], null elsewhere. *)
Definition holds (v : list (option Port)) (I : list nat) : Prop :=
  ∀ i, match v !! i with
       | Some (Some p) => p = Port_new ∧ i ∈ I
       | _ => i ∉ I
       end.

Lemma vector_port_holds v I idx n :
  holds v I → 0 ≤ idx < 2 ^ 15 → (length v ≤ n)%nat → (Z.to_nat idx < n)%nat →
  ∃ v', vector_port v idx = Ok v' ∧ holds v' (Z.to_nat idx :: I) ∧ (length v' ≤ n)%nat.
Proof.
  intros Hv Hi Hn Hin. unfold vector_port. rewrite !wrapU_id by (split; lia).
  rewrite (proj2 (Z.ltb_ge vector_max (idx + 1))) by (unfold vector_max; lia).
  set (o1 := if Z.of_nat (length v) <=? idx then _ else Ok v).
  assert (∃ v1, o1 = Ok v1 ∧ holds v1 I ∧ (Z.to_nat idx < length v1 ≤ n)%nat) as (v1 & -> & Hv1 & Hlen).
  { subst o1. case_zbool; [|by exists v; split; [done|split; [done|lia]]].
    eexists. split; [done|]. rewrite length_resize. split; [|lia].
    intros i. rewrite lookup_resize by lia. specialize (Hv i). case_decide as E; [done|].
    rewrite lookup_ge_None_2 in Hv by lia. by case_decide. }
  cbn [mbind outcome_bind]. rewrite (proj2 (Z.leb_gt _ _)) by lia.
  destruct (lookup_lt_is_Some_2 v1 (Z.to_nat idx)) as [o Ho]; [lia|].
  unfold vec_get. rewrite Ho. cbn [mbind outcome_bind]. pose proof (Hv1 (Z.to_nat idx)) as Hx. rewrite Ho in Hx.
  destruct o as [p|].
  - eexists. split; [done|]. split; [|lia]. intros i. specialize (Hv1 i).
    destruct (v1 !! i) as [[p'|]|] eqn:Ei; [set_solver| |].
    + apply not_elem_of_cons. split; [congruence|done].
    + apply not_elem_of_cons. split; [congruence|done].
  - eexists. split; [done|]. rewrite length_insert. split; [|lia]. intros i. specialize (Hv1 i).
    destruct (decide (i = Z.to_nat idx)) as [->|Hne].
    + rewrite list_lookup_insert_eq by lia. set_solver.
    + rewrite list_lookup_insert_ne by done. destruct (v1 !! i) as [[p'|]|]; set_solver.
Qed.

(** The indices a configuration asks for, of one kind. *)
Fixpoint asked (k : PortKind) (cs : list (string * Z)) : list nat :=
  match cs with
  | [] => []
  | (s, i) :: cs => if decide (port_kind s = Some k) then Z.to_nat i :: asked k cs else asked k cs
  end.
Definition call_ok (n : PortKind → nat) (c : string * Z) : Prop :=
  match port_kind c.1 with
  | Some k => 0 ≤ c.2 < 2 ^ 15 ∧ (Z.to_nat c.2 < n k)%nat
  | None => c.1 = "pio"
  end.

Lemma wire_holds n cs : ∀ w I,
  Forall (call_ok n) cs → (∀ k, holds (w k) (I k) ∧ (length (w k) ≤ n k)%nat) →
  ∃ w', wire cs w = Ok w' ∧ ∀ k, holds (w' k) (asked k cs ++ I k) ∧ (length (w' k) ≤ n k)%nat.
Proof.
  induction cs as [|[s i] cs IH]; intros w I Hcs Hw; unfold wire in *; cbn [foldM].
  { by exists w. }
  apply Forall_cons in Hcs as [Hc Hcs]. unfold call_ok in Hc. cbn [fst snd] in *.
  unfold CommInterface_getPort. destruct (port_kind s) as [k|] eqn:Ek.
  - destruct Hc as [Hi Hin]. destruct (Hw k) as [Hv Hn].
    destruct (vector_port_holds (w k) (I k) i (n k) Hv Hi Hn Hin) as (v' & -> & Hv' & Hn').
    cbn [mbind outcome_bind]. 
    destruct (IH (set_vector w k v') (fun k' => if decide (k' = k) then Z.to_nat i :: I k else I k')) as (w' & E & Hw');
      [done|intros k'; unfold set_vector; case_decide; [by subst|apply Hw]|].
    exists w'. split; [done|]. intros k'. destruct (Hw' k') as [Hh ?]. split; [|done]. cbn [asked]. rewrite Ek.
    intros j. specialize (Hh j). destruct (decide (k' = k)) as [->|Hne].
    + rewrite decide_True by done. destruct (w' k !! j) as [[p|]|]; set_solver.
    + rewrite decide_False by congruence. done.
  - rewrite bool_decide_eq_true_2 by done. cbn [mbind outcome_bind]. destruct (IH w I Hcs Hw) as (w' & E & Hw'). exists w'. split; [done|].
    intros k. cbn [asked]. rewrite Ek. rewrite decide_False by done. apply Hw'.
Qed.

(** A communication interface whose port vectors are asked for without gaps, in
    any order and any number of times, ends up with the ports its model starts
    from: each vector full of new ports. *)
Theorem wiring_initial cfg n cs (Hcalls : Forall (call_ok n) cs)
    (Hall : ∀ k i, (i < n k)%nat → i ∈ asked k cs) :
  ∃ w, wire cs no_ports = Ok w ∧ ∀ k, w k = Some <$> ports (CommInterface_new cfg n).1 k.
Proof.
  destruct (wire_holds n cs no_ports (fun _ => [])) as (w & Hw & Hholds); [done| |].
  { intros k. split; [|simpl; lia]. intros i. apply not_elem_of_nil. }
  exists w. split; [done|]. intros k. simpl. rewrite fmap_replicate. destruct (Hholds k) as [Hh Hlen].
  rewrite app_nil_r in Hh. apply list_eq. intros i. specialize (Hh i).
  destruct (decide (i < n k)%nat) as [Hi|Hi].
  - rewrite lookup_replicate_2 by done. specialize (Hall k i Hi).
    destruct (w k !! i) as [[p|]|]; [by destruct Hh as [-> _]|done|done].
  - rewrite !lookup_ge_None_2; [done|rewrite length_replicate; lia|lia].
Qed.

Definition ex_calls : list (string * Z) := [("local", 1); ("pio", -1); ("spm", 0); ("local", 0); ("local", 1)].
Definition ex_counts (k : PortKind) : nat := match k with PLocal => 2%nat | PSPM => 1%nat | _ => 0%nat end.
Lemma wiring_initial_witness :
  ∃ w, wire ex_calls no_ports = Ok w ∧ ∀ k, w k = Some <$> ports (CommInterface_new ex_cfg ex_counts).1 k.
Proof.
  apply (wiring_initial ex_cfg ex_counts ex_calls).
  - repeat constructor; simpl; lia.
  - intros [] i Hi; simpl in *; try lia; destruct i as [|[|i]]; try lia; apply (bool_decide_unpack _); exact I.
Defined.

(** A gap stays null, and an index of minus one empties the vector. *)
Example wiring_gap : (let* w := wire [("local", 1)] no_ports in Ok (w PLocal)) = Ok [None; Some Port_new].
Proof. reflexivity. Qed.
Example wiring_invalid : wire [("local", 0); ("local", -1)] no_ports = Err Undefined.
Proof. reflexivity. Qed.
